(* ===== verification/_CoqProject ===== *)
-Q . S2P
Prelude.v
SafeMath.v
Ids.v
Bag.v
Snowball.v
SnowballTree.v
TreeSafety.v
Topological.v
TopologicalInv.v
TopologicalVote.v
TopologicalSafety.v
Snowman.v
Packer.v
Message.v
MessageRoundTrip.v
NodeBag.v
LinkedHashmap.v
Poll.v
PollSet.v
Database.v
MemDB.v
PrefixDB.v
VersionDB.v
DatabaseSpec.v
DbHelpers.v
Cache.v
CodecTypes.v
Codec.v
CodecSpec.v
CodecRoundTrip.v
CodecManager.v
LinkedDB.v
LinkedDBSpec.v
LinkedDBMap.v
GoStd.v
Sampler.v
WeightedSampler.v
WithoutReplacement.v
Validators.v
Throttling.v
ThrottlingInv.v
ThrottlingSteps.v
ThrottlingLive.v
Secp256k1fx.v
Utxo.v
PlatformUtxo.v
PlatformUtxoSpec.v
PlatformUtxoSafety.v
PlatformSpend.v
Snowstorm.v
SnowstormInv.v
SnowstormReject.v
SnowstormAccept.v
SnowstormPoll.v
SnowstormAdd.v
SnowstormSafety.v
GoHeap.v
Stakers.v
StakerIters.v
StakerChanges.v
StakerSets.v
StakerDiff.v
StakerApply.v
StakerRefine.v
DelegatorWeight.v
DelegatorLimit.v
Reward.v
PlatformTxs.v
PlatformState.v
PlatformBooks.v
ProposalExecutor.v
AdvanceTime.v
ChainRuns.v
BooksTime.v
Books.v
StandardExecutor.v
StandardBooks.v
BlockManager.v
BlockViews.v
BlockBooks.v
