(* ===== verification/Prelude.v ===== *)
(** * Verification library for the savannahnode validator node.

    The program (src/, Go) is a node of a proof-of-stake network.  It gossips and
    queries over a peer-to-peer network (src/network, src/message), decides blocks
    by repeated sampling of the validators (src/snow), and hands decisions to
    virtual machines that keep their state in a key-value database (src/vms,
    src/database).  The parts interact like this:

    - a virtual machine issues blocks; the Snowman engine asks a sample of the
      validators (src/snow/validators, src/utils/sampler) for their preferred
      block and collects the answers in polls (src/snow/consensus/snowman/poll);
    - the votes of a finished poll are recorded in the tree of processing blocks
      (src/snow/consensus/snowman), whose forks are decided by a patricia tree of
      snowball instances (src/snow/consensus/snowball);
    - transactions of the exchange chain are decided in a graph of their conflicts
      (src/snow/consensus/snowstorm) once what they depend on is
      (src/snow/events);
    - messages are packed (src/utils/wrappers, src/message) and throttled by their
      size (src/network/throttling);
    - state goes through the reflective codec (src/codec) into stacked databases
      (src/database), with caches (src/cache) in front;
    - transactions consume unspent outputs and produce others
      (src/vms/components/avax); who may spend an output is decided by the feature
      extension (src/vms/secp256k1fx), and the platform chain
      (src/vms/platformvm) checks, applies and builds transactions with them;
    - the platform chain also keeps who stakes: each block makes a difference over
      the state of its parent (platformvm/state), a proposal has one difference for
      each outcome (platformvm/txs/executor), and accepting a block applies its
      difference to the base.

    ** Files

    - [Prelude]: results of fallible calls, machine integers, sums, and the
      automation shared by all files; [GoStd]: [float64], [sort.Sort].
    - Arithmetic: [SafeMath] is utils/math/safe_math.go.
    - Identifiers: [Ids] (ids/id.go, bits.go, slice.go), [Bag] (ids/bag.go),
      [NodeBag] (ids/node_id.go, node_id_bag.go).
    - Snowball: [Snowball] (the slush, snowflake and snowball instances, flat.go,
      parameters.go), [SnowballTree] (tree.go), [TreeSafety] (its theorems).
    - Snowman: [Topological] (snowman/topological.go, snowman_block.go),
      [TopologicalInv], [TopologicalVote], [TopologicalSafety] (invariant and
      proofs), [Snowman] (the theorems).
    - Snowstorm: [Snowstorm] (snowstorm/directed.go, snowball.go, acceptor.go,
      rejector.go, snow/events/blocker.go), [SnowstormInv] (the invariant),
      [SnowstormReject], [SnowstormAccept], [SnowstormPoll], [SnowstormAdd] (one
      file per kind of change), [SnowstormSafety] (the theorems).
    - Messages: [Packer] (utils/wrappers/packing.go), [Message] (message/*.go),
      [MessageRoundTrip].
    - Polls: [LinkedHashmap] (utils/linkedhashmap), [Poll] and [PollSet]
      (snowman/poll).
    - Databases: [Database] (the interface, its contract, nodb), [MemDB],
      [PrefixDB], [VersionDB], [DatabaseSpec] (theorems over any stack of them),
      [DbHelpers] (helpers.go), [Cache] (src/cache), [LinkedDB], [LinkedDBSpec],
      [LinkedDBMap] (database/linkeddb).
    - Codec: [CodecTypes] (Go types and values, struct_fielder.go, linearcodec,
      hierarchycodec), [Codec] (reflectcodec, manager.go), [CodecSpec],
      [CodecRoundTrip], [CodecManager].
    - Sampling: [Sampler] (uniform samplers), [WeightedSampler],
      [WithoutReplacement] (utils/sampler), [Validators] (snow/validators).
    - Throttling: [Throttling] (network/throttling), [ThrottlingInv],
      [ThrottlingSteps], [ThrottlingLive].
    - Transactions: [Secp256k1fx] (vms/secp256k1fx, platformvm/stakeable), [Utxo]
      (vms/components/avax), [PlatformUtxo] (platformvm/utxo/handler.go and the
      outputs of platformvm/state/diff.go), [PlatformUtxoSpec],
      [PlatformUtxoSafety], [PlatformSpend] (their theorems).
    - Stakers: [GoHeap] (container/heap), [Stakers] (staker.go, priorities.go,
      stakers.go and the iterators of platformvm/state, platformvm/validator),
      [StakerIters], [StakerChanges] (what iterators yield), [StakerSets] (the
      interface of a set of stakers and the base), [StakerDiff] (differences),
      [StakerApply] (Apply), [StakerRefine] (their specification); [DelegatorWeight],
      [DelegatorLimit] (GetMaxWeight and canDelegate of proposal_tx_executor.go).
    - Platform chain: [Reward] (platformvm/reward), [PlatformTxs] (platformvm/txs),
      [PlatformState] (the rest of state/diff.go), [ProposalExecutor]
      (proposal_tx_executor.go), [PlatformBooks] (runs of equal operations on
      stakers, the accounts of a state), [AdvanceTime], [ChainRuns], [BooksTime],
      [Books] (their theorems), [StandardExecutor] (standard_tx_executor.go,
      atomic_tx_executor.go and the loop of verifier.StandardBlock),
      [StandardBooks] (its theorem).
    - Blocks: [BlockManager] (platformvm/blocks and blocks/executor), [BlockViews]
      (what a state shows, and what a difference does to it), [BlockBooks] (the
      theorems over all runs of the manager).

    ** How code becomes definitions

    A struct is a [Record], an enumeration or an interface with known
    implementations an [Inductive] type or a type class ([Database], [PollImpl],
    [TypeCodec], [Weighted], [Uniform], [WithoutReplacement], [ChainContext],
    [TxContext], [UTXOSet], [StakerSet], [Ledger], [Mempool], [SharedMemory]) whose laws are a second class:
    clients are proved against the laws, implementations prove them; a difference
    over a parent with the laws has them again, so differences stack.  A method takes the state and returns its results and the new
    state; [Err] is a returned error, [None] a run-time panic (nil dereference,
    index out of range, closing a closed channel) or, for a function with fuel, the
    end of the fuel.  A [uint64] is a [Z] with [wrap64] written out where the code
    may wrap around.  Pointers that are shared (elements of a linked list, metadata
    of a waiting message) are keys of an explicit store.

    What the language leaves open is a parameter with its documented behaviour:
    the order of [range] over a map ([GoRange]), the order of equal elements in
    [sort.Sort] ([GoSort]), conversions of floating-point numbers out of range
    ([GoConv]), the growth of slices ([GoAppend]).  Code outside of src/ is a
    parameter too: the random generator ([Rng]), the compression library
    ([GzipLib]), the certificate parser ([CertLib]), the hash function of prefixes,
    signatures and hashes of transactions ([Crypto]), the virtual machine behind
    consensus ([ChainContext], [TxContext]), the balanced trees of github.com/google
    ([BTree]).

    ** What the theorems show

    - Consensus: an instance is final exactly when the required run of polls
      happened; final and decided values never change; the patricia tree is well
      formed and its lazy resets are correct; Snowman accepts a chain, never two
      siblings, and no call panics, diverges or misuses the virtual machine.
    - Conflicting transactions: over all runs without an error no input is consumed
      by two accepted transactions, a transaction with inputs is accepted only when
      its dependencies are, decisions are final, the preferences are free of
      conflicts, and what is not preferred has an edge to a conflict.
    - Wire and storage formats: messages and values of the codec are read back as
      written, encodings are unique, and parsing any bytes returns.
    - Databases: every stack of databases is a finite map; versioned databases
      change what is below exactly on commit; prefixes are isolated; the linked
      list in a database is a list; clearing a prefix terminates.
    - Polls, caches, linked maps, validator sets: refinement of an abstract
      specification under any sequence of calls.
    - Samplers: the Fisher-Yates sampler draws every sample from exactly one
      sequence of draws; a weighted sampler answers each index for exactly its
      weight's share of the values (the array sampler whenever its search ends).
    - Throttling: the books balance in every interleaving, and without validators
      every waiting message that is not empty is let through.
    - Transactions: a transfer is accepted exactly when nothing is wrong with it,
      and then, once bootstrapped, enough distinct owners have signed; accepted transactions balance
      without overflow, keep locked funds locked and never increase the supply of
      an asset; what [Spend] builds is accepted.
    - Stakers: differences stacked on any set refine a map of validators and a map
      of delegators, iterators yield each staker once and in order, and applying a
      difference leaves the same maps unless a validator was put in a slot the base
      has filled; the weight of a validator over a period is the maximum of what is
      staked to it.
    - Platform chain: rewards are exact and stay under the cap of the supply; the
      time advances exactly when it may, moving exactly the stakers that are due;
      both outcomes of any proposal keep the books ([Books]): the AVAX in outputs,
      staked, promised and on other chains never exceeds the supply, every staker
      is backed by its transaction and under its own key; a standard block keeps
      them too, with what it imports taken from the shared memory once
      ([StandardBooks]).
    - Blocks: in every state the manager of the platform chain can reach by
      verifying, accepting and rejecting blocks, the state of each block that may
      still be accepted is found and its books are in order; accepting fails
      only when the shared memory refuses, and does not change what descendants show
      ([BlockBooks]).
    Theorems about concrete runs show where code and promise part (the findings):
    the preferred branch of Snowman, the array sampler, the overflow of a validator
    set, the throttler with validators, rejections that cascade and whitelists that
    outlive their transaction in the conflict graph, transactions without inputs
    that do not wait for their dependencies, a validator replaced within one
    block, a commit over a block that is no proposal.

    ** Bounds and fuel

    Loops with a bound in the code are structural.  [unmarshal] has fuel for a
    quarter of the bytes, one level of interface per four bytes, and
    [codec_manager_returns] shows it is enough; the loops of Snowman have the
    number of blocks of the tree; the search of the heap sampler has the length of
    the heap; rejections and acceptances nest no deeper than there are processing
    transactions; the loop of the throttler over waiting messages has one more round
    than there are messages; an iterator over stakers has as many rounds as it has
    stakers left ([it_left]); the state of a block is found within as many calls as
    its height, since heights go down; each is shown to end before its fuel.  The loops that
    may not end in the code (resampling, the search of the array sampler) take the
    number of rounds to follow as an argument.

    ** Not modelled

    Locks (every call between [Lock] and [Unlock] is one step), metrics, logging,
    clocks, contexts of goroutines, the capacity of slices and the reuse of pooled
    buffers.  Whole parts that are glue, generated or I/O: the APIs and their
    clients (src/api, src/wallet), configuration and start-up (src/config, src/node,
    src/app, src/main, src/genesis), generated protocol buffers (src/proto), remote
    databases and virtual machines (rpcdb, rpcchainvm), sockets and peers
    (src/network/peer, dialer, src/nat, src/ipcs), the engines and bootstrappers
    (src/snow/engine, src/snow/networking), the consensus on vertices
    (src/snow/consensus/avalanche), the virtual machines (src/vms) apart
    from unspent outputs, spending, stakers, transactions and blocks of the platform
    chain (not its state on disk, mempool, block builder and API), the indexer.  PROJECT.json lists every part with its reason. *)

From Stdlib Require Export ZArith Lia.
From stdpp Require Export sorting.
From stdpp Require Export prelude strings gmap fin_maps fin_sets countable list_numbers list.

(** ** Scope and results of fallible operations *)

Declare Scope node_scope.
Delimit Scope node_scope with node.

(** A Go function that returns [(value, error)] returns an [Ok value] or an
    [Err error]: every such function of the node leaves the value unused when
    the error is not nil. *)
Inductive result (E A : Type) : Type :=
| Ok (a : A)
| Err (e : E).
Arguments Ok {E A} a.
Arguments Err {E A} e.

Definition result_bind {E A B} (r : result E A) (k : A → result E B) : result E B :=
  match r with Ok a => k a | Err e => Err e end.

Notation "'let?' x := r 'in' k" := (result_bind r (λ x, k))
  (at level 10, x name, r at level 100, k at level 200) : node_scope.
Notation "'let?' ' p := r 'in' k" := (result_bind r (λ p, k))
  (at level 10, p strict pattern, r at level 100, k at level 200) : node_scope.

Definition is_ok {E A} (r : result E A) : bool :=
  match r with Ok _ => true | Err _ => false end.

Lemma result_bind_ok {E A B} (r : result E A) (k : A → result E B) b :
  result_bind r k = Ok b ↔ ∃ a, r = Ok a ∧ k a = Ok b.
Proof. destruct r; simpl; naive_solver. Qed.

Lemma result_bind_assoc {E A B C} (r : result E A) (f : A → result E B) (g : B → result E C) :
  result_bind (result_bind r f) g = result_bind r (λ a, result_bind (f a) g).
Proof. by destruct r. Qed.

Lemma result_bind_err {E A B} (r : result E A) (k : A → result E B) e :
  result_bind r k = Err e ↔ r = Err e ∨ ∃ a, r = Ok a ∧ k a = Err e.
Proof. destruct r; simpl; naive_solver. Qed.

#[export] Instance result_eq_dec {E A} `{EqDecision E, EqDecision A} :
  EqDecision (result E A).
Proof. solve_decision. Defined.

(** ** Machine integers *)

Open Scope Z_scope.

Definition MaxUint64 : Z := 2 ^ 64 - 1.
Definition MaxUint32 : Z := 2 ^ 32 - 1.
Definition MaxUint16 : Z := 2 ^ 16 - 1.

(** Reduction of a mathematical integer to the unsigned type of [w] bits. *)
Definition wrap (w x : Z) : Z := x mod 2 ^ w.
Definition is_uint (w x : Z) : Prop := 0 ≤ x < 2 ^ w.
Abbreviation wrap64 := (wrap 64).
Abbreviation is_u64 := (is_uint 64).

#[export] Instance is_uint_dec w x : Decision (is_uint w x).
Proof. unfold is_uint. apply _. Defined.

Lemma wrap_range w x : 0 ≤ w → is_uint w (wrap w x).
Proof. intros. apply Z.mod_pos_bound. lia. Qed.

Lemma wrap_id w x : is_uint w x → wrap w x = x.
Proof. intros. by apply Z.mod_small. Qed.

(** ** Iteration over a Go map

    A Go [for k, v := range m] visits the entries of [m] in an order the
    language leaves open.  [GoRange] is that order: any enumeration of the
    entries.  The theorems hold for every instance; [go_range_std] is the one
    the concrete examples run with. *)
Class GoRange : Type := {
  go_range : ∀ {K V : Type} `{Countable K}, gmap K V → list (K * V);
  go_range_perm : ∀ (K V : Type) `{Countable K} (m : gmap K V),
    go_range m ≡ₚ map_to_list m;
}.

Definition go_range_std : GoRange :=
  {| go_range := λ K V _ _ m, map_to_list m;
     go_range_perm := λ K V _ _ m, reflexivity _ |}.

Section go_range.
Context `{GoRange} {K V : Type} `{Countable K}.
Implicit Types m : gmap K V.

Lemma elem_of_go_range m k v : (k, v) ∈ go_range m ↔ m !! k = Some v.
Proof. rewrite go_range_perm. apply elem_of_map_to_list. Qed.

Lemma NoDup_fst_go_range m : NoDup (go_range m).*1.
Proof. rewrite go_range_perm. apply NoDup_fst_map_to_list. Qed.

Lemma NoDup_go_range m : NoDup (go_range m).
Proof. rewrite go_range_perm. apply NoDup_map_to_list. Qed.

Lemma length_go_range m : length (go_range m) = size m.
Proof. rewrite go_range_perm. apply length_map_to_list. Qed.
End go_range.

(** Sum of a list of integers. *)
Definition sumZ (l : list Z) : Z := foldr Z.add 0 l.

Lemma sumZ_app l1 l2 : sumZ (l1 ++ l2) = sumZ l1 + sumZ l2.
Proof. induction l1; simpl; lia. Qed.

Lemma sumZ_cons x l : sumZ (x :: l) = x + sumZ l.
Proof. done. Qed.

Lemma sumZ_nil : sumZ [] = 0.
Proof. done. Qed.

#[export] Instance sumZ_perm : Proper ((≡ₚ) ==> (=)) sumZ.
Proof. induction 1; simpl; lia. Qed.

Lemma sumZ_nonneg l : Forall (λ x, 0 ≤ x) l → 0 ≤ sumZ l.
Proof. induction 1; simpl; lia. Qed.

Global Arguments sumZ : simpl never.

Lemma sumZ_zero {A} (f : A → Z) (l : list A) : (∀ y, y ∈ l → f y = 0) → sumZ (f <$> l) = 0.
Proof.
  induction l as [|y l IH]; intros Hf; [done|]. rewrite fmap_cons, sumZ_cons, (Hf y) by left.
  apply IH. intros y' Hy. apply Hf. by right.
Qed.

Lemma sumZ_single {A} (f : A → Z) (l : list A) x :
  NoDup l → x ∈ l → (∀ y, y ∈ l → y ≠ x → f y = 0) → sumZ (f <$> l) = f x.
Proof.
  intros Hnd Hx Hz. apply elem_of_Permutation in Hx as [l' Hl]. rewrite Hl, fmap_cons, sumZ_cons.
  rewrite Hl in Hnd. apply NoDup_cons in Hnd as [Hx Hnd].
  rewrite sumZ_zero; [lia|]. intros y Hy. apply Hz; [rewrite Hl; by right|]. by intros ->.
Qed.

Lemma sumZ_fmap_add {A} (f g : A → Z) (l : list A) :
  sumZ ((λ x, f x + g x) <$> l) = sumZ (f <$> l) + sumZ (g <$> l).
Proof. induction l as [|x l IH]; [done|]. rewrite !fmap_cons, !sumZ_cons. lia. Qed.

Lemma sumZ_fmap_le {A} (f g : A → Z) (l : list A) :
  (∀ x, x ∈ l → f x ≤ g x) → sumZ (f <$> l) ≤ sumZ (g <$> l).
Proof.
  induction l as [|x l IH]; intros Hl; [done|]. rewrite !fmap_cons, !sumZ_cons.
  pose proof (Hl x ltac:(left)). specialize (IH ltac:(intros; apply Hl; by right)). lia.
Qed.

(** Sum of the values of a map. *)
Section map_total.
Context {K : Type} `{Countable K}.
Implicit Types m : gmap K Z.

Definition map_total (m : gmap K Z) : Z := sumZ (map_to_list m).*2.

Lemma map_total_empty : map_total ∅ = 0.
Proof. unfold map_total. by rewrite map_to_list_empty. Qed.

Lemma map_total_insert_None m k v :
  m !! k = None → map_total (<[k:=v]> m) = v + map_total m.
Proof. intros. unfold map_total. by rewrite map_to_list_insert. Qed.

Lemma map_total_delete m k v :
  m !! k = Some v → map_total m = v + map_total (delete k m).
Proof.
  intros. rewrite <-(map_total_insert_None (delete k m) k v) by apply lookup_delete_eq.
  rewrite insert_delete_eq. by rewrite insert_id.
Qed.

Lemma map_total_insert m k v :
  map_total (<[k:=v]> m) = v - default 0 (m !! k) + map_total m.
Proof.
  destruct (m !! k) as [w|] eqn:E; simpl.
  - rewrite <-insert_delete_eq, map_total_insert_None by apply lookup_delete_eq.
    rewrite (map_total_delete m k w) by done. lia.
  - rewrite map_total_insert_None by done. lia.
Qed.

Lemma map_total_nonneg m : map_Forall (λ _ v, 0 ≤ v) m → 0 ≤ map_total m.
Proof.
  induction m as [|k v m ? IH] using map_ind; intros Hm.
  - by rewrite map_total_empty.
  - rewrite map_total_insert_None by done. apply map_Forall_insert in Hm as [??]; [|done].
    specialize (IH ltac:(done)). lia.
Qed.

Lemma map_Forall_filter (P : K * Z → Prop) `{!∀ x, Decision (P x)} (Q : K → Z → Prop) m :
  map_Forall Q m → map_Forall Q (filter P m).
Proof. intros Hm k v [? _]%map_lookup_filter_Some. by apply Hm. Qed.

Lemma map_total_lookup_le m k v :
  map_Forall (λ _ v, 0 ≤ v) m → m !! k = Some v → v ≤ map_total m.
Proof.
  intros Hm ?. rewrite (map_total_delete m k v) by done.
  assert (0 ≤ map_total (delete k m)); [|lia].
  apply map_total_nonneg. by apply map_Forall_delete.
Qed.

Lemma map_total_filter (P : K * Z → Prop) `{!∀ x, Decision (P x)} m :
  map_total m = map_total (filter P m) + map_total (filter (λ x, ¬ P x) m).
Proof.
  induction m as [|k v m ? IH] using map_ind.
  - rewrite !map_filter_empty, !map_total_empty. done.
  - rewrite map_total_insert_None by done.
    destruct (decide (P (k, v))).
    + rewrite map_filter_insert_True, (map_filter_insert_not' (λ x, ¬ P x)) by naive_solver.
      rewrite map_total_insert_None by (apply map_lookup_filter_None; naive_solver). lia.
    + rewrite (map_filter_insert_not' P), (map_filter_insert_True (λ x, ¬ P x)) by naive_solver.
      rewrite map_total_insert_None by (apply map_lookup_filter_None; naive_solver). lia.
Qed.
End map_total.

(** Sizes of maps. *)
Lemma size_lookup_pos {K V} `{Countable K} (m : gmap K V) k v :
  m !! k = Some v → (0 < size m)%nat.
Proof. intros. assert (size m ≠ 0%nat); [|lia]. apply map_size_ne_0_lookup. eauto. Qed.

Lemma size_delete_lt {K V} `{Countable K} (m : gmap K V) k v :
  m !! k = Some v → (size (delete k m) < size m)%nat.
Proof.
  intros Hk. rewrite map_size_delete_Some by eauto. apply size_lookup_pos in Hk. lia.
Qed.

(** Lists. *)
Lemma list_filter_id {A} (P : A → Prop) `{!∀ x, Decision (P x)} (l : list A) :
  (∀ x, x ∈ l → P x) → filter P l = l.
Proof.
  induction l as [|x l IH]; intros Hl; [done|]. rewrite filter_cons_True by (apply Hl; left).
  f_equal. apply IH. intros y Hy. apply Hl. by right.
Qed.

Lemma Forall2_impl_in {A B} (R Q : A → B → Prop) (l : list A) (k : list B) :
  Forall2 R l k → (∀ x y, x ∈ l → y ∈ k → R x y → Q x y) → Forall2 Q l k.
Proof.
  induction 1 as [|x y l k Hxy _ IH]; intros HQ; constructor.
  - apply HQ; [left|left|done].
  - apply IH. intros a b Ha Hb. apply HQ; by right.
Qed.

Lemma Forall2_filter_iff {A B} (R : A → B → Prop) (P : A → Prop) (Q : B → Prop)
    `{!∀ x, Decision (P x), !∀ x, Decision (Q x)} (l1 : list A) (l2 : list B) :
  Forall2 R l1 l2 → (∀ x y, R x y → (P x ↔ Q y)) → Forall2 R (filter P l1) (filter Q l2).
Proof.
  intros HR HPQ. induction HR as [|x y l1 l2 Hxy _ IH]; [done|]. rewrite !filter_cons.
  specialize (HPQ x y Hxy). destruct (decide (P x)), (decide (Q y)); try tauto. by constructor.
Qed.

Lemma NoDup_fmap_elem {A B} (f : A → B) (l : list A) x y :
  NoDup (f <$> l) → x ∈ l → y ∈ l → f x = f y → x = y.
Proof.
  induction l as [|z l IH]; csimpl; intros Hn Hx Hy E; [by apply elem_of_nil in Hx|].
  apply NoDup_cons in Hn as [Hz Hn].
  apply elem_of_cons in Hx as [->|Hx], Hy as [->|Hy]; [done| | |by apply IH].
  - destruct Hz. rewrite E. by apply list_elem_of_fmap_2.
  - destruct Hz. rewrite <-E. by apply list_elem_of_fmap_2.
Qed.

(** ** Automation *)

Create HintDb node.

(** Case analysis on every [decide] and [bool_decide] of the goal and the
    context, with the equalities it gives. *)
Ltac decide_all :=
  repeat (case_decide || case_bool_decide); simplify_eq/=.

(** [decide_all], then arithmetic. *)
Ltac decide_lia := decide_all; try done; try lia.
