(* ===== verification/SafeMath.v ===== *)
(** * Checked arithmetic on 64-bit integers (src/utils/math/safe_math.go).

    [Add64], [Sub64] and [Mul64] are the overflow-checked operations the
    balances, weights and rewards of the node are computed with; [Max64],
    [Min64], [Min] and [Diff64] are total.  A [uint64] is a [Z]; the machine's
    wrap-around is written out as [wrap64]. *)

From S2P Require Import Prelude.

Inductive math_error := errOverflow.

#[export] Instance math_error_eq_dec : EqDecision math_error.
Proof. solve_decision. Defined.

Definition Max64 (max : Z) (nums : list Z) : Z :=
  foldl (λ max num, if decide (num > max) then num else max) max nums.

Definition Min (min : Z) (nums : list Z) : Z :=
  foldl (λ min num, if decide (num < min) then num else min) min nums.

Definition Min64 (min : Z) (nums : list Z) : Z :=
  foldl (λ min num, if decide (num < min) then num else min) min nums.

Definition Add64 (a b : Z) : result math_error Z :=
  if decide (a > wrap64 (MaxUint64 - b)) then Err errOverflow
  else Ok (wrap64 (a + b)).

Definition Sub64 (a b : Z) : result math_error Z :=
  if decide (a < b) then Err errOverflow else Ok (wrap64 (a - b)).

Definition Mul64 (a b : Z) : result math_error Z :=
  if decide (b ≠ 0 ∧ a > MaxUint64 / b) then Err errOverflow
  else Ok (wrap64 (a * b)).

Definition Diff64 (a b : Z) : Z := wrap64 (Max64 a [b] - Min64 a [b]).

(** ** Each operation returns the mathematical result exactly when it fits *)

Lemma Add64_spec a b :
  is_u64 a → is_u64 b →
  Add64 a b = if decide (a + b ≤ MaxUint64) then Ok (a + b) else Err errOverflow.
Proof.
  unfold Add64, is_uint, MaxUint64. intros.
  rewrite (wrap_id 64 (_ - b)) by (unfold is_uint; lia).
  repeat case_decide; try lia; [done|].
  by rewrite wrap_id by (unfold is_uint; lia).
Qed.

Lemma Sub64_spec a b :
  is_u64 a → is_u64 b →
  Sub64 a b = if decide (b ≤ a) then Ok (a - b) else Err errOverflow.
Proof.
  unfold Sub64, is_uint. intros. repeat case_decide; try lia; [done|].
  by rewrite wrap_id by (unfold is_uint; lia).
Qed.

Lemma Mul64_spec a b :
  is_u64 a → is_u64 b →
  Mul64 a b = if decide (a * b ≤ MaxUint64) then Ok (a * b) else Err errOverflow.
Proof.
  unfold Mul64, is_uint, MaxUint64. intros Ha Hb.
  assert (b ≠ 0 → (a > (2 ^ 64 - 1) / b ↔ a * b > 2 ^ 64 - 1)) as Hdiv.
  { intros. split; intros ?.
    - apply Z.lt_gt. destruct (decide (2 ^ 64 - 1 < a * b)); [done|].
      assert (a ≤ (2 ^ 64 - 1) / b); [|lia].
      apply Z.div_le_lower_bound; lia.
    - apply Z.lt_gt. apply Z.div_lt_upper_bound; lia. }
  destruct (decide (b = 0)) as [->|Hb0].
  - rewrite decide_False by naive_solver.
    rewrite Z.mul_0_r, decide_True by lia. done.
  - specialize (Hdiv Hb0). destruct (decide (a * b ≤ 2 ^ 64 - 1)).
    + rewrite decide_False by lia. rewrite wrap_id; [done|]. unfold is_uint. nia.
    + rewrite decide_True; [done|]. split; [done|]. apply Hdiv; lia.
Qed.

Lemma foldl_max_spec max nums :
  max ≤ Max64 max nums ∧ (∀ n, n ∈ nums → n ≤ Max64 max nums) ∧
  (Max64 max nums = max ∨ Max64 max nums ∈ nums).
Proof.
  unfold Max64. revert max. induction nums as [|n nums IH]; intros max; simpl.
  { split_and!; [lia|set_solver|by left]. }
  destruct (IH (if decide (n > max) then n else max)) as (H1&H2&H3).
  split_and!; [|intros n' [->|?]%elem_of_cons; [|auto]|];
    repeat case_decide; try lia; set_solver.
Qed.

Lemma foldl_min_spec min nums :
  Min min nums ≤ min ∧ (∀ n, n ∈ nums → Min min nums ≤ n) ∧
  (Min min nums = min ∨ Min min nums ∈ nums).
Proof.
  unfold Min. revert min. induction nums as [|n nums IH]; intros min; simpl.
  { split_and!; [lia|set_solver|by left]. }
  destruct (IH (if decide (n < min) then n else min)) as (H1&H2&H3).
  split_and!; [|intros n' [->|?]%elem_of_cons; [|auto]|];
    repeat case_decide; try lia; set_solver.
Qed.

Lemma Diff64_spec a b : is_u64 a → is_u64 b → Diff64 a b = Z.abs (a - b).
Proof.
  unfold Diff64, Max64, Min64, is_uint. simpl. intros.
  rewrite wrap_id by (unfold is_uint; decide_lia). decide_lia.
Qed.
