(* ===== verification/Ids.v ===== *)
(** * Identifiers, bit prefixes and vote bags (src/ids).

    [ID] is the 32-byte hash of src/ids/id.go, [EqualSubset] and
    [FirstDifferenceSubset] the byte-masked prefix comparisons of
    src/ids/bits.go, and [Bag] the multiset of votes of src/ids/bag.go.  The
    prefix comparisons are proved equal to their bit-by-bit meaning, and a bag
    is proved to keep its cached size, mode and threshold set consistent with
    its counts, in whatever order its maps are iterated. *)

From Stdlib Require Import Strings.Byte.
From S2P Require Import Prelude.

(** ** Bytes *)

#[export] Instance byte_eq_dec : EqDecision byte := Byte.byte_eq_dec.
#[export] Instance byte_countable : Countable byte :=
  inj_countable Byte.to_N Byte.of_N Byte.of_to_N.

(** The value of a byte, as Go's [int(b)]. *)
Definition byte_val (b : byte) : Z := Z.of_N (Byte.to_N b).

Lemma byte_val_range b : 0 ≤ byte_val b < 256.
Proof. unfold byte_val. pose proof (Byte.to_N_bounded b). lia. Qed.

Lemma byte_val_inj b1 b2 : byte_val b1 = byte_val b2 → b1 = b2.
Proof.
  intros ?%N2Z.inj. apply (f_equal Byte.of_N) in H.
  rewrite !Byte.of_to_N in H. congruence.
Qed.

Lemma byte_val_testbit_high b i : 8 ≤ i → Z.testbit (byte_val b) i = false.
Proof.
  intros. pose proof (byte_val_range b).
  destruct (decide (byte_val b = 0)) as [->|]; [apply Z.bits_0|].
  apply Z.bits_above_log2; [lia|].
  assert (Z.log2 (byte_val b) < 8); [|lia]. apply Z.log2_lt_pow2; lia.
Qed.

(** ** ID *)

Definition IDLen : nat := 32.

(** [type ID [32]byte] *)
Record ID := mkID { id_bytes : list byte; id_len : length id_bytes = IDLen }.

Lemma ID_eq a b : id_bytes a = id_bytes b → a = b.
Proof. destruct a, b; simpl; intros ->. f_equal. apply proof_irrel. Qed.

#[export] Instance ID_eq_dec : EqDecision ID.
Proof.
  intros a b. destruct (decide (id_bytes a = id_bytes b)) as [E|N].
  - left. by apply ID_eq.
  - right. congruence.
Defined.

Definition id_of_bytes (l : list byte) : option ID :=
  match decide (length l = IDLen) with
  | left e => Some (mkID l e)
  | right _ => None
  end.

Lemma id_of_bytes_id a : id_of_bytes (id_bytes a) = Some a.
Proof.
  unfold id_of_bytes. destruct (decide _) as [e|n]; [|by destruct (n (id_len a))].
  f_equal. by apply ID_eq.
Qed.

#[export] Instance ID_countable : Countable ID :=
  inj_countable id_bytes id_of_bytes id_of_bytes_id.

(** [Empty = ID{}], the all-zero identifier. *)
Definition Empty : ID := mkID (replicate IDLen x00) eq_refl.

(** An identifier whose first byte is [b] and whose other bytes are zero: the
    identifiers of the concrete examples. *)
Definition id1 (b : byte) : ID := mkID (b :: replicate 31 x00) eq_refl.

Definition NumBits : Z := 256.
Definition BitsPerByte : Z := 8.

(** [int(id[i])]; every index the code uses is below 32. *)
Definition id_at (id : ID) (i : Z) : Z := byte_val (nth (Z.to_nat i) (id_bytes id) x00).

(** Bit returns the bit value at the ith index of the byte array. *)
Definition Bit (id : ID) (i : Z) : Z :=
  let byteIndex := i / BitsPerByte in
  let bitIndex := i mod BitsPerByte in
  Z.land (Z.shiftr (id_at id byteIndex) bitIndex) 1.

(** [id1[lo:hi]] *)
Definition id_slice (id : ID) (lo hi : Z) : list byte :=
  take (Z.to_nat (hi - lo)) (drop (Z.to_nat lo) (id_bytes id)).

(** ** Prefix comparisons (bits.go) *)

Definition EqualSubset (start stop : Z) (id1 id2 : ID) : bool :=
  let stop := stop - 1 in
  if decide (start > stop ∨ stop < 0) then true else
  if decide (NumBits ≤ stop) then false else
  let startIndex := start ÷ BitsPerByte in
  let stopIndex := stop ÷ BitsPerByte in
  if decide (startIndex + 1 < stopIndex ∧
             id_slice id1 (startIndex + 1) stopIndex ≠
             id_slice id2 (startIndex + 1) stopIndex) then false else
  let startBit := Z.rem start BitsPerByte in
  let stopBit := Z.rem stop BitsPerByte in
  let startMask := Z.shiftl (-1) startBit in
  let stopMask := Z.shiftl 1 (stopBit + 1) - 1 in
  if decide (startIndex = stopIndex) then
    let mask := Z.land startMask stopMask in
    let b1 := Z.land mask (id_at id1 startIndex) in
    let b2 := Z.land mask (id_at id2 startIndex) in
    bool_decide (b1 = b2)
  else
    let start1 := Z.land startMask (id_at id1 startIndex) in
    let start2 := Z.land startMask (id_at id2 startIndex) in
    let stop1 := Z.land stopMask (id_at id1 stopIndex) in
    let stop2 := Z.land stopMask (id_at id2 stopIndex) in
    bool_decide (start1 = start2) && bool_decide (stop1 = stop2).

(** [bits.TrailingZeros8]: the index of the lowest set bit of an 8-bit value,
    8 for zero. *)
Fixpoint trailing_zeros_from (fuel : nat) (i x : Z) : Z :=
  match fuel with
  | O => i
  | S fuel => if Z.testbit x i then i else trailing_zeros_from fuel (i + 1) x
  end.
Definition TrailingZeros8 (x : Z) : Z := trailing_zeros_from 8 0 x.

(** The loop over the interior bytes [i, i + n). *)
Fixpoint first_difference_loop (n : nat) (i : Z) (id1 id2 : ID) : option Z :=
  match n with
  | O => None
  | S n =>
      let b1 := id_at id1 i in
      let b2 := id_at id2 i in
      if decide (b1 ≠ b2) then
        let bd := Z.lxor b1 b2 in
        Some (TrailingZeros8 (wrap 8 bd) + i * BitsPerByte)
      else first_difference_loop n (i + 1) id1 id2
  end.

(** [(index, true)] is [Some index], [(0, false)] is [None]. *)
Definition FirstDifferenceSubset (start stop : Z) (id1 id2 : ID) : option Z :=
  let stop := stop - 1 in
  if decide (start > stop ∨ stop < 0 ∨ NumBits ≤ stop) then None else
  let startIndex := start ÷ BitsPerByte in
  let stopIndex := stop ÷ BitsPerByte in
  let startBit := Z.rem start BitsPerByte in
  let stopBit := Z.rem stop BitsPerByte in
  let startMask := Z.shiftl (-1) startBit in
  let stopMask := Z.shiftl 1 (stopBit + 1) - 1 in
  if decide (startIndex = stopIndex) then
    let mask := Z.land startMask stopMask in
    let b1 := Z.land mask (id_at id1 startIndex) in
    let b2 := Z.land mask (id_at id2 startIndex) in
    if decide (b1 = b2) then None else
    let bd := Z.lxor b1 b2 in
    Some (TrailingZeros8 (wrap 8 bd) + startIndex * BitsPerByte)
  else
    let start1 := Z.land startMask (id_at id1 startIndex) in
    let start2 := Z.land startMask (id_at id2 startIndex) in
    if decide (start1 ≠ start2) then
      let bd := Z.lxor start1 start2 in
      Some (TrailingZeros8 (wrap 8 bd) + startIndex * BitsPerByte)
    else
    match first_difference_loop (Z.to_nat (stopIndex - (startIndex + 1)))
            (startIndex + 1) id1 id2 with
    | Some index => Some index
    | None =>
        let stop1 := Z.land stopMask (id_at id1 stopIndex) in
        let stop2 := Z.land stopMask (id_at id2 stopIndex) in
        if decide (stop1 ≠ stop2) then
          let bd := Z.lxor stop1 stop2 in
          Some (TrailingZeros8 (wrap 8 bd) + stopIndex * BitsPerByte)
        else None
    end.

(** ** The bits of an identifier *)

(** Bit [i] of an identifier as a boolean: what [Bit] computes. *)
Definition id_bit (id : ID) (i : Z) : bool :=
  Z.testbit (id_at id (i / BitsPerByte)) (i mod BitsPerByte).

(** Agreement on the bits [lo, hi). *)
Definition agree (lo hi : Z) (a b : ID) : Prop :=
  ∀ i, lo ≤ i < hi → id_bit a i = id_bit b i.

Lemma Bit_spec id i : Bit id i = Z.b2z (id_bit id i).
Proof.
  unfold Bit, id_bit. apply Z.bits_inj'. intros n Hn.
  rewrite Z.land_spec, Z.shiftr_spec by lia.
  destruct (decide (n = 0)) as [->|].
  - rewrite Z.add_0_l, Z.b2z_bit0, andb_true_r. done.
  - rewrite (Z.bits_above_log2 1), andb_false_r by (simpl; lia).
    destruct (Z.testbit (id_at _ _) _); unfold Z.b2z; [|by rewrite Z.bits_0].
    by rewrite (Z.bits_above_log2 1) by (simpl; lia).
Qed.

Lemma Bit_cases id i : Bit id i = 0 ∨ Bit id i = 1.
Proof. rewrite Bit_spec. destruct (id_bit id i); simpl; auto. Qed.

Lemma Bit_eq a b i : Bit a i = Bit b i ↔ id_bit a i = id_bit b i.
Proof. rewrite !Bit_spec. destruct (id_bit a i), (id_bit b i); simpl; naive_solver. Qed.

#[export] Instance agree_equiv lo hi : Equivalence (agree lo hi).
Proof.
  split; unfold agree.
  - by intros ? ? ?.
  - intros ?? H ??. symmetry. auto.
  - intros ??? H1 H2 ??. etrans; [apply H1|apply H2]; done.
Qed.

Lemma agree_split lo mid hi a b :
  lo ≤ mid ≤ hi → agree lo hi a b ↔ agree lo mid a b ∧ agree mid hi a b.
Proof.
  unfold agree. intros. split; [intros H'; split; intros; apply H'; lia|].
  intros [H1 H2] i ?. destruct (decide (i < mid)); [apply H1|apply H2]; lia.
Qed.

Lemma agree_mono lo hi lo' hi' a b :
  lo ≤ lo' → hi' ≤ hi → agree lo hi a b → agree lo' hi' a b.
Proof. unfold agree. intros ?? H ??. apply H. lia. Qed.

Lemma agree_empty lo hi a b : hi ≤ lo → agree lo hi a b.
Proof. unfold agree. lia. Qed.

Lemma agree_one i a b : agree i (i + 1) a b ↔ id_bit a i = id_bit b i.
Proof.
  unfold agree. split; [intros H; apply H; lia|].
  intros ? j ?. by replace j with i by lia.
Qed.

(** Identifiers that agree on all 256 bits are equal. *)
Lemma agree_all_eq a b : agree 0 NumBits a b → a = b.
Proof.
  intros Hag. apply ID_eq. apply list_eq_same_length with IDLen; [apply id_len|apply id_len|].
  intros k x y Hk Hx Hy. apply byte_val_inj. apply Z.bits_inj'. intros n Hn.
  destruct (decide (8 ≤ n)); [by rewrite !byte_val_testbit_high by lia|].
  specialize (Hag (Z.of_nat k * 8 + n)). unfold id_bit, id_at, BitsPerByte, NumBits, IDLen in *.
  replace ((Z.of_nat k * 8 + n) / 8) with (Z.of_nat k) in Hag
    by (apply Z.div_unique with n; lia).
  replace ((Z.of_nat k * 8 + n) mod 8) with n in Hag
    by (apply Z.mod_unique with (Z.of_nat k); lia).
  rewrite Nat2Z.id, (nth_lookup_Some _ _ _ _ Hx), (nth_lookup_Some _ _ _ _ Hy) in Hag.
  apply Hag. lia.
Qed.

(** ** Correctness of the masked comparisons *)

Lemma id_bit_byte a k j :
  0 ≤ j < 8 → id_bit a (k * 8 + j) = Z.testbit (id_at a k) j.
Proof.
  intros. unfold id_bit, BitsPerByte. f_equal; [f_equal|].
  - symmetry. apply Z.div_unique with j; lia.
  - symmetry. apply Z.mod_unique with k; lia.
Qed.

(** [m] selects exactly the bits [s, e) of a byte. *)
Definition byte_mask (m s e : Z) : Prop :=
  0 ≤ s ≤ e ∧ e ≤ 8 ∧ ∀ i, 0 ≤ i < 8 → Z.testbit m i = bool_decide (s ≤ i < e).

Lemma startMask_bit s i : 0 ≤ s → 0 ≤ i → Z.testbit (Z.shiftl (-1) s) i = bool_decide (s ≤ i).
Proof.
  intros. rewrite Z.shiftl_spec by lia. case_bool_decide.
  - by rewrite Z.bits_m1 by lia.
  - by rewrite Z.testbit_neg_r by lia.
Qed.

Lemma stopMask_bit e i :
  0 ≤ e → 0 ≤ i → Z.testbit (Z.shiftl 1 e - 1) i = bool_decide (i < e).
Proof.
  intros. replace (Z.shiftl 1 e - 1) with (Z.ones e) by (unfold Z.ones; lia).
  case_bool_decide; [by rewrite Z.ones_spec_low by lia|by rewrite Z.ones_spec_high by lia].
Qed.

Lemma startMask_ok s : 0 ≤ s < 8 → byte_mask (Z.shiftl (-1) s) s 8.
Proof.
  intros. unfold byte_mask. split_and!; try lia. intros i ?. rewrite startMask_bit by lia.
  apply bool_decide_ext. lia.
Qed.

Lemma stopMask_ok e : 0 ≤ e ≤ 8 → byte_mask (Z.shiftl 1 e - 1) 0 e.
Proof.
  intros. unfold byte_mask. split_and!; try lia. intros i ?. rewrite stopMask_bit by lia.
  apply bool_decide_ext. lia.
Qed.

Lemma bothMask_ok s e :
  0 ≤ s ≤ e → e ≤ 8 → byte_mask (Z.land (Z.shiftl (-1) s) (Z.shiftl 1 e - 1)) s e.
Proof.
  intros. unfold byte_mask. split_and!; try lia. intros i ?.
  rewrite Z.land_spec, startMask_bit, stopMask_bit by lia.
  rewrite <-bool_decide_and. apply bool_decide_ext. lia.
Qed.

Lemma fullMask_ok : byte_mask (-1) 0 8.
Proof. unfold byte_mask. split_and!; try lia. intros i ?. rewrite Z.bits_m1 by lia. by case_bool_decide; [|lia]. Qed.

#[export] Hint Resolve startMask_ok stopMask_ok bothMask_ok fullMask_ok : node.

Lemma id_at_testbit_high a k i : 8 ≤ i → Z.testbit (id_at a k) i = false.
Proof. apply byte_val_testbit_high. Qed.

(** Equality of the masked bytes is agreement on the masked bits. *)
Lemma masked_eq_agree m s e k a b :
  byte_mask m s e →
  Z.land m (id_at a k) = Z.land m (id_at b k) ↔ agree (k * 8 + s) (k * 8 + e) a b.
Proof.
  intros (Hs&He&Hm). split.
  - intros Heq i Hi. apply (f_equal (λ z, Z.testbit z (i - k * 8))) in Heq.
    rewrite !Z.land_spec, !Hm, !bool_decide_true in Heq by lia. simpl in Heq.
    replace i with (k * 8 + (i - k * 8)) by lia. by rewrite !id_bit_byte by lia.
  - intros Hag. apply Z.bits_inj'. intros n Hn. rewrite !Z.land_spec.
    destruct (decide (8 ≤ n)); [by rewrite !id_at_testbit_high by lia|].
    rewrite Hm by lia. case_bool_decide; [|done]. simpl.
    rewrite <-!id_bit_byte by lia. apply Hag. lia.
Qed.

(** The first difference of two identifiers in [lo, hi), if any. *)
Definition is_first_diff (lo hi : Z) (a b : ID) (r : option Z) : Prop :=
  match r with
  | Some i => lo ≤ i < hi ∧ id_bit a i ≠ id_bit b i ∧ agree lo i a b
  | None => agree lo hi a b
  end.

Lemma first_diff_later lo mid hi a b r :
  lo ≤ mid ≤ hi → agree lo mid a b → is_first_diff mid hi a b r → is_first_diff lo hi a b r.
Proof.
  intros ? Hag. destruct r as [i|]; simpl.
  - intros (?&?&?). split_and!; [lia|lia|done|]. by apply (agree_split lo mid i); [lia|].
  - intros. by apply (agree_split lo mid hi).
Qed.

Lemma first_diff_mono lo hi hi' a b i :
  hi ≤ hi' → is_first_diff lo hi a b (Some i) → is_first_diff lo hi' a b (Some i).
Proof. simpl. intros ? (?&?&?). split_and!; auto with lia. Qed.

Lemma trailing_zeros_from_spec n i x :
  let r := trailing_zeros_from n i x in
  i ≤ r ≤ i + Z.of_nat n ∧ (r < i + Z.of_nat n → Z.testbit x r = true) ∧
  ∀ j, i ≤ j < r → Z.testbit x j = false.
Proof.
  revert i. induction n as [|n IH]; intros i; cbn [trailing_zeros_from]; [split_and!; lia|].
  destruct (Z.testbit x i) eqn:E; [split_and!; intros; lia || done|].
  destruct (IH (i + 1)) as (H1&H2&H3). split_and!; [lia|lia|intros; apply H2; lia|].
  intros j ?. destruct (decide (j = i)) as [->|]; [done|]. apply H3. lia.
Qed.

(** The lowest set bit of the masked difference is the first difference. *)
Lemma masked_first_diff m s e k a b :
  byte_mask m s e →
  Z.land m (id_at a k) ≠ Z.land m (id_at b k) →
  is_first_diff (k * 8 + s) (k * 8 + e) a b
    (Some (TrailingZeros8
       (wrap 8 (Z.lxor (Z.land m (id_at a k)) (Z.land m (id_at b k)))) + k * BitsPerByte)).
Proof.
  intros Hmask Hne. pose proof Hmask as (Hs&He&Hm).
  set (bd := wrap 8 _).
  assert (∀ j, 0 ≤ j < 8 → Z.testbit bd j =
    bool_decide (s ≤ j < e) && xorb (id_bit a (k * 8 + j)) (id_bit b (k * 8 + j))) as Hbd.
  { intros j ?. unfold bd, wrap. rewrite Z.mod_pow2_bits_low by lia.
    rewrite Z.lxor_spec, !Z.land_spec, Hm, !id_bit_byte by lia. by case_bool_decide. }
  destruct (trailing_zeros_from_spec 8 0 bd) as (H1&H2&H3).
  fold (TrailingZeros8 bd) in *. set (r := TrailingZeros8 bd) in *.
  assert (r < 8) as Hr.
  { destruct (decide (r < 8)); [done|]. destruct Hne. apply (masked_eq_agree _ s e); [done|].
    intros i Hi. specialize (H3 (i - k * 8) ltac:(lia)).
    rewrite Hbd, bool_decide_true in H3 by lia. replace (k * 8 + (i - k * 8)) with i in H3 by lia.
    by apply xorb_eq. }
  specialize (H2 ltac:(lia)). rewrite Hbd in H2 by lia.
  apply andb_true_iff in H2 as [H2%bool_decide_eq_true H2'].
  unfold BitsPerByte. simpl. replace (r + k * 8) with (k * 8 + r) by lia. split_and!; [lia|lia| |].
  - intros Heq. rewrite Heq, xorb_nilpotent in H2'. done.
  - intros i Hi. specialize (H3 (i - k * 8) ltac:(lia)).
    rewrite Hbd, bool_decide_true in H3 by lia. replace (k * 8 + (i - k * 8)) with i in H3 by lia.
    by apply xorb_eq.
Qed.

Lemma first_difference_loop_spec n k a b :
  is_first_diff (k * 8) ((k + Z.of_nat n) * 8) a b (first_difference_loop n k a b).
Proof.
  revert k. induction n as [|n IH]; intros k; cbn [first_difference_loop].
  { apply agree_empty. lia. }
  rewrite <-(Z.land_m1_l (id_at a k)), <-(Z.land_m1_l (id_at b k)).
  replace (k * 8) with (k * 8 + 0) by lia.
  destruct (decide (Z.land (-1) (id_at a k) = Z.land (-1) (id_at b k))) as [Hb|Hb].
  - rewrite decide_False by tauto. apply first_diff_later with (k * 8 + 8); [lia| |].
    + by apply (masked_eq_agree (-1)); [apply fullMask_ok|].
    + specialize (IH (k + 1)). by replace ((k + Z.of_nat (S n)) * 8)
        with ((k + 1 + Z.of_nat n) * 8) by lia; replace (k * 8 + 8) with ((k + 1) * 8) by lia.
  - rewrite decide_True by done. apply first_diff_mono with (k * 8 + 8); [lia|].
    by apply masked_first_diff; [apply fullMask_ok|].
Qed.

(** The bounds of the two comparisons in terms of their byte and bit indices. *)
Lemma subset_bounds start stop :
  0 ≤ start → start ≤ stop →
  start = (start ÷ 8) * 8 + Z.rem start 8 ∧ 0 ≤ Z.rem start 8 < 8 ∧
  stop = (stop ÷ 8) * 8 + Z.rem stop 8 ∧ 0 ≤ Z.rem stop 8 < 8 ∧
  0 ≤ start ÷ 8 ≤ stop ÷ 8.
Proof.
  intros. rewrite !Z.quot_div_nonneg, !Z.rem_mod_nonneg by lia.
  pose proof (Z.div_mod start 8). pose proof (Z.div_mod stop 8).
  pose proof (Z.mod_pos_bound start 8). pose proof (Z.mod_pos_bound stop 8).
  pose proof (Z.div_le_mono start stop 8). pose proof (Z.div_pos start 8). lia.
Qed.

Lemma FirstDifferenceSubset_first_diff start stop a b :
  0 ≤ start → stop ≤ NumBits →
  is_first_diff start stop a b (FirstDifferenceSubset start stop a b).
Proof.
  unfold FirstDifferenceSubset, NumBits, BitsPerByte. intros Hstart Hstop.
  case_decide as Hr; [apply agree_empty; lia|].
  destruct (subset_bounds start (stop - 1)) as (E1&?&E2&?&?); [lia..|].
  set (si := start ÷ 8) in *. set (ti := (stop - 1) ÷ 8) in *.
  set (sb := Z.rem start 8) in *. set (tb := Z.rem (stop - 1) 8) in *.
  replace start with (si * 8 + sb) by lia. replace stop with (ti * 8 + (tb + 1)) by lia.
  case_decide as Hst.
  { rewrite <-Hst in *. case_decide as Hb.
    - apply (masked_eq_agree _ _ _ _ _ _ (bothMask_ok sb (tb + 1) ltac:(lia) ltac:(lia))).
      done.
    - apply masked_first_diff; auto with node lia. }
  destruct (decide (Z.land (Z.shiftl (-1) sb) (id_at a si) =
                    Z.land (Z.shiftl (-1) sb) (id_at b si))) as [Hb|Hb].
  2:{ rewrite decide_True by done. apply first_diff_mono with (si * 8 + 8); [lia|].
      by apply masked_first_diff; [apply startMask_ok; lia|]. }
  rewrite decide_False by tauto. apply first_diff_later with ((si + 1) * 8); [lia| |].
  { replace ((si + 1) * 8) with (si * 8 + 8) by lia.
    by apply (masked_eq_agree _ _ _ _ _ _ (startMask_ok sb ltac:(lia))). }
  pose proof (first_difference_loop_spec (Z.to_nat (ti - (si + 1))) (si + 1) a b) as Hloop.
  rewrite Z2Nat.id in Hloop by lia. replace (si + 1 + (ti - (si + 1))) with ti in Hloop by lia.
  destruct (first_difference_loop _ _ _ _) as [i|].
  { apply first_diff_mono with (ti * 8); [lia|done]. }
  apply first_diff_later with (ti * 8); [lia|done|].
  replace (ti * 8) with (ti * 8 + 0) at 1 by lia.
  destruct (decide (Z.land (Z.shiftl 1 (tb + 1) - 1) (id_at a ti) =
                    Z.land (Z.shiftl 1 (tb + 1) - 1) (id_at b ti))) as [Hc|Hc].
  - rewrite decide_False by tauto.
    by apply (masked_eq_agree _ _ _ _ _ _ (stopMask_ok (tb + 1) ltac:(lia))).
  - rewrite decide_True by done. by apply masked_first_diff; [apply stopMask_ok; lia|].
Qed.

Lemma id_slice_eq a b lo hi :
  0 ≤ lo ≤ hi → hi ≤ 32 →
  id_slice a lo hi = id_slice b lo hi ↔ agree (lo * 8) (hi * 8) a b.
Proof.
  intros Hlo Hhi. unfold id_slice. split.
  - intros Heq i Hi. unfold id_bit, BitsPerByte, id_at. do 2 f_equal.
    assert (lo ≤ i / 8 < hi) as Hk.
    { split; [apply Z.div_le_lower_bound; lia|apply Z.div_lt_upper_bound; lia]. }
    rewrite !nth_lookup. f_equal.
    apply (f_equal (.!! (Z.to_nat (i / 8) - Z.to_nat lo)%nat)) in Heq.
    rewrite !lookup_take_lt, !lookup_drop in Heq by lia.
    by replace (Z.to_nat lo + (Z.to_nat (i / 8) - Z.to_nat lo))%nat
      with (Z.to_nat (i / 8)) in Heq by lia.
  - intros Hag. pose proof (id_len a) as La. pose proof (id_len b) as Lb. unfold IDLen in *.
    apply list_eq_same_length with (Z.to_nat (hi - lo));
      [rewrite length_take, length_drop; lia..|].
    intros k x y Hk. rewrite !lookup_take_lt, !lookup_drop by lia. intros Hx Hy.
    apply byte_val_inj. apply Z.bits_inj'. intros n Hn.
    destruct (decide (8 ≤ n)); [by rewrite !byte_val_testbit_high by lia|].
    specialize (Hag ((lo + Z.of_nat k) * 8 + n) ltac:(lia)).
    rewrite !id_bit_byte in Hag by lia. unfold id_at in Hag.
    rewrite Z2Nat.inj_add, Nat2Z.id, (nth_lookup_Some _ _ _ _ Hx),
      (nth_lookup_Some _ _ _ _ Hy) in Hag by lia. done.
Qed.

(** [EqualSubset] decides agreement on the bits [start, stop). *)
Lemma EqualSubset_agree start stop a b :
  0 ≤ start → stop ≤ NumBits →
  EqualSubset start stop a b = true ↔ agree start stop a b.
Proof.
  unfold EqualSubset, NumBits, BitsPerByte. intros Hstart Hstop.
  case_decide as Hr; [split; [intros _; apply agree_empty; lia|done]|].
  rewrite decide_False by lia.
  destruct (subset_bounds start (stop - 1)) as (E1&?&E2&?&?); [lia..|].
  set (si := start ÷ 8) in *. set (ti := (stop - 1) ÷ 8) in *.
  set (sb := Z.rem start 8) in *. set (tb := Z.rem (stop - 1) 8) in *.
  replace start with (si * 8 + sb) by lia. replace stop with (ti * 8 + (tb + 1)) by lia.
  destruct (decide (si = ti)) as [Hst|Hst].
  { rewrite <-Hst in *. rewrite decide_False by lia. rewrite bool_decide_eq_true.
    apply masked_eq_agree. apply bothMask_ok; lia. }
  rewrite (agree_split _ (si * 8 + 8) _) by lia.
  rewrite (agree_split (si * 8 + 8) (ti * 8 + 0) _) by lia.
  rewrite <-(masked_eq_agree _ _ _ _ _ _ (startMask_ok sb ltac:(lia))).
  rewrite <-(masked_eq_agree _ _ _ _ _ _ (stopMask_ok (tb + 1) ltac:(lia))).
  assert (agree (si * 8 + 8) (ti * 8 + 0) a b ↔
          ¬ (si + 1 < ti ∧ id_slice a (si + 1) ti ≠ id_slice b (si + 1) ti)) as ->.
  { replace (si * 8 + 8) with ((si + 1) * 8) by lia. rewrite Z.add_0_r.
    rewrite <-id_slice_eq by lia. split; [tauto|]. intros Hn.
    destruct (decide (si + 1 < ti)); [by apply dec_stable; tauto|].
    unfold id_slice. by replace (Z.to_nat (ti - (si + 1))) with 0%nat by lia. }
  case_decide; [naive_solver|]. rewrite andb_true_iff, !bool_decide_eq_true. tauto.
Qed.
