(* ===== verification/Bag.v ===== *)
(** * Vote bags (src/ids/bag.go).

    A [Bag] is a multiset of identifiers with a cached size, mode and
    threshold set.  [bag_inv] says the caches agree with the counts; every
    operation keeps it, and [Filter] and [Split], which rebuild a bag by
    iterating a Go map, are proved to have the same counts and length for
    every iteration order. *)

From S2P Require Import Prelude.
From S2P Require Import Ids.

Record Bag := mkBag {
  counts : gmap ID Z;
  bag_size : Z;
  mode : ID;
  modeFreq : Z;
  threshold : Z;
  metThreshold : gset ID;
}.

(** [Bag{}], Go's zero value. *)
Definition Bag_zero : Bag := mkBag ∅ 0 Empty 0 0 ∅.

(** Count returns the number of times the id has been added. *)
Definition Bag_Count (b : Bag) (id : ID) : Z := default 0 (counts b !! id).

Definition Bag_Len (b : Bag) : Z := bag_size b.

(** Add one id [count] times.  Go's [int] counters hold the number of votes of
    a poll and stay far below their width, so they are unbounded here. *)
Definition Bag_AddCount (id : ID) (count : Z) (b : Bag) : Bag :=
  if decide (count ≤ 0) then b else
  let totalCount := Bag_Count b id + count in
  let freq := decide (totalCount > modeFreq b) in
  mkBag (<[id := totalCount]> (counts b)) (bag_size b + count)
    (if freq then id else mode b)
    (if freq then totalCount else modeFreq b)
    (threshold b)
    (if decide (threshold b ≤ totalCount) then {[id]} ∪ metThreshold b else metThreshold b).

Definition Bag_Add (ids : list ID) (b : Bag) : Bag :=
  foldl (λ b id, Bag_AddCount id 1 b) b ids.

(** Add every pair of a list, the body of the loops of [Filter] and [Split]. *)
Definition add_counts (l : list (ID * Z)) (b : Bag) : Bag :=
  foldl (λ b '(id, count), Bag_AddCount id count b) b l.

Definition Bag_Mode (b : Bag) : ID * Z := (mode b, modeFreq b).

Definition Bag_Threshold (b : Bag) : gset ID := metThreshold b.

Section Bag_range.
Context `{GoRange}.

Definition Bag_SetThreshold (thr : Z) (b : Bag) : Bag :=
  if decide (threshold b = thr) then b else
  mkBag (counts b) (bag_size b) (mode b) (modeFreq b) thr
    (foldl (λ s '(vote, count),
              if decide (thr ≤ count) then {[vote]} ∪ s else s)
           ∅ (go_range (counts b))).

(** List returns a list of all ids that have been added. *)
Definition Bag_List (b : Bag) : list ID := (go_range (counts b)).*1.

Definition Bag_Equals (b oIDs : Bag) : bool :=
  if decide (Bag_Len b ≠ Bag_Len oIDs) then false else
  forallb (λ '(key, value), bool_decide (value = Bag_Count oIDs key)) (go_range (counts b)).

Definition Bag_Filter (start stop : Z) (id : ID) (b : Bag) : Bag :=
  foldl (λ newBag '(vote, count),
           if EqualSubset start stop id vote then Bag_AddCount vote count newBag
           else newBag)
        Bag_zero (go_range (counts b)).

(** [splitVotes[0]] and [splitVotes[1]]. *)
Definition Bag_Split (index : Z) (b : Bag) : Bag * Bag :=
  foldl (λ '(votes0, votes1) '(vote, count),
           if decide (Bit vote index = 0) then (Bag_AddCount vote count votes0, votes1)
           else (votes0, Bag_AddCount vote count votes1))
        (Bag_zero, Bag_zero) (go_range (counts b)).
End Bag_range.

(** ** The invariant *)

(** The cached fields agree with the counts. *)
Record bag_inv (b : Bag) : Prop := {
  bag_pos : ∀ id n, counts b !! id = Some n → 0 < n;
  bag_len : bag_size b = map_total (counts b);
  bag_mode : Bag_Count b (mode b) = modeFreq b;
  bag_max : ∀ id, Bag_Count b id ≤ modeFreq b;
  bag_thr : ∀ id, id ∈ metThreshold b ↔
    id ∈ dom (counts b) ∧ threshold b ≤ Bag_Count b id;
}.

Lemma bag_zero_inv : bag_inv Bag_zero.
Proof. split; try done. intros. cbn. rewrite dom_empty_L. set_solver. Qed.

Lemma Bag_Count_insert b id n id' :
  default 0 (<[id := n]> (counts b) !! id') = if decide (id = id') then n else Bag_Count b id'.
Proof. unfold Bag_Count. destruct (decide (id = id')); simplify_map_eq; done. Qed.

Lemma Bag_Count_AddCount id count b id' :
  0 ≤ count →
  Bag_Count (Bag_AddCount id count b) id' =
  Bag_Count b id' + if decide (id = id') then count else 0.
Proof.
  intros. unfold Bag_AddCount. repeat case_decide; try lia; simplify_eq; unfold Bag_Count at 1;
    cbn [counts]; rewrite Bag_Count_insert; repeat case_decide; lia || done.
Qed.

Lemma Bag_Len_AddCount id count b :
  0 ≤ count → Bag_Len (Bag_AddCount id count b) = Bag_Len b + count.
Proof. intros. unfold Bag_Len, Bag_AddCount. case_decide; simpl; lia. Qed.

Lemma Bag_Count_nonneg b id : bag_inv b → 0 ≤ Bag_Count b id.
Proof.
  intros Hb. unfold Bag_Count. destruct (counts b !! id) eqn:E; simpl; [|lia].
  pose proof (bag_pos _ Hb _ _ E). lia.
Qed.

Lemma bag_AddCount_inv id count b : bag_inv b → bag_inv (Bag_AddCount id count b).
Proof.
  intros Hb. destruct (decide (count ≤ 0)) as [|Hc].
  { unfold Bag_AddCount. by rewrite decide_True. }
  assert (∀ id', Bag_Count (Bag_AddCount id count b) id' =
    Bag_Count b id' + if decide (id = id') then count else 0) as HC.
  { intros. apply Bag_Count_AddCount. lia. }
  pose proof (Bag_Count_nonneg b) as Hnn.
  unfold Bag_AddCount in *. rewrite decide_False in * by lia.
  set (t := Bag_Count b id + count) in *.
  split; cbn [counts bag_size mode modeFreq threshold metThreshold] in *.
  - intros id' m. destruct (decide (id = id')) as [->|]; simplify_map_eq.
    + intros [= <-]. pose proof (Hnn id' Hb). lia.
    + apply (bag_pos _ Hb).
  - rewrite map_total_insert, (bag_len _ Hb). unfold t, Bag_Count. lia.
  - rewrite HC. pose proof (bag_mode _ Hb). unfold t in *.
    repeat case_decide; simplify_eq; lia.
  - intros id'. rewrite HC. pose proof (bag_max _ Hb id').
    unfold t in *. repeat case_decide; simplify_eq; lia.
  - intros id'. rewrite HC, dom_insert_L, elem_of_union, elem_of_singleton.
    pose proof (bag_thr _ Hb id') as Hthr. fold t.
    clear HC Hnn. destruct (decide (id = id')) as [<-|].
    + fold t. destruct (decide (threshold b ≤ t)) as [|Ht];
        rewrite ?elem_of_union, ?elem_of_singleton; [naive_solver|].
      split; [|tauto]. intros ?%Hthr. unfold t in *. lia.
    + rewrite Z.add_0_r. destruct (decide (threshold b ≤ t));
        rewrite ?elem_of_union, ?elem_of_singleton; naive_solver.
Qed.

Lemma bag_Add_inv ids b : bag_inv b → bag_inv (Bag_Add ids b).
Proof.
  unfold Bag_Add. revert b. induction ids; intros b Hb; simpl; [done|].
  apply IHids. by apply bag_AddCount_inv.
Qed.

#[export] Hint Resolve bag_zero_inv bag_AddCount_inv bag_Add_inv : node.

Lemma Bag_Count_Add ids b id :
  Bag_Count (Bag_Add ids b) id =
  Bag_Count b id + Z.of_nat (length (filter (λ x, x = id) ids)).
Proof.
  unfold Bag_Add. revert b. induction ids as [|i ids IH]; intros b; simpl; [lia|].
  rewrite IH, Bag_Count_AddCount by lia. rewrite filter_cons.
  case_decide; simpl; lia.
Qed.

(** ** Rebuilding a bag in any order *)

Lemma add_counts_inv l b : bag_inv b → bag_inv (add_counts l b).
Proof.
  unfold add_counts. revert b. induction l as [|[id n] l IH]; intros b Hb; simpl; [done|].
  apply IH. by apply bag_AddCount_inv.
Qed.

Lemma add_counts_threshold l b : threshold (add_counts l b) = threshold b.
Proof.
  unfold add_counts. revert b. induction l as [|[id n] l IH]; intros b; simpl; [done|].
  rewrite IH. unfold Bag_AddCount. by case_decide.
Qed.

Lemma add_counts_Count l b id :
  Forall (λ p, 0 ≤ p.2) l →
  Bag_Count (add_counts l b) id =
  Bag_Count b id + sumZ (filter (λ p, p.1 = id) l).*2.
Proof.
  unfold add_counts. intros Hl. revert b. induction Hl as [|[i n] l ? ? IH]; intros b.
  { simpl. rewrite sumZ_nil. lia. }
  simpl in *. rewrite IH, Bag_Count_AddCount by done. rewrite filter_cons. simpl.
  case_decide; csimpl; rewrite ?sumZ_cons; lia.
Qed.

Lemma add_counts_Len l b :
  Forall (λ p, 0 ≤ p.2) l → Bag_Len (add_counts l b) = Bag_Len b + sumZ l.*2.
Proof.
  unfold add_counts. intros Hl. revert b. induction Hl as [|[i n] l ? ? IH]; intros b; csimpl in *.
  { rewrite sumZ_nil. lia. }
  rewrite IH, Bag_Len_AddCount by done. rewrite sumZ_cons. lia.
Qed.

Lemma foldl_filter_add (P : ID → bool) l b :
  foldl (λ b '(id, n), if P id then Bag_AddCount id n b else b) b l =
  add_counts (filter (λ p, P p.1) l) b.
Proof.
  unfold add_counts. revert b. induction l as [|[id n] l IH]; intros b; simpl; [done|].
  rewrite filter_cons. simpl. destruct (P id) eqn:E; simpl; by rewrite IH.
Qed.

Lemma foldl_split_add (P : ID → Prop) `{!∀ x, Decision (P x)} l b0 b1 :
  foldl (λ '(votes0, votes1) '(id, n),
           if decide (P id) then (Bag_AddCount id n votes0, votes1)
           else (votes0, Bag_AddCount id n votes1)) (b0, b1) l =
  (add_counts (filter (λ p, P p.1) l) b0, add_counts (filter (λ p, ¬ P p.1) l) b1).
Proof.
  unfold add_counts. revert b0 b1. induction l as [|[id n] l IH]; intros b0 b1; simpl; [done|].
  rewrite !filter_cons. simpl. repeat case_decide; try tauto; simpl; by rewrite IH.
Qed.

Section Bag_range_facts.
Context `{GoRange}.
Implicit Types b : Bag.

Lemma range_counts_pos b (P : ID * Z → Prop) `{!∀ x, Decision (P x)} :
  bag_inv b → Forall (λ p, 0 ≤ p.2) (filter P (go_range (counts b))).
Proof.
  intros Hb. apply Forall_forall. intros [id n] [_ Hin]%list_elem_of_filter.
  apply elem_of_go_range in Hin. pose proof (bag_pos _ Hb _ _ Hin). simpl. lia.
Qed.

Lemma range_counts_sum b (P : ID → Prop) `{!∀ x, Decision (P x)} id :
  sumZ (filter (λ p, p.1 = id) (filter (λ p, P p.1) (go_range (counts b)))).*2 =
  if decide (P id) then Bag_Count b id else 0.
Proof.
  rewrite go_range_perm. unfold Bag_Count. generalize (counts b) as m. clear b. intros m.
  induction m as [|i n m Hm IH] using map_ind.
  { rewrite map_to_list_empty, lookup_empty. simpl. by case_decide. }
  rewrite map_to_list_insert by done. rewrite filter_cons. cbn [fst].
  destruct (decide (i = id)) as [->|Hi].
  - rewrite lookup_insert_eq. rewrite Hm in IH. simpl in *.
    destruct (decide (P id)) as [HP|HP]; [|done].
    rewrite filter_cons, decide_True by done. csimpl. rewrite sumZ_cons, IH. lia.
  - rewrite lookup_insert_ne by done. destruct (decide (P i)); [|done].
    rewrite filter_cons, decide_False by done. done.
Qed.

(** [Filter] keeps the counts of the ids that agree with [id] on the range. *)
Lemma Bag_Filter_Count start stop id b v :
  bag_inv b →
  Bag_Count (Bag_Filter start stop id b) v =
  if EqualSubset start stop id v then Bag_Count b v else 0.
Proof.
  intros Hb. unfold Bag_Filter. rewrite foldl_filter_add, add_counts_Count
    by by apply (range_counts_pos b (λ p, EqualSubset start stop id p.1)).
  pose proof (range_counts_sum b (λ v, Is_true (EqualSubset start stop id v)) v) as Hs.
  unfold Bag_Count at 1. simpl in *. rewrite Hs.
  case_decide; destruct (EqualSubset _ _ _ _); naive_solver.
Qed.

Lemma Bag_Split_Count index b v :
  bag_inv b →
  Bag_Count (Bag_Split index b).1 v = (if decide (Bit v index = 0) then Bag_Count b v else 0) ∧
  Bag_Count (Bag_Split index b).2 v = (if decide (Bit v index = 0) then 0 else Bag_Count b v).
Proof.
  intros Hb. unfold Bag_Split. rewrite (foldl_split_add (λ v, Bit v index = 0)). cbn [fst snd].
  split; rewrite add_counts_Count by
    (apply range_counts_pos || apply (range_counts_pos b (λ p, ¬ Bit p.1 index = 0)); done).
  - pose proof (range_counts_sum b (λ v, Bit v index = 0) v) as Hs.
    cbn beta in Hs. by rewrite Hs.
  - pose proof (range_counts_sum b (λ v, ¬ Bit v index = 0) v) as Hs.
    cbn beta in Hs. rewrite Hs. unfold Bag_Count at 1. simpl.
    repeat case_decide; tauto || done.
Qed.

Lemma bag_Filter_inv start stop id b : bag_inv (Bag_Filter start stop id b).
Proof. unfold Bag_Filter. rewrite foldl_filter_add. apply add_counts_inv, bag_zero_inv. Qed.

Lemma bag_Split_inv index b :
  bag_inv (Bag_Split index b).1 ∧ bag_inv (Bag_Split index b).2.
Proof.
  unfold Bag_Split. rewrite (foldl_split_add (λ v, Bit v index = 0)).
  split; apply add_counts_inv, bag_zero_inv.
Qed.
End Bag_range_facts.

#[export] Hint Resolve bag_Filter_inv : node.

(** ** Bags up to their counts *)

(** Two bags with the same counts; the mode of a rebuilt bag depends on the
    iteration order, its counts and its length do not. *)
Definition bag_equiv (b1 b2 : Bag) : Prop := ∀ id, Bag_Count b1 id = Bag_Count b2 id.

#[export] Instance bag_equiv_equivalence : Equivalence bag_equiv.
Proof.
  split; unfold bag_equiv.
  - done.
  - intros ?? H id. by rewrite H.
  - intros ??? H1 H2 id. by rewrite H1.
Qed.

Lemma counts_lookup b id :
  bag_inv b → counts b !! id = if decide (0 < Bag_Count b id) then Some (Bag_Count b id) else None.
Proof.
  intros Hb. unfold Bag_Count. destruct (counts b !! id) as [n|] eqn:E; simpl.
  - pose proof (bag_pos _ Hb _ _ E). by rewrite decide_True.
  - done.
Qed.

Lemma bag_equiv_counts b1 b2 :
  bag_inv b1 → bag_inv b2 → bag_equiv b1 b2 → counts b1 = counts b2.
Proof.
  intros H1 H2 He. apply map_eq. intros id. rewrite !counts_lookup by done. by rewrite He.
Qed.

Lemma bag_equiv_Len b1 b2 :
  bag_inv b1 → bag_inv b2 → bag_equiv b1 b2 → Bag_Len b1 = Bag_Len b2.
Proof.
  intros. unfold Bag_Len. rewrite !bag_len by done. f_equal. by apply bag_equiv_counts.
Qed.

Lemma counts_nonneg b : bag_inv b → map_Forall (λ _ n, 0 ≤ n) (counts b).
Proof. intros Hb id n Hn. pose proof (bag_pos _ Hb _ _ Hn). simpl. lia. Qed.

Lemma Bag_Len_nonneg b : bag_inv b → 0 ≤ Bag_Len b.
Proof. intros Hb. unfold Bag_Len. rewrite bag_len by done. by apply map_total_nonneg, counts_nonneg. Qed.

Lemma Bag_Count_le_Len b id : bag_inv b → Bag_Count b id ≤ Bag_Len b.
Proof.
  intros Hb. pose proof (Bag_Len_nonneg b Hb). unfold Bag_Count, Bag_Len in *.
  rewrite bag_len in * by done.
  destruct (counts b !! id) eqn:E; simpl; [|done].
  by eapply map_total_lookup_le; [apply counts_nonneg|].
Qed.

Lemma Bag_Count_two_le_Len b i j :
  bag_inv b → i ≠ j → Bag_Count b i + Bag_Count b j ≤ Bag_Len b.
Proof.
  intros Hb Hij. unfold Bag_Count at 1. destruct (counts b !! i) as [n|] eqn:Ei; simpl.
  2:{ pose proof (Bag_Count_le_Len b j Hb). lia. }
  unfold Bag_Len. rewrite bag_len, (map_total_delete _ i n) by done.
  assert (map_Forall (λ _ v, 0 ≤ v) (delete i (counts b))) as Hd.
  { by apply map_Forall_delete, counts_nonneg. }
  unfold Bag_Count. destruct (counts b !! j) as [m|] eqn:Ej; simpl.
  - assert (m ≤ map_total (delete i (counts b))); [|lia].
    eapply map_total_lookup_le; [done|]. by rewrite lookup_delete_ne.
  - pose proof (map_total_nonneg _ Hd). lia.
Qed.

(** A bag whose counts are a part of another's. *)
Lemma counts_filter b b' (P : ID * Z → Prop) `{!∀ x, Decision (P x)} :
  bag_inv b → bag_inv b' →
  (∀ v n, P (v, n) → Bag_Count b' v = Bag_Count b v) →
  (∀ v n, ¬ P (v, n) → Bag_Count b v = n → Bag_Count b' v = 0) →
  counts b' = filter P (counts b).
Proof.
  intros Hb Hb' HP HN. apply map_eq. intros v. rewrite (counts_lookup b') by done.
  destruct (decide (P (v, Bag_Count b v))) as [Hv|Hv].
  - rewrite (HP _ _ Hv). case_decide.
    + symmetry. apply map_lookup_filter_Some. by rewrite counts_lookup, decide_True.
    + symmetry. apply map_lookup_filter_None. left. by rewrite counts_lookup, decide_False.
  - rewrite (HN _ _ Hv), decide_False by done. symmetry. apply map_lookup_filter_None. right.
    intros n. rewrite counts_lookup by done. by case_decide; intros [= <-].
Qed.

Section Bag_lengths.
Context `{GoRange}.

Lemma Bag_Split_Len index b :
  bag_inv b → Bag_Len b = Bag_Len (Bag_Split index b).1 + Bag_Len (Bag_Split index b).2.
Proof.
  intros Hb. destruct (bag_Split_inv index b) as [H0 H1]. unfold Bag_Len.
  rewrite !bag_len by done. rewrite (map_total_filter (λ p, Bit p.1 index = 0) (counts b)).
  f_equal; f_equal.
  - symmetry. apply counts_filter; [done..| |]; simpl; intros v ? HP;
      destruct (Bag_Split_Count index b v Hb) as [-> _]; by case_decide.
  - symmetry. apply counts_filter; [done..| |]; simpl; intros v ? HP;
      destruct (Bag_Split_Count index b v Hb) as [_ ->]; by case_decide.
Qed.

Lemma Bag_Filter_Len_le start stop id b :
  bag_inv b → Bag_Len (Bag_Filter start stop id b) ≤ Bag_Len b.
Proof.
  intros Hb. pose proof (bag_Filter_inv start stop id b) as Hf. unfold Bag_Len.
  rewrite !bag_len by done.
  rewrite (map_total_filter (λ p, Is_true (EqualSubset start stop id p.1)) (counts b)).
  rewrite <-(counts_filter b (Bag_Filter start stop id b)); [|done..| |].
  - assert (0 ≤ map_total (filter (λ p, ¬ EqualSubset start stop id p.1) (counts b))); [|lia].
    by apply map_total_nonneg, map_Forall_filter, counts_nonneg.
  - intros v n Hv%Is_true_true. rewrite Bag_Filter_Count by done. simpl in Hv. by rewrite Hv.
  - intros v n Hv%Is_true_false _. rewrite Bag_Filter_Count by done. simpl in Hv. by rewrite Hv.
Qed.

Lemma bag_SetThreshold_inv thr b : bag_inv b → bag_inv (Bag_SetThreshold thr b).
Proof.
  intros Hb. unfold Bag_SetThreshold. case_decide; [done|].
  split; cbn [counts bag_size mode modeFreq threshold metThreshold]; try apply Hb.
  intros id.
  assert (∀ l s, id ∈ foldl (λ (s : gset ID) '(vote, count),
            if decide (thr ≤ count) then {[vote]} ∪ s else s) s l ↔
          id ∈ s ∨ ∃ n, (id, n) ∈ l ∧ thr ≤ n) as ->.
  { intros l. induction l as [|[v n] l IH]; intros s; simpl; [set_solver|].
    rewrite IH. setoid_rewrite elem_of_cons. case_decide; set_solver. }
  setoid_rewrite elem_of_go_range. rewrite elem_of_dom. unfold Bag_Count. simpl.
  destruct (counts b !! id) as [n|]; simpl; split.
  - intros [?|(?&[= ->]&?)]; [set_solver|]. eauto.
  - intros [_ ?]. right. eauto.
  - intros [?|(?&[=]&?)]. set_solver.
  - intros [[? [=]] ?].
Qed.

(** [Equals] compares the lengths and the counts of the first bag's keys
    only; because counts are positive this decides equality of the counts. *)
Lemma Bag_Equals_equiv b1 b2 :
  bag_inv b1 → bag_inv b2 → Bag_Equals b1 b2 = true ↔ bag_equiv b1 b2.
Proof.
  intros H1 H2. unfold Bag_Equals. split.
  - case_decide as Hlen; [done|]. intros Hall id.
    assert (∀ k, 0 < Bag_Count b1 k → Bag_Count b1 k = Bag_Count b2 k) as Heq.
    { intros k Hk. rewrite forallb_forall in Hall. unfold Bag_Count at 1.
      destruct (counts b1 !! k) as [n|] eqn:E; [|unfold Bag_Count in Hk; rewrite E in Hk; done].
      specialize (Hall (k, n)). simpl in *. eapply bool_decide_eq_true_1, Hall.
      apply list_elem_of_In. by apply elem_of_go_range. }
    destruct (decide (0 < Bag_Count b1 id)) as [|Hz]; [auto|].
    pose proof (Bag_Count_nonneg b1 id H1). pose proof (Bag_Count_nonneg b2 id H2).
    assert (¬ 0 < Bag_Count b2 id); [|lia]. intros Hpos.
    unfold Bag_Len in Hlen. rewrite !bag_len in Hlen by done.
    assert (counts b1 = filter (λ p, 0 < Bag_Count b1 p.1) (counts b2)) as Hc.
    { apply counts_filter; [done..| |]; simpl; [auto|].
      intros v _ ? _. pose proof (Bag_Count_nonneg b1 v H1). lia. }
    rewrite (map_total_filter (λ p, 0 < Bag_Count b1 p.1) (counts b2)), <-Hc in Hlen.
    assert (filter (λ p, ¬ 0 < Bag_Count b1 p.1) (counts b2) !! id = Some (Bag_Count b2 id)) as Hin.
    { apply map_lookup_filter_Some. rewrite counts_lookup, decide_True by done. done. }
    apply map_total_lookup_le in Hin; [lia|].
    by apply map_Forall_filter, counts_nonneg.
  - intros He. rewrite decide_False by (intros []; by apply bag_equiv_Len).
    apply forallb_forall. intros [k n] Hin%list_elem_of_In%elem_of_go_range.
    apply bool_decide_eq_true_2. rewrite <-He. unfold Bag_Count. by rewrite Hin.
Qed.
End Bag_lengths.
