(* ===== verification/Snowball.v ===== *)
(** * The snowball instances (src/snow/consensus/snowball).

    The slush, snowflake and snowball instances over one, two and many
    choices, the [Flat] instance over an n-ary snowball and the consensus
    [Parameters] with their [Verify].  A snowflake is a detector of a run of
    consecutive successful polls for one choice: [decision] is that detector
    on the history of the polls, and the instances are proved to refine it. *)

From S2P Require Import Prelude.
From S2P Require Import Ids.
From S2P Require Import Bag.

(** ** Arrays of two elements, indexed by a bit *)

(** A Go [[2]T] whose index is a bit; [false] is index 0. *)
Definition arr2 (A : Type) : Type := A * A.
Definition get2 {A} (a : arr2 A) (i : bool) : A := if i then a.2 else a.1.
Definition set2 {A} (a : arr2 A) (i : bool) (v : A) : arr2 A :=
  if i then (a.1, v) else (v, a.2).

Lemma get2_set2 {A} (a : arr2 A) i v : get2 (set2 a i v) i = v.
Proof. by destruct i. Qed.
Lemma get2_set2_ne {A} (a : arr2 A) i v : get2 (set2 a i v) (negb i) = get2 a (negb i).
Proof. by destruct i. Qed.
Lemma get2_set2_ne' {A} (a : arr2 A) i v : get2 (set2 a (negb i) v) i = get2 a i.
Proof. by destruct i. Qed.
Lemma get2_pair {A} (x : A) i : get2 (x, x) i = x.
Proof. by destruct i. Qed.
#[export] Hint Rewrite @get2_set2 @get2_set2_ne @get2_set2_ne' : node.

(** ** Parameters *)

Record Parameters := mkParameters {
  K : Z;
  Alpha : Z;
  BetaVirtuous : Z;
  BetaRogue : Z;
  ConcurrentRepolls : Z;
  OptimalProcessing : Z;
  MaxOutstandingItems : Z;
  MaxItemProcessingTime : Z;
  MixedQueryNumPushVdr : Z;
  MixedQueryNumPushNonVdr : Z;
}.

(** The errors of [Verify], one per message. *)
Inductive params_error :=
| errAlphaTooSmall | errAlphaTooLarge | errBetaVirtuous | errBetaMeme | errBetaRogue
| errConcurrentRepolls | errConcurrentRepollsLarge | errOptimalProcessing
| errMaxOutstandingItems | errMaxItemProcessingTime | errPushVdr | errPushNonVdr.

Definition Parameters_Verify (p : Parameters) : result params_error unit :=
  if decide (Alpha p ≤ K p ÷ 2) then Err errAlphaTooSmall
  else if decide (K p < Alpha p) then Err errAlphaTooLarge
  else if decide (BetaVirtuous p ≤ 0) then Err errBetaVirtuous
  else if decide (BetaRogue p = 3 ∧ BetaVirtuous p = 28) then Err errBetaMeme
  else if decide (BetaRogue p < BetaVirtuous p) then Err errBetaRogue
  else if decide (ConcurrentRepolls p ≤ 0) then Err errConcurrentRepolls
  else if decide (ConcurrentRepolls p > BetaRogue p) then Err errConcurrentRepollsLarge
  else if decide (OptimalProcessing p ≤ 0) then Err errOptimalProcessing
  else if decide (MaxOutstandingItems p ≤ 0) then Err errMaxOutstandingItems
  else if decide (MaxItemProcessingTime p ≤ 0) then Err errMaxItemProcessingTime
  else if decide (MixedQueryNumPushVdr p > K p) then Err errPushVdr
  else if decide (MixedQueryNumPushNonVdr p > K p) then Err errPushNonVdr
  else Ok tt.

(** ** Unary instances *)

Record unarySnowflake := mkUnarySnowflake {
  usf_beta : Z;
  usf_confidence : Z;
  usf_finalized : bool;
}.

Definition unarySnowflake_zero : unarySnowflake := mkUnarySnowflake 0 0 false.

Definition unarySnowflake_Initialize (beta : Z) (sf : unarySnowflake) : unarySnowflake :=
  mkUnarySnowflake beta (usf_confidence sf) (usf_finalized sf).

Definition unarySnowflake_RecordSuccessfulPoll (sf : unarySnowflake) : unarySnowflake :=
  let confidence := usf_confidence sf + 1 in
  mkUnarySnowflake (usf_beta sf) confidence
    (usf_finalized sf || bool_decide (usf_beta sf ≤ confidence)).

Definition unarySnowflake_RecordUnsuccessfulPoll (sf : unarySnowflake) : unarySnowflake :=
  mkUnarySnowflake (usf_beta sf) 0 (usf_finalized sf).

Definition unarySnowflake_Finalized (sf : unarySnowflake) : bool := usf_finalized sf.

(** ** Binary instances *)

Record binarySlush := mkBinarySlush { bsl_preference : bool }.

Definition binarySlush_Initialize (choice : bool) (sl : binarySlush) : binarySlush :=
  mkBinarySlush choice.
Definition binarySlush_Preference (sl : binarySlush) : bool := bsl_preference sl.
Definition binarySlush_RecordSuccessfulPoll (choice : bool) (sl : binarySlush) : binarySlush :=
  mkBinarySlush choice.

Record binarySnowflake := mkBinarySnowflake {
  bsf_slush : binarySlush;
  bsf_confidence : Z;
  bsf_beta : Z;
  bsf_finalized : bool;
}.

Definition binarySnowflake_zero : binarySnowflake :=
  mkBinarySnowflake (mkBinarySlush false) 0 0 false.

Definition binarySnowflake_Initialize (beta : Z) (choice : bool) (sf : binarySnowflake)
    : binarySnowflake :=
  mkBinarySnowflake (binarySlush_Initialize choice (bsf_slush sf))
    (bsf_confidence sf) beta (bsf_finalized sf).

Definition binarySnowflake_Preference (sf : binarySnowflake) : bool :=
  binarySlush_Preference (bsf_slush sf).

Definition binarySnowflake_RecordSuccessfulPoll (choice : bool) (sf : binarySnowflake)
    : binarySnowflake :=
  if bsf_finalized sf then sf else
  let confidence :=
    if decide (binarySnowflake_Preference sf = choice) then bsf_confidence sf + 1 else 1 in
  mkBinarySnowflake (binarySlush_RecordSuccessfulPoll choice (bsf_slush sf))
    confidence (bsf_beta sf) (bool_decide (bsf_beta sf ≤ confidence)).

Definition binarySnowflake_RecordUnsuccessfulPoll (sf : binarySnowflake) : binarySnowflake :=
  mkBinarySnowflake (bsf_slush sf) 0 (bsf_beta sf) (bsf_finalized sf).

Definition binarySnowflake_Finalized (sf : binarySnowflake) : bool := bsf_finalized sf.

Record binarySnowball := mkBinarySnowball {
  bsb_snowflake : binarySnowflake;
  bsb_preference : bool;
  bsb_numSuccessfulPolls : arr2 Z;
}.

Definition binarySnowball_zero : binarySnowball :=
  mkBinarySnowball binarySnowflake_zero false (0, 0).

Definition binarySnowball_Initialize (beta : Z) (choice : bool) (sb : binarySnowball)
    : binarySnowball :=
  mkBinarySnowball (binarySnowflake_Initialize beta choice (bsb_snowflake sb)) choice
    (bsb_numSuccessfulPolls sb).

Definition binarySnowball_Finalized (sb : binarySnowball) : bool :=
  binarySnowflake_Finalized (bsb_snowflake sb).

Definition binarySnowball_Preference (sb : binarySnowball) : bool :=
  if binarySnowball_Finalized sb then binarySnowflake_Preference (bsb_snowflake sb)
  else bsb_preference sb.

Definition binarySnowball_RecordSuccessfulPoll (choice : bool) (sb : binarySnowball)
    : binarySnowball :=
  let num := set2 (bsb_numSuccessfulPolls sb) choice
               (get2 (bsb_numSuccessfulPolls sb) choice + 1) in
  mkBinarySnowball
    (binarySnowflake_RecordSuccessfulPoll choice (bsb_snowflake sb))
    (if decide (get2 num choice > get2 num (negb choice)) then choice else bsb_preference sb)
    num.

Definition binarySnowball_RecordUnsuccessfulPoll (sb : binarySnowball) : binarySnowball :=
  mkBinarySnowball (binarySnowflake_RecordUnsuccessfulPoll (bsb_snowflake sb))
    (bsb_preference sb) (bsb_numSuccessfulPolls sb).

(** ** The unary snowball and its extension to two choices *)

Definition unarySnowflake_Extend (beta : Z) (choice : bool) (sf : unarySnowflake)
    : binarySnowflake :=
  mkBinarySnowflake (mkBinarySlush choice) (usf_confidence sf) beta (usf_finalized sf).

Record unarySnowball := mkUnarySnowball {
  usb_snowflake : unarySnowflake;
  usb_numSuccessfulPolls : Z;
}.

Definition unarySnowball_zero : unarySnowball := mkUnarySnowball unarySnowflake_zero 0.

Definition unarySnowball_Initialize (beta : Z) (sb : unarySnowball) : unarySnowball :=
  mkUnarySnowball (unarySnowflake_Initialize beta (usb_snowflake sb)) (usb_numSuccessfulPolls sb).

Definition unarySnowball_RecordSuccessfulPoll (sb : unarySnowball) : unarySnowball :=
  mkUnarySnowball (unarySnowflake_RecordSuccessfulPoll (usb_snowflake sb))
    (usb_numSuccessfulPolls sb + 1).

Definition unarySnowball_RecordUnsuccessfulPoll (sb : unarySnowball) : unarySnowball :=
  mkUnarySnowball (unarySnowflake_RecordUnsuccessfulPoll (usb_snowflake sb))
    (usb_numSuccessfulPolls sb).

Definition unarySnowball_Finalized (sb : unarySnowball) : bool :=
  unarySnowflake_Finalized (usb_snowflake sb).

Definition unarySnowball_Extend (beta : Z) (choice : bool) (sb : unarySnowball)
    : binarySnowball :=
  mkBinarySnowball
    (mkBinarySnowflake (mkBinarySlush choice) (usf_confidence (usb_snowflake sb)) beta
       (unarySnowball_Finalized sb))
    choice
    (set2 (0, 0) choice (usb_numSuccessfulPolls sb)).

(** [Clone] copies the struct: a value copy here. *)
Definition unarySnowball_Clone (sb : unarySnowball) : unarySnowball :=
  mkUnarySnowball
    (mkUnarySnowflake (usf_beta (usb_snowflake sb)) (usf_confidence (usb_snowflake sb))
       (usf_finalized (usb_snowflake sb)))
    (usb_numSuccessfulPolls sb).

(** ** N-ary instances *)

Record nnarySlush := mkNnarySlush { nsl_preference : ID }.

Definition nnarySlush_Initialize (choice : ID) (sl : nnarySlush) : nnarySlush :=
  mkNnarySlush choice.
Definition nnarySlush_Preference (sl : nnarySlush) : ID := nsl_preference sl.
Definition nnarySlush_RecordSuccessfulPoll (choice : ID) (sl : nnarySlush) : nnarySlush :=
  mkNnarySlush choice.

Record nnarySnowflake := mkNnarySnowflake {
  nsf_slush : nnarySlush;
  nsf_betaVirtuous : Z;
  nsf_betaRogue : Z;
  nsf_confidence : Z;
  nsf_rogue : bool;
  nsf_finalized : bool;
}.

Definition nnarySnowflake_zero : nnarySnowflake :=
  mkNnarySnowflake (mkNnarySlush Empty) 0 0 0 false false.

Definition nnarySnowflake_Initialize (betaVirtuous betaRogue : Z) (choice : ID)
    (sf : nnarySnowflake) : nnarySnowflake :=
  mkNnarySnowflake (nnarySlush_Initialize choice (nsf_slush sf)) betaVirtuous betaRogue
    (nsf_confidence sf) (nsf_rogue sf) (nsf_finalized sf).

Definition nnarySnowflake_Preference (sf : nnarySnowflake) : ID :=
  nnarySlush_Preference (nsf_slush sf).

Definition nnarySnowflake_Add (choice : ID) (sf : nnarySnowflake) : nnarySnowflake :=
  mkNnarySnowflake (nsf_slush sf) (nsf_betaVirtuous sf) (nsf_betaRogue sf) (nsf_confidence sf)
    (nsf_rogue sf || bool_decide (choice ≠ nnarySnowflake_Preference sf)) (nsf_finalized sf).

Definition nnarySnowflake_RecordSuccessfulPoll (choice : ID) (sf : nnarySnowflake)
    : nnarySnowflake :=
  if nsf_finalized sf then sf else
  let confidence :=
    if decide (nnarySnowflake_Preference sf = choice) then nsf_confidence sf + 1 else 1 in
  mkNnarySnowflake (nnarySlush_RecordSuccessfulPoll choice (nsf_slush sf))
    (nsf_betaVirtuous sf) (nsf_betaRogue sf) confidence (nsf_rogue sf)
    ((negb (nsf_rogue sf) && bool_decide (nsf_betaVirtuous sf ≤ confidence))
     || bool_decide (nsf_betaRogue sf ≤ confidence)).

Definition nnarySnowflake_RecordUnsuccessfulPoll (sf : nnarySnowflake) : nnarySnowflake :=
  mkNnarySnowflake (nsf_slush sf) (nsf_betaVirtuous sf) (nsf_betaRogue sf) 0
    (nsf_rogue sf) (nsf_finalized sf).

Definition nnarySnowflake_Finalized (sf : nnarySnowflake) : bool := nsf_finalized sf.

Record nnarySnowball := mkNnarySnowball {
  nsb_snowflake : nnarySnowflake;
  nsb_preference : ID;
  nsb_maxSuccessfulPolls : Z;
  nsb_numSuccessfulPolls : gmap ID Z;
}.

Definition nnarySnowball_zero : nnarySnowball :=
  mkNnarySnowball nnarySnowflake_zero Empty 0 ∅.

Definition nnarySnowball_Initialize (betaVirtuous betaRogue : Z) (choice : ID)
    (sb : nnarySnowball) : nnarySnowball :=
  mkNnarySnowball (nnarySnowflake_Initialize betaVirtuous betaRogue choice (nsb_snowflake sb))
    choice (nsb_maxSuccessfulPolls sb) ∅.

Definition nnarySnowball_Finalized (sb : nnarySnowball) : bool :=
  nnarySnowflake_Finalized (nsb_snowflake sb).

Definition nnarySnowball_Preference (sb : nnarySnowball) : ID :=
  if nnarySnowball_Finalized sb then nnarySnowflake_Preference (nsb_snowflake sb)
  else nsb_preference sb.

Definition nnarySnowball_Add (choice : ID) (sb : nnarySnowball) : nnarySnowball :=
  mkNnarySnowball (nnarySnowflake_Add choice (nsb_snowflake sb)) (nsb_preference sb)
    (nsb_maxSuccessfulPolls sb) (nsb_numSuccessfulPolls sb).

Definition nnarySnowball_RecordSuccessfulPoll (choice : ID) (sb : nnarySnowball)
    : nnarySnowball :=
  let numSuccessfulPolls := default 0 (nsb_numSuccessfulPolls sb !! choice) + 1 in
  let better := decide (numSuccessfulPolls > nsb_maxSuccessfulPolls sb) in
  mkNnarySnowball (nnarySnowflake_RecordSuccessfulPoll choice (nsb_snowflake sb))
    (if better then choice else nsb_preference sb)
    (if better then numSuccessfulPolls else nsb_maxSuccessfulPolls sb)
    (<[choice := numSuccessfulPolls]> (nsb_numSuccessfulPolls sb)).

Definition nnarySnowball_RecordUnsuccessfulPoll (sb : nnarySnowball) : nnarySnowball :=
  mkNnarySnowball (nnarySnowflake_RecordUnsuccessfulPoll (nsb_snowflake sb))
    (nsb_preference sb) (nsb_maxSuccessfulPolls sb) (nsb_numSuccessfulPolls sb).

(** ** Flat *)

Record Flat := mkFlat { flat_snowball : nnarySnowball; flat_params : Parameters }.

Definition Flat_Initialize (params : Parameters) (choice : ID) : Flat :=
  mkFlat (nnarySnowball_Initialize (BetaVirtuous params) (BetaRogue params) choice
            nnarySnowball_zero) params.

(** The new state and whether the poll was successful. *)
Definition Flat_RecordPoll (votes : Bag) (f : Flat) : Flat * bool :=
  let '(pollMode, numVotes) := Bag_Mode votes in
  if decide (Alpha (flat_params f) ≤ numVotes) then
    (mkFlat (nnarySnowball_RecordSuccessfulPoll pollMode (flat_snowball f)) (flat_params f), true)
  else
    (mkFlat (nnarySnowball_RecordUnsuccessfulPoll (flat_snowball f)) (flat_params f), false).

(** ** The abstract detector of a run of polls

    A history lists the polls, newest first, each with the length of run that
    would decide at that poll.  [None] is an unsuccessful poll. *)
Section history.
Context {C : Type} `{EqDecision C}.
Implicit Types h : list (option C * Z).

(** The number of consecutive successful polls for the same choice that end
    with the newest poll. *)
Fixpoint streak (h : list (option C * Z)) : Z :=
  match h with
  | (Some c, _) :: h' =>
      1 + match h' with
          | (Some c', _) :: _ => if decide (c' = c) then streak h' else 0
          | _ => 0
          end
  | _ => 0
  end.

(** The choice of the oldest poll at which the run was long enough. *)
Fixpoint decision (h : list (option C * Z)) : option C :=
  match h with
  | [] => None
  | (p, thr) :: h' =>
      match decision h' with
      | Some c => Some c
      | None => c ← p; if decide (thr ≤ streak h) then Some c else None
      end
  end.

Lemma decision_app newer h c : decision h = Some c → decision (newer ++ h) = Some c.
Proof. intros. induction newer as [|[p thr] newer IH]; simpl; [done|]. by rewrite IH. Qed.

Lemma streak_cons c thr h :
  streak ((Some c, thr) :: h) =
  1 + match h with
      | (Some c', _) :: _ => if decide (c' = c) then streak h else 0 | _ => 0 end.
Proof. done. Qed.

Lemma streak_nonneg h : 0 ≤ streak h.
Proof.
  induction h as [|[[c|] thr] h IH]; [done| |done]. rewrite streak_cons.
  destruct h as [|[[c'|] ?] ?]; [lia| |lia]. case_decide; lia.
Qed.

Lemma streak_run h k :
  (k ≤ streak h ↔ k ≤ 0 ∨ ∃ c older, h.*1 = replicate (Z.to_nat k) (Some c) ++ older).
Proof.
  revert k. induction h as [|[[c|] thr] h IH]; intros k.
  - simpl. split; [by left|]. intros [?|(c&o&Hr)]; [done|].
    destruct (Z.to_nat k) eqn:Ek; [lia|done].
  - destruct (decide (k ≤ 0)) as [|Hk].
    { pose proof (streak_nonneg ((Some c, thr) :: h)). split; [by left|lia]. }
    destruct (Z.to_nat k) as [|n] eqn:Ek; [lia|].
    assert (Z.to_nat (k - 1) = n) as En by lia. rewrite streak_cons.
    destruct n as [|n].
    { assert (k = 1) as -> by lia. pose proof (streak_nonneg h). split; [|intros _].
      - intros _. right. by exists c, h.*1.
      - destruct h as [|[[c'|] ?] h]; [lia| |lia]. case_decide; lia. }
    split.
    + intros Hs. right. destruct h as [|[[c'|] thr'] h]; [lia| |lia].
      case_decide as Hc; [subst c'|lia].
      destruct (proj1 (IH (k - 1))) as [?|(c''&o&Ho)]; [lia|lia|].
      rewrite En in Ho. csimpl in Ho. simplify_eq. exists c'', o. csimpl. by rewrite H0.
    + intros [?|(c'&o&Ho)]; [lia|]. csimpl in Ho. injection Ho as -> Ho.
      assert (k - 1 ≤ streak h) as Hs.
      { apply IH. right. exists c', o. rewrite Ho. by rewrite En. }
      destruct h as [|[[c''|] ?] h]; [done| |done].
      csimpl in Ho. simplify_eq. rewrite decide_True by done. lia.
  - simpl. split; [by left|]. intros [?|(c&o&Hr)]; [done|].
    destruct (Z.to_nat k) eqn:Ek; [lia|done].
Qed.

(** The history of polls [ps] that all need a run of [beta]. *)
Fixpoint with_threshold (beta : Z) (ps : list (option C)) : list (option C * Z) :=
  match ps with [] => [] | p :: ps => (p, beta) :: with_threshold beta ps end.

Lemma with_threshold_fst beta ps : (with_threshold beta ps).*1 = ps.
Proof. induction ps as [|p ps IH]; csimpl; [done|]. by rewrite IH. Qed.

(** With a constant threshold the detector fires exactly when the history
    holds a run of that length. *)
Lemma decision_window (beta : Z) (ps : list (option C)) :
  1 ≤ beta →
  is_Some (decision (with_threshold beta ps)) ↔
  ∃ newer older c, ps = newer ++ replicate (Z.to_nat beta) (Some c) ++ older.
Proof.
  intros Hbeta. split.
  - induction ps as [|p ps IH]; cbn [with_threshold decision]; [by intros [? [=]]|].
    destruct (decision _) as [c|].
    + intros _. destruct IH as (newer&older&c'&->); [eauto|]. by exists (p :: newer), older, c'.
    + destruct p as [c|]; [|by intros [? [=]]]. cbn [mbind option_bind].
      case_decide as Hs; [|by intros [? [=]]].
      intros _. change (beta ≤ streak (with_threshold beta (Some c :: ps))) in Hs.
      apply streak_run in Hs as [?|(c'&older&Ho)]; [lia|]. rewrite with_threshold_fst in Ho.
      by exists [], older, c'.
  - intros (newer&older&c&->). induction newer as [|p newer IH].
    + destruct (Z.to_nat beta) as [|n] eqn:En; [lia|].
      cbn [replicate app with_threshold decision].
      destruct (decision _); [eauto|]. cbn [mbind option_bind].
      rewrite decide_True; [eauto|].
      change (beta ≤ streak (with_threshold beta (Some c :: replicate n (Some c) ++ older))).
      apply streak_run. right. exists c, older. by rewrite with_threshold_fst, En.
    + destruct IH as [c' Hc']. simpl. rewrite Hc'. eauto.
Qed.
End history.

(** What a snowflake state must say about a history. *)
Definition flake_ok {C} `{EqDecision C} (h : list (option C * Z))
    (preference : C) (confidence : Z) (finalized : bool) : Prop :=
  match decision h with
  | Some c => finalized = true ∧ preference = c
  | None => finalized = false ∧ confidence = streak h ∧
            (∀ c, head h.*1 = Some (Some c) → preference = c)
  end.

Lemma flake_ok_success {C} `{EqDecision C} (h : list (option C * Z)) pref conf c thr :
  flake_ok h pref conf false →
  flake_ok ((Some c, thr) :: h) c
    (if decide (pref = c) then conf + 1 else 1)
    (bool_decide (thr ≤ if decide (pref = c) then conf + 1 else 1)).
Proof.
  unfold flake_ok. simpl. destruct (decision h) as [d|] eqn:E; [naive_solver|].
  intros (_&Hconf&Hp).
  assert ((if decide (pref = c) then conf + 1 else 1) =
    1 + match h with
        | (Some c', _) :: _ => if decide (c' = c) then streak h else 0 | _ => 0 end) as ->.
  { destruct h as [|[[c'|] t] h]; [simpl in *; subst; case_decide; lia| |].
    - rewrite (Hp c') by done. case_decide; lia.
    - simpl in *. subst. case_decide; lia. }
  simpl. case_decide as Ht; split_and!; try done.
  - by apply bool_decide_eq_true_2.
  - by apply bool_decide_eq_false_2.
  - naive_solver.
Qed.

Lemma flake_ok_fail {C} `{EqDecision C} (h : list (option C * Z)) pref conf fin thr :
  flake_ok h pref conf fin → flake_ok ((None, thr) :: h) pref 0 fin.
Proof. unfold flake_ok. simpl. destruct (decision h); simpl; naive_solver. Qed.

Lemma flake_ok_decided {C} `{EqDecision C} (h : list (option C * Z)) pref conf p thr :
  flake_ok h pref conf true → flake_ok ((p, thr) :: h) pref conf true.
Proof. unfold flake_ok. simpl. destruct (decision h); simpl; naive_solver. Qed.

(** ** The binary snowflake refines the detector *)

Definition binarySnowflake_poll (p : option bool) (sf : binarySnowflake) : binarySnowflake :=
  match p with
  | Some choice => binarySnowflake_RecordSuccessfulPoll choice sf
  | None => binarySnowflake_RecordUnsuccessfulPoll sf
  end.

(** The instance after [Initialize] and the polls [ps], newest first. *)
Definition binarySnowflake_run (beta : Z) (choice : bool) (ps : list (option bool))
    : binarySnowflake :=
  foldr binarySnowflake_poll (binarySnowflake_Initialize beta choice binarySnowflake_zero) ps.

Lemma binarySnowflake_run_beta beta choice ps :
  bsf_beta (binarySnowflake_run beta choice ps) = beta.
Proof.
  induction ps as [|[c|] ps IH]; simpl; [done| |done].
  unfold binarySnowflake_RecordSuccessfulPoll. by case_match.
Qed.

Lemma binarySnowflake_refines beta choice ps :
  let sf := binarySnowflake_run beta choice ps in
  flake_ok (with_threshold beta ps) (binarySnowflake_Preference sf) (bsf_confidence sf)
    (binarySnowflake_Finalized sf).
Proof.
  induction ps as [|[c|] ps IH]; simpl in *.
  - done.
  - unfold binarySnowflake_RecordSuccessfulPoll.
    pose proof (binarySnowflake_run_beta beta choice ps) as Hb.
    destruct (bsf_finalized (binarySnowflake_run beta choice ps)) eqn:Hf.
    + unfold binarySnowflake_Finalized in *. rewrite Hf in *. by apply flake_ok_decided.
    + unfold binarySnowflake_Finalized in *. rewrite Hf in IH. rewrite Hb.
      by apply (flake_ok_success _ _ (bsf_confidence _)).
  - eapply flake_ok_fail. exact IH.
Qed.

(** ** The n-ary snowball refines the detector and keeps the plurality *)

(** The calls an n-ary instance receives after [Initialize]. *)
Inductive nnary_event :=
| NAdd (choice : ID)
| NPoll (p : option ID).

Definition nnarySnowball_step (e : nnary_event) (sb : nnarySnowball) : nnarySnowball :=
  match e with
  | NAdd choice => nnarySnowball_Add choice sb
  | NPoll (Some choice) => nnarySnowball_RecordSuccessfulPoll choice sb
  | NPoll None => nnarySnowball_RecordUnsuccessfulPoll sb
  end.

(** The instance after [Initialize] and the events [evs], newest first. *)
Definition nnarySnowball_run (bv br : Z) (choice : ID) (evs : list nnary_event)
    : nnarySnowball :=
  foldr nnarySnowball_step (nnarySnowball_Initialize bv br choice nnarySnowball_zero) evs.

(** The run that would decide: [betaRogue] once a second choice was added,
    the smaller of the two before. *)
Definition nnary_threshold (bv br : Z) (rogue : bool) : Z :=
  if rogue then br else Z.min bv br.

Fixpoint nnary_history (bv br : Z) (choice : ID) (evs : list nnary_event)
    : list (option ID * Z) :=
  match evs with
  | [] => []
  | NAdd _ :: evs => nnary_history bv br choice evs
  | NPoll p :: evs =>
      (p, nnary_threshold bv br
            (nsf_rogue (nsb_snowflake (nnarySnowball_run bv br choice evs))))
      :: nnary_history bv br choice evs
  end.

(** How many successful polls a choice has had. *)
Definition polls_for (c : ID) (evs : list nnary_event) : Z :=
  sumZ ((λ e, match e with NPoll (Some c') => if decide (c' = c) then 1 else 0 | _ => 0 end) <$> evs).

Lemma nnarySnowball_run_betas bv br choice evs :
  nsf_betaVirtuous (nsb_snowflake (nnarySnowball_run bv br choice evs)) = bv ∧
  nsf_betaRogue (nsb_snowflake (nnarySnowball_run bv br choice evs)) = br.
Proof.
  induction evs as [|[c|[c|]] evs [IH1 IH2]]; simpl; [done|done| |done].
  unfold nnarySnowflake_RecordSuccessfulPoll. by case_match.
Qed.

Lemma nnary_threshold_reached bv br rogue conf :
  (negb rogue && bool_decide (bv ≤ conf)) || bool_decide (br ≤ conf) =
  bool_decide (nnary_threshold bv br rogue ≤ conf).
Proof.
  unfold nnary_threshold. destruct rogue; simpl; [done|].
  repeat case_bool_decide; simpl; lia || done.
Qed.

Lemma nnarySnowball_refines bv br choice evs :
  let sf := nsb_snowflake (nnarySnowball_run bv br choice evs) in
  flake_ok (nnary_history bv br choice evs) (nnarySnowflake_Preference sf) (nsf_confidence sf)
    (nnarySnowflake_Finalized sf).
Proof.
  induction evs as [|[c|[c|]] evs IH]; simpl in *.
  - done.
  - done.
  - unfold nnarySnowflake_RecordSuccessfulPoll.
    destruct (nnarySnowball_run_betas bv br choice evs) as [Hv Hr].
    unfold nnarySnowflake_Finalized in *. destruct (nsf_finalized _) eqn:Hf.
    + rewrite Hf. by apply flake_ok_decided.
    + rewrite Hv, Hr, nnary_threshold_reached. by apply (flake_ok_success _ _ (nsf_confidence _)).
  - eapply flake_ok_fail. exact IH.
Qed.

(** The cached maximum and preference agree with the per-choice counts, and the
    counts are the number of successful polls. *)
Record nnary_counts_ok (sb : nnarySnowball) (polls : ID → Z) : Prop := {
  nn_num : ∀ c, default 0 (nsb_numSuccessfulPolls sb !! c) = polls c;
  nn_pref : polls (nsb_preference sb) = nsb_maxSuccessfulPolls sb;
  nn_max : ∀ c, polls c ≤ nsb_maxSuccessfulPolls sb;
}.

Lemma polls_for_cons c e evs :
  polls_for c (e :: evs) =
  (match e with NPoll (Some c') => if decide (c' = c) then 1 else 0 | _ => 0 end) + polls_for c evs.
Proof. unfold polls_for. by rewrite fmap_cons, sumZ_cons. Qed.

Lemma nnarySnowball_counts bv br choice evs :
  nnary_counts_ok (nnarySnowball_run bv br choice evs) (λ c, polls_for c evs).
Proof.
  induction evs as [|e evs IH]; [by split|].
  destruct IH as [Hn Hp Hm]. destruct e as [c|[c|]]; simpl;
    [split; intros; simpl; rewrite ?polls_for_cons, ?Z.add_0_l; auto| |
     split; intros; simpl; rewrite ?polls_for_cons, ?Z.add_0_l; auto].
  set (sb := nnarySnowball_run bv br choice evs) in *.
  split; cbn [nnarySnowball_RecordSuccessfulPoll nsb_numSuccessfulPolls nsb_preference
    nsb_maxSuccessfulPolls].
  - intros c'. rewrite polls_for_cons, <-Hn. destruct (decide (c = c')) as [->|].
    + rewrite lookup_insert_eq. simpl. lia.
    + by rewrite lookup_insert_ne.
  - rewrite polls_for_cons, Hn.
    destruct (decide (polls_for c evs + 1 > nsb_maxSuccessfulPolls sb)).
    + rewrite decide_True by done. lia.
    + rewrite Hp. case_decide as Hc; [rewrite Hc in *; lia|lia].
  - intros c'. rewrite polls_for_cons, Hn. specialize (Hm c').
    destruct (decide (c = c')) as [->|]; case_decide; lia.
Qed.

Lemma nnarySnowball_step_final e sb :
  nnarySnowball_Finalized sb = true →
  nnarySnowball_Finalized (nnarySnowball_step e sb) = true ∧
  nnarySnowball_Preference (nnarySnowball_step e sb) = nnarySnowball_Preference sb.
Proof.
  unfold nnarySnowball_Preference, nnarySnowball_Finalized, nnarySnowflake_Finalized.
  intros Hf. destruct e as [c|[c|]]; simpl.
  - by rewrite Hf.
  - unfold nnarySnowflake_RecordSuccessfulPoll. by rewrite !Hf.
  - by rewrite Hf.
Qed.

(** ** Claims *)

(** C1: a binary snowflake is finalized exactly when its history holds
    [beta] consecutive successful polls for one choice, whatever the initial
    preference and the other polls. *)
Theorem binarySnowflake_finalized_iff beta choice ps :
  1 ≤ beta →
  binarySnowflake_Finalized (binarySnowflake_run beta choice ps) = true ↔
  ∃ newer older c, ps = newer ++ replicate (Z.to_nat beta) (Some c) ++ older.
Proof.
  intros Hbeta. rewrite <-(decision_window beta ps Hbeta).
  pose proof (binarySnowflake_refines beta choice ps) as Hok. unfold flake_ok in Hok.
  cbv zeta in Hok. destruct (decision (with_threshold beta ps)); destruct Hok as [-> _].
  - split; [eauto|done].
  - split; [done|]. by intros [? [=]].
Qed.

Lemma binarySnowflake_finalized_iff_witness :
  binarySnowflake_Finalized
    (binarySnowflake_run 2 false [None; Some true; Some true; Some false]) = true.
Proof.
  apply (binarySnowflake_finalized_iff 2 false [None; Some true; Some true; Some false]).
  - lia.
  - by exists [None], [Some false], true.
Defined.

(** An n-ary snowball prefers the decided choice once it is finalized,
    and before that a choice with the most successful polls; it is finalized
    exactly when the run detector has fired on its history, where the run
    needed is [betaRogue], or the smaller of the two betas while only one
    choice has been added. *)
Theorem nnarySnowball_preference_spec bv br choice evs :
  let sb := nnarySnowball_run bv br choice evs in
  match decision (nnary_history bv br choice evs) with
  | Some c => nnarySnowball_Finalized sb = true ∧ nnarySnowball_Preference sb = c
  | None => nnarySnowball_Finalized sb = false ∧
            ∀ c, polls_for c evs ≤ polls_for (nnarySnowball_Preference sb) evs
  end.
Proof.
  intros sb. pose proof (nnarySnowball_refines bv br choice evs) as Hok.
  destruct (nnarySnowball_counts bv br choice evs) as [_ Hp Hm].
  unfold flake_ok in Hok. fold sb in Hok, Hp, Hm.
  unfold nnarySnowball_Preference, nnarySnowball_Finalized.
  destruct (decision _).
  - destruct Hok as [Hf ->]. by rewrite Hf.
  - destruct Hok as (Hf&_&_). rewrite Hf. split; [done|]. intros c. rewrite Hp. apply Hm.
Qed.

(** C2: a finalized n-ary snowball never changes its mind: whatever calls
    follow, it stays finalized on the same choice. *)
Theorem nnarySnowball_finality bv br choice evs newer :
  nnarySnowball_Finalized (nnarySnowball_run bv br choice evs) = true →
  nnarySnowball_Finalized (nnarySnowball_run bv br choice (newer ++ evs)) = true ∧
  nnarySnowball_Preference (nnarySnowball_run bv br choice (newer ++ evs)) =
  nnarySnowball_Preference (nnarySnowball_run bv br choice evs).
Proof.
  intros Hf. induction newer as [|e newer [IH1 IH2]]; [done|]. simpl.
  rewrite <-IH2. by apply nnarySnowball_step_final.
Qed.

Lemma nnarySnowball_finality_witness :
  nnarySnowball_Finalized (nnarySnowball_run 1 2 Empty [NPoll (Some Empty)]) = true ∧
  nnarySnowball_Preference
    (nnarySnowball_run 1 2 Empty ([NPoll (Some (id1 Byte.x01)); NAdd (id1 Byte.x01)] ++
      [NPoll (Some Empty)])) = Empty.
Proof.
  split; [vm_compute; reflexivity|].
  refine (proj2 (nnarySnowball_finality 1 2 Empty [NPoll (Some Empty)]
    [NPoll (Some (id1 Byte.x01)); NAdd (id1 Byte.x01)] _)).
  vm_compute. reflexivity.
Defined.

(** A binary snowball keeps the choice with the most successful polls and
    counts the polls of each choice. *)
Lemma binarySnowball_plurality sb c :
  get2 (bsb_numSuccessfulPolls sb) (negb (bsb_preference sb)) ≤
  get2 (bsb_numSuccessfulPolls sb) (bsb_preference sb) →
  get2 (bsb_numSuccessfulPolls (binarySnowball_RecordSuccessfulPoll c sb))
       (negb (bsb_preference (binarySnowball_RecordSuccessfulPoll c sb))) ≤
  get2 (bsb_numSuccessfulPolls (binarySnowball_RecordSuccessfulPoll c sb))
       (bsb_preference (binarySnowball_RecordSuccessfulPoll c sb)).
Proof.
  destruct sb as [sf pref [n0 n1]]. unfold binarySnowball_RecordSuccessfulPoll. simpl.
  destruct c, pref; simpl; case_decide; simpl in *; lia.
Qed.

(** Under parameters that pass [Verify], a poll of at most [K] votes is
    recorded by [Flat] as successful exactly when some choice has at least
    [Alpha] votes, that choice is the only one, and it is the one credited. *)
Theorem Flat_RecordPoll_spec (f : Flat) (votes : Bag) :
  Parameters_Verify (flat_params f) = Ok tt →
  bag_inv votes →
  Bag_Len votes ≤ K (flat_params f) →
  let '(f', successful) := Flat_RecordPoll votes f in
  (successful = true ↔ ∃ c, Alpha (flat_params f) ≤ Bag_Count votes c) ∧
  ∀ c, Alpha (flat_params f) ≤ Bag_Count votes c →
    flat_snowball f' = nnarySnowball_RecordSuccessfulPoll c (flat_snowball f).
Proof.
  intros Hv Hb Hlen. unfold Flat_RecordPoll, Bag_Mode.
  pose proof (bag_mode _ Hb) as Hmode. pose proof (bag_max _ Hb) as Hmax.
  case_decide as Ha.
  2:{ split; [split; [done|]|].
      - intros [c Hc]. specialize (Hmax c). lia.
      - intros c Hc. specialize (Hmax c). lia. }
  split; [split; [intros _; exists (mode votes); lia|done]|].
  intros c Hc. simpl. f_equal.
  destruct (decide (mode votes = c)) as [|Hne]; [done|]. exfalso.
  assert (K (flat_params f) < 2 * Alpha (flat_params f)) as HK.
  { unfold Parameters_Verify in Hv. repeat case_decide; try done.
    pose proof (Z.quot_rem' (K (flat_params f)) 2). 
    pose proof (Z.rem_bound_abs (K (flat_params f)) 2). lia. }
  assert (Bag_Count votes (mode votes) + Bag_Count votes c ≤ Bag_Len votes); [|lia].
  apply Bag_Count_two_le_Len; done.
Qed.

(** Parameters of a five-validator sample, and a poll of it. *)
Definition five_params : Parameters :=
  {| K := 5; Alpha := 4; BetaVirtuous := 2; BetaRogue := 3; ConcurrentRepolls := 1;
     OptimalProcessing := 1; MaxOutstandingItems := 1; MaxItemProcessingTime := 1;
     MixedQueryNumPushVdr := 1; MixedQueryNumPushNonVdr := 1 |}.

Definition five_votes : Bag :=
  Bag_AddCount (id1 Byte.x01) 4 (Bag_AddCount Empty 1 Bag_zero).

Lemma Flat_RecordPoll_spec_witness :
  let f := Flat_Initialize five_params Empty in
  flat_snowball (Flat_RecordPoll five_votes f).1 =
  nnarySnowball_RecordSuccessfulPoll (id1 Byte.x01) (flat_snowball f).
Proof.
  intros f. refine (proj2 (Flat_RecordPoll_spec f five_votes _ _ _) (id1 Byte.x01) _).
  - vm_compute. reflexivity.
  - apply bag_AddCount_inv, bag_AddCount_inv, bag_zero_inv.
  - vm_compute. discriminate.
  - vm_compute. discriminate.
Defined.
