(* ===== verification/SnowballTree.v ===== *)
(** * The snowball patricia tree (src/snow/consensus/snowball/tree.go).

    [Tree] decides between 256-bit identifiers one bit at a time: a unary node
    votes on a range of undisputed bits, a binary node on one disputed bit.
    The file models every operation of the tree and its nodes, states the
    well-formedness of the patricia tree as [wf] and shows that [Add] and
    [RecordPoll] keep it, that a finalized tree never changes its preference,
    that the preference is always a choice that was added, and that the lazy
    [shouldReset] flags implement the eager reset of whole sub-trees. *)

From S2P Require Import Prelude.
From S2P Require Import Ids.
From S2P Require Import Bag.
From S2P Require Import Snowball.

(** ** Data *)

(** The fields of [unaryNode] other than [tree] (whose parameters are passed to
    the operations) and [child]. *)
Record unaryNode := mkUnaryNode {
  u_preference : ID;
  u_decidedPrefix : Z;
  u_commonPrefix : Z;
  u_snowball : unarySnowball;
  u_shouldReset : bool;
}.

(** The fields of [binaryNode] other than [tree] and [children]. *)
Record binaryNode := mkBinaryNode {
  b_preferences : arr2 ID;
  b_bit : Z;
  b_snowball : binarySnowball;
  b_shouldReset : arr2 bool;
}.

(** The [node] interface: nil, a unary node with its child, a binary node with
    its two children.  Every node is referenced by its parent only, so the
    pointers of the Go code are values here. *)
Inductive node :=
| nil_node
| unary_node (u : unaryNode) (child : node)
| binary_node (b : binaryNode) (child0 child1 : node).

Definition is_nil (n : node) : bool := match n with nil_node => true | _ => false end.

(** [children[i]] *)
Definition child_at (child0 child1 : node) (i : bool) : node := if i then child1 else child0.

(** A binary node whose [children[bit]] is [c] and [children[1-bit]] is [c']. *)
Definition binary_with (b : binaryNode) (bit : bool) (c c' : node) : node :=
  if bit then binary_node b c' c else binary_node b c c'.

Definition node_Preference (n : node) : ID :=
  match n with
  | nil_node => Empty
  | unary_node u _ => u_preference u
  | binary_node b _ _ => get2 (b_preferences b) (binarySnowball_Preference (b_snowball b))
  end.

Definition node_DecidedPrefix (n : node) : Z :=
  match n with
  | nil_node => 0
  | unary_node u _ => u_decidedPrefix u
  | binary_node b _ _ => b_bit b
  end.

Definition node_Finalized (n : node) : bool :=
  match n with
  | nil_node => false
  | unary_node u _ => unarySnowball_Finalized (u_snowball u)
  | binary_node b _ _ => binarySnowball_Finalized (b_snowball b)
  end.

(** Field updates of the two node structs. *)
Definition u_set_snowball (sb : unarySnowball) (reset : bool) (u : unaryNode) : unaryNode :=
  mkUnaryNode (u_preference u) (u_decidedPrefix u) (u_commonPrefix u) sb reset.
Definition u_set_preference (p : ID) (u : unaryNode) : unaryNode :=
  mkUnaryNode p (u_decidedPrefix u) (u_commonPrefix u) (u_snowball u) (u_shouldReset u).
Definition u_set_prefixes (d c : Z) (u : unaryNode) : unaryNode :=
  mkUnaryNode (u_preference u) d c (u_snowball u) (u_shouldReset u).
Definition b_set_snowball (sb : binarySnowball) (b : binaryNode) : binaryNode :=
  mkBinaryNode (b_preferences b) (b_bit b) sb (b_shouldReset b).
Definition b_set_shouldReset (i : bool) (r : bool) (b : binaryNode) : binaryNode :=
  mkBinaryNode (b_preferences b) (b_bit b) (b_snowball b) (set2 (b_shouldReset b) i r).
Definition b_set_preference (i : bool) (p : ID) (b : binaryNode) : binaryNode :=
  mkBinaryNode (set2 (b_preferences b) i p) (b_bit b) (b_snowball b) (b_shouldReset b).

(** ** Node operations *)

Section nodes.
Context `{GoRange} (params : Parameters).

(** A unary snowball fresh from [Initialize(BetaVirtuous)]. *)
Definition new_unary_snowball : unarySnowball :=
  unarySnowball_Initialize (BetaVirtuous params) unarySnowball_zero.

(** [unaryNode.Add], the part that splits the node at the first bit [index]
    where [newChoice] differs from its preference. *)
Definition unaryNode_split (u : unaryNode) (child : node) (newChoice : ID) (index : Z) : node :=
  let bit := id_bit (u_preference u) index in
  let b := mkBinaryNode
             (set2 (set2 (Empty, Empty) bit (u_preference u)) (negb bit) newChoice)
             index
             (unarySnowball_Extend (BetaRogue params) bit (u_snowball u))
             (u_shouldReset u, u_shouldReset u) in
  let newChild := unary_node
                    (mkUnaryNode newChoice (index + 1) NumBits new_unary_snowball false)
                    nil_node in
  if decide (u_decidedPrefix u = u_commonPrefix u - 1) then
    binary_with b bit child (if is_nil child then nil_node else newChild)
  else if decide (index = u_decidedPrefix u) then
    binary_with b bit
      (unary_node (u_set_prefixes (u_decidedPrefix u + 1) (u_commonPrefix u) u) child) newChild
  else if decide (index = u_commonPrefix u - 1) then
    unary_node (u_set_prefixes (u_decidedPrefix u) (u_commonPrefix u - 1) u)
      (binary_with b bit child (if is_nil child then nil_node else newChild))
  else
    unary_node
      (mkUnaryNode (u_preference u) (u_decidedPrefix u) index
         (unarySnowball_Clone (u_snowball u)) false)
      (binary_with b bit
         (unary_node (u_set_prefixes (index + 1) (u_commonPrefix u) u) child) newChild).

(** [unaryNode.Add] and [binaryNode.Add]. *)
Fixpoint node_Add (newChoice : ID) (n : node) : node :=
  match n with
  | nil_node => nil_node
  | unary_node u child =>
      if unarySnowball_Finalized (u_snowball u) then n else
      match FirstDifferenceSubset (u_decidedPrefix u) (u_commonPrefix u)
              (u_preference u) newChoice with
      | None => if is_nil child then n else unary_node u (node_Add newChoice child)
      | Some index => unaryNode_split u child newChoice index
      end
  | binary_node b child0 child1 =>
      let bit := id_bit newChoice (b_bit b) in
      let child := child_at child0 child1 bit in
      if negb (is_nil child) &&
         EqualSubset (b_bit b + 1) (node_DecidedPrefix child)
           (get2 (b_preferences b) bit) newChoice
      then
        binary_with b bit (node_Add newChoice child) (child_at child0 child1 (negb bit))
      else n
  end.

(** The snowball and reset flag of a unary node after the optional reset from
    its parent. *)
Definition unaryNode_reset (reset : bool) (u : unaryNode) : unaryNode :=
  if reset then u_set_snowball (unarySnowball_RecordUnsuccessfulPoll (u_snowball u)) true u
  else u.

(** The binary node after the optional reset from its parent and the pending
    reset of the child that did not get the votes. *)
Definition binaryNode_reset (reset : bool) (bit : bool) (b : binaryNode) : binaryNode :=
  let b := if reset then
             b_set_shouldReset bit true
               (b_set_snowball (binarySnowball_RecordUnsuccessfulPoll (b_snowball b)) b)
           else b in
  b_set_shouldReset (negb bit) true b.

(** [unaryNode.RecordPoll] and [binaryNode.RecordPoll]: the node that takes
    this node's place and whether the poll was successful. *)
Fixpoint node_RecordPoll (votes : Bag) (reset : bool) (n : node) : node * bool :=
  match n with
  | nil_node => (nil_node, false)
  | unary_node u child =>
      let u := unaryNode_reset reset u in
      if decide (Bag_Len votes < Alpha params) then
        (unary_node
           (u_set_snowball (unarySnowball_RecordUnsuccessfulPoll (u_snowball u)) true u) child,
         false)
      else
        let u := u_set_snowball (unarySnowball_RecordSuccessfulPoll (u_snowball u))
                   (u_shouldReset u) u in
        if is_nil child then (unary_node (u_set_snowball (u_snowball u) false u) child, true)
        else
          let newChild := fst (node_RecordPoll votes (u_shouldReset u) child) in
          if unarySnowball_Finalized (u_snowball u) then (newChild, true)
          else
            let u := u_set_preference (node_Preference newChild) u in
            (unary_node (u_set_snowball (u_snowball u) false u) newChild, true)
  | binary_node b child0 child1 =>
      let splitVotes := Bag_Split (b_bit b) votes in
      let bit := bool_decide (Alpha params ≤ Bag_Len splitVotes.2) in
      let b := binaryNode_reset reset bit b in
      let prunedVotes := get2 splitVotes bit in
      if decide (Bag_Len prunedVotes < Alpha params) then
        (binary_node
           (b_set_shouldReset bit true
              (b_set_snowball (binarySnowball_RecordUnsuccessfulPoll (b_snowball b)) b))
           child0 child1, false)
      else
        let b := b_set_snowball (binarySnowball_RecordSuccessfulPoll bit (b_snowball b)) b in
        let child := child_at child0 child1 bit in
        if is_nil child then (binary_node (b_set_shouldReset bit false b) child0 child1, true)
        else
          let filteredVotes := Bag_Filter (b_bit b + 1) (node_DecidedPrefix child)
                                 (get2 (b_preferences b) bit) prunedVotes in
          let newChild := fst (node_RecordPoll filteredVotes (get2 (b_shouldReset b) bit) child) in
          if binarySnowball_Finalized (b_snowball b) then (newChild, true)
          else
            let b := b_set_shouldReset bit false
                       (b_set_preference bit (node_Preference newChild) b) in
            (binary_with b bit newChild (child_at child0 child1 (negb bit)), true)
  end.
End nodes.

(** ** Tree operations *)

Record Tree := mkTree {
  tree_node : node;
  tree_params : Parameters;
  tree_shouldReset : bool;
}.

Definition Tree_Preference (t : Tree) : ID := node_Preference (tree_node t).
Definition Tree_Finalized (t : Tree) : bool := node_Finalized (tree_node t).

Definition Tree_Initialize (params : Parameters) (choice : ID) : Tree :=
  mkTree
    (unary_node (mkUnaryNode choice 0 NumBits (new_unary_snowball params) false) nil_node)
    params false.

Definition Tree_Add (choice : ID) (t : Tree) : Tree :=
  let prefix := node_DecidedPrefix (tree_node t) in
  if EqualSubset 0 prefix (Tree_Preference t) choice then
    mkTree (node_Add (tree_params t) choice (tree_node t)) (tree_params t) (tree_shouldReset t)
  else t.

Definition Tree_RecordPoll `{GoRange} (votes : Bag) (t : Tree) : Tree * bool :=
  let decidedPrefix := node_DecidedPrefix (tree_node t) in
  let filteredVotes := Bag_Filter 0 decidedPrefix (Tree_Preference t) votes in
  let '(n, successful) :=
    node_RecordPoll (tree_params t) filteredVotes (tree_shouldReset t) (tree_node t) in
  (mkTree n (tree_params t) false, successful).

Definition Tree_RecordUnsuccessfulPoll (t : Tree) : Tree :=
  mkTree (tree_node t) (tree_params t) true.

(** ** The lazy resets implement eager ones

    [node_reset] calls [RecordUnsuccessfulPoll] on every instance of a
    sub-tree; [flush] performs the resets the [shouldReset] flags stand for.
    [node_RecordPoll_eager] is the poll that resets whole sub-trees at once and
    has no flags. *)

Definition u_cleared (sb : unarySnowball) (u : unaryNode) : unaryNode := u_set_snowball sb false u.
Definition b_cleared (sb : binarySnowball) (b : binaryNode) : binaryNode :=
  mkBinaryNode (b_preferences b) (b_bit b) sb (false, false).

Fixpoint node_reset (n : node) : node :=
  match n with
  | nil_node => nil_node
  | unary_node u child =>
      unary_node (u_cleared (unarySnowball_RecordUnsuccessfulPoll (u_snowball u)) u)
        (node_reset child)
  | binary_node b child0 child1 =>
      binary_node (b_cleared (binarySnowball_RecordUnsuccessfulPoll (b_snowball b)) b)
        (node_reset child0) (node_reset child1)
  end.

Fixpoint flush (n : node) : node :=
  match n with
  | nil_node => nil_node
  | unary_node u child =>
      unary_node (u_cleared (u_snowball u) u)
        (if u_shouldReset u then node_reset child else flush child)
  | binary_node b child0 child1 =>
      binary_node (b_cleared (b_snowball b) b)
        (if get2 (b_shouldReset b) false then node_reset child0 else flush child0)
        (if get2 (b_shouldReset b) true then node_reset child1 else flush child1)
  end.

Definition settle (reset : bool) (n : node) : node := if reset then node_reset n else flush n.

Section eager.
Context `{GoRange} (params : Parameters).

Fixpoint node_RecordPoll_eager (votes : Bag) (n : node) : node * bool :=
  match n with
  | nil_node => (nil_node, false)
  | unary_node u child =>
      if decide (Bag_Len votes < Alpha params) then (node_reset n, false)
      else
        let u := u_cleared (unarySnowball_RecordSuccessfulPoll (u_snowball u)) u in
        if is_nil child then (unary_node u child, true)
        else
          let newChild := fst (node_RecordPoll_eager votes child) in
          if unarySnowball_Finalized (u_snowball u) then (newChild, true)
          else (unary_node (u_set_preference (node_Preference newChild) u) newChild, true)
  | binary_node b child0 child1 =>
      let splitVotes := Bag_Split (b_bit b) votes in
      let bit := bool_decide (Alpha params ≤ Bag_Len splitVotes.2) in
      let prunedVotes := get2 splitVotes bit in
      if decide (Bag_Len prunedVotes < Alpha params) then (node_reset n, false)
      else
        let b := b_cleared (binarySnowball_RecordSuccessfulPoll bit (b_snowball b)) b in
        let child := child_at child0 child1 bit in
        let other := node_reset (child_at child0 child1 (negb bit)) in
        if is_nil child then (binary_with b bit child other, true)
        else
          let filteredVotes := Bag_Filter (b_bit b + 1) (node_DecidedPrefix child)
                                 (get2 (b_preferences b) bit) prunedVotes in
          let newChild := fst (node_RecordPoll_eager filteredVotes child) in
          if binarySnowball_Finalized (b_snowball b) then (newChild, true)
          else (binary_with (b_set_preference bit (node_Preference newChild) b) bit newChild other,
                true)
  end.
End eager.

Lemma binarySnowball_Preference_unsuccessful sb :
  binarySnowball_Preference (binarySnowball_RecordUnsuccessfulPoll sb) = binarySnowball_Preference sb.
Proof. done. Qed.

Lemma reset_Preference n : node_Preference (node_reset n) = node_Preference n.
Proof. by destruct n. Qed.
Lemma flush_Preference n : node_Preference (flush n) = node_Preference n.
Proof. by destruct n. Qed.
Lemma settle_Preference r n : node_Preference (settle r n) = node_Preference n.
Proof. destruct r; [apply reset_Preference|apply flush_Preference]. Qed.
Lemma settle_DecidedPrefix r n : node_DecidedPrefix (settle r n) = node_DecidedPrefix n.
Proof. by destruct r, n. Qed.
Lemma settle_is_nil r n : is_nil (settle r n) = is_nil n.
Proof. by destruct r, n. Qed.
Lemma settle_Finalized r n : node_Finalized (settle r n) = node_Finalized n.
Proof. by destruct r, n. Qed.

Lemma settle_nil r : settle r nil_node = nil_node.
Proof. by destruct r. Qed.

Lemma reset_reset n : node_reset (node_reset n) = node_reset n.
Proof.
  induction n as [|u n IH|b n0 IH0 n1 IH1]; simpl; [done| |]; rewrite ?IH, ?IH0, ?IH1; done.
Qed.

Lemma reset_flush n : node_reset (flush n) = node_reset n.
Proof.
  induction n as [|u n IH|b n0 IH0 n1 IH1]; simpl; [done| |].
  - destruct (u_shouldReset u); rewrite ?reset_reset, ?IH; done.
  - destruct (b_shouldReset b) as [[] []]; simpl;
      rewrite ?reset_reset, ?IH0, ?IH1; done.
Qed.

Lemma flush_reset n : flush (node_reset n) = node_reset n.
Proof.
  induction n as [|u n IH|b n0 IH0 n1 IH1]; simpl; [done| |]; rewrite ?IH, ?IH0, ?IH1; done.
Qed.

Lemma reset_settle r n : node_reset (settle r n) = node_reset n.
Proof. destruct r; [apply reset_reset|apply reset_flush]. Qed.

Lemma flush_unary u child :
  flush (unary_node u child) = unary_node (u_cleared (u_snowball u) u) (settle (u_shouldReset u) child).
Proof. done. Qed.

Lemma flush_binary b bit c c' :
  flush (binary_with b bit c c') =
  binary_with (b_cleared (b_snowball b) b) bit (settle (get2 (b_shouldReset b) bit) c)
    (settle (get2 (b_shouldReset b) (negb bit)) c').
Proof. by destruct bit. Qed.

Lemma binary_as_with b c0 c1 bit :
  binary_node b c0 c1 = binary_with b bit (child_at c0 c1 bit) (child_at c0 c1 (negb bit)).
Proof. by destruct bit. Qed.

(** Induction with the two children of a binary node indexed by a bit. *)
Lemma node_ind_at (P : node → Prop) :
  P nil_node →
  (∀ u child, P child → P (unary_node u child)) →
  (∀ b c0 c1, (∀ i, P (child_at c0 c1 i)) → P (binary_node b c0 c1)) →
  ∀ n, P n.
Proof. intros Hn Hu Hb n. induction n; auto. apply Hb. by intros []. Qed.

Section polls.
Context `{GoRange} (params : Parameters).

(** The bit whose votes reach the threshold, as [binaryNode.RecordPoll]
    chooses it. *)
Definition poll_bit (votes : Bag) (b : binaryNode) : bool :=
  bool_decide (Alpha params ≤ Bag_Len (Bag_Split (b_bit b) votes).2).

Lemma RecordPoll_binary votes reset b bit c c' :
  poll_bit votes b = bit →
  node_RecordPoll params votes reset (binary_with b bit c c') =
  let b := binaryNode_reset reset bit b in
  let prunedVotes := get2 (Bag_Split (b_bit b) votes) bit in
  if decide (Bag_Len prunedVotes < Alpha params) then
    (binary_with
       (b_set_shouldReset bit true
          (b_set_snowball (binarySnowball_RecordUnsuccessfulPoll (b_snowball b)) b))
       bit c c', false)
  else
    let b := b_set_snowball (binarySnowball_RecordSuccessfulPoll bit (b_snowball b)) b in
    if is_nil c then (binary_with (b_set_shouldReset bit false b) bit c c', true)
    else
      let newChild :=
        fst (node_RecordPoll params
               (Bag_Filter (b_bit b + 1) (node_DecidedPrefix c) (get2 (b_preferences b) bit)
                  prunedVotes) (get2 (b_shouldReset b) bit) c) in
      if binarySnowball_Finalized (b_snowball b) then (newChild, true)
      else (binary_with (b_set_shouldReset bit false
              (b_set_preference bit (node_Preference newChild) b)) bit newChild c', true).
Proof.
  unfold poll_bit. intros Hbit. destruct bit, reset; cbn [binary_with node_RecordPoll];
    rewrite Hbit; done.
Qed.

Lemma RecordPoll_eager_binary votes b bit c c' :
  poll_bit votes b = bit →
  node_RecordPoll_eager params votes (binary_with b bit c c') =
  let prunedVotes := get2 (Bag_Split (b_bit b) votes) bit in
  if decide (Bag_Len prunedVotes < Alpha params) then
    (node_reset (binary_with b bit c c'), false)
  else
    let b := b_cleared (binarySnowball_RecordSuccessfulPoll bit (b_snowball b)) b in
    if is_nil c then (binary_with b bit c (node_reset c'), true)
    else
      let newChild :=
        fst (node_RecordPoll_eager params
               (Bag_Filter (b_bit b + 1) (node_DecidedPrefix c) (get2 (b_preferences b) bit)
                  prunedVotes) c) in
      if binarySnowball_Finalized (b_snowball b) then (newChild, true)
      else (binary_with (b_set_preference bit (node_Preference newChild) b) bit newChild
              (node_reset c'), true).
Proof.
  unfold poll_bit. intros Hbit. destruct bit; cbn [binary_with node_RecordPoll_eager];
    rewrite Hbit; done.
Qed.

Lemma settle_binary reset b bit c c' :
  settle reset (binary_with b bit c c') =
  binary_with (b_cleared (b_snowball (binaryNode_reset reset bit b)) b) bit
    (settle (get2 (b_shouldReset (binaryNode_reset reset bit b)) bit) c)
    (settle (reset || get2 (b_shouldReset b) (negb bit)) c').
Proof. by destruct reset, bit. Qed.

Lemma reset_binary b bit c c' :
  node_reset (binary_with b bit c c') =
  binary_with (b_cleared (binarySnowball_RecordUnsuccessfulPoll (b_snowball b)) b) bit
    (node_reset c) (node_reset c').
Proof. by destruct bit. Qed.

(** One poll of the lazy tree, seen through [flush], is the eager poll of the
    settled tree. *)
Lemma RecordPoll_lazy_eager n votes reset :
  flush (fst (node_RecordPoll params votes reset n)) =
  fst (node_RecordPoll_eager params votes (settle reset n)) ∧
  snd (node_RecordPoll params votes reset n) =
  snd (node_RecordPoll_eager params votes (settle reset n)).
Proof.
  revert votes reset.
  induction n as [|u child IH|b c0 c1 IH] using node_ind_at; intros votes reset.
  - by destruct reset.
  - assert (settle reset (unary_node u child) =
      unary_node (u_cleared (u_snowball (unaryNode_reset reset u)) u)
        (settle (u_shouldReset (unaryNode_reset reset u)) child)) as -> by by destruct reset.
    cbn [node_RecordPoll node_RecordPoll_eager]. rewrite settle_is_nil.
    case_decide.
    { split; [|done]. cbn [fst node_reset]. rewrite flush_unary, reset_settle.
      by destruct reset. }
    destruct (is_nil child) eqn:Hnil.
    { destruct child; [|done..]. rewrite settle_nil. split; [|done]. by destruct reset. }
    cbn [u_shouldReset u_snowball u_set_snowball u_cleared].
    destruct (IH votes (u_shouldReset (unaryNode_reset reset u))) as [<- _].
    rewrite flush_Preference. case_match; [done|]. split; [|done].
    cbn [fst]. rewrite flush_unary. by destruct reset.
  - specialize (IH (poll_bit votes b)).
    rewrite (binary_as_with b c0 c1 (poll_bit votes b)).
    revert IH. generalize (child_at c0 c1 (poll_bit votes b)) as c.
    generalize (child_at c0 c1 (negb (poll_bit votes b))) as c'. intros c' c IH.
    rewrite RecordPoll_binary, settle_binary by done.
    rewrite RecordPoll_eager_binary by done. remember (poll_bit votes b) as bit eqn:Hbit.
    assert (b_bit (binaryNode_reset reset bit b) = b_bit b) as Hb by by destruct reset.
    assert (b_preferences (binaryNode_reset reset bit b) = b_preferences b) as Hp
      by by destruct reset.
    cbv zeta. rewrite settle_is_nil, Hb. cbn [b_bit b_cleared]. case_decide.
    { split; [|done]. cbn [fst].
      rewrite flush_binary, reset_binary, !reset_settle. by destruct reset, bit. }
    destruct (is_nil c) eqn:Hnil.
    { destruct c; [|done..]. split; [|done]. cbn [fst].
      rewrite flush_binary, !settle_nil, reset_settle. by destruct reset, bit. }
    cbn [b_bit b_set_snowball b_cleared b_preferences b_shouldReset b_snowball].
    rewrite Hb, Hp, settle_DecidedPrefix.
    destruct (IH (Bag_Filter (b_bit b + 1) (node_DecidedPrefix c)
      (get2 (b_preferences b) bit) (get2 (Bag_Split (b_bit b) votes) bit))
      (get2 (b_shouldReset (binaryNode_reset reset bit b)) bit)) as [<- _].
    rewrite flush_Preference. case_match; [done|]. split; [|done]. cbn [fst].
    rewrite flush_binary, reset_settle. by destruct reset, bit.
Qed.
End polls.

(** ** Well-formedness of the patricia tree *)

Definition uconf (u : unaryNode) : Z := usf_confidence (usb_snowflake (u_snowball u)).
Definition bconf (b : binaryNode) : Z := bsf_confidence (bsb_snowflake (b_snowball b)).
Definition ufin (u : unaryNode) : bool := unarySnowball_Finalized (u_snowball u).
Definition bfin (b : binaryNode) : bool := binarySnowball_Finalized (b_snowball b).

Section wf.
Context `{GoRange} (params : Parameters).

(** The snowball of a unary node: an unfinalized one has not reached
    [BetaVirtuous], and a pending reset of the child means that this node
    has just been reset itself. *)
Record unary_ok (u : unaryNode) : Prop := {
  uo_beta : usf_beta (usb_snowflake (u_snowball u)) = BetaVirtuous params;
  uo_conf : 0 ≤ uconf u;
  uo_reset : u_shouldReset u = true → uconf u = 0;
  uo_fin : ufin u = false → uconf u < BetaVirtuous params;
  uo_range : 0 ≤ u_decidedPrefix u < u_commonPrefix u;
  uo_common : u_commonPrefix u ≤ NumBits;
}.

(** The snowball and the two preferences of a binary node: they agree below
    the disputed bit and differ on it. *)
Record binary_ok (b : binaryNode) : Prop := {
  bo_beta : bsf_beta (bsb_snowflake (b_snowball b)) = BetaRogue params;
  bo_conf : 0 ≤ bconf b;
  bo_range : 0 ≤ b_bit b < NumBits;
  bo_bit : ∀ i, id_bit (get2 (b_preferences b) i) (b_bit b) = i;
  bo_agree : agree 0 (b_bit b) (get2 (b_preferences b) false) (get2 (b_preferences b) true);
}.

(** The only child of a unary node is a binary node on the bit where the
    unary range ends; it is less confident than its parent, so it cannot
    finalize first. *)
Definition unary_child_ok (u : unaryNode) (child : node) : Prop :=
  match child with
  | nil_node => u_commonPrefix u = NumBits
  | unary_node _ _ => False
  | binary_node b _ _ =>
      b_bit b = u_commonPrefix u ∧ node_Preference child = u_preference u ∧
      ufin u = false ∧ bfin b = false ∧ (u_shouldReset u = false → bconf b ≤ uconf u)
  end.

Fixpoint wf (n : node) : Prop :=
  match n with
  | nil_node => False
  | unary_node u child =>
      unary_ok u ∧ unary_child_ok u child ∧ (is_nil child = true ∨ wf child)
  | binary_node b c0 c1 =>
      binary_ok b ∧
      ((b_bit b = NumBits - 1 ∧ ∀ i, is_nil (child_at c0 c1 i) = true) ∨
       (bfin b = false ∧
        ∀ i, wf (child_at c0 c1 i) ∧ b_bit b < node_DecidedPrefix (child_at c0 c1 i) ∧
             node_Preference (child_at c0 c1 i) = get2 (b_preferences b) i))
  end.

(** A child of a binary node on the side of bit [i]. *)
Definition child_ok (b : binaryNode) (i : bool) (c : node) : Prop :=
  wf c ∧ b_bit b < node_DecidedPrefix c ∧ node_Preference c = get2 (b_preferences b) i.

Lemma child_ok_ext b b' i c :
  b_bit b' = b_bit b → get2 (b_preferences b') i = get2 (b_preferences b) i →
  child_ok b i c → child_ok b' i c.
Proof. intros E1 E2 (?&?&?). split_and!; [done|by rewrite E1|by rewrite E2]. Qed.

Lemma wf_binary_with b bit c c' :
  wf (binary_with b bit c c') ↔
  binary_ok b ∧
  ((b_bit b = NumBits - 1 ∧ is_nil c = true ∧ is_nil c' = true) ∨
   (bfin b = false ∧ child_ok b bit c ∧ child_ok b (negb bit) c')).
Proof.
  assert (∀ P : bool → Prop, (∀ i, P i) ↔ P bit ∧ P (negb bit)) as Hall.
  { intros P. destruct bit; split; [auto|intros [??] []; done|auto|intros [??] []; done]. }
  destruct bit; cbn [binary_with wf]; rewrite !Hall; unfold child_ok; simpl; tauto.
Qed.

Lemma unary_child_with u b bit c c' :
  unary_child_ok u (binary_with b bit c c') ↔
  b_bit b = u_commonPrefix u ∧ node_Preference (binary_with b bit c c') = u_preference u ∧
  ufin u = false ∧ bfin b = false ∧ (u_shouldReset u = false → bconf b ≤ uconf u).
Proof. by destruct bit. Qed.

Lemma binary_pref_agree b i j k :
  binary_ok b → k ≤ b_bit b →
  agree 0 k (get2 (b_preferences b) i) (get2 (b_preferences b) j).
Proof.
  intros Hb Hk. pose proof (agree_mono 0 (b_bit b) 0 k _ _ ltac:(lia) Hk (bo_agree _ Hb)).
  by destruct i, j.
Qed.

Lemma wf_DecidedPrefix n : wf n → 0 ≤ node_DecidedPrefix n < NumBits.
Proof.
  destruct n as [|u c|b c0 c1]; simpl; [done| |].
  - intros ([]&_). lia.
  - intros ([]&_). lia.
Qed.

(** ** Splitting a unary node *)

Lemma new_unary_ok newChoice k :
  0 < BetaVirtuous params → 0 ≤ k < NumBits →
  wf (unary_node (mkUnaryNode newChoice k NumBits (new_unary_snowball params) false) nil_node).
Proof. intros. simpl. split_and!; [|done|by left]. split; done || (simpl; lia). Qed.

Lemma split_binary_ok u newChoice index r :
  unary_ok u → 0 ≤ index < NumBits →
  agree 0 index (u_preference u) newChoice →
  id_bit (u_preference u) index ≠ id_bit newChoice index →
  let bit := id_bit (u_preference u) index in
  let b := mkBinaryNode (set2 (set2 (Empty, Empty) bit (u_preference u)) (negb bit) newChoice)
             index (unarySnowball_Extend (BetaRogue params) bit (u_snowball u)) r in
  binary_ok b ∧ bfin b = ufin u ∧ bconf b = uconf u ∧
  get2 (b_preferences b) bit = u_preference u ∧
  get2 (b_preferences b) (negb bit) = newChoice ∧
  (ufin u = false → get2 (b_preferences b) (binarySnowball_Preference (b_snowball b)) =
                    u_preference u).
Proof.
  intros Hu Hi Hag Hne bit b.
  assert (get2 (b_preferences b) bit = u_preference u) as Hp1.
  { unfold b. cbn [b_preferences]. by rewrite get2_set2_ne', get2_set2. }
  assert (get2 (b_preferences b) (negb bit) = newChoice) as Hp2.
  { unfold b. cbn [b_preferences]. by rewrite get2_set2. }
  assert (id_bit newChoice index = negb bit) as Hnb.
  { unfold bit in *. destruct (id_bit (u_preference u) index), (id_bit newChoice index); done. }
  split_and!; try done.
  - split; try done; [apply Hu| |].
    + intros i. change (b_bit b) with index. destruct (decide (i = bit)) as [->|Hib].
      * by rewrite Hp1.
      * assert (i = negb bit) as -> by (by destruct i, bit). by rewrite Hp2.
    + change (b_bit b) with index. clearbody b. clearbody bit.
      destruct bit; cbn [negb] in *; rewrite Hp1, Hp2; by try symmetry.
  - intros Hf. unfold binarySnowball_Preference.
    change (binarySnowball_Finalized (b_snowball b)) with (ufin u). by rewrite Hf.
Qed.

(** The child of a unary node becomes a child of the binary node that takes
    the last bit of its range. *)
Lemma last_children_ok u child newChoice index r :
  0 < BetaVirtuous params →
  wf (unary_node u child) → ufin u = false → index = u_commonPrefix u - 1 →
  agree 0 index (u_preference u) newChoice →
  id_bit (u_preference u) index ≠ id_bit newChoice index →
  let bit := id_bit (u_preference u) index in
  let b := mkBinaryNode (set2 (set2 (Empty, Empty) bit (u_preference u)) (negb bit) newChoice)
             index (unarySnowball_Extend (BetaRogue params) bit (u_snowball u)) r in
  let newChild := unary_node
    (mkUnaryNode newChoice (index + 1) NumBits (new_unary_snowball params) false) nil_node in
  wf (binary_with b bit child (if is_nil child then nil_node else newChild)).
Proof.
  intros Hbv (Hu&Hc&Hw) Hf -> Hag Hne bit b newChild.
  pose proof (uo_range _ Hu). pose proof (uo_common _ Hu).
  destruct (split_binary_ok u newChoice (u_commonPrefix u - 1) r Hu ltac:(lia) Hag Hne)
    as (Hb&Hbf&_&Hp1&Hp2&_).
  apply wf_binary_with. split; [done|].
  destruct child as [|u' c'|b' c0' c1']; [left| |right]; cbn [is_nil].
  - simpl in Hc. split_and!; try done. unfold b. simpl. lia.
  - done.
  - destruct Hc as (Hbit&Hpref&_). destruct Hw as [|Hw]; [done|]. pose proof (wf_DecidedPrefix _ Hw) as Hdec. simpl in Hdec.
    split_and!; [by etrans| |].
    + split_and!; [done|unfold b; simpl; lia|by etrans].
    + split_and!; [|unfold b; simpl; lia|by symmetry]. apply new_unary_ok; lia.
Qed.

(** The unary node, moved past the disputed bit, becomes a child of the new
    binary node. *)
Lemma moved_children_ok u child newChoice index r :
  0 < BetaVirtuous params →
  wf (unary_node u child) → ufin u = false → u_decidedPrefix u ≤ index < u_commonPrefix u - 1 →
  agree 0 index (u_preference u) newChoice →
  id_bit (u_preference u) index ≠ id_bit newChoice index →
  let bit := id_bit (u_preference u) index in
  let b := mkBinaryNode (set2 (set2 (Empty, Empty) bit (u_preference u)) (negb bit) newChoice)
             index (unarySnowball_Extend (BetaRogue params) bit (u_snowball u)) r in
  let newChild := unary_node
    (mkUnaryNode newChoice (index + 1) NumBits (new_unary_snowball params) false) nil_node in
  wf (binary_with b bit
        (unary_node (u_set_prefixes (index + 1) (u_commonPrefix u) u) child) newChild).
Proof.
  intros Hbv (Hu&Hc&Hw) Hf Hi Hag Hne bit b newChild.
  pose proof (uo_range _ Hu). pose proof (uo_common _ Hu).
  destruct (split_binary_ok u newChoice index r Hu ltac:(lia) Hag Hne) as (Hb&Hbf&_&Hp1&Hp2&_).
  apply wf_binary_with. split; [done|]. right. split_and!; [by etrans| |].
  - split_and!; [|unfold b; simpl; lia|done]. split_and!; [|done|done].
    destruct Hu. split; simpl; done || lia.
  - split_and!; [|unfold b; simpl; lia|by symmetry]. apply new_unary_ok; lia.
Qed.

Lemma wf_split u child newChoice index :
  0 < BetaVirtuous params →
  wf (unary_node u child) → ufin u = false →
  u_decidedPrefix u ≤ index < u_commonPrefix u →
  agree 0 index (u_preference u) newChoice →
  id_bit (u_preference u) index ≠ id_bit newChoice index →
  let n := unaryNode_split params u child newChoice index in
  wf n ∧ node_Preference n = u_preference u ∧ node_DecidedPrefix n = u_decidedPrefix u.
Proof.
  intros Hbv Hwf Hf Hi Hag Hne. pose proof Hwf as (Hu&Hc&Hw).
  pose proof (uo_range _ Hu). pose proof (uo_common _ Hu).
  destruct (split_binary_ok u newChoice index (u_shouldReset u, u_shouldReset u) Hu
    ltac:(lia) Hag Hne) as (Hb&Hbf&Hbc&Hp1&Hp2&Hp). specialize (Hp Hf).
  unfold unaryNode_split. cbv zeta.
  set (bit := id_bit (u_preference u) index) in *.
  set (b := mkBinaryNode _ _ _ _) in *. set (newChild := unary_node _ nil_node).
  assert (∀ c c', node_Preference (binary_with b bit c c') = u_preference u) as Hpref.
  { intros c c'. by destruct bit. }
  assert (∀ c c', node_DecidedPrefix (binary_with b bit c c') = index) as Hdec.
  { intros c c'. by destruct bit. }
  case_decide as Hc1; [|case_decide as Hc2; [|case_decide as Hc3]].
  - assert (index = u_commonPrefix u - 1) as Hidx by lia. rewrite Hpref, Hdec.
    split_and!; [|done|lia]. by apply last_children_ok.
  - rewrite Hpref, Hdec, <-Hc2. split_and!; [|done|done].
    apply moved_children_ok; done || lia.
  - split_and!; [|done|done].
    assert (wf (binary_with b bit child (if is_nil child then nil_node else newChild))) as Hch
      by by apply last_children_ok.
    split_and!; [|apply unary_child_with|by right].
    + destruct Hu. split; simpl; done || lia.
    + rewrite Hpref. split_and!; done || (by etrans) || (intros; lia).
  - split_and!; [|done|done].
    split_and!; [|apply unary_child_with|right; apply moved_children_ok; done || lia].
    + destruct Hu. split; simpl; done || lia.
    + rewrite Hpref. split_and!; done || (by etrans) || (intros; lia).
Qed.

(** ** Add keeps the tree well formed *)

Lemma Add_binary newChoice b c0 c1 :
  ∃ c0' c1', node_Add params newChoice (binary_node b c0 c1) = binary_node b c0' c1'.
Proof.
  cbn [node_Add]. case_match; [|eauto].
  destruct (id_bit newChoice (b_bit b)); cbn [binary_with]; eauto.
Qed.

Lemma wf_Add n newChoice :
  0 < BetaVirtuous params →
  wf n → agree 0 (node_DecidedPrefix n) (node_Preference n) newChoice →
  let n' := node_Add params newChoice n in
  wf n' ∧ node_Preference n' = node_Preference n ∧ node_DecidedPrefix n' = node_DecidedPrefix n.
Proof.
  intros Hbv. induction n as [|u child IH|b c0 c1 IH] using node_ind_at; [done| |].
  - intros Hwf Hag. pose proof Hwf as (Hu&Hc&Hw). cbn [node_Add].
    destruct (unarySnowball_Finalized (u_snowball u)) eqn:Hf; [done|].
    pose proof (uo_range _ Hu). pose proof (uo_common _ Hu).
    pose proof (FirstDifferenceSubset_first_diff (u_decidedPrefix u) (u_commonPrefix u)
      (u_preference u) newChoice ltac:(lia) ltac:(lia)) as Hfd.
    destruct (FirstDifferenceSubset _ _ _ _) as [index|]; simpl in Hfd.
    + destruct Hfd as (Hi&Hne&Hd). apply wf_split; try done.
      by apply (agree_split 0 (u_decidedPrefix u)); [lia|].
    + destruct child as [|u' c'|b c0 c1]; [done|done|]. cbn [is_nil].
      destruct Hw as [|Hw]; [done|]. destruct Hc as (Hbit&Hpref&Hc).
      destruct IH as (IHw&IHp&IHd); [done| |].
      { rewrite Hpref. change (node_DecidedPrefix _) with (b_bit b). rewrite Hbit.
        apply (agree_split 0 (u_decidedPrefix u)); [lia|done]. }
      destruct (Add_binary newChoice b c0 c1) as (c0'&c1'&E). rewrite E in *.
      split_and!; [|done|done]. split_and!; [done| |by right].
      by split_and!; [|etrans|..]; try apply Hc.
  - intros (Hb&Hch) Hag. cbn [node_Add].
    set (bit := id_bit newChoice (b_bit b)). specialize (IH bit).
    destruct (is_nil (child_at c0 c1 bit)) eqn:Hnil; cbn [negb andb]; [done|].
    destruct Hch as [[_ Hch]|[Hfin Hch]]; [by rewrite (Hch bit) in Hnil|].
    destruct (EqualSubset _ _ _ _) eqn:Heq; [|split; [split; [done|by right]|done]].
    destruct (Hch bit) as (Hw&Hd&Hp). pose proof (wf_DecidedPrefix _ Hw).
    pose proof (bo_range _ Hb).
    apply EqualSubset_agree in Heq; [|lia..].
    destruct IH as (IHw&IHp&IHd); [done| |].
    { rewrite Hp. apply (agree_split 0 (b_bit b)); [lia|]. split.
      - etrans; [|exact Hag]. apply binary_pref_agree; done || lia.
      - apply (agree_split (b_bit b) (b_bit b + 1)); [lia|]. split; [|done].
        apply agree_one. rewrite (bo_bit _ Hb). done. }
    assert (wf (binary_with b bit (node_Add params newChoice (child_at c0 c1 bit))
      (child_at c0 c1 (negb bit)))) as Hwf.
    { apply wf_binary_with. split; [done|]. right. split_and!; [done| |apply Hch].
      split_and!; [done|by rewrite IHd|by rewrite IHp]. }
    split_and!; [done| |]; by destruct bit.
Qed.

(** ** RecordPoll keeps the tree well formed *)

Lemma binary_ok_update b b' :
  binary_ok b → b_bit b' = b_bit b →
  (∀ i, agree 0 (b_bit b + 1) (get2 (b_preferences b) i) (get2 (b_preferences b') i)) →
  bsf_beta (bsb_snowflake (b_snowball b')) = bsf_beta (bsb_snowflake (b_snowball b)) →
  0 ≤ bconf b' → binary_ok b'.
Proof.
  intros Hb Hbit Hag Hbeta Hconf. pose proof (bo_range _ Hb).
  split; rewrite ?Hbeta, ?Hbit; try apply Hb; [done|intros i|].
  - rewrite <-(Hag i) by lia. apply Hb.
  - etrans; [symmetry|etrans]; [|apply (bo_agree _ Hb)|]; eapply agree_mono, Hag; lia.
Qed.

Lemma binary_success_conf bit sb :
  0 ≤ bsf_confidence (bsb_snowflake sb) → binarySnowball_Finalized sb = false →
  let sb' := binarySnowball_RecordSuccessfulPoll bit sb in
  0 ≤ bsf_confidence (bsb_snowflake sb') ≤ bsf_confidence (bsb_snowflake sb) + 1 ∧
  bsf_beta (bsb_snowflake sb') = bsf_beta (bsb_snowflake sb) ∧
  (binarySnowball_Finalized sb' = true →
   bsf_beta (bsb_snowflake sb) ≤ bsf_confidence (bsb_snowflake sb')).
Proof.
  unfold binarySnowball_Finalized, binarySnowflake_Finalized. intros Hc Hf. simpl.
  unfold binarySnowflake_RecordSuccessfulPoll. rewrite Hf. simpl.
  split_and!; try done; try (case_decide; lia). apply bool_decide_eq_true_1.
Qed.

Lemma binary_success_beta bit sb :
  bsf_beta (bsb_snowflake (binarySnowball_RecordSuccessfulPoll bit sb)) =
  bsf_beta (bsb_snowflake sb).
Proof. simpl. unfold binarySnowflake_RecordSuccessfulPoll. by case_match. Qed.

Lemma binary_success_nonneg bit sb :
  0 ≤ bsf_confidence (bsb_snowflake sb) →
  0 ≤ bsf_confidence (bsb_snowflake (binarySnowball_RecordSuccessfulPoll bit sb)).
Proof.
  simpl. unfold binarySnowflake_RecordSuccessfulPoll. case_match; [done|].
  simpl. case_decide; lia.
Qed.

(** The fields of a binary node after the resets at the start of a poll. *)
Lemma binaryNode_reset_facts reset bit b :
  let b' := binaryNode_reset reset bit b in
  b_bit b' = b_bit b ∧ b_preferences b' = b_preferences b ∧ bfin b' = bfin b ∧
  bsf_beta (bsb_snowflake (b_snowball b')) = bsf_beta (bsb_snowflake (b_snowball b)) ∧
  bconf b' = (if reset then 0 else bconf b).
Proof. by destruct reset. Qed.

Lemma binary_poll_stays votes (reset : bool) b c0 c1 :
  binary_ok b → bfin b = false → (if reset then 0 else bconf b) + 1 < BetaRogue params →
  ∃ b' c0' c1',
    fst (node_RecordPoll params votes reset (binary_node b c0 c1)) = binary_node b' c0' c1' ∧
    b_bit b' = b_bit b ∧ bfin b' = false ∧ bconf b' ≤ (if reset then 0 else bconf b) + 1.
Proof.
  intros Hb Hf Hc. rewrite (binary_as_with b c0 c1 (poll_bit params votes b)).
  set (bit := poll_bit params votes b).
  destruct (binaryNode_reset_facts reset bit b) as (E1&E2&E3&E4&E5).
  set (b1 := binaryNode_reset reset bit b) in *.
  assert (0 ≤ bconf b1) by (rewrite E5; pose proof (bo_conf _ Hb); destruct reset; lia).
  enough (∃ b' c c', fst (node_RecordPoll params votes reset
      (binary_with b bit (child_at c0 c1 bit) (child_at c0 c1 (negb bit)))) =
      binary_with b' bit c c' ∧ b_bit b' = b_bit b ∧ bfin b' = false ∧
      bconf b' ≤ (if reset then 0 else bconf b) + 1) as (b'&c&c'&->&Hrest).
  { exists b'. destruct bit; simpl; eauto. }
  rewrite RecordPoll_binary by done. cbv zeta. fold b1.
  case_decide; cbn [fst].
  { eexists _, _, _. split; [done|]. split_and!; [done|by rewrite <-E3 in Hf|].
    pose proof (bo_conf _ Hb). unfold bconf at 1. simpl. destruct reset; lia. }
  destruct (binary_success_conf bit (b_snowball b1)) as ([??]&?&Hfin); [done|by etrans|].
  destruct (binarySnowball_Finalized (binarySnowball_RecordSuccessfulPoll bit (b_snowball b1)))
    eqn:Hsf.
  { specialize (Hfin eq_refl). rewrite E4, (bo_beta _ Hb) in Hfin. unfold bconf in *. lia. }
  destruct (is_nil _); [|cbn [b_snowball b_set_snowball]; rewrite Hsf]; cbn [fst];
    eexists _, _, _; (split; [done|]); (split_and!; [done|done|]); unfold bconf in *; simpl in *; lia.
Qed.

Lemma unaryNode_reset_ok reset u :
  0 < BetaVirtuous params → unary_ok u → unary_ok (unaryNode_reset reset u).
Proof.
  intros Hbv []. destruct reset; [|done]. split; try done; unfold uconf in *; simpl; lia.
Qed.

Context (Hbeta : 0 < BetaVirtuous params ≤ BetaRogue params).

(** What a poll may do to a node: the new node is well formed, decides no
    fewer bits, and agrees with the old preference on the decided ones. *)
Definition poll_ok (n n' : node) : Prop :=
  wf n' ∧ node_DecidedPrefix n ≤ node_DecidedPrefix n' ∧
  agree 0 (node_DecidedPrefix n) (node_Preference n) (node_Preference n').

Lemma unary_success_ok u r :
  unary_ok u →
  unary_ok (u_set_snowball (unarySnowball_RecordSuccessfulPoll (u_snowball u)) false
              (u_set_preference r u)).
Proof.
  intros []. split; try done; unfold uconf, ufin, unarySnowball_Finalized,
    unarySnowflake_Finalized in *; simpl in *; [lia|].
  intros [_ Hf]%orb_false_iff. apply bool_decide_eq_false in Hf. lia.
Qed.

Lemma poll_ok_unary votes reset u child :
  wf (unary_node u child) →
  (∀ votes reset, wf child → poll_ok child (fst (node_RecordPoll params votes reset child))) →
  poll_ok (unary_node u child) (fst (node_RecordPoll params votes reset (unary_node u child))).
Proof.
  intros (Hu&Hc&Hw) IH. cbn [node_RecordPoll].
  pose proof (unaryNode_reset_ok reset u ltac:(lia) Hu) as Hu1.
  set (u1 := unaryNode_reset reset u) in *.
  assert (u_preference u1 = u_preference u ∧ u_decidedPrefix u1 = u_decidedPrefix u ∧
    u_commonPrefix u1 = u_commonPrefix u ∧ ufin u1 = ufin u) as (E1&E2&E3&E4)
    by (unfold u1; by destruct reset).
  case_decide; cbn [fst].
  { split_and!; [|simpl; lia|simpl; by rewrite E1]. split_and!; [| |done].
    - destruct Hu1. split; try done; unfold uconf; simpl; lia.
    - destruct child as [| |b c0 c1]; simpl in *; rewrite ?E1, ?E3; [done..|].
      destruct Hc as (?&?&?&?&?). split_and!; try done. by etrans. }
  destruct child as [|u' c'|b c0 c1]; [|done|]; cbn [is_nil fst].
  { split_and!; [|simpl; lia|simpl; by rewrite E1]. split_and!; [|by simpl; rewrite E3|by left].
    apply (unary_success_ok u1 (u_preference u1) Hu1). }
  destruct Hw as [|Hw]; [done|]. destruct Hc as (Hbit&Hpref&Huf&Hbf&Hle).
  cbn [u_shouldReset u_set_snowball].
  specialize (IH votes (u_shouldReset u1) Hw). destruct IH as (IHw&IHd&IHa).
  rewrite Hpref in IHa. cbn [node_DecidedPrefix] in IHd, IHa. rewrite Hbit in IHd, IHa.
  pose proof (uo_range _ Hu).
  destruct (unarySnowball_Finalized _) eqn:Hfin; cbn [fst].
  { split_and!; [done|cbn [node_DecidedPrefix]; lia|].
    eapply agree_mono, IHa; cbn [node_DecidedPrefix]; lia. }
  destruct (unary_success_ok u1 (u_preference u1) Hu1) as [_ _ _ Hlt _ _].
  specialize (Hlt Hfin). unfold uconf at 1 in Hlt. simpl in Hlt.
  assert ((if u_shouldReset u1 then 0 else bconf b) ≤ uconf u1) as Hb1.
  { pose proof (uo_conf _ Hu1). destruct (u_shouldReset u1) eqn:Hr; [done|].
    unfold u1 in *. destruct reset; [done|]. simpl in *. auto. }
  pose proof (proj1 Hw : binary_ok b) as Hbok.
  destruct (binary_poll_stays votes (u_shouldReset u1) b c0 c1 Hbok Hbf)
    as (b'&c0'&c1'&E&Hb'&Hbf'&Hbc'); [unfold uconf in *; lia|].
  rewrite E in *. split_and!; [|simpl; lia|].
  - split_and!; [exact (unary_success_ok u1 _ Hu1)| |by right].
    split_and!; try done; [simpl; lia|]. intros _. unfold uconf in *. simpl. lia.
  - simpl. eapply agree_mono, IHa; lia.
Qed.

Lemma poll_ok_binary votes reset b c0 c1 :
  wf (binary_node b c0 c1) →
  (∀ i votes reset, wf (child_at c0 c1 i) →
     poll_ok (child_at c0 c1 i) (fst (node_RecordPoll params votes reset (child_at c0 c1 i)))) →
  poll_ok (binary_node b c0 c1) (fst (node_RecordPoll params votes reset (binary_node b c0 c1))).
Proof.
  intros Hwf IH. set (bit := poll_bit params votes b). specialize (IH bit). revert Hwf IH.
  rewrite (binary_as_with b c0 c1 bit). generalize (child_at c0 c1 bit) as c.
  generalize (child_at c0 c1 (negb bit)) as c'. clear c0 c1. intros c' c.
  rewrite wf_binary_with. intros (Hb&Hch) IH. rewrite RecordPoll_binary by done. cbv zeta.
  destruct (binaryNode_reset_facts reset bit b) as (E1&E2&E3&E4&E5).
  set (b1 := binaryNode_reset reset bit b) in *. clearbody b1.
  pose proof (bo_conf _ Hb). pose proof (bo_range _ Hb).
  assert (0 ≤ bconf b1) by (rewrite E5; destruct reset; lia).
  assert (∀ B x y, b_bit B = b_bit b →
    (∀ i, agree 0 (b_bit b + 1) (get2 (b_preferences b) i) (get2 (b_preferences B) i)) →
    wf (binary_with B bit x y) → poll_ok (binary_with b bit c c') (binary_with B bit x y)) as Hsame.
  { intros B x y HB Hag HwB. unfold poll_ok.
    assert (node_DecidedPrefix (binary_with b bit c c') = b_bit b) as -> by by destruct bit.
    assert (node_DecidedPrefix (binary_with B bit x y) = b_bit B) as HdB by by destruct bit.
    split_and!; [done|lia|].
    assert (∃ i, node_Preference (binary_with b bit c c') = get2 (b_preferences b) i)
      as [i ->] by (destruct bit; eexists; done).
    assert (∃ j, node_Preference (binary_with B bit x y) = get2 (b_preferences B) j)
      as [j ->] by (destruct bit; eexists; done).
    etrans; [by apply (binary_pref_agree b i j)|]. eapply agree_mono, Hag; lia. }
  case_decide; cbn [fst].
  { apply Hsame; [done|intros i; simpl; by rewrite E2|]. apply wf_binary_with. split.
    - apply (binary_ok_update b); try done. intros i. simpl. by rewrite E2.
    - destruct Hch as [[? ?]|(?&Hc1&Hc2)]; [left; split; [by etrans|done]|right].
      split_and!; [by etrans|eapply (child_ok_ext b)..]; simpl; rewrite ?E2; done. }
  set (b2 := b_set_snowball _ b1).
  assert (binary_ok b2) as Hb2.
  { apply (binary_ok_update b); try done.
    - intros i. simpl. by rewrite E2.
    - unfold b2. cbn [b_snowball b_set_snowball]. by rewrite binary_success_beta.
    - by apply binary_success_nonneg. }
  destruct (is_nil c) eqn:Hnil; cbn [fst].
  { apply Hsame; [done|intros i; simpl; by rewrite E2|]. apply wf_binary_with.
    split; [apply (binary_ok_update b2); done || apply Hb2|].
    destruct Hch as [Hch|(_&[Hw _]&_)]; [left|by destruct c]. destruct Hch as (?&?&?). split_and!; [by etrans|done..]. }
  destruct Hch as [(_&?&_)|(Hbf&(Hw&Hd&Hp)&Hc')]; [congruence|].
  cbn [b_bit b_set_snowball b_preferences].
  destruct (IH (Bag_Filter (b_bit b1 + 1) (node_DecidedPrefix c)
    (get2 (b_preferences b1) bit) (get2 (Bag_Split (b_bit b1) votes) bit))
    (get2 (b_shouldReset b1) bit) Hw) as (IHw&IHd&IHa).
  set (newChild := fst (node_RecordPoll _ _ _ c)) in *.
  destruct (binarySnowball_Finalized (b_snowball b2)) eqn:Hfin; cbn [fst].
  { assert (node_DecidedPrefix (binary_with b bit c c') = b_bit b) as Hdb by by destruct bit.
    split_and!; rewrite ?Hdb; [done|lia|].
    assert (∃ i, node_Preference (binary_with b bit c c') = get2 (b_preferences b) i)
      as [i ->] by (destruct bit; eexists; done).
    etrans; [by apply (binary_pref_agree b i bit)|]. rewrite <-Hp. eapply agree_mono, IHa; lia. }
  assert (∀ i, agree 0 (b_bit b + 1) (get2 (b_preferences b) i)
    (get2 (set2 (b_preferences b) bit (node_Preference newChild)) i)) as Hag.
  { intros i. destruct (decide (i = bit)) as [->|Hi].
    - rewrite get2_set2, <-Hp. eapply agree_mono, IHa; lia.
    - assert (i = negb bit) as -> by (by destruct i, bit). by rewrite get2_set2_ne. }
  apply Hsame; [done|intros i; simpl; rewrite E2; apply Hag|].
  apply wf_binary_with. split.
  - apply (binary_ok_update b2); [done|done| |done|apply Hb2].
    intros i. simpl. rewrite E1, E2. apply Hag.
  - right. split_and!; [done| |].
    + split_and!; [done|simpl; lia|]. simpl. by rewrite get2_set2.
    + destruct Hc' as (?&?&?). split_and!; [done|simpl; lia|]. simpl. by rewrite get2_set2_ne, E2.
Qed.

Lemma wf_RecordPoll n votes reset :
  wf n → poll_ok n (fst (node_RecordPoll params votes reset n)).
Proof.
  revert votes reset.
  induction n as [|u child IH|b c0 c1 IH] using node_ind_at; intros votes reset Hwf; [done| |].
  - by apply poll_ok_unary.
  - by apply poll_ok_binary.
Qed.
End wf.

(** ** Add commutes with the pending resets *)

Section add_settle.
Context (params : Parameters).

Lemma binary_unsuccessful_id (sb : binarySnowball) :
  bsf_confidence (bsb_snowflake sb) = 0 → binarySnowball_RecordUnsuccessfulPoll sb = sb.
Proof. destruct sb as [[]]. simpl. by intros ->. Qed.

Lemma unary_unsuccessful_id (sb : unarySnowball) :
  usf_confidence (usb_snowflake sb) = 0 → unarySnowball_RecordUnsuccessfulPoll sb = sb.
Proof. destruct sb as [[]]. simpl. by intros ->. Qed.

Lemma settle_newChild r newChoice index :
  let newChild := unary_node
    (mkUnaryNode newChoice (index + 1) NumBits (new_unary_snowball params) false) nil_node in
  settle r newChild = newChild.
Proof. by destruct r. Qed.

Lemma split_reset u child newChoice index :
  node_reset (unaryNode_split params u child newChoice index) =
  unaryNode_split params (u_cleared (unarySnowball_RecordUnsuccessfulPoll (u_snowball u)) u)
    (node_reset child) newChoice index.
Proof.
  unfold unaryNode_split. cbv zeta. cbn [u_preference u_decidedPrefix u_commonPrefix u_snowball
    u_shouldReset u_cleared u_set_snowball u_set_prefixes].
  replace (is_nil (node_reset child)) with (is_nil child) by by destruct child.
  repeat case_decide; cbn [node_reset]; rewrite ?reset_binary; try done;
    by destruct (is_nil child).
Qed.

Lemma moved_settle u child d c :
  (u_shouldReset u = true → uconf u = 0) →
  settle (u_shouldReset u) (unary_node (u_set_prefixes d c u) child) =
  unary_node (u_set_prefixes d c (u_cleared (u_snowball u) u)) (settle (u_shouldReset u) child).
Proof.
  intros Hr. destruct (u_shouldReset u) eqn:E; cbn [settle node_reset flush u_set_prefixes
    u_shouldReset u_snowball].
  - by rewrite unary_unsuccessful_id by auto.
  - by rewrite E.
Qed.

Lemma split_binary_flush p index sb r bit x y :
  flush (binary_with (mkBinaryNode p index sb (r, r)) bit x y) =
  binary_with (mkBinaryNode p index sb (false, false)) bit (settle r x) (settle r y).
Proof. rewrite flush_binary. cbn [b_shouldReset]. by rewrite !get2_pair. Qed.

Lemma split_binary_settle p index sb (r : bool) bit x y :
  (r = true → bsf_confidence (bsb_snowflake sb) = 0) →
  settle r (binary_with (mkBinaryNode p index sb (r, r)) bit x y) =
  binary_with (mkBinaryNode p index sb (false, false)) bit (settle r x) (settle r y).
Proof.
  intros Hr. destruct r; cbn [settle]; [|apply split_binary_flush].
  rewrite reset_binary. cbn [b_snowball]. by rewrite binary_unsuccessful_id by auto.
Qed.

Lemma split_flush u child newChoice index :
  (u_shouldReset u = true → uconf u = 0) →
  flush (unaryNode_split params u child newChoice index) =
  unaryNode_split params (u_cleared (u_snowball u) u) (settle (u_shouldReset u) child)
    newChoice index.
Proof.
  intros Hr. unfold unaryNode_split. cbv zeta.
  cbn [u_preference u_decidedPrefix u_commonPrefix u_snowball u_shouldReset u_cleared
    u_set_snowball]. rewrite settle_is_nil.
  assert (∀ r, settle r (if is_nil child then nil_node else unary_node
    (mkUnaryNode newChoice (index + 1) NumBits (new_unary_snowball params) false) nil_node) =
    if is_nil child then nil_node else unary_node
    (mkUnaryNode newChoice (index + 1) NumBits (new_unary_snowball params) false) nil_node) as Hnew.
  { intros r. destruct (is_nil child), r; done. }
  repeat case_decide.
  - by rewrite split_binary_flush, Hnew.
  - by rewrite split_binary_flush, settle_newChild, moved_settle.
  - rewrite flush_unary. cbn [u_shouldReset u_set_prefixes]. by rewrite split_binary_settle, Hnew.
  - rewrite flush_unary. cbn [u_shouldReset settle].
    by rewrite split_binary_flush, settle_newChild, moved_settle.
Qed.

Lemma Add_binary_with newChoice b bit c c' :
  id_bit newChoice (b_bit b) = bit →
  node_Add params newChoice (binary_with b bit c c') =
  if negb (is_nil c) && EqualSubset (b_bit b + 1) (node_DecidedPrefix c)
       (get2 (b_preferences b) bit) newChoice
  then binary_with b bit (node_Add params newChoice c) c'
  else binary_with b bit c c'.
Proof. intros Hbit. destruct bit; cbn [binary_with node_Add]; rewrite Hbit; done. Qed.

Lemma reset_Add newChoice n :
  node_reset (node_Add params newChoice n) = node_Add params newChoice (node_reset n).
Proof.
  induction n as [|u child IH|b c0 c1 IH] using node_ind_at; [done| |].
  - cbn [node_Add node_reset u_cleared u_set_snowball u_decidedPrefix u_commonPrefix u_preference
      u_snowball].
    change (unarySnowball_Finalized (unarySnowball_RecordUnsuccessfulPoll (u_snowball u)))
      with (unarySnowball_Finalized (u_snowball u)).
    destruct (unarySnowball_Finalized _); [done|].
    destruct (FirstDifferenceSubset _ _ _ _); [apply split_reset|].
    change (is_nil (node_reset child)) with (is_nil (settle true child)). rewrite settle_is_nil.
    destruct (is_nil child); [done|]. cbn [node_reset]. by rewrite IH.
  - rewrite (binary_as_with b c0 c1 (id_bit newChoice (b_bit b))).
    rewrite reset_binary, !Add_binary_with by done. cbn [b_cleared b_bit b_preferences].
    change (node_reset (child_at c0 c1 (id_bit newChoice (b_bit b))))
      with (settle true (child_at c0 c1 (id_bit newChoice (b_bit b)))) at 1 2.
    rewrite settle_is_nil, settle_DecidedPrefix. case_match; rewrite reset_binary; [|done].
    by rewrite IH.
Qed.

Lemma flush_Add newChoice n :
  wf params n → flush (node_Add params newChoice n) = node_Add params newChoice (flush n).
Proof.
  induction n as [|u child IH|b c0 c1 IH] using node_ind_at; [done| |].
  - intros (Hu&_&Hw). rewrite flush_unary. cbn [node_Add u_cleared u_set_snowball u_decidedPrefix
      u_commonPrefix u_preference u_snowball].
    destruct (unarySnowball_Finalized _); [done|].
    destruct (FirstDifferenceSubset _ _ _ _); [apply split_flush, Hu|].
    rewrite settle_is_nil. destruct (is_nil child) eqn:Hnil; [done|]. rewrite flush_unary.
    destruct Hw as [|Hw]; [congruence|]. destruct (u_shouldReset u); cbn [settle].
    + by rewrite reset_Add.
    + by rewrite IH.
  - intros (_&Hch). rewrite (binary_as_with b c0 c1 (id_bit newChoice (b_bit b))).
    rewrite flush_binary, !Add_binary_with by done. cbn [b_cleared b_bit b_preferences].
    rewrite settle_is_nil, settle_DecidedPrefix.
    destruct (is_nil _) eqn:Hnil; cbn [negb andb]; [apply flush_binary|].
    destruct (EqualSubset _ _ _ _); rewrite flush_binary; [|done].
    destruct Hch as [[_ Hch]|[_ Hch]]; [by rewrite Hch in Hnil|].
    destruct (Hch (id_bit newChoice (b_bit b))) as (Hw&_&_).
    f_equal. destruct (get2 _ _); cbn [settle]; [apply reset_Add|by apply IH].
Qed.
End add_settle.
