(* ===== verification/TreeSafety.v ===== *)
(** * What a snowball tree promises (src/snow/consensus/snowball/tree.go).

    The calls a [Tree] receives are a sequence of [tree_op]s; [tree_run] is the
    tree they lead to.  Under parameters that pass [Verify] every reachable
    tree is well formed, prefers a choice that was added, never revises a
    decided bit, stays finalized once it is, and behaves exactly like the
    tree that resets whole sub-trees eagerly. *)

From S2P Require Import Prelude.
From S2P Require Import Ids.
From S2P Require Import Bag.
From S2P Require Import Snowball.
From S2P Require Import SnowballTree.

Inductive tree_op :=
| TAdd (choice : ID)
| TPoll (votes : Bag)
| TUnsuccessful.

Section tree.
Context `{GoRange}.

(** One call, with the result of [RecordPoll]. *)
Definition tree_step (op : tree_op) (t : Tree) : Tree * bool :=
  match op with
  | TAdd choice => (Tree_Add choice t, false)
  | TPoll votes => Tree_RecordPoll votes t
  | TUnsuccessful => (Tree_RecordUnsuccessfulPoll t, false)
  end.

(** The tree after [Initialize] and the calls [ops], oldest first. *)
Definition tree_exec (t : Tree) (ops : list tree_op) : Tree :=
  foldl (λ t op, fst (tree_step op t)) t ops.

Definition tree_run (params : Parameters) (choice : ID) (ops : list tree_op) : Tree :=
  tree_exec (Tree_Initialize params choice) ops.

(** The choices given to [Initialize] and [Add]. *)
Definition added (choice : ID) (ops : list tree_op) : gset ID :=
  {[choice]} ∪ list_to_set (omap (λ op, match op with TAdd c => Some c | _ => None end) ops).

Definition tree_wf (t : Tree) : Prop := wf (tree_params t) (tree_node t).

Lemma verify_betas params :
  Parameters_Verify params = Ok tt → 0 < BetaVirtuous params ≤ BetaRogue params.
Proof. unfold Parameters_Verify. intros. repeat case_decide; simplify_eq. lia. Qed.

Lemma tree_step_params op t : tree_params (fst (tree_step op t)) = tree_params t.
Proof.
  destruct op; simpl; [|unfold Tree_RecordPoll; by destruct (node_RecordPoll _ _ _ _)|done].
  unfold Tree_Add. by destruct (EqualSubset _ _ _ _).
Qed.

(** What one call may do to a well-formed tree. *)
Definition step_ok (t t' : Tree) : Prop :=
  tree_wf t' ∧ node_DecidedPrefix (tree_node t) ≤ node_DecidedPrefix (tree_node t') ∧
  agree 0 (node_DecidedPrefix (tree_node t)) (Tree_Preference t) (Tree_Preference t').

Lemma tree_step_ok op t :
  0 < BetaVirtuous (tree_params t) ≤ BetaRogue (tree_params t) →
  tree_wf t → step_ok t (fst (tree_step op t)).
Proof.
  intros Hbeta Hwf. destruct op as [c|votes|]; simpl.
  - unfold Tree_Add. destruct (EqualSubset _ _ _ _) eqn:E; [|done].
    pose proof (wf_DecidedPrefix _ _ Hwf). apply EqualSubset_agree in E; [|lia..].
    destruct (wf_Add (tree_params t) (tree_node t) c) as (Hw&Hp&Hd); [lia|done..|].
    unfold step_ok, tree_wf, Tree_Preference. cbn [tree_node tree_params].
    rewrite Hd, Hp. done.
  - unfold Tree_RecordPoll. set (fv := Bag_Filter _ _ _ _).
    pose proof (wf_RecordPoll (tree_params t) Hbeta (tree_node t) fv (tree_shouldReset t) Hwf)
      as Hok.
    destruct (node_RecordPoll _ _ _ _) as [n s]. done.
  - done.
Qed.

Lemma tree_init_wf params choice :
  0 < BetaVirtuous params → tree_wf (Tree_Initialize params choice).
Proof. intros. by apply new_unary_ok. Qed.

Lemma tree_exec_ok t ops :
  0 < BetaVirtuous (tree_params t) ≤ BetaRogue (tree_params t) →
  tree_wf t → step_ok t (tree_exec t ops) ∧ tree_params (tree_exec t ops) = tree_params t.
Proof.
  unfold tree_exec. revert t. induction ops as [|op ops IH]; intros t Hbeta Hwf; simpl; [done|].
  pose proof (tree_step_params op t) as Hp.
  destruct (tree_step_ok op t Hbeta Hwf) as (Hw1&Hd1&Ha1).
  destruct (IH (fst (tree_step op t))) as [(Hw2&Hd2&Ha2) Hp2]; [by rewrite Hp|done|].
  split; [|congruence]. split_and!; [done|lia|]. etrans; [done|]. eapply agree_mono, Ha2; lia.
Qed.

Lemma tree_run_wf params choice ops :
  Parameters_Verify params = Ok tt →
  tree_wf (tree_run params choice ops) ∧ tree_params (tree_run params choice ops) = params.
Proof.
  intros Hv. pose proof (verify_betas params Hv) as Hb.
  destruct (tree_exec_ok (Tree_Initialize params choice) ops Hb) as [(Hw&_) Hp]; [|done].
  apply tree_init_wf. lia.
Qed.

(** ** The preference is a choice that was added *)

Fixpoint node_ids (n : node) : gset ID :=
  match n with
  | nil_node => ∅
  | unary_node u child => {[u_preference u]} ∪ node_ids child
  | binary_node b c0 c1 =>
      {[get2 (b_preferences b) false]} ∪ {[get2 (b_preferences b) true]} ∪
      (node_ids c0 ∪ node_ids c1)
  end.

Lemma node_ids_binary b bit c c' :
  node_ids (binary_with b bit c c') =
  {[get2 (b_preferences b) bit]} ∪ {[get2 (b_preferences b) (negb bit)]} ∪
  (node_ids c ∪ node_ids c').
Proof. destruct bit; simpl; set_solver. Qed.

Lemma Preference_in_ids n : is_nil n = false → node_Preference n ∈ node_ids n.
Proof.
  destruct n as [|u c|b c0 c1]; simpl; [done|set_solver|].
  intros _. destruct (binarySnowball_Preference _); set_solver.
Qed.

Lemma split_ids params u child newChoice index :
  node_ids (unaryNode_split params u child newChoice index) ⊆
  {[newChoice]} ∪ ({[u_preference u]} ∪ node_ids child).
Proof.
  unfold unaryNode_split. cbv zeta. set (bit := id_bit _ _).
  set (nc := unary_node (mkUnaryNode newChoice _ _ _ _) nil_node).
  assert (node_ids (if is_nil child then nil_node else nc) ⊆ {[newChoice]}).
  { destruct (is_nil child); simpl; set_solver. }
  assert (node_ids nc = {[newChoice]}) by (simpl; set_solver).
  repeat case_decide; cbn [node_ids u_set_prefixes u_preference]; rewrite node_ids_binary;
    cbn [b_preferences node_ids u_set_prefixes u_preference];
    rewrite get2_set2_ne', get2_set2, get2_set2; set_solver.
Qed.

Lemma Add_ids params newChoice n :
  node_ids (node_Add params newChoice n) ⊆ {[newChoice]} ∪ node_ids n.
Proof.
  induction n as [|u child IH|b c0 c1 IH] using node_ind_at; [set_solver| |].
  - cbn [node_Add]. destruct (unarySnowball_Finalized _); [set_solver|].
    destruct (FirstDifferenceSubset _ _ _ _); [apply split_ids|].
    destruct (is_nil child); simpl; set_solver.
  - specialize (IH (id_bit newChoice (b_bit b))).
    rewrite (binary_as_with b c0 c1 (id_bit newChoice (b_bit b))), Add_binary_with by done.
    case_match; rewrite !node_ids_binary; set_solver.
Qed.

Lemma RecordPoll_ids params votes reset n :
  node_ids (fst (node_RecordPoll params votes reset n)) ⊆ node_ids n ∧
  (is_nil n = false → is_nil (fst (node_RecordPoll params votes reset n)) = false).
Proof.
  revert votes reset.
  induction n as [|u child IH|b c0 c1 IH] using node_ind_at; intros votes reset; [done| |].
  - cbn [node_RecordPoll].
    assert (u_preference (unaryNode_reset reset u) = u_preference u) as Hp by by destruct reset.
    case_decide; [simpl; rewrite Hp; done|].
    destruct (is_nil child) eqn:Hnil; [simpl; rewrite Hp; done|].
    cbn [u_shouldReset u_set_snowball].
    destruct (IH votes (u_shouldReset (unaryNode_reset reset u))) as [IH1 IH2].
    specialize (IH2 eq_refl). set (nc := fst (node_RecordPoll _ _ _ child)) in *.
    destruct (unarySnowball_Finalized _); cbn [fst node_ids].
    { split; [set_solver|done]. }
    split; [|done]. cbn [u_preference u_set_snowball u_set_preference].
    pose proof (Preference_in_ids nc IH2). set_solver.
  - rewrite (binary_as_with b c0 c1 (poll_bit params votes b)).
    specialize (IH (poll_bit params votes b)). revert IH.
    generalize (child_at c0 c1 (poll_bit params votes b)) as c.
    generalize (child_at c0 c1 (negb (poll_bit params votes b))) as c'.
    intros c' c IH. rewrite RecordPoll_binary by done. rewrite (node_ids_binary b).
    set (bit := poll_bit params votes b) in *.
    destruct (binaryNode_reset_facts reset bit b) as (_&Hp&_). cbv zeta.
    set (b1 := binaryNode_reset reset bit b) in *. clearbody b1.
    assert (∀ B x y, is_nil (binary_with B bit x y) = false) as Hnb by by destruct bit.
    case_decide; cbn [fst]; [rewrite node_ids_binary; cbn; by rewrite Hp|].
    destruct (is_nil c) eqn:Hnil; cbn [fst]; [rewrite node_ids_binary; cbn; by rewrite Hp|].
    match goal with |- context [fst (node_RecordPoll ?p ?v ?r c)] =>
      destruct (IH v r) as [IH1 IH2]; set (nc := fst (node_RecordPoll p v r c)) in * end.
    specialize (IH2 eq_refl). pose proof (Preference_in_ids nc IH2).
    destruct (binarySnowball_Finalized _); cbn [fst]; [split; [set_solver|done]|].
    split; [|done]. rewrite node_ids_binary.
    cbn [b_preferences b_set_shouldReset b_set_preference b_set_snowball].
    rewrite get2_set2, get2_set2_ne, Hp. set_solver.
Qed.

(** ** A finalized node is a leaf and stays as it is *)

Lemma finalized_Add params newChoice n :
  wf params n → node_Finalized n = true → node_Add params newChoice n = n.
Proof.
  destruct n as [|u child|b c0 c1]; [done| |]; intros Hwf Hf; cbn [node_Add].
  - simpl in Hf. by rewrite Hf.
  - destruct Hwf as (_&[[_ Hn]|[Hn _]]); [|simpl in Hf; unfold bfin in Hn; congruence].
    by rewrite Hn.
Qed.

Lemma finalized_RecordPoll params votes reset n :
  wf params n → node_Finalized n = true →
  node_Finalized (fst (node_RecordPoll params votes reset n)) = true ∧
  node_Preference (fst (node_RecordPoll params votes reset n)) = node_Preference n.
Proof.
  destruct n as [|u child|b c0 c1]; [done| |]; intros Hwf Hf.
  - destruct Hwf as (_&Hc&_). simpl in Hf. cbn [node_RecordPoll].
    destruct child as [| |b c0 c1]; [|done|destruct Hc as (_&_&Hc&_); unfold ufin in Hc; congruence].
    unfold unarySnowball_Finalized, unarySnowflake_Finalized in *. cbn [is_nil].
    case_decide; cbn [fst]; destruct reset; simpl;
      unfold unarySnowball_Finalized, unarySnowflake_Finalized; simpl; rewrite Hf; done.
  - rewrite (binary_as_with b c0 c1 (poll_bit params votes b)), RecordPoll_binary by done.
    destruct Hwf as (_&[[_ Hn]|[Hn _]]); [|simpl in Hf; unfold bfin in Hn; congruence].
    set (bit := poll_bit params votes b) in *. cbv zeta. rewrite Hn.
    unfold node_Finalized in Hf.
    assert (∀ B x y, node_Finalized (binary_with B bit x y) = bfin B ∧
      node_Preference (binary_with B bit x y) =
      get2 (b_preferences B) (binarySnowball_Preference (b_snowball B))) as Hw by by destruct bit.
    assert (∀ sf c, bsf_finalized sf = true →
      binarySnowflake_RecordSuccessfulPoll c sf = sf) as Hsucc.
    { intros sf c Hsf. unfold binarySnowflake_RecordSuccessfulPoll. by rewrite Hsf. }
    unfold bfin, binarySnowball_Preference, binarySnowball_Finalized,
      binarySnowflake_Finalized in *.
    case_decide; cbn [fst]; rewrite !(proj1 (Hw _ _ _)), !(proj2 (Hw _ _ _));
      destruct reset; cbn; rewrite ?Hsucc by done; cbn; rewrite ?Hf; done.
Qed.

Lemma tree_step_final op t :
  tree_wf t → Tree_Finalized t = true →
  Tree_Finalized (fst (tree_step op t)) = true ∧
  Tree_Preference (fst (tree_step op t)) = Tree_Preference t.
Proof.
  intros Hwf Hf. unfold Tree_Finalized, Tree_Preference. destruct op as [c|votes|]; simpl; [| |done].
  - unfold Tree_Add. case_match; [|done]. simpl. by rewrite finalized_Add.
  - unfold Tree_RecordPoll.
    pose proof (finalized_RecordPoll (tree_params t)
      (Bag_Filter 0 (node_DecidedPrefix (tree_node t)) (Tree_Preference t) votes)
      (tree_shouldReset t) (tree_node t) Hwf Hf) as Hr.
    by destruct (node_RecordPoll _ _ _ _).
Qed.

Lemma tree_step_ids op t :
  node_ids (tree_node (fst (tree_step op t))) ⊆
  (match op with TAdd c => {[c]} | _ => ∅ end) ∪ node_ids (tree_node t).
Proof.
  destruct op as [c|votes|]; simpl.
  - unfold Tree_Add. case_match; simpl; [apply Add_ids|set_solver].
  - unfold Tree_RecordPoll.
    destruct (RecordPoll_ids (tree_params t)
      (Bag_Filter 0 (node_DecidedPrefix (tree_node t)) (Tree_Preference t) votes)
      (tree_shouldReset t) (tree_node t)) as [Hids _].
    destruct (node_RecordPoll _ _ _ _). simpl in *. set_solver.
  - set_solver.
Qed.

Lemma tree_exec_ids t ops :
  node_ids (tree_node (tree_exec t ops)) ⊆
  list_to_set (omap (λ op, match op with TAdd c => Some c | _ => None end) ops) ∪
  node_ids (tree_node t).
Proof.
  unfold tree_exec. revert t. induction ops as [|op ops IH]; intros t; simpl; [set_solver|].
  etrans; [apply IH|]. pose proof (tree_step_ids op t).
  destruct op; simpl in *; set_solver.
Qed.

(** ** The eager tree *)

(** The lazy tree with its pending resets performed. *)
Definition tree_abs (t : Tree) : node := settle (tree_shouldReset t) (tree_node t).

(** The same calls on a tree without reset flags. *)
Definition eager_step (params : Parameters) (op : tree_op) (n : node) : node * bool :=
  match op with
  | TAdd choice =>
      (if EqualSubset 0 (node_DecidedPrefix n) (node_Preference n) choice
       then node_Add params choice n else n, false)
  | TPoll votes =>
      node_RecordPoll_eager params
        (Bag_Filter 0 (node_DecidedPrefix n) (node_Preference n) votes) n
  | TUnsuccessful => (node_reset n, false)
  end.

Definition eager_exec (params : Parameters) (n : node) (ops : list tree_op) : node :=
  foldl (λ n op, fst (eager_step params op n)) n ops.

Lemma tree_abs_step op t :
  tree_wf t →
  tree_abs (fst (tree_step op t)) = fst (eager_step (tree_params t) op (tree_abs t)) ∧
  snd (tree_step op t) = snd (eager_step (tree_params t) op (tree_abs t)).
Proof.
  intros Hwf. unfold tree_abs. destruct op as [c|votes|]; simpl.
  - rewrite settle_DecidedPrefix, settle_Preference. unfold Tree_Add, Tree_Preference.
    destruct (EqualSubset _ _ _ _); [|done]. simpl. split; [|done].
    destruct (tree_shouldReset t); [apply reset_Add|by apply flush_Add].
  - rewrite settle_DecidedPrefix, settle_Preference. unfold Tree_RecordPoll, Tree_Preference.
    set (fv := Bag_Filter _ _ _ _).
    destruct (RecordPoll_lazy_eager (tree_params t) (tree_node t) fv (tree_shouldReset t))
      as [<- <-]. by destruct (node_RecordPoll _ _ _ _).
  - by rewrite reset_settle.
Qed.
End tree.

(** ** Claims *)

(** ** What a client of the tree relies on

    [tree_good params ids t]: a tree of parameters [params] whose choices are
    among [ids].  Every call keeps it, and the preference is one of [ids]. *)
Record tree_good (params : Parameters) (ids : gset ID) (t : Tree) : Prop := {
  tg_params : tree_params t = params;
  tg_wf : tree_wf t;
  tg_ids : node_ids (tree_node t) ⊆ ids;
}.

Lemma tree_good_init params choice :
  Parameters_Verify params = Ok tt → tree_good params {[choice]} (Tree_Initialize params choice).
Proof.
  intros Hv. pose proof (verify_betas _ Hv). split; [done|apply tree_init_wf; lia|].
  simpl. set_solver.
Qed.

Lemma tree_good_mono params ids ids' t :
  tree_good params ids t → ids ⊆ ids' → tree_good params ids' t.
Proof. intros [??] ?. split; [done..|set_solver]. Qed.

Lemma tree_good_step `{GoRange} params ids op t :
  Parameters_Verify params = Ok tt → tree_good params ids t →
  tree_good params ((match op with TAdd c => {[c]} | _ => ∅ end) ∪ ids) (fst (tree_step op t)).
Proof.
  intros Hv [Hp Hw Hi]. split.
  - by rewrite tree_step_params.
  - apply tree_step_ok; [rewrite Hp; by apply verify_betas|done].
  - pose proof (tree_step_ids op t). set_solver.
Qed.

Lemma tree_good_Add `{GoRange} params ids c t :
  Parameters_Verify params = Ok tt → tree_good params ids t →
  tree_good params ({[c]} ∪ ids) (Tree_Add c t).
Proof. intros Hv Ht. apply (tree_good_step _ _ (TAdd c) _ Hv Ht). Qed.

Lemma tree_good_Poll `{GoRange} params ids votes t :
  Parameters_Verify params = Ok tt → tree_good params ids t →
  tree_good params ids (Tree_RecordPoll votes t).1.
Proof.
  intros Hv Ht. eapply tree_good_mono; [apply (tree_good_step _ _ (TPoll votes) _ Hv Ht)|].
  set_solver.
Qed.

Lemma tree_good_Unsuccessful `{GoRange} params ids t :
  Parameters_Verify params = Ok tt → tree_good params ids t →
  tree_good params ids (Tree_RecordUnsuccessfulPoll t).
Proof.
  intros Hv Ht. eapply tree_good_mono; [apply (tree_good_step _ _ TUnsuccessful _ Hv Ht)|].
  set_solver.
Qed.

Lemma tree_good_Preference params ids t : tree_good params ids t → Tree_Preference t ∈ ids.
Proof.
  intros [_ Hw Hi]. apply Hi. apply Preference_in_ids. unfold tree_wf in Hw.
  by destruct (tree_node t).
Qed.

(** Parameters of the concrete examples. *)
Definition example_params : Parameters := mkParameters 1 1 1 2 1 1 1 1 0 0.

(** A bag of one vote. *)
Definition one_vote (c : ID) : Bag := Bag_AddCount c 1 Bag_zero.

(** C3: every tree reached from [Initialize] by any sequence of [Add],
    [RecordPoll] and [RecordUnsuccessfulPoll] calls is a well-formed patricia
    tree: unary ranges are non-empty, the child of a unary node is a binary
    node on the bit where the range ends and has not finalized, the two
    preferences of a binary node agree below its bit and differ on it, and a
    child always sits above its parent's bit. *)
Theorem tree_reachable_wf `{GoRange} params choice ops :
  Parameters_Verify params = Ok tt → tree_wf (tree_run params choice ops).
Proof. intros Hv. by apply tree_run_wf. Qed.

Lemma tree_reachable_wf_witness :
  tree_wf (@tree_run go_range_std example_params Empty
    [TAdd (id1 Byte.x01); TPoll (one_vote (id1 Byte.x01)); TUnsuccessful]).
Proof. apply (@tree_reachable_wf go_range_std). vm_compute. reflexivity. Defined.

(** The preference of a tree is always one of the choices it was given, so
    the client that looks its preference up among the added choices finds
    it. *)
Theorem tree_preference_added `{GoRange} params choice ops :
  Parameters_Verify params = Ok tt →
  Tree_Preference (tree_run params choice ops) ∈ added choice ops.
Proof.
  intros Hv. destruct (tree_run_wf params choice ops Hv) as [Hwf _].
  pose proof (tree_exec_ids (Tree_Initialize params choice) ops) as Hids.
  assert (is_nil (tree_node (tree_run params choice ops)) = false) as Hnil.
  { unfold tree_wf in Hwf. by destruct (tree_node _). }
  pose proof (Preference_in_ids _ Hnil). unfold added, Tree_Preference, tree_run in *.
  simpl in Hids. set_solver.
Qed.

Lemma tree_preference_added_witness :
  Tree_Preference (@tree_run go_range_std example_params Empty
    [TAdd (id1 Byte.x01); TPoll (one_vote (id1 Byte.x01))]) ∈
  added Empty [TAdd (id1 Byte.x01); TPoll (one_vote (id1 Byte.x01))].
Proof. apply (@tree_preference_added go_range_std). vm_compute. reflexivity. Defined.

(** A decided bit is never revised: whatever calls follow, the number of
    decided bits does not shrink and the preference keeps the bits that were
    decided. *)
Theorem tree_decided_prefix_final `{GoRange} params choice ops later :
  Parameters_Verify params = Ok tt →
  let t := tree_run params choice ops in
  let t' := tree_run params choice (ops ++ later) in
  node_DecidedPrefix (tree_node t) ≤ node_DecidedPrefix (tree_node t') ∧
  EqualSubset 0 (node_DecidedPrefix (tree_node t)) (Tree_Preference t) (Tree_Preference t') = true.
Proof.
  intros Hv t t'. destruct (tree_run_wf params choice ops Hv) as [Hwf Hp]. fold t in Hwf, Hp.
  assert (t' = tree_exec t later) as ->.
  { unfold t', t, tree_run, tree_exec. by rewrite foldl_app. }
  destruct (tree_exec_ok t later) as [(_&Hd&Ha) _]; [rewrite Hp; by apply verify_betas|done|].
  split; [done|]. pose proof (wf_DecidedPrefix _ _ Hwf). apply EqualSubset_agree; [lia|lia|done].
Qed.

Lemma tree_decided_prefix_final_witness :
  let t := @tree_run go_range_std example_params Empty
    [TAdd (id1 Byte.x01); TPoll (one_vote (id1 Byte.x01)); TPoll (one_vote (id1 Byte.x01))] in
  node_DecidedPrefix (tree_node t) ≤
  node_DecidedPrefix (tree_node (@tree_run go_range_std example_params Empty
    ([TAdd (id1 Byte.x01); TPoll (one_vote (id1 Byte.x01)); TPoll (one_vote (id1 Byte.x01))] ++
     [TPoll (one_vote Empty)]))).
Proof.
  refine (proj1 (@tree_decided_prefix_final go_range_std example_params Empty
    [TAdd (id1 Byte.x01); TPoll (one_vote (id1 Byte.x01)); TPoll (one_vote (id1 Byte.x01))]
    [TPoll (one_vote Empty)] _)).
  vm_compute. reflexivity.
Defined.

(** Once a tree is finalized it stays finalized on the same preference,
    whatever choices are added and whatever polls follow. *)
Theorem tree_finality `{GoRange} params choice ops later :
  Parameters_Verify params = Ok tt →
  Tree_Finalized (tree_run params choice ops) = true →
  Tree_Finalized (tree_run params choice (ops ++ later)) = true ∧
  Tree_Preference (tree_run params choice (ops ++ later)) =
  Tree_Preference (tree_run params choice ops).
Proof.
  intros Hv Hf. destruct (tree_run_wf params choice ops Hv) as [Hwf Hp].
  assert (tree_run params choice (ops ++ later) = tree_exec (tree_run params choice ops) later)
    as -> by (unfold tree_run, tree_exec; by rewrite foldl_app).
  revert Hwf Hf Hp. generalize (tree_run params choice ops) as t. clear choice ops.
  unfold tree_exec. induction later as [|op later IH]; intros t Hwf Hf Hp; [done|]. simpl.
  destruct (tree_step_final op t Hwf Hf) as [Hf' Hp'].
  rewrite <-Hp'. apply IH; [|done|by rewrite tree_step_params].
  apply tree_step_ok; [rewrite Hp; by apply verify_betas|done].
Qed.

Lemma tree_finality_witness :
  let ops := [TAdd (id1 Byte.x01); TPoll (one_vote (id1 Byte.x01));
              TPoll (one_vote (id1 Byte.x01))] in
  Tree_Preference (@tree_run go_range_std example_params Empty
    (ops ++ [TPoll (one_vote Empty); TAdd (id1 Byte.x03)])) = id1 Byte.x01.
Proof.
  cbv zeta. etrans; [refine (proj2 (@tree_finality go_range_std example_params Empty
    [TAdd (id1 Byte.x01); TPoll (one_vote (id1 Byte.x01)); TPoll (one_vote (id1 Byte.x01))]
    [TPoll (one_vote Empty); TAdd (id1 Byte.x03)] _ _)); vm_compute; reflexivity|].
  vm_compute. reflexivity.
Defined.

(** The abstraction commutes with a whole sequence of calls. *)
Lemma tree_abs_exec `{GoRange} ops t :
  0 < BetaVirtuous (tree_params t) ≤ BetaRogue (tree_params t) → tree_wf t →
  tree_abs (tree_exec t ops) = eager_exec (tree_params t) (tree_abs t) ops ∧
  tree_wf (tree_exec t ops) ∧ tree_params (tree_exec t ops) = tree_params t.
Proof.
  revert t. induction ops as [|o ops IH]; intros t Hb Hw; [done|].
  destruct (tree_abs_step o t Hw) as [E _].
  assert (tree_params (fst (tree_step o t)) = tree_params t) as Hp by apply tree_step_params.
  destruct (IH (fst (tree_step o t))) as (E1&E2&E3);
    [by rewrite Hp|by apply tree_step_ok|].
  unfold tree_exec, eager_exec in *. simpl. rewrite <-E, E1, E3, Hp. done.
Qed.

(** C4: the lazy [shouldReset] flags are an optimisation and nothing else: the
    tree with its pending resets performed is the tree that resets whole
    sub-trees at every unsuccessful poll, call by call, so the two have the
    same preference, finalize together, and report the same result for the
    next poll. *)
Theorem tree_lazy_reset_correct `{GoRange} params choice ops op :
  Parameters_Verify params = Ok tt →
  let t := tree_run params choice ops in
  let n := eager_exec params (tree_node (Tree_Initialize params choice)) ops in
  Tree_Preference t = node_Preference n ∧ Tree_Finalized t = node_Finalized n ∧
  snd (tree_step op t) = snd (eager_step params op n).
Proof.
  intros Hv t n.
  assert (tree_abs t = n ∧ tree_wf t ∧ tree_params t = params) as (Habs&Hwf&Hp).
  { apply tree_abs_exec; [by apply verify_betas|].
    apply tree_init_wf. pose proof (verify_betas _ Hv). lia. }
  rewrite <-Habs, <-Hp. unfold Tree_Preference, Tree_Finalized, tree_abs at 1 2.
  rewrite settle_Preference, settle_Finalized. split_and!; [done..|].
  by apply tree_abs_step.
Qed.

Lemma tree_lazy_reset_correct_witness :
  Tree_Preference (@tree_run go_range_std example_params Empty
    [TAdd (id1 Byte.x01); TUnsuccessful; TPoll (one_vote (id1 Byte.x01))]) =
  node_Preference (@eager_exec go_range_std example_params
    (tree_node (Tree_Initialize example_params Empty))
    [TAdd (id1 Byte.x01); TUnsuccessful; TPoll (one_vote (id1 Byte.x01))]).
Proof.
  refine (proj1 (@tree_lazy_reset_correct go_range_std example_params Empty
    [TAdd (id1 Byte.x01); TUnsuccessful; TPoll (one_vote (id1 Byte.x01))] TUnsuccessful _)).
  vm_compute. reflexivity.
Defined.
