(* ===== verification/Topological.v ===== *)
(** Snowman consensus: the tree of processing blocks and its polls.

    [Topological] is [snow/consensus/snowman/topological.go] with
    [snowman_block.go]: the last accepted block and the tree of blocks above it,
    one snowball tree per block that has children, the preferred branch, and the
    scratch state of the vote propagation.  The virtual machine that owns the
    blocks and the two acceptors of the consensus context are code outside this
    component: the class [ChainContext] is what the component calls, and the
    class [ChainLaws] what the [Block] and [Decidable] interfaces document
    about it.

    A nil dereference or a missing map entry where the code dereferences is the
    error [errPanic]; a loop that would exceed the number of blocks of the tree
    is the error [errDiverged].  Neither is ever returned from a reachable state
    (file TopologicalSafety). *)

From S2P Require Import Prelude Ids Bag Snowball SnowballTree TreeSafety.

Local Open Scope node_scope.

(** ** Statuses of decidable elements ([snow/choices/status.go]) *)

Inductive Status := Unknown | Processing | Rejected | Accepted.

#[export] Instance Status_eq_dec : EqDecision Status.
Proof. solve_decision. Defined.

Definition Status_Decided (s : Status) : bool :=
  match s with Rejected | Accepted => true | _ => false end.

Definition Status_Fetched (s : Status) : bool :=
  match s with Processing => true | _ => Status_Decided s end.

(** ** Blocks and the world they live in *)

(** What never changes of a block: [ID], [Parent] and [Height]. *)
Record Block := mkBlock { blk_ID : ID; blk_Parent : ID; blk_Height : Z }.

#[export] Instance Block_eq_dec : EqDecision Block.
Proof. solve_decision. Defined.

(** The calls consensus makes on the virtual machine and on the acceptors of
    its context.  A call changes the world or returns an error. *)
Class ChainContext : Type := {
  world : Type;
  chain_error : Type;
  blk_Status : world → ID → Status;
  blk_Accept : Block → world → result chain_error world;
  blk_Reject : Block → world → result chain_error world;
  DecisionAcceptor_Accept : Block → world → result chain_error world;
  ConsensusAcceptor_Accept : Block → world → result chain_error world;
}.

(** [Decidable]: once [Accept] has been called on an element its status is
    [Accepted], once [Reject] has been called it is [Rejected]; nothing else
    moves a status. *)
Class ChainLaws `{ChainContext} : Prop := {
  blk_Accept_status : ∀ b w w', blk_Accept b w = Ok w' →
    ∀ id, blk_Status w' id = if decide (id = blk_ID b) then Accepted else blk_Status w id;
  blk_Reject_status : ∀ b w w', blk_Reject b w = Ok w' →
    ∀ id, blk_Status w' id = if decide (id = blk_ID b) then Rejected else blk_Status w id;
  DecisionAcceptor_status : ∀ b w w', DecisionAcceptor_Accept b w = Ok w' →
    ∀ id, blk_Status w' id = blk_Status w id;
  ConsensusAcceptor_status : ∀ b w w', ConsensusAcceptor_Accept b w = Ok w' →
    ∀ id, blk_Status w' id = blk_Status w id;
}.

(** [Block] promises the virtual machine that blocks are decided in topological
    order; this class is a virtual machine that relies on the promise: it may
    fail on any call that breaks it, and only then. *)
Class ChainTotal `{ChainContext} : Prop := {
  blk_Accept_total : ∀ b w, blk_Status w (blk_ID b) = Processing →
    blk_Status w (blk_Parent b) = Accepted → ∃ w', blk_Accept b w = Ok w';
  blk_Reject_total : ∀ b w, blk_Status w (blk_ID b) = Processing →
    Status_Decided (blk_Status w (blk_Parent b)) = true → ∃ w', blk_Reject b w = Ok w';
  DecisionAcceptor_total : ∀ b w, blk_Status w (blk_ID b) = Processing →
    ∃ w', DecisionAcceptor_Accept b w = Ok w';
  ConsensusAcceptor_total : ∀ b w, blk_Status w (blk_ID b) = Processing →
    ∃ w', ConsensusAcceptor_Accept b w = Ok w';
}.

(** ** State *)

(** A node of the tree ([snowman_block.go]).  [sb_children] is the empty map
    where the code has the nil map. *)
Record snowmanBlock := mkSnowmanBlock {
  sb_blk : option Block;
  sb_shouldFalter : bool;
  sb_sb : option Tree;
  sb_children : gmap ID Block;
}.

Record kahnNode := mkKahnNode { kn_inDegree : Z; kn_votes : Bag }.
Definition kahnNode_zero : kahnNode := mkKahnNode 0 Bag_zero.

(** An entry of the vote stack. *)
Record votes := mkVotes { v_parentID : ID; v_votes : Bag }.

Inductive topo_error `{ChainContext} :=
| errDuplicateAdd
| errParams (e : params_error)
| errChain (e : chain_error)
| errPanic
| errDiverged.

(** The polls metric counts [(successful, failed)] polls, the latency metric
    keeps the poll number at which each processing block was issued. *)
Record Topological `{ChainContext} := mkTopological {
  ts_latency : gmap ID Z;
  ts_polls : Z * Z;
  ts_pollNumber : Z;
  ts_world : world;
  ts_params : Parameters;
  ts_head : ID;
  ts_height : Z;
  ts_blocks : gmap ID snowmanBlock;
  ts_preferredIDs : gset ID;
  ts_tail : ID;
  ts_leaves : gset ID;
  ts_kahnNodes : gmap ID kahnNode;
}.

(** The metrics the component drives ([snow/consensus/metrics]). *)
Definition latency_Issued (id : ID) (pollNumber : Z) (l : gmap ID Z) : gmap ID Z :=
  <[id := pollNumber]> l.
Definition latency_Accepted (id : ID) (l : gmap ID Z) : gmap ID Z := delete id l.
Definition latency_Rejected (id : ID) (l : gmap ID Z) : gmap ID Z := delete id l.
Definition latency_NumProcessing (l : gmap ID Z) : Z := Z.of_nat (size l).
Definition polls_Successful (p : Z * Z) : Z * Z := (p.1 + 1, p.2).
Definition polls_Failed (p : Z * Z) : Z * Z := (p.1, p.2 + 1).

(** [Set.Pop]: removes and returns the first entry a range visits. *)
Definition Set_Pop `{GoRange} (s : gset ID) : option (ID * gset ID) :=
  match go_range (gset_to_gmap tt s) with
  | (x, _) :: _ => Some (x, s ∖ {[x]})
  | [] => None
  end.

Section topological.
Context `{GoRange, ChainContext}.

Abbreviation res := (result topo_error).

(** Calls on the world, with their errors among the component's own. *)
Definition call (f : world → result chain_error world) (w : world) : res world :=
  match f w with Ok w' => Ok w' | Err e => Err (errChain e) end.

(** Setters of the fields the operations assign. *)
Definition set_latency l ts := mkTopological _ l (ts_polls ts) (ts_pollNumber ts) (ts_world ts)
  (ts_params ts) (ts_head ts) (ts_height ts) (ts_blocks ts) (ts_preferredIDs ts) (ts_tail ts)
  (ts_leaves ts) (ts_kahnNodes ts).
Definition set_polls p ts := mkTopological _ (ts_latency ts) p (ts_pollNumber ts) (ts_world ts)
  (ts_params ts) (ts_head ts) (ts_height ts) (ts_blocks ts) (ts_preferredIDs ts) (ts_tail ts)
  (ts_leaves ts) (ts_kahnNodes ts).
Definition set_pollNumber n ts := mkTopological _ (ts_latency ts) (ts_polls ts) n (ts_world ts)
  (ts_params ts) (ts_head ts) (ts_height ts) (ts_blocks ts) (ts_preferredIDs ts) (ts_tail ts)
  (ts_leaves ts) (ts_kahnNodes ts).
Definition set_world w ts := mkTopological _ (ts_latency ts) (ts_polls ts) (ts_pollNumber ts) w
  (ts_params ts) (ts_head ts) (ts_height ts) (ts_blocks ts) (ts_preferredIDs ts) (ts_tail ts)
  (ts_leaves ts) (ts_kahnNodes ts).
Definition set_head h n ts := mkTopological _ (ts_latency ts) (ts_polls ts) (ts_pollNumber ts)
  (ts_world ts) (ts_params ts) h n (ts_blocks ts) (ts_preferredIDs ts) (ts_tail ts)
  (ts_leaves ts) (ts_kahnNodes ts).
Definition set_blocks m ts := mkTopological _ (ts_latency ts) (ts_polls ts) (ts_pollNumber ts)
  (ts_world ts) (ts_params ts) (ts_head ts) (ts_height ts) m (ts_preferredIDs ts) (ts_tail ts)
  (ts_leaves ts) (ts_kahnNodes ts).
Definition set_preferred s t ts := mkTopological _ (ts_latency ts) (ts_polls ts)
  (ts_pollNumber ts) (ts_world ts) (ts_params ts) (ts_head ts) (ts_height ts) (ts_blocks ts) s t
  (ts_leaves ts) (ts_kahnNodes ts).
Definition set_kahn k l ts := mkTopological _ (ts_latency ts) (ts_polls ts) (ts_pollNumber ts)
  (ts_world ts) (ts_params ts) (ts_head ts) (ts_height ts) (ts_blocks ts) (ts_preferredIDs ts)
  (ts_tail ts) l k.

(** ** Nodes *)

Definition snowmanBlock_Accepted (w : world) (n : snowmanBlock) : bool :=
  match sb_blk n with
  | None => true
  | Some b => bool_decide (blk_Status w (blk_ID b) = Accepted)
  end.

Definition snowmanBlock_AddChild (params : Parameters) (child : Block) (n : snowmanBlock)
  : snowmanBlock :=
  let sb := match sb_sb n with
            | None => Tree_Initialize params (blk_ID child)
            | Some t => Tree_Add (blk_ID child) t
            end in
  mkSnowmanBlock (sb_blk n) (sb_shouldFalter n) (Some sb)
    (<[blk_ID child := child]> (sb_children n)).

Definition set_shouldFalter (f : bool) (n : snowmanBlock) : snowmanBlock :=
  mkSnowmanBlock (sb_blk n) f (sb_sb n) (sb_children n).
Definition set_sb (t : Tree) (n : snowmanBlock) : snowmanBlock :=
  mkSnowmanBlock (sb_blk n) (sb_shouldFalter n) (Some t) (sb_children n).

(** ** Initialize, Add and the queries *)

(** The zero value of the struct with [rootID] installed; [w] is the world of
    the context. *)
Definition Topological_Initialize (w : world) (params : Parameters) (rootID : ID)
    (rootHeight : Z) : res Topological :=
  match Parameters_Verify params with
  | Err e => Err (errParams e)
  | Ok _ =>
      Ok (mkTopological _ ∅ (0, 0) 0 w params rootID rootHeight
            {[rootID := mkSnowmanBlock None false None ∅]} ∅ rootID ∅ ∅)
  end.

Definition Topological_NumProcessing (ts : Topological) : Z :=
  Z.of_nat (size (ts_blocks ts)) - 1.

Definition Topological_Decided (blk : Block) (ts : Topological) : bool :=
  let status := blk_Status (ts_world ts) (blk_ID blk) in
  if Status_Decided status then true
  else bool_decide (status = Processing) && bool_decide (blk_Height blk ≤ ts_height ts).

Definition Topological_Processing (blkID : ID) (ts : Topological) : bool :=
  if decide (blkID = ts_head ts) then false
  else bool_decide (is_Some (ts_blocks ts !! blkID)).

Definition Topological_IsPreferred (blk : Block) (ts : Topological) : bool :=
  if decide (blk_Status (ts_world ts) (blk_ID blk) = Accepted) then true
  else bool_decide (blk_ID blk ∈ ts_preferredIDs ts).

Definition Topological_Preference (ts : Topological) : ID := ts_tail ts.

Definition Topological_Finalized (ts : Topological) : bool :=
  bool_decide (size (ts_blocks ts) = 1%nat).

(** The first condition of [HealthCheck]; the second is about wall-clock time. *)
Definition Topological_outstanding_ok (ts : Topological) : bool :=
  bool_decide (latency_NumProcessing (ts_latency ts) ≤ MaxOutstandingItems (ts_params ts)).

Definition Topological_Add (blk : Block) (ts : Topological) : res Topological :=
  let blkID := blk_ID blk in
  if Topological_Decided blk ts || Topological_Processing blkID ts then Err errDuplicateAdd
  else
    let ts := set_latency (latency_Issued blkID (ts_pollNumber ts) (ts_latency ts)) ts in
    let parentID := blk_Parent blk in
    match ts_blocks ts !! parentID with
    | None =>
        let? w := call (blk_Reject blk) (ts_world ts) in
        Ok (set_latency (latency_Rejected blkID (ts_latency ts)) (set_world w ts))
    | Some parentNode =>
        let m := <[parentID := snowmanBlock_AddChild (ts_params ts) blk parentNode]>
                   (ts_blocks ts) in
        let ts := set_blocks (<[blkID := mkSnowmanBlock (Some blk) false None ∅]> m) ts in
        Ok (if decide (ts_tail ts = parentID)
            then set_preferred ({[blkID]} ∪ ts_preferredIDs ts) blkID ts
            else ts)
    end.

(** ** Vote propagation: Kahn's topological sort *)

(** The loop over the ancestors of a voted block.  [fuel] bounds the number of
    ancestors. *)
Fixpoint mark_ancestors (fuel : nat) (w : world) (blocks : gmap ID snowmanBlock) (parentID : ID)
    (k : gmap ID kahnNode) (leaves : gset ID) : res (gmap ID kahnNode * gset ID) :=
  match fuel with
  | O => Err errDiverged
  | S fuel =>
      match blocks !! parentID with
      | None => Err errPanic
      | Some n =>
          if snowmanBlock_Accepted w n then Ok (k, leaves)
          else match sb_blk n with
               | None => Err errPanic
               | Some b =>
                   let parentID := blk_Parent b in
                   let kahn := default kahnNode_zero (k !! parentID) in
                   let kahn := mkKahnNode (kn_inDegree kahn + 1) (kn_votes kahn) in
                   let k := <[parentID := kahn]> k in
                   if decide (kn_inDegree kahn ≠ 1) then Ok (k, leaves)
                   else mark_ancestors fuel w blocks parentID k (leaves ∖ {[parentID]})
               end
      end
  end.

(** The body of the loop over the votes. *)
Definition calculate_one (w : world) (blocks : gmap ID snowmanBlock) (voteBag : Bag) (vote : ID)
    (st : gmap ID kahnNode * gset ID) : res (gmap ID kahnNode * gset ID) :=
  let '(k, leaves) := st in
  match blocks !! vote with
  | None => Ok (k, leaves)
  | Some votedBlock =>
      if snowmanBlock_Accepted w votedBlock then Ok (k, leaves)
      else match sb_blk votedBlock with
           | None => Err errPanic
           | Some b =>
               let parentID := blk_Parent b in
               let numVotes := Bag_Count voteBag vote in
               let kahn := default kahnNode_zero (k !! parentID) in
               let kahn' := mkKahnNode (kn_inDegree kahn)
                              (Bag_AddCount vote numVotes (kn_votes kahn)) in
               let k' := <[parentID := kahn']> k in
               if decide (is_Some (k !! parentID)) then Ok (k', leaves)
               else mark_ancestors (S (size blocks)) w blocks parentID k'
                      ({[parentID]} ∪ leaves)
           end
  end.

Fixpoint calculate_list (w : world) (blocks : gmap ID snowmanBlock) (voteBag : Bag)
    (l : list ID) (st : gmap ID kahnNode * gset ID) : res (gmap ID kahnNode * gset ID) :=
  match l with
  | [] => Ok st
  | vote :: l => let? st := calculate_one w blocks voteBag vote st in
                 calculate_list w blocks voteBag l st
  end.

Definition Topological_calculateInDegree (voteBag : Bag) (ts : Topological) : res Topological :=
  let? '(k, leaves) :=
    calculate_list (ts_world ts) (ts_blocks ts) voteBag (Bag_List voteBag) (∅, ∅) in
  Ok (set_kahn k leaves ts).

(** The loop of [pushVotes].  The stack is a list whose head is its top. *)
Fixpoint push_loop (fuel : nat) (w : world) (blocks : gmap ID snowmanBlock) (alpha : Z)
    (k : gmap ID kahnNode) (leaves : gset ID) (voteStack : list votes)
    : res (gmap ID kahnNode * gset ID * list votes) :=
  match fuel with
  | O => Err errDiverged
  | S fuel =>
      match Set_Pop leaves with
      | None => Ok (k, leaves, voteStack)
      | Some (leafID, leaves) =>
          let kahn := default kahnNode_zero (k !! leafID) in
          match blocks !! leafID with
          | None => Err errPanic
          | Some block =>
              let voteStack := if decide (alpha ≤ Bag_Len (kn_votes kahn))
                               then mkVotes leafID (kn_votes kahn) :: voteStack
                               else voteStack in
              if snowmanBlock_Accepted w block
              then push_loop fuel w blocks alpha k leaves voteStack
              else match sb_blk block with
                   | None => Err errPanic
                   | Some b =>
                       let parentID := blk_Parent b in
                       let pk := default kahnNode_zero (k !! parentID) in
                       let pk := mkKahnNode (kn_inDegree pk - 1)
                         (Bag_AddCount leafID (Bag_Len (kn_votes kahn)) (kn_votes pk)) in
                       let leaves := if decide (kn_inDegree pk = 0)
                                     then {[parentID]} ∪ leaves else leaves in
                       push_loop fuel w blocks alpha (<[parentID := pk]> k) leaves voteStack
                   end
          end
      end
  end.

Definition Topological_pushVotes (ts : Topological) : res (Topological * list votes) :=
  let? '(k, leaves, voteStack) :=
    push_loop (S (size (ts_blocks ts))) (ts_world ts) (ts_blocks ts)
      (Alpha (ts_params ts)) (ts_kahnNodes ts) (ts_leaves ts) [] in
  Ok (set_kahn k leaves ts, voteStack).

(** ** Accepting and rejecting *)

(** Rejects every entry of a list of children, in order. *)
Fixpoint reject_children (l : list (ID * Block)) (ts : Topological) : res Topological :=
  match l with
  | [] => Ok ts
  | (childID, child) :: l =>
      let? w := call (blk_Reject child) (ts_world ts) in
      reject_children l
        (set_latency (latency_Rejected childID (ts_latency ts)) (set_world w ts))
  end.

(** The stack is a list whose head is its top: pushing the children in order
    leaves the last of them on top. *)
Fixpoint Topological_rejectTransitively (fuel : nat) (rejected : list ID) (ts : Topological)
    : res Topological :=
  match rejected with
  | [] => Ok ts
  | rejectedID :: rejected =>
      match fuel with
      | O => Err errDiverged
      | S fuel =>
          match ts_blocks ts !! rejectedID with
          | None => Err errPanic
          | Some rejectedNode =>
              let ts := set_blocks (delete rejectedID (ts_blocks ts)) ts in
              let l := go_range (sb_children rejectedNode) in
              let? ts := reject_children l ts in
              Topological_rejectTransitively fuel (reverse l.*1 ++ rejected) ts
          end
      end
  end.

Definition Topological_acceptPreferredChild (n : snowmanBlock) (t : Tree) (ts : Topological)
    : res Topological :=
  let pref := Tree_Preference t in
  match sb_children n !! pref with
  | None => Err errPanic
  | Some child =>
      let? w := call (DecisionAcceptor_Accept child) (ts_world ts) in
      let? w := call (ConsensusAcceptor_Accept child) w in
      let? w := call (blk_Accept child) w in
      let ts := set_head pref (blk_Height child) (set_world w ts) in
      let ts := set_preferred (ts_preferredIDs ts ∖ {[pref]}) (ts_tail ts) ts in
      let ts := set_latency (latency_Accepted pref (ts_latency ts)) ts in
      let l := filter (λ c, c.1 ≠ pref) (go_range (sb_children n)) in
      let? ts := reject_children l ts in
      Topological_rejectTransitively (size (ts_blocks ts)) (reverse l.*1) ts
  end.

(** ** Voting *)

(** Marks the children of the block just voted on as having to falter. *)
Definition falter_child (transitively : bool) (nextID : ID) (m : gmap ID snowmanBlock)
    (childID : ID) : gmap ID snowmanBlock :=
  if negb transitively && bool_decide (childID = nextID) then m
  else match m !! childID with
       | None => m
       | Some childBlock => <[childID := set_shouldFalter true childBlock]> m
       end.

(** One round of the loop of [vote]: the vote [v] on the top of the stack,
    [nextID] the parent of the next one.  [None] is the [break]. *)
Definition vote_one (v : votes) (nextID : ID) (newPreferred : ID) (onPreferredBranch : bool)
    (pollSuccessful : bool) (ts : Topological)
    : res (option (ID * bool * bool * Topological)) :=
  match ts_blocks ts !! v_parentID v with
  | None => Ok None
  | Some parentBlock =>
      let shouldTransitivelyFalter := sb_shouldFalter parentBlock in
      match sb_sb parentBlock with
      | None => Err errPanic
      | Some t =>
          let t := if shouldTransitivelyFalter then Tree_RecordUnsuccessfulPoll t else t in
          let '(t, ok) := Tree_RecordPoll (v_votes v) t in
          let parentBlock := set_sb t (set_shouldFalter false parentBlock) in
          let ts := set_blocks (<[v_parentID v := parentBlock]> (ts_blocks ts)) ts in
          let? ts :=
            (if Tree_Finalized t && bool_decide (ts_head ts = v_parentID v)
             then let? ts := Topological_acceptPreferredChild parentBlock t ts in
                  Ok (set_blocks (delete (v_parentID v) (ts_blocks ts)) ts)
             else Ok ts) in
          let parentPreference := Tree_Preference t in
          let newPreferred := if onPreferredBranch then parentPreference else newPreferred in
          let onPreferredBranch :=
            onPreferredBranch && bool_decide (nextID = parentPreference) in
          let m := foldl (falter_child shouldTransitivelyFalter nextID) (ts_blocks ts)
                     (go_range (sb_children parentBlock)).*1 in
          Ok (Some (newPreferred, onPreferredBranch, ok || pollSuccessful, set_blocks m ts))
      end
  end.

Fixpoint vote_loop (voteStack : list votes) (newPreferred : ID) (onPreferredBranch : bool)
    (pollSuccessful : bool) (ts : Topological) : res (ID * bool * Topological) :=
  match voteStack with
  | [] => Ok (newPreferred, pollSuccessful, ts)
  | v :: voteStack =>
      let nextID := match voteStack with v' :: _ => v_parentID v' | [] => Empty end in
      let? r := vote_one v nextID newPreferred onPreferredBranch pollSuccessful ts in
      match r with
      | None => Ok (newPreferred, pollSuccessful, ts)
      | Some (newPreferred, onPreferredBranch, pollSuccessful, ts) =>
          vote_loop voteStack newPreferred onPreferredBranch pollSuccessful ts
      end
  end.

Definition Topological_vote (voteStack : list votes) (ts : Topological)
    : res (ID * Topological) :=
  match voteStack with
  | [] =>
      match ts_blocks ts !! ts_head ts with
      | None => Err errPanic
      | Some headBlock =>
          let ts := set_blocks (<[ts_head ts := set_shouldFalter true headBlock]>
                                  (ts_blocks ts)) ts in
          let ts := if decide (Topological_NumProcessing ts > 0)
                    then set_polls (polls_Failed (ts_polls ts)) ts else ts in
          Ok (ts_tail ts, ts)
      end
  | _ =>
      let? '(newPreferred, pollSuccessful, ts) :=
        vote_loop voteStack (ts_head ts) true false ts in
      Ok (newPreferred,
          set_polls (if pollSuccessful : bool then polls_Successful (ts_polls ts)
                     else polls_Failed (ts_polls ts)) ts)
  end.

(** ** RecordPoll *)

(** From the preferred block up to the last accepted ancestor. *)
Fixpoint mark_preferred (fuel : nat) (w : world) (blocks : gmap ID snowmanBlock)
    (block : snowmanBlock) (preferredIDs : gset ID) : res (gset ID) :=
  match fuel with
  | O => Err errDiverged
  | S fuel =>
      if snowmanBlock_Accepted w block then Ok preferredIDs
      else match sb_blk block with
           | None => Err errPanic
           | Some b =>
               match blocks !! blk_Parent b with
               | None => Err errPanic
               | Some block => mark_preferred fuel w blocks block ({[blk_ID b]} ∪ preferredIDs)
               end
           end
  end.

(** From the preferred block down to the leaf of the preferred branch. *)
Fixpoint extend_preferred (fuel : nat) (blocks : gmap ID snowmanBlock) (block : snowmanBlock)
    (tail : ID) (preferredIDs : gset ID) : res (ID * gset ID) :=
  match sb_sb block with
  | None => Ok (tail, preferredIDs)
  | Some t =>
      match fuel with
      | O => Err errDiverged
      | S fuel =>
          let tail := Tree_Preference t in
          match blocks !! tail with
          | None => Err errPanic
          | Some block => extend_preferred fuel blocks block tail ({[tail]} ∪ preferredIDs)
          end
      end
  end.

(** The part of [RecordPoll] after [vote]. *)
Definition Topological_setPreferred (preferred : ID) (ts : Topological) : res Topological :=
  if decide (preferred ∈ ts_preferredIDs ts) then Ok ts
  else
    match ts_blocks ts !! preferred with
    | None => Err errPanic
    | Some startBlock =>
        let? up := mark_preferred (S (size (ts_blocks ts))) (ts_world ts) (ts_blocks ts)
                     startBlock ∅ in
        let? '(tail, s) := extend_preferred (S (size (ts_blocks ts))) (ts_blocks ts) startBlock
                             preferred up in
        Ok (set_preferred s tail ts)
    end.

Definition Topological_RecordPoll (voteBag : Bag) (ts : Topological) : res Topological :=
  let ts := set_pollNumber (wrap64 (ts_pollNumber ts + 1)) ts in
  let? '(ts, voteStack) :=
    (if decide (Alpha (ts_params ts) ≤ Bag_Len voteBag)
     then let? ts := Topological_calculateInDegree voteBag ts in Topological_pushVotes ts
     else Ok (ts, [])) in
  let? '(preferred, ts) := Topological_vote voteStack ts in
  Topological_setPreferred preferred ts.

End topological.

(** ** A concrete world

    A map of statuses and the log of the calls made: the virtual machine of the
    tests ([choices.TestDecidable]), which refuses to decide a block that is
    not processing, made stricter by refusing any call that breaks the
    topological order [Block] promises. *)

Inductive chain_call :=
| CallDecision (id : ID) | CallConsensus (id : ID) | CallAccept (id : ID) | CallReject (id : ID).

Record log_world := mkLogWorld { lw_status : gmap ID Status; lw_log : list chain_call }.

Definition lw_Status (w : log_world) (id : ID) : Status := default Unknown (lw_status w !! id).

Definition lw_decide (s : Status) (parent_ok : Status → bool) (c : chain_call) (b : Block)
    (w : log_world) : result string log_world :=
  if decide (lw_Status w (blk_ID b) = Processing)
  then if parent_ok (lw_Status w (blk_Parent b))
       then Ok (mkLogWorld (<[blk_ID b := s]> (lw_status w)) (c :: lw_log w))
       else Err "decided before its parent"%string
  else Err "invalid state transition"%string.

Definition lw_notify (c : chain_call) (b : Block) (w : log_world) : result string log_world :=
  Ok (mkLogWorld (lw_status w) (c :: lw_log w)).

#[export] Instance log_chain : ChainContext := {|
  world := log_world;
  chain_error := string;
  blk_Status := lw_Status;
  blk_Accept b := lw_decide Accepted (λ s, bool_decide (s = Accepted)) (CallAccept (blk_ID b)) b;
  blk_Reject b := lw_decide Rejected Status_Decided (CallReject (blk_ID b)) b;
  DecisionAcceptor_Accept b := lw_notify (CallDecision (blk_ID b)) b;
  ConsensusAcceptor_Accept b := lw_notify (CallConsensus (blk_ID b)) b;
|}.

Lemma lw_Status_insert w id s c id' :
  lw_Status (mkLogWorld (<[id:=s]> (lw_status w)) c) id' =
  if decide (id' = id) then s else lw_Status w id'.
Proof.
  unfold lw_Status. simpl. case_decide; subst; [by rewrite lookup_insert_eq|].
  by rewrite lookup_insert_ne.
Qed.

#[export] Instance log_chain_laws : ChainLaws.
Proof.
  split; simpl; intros b w w'; unfold lw_decide, lw_notify; intros Hw id;
    repeat (case_decide || case_match); simplify_eq;
    rewrite ?lw_Status_insert; repeat case_decide; by simplify_eq.
Qed.

#[export] Instance log_chain_total : ChainTotal.
Proof.
  split; simpl; intros b w; unfold lw_decide, lw_notify; [| |by eauto..].
  - intros -> ->. eauto.
  - intros -> ->. eauto.
Qed.
