(* ===== verification/TopologicalInv.v ===== *)
(** The invariant of Snowman consensus ([snow/consensus/snowman/topological.go]).

    [inv] is the invariant of the tree of processing blocks and [evolves] what an
    operation may do to decided blocks.  This file shows that rejecting a set of
    sub-trees and accepting the preferred child of the head keep both, that they
    terminate, and that they call the virtual machine in topological order. *)

From S2P Require Import Prelude Ids Bag Snowball SnowballTree TreeSafety Topological.

Local Open Scope node_scope.

(** ** Outcomes

    [safe total r Q]: [r] is a result that satisfies [Q], or the error of a call
    on the world, the latter only when [total] does not hold. *)
Section safe.
Context `{ChainContext}.

Definition safe {A} (total : Prop) (r : result topo_error A) (Q : A → Prop) : Prop :=
  match r with
  | Ok a => Q a
  | Err (errChain _) => ¬ total
  | Err _ => False
  end.

Lemma safe_bind {A B} total (r : result topo_error A) (k : A → result topo_error B) P Q :
  safe total r P → (∀ a, P a → safe total (k a) Q) → safe total (result_bind r k) Q.
Proof. destruct r as [a|[]]; simpl; auto. Qed.

Lemma safe_mono {A} total (r : result topo_error A) (P Q : A → Prop) :
  safe total r P → (∀ a, P a → Q a) → safe total r Q.
Proof. destruct r as [a|[]]; simpl; auto. Qed.

Lemma safe_call {total} f w (Q : world → Prop) :
  (total → ∃ w', f w = Ok w') → (∀ w', f w = Ok w' → Q w') → safe total (call f w) Q.
Proof.
  unfold call. destruct (f w) as [w'|e]; simpl; [auto|]. intros Ht _ Hc.
  destruct (Ht Hc) as [? [=]].
Qed.

Lemma safe_total {A} (r : result topo_error A) Q : safe True r Q → ∃ a, r = Ok a ∧ Q a.
Proof. destruct r as [a|[]]; simpl; naive_solver. Qed.
End safe.

(** ** Chains of accepted blocks *)

(** [accepted_chain h bs h']: the blocks [bs], oldest first, extend the block
    [h] one after the other, and [h'] is the last of them. *)
Fixpoint accepted_chain (h : ID) (bs : list Block) (h' : ID) : Prop :=
  match bs with
  | [] => h = h'
  | b :: bs => blk_Parent b = h ∧ accepted_chain (blk_ID b) bs h'
  end.

Lemma accepted_chain_app h bs1 h1 bs2 h2 :
  accepted_chain h bs1 h1 → accepted_chain h1 bs2 h2 → accepted_chain h (bs1 ++ bs2) h2.
Proof. revert h. induction bs1; simpl; naive_solver. Qed.

Section inv.
Context `{GoRange, ChainContext, !ChainLaws}.

Abbreviation status ts id := (blk_Status (ts_world ts) id).

(** ** The invariant *)

(** A node without children has no snowball instance; one with children has a
    well-formed one whose choices are children. *)
Definition node_ok (params : Parameters) (n : snowmanBlock) : Prop :=
  match sb_sb n with
  | None => sb_children n = ∅
  | Some t => tree_good params (dom (sb_children n)) t
  end.

(** The tree while a decision is carried out: [old] is the block that was the
    head until the decision, [pending] the blocks that are rejected and not yet
    removed. *)
Record ginv (old : option ID) (pending : list ID) (ts : Topological) : Prop := {
  g_params : Parameters_Verify (ts_params ts) = Ok tt;
  g_head : is_Some (ts_blocks ts !! ts_head ts);
  g_head_id : ∀ n b, ts_blocks ts !! ts_head ts = Some n → sb_blk n = Some b →
    blk_ID b = ts_head ts;
  g_head_status : status ts (ts_head ts) = Accepted;
  g_block : ∀ id n, ts_blocks ts !! id = Some n → id ≠ ts_head ts → Some id ≠ old →
    ∃ b, sb_blk n = Some b ∧ blk_ID b = id ∧
      if decide (id ∈ pending) then status ts id = Rejected
      else status ts id = Processing ∧ Some (blk_Parent b) ≠ old ∧
           ∃ pn, ts_blocks ts !! blk_Parent b = Some pn ∧ sb_children pn !! id = Some b;
  g_child : ∀ id n c b, ts_blocks ts !! id = Some n → Some id ≠ old →
    sb_children n !! c = Some b →
    c ≠ ts_head ts ∧ c ∉ pending ∧ Some c ≠ old ∧ blk_Parent b = id ∧
    ∃ cn, ts_blocks ts !! c = Some cn ∧ sb_blk cn = Some b;
  g_node : ∀ id n, ts_blocks ts !! id = Some n → node_ok (ts_params ts) n;
  g_rank : ∃ rank : ID → nat, ∀ id n b, ts_blocks ts !! id = Some n → id ≠ ts_head ts →
    Some id ≠ old → sb_blk n = Some b → (rank (blk_Parent b) < rank id)%nat;
  g_pending : NoDup pending ∧
    ∀ id, id ∈ pending → is_Some (ts_blocks ts !! id) ∧ id ≠ ts_head ts ∧ Some id ≠ old;
  g_old : ∀ o, old = Some o → is_Some (ts_blocks ts !! o) ∧ o ≠ ts_head ts;
  g_latency : ∀ id, is_Some (ts_latency ts !! id) ↔
    is_Some (ts_blocks ts !! id) ∧ id ≠ ts_head ts ∧ id ∉ pending ∧ Some id ≠ old;
}.

(** The invariant between operations. *)
Abbreviation inv := (ginv None []).

(** ** What an operation does to the decided blocks *)

Record evolves (ts : Topological) (acc : list Block) (ts' : Topological) : Prop := {
  ev_chain : accepted_chain (ts_head ts) acc (ts_head ts');
  ev_accepted : ∀ b, b ∈ acc →
    Status_Decided (status ts (blk_ID b)) = false ∧ status ts' (blk_ID b) = Accepted;
  ev_final : ∀ id, Status_Decided (status ts id) = true → status ts' id = status ts id;
  ev_only : ∀ id, status ts' id = Accepted →
    status ts id = Accepted ∨ ∃ b, b ∈ acc ∧ blk_ID b = id;
  ev_removed : ∀ id, is_Some (ts_blocks ts !! id) → ts_blocks ts' !! id = None →
    Status_Decided (status ts' id) = true;
  ev_nodup : NoDup (blk_ID <$> acc);
  ev_blocks : ∀ b n b', b ∈ acc → ts_blocks ts !! blk_ID b = Some n → sb_blk n = Some b' → b' = b;
  ev_keep : ∀ id n n', ts_blocks ts !! id = Some n → ts_blocks ts' !! id = Some n' →
    sb_blk n' = sb_blk n;
  ev_new : ∀ id, ts_blocks ts !! id = None → is_Some (ts_blocks ts' !! id) →
    Status_Decided (status ts id) = false;
}.

Lemma evolves_refl ts ts' :
  ts_head ts' = ts_head ts → (∀ id, status ts' id = status ts id) →
  (∀ id n, ts_blocks ts !! id = Some n →
     ∃ n', ts_blocks ts' !! id = Some n' ∧ sb_blk n' = sb_blk n) →
  (∀ id, ts_blocks ts !! id = None → is_Some (ts_blocks ts' !! id) →
     Status_Decided (status ts id) = false) →
  evolves ts [] ts'.
Proof.
  intros Hh Hs Hb Hnew. split.
  - done.
  - intros b Hin. by apply not_elem_of_nil in Hin.
  - intros. apply Hs.
  - intros id. rewrite Hs. auto.
  - intros id [n Hi] Hn. destruct (Hb _ _ Hi) as (n'&E&_). congruence.
  - constructor.
  - intros b n b' Hin. by apply not_elem_of_nil in Hin.
  - intros id n n' Hn Hn'. destruct (Hb _ _ Hn) as (n1&E&?). congruence.
  - done.
Qed.

Lemma evolves_trans ts acc ts' acc' ts'' :
  evolves ts acc ts' → evolves ts' acc' ts'' → evolves ts (acc ++ acc') ts''.
Proof.
  intros [C1 A1 F1 O1 R1 N1 B1 K1 W1] [C2 A2 F2 O2 R2 N2 B2 K2 W2]. split.
  - by eapply accepted_chain_app.
  - intros b [Hb|Hb]%elem_of_app.
    + destruct (A1 b Hb) as [E1 E2]. split; [done|]. rewrite F2; [done|by rewrite E2].
    + destruct (A2 b Hb) as [E1 E2]. split; [|done].
      destruct (Status_Decided (status ts (blk_ID b))) eqn:E; [|done].
      rewrite F1 in E1 by done. congruence.
  - intros id Hd. rewrite F2; [by apply F1|]. by rewrite F1.
  - intros id Hid. destruct (O2 id Hid) as [Ho|(b&Hb&<-)].
    + destruct (O1 id Ho) as [?|(b&Hb&<-)]; [auto|]. right. exists b. split; [set_solver|done].
    + right. exists b. split; [set_solver|done].
  - intros id Hi Hn. destruct (ts_blocks ts' !! id) eqn:E; [by apply R2; [rewrite E|]|].
    pose proof (R1 id Hi E) as Hd. by rewrite F2.
  - rewrite fmap_app. apply NoDup_app. split_and!; [done| |done].
    intros c (b1&->&Hb1)%list_elem_of_fmap (b2&E&Hb2)%list_elem_of_fmap.
    destruct (A1 b1 Hb1) as [_ E1]. destruct (A2 b2 Hb2) as [E2 _].
    by rewrite <-E, E1 in E2.
  - intros b n b' [Hb|Hb]%elem_of_app Hn Hb'; [by eapply B1|].
    destruct (A2 b Hb) as [Hd _]. destruct (ts_blocks ts' !! blk_ID b) as [n'|] eqn:E.
    + eapply B2; [done..|]. by rewrite (K1 _ _ _ Hn E).
    + rewrite (R1 (blk_ID b)) in Hd; [done|eauto|done].
  - intros id n n'' Hn Hn''. destruct (ts_blocks ts' !! id) as [n'|] eqn:E.
    + rewrite (K2 _ _ _ E Hn''). by eapply K1.
    + pose proof (W2 id E ltac:(eauto)) as Hd. rewrite (R1 id) in Hd; [done|eauto|done].
  - intros id Hn Hn''. destruct (ts_blocks ts' !! id) as [n'|] eqn:E; [by apply W1; eauto|].
    pose proof (W2 id E Hn'') as Hd. destruct (Status_Decided (status ts id)) eqn:Ed; [|done].
    by rewrite F1, Ed in Hd.
Qed.


(** ** Rejecting *)

Lemma reject_children_spec total l ts :
  (total → ChainTotal) → NoDup l.*1 →
  (∀ c b, (c, b) ∈ l → blk_ID b = c ∧ status ts c = Processing ∧
    Status_Decided (status ts (blk_Parent b)) = true) →
  safe total (reject_children l ts) (λ ts', ∃ w lat,
    ts' = set_latency lat (set_world w ts) ∧
    (∀ id, blk_Status w id = if decide (id ∈ l.*1) then Rejected else status ts id) ∧
    (∀ id, lat !! id = if decide (id ∈ l.*1) then None else ts_latency ts !! id)).
Proof.
  intros Ht. revert ts. induction l as [|[c b] l IH]; intros ts Hnd Hl.
  - exists (ts_world ts), (ts_latency ts). by destruct ts.
  - destruct (Hl c b) as (Hid&Hs&Hp); [set_solver|].
    cbn [fmap list_fmap fst] in Hnd. apply NoDup_cons in Hnd as [Hc Hnd].
    simpl. eapply (safe_bind _ _ _ (λ w, blk_Reject b (ts_world ts) = Ok w)).
    { apply safe_call; [|done]. intros HT. pose proof (Ht HT).
      apply blk_Reject_total; [by rewrite Hid|done]. }
    intros w Hw. pose proof (blk_Reject_status _ _ _ Hw) as Hst. rewrite Hid in Hst.
    eapply safe_mono; [apply IH; [done|]|].
    + intros c' b' Hin. destruct (Hl c' b') as (Hid'&Hs'&Hp'); [set_solver|]. simpl.
      rewrite !Hst. rewrite decide_False; [|intros ->; apply Hc, list_elem_of_fmap; by exists (c, b')].
      split_and!; [done..|]. by case_decide.
    + intros ts' (w'&lat&->&Hw'&Hlat). exists w', lat. split; [by destruct ts|]. split.
      * intros id. rewrite Hw'. simpl. rewrite Hst. repeat case_decide; set_solver.
      * intros id. rewrite Hlat. simpl. unfold latency_Rejected. cbn [fmap list_fmap fst].
        destruct (decide (id = c)) as [->|Hne].
        -- rewrite lookup_delete_eq. case_decide; case_decide; set_solver.
        -- rewrite lookup_delete_ne by done. repeat case_decide; set_solver.
Qed.

(** What carrying out a rejection leaves alone. *)
Record frame (ts ts' : Topological) : Prop := {
  fr_params : ts_params ts' = ts_params ts;
  fr_head : ts_head ts' = ts_head ts;
  fr_preferred : ts_preferredIDs ts' = ts_preferredIDs ts;
  fr_tail : ts_tail ts' = ts_tail ts;
  fr_blocks : ts_blocks ts' ⊆ ts_blocks ts;
  fr_status : ∀ id, status ts' id = status ts id ∨
    (status ts id = Processing ∧ status ts' id = Rejected);
}.

Lemma frame_trans ts ts' ts'' : frame ts ts' → frame ts' ts'' → frame ts ts''.
Proof.
  intros [P1 Hd1 R1 T1 B1 S1] [P2 Hd2 R2 T2 B2 S2]. split; [congruence..| |].
  - by etrans.
  - intros id. destruct (S1 id), (S2 id); naive_solver congruence.
Qed.

Lemma ginv_reject old r R ts n w lat :
  let l := go_range (sb_children n) in
  ginv old (r :: R) ts → ts_blocks ts !! r = Some n →
  (∀ id, blk_Status w id = if decide (id ∈ l.*1) then Rejected else status ts id) →
  (∀ id, lat !! id = if decide (id ∈ l.*1) then None else ts_latency ts !! id) →
  let ts' := set_latency lat (set_world w (set_blocks (delete r (ts_blocks ts)) ts)) in
  ginv old (reverse l.*1 ++ R) ts' ∧ frame ts ts'.
Proof.
  intros l Hg Hn Hw Hlat ts'.
  assert (∀ c, c ∈ l.*1 ↔ is_Some (sb_children n !! c)) as Hl.
  { intros c. rewrite list_elem_of_fmap. split.
    - intros ([c' b]&->&Hin). apply elem_of_go_range in Hin. by exists b.
    - intros [b Hb]. exists (c, b). split; [done|]. by apply elem_of_go_range. }
  assert (∀ c, c ∈ reverse l.*1 ++ R ↔ is_Some (sb_children n !! c) ∨ c ∈ R) as HR.
  { intros c. by rewrite elem_of_app, elem_of_reverse, Hl. }
  destruct (g_pending _ _ _ Hg) as [[Hr HndR]%NoDup_cons Hpend].
  destruct (Hpend r) as (_&Hrh&Hro); [set_solver|].
  assert (∀ c b, sb_children n !! c = Some b →
    c ≠ ts_head ts ∧ c ∉ r :: R ∧ Some c ≠ old ∧ blk_Parent b = r ∧
    ∃ cn, ts_blocks ts !! c = Some cn ∧ sb_blk cn = Some b) as Hch by (intros; by eapply g_child).
  assert (∀ c, is_Some (sb_children n !! c) → c ∉ R ∧ c ≠ r) as HcR.
  { intros c [b Hb]. destruct (Hch c b Hb) as (_&?&_). set_solver. }
  split; [split|split]; simpl.
  - apply Hg.
  - rewrite lookup_delete_ne by done. apply Hg.
  - intros n' b. rewrite lookup_delete_ne by done. apply Hg.
  - rewrite Hw, decide_False; [apply Hg|]. rewrite Hl. intros [b Hb].
    by destruct (Hch _ b Hb).
  - intros id n' [Hne Hid]%lookup_delete_Some Hh Ho.
    destruct (g_block _ _ _ Hg id n' Hid Hh Ho) as (b&Hb&Hbid&Hst).
    exists b. split_and!; [done..|]. rewrite Hw.
    destruct (decide (is_Some (sb_children n !! id))) as [Hc|Hc].
    + rewrite decide_True by (rewrite HR; auto). rewrite decide_True by by rewrite Hl. done.
    + rewrite (decide_False (P := id ∈ l.*1)) by by rewrite Hl.
      destruct (decide (id ∈ R)) as [Hi|Hi].
      * rewrite decide_True in Hst by set_solver. rewrite decide_True by (rewrite HR; auto). done.
      * rewrite decide_False in Hst by set_solver.
        rewrite decide_False by (rewrite HR; tauto).
        destruct Hst as (?&?&pn&Hpn&Hpc). split_and!; [done..|]. exists pn. split; [|done].
        rewrite lookup_delete_ne; [done|]. intros Heq. rewrite <-Heq in Hpn. simplify_eq. eauto.
  - intros id n' c b [Hne Hid]%lookup_delete_Some Ho Hc.
    destruct (g_child _ _ _ Hg id n' c b Hid Ho Hc) as (?&Hnp&?&Hpar&cn&Hcn&Hcb).
    split_and!; [done| |done|done|].
    + rewrite HR. intros [[b' Hb']|?]; [|set_solver].
      destruct (Hch c b' Hb') as (_&_&_&Hpar'&cn'&Hcn'&Hcb'). congruence.
    + exists cn. split; [|done]. rewrite lookup_delete_ne; [done|set_solver].
  - intros id n' [_ Hid]%lookup_delete_Some. by eapply g_node.
  - destruct (g_rank _ _ _ Hg) as [rank Hrank]. exists rank.
    intros id n' b [_ Hid]%lookup_delete_Some. by eapply Hrank.
  - split.
    + apply NoDup_app. split_and!; [rewrite reverse_Permutation; apply NoDup_fst_go_range| |done].
      intros c. rewrite elem_of_reverse, Hl. intros Hc. by apply HcR.
    + intros id. rewrite HR. intros [[b Hb]|Hi].
      * destruct (Hch id b Hb) as (?&?&?&_&cn&Hcn&_). split_and!; [|done..].
        rewrite lookup_delete_ne by set_solver. eauto.
      * destruct (Hpend id) as (?&?&?); [set_solver|]. split_and!; [|done..].
        rewrite lookup_delete_ne; [done|]. by intros ->.
  - intros o Ho. destruct (g_old _ _ _ Hg o Ho). split; [|done].
    rewrite lookup_delete_ne; [done|congruence].
  - intros id. rewrite Hlat, HR. pose proof (g_latency _ _ _ Hg id) as Hlt.
    destruct (decide (id ∈ l.*1)) as [Hi|Hi]; rewrite Hl in Hi.
    + split; [by intros [? [=]]|tauto].
    + rewrite Hlt. destruct (decide (id = r)) as [->|Hne].
      * rewrite lookup_delete_eq. split; [set_solver|]. by intros ([? [=]]&_).
      * rewrite lookup_delete_ne by done. set_solver.
  - done.
  - done.
  - done.
  - done.
  - apply delete_subseteq.
  - intros id. rewrite Hw. case_decide as Hi; [|auto]. rewrite Hl in Hi. destruct Hi as [b Hb].
    destruct (Hch id b Hb) as (?&?&?&Hpar&cn&Hcn&Hcb). right. split; [|done].
    destruct (g_block _ _ _ Hg id cn Hcn) as (b'&_&_&Hst); [done..|].
    rewrite decide_False in Hst by done. by destruct Hst.
Qed.

Lemma frame_refl ts : frame ts ts.
Proof. split; auto. Qed.

Lemma frame_rejected ts ts' id : frame ts ts' → status ts id = Rejected → status ts' id = Rejected.
Proof. intros Hf Hs. destruct (fr_status _ _ Hf id) as [->|[??]]; congruence. Qed.

(** A child of a block of the tree is a processing block whose parent it is. *)
Lemma ginv_child old R ts id n c b :
  ginv old R ts → ts_blocks ts !! id = Some n → Some id ≠ old → sb_children n !! c = Some b →
  blk_ID b = c ∧ blk_Parent b = id ∧ status ts c = Processing.
Proof.
  intros Hg Hn Ho Hc. destruct (g_child _ _ _ Hg id n c b Hn Ho Hc) as (Hh&Hp&Ho'&Hpar&cn&Hcn&Hcb).
  destruct (g_block _ _ _ Hg c cn Hcn Hh Ho') as (b'&Hb'&Hid&Hst).
  rewrite decide_False in Hst by done. simplify_eq. by destruct Hst.
Qed.

Lemma rejectTransitively_spec total fuel old R ts :
  (total → ChainTotal) → ginv old R ts → (size (ts_blocks ts) ≤ fuel)%nat →
  safe total (Topological_rejectTransitively fuel R ts) (λ ts', ginv old [] ts' ∧ frame ts ts' ∧
    ∀ id, is_Some (ts_blocks ts !! id) → ts_blocks ts' !! id = None → status ts' id = Rejected).
Proof.
  intros Ht. revert R ts. induction fuel as [|fuel IH]; intros [|r R] ts Hg Hfuel; simpl.
  1,3: split_and!; [done|apply frame_refl|]; intros id [? E] ?; congruence.
  { destruct (g_pending _ _ _ Hg) as [_ Hp]. destruct (Hp r) as ([n Hn]&_); [set_solver|].
    apply size_lookup_pos in Hn. lia. }
  destruct (g_pending _ _ _ Hg) as [_ Hp]. destruct (Hp r) as ([n Hn]&Hrh&Hro); [set_solver|].
  rewrite Hn.
  assert (status ts r = Rejected) as Hrs.
  { destruct (g_block _ _ _ Hg r n Hn Hrh Hro) as (b&_&_&Hst).
    by rewrite decide_True in Hst by set_solver. }
  eapply safe_bind; [apply reject_children_spec; [done|apply NoDup_fst_go_range|]|].
  { intros c b Hin%elem_of_go_range. destruct (ginv_child _ _ _ _ _ _ _ Hg Hn Hro Hin) as (?&->&?).
    simpl. by rewrite Hrs. }
  intros ts1 (w&lat&->&Hw&Hlat).
  destruct (ginv_reject old r R ts n w lat Hg Hn Hw Hlat) as [Hg1 Hf1].
  eapply safe_mono; [apply IH; [exact Hg1|]|].
  - simpl. apply size_delete_lt in Hn. lia.
  - intros ts' (Hg'&Hf'&Hrem). pose proof (frame_trans _ _ _ Hf1 Hf') as Hf2.
    split_and!; [done..|].
    intros id Hi Hno. destruct (decide (id = r)) as [->|Hne].
    + by eapply frame_rejected.
    + apply Hrem; [|done]. simpl. by rewrite lookup_delete_ne.
Qed.

(** ** Accepting *)

(** The decision of the head's snowball instance: [child] is accepted and
    becomes the head, its siblings [l] are rejected. *)
Lemma ginv_accept ts n pref child (l : list (ID * Block)) w lat height s :
  inv ts → ts_blocks ts !! ts_head ts = Some n → sb_children n !! pref = Some child →
  NoDup l.*1 → (∀ c, c ∈ l.*1 ↔ is_Some (sb_children n !! c) ∧ c ≠ pref) →
  (∀ id, blk_Status w id =
    if decide (id ∈ l.*1) then Rejected else if decide (id = pref) then Accepted else status ts id) →
  (∀ id, lat !! id =
    if decide (id ∈ l.*1) then None else if decide (id = pref) then None else ts_latency ts !! id) →
  ginv (Some (ts_head ts)) (reverse l.*1)
    (set_latency lat (set_world w (set_preferred s (ts_tail ts) (set_head pref height ts)))).
Proof.
  intros Hg Hn Hpref Hnd Hl Hw Hlat.
  destruct (g_child _ _ _ Hg (ts_head ts) n pref child Hn ltac:(done) Hpref) as (Hph&_&_&_&cn&Hcn&Hcb).
  destruct (ginv_child _ _ _ _ _ _ _ Hg Hn ltac:(done) Hpref) as (Hcid&Hcpar&Hcst).
  assert (∀ c, is_Some (sb_children n !! c) ↔ c = pref ∨ c ∈ l.*1) as Hl'.
  { intros c. rewrite Hl. destruct (decide (c = pref)) as [->|]; [|tauto].
    split; [auto|]. intros _. eauto. }
  assert (∀ id b n' c, ts_blocks ts !! id = Some n' → sb_children n' !! c = Some b →
    is_Some (sb_children n !! c) → id = (ts_head ts)) as Huniq.
  { intros id b n' c Hid Hc [b' Hb'].
    destruct (g_child _ _ _ Hg id n' c b Hid ltac:(done) Hc) as (_&_&_&<-&cn1&E1&E2).
    destruct (g_child _ _ _ Hg (ts_head ts) n c b' Hn ltac:(done) Hb') as (_&_&_&<-&cn2&E3&E4). congruence. }
  assert (∀ c, c ∈ reverse l.*1 ↔ c ∈ l.*1) as Hrev by (intros; apply elem_of_reverse).
  split; simpl.
  - apply Hg.
  - eauto.
  - intros n' b Hn' Hb. by simplify_eq.
  - rewrite Hw, decide_False, decide_True by (rewrite ?Hl; tauto). done.
  - intros id n' Hid Hne Ho. assert (id ≠ (ts_head ts)) as Hne' by congruence.
    destruct (g_block _ _ _ Hg id n' Hid Hne' ltac:(done)) as (b&Hb&Hbid&Hst).
    exists b. split_and!; [done..|]. rewrite Hw. destruct (decide (id ∈ l.*1)) as [Hi|Hi].
    + by rewrite decide_True by by rewrite Hrev.
    + rewrite !decide_False by (rewrite ?Hrev; done).
      rewrite decide_False in Hst by set_solver. destruct Hst as (Hst&_&pn&Hpn&Hpc).
      split_and!; [done| |eauto]. intros [= Hpar]. rewrite Hpar in Hpn.
      assert (pn = n) as -> by congruence.
      assert (id = pref ∨ id ∈ l.*1) as [?|?]; [|done..]. apply Hl'. eauto.
  - intros id n' c b Hid Ho Hc. assert (id ≠ (ts_head ts)) as Hne' by congruence.
    destruct (g_child _ _ _ Hg id n' c b Hid ltac:(done) Hc) as (Hch&_&_&Hpar&cn'&Hcn'&Hcb').
    assert (¬ is_Some (sb_children n !! c)) as Hno by (intros Hs; apply Hne'; by eapply Huniq).
    rewrite Hl' in Hno. rewrite Hrev. split_and!; [tauto|tauto|congruence|done|]. eauto.
  - intros id n' Hid. by eapply (g_node _ _ _ Hg).
  - destruct (g_rank _ _ _ Hg) as [rank Hrank]. exists rank.
    intros id n' b Hid _ Ho. eapply Hrank; [done|congruence|done].
  - split; [by rewrite reverse_Permutation|]. intros id. rewrite Hrev, Hl.
    intros [[b Hb] Hne].
    destruct (g_child _ _ _ Hg (ts_head ts) n id b Hn ltac:(done) Hb) as (?&_&_&_&cn'&?&_).
    split_and!; [eauto|done|congruence].
  - intros o [= <-]. split; [by rewrite Hn|congruence].
  - intros id. rewrite Hlat, Hrev. pose proof (g_latency _ _ _ Hg id) as Hlt.
    destruct (decide (id ∈ l.*1)); [|destruct (decide (id = pref))].
    + split; [by intros [? [=]]|tauto].
    + split; [by intros [? [=]]|tauto].
    + rewrite Hlt. split.
      * intros (?&?&_&_). split_and!; [done..|congruence].
      * intros (?&_&_&?). split_and!; [done|congruence|apply not_elem_of_nil|done].
Qed.

(** Removing the block that was the head until the decision. *)
Lemma ginv_delete_old o ts :
  ginv (Some o) [] ts → inv (set_blocks (delete o (ts_blocks ts)) ts).
Proof.
  intros Hg. destruct (g_old _ _ _ Hg o eq_refl) as [_ Hoh].
  assert (ts_head ts ≠ o) as Hho by done.
  split; simpl.
  - apply Hg.
  - rewrite lookup_delete_ne by done. apply Hg.
  - intros n b. rewrite lookup_delete_ne by done. apply Hg.
  - apply Hg.
  - intros id n [Hne Hid]%lookup_delete_Some Hh _.
    destruct (g_block _ _ _ Hg id n Hid Hh ltac:(congruence)) as (b&Hb&Hbid&Hst).
    rewrite decide_False in Hst by apply not_elem_of_nil. destruct Hst as (?&?&pn&?&?).
    exists b. split_and!; [done..|]. exists pn. rewrite lookup_delete_ne by congruence. done.
  - intros id n c b [Hne Hid]%lookup_delete_Some _ Hc.
    destruct (g_child _ _ _ Hg id n c b Hid ltac:(congruence) Hc) as (?&?&?&?&cn&?&?).
    split_and!; [done..|]. exists cn. rewrite lookup_delete_ne by congruence. done.
  - intros id n [_ Hid]%lookup_delete_Some. by eapply (g_node _ _ _ Hg).
  - destruct (g_rank _ _ _ Hg) as [rank Hrank]. exists rank.
    intros id n b [Hne Hid]%lookup_delete_Some Hh _. eapply Hrank; [done..|congruence].
  - split; [constructor|]. intros id Hi. by apply not_elem_of_nil in Hi.
  - done.
  - intros id. rewrite (g_latency _ _ _ Hg id). destruct (decide (id = o)) as [->|].
    + rewrite lookup_delete_eq. split; [by intros (_&_&_&[])|]. by intros ([? [=]]&_).
    + rewrite lookup_delete_ne by done.
      split; intros (?&?&?&?); split_and!; try done; congruence.
Qed.

(** What accepting the preferred child of the head does. *)
Record accepts (ts : Topological) (child : Block) (ts' : Topological) : Prop := {
  ac_inv : inv ts';
  ac_evolves : evolves ts [child] ts';
  ac_params : ts_params ts' = ts_params ts;
  ac_preferred : ts_preferredIDs ts' = ts_preferredIDs ts ∖ {[blk_ID child]};
  ac_tail : ts_tail ts' = ts_tail ts;
  ac_blocks : ts_blocks ts' ⊆ ts_blocks ts;
  ac_head : ts_blocks ts' !! ts_head ts = None;
}.

Lemma acceptPreferredChild_spec total n t ts :
  (total → ChainTotal) → inv ts → ts_blocks ts !! ts_head ts = Some n → sb_sb n = Some t →
  safe total (let? ts1 := Topological_acceptPreferredChild n t ts in
              Ok (set_blocks (delete (ts_head ts) (ts_blocks ts1)) ts1))
    (λ ts', ∃ child, sb_children n !! Tree_Preference t = Some child ∧
      blk_ID child = Tree_Preference t ∧ accepts ts child ts').
Proof.
  intros Ht Hg Hn Hsb. unfold Topological_acceptPreferredChild. cbv zeta.
  set (pref := Tree_Preference t).
  assert (is_Some (sb_children n !! pref)) as [child Hc].
  { apply elem_of_dom. pose proof (g_node _ _ _ Hg _ _ Hn) as Hok. unfold node_ok in Hok.
    rewrite Hsb in Hok. by eapply tree_good_Preference. }
  destruct (ginv_child _ _ _ _ _ _ _ Hg Hn ltac:(done) Hc) as (Hcid&Hcpar&Hcst).
  rewrite Hc. set (l := filter (λ c, c.1 ≠ pref) (go_range (sb_children n))).
  assert (∀ c b, (c, b) ∈ l ↔ sb_children n !! c = Some b ∧ c ≠ pref) as Hl.
  { intros c b. unfold l. rewrite list_elem_of_filter, elem_of_go_range. simpl. tauto. }
  assert (∀ c, c ∈ l.*1 ↔ is_Some (sb_children n !! c) ∧ c ≠ pref) as Hl1.
  { intros c. rewrite list_elem_of_fmap. split.
    - intros ([c' b]&->&[??]%Hl). eauto.
    - intros [[b Hb] ?]. exists (c, b). split; [done|]. by apply Hl. }
  assert (NoDup l.*1) as Hnd.
  { eapply sublist_NoDup; [apply (NoDup_fst_go_range (sb_children n))|].
    unfold l. apply fmap_sublist, sublist_filter. }
  rewrite !result_bind_assoc.
  eapply (safe_bind _ _ _ (λ w, ∀ id, blk_Status w id = status ts id)).
  { apply safe_call; [|intros w Hw; by eapply DecisionAcceptor_status].
    intros HT. pose proof (Ht HT). apply DecisionAcceptor_total. by rewrite Hcid. }
  intros w1 Hw1. rewrite !result_bind_assoc.
  eapply (safe_bind _ _ _ (λ w, ∀ id, blk_Status w id = status ts id)).
  { apply safe_call.
    - intros HT. pose proof (Ht HT). apply ConsensusAcceptor_total. by rewrite Hcid, Hw1.
    - intros w Hw id. by rewrite (ConsensusAcceptor_status _ _ _ Hw), Hw1. }
  intros w2 Hw2. rewrite !result_bind_assoc.
  eapply (safe_bind _ _ _ (λ w, ∀ id, blk_Status w id =
    if decide (id = pref) then Accepted else status ts id)).
  { apply safe_call.
    - intros HT. pose proof (Ht HT). apply blk_Accept_total; rewrite Hw2.
      + by rewrite Hcid.
      + rewrite Hcpar. apply Hg.
    - intros w Hw id. rewrite (blk_Accept_status _ _ _ Hw), Hcid, Hw2. done. }
  intros w3 Hw3. rewrite !result_bind_assoc.
  eapply safe_bind; [apply reject_children_spec; [done..|]|].
  { intros c b [Hcb Hne]%Hl. simpl. rewrite !Hw3.
    destruct (ginv_child _ _ _ _ _ _ _ Hg Hn ltac:(done) Hcb) as (?&->&?).
    rewrite decide_False by done. split_and!; [done..|].
    case_decide; [done|]. by rewrite (g_head_status _ _ _ Hg). }
  intros ts1 (w&lat&->&Hw&Hlat).
  set (ts1 := set_latency lat _).
  assert (ginv (Some (ts_head ts)) (reverse l.*1) ts1) as Hg1.
  { unfold ts1. eapply (ginv_accept ts n pref child l w lat (blk_Height child)
      (ts_preferredIDs ts ∖ {[pref]})); try done.
    - intros id. rewrite Hw. simpl. by rewrite Hw3.
    - intros id. rewrite Hlat. simpl. unfold latency_Accepted.
      destruct (decide (id = pref)) as [->|]; [by rewrite lookup_delete_eq|].
      by rewrite lookup_delete_ne. }
  eapply safe_bind; [apply rejectTransitively_spec; [done|exact Hg1|done]|].
  intros ts2 (Hg2&Hf2&Hrem). simpl. exists child. split_and!; [done..|].
  pose proof (g_old _ _ _ Hg1 _ eq_refl) as [Hob Hoh].
  split; simpl.
  - by apply ginv_delete_old.
  - split; simpl.
    + rewrite (fr_head _ _ Hf2). simpl. by rewrite Hcid.
    + intros b ->%list_elem_of_singleton. rewrite Hcid. split; [by rewrite Hcst|].
      destruct (fr_status _ _ Hf2 pref) as [->|[E _]]; simpl in *;
        rewrite Hw, decide_False, Hw3, decide_True in * by (rewrite ?Hl1; tauto); done.
    + intros id Hd. destruct (decide (id ∈ l.*1)) as [Hi|Hi].
      { apply Hl1 in Hi as [[b Hb] _].
        destruct (ginv_child _ _ _ _ _ _ _ Hg Hn ltac:(done) Hb) as (_&_&E).
        by rewrite E in Hd. }
      assert (id ≠ pref) by (intros ->; by rewrite Hcst in Hd).
      assert (status ts1 id = status ts id) as E.
      { simpl. by rewrite Hw, decide_False, Hw3, decide_False. }
      destruct (fr_status _ _ Hf2 id) as [->|[E' _]]; [done|].
      rewrite E in E'. by rewrite E' in Hd.
    + intros id Hid. destruct (fr_status _ _ Hf2 id) as [E|[_ E]]; rewrite E in Hid; [|done].
      simpl in Hid. rewrite Hw in Hid. case_decide; [done|]. rewrite Hw3 in Hid.
      case_decide; [|by left]. right. exists child. subst. set_solver.
    + intros id Hi Hno. destruct (decide (id = ts_head ts)) as [->|Hne].
      * assert (status ts2 (ts_head ts) = Accepted) as ->; [|done].
        assert (status ts1 (ts_head ts) = Accepted) as E.
        { simpl. rewrite Hw, decide_False, Hw3, decide_False; [apply Hg|done|].
          rewrite Hl1. intros [[b Hb] _].
          destruct (g_child _ _ _ Hg _ _ _ _ Hn ltac:(done) Hb) as [? _]. done. }
        destruct (fr_status _ _ Hf2 (ts_head ts)) as [->|[E' _]]; [done|congruence].
      * rewrite lookup_delete_ne in Hno by done. by rewrite Hrem.
    + apply NoDup_singleton.
    + intros b n' b' ->%list_elem_of_singleton. rewrite Hcid. intros Hn' Hb'.
      destruct (g_child _ _ _ Hg _ _ _ _ Hn ltac:(done) Hc) as (_&_&_&_&cn&Hcn&Hcb). congruence.
    + intros id n1 n2 Hn1 [_ Hn2]%lookup_delete_Some.
      assert (Some n1 = Some n2) as [= ->]; [|done].
      rewrite <-Hn1. eapply lookup_weaken; [exact Hn2|apply (fr_blocks _ _ Hf2)].
    + intros id Hno [n2 [_ Hn2]%lookup_delete_Some].
      assert (ts_blocks ts !! id = Some n2); [|congruence].
      eapply lookup_weaken; [exact Hn2|apply (fr_blocks _ _ Hf2)].
  - by rewrite (fr_params _ _ Hf2).
  - rewrite (fr_preferred _ _ Hf2). simpl. by rewrite Hcid.
  - by rewrite (fr_tail _ _ Hf2).
  - etrans; [apply delete_subseteq|]. apply (fr_blocks _ _ Hf2).
  - apply lookup_delete_eq.
Qed.

(** ** Updates that leave the shape of the tree alone *)

(** [m'] has the nodes of [m], with the same blocks and children. *)
Definition same_shape (m m' : gmap ID snowmanBlock) : Prop :=
  ∀ id, option_Forall2 (λ n n', sb_blk n' = sb_blk n ∧ sb_children n' = sb_children n)
          (m !! id) (m' !! id).

Lemma inv_same_shape ts m :
  inv ts → same_shape (ts_blocks ts) m →
  (∀ id n, m !! id = Some n → node_ok (ts_params ts) n) → inv (set_blocks m ts).
Proof.
  intros Hg Hs Hok.
  assert (∀ id n', m !! id = Some n' → ∃ n, ts_blocks ts !! id = Some n ∧
    sb_blk n' = sb_blk n ∧ sb_children n' = sb_children n) as Hb.
  { intros id n' Hn'. specialize (Hs id). rewrite Hn' in Hs. inv Hs. eauto. }
  assert (∀ id n, ts_blocks ts !! id = Some n → ∃ n', m !! id = Some n' ∧
    sb_blk n' = sb_blk n ∧ sb_children n' = sb_children n) as Hf.
  { intros id n Hn. specialize (Hs id). rewrite Hn in Hs. inv Hs. eauto. }
  split; simpl; try apply Hg; try done.
  - destruct (g_head _ _ _ Hg) as [n Hn]. destruct (Hf _ _ Hn) as (n'&->&_). eauto.
  - intros n' b Hn' Hb'. destruct (Hb _ _ Hn') as (n&Hn&E&_). eapply g_head_id; [done..|congruence].
  - intros id n' Hn' Hh _. destruct (Hb _ _ Hn') as (n&Hn&E&_).
    destruct (g_block _ _ _ Hg id n Hn Hh ltac:(done)) as (b&?&?&?&?&pn&Hpn&?).
    exists b. destruct (Hf _ _ Hpn) as (pn'&Hpn'&_&E').
    split_and!; [congruence|done..|]. exists pn'. split; congruence.
  - intros id n' c b Hn' _ Hc. destruct (Hb _ _ Hn') as (n&Hn&_&E). rewrite E in Hc.
    destruct (g_child _ _ _ Hg id n c b Hn ltac:(done) Hc) as (?&?&?&?&cn&Hcn&?).
    destruct (Hf _ _ Hcn) as (cn'&Hcn'&E'&_). split_and!; [done..|]. exists cn'. split; congruence.
  - destruct (g_rank _ _ _ Hg) as [rank Hrank]. exists rank. intros id n' b Hn' Hh _ Hb'.
    destruct (Hb _ _ Hn') as (n&Hn&E&_). eapply Hrank; [done..|congruence].
  - split; [constructor|]. intros id Hi. by apply not_elem_of_nil in Hi.
  - intros id. rewrite (g_latency _ _ _ Hg id). specialize (Hs id).
    destruct Hs; [|done]. split; intros (_&?); split; eauto.
Qed.

Lemma same_shape_refl m : same_shape m m.
Proof. intros id. destruct (m !! id); by constructor. Qed.

Lemma same_shape_insert m id n n' :
  m !! id = Some n → sb_blk n' = sb_blk n → sb_children n' = sb_children n →
  same_shape m (<[id:=n']> m).
Proof.
  intros Hn Hb Hc i. destruct (decide (i = id)) as [->|Hne].
  - rewrite lookup_insert_eq, Hn. by constructor.
  - rewrite lookup_insert_ne by done. destruct (m !! i); by constructor.
Qed.

Lemma same_shape_trans m1 m2 m3 : same_shape m1 m2 → same_shape m2 m3 → same_shape m1 m3.
Proof.
  intros H12 H23 id. specialize (H12 id). specialize (H23 id).
  destruct H12; inv H23; constructor. naive_solver congruence.
Qed.

End inv.
