(* ===== verification/TopologicalVote.v ===== *)
(** Vote propagation and polls of Snowman consensus.

    Kahn's sort ([calculateInDegree], [pushVotes]) never panics, terminates, and
    leaves a stack in which no block comes after one of its descendants; the
    vote loop then keeps the invariant [inv].  This is what the safety theorems
    of TopologicalSafety rest on. *)

From S2P Require Import Prelude Ids Bag Snowball SnowballTree TreeSafety Topological.
From S2P Require Import TopologicalInv.

Local Open Scope node_scope.

Section vote.
Context `{GoRange, ChainContext, !ChainLaws}.

Abbreviation inv := (ginv None []).
Abbreviation status ts id := (blk_Status (ts_world ts) id).

(** ** Ancestors *)

(** The parent of a processing block. *)
Definition par (ts : Topological) (x : ID) : option ID :=
  if decide (x = ts_head ts) then None
  else n ← ts_blocks ts !! x; b ← sb_blk n; Some (blk_Parent b).

(** [reach ts x y]: [y] is [x] or one of its ancestors. *)
Definition reach (ts : Topological) : relation ID := rtc (λ x y, par ts x = Some y).

Lemma inv_block ts x n :
  inv ts → ts_blocks ts !! x = Some n → x ≠ ts_head ts →
  ∃ b pn, sb_blk n = Some b ∧ blk_ID b = x ∧ status ts x = Processing ∧
    par ts x = Some (blk_Parent b) ∧ ts_blocks ts !! blk_Parent b = Some pn ∧
    sb_children pn !! x = Some b.
Proof.
  intros Hg Hn Hh. destruct (g_block _ _ _ Hg x n Hn Hh ltac:(done)) as (b&Hb&Hid&?&?&pn&?&?).
  exists b, pn. split_and!; try done. unfold par. rewrite decide_False by done.
  rewrite Hn. simpl. by rewrite Hb.
Qed.

Lemma inv_Accepted ts x n :
  inv ts → ts_blocks ts !! x = Some n →
  snowmanBlock_Accepted (ts_world ts) n = bool_decide (x = ts_head ts).
Proof.
  intros Hg Hn. unfold snowmanBlock_Accepted. destruct (decide (x = ts_head ts)) as [->|Hh].
  - rewrite bool_decide_true by done. destruct (sb_blk n) as [b|] eqn:E; [|done].
    rewrite (g_head_id _ _ _ Hg n b) by done. apply bool_decide_true, Hg.
  - destruct (inv_block ts x n Hg Hn Hh) as (b&pn&->&->&->&_).
    by rewrite !bool_decide_false.
Qed.

Lemma par_Some ts x y :
  inv ts → par ts x = Some y →
  x ≠ ts_head ts ∧ ∃ n b pn, ts_blocks ts !! x = Some n ∧ sb_blk n = Some b ∧ blk_Parent b = y ∧
    ts_blocks ts !! y = Some pn ∧ sb_children pn !! x = Some b.
Proof.
  intros Hg Hp. assert (Hp' := Hp). unfold par in Hp'. case_decide as Hh; [done|].
  split; [done|]. destruct (ts_blocks ts !! x) as [n|] eqn:Hn; [|done]. simpl in Hp'.
  destruct (inv_block ts x n Hg Hn Hh) as (b&pn&Hb&_&_&_&?&?). exists n, b, pn.
  rewrite Hb in Hp'. simplify_eq/=. done.
Qed.

(** A block with a child has a snowball instance. *)
Lemma child_sb ts x n c b :
  inv ts → ts_blocks ts !! x = Some n → sb_children n !! c = Some b → is_Some (sb_sb n).
Proof.
  intros Hg Hn Hc. pose proof (g_node _ _ _ Hg _ _ Hn) as Hok. unfold node_ok in Hok.
  destruct (sb_sb n); [eauto|]. by rewrite Hok, lookup_empty in Hc.
Qed.

(** ** Depth: how many blocks may lie between a block and the head *)

Definition depth (rank : ID → nat) (m : gmap ID snowmanBlock) (x : ID) : nat :=
  size (filter (λ p, (rank p.1 < rank x)%nat) m).

Lemma depth_lt rank m x y n :
  m !! y = Some n → (rank y < rank x)%nat → (depth rank m y < depth rank m x)%nat.
Proof.
  intros Hy Hr. unfold depth. apply map_subset_size, map_subset_alt. split.
  - apply map_subseteq_spec. intros i v [Hi Hlt]%map_lookup_filter_Some.
    apply map_lookup_filter_Some. simpl in *. split; [done|lia].
  - exists y. rewrite map_lookup_filter_None. split; [right; simpl; lia|].
    exists n. by apply map_lookup_filter_Some.
Qed.

Lemma depth_size rank m x n : m !! x = Some n → (depth rank m x < size m)%nat.
Proof.
  intros Hx. unfold depth. apply map_subset_size, map_subset_alt. split.
  - apply map_filter_subseteq.
  - exists x. rewrite map_lookup_filter_None. split; [right; simpl; lia|eauto].
Qed.

Lemma inv_rank ts :
  inv ts → ∃ rank : ID → nat, ∀ x y, par ts x = Some y → (rank y < rank x)%nat.
Proof.
  intros Hg. destruct (g_rank _ _ _ Hg) as [rank Hr]. exists rank. intros x y Hp.
  destruct (par_Some ts x y Hg Hp) as (Hh&n&b&pn&Hn&Hb&<-&_). by eapply Hr.
Qed.

Lemma reach_head ts x : inv ts → is_Some (ts_blocks ts !! x) → reach ts x (ts_head ts).
Proof.
  intros Hg. destruct (inv_rank ts Hg) as [rank Hr].
  induction x as [x IH] using (induction_ltof1 _ rank). unfold ltof in IH. intros [n Hn].
  destruct (decide (x = ts_head ts)) as [->|Hh]; [apply rtc_refl|].
  destruct (inv_block ts x n Hg Hn Hh) as (b&pn&_&_&_&Hp&Hpn&_).
  eapply rtc_l; [exact Hp|]. apply IH; [by apply Hr|eauto].
Qed.

(** ** Kahn's sort *)

Definition inDegree (k : gmap ID kahnNode) (p : ID) : Z :=
  kn_inDegree (default kahnNode_zero (k !! p)).

(** The known children of [p] whose votes have not been pushed yet. *)
Definition waiting (ts : Topological) (k : gmap ID kahnNode) (D : gset ID) (p : ID) : gset ID :=
  filter (λ c, par ts c = Some p ∧ c ∉ D) (dom k).

(** The edge of [extra] still to be counted at [p]. *)
Definition due (ts : Topological) (extra : option ID) (p : ID) : Z :=
  if decide (extra ≫= par ts = Some p) then 1 else 0.

Lemma due_None ts p : due ts None p = 0.
Proof. unfold due. by rewrite decide_False. Qed.

(** The state of the sort once the blocks [D] have been popped.  [extra] is a
    block whose edge to its parent is still to be counted. *)
Record kahn_inv (ts : Topological) (extra : option ID) (k : gmap ID kahnNode) (D L : gset ID)
    : Prop := {
  k_dom : ∀ p, is_Some (k !! p) →
    ∃ n, ts_blocks ts !! p = Some n ∧ is_Some (sb_sb n);
  k_up : ∀ c p, is_Some (k !! c) → Some c ≠ extra → par ts c = Some p → is_Some (k !! p);
  k_deg : ∀ p, Z.of_nat (size (waiting ts k D p)) ≤
    inDegree k p + due ts extra p;
  k_leaves : ∀ p, p ∈ L → is_Some (k !! p) ∧ inDegree k p = 0 ∧ p ∉ D;
  k_popped : ∀ p, p ∈ D → is_Some (k !! p) ∧ inDegree k p = 0;
}.

Lemma kahn_insert ts extra extra' k D L L' y kn n :
  kahn_inv ts extra k D L → ts_blocks ts !! y = Some n → is_Some (sb_sb n) →
  (∀ z, extra ≫= par ts = Some z → z = y) →
  kn_inDegree kn = inDegree k y + due ts extra y →
  extra' = None ∧ is_Some (k !! y) ∨ extra' = Some y →
  y ∉ D → (∀ p, p ∈ L' → p ∈ L ∧ p ≠ y ∨ p = y ∧ kn_inDegree kn = 0) →
  kahn_inv ts extra' (<[y:=kn]> k) D L'.
Proof.
  intros Hk Hn Hsb Hz Hkn He HyD HL.
  assert (∀ p, inDegree (<[y:=kn]> k) p = inDegree k p + due ts extra p) as Hdeg.
  { intros p. unfold inDegree at 1. destruct (decide (p = y)) as [->|Hne].
    - by rewrite lookup_insert_eq.
    - rewrite lookup_insert_ne by done. unfold due. rewrite decide_False by naive_solver. 
      unfold inDegree. lia. }
  assert (∀ p, is_Some (<[y:=kn]> k !! p) ↔ p = y ∨ is_Some (k !! p)) as Hdom.
  { intros p. destruct (decide (p = y)) as [->|Hne].
    - rewrite lookup_insert_eq. naive_solver.
    - rewrite lookup_insert_ne by done. naive_solver. }
  split.
  - intros p [->|Hp]%Hdom; [eauto|by apply (k_dom _ _ _ _ _ Hk)].
  - intros c p Hc Hce Hp. apply Hdom. apply Hdom in Hc as [->|Hc].
    + destruct He as [[-> Hy]| ->]; [|done].
      destruct (decide (Some y = extra)) as [<-|Hne].
      * left. by apply Hz.
      * right. by eapply (k_up _ _ _ _ _ Hk).
    + destruct (decide (Some c = extra)) as [<-|Hne].
      * left. by apply Hz.
      * right. by eapply (k_up _ _ _ _ _ Hk).
  - intros p. rewrite Hdeg. pose proof (k_deg _ _ _ _ _ Hk p) as Hd.
    destruct He as [[-> Hy]| ->].
    + assert (waiting ts (<[y:=kn]> k) D p = waiting ts k D p) as ->.
      { unfold waiting. f_equal. rewrite dom_insert_L. apply elem_of_dom in Hy. set_solver. }
      unfold due at 2. rewrite decide_False by done. lia.
    + assert (Z.of_nat (size (waiting ts (<[y:=kn]> k) D p)) ≤
        Z.of_nat (size (waiting ts k D p)) + due ts (Some y) p); [|lia].
      unfold due. simpl. case_decide as Hp.
      * assert (waiting ts (<[y:=kn]> k) D p ⊆ {[y]} ∪ waiting ts k D p) as Hsub.
        { unfold waiting. rewrite dom_insert_L. set_solver. }
        apply subseteq_size in Hsub. pose proof (size_union_alt {[y]} (waiting ts k D p)) as Hu.
        rewrite size_singleton in Hu.
        assert (size (waiting ts k D p ∖ {[y]}) ≤ size (waiting ts k D p))%nat
          by (apply subseteq_size; set_solver). lia.
      * assert (waiting ts (<[y:=kn]> k) D p ⊆ waiting ts k D p) as Hsub.
        { unfold waiting. rewrite dom_insert_L. set_solver. }
        apply subseteq_size in Hsub. lia.
  - intros p Hp. destruct (HL p Hp) as [[Hp' Hne]|[-> Hd]].
    + destruct (k_leaves _ _ _ _ _ Hk p Hp') as (?&Hd&?). split_and!; [apply Hdom; auto| |done].
      unfold inDegree in *. by rewrite lookup_insert_ne.
    + split_and!; [apply Hdom; auto| |done]. unfold inDegree. by rewrite lookup_insert_eq.
  - intros p Hp. destruct (k_popped _ _ _ _ _ Hk p Hp) as [??].
    split; [apply Hdom; auto|]. unfold inDegree in *. rewrite lookup_insert_ne; [done|]. congruence.
Qed.

Lemma kahn_weaken ts k D L x : kahn_inv ts None k D L → kahn_inv ts (Some x) k D L.
Proof.
  intros [H1' H2' H3' H4' H5']. split; try done.
  - intros c p Hc _ Hp. by eapply H2'.
  - intros p. specialize (H3' p). unfold due in *. simpl in *. repeat case_decide; try done; lia.
Qed.

(** At the head there is no edge to count. *)
Lemma kahn_at_head ts k D L :
  kahn_inv ts (Some (ts_head ts)) k D L → kahn_inv ts None k D L.
Proof.
  assert (par ts (ts_head ts) = None) as Hpar by (unfold par; by rewrite decide_True).
  intros [H1' H2' H3' H4' H5']. split; try done.
  - intros c p Hc _ Hp. eapply H2'; [done| |done]. intros [= ->]. congruence.
  - intros p. specialize (H3' p). unfold due in *. simpl in *. rewrite Hpar in H3'. done.
Qed.

(** The parent of a processing block is in the tree and has a snowball instance. *)
Lemma par_sb ts x y :
  inv ts → par ts x = Some y → ∃ n, ts_blocks ts !! y = Some n ∧ is_Some (sb_sb n).
Proof.
  intros Hg Hp. destruct (par_Some ts x y Hg Hp) as (_&n&b&pn&_&_&_&Hpn&Hc).
  exists pn. split; [done|]. by eapply child_sb.
Qed.

Lemma mark_ancestors_ok ts rank fuel x k L :
  inv ts → (∀ x y, par ts x = Some y → (rank y < rank x)%nat) →
  is_Some (ts_blocks ts !! x) → (depth rank (ts_blocks ts) x < fuel)%nat →
  kahn_inv ts (Some x) k ∅ L →
  ∃ k' L', mark_ancestors fuel (ts_world ts) (ts_blocks ts) x k L = Ok (k', L') ∧
    kahn_inv ts None k' ∅ L'.
Proof.
  intros Hg Hr. revert x k L. induction fuel as [|fuel IH]; intros x k L [n Hn] Hf Hk; [lia|].
  simpl. rewrite Hn, (inv_Accepted ts x n) by done.
  destruct (decide (x = ts_head ts)) as [->|Hh].
  { rewrite bool_decide_true by done. eauto using kahn_at_head. }
  rewrite bool_decide_false by done.
  destruct (inv_block ts x n Hg Hn Hh) as (b&pn&->&_&_&Hp&Hpn&Hpc).
  set (y := blk_Parent b) in *.
  set (kn := mkKahnNode _ _).
  assert (kn_inDegree kn = inDegree k y + due ts (Some x) y) as Hkn.
  { unfold due. simpl. by rewrite decide_True. }
  assert (is_Some (sb_sb pn)) as Hsb by by eapply child_sb.
  assert (∀ z, Some x ≫= par ts = Some z → z = y) as Hz by (simpl; congruence).
  case_decide as Hd.
  - eexists _, _. split; [done|]. eapply kahn_insert; try done.
    + left. split; [done|]. destruct (k !! y) eqn:E; [eauto|].
      unfold inDegree, due in Hkn. rewrite E, decide_True in Hkn by done. done.
    + intros p Hp'. left. split; [done|]. intros ->.
      destruct (k_leaves _ _ _ _ _ Hk y Hp') as (_&E&_).
      unfold inDegree in E. lia.
  - apply IH; [eauto| |].
    + apply Hr in Hp. pose proof (depth_lt rank _ _ _ _ Hpn Hp). lia.
    + eapply kahn_insert; try done; [by right|]. set_solver.
Qed.

Lemma calculate_one_ok ts voteBag vote k L :
  inv ts → kahn_inv ts None k ∅ L →
  ∃ k' L', calculate_one (ts_world ts) (ts_blocks ts) voteBag vote (k, L) = Ok (k', L') ∧
    kahn_inv ts None k' ∅ L'.
Proof.
  intros Hg Hk. unfold calculate_one. destruct (ts_blocks ts !! vote) as [n|] eqn:Hn; [|eauto].
  rewrite (inv_Accepted ts vote n) by done.
  destruct (decide (vote = ts_head ts)) as [->|Hh]; [rewrite bool_decide_true by done; eauto|].
  rewrite bool_decide_false by done.
  destruct (inv_block ts vote n Hg Hn Hh) as (b&pn&->&_&_&Hp&Hpn&Hpc).
  set (y := blk_Parent b) in *. set (kn := mkKahnNode _ _).
  assert (kn_inDegree kn = inDegree k y + due ts None y) as Hkn
    by (rewrite due_None; unfold inDegree; simpl; lia).
  assert (is_Some (sb_sb pn)) as Hsb by by eapply child_sb.
  case_decide as Hy.
  - eexists _, _. split; [done|]. eapply kahn_insert; try done; [by left|].
    intros p HpL. destruct (decide (p = y)) as [->|]; [right|by left].
    destruct (k_leaves _ _ _ _ _ Hk y HpL) as (_&E&_).
    split; [done|]. by rewrite Hkn, due_None, E.
  - destruct (inv_rank ts Hg) as [rank Hr]. eapply (mark_ancestors_ok ts rank); try done.
    + pose proof (depth_size rank _ _ _ Hpn). lia.
    + eapply kahn_insert; try done; [by right|]. intros p [->%elem_of_singleton|HpL]%elem_of_union.
      * right. split; [done|]. rewrite Hkn, due_None. unfold inDegree.
        destruct (k !! y); [by destruct Hy|done].
      * left. split; [done|]. intros ->. by destruct (k_leaves _ _ _ _ _ Hk y HpL).
Qed.

Lemma calculate_list_ok ts voteBag l k L :
  inv ts → kahn_inv ts None k ∅ L →
  ∃ k' L', calculate_list (ts_world ts) (ts_blocks ts) voteBag l (k, L) = Ok (k', L') ∧
    kahn_inv ts None k' ∅ L'.
Proof.
  intros Hg. revert k L. induction l as [|v l IH]; intros k L Hk; [eauto|].
  cbn [calculate_list]. destruct (calculate_one_ok ts voteBag v k L Hg Hk) as (k'&L'&->&Hk'). simpl. by apply IH.
Qed.

Lemma kahn_empty ts : kahn_inv ts None ∅ ∅ ∅.
Proof.
  split; [by intros p [? ?%lookup_empty_Some]| | |set_solver|set_solver].
  { by intros c p [? ?%lookup_empty_Some]. }
  intros p. assert (waiting ts ∅ ∅ p = ∅) as -> by (unfold waiting; set_solver).
  unfold inDegree. rewrite size_empty, due_None, lookup_empty. simpl. lia.
Qed.

Lemma Set_Pop_Some (s s' : gset ID) x : Set_Pop s = Some (x, s') → x ∈ s ∧ s' = s ∖ {[x]}.
Proof.
  unfold Set_Pop. destruct (go_range (gset_to_gmap tt s)) as [|[y []] l] eqn:E; [done|].
  intros [= -> <-]. split; [|done].
  assert ((x, ()) ∈ go_range (gset_to_gmap () s)) as Hin by (rewrite E; set_solver).
  apply elem_of_go_range, lookup_gset_to_gmap_Some in Hin. by destruct Hin.
Qed.

Lemma Set_Pop_None (s : gset ID) : Set_Pop s = None → s = ∅.
Proof.
  unfold Set_Pop. destruct (go_range (gset_to_gmap tt s)) as [|[y []] l] eqn:E; [|done].
  intros _. apply set_eq. intros x. split; [|set_solver]. intros Hx.
  assert ((x, ()) ∈ go_range (gset_to_gmap () s)) as Hin.
  { apply elem_of_go_range, lookup_gset_to_gmap_Some. done. }
  rewrite E in Hin. set_solver.
Qed.

(** A block that has been popped has no known descendant left to pop. *)
Lemma kahn_no_descendant ts k D L x y :
  kahn_inv ts None k D L → x ∈ D → y ∉ D → is_Some (k !! y) → reach ts y x → False.
Proof.
  intros Hk Hx Hy Hky Hreach. revert Hy Hky. induction Hreach as [|y z x Hyz Hzx IH]; [done|].
  intros Hy Hky. assert (is_Some (k !! z)) as Hkz by (by eapply (k_up _ _ _ _ _ Hk)).
  destruct (decide (z ∈ D)) as [Hz|Hz]; [|by apply IH].
  destruct (k_popped _ _ _ _ _ Hk z Hz) as [_ Hd]. pose proof (k_deg _ _ _ _ _ Hk z) as Hdeg.
  rewrite due_None in Hdeg.
  assert (y ∈ waiting ts k D z) as Hw.
  { unfold waiting. apply elem_of_filter. split; [done|]. by apply elem_of_dom. }
  assert (size (waiting ts k D z) ≠ 0%nat) by (apply size_non_empty_iff; set_solver). lia.
Qed.

Lemma waiting_pop ts k D x p :
  waiting ts k ({[x]} ∪ D) p = waiting ts k D p ∖ {[x]}.
Proof.
  apply set_eq. intros c. unfold waiting.
  rewrite elem_of_difference, !elem_of_filter, not_elem_of_union, elem_of_singleton. tauto.
Qed.

(** Popping a block and pushing its votes to its parent. *)
Lemma kahn_pop ts k D L x y kn L' :
  kahn_inv ts None k D L → x ∈ L → par ts x = Some y →
  kn_inDegree kn = inDegree k y - 1 →
  (∀ p, p ∈ L' → p ∈ L ∧ p ≠ x ∨ p = y ∧ kn_inDegree kn = 0) →
  kahn_inv ts None (<[y:=kn]> k) ({[x]} ∪ D) L'.
Proof.
  intros Hk HxL Hp Hkn HL.
  destruct (k_leaves _ _ _ _ _ Hk x HxL) as (Hkx&Hdx&HxD).
  assert (is_Some (k !! y)) as Hky by by eapply (k_up _ _ _ _ _ Hk).
  assert (x ∈ waiting ts k D y) as Hxw.
  { unfold waiting. apply elem_of_filter. split; [done|]. by apply elem_of_dom. }
  pose proof (k_deg _ _ _ _ _ Hk y) as Hdy. rewrite due_None in Hdy.
  assert (1 ≤ inDegree k y) as Hpos.
  { assert (size (waiting ts k D y) ≠ 0%nat) by (apply size_non_empty_iff; set_solver). lia. }
  assert (x ≠ y) as Hxy by (intros ->; lia).
  assert (∀ p, is_Some (<[y:=kn]> k !! p) ↔ is_Some (k !! p)) as Hdom.
  { intros p. destruct (decide (p = y)) as [->|Hne].
    - rewrite lookup_insert_eq. split; [done|eauto].
    - by rewrite lookup_insert_ne. }
  assert (dom (<[y:=kn]> k) = dom k) as Hdom'.
  { rewrite dom_insert_L. apply elem_of_dom in Hky. set_solver. }
  assert (∀ p, p ≠ y → inDegree (<[y:=kn]> k) p = inDegree k p) as Hne.
  { intros p ?. unfold inDegree. by rewrite lookup_insert_ne. }
  assert (inDegree (<[y:=kn]> k) y = kn_inDegree kn) as Hey.
  { unfold inDegree. by rewrite lookup_insert_eq. }
  split.
  - intros p Hkp%Hdom. by eapply (k_dom _ _ _ _ _ Hk).
  - intros c p Hc%Hdom _ Hcp. apply Hdom. by eapply (k_up _ _ _ _ _ Hk).
  - intros p. rewrite due_None, waiting_pop.
    assert (waiting ts (<[y:=kn]> k) D p = waiting ts k D p) as ->
      by (unfold waiting; by rewrite Hdom').
    pose proof (k_deg _ _ _ _ _ Hk p) as Hd.
    rewrite due_None in Hd. destruct (decide (p = y)) as [->|Hpy].
    + rewrite Hey, Hkn, size_difference by set_solver. rewrite size_singleton. lia.
    + rewrite Hne by done.
      assert (waiting ts k D p ∖ {[x]} ⊆ waiting ts k D p) as Hsub%subseteq_size by set_solver.
      lia.
  - intros p HpL'. destruct (HL p HpL') as [[HpL Hpx]|[-> Hd]].
    + destruct (k_leaves _ _ _ _ _ Hk p HpL) as (?&Hdp&?).
      assert (p ≠ y) by (intros ->; lia).
      rewrite Hdom, Hne by done. split_and!; [done..|set_solver].
    + rewrite Hdom, Hey. split_and!; [done..|].
      intros [->%elem_of_singleton|HyD]%elem_of_union; [done|].
      destruct (k_popped _ _ _ _ _ Hk y HyD) as [_ ?]. lia.
  - intros p [->%elem_of_singleton|HpD]%elem_of_union.
    + by rewrite Hdom, Hne.
    + destruct (k_popped _ _ _ _ _ Hk p HpD) as [? Hdp].
      assert (p ≠ y) by (intros ->; lia). by rewrite Hdom, Hne.
Qed.

(** Popping the head, which has no parent. *)
Lemma kahn_pop_head ts k D L x :
  kahn_inv ts None k D L → x ∈ L → kahn_inv ts None k ({[x]} ∪ D) (L ∖ {[x]}).
Proof.
  intros Hk HxL. destruct (k_leaves _ _ _ _ _ Hk x HxL) as (Hkx&Hdx&HxD). split.
  - apply Hk.
  - apply Hk.
  - intros p. pose proof (k_deg _ _ _ _ _ Hk p) as Hd.
    rewrite waiting_pop.
    assert (waiting ts k D p ∖ {[x]} ⊆ waiting ts k D p) as Hsub%subseteq_size by set_solver.
    lia.
  - intros p [HpL Hne]%elem_of_difference.
    destruct (k_leaves _ _ _ _ _ Hk p HpL) as (?&?&?). split_and!; [done..|set_solver].
  - intros p [->%elem_of_singleton|HpD]%elem_of_union; [done|]. by apply (k_popped _ _ _ _ _ Hk).
Qed.

(** The stack of votes: blocks with children, no block after one of its
    descendants. *)
Record stack_ok (ts : Topological) (D : gset ID) (st : list votes) : Prop := {
  st_popped : Forall (λ v, v_parentID v ∈ D) st;
  st_sb : Forall (λ v, ∃ n, ts_blocks ts !! v_parentID v = Some n ∧ is_Some (sb_sb n)) st;
  st_sorted : StronglySorted (λ v v', ¬ reach ts (v_parentID v) (v_parentID v')) st;
}.

Lemma stack_ok_push ts k D L st v :
  kahn_inv ts None k D L → v_parentID v ∈ L → stack_ok ts D st →
  stack_ok ts ({[v_parentID v]} ∪ D) (v :: st).
Proof.
  intros Hk Hv [Hp Hs Ho]. destruct (k_leaves _ _ _ _ _ Hk _ Hv) as (Hkv&_&HvD). split.
  - constructor; [set_solver|]. eapply Forall_impl; [exact Hp|]. simpl. set_solver.
  - constructor; [|done]. by apply (k_dom _ _ _ _ _ Hk).
  - constructor; [done|]. eapply Forall_impl; [exact Hp|]. simpl. intros v' Hv' Hr.
    by eapply (kahn_no_descendant ts k D L (v_parentID v') (v_parentID v)).
Qed.

Lemma stack_ok_mono ts D D' st : stack_ok ts D st → D ⊆ D' → stack_ok ts D' st.
Proof.
  intros [Hp Hs Ho] Hsub. split; [|done..]. eapply Forall_impl; [exact Hp|]. simpl. set_solver.
Qed.

Lemma push_loop_ok ts alpha fuel k D L st :
  inv ts → kahn_inv ts None k D L → stack_ok ts D st →
  (size (dom k) < fuel + size D)%nat →
  ∃ k' L' st' D', push_loop fuel (ts_world ts) (ts_blocks ts) alpha k L st = Ok (k', L', st') ∧
    stack_ok ts D' st'.
Proof.
  intros Hg. revert k D L st. induction fuel as [|fuel IH]; intros k D L st Hk Hst Hf.
  { assert (D ⊆ dom k) as Hsub%subseteq_size; [|lia].
    intros p Hp. apply elem_of_dom. by apply (k_popped _ _ _ _ _ Hk). }
  simpl. destruct (Set_Pop L) as [[x L']|] eqn:Hpop; [|by eauto 10].
  apply Set_Pop_Some in Hpop as [HxL ->].
  destruct (k_leaves _ _ _ _ _ Hk x HxL) as (Hkx&Hdx&HxD).
  destruct (k_dom _ _ _ _ _ Hk x Hkx) as (n&Hn&Hsb). rewrite Hn.
  set (st' := if decide _ then _ else st).
  assert (stack_ok ts ({[x]} ∪ D) st') as Hst'.
  { unfold st'. case_decide.
    - by apply (stack_ok_push ts k D L st (mkVotes x _)).
    - eapply stack_ok_mono; [done|set_solver]. }
  assert (size (dom k) < fuel + size ({[x]} ∪ D))%nat as Hf'.
  { rewrite size_union by set_solver. rewrite size_singleton. lia. }
  rewrite (inv_Accepted ts x n) by done.
  destruct (decide (x = ts_head ts)) as [->|Hh].
  { rewrite bool_decide_true by done. eapply IH; [|done|done]. by apply kahn_pop_head. }
  rewrite bool_decide_false by done.
  destruct (inv_block ts x n Hg Hn Hh) as (b&pn&->&_&_&Hp&Hpn&Hpc).
  set (y := blk_Parent b) in *. set (kn := mkKahnNode _ _).
  assert (is_Some (k !! y)) as Hky by (by eapply (k_up _ _ _ _ _ Hk)).
  eapply (IH _ ({[x]} ∪ D)); [|done|].
  - eapply kahn_pop; try done. intros p. case_decide as Hd.
    + intros [->%elem_of_singleton|Hin]%elem_of_union; [by right|set_solver].
    + set_solver.
  - assert (dom (<[y:=kn]> k) = dom k) as ->; [|done].
    rewrite dom_insert_L. apply elem_of_dom in Hky. set_solver.
Qed.

Lemma kahn_size ts k D L : kahn_inv ts None k D L → (size (dom k) ≤ size (ts_blocks ts))%nat.
Proof.
  intros Hk. rewrite <-(size_dom (ts_blocks ts)). apply subseteq_size. intros p Hp.
  apply elem_of_dom in Hp. apply elem_of_dom.
  destruct (k_dom _ _ _ _ _ Hk p Hp) as (n&->&_). eauto.
Qed.

(** The state is left alone, up to the scratch state of the sort. *)
Definition same_but_kahn (ts ts' : Topological) : Prop := ∃ k L, ts' = set_kahn k L ts.

(** Kahn's sort as [RecordPoll] runs it. *)
Lemma sort_ok voteBag ts :
  inv ts → ∃ ts' st D,
    (let? ts := Topological_calculateInDegree voteBag ts in Topological_pushVotes ts) =
      Ok (ts', st) ∧
    same_but_kahn ts ts' ∧ stack_ok ts D st.
Proof.
  intros Hg. unfold Topological_calculateInDegree.
  destruct (calculate_list_ok ts voteBag (Bag_List voteBag) ∅ ∅ Hg (kahn_empty ts)) as (k&L&->&Hk).
  cbn [result_bind]. unfold Topological_pushVotes.
  cbn [set_kahn ts_blocks ts_world ts_params ts_kahnNodes ts_leaves].
  destruct (push_loop_ok ts (Alpha (ts_params ts)) (S (size (ts_blocks ts))) k ∅ L [] Hg Hk)
    as (k'&L'&st&D'&->&Hst).
  - split; constructor.
  - pose proof (kahn_size _ _ _ _ Hk). rewrite size_empty. lia.
  - simpl. eexists _, st, D'. split_and!; [done| |done]. by exists k', L'.
Qed.

End vote.
