(* ===== verification/TopologicalSafety.v ===== *)
(** Safety of Snowman consensus ([snow/consensus/snowman/topological.go]).

    Every operation started in the invariant returns normally - no nil
    dereference, no unbounded loop, and no failing call on a virtual machine
    that relies only on blocks being decided in topological order - and ends in
    the invariant, having accepted a chain of blocks above the old head and
    decided every block it removed. *)

From S2P Require Import Prelude Ids Bag Snowball SnowballTree TreeSafety Topological.
From S2P Require Import TopologicalInv TopologicalVote.

Local Open Scope node_scope.

Section safety.
Context `{GoRange, ChainContext, !ChainLaws}.

Abbreviation inv := (ginv None []).
Abbreviation status ts id := (blk_Status (ts_world ts) id).

(** The invariant is about these fields only. *)
Lemma inv_fields ts ts' :
  ts_world ts' = ts_world ts → ts_params ts' = ts_params ts → ts_head ts' = ts_head ts →
  ts_blocks ts' = ts_blocks ts → ts_latency ts' = ts_latency ts → inv ts → inv ts'.
Proof.
  intros Ew Ep Eh Eb El [? ? ? ? ? ? ? ? ? ? ?]. split; rewrite ?Ew, ?Ep, ?Eh, ?Eb, ?El; done.
Qed.

(** ** Marking children as having to falter *)

Definition same_sb (m m' : gmap ID snowmanBlock) : Prop :=
  ∀ id, option_Forall2 (λ n n', sb_blk n' = sb_blk n ∧ sb_children n' = sb_children n ∧
                                sb_sb n' = sb_sb n) (m !! id) (m' !! id).

Lemma same_sb_refl m : same_sb m m.
Proof. intros id. destruct (m !! id); by constructor. Qed.

Lemma same_sb_trans m1 m2 m3 : same_sb m1 m2 → same_sb m2 m3 → same_sb m1 m3.
Proof.
  intros H12 H23 id. specialize (H12 id). specialize (H23 id).
  destruct H12 as [n1 n2 (?&?&?)|]; inv H23; constructor. destruct_and!. split_and!; congruence.
Qed.

Lemma same_sb_shape m m' : same_sb m m' → same_shape m m'.
Proof. intros Hs id. specialize (Hs id). destruct Hs; constructor. naive_solver. Qed.

Lemma falter_same m l tr nx : same_sb m (foldl (falter_child tr nx) m l).
Proof.
  revert m. induction l as [|c l IH]; intros m; [apply same_sb_refl|]. simpl.
  eapply same_sb_trans; [|apply IH]. unfold falter_child.
  destruct (_ && _); [apply same_sb_refl|].
  destruct (m !! c) as [n|] eqn:Hc; [|apply same_sb_refl].
  intros id. destruct (decide (id = c)) as [->|Hne].
  - rewrite lookup_insert_eq, Hc. by constructor.
  - rewrite lookup_insert_ne by done. destruct (m !! id); by constructor.
Qed.

Lemma inv_same_sb ts m : inv ts → same_sb (ts_blocks ts) m → inv (set_blocks m ts).
Proof.
  intros Hg Hs. apply inv_same_shape; [done|by apply same_sb_shape|]. intros id n' Hn'.
  specialize (Hs id). rewrite Hn' in Hs. inversion Hs as [n ? (?&E1&E2) Hn|]; subst.
  symmetry in Hn. pose proof (g_node _ _ _ Hg _ _ Hn) as Hok. unfold node_ok in *.
  by rewrite E1, E2.
Qed.

(** ** One vote *)

(** The snowball instance of [n] after the vote [v]. *)
Definition voted (v : votes) (n : snowmanBlock) (t : Tree) : Tree :=
  (Tree_RecordPoll (v_votes v)
     (if sb_shouldFalter n then Tree_RecordUnsuccessfulPoll t else t)).1.

(** The state once the snowball instance has recorded the vote. *)
Definition polled (v : votes) (n : snowmanBlock) (t : Tree) (ts : Topological) : Topological :=
  set_blocks (<[v_parentID v := set_sb (voted v n t) (set_shouldFalter false n)]>
                (ts_blocks ts)) ts.

Lemma inv_polled v n t ts :
  inv ts → ts_blocks ts !! v_parentID v = Some n → sb_sb n = Some t → inv (polled v n t ts).
Proof.
  intros Hg Hn Ht. apply inv_same_shape; [done|by eapply same_shape_insert|].
  intros id n'. destruct (decide (id = v_parentID v)) as [->|Hne].
  - rewrite lookup_insert_eq. intros [= <-]. pose proof (g_node _ _ _ Hg _ _ Hn) as Hok.
    unfold node_ok in *. rewrite Ht in Hok. simpl. unfold voted.
    pose proof (g_params _ _ _ Hg).
    apply tree_good_Poll; [done|]. destruct (sb_shouldFalter n); [|done].
    by apply tree_good_Unsuccessful.
  - rewrite lookup_insert_ne by done. apply Hg.
Qed.

Lemma vote_one_spec total v nextID np on ps ts n t :
  (total → ChainTotal) → inv ts → ts_blocks ts !! v_parentID v = Some n → sb_sb n = Some t →
  let ts0 := polled v n t ts in
  let pref := Tree_Preference (voted v n t) in
  safe total (vote_one v nextID np on ps ts) (λ r, ∃ ps' ts1 m,
    r = Some (if on then pref else np, on && bool_decide (nextID = pref), ps', set_blocks m ts1) ∧
    same_sb (ts_blocks ts1) m ∧ inv ts1 ∧
    (ts1 = ts0 ∨
     ts_head ts = v_parentID v ∧ ∃ child, sb_children n !! pref = Some child ∧
       blk_ID child = pref ∧ accepts ts0 child ts1)).
Proof.
  intros HT Hg Hn Ht. unfold vote_one. rewrite Hn, Ht. cbv zeta.
  destruct (Tree_RecordPoll (v_votes v) _) as [t' ok] eqn:Et.
  assert (voted v n t = t') as Ev by (unfold voted; by rewrite Et).
  assert (inv (polled v n t ts)) as Hg0 by by apply inv_polled.
  unfold polled in *. rewrite Ev in *. clear Et Ev.
  set (n' := set_sb t' (set_shouldFalter false n)) in *.
  set (ts0 := set_blocks _ ts) in *. change (ts_head ts0) with (ts_head ts).
  eapply (safe_bind _ _ _ (λ ts1, inv ts1 ∧ (ts1 = ts0 ∨ ts_head ts = v_parentID v ∧
     ∃ child, sb_children n !! Tree_Preference t' = Some child ∧
       blk_ID child = Tree_Preference t' ∧ accepts ts0 child ts1))).
  - destruct (Tree_Finalized t' && bool_decide (ts_head ts = v_parentID v)) eqn:E; simpl; [|auto].
    apply andb_prop in E as [_ Eh%bool_decide_eq_true].
    rewrite <-Eh. change (ts_head ts) with (ts_head ts0).
    eapply safe_mono; [apply (acceptPreferredChild_spec total n' t' ts0); try done|].
    + simpl. rewrite Eh. by rewrite lookup_insert_eq.
    + intros ts1 (child&Hc&Hid&Hacc). split; [by apply Hacc|]. right. split; [done|]. by exists child.
  - intros ts1 (Hg1&Hcase). simpl. eexists _, ts1, _. split; [done|].
    split_and!; [apply falter_same|done|done].
Qed.

(** What a vote leaves of the tree: some of its nodes, with the same blocks and
    children, and no fewer snowball instances; the head is the same or gone. *)
Record shrinks (ts ts' : Topological) : Prop := {
  sh_nodes : ∀ x n', ts_blocks ts' !! x = Some n' → ∃ n, ts_blocks ts !! x = Some n ∧
    sb_blk n' = sb_blk n ∧ sb_children n' = sb_children n ∧
    (is_Some (sb_sb n) → is_Some (sb_sb n'));
  sh_head : ts_head ts' = ts_head ts ∨ ts_blocks ts' !! ts_head ts = None;
}.

Lemma shrinks_trans ts ts' ts'' : shrinks ts ts' → shrinks ts' ts'' → shrinks ts ts''.
Proof.
  intros [N1 D1] [N2 D2]. split.
  - intros x n'' Hn''. destruct (N2 x n'' Hn'') as (n'&Hn'&?&?&?).
    destruct (N1 x n' Hn') as (n&Hn&?&?&?). exists n. split_and!; [done|congruence..|auto].
  - destruct (ts_blocks ts'' !! ts_head ts) as [n''|] eqn:E; [left|by right].
    destruct (N2 _ _ E) as (n'&Hn'&_). destruct D1 as [D1|D1]; [|congruence].
    destruct D2 as [D2|D2]; [congruence|]. rewrite D1 in D2. congruence.
Qed.

Lemma shrinks_same_sb ts m : same_sb (ts_blocks ts) m → shrinks ts (set_blocks m ts).
Proof.
  intros Hs. split; [|by left]. intros x n' Hn'. specialize (Hs x). simpl in Hn'.
  rewrite Hn' in Hs. inversion Hs as [n ? (?&?&E) Hn|]; subst. exists n. split_and!; try done.
  by rewrite E.
Qed.

Lemma shrinks_polled v n t ts :
  ts_blocks ts !! v_parentID v = Some n → shrinks ts (polled v n t ts).
Proof.
  intros Hn. split; [|by left]. intros x n'. simpl.
  destruct (decide (x = v_parentID v)) as [->|Hne].
  - rewrite lookup_insert_eq. intros [= <-]. exists n. split_and!; eauto.
  - rewrite lookup_insert_ne by done. intros Hx. by exists n'.
Qed.

Lemma shrinks_accepts ts child ts' : accepts ts child ts' → shrinks ts ts'.
Proof.
  intros Ha. split; [|right; apply Ha]. intros x n' Hn'. exists n'. split_and!; try done.
  eapply lookup_weaken; [done|apply Ha].
Qed.

Lemma shrinks_par ts ts' x y : shrinks ts ts' → par ts' x = Some y → par ts x = Some y.
Proof.
  intros [N D]. unfold par. case_decide as Hx; [done|].
  destruct (ts_blocks ts' !! x) as [n'|] eqn:E; [|done]. destruct (N x n' E) as (n&Hn&Hb&_).
  rewrite decide_False by (intros ->; destruct D; congruence). rewrite Hn. simpl. by rewrite Hb.
Qed.

Lemma shrinks_reach ts ts' x y : shrinks ts ts' → reach ts' x y → reach ts x y.
Proof.
  intros Hs. unfold reach. induction 1 as [|x z y Hxz _ IH]; [apply rtc_refl|].
  eapply rtc_l; [by eapply shrinks_par|done].
Qed.

(** The stack still to be processed. *)
Record todo_ok (ts : Topological) (st : list votes) : Prop := {
  td_sb : Forall (λ v, ∀ n, ts_blocks ts !! v_parentID v = Some n → is_Some (sb_sb n)) st;
  td_sorted : StronglySorted (λ v v', ¬ reach ts (v_parentID v) (v_parentID v')) st;
}.

Lemma todo_ok_shrinks ts ts' v st : todo_ok ts (v :: st) → shrinks ts ts' → todo_ok ts' st.
Proof.
  intros [Hsb Ho] Hs. apply Forall_cons in Hsb as [_ Hsb]. apply StronglySorted_inv in Ho as [Ho _].
  split.
  - eapply Forall_impl; [exact Hsb|]. simpl. intros v' Hv n' Hn'.
    destruct (sh_nodes _ _ Hs _ _ Hn') as (n&Hn&_&_&Hi). eauto.
  - clear Hsb. induction Ho as [|v' st Ho IH Hf]; constructor; [done|].
    eapply Forall_impl; [exact Hf|]. simpl. intros v'' Hr Hr'. apply Hr. by eapply shrinks_reach.
Qed.

(** Off the preferred branch the head is no longer voted on. *)
Definition off_ok (ts : Topological) (st : list votes) : Prop :=
  ∀ v st', st = v :: st' → is_Some (ts_blocks ts !! v_parentID v) →
    Forall (λ v', v_parentID v' ≠ ts_head ts) st.

(** No block that comes after a present block is the head. *)
Lemma todo_head ts v st :
  inv ts → todo_ok ts (v :: st) → is_Some (ts_blocks ts !! v_parentID v) →
  Forall (λ v', v_parentID v' ≠ ts_head ts) st.
Proof.
  intros Hg [_ Ho] Hv. apply StronglySorted_inv in Ho as [_ Hf].
  eapply Forall_impl; [exact Hf|]. simpl. intros v' Hr E. rewrite E in Hr.
  apply Hr. by apply reach_head.
Qed.

Lemma off_ok_next ts ts' v st pref :
  inv ts → inv ts' → shrinks ts ts' → todo_ok ts (v :: st) →
  is_Some (ts_blocks ts !! v_parentID v) →
  (ts_head ts' = ts_head ts ∨ ts_head ts' = pref) →
  match st with v' :: _ => v_parentID v' | [] => Empty end ≠ pref →
  off_ok ts' st.
Proof.
  intros Hg Hg' Hs Htd Hv Hh Hne v' st' -> Hv'. simpl in Hne.
  pose proof (todo_head ts v (v' :: st') Hg Htd Hv) as Hth.
  destruct Hh as [->|Hh]; [done|]. constructor; [congruence|].
  eapply todo_head; [done| |done]. by eapply todo_ok_shrinks.
Qed.

(** What the vote loop guarantees. *)
Record vote_post (ts : Topological) (np : ID) (ts' : Topological) : Prop := {
  vp_inv : inv ts';
  vp_np : is_Some (ts_blocks ts' !! np);
  vp_params : ts_params ts' = ts_params ts;
  vp_tail : ts_tail ts' = ts_tail ts;
  vp_preferred : ∀ id, id ∈ ts_preferredIDs ts' → id ∈ ts_preferredIDs ts ∧
    (reach ts (ts_head ts') id → id = ts_head ts);
  vp_shrinks : shrinks ts ts';
  vp_evolves : ∃ acc, evolves ts acc ts';
}.

Definition same_blk (m m' : gmap ID snowmanBlock) : Prop :=
  ∀ id, option_Forall2 (λ n n', sb_blk n' = sb_blk n) (m !! id) (m' !! id).

Lemma same_blk_refl m : same_blk m m.
Proof. intros id. destruct (m !! id); by constructor. Qed.

Lemma same_shape_blk m m' : same_shape m m' → same_blk m m'.
Proof. intros Hs id. destruct (Hs id) as [?? [? _]|]; by constructor. Qed.

Lemma evolves_same_fields ts ts' :
  ts_head ts' = ts_head ts → ts_world ts' = ts_world ts →
  same_blk (ts_blocks ts) (ts_blocks ts') → evolves ts [] ts'.
Proof.
  intros Hh Hw Hb. apply evolves_refl; [done|by rewrite Hw| |]; intros id; specialize (Hb id).
  - intros n Hn. rewrite Hn in Hb. inversion Hb; eauto.
  - intros Hn [n' Hn']. rewrite Hn, Hn' in Hb. inversion Hb.
Qed.

Lemma shrinks_refl ts : shrinks ts ts.
Proof. split; [eauto 10|by left]. Qed.

Lemma par_head ts : par ts (ts_head ts) = None.
Proof. unfold par. by rewrite decide_True. Qed.

Lemma reach_from_head ts y : reach ts (ts_head ts) y → y = ts_head ts.
Proof. intros Hr. inversion Hr as [|? z ? Hp]; subst; [done|]. by rewrite par_head in Hp. Qed.

(** An ancestor in the old tree is one in the new tree, or is above the new
    head. *)
Lemma shrinks_reach_split ts ts' x y :
  inv ts' → shrinks ts ts' → reach ts x y → is_Some (ts_blocks ts' !! x) →
  reach ts' x y ∨ reach ts (ts_head ts') y.
Proof.
  intros Hg' Hs. unfold reach. induction 1 as [|x z y Hxz Hzy IH]; [left; apply rtc_refl|].
  intros [n Hx]. destruct (decide (x = ts_head ts')) as [->|Hne].
  { right. by eapply rtc_l. }
  destruct (inv_block ts' x n Hg' Hx Hne) as (b&pn&_&_&_&Hp&Hpn&_).
  pose proof (shrinks_par _ _ _ _ Hs Hp) as Hp'. assert (z = blk_Parent b) as -> by congruence.
  destruct IH as [?|?]; [eauto| |by right]. left. by eapply rtc_l.
Qed.

Lemma vote_post_refl ts np : inv ts → is_Some (ts_blocks ts !! np) → vote_post ts np ts.
Proof.
  intros. split; try done; [|apply shrinks_refl|exists []; apply evolves_same_fields; [done..|apply same_blk_refl]].
  intros id ?. split; [done|]. exact (reach_from_head ts id).
Qed.

Lemma vote_post_trans ts np ts' np' ts'' :
  vote_post ts np ts' → vote_post ts' np' ts'' → vote_post ts np' ts''.
Proof.
  intros [I1 N1 P1 T1 R1 S1 [a1 E1]] [I2 N2 P2 T2 R2 S2 [a2 E2]].
  split; [done|done|congruence|congruence| |by eapply shrinks_trans|].
  - intros id Hid. destruct (R2 id Hid) as [Hid' Hr2]. destruct (R1 id Hid') as [? Hr1].
    split; [done|]. intros Hr.
    destruct (shrinks_reach_split ts ts' _ _ I1 S1 Hr) as [Hr'|Hr']; [|apply Hr1..].
    + destruct (g_head _ _ _ I2) as [n Hn]. destruct (sh_nodes _ _ S2 _ _ Hn) as (?&->&_). eauto.
    + rewrite (Hr2 Hr'). apply rtc_refl.
    + done.
  - exists (a1 ++ a2). by eapply evolves_trans.
Qed.

Lemma same_shape_is_Some m m' x : same_shape m m' → is_Some (m !! x) ↔ is_Some (m' !! x).
Proof. intros Hs. specialize (Hs x). destruct Hs; [|done]. split; eauto. Qed.

(** A vote on the snowball instance of a block, and the marks on its children. *)
Lemma vote_post_polled v n t ts np :
  inv ts → ts_blocks ts !! v_parentID v = Some n → sb_sb n = Some t →
  is_Some (ts_blocks ts !! np) → vote_post ts np (polled v n t ts).
Proof.
  intros Hg Hn Ht Hnp.
  assert (∀ x, is_Some (ts_blocks ts !! x) ↔ is_Some (ts_blocks (polled v n t ts) !! x)) as Hx.
  { intros x. apply same_shape_is_Some. by eapply same_shape_insert. }
  split; try done; [by apply inv_polled|by apply Hx| |by apply shrinks_polled|].
  - intros id ?. split; [done|]. exact (reach_from_head ts id).
  - exists []. apply evolves_same_fields; [done..|]. by eapply same_shape_blk, same_shape_insert.
Qed.

Lemma vote_post_same_sb ts m np :
  inv ts → same_sb (ts_blocks ts) m → is_Some (ts_blocks ts !! np) →
  vote_post ts np (set_blocks m ts).
Proof.
  intros Hg Hm Hnp. pose proof (λ x, same_shape_is_Some _ _ x (same_sb_shape _ _ Hm)) as Hx.
  split; try done; [by apply inv_same_sb|by apply Hx| |by apply shrinks_same_sb|].
  - intros id ?. split; [done|]. exact (reach_from_head ts id).
  - exists []. apply evolves_same_fields; [done..|]. by apply same_shape_blk, same_sb_shape.
Qed.

Lemma vote_post_accepts ts child ts' :
  par ts (blk_ID child) = Some (ts_head ts) → accepts ts child ts' →
  vote_post ts (blk_ID child) ts'.
Proof.
  intros Hp Ha. pose proof (ac_evolves _ _ _ Ha) as Hev. pose proof (ac_inv _ _ _ Ha) as Hg'.
  destruct (ev_chain _ _ _ Hev) as [_ Hh]. simpl in Hh.
  split; [done| |apply Ha|apply Ha| | |].
  - rewrite Hh. exact (g_head _ _ _ Hg').
  - rewrite (ac_preferred _ _ _ Ha), <-Hh. intros id [Hid Hne]%elem_of_difference.
    split; [done|]. intros Hr. inversion Hr as [|? z ? Hz Hr']; subst; [set_solver|].
    rewrite Hp in Hz. injection Hz as <-. by apply reach_from_head.
  - by eapply shrinks_accepts.
  - eauto.
Qed.

(** The preference of a block with children is one of its children. *)
Lemma pref_child ts x n t :
  inv ts → ts_blocks ts !! x = Some n → sb_sb n = Some t →
  par ts (Tree_Preference t) = Some x ∧ ∃ cn, ts_blocks ts !! Tree_Preference t = Some cn.
Proof.
  intros Hg Hn Ht. pose proof (g_node _ _ _ Hg _ _ Hn) as Hok. unfold node_ok in Hok.
  rewrite Ht in Hok. apply tree_good_Preference, elem_of_dom in Hok as [b Hb].
  destruct (g_child _ _ _ Hg x n _ b Hn ltac:(done) Hb) as (Hh&_&_&Hpar&cn&Hcn&Hcb).
  split; [|eauto]. unfold par. rewrite decide_False by done. rewrite Hcn. simpl. rewrite Hcb.
  simpl. by rewrite Hpar.
Qed.

(** One round of the vote loop. *)
Lemma vote_one_post total v nextID np on ps ts n t :
  (total → ChainTotal) → inv ts → ts_blocks ts !! v_parentID v = Some n → sb_sb n = Some t →
  is_Some (ts_blocks ts !! np) → (on = false → ts_head ts ≠ v_parentID v) →
  let pref := Tree_Preference (voted v n t) in
  let np' := if on then pref else np in
  safe total (vote_one v nextID np on ps ts) (λ r, ∃ ps' ts',
    r = Some (np', on && bool_decide (nextID = pref), ps', ts') ∧ vote_post ts np' ts' ∧
    (ts_head ts' = ts_head ts ∨ on = true ∧ ts_head ts' = pref)).
Proof.
  intros HT Hg Hn Ht Hnp Hoff pref np'.
  eapply safe_mono; [by apply (vote_one_spec total v nextID np on ps ts n t)|].
  intros r (ps'&ts1&m&->&Hm&Hg1&Hcase). exists ps', (set_blocks m ts1). split; [done|].
  assert (inv (polled v n t ts)) as Hg0 by by apply inv_polled.
  assert (is_Some (ts_blocks ts !! np')) as Hnp'.
  { unfold np'. destruct on; [|done].
    destruct (pref_child _ (v_parentID v) _ (voted v n t) Hg0 (lookup_insert_eq _ _ _) eq_refl)
      as (_&cn&Hcn).
    destruct (sh_nodes _ _ (shrinks_polled v n t ts Hn) _ _ Hcn) as (n0&Hn0&_).
    by exists n0. }
  pose proof (vote_post_polled v n t ts np' Hg Hn Ht Hnp') as Hpost0.
  destruct Hcase as [->|(Hh&child&Hc&Hid&Hacc)].
  - split; [|by left]. eapply vote_post_trans; [done|].
    apply vote_post_same_sb; [done..|]. exact (vp_np _ _ _ Hpost0).
  - destruct on; [|by destruct Hoff].
    destruct (pref_child _ (v_parentID v) _ (voted v n t) Hg0 (lookup_insert_eq _ _ _) eq_refl)
      as (Hp&_).
    pose proof (vote_post_accepts _ child ts1 ltac:(rewrite Hid, Hp; simpl; congruence) Hacc) as Hpost1.
    rewrite Hid in Hpost1.
    split; [|right; split; [done|]].
    + eapply vote_post_trans; [done|]. eapply vote_post_trans; [done|].
      apply vote_post_same_sb; [done..|]. exact (vp_np _ _ _ Hpost1).
    + destruct (ev_chain _ _ _ (ac_evolves _ _ _ Hacc)) as [_ E].
      simpl in E. etrans; [symmetry; exact E|exact Hid].
Qed.

Lemma vote_loop_spec total st np on ps ts :
  (total → ChainTotal) → inv ts → todo_ok ts st → is_Some (ts_blocks ts !! np) →
  (on = false → off_ok ts st) →
  safe total (vote_loop st np on ps ts) (λ r, vote_post ts r.1.1 r.2).
Proof.
  intros HT. revert np on ps ts.
  induction st as [|v st IH]; intros np on ps ts Hg Htd Hnp Hoff.
  { by apply vote_post_refl. }
  cbn [vote_loop]. set (nextID := match st with v' :: _ => _ | [] => _ end).
  destruct (ts_blocks ts !! v_parentID v) as [n|] eqn:Hn.
  2:{ unfold vote_one. rewrite Hn. by apply vote_post_refl. }
  assert (is_Some (sb_sb n)) as [t Ht].
  { pose proof (td_sb _ _ Htd) as Hf. apply Forall_cons in Hf as [Hf _]. by apply Hf. }
  assert (on = false → Forall (λ v', v_parentID v' ≠ ts_head ts) (v :: st)) as Hne
    by (intros E; by eapply Hoff).
  eapply safe_bind; [apply (vote_one_post total v nextID np on ps ts n t); try done|].
  { intros E. specialize (Hne E). apply Forall_cons in Hne as [? _]. congruence. }
  intros r (ps'&ts'&->&Hpost&Hh). pose proof (vp_inv _ _ _ Hpost) as Hg'.
  eapply safe_mono; [apply IH; [done| |exact (vp_np _ _ _ Hpost)|]|].
  - eapply todo_ok_shrinks; [done|apply Hpost].
  - destruct on; simpl.
    + intros Hp%bool_decide_eq_false.
      eapply (off_ok_next ts ts' v st); [done..|apply Hpost|done|eauto| |exact Hp].
      destruct Hh as [?|[_ ?]]; auto.
    + intros _ v' st' E Hv'. destruct Hh as [->|[[=] _]].
      specialize (Hne eq_refl). by apply Forall_cons in Hne as [_ ?].
  - intros [[np' ps''] ts''] Hpost'. by eapply vote_post_trans.
Qed.

Lemma vote_post_polls ts np p : vote_post ts np ts → vote_post ts np (set_polls p ts).
Proof.
  intros [I1 N1 P1 T1 R1 S1 E1]. split; try done; [by apply (inv_fields ts)| |].
  - destruct S1 as [??]. by split.
  - exists []. apply evolves_same_fields; [done..|apply same_blk_refl].
Qed.

Lemma vote_spec total st D ts :
  (total → ChainTotal) → inv ts → stack_ok ts D st → is_Some (ts_blocks ts !! ts_tail ts) →
  safe total (Topological_vote st ts) (λ r, vote_post ts r.1 r.2).
Proof.
  intros HT Hg Hst Htail. destruct st as [|v st].
  - simpl. destruct (g_head _ _ _ Hg) as [n Hn]. rewrite Hn.
    assert (same_sb (ts_blocks ts) (<[ts_head ts:=set_shouldFalter true n]> (ts_blocks ts))) as Hs.
    { intros id. destruct (decide (id = ts_head ts)) as [->|Hne].
      - rewrite lookup_insert_eq, Hn. by constructor.
      - rewrite lookup_insert_ne by done. destruct (ts_blocks ts !! id); by constructor. }
    pose proof (vote_post_same_sb ts _ (ts_tail ts) Hg Hs Htail) as Hpost.
    case_decide; simpl; [|done]. eapply vote_post_trans; [done|].
    apply vote_post_polls, vote_post_refl; [exact (vp_inv _ _ _ Hpost)|exact (vp_np _ _ _ Hpost)].
  - unfold Topological_vote.
    eapply safe_bind; [apply vote_loop_spec; try done|].
    + split; [|apply Hst]. eapply Forall_impl; [exact (st_sb _ _ _ Hst)|]. simpl.
      intros v' (n&Hn&Hsb) n' Hn'. congruence.
    + exact (g_head _ _ _ Hg).
    + intros [[np ps] ts'] Hpost. simpl in *. eapply vote_post_trans; [done|].
      apply vote_post_polls, vote_post_refl; [exact (vp_inv _ _ _ Hpost)|exact (vp_np _ _ _ Hpost)].
Qed.

(** ** The preferred branch *)

Lemma mark_preferred_ok ts rank fuel x n s :
  inv ts → (∀ x y, par ts x = Some y → (rank y < rank x)%nat) →
  ts_blocks ts !! x = Some n → (depth rank (ts_blocks ts) x < fuel)%nat →
  ∃ s', mark_preferred fuel (ts_world ts) (ts_blocks ts) n s = Ok s' ∧
    ∀ id, id ∈ s' → id ∈ s ∨ id ≠ ts_head ts ∧ reach ts x id.
Proof.
  intros Hg Hr. revert x n s. induction fuel as [|fuel IH]; intros x n s Hn Hf; [lia|].
  simpl. rewrite (inv_Accepted ts x n) by done.
  destruct (decide (x = ts_head ts)) as [->|Hh]; [rewrite bool_decide_true by done; eauto|].
  rewrite bool_decide_false by done.
  destruct (inv_block ts x n Hg Hn Hh) as (b&pn&->&Hid&_&Hp&Hpn&Hpc). rewrite Hpn.
  destruct (IH (blk_Parent b) pn ({[blk_ID b]} ∪ s)) as (s'&->&Hs'); [done| |].
  { pose proof (depth_lt rank _ _ _ _ Hpn (Hr _ _ Hp)). lia. }
  exists s'. split; [done|]. intros id Hin.
  destruct (Hs' id Hin) as [[->%elem_of_singleton|?]%elem_of_union|[??]].
  - right. rewrite Hid. split; [done|apply rtc_refl].
  - by left.
  - right. split; [done|]. by eapply rtc_l.
Qed.

(** How many blocks may lie above a block. *)
Definition above (rank : ID → nat) (m : gmap ID snowmanBlock) (x : ID) : nat :=
  size (filter (λ p, (rank x < rank p.1)%nat) m).

Lemma above_lt rank m x y n :
  m !! y = Some n → (rank x < rank y)%nat → (above rank m y < above rank m x)%nat.
Proof.
  intros Hy Hr. unfold above. apply map_subset_size, map_subset_alt. split.
  - apply map_subseteq_spec. intros i v [Hi Hlt]%map_lookup_filter_Some.
    apply map_lookup_filter_Some. simpl in *. split; [done|lia].
  - exists y. rewrite map_lookup_filter_None. split; [right; simpl; lia|].
    exists n. by apply map_lookup_filter_Some.
Qed.

Lemma above_size rank m x : (above rank m x ≤ size m)%nat.
Proof. unfold above. apply map_subseteq_size, map_filter_subseteq. Qed.

Lemma extend_preferred_ok ts rank fuel x n s :
  inv ts → (∀ x y, par ts x = Some y → (rank y < rank x)%nat) →
  ts_blocks ts !! x = Some n → (above rank (ts_blocks ts) x ≤ fuel)%nat →
  ∃ tl s', extend_preferred fuel (ts_blocks ts) n x s = Ok (tl, s') ∧
    is_Some (ts_blocks ts !! tl) ∧ reach ts tl x ∧
    ∀ id, id ∈ s' → id ∈ s ∨ id ≠ ts_head ts ∧ reach ts tl id.
Proof.
  intros Hg Hr. revert x n s. induction fuel as [|fuel IH]; intros x n s Hn Hf; simpl;
    (destruct (sb_sb n) as [t|] eqn:Ht;
     [|eexists x, s; split_and!; [done|eauto|apply rtc_refl|by left]]);
    destruct (pref_child ts x n t Hg Hn Ht) as (Hp&cn&Hcn);
    pose proof (above_lt rank _ _ _ _ Hcn (Hr _ _ Hp)); [lia|].
  rewrite Hcn. destruct (IH (Tree_Preference t) cn ({[Tree_Preference t]} ∪ s))
    as (tl&s'&->&Htl&Hrt&Hs'); [done|lia|].
  exists tl, s'. split_and!; [done..|by eapply rtc_r|].
  intros id Hin. destruct (Hs' id Hin) as [[->%elem_of_singleton|?]%elem_of_union|?]; auto.
  right. split; [|done]. intros E. by rewrite E, par_head in Hp.
Qed.

(** ** The invariant of the whole component *)

(** The tail is in the tree and every preferred block is a processing ancestor of
    it. *)
Record topo_inv (ts : Topological) : Prop := {
  ti_inv : inv ts;
  ti_tail : is_Some (ts_blocks ts !! ts_tail ts);
  ti_preferred : ∀ id, id ∈ ts_preferredIDs ts → id ≠ ts_head ts ∧ reach ts (ts_tail ts) id;
}.

(** The descendants of a block that is still in the tree are still in the tree. *)
Lemma shrinks_below ts ts' x y :
  inv ts → inv ts' → shrinks ts ts' → reach ts x y → is_Some (ts_blocks ts' !! y) →
  is_Some (ts_blocks ts' !! x) ∧ reach ts' x y.
Proof.
  intros Hg Hg' Hs. unfold reach. induction 1 as [|x z y Hxz Hzy IH]; [split; [done|apply rtc_refl]|].
  intros Hy. destruct (IH Hy) as [[nz' Hz'] Hr]. clear IH.
  destruct (par_Some ts x z Hg Hxz) as (_&n&b&pn&Hn&Hb&_&Hpn&Hc).
  destruct (sh_nodes _ _ Hs _ _ Hz') as (nz&Hnz&_&Hch&_). assert (nz = pn) as -> by congruence.
  rewrite <-Hch in Hc.
  destruct (g_child _ _ _ Hg' z nz' x b Hz' ltac:(done) Hc) as (Hh&_&_&Hpar&cn&Hcn&Hcb).
  split; [eauto|]. eapply rtc_l; [|exact Hr]. unfold par. rewrite decide_False by done.
  rewrite Hcn. simpl. rewrite Hcb. simpl. by rewrite Hpar.
Qed.

Lemma setPreferred_ok ts np ts' :
  topo_inv ts → vote_post ts np ts' →
  ∃ s tl, Topological_setPreferred np ts' = Ok (set_preferred s tl ts') ∧
    topo_inv (set_preferred s tl ts').
Proof.
  intros [Hg Htl Hpref] Hpost. pose proof (vp_inv _ _ _ Hpost) as Hg'.
  assert (∀ s tl, inv (set_preferred s tl ts')) as Hgs by (intros; by apply (inv_fields ts')).
  unfold Topological_setPreferred. case_decide as Hin.
  - exists (ts_preferredIDs ts'), (ts_tail ts'). split; [by destruct ts'|].
    pose proof (vp_shrinks _ _ _ Hpost) as Hs.
    assert (∀ id, id ∈ ts_preferredIDs ts' →
      reach ts (ts_tail ts) id ∧ ¬ reach ts (ts_head ts') id) as Hp'.
    { intros id Hid. destruct (vp_preferred _ _ _ Hpost id Hid) as [Hid' Hr].
      destruct (Hpref id Hid'). split; [done|]. auto. }
    destruct (Hp' np Hin) as [Hnp _].
    destruct (shrinks_below ts ts' (ts_tail ts) np Hg Hg' Hs Hnp (vp_np _ _ _ Hpost)) as [Htl' _].
    split; [done| |]; simpl; rewrite (vp_tail _ _ _ Hpost); [done|].
    intros id Hid. destruct (Hp' id Hid) as [Hr Hnr]. split.
    + intros ->. apply Hnr, rtc_refl.
    + by destruct (shrinks_reach_split ts ts' _ _ Hg' Hs Hr Htl').
  - destruct (vp_np _ _ _ Hpost) as [n Hn]. rewrite Hn. destruct (inv_rank ts' Hg') as [rank Hr].
    destruct (mark_preferred_ok ts' rank (S (size (ts_blocks ts'))) np n ∅ Hg' Hr Hn)
      as (up&->&Hup); [pose proof (depth_size rank _ _ _ Hn); lia|]. cbn [result_bind].
    destruct (extend_preferred_ok ts' rank (S (size (ts_blocks ts'))) np n up Hg' Hr Hn)
      as (tl&s&->&Htl'&Hrt&Hs); [pose proof (above_size rank (ts_blocks ts') np); lia|].
    exists s, tl. split; [done|]. split; [done|done|]. simpl. intros id Hid.
    destruct (Hs id Hid) as [Hi|Hi]; [|done]. destruct (Hup id Hi) as [?|[??]]; [set_solver|].
    split; [done|]. unfold reach in *. by etrans.
Qed.

(** ** RecordPoll *)

Lemma evolves_set_preferred ts acc ts' s tl :
  evolves ts acc ts' → evolves ts acc (set_preferred s tl ts').
Proof. intros [????????]. by split. Qed.

Lemma topo_inv_fields ts ts' :
  ts_world ts' = ts_world ts → ts_params ts' = ts_params ts → ts_head ts' = ts_head ts →
  ts_blocks ts' = ts_blocks ts → ts_latency ts' = ts_latency ts → ts_tail ts' = ts_tail ts →
  ts_preferredIDs ts' = ts_preferredIDs ts → topo_inv ts → topo_inv ts'.
Proof.
  intros Ew Ep Eh Eb El Et Er [Hg Htl Hp]. split; rewrite ?Et, ?Eb, ?Er, ?Eh; [|done|].
  - by apply (inv_fields ts).
  - intros id Hid. destruct (Hp id Hid) as [? Hr]. split; [done|].
    eapply rtc_subrel; [|exact Hr]. intros x y. unfold par. by rewrite Eb, Eh.
Qed.

Lemma RecordPoll_spec total voteBag ts :
  (total → ChainTotal) → topo_inv ts →
  safe total (Topological_RecordPoll voteBag ts) (λ ts', topo_inv ts' ∧
    ts_params ts' = ts_params ts ∧ ∃ acc, evolves ts acc ts').
Proof.
  intros HT Hti. unfold Topological_RecordPoll. cbv zeta.
  set (ts1 := set_pollNumber _ ts).
  assert (topo_inv ts1) as Hti1 by by apply (topo_inv_fields ts).
  assert (∃ ts2 st D, (if decide (Alpha (ts_params ts1) ≤ Bag_Len voteBag)
     then let? ts := Topological_calculateInDegree voteBag ts1 in Topological_pushVotes ts
     else Ok (ts1, [])) = Ok (ts2, st) ∧ same_but_kahn ts1 ts2 ∧ stack_ok ts1 D st)
    as (ts2&st&D&->&(k&L&->)&Hst).
  { case_decide; [by apply sort_ok; apply Hti1|]. exists ts1, [], ∅. split_and!; [done| |].
    - exists (ts_kahnNodes ts1), (ts_leaves ts1). by destruct ts1.
    - by split; constructor. }
  cbn [result_bind]. set (ts2 := set_kahn k L ts1).
  assert (topo_inv ts2) as Hti2 by by apply (topo_inv_fields ts1).
  assert (stack_ok ts2 D st) as Hst2 by (destruct Hst; by split).
  eapply safe_bind; [exact (vote_spec total st D ts2 HT (ti_inv _ Hti2) Hst2 (ti_tail _ Hti2))|].
  intros [np ts3] Hpost. simpl in Hpost.
  destruct (setPreferred_ok ts2 np ts3 Hti2 Hpost) as (s&tl&->&Hti'). simpl.
  split; [done|]. split; [apply (vp_params _ _ _ Hpost)|].
  destruct (vp_evolves _ _ _ Hpost) as [acc Hev]. exists acc.
  apply evolves_set_preferred. destruct Hev. by split.
Qed.


(** ** Add *)

Lemma Add_duplicate blk ts :
  Topological_Decided blk ts || Topological_Processing (blk_ID blk) ts = true →
  Topological_Add blk ts = Err errDuplicateAdd.
Proof. intros E. unfold Topological_Add. by rewrite E. Qed.

(** A block that is neither decided nor processing is not in the tree. *)
Lemma new_block_fresh blk ts :
  inv ts → Topological_Decided blk ts || Topological_Processing (blk_ID blk) ts = false →
  ts_blocks ts !! blk_ID blk = None ∧ blk_ID blk ≠ ts_head ts ∧
  Status_Decided (status ts (blk_ID blk)) = false.
Proof.
  intros Hg [Hd Hp]%orb_false_elim. unfold Topological_Decided in Hd.
  destruct (Status_Decided (status ts (blk_ID blk))) eqn:E; [done|].
  assert (blk_ID blk ≠ ts_head ts) as Hne.
  { intros Heq. by rewrite Heq, (g_head_status _ _ _ Hg) in E. }
  unfold Topological_Processing in Hp. rewrite decide_False in Hp by done.
  apply bool_decide_eq_false in Hp. split_and!; [|done..]. by apply eq_None_not_Some.
Qed.

Section add.
Context (blk : Block) (ts : Topological) (pn : snowmanBlock) (lat : gmap ID Z).
Context (Hg : inv ts) (Hpn : ts_blocks ts !! blk_Parent blk = Some pn).
Context (Hfresh : ts_blocks ts !! blk_ID blk = None) (Hh : blk_ID blk ≠ ts_head ts).
Context (Hst : status ts (blk_ID blk) = Processing).
Context (Hlat : ∀ id, is_Some (lat !! id) ↔ id = blk_ID blk ∨ is_Some (ts_latency ts !! id)).

Abbreviation pn' := (snowmanBlock_AddChild (ts_params ts) blk pn).
Abbreviation new := (mkSnowmanBlock (Some blk) false None ∅).
Definition added_blocks : gmap ID snowmanBlock :=
  <[blk_ID blk := new]> (<[blk_Parent blk := pn']> (ts_blocks ts)).
Definition added_ts : Topological := set_blocks added_blocks (set_latency lat ts).

Lemma add_parent_ne : blk_ID blk ≠ blk_Parent blk.
Proof. intros E. rewrite E in Hfresh. congruence. Qed.

Lemma added_lookup id :
  added_blocks !! id =
  if decide (id = blk_ID blk) then Some new
  else if decide (id = blk_Parent blk) then Some pn' else ts_blocks ts !! id.
Proof.
  unfold added_blocks. destruct (decide (id = blk_ID blk)) as [->|?]; [by rewrite lookup_insert_eq|].
  rewrite lookup_insert_ne by done.
  destruct (decide (id = blk_Parent blk)) as [->|?]; [by rewrite lookup_insert_eq|].
  by rewrite lookup_insert_ne.
Qed.

(** An old node keeps its block and its children. *)
Lemma added_old id n :
  ts_blocks ts !! id = Some n →
  id ≠ blk_ID blk ∧ ∃ n', added_blocks !! id = Some n' ∧ sb_blk n' = sb_blk n ∧
    ∀ c, c ≠ blk_ID blk → sb_children n' !! c = sb_children n !! c.
Proof.
  intros Hn. assert (id ≠ blk_ID blk) as Hne by (intros ->; congruence). split; [done|].
  rewrite added_lookup, decide_False by done. case_decide as Hp; [|by exists n].
  exists pn'. assert (n = pn) as -> by congruence. split_and!; [done..|].
  intros c Hc. simpl. by rewrite lookup_insert_ne.
Qed.

(** A node of the extended tree is the new one or an old one; the only new child
    is the new block, below its parent. *)
Lemma added_inv id n' :
  added_blocks !! id = Some n' →
  id = blk_ID blk ∧ n' = new ∨
  id ≠ blk_ID blk ∧ ∃ n, ts_blocks ts !! id = Some n ∧ sb_blk n' = sb_blk n ∧
    ∀ c b, sb_children n' !! c = Some b →
      c = blk_ID blk ∧ b = blk ∧ id = blk_Parent blk ∨ sb_children n !! c = Some b.
Proof.
  rewrite added_lookup. case_decide as Hi; [intros [= <-]; by left|]. intros Hn'. right.
  split; [done|]. case_decide as Hp; [|exists n'; split_and!; [done..|by right]].
  injection Hn' as <-. exists pn. subst. split_and!; [done..|]. intros c b. simpl.
  destruct (decide (c = blk_ID blk)) as [->|Hc].
  - rewrite lookup_insert_eq. intros [= ->]. by left.
  - rewrite lookup_insert_ne by done. by right.
Qed.

Lemma add_node_ok : node_ok (ts_params ts) pn'.
Proof.
  pose proof (g_node _ _ _ Hg _ _ Hpn) as Hok. pose proof (g_params _ _ _ Hg) as Hv.
  unfold node_ok in *. simpl. rewrite dom_insert_L. destruct (sb_sb pn) as [t|].
  - by apply tree_good_Add.
  - eapply tree_good_mono; [by apply tree_good_init|]. set_solver.
Qed.

Lemma added_ts_inv : inv added_ts.
Proof.
  pose proof add_parent_ne as Hpne. split; simpl.
  - apply Hg.
  - destruct (g_head _ _ _ Hg) as [n Hn]. destruct (added_old _ _ Hn) as (_&n'&->&_). eauto.
  - intros n' b Hn' Hb. destruct (added_inv _ _ Hn') as [[? _]|(_&n&Hn&E&_)]; [congruence|].
    eapply g_head_id; [done..|congruence].
  - apply Hg.
  - intros id n' Hn' Hne _. destruct (added_inv _ _ Hn') as [[-> ->]|(Hi&n&Hn&E&_)].
    + exists blk. split_and!; [done..|]. exists pn'. rewrite added_lookup.
      rewrite decide_False, decide_True by done. split; [done|]. simpl. by rewrite lookup_insert_eq.
    + destruct (inv_block ts id n Hg Hn Hne) as (b&pn1&Hb&Hid&Hs&_&Hpn1&Hc).
      destruct (added_old _ _ Hpn1) as (_&pn1'&Hpn1'&_&Hch).
      exists b. split_and!; [congruence|done..|]. exists pn1'. split; [done|].
      by rewrite Hch.
  - intros id n' c b Hn' _ Hc. destruct (added_inv _ _ Hn') as [[-> ->]|(Hi&n&Hn&_&Hch)].
    { simpl in Hc. by rewrite lookup_empty in Hc. }
    destruct (Hch c b Hc) as [(->&->&->)|Hc'].
    + split_and!; [done|apply not_elem_of_nil|done..|]. exists new.
      rewrite added_lookup, decide_True by done. done.
    + destruct (g_child _ _ _ Hg id n c b Hn ltac:(done) Hc') as (?&?&?&?&cn&Hcn&Hcb).
      destruct (added_old _ _ Hcn) as (_&cn'&Hcn'&E&_). split_and!; [done..|].
      exists cn'. split; [done|congruence].
  - intros id n'. rewrite added_lookup. repeat case_decide.
    + by intros [= <-].
    + intros [= <-]. apply add_node_ok.
    + apply Hg.
  - destruct (g_rank _ _ _ Hg) as [rank Hr].
    exists (λ x, if decide (x = blk_ID blk) then S (rank (blk_Parent blk)) else rank x).
    intros id n' b Hn' Hne _ Hb. destruct (added_inv _ _ Hn') as [[-> ->]|(Hi&n&Hn&E&_)].
    + injection Hb as <-. rewrite decide_False, decide_True by done. lia.
    + rewrite E in Hb. rewrite (decide_False (P := id = _)) by done.
      destruct (inv_block ts id n Hg Hn Hne) as (b'&pn1&Hb'&_&_&_&Hpn1&_).
      assert (b' = b) as -> by congruence.
      rewrite decide_False by (intros E'; congruence). by eapply Hr.
  - split; [constructor|]. intros id Hi. by apply not_elem_of_nil in Hi.
  - done.
  - intros id. rewrite Hlat, (g_latency _ _ _ Hg id), added_lookup.
    destruct (decide (id = blk_ID blk)) as [->|Hi].
    + split; [|by left]. intros _. split_and!; [eauto|done|apply not_elem_of_nil|done].
    + destruct (decide (id = blk_Parent blk)) as [->|Hp]; [|naive_solver].
      rewrite Hpn. split; [intros [?|(_&?)]; [done|split; eauto]|].
      intros (_&?). right. split; eauto.
Qed.
End add.

(** Ancestors stay ancestors when the tree is extended. *)
Lemma reach_extended ts ts' x y :
  ts_head ts' = ts_head ts →
  (∀ id n, ts_blocks ts !! id = Some n →
    ∃ n', ts_blocks ts' !! id = Some n' ∧ sb_blk n' = sb_blk n) →
  reach ts x y → reach ts' x y.
Proof.
  intros Hh Hb Hr. eapply rtc_subrel; [|exact Hr]. intros a b Hp. unfold par in *. rewrite Hh.
  case_decide; [done|]. destruct (ts_blocks ts !! a) as [n|] eqn:Hn; [|done].
  destruct (Hb _ _ Hn) as (n'&->&E). simpl. by rewrite E.
Qed.

(** What [Add] guarantees of a block that has been fetched and whose parent, when
    it is not in the tree, has been decided. *)
Record add_post (blk : Block) (ts ts' : Topological) : Prop := {
  ad_inv : topo_inv ts';
  ad_params : ts_params ts' = ts_params ts;
  ad_evolves : evolves ts [] ts';
  ad_issued : is_Some (ts_blocks ts !! blk_Parent blk) →
    Topological_Processing (blk_ID blk) ts' = true;
  ad_pruned : ts_blocks ts !! blk_Parent blk = None → status ts' (blk_ID blk) = Rejected;
}.

Lemma Add_spec total blk ts :
  (total → ChainTotal) → topo_inv ts →
  status ts (blk_ID blk) ≠ Unknown →
  (ts_blocks ts !! blk_Parent blk = None →
     Status_Decided (status ts (blk_Parent blk)) = true) →
  Topological_Decided blk ts || Topological_Processing (blk_ID blk) ts = false →
  safe total (Topological_Add blk ts) (add_post blk ts).
Proof.
  intros HT [Hg Htl Hpref] Hun Hpar Hnew. unfold Topological_Add. rewrite Hnew.
  destruct (new_block_fresh _ _ Hg Hnew) as (Hfresh&Hh&Hnd).
  assert (status ts (blk_ID blk) = Processing) as Hst by (by destruct (status ts (blk_ID blk))).
  cbn [set_latency ts_blocks ts_world ts_params ts_tail ts_preferredIDs ts_latency].
  destruct (ts_blocks ts !! blk_Parent blk) as [pn|] eqn:Hpn.
  - unfold latency_Issued. set (lat := <[blk_ID blk:=_]> (ts_latency ts)). simpl.
    assert (∀ id, is_Some (lat !! id) ↔ id = blk_ID blk ∨ is_Some (ts_latency ts !! id)) as Hlat.
    { intros id. unfold lat. destruct (decide (id = blk_ID blk)) as [->|?].
      - rewrite lookup_insert_eq. split; [by left|eauto].
      - rewrite lookup_insert_ne by done. naive_solver. }
    pose proof (added_ts_inv blk ts pn lat Hg Hpn Hfresh Hh Hst Hlat) as Hg'.
    set (ts' := added_ts blk ts pn lat) in *.
    assert (∀ id n, ts_blocks ts !! id = Some n →
      ∃ n', ts_blocks ts' !! id = Some n' ∧ sb_blk n' = sb_blk n) as Hold.
    { intros id n Hn. destruct (added_old blk ts pn Hpn Hfresh id n Hn) as (_&n'&?&?&_). eauto. }
    assert (is_Some (ts_blocks ts' !! blk_ID blk)) as Hin.
    { simpl. rewrite added_lookup, decide_True by done. eauto. }
    assert (par ts' (blk_ID blk) = Some (blk_Parent blk)) as Hp'.
    { unfold par. rewrite decide_False by done. simpl.
      by rewrite added_lookup, decide_True. }
    assert (∀ s tl, is_Some (ts_blocks ts' !! tl) →
      (∀ id, id ∈ s → id ≠ ts_head ts ∧ reach ts' tl id) →
      add_post blk ts (set_preferred s tl ts')) as Hpost.
    { intros s tl Htl' Hs. split; [split|..]; try done.
      - by apply (inv_fields ts').
      - apply evolves_refl; [done..|exact Hold|]. intros id Hno [n' Hn'].
        destruct (decide (id = blk_ID blk)) as [->|Hi]; [done|].
        simpl in Hn'. destruct (added_inv blk ts pn lat Hpn Hfresh Hh Hst Hlat id n' Hn') as [[? _]|(_&n&?&_)]; congruence.
      - intros _. unfold Topological_Processing. rewrite decide_False by done.
        apply bool_decide_true. exact Hin.
      - congruence. }
    assert (∀ id, id ∈ ts_preferredIDs ts → id ≠ ts_head ts ∧ reach ts' (ts_tail ts) id) as Hr'.
    { intros id Hid. destruct (Hpref id Hid). split; [done|]. by eapply (reach_extended ts). }
    case_decide as Htail.
    + apply Hpost; [done|]. intros id [->%elem_of_singleton|Hid]%elem_of_union.
      * split; [done|]. apply rtc_refl.
      * destruct (Hr' id Hid) as [? Hr]. split; [done|]. rewrite Htail in Hr.
        by eapply rtc_l.
    + apply (Hpost (ts_preferredIDs ts) (ts_tail ts)); [|done].
      destruct Htl as [n Hn]. destruct (Hold _ _ Hn) as (n'&Hn'&_). exists n'. exact Hn'.
  - eapply safe_bind; [apply (safe_call _ _ (λ w, blk_Reject blk (ts_world ts) = Ok w)); [|done]|].
    { intros HTt. pose proof (HT HTt). apply blk_Reject_total; [done|by apply Hpar]. }
    intros w Hw. pose proof (blk_Reject_status _ _ _ Hw) as Hs. simpl.
    unfold latency_Rejected, latency_Issued.
    set (ts' := set_latency _ _).
    assert (∀ id, is_Some (ts_latency ts' !! id) ↔ is_Some (ts_latency ts !! id)) as Hlat.
    { intros id. simpl. destruct (decide (id = blk_ID blk)) as [->|?].
      - rewrite lookup_delete_eq. rewrite (g_latency _ _ _ Hg), Hfresh.
        split; [by intros [? [=]]|]. by intros ([? [=]]&_).
      - by rewrite lookup_delete_ne, lookup_insert_ne. }
    assert (∀ id, is_Some (ts_blocks ts !! id) → status ts' id = status ts id) as Hsame.
    { intros id [n Hn]. simpl. rewrite Hs, decide_False; [done|]. intros ->. congruence. }
    split; [split|..]; try done.
    + destruct Hg as [G1 G2 G3 G4 G5 G6 G7 G8 G9 G10 G11]. split; try done.
      * simpl. by rewrite Hs, decide_False.
      * intros id n Hn Hne Ho. destruct (G5 id n Hn Hne Ho) as (b&?&?&Hcase).
        exists b. split_and!; [done..|]. rewrite decide_False in * by apply not_elem_of_nil.
        rewrite Hsame by (by exists n). done.
      * intros id. rewrite Hlat. apply G11.
    + split; simpl; try done.
      * intros b Hb. by apply not_elem_of_nil in Hb.
      * intros id Hd. rewrite Hs. case_decide; [|done]. congruence.
      * intros id. rewrite Hs. case_decide; [done|]. by left.
      * intros id [? E] E'. congruence.
      * constructor.
      * intros b n b' Hb. by apply not_elem_of_nil in Hb.
      * intros id n n' E E'. congruence.
      * intros id E [? E']. congruence.
    + intros [? ?]. congruence.
    + intros _. simpl. by rewrite Hs, decide_True.
Qed.

End safety.
