(* ===== verification/Snowman.v ===== *)
(** What Snowman consensus promises ([snow/consensus/snowman/topological.go]).

    The engine calls [Initialize] once and then any sequence of [Add] and
    [RecordPoll], while the virtual machine learns of new blocks: [topo_step] and
    [topo_steps].  Decisions are final, never conflict and follow the chain; no
    call panics or diverges; the promise made to the virtual machine, that blocks
    are decided in topological order, is kept.  The last section is about the
    preferred branch, on which the code is wrong in one case: the vote
    propagation counts an edge twice when a vote for a descendant is visited
    after a vote for its ancestor, and then the poll skips the blocks below. *)

From S2P Require Import Prelude Ids Bag Snowball SnowballTree TreeSafety Topological.
From S2P Require Import TopologicalInv TopologicalVote TopologicalSafety.

Local Open Scope node_scope.

Section steps.
Context `{GoRange, ChainContext}.

Abbreviation status ts id := (blk_Status (ts_world ts) id).

(** What the engine guarantees of a block it adds: the block has been fetched,
    and its parent was issued before it. *)
Definition addable (blk : Block) (ts : Topological) : Prop :=
  status ts (blk_ID blk) ≠ Unknown ∧
  (ts_blocks ts !! blk_Parent blk = None → Status_Decided (status ts (blk_Parent blk)) = true).

(** The virtual machine learns of blocks; it decides none on its own. *)
Definition learns (w w' : world) : Prop :=
  ∀ id, blk_Status w' id = blk_Status w id ∨
    blk_Status w id = Unknown ∧ blk_Status w' id = Processing.

Inductive topo_step (ts : Topological) : Topological → Prop :=
| step_add blk ts' : addable blk ts → Topological_Add blk ts = Ok ts' → topo_step ts ts'
| step_poll votes ts' : Topological_RecordPoll votes ts = Ok ts' → topo_step ts ts'
| step_learn w : learns (ts_world ts) w → topo_step ts (set_world w ts).

Definition topo_steps : relation Topological := rtc topo_step.

(** The states reached from [Initialize] on the last accepted block [rootID]. *)
Definition topo_reachable (params : Parameters) (rootID : ID) (ts : Topological) : Prop :=
  ∃ w rootHeight ts0, blk_Status w rootID = Accepted ∧
    Topological_Initialize w params rootID rootHeight = Ok ts0 ∧ topo_steps ts0 ts.

Context `{!ChainLaws}.

Lemma initialize_inv w params rootID rootHeight ts :
  blk_Status w rootID = Accepted →
  Topological_Initialize w params rootID rootHeight = Ok ts → topo_inv ts.
Proof.
  unfold Topological_Initialize. destruct (Parameters_Verify params) as [[]|e] eqn:Hv; [|done].
  intros Hs [= <-]. assert (∀ id n, ({[rootID := mkSnowmanBlock None false None ∅]} :
    gmap ID snowmanBlock) !! id = Some n → id = rootID ∧ n = mkSnowmanBlock None false None ∅) as Hl.
  { intros id n E%lookup_singleton_Some. naive_solver. }
  split; [split|..]; simpl; try done.
  - rewrite lookup_singleton_eq. eauto.
  - intros n b [_ ->]%Hl. done.
  - intros id n [-> ->]%Hl. done.
  - intros id n c b [-> ->]%Hl. simpl. by rewrite lookup_empty.
  - intros id n [-> ->]%Hl. done.
  - exists (λ _, 0%nat). intros id n b [-> ->]%Hl. done.
  - split; [constructor|]. intros id Hi. by apply not_elem_of_nil in Hi.
  - intros id. rewrite lookup_empty. split; [by intros [? [=]]|].
    intros ([n [-> _]%Hl]&?&_). done.
  - rewrite lookup_singleton_eq. eauto.
Qed.

Lemma topo_step_inv ts ts' :
  topo_inv ts → topo_step ts ts' → topo_inv ts' ∧ ∃ acc, evolves ts acc ts'.
Proof.
  intros Hti Hstep. destruct Hstep as [blk ts' [Hun Hpar] Hadd|votes ts' Hpoll|w Hw].
  - destruct (Topological_Decided blk ts || Topological_Processing (blk_ID blk) ts) eqn:E.
    { by rewrite Add_duplicate in Hadd. }
    pose proof (Add_spec False blk ts ltac:(done) Hti Hun Hpar E) as Hs.
    rewrite Hadd in Hs. destruct Hs. eauto.
  - pose proof (RecordPoll_spec False votes ts ltac:(done) Hti) as Hs.
    rewrite Hpoll in Hs. destruct Hs as (?&_&?). done.
  - assert (∀ id, status ts id ≠ Unknown → blk_Status w id = status ts id) as Hk.
    { intros id Hu. by destruct (Hw id) as [?|[? _]]. }
    destruct Hti as [Hg Htl Hpref]. split; [split|]; [|done|done|].
    + destruct Hg as [G1 G2 G3 G4 G5 G6 G7 G8 G9 G10 G11]. split; try done.
      * simpl. rewrite Hk; by rewrite G4.
      * intros id n Hn Hne Ho. destruct (G5 id n Hn Hne Ho) as (b&?&?&Hcase).
        exists b. rewrite decide_False in * by apply not_elem_of_nil.
        destruct Hcase as (Hs&?&?). split_and!; try done.
        simpl. rewrite Hk; by rewrite Hs.
    + exists []. split; simpl; [done| | | | |constructor| | |].
      * intros b Hb. by apply not_elem_of_nil in Hb.
      * intros id Hd. apply Hk. intros E. by rewrite E in Hd.
      * intros id E. destruct (Hw id) as [E'|[_ E']]; [left|]; congruence.
      * intros id [? E] E'. congruence.
      * intros b n b' Hb. by apply not_elem_of_nil in Hb.
      * intros id n n' E E'. congruence.
      * intros id E [? E']. congruence.
Qed.

Lemma topo_steps_inv ts ts' :
  topo_inv ts → topo_steps ts ts' → topo_inv ts' ∧ ∃ acc, evolves ts acc ts'.
Proof.
  intros Hti Hs. revert Hti. induction Hs as [ts|ts ts1 ts2 H01 _ IH]; intros Hti.
  - split; [done|]. exists []. apply evolves_same_fields; [done..|apply same_blk_refl].
  - destruct (topo_step_inv _ _ Hti H01) as [Hti1 [a1 E1]].
    destruct (IH Hti1) as [Hti2 [a2 E2]]. split; [done|]. exists (a1 ++ a2).
    by eapply evolves_trans.
Qed.

Lemma topo_reachable_inv params rootID ts : topo_reachable params rootID ts → topo_inv ts.
Proof.
  intros (w&h&ts0&Hw&Hi&Hs). eapply topo_steps_inv; [|done]. by eapply initialize_inv.
Qed.

(** The parents of a chain without repetition are distinct. *)
Lemma accepted_chain_parent b bs h h' :
  accepted_chain h bs h' → b ∈ bs → blk_Parent b = h ∨ blk_Parent b ∈ blk_ID <$> bs.
Proof.
  revert h. induction bs as [|b0 bs IH]; intros h; [by intros _ ?%not_elem_of_nil|].
  intros [Hp Hc] [->|Hb]%elem_of_cons; [by left|]. right. rewrite fmap_cons. apply elem_of_cons.
  by destruct (IH _ Hc Hb); [left|right].
Qed.

Lemma accepted_chain_parents h bs h' b1 b2 :
  accepted_chain h bs h' → NoDup (blk_ID <$> bs) → h ∉ blk_ID <$> bs →
  b1 ∈ bs → b2 ∈ bs → blk_Parent b1 = blk_Parent b2 → b1 = b2.
Proof.
  revert h. induction bs as [|b bs IH]; intros h Hc Hnd Hh; [by intros ?%not_elem_of_nil|].
  assert (∀ b', b' ∈ bs → blk_Parent b' ≠ h) as Hne.
  { intros b' Hb' E. destruct Hc as [_ Hc]. apply Hh. rewrite fmap_cons. apply elem_of_cons.
    destruct (accepted_chain_parent _ _ _ _ Hc Hb') as [E'|E'];
      [left; congruence|right; by rewrite <-E]. }
  destruct Hc as [Hp Hc]. rewrite fmap_cons in Hnd. apply NoDup_cons in Hnd as [Hb Hnd].
  intros [->|H1']%elem_of_cons [->|H2']%elem_of_cons E; [done| | |].
  - destruct (Hne _ H2'). congruence.
  - destruct (Hne _ H1'). congruence.
  - by eapply IH.
Qed.
End steps.

(** ** Claims *)

(** C5: from every reachable state, on a virtual machine that fails only when a
    block is decided out of topological order, every poll is processed to the
    end: the call neither panics nor diverges nor fails, whatever the votes, and
    neither does [Add] of a new block. *)
Theorem topo_calls_return `{GoRange, ChainContext, !ChainLaws, !ChainTotal} params rootID ts :
  topo_reachable params rootID ts →
  (∀ voteBag, ∃ ts', Topological_RecordPoll voteBag ts = Ok ts') ∧
  (∀ blk, addable blk ts →
    (∃ ts', Topological_Add blk ts = Ok ts') ∨
    Topological_Add blk ts = Err errDuplicateAdd ∧
      (Topological_Decided blk ts = true ∨ Topological_Processing (blk_ID blk) ts = true)).
Proof.
  intros Hr%topo_reachable_inv. split.
  - intros voteBag.
    destruct (safe_total _ _ (RecordPoll_spec True voteBag ts (λ _, _) Hr)) as (ts'&?&_). eauto.
  - intros blk [Hun Hpar].
    destruct (Topological_Decided blk ts || Topological_Processing (blk_ID blk) ts) eqn:E.
    + right. split; [by apply Add_duplicate|]. by apply orb_true_elim in E as [?|?]; auto.
    + left. destruct (safe_total _ _ (Add_spec True blk ts (λ _, _) Hr Hun Hpar E))
        as (ts'&?&_). eauto.
Qed.

(** C6: between two states of a run, the blocks accepted form a chain of
    children that starts on the old last accepted block and ends on the new
    one; nothing else is accepted, no decision is ever revised, and every block
    that left the tree has been decided. *)
Theorem topo_accepts_chain `{GoRange, ChainContext, !ChainLaws} params rootID ts ts' :
  topo_reachable params rootID ts → topo_steps ts ts' →
  ∃ acc, accepted_chain (ts_head ts) acc (ts_head ts') ∧
    (∀ id, Status_Decided (blk_Status (ts_world ts) id) = true →
       blk_Status (ts_world ts') id = blk_Status (ts_world ts) id) ∧
    (∀ id, blk_Status (ts_world ts') id = Accepted ↔
       blk_Status (ts_world ts) id = Accepted ∨ id ∈ blk_ID <$> acc) ∧
    (∀ id, is_Some (ts_blocks ts !! id) → ts_blocks ts' !! id = None →
       Status_Decided (blk_Status (ts_world ts') id) = true).
Proof.
  intros Hr%topo_reachable_inv Hs. destruct (topo_steps_inv _ _ Hr Hs) as [_ [acc []]].
  exists acc. split_and!; [done..| |done]. intros id. split.
  - intros Ha. destruct (ev_only id Ha) as [?|(b&Hb&<-)]; [by left|right].
    by apply list_elem_of_fmap_2.
  - intros [Ha|(b&->&Hb)%list_elem_of_fmap]; [rewrite ev_final; [done|by rewrite Ha]|].
    by apply ev_accepted.
Qed.

(** C7: no fork: of two different blocks of the tree with the same parent, at
    most one is ever accepted. *)
Theorem topo_no_fork `{GoRange, ChainContext, !ChainLaws} params rootID ts ts' p n c1 c2 :
  topo_reachable params rootID ts → topo_steps ts ts' →
  ts_blocks ts !! p = Some n → is_Some (sb_children n !! c1) → is_Some (sb_children n !! c2) →
  blk_Status (ts_world ts') c1 = Accepted → blk_Status (ts_world ts') c2 = Accepted → c1 = c2.
Proof.
  intros Hr%topo_reachable_inv Hs Hn Hc1 Hc2 Ha1 Ha2.
  destruct (topo_steps_inv _ _ Hr Hs) as [_ [acc Hev]]. pose proof (ti_inv _ Hr) as Hg.
  assert (∀ c, is_Some (sb_children n !! c) → blk_Status (ts_world ts') c = Accepted →
    ∃ b, b ∈ acc ∧ blk_ID b = c ∧ blk_Parent b = p) as Hacc.
  { intros c [b Hc] Ha.
    destruct (g_child _ _ _ Hg p n c b Hn ltac:(done) Hc) as (_&_&_&Hp&cn&Hcn&Hcb).
    destruct (ginv_child _ _ _ _ _ _ _ Hg Hn ltac:(done) Hc) as (_&_&Hst).
    destruct (ev_only _ _ _ Hev c Ha) as [E|(b'&Hb'&<-)]; [congruence|].
    exists b'. split_and!; [done..|]. by rewrite <-(ev_blocks _ _ _ Hev b' cn b Hb' Hcn Hcb). }
  destruct (Hacc c1 Hc1 Ha1) as (b1&Hb1&<-&Hp1). destruct (Hacc c2 Hc2 Ha2) as (b2&Hb2&<-&Hp2).
  f_equal. eapply accepted_chain_parents; [apply Hev|apply Hev| |done|done|congruence].
  intros (b&E&Hb)%list_elem_of_fmap. destruct (ev_accepted _ _ _ Hev b Hb) as [Hd _].
  by rewrite <-E, (g_head_status _ _ _ Hg) in Hd.
Qed.

(** In every reachable state each block above the last accepted one is
    processing, is a child of its parent's node, and the tail is in the tree with
    every preferred block among its ancestors. *)
Theorem topo_tree_processing `{GoRange, ChainContext, !ChainLaws} params rootID ts :
  topo_reachable params rootID ts →
  blk_Status (ts_world ts) (ts_head ts) = Accepted ∧
  (∀ id n, ts_blocks ts !! id = Some n → id ≠ ts_head ts →
     blk_Status (ts_world ts) id = Processing ∧
     ∃ b pn, sb_blk n = Some b ∧ blk_ID b = id ∧
       ts_blocks ts !! blk_Parent b = Some pn ∧ sb_children pn !! id = Some b) ∧
  is_Some (ts_blocks ts !! ts_tail ts) ∧
  (∀ id, id ∈ ts_preferredIDs ts → id ≠ ts_head ts ∧ reach ts (ts_tail ts) id).
Proof.
  intros [Hg Htl Hp]%topo_reachable_inv. split_and!; [apply Hg| |done|done].
  intros id n Hn Hne. destruct (inv_block ts id n Hg Hn Hne) as (b&pn&?&?&?&_&?&?). eauto 10.
Qed.

(** The health check counts the processing blocks: the entries of the
    latency metric are as many as the blocks above the last accepted one. *)
Theorem topo_outstanding `{GoRange, ChainContext, !ChainLaws} params rootID ts :
  topo_reachable params rootID ts →
  latency_NumProcessing (ts_latency ts) = Topological_NumProcessing ts ∧
  (Topological_Finalized ts = true ↔ latency_NumProcessing (ts_latency ts) = 0).
Proof.
  intros [Hg _ _]%topo_reachable_inv.
  assert (dom (ts_latency ts) = dom (ts_blocks ts) ∖ {[ts_head ts]}) as Hd.
  { apply set_eq. intros id. rewrite elem_of_difference, elem_of_singleton, !elem_of_dom.
    rewrite (g_latency _ _ _ Hg id). pose proof (not_elem_of_nil id). naive_solver. }
  assert (ts_head ts ∈ dom (ts_blocks ts)) as Hh by (apply elem_of_dom; apply Hg).
  unfold latency_NumProcessing, Topological_NumProcessing, Topological_Finalized.
  rewrite <-!size_dom, Hd, size_difference, size_singleton by set_solver.
  assert (size (dom (ts_blocks ts)) ≠ 0%nat) by (apply size_non_empty_iff; set_solver).
  rewrite bool_decide_eq_true. lia.
Qed.

(** ** Concrete runs *)

(** The calls of a run, executed in order. *)
Inductive topo_op :=
| OAdd (blk : Block)
| OPoll (voteBag : Bag).

Definition addable_b `{ChainContext} (blk : Block) (ts : Topological) : bool :=
  bool_decide (blk_Status (ts_world ts) (blk_ID blk) ≠ Unknown) &&
  (bool_decide (is_Some (ts_blocks ts !! blk_Parent blk)) ||
   Status_Decided (blk_Status (ts_world ts) (blk_Parent blk))).

Fixpoint topo_exec `{GoRange, ChainContext} (ops : list topo_op) (ts : Topological)
    : result topo_error Topological :=
  match ops with
  | [] => Ok ts
  | OAdd blk :: ops =>
      if addable_b blk ts then let? ts := Topological_Add blk ts in topo_exec ops ts
      else Err errPanic
  | OPoll voteBag :: ops => let? ts := Topological_RecordPoll voteBag ts in topo_exec ops ts
  end.

Lemma topo_exec_steps `{GoRange, ChainContext} ops ts ts' :
  topo_exec ops ts = Ok ts' → topo_steps ts ts'.
Proof.
  revert ts. induction ops as [|[blk|voteBag] ops IH]; intros ts; simpl.
  - intros [= <-]. apply rtc_refl.
  - destruct (addable_b blk ts) eqn:Ea; [|done]. intros (ts1&Ha&Hs)%result_bind_ok.
    eapply rtc_l; [|by apply IH]. eapply step_add; [|done].
    unfold addable_b in Ea. apply andb_prop in Ea as [E1%bool_decide_eq_true E2].
    split; [done|]. intros Hn. rewrite Hn in E2. by rewrite bool_decide_false in E2 by by intros [].
  - intros (ts1&Ha&Hs)%result_bind_ok. eapply rtc_l; [|by apply IH]. by eapply step_poll.
Qed.

(** Two validators are sampled, both must agree, one poll decides a block without
    conflicts and two decide between conflicting ones. *)
Definition two_params : Parameters := mkParameters 2 2 1 2 1 1 1 1 0 0.

(** The genesis [Empty]; its children [x04] and [x01]; the chain [x01], [x02],
    [x03]. *)
Definition blkA' : Block := mkBlock (id1 Byte.x04) Empty 1.
Definition blkA : Block := mkBlock (id1 Byte.x01) Empty 1.
Definition blkB : Block := mkBlock (id1 Byte.x02) (id1 Byte.x01) 2.
Definition blkC : Block := mkBlock (id1 Byte.x03) (id1 Byte.x02) 3.

Definition four_world : log_world :=
  mkLogWorld (<[Empty := Accepted]> (list_to_map
    (map (λ b, (blk_ID b, Processing)) [blkA'; blkA; blkB; blkC]))) [].

Definition four_start : Topological :=
  mkTopological log_chain ∅ (0, 0) 0 four_world two_params Empty 0
    {[Empty := mkSnowmanBlock None false None ∅]} ∅ Empty ∅ ∅.

Definition run_four (range : GoRange) (ops : list topo_op) : Topological :=
  match @topo_exec range log_chain ops four_start with Ok ts => ts | Err _ => four_start end.

Lemma run_four_reachable range ops :
  @topo_reachable range log_chain two_params Empty (run_four range ops).
Proof.
  exists four_world, 0, four_start. split; [vm_compute; reflexivity|]. split; [reflexivity|].
  unfold run_four. destruct (topo_exec ops four_start) eqn:E; [|apply rtc_refl].
  by eapply topo_exec_steps.
Qed.

Lemma topo_exec_app `{GoRange, ChainContext} ops ops' ts :
  topo_exec (ops ++ ops') ts = result_bind (topo_exec ops ts) (topo_exec ops').
Proof.
  revert ts. induction ops as [|[blk|voteBag] ops IH]; intros ts; simpl; [done| |].
  - destruct (addable_b blk ts); [|done]. rewrite result_bind_assoc.
    destruct (Topological_Add blk ts); [apply IH|done].
  - rewrite result_bind_assoc. destruct (Topological_RecordPoll voteBag ts); [apply IH|done].
Qed.

Lemma run_four_steps range ops ops' :
  is_ok (@topo_exec range log_chain (ops ++ ops') four_start) = true →
  @topo_steps range log_chain (run_four range ops) (run_four range (ops ++ ops')).
Proof.
  unfold run_four. rewrite topo_exec_app. destruct (topo_exec ops four_start) as [ts|]; [|done].
  simpl. destruct (topo_exec ops' ts) eqn:E; [|done]. intros _. by eapply topo_exec_steps.
Qed.

Definition four_adds : list topo_op := [OAdd blkA'; OAdd blkA; OAdd blkB; OAdd blkC].
Definition two_votes (c : ID) : topo_op := OPoll (Bag_AddCount c 2 Bag_zero).

Lemma topo_calls_return_witness :
  ∃ ts', @Topological_RecordPoll go_range_std log_chain (Bag_AddCount (blk_ID blkC) 2 Bag_zero)
    (run_four go_range_std four_adds) = Ok ts'.
Proof.
  apply (proj1 (@topo_calls_return go_range_std log_chain log_chain_laws log_chain_total
    two_params Empty _ (run_four_reachable go_range_std four_adds))).
Defined.

Definition four_polls : list topo_op := [two_votes (blk_ID blkC); two_votes (blk_ID blkC)].

Lemma four_polls_ok :
  is_ok (@topo_exec go_range_std log_chain (four_adds ++ four_polls) four_start) = true.
Proof. vm_compute. reflexivity. Qed.

Lemma topo_accepts_chain_witness :
  ∃ acc, accepted_chain Empty acc (id1 Byte.x03).
Proof.
  destruct (@topo_accepts_chain go_range_std log_chain log_chain_laws two_params Empty
    _ _ (run_four_reachable go_range_std four_adds)
    (run_four_steps _ _ _ four_polls_ok)) as (acc&Hacc&_).
  exists acc. revert Hacc. vm_compute. exact (λ h, h).
Defined.

Lemma topo_no_fork_witness :
  blk_Status (ts_world (run_four go_range_std (four_adds ++ four_polls))) (blk_ID blkA') ≠ Accepted.
Proof.
  intros Ha.
  assert (blk_ID blkA = blk_ID blkA') as [=].
  refine (@topo_no_fork go_range_std log_chain log_chain_laws two_params Empty
    _ _ Empty _ (blk_ID blkA) (blk_ID blkA') (run_four_reachable go_range_std four_adds)
    (run_four_steps _ _ _ four_polls_ok) eq_refl _ _ _ Ha);
    [eexists; vm_compute; reflexivity..|vm_compute; reflexivity].
Defined.

Lemma topo_tree_processing_witness :
  blk_Status (ts_world (run_four go_range_std four_adds)) Empty = Accepted.
Proof.
  exact (proj1 (@topo_tree_processing go_range_std log_chain log_chain_laws two_params Empty
    _ (run_four_reachable go_range_std four_adds))).
Defined.

Lemma topo_outstanding_witness :
  latency_NumProcessing (ts_latency (run_four go_range_std four_adds)) = 4.
Proof.
  etrans; [exact (proj1 (@topo_outstanding go_range_std log_chain log_chain_laws two_params Empty
    _ (run_four_reachable go_range_std four_adds)))|].
  vm_compute. reflexivity.
Defined.

(** The other order of iteration. *)
Definition go_range_rev : GoRange :=
  {| go_range := λ K V _ _ m, reverse (map_to_list m);
     go_range_perm := λ K V _ _ m, reverse_Permutation _ |}.

(** The choice preferred by the snowball instance of the head. *)
Definition head_preference (ts : @Topological log_chain) : option ID :=
  n ← ts_blocks ts !! ts_head ts; t ← sb_sb n; Some (Tree_Preference t).

(** The preferred branch depends on the order in which the votes of one
    poll are visited.  One validator votes for [x02] and one for its child
    [x03].  Visiting the child first, the poll reaches the head, whose preference
    moves to [x01], and the tail is below it.  Visiting the parent first, the
    edge from [x01] to the head is counted twice, the head never records the
    poll and still prefers [x04], but the tail moves to the branch of [x01], which
    the head does not prefer. *)
Theorem topo_preference_order_dependent :
  let poll := OPoll (Bag_Add [blk_ID blkB; blk_ID blkC] Bag_zero) in
  (head_preference (run_four go_range_rev (four_adds ++ [poll])) = Some (blk_ID blkA) ∧
   ts_tail (run_four go_range_rev (four_adds ++ [poll])) = blk_ID blkC) ∧
  (head_preference (run_four go_range_std (four_adds ++ [poll])) = Some (blk_ID blkA') ∧
   ts_tail (run_four go_range_std (four_adds ++ [poll])) = blk_ID blkC ∧
   Topological_IsPreferred blkA' (run_four go_range_std (four_adds ++ [poll])) = false).
Proof. vm_compute. split_and!; reflexivity. Qed.
