(* ===== verification/Packer.v ===== *)
(** The byte packer ([utils/wrappers/packing.go], [utils/wrappers/errors.go],
    [utils/ips]).

    A [Packer] is a byte slice - a backing array [p_arr] of which the first
    [p_len] bytes are visible - with an offset, a maximal size and a sticky error.
    Its methods are functions [packing A] from a packer to a result and the packer
    after the call, [None] being a run-time panic (an index out of range).
    [appends m enc] and [reads u enc v] are the specifications of a method that
    packs or unpacks the encoding [enc]; they compose along sequences of calls,
    which gives the round trip of every pair of methods. *)

From Stdlib Require Import Strings.Byte.
From S2P Require Import Prelude Ids.

(** ** Bytes and big-endian integers *)

Abbreviation bytes := (list byte).

Definition to_byte (x : Z) : byte := default x00 (Byte.of_N (Z.to_N (x mod 256))).

Lemma byte_val_to_byte x : byte_val (to_byte x) = x mod 256.
Proof.
  unfold to_byte, byte_val. pose proof (Z.mod_pos_bound x 256).
  destruct (Byte.of_N (Z.to_N (x mod 256))) as [b|] eqn:E; simpl.
  - apply Byte.to_of_N in E. rewrite E. lia.
  - apply Byte.of_N_None_iff in E. lia.
Qed.

Lemma to_byte_val b : to_byte (byte_val b) = b.
Proof. apply byte_val_inj. rewrite byte_val_to_byte. apply Z.mod_small, byte_val_range. Qed.

(** [binary.BigEndian]: [n] bytes, most significant first. *)
Fixpoint be_bytes (n : nat) (v : Z) : bytes :=
  match n with
  | O => []
  | S n => to_byte (v / 256 ^ Z.of_nat n) :: be_bytes n v
  end.

Definition be_value (l : bytes) : Z := foldl (λ acc b, acc * 256 + byte_val b) 0 l.

Lemma length_be_bytes n v : length (be_bytes n v) = n.
Proof. induction n; simpl; congruence. Qed.

Lemma be_value_app acc l :
  foldl (λ acc b, acc * 256 + byte_val b) acc l = acc * 256 ^ Z.of_nat (length l) + be_value l.
Proof.
  unfold be_value. revert acc. induction l as [|b l IH]; intros acc; cbn [foldl length];
    [simpl; lia|].
  rewrite IH, (IH (0 * 256 + byte_val b)), Nat2Z.inj_succ, Z.pow_succ_r by lia. lia.
Qed.

Lemma be_value_bytes n v : be_value (be_bytes n v) = v mod 256 ^ Z.of_nat n.
Proof.
  induction n as [|n IH]; [by rewrite Z.mod_1_r|]. unfold be_value. cbn [be_bytes foldl].
  rewrite be_value_app, IH, length_be_bytes, byte_val_to_byte.
  rewrite Nat2Z.inj_succ, Z.pow_succ_r by lia.
  set (m := 256 ^ Z.of_nat n). assert (0 < m) by (apply Z.pow_pos_nonneg; lia).
  rewrite (Z.mul_comm 256 m), Z.rem_mul_r by lia. lia.
Qed.

(** ** State *)

Inductive pack_error :=
| errBadLength | errNegativeOffset | errInvalidInput | errBadType | errBadBool
| errCertificate.

#[export] Instance pack_error_eq_dec : EqDecision pack_error.
Proof. solve_decision. Defined.

Record Packer := mkPacker {
  p_Err : option pack_error;
  p_MaxSize : Z;
  p_arr : bytes;
  p_len : Z;
  p_Offset : Z;
}.

(** The visible bytes and the capacity of the slice. *)
Definition p_Bytes (p : Packer) : bytes := take (Z.to_nat (p_len p)) (p_arr p).
Definition p_cap (p : Packer) : Z := Z.of_nat (length (p_arr p)).

Definition set_Err e p := mkPacker e (p_MaxSize p) (p_arr p) (p_len p) (p_Offset p).
Definition set_Offset o p := mkPacker (p_Err p) (p_MaxSize p) (p_arr p) (p_len p) o.
Definition set_Bytes a l p := mkPacker (p_Err p) (p_MaxSize p) a l (p_Offset p).

(** [Errs.Errored] and [Errs.Add]: the first error is kept. *)
Definition Errored (p : Packer) : bool := match p_Err p with Some _ => true | None => false end.
Definition Errs_Add (e : pack_error) (p : Packer) : Packer :=
  match p_Err p with Some _ => p | None => set_Err (Some e) p end.

(** [append] reallocates to a capacity the run time chooses, at least the length
    needed; the new bytes are zero. *)
Class GoAppend : Type := {
  append_cap : Z → Z → Z;
  append_cap_ge : ∀ old needed, needed ≤ append_cap old needed;
}.

Definition go_append_tight : GoAppend :=
  {| append_cap := λ _ needed, needed; append_cap_ge := λ _ needed, Z.le_refl needed |}.

Definition zeros (n : Z) : bytes := replicate (Z.to_nat n) x00.

(** ** Methods *)

Definition packing (A : Type) : Type := Packer → option (A * Packer).

Definition pret {A} (a : A) : packing A := λ p, Some (a, p).
Definition pbind {A B} (m : packing A) (k : A → packing B) : packing B :=
  λ p, match m p with Some (a, p) => k a p | None => None end.

Declare Scope packing_scope.
Notation "'let!' x := m 'in' k" := (pbind m (λ x, k))
  (at level 10, x name, m at level 100, k at level 200) : packing_scope.
Notation "m ;; k" := (pbind m (λ _, k)) (at level 100, right associativity) : packing_scope.
Local Open Scope packing_scope.

Definition ByteLen : Z := 1.
Definition ShortLen : Z := 2.
Definition IntLen : Z := 4.
Definition LongLen : Z := 8.
Definition BoolLen : Z := 1.
Definition MaxStringLen : Z := MaxUint16.

Definition CheckSpace (n : Z) (p : Packer) : Packer :=
  if decide (p_Offset p < 0) then Errs_Add errNegativeOffset p
  else if decide (n < 0) then Errs_Add errInvalidInput p
  else if decide (p_len p - p_Offset p < n) then Errs_Add errBadLength p
  else p.

Section packer.
Context `{GoAppend}.

Definition Expand (n : Z) (p : Packer) : Packer :=
  let neededSize := n + p_Offset p in
  if decide (neededSize ≤ p_len p) then p
  else if decide (p_MaxSize p < neededSize) then set_Err (Some errBadLength) p
  else if decide (neededSize ≤ p_cap p) then set_Bytes (p_arr p) neededSize p
  else
    let arr := p_arr p ++ zeros (neededSize - p_cap p) in
    set_Bytes (arr ++ zeros (append_cap (p_cap p) neededSize - neededSize)) neededSize p.

(** Writes at the offset and moves it; a panic when the slice does not hold the
    bytes. *)
Definition write_bytes (bs : bytes) : packing unit := λ p,
  if decide (0 ≤ p_Offset p ∧ p_Offset p + Z.of_nat (length bs) ≤ p_len p) then
    let o := Z.to_nat (p_Offset p) in
    let arr := take o (p_arr p) ++ bs ++ drop (o + length bs) (p_arr p) in
    Some (tt, set_Offset (p_Offset p + Z.of_nat (length bs)) (set_Bytes arr (p_len p) p))
  else None.

(** Reads [n] bytes at the offset and moves it. *)
Definition read_bytes (n : Z) : packing bytes := λ p,
  if decide (0 ≤ n ∧ 0 ≤ p_Offset p ∧ p_Offset p + n ≤ p_len p) then
    Some (take (Z.to_nat n) (drop (Z.to_nat (p_Offset p)) (p_Bytes p)),
          set_Offset (p_Offset p + n) p)
  else None.

(** The shape of every method that packs: make room, stop on an error, write. *)
Definition pack_raw (n : Z) (bs : bytes) : packing unit := λ p,
  let p := Expand n p in
  if Errored p then Some (tt, p) else write_bytes bs p.

(** The shape of every method that unpacks: check the space, return [zero] on an
    error, read. *)
Definition unpack_raw {A} (n : Z) (zero : A) (f : bytes → A) : packing A := λ p,
  let p := CheckSpace n p in
  if Errored p then Some (zero, p)
  else match read_bytes n p with Some (bs, p) => Some (f bs, p) | None => None end.

Definition PackByte (val : byte) : packing unit := pack_raw ByteLen [val].
Definition UnpackByte : packing byte := unpack_raw ByteLen x00 (λ bs, nth 0 bs x00).

Definition PackShort (val : Z) : packing unit := pack_raw ShortLen (be_bytes 2 val).
Definition UnpackShort : packing Z := unpack_raw ShortLen 0 be_value.

Definition PackInt (val : Z) : packing unit := pack_raw IntLen (be_bytes 4 val).
Definition UnpackInt : packing Z := unpack_raw IntLen 0 be_value.

Definition PackLong (val : Z) : packing unit := pack_raw LongLen (be_bytes 8 val).
Definition UnpackLong : packing Z := unpack_raw LongLen 0 be_value.

Definition PackBool (b : bool) : packing unit := PackByte (if b then x01 else x00).
Definition UnpackBool : packing bool :=
  let! b := UnpackByte in
  if decide (b = x00) then pret false
  else if decide (b = x01) then pret true
  else λ p, Some (false, Errs_Add errBadBool p).

Definition PackFixedBytes (bs : bytes) : packing unit := pack_raw (Z.of_nat (length bs)) bs.
Definition UnpackFixedBytes (size : Z) : packing bytes := unpack_raw size [] id.

Definition PackBytes (bs : bytes) : packing unit :=
  PackInt (wrap 32 (Z.of_nat (length bs)));; PackFixedBytes bs.
Definition UnpackBytes : packing bytes :=
  let! size := UnpackInt in UnpackFixedBytes size.

(** A Go loop over a slice. *)
Fixpoint pack_each {A} (f : A → packing unit) (l : list A) : packing unit :=
  match l with
  | [] => pret tt
  | x :: l => f x;; pack_each f l
  end.

(** A Go loop that stops at the first error. *)
Fixpoint pack_each_ok {A} (f : A → packing unit) (l : list A) : packing unit :=
  match l with
  | [] => pret tt
  | x :: l => λ p, if Errored p then Some (tt, p) else (f x;; pack_each_ok f l) p
  end.

(** [for i := 0; i < n && !p.Errored(); i++ { out = append(out, u()) }]. *)
Fixpoint unpack_each {A} (n : nat) (u : packing A) : packing (list A) :=
  match n with
  | O => pret []
  | S n => λ p,
      if Errored p then Some ([], p)
      else (let! x := u in let! l := unpack_each n u in pret (x :: l)) p
  end.

Definition PackFixedByteSlices (l : list bytes) : packing unit :=
  PackInt (wrap 32 (Z.of_nat (length l)));; pack_each PackFixedBytes l.
Definition UnpackFixedByteSlices (size : Z) : packing (list bytes) :=
  let! n := UnpackInt in unpack_each (Z.to_nat n) (UnpackFixedBytes size).

Definition Pack2DByteSlice (l : list bytes) : packing unit :=
  PackInt (wrap 32 (Z.of_nat (length l)));; pack_each PackBytes l.
Definition Unpack2DByteSlice : packing (list bytes) :=
  let! n := UnpackInt in unpack_each (Z.to_nat n) UnpackBytes.

Definition PackStr (str : bytes) : packing unit :=
  if decide (MaxStringLen < Z.of_nat (length str))
  then λ p, Some (tt, Errs_Add errInvalidInput p)
  else PackShort (wrap 16 (Z.of_nat (length str)));; PackFixedBytes str.
Definition UnpackStr : packing bytes :=
  let! n := UnpackShort in UnpackFixedBytes n.

(** [ips.IPPort]; [net.IP] is a byte slice of 4 or 16 bytes. *)
Record IPPort := mkIPPort { ip_IP : bytes; ip_Port : Z }.

(** [net.IP.To16]: a 4-byte address is mapped into IPv6, other lengths are
    invalid and give nil. *)
Definition v4InV6Prefix : bytes := replicate 10 x00 ++ [xff; xff].
Definition To16 (ip : bytes) : bytes :=
  if decide (length ip = 4%nat) then v4InV6Prefix ++ ip
  else if decide (length ip = 16%nat) then ip else [].

Definition PackIP (ip : IPPort) : packing unit :=
  PackFixedBytes (To16 (ip_IP ip));; PackShort (ip_Port ip).
Definition UnpackIP : packing IPPort :=
  let! ip := UnpackFixedBytes 16 in
  let! port := UnpackShort in
  pret (mkIPPort ip port).

Definition PackIPs (l : list IPPort) : packing unit :=
  PackInt (wrap 32 (Z.of_nat (length l)));; pack_each_ok PackIP l.
Definition UnpackIPs : packing (list IPPort) :=
  let! n := UnpackInt in unpack_each (Z.to_nat n) UnpackIP.

(** ** Certificates and values

    [crypto/x509] is a parameter: the raw bytes of a certificate and the parser. *)
Class CertLib : Type := {
  cert : Type;
  cert_Raw : cert → bytes;
  ParseCertificate : bytes → option cert;
}.

(** A certificate is what its raw bytes parse to. *)
Class CertLaws `{CertLib} : Prop := {
  ParseCertificate_Raw : ∀ c, ParseCertificate (cert_Raw c) = Some c;
}.

Context `{CertLib}.

(** A panic. *)
Definition panic {A} : packing A := λ _, None.

(** The nil pointer is [None]. *)
Definition PackX509Certificate (c : option cert) : packing unit :=
  match c with Some c => PackBytes (cert_Raw c) | None => panic end.
Definition UnpackX509Certificate : packing (option cert) :=
  let! b := UnpackBytes in
  match ParseCertificate b with
  | Some c => pret (Some c)
  | None => λ p, Some (None, Errs_Add errCertificate p)
  end.

Record ClaimedIPPort := mkClaimedIPPort {
  ci_Cert : option cert;
  ci_IPPort : IPPort;
  ci_Timestamp : Z;
  ci_Signature : bytes;
}.

Definition PackClaimedIPPort (c : ClaimedIPPort) : packing unit :=
  PackX509Certificate (ci_Cert c);;
  PackIP (ci_IPPort c);;
  PackLong (ci_Timestamp c);;
  PackBytes (ci_Signature c).
Definition UnpackClaimedIPPort : packing ClaimedIPPort :=
  let! c := UnpackX509Certificate in
  let! ip := UnpackIP in
  let! ts := UnpackLong in
  let! sig := UnpackBytes in
  pret (mkClaimedIPPort c ip ts sig).

(** The dynamic types the [Try] functions meet. *)
Inductive value :=
| VByte (b : byte)
| VInt (x : Z)
| VLong (x : Z)
| VBytes (b : bytes)
| VByteSlices (l : list bytes)
| VStr (s : bytes)
| VIP (ip : IPPort)
| VIPCerts (l : list ClaimedIPPort)
| VLongs (l : list Z).

Definition bad_type : packing unit := λ p, Some (tt, Errs_Add errBadType p).

Definition TryPackByte v := match v with VByte b => PackByte b | _ => bad_type end.
Definition TryUnpackByte := let! b := UnpackByte in pret (VByte b).
Definition TryPackInt v := match v with VInt x => PackInt x | _ => bad_type end.
Definition TryUnpackInt := let! x := UnpackInt in pret (VInt x).
Definition TryPackLong v := match v with VLong x => PackLong x | _ => bad_type end.
Definition TryUnpackLong := let! x := UnpackLong in pret (VLong x).
Definition HashLen : Z := 32.
Definition TryPackHash v := match v with VBytes b => PackFixedBytes b | _ => bad_type end.
Definition TryUnpackHash := let! b := UnpackFixedBytes HashLen in pret (VBytes b).
Definition TryPackHashes v :=
  match v with VByteSlices l => PackFixedByteSlices l | _ => bad_type end.
Definition TryUnpackHashes := let! l := UnpackFixedByteSlices HashLen in pret (VByteSlices l).
Definition TryPackBytes v := match v with VBytes b => PackBytes b | _ => bad_type end.
Definition TryUnpackBytes := let! b := UnpackBytes in pret (VBytes b).
Definition TryPack2DBytes v := match v with VByteSlices l => Pack2DByteSlice l | _ => bad_type end.
Definition TryUnpack2DBytes := let! l := Unpack2DByteSlice in pret (VByteSlices l).
Definition TryPackStr v := match v with VStr s => PackStr s | _ => bad_type end.
Definition TryUnpackStr := let! s := UnpackStr in pret (VStr s).
Definition TryPackIP v := match v with VIP ip => PackIP ip | _ => bad_type end.
Definition TryUnpackIP := let! ip := UnpackIP in pret (VIP ip).
Definition TryPackClaimedIPPortList v :=
  match v with
  | VIPCerts l => PackInt (wrap 32 (Z.of_nat (length l)));; pack_each PackClaimedIPPort l
  | _ => bad_type
  end.
Definition TryUnpackClaimedIPPortList :=
  let! n := UnpackInt in
  let! l := unpack_each (Z.to_nat n) UnpackClaimedIPPort in pret (VIPCerts l).
Definition TryPackUint64Slice v :=
  match v with
  | VLongs l => PackInt (wrap 32 (Z.of_nat (length l)));; pack_each PackLong l
  | _ => bad_type
  end.
Definition TryUnpackUint64Slice :=
  let! n := UnpackInt in
  let! l := unpack_each (Z.to_nat n) UnpackLong in pret (VLongs l).

(** ** Specifications of methods that pack *)

(** A packer that is being written to. *)
Definition wf_w (p : Packer) : Prop :=
  0 ≤ p_Offset p ≤ p_len p ∧ p_len p ≤ p_cap p ∧ p_len p ≤ p_MaxSize p.

(** [m] appends [enc], or reports that there is no room for it and stays in
    error. *)
Definition appends (m : packing unit) (enc : bytes) : Prop := ∀ p, wf_w p →
  (p_Err p = Some errBadLength →
     ∃ p', m p = Some (tt, p') ∧ wf_w p' ∧ p_Err p' = Some errBadLength) ∧
  (p_Err p = None → p_Offset p = p_len p →
     ∃ p', m p = Some (tt, p') ∧ wf_w p' ∧
       if decide (p_len p + Z.of_nat (length enc) ≤ p_MaxSize p)
       then p_Err p' = None ∧ p_Bytes p' = p_Bytes p ++ enc ∧ p_Offset p' = p_len p' ∧
            p_MaxSize p' = p_MaxSize p
       else p_Err p' = Some errBadLength).

Lemma length_p_Bytes p : 0 ≤ p_len p ≤ p_cap p → Z.of_nat (length (p_Bytes p)) = p_len p.
Proof. unfold p_Bytes, p_cap. intros. rewrite length_take. lia. Qed.

Lemma Expand_spec n p :
  wf_w p → 0 ≤ n →
  wf_w (Expand n p) ∧ p_MaxSize (Expand n p) = p_MaxSize p ∧
  p_Offset (Expand n p) = p_Offset p ∧ p_len p ≤ p_len (Expand n p) ∧
  take (Z.to_nat (p_len p)) (p_arr (Expand n p)) = p_Bytes p ∧
  (if decide (n + p_Offset p ≤ p_MaxSize p)
   then p_Err (Expand n p) = p_Err p ∧ n + p_Offset p ≤ p_len (Expand n p) ∧
        p_len (Expand n p) = Z.max (p_len p) (n + p_Offset p)
   else p_Err (Expand n p) = Some errBadLength).
Proof.
  intros ([Ho Hol]&Hc&Hm) Hn.
  pose proof (append_cap_ge (p_cap p) (n + p_Offset p)) as Hcap.
  destruct (decide (n + p_Offset p ≤ p_MaxSize p)) as [Hmx|Hmx]; unfold Expand; cbv zeta;
    repeat case_decide; unfold wf_w, p_cap, zeros in *; simpl;
    rewrite ?length_app, ?length_replicate; try lia;
    split_and!; try done; try lia.
  rewrite <-!app_assoc. apply take_app_le. lia.
Qed.

Lemma write_bytes_end p bs :
  0 ≤ p_Offset p → p_Offset p + Z.of_nat (length bs) = p_len p → p_len p ≤ p_cap p →
  ∃ p', write_bytes bs p = Some (tt, p') ∧ p_Err p' = p_Err p ∧ p_MaxSize p' = p_MaxSize p ∧
    p_len p' = p_len p ∧ p_Offset p' = p_len p ∧ p_cap p' = p_cap p ∧
    p_Bytes p' = take (Z.to_nat (p_Offset p)) (p_arr p) ++ bs.
Proof.
  intros Ho Hl Hc. unfold write_bytes. rewrite decide_True by lia.
  eexists. split; [done|]. simpl. unfold p_cap, p_Bytes in *. simpl.
  rewrite !length_app, length_take, length_drop. split_and!; try done; try lia.
  rewrite app_assoc. rewrite take_app_le; [apply take_ge|];
    rewrite length_app, length_take; lia.
Qed.

Lemma appends_raw n bs : n = Z.of_nat (length bs) → appends (pack_raw n bs) bs.
Proof.
  intros -> p Hw. pose proof (Expand_spec (Z.of_nat (length bs)) p Hw ltac:(lia)) as He.
  unfold pack_raw. set (q := Expand _ p) in *. destruct He as (Hq&Hmq&Hoq&Hlq&Htq&He).
  destruct Hw as ([Ho Hol]&Hc&Hm). split.
  - intros Herr. unfold Errored. case_decide as Hd.
    + destruct He as (Ee&_). rewrite Ee, Herr. by exists q; rewrite Ee.
    + rewrite He. by exists q.
  - intros Herr Heq. unfold Errored. rewrite Heq in He.
    destruct (decide (p_len p + Z.of_nat (length bs) ≤ p_MaxSize p)) as [Hd|Hd].
    2:{ rewrite decide_False in He by lia. rewrite He. by exists q. }
    rewrite decide_True in He by lia. destruct He as (Ee&_&El). rewrite Ee, Herr.
    destruct Hq as ([??]&?&?).
    destruct (write_bytes_end q bs) as (p'&->&E1&E2&E3&E4&E5&E6); [lia..|].
    exists p'. split; [done|]. split; [unfold wf_w; lia|].
    split_and!; [congruence| |lia|congruence].
    rewrite E6, Hoq, Heq, Htq. done.
Qed.

Lemma appends_ret : appends (pret tt) [].
Proof.
  intros p Hw. split; [by exists p|]. intros. exists p. split_and!; [done..|].
  destruct Hw as (?&?&?). rewrite decide_True by (simpl; lia). by rewrite app_nil_r.
Qed.

Lemma appends_bind m1 m2 e1 e2 :
  appends m1 e1 → appends m2 e2 → appends (m1;; m2) (e1 ++ e2).
Proof.
  intros H1' H2' p Hw. unfold pbind. destruct (H1' p Hw) as [He Ho]. split.
  - intros Herr. destruct (He Herr) as (p1&->&Hw1&Hp1). by apply H2'.
  - intros Herr Hoff. destruct (Ho Herr Hoff) as (p1&->&Hw1&Hp1).
    rewrite length_app, Nat2Z.inj_add. case_decide as Hd.
    + destruct Hp1 as (E1&E2&E3&E4). destruct (H2' p1 Hw1) as [_ Ho2].
      destruct (Ho2 E1 E3) as (p2&->&Hw2&Hp2). exists p2. split_and!; [done..|].
      assert (p_len p1 = p_len p + Z.of_nat (length e1)) as El.
      { destruct Hw as (?&?&?), Hw1 as (?&?&?). rewrite <-(length_p_Bytes p1) by lia.
        rewrite E2, length_app, Nat2Z.inj_add, length_p_Bytes by lia. done. }
      rewrite El, E4, <-Z.add_assoc in Hp2. case_decide as Hd2; [|done].
      destruct Hp2 as (?&E5&?&?). split_and!; [done| |done|congruence].
      by rewrite E5, E2, app_assoc.
    + destruct (H2' p1 Hw1) as [He2 _]. destruct (He2 Hp1) as (p2&->&Hw2&Hp2).
      exists p2. split_and!; [done..|]. by rewrite decide_False by lia.
Qed.

Lemma appends_each {A} (f : A → packing unit) (g : A → bytes) l :
  (∀ x, x ∈ l → appends (f x) (g x)) → appends (pack_each f l) (mjoin (g <$> l)).
Proof.
  induction l as [|x l IH]; intros Hf; [apply appends_ret|]. simpl.
  apply appends_bind; [apply Hf; left|apply IH]. intros y Hy. apply Hf. by right.
Qed.

Lemma appends_each_ok {A} (f : A → packing unit) (g : A → bytes) l :
  (∀ x, x ∈ l → appends (f x) (g x)) → appends (pack_each_ok f l) (mjoin (g <$> l)).
Proof.
  induction l as [|x l IH]; intros Hf; [apply appends_ret|].
  assert (appends (f x;; pack_each_ok f l) (g x ++ mjoin (g <$> l))) as Hx.
  { apply appends_bind; [apply Hf; left|apply IH]. intros y Hy. apply Hf. by right. }
  intros p Hw. destruct (Hx p Hw) as [He Ho]. simpl. unfold Errored. split.
  - intros Herr. rewrite Herr. by exists p.
  - intros Herr Hoff. rewrite Herr. by apply Ho.
Qed.

(** ** Specifications of methods that unpack *)

(** [u] reads the encoding [enc] of [v] at the offset and moves past it. *)
Definition reads {A} (u : packing A) (enc : bytes) (v : A) : Prop := ∀ p pre post,
  0 ≤ p_len p ≤ p_cap p → p_Err p = None → p_Bytes p = pre ++ enc ++ post →
  p_Offset p = Z.of_nat (length pre) →
  u p = Some (v, set_Offset (Z.of_nat (length (pre ++ enc))) p).

Lemma reads_raw {A} n (zero : A) f enc :
  n = Z.of_nat (length enc) → reads (unpack_raw n zero f) enc (f enc).
Proof.
  intros -> p pre post Hl Herr Hb Ho. unfold unpack_raw, CheckSpace.
  pose proof (length_p_Bytes p Hl) as Hlen. rewrite Hb, !length_app in Hlen.
  rewrite !decide_False by lia. unfold Errored. rewrite Herr. unfold read_bytes.
  rewrite decide_True by lia. rewrite Hb, Ho, !Nat2Z.id, drop_app_length, take_app_length.
  by rewrite length_app, Nat2Z.inj_add.
Qed.

Lemma reads_ret {A} (v : A) : reads (pret v) [] v.
Proof.
  intros p pre post _ _ _ Ho. unfold pret. rewrite app_nil_r, <-Ho. by destruct p.
Qed.

Lemma reads_bind {A B} (m : packing A) (k : A → packing B) e1 e2 a b :
  reads m e1 a → reads (k a) e2 b → reads (pbind m k) (e1 ++ e2) b.
Proof.
  intros Hm Hk p pre post Hl Herr Hb Ho. unfold pbind.
  rewrite (Hm p pre (e2 ++ post) Hl Herr) by (by rewrite ?Hb, ?app_assoc in * ).
  rewrite (Hk _ (pre ++ e1) post); [|done|done| |done].
  - by rewrite app_assoc.
  - unfold p_Bytes in *. simpl. by rewrite Hb, !app_assoc.
Qed.

Lemma reads_map {A B} (m : packing A) (f : A → B) e a :
  reads m e a → reads (pbind m (λ x, pret (f x))) e (f a).
Proof.
  intros Hm. rewrite <-(app_nil_r e). by eapply reads_bind; [|apply reads_ret].
Qed.

Lemma reads_each {A} (u : packing A) (g : A → bytes) l :
  (∀ x, x ∈ l → reads u (g x) x) → reads (unpack_each (length l) u) (mjoin (g <$> l)) l.
Proof.
  induction l as [|x l IH]; intros Hu; [apply reads_ret|].
  assert (reads (pbind u (λ x, pbind (unpack_each (length l) u) (λ l, pret (x :: l))))
    (g x ++ mjoin (g <$> l)) (x :: l)) as Hx.
  { eapply reads_bind; [apply Hu; left|]. apply (reads_map _ (cons x)), IH.
    intros y Hy. apply Hu. by right. }
  intros p pre post Hl Herr Hb Ho. cbn [length unpack_each]. unfold Errored. rewrite Herr.
  by eapply Hx.
Qed.

(** ** Encodings *)

Definition enc_int (x : Z) : bytes := be_bytes 4 x.
Definition enc_bytes (b : bytes) : bytes := enc_int (Z.of_nat (length b)) ++ b.
Definition enc_list {A} (g : A → bytes) (l : list A) : bytes :=
  enc_int (Z.of_nat (length l)) ++ mjoin (g <$> l).
Definition enc_str (s : bytes) : bytes := be_bytes 2 (Z.of_nat (length s)) ++ s.
Definition enc_ip (ip : IPPort) : bytes := ip_IP ip ++ be_bytes 2 (ip_Port ip).
Definition enc_claimed (c : ClaimedIPPort) : bytes :=
  enc_bytes (match ci_Cert c with Some c => cert_Raw c | None => [] end) ++
  enc_ip (ci_IPPort c) ++ be_bytes 8 (ci_Timestamp c) ++ enc_bytes (ci_Signature c).

Abbreviation len32 l := (is_uint 32 (Z.of_nat (length l))).

Lemma reads_be n w x :
  Z.of_nat n * 8 = w → is_uint w x →
  reads (unpack_raw (Z.of_nat n) 0 be_value) (be_bytes n x) x.
Proof.
  intros Hw Hx. assert (be_value (be_bytes n x) = x) as E.
  { rewrite be_value_bytes. apply Z.mod_small. unfold is_uint in Hx.
    change 256 with (2 ^ 8). rewrite <-Z.pow_mul_r by lia. by rewrite Z.mul_comm, Hw. }
  rewrite <-E at 2. apply reads_raw. by rewrite length_be_bytes.
Qed.

Lemma appends_be n x : appends (pack_raw (Z.of_nat n) (be_bytes n x)) (be_bytes n x).
Proof. apply appends_raw. by rewrite length_be_bytes. Qed.

Lemma PackInt_appends x : appends (PackInt x) (enc_int x).
Proof. apply (appends_be 4). Qed.
Lemma PackLong_appends x : appends (PackLong x) (be_bytes 8 x).
Proof. apply (appends_be 8). Qed.
Lemma PackShort_appends x : appends (PackShort x) (be_bytes 2 x).
Proof. apply (appends_be 2). Qed.
Lemma UnpackInt_reads x : is_uint 32 x → reads UnpackInt (enc_int x) x.
Proof. by apply (reads_be 4 32). Qed.
Lemma UnpackLong_reads x : is_uint 64 x → reads UnpackLong (be_bytes 8 x) x.
Proof. by apply (reads_be 8 64). Qed.
Lemma UnpackShort_reads x : is_uint 16 x → reads UnpackShort (be_bytes 2 x) x.
Proof. by apply (reads_be 2 16). Qed.

Lemma PackByte_appends b : appends (PackByte b) [b].
Proof. by apply appends_raw. Qed.
Lemma UnpackByte_reads b : reads UnpackByte [b] b.
Proof. by apply (reads_raw ByteLen x00 (λ bs, nth 0 bs x00) [b]). Qed.

Lemma PackFixedBytes_appends b : appends (PackFixedBytes b) b.
Proof. by apply appends_raw. Qed.
Lemma UnpackFixedBytes_reads n b : Z.of_nat (length b) = n → reads (UnpackFixedBytes n) b b.
Proof. intros <-. by apply (reads_raw _ [] id b). Qed.

Lemma PackBool_appends (b : bool) : appends (PackBool b) [if b then x01 else x00].
Proof. apply PackByte_appends. Qed.
Lemma UnpackBool_reads (b : bool) : reads UnpackBool [if b then x01 else x00] b.
Proof.
  rewrite <-(app_nil_r [if b then x01 else x00]).
  eapply reads_bind; [apply UnpackByte_reads|].
  destruct b; apply reads_ret.
Qed.

Lemma PackBytes_appends b : len32 b → appends (PackBytes b) (enc_bytes b).
Proof.
  intros Hb. unfold PackBytes. rewrite wrap_id by done.
  apply appends_bind; [apply PackInt_appends|apply PackFixedBytes_appends].
Qed.
Lemma UnpackBytes_reads b : len32 b → reads UnpackBytes (enc_bytes b) b.
Proof.
  intros Hb. eapply reads_bind; [by apply UnpackInt_reads|]. by apply UnpackFixedBytes_reads.
Qed.

(** A counted list of encodings. *)
Lemma pack_list_appends {A} (f : A → packing unit) (g : A → bytes) l :
  len32 l → (∀ x, x ∈ l → appends (f x) (g x)) →
  appends (PackInt (wrap 32 (Z.of_nat (length l)));; pack_each f l) (enc_list g l).
Proof.
  intros Hl Hf. rewrite wrap_id by done.
  apply appends_bind; [apply PackInt_appends|by apply appends_each].
Qed.
Lemma unpack_list_reads {A} (u : packing A) (g : A → bytes) l :
  len32 l → (∀ x, x ∈ l → reads u (g x) x) →
  reads (pbind UnpackInt (λ n, unpack_each (Z.to_nat n) u)) (enc_list g l) l.
Proof.
  intros Hl Hu. eapply reads_bind; [by apply UnpackInt_reads|]. rewrite Nat2Z.id.
  by apply reads_each.
Qed.

Lemma PackStr_appends s : Z.of_nat (length s) ≤ MaxStringLen → appends (PackStr s) (enc_str s).
Proof.
  intros Hs. unfold PackStr. rewrite decide_False by lia.
  rewrite wrap_id by (unfold is_uint, MaxStringLen, MaxUint16 in *; lia).
  apply appends_bind; [apply PackShort_appends|apply PackFixedBytes_appends].
Qed.
Lemma UnpackStr_reads s : Z.of_nat (length s) ≤ MaxStringLen → reads UnpackStr (enc_str s) s.
Proof.
  intros Hs. eapply reads_bind; [|by apply UnpackFixedBytes_reads].
  apply UnpackShort_reads. unfold is_uint, MaxStringLen, MaxUint16 in *. lia.
Qed.

(** Addresses on the wire have 16 bytes. *)
Definition ip_ok (ip : IPPort) : Prop := length (ip_IP ip) = 16%nat ∧ is_uint 16 (ip_Port ip).

Lemma PackIP_appends ip : ip_ok ip → appends (PackIP ip) (enc_ip ip).
Proof.
  intros [Hl _]. unfold PackIP, To16. rewrite decide_False, decide_True by lia.
  apply appends_bind; [apply PackFixedBytes_appends|apply PackShort_appends].
Qed.
Lemma UnpackIP_reads ip : ip_ok ip → reads UnpackIP (enc_ip ip) ip.
Proof.
  intros [Hl Hp]. eapply reads_bind; [apply UnpackFixedBytes_reads; by rewrite Hl|].
  destruct ip as [ip port]. simpl in *.
  by apply (reads_map _ (mkIPPort ip)), UnpackShort_reads.
Qed.

Definition claimed_ok (c : ClaimedIPPort) : Prop :=
  (∃ crt, ci_Cert c = Some crt ∧ len32 (cert_Raw crt)) ∧ ip_ok (ci_IPPort c) ∧
  is_uint 64 (ci_Timestamp c) ∧ len32 (ci_Signature c).

Lemma PackClaimedIPPort_appends c : claimed_ok c → appends (PackClaimedIPPort c) (enc_claimed c).
Proof.
  intros ([crt [Hc Hl]]&Hip&_&Hs). unfold PackClaimedIPPort, enc_claimed. rewrite Hc.
  apply appends_bind; [by apply PackBytes_appends|].
  apply appends_bind; [by apply PackIP_appends|].
  apply appends_bind; [apply PackLong_appends|by apply PackBytes_appends].
Qed.

Lemma UnpackClaimedIPPort_reads `{!CertLaws} c :
  claimed_ok c → reads UnpackClaimedIPPort (enc_claimed c) c.
Proof.
  destruct c as [crt ip ts sig]. intros ([c0 [Hc Hl]]&Hip&Ht&Hs). simpl in *. subst crt.
  unfold enc_claimed.
  cbn [ci_Cert ci_IPPort ci_Timestamp ci_Signature]. unfold UnpackClaimedIPPort. eapply reads_bind.
  { rewrite <-(app_nil_r (enc_bytes _)).
    eapply reads_bind; [by apply UnpackBytes_reads|]. rewrite ParseCertificate_Raw. apply reads_ret. }
  eapply reads_bind; [by apply UnpackIP_reads|].
  eapply reads_bind; [by apply UnpackLong_reads|].
  by apply (reads_map _ (mkClaimedIPPort (Some c0) ip ts)), UnpackBytes_reads.
Qed.

(** ** Unpacking arbitrary bytes

    A method that unpacks never panics, never reads outside the visible bytes and
    does nothing on a packer in error. *)
Definition rd_ok (p : Packer) : Prop := 0 ≤ p_Offset p ≤ p_len p ∧ p_len p ≤ p_cap p.

Record rd_step (p p' : Packer) : Prop := {
  rs_ok : rd_ok p';
  rs_arr : p_arr p' = p_arr p;
  rs_len : p_len p' = p_len p;
  rs_offset : p_Offset p ≤ p_Offset p';
  rs_err : p_Err p ≠ None → p' = p;
}.

Definition rd_total {A} (u : packing A) : Prop :=
  ∀ p, rd_ok p → ∃ v p', u p = Some (v, p') ∧ rd_step p p'.

Lemma rd_step_refl p : rd_ok p → rd_step p p.
Proof. by split. Qed.

Lemma rd_step_trans p p' p'' : rd_step p p' → rd_step p' p'' → rd_step p p''.
Proof.
  intros [O1 A1 L1 F1 E1] [O2 A2 L2 F2 E2]. split; [done|congruence|congruence|lia|].
  intros He. rewrite E2; [by apply E1|]. by rewrite E1.
Qed.

Lemma rd_step_Add e p : rd_ok p → rd_step p (Errs_Add e p).
Proof. intros Hp. unfold Errs_Add. destruct (p_Err p) eqn:E; by split. Qed.

Lemma rd_total_ret {A} (v : A) : rd_total (pret v).
Proof. intros p Hp. exists v, p. split; [done|by apply rd_step_refl]. Qed.

Lemma rd_total_add {A} (v : A) e : rd_total (λ p, Some (v, Errs_Add e p)).
Proof. intros p Hp. eexists _, _. split; [done|by apply rd_step_Add]. Qed.

Lemma rd_total_bind {A B} (m : packing A) (k : A → packing B) :
  rd_total m → (∀ a, rd_total (k a)) → rd_total (pbind m k).
Proof.
  intros Hm Hk p Hp. destruct (Hm p Hp) as (a&p'&E&Hs).
  destruct (Hk a p' (rs_ok _ _ Hs)) as (b&p''&E'&Hs'). exists b, p''. unfold pbind.
  rewrite E. split; [done|by eapply rd_step_trans].
Qed.

Lemma rd_total_raw {A} n (zero : A) f : rd_total (unpack_raw n zero f).
Proof.
  intros p Hp. unfold unpack_raw. destruct Hp as [[Ho Hol] Hc].
  assert (rd_step p (CheckSpace n p)) as Hs.
  { unfold CheckSpace. repeat case_decide; try (apply rd_step_Add; by split).
    apply rd_step_refl. by split. }
  destruct (Errored (CheckSpace n p)) eqn:Ee; [by eexists _, _|].
  assert (CheckSpace n p = p ∧ 0 ≤ n ∧ n ≤ p_len p - p_Offset p ∧ p_Err p = None)
    as (->&Hn&Hl&He).
  { unfold CheckSpace, Errs_Add, Errored in *.
    repeat case_decide; destruct (p_Err p) eqn:E; simpl in *; rewrite ?E in *; try done.
    split_and!; try done; lia. }
  unfold read_bytes. rewrite decide_True by lia. eexists _, _. split; [done|].
  split; simpl; [|done|done|lia|done]. split; simpl; [lia|done].
Qed.

(** Without an error the offset has moved past the bytes read. *)
Lemma unpack_raw_advance {A} n (zero : A) f p v p' :
  unpack_raw n zero f p = Some (v, p') → p_Err p' = None → p_Offset p' = p_Offset p + n.
Proof.
  unfold unpack_raw, CheckSpace, Errs_Add, Errored, read_bytes. intros E He.
  repeat (case_decide || case_match); simplify_eq/=; try congruence.
Qed.

Lemma rd_total_each {A} n (u : packing A) : rd_total u → rd_total (unpack_each n u).
Proof.
  intros Hu. induction n as [|n IH]; [apply rd_total_ret|]. intros p Hp. cbn [unpack_each].
  destruct (Errored p); [eexists _, _; split; [done|by apply rd_step_refl]|].
  apply rd_total_bind; [done| |done]. intros x. apply rd_total_bind; [done|].
  intros l. apply rd_total_ret.
Qed.

End packer.

#[export] Hint Resolve rd_total_ret rd_total_add rd_total_bind rd_total_raw rd_total_each : node.

(** Every method that unpacks is total. *)
Ltac rd_total := repeat first
  [ apply rd_total_raw | apply rd_total_ret | apply rd_total_add
  | apply rd_total_each | apply rd_total_bind; [|intros ?] | case_decide | case_match ].

Section total.
Context `{GoAppend, CertLib}.

Lemma UnpackBytes_total : rd_total UnpackBytes.
Proof. unfold UnpackBytes, UnpackInt, UnpackFixedBytes. rd_total. Qed.

Lemma UnpackIP_total : rd_total UnpackIP.
Proof. unfold UnpackIP, UnpackFixedBytes, UnpackShort. rd_total. Qed.

Lemma UnpackClaimedIPPort_total : rd_total UnpackClaimedIPPort.
Proof.
  unfold UnpackClaimedIPPort, UnpackX509Certificate, UnpackLong.
  rd_total; apply UnpackBytes_total || apply UnpackIP_total.
Qed.
End total.

(** The error of a packer is sticky but not its kind: [Expand] assigns the error
    where every other method keeps the first one. *)
Lemma Expand_overwrites_error `{GoAppend} :
  p_Err (Errs_Add errBadLength (mkPacker (Some errInvalidInput) 0 [] 0 0)) = Some errInvalidInput ∧
  p_Err (Expand 1 (mkPacker (Some errInvalidInput) 0 [] 0 0)) = Some errBadLength.
Proof. done. Qed.
