(* ===== verification/MessageRoundTrip.v ===== *)
(** The message codec read against its specification ([message/codec.go]).

    [enc_field] is the encoding of a field on the wire and [field_ok] the values
    that have one.  A message packed from valid fields is parsed back to the same
    operation and fields, compressed or not; parsing never panics; the tables of
    operations are consistent. *)

From Stdlib Require Import Strings.Byte.
From S2P Require Import Prelude Ids Packer Message.

Section spec.
Context `{GoAppend, CertLib}.

(** ** Encodings of fields *)

Definition hash_ok (b : bytes) : Prop := length b = 32%nat.

(** The values a field may carry: the type its packer expects, the sizes its
    encoding can express. *)
Definition field_ok (f : Field) (v : value) : Prop :=
  match f, v with
  | VersionStr, VStr s => Z.of_nat (length s) ≤ MaxStringLen
  | (NetworkID | NodeID | RequestID), VInt x => is_uint 32 x
  | (MyTime | Deadline | VersionTime), VLong x => is_uint 64 x
  | IP, VIP ip => ip_ok ip
  | (ChainID | ContainerID), VBytes b => hash_ok b
  | (ContainerBytes | AppBytes | SigBytes | SummaryBytes), VBytes b => is_uint 32 (Z.of_nat (length b))
  | (ContainerIDs | TrackedSubnets | SummaryIDs), VByteSlices l =>
      is_uint 32 (Z.of_nat (length l)) ∧ ∀ b, b ∈ l → hash_ok b
  | MultiContainerBytes, VByteSlices l =>
      is_uint 32 (Z.of_nat (length l)) ∧ ∀ b, b ∈ l → is_uint 32 (Z.of_nat (length b))
  | Peers, VIPCerts l => is_uint 32 (Z.of_nat (length l)) ∧ ∀ c, c ∈ l → claimed_ok c
  | Uptime, VByte _ => True
  | SummaryHeights, VLongs l => is_uint 32 (Z.of_nat (length l)) ∧ ∀ x, x ∈ l → is_uint 64 x
  | _, _ => False
  end.

Definition enc_value (f : Field) (v : value) : bytes :=
  match v with
  | VByte b => [b]
  | VInt x => enc_int x
  | VLong x => be_bytes 8 x
  | VBytes b => match f with ChainID | ContainerID => b | _ => enc_bytes b end
  | VByteSlices l =>
      match f with MultiContainerBytes => enc_list enc_bytes l | _ => enc_list id l end
  | VStr s => enc_str s
  | VIP ip => enc_ip ip
  | VIPCerts l => enc_list enc_claimed l
  | VLongs l => enc_list (be_bytes 8) l
  end.

Lemma Field_appends f v :
  field_ok f v → ∃ pack, Field_Packer f = Some pack ∧ appends (pack v) (enc_value f v).
Proof.
  destruct f, v; try done; intros Hv; (eexists; split; [reflexivity|]); simpl in Hv |- *;
    try by lazymatch goal with
      | |- appends (PackStr _) _ => apply PackStr_appends
      | |- appends (PackInt _) _ => apply PackInt_appends
      | |- appends (PackLong _) _ => apply PackLong_appends
      | |- appends (PackIP _) _ => apply PackIP_appends
      | |- appends (PackFixedBytes _) _ => apply PackFixedBytes_appends
      | |- appends (PackBytes _) _ => apply PackBytes_appends
      | |- appends (PackByte _) _ => apply PackByte_appends
      end.
  all: destruct Hv as [Hl Hx]; apply pack_list_appends; [done|]; intros x Hin;
    specialize (Hx x Hin).
  all: by first [apply PackFixedBytes_appends | apply PackBytes_appends
    | apply PackClaimedIPPort_appends | apply PackLong_appends].
Qed.

Lemma hash_read b : hash_ok b → reads (UnpackFixedBytes HashLen) b b.
Proof. intros Hb. apply UnpackFixedBytes_reads. by rewrite Hb. Qed.

Lemma reads_list {A} (u : packing A) (g : A → bytes) (mk : list A → value) l :
  is_uint 32 (Z.of_nat (length l)) → (∀ x, x ∈ l → reads u (g x) x) →
  reads (pbind UnpackInt (λ n, pbind (unpack_each (Z.to_nat n) u) (λ l, pret (mk l))))
    (enc_list g l) (mk l).
Proof.
  intros Hl Hu. eapply reads_bind; [by apply UnpackInt_reads|]. rewrite Nat2Z.id.
  by apply reads_map, reads_each.
Qed.

Lemma Field_reads `{!CertLaws} f v :
  field_ok f v → ∃ u, Field_Unpacker f = Some u ∧ reads u (enc_value f v) v.
Proof.
  destruct f, v; try done; intros Hv; (eexists; split; [reflexivity|]); simpl in Hv |- *;
    try by first [apply (reads_map _ VStr), UnpackStr_reads
      | apply (reads_map _ VInt), UnpackInt_reads | apply (reads_map _ VLong), UnpackLong_reads
      | apply (reads_map _ VIP), UnpackIP_reads | apply (reads_map _ VBytes), hash_read
      | apply (reads_map _ VBytes), UnpackBytes_reads | apply (reads_map _ VByte), UnpackByte_reads].
  all: destruct Hv as [Hl Hx].
  all: try by first [apply (reads_list _ _ VLongs); [done|]; intros ??; apply UnpackLong_reads, Hx
      | apply (reads_list _ _ VIPCerts); [done|]; intros ??; apply UnpackClaimedIPPort_reads, Hx].
  all: apply (reads_map _ VByteSlices), unpack_list_reads; [done|]; intros x Hin;
    specialize (Hx x Hin); by first [apply hash_read | apply UnpackBytes_reads].
Qed.

(** ** The fields of a message *)

Definition fields_ok (l : list Field) (fv : gmap Field value) : Prop :=
  ∀ f, f ∈ l → ∃ v, fv !! f = Some v ∧ field_ok f v.

Definition enc_fields (l : list Field) (fv : gmap Field value) : bytes :=
  mjoin ((λ f, match fv !! f with Some v => enc_value f v | None => [] end) <$> l).

(** The fields of [l] that [fv] has, added to [acc]. *)
Definition with_fields (l : list Field) (fv acc : gmap Field value) : gmap Field value :=
  foldl (λ acc f, match fv !! f with Some v => <[f := v]> acc | None => acc end) acc l.

Lemma with_fields_lookup l fv acc f :
  fields_ok l fv → with_fields l fv acc !! f = if decide (f ∈ l) then fv !! f else acc !! f.
Proof.
  unfold with_fields. revert acc. induction l as [|f' l IH]; intros acc Hok; [done|]. simpl.
  destruct (Hok f') as (v&Hv&_); [left|]. rewrite Hv, IH by (intros g Hg; apply Hok; by right).
  destruct (decide (f = f')) as [->|Hne].
  - rewrite (decide_True (P := f' ∈ f' :: l)) by left. case_decide; [done|]. by rewrite lookup_insert_eq.
  - rewrite lookup_insert_ne by done.
    destruct (decide (f ∈ l)); [rewrite decide_True by (by right)|rewrite decide_False by set_solver];
      done.
Qed.

Lemma pack_fields_appends l fv :
  fields_ok l fv → ∃ m, appends m (enc_fields l fv) ∧
    ∀ p, pack_fields l fv p = match m p with Some (_, p) => Some (Ok p) | None => None end.
Proof.
  induction l as [|f l IH]; intros Hok.
  { exists (pret tt). split; [apply appends_ret|done]. }
  destruct (Hok f) as (v&Hv&Hf); [left|]. destruct (Field_appends f v Hf) as (pack&Hp&Ha).
  destruct IH as (m&Hm&Hl); [intros g Hg; apply Hok; by right|].
  exists (pbind (pack v) (λ _, m)). split.
  - unfold enc_fields. simpl. rewrite Hv. by apply appends_bind.
  - intros p. simpl. rewrite Hv, Hp. unfold pbind. destruct (pack v p) as [[[] p']|]; [|done].
    apply Hl.
Qed.

Lemma unpack_fields_reads `{!CertLaws} l fv acc p pre post :
  fields_ok l fv → 0 ≤ p_len p ≤ p_cap p → p_Err p = None →
  p_Bytes p = pre ++ enc_fields l fv ++ post → p_Offset p = Z.of_nat (length pre) →
  unpack_fields l acc p = Some (with_fields l fv acc,
    set_Offset (Z.of_nat (length (pre ++ enc_fields l fv))) p).
Proof.
  revert acc p pre. induction l as [|f l IH]; intros acc p pre Hok Hl Herr Hb Ho.
  { unfold enc_fields. simpl. rewrite app_nil_r, <-Ho. by destruct p. }
  destruct (Hok f) as (v&Hv&Hf); [left|]. destruct (Field_reads f v Hf) as (u&Hu&Hr).
  assert (enc_fields (f :: l) fv = enc_value f v ++ enc_fields l fv) as E
    by (unfold enc_fields; simpl; by rewrite Hv).
  rewrite E in *. cbn [unpack_fields]. rewrite Hu.
  rewrite (Hr p pre (enc_fields l fv ++ post)) by (by rewrite ?Hb, ?app_assoc).
  rewrite (IH _ _ (pre ++ enc_value f v)); [| |done|done| |done].
  - unfold with_fields. simpl. by rewrite Hv, app_assoc.
  - intros g Hg. apply Hok. by right.
  - unfold p_Bytes in *. simpl. by rewrite Hb, !app_assoc.
Qed.

(** ** Packing a message *)

Definition header (op : Op) (compress : bool) : bytes :=
  to_byte (op_code op) :: (if Compressible op then [if compress then x01 else x00] else []).

Context `{GzipLib}.

Lemma codec_Pack_bytes maxSize buffer op l fv compress bypass :
  messages op = Some l → fields_ok l fv →
  ∃ p, (if decide (Z.of_nat (length (header op compress ++ enc_fields l fv)) ≤ MaxInt32)
        then p_Err p = None ∧ p_Bytes p = header op compress ++ enc_fields l fv
        else p_Err p = Some errBadLength) ∧
    codec_Pack maxSize buffer op fv compress bypass =
    match p_Err p with
    | Some e => Some (Err (errPack e))
    | None =>
        let msg := mkOutboundMessage (p_Bytes p) 0 op bypass 1 in
        if negb compress then Some (Ok msg)
        else if decide (length (p_Bytes p) < 2)%nat then None
        else match gzip_Compress maxSize (drop 2 (p_Bytes p)) with
             | Err e => Some (Err e)
             | Ok c => if negb (Compressible op) then None
                 else Some (Ok (mkOutboundMessage (take 2 (p_Bytes p) ++ c)
                 (Z.of_nat (length (drop 2 (p_Bytes p))) - Z.of_nat (length c)) op bypass 1))
             end
    end.
Proof.
  intros Hm Hok. destruct (pack_fields_appends l fv Hok) as (mf&Hmf&Hpf).
  set (p0 := mkPacker None MaxInt32 buffer 0 0).
  assert (wf_w p0) as Hw by (unfold wf_w, p_cap; simpl; unfold MaxInt32; lia).
  set (mh := if Compressible op then PackBool compress else pret tt).
  assert (appends mh (if Compressible op then [if compress then x01 else x00] else [])) as Hmh
    by (unfold mh; destruct (Compressible op); [apply PackBool_appends|apply appends_ret]).
  pose proof (appends_bind _ _ _ _ (PackByte_appends (to_byte (op_code op)))
    (appends_bind _ _ _ _ Hmh Hmf)) as Hall.
  destruct (Hall p0 Hw) as [_ Ho]. destruct (Ho eq_refl eq_refl) as (p&Hp&_&Hres).
  exists p. split.
  - unfold header. cbn [p_len p_MaxSize p0] in Hres. rewrite Z.add_0_l in Hres.
    simpl in Hres |- *. case_decide; [|done]. by destruct Hres as (?&->&_).
  - unfold codec_Pack. rewrite Hm. cbv zeta. fold p0. unfold pbind in Hp.
    destruct (PackByte _ p0) as [[[] p1]|]; [|done].
    assert ((if Compressible op then PackBool compress p1 else Some (tt, p1)) = mh p1) as ->
      by (unfold mh; by destruct (Compressible op)).
    destruct (mh p1) as [[[] p2]|]; [|done]. rewrite Hpf, Hp. by destruct (p_Err p).
Qed.

(** ** Parsing a message *)

Lemma op_of_byte_code op l : messages op = Some l → op_of_byte (to_byte (op_code op)) = Some op.
Proof. destruct op; try done; intros _; vm_compute; reflexivity. Qed.

(** What the parser of the payload makes of the encoding of valid fields. *)
Lemma parse_payload_fields `{!CertLaws} timeout now op l fv saved nodeID p pre :
  fields_ok l fv → 0 ≤ p_len p ≤ p_cap p → p_Err p = None →
  p_Bytes p = pre ++ enc_fields l fv → p_Offset p = Z.of_nat (length pre) →
  parse_payload timeout now op l saved nodeID p =
  Some (Ok (mkInboundMessage _ op saved (with_fields l fv ∅) nodeID
              (expiration timeout now (with_fields l fv ∅)))).
Proof.
  intros Hok Hl Herr Hb Ho. unfold parse_payload.
  rewrite (unpack_fields_reads l fv ∅ p pre []) by (by rewrite ?app_nil_r). simpl. rewrite Herr.
  rewrite decide_False; [done|]. rewrite <-Hb, length_p_Bytes by done. auto.
Qed.

Lemma whole_packer bs :
  let p := mkPacker None 0 bs (Z.of_nat (length bs)) 0 in
  0 ≤ p_len p ≤ p_cap p ∧ p_Err p = None ∧ p_Bytes p = bs.
Proof.
  simpl. unfold p_cap, p_Bytes. simpl. split_and!; [lia|lia|done|].
  rewrite Nat2Z.id. by rewrite firstn_all.
Qed.

(** The operation byte and, for compressible operations, the flag. *)
Lemma codec_Parse_header maxSize timeout now op l compress rest nodeID :
  messages op = Some l → (compress = true → Compressible op = true) →
  let bs := header op compress ++ rest in
  let p := mkPacker None 0 bs (Z.of_nat (length bs)) (Z.of_nat (length (header op compress))) in
  codec_Parse maxSize timeout now bs nodeID =
  if negb compress then parse_payload timeout now op l 0 nodeID p
  else match gzip_Decompress maxSize rest with
       | Err e => Some (Err e)
       | Ok payload =>
           let bs := to_byte (op_code op) :: payload in
           parse_payload timeout now op l (Z.of_nat (length payload) - Z.of_nat (length rest))
             nodeID (mkPacker None 0 bs (Z.of_nat (length bs)) 1)
       end.
Proof.
  intros Hm Hc bs p. unfold codec_Parse. fold bs. cbv zeta.
  destruct (whole_packer bs) as (Hl&Herr&Hb). set (p0 := mkPacker None 0 bs _ 0) in *.
  rewrite (UnpackByte_reads (to_byte (op_code op)) p0 []
    ((if Compressible op then [if compress then x01 else x00] else []) ++ rest)) by done.
  rewrite (op_of_byte_code op l Hm), Hm.
  assert ((if Compressible op then UnpackBool (set_Offset 1 p0) else Some (false, set_Offset 1 p0)) =
    Some (compress, p)) as E.
  { unfold p, header in *. destruct (Compressible op) eqn:Ec.
    - by rewrite (UnpackBool_reads compress (set_Offset 1 p0) [to_byte (op_code op)] rest).
    - destruct compress; [by specialize (Hc eq_refl)|done]. }
  change (Z.of_nat (length ([] ++ [to_byte (op_code op)]))) with 1. rewrite E.
  change (p_Err p) with (@None pack_error). cbn iota. destruct compress; simpl negb; [|done].
  change (p_Bytes p) with (p_Bytes p0). rewrite Hb. unfold bs, header. rewrite (Hc eq_refl).
  rewrite decide_False by (simpl; lia). simpl drop. simpl take.
  rewrite drop_0. destruct (gzip_Decompress maxSize rest); [|done].
  unfold p, header. rewrite (Hc eq_refl). done.
Qed.

(** ** Parsing arbitrary bytes *)

Lemma Field_Unpacker_total f :
  match Field_Unpacker f with Some u => rd_total u | None => True end.
Proof.
  destruct f; simpl; try done; unfold TryUnpackStr, TryUnpackInt, TryUnpackLong, TryUnpackIP,
    TryUnpackHash, TryUnpackBytes, TryUnpackHashes, TryUnpack2DBytes, TryUnpackClaimedIPPortList,
    TryUnpackByte, TryUnpackUint64Slice, UnpackStr, UnpackFixedByteSlices, Unpack2DByteSlice;
    rd_total; first [apply UnpackBytes_total | apply UnpackIP_total | apply UnpackClaimedIPPort_total].
Qed.

Lemma UnpackBool_advance p :
  rd_ok p → ∃ c p', UnpackBool p = Some (c, p') ∧ rd_step p p' ∧
    (c = true → p_Err p' = None → p_Offset p' = p_Offset p + 1).
Proof.
  intros Hp. assert (rd_total UnpackBool) as Ht by (unfold UnpackBool, UnpackByte; rd_total).
  destruct (Ht p Hp) as (c&p'&E&Hs). exists c, p'. split_and!; [done|done|]. intros -> He.
  unfold UnpackBool, pbind in E. destruct (UnpackByte p) as [[b p1]|] eqn:E1; [|done].
  unfold UnpackByte in E1. unfold pret in E. repeat case_decide; simplify_eq/=.
  by apply (unpack_raw_advance _ _ _ _ _ _ E1).
Qed.

Definition unpackable (f : Field) : Prop := is_Some (Field_Unpacker f).

Lemma messages_unpackable op l f : messages op = Some l → f ∈ l → unpackable f.
Proof.
  intros Hm Hf. assert (Forall unpackable l) as Hl.
  { destruct op; try done; injection Hm as <-; repeat constructor; by eexists. }
  by eapply Forall_forall in Hl.
Qed.

(** Unpacking a list of fields reaches the end and gives each field a value. *)
Lemma unpack_fields_total l acc p :
  (∀ f, f ∈ l → unpackable f) → rd_ok p →
  ∃ fv p', unpack_fields l acc p = Some (fv, p') ∧ rd_ok p' ∧
    ∀ f, is_Some (fv !! f) ↔ f ∈ l ∨ is_Some (acc !! f).
Proof.
  revert acc p. induction l as [|f l IH]; intros acc p Hl Hp.
  { exists acc, p. split_and!; [done|done|]. intros f. split; [by right|].
    intros [H'|]; [by apply elem_of_nil in H'|done]. }
  destruct (Hl f) as [u Hu]; [left|]. cbn [unpack_fields]. pose proof (Field_Unpacker_total f) as Ht.
  rewrite Hu in Ht |- *. destruct (Ht p Hp) as (v&p'&->&Hs).
  destruct (IH (<[f := v]> acc) p') as (fv&q&E&Hq&Hfv).
  { intros g Hg. apply Hl. by right. }
  { apply Hs. }
  exists fv, q. split_and!; [done|done|]. intros g. rewrite Hfv, elem_of_cons.
  destruct (decide (f = g)) as [->|Hne].
  - rewrite lookup_insert_eq. split; intros _; [by left; left|right; by eexists].
  - rewrite lookup_insert_ne by done. naive_solver.
Qed.

(** What the fields and the expiration of a parsed message satisfy. *)
Definition parsed_ok (timeout now : Z) (nodeID : bytes) (im : inboundMessage) : Prop :=
  im_nodeID im = nodeID ∧
  ∃ l, messages (im_op im) = Some l ∧ (∀ f, is_Some (im_fields im !! f) ↔ f ∈ l) ∧
    (∀ t, im_expirationTime im = Some t → t ≤ now + timeout).

Lemma parse_payload_total timeout now op l saved nodeID p :
  messages op = Some l → rd_ok p →
  ∃ r, parse_payload timeout now op l saved nodeID p = Some r ∧
    match r with Ok im => im_op im = op ∧ parsed_ok timeout now nodeID im | Err _ => True end.
Proof.
  intros Hm Hp. unfold parse_payload.
  destruct (unpack_fields_total l ∅ p) as (fv&p'&->&_&Hfv); [|done|].
  { intros f Hf. by eapply messages_unpackable. }
  destruct (p_Err p'); [by eexists|]. destruct (decide _); [by eexists|].
  eexists. split; [done|]. split; [done|]. split; [done|]. exists l. split_and!; [done| |].
  - intros f. simpl. rewrite Hfv, lookup_empty. split; [|by left]. intros [?|[? ?]]; done.
  - intros t. simpl. unfold expiration. destruct (fv !! Deadline) as [[]|]; try done.
    intros [= <-]. lia.
Qed.

End spec.

(** ** Concrete libraries and a sample message *)

(** Certificates that are their raw bytes, and a compressor that adds a byte. *)
Definition cert_std : CertLib := {| cert := bytes; cert_Raw := id; ParseCertificate := Some |}.

Lemma cert_std_laws : @CertLaws cert_std.
Proof. done. Qed.

Definition gzip_std : GzipLib := {|
  deflate b := Some (xff :: b);
  inflate c := match c with _ :: b => (b, true) | [] => ([], false) end;
|}.

Lemma gzip_std_laws : @GzipLaws gzip_std.
Proof. split. by intros b c [= <-]. Qed.

Definition sample_fields `{CertLib} : gmap Field value :=
  <[ChainID := VBytes (replicate 32 x01)]> (<[RequestID := VInt 7]>
  (<[Deadline := VLong 1000]> (<[ContainerID := VBytes (replicate 32 x02)]>
  (<[ContainerBytes := VBytes [x03; x04]]> ∅)))).

Definition push_query_fields : list Field :=
  [ChainID; RequestID; Deadline; ContainerID; ContainerBytes].

Lemma sample_fields_ok `{CertLib} : fields_ok push_query_fields sample_fields.
Proof.
  intros f Hf. unfold push_query_fields in Hf.
  repeat (apply elem_of_cons in Hf as [->|Hf]; [eexists; split; [done|]; simpl;
    unfold hash_ok, is_uint; simpl; try done; lia|]).
  by apply elem_of_nil in Hf.
Qed.

(** A ping packed with compression: no error, but fewer than two bytes. *)
Lemma Pack_compressed_ping_panics :
  @codec_Pack go_append_tight cert_std gzip_std 100 [] Ping ∅ true false = None.
Proof. reflexivity. Qed.

(** ** Claims *)

(** Checks a line of a table by computation. *)
Local Ltac table :=
  vm_compute; split; try done; (intros _; by eexists) || (by intros [? ?]).

(** C11: a message packed from valid fields is parsed back to its operation and
    exactly its fields, whatever was left in the pooled buffer, compressed or not,
    and the bytes saved by compression are reported alike on both sides. *)
Theorem codec_roundtrip `{GoAppend, CertLib, !CertLaws, GzipLib, !GzipLaws}
    maxSize timeout now buffer op l fv compress bypass nodeID msg :
  messages op = Some l → fields_ok l fv →
  codec_Pack maxSize buffer op fv compress bypass = Some (Ok msg) →
  ∃ im, codec_Parse maxSize timeout now (om_bytes msg) nodeID = Some (Ok im) ∧
    im_op im = op ∧ im_nodeID im = nodeID ∧
    (∀ f, im_fields im !! f = if decide (f ∈ l) then fv !! f else None) ∧
    im_bytesSavedCompression im = om_bytesSavedCompression msg.
Proof.
  intros Hm Hok Hpack.
  destruct (codec_Pack_bytes maxSize buffer op l fv compress bypass Hm Hok) as (p&Hp&E).
  rewrite Hpack in E. clear Hpack. destruct (p_Err p) as [e|] eqn:He; [done|].
  destruct (decide (_ ≤ MaxInt32)) as [_|_]; [|done]. destruct Hp as [_ Hb]. cbv zeta in E.
  assert (∀ f, with_fields l fv ∅ !! f = if decide (f ∈ l) then fv !! f else None) as Hf.
  { intros f. rewrite with_fields_lookup, lookup_empty by done. done. }
  destruct compress; simpl negb in E.
  - destruct (decide _) as [?|_] in E; [done|].
    destruct (gzip_Compress maxSize (drop 2 (p_Bytes p))) as [c|e] eqn:Hz; [|done].
    destruct (Compressible op) eqn:Hc; [|done]. simpl negb in E.
    rewrite Hb in E, Hz.
    unfold header in E, Hz. rewrite Hc in E, Hz. simpl drop in E, Hz. simpl take in E.
    rewrite drop_0 in E, Hz.
    injection E as ->. cbn [om_bytes om_bytesSavedCompression].
    pose proof (codec_Parse_header maxSize timeout now op l true c nodeID Hm (λ _, Hc)) as Hpar.
    unfold header in Hpar. rewrite Hc in Hpar. cbn zeta in Hpar.
    change ([to_byte (op_code op); x01] ++ c) with (to_byte (op_code op) :: x01 :: c) in Hpar.
    change (to_byte (op_code op) :: [x01] ++ c) with (to_byte (op_code op) :: x01 :: c).
    rewrite Hpar. simpl negb.
    assert (gzip_Decompress maxSize c = Ok (enc_fields l fv)) as ->.
    { unfold gzip_Compress in Hz. unfold gzip_Decompress.
      destruct (decide (maxSize < _)) as [|Hsz]; [done|].
      destruct (deflate (enc_fields l fv)) as [c'|] eqn:Hd; [|done]. injection Hz as ->.
      rewrite (inflate_deflate _ _ Hd). by rewrite decide_False by lia. }
    set (bs := to_byte (op_code op) :: enc_fields l fv).
    destruct (whole_packer bs) as (Hl&_&Hbs).
    rewrite (parse_payload_fields timeout now op l fv _ nodeID _ [to_byte (op_code op)]); try done.
    by eexists.
  - injection E as ->. cbn [om_bytes om_bytesSavedCompression]. rewrite Hb.
    rewrite (codec_Parse_header maxSize timeout now op l false) by done. simpl negb.
    destruct (whole_packer (header op false ++ enc_fields l fv)) as (Hl&_&Hbs).
    rewrite (parse_payload_fields timeout now op l fv _ nodeID _ (header op false)); try done.
    by eexists.
Qed.

Lemma codec_roundtrip_witness :
  ∃ msg im, @codec_Pack go_append_tight cert_std gzip_std 100 [x07] PushQuery
      (@sample_fields cert_std) true false = Some (Ok msg) ∧
    @codec_Parse cert_std gzip_std 100 500 0 (om_bytes msg) [x09] = Some (Ok im) ∧
    im_op im = PushQuery ∧ om_bytesSavedCompression msg = -1.
Proof.
  assert (∃ msg, @codec_Pack go_append_tight cert_std gzip_std 100 [x07] PushQuery
      (@sample_fields cert_std) true false = Some (Ok msg)) as [msg E]
    by (vm_compute; by eexists).
  destruct (@codec_roundtrip go_append_tight cert_std cert_std_laws gzip_std gzip_std_laws 100 500 0
    [x07] PushQuery push_query_fields (@sample_fields cert_std) true false [x09] msg)
    as (im&E'&Hop&_); [done|apply sample_fields_ok|exact E|].
  exists msg, im. split_and!; [exact E|exact E'|exact Hop|].
  vm_compute in E. by injection E as <-.
Defined.

(** Packing valid fields without compression always returns; the message is
    the operation's byte, the flag of a compressible operation and the encodings
    of the fields in order, and the only error is a message longer than the
    largest 32-bit integer. *)
Theorem codec_Pack_result `{GoAppend, CertLib, GzipLib} maxSize buffer op l fv bypass :
  messages op = Some l → fields_ok l fv →
  codec_Pack maxSize buffer op fv false bypass =
  Some (let bs := header op false ++ enc_fields l fv in
        if decide (Z.of_nat (length bs) ≤ MaxInt32)
        then Ok (mkOutboundMessage bs 0 op bypass 1) else Err (errPack errBadLength)).
Proof.
  intros Hm Hok.
  destruct (codec_Pack_bytes maxSize buffer op l fv false bypass Hm Hok) as (p&Hp&->).
  cbv zeta. destruct (decide (_ ≤ MaxInt32)).
  - by destruct Hp as [-> ->].
  - by rewrite Hp.
Qed.

Lemma codec_Pack_result_witness :
  ∃ msg, @codec_Pack go_append_tight cert_std gzip_std 100 [] PushQuery
      (@sample_fields cert_std) false true = Some (Ok msg) ∧
    length (om_bytes msg) = 84%nat ∧ om_bypassThrottling msg = true.
Proof.
  rewrite (@codec_Pack_result go_append_tight cert_std gzip_std 100 [] PushQuery push_query_fields
    (@sample_fields cert_std) true eq_refl sample_fields_ok).
  cbv zeta. rewrite decide_True by (vm_compute; discriminate).
  eexists. split; [reflexivity|]. split; vm_compute; reflexivity.
Defined.

(** Parsing returns, a message or an error and never a panic, on every byte
    string; a parsed message has exactly the fields of its operation, and expires
    no later than the codec's largest timeout from now. *)
Theorem codec_Parse_returns `{GoAppend, CertLib, GzipLib} maxSize timeout now bs nodeID :
  ∃ r, codec_Parse maxSize timeout now bs nodeID = Some r ∧
    match r with Ok im => parsed_ok timeout now nodeID im | Err _ => True end.
Proof.
  unfold codec_Parse. cbv zeta. set (p0 := mkPacker None 0 bs (Z.of_nat (length bs)) 0).
  assert (rd_ok p0) as Hp0 by (unfold rd_ok, p_cap; simpl; lia).
  destruct (rd_total_raw ByteLen x00 (λ bs, nth 0 bs x00) p0 Hp0) as (b&p1&E1&S1).
  unfold UnpackByte. rewrite E1.
  destruct (op_of_byte b) as [op|]; [|by eexists]. destruct (messages op) as [l|] eqn:Hm; [|by eexists].
  assert (∃ c p2, (if Compressible op then UnpackBool p1 else Some (false, p1)) = Some (c, p2) ∧
    rd_step p1 p2 ∧ (c = true → p_Err p2 = None → p_Offset p2 = p_Offset p1 + 1))
    as (c&p2&->&S2&Ho2).
  { destruct (Compressible op);
      [|eexists _, _; split_and!; [done|apply rd_step_refl, S1|done]].
    destruct (UnpackBool_advance p1) as (c&p2&?&?&?); [apply S1|]. by exists c, p2. }
  destruct (p_Err p2) eqn:He; [by eexists|]. destruct c; simpl negb; cbn iota.
  - assert (p_Err p1 = None) as He1.
    { destruct (p_Err p1) eqn:?; [|done]. rewrite (rs_err _ _ S2) in He by congruence. congruence. }
    apply unpack_raw_advance in E1; [|done]. specialize (Ho2 eq_refl eq_refl).
    destruct (rs_ok _ _ S2) as [[_ Hl] Hc]. change (p_Offset p0) with 0 in E1. unfold ByteLen in E1.
    pose proof (length_p_Bytes p2 ltac:(lia)) as Hlen.
    rewrite decide_False by lia. destruct (gzip_Decompress _ _) as [payload|]; [|by eexists].
    destruct (parse_payload_total timeout now op l (Z.of_nat (length payload) -
      Z.of_nat (length (drop 2 (p_Bytes p2)))) nodeID (set_Offset (p_Offset p2 - BoolLen)
        (set_Bytes (take 1 (p_Bytes p2) ++ payload)
          (Z.of_nat (length (take 1 (p_Bytes p2) ++ payload))) p2))) as (r&Hr&Hok); [done| |].
    { unfold rd_ok, p_cap, BoolLen. simpl. rewrite length_app, length_take. lia. }
    exists r. split; [exact Hr|]. destruct r; [apply Hok|done].
  - destruct (parse_payload_total timeout now op l 0 nodeID p2) as (r&Hr&Hok); [done|apply S2|].
    exists r. split; [exact Hr|]. destruct r; [apply Hok|done].
Qed.

(** C12: the tables of operations agree: the operations with a wire format are
    the external ones, their codes are distinct bytes, so that no byte string
    parses to an internal operation; a request's response has a failure that maps
    back to a response of the same request; and the operations that carry a
    deadline are the ones that expect a response. *)
Theorem op_tables :
  (∀ op, is_Some (messages op) ↔ op ∈ ExternalOps) ∧
  (∀ op op', op ∈ ExternalOps → op' ∈ ExternalOps → op_code op = op_code op' → op = op') ∧
  (∀ op, op ∈ ExternalOps ++ ConsensusInternalOps → is_uint 8 (op_code op)) ∧
  (∀ op resp, RequestToResponseOps op = Some resp →
     ∃ failed, ResponseToFailedOps resp = Some failed ∧ FailedToResponseOps failed = Some resp) ∧
  (∀ op l, messages op = Some l → (Deadline ∈ l ↔ is_Some (RequestToResponseOps op))) ∧
  (∀ op, op ∈ ConsensusOps → (op ∈ SynchronousOps ∨ op ∈ AsynchronousOps ∨
     op ∈ [Timeout; Notify; GossipRequest])).
Proof.
  split_and!.
  - intros op. rewrite <-(bool_decide_spec (op ∈ ExternalOps)).
    destruct op; table.
  - intros op op' _ _. destruct op, op'; done.
  - intros op _. by destruct op.
  - intros op resp E. destruct op; simplify_eq/=; by eexists.
  - intros op l E. rewrite <-(bool_decide_spec (Deadline ∈ l)).
    destruct op; simplify_eq/=; table.
  - intros op. rewrite <-(bool_decide_spec (op ∈ ConsensusOps)), <-(bool_decide_spec (op ∈ SynchronousOps)),
      <-(bool_decide_spec (op ∈ AsynchronousOps)),
      <-(bool_decide_spec (op ∈ [Timeout; Notify; GossipRequest])).
    destruct op; vm_compute; tauto.
Qed.
