(* ===== verification/NodeBag.v ===== *)
(** Node identifiers and bags of them ([ids/node_id.go], [ids/short.go],
    [ids/node_id_bag.go]).

    A [NodeIDBag] is a map of counts with a cached size.  [nb_inv] is its
    invariant, every operation is specified by its effect on [NodeIDBag_Count]
    and [NodeIDBag_Len]. *)

From S2P Require Import Prelude Ids.
From Stdlib Require Import Strings.Byte.

(** ** NodeID *)

Definition ShortIDLen : nat := 20.

(** [type NodeID ShortID], [type ShortID [20]byte]. *)
Record NodeID := mkNodeID { nid_bytes : list byte; nid_len : length nid_bytes = ShortIDLen }.

Lemma NodeID_eq a b : nid_bytes a = nid_bytes b → a = b.
Proof. destruct a, b; simpl; intros ->. f_equal. apply proof_irrel. Qed.

#[export] Instance NodeID_eq_dec : EqDecision NodeID.
Proof.
  intros a b. destruct (decide (nid_bytes a = nid_bytes b)) as [E|N].
  - left. by apply NodeID_eq.
  - right. congruence.
Defined.

(** [ToNodeID]: an error on any other length. *)
Definition ToNodeID (l : list byte) : option NodeID :=
  match decide (length l = ShortIDLen) with
  | left e => Some (mkNodeID l e)
  | right _ => None
  end.

Lemma ToNodeID_bytes a : ToNodeID (nid_bytes a) = Some a.
Proof.
  unfold ToNodeID. destruct (decide _) as [e|n]; [|by destruct (n (nid_len a))].
  f_equal. by apply NodeID_eq.
Qed.

#[export] Instance NodeID_countable : Countable NodeID :=
  inj_countable nid_bytes ToNodeID ToNodeID_bytes.

(** The identifiers of the concrete examples. *)
Definition node1 (b : byte) : NodeID := mkNodeID (b :: replicate 19 x00) eq_refl.

(** ** NodeIDBag *)

Record NodeIDBag := mkNodeIDBag { nb_counts : gmap NodeID Z; nb_size : Z }.

(** The zero value; [init] only replaces the nil map by an empty one. *)
Definition NodeIDBag_zero : NodeIDBag := mkNodeIDBag ∅ 0.

Definition NodeIDBag_Count (id : NodeID) (b : NodeIDBag) : Z := default 0 (nb_counts b !! id).

Definition NodeIDBag_AddCount (id : NodeID) (count : Z) (b : NodeIDBag) : NodeIDBag :=
  if decide (count ≤ 0) then b
  else
    let totalCount := NodeIDBag_Count id b + count in
    mkNodeIDBag (<[id := totalCount]> (nb_counts b)) (nb_size b + count).

Definition NodeIDBag_Add (ids : list NodeID) (b : NodeIDBag) : NodeIDBag :=
  foldl (λ b id, NodeIDBag_AddCount id 1 b) b ids.

Definition NodeIDBag_Remove (id : NodeID) (b : NodeIDBag) : NodeIDBag :=
  let count := NodeIDBag_Count id b in
  mkNodeIDBag (delete id (nb_counts b)) (nb_size b - count).

Definition NodeIDBag_Len (b : NodeIDBag) : Z := nb_size b.

Definition NodeIDBag_List `{GoRange} (b : NodeIDBag) : list NodeID := (go_range (nb_counts b)).*1.

Definition NodeIDBag_Equals `{GoRange} (b oIDs : NodeIDBag) : bool :=
  if decide (NodeIDBag_Len b ≠ NodeIDBag_Len oIDs) then false else
  forallb (λ '(key, value), bool_decide (value = NodeIDBag_Count key oIDs))
    (go_range (nb_counts b)).

(** ** Invariant and specifications *)

Record nb_inv (b : NodeIDBag) : Prop := {
  nb_pos : ∀ id n, nb_counts b !! id = Some n → 0 < n;
  nb_len : nb_size b = map_total (nb_counts b);
}.

Lemma nb_zero_inv : nb_inv NodeIDBag_zero.
Proof. by split. Qed.

Lemma NodeIDBag_Count_nonneg id b : nb_inv b → 0 ≤ NodeIDBag_Count id b.
Proof.
  intros [Hp _]. unfold NodeIDBag_Count. destruct (nb_counts b !! id) eqn:E; simpl; [|lia].
  specialize (Hp _ _ E). lia.
Qed.

Lemma NodeIDBag_Count_AddCount id count b id' :
  0 ≤ count →
  NodeIDBag_Count id' (NodeIDBag_AddCount id count b) =
  NodeIDBag_Count id' b + if decide (id = id') then count else 0.
Proof.
  intros. unfold NodeIDBag_AddCount, NodeIDBag_Count. repeat case_decide; simplify_map_eq; lia.
Qed.

Lemma NodeIDBag_Count_Add ids b id :
  NodeIDBag_Count id (NodeIDBag_Add ids b) =
  NodeIDBag_Count id b + Z.of_nat (length (filter (λ x, x = id) ids)).
Proof.
  unfold NodeIDBag_Add. revert b. induction ids as [|i ids IH]; intros b; simpl; [lia|].
  rewrite IH, NodeIDBag_Count_AddCount by lia. rewrite filter_cons. case_decide; simpl; lia.
Qed.

Lemma NodeIDBag_Count_Remove id b id' :
  NodeIDBag_Count id' (NodeIDBag_Remove id b) =
  if decide (id = id') then 0 else NodeIDBag_Count id' b.
Proof. unfold NodeIDBag_Remove, NodeIDBag_Count. case_decide; by simplify_map_eq. Qed.

Lemma NodeIDBag_Len_AddCount id count b :
  0 ≤ count → NodeIDBag_Len (NodeIDBag_AddCount id count b) = NodeIDBag_Len b + count.
Proof. intros. unfold NodeIDBag_Len, NodeIDBag_AddCount. case_decide; simpl; lia. Qed.

Lemma NodeIDBag_Len_Remove id b :
  NodeIDBag_Len (NodeIDBag_Remove id b) = NodeIDBag_Len b - NodeIDBag_Count id b.
Proof. done. Qed.

Lemma nb_AddCount_inv id count b : nb_inv b → nb_inv (NodeIDBag_AddCount id count b).
Proof.
  intros Hb. pose proof (NodeIDBag_Count_nonneg id b Hb). destruct Hb as [Hp Hl].
  unfold NodeIDBag_AddCount. case_decide; [done|]. split; simpl.
  - intros id' n Hn. apply lookup_insert_Some in Hn as [[_ <-]|[_ Hn]]; [lia|by eapply Hp].
  - rewrite map_total_insert, Hl. unfold NodeIDBag_Count. lia.
Qed.

Lemma nb_Add_inv ids b : nb_inv b → nb_inv (NodeIDBag_Add ids b).
Proof.
  unfold NodeIDBag_Add. revert b. induction ids as [|i ids IH]; intros b Hb; simpl; [done|].
  by apply IH, nb_AddCount_inv.
Qed.

Lemma nb_Remove_inv id b : nb_inv b → nb_inv (NodeIDBag_Remove id b).
Proof.
  intros [Hp Hl]. split; simpl.
  - intros id' n Hn. apply lookup_delete_Some in Hn as [_ Hn]. by eapply Hp.
  - unfold NodeIDBag_Count. destruct (nb_counts b !! id) as [n|] eqn:E; simpl.
    + rewrite (map_total_delete _ _ _ E) in Hl. lia.
    + rewrite delete_id by done. lia.
Qed.

#[export] Hint Resolve nb_zero_inv nb_AddCount_inv nb_Add_inv nb_Remove_inv : node.

Lemma nb_counts_nonneg b : nb_inv b → map_Forall (λ _ n, 0 ≤ n) (nb_counts b).
Proof. intros [Hp _] i n Hn. specialize (Hp i n Hn). lia. Qed.

Lemma NodeIDBag_Len_nonneg b : nb_inv b → 0 ≤ NodeIDBag_Len b.
Proof.
  intros Hb. unfold NodeIDBag_Len. rewrite (nb_len _ Hb).
  by apply map_total_nonneg, nb_counts_nonneg.
Qed.

Lemma NodeIDBag_Count_le_Len b id : nb_inv b → NodeIDBag_Count id b ≤ NodeIDBag_Len b.
Proof.
  intros Hb. pose proof (NodeIDBag_Len_nonneg _ (nb_Remove_inv id b Hb)).
  rewrite NodeIDBag_Len_Remove in *. lia.
Qed.

(** A bag of length zero has no identifier. *)
Lemma NodeIDBag_Len_0 b id : nb_inv b → NodeIDBag_Len b = 0 → NodeIDBag_Count id b = 0.
Proof.
  intros Hb Hl. pose proof (NodeIDBag_Count_le_Len b id Hb).
  pose proof (NodeIDBag_Count_nonneg id b Hb). lia.
Qed.
