(* ===== verification/LinkedHashmap.v ===== *)
(** The hash map that remembers the order of insertion
    ([utils/linkedhashmap/linkedhashmap.go]).

    A map from keys to elements of a doubly linked list ([container/list]).  An
    element is a pointer; [elemVal] is the part of the store that holds the
    elements' values, so that an element removed from the list can still be read,
    as an iterator may do.  [lh_abs] is the abstract map, an association list from
    the oldest to the newest pairing, and every operation refines an operation on
    it. *)

From S2P Require Import Prelude.

Section lh.
Context {K V : Type} `{Countable K}.

Record linkedHashmap := mkLinkedHashmap {
  entryMap : gmap K positive;
  entryList : list positive;
  elemVal : gmap positive (K * V);
}.

(** [New]. *)
Definition lh_New : linkedHashmap := mkLinkedHashmap ∅ [] ∅.

(** [list.Remove]; the position of an element in the list is its only one. *)
Definition list_Remove (e : positive) (l : list positive) : list positive :=
  filter (λ e', e' ≠ e) l.

(** [Element.Next]: [None] is nil, also for an element no longer in the list. *)
Fixpoint element_Next (e : positive) (l : list positive) : option positive :=
  match l with
  | [] => None
  | e' :: l => if decide (e = e') then head l else element_Next e l
  end.

Definition lh_Put (key : K) (value : V) (lh : linkedHashmap) : linkedHashmap :=
  match entryMap lh !! key with
  | Some e =>
      mkLinkedHashmap (entryMap lh) (list_Remove e (entryList lh) ++ [e])
        (<[e := (key, value)]> (elemVal lh))
  | None =>
      let e := fresh (dom (elemVal lh)) in
      mkLinkedHashmap (<[key := e]> (entryMap lh)) (entryList lh ++ [e])
        (<[e := (key, value)]> (elemVal lh))
  end.

Definition lh_Get (key : K) (lh : linkedHashmap) : option V :=
  match entryMap lh !! key with
  | Some e => snd <$> elemVal lh !! e
  | None => None
  end.

Definition lh_Delete (key : K) (lh : linkedHashmap) : linkedHashmap :=
  match entryMap lh !! key with
  | Some e =>
      mkLinkedHashmap (delete key (entryMap lh)) (list_Remove e (entryList lh)) (elemVal lh)
  | None => lh
  end.

Definition lh_Len (lh : linkedHashmap) : Z := Z.of_nat (size (entryMap lh)).

Definition lh_Oldest (lh : linkedHashmap) : option (K * V) :=
  match head (entryList lh) with Some e => elemVal lh !! e | None => None end.

Definition lh_Newest (lh : linkedHashmap) : option (K * V) :=
  match last (entryList lh) with Some e => elemVal lh !! e | None => None end.

(** ** Iterators *)

(** [it_pair] is the pair of [key] and [value]. *)
Record iterator := mkIterator {
  it_pair : option (K * V);
  it_next : option positive;
  it_initialized : bool;
  it_exhausted : bool;
}.

Definition NewIterator : iterator := mkIterator None None false false.

(** The case of a [next] that is nil cannot happen on an iterator that is not
    exhausted; it is a nil dereference. *)
Definition it_Next (lh : linkedHashmap) (it : iterator) : option (bool * iterator) :=
  if it_exhausted it then Some (false, mkIterator None None (it_initialized it) true)
  else
    let next := if it_initialized it then it_next it else head (entryList lh) in
    if decide (it_initialized it = false ∧ next = None)
    then Some (false, mkIterator None None true true)
    else
      match next with
      | None => None
      | Some e =>
          let next' := element_Next e (entryList lh) in
          Some (true, mkIterator (elemVal lh !! e) next' true (bool_decide (next' = None)))
      end.

(** ** The abstract map *)

Fixpoint alist_get (k : K) (l : list (K * V)) : option V :=
  match l with
  | [] => None
  | (k', v) :: l => if decide (k' = k) then Some v else alist_get k l
  end.
Definition alist_delete (k : K) (l : list (K * V)) : list (K * V) := filter (λ p, p.1 ≠ k) l.
Definition alist_put (k : K) (v : V) (l : list (K * V)) : list (K * V) :=
  alist_delete k l ++ [(k, v)].

(** An element of the list and the pairing it holds, known to the map. *)
Definition holds (lh : linkedHashmap) (e : positive) (p : K * V) : Prop :=
  elemVal lh !! e = Some p ∧ entryMap lh !! p.1 = Some e.

(** The simulation relation: [lh] represents [l], oldest pairing first. *)
Record lh_rep (lh : linkedHashmap) (l : list (K * V)) : Prop := {
  rep_nodup : NoDup (entryList lh);
  rep_holds : Forall2 (holds lh) (entryList lh) l;
  rep_map : ∀ k e, entryMap lh !! k = Some e → e ∈ entryList lh ∧ ∃ v, elemVal lh !! e = Some (k, v);
}.

Lemma rep_elem lh l e : lh_rep lh l → e ∈ entryList lh → ∃ p, holds lh e p ∧ p ∈ l.
Proof.
  intros Hr He. apply list_elem_of_lookup in He as [i Hi].
  destruct (Forall2_lookup_l _ _ _ _ _ (rep_holds _ _ Hr) Hi) as (p&Hp&Hh).
  exists p. split; [done|]. by eapply list_elem_of_lookup_2.
Qed.

Lemma holds_key lh l e k p e' :
  lh_rep lh l → entryMap lh !! k = Some e → holds lh e' p → (e' = e ↔ p.1 = k).
Proof.
  intros Hr Hk [He Hm]. split; [|congruence]. intros ->.
  destruct (rep_map _ _ Hr _ _ Hk) as [_ [v Hv]]. by simplify_eq.
Qed.

Lemma rep_pair lh l p :
  lh_rep lh l → p ∈ l → ∃ e, e ∈ entryList lh ∧ holds lh e p.
Proof.
  intros Hr Hp. apply list_elem_of_lookup in Hp as [i Hi].
  destruct (Forall2_lookup_r _ _ _ _ _ (rep_holds _ _ Hr) Hi) as (e&He&Hh).
  exists e. split; [by eapply list_elem_of_lookup_2|done].
Qed.

Lemma rep_NoDup_keys lh l : lh_rep lh l → NoDup l.*1.
Proof.
  intros Hr. pose proof (rep_nodup _ _ Hr) as Hn. pose proof (rep_holds _ _ Hr) as Hh.
  clear Hr. revert Hn. induction Hh as [|e p es l He Hh IH]; intros Hn; [constructor|].
  apply NoDup_cons in Hn as [Hni Hn]. csimpl. constructor; [|by apply IH].
  intros Hin. apply list_elem_of_fmap in Hin as (q&E&Hq).
  apply list_elem_of_lookup in Hq as [i Hi].
  destruct (Forall2_lookup_r _ _ _ _ _ Hh Hi) as (e'&He'&[_ Hm]).
  destruct He as [_ Hm']. rewrite E in Hm'. simplify_eq. apply Hni.
  by eapply list_elem_of_lookup_2.
Qed.

Lemma lh_New_rep : lh_rep lh_New [].
Proof. split; simpl; [constructor|constructor|]. intros k e. by rewrite lookup_empty. Qed.

Lemma alist_get_Some k v l : NoDup l.*1 → alist_get k l = Some v ↔ (k, v) ∈ l.
Proof.
  induction l as [|[k' v'] l IH]; csimpl; intros Hn.
  { split; [done|]. by intros ?%elem_of_nil. }
  apply NoDup_cons in Hn as [Hni Hn]. rewrite elem_of_cons. case_decide as E.
  - subst. split; [intros [= ->]; by left|]. intros [[= ->]|Hin]; [done|].
    destruct Hni. by apply (list_elem_of_fmap_2 fst) in Hin.
  - rewrite IH by done. split; [by right|]. intros [[= -> ->]|?]; done.
Qed.

Lemma alist_get_None k l : alist_get k l = None ↔ k ∉ l.*1.
Proof.
  induction l as [|[k' v'] l IH]; csimpl.
  { split; [|done]. intros _ Hk. by apply elem_of_nil in Hk. }
  rewrite not_elem_of_cons, <-IH. case_decide; naive_solver.
Qed.

Lemma lh_Get_rep k lh l : lh_rep lh l → lh_Get k lh = alist_get k l.
Proof.
  intros Hr. unfold lh_Get. destruct (entryMap lh !! k) as [e|] eqn:Hk.
  - destruct (rep_map _ _ Hr _ _ Hk) as [Hin [v Hv]]. rewrite Hv. symmetry.
    apply alist_get_Some; [by eapply rep_NoDup_keys|].
    destruct (rep_elem _ _ _ Hr Hin) as (p&[Hp _]&Hpl). by simplify_eq.
  - symmetry. apply alist_get_None. intros Hin. apply list_elem_of_fmap in Hin as (p&->&Hp).
    destruct (rep_pair _ _ _ Hr Hp) as (e&_&[_ Hm]). congruence.
Qed.

Lemma lh_Delete_rep k lh l : lh_rep lh l → lh_rep (lh_Delete k lh) (alist_delete k l).
Proof.
  intros Hr. unfold lh_Delete. destruct (entryMap lh !! k) as [e|] eqn:Hk.
  - split; simpl.
    + apply NoDup_filter, Hr.
    + assert (Forall2 (holds lh) (list_Remove e (entryList lh)) (alist_delete k l)) as Hf.
      { apply Forall2_filter_iff; [apply Hr|]. intros e' p Hh.
        pose proof (holds_key _ _ _ _ _ _ Hr Hk Hh). tauto. }
      eapply Forall2_impl_in; [exact Hf|]. intros e' p He' _ [Hv Hm]. split; [done|]. simpl.
      apply list_elem_of_filter in He' as [Hne _]. rewrite lookup_delete_ne; [done|].
      intros ->. by simplify_eq.
    + intros k' e' Hk'. apply lookup_delete_Some in Hk' as [Hne Hk'].
      destruct (rep_map _ _ Hr _ _ Hk') as [Hin [v Hv]]. split; [|by exists v].
      apply list_elem_of_filter. split; [|done]. intros ->.
      destruct (rep_map _ _ Hr _ _ Hk) as [_ [v' Hv']]. by simplify_eq.
  - replace (alist_delete k l) with l; [done|]. symmetry. apply list_filter_id.
    intros p Hp Heq. destruct (rep_pair _ _ _ Hr Hp) as (e&_&[_ Hm]). congruence.
Qed.

Lemma lh_Put_rep k v lh l : lh_rep lh l → lh_rep (lh_Put k v lh) (alist_put k v l).
Proof.
  intros Hr. pose proof (lh_Delete_rep k _ _ Hr) as Hd. revert Hd. unfold lh_Put, lh_Delete.
  destruct (entryMap lh !! k) as [e|] eqn:Hk; intros [Hn Hh _]; simpl in *.
  - assert (e ∉ list_Remove e (entryList lh)) as Hni
      by (intros [Hne _]%list_elem_of_filter; congruence).
    split; simpl.
    + apply NoDup_app. split_and!; [done| |apply NoDup_singleton].
      intros e' He' ->%list_elem_of_singleton. done.
    + apply Forall2_app; [|constructor; [|done]].
      * eapply Forall2_impl_in; [exact Hh|]. intros e' p He' _ [Hv Hm]. split; simpl.
        -- rewrite lookup_insert_ne; [done|congruence].
        -- simpl in Hm. by apply lookup_delete_Some in Hm as [_ ?].
      * split; [apply lookup_insert_eq|done].
    + intros k' e' Hk'. destruct (rep_map _ _ Hr _ _ Hk') as [Hin [v' Hv']].
      destruct (decide (e' = e)) as [->|Hne].
      * split; [apply elem_of_app; right; left|].
        destruct (rep_map _ _ Hr _ _ Hk) as [_ [w Hw]]. simplify_eq.
        exists v. by rewrite lookup_insert_eq.
      * split; [|exists v'; by rewrite lookup_insert_ne].
        apply elem_of_app. left. by apply list_elem_of_filter.
  - set (e := fresh (dom (elemVal lh))). assert (elemVal lh !! e = None) as He
      by (apply not_elem_of_dom, is_fresh).
    assert (e ∉ entryList lh) as Hni.
    { intros Hin. destruct (rep_elem _ _ _ Hr Hin) as (p&[Hp _]&_). congruence. }
    split; simpl.
    + apply NoDup_app. split_and!; [done| |apply NoDup_singleton].
      intros e' He' ->%list_elem_of_singleton. done.
    + apply Forall2_app; [|constructor; [|done]].
      * eapply Forall2_impl_in; [exact Hh|]. intros e' p He' _ [Hv Hm]. split; simpl.
        -- rewrite lookup_insert_ne; [done|congruence].
        -- rewrite lookup_insert_ne; [done|congruence].
      * split; apply lookup_insert_eq.
    + intros k' e' Hk'. apply lookup_insert_Some in Hk' as [[<- <-]|[Hne Hk']].
      * split; [apply elem_of_app; right; left|]. exists v. by rewrite lookup_insert_eq.
      * destruct (rep_map _ _ Hr _ _ Hk') as [Hin [v' Hv']].
        split; [apply elem_of_app; by left|]. exists v'.
        rewrite lookup_insert_ne; [done|congruence].
Qed.

Lemma lh_Oldest_rep lh l : lh_rep lh l → lh_Oldest lh = head l.
Proof.
  intros Hr. unfold lh_Oldest. destruct (rep_holds _ _ Hr) as [|e p es l' [Hv _] _]; [done|].
  exact Hv.
Qed.

Lemma lh_Newest_rep lh l : lh_rep lh l → lh_Newest lh = last l.
Proof.
  intros Hr. unfold lh_Newest. pose proof (Forall2_length _ _ _ (rep_holds _ _ Hr)) as Hlen.
  rewrite !last_lookup, Hlen. destruct (entryList lh !! _) as [e|] eqn:E.
  - destruct (Forall2_lookup_l _ _ _ _ _ (rep_holds _ _ Hr) E) as (p&Hp&[Hv _]). congruence.
  - symmetry. apply lookup_ge_None. apply lookup_ge_None in E. lia.
Qed.

Lemma lh_Len_rep lh l : lh_rep lh l → lh_Len lh = Z.of_nat (length l).
Proof.
  intros Hr. unfold lh_Len. f_equal.
  assert (dom (entryMap lh) = list_to_set l.*1) as E.
  { apply set_eq. intros k. rewrite elem_of_list_to_set, elem_of_dom. split.
    - intros [e He]. destruct (rep_map _ _ Hr _ _ He) as [Hin [v Hv]].
      destruct (rep_elem _ _ _ Hr Hin) as (p&[Hp _]&Hpl). simplify_eq.
      by apply (list_elem_of_fmap_2 fst) in Hpl.
    - intros Hk. apply list_elem_of_fmap in Hk as (p&->&Hp).
      destruct (rep_pair _ _ _ Hr Hp) as (e&_&[_ Hm]). by exists e. }
  rewrite <-size_dom, E, size_list_to_set by (by eapply rep_NoDup_keys). apply length_fmap.
Qed.

(** ** Iteration

    [it_at lh it es]: the iterator has the elements [es] still to visit. *)
Definition it_at (lh : linkedHashmap) (it : iterator) (es : list positive) : Prop :=
  if it_initialized it
  then ∃ pre, entryList lh = pre ++ es ∧ it_next it = head es ∧
       it_exhausted it = bool_decide (es = [])
  else es = entryList lh ∧ it_exhausted it = false.

Lemma it_at_New lh : it_at lh NewIterator (entryList lh).
Proof. done. Qed.

Lemma element_Next_app e pre es :
  NoDup (pre ++ e :: es) → element_Next e (pre ++ e :: es) = head es.
Proof.
  induction pre as [|x pre IH]; simpl; intros Hn.
  - by rewrite decide_True.
  - apply NoDup_cons in Hn as [Hx Hn]. rewrite decide_False; [by apply IH|].
    intros ->. apply Hx, elem_of_app. right. left.
Qed.

(** [Next] on an iterator with nothing left to visit. *)
Lemma it_Next_nil lh it :
  it_at lh it [] → ∃ it', it_Next lh it = Some (false, it').
Proof.
  unfold it_at, it_Next. destruct (it_initialized it).
  - intros (pre&_&_&->). by eexists.
  - intros [<- ->]. simpl. by eexists.
Qed.

Lemma it_Next_cons lh l it e es :
  lh_rep lh l → it_at lh it (e :: es) →
  ∃ it', it_Next lh it = Some (true, it') ∧ it_pair it' = elemVal lh !! e ∧
    it_initialized it' = true ∧ it_at lh it' es.
Proof.
  intros Hr Hi. assert (∃ pre, entryList lh = pre ++ e :: es ∧ it_exhausted it = false ∧
    (if it_initialized it then it_next it else head (entryList lh)) = Some e) as (pre&Hl&He&Hx).
  { unfold it_at in Hi. destruct (it_initialized it).
    - destruct Hi as (pre&->&->&->). by exists pre.
    - destruct Hi as [<- ->]. by exists []. }
  pose proof (rep_nodup _ _ Hr) as Hn. rewrite Hl in Hn. pose proof (element_Next_app _ _ _ Hn) as En.
  unfold it_Next. rewrite He, Hx, decide_False by naive_solver. cbv zeta. rewrite Hl, En.
  eexists. split_and!; [done|done|done|]. unfold it_at. simpl. exists (pre ++ [e]).
  rewrite <-app_assoc. split_and!; [done|done|]. apply bool_decide_ext. by destruct es.
Qed.

(** Deleting the pairing of an element that has been visited. *)
Lemma it_at_Delete lh l it k e es :
  lh_rep lh l → it_initialized it = true → entryMap lh !! k = Some e → e ∉ es →
  it_at lh it es → it_at (lh_Delete k lh) it es.
Proof.
  intros Hr Hi Hk He. unfold it_at. rewrite Hi. intros (pre&Hl&Hn&Hx).
  exists (list_Remove e pre). split_and!; [|done|done]. unfold lh_Delete. rewrite Hk. simpl.
  rewrite Hl. unfold list_Remove. rewrite filter_app, (list_filter_id _ es); [done|].
  intros e' He' ->. done.
Qed.
End lh.

Arguments linkedHashmap : clear implicits.
Arguments linkedHashmap _ _ {_ _}.
Arguments iterator : clear implicits.
