(* ===== verification/Poll.v ===== *)
(** Polls of the network ([snow/consensus/snowman/poll/interfaces.go],
    [no_early_term.go], [early_term_no_traversal.go]).

    [PollImpl] is the interface [Poll] with its [Factory]; [PollLaws] is what both
    implementations promise: the first response of a polled validator counts with
    the weight the validator was polled with, later responses and responses of
    other nodes count for nothing.  [tally] is the specification of the votes. *)

From Stdlib Require Import Strings.Byte.
From S2P Require Import Prelude Ids Bag NodeBag.

(** ** The interface *)

Class PollImpl (P : Type) : Type := {
  poll_New : NodeIDBag → P;
  poll_Vote : NodeID → ID → P → P;
  poll_Drop : NodeID → P → P;
  poll_Finished : P → bool;
  poll_Result : P → Bag;
}.

(** ** Polls without early termination *)

Record noEarlyTermPoll := mkNoEarlyTermPoll { ne_votes : Bag; ne_polled : NodeIDBag }.

Definition noEarlyTermFactory_New (vdrs : NodeIDBag) : noEarlyTermPoll :=
  mkNoEarlyTermPoll Bag_zero vdrs.

Definition noEarlyTermPoll_Vote (vdr : NodeID) (vote : ID) (p : noEarlyTermPoll) :=
  let count := NodeIDBag_Count vdr (ne_polled p) in
  mkNoEarlyTermPoll (Bag_AddCount vote count (ne_votes p)) (NodeIDBag_Remove vdr (ne_polled p)).

Definition noEarlyTermPoll_Drop (vdr : NodeID) (p : noEarlyTermPoll) :=
  mkNoEarlyTermPoll (ne_votes p) (NodeIDBag_Remove vdr (ne_polled p)).

Definition noEarlyTermPoll_Finished (p : noEarlyTermPoll) : bool :=
  bool_decide (NodeIDBag_Len (ne_polled p) = 0).

(** Local: a client chooses its factory. *)
Definition noEarlyTermFactory : PollImpl noEarlyTermPoll := {|
  poll_New := noEarlyTermFactory_New;
  poll_Vote := noEarlyTermPoll_Vote;
  poll_Drop := noEarlyTermPoll_Drop;
  poll_Finished := noEarlyTermPoll_Finished;
  poll_Result := ne_votes;
|}.

(** ** Polls with early termination *)

Record earlyTermNoTraversalPoll := mkEarlyTermNoTraversalPoll {
  et_votes : Bag;
  et_polled : NodeIDBag;
  et_alpha : Z;
}.

Definition earlyTermNoTraversalFactory_New (alpha : Z) (vdrs : NodeIDBag) :=
  mkEarlyTermNoTraversalPoll Bag_zero vdrs alpha.

Definition earlyTermNoTraversalPoll_Vote (vdr : NodeID) (vote : ID)
    (p : earlyTermNoTraversalPoll) : earlyTermNoTraversalPoll :=
  let count := NodeIDBag_Count vdr (et_polled p) in
  mkEarlyTermNoTraversalPoll (Bag_AddCount vote count (et_votes p))
    (NodeIDBag_Remove vdr (et_polled p)) (et_alpha p).

Definition earlyTermNoTraversalPoll_Drop (vdr : NodeID) (p : earlyTermNoTraversalPoll) :=
  mkEarlyTermNoTraversalPoll (et_votes p) (NodeIDBag_Remove vdr (et_polled p)) (et_alpha p).

Definition earlyTermNoTraversalPoll_Finished (p : earlyTermNoTraversalPoll) : bool :=
  let remaining := NodeIDBag_Len (et_polled p) in
  let received := Bag_Len (et_votes p) in
  let '(_, freq) := Bag_Mode (et_votes p) in
  bool_decide (remaining = 0) || bool_decide (et_alpha p ≤ freq) ||
  bool_decide (received + remaining < et_alpha p).

Definition earlyTermNoTraversalFactory (alpha : Z) : PollImpl earlyTermNoTraversalPoll := {|
  poll_New := earlyTermNoTraversalFactory_New alpha;
  poll_Vote := earlyTermNoTraversalPoll_Vote;
  poll_Drop := earlyTermNoTraversalPoll_Drop;
  poll_Finished := earlyTermNoTraversalPoll_Finished;
  poll_Result := et_votes;
|}.

(** ** Responses *)

Inductive response :=
| RVote (vdr : NodeID) (vote : ID)
| RDrop (vdr : NodeID).

#[export] Instance response_eq_dec : EqDecision response.
Proof. solve_decision. Defined.

Definition responder (r : response) : NodeID :=
  match r with RVote vdr _ | RDrop vdr => vdr end.
Definition response_vote (r : response) : option ID :=
  match r with RVote _ vote => Some vote | RDrop _ => None end.

Definition poll_respond `{PollImpl P} (p : P) (r : response) : P :=
  match r with RVote vdr vote => poll_Vote vdr vote p | RDrop vdr => poll_Drop vdr p end.

(** The poll of [vdrs] after the responses [rs]. *)
Definition replay `{PollImpl P} (vdrs : NodeIDBag) (rs : list response) : P :=
  foldl poll_respond (poll_New vdrs) rs.

(** The first response of a node: a vote or a drop. *)
Fixpoint first_response (vdr : NodeID) (rs : list response) : option response :=
  match rs with
  | [] => None
  | r :: rs => if decide (responder r = vdr) then Some r else first_response vdr rs
  end.

(** The weight of the validators whose first response is a vote for [id]. *)
Definition tally (vdrs : NodeIDBag) (rs : list response) (id : ID) : Z :=
  map_total (filter (λ p, first_response p.1 rs = Some (RVote p.1 id)) (nb_counts vdrs)).

(** ** What both implementations promise *)

Class PollLaws (P : Type) `{PollImpl P} : Type := {
  poll_polled : P → NodeIDBag;
  poll_polled_New : ∀ vdrs, poll_polled (poll_New vdrs) = vdrs;
  poll_Result_New : ∀ vdrs, poll_Result (poll_New vdrs) = Bag_zero;
  poll_polled_respond : ∀ p r,
    poll_polled (poll_respond p r) = NodeIDBag_Remove (responder r) (poll_polled p);
  poll_Result_Vote : ∀ p vdr vote,
    poll_Result (poll_Vote vdr vote p) =
    Bag_AddCount vote (NodeIDBag_Count vdr (poll_polled p)) (poll_Result p);
  poll_Result_Drop : ∀ p vdr, poll_Result (poll_Drop vdr p) = poll_Result p;
}.

#[refine] Definition noEarlyTerm_laws : @PollLaws noEarlyTermPoll noEarlyTermFactory :=
  {| poll_polled := ne_polled |}.
Proof. all: try done. by intros p []. Defined.

#[refine] Definition earlyTerm_laws alpha :
    @PollLaws earlyTermNoTraversalPoll (earlyTermNoTraversalFactory alpha) :=
  {| poll_polled := et_polled |}.
Proof. all: try done. by intros p []. Defined.

Lemma first_response_snoc vdr rs r :
  first_response vdr (rs ++ [r]) =
  match first_response vdr rs with
  | Some r' => Some r'
  | None => if decide (responder r = vdr) then Some r else None
  end.
Proof. induction rs as [|r' rs IH]; [done|]. simpl. by destruct (decide (responder r' = vdr)). Qed.

Lemma first_response_responder vdr rs r : first_response vdr rs = Some r → responder r = vdr.
Proof. induction rs as [|r' rs IH]; [done|]. simpl. case_decide; naive_solver. Qed.

Lemma tally_nil vdrs id : tally vdrs [] id = 0.
Proof.
  unfold tally. replace (filter _ _) with (∅ : gmap NodeID Z); [done|].
  symmetry. apply map_empty. intros i. apply map_lookup_filter_None. by right.
Qed.

Lemma tally_snoc vdrs rs r id :
  tally vdrs (rs ++ [r]) id = tally vdrs rs id +
    (if decide (response_vote r = Some id ∧ first_response (responder r) rs = None)
     then NodeIDBag_Count (responder r) vdrs else 0).
Proof.
  unfold tally. destruct (decide _) as [[Hv Hn]|Hn].
  - destruct r as [vdr vote|vdr]; simplify_eq/=. unfold NodeIDBag_Count.
    destruct (nb_counts vdrs !! vdr) as [c|] eqn:E; simpl.
    + rewrite (Z.add_comm _ c), <-(map_total_insert_None (filter _ (nb_counts vdrs)) vdr c).
      2:{ apply map_lookup_filter_None. right. intros x _. simpl. by rewrite Hn. }
      f_equal. apply map_eq. intros i. destruct (decide (i = vdr)) as [->|Hi].
      * rewrite lookup_insert_eq. apply map_lookup_filter_Some. split; [done|]. simpl.
        by rewrite first_response_snoc, Hn, decide_True.
      * rewrite lookup_insert_ne by done. apply option_eq. intros x.
        rewrite !map_lookup_filter_Some. simpl. rewrite first_response_snoc, decide_False by done.
        by destruct (first_response i rs).
    + rewrite Z.add_0_r. f_equal. apply map_filter_ext. intros i x Hx. simpl.
      rewrite first_response_snoc, decide_False by (simpl; congruence).
      by destruct (first_response i rs).
  - rewrite Z.add_0_r. f_equal. apply map_filter_ext. intros i x Hx. simpl.
    rewrite first_response_snoc. destruct (first_response i rs) eqn:E; [done|].
    case_decide as Hr; [|done]. split; [|done]. intros [= ->]. by destruct Hn.
Qed.

Section laws.
Context `{PollLaws P}.
Implicit Types (vdrs : NodeIDBag) (rs : list response).

Lemma replay_snoc vdrs rs r : replay vdrs (rs ++ [r]) = poll_respond (replay vdrs rs) r.
Proof. unfold replay. by rewrite foldl_app. Qed.

Lemma replay_polled_inv vdrs rs : nb_inv vdrs → nb_inv (poll_polled (replay vdrs rs)).
Proof.
  intros Hv. induction rs as [|r rs IH] using rev_ind.
  - unfold replay. simpl. by rewrite poll_polled_New.
  - rewrite replay_snoc, poll_polled_respond. by apply nb_Remove_inv.
Qed.

(** A validator is still polled when it has not responded. *)
Lemma replay_polled vdrs rs vdr :
  NodeIDBag_Count vdr (poll_polled (replay vdrs rs)) =
  match first_response vdr rs with Some _ => 0 | None => NodeIDBag_Count vdr vdrs end.
Proof.
  induction rs as [|r rs IH] using rev_ind.
  - unfold replay. simpl. by rewrite poll_polled_New.
  - rewrite replay_snoc, poll_polled_respond, NodeIDBag_Count_Remove, first_response_snoc, IH.
    case_decide; by destruct (first_response vdr rs).
Qed.

Lemma replay_Result_inv vdrs rs : bag_inv (poll_Result (replay vdrs rs)).
Proof.
  induction rs as [|r rs IH] using rev_ind.
  - unfold replay. simpl. rewrite poll_Result_New. apply bag_zero_inv.
  - rewrite replay_snoc. destruct r as [vdr vote|vdr]; simpl.
    + rewrite poll_Result_Vote. by apply bag_AddCount_inv.
    + by rewrite poll_Result_Drop.
Qed.

Lemma replay_Count vdrs rs id :
  nb_inv vdrs → Bag_Count (poll_Result (replay vdrs rs)) id = tally vdrs rs id.
Proof.
  intros Hv. induction rs as [|r rs IH] using rev_ind.
  - unfold replay. simpl. by rewrite poll_Result_New, tally_nil.
  - rewrite replay_snoc, tally_snoc, <-IH. destruct r as [vdr vote|vdr]; simpl.
    + rewrite poll_Result_Vote.
      rewrite Bag_Count_AddCount by (apply NodeIDBag_Count_nonneg; by apply replay_polled_inv).
      rewrite replay_polled. f_equal.
      destruct (decide (vote = id)) as [->|Hne]; [|by rewrite decide_False by naive_solver].
      destruct (first_response vdr rs); [by rewrite decide_False by naive_solver|].
      by rewrite decide_True.
    + rewrite poll_Result_Drop. lia.
Qed.

(** Every response keeps the votes received and still to come within the bag of
    validators. *)
Lemma respond_Len p r :
  nb_inv (poll_polled p) →
  Bag_Len (poll_Result p) ≤ Bag_Len (poll_Result (poll_respond p r)) ∧
  Bag_Len (poll_Result (poll_respond p r)) + NodeIDBag_Len (poll_polled (poll_respond p r)) ≤
  Bag_Len (poll_Result p) + NodeIDBag_Len (poll_polled p).
Proof.
  intros Hp. rewrite poll_polled_respond, NodeIDBag_Len_Remove.
  pose proof (NodeIDBag_Count_nonneg (responder r) _ Hp).
  destruct r as [vdr vote|vdr]; simpl in *.
  - rewrite poll_Result_Vote, Bag_Len_AddCount by done. lia.
  - rewrite poll_Result_Drop. lia.
Qed.

Lemma respond_Count p r id :
  nb_inv (poll_polled p) →
  Bag_Count (poll_Result p) id ≤ Bag_Count (poll_Result (poll_respond p r)) id.
Proof.
  intros Hp. destruct r as [vdr vote|vdr]; simpl.
  - pose proof (NodeIDBag_Count_nonneg vdr _ Hp).
    rewrite poll_Result_Vote, Bag_Count_AddCount by done. case_decide; lia.
  - by rewrite poll_Result_Drop.
Qed.

Lemma replay_app vdrs rs rs' :
  nb_inv vdrs →
  (∀ id, Bag_Count (poll_Result (replay vdrs rs)) id ≤
         Bag_Count (poll_Result (replay vdrs (rs ++ rs'))) id) ∧
  Bag_Len (poll_Result (replay vdrs rs)) ≤ Bag_Len (poll_Result (replay vdrs (rs ++ rs'))) ∧
  Bag_Len (poll_Result (replay vdrs (rs ++ rs'))) +
    NodeIDBag_Len (poll_polled (replay vdrs (rs ++ rs'))) ≤
  Bag_Len (poll_Result (replay vdrs rs)) + NodeIDBag_Len (poll_polled (replay vdrs rs)).
Proof.
  intros Hv. induction rs' as [|r rs' (IH1&IH2&IH3)] using rev_ind.
  { rewrite app_nil_r. split_and!; [done|lia|lia]. }
  rewrite app_assoc, replay_snoc. pose proof (replay_polled_inv vdrs (rs ++ rs') Hv) as Hp.
  split_and!; [|pose proof (respond_Len (replay vdrs (rs ++ rs')) r Hp); lia..].
  intros id. etrans; [apply IH1|by apply respond_Count].
Qed.

Lemma replay_Len vdrs rs :
  nb_inv vdrs →
  Bag_Len (poll_Result (replay vdrs rs)) + NodeIDBag_Len (poll_polled (replay vdrs rs)) ≤
  NodeIDBag_Len vdrs.
Proof.
  intros Hv. destruct (replay_app vdrs [] rs Hv) as (_&_&Hl). simpl in Hl.
  unfold replay in Hl at 3 4. simpl in Hl. rewrite poll_polled_New, poll_Result_New in Hl.
  unfold Bag_Len at 2 in Hl. simpl in Hl. lia.
Qed.

(** No response counts when nobody is polled any more. *)
Lemma replay_app_done vdrs rs rs' id :
  nb_inv vdrs → NodeIDBag_Len (poll_polled (replay vdrs rs)) = 0 →
  Bag_Count (poll_Result (replay vdrs (rs ++ rs'))) id =
  Bag_Count (poll_Result (replay vdrs rs)) id.
Proof.
  intros Hv Hl. rewrite !replay_Count by done.
  induction rs' as [|r rs' IH] using rev_ind; [by rewrite app_nil_r|].
  rewrite app_assoc, tally_snoc, IH. destruct (decide _) as [[_ Hn]|]; [|lia].
  pose proof (NodeIDBag_Len_0 _ (responder r) (replay_polled_inv vdrs rs Hv) Hl) as Hc0.
  rewrite replay_polled in Hc0. destruct (first_response (responder r) rs) as [r'|] eqn:E; [|lia].
  assert (first_response (responder r) (rs ++ rs') = Some r') as E'; [|congruence].
  clear -E. induction rs as [|x rs IH]; [done|]. simpl in *. case_decide; auto.
Qed.
End laws.

(** Both kinds of polls receive the same votes. *)
Lemma replay_same alpha vdrs rs :
  ne_votes (@replay _ noEarlyTermFactory vdrs rs) =
    et_votes (@replay _ (earlyTermNoTraversalFactory alpha) vdrs rs) ∧
  ne_polled (@replay _ noEarlyTermFactory vdrs rs) =
    et_polled (@replay _ (earlyTermNoTraversalFactory alpha) vdrs rs).
Proof.
  induction rs as [|r rs [IH1 IH2]] using rev_ind; [done|].
  rewrite !replay_snoc. destruct r; simpl; by rewrite IH1, IH2.
Qed.

Lemma replay_alpha alpha vdrs rs :
  et_alpha (@replay _ (earlyTermNoTraversalFactory alpha) vdrs rs) = alpha.
Proof.
  induction rs as [|r rs IH] using rev_ind; [done|]. rewrite replay_snoc. by destruct r.
Qed.

Lemma early_Finished_spec p :
  earlyTermNoTraversalPoll_Finished p = true ↔
  NodeIDBag_Len (et_polled p) = 0 ∨ et_alpha p ≤ modeFreq (et_votes p) ∨
  Bag_Len (et_votes p) + NodeIDBag_Len (et_polled p) < et_alpha p.
Proof.
  unfold earlyTermNoTraversalPoll_Finished. simpl.
  rewrite !orb_true_iff, !bool_decide_eq_true. tauto.
Qed.

(** ** Claims *)

(** A poll, with or without early termination, counts for every identifier
    the weight of the polled validators whose first response is a vote for it:
    a validator cannot vote twice, change its vote or vote after it was dropped, and a
    node that was not polled does not count; the result is a consistent bag, at
    most as large as the bag of validators. *)
Theorem poll_counts_first_votes alpha vdrs rs :
  nb_inv vdrs →
  let ne := @replay _ noEarlyTermFactory vdrs rs in
  let et := @replay _ (earlyTermNoTraversalFactory alpha) vdrs rs in
  ne_votes ne = et_votes et ∧ bag_inv (ne_votes ne) ∧
  Bag_Len (ne_votes ne) ≤ NodeIDBag_Len vdrs ∧
  ∀ id, Bag_Count (ne_votes ne) id = tally vdrs rs id.
Proof.
  intros Hv ne et.
  pose proof (@replay_Len _ _ noEarlyTerm_laws vdrs rs Hv) as Hl.
  pose proof (NodeIDBag_Len_nonneg _ (@replay_polled_inv _ _ noEarlyTerm_laws vdrs rs Hv)) as Hn.
  split_and!.
  - apply replay_same.
  - apply (@replay_Result_inv _ _ noEarlyTerm_laws).
  - simpl in Hl, Hn. fold ne in Hl, Hn. lia.
  - intros id. by apply (@replay_Count _ _ noEarlyTerm_laws).
Qed.

Definition sample_vdrs : NodeIDBag :=
  NodeIDBag_Add [node1 x01; node1 x02; node1 x02; node1 x03; node1 x04] NodeIDBag_zero.

Definition sample_responses : list response :=
  [RVote (node1 x02) (id1 x07); RVote (node1 x02) (id1 x08); RDrop (node1 x03);
   RVote (node1 x03) (id1 x07); RVote (node1 x09) (id1 x07); RVote (node1 x01) (id1 x07)].

Lemma poll_counts_first_votes_witness :
  nb_inv sample_vdrs ∧
  Bag_Count (ne_votes (@replay _ noEarlyTermFactory sample_vdrs sample_responses)) (id1 x07) = 3 ∧
  tally sample_vdrs sample_responses (id1 x07) = 3.
Proof.
  assert (nb_inv sample_vdrs) as Hv by apply nb_Add_inv, nb_zero_inv.
  destruct (poll_counts_first_votes 3 sample_vdrs sample_responses Hv) as (_&_&_&Ht).
  split; [exact Hv|]. rewrite <-Ht. split; vm_compute; reflexivity.
Defined.

(** C13: early termination decides nothing early: when more than half of the
    validators are needed, an identifier has an alpha majority in the result of a
    poll that finished early exactly if it has one after all further responses, in
    the poll without early termination, and the poll stays finished. *)
Theorem early_term_decisive alpha vdrs rs rs' id :
  nb_inv vdrs → NodeIDBag_Len vdrs < 2 * alpha →
  let et := @replay _ (earlyTermNoTraversalFactory alpha) vdrs in
  let ne := @replay _ noEarlyTermFactory vdrs in
  earlyTermNoTraversalPoll_Finished (et rs) = true →
  (alpha ≤ Bag_Count (et_votes (et rs)) id ↔ alpha ≤ Bag_Count (ne_votes (ne (rs ++ rs'))) id) ∧
  earlyTermNoTraversalPoll_Finished (et (rs ++ rs')) = true.
Proof.
  intros Hv Hk et ne Hf. destruct (replay_same alpha vdrs (rs ++ rs')) as [Hs _].
  unfold ne. rewrite Hs. fold et. clear Hs ne.
  apply early_Finished_spec in Hf.
  unfold et in *. rewrite early_Finished_spec, !replay_alpha in *.
  destruct (@replay_app _ _ (earlyTerm_laws alpha) vdrs rs rs' Hv) as (Hmono&Hmlen&Hlen).
  pose proof (@replay_app_done _ _ (earlyTerm_laws alpha) vdrs rs rs' id Hv) as Hdone.
  pose proof (@replay_Len _ _ (earlyTerm_laws alpha) vdrs (rs ++ rs') Hv) as Htot.
  pose proof (@replay_Result_inv _ _ (earlyTerm_laws alpha) vdrs rs) as Hi.
  pose proof (@replay_Result_inv _ _ (earlyTerm_laws alpha) vdrs (rs ++ rs')) as Hi'.
  pose proof (NodeIDBag_Len_nonneg _
    (@replay_polled_inv _ _ (earlyTerm_laws alpha) vdrs (rs ++ rs') Hv)) as Hn'.
  pose proof (NodeIDBag_Len_nonneg _
    (@replay_polled_inv _ _ (earlyTerm_laws alpha) vdrs rs Hv)) as Hn.
  simpl in *. set (p := replay vdrs rs) in *. set (p' := replay vdrs (rs ++ rs')) in *.
  pose proof (bag_mode _ Hi) as Hm. pose proof (bag_max _ Hi' (mode (et_votes p))) as Hx.
  pose proof (Hmono (mode (et_votes p))) as Hmm. specialize (Hmono id).
  pose proof (Bag_Count_le_Len _ id Hi') as Hid. destruct Hf as [H0|[H1|H2]].
  - rewrite (Hdone H0). split; [done|left; lia].
  - split; [|right; left; lia]. destruct (decide (id = mode (et_votes p))) as [->|Hne]; [lia|].
    pose proof (Bag_Count_two_le_Len _ _ _ Hi' Hne). lia.
  - split; [lia|right; right; lia].
Qed.

Lemma early_term_decisive_witness :
  let et := @replay _ (earlyTermNoTraversalFactory 3) sample_vdrs sample_responses in
  earlyTermNoTraversalPoll_Finished et = true ∧
  (3 ≤ Bag_Count (et_votes et) (id1 x07) ↔
   3 ≤ Bag_Count (ne_votes (@replay _ noEarlyTermFactory sample_vdrs
     (sample_responses ++ [RVote (node1 x04) (id1 x08)]))) (id1 x07)).
Proof.
  assert (nb_inv sample_vdrs) as Hv by apply nb_Add_inv, nb_zero_inv. intros et.
  assert (earlyTermNoTraversalPoll_Finished et = true) as Hf by (vm_compute; reflexivity).
  destruct (early_term_decisive 3 sample_vdrs sample_responses [RVote (node1 x04) (id1 x08)]
    (id1 x07) Hv) as [He _]; [vm_compute; reflexivity|exact Hf|].
  split; [exact Hf|exact He].
Defined.
