(* ===== verification/PollSet.v ===== *)
(** The set of outstanding polls of the network
    ([snow/consensus/snowman/poll/set.go]).

    The set keeps polls by request in the order in which they were created and
    gives out the results of finished polls oldest first.  It is refined from a
    queue of pending queries [pending], each with the validators it was sent to and
    the responses received: the specification [q_step].  The polls are any
    implementation of [PollImpl]. *)

From Stdlib Require Import Strings.Byte.
From S2P Require Import Prelude Ids Bag NodeBag LinkedHashmap Poll.

(** ** The set *)

Section set.
Context `{PollImpl P}.

(** [numPolls] is the gauge; the start times only feed a metric. *)
Record poll_set := mkPollSet {
  ps_polls : linkedHashmap Z P;
  ps_numPolls : Z;
}.

Definition NewSet : poll_set := mkPollSet lh_New 0.

(** A method of the poll a key maps to, through its pointer: the pairing is
    updated in place. *)
Definition lh_mutate (key : Z) (f : P → P) (lh : linkedHashmap Z P) : linkedHashmap Z P :=
  match entryMap lh !! key with
  | Some e =>
      mkLinkedHashmap (entryMap lh) (entryList lh)
        (alter (λ kv, (kv.1, f kv.2)) e (elemVal lh))
  | None => lh
  end.

Definition set_Add (requestID : Z) (vdrs : NodeIDBag) (s : poll_set) : bool * poll_set :=
  match lh_Get requestID (ps_polls s) with
  | Some _ => (false, s)
  | None =>
      (true, mkPollSet (lh_Put requestID (poll_New vdrs) (ps_polls s)) (ps_numPolls s + 1))
  end.

(** The loop of [processFinishedPolls]; [None] is out of fuel or a nil
    dereference. *)
Fixpoint process_loop (fuel : nat) (it : iterator Z P) (results : list Bag) (s : poll_set)
    : option (list Bag * poll_set) :=
  match fuel with
  | O => None
  | S fuel =>
      match it_Next (ps_polls s) it with
      | None => None
      | Some (false, _) => Some (results, s)
      | Some (true, it) =>
          match it_pair it with
          | None => None
          | Some (key, p) =>
              if negb (poll_Finished p) then Some (results, s)
              else process_loop fuel it (results ++ [poll_Result p])
                     (mkPollSet (lh_Delete key (ps_polls s)) (ps_numPolls s - 1))
          end
      end
  end.

(** One more call of [Next] than there are pairings. *)
Definition processFinishedPolls (s : poll_set) : option (list Bag * poll_set) :=
  process_loop (S (length (entryList (ps_polls s)))) NewIterator [] s.

(** The common end of [Vote] and [Drop]. *)
Definition set_respond (requestID : Z) (f : P → P) (s : poll_set) : option (list Bag * poll_set) :=
  match lh_Get requestID (ps_polls s) with
  | None => Some ([], s)
  | Some p =>
      let s := mkPollSet (lh_mutate requestID f (ps_polls s)) (ps_numPolls s) in
      if negb (poll_Finished (f p)) then Some ([], s) else processFinishedPolls s
  end.

Definition set_Vote (requestID : Z) (vdr : NodeID) (vote : ID) (s : poll_set) :=
  set_respond requestID (poll_Vote vdr vote) s.

Definition set_Drop (requestID : Z) (vdr : NodeID) (s : poll_set) :=
  set_respond requestID (poll_Drop vdr) s.

Definition set_Len (s : poll_set) : Z := lh_Len (ps_polls s).

(** Calls of the set and what they return. *)
Inductive set_call :=
| CAdd (requestID : Z) (vdrs : NodeIDBag)
| CVote (requestID : Z) (vdr : NodeID) (vote : ID)
| CDrop (requestID : Z) (vdr : NodeID).

Definition set_step (c : set_call) (s : poll_set) : option (list Bag * poll_set) :=
  match c with
  | CAdd requestID vdrs => Some ([], (set_Add requestID vdrs s).2)
  | CVote requestID vdr vote => set_Vote requestID vdr vote s
  | CDrop requestID vdr => set_Drop requestID vdr s
  end.

(** The results of each call in turn. *)
Fixpoint set_run (cs : list set_call) (s : poll_set) : option (list (list Bag) * poll_set) :=
  match cs with
  | [] => Some ([], s)
  | c :: cs =>
      match set_step c s with
      | None => None
      | Some (r, s) =>
          match set_run cs s with Some (rs, s) => Some (r :: rs, s) | None => None end
      end
  end.

(** ** The specification

    A pending query: its request, the validators, the responses in order. *)
Record pending := mkPending { pe_id : Z; pe_vdrs : NodeIDBag; pe_responses : list response }.

Definition pe_poll (q : pending) : P := replay (pe_vdrs q) (pe_responses q).
Definition pe_finished (q : pending) : bool := poll_Finished (pe_poll q).

(** The finished queries at the front of the queue, and the others. *)
Fixpoint q_split (l : list pending) : list pending * list pending :=
  match l with
  | [] => ([], [])
  | q :: l' =>
      if pe_finished q then let '(done, rest) := q_split l' in (q :: done, rest) else ([], l)
  end.

Definition q_respond (requestID : Z) (r : response) (l : list pending) : list pending :=
  (λ q, if decide (pe_id q = requestID)
        then mkPending (pe_id q) (pe_vdrs q) (pe_responses q ++ [r]) else q) <$> l.

(** A response is delivered to its query; when that query is finished, the
    finished queries at the front leave the queue. *)
Definition q_deliver (requestID : Z) (r : response) (l : list pending)
    : list pending * list pending :=
  let l := q_respond requestID r l in
  if existsb (λ q, bool_decide (pe_id q = requestID) && pe_finished q) l then q_split l
  else ([], l).

Definition q_step (c : set_call) (l : list pending) : list pending * list pending :=
  match c with
  | CAdd requestID vdrs =>
      if decide (requestID ∈ pe_id <$> l) then ([], l) else ([], l ++ [mkPending requestID vdrs []])
  | CVote requestID vdr vote => q_deliver requestID (RVote vdr vote) l
  | CDrop requestID vdr => q_deliver requestID (RDrop vdr) l
  end.

Fixpoint q_run (cs : list set_call) (l : list pending) : list (list pending) * list pending :=
  match cs with
  | [] => ([], l)
  | c :: cs =>
      let '(out, l) := q_step c l in
      let '(outs, l) := q_run cs l in (out :: outs, l)
  end.

(** The results of the queries that leave the queue. *)
Definition results_of (out : list pending) : list Bag := (λ q, poll_Result (pe_poll q)) <$> out.

(** The set represents the queue. *)
Definition set_rep (s : poll_set) (l : list pending) : Prop :=
  lh_rep (ps_polls s) ((λ q, (pe_id q, pe_poll q)) <$> l) ∧
  ps_numPolls s = Z.of_nat (length l).
(** ** Refinement *)

Lemma lh_mutate_rep key f lh (l : list (Z * P)) :
  lh_rep lh l →
  lh_rep (lh_mutate key f lh) ((λ kv, if decide (kv.1 = key) then (kv.1, f kv.2) else kv) <$> l).
Proof.
  intros Hr. unfold lh_mutate. destruct (entryMap lh !! key) as [e|] eqn:Hk.
  - split; simpl; [apply Hr| |].
    + apply Forall2_fmap_r. eapply Forall2_impl; [apply Hr|]. intros e' kv Hh.
      pose proof (holds_key _ _ _ _ _ _ Hr Hk Hh) as He. destruct Hh as [Hv Hm]. unfold holds. simpl.
      destruct (decide (kv.1 = key)) as [E|E]; (split; [|done]); simpl.
      * apply He in E as ->. by rewrite lookup_alter_eq, Hv.
      * rewrite lookup_alter_ne; [done|]. intros ->. by apply E, He.
    + intros k' e' Hk'. destruct (rep_map _ _ Hr _ _ Hk') as [Hin [v Hv]]. split; [done|].
      destruct (decide (e = e')) as [<-|Hne].
      * rewrite lookup_alter_eq, Hv. by eexists.
      * rewrite lookup_alter_ne by done. by exists v.
  - replace ((λ kv, if decide (kv.1 = key) then (kv.1, f kv.2) else kv) <$> l) with l; [done|].
    rewrite <-(list_fmap_id l) at 1. apply list_fmap_ext. intros i kv Hi. simpl.
    rewrite decide_False; [done|]. intros E.
    destruct (rep_pair _ _ kv Hr) as (e&_&[_ Hm]); [by eapply list_elem_of_lookup_2|congruence].
Qed.

Lemma process_loop_spec fuel it results s l :
  set_rep s l → it_at (ps_polls s) it (entryList (ps_polls s)) → (length l < fuel)%nat →
  ∃ s', process_loop fuel it results s =
    Some (results ++ results_of (q_split l).1, s') ∧
    set_rep s' (q_split l).2.
Proof.
  revert it results s l. induction fuel as [|fuel IH]; intros it results s l Hs Hi Hf; [lia|].
  destruct Hs as [Hr Hn]. cbn [process_loop].
  pose proof (rep_holds _ _ Hr) as Hh. destruct l as [|q l].
  { apply Forall2_nil_inv_r in Hh as E. rewrite E in Hi.
    destruct (it_Next_nil _ _ Hi) as [it' ->]. exists s. rewrite app_nil_r. done. }
  destruct (entryList (ps_polls s)) as [|e es] eqn:El; [by apply Forall2_length in Hh|].
  destruct (it_Next_cons _ _ _ _ _ Hr Hi) as (it'&->&Hp&Hinit&Hi').
  apply Forall2_cons in Hh as [[Hv Hm] _]. simpl in Hv, Hm. rewrite Hp, Hv. cbn [q_split].
  fold (pe_finished q). destruct (pe_finished q) eqn:Hq; simpl negb; cbn iota.
  2:{ exists s. rewrite app_nil_r. done. }
  assert (set_rep (mkPollSet (lh_Delete (pe_id q) (ps_polls s)) (ps_numPolls s - 1)) l) as Hs'.
  { split; simpl; [|simpl in Hn; lia]. pose proof (lh_Delete_rep (pe_id q) _ _ Hr) as Hd.
    pose proof (rep_NoDup_keys _ _ Hr) as Hnd. csimpl in Hnd. apply NoDup_cons in Hnd as [Hni _].
    csimpl in Hd. unfold alist_delete in Hd. rewrite filter_cons_False in Hd by naive_solver.
    rewrite list_filter_id in Hd; [done|]. intros kv Hkv E. apply Hni.
    rewrite <-E. by apply (list_elem_of_fmap_2 fst). }
  assert (entryList (lh_Delete (pe_id q) (ps_polls s)) = es ∧ e ∉ es) as [Ed He].
  { pose proof (rep_nodup _ _ Hr) as Hnd. rewrite El in Hnd. apply NoDup_cons in Hnd as [He _].
    split; [|done]. unfold lh_Delete. rewrite Hm. simpl. rewrite El. unfold list_Remove.
    rewrite filter_cons_False by naive_solver. apply list_filter_id. by intros e' He' ->. }
  destruct (IH it' (results ++ [poll_Result (pe_poll q)]) _ l Hs') as (s'&->&Hr').
  { simpl. rewrite Ed. by eapply it_at_Delete. }
  { simpl in Hf. lia. }
  exists s'. destruct (q_split l) as [done rest]. simpl in *. split; [|done].
  by rewrite <-app_assoc.
Qed.

Lemma pending_keys (l : list pending) : ((λ q, (pe_id q, pe_poll q)) <$> l).*1 = pe_id <$> l.
Proof. by rewrite <-list_fmap_compose. Qed.

Lemma q_respond_rep requestID r (l : list pending) :
  (λ q, (pe_id q, pe_poll q)) <$> q_respond requestID r l =
  (λ kv, if decide (kv.1 = requestID) then (kv.1, poll_respond kv.2 r) else kv) <$>
    ((λ q, (pe_id q, pe_poll q)) <$> l).
Proof.
  unfold q_respond. rewrite <-!list_fmap_compose. apply list_fmap_ext. intros i q _. simpl.
  case_decide; [|done]. unfold pe_poll. simpl. unfold replay. by rewrite foldl_app.
Qed.

Lemma set_respond_spec requestID r s l :
  set_rep s l →
  ∃ s', set_respond requestID (λ p, poll_respond p r) s =
    Some (results_of (q_deliver requestID r l).1, s') ∧
    set_rep s' (q_deliver requestID r l).2.
Proof.
  intros [Hr Hn]. unfold set_respond, q_deliver. cbv zeta.
  pose proof (lh_mutate_rep requestID (λ p, poll_respond p r) _ _ Hr) as Hm.
  cbn beta in Hm. rewrite <-q_respond_rep in Hm. set (l' := q_respond requestID r l) in *.
  assert (set_rep (mkPollSet (lh_mutate requestID (λ p, poll_respond p r) (ps_polls s))
    (ps_numPolls s)) l') as Hs'.
  { split; [done|]. unfold l', q_respond. by rewrite length_fmap. }
  pose proof (rep_NoDup_keys _ _ Hr) as Hnd. rewrite pending_keys in Hnd.
  rewrite (lh_Get_rep _ _ _ Hr). destruct (alist_get requestID _) as [p|] eqn:Hg.
  - apply alist_get_Some in Hg; [|by rewrite pending_keys].
    apply list_elem_of_fmap in Hg as (q&[= -> ->]&Hq).
    set (q' := mkPending (pe_id q) (pe_vdrs q) (pe_responses q ++ [r])).
    assert (poll_respond (pe_poll q) r = pe_poll q') as ->
      by (unfold pe_poll, replay; simpl; by rewrite foldl_app).
    assert (existsb (λ x, bool_decide (pe_id x = pe_id q) && pe_finished x) l' =
      pe_finished q') as ->.
    { apply eq_true_iff_eq. rewrite existsb_exists. split.
      - intros (x&Hx%list_elem_of_In&[Hid%bool_decide_eq_true Hf]%andb_true_iff).
        unfold l', q_respond in Hx. apply list_elem_of_fmap in Hx as (y&->&Hy).
        assert (pe_id y = pe_id q) as Hyq by (by case_decide). rewrite decide_True in Hf by done.
        by rewrite (NoDup_fmap_elem pe_id l y q Hnd Hy Hq Hyq) in Hf.
      - intros Hf. exists q'. split; [|by rewrite bool_decide_eq_true_2].
        apply list_elem_of_In, list_elem_of_fmap. exists q. by rewrite decide_True. }
    change (poll_Finished (pe_poll q')) with (pe_finished q').
    destruct (pe_finished q'); simpl negb; cbn iota.
    + destruct (process_loop_spec (S (length (entryList (ps_polls s)))) NewIterator [] _ _ Hs')
        as (s'&E&Hr'); [apply it_at_New| |].
      * rewrite (Forall2_length _ _ _ (rep_holds _ _ Hr)), length_fmap.
        unfold l', q_respond. rewrite length_fmap. lia.
      * exists s'. split; [|done]. unfold processFinishedPolls.
        replace (length (entryList _)) with (length (entryList (ps_polls s))); [done|].
        simpl. unfold lh_mutate. by destruct (entryMap _ !! _).
    + by eexists.
  - assert (l' = l) as ->.
    { unfold l', q_respond. rewrite <-(list_fmap_id l) at 2. apply list_fmap_ext.
      intros i q Hi. rewrite decide_False; [done|]. intros E. apply alist_get_None in Hg.
      apply Hg. rewrite pending_keys, <-E.
      apply list_elem_of_fmap_2. by eapply list_elem_of_lookup_2. }
    exists s. rewrite (not_true_is_false (existsb _ l)); [done|].
    rewrite existsb_exists. intros (x&Hx%list_elem_of_In&[Hid%bool_decide_eq_true _]%andb_true_iff).
    apply alist_get_None in Hg. apply Hg. rewrite pending_keys, <-Hid.
    by apply list_elem_of_fmap_2.
Qed.

Lemma set_step_spec c s l :
  set_rep s l →
  ∃ s', set_step c s = Some (results_of (q_step c l).1, s') ∧
    set_rep s' (q_step c l).2 ∧ (set_Len s' = Z.of_nat (length (q_step c l).2)).
Proof.
  intros Hs. assert (∃ s', set_step c s =
    Some (results_of (q_step c l).1, s') ∧ set_rep s' (q_step c l).2)
    as (s'&E&Hr).
  { destruct c as [rid vdrs|rid vdr vote|rid vdr].
    - destruct Hs as [Hr Hn]. simpl. eexists. split; [by destruct (decide _)|]. unfold set_Add.
      rewrite (lh_Get_rep _ _ _ Hr).
      destruct (decide (rid ∈ pe_id <$> l)) as [Hin|Hni]; destruct (alist_get _ _) eqn:Hg; simpl;
        try done.
      + apply alist_get_None in Hg. rewrite pending_keys in Hg. done.
      + apply alist_get_Some in Hg; [|by eapply rep_NoDup_keys]. destruct Hni.
        apply (list_elem_of_fmap_2 fst) in Hg. rewrite pending_keys in Hg. done.
      + split; [|simpl; rewrite length_app; simpl; lia]. simpl. rewrite fmap_app.
        pose proof (lh_Put_rep rid (poll_New vdrs) _ _ Hr) as Hp. unfold alist_put, alist_delete in Hp.
        rewrite list_filter_id in Hp; [done|]. intros kv Hkv <-.
        apply alist_get_None in Hg. apply Hg. by apply (list_elem_of_fmap_2 fst).
    - by apply (set_respond_spec rid (RVote vdr vote)).
    - by apply (set_respond_spec rid (RDrop vdr)). }
  exists s'. split_and!; [done|done|]. unfold set_Len. rewrite (lh_Len_rep _ _ (proj1 Hr)).
  by rewrite length_fmap.
Qed.

(** The front of the queue is not finished. *)
Definition head_unfinished (l : list pending) : Prop :=
  match l with q :: _ => pe_finished q = false | [] => True end.

Lemma q_split_head l : head_unfinished (q_split l).2.
Proof.
  induction l as [|q l IH]; [done|]. cbn [q_split]. destruct (pe_finished q) eqn:E; [|exact E].
  by destruct (q_split l).
Qed.

Lemma q_deliver_head rid r l : head_unfinished l → head_unfinished (q_deliver rid r l).2.
Proof.
  intros Hl. unfold q_deliver. cbv zeta. destruct (existsb _ _) eqn:E; [apply q_split_head|].
  destruct l as [|q l]; [done|]. simpl in *. apply orb_false_iff in E as [E _].
  destruct (decide (pe_id q = rid)); [|done]. simpl in E. by rewrite bool_decide_eq_true_2 in E.
Qed.

Lemma q_step_head c l :
  (∀ rid vdrs, c = CAdd rid vdrs → poll_Finished (poll_New vdrs) = false) →
  head_unfinished l → head_unfinished (q_step c l).2.
Proof.
  intros Hc Hl. destruct c as [rid vdrs|rid vdr vote|rid vdr]; [|by apply q_deliver_head..].
  simpl. destruct (decide _); [done|]. destruct l; [by eapply Hc|done].
Qed.

(** ** Claims *)

(** C14: the set of polls implements the queue of pending queries: for every
    sequence of calls on a new set no call panics, each returns the results of
    exactly the queries that leave the queue, oldest first, every result being that
    of a poll of the query's validators that has received exactly the responses to
    the query, and the size and the gauge are the length of the queue. *)
Theorem poll_set_refines (cs : list set_call) :
  ∃ s, set_run cs NewSet =
    Some (results_of <$> (q_run cs []).1, s) ∧
    set_Len s = Z.of_nat (length (q_run cs []).2) ∧ ps_numPolls s = set_Len s.
Proof.
  assert (set_rep NewSet []) as Hs by (split; [apply lh_New_rep|done]).
  revert Hs. generalize NewSet (@nil pending). induction cs as [|c cs IH]; intros s l Hs.
  - exists s. simpl. split; [done|]. unfold set_Len. rewrite (lh_Len_rep _ _ (proj1 Hs)).
    rewrite length_fmap. split; [done|]. apply Hs.
  - destruct (set_step_spec c s l Hs) as (s1&E1&Hs1&_). cbn [set_run q_run]. rewrite E1.
    destruct (q_step c l) as [out l1]. destruct (IH s1 l1 Hs1) as (s'&E'&Hl'). rewrite E'.
    simpl in *. destruct (q_run cs l1) as [outs l2]. by exists s'.
Qed.

(** No result is held back: when every query is sent to validators whose poll
    is not finished from the start, the oldest outstanding poll is never finished
    after any sequence of calls. *)
Theorem poll_set_oldest_unfinished cs outs s k p :
  (∀ rid vdrs, CAdd rid vdrs ∈ cs → poll_Finished (poll_New vdrs) = false) →
  set_run cs NewSet = Some (outs, s) → lh_Oldest (ps_polls s) = Some (k, p) →
  poll_Finished p = false.
Proof.
  assert (set_rep NewSet [] ∧ head_unfinished []) as [Hs Hh]
    by (split; [split; [apply lh_New_rep|done]|done]).
  revert Hs Hh. generalize NewSet (@nil pending). revert outs.
  induction cs as [|c cs IH]; intros outs s0 l Hs Hh Hc; cbn [set_run].
  - intros [= _ <-]. rewrite (lh_Oldest_rep _ _ (proj1 Hs)). by destruct l; intros [= _ <-].
  - destruct (set_step_spec c s0 l Hs) as (s1&->&Hs1&_).
    destruct (set_run cs s1) as [[rs s2]|] eqn:E; [|done]. intros [= _ <-].
    eapply (IH _ s1 _ Hs1); [|intros; by eapply Hc; right|done].
    apply q_step_head; [|done]. intros rid vdrs ->. eapply Hc. left.
Qed.
End set.

(** Two queries; the younger finishes first and is held back until the older one
    has. *)
Definition sample_calls : list set_call :=
  [CAdd 1 sample_vdrs; CAdd 2 sample_vdrs; CVote 2 (node1 x02) (id1 x07);
   CVote 2 (node1 x01) (id1 x07); CVote 1 (node1 x02) (id1 x07)].

(** Nothing has left the set, and the oldest poll is the first. *)
Definition sample_check
    (r : option (list (list Bag) * @poll_set earlyTermNoTraversalPoll)) : bool :=
  match r with
  | Some (outs, s) =>
      match concat outs, lh_Oldest (ps_polls s) with
      | [], Some (k, _) => bool_decide (k = 1)
      | _, _ => false
      end
  | None => false
  end.

Lemma sample_check_ok :
  sample_check (@set_run _ (earlyTermNoTraversalFactory 3) sample_calls NewSet) = true.
Proof. vm_compute. reflexivity. Qed.

Lemma sample_calls_ok rid vdrs :
  CAdd rid vdrs ∈ sample_calls →
  @poll_Finished _ (earlyTermNoTraversalFactory 3)
    (@poll_New _ (earlyTermNoTraversalFactory 3) vdrs) = false.
Proof.
  intros Hin. unfold sample_calls in Hin.
  repeat (apply elem_of_cons in Hin as [Heq|Hin]; [first [discriminate Heq
    | injection Heq as -> ->; vm_compute; reflexivity]|]).
  by apply elem_of_nil in Hin.
Qed.

Lemma poll_set_oldest_unfinished_witness :
  ∃ outs s p, @set_run _ (earlyTermNoTraversalFactory 3) sample_calls NewSet = Some (outs, s) ∧
    concat outs = [] ∧ lh_Oldest (ps_polls s) = Some (1, p) ∧
    earlyTermNoTraversalPoll_Finished p = false.
Proof.
  pose proof sample_check_ok as Hc. unfold sample_check in Hc.
  destruct (@set_run _ (earlyTermNoTraversalFactory 3) sample_calls NewSet) as [[outs s]|] eqn:E;
    [|discriminate Hc].
  destruct (concat outs) eqn:Eo; [|discriminate Hc].
  destruct (lh_Oldest (ps_polls s)) as [[k p]|] eqn:Ep; [|discriminate Hc].
  apply bool_decide_eq_true in Hc as ->.
  exists outs, s, p. split; [reflexivity|]. split; [exact Eo|]. split; [exact Ep|].
  exact (@poll_set_oldest_unfinished _ (earlyTermNoTraversalFactory 3) sample_calls outs s 1 p
    sample_calls_ok E Ep).
Defined.
