(* ===== verification/Database.v ===== *)
(** Key-value databases ([database/database.go], [batch.go], [iterator.go],
    [database/nodb]).

    [Database] is the interface of a database with its batches and iterators.
    [DatabaseLaws] is the contract every implementation is proved to satisfy and
    every client relies on: an open database is a finite map from byte strings to
    byte strings, a closed one answers [ErrClosed]; a batch is a list of writes
    applied in order; an iterator enumerates the entries of a range in the order of
    their keys. *)

From Stdlib Require Import Strings.Byte.
From S2P Require Import Prelude Ids Packer.

Inductive db_error := ErrClosed | ErrNotFound.

#[export] Instance db_error_eq_dec : EqDecision db_error.
Proof. solve_decision. Defined.

(** ** The order of keys

    Go compares strings byte by byte; a prefix comes first. *)
Fixpoint bytes_ltb (a b : bytes) : bool :=
  match a, b with
  | _, [] => false
  | [], _ :: _ => true
  | x :: a, y :: b =>
      if decide (x = y) then bytes_ltb a b else bool_decide (byte_val x < byte_val y)
  end.

Definition bytes_lt (a b : bytes) : Prop := bytes_ltb a b = true.
Definition bytes_le (a b : bytes) : Prop := bytes_ltb b a = false.

#[export] Instance bytes_lt_dec a b : Decision (bytes_lt a b).
Proof. unfold bytes_lt. apply _. Defined.
#[export] Instance bytes_le_dec a b : Decision (bytes_le a b).
Proof. unfold bytes_le. apply _. Defined.

(** [strings.HasPrefix]. *)
Definition HasPrefix (s prefix : bytes) : bool := bool_decide (take (length prefix) s = prefix).

(** ** The interface *)

Class Database (D B It : Type) : Type := {
  db_Has : bytes → D → result db_error bool;
  db_Get : bytes → D → result db_error bytes;
  db_Put : bytes → bytes → D → result db_error unit * D;
  db_Delete : bytes → D → result db_error unit * D;
  db_NewBatch : D → option B;
  db_NewIterator : bytes → bytes → D → It;
  db_Compact : bytes → bytes → D → result db_error unit;
  db_Close : D → result db_error unit * D;
  db_HealthCheck : D → result db_error unit;
  batch_Put : bytes → bytes → B → result db_error unit * B;
  batch_Delete : bytes → B → result db_error unit * B;
  batch_Size : B → Z;
  batch_Write : B → D → result db_error unit * D;
  batch_Reset : B → B;
  iter_Next : D → It → bool * It;
  iter_Error : It → option db_error;
  iter_Key : It → bytes;
  iter_Value : It → bytes;
  iter_Release : It → It;
}.

(** [None] is a deletion. *)
Abbreviation write := (bytes * option bytes)%type.

(** The effect of writes in order. *)
Definition apply_write (m : gmap bytes bytes) (w : write) : gmap bytes bytes :=
  match w with (k, Some v) => <[k := v]> m | (k, None) => delete k m end.
Definition apply_writes (ws : list write) (m : gmap bytes bytes) : gmap bytes bytes :=
  foldl apply_write m ws.

(** [l] lists the entries of [m] whose keys have a prefix and are not below
    [start], in the order of the keys. *)
Definition key_lt (a b : bytes * bytes) : Prop := bytes_lt a.1 b.1.
Definition is_range (start prefix : bytes) (m : gmap bytes bytes) (l : list (bytes * bytes)) : Prop :=
  StronglySorted key_lt l ∧
  ∀ k v, (k, v) ∈ l ↔ m !! k = Some v ∧ HasPrefix k prefix = true ∧ bytes_le start k.

(** ** The contract

    [db_view] is the map of an open database; [db_ok] is an invariant of the
    implementation; [batch_ops] are the writes of a batch of the database,
    [batch_for]; [iter_rest] are the entries still to come. *)
Class DatabaseView (D B It : Type) : Type := {
  db_view : D → option (gmap bytes bytes);
  db_ok : D → Prop;
  batch_ops : B → list write;
  batch_for : D → B → Prop;
  iter_rest : It → list (bytes * bytes);
}.

(** The result of an operation on a database that may be closed. *)
Definition if_open {A : Type} (v : option (gmap bytes bytes)) (f : gmap bytes bytes → result db_error A)
    : result db_error A :=
  match v with Some m => f m | None => Err ErrClosed end.

Definition map_Get (k : bytes) (m : gmap bytes bytes) : result db_error bytes :=
  match m !! k with Some v => Ok v | None => Err ErrNotFound end.
Definition map_Has (k : bytes) (m : gmap bytes bytes) : result db_error bool :=
  Ok (bool_decide (is_Some (m !! k))).

(** What an operation that writes does to the database. *)
Definition writes `{DatabaseView D B It} (d : D) (r : result db_error unit * D)
    (ws : list write) : Prop :=
  r.1 = if_open (db_view d) (λ _, Ok tt) ∧
  db_view r.2 = apply_writes ws <$> db_view d ∧ db_ok r.2 ∧
  ∀ b, batch_for d b → batch_for r.2 b.

Class DatabaseLaws (D B It : Type) `{Database D B It, DatabaseView D B It} : Prop := {
  Has_spec : ∀ k d, db_ok d → db_Has k d = if_open (db_view d) (map_Has k);
  Get_spec : ∀ k d, db_ok d → db_Get k d = if_open (db_view d) (map_Get k);
  Put_spec : ∀ k v d, db_ok d → writes d (db_Put k v d) [(k, Some v)];
  Delete_spec : ∀ k d, db_ok d → writes d (db_Delete k d) [(k, None)];
  Compact_spec : ∀ a b d, db_ok d → db_Compact a b d = if_open (db_view d) (λ _, Ok tt);
  HealthCheck_spec : ∀ d, db_ok d → db_HealthCheck d = if_open (db_view d) (λ _, Ok tt);
  NewBatch_spec : ∀ d, db_ok d → is_Some (db_view d) →
    ∃ b, db_NewBatch d = Some b ∧ batch_ops b = [] ∧ batch_for d b;
  batch_Put_spec : ∀ k v b, (batch_Put k v b).1 = Ok tt ∧
    batch_ops (batch_Put k v b).2 = batch_ops b ++ [(k, Some v)] ∧
    ∀ d, batch_for d b → batch_for d (batch_Put k v b).2;
  batch_Delete_spec : ∀ k b, (batch_Delete k b).1 = Ok tt ∧
    batch_ops (batch_Delete k b).2 = batch_ops b ++ [(k, None)] ∧
    ∀ d, batch_for d b → batch_for d (batch_Delete k b).2;
  batch_Reset_spec : ∀ b, batch_ops (batch_Reset b) = [] ∧
    ∀ d, batch_for d b → batch_for d (batch_Reset b);
  batch_Write_spec : ∀ b d, db_ok d → batch_for d b → writes d (batch_Write b d) (batch_ops b);
  Close_spec : ∀ d, db_ok d → (is_Some (db_view d) → (db_Close d).1 = Ok tt) ∧
    db_view (db_Close d).2 = None ∧ db_ok (db_Close d).2;
  NewIterator_spec : ∀ start prefix d m, db_ok d → db_view d = Some m →
    is_range start prefix m (iter_rest (db_NewIterator start prefix d)) ∧
    iter_Error (db_NewIterator start prefix d) = None;
  NewIterator_closed : ∀ start prefix d, db_ok d → db_view d = None →
    iter_Error (db_NewIterator start prefix d) = Some ErrClosed ∧
    iter_rest (db_NewIterator start prefix d) = [];
  Next_spec : ∀ d it, db_ok d → is_Some (db_view d) →
    match iter_rest it with
    | [] => (iter_Next d it).1 = false ∧ iter_rest (iter_Next d it).2 = []
    | (k, v) :: l => (iter_Next d it).1 = true ∧ iter_Key (iter_Next d it).2 = k ∧
        iter_Value (iter_Next d it).2 = v ∧ iter_rest (iter_Next d it).2 = l
    end ∧ iter_Error (iter_Next d it).2 = iter_Error it;
}.

(** ** [nodb.Iterator] *)

Record nodb_Iterator := mkNodbIterator { nodb_Err : db_error }.

(** ** Properties of the order *)

Lemma bytes_lt_irrefl a : ¬ bytes_lt a a.
Proof. unfold bytes_lt. induction a; simpl; [done|]. by rewrite decide_True. Qed.

#[export] Instance bytes_lt_trans : Transitive bytes_lt.
Proof.
  unfold bytes_lt. intros a. induction a as [|x a IH]; intros [|y b] [|z c]; simpl; try done.
  repeat case_decide; rewrite ?bool_decide_eq_true; subst; try done; try lia; eauto.
Qed.

Lemma bytes_lt_total a b : bytes_lt a b ∨ a = b ∨ bytes_lt b a.
Proof.
  unfold bytes_lt. revert b. induction a as [|x a IH]; intros [|y b]; simpl; auto.
  destruct (decide (x = y)) as [->|Hne].
  - rewrite decide_True by done. destruct (IH b) as [?|[-> |?]]; auto.
  - rewrite decide_False by done. rewrite !bool_decide_eq_true.
    assert (byte_val x ≠ byte_val y) by (by intros ?%byte_val_inj). lia.
Qed.

Lemma bytes_le_lt a b : bytes_le a b ↔ bytes_lt a b ∨ a = b.
Proof.
  unfold bytes_le. split.
  - intros Hab. destruct (bytes_lt_total a b) as [?|[?|Hba]]; auto.
    unfold bytes_lt in Hba. congruence.
  - intros Hab. destruct (bytes_ltb b a) eqn:E; [|done]. exfalso.
    destruct Hab as [Hab| ->]; [|by apply (bytes_lt_irrefl b)].
    apply (bytes_lt_irrefl a). by trans b.
Qed.

Lemma bytes_le_not_lt a b : bytes_le a b ↔ ¬ bytes_lt b a.
Proof. unfold bytes_le, bytes_lt. by rewrite not_true_iff_false. Qed.

#[export] Instance bytes_le_trans : Transitive bytes_le.
Proof.
  intros a b c. rewrite !bytes_le_lt. intros [?| ->] [?| ->]; auto. left. by trans b.
Qed.

#[export] Instance bytes_le_total : Total bytes_le.
Proof.
  intros a b. rewrite !bytes_le_lt. destruct (bytes_lt_total a b) as [?|[?|?]]; auto.
Qed.

#[export] Instance bytes_le_antisym : AntiSymm (=) bytes_le.
Proof.
  intros a b. rewrite !bytes_le_lt. intros [Hab|?] [Hba|?]; auto.
  destruct (bytes_lt_irrefl a). by trans b.
Qed.

Lemma bytes_le_nil a : bytes_le [] a.
Proof. by destruct a. Qed.

(** A common prefix does not change the order. *)
Lemma bytes_ltb_app p a b : bytes_ltb (p ++ a) (p ++ b) = bytes_ltb a b.
Proof. induction p as [|x p IH]; [done|]. simpl. by rewrite decide_True. Qed.

Lemma HasPrefix_spec s p : HasPrefix s p = true ↔ ∃ t, s = p ++ t.
Proof.
  unfold HasPrefix. rewrite bool_decide_eq_true. split.
  - intros E. exists (drop (length p) s). by rewrite <-E at 1; rewrite take_drop.
  - intros [t ->]. by rewrite take_app_length.
Qed.

(** ** Ranges *)

Lemma key_lt_NoDup l : StronglySorted key_lt l → NoDup l.*1.
Proof.
  induction 1 as [|[k v] l _ IH Hl]; csimpl; constructor; [|done].
  intros Hk. apply list_elem_of_fmap in Hk as ([k' v']&->&Hin).
  rewrite Forall_forall in Hl. apply (bytes_lt_irrefl k'), (Hl _ Hin).
Qed.

(** The range of a map is unique. *)
Lemma is_range_unique start prefix m l1 l2 :
  is_range start prefix m l1 → is_range start prefix m l2 → l1 = l2.
Proof.
  intros [S1 E1] [S2 E2]. eapply StronglySorted_unique_strong; [|exact S1|exact S2|].
  - intros [k v] [k' v'] _ _ Hab Hba. destruct (bytes_lt_irrefl k). by trans k'.
  - apply NoDup_Permutation.
    + eapply NoDup_fmap_1, key_lt_NoDup, S1.
    + eapply NoDup_fmap_1, key_lt_NoDup, S2.
    + intros [k v]. by rewrite E1, E2.
Qed.

(** Sorting the entries of a map gives a range. *)
Definition sorted_range (start prefix : bytes) (keys : list bytes) : list bytes :=
  merge_sort bytes_le (filter (λ k, HasPrefix k prefix = true ∧ bytes_le start k) keys).

Lemma sorted_range_elem start prefix keys k :
  k ∈ sorted_range start prefix keys ↔
  k ∈ keys ∧ HasPrefix k prefix = true ∧ bytes_le start k.
Proof. unfold sorted_range. rewrite merge_sort_Permutation, list_elem_of_filter. tauto. Qed.

Lemma sorted_range_sorted start prefix keys :
  NoDup keys → StronglySorted bytes_lt (sorted_range start prefix keys).
Proof.
  intros Hn. assert (NoDup (sorted_range start prefix keys)) as Hn'.
  { unfold sorted_range. rewrite merge_sort_Permutation. by apply NoDup_filter. }
  assert (StronglySorted bytes_le (sorted_range start prefix keys)) as Hs
    by (apply Sorted_StronglySorted, Sorted_merge_sort; apply _).
  induction Hs as [|k l Hs IH Hk]; [constructor|]. apply NoDup_cons in Hn' as [Hk' Hn'].
  constructor; [by apply IH|]. rewrite !Forall_forall in *. intros k' Hin.
  specialize (Hk k' Hin). apply bytes_le_lt in Hk as [?| ->]; done.
Qed.

(** The keys of a sorted list with their values. *)
Lemma sorted_with_values {V} (f : bytes → V) keys :
  StronglySorted bytes_lt keys →
  StronglySorted (λ a b : bytes * V, bytes_lt a.1 b.1) ((λ k, (k, f k)) <$> keys).
Proof.
  induction 1 as [|k l _ IH Hk]; csimpl; constructor; [done|]. apply Forall_fmap.
  eapply Forall_impl; [exact Hk|]. done.
Qed.

Lemma apply_writes_cons w ws m : apply_writes (w :: ws) m = apply_writes ws (apply_write m w).
Proof. done. Qed.

Arguments apply_writes : simpl never.

Lemma apply_writes_app ws ws' m :
  apply_writes (ws ++ ws') m = apply_writes ws' (apply_writes ws m).
Proof. unfold apply_writes. by rewrite foldl_app. Qed.

(** The entries of a map in a range, for any enumeration of its keys. *)
Definition range_of (start prefix : bytes) (keys : list bytes) (m : gmap bytes bytes)
    : list (bytes * bytes) :=
  (λ k, (k, default [] (m !! k))) <$> sorted_range start prefix keys.

Lemma range_of_spec start prefix keys m :
  NoDup keys → (∀ k, k ∈ keys ↔ is_Some (m !! k)) →
  is_range start prefix m (range_of start prefix keys m).
Proof.
  intros Hn Hk. split; [by apply sorted_with_values, sorted_range_sorted|].
  intros k v. unfold range_of. rewrite list_elem_of_fmap. split.
  - intros (k'&[= -> ->]&Hin). apply sorted_range_elem in Hin as [Hin Hp].
    apply Hk in Hin as [w Hw]. by rewrite Hw.
  - intros (Hm&Hp). exists k. rewrite Hm. split; [done|]. apply sorted_range_elem.
    split; [|done]. apply Hk. by exists v.
Qed.

Definition map_range (start prefix : bytes) (m : gmap bytes bytes) : list (bytes * bytes) :=
  range_of start prefix (map_to_list m).*1 m.

Lemma map_range_spec start prefix m : is_range start prefix m (map_range start prefix m).
Proof.
  apply range_of_spec; [apply NoDup_fst_map_to_list|]. intros k. rewrite list_elem_of_fmap. split.
  - intros ([k' v]&->&Hin%elem_of_map_to_list). by exists v.
  - intros [v Hv]. exists (k, v). split; [done|]. by apply elem_of_map_to_list.
Qed.

(** ** Clients of the contract *)

(** A loop over an iterator that reads at most [limit] entries. *)
Fixpoint collect `{Database D B It} (limit : nat) (d : D) (it : It) : list (bytes * bytes) :=
  match limit with
  | O => []
  | S limit =>
      let '(b, it) := iter_Next d it in
      if b : bool then (iter_Key it, iter_Value it) :: collect limit d it else []
  end.

Lemma collect_spec `{DatabaseLaws D B It} limit d it :
  db_ok d → is_Some (db_view d) → collect limit d it = take limit (iter_rest it).
Proof.
  intros Hd Ho. revert it. induction limit as [|limit IH]; intros it; [done|]. cbn [collect].
  destruct (Next_spec d it Hd Ho) as [Hn _]. destruct (iter_Next d it) as [b it'].
  simpl in Hn. destruct (iter_rest it) as [|[k v] l].
  - by destruct Hn as [-> _].
  - destruct Hn as (->&->&->&<-). simpl. by rewrite IH.
Qed.

(** The writes put into a new batch. *)
Definition fill_batch `{Database D B It} (ws : list write) (b : B) : B :=
  foldl (λ b w, match w with
                | (k, Some v) => (batch_Put k v b).2
                | (k, None) => (batch_Delete k b).2
                end) b ws.

Lemma fill_batch_spec `{DatabaseLaws D B It} d ws b :
  batch_for d b →
  batch_for d (fill_batch ws b) ∧ batch_ops (fill_batch ws b) = batch_ops b ++ ws.
Proof.
  unfold fill_batch. revert b. induction ws as [|[k [v|]] ws IH]; intros b Hb; simpl.
  - by rewrite app_nil_r.
  - destruct (batch_Put_spec k v b) as (_&Ho&Hf). destruct (IH _ (Hf d Hb)) as [? ->].
    split; [done|]. by rewrite Ho, <-app_assoc.
  - destruct (batch_Delete_spec k b) as (_&Ho&Hf). destruct (IH _ (Hf d Hb)) as [? ->].
    split; [done|]. by rewrite Ho, <-app_assoc.
Qed.
