(* ===== verification/MemDB.v ===== *)
(** The database in memory ([database/memdb/db.go]).

    A Go map, nil when closed.  [memdb_laws] proves the contract of [Database]. *)

From Stdlib Require Import Strings.Byte.
From S2P Require Import Prelude Ids Packer Database.

Section memdb.
Context `{GoRange}.

(** The keys of the map, strings in the code, are byte strings. *)
Record memdb := mkMemdb { mem_db : option (gmap bytes bytes) }.

Definition memdb_New : memdb := mkMemdb (Some ∅).

Definition memdb_Close (d : memdb) : result db_error unit * memdb :=
  match mem_db d with
  | None => (Err ErrClosed, d)
  | Some _ => (Ok tt, mkMemdb None)
  end.

Definition memdb_isClosed (d : memdb) : bool := bool_decide (mem_db d = None).

Definition memdb_Has (key : bytes) (d : memdb) : result db_error bool :=
  match mem_db d with
  | None => Err ErrClosed
  | Some m => Ok (match m !! key with Some _ => true | None => false end)
  end.

Definition memdb_Get (key : bytes) (d : memdb) : result db_error bytes :=
  match mem_db d with
  | None => Err ErrClosed
  | Some m => match m !! key with Some entry => Ok entry | None => Err ErrNotFound end
  end.

Definition memdb_Put (key value : bytes) (d : memdb) : result db_error unit * memdb :=
  match mem_db d with
  | None => (Err ErrClosed, d)
  | Some m => (Ok tt, mkMemdb (Some (<[key := value]> m)))
  end.

Definition memdb_Delete (key : bytes) (d : memdb) : result db_error unit * memdb :=
  match mem_db d with
  | None => (Err ErrClosed, d)
  | Some m => (Ok tt, mkMemdb (Some (delete key m)))
  end.

Definition memdb_Compact (start limit : bytes) (d : memdb) : result db_error unit :=
  match mem_db d with None => Err ErrClosed | Some _ => Ok tt end.

Definition memdb_HealthCheck (d : memdb) : result db_error unit :=
  if memdb_isClosed d then Err ErrClosed else Ok tt.

(** ** Batches *)

Record keyValue := mkKeyValue { kv_key : bytes; kv_value : bytes; kv_delete : bool }.

(** The batch of [memdb], and, with the same fields and methods, of [versiondb].
    The database of the batch is an argument of [Write]. *)
Record batch := mkBatch { b_writes : list keyValue; b_size : Z }.

Definition memdb_NewBatch (d : memdb) : option batch := Some (mkBatch [] 0).

Definition memb_Put (key value : bytes) (b : batch) : result db_error unit * batch :=
  (Ok tt, mkBatch (b_writes b ++ [mkKeyValue key value false])
            (b_size b + Z.of_nat (length key) + Z.of_nat (length value))).

Definition memb_Delete (key : bytes) (b : batch) : result db_error unit * batch :=
  (Ok tt, mkBatch (b_writes b ++ [mkKeyValue key [] true]) (b_size b + Z.of_nat (length key))).

Definition memb_Size (b : batch) : Z := b_size b.

Definition memb_Write (b : batch) (d : memdb) : result db_error unit * memdb :=
  match mem_db d with
  | None => (Err ErrClosed, d)
  | Some m =>
      (Ok tt, mkMemdb (Some (foldl (λ m kv,
         if kv_delete kv then delete (kv_key kv) m else <[kv_key kv := kv_value kv]> m)
         m (b_writes b))))
  end.

(** The capacity of the new slice is not observable. *)
Definition memb_Reset (b : batch) : batch := mkBatch [] 0.

(** [Replay] into a writer with its [Put] and [Delete]; stops at an error. *)
Fixpoint replay_writes {W} (put : bytes → bytes → W → result db_error unit * W)
    (del : bytes → W → result db_error unit * W) (l : list keyValue) (w : W)
    : result db_error unit * W :=
  match l with
  | [] => (Ok tt, w)
  | kv :: l =>
      let '(r, w) :=
        if kv_delete kv then del (kv_key kv) w else put (kv_key kv) (kv_value kv) w in
      match r with Err e => (Err e, w) | Ok _ => replay_writes put del l w end
  end.

Definition memb_Replay {W} (put : bytes → bytes → W → result db_error unit * W)
    (del : bytes → W → result db_error unit * W) (b : batch) (w : W) :=
  replay_writes put del (b_writes b) w.

(** ** Iterators *)

Record mem_iterator := mkMemIterator {
  mi_initialized : bool;
  mi_keys : list bytes;
  mi_values : list bytes;
  mi_err : option db_error;
}.

(** [nodb.Iterator] or the iterator of an open database. *)
Inductive memdb_iter :=
| NodbIter (it : nodb_Iterator)
| MemIter (it : mem_iterator).

Definition memdb_NewIterator (start prefix : bytes) (d : memdb) : memdb_iter :=
  match mem_db d with
  | None => NodbIter (mkNodbIterator ErrClosed)
  | Some m =>
      let keys := sorted_range start prefix (go_range m).*1 in
      let values := (λ key, default [] (m !! key)) <$> keys in
      MemIter (mkMemIterator false keys values None)
  end.

Definition mi_Next (d : memdb) (it : mem_iterator) : bool * mem_iterator :=
  if memdb_isClosed d then
    (false, mkMemIterator (mi_initialized it) [] [] (Some ErrClosed))
  else if negb (mi_initialized it) then
    (bool_decide (0 < length (mi_keys it))%nat,
     mkMemIterator true (mi_keys it) (mi_values it) (mi_err it))
  else
    let it := mkMemIterator true (tail (mi_keys it)) (tail (mi_values it)) (mi_err it) in
    (bool_decide (0 < length (mi_keys it))%nat, it).

Definition memdb_Next (d : memdb) (it : memdb_iter) : bool * memdb_iter :=
  match it with
  | NodbIter it => (false, NodbIter it)
  | MemIter it => let '(b, it) := mi_Next d it in (b, MemIter it)
  end.

Definition memdb_Error (it : memdb_iter) : option db_error :=
  match it with NodbIter it => Some (nodb_Err it) | MemIter it => mi_err it end.

Definition memdb_Key (it : memdb_iter) : bytes :=
  match it with NodbIter _ => [] | MemIter it => hd [] (mi_keys it) end.
Definition memdb_Value (it : memdb_iter) : bytes :=
  match it with NodbIter _ => [] | MemIter it => hd [] (mi_values it) end.

Definition memdb_Release (it : memdb_iter) : memdb_iter :=
  match it with
  | NodbIter it => NodbIter it
  | MemIter it => MemIter (mkMemIterator (mi_initialized it) [] [] (mi_err it))
  end.

#[export] Instance memdb_database : Database memdb batch memdb_iter := {|
  db_Has := memdb_Has; db_Get := memdb_Get; db_Put := memdb_Put; db_Delete := memdb_Delete;
  db_NewBatch := memdb_NewBatch; db_NewIterator := memdb_NewIterator;
  db_Compact := memdb_Compact; db_Close := memdb_Close; db_HealthCheck := memdb_HealthCheck;
  batch_Put := memb_Put; batch_Delete := memb_Delete; batch_Size := memb_Size;
  batch_Write := memb_Write; batch_Reset := memb_Reset;
  iter_Next := memdb_Next; iter_Error := memdb_Error; iter_Key := memdb_Key;
  iter_Value := memdb_Value; iter_Release := memdb_Release;
|}.

(** ** The contract *)

Definition kv_write (kv : keyValue) : write :=
  (kv_key kv, if kv_delete kv then None else Some (kv_value kv)).

(** The keys with their values, nil for those that are missing. *)
Fixpoint pairs (keys values : list bytes) : list (bytes * bytes) :=
  match keys with
  | [] => []
  | k :: keys => (k, hd [] values) :: pairs keys (tail values)
  end.

Lemma pairs_fmap keys f : pairs keys (f <$> keys) = (λ k, (k, f k)) <$> keys.
Proof. induction keys as [|k keys IH]; [done|]. csimpl. by rewrite IH. Qed.

Definition mi_rest (it : memdb_iter) : list (bytes * bytes) :=
  match it with
  | NodbIter _ => []
  | MemIter it =>
      let l := pairs (mi_keys it) (mi_values it) in if mi_initialized it then tail l else l
  end.

#[export] Instance memdb_view : DatabaseView memdb batch memdb_iter := {|
  db_view := mem_db;
  db_ok _ := True;
  batch_ops b := kv_write <$> b_writes b;
  batch_for _ _ := True;
  iter_rest := mi_rest;
|}.

Lemma apply_keyValues l m :
  foldl (λ m kv, if kv_delete kv then delete (kv_key kv) m
                 else <[kv_key kv := kv_value kv]> m) m l = apply_writes (kv_write <$> l) m.
Proof.
  unfold apply_writes. revert m. induction l as [|kv l IH]; intros m; [done|]. simpl. rewrite IH.
  unfold apply_write, kv_write. by destruct (kv_delete kv).
Qed.

Lemma memdb_range start prefix m :
  is_range start prefix m (mi_rest (memdb_NewIterator start prefix (mkMemdb (Some m)))).
Proof.
  simpl. rewrite pairs_fmap. apply range_of_spec; [apply NoDup_fst_go_range|].
  intros k. rewrite list_elem_of_fmap. split.
  - intros ([k' v]&->&Hin%elem_of_go_range). by exists v.
  - intros [v Hv]. exists (k, v). split; [done|]. by apply elem_of_go_range.
Qed.

#[export] Instance memdb_laws : DatabaseLaws memdb batch memdb_iter.
Proof.
  split; simpl.
  - intros k [[m|]] _; [|done]. unfold memdb_Has, map_Has. simpl. f_equal.
    by destruct (m !! k).
  - by intros k [[m|]] _.
  - by intros k v [[m|]] _.
  - by intros k [[m|]] _.
  - by intros a b [[m|]] _.
  - by intros [[m|]] _.
  - intros d _ _. by exists (mkBatch [] 0).
  - intros k v b. split; [done|]. by rewrite fmap_app.
  - intros k b. split; [done|]. by rewrite fmap_app.
  - done.
  - intros b [[m|]] _ _; [|done]. split_and!; [done| |done|done]. simpl. by rewrite apply_keyValues.
  - intros [[m|]] _; split_and!; try done. by intros [? ?].
  - intros start prefix [d] m _ E. simpl in E. subst d. split; [apply memdb_range|done].
  - intros start prefix [d] _ E. simpl in E. by subst d.
  - intros [d] it _ [m E]. simpl in E. subst d. destruct it as [it|[init keys values err]]; [done|].
    destruct init, keys as [|k [|k' keys]]; simpl; done.
Qed.
End memdb.
