(* ===== verification/PrefixDB.v ===== *)
(** The database that prefixes its keys ([database/prefixdb/db.go]).

    A view of part of an underlying database: the keys that begin with the hash of
    the prefix.  The hash function is a parameter.  [prefixdb_laws] proves the
    contract of [Database] over any underlying database that satisfies it. *)

From Stdlib Require Import Strings.Byte.
From S2P Require Import Prelude Ids Packer Database.

Section prefixdb.
Context {D B It : Type} `{Database D B It}.

(** [hashing.ComputeHash256]. *)
Variable ComputeHash256 : bytes → bytes.

(** [db == nil] is [pd_closed]; the underlying database, which others may share,
    stays. *)
Record prefixdb := mkPrefixdb {
  pd_dbPrefix : bytes;
  pd_closed : bool;
  pd_db : D;
}.

Definition prefixdb_NewNested (prefix : bytes) (db : D) : prefixdb :=
  mkPrefixdb (ComputeHash256 prefix) false db.

(** [New] on a [prefixdb]: the prefixes are joined.  On another database it is
    [NewNested]. *)
Definition prefixdb_New (prefix : bytes) (db : prefixdb) : prefixdb :=
  prefixdb_NewNested (pd_dbPrefix db ++ prefix) (pd_db db).

Definition set_pd_db (db : D) (p : prefixdb) : prefixdb :=
  mkPrefixdb (pd_dbPrefix p) (pd_closed p) db.

(** A copy of the key with the prefix; the buffers are not modelled. *)
Definition prefix_key (key : bytes) (p : prefixdb) : bytes := pd_dbPrefix p ++ key.

(** A method that is passed on to the underlying database. *)
Definition pass {A} (p : prefixdb) (f : D → result db_error A) : result db_error A :=
  if pd_closed p then Err ErrClosed else f (pd_db p).
Definition pass_update {A} (p : prefixdb) (f : D → result db_error A * D)
    : result db_error A * prefixdb :=
  if pd_closed p then (Err ErrClosed, p)
  else let '(r, d) := f (pd_db p) in (r, set_pd_db d p).

Definition prefixdb_Has (key : bytes) (p : prefixdb) : result db_error bool :=
  pass p (db_Has (prefix_key key p)).
Definition prefixdb_Get (key : bytes) (p : prefixdb) : result db_error bytes :=
  pass p (db_Get (prefix_key key p)).
Definition prefixdb_Put (key value : bytes) (p : prefixdb) : result db_error unit * prefixdb :=
  pass_update p (db_Put (prefix_key key p) value).
Definition prefixdb_Delete (key : bytes) (p : prefixdb) : result db_error unit * prefixdb :=
  pass_update p (db_Delete (prefix_key key p)).
Definition prefixdb_Compact (start limit : bytes) (p : prefixdb) : result db_error unit :=
  pass p (db_Compact (prefix_key start p) (prefix_key limit p)).
Definition prefixdb_HealthCheck (p : prefixdb) : result db_error unit :=
  pass p db_HealthCheck.
Definition prefixdb_Close (p : prefixdb) : result db_error unit * prefixdb :=
  if pd_closed p then (Err ErrClosed, p)
  else (Ok tt, mkPrefixdb (pd_dbPrefix p) true (pd_db p)).
Definition prefixdb_isClosed (p : prefixdb) : bool := pd_closed p.

(** ** Batches *)

Record pd_keyValue := mkPdKeyValue { pkv_key : bytes; pkv_value : bytes; pkv_delete : bool }.

(** The batch knows its database; the prefix is all it uses of it until [Write]. *)
Record pd_batch := mkPdBatch {
  pb_Batch : B;
  pb_dbPrefix : bytes;
  pb_writes : list pd_keyValue;
}.

(** On a closed database: a call on a nil interface, a panic. *)
Definition prefixdb_NewBatch (p : prefixdb) : option pd_batch :=
  if pd_closed p then None
  else match db_NewBatch (pd_db p) with
       | Some b => Some (mkPdBatch b (pd_dbPrefix p) [])
       | None => None
       end.

Definition pdb_Put (key value : bytes) (b : pd_batch) : result db_error unit * pd_batch :=
  let prefixedKey := pb_dbPrefix b ++ key in
  let '(r, inner) := batch_Put prefixedKey value (pb_Batch b) in
  (r, mkPdBatch inner (pb_dbPrefix b) (pb_writes b ++ [mkPdKeyValue prefixedKey value false])).

Definition pdb_Delete (key : bytes) (b : pd_batch) : result db_error unit * pd_batch :=
  let prefixedKey := pb_dbPrefix b ++ key in
  let '(r, inner) := batch_Delete prefixedKey (pb_Batch b) in
  (r, mkPdBatch inner (pb_dbPrefix b) (pb_writes b ++ [mkPdKeyValue prefixedKey [] true])).

(** [Size] of the embedded batch. *)
Definition pdb_Size (b : pd_batch) : Z := batch_Size (pb_Batch b).

Definition pdb_Write (b : pd_batch) (p : prefixdb) : result db_error unit * prefixdb :=
  pass_update p (batch_Write (pb_Batch b)).

Definition pdb_Reset (b : pd_batch) : pd_batch :=
  mkPdBatch (batch_Reset (pb_Batch b)) (pb_dbPrefix b) [].

Fixpoint pd_replay_writes {W} (put : bytes → bytes → W → result db_error unit * W)
    (del : bytes → W → result db_error unit * W) (prefixLen : nat) (l : list pd_keyValue) (w : W)
    : result db_error unit * W :=
  match l with
  | [] => (Ok tt, w)
  | kv :: l =>
      let keyWithoutPrefix := drop prefixLen (pkv_key kv) in
      let '(r, w) :=
        if pkv_delete kv then del keyWithoutPrefix w
        else put keyWithoutPrefix (pkv_value kv) w in
      match r with Err e => (Err e, w) | Ok _ => pd_replay_writes put del prefixLen l w end
  end.

Definition pdb_Replay {W} (put : bytes → bytes → W → result db_error unit * W)
    (del : bytes → W → result db_error unit * W) (b : pd_batch) (w : W) :=
  pd_replay_writes put del (length (pb_dbPrefix b)) (pb_writes b) w.

(** ** Iterators *)

Record pd_iterator := mkPdIterator {
  pi_Iterator : It;
  pi_dbPrefix : bytes;
  pi_key : bytes;
  pi_val : bytes;
  pi_err : option db_error;
}.

(** [nodb.Iterator] or the iterator of an open database. *)
Inductive prefixdb_iter :=
| PdNodbIter (it : nodb_Iterator)
| PdIter (it : pd_iterator).

Definition prefixdb_NewIterator (start prefix : bytes) (p : prefixdb) : prefixdb_iter :=
  if pd_closed p then PdNodbIter (mkNodbIterator ErrClosed)
  else PdIter (mkPdIterator (db_NewIterator (prefix_key start p) (prefix_key prefix p) (pd_db p))
                 (pd_dbPrefix p) [] [] None).

(** The key without the prefix. *)
Definition strip (prefix key : bytes) : bytes :=
  if decide (length prefix ≤ length key)%nat then drop (length prefix) key else key.

Definition pi_Next (p : prefixdb) (it : pd_iterator) : bool * pd_iterator :=
  if prefixdb_isClosed p then
    (false, mkPdIterator (pi_Iterator it) (pi_dbPrefix it) [] [] (Some ErrClosed))
  else
    let '(hasNext, inner) := iter_Next (pd_db p) (pi_Iterator it) in
    if hasNext : bool then
      (hasNext, mkPdIterator inner (pi_dbPrefix it) (strip (pi_dbPrefix it) (iter_Key inner))
                  (iter_Value inner) (pi_err it))
    else (hasNext, mkPdIterator inner (pi_dbPrefix it) [] [] (pi_err it)).

Definition prefixdb_Next (p : prefixdb) (it : prefixdb_iter) : bool * prefixdb_iter :=
  match it with
  | PdNodbIter it => (false, PdNodbIter it)
  | PdIter it => let '(b, it) := pi_Next p it in (b, PdIter it)
  end.

Definition prefixdb_Error (it : prefixdb_iter) : option db_error :=
  match it with
  | PdNodbIter it => Some (nodb_Err it)
  | PdIter it => match pi_err it with Some e => Some e | None => iter_Error (pi_Iterator it) end
  end.

Definition prefixdb_Key (it : prefixdb_iter) : bytes :=
  match it with PdNodbIter _ => [] | PdIter it => pi_key it end.
Definition prefixdb_Value (it : prefixdb_iter) : bytes :=
  match it with PdNodbIter _ => [] | PdIter it => pi_val it end.

(** [Release] of the embedded iterator. *)
Definition prefixdb_Release (it : prefixdb_iter) : prefixdb_iter :=
  match it with
  | PdNodbIter it => PdNodbIter it
  | PdIter it =>
      PdIter (mkPdIterator (iter_Release (pi_Iterator it)) (pi_dbPrefix it) (pi_key it) (pi_val it)
                (pi_err it))
  end.

#[export] Instance prefixdb_database : Database prefixdb pd_batch prefixdb_iter := {|
  db_Has := prefixdb_Has; db_Get := prefixdb_Get; db_Put := prefixdb_Put;
  db_Delete := prefixdb_Delete; db_NewBatch := prefixdb_NewBatch;
  db_NewIterator := prefixdb_NewIterator; db_Compact := prefixdb_Compact;
  db_Close := prefixdb_Close; db_HealthCheck := prefixdb_HealthCheck;
  batch_Put := pdb_Put; batch_Delete := pdb_Delete; batch_Size := pdb_Size;
  batch_Write := pdb_Write; batch_Reset := pdb_Reset;
  iter_Next := prefixdb_Next; iter_Error := prefixdb_Error; iter_Key := prefixdb_Key;
  iter_Value := prefixdb_Value; iter_Release := prefixdb_Release;
|}.

(** ** The contract *)

(** The part of a map whose keys have a prefix, without the prefix. *)
Definition submap (prefix : bytes) (m : gmap bytes bytes) : gmap bytes bytes :=
  list_to_map (omap (λ kv, if HasPrefix kv.1 prefix
                           then Some (drop (length prefix) kv.1, kv.2) else None) (map_to_list m)).

Lemma submap_lookup prefix m k : submap prefix m !! k = m !! (prefix ++ k).
Proof.
  unfold submap. set (f := λ kv : bytes * bytes, if HasPrefix kv.1 prefix
    then Some (drop (length prefix) kv.1, kv.2) else None).
  assert (∀ k v, (k, v) ∈ omap f (map_to_list m) ↔ m !! (prefix ++ k) = Some v) as Hf.
  { intros k' v. rewrite list_elem_of_omap. split.
    - intros ([k0 v0]&Hin%elem_of_map_to_list&E). unfold f in E. simpl in E.
      destruct (HasPrefix k0 prefix) eqn:Hp; [|done]. apply HasPrefix_spec in Hp as [t ->].
      rewrite drop_app_length in E. by simplify_eq.
    - intros Hm. exists (prefix ++ k', v). split; [by apply elem_of_map_to_list|]. unfold f. simpl.
      rewrite (proj2 (HasPrefix_spec _ _)) by (by exists k'). by rewrite drop_app_length. }
  assert (NoDup (omap f (map_to_list m)).*1) as Hn.
  { pose proof (NoDup_fst_map_to_list m) as Hn. revert Hn. clear. generalize (map_to_list m).
    induction l as [|[k v] l IH]; intros Hn; csimpl; [constructor|].
    csimpl in Hn. apply NoDup_cons in Hn as [Hk Hn]. specialize (IH Hn).
    unfold f at 1. simpl. destruct (HasPrefix k prefix) eqn:Hp; [|done]. csimpl.
    constructor; [|done]. intros Hin. apply list_elem_of_fmap in Hin as ([k1 v1]&E1&Hin).
    apply list_elem_of_omap in Hin as ([k2 v2]&Hin&E2). unfold f in E2. simpl in *.
    destruct (HasPrefix k2 prefix) eqn:Hp2; [|done].
    injection E2 as E2 _. apply HasPrefix_spec in Hp as [t ->], Hp2 as [t2 ->].
    rewrite !drop_app_length in *. rewrite E1, <-E2 in *. apply Hk. by apply (list_elem_of_fmap_2 fst) in Hin. }
  apply option_eq. intros v. rewrite <-(elem_of_list_to_map _ _ _ Hn). apply Hf.
Qed.

(** A write of the underlying database as a write of the part. *)
Definition strip_write (prefix : bytes) (w : write) : option write :=
  if HasPrefix w.1 prefix then Some (drop (length prefix) w.1, w.2) else None.

Lemma submap_write prefix w m :
  submap prefix (apply_write m w) =
  match strip_write prefix w with
  | Some w => apply_write (submap prefix m) w
  | None => submap prefix m
  end.
Proof.
  destruct w as [k [v|]]; unfold strip_write; simpl; destruct (HasPrefix k prefix) eqn:Hp;
    apply map_eq; intros i; rewrite ?submap_lookup; simpl.
  1,3: apply HasPrefix_spec in Hp as [t ->]; rewrite drop_app_length;
    destruct (decide (t = i)) as [->|Hne];
    rewrite ?lookup_insert_eq, ?lookup_delete_eq, ?lookup_insert_ne, ?lookup_delete_ne,
      ?submap_lookup by (try done; by intros ?%app_inv_head); done.
  all: rewrite ?lookup_insert_ne, ?lookup_delete_ne, ?submap_lookup; [done|]; intros ->;
    by rewrite (proj2 (HasPrefix_spec _ _)) in Hp by (by eexists).
Qed.

Lemma submap_writes prefix ws m :
  submap prefix (apply_writes ws m) = apply_writes (omap (strip_write prefix) ws) (submap prefix m).
Proof.
  unfold apply_writes. revert m. induction ws as [|w ws IH]; intros m; [done|]. simpl.
  rewrite IH, submap_write. by destruct (strip_write prefix w).
Qed.

Lemma strip_write_prefixed prefix k v : strip_write prefix (prefix ++ k, v) = Some (k, v).
Proof.
  unfold strip_write. simpl. rewrite (proj2 (HasPrefix_spec _ _)) by (by exists k).
  by rewrite drop_app_length.
Qed.

Lemma strip_prefixed prefix k : strip prefix (prefix ++ k) = k.
Proof.
  unfold strip. rewrite decide_True by (rewrite length_app; lia). by rewrite drop_app_length.
Qed.

(** The range of the part is the stripped range of the whole. *)
Lemma submap_range p start prefix m l :
  is_range (p ++ start) (p ++ prefix) m l →
  is_range start prefix (submap p m) ((λ kv, (strip p kv.1, kv.2)) <$> l).
Proof.
  intros [Hs Hl]. assert (∀ kv, kv ∈ l → ∃ k, kv.1 = p ++ k) as Hp.
  { intros [k v] Hin. apply Hl in Hin as (_&Hk&_). apply HasPrefix_spec in Hk as [t ->].
    exists (prefix ++ t). by rewrite <-app_assoc. }
  split.
  - clear Hl. induction Hs as [|kv l Hs IH Hall]; csimpl; constructor.
    + apply IH. intros kv' Hin. apply Hp. by right.
    + apply Forall_fmap. rewrite Forall_forall in *. intros kv' Hin. specialize (Hall kv' Hin).
      destruct (Hp kv) as [k Ek]; [left|]. destruct (Hp kv') as [k' Ek']; [by right|].
      unfold key_lt, bytes_lt in *. simpl. rewrite Ek, Ek' in *.
      by rewrite !strip_prefixed, bytes_ltb_app in *.
  - intros k v. rewrite submap_lookup, list_elem_of_fmap.
    assert (HasPrefix (p ++ k) (p ++ prefix) = HasPrefix k prefix) as Ep.
    { apply eq_true_iff_eq. rewrite !HasPrefix_spec. split; intros [t E]; exists t.
      - rewrite <-app_assoc in E. by apply app_inv_head in E.
      - by rewrite E, app_assoc. }
    assert (bytes_le (p ++ start) (p ++ k) ↔ bytes_le start k) as Es
      by (unfold bytes_le; by rewrite bytes_ltb_app).
    rewrite <-Ep, <-Es, <-Hl. split.
    + intros ([k0 v0]&E&Hin). destruct (Hp _ Hin) as [t Et]. simpl in *. subst k0.
      rewrite strip_prefixed in E. by simplify_eq.
    + intros Hin. exists (p ++ k, v). simpl. by rewrite strip_prefixed.
Qed.

Context `{DatabaseView D B It, !DatabaseLaws D B It}.

#[export] Instance prefixdb_view : DatabaseView prefixdb pd_batch prefixdb_iter := {|
  db_view p := if pd_closed p then None else submap (pd_dbPrefix p) <$> db_view (pd_db p);
  db_ok p := db_ok (pd_db p);
  batch_ops b := omap (strip_write (pb_dbPrefix b)) (batch_ops (pb_Batch b));
  batch_for p b := pb_dbPrefix b = pd_dbPrefix p ∧ batch_for (pd_db p) (pb_Batch b);
  iter_rest it :=
    match it with
    | PdNodbIter _ => []
    | PdIter it => (λ kv, (strip (pi_dbPrefix it) kv.1, kv.2)) <$> iter_rest (pi_Iterator it)
    end;
|}.

(** A write that is passed on. *)
Lemma pass_update_writes p f ws ws' :
  writes (pd_db p) (f (pd_db p)) ws → ws' = omap (strip_write (pd_dbPrefix p)) ws →
  db_ok p → writes p (pass_update p f) ws'.
Proof.
  intros (Hr&Hv&Hok&Hb) -> Hp. unfold writes, pass_update. simpl.
  destruct (pd_closed p) eqn:Ec; simpl.
  { rewrite Ec. done. }
  destruct (f (pd_db p)) as [r d]. simpl in *. rewrite Ec, Hv, Hr. split_and!.
  - by destruct (db_view (pd_db p)).
  - destruct (db_view (pd_db p)); simpl; [|done]. by rewrite submap_writes.
  - done.
  - intros b [? ?]. auto.
Qed.

Lemma pass_spec {A} p (f : D → result db_error A) g :
  f (pd_db p) = if_open (db_view (pd_db p)) (λ m, g (submap (pd_dbPrefix p) m)) →
  pass p f = if_open (db_view p) g.
Proof.
  intros E. unfold pass. simpl. destruct (pd_closed p); [done|]. rewrite E.
  by destruct (db_view (pd_db p)).
Qed.

#[export] Instance prefixdb_laws : DatabaseLaws prefixdb pd_batch prefixdb_iter.
Proof.
  split.
  - intros k p Hp. apply pass_spec. rewrite Has_spec by done. unfold map_Has, prefix_key.
    destruct (db_view (pd_db p)); [|done]. simpl. by rewrite submap_lookup.
  - intros k p Hp. apply pass_spec. rewrite Get_spec by done. unfold map_Get, prefix_key.
    destruct (db_view (pd_db p)); [|done]. simpl. by rewrite submap_lookup.
  - intros k v p Hp. eapply pass_update_writes; [by apply Put_spec| |done].
    simpl. unfold prefix_key. by rewrite strip_write_prefixed.
  - intros k p Hp. eapply pass_update_writes; [by apply Delete_spec| |done].
    simpl. unfold prefix_key. by rewrite strip_write_prefixed.
  - intros a b p Hp. apply pass_spec. by rewrite Compact_spec.
  - intros p Hp. apply pass_spec. by rewrite HealthCheck_spec.
  - intros p Hp [m Hm]. simpl in *. unfold prefixdb_NewBatch. destruct (pd_closed p); [done|].
    destruct (db_view (pd_db p)) eqn:Ev; [|done].
    destruct (NewBatch_spec (pd_db p) Hp) as (b&->&Hb&Hf); [by rewrite Ev|].
    eexists. split; [done|]. simpl. by rewrite Hb.
  - intros k v b. simpl. unfold pdb_Put.
    destruct (batch_Put_spec (pb_dbPrefix b ++ k) v (pb_Batch b)) as (Hr&Ho&Hf).
    destruct (batch_Put _ v (pb_Batch b)) as [r inner]. simpl in *. split; [done|]. split.
    + by rewrite Ho, omap_app; simpl; rewrite strip_write_prefixed.
    + intros p [? ?]. auto.
  - intros k b. simpl. unfold pdb_Delete.
    destruct (batch_Delete_spec (pb_dbPrefix b ++ k) (pb_Batch b)) as (Hr&Ho&Hf).
    destruct (batch_Delete _ (pb_Batch b)) as [r inner]. simpl in *. split; [done|]. split.
    + by rewrite Ho, omap_app; simpl; rewrite strip_write_prefixed.
    + intros p [? ?]. auto.
  - intros b. simpl. destruct (batch_Reset_spec (pb_Batch b)) as [-> Hf]. split; [done|].
    intros p [? ?]. auto.
  - intros b p Hp [Hpre Hf]. eapply pass_update_writes; [by apply batch_Write_spec| |done].
    simpl. by rewrite Hpre.
  - intros p Hp. simpl. unfold prefixdb_Close. destruct (pd_closed p) eqn:Ec; simpl; rewrite ?Ec;
      split_and!; try done.
  - intros start prefix p m Hp Hm. simpl in *. unfold prefixdb_NewIterator.
    destruct (pd_closed p); [done|]. apply fmap_Some in Hm as (m0&Hm0&->). simpl.
    destruct (NewIterator_spec (prefix_key start p) (prefix_key prefix p) _ _ Hp Hm0) as [Hr He].
    split; [by apply submap_range|done].
  - intros start prefix p Hp Hm. simpl in *. unfold prefixdb_NewIterator.
    destruct (pd_closed p); [done|]. apply fmap_None in Hm. simpl.
    destruct (NewIterator_closed (prefix_key start p) (prefix_key prefix p) _ Hp Hm) as [He Hr].
    by rewrite Hr.
  - intros p it Hp Ho. destruct it as [it|it]; [done|]. simpl in *. unfold pi_Next, prefixdb_isClosed.
    destruct (pd_closed p); [by destruct Ho|]. rewrite fmap_is_Some in Ho.
    pose proof (Next_spec (pd_db p) (pi_Iterator it) Hp Ho) as [Hn He].
    destruct (iter_Next (pd_db p) (pi_Iterator it)) as [b inner]. simpl in Hn, He.
    destruct (iter_rest (pi_Iterator it)) as [|[k v] l]; csimpl.
    + destruct Hn as [-> Hn]. simpl. rewrite Hn, He. done.
    + destruct Hn as (->&<-&<-&<-). simpl. by rewrite He.
Qed.
End prefixdb.
