(* ===== verification/VersionDB.v ===== *)
(** The database that holds writes back until they are committed
    ([database/versiondb/db.go]).

    An overlay of writes and deletions in memory over an underlying database.
    [versiondb_laws] proves the contract of [Database] over any underlying database
    that satisfies it: reads see the overlay, the iterator merges both in order, and
    [Commit] makes the underlying database the map that was read, [Abort] makes the
    overlay empty. *)

From Stdlib Require Import Strings.Byte.
From S2P Require Import Prelude Ids Packer Database MemDB.

Section versiondb.
Context `{GoRange} {D B It : Type} `{Database D B It}.

Record valueDelete := mkValueDelete { vd_value : bytes; vd_delete : bool }.

(** [mem] is nil exactly when [db] is; the underlying database stays, others may
    share it. *)
Record versiondb := mkVersiondb {
  vdb_mem : option (gmap bytes valueDelete);
  vdb_db : D;
  vdb_batch : B;
}.

(** [None]: [NewBatch] of the underlying database panics. *)
Definition versiondb_New (db : D) : option versiondb :=
  match db_NewBatch db with Some b => Some (mkVersiondb (Some ∅) db b) | None => None end.

Definition versiondb_Has (key : bytes) (v : versiondb) : result db_error bool :=
  match vdb_mem v with
  | None => Err ErrClosed
  | Some mem =>
      match mem !! key with
      | Some val => Ok (negb (vd_delete val))
      | None => db_Has key (vdb_db v)
      end
  end.

Definition versiondb_Get (key : bytes) (v : versiondb) : result db_error bytes :=
  match vdb_mem v with
  | None => Err ErrClosed
  | Some mem =>
      match mem !! key with
      | Some val => if vd_delete val then Err ErrNotFound else Ok (vd_value val)
      | None => db_Get key (vdb_db v)
      end
  end.

Definition set_mem (mem : gmap bytes valueDelete) (v : versiondb) : versiondb :=
  mkVersiondb (Some mem) (vdb_db v) (vdb_batch v).

Definition versiondb_Put (key value : bytes) (v : versiondb) : result db_error unit * versiondb :=
  match vdb_mem v with
  | None => (Err ErrClosed, v)
  | Some mem => (Ok tt, set_mem (<[key := mkValueDelete value false]> mem) v)
  end.

Definition versiondb_Delete (key : bytes) (v : versiondb) : result db_error unit * versiondb :=
  match vdb_mem v with
  | None => (Err ErrClosed, v)
  | Some mem => (Ok tt, set_mem (<[key := mkValueDelete [] true]> mem) v)
  end.

Definition versiondb_Compact (start limit : bytes) (v : versiondb) : result db_error unit :=
  match vdb_mem v with None => Err ErrClosed | Some _ => db_Compact start limit (vdb_db v) end.

Definition versiondb_HealthCheck (v : versiondb) : result db_error unit :=
  match vdb_mem v with None => Err ErrClosed | Some _ => db_HealthCheck (vdb_db v) end.

Definition versiondb_SetDatabase (newDB : D) (v : versiondb)
    : option (result db_error unit * versiondb) :=
  match vdb_mem v with
  | None => Some (Err ErrClosed, v)
  | Some mem =>
      match db_NewBatch newDB with
      | Some b => Some (Ok tt, mkVersiondb (Some mem) newDB b)
      | None => None
      end
  end.

Definition versiondb_GetDatabase (v : versiondb) : D := vdb_db v.

Definition versiondb_abort (v : versiondb) : versiondb :=
  match vdb_mem v with None => v | Some _ => set_mem ∅ v end.
Definition versiondb_Abort (v : versiondb) : versiondb := versiondb_abort v.

(** The loop of [commitBatch] over the map. *)
Fixpoint commit_loop (l : list (bytes * valueDelete)) (b : B) : result db_error unit * B :=
  match l with
  | [] => (Ok tt, b)
  | (key, value) :: l =>
      let '(r, b) :=
        if vd_delete value then batch_Delete key b else batch_Put key (vd_value value) b in
      match r with Err e => (Err e, b) | Ok _ => commit_loop l b end
  end.

Definition versiondb_commitBatch (v : versiondb) : result db_error unit * versiondb :=
  match vdb_mem v with
  | None => (Err ErrClosed, v)
  | Some mem =>
      let '(r, b) := commit_loop (go_range mem) (batch_Reset (vdb_batch v)) in
      (r, mkVersiondb (Some mem) (vdb_db v) b)
  end.

Definition versiondb_Commit (v : versiondb) : result db_error unit * versiondb :=
  let '(r, v) := versiondb_commitBatch v in
  match r with
  | Err e => (Err e, v)
  | Ok _ =>
      let '(r, db) := batch_Write (vdb_batch v) (vdb_db v) in
      let v := mkVersiondb (vdb_mem v) db (vdb_batch v) in
      match r with
      | Err e => (Err e, v)
      | Ok _ =>
          (Ok tt, versiondb_abort (mkVersiondb (vdb_mem v) (vdb_db v) (batch_Reset (vdb_batch v))))
      end
  end.

(** The batch it returns is [vdb_batch] of the new state. *)
Definition versiondb_CommitBatch (v : versiondb) : result db_error unit * versiondb :=
  versiondb_commitBatch v.

Definition versiondb_Close (v : versiondb) : result db_error unit * versiondb :=
  match vdb_mem v with
  | None => (Err ErrClosed, v)
  | Some _ => (Ok tt, mkVersiondb None (vdb_db v) (vdb_batch v))
  end.

Definition versiondb_isClosed (v : versiondb) : bool := bool_decide (vdb_mem v = None).

(** ** Batches

    The type and the methods but [Write] are those of the batch of [memdb], which
    the code repeats. *)
Definition versiondb_NewBatch (v : versiondb) : option batch := Some (mkBatch [] 0).

Definition vb_Put (key value : bytes) (b : batch) : result db_error unit * batch :=
  (Ok tt, mkBatch (b_writes b ++ [mkKeyValue key value false])
            (b_size b + Z.of_nat (length key) + Z.of_nat (length value))).
Definition vb_Delete (key : bytes) (b : batch) : result db_error unit * batch :=
  (Ok tt, mkBatch (b_writes b ++ [mkKeyValue key [] true]) (b_size b + Z.of_nat (length key))).
Definition vb_Size (b : batch) : Z := b_size b.
Definition vb_Reset (b : batch) : batch := mkBatch [] 0.

Definition vb_Write (b : batch) (v : versiondb) : result db_error unit * versiondb :=
  match vdb_mem v with
  | None => (Err ErrClosed, v)
  | Some mem =>
      (Ok tt, set_mem (foldl (λ mem kv,
         <[kv_key kv := mkValueDelete (kv_value kv) (kv_delete kv)]> mem) mem (b_writes b)) v)
  end.

Definition vb_Replay {W} (put : bytes → bytes → W → result db_error unit * W)
    (del : bytes → W → result db_error unit * W) (b : batch) (w : W) :=
  replay_writes put del (b_writes b) w.

(** ** Iterators *)

Record v_iterator := mkVIterator {
  vi_Iterator : It;
  vi_key : bytes;
  vi_value : bytes;
  vi_err : option db_error;
  vi_mem : list (bytes * valueDelete);     (* [keys] and [values] *)
  vi_initialized : bool;
  vi_exhausted : bool;
}.

Inductive versiondb_iter :=
| VNodbIter (it : nodb_Iterator)
| VIter (it : v_iterator).

(** The entries of the overlay in the range, sorted by key, each with its value. *)
Definition versiondb_NewIterator (start prefix : bytes) (v : versiondb) : versiondb_iter :=
  match vdb_mem v with
  | None => VNodbIter (mkNodbIterator ErrClosed)
  | Some mem =>
      let keys := sorted_range start prefix (go_range mem).*1 in
      let entries := (λ key, (key, default (mkValueDelete [] false) (mem !! key))) <$> keys in
      VIter (mkVIterator (db_NewIterator start prefix (vdb_db v)) [] [] None entries false false)
  end.

(** The iterator on [key] and [value], with what is left of the overlay and of the
    underlying iterator. *)
Definition vi_at (it : v_iterator) (inner : It) (key value : bytes)
    (mem : list (bytes * valueDelete)) (exhausted : bool) : v_iterator :=
  mkVIterator inner key value (vi_err it) mem true exhausted.

(** [it.exhausted = !it.Iterator.Next()]. *)
Definition inner_Next (d : D) (inner : It) : bool * It :=
  let '(b, inner) := iter_Next d inner in (negb b, inner).

(** The loop of [Next], over the entries of the overlay: every turn that does not
    return takes one. *)
Fixpoint vi_loop (d : D) (it : v_iterator) (inner : It) (exhausted : bool)
    (mem : list (bytes * valueDelete)) : bool * v_iterator :=
  match mem with
  | [] =>
      if exhausted then (false, vi_at it inner [] [] [] true)
      else
        let '(ex, inner') := inner_Next d inner in
        (true, vi_at it inner' (iter_Key inner) (iter_Value inner) [] ex)
  | (memKey, memValue) :: mem' =>
      if exhausted then
        if negb (vd_delete memValue)
        then (true, vi_at it inner memKey (vd_value memValue) mem' true)
        else vi_loop d it inner exhausted mem'
      else
        let dbKey := iter_Key inner in
        if bytes_ltb memKey dbKey then
          if negb (vd_delete memValue)
          then (true, vi_at it inner memKey (vd_value memValue) mem' exhausted)
          else vi_loop d it inner exhausted mem'
        else if bytes_ltb dbKey memKey then
          let '(ex, inner') := inner_Next d inner in
          (true, vi_at it inner' dbKey (iter_Value inner) mem ex)
        else
          let '(ex, inner') := inner_Next d inner in
          if negb (vd_delete memValue)
          then (true, vi_at it inner' memKey (vd_value memValue) mem' ex)
          else vi_loop d it inner' ex mem'
  end.

Definition vi_Next (v : versiondb) (it : v_iterator) : bool * v_iterator :=
  if versiondb_isClosed v then
    (false, mkVIterator (vi_Iterator it) [] [] (Some ErrClosed) (vi_mem it) (vi_initialized it)
              (vi_exhausted it))
  else
    let '(ex, inner) :=
      if negb (vi_initialized it) then inner_Next (vdb_db v) (vi_Iterator it)
      else (vi_exhausted it, vi_Iterator it) in
    vi_loop (vdb_db v) it inner ex (vi_mem it).

Definition versiondb_Next (v : versiondb) (it : versiondb_iter) : bool * versiondb_iter :=
  match it with
  | VNodbIter it => (false, VNodbIter it)
  | VIter it => let '(b, it) := vi_Next v it in (b, VIter it)
  end.

Definition versiondb_Error (it : versiondb_iter) : option db_error :=
  match it with
  | VNodbIter it => Some (nodb_Err it)
  | VIter it => match vi_err it with Some e => Some e | None => iter_Error (vi_Iterator it) end
  end.
Definition versiondb_Key (it : versiondb_iter) : bytes :=
  match it with VNodbIter _ => [] | VIter it => vi_key it end.
Definition versiondb_Value (it : versiondb_iter) : bytes :=
  match it with VNodbIter _ => [] | VIter it => vi_value it end.
Definition versiondb_Release (it : versiondb_iter) : versiondb_iter :=
  match it with
  | VNodbIter it => VNodbIter it
  | VIter it =>
      VIter (mkVIterator (iter_Release (vi_Iterator it)) [] [] (vi_err it) []
               (vi_initialized it) (vi_exhausted it))
  end.

#[export] Instance versiondb_database : Database versiondb batch versiondb_iter := {|
  db_Has := versiondb_Has; db_Get := versiondb_Get; db_Put := versiondb_Put;
  db_Delete := versiondb_Delete; db_NewBatch := versiondb_NewBatch;
  db_NewIterator := versiondb_NewIterator; db_Compact := versiondb_Compact;
  db_Close := versiondb_Close; db_HealthCheck := versiondb_HealthCheck;
  batch_Put := vb_Put; batch_Delete := vb_Delete; batch_Size := vb_Size;
  batch_Write := vb_Write; batch_Reset := vb_Reset;
  iter_Next := versiondb_Next; iter_Error := versiondb_Error; iter_Key := versiondb_Key;
  iter_Value := versiondb_Value; iter_Release := versiondb_Release;
|}.

(** ** The overlay *)

Definition overlay_lookup (o : option valueDelete) (x : option bytes) : option bytes :=
  match o with
  | Some vd => if vd_delete vd then None else Some (vd_value vd)
  | None => x
  end.

Definition overlay (mem : gmap bytes valueDelete) (m : gmap bytes bytes) : gmap bytes bytes :=
  merge overlay_lookup mem m.

Lemma lookup_overlay mem m k : overlay mem m !! k = overlay_lookup (mem !! k) (m !! k).
Proof. unfold overlay. rewrite lookup_merge. by destruct (mem !! k), (m !! k). Qed.

Lemma overlay_empty m : overlay ∅ m = m.
Proof. apply map_eq. intros k. by rewrite lookup_overlay, lookup_empty. Qed.

Lemma overlay_insert mem m k vd :
  overlay (<[k := vd]> mem) m =
  apply_write (overlay mem m) (k, if vd_delete vd then None else Some (vd_value vd)).
Proof.
  apply map_eq. intros i. rewrite lookup_overlay. destruct (decide (k = i)) as [->|Hne].
  - rewrite lookup_insert_eq. simpl. destruct (vd_delete vd);
      by rewrite ?lookup_delete_eq, ?lookup_insert_eq.
  - rewrite lookup_insert_ne by done. simpl.
    destruct (vd_delete vd); rewrite ?lookup_delete_ne, ?lookup_insert_ne, lookup_overlay; done.
Qed.

(** The writes that make a map the overlay. *)
Definition entry_write (e : bytes * valueDelete) : write :=
  (e.1, if vd_delete e.2 then None else Some (vd_value e.2)).

Lemma apply_entries_notin l m k :
  k ∉ l.*1 → apply_writes (entry_write <$> l) m !! k = m !! k.
Proof.
  revert m. induction l as [|[k' vd] l IH]; intros m; csimpl; [done|].
  rewrite not_elem_of_cons, apply_writes_cons. intros [Hne Hk]. rewrite IH by done. simpl.
  destruct (vd_delete vd); simpl; by rewrite ?lookup_delete_ne, ?lookup_insert_ne.
Qed.

Lemma apply_entries_in l m k vd :
  NoDup l.*1 → (k, vd) ∈ l →
  apply_writes (entry_write <$> l) m !! k = overlay_lookup (Some vd) None.
Proof.
  revert m. induction l as [|[k' vd'] l IH]; intros m; csimpl.
  { intros _ Hin. by apply elem_of_nil in Hin. }
  rewrite NoDup_cons, elem_of_cons, apply_writes_cons.
  intros [Hk Hn] [[= <- <-]|Hin]; [|by apply IH].
  rewrite apply_entries_notin by done. simpl.
  destruct (vd_delete vd); simpl; by rewrite ?lookup_delete_eq, ?lookup_insert_eq.
Qed.

Lemma apply_entries_overlay mem m :
  apply_writes (entry_write <$> go_range mem) m = overlay mem m.
Proof.
  apply map_eq. intros k. rewrite lookup_overlay. destruct (mem !! k) as [vd|] eqn:E.
  - apply apply_entries_in; [apply NoDup_fst_go_range|by apply elem_of_go_range].
  - apply apply_entries_notin. intros Hk. apply list_elem_of_fmap in Hk as ([k' vd]&->&Hin).
    apply elem_of_go_range in Hin. simpl in E. congruence.
Qed.

(** ** The merge of the iterator *)

Definition keep (e : bytes * valueDelete) (l : list (bytes * bytes)) : list (bytes * bytes) :=
  if vd_delete e.2 then l else (e.1, vd_value e.2) :: l.

Fixpoint vmerge (mem : list (bytes * valueDelete)) : list (bytes * bytes) → list (bytes * bytes) :=
  match mem with
  | [] => λ db, db
  | e :: mem =>
      fix go db :=
        match db with
        | [] => keep e (vmerge mem [])
        | (dk, dv) :: db' =>
            if bytes_ltb e.1 dk then keep e (vmerge mem db)
            else if bytes_ltb dk e.1 then (dk, dv) :: go db'
            else keep e (vmerge mem db')
        end
  end.

Lemma vmerge_nil db : vmerge [] db = db.
Proof. done. Qed.
Lemma vmerge_cons_nil e mem : vmerge (e :: mem) [] = keep e (vmerge mem []).
Proof. done. Qed.
Lemma vmerge_cons e mem dk dv db :
  vmerge (e :: mem) ((dk, dv) :: db) =
  if bytes_ltb e.1 dk then keep e (vmerge mem ((dk, dv) :: db))
  else if bytes_ltb dk e.1 then (dk, dv) :: vmerge (e :: mem) db
  else keep e (vmerge mem db).
Proof. done. Qed.

Abbreviation entry_lt := (λ a b : bytes * valueDelete, bytes_lt a.1 b.1).

(** Induction over both lists of the merge. *)
Lemma vmerge_ind (P : list (bytes * valueDelete) → list (bytes * bytes) → Prop) :
  (∀ db, P [] db) → (∀ e mem, P mem [] → P (e :: mem) []) →
  (∀ e mem dk dv db, P mem ((dk, dv) :: db) → P (e :: mem) db → P mem db →
     P (e :: mem) ((dk, dv) :: db)) →
  ∀ mem db, P mem db.
Proof.
  intros H1 H2 H3 mem. induction mem as [|e mem IH]; intros db; [done|].
  induction db as [|[dk dv] db IHdb]; auto.
Qed.

Lemma keep_elem e l kv :
  kv ∈ keep e l ↔ (vd_delete e.2 = false ∧ kv = (e.1, vd_value e.2)) ∨ kv ∈ l.
Proof. unfold keep. destruct (vd_delete e.2); rewrite ?elem_of_cons; naive_solver. Qed.

(** Every entry of the merge comes from one of the lists. *)
Lemma vmerge_above (x : bytes) mem db :
  (∀ e, e ∈ mem → bytes_lt x e.1) → (∀ kv, kv ∈ db → bytes_lt x kv.1) →
  ∀ kv, kv ∈ vmerge mem db → bytes_lt x kv.1.
Proof.
  revert mem db. apply (vmerge_ind (λ mem db, (∀ e, e ∈ mem → bytes_lt x e.1) →
    (∀ kv, kv ∈ db → bytes_lt x kv.1) → ∀ kv, kv ∈ vmerge mem db → bytes_lt x kv.1)).
  - done.
  - intros e mem IH Hm Hd kv. rewrite vmerge_cons_nil, keep_elem. intros [[_ ->]|Hin].
    + apply Hm. left.
    + apply IH; [|done|done]. intros e' He. apply Hm. by right.
  - intros e mem dk dv db IH1 IH2 IH3 Hm Hd kv. rewrite vmerge_cons.
    assert (∀ e', e' ∈ mem → bytes_lt x e'.1) as Hm' by (intros e' He; apply Hm; by right).
    assert (∀ kv, kv ∈ db → bytes_lt x kv.1) as Hd' by (intros kv' Hkv; apply Hd; by right).
    destruct (bytes_ltb e.1 dk); [|destruct (bytes_ltb dk e.1)]; rewrite ?keep_elem, ?elem_of_cons.
    + intros [[_ ->]|Hin]; [apply Hm; left|by apply IH1].
    + intros [->|Hin]; [apply (Hd (dk, dv)); left|by apply IH2].
    + intros [[_ ->]|Hin]; [apply Hm; left|by apply IH3].
Qed.

Lemma entry_lt_cons e mem :
  StronglySorted entry_lt (e :: mem) →
  StronglySorted entry_lt mem ∧ ∀ e', e' ∈ mem → bytes_lt e.1 e'.1.
Proof. rewrite StronglySorted_cons, Forall_forall. naive_solver. Qed.

Lemma key_lt_cons kv (db : list (bytes * bytes)) :
  StronglySorted key_lt (kv :: db) →
  StronglySorted key_lt db ∧ ∀ kv', kv' ∈ db → bytes_lt kv.1 kv'.1.
Proof. rewrite StronglySorted_cons, Forall_forall. unfold key_lt. naive_solver. Qed.

Lemma keep_sorted e l :
  StronglySorted key_lt l → (∀ kv, kv ∈ l → bytes_lt e.1 kv.1) → StronglySorted key_lt (keep e l).
Proof.
  intros Hs Hl. unfold keep. destruct (vd_delete e.2); [done|]. constructor; [done|].
  by apply Forall_forall.
Qed.

(** Three-way comparison of keys, as the loop makes it. *)
Lemma bytes_ltb_cases a b :
  bytes_ltb a b = true ∧ bytes_lt a b ∨
  bytes_ltb a b = false ∧ bytes_ltb b a = true ∧ bytes_lt b a ∨
  bytes_ltb a b = false ∧ bytes_ltb b a = false ∧ a = b.
Proof.
  destruct (bytes_lt_total a b) as [?|[->|Hba]]; [by left|..]; right.
  - right. pose proof (bytes_lt_irrefl b) as Hb. unfold bytes_lt in Hb.
    apply not_true_iff_false in Hb. done.
  - left. split_and!; try done. apply not_true_iff_false. intros Hab.
    apply (bytes_lt_irrefl a). by trans b.
Qed.

Lemma vmerge_sorted mem db :
  StronglySorted entry_lt mem → StronglySorted key_lt db → StronglySorted key_lt (vmerge mem db).
Proof.
  revert mem db. apply (vmerge_ind (λ mem db, StronglySorted entry_lt mem →
    StronglySorted key_lt db → StronglySorted key_lt (vmerge mem db))); [done|..].
  - intros e mem IH [Hm Hlt]%entry_lt_cons Hd. rewrite vmerge_cons_nil.
    apply keep_sorted; [by apply IH|]. apply vmerge_above; [done|].
    intros kv Hkv. by apply elem_of_nil in Hkv.
  - intros e mem dk dv db IH1 IH2 IH3 Hem Hdd. rewrite vmerge_cons.
    pose proof (entry_lt_cons _ _ Hem) as [Hm Hmlt]. pose proof (key_lt_cons _ _ Hdd) as [Hd Hdlt].
    destruct (bytes_ltb_cases e.1 dk) as [[-> Hlt]|[(->&->&Hlt)|(->&->&Heq)]].
    + apply keep_sorted; [by apply IH1|]. apply vmerge_above; [done|].
      intros kv [->|Hkv]%elem_of_cons; [done|]. trans dk; [done|by apply Hdlt].
    + constructor; [by apply IH2|]. apply Forall_forall. unfold key_lt.
      apply vmerge_above; [|done]. intros e' [->|He']%elem_of_cons; [done|].
      simpl. trans e.1; [done|by apply Hmlt].
    + apply keep_sorted; [by apply IH3|]. apply vmerge_above; [done|].
      intros kv Hkv. rewrite Heq. by apply Hdlt.
Qed.

(** An entry that is not a deletion. *)
Definition live (mem : list (bytes * valueDelete)) (k v : bytes) : Prop :=
  ∃ vd, (k, vd) ∈ mem ∧ vd_delete vd = false ∧ v = vd_value vd.

Lemma live_cons k' vd' mem k v :
  live ((k', vd') :: mem) k v ↔
  (vd_delete vd' = false ∧ (k, v) = (k', vd_value vd')) ∨ live mem k v.
Proof.
  unfold live. split.
  - intros (vd&Hin&Hd&->). apply elem_of_cons in Hin as [[= -> ->]|Hin]; [by left|right].
    by exists vd.
  - intros [[Hd [= -> ->]]|(vd&Hin&Hd&->)]; eexists; (split; [|split; [eassumption|done]]);
      [left|by right].
Qed.

Lemma live_in mem k v : live mem k v → k ∈ mem.*1.
Proof. intros (vd&Hin&_). by apply (list_elem_of_fmap_2 fst) in Hin. Qed.

Lemma vmerge_elem mem db k v :
  StronglySorted entry_lt mem → StronglySorted key_lt db →
  (k, v) ∈ vmerge mem db ↔ live mem k v ∨ ((k, v) ∈ db ∧ k ∉ mem.*1).
Proof.
  revert mem db. apply (vmerge_ind (λ mem db, StronglySorted entry_lt mem →
    StronglySorted key_lt db →
    (k, v) ∈ vmerge mem db ↔ live mem k v ∨ ((k, v) ∈ db ∧ k ∉ mem.*1))).
  - intros db _ _. rewrite vmerge_nil. csimpl.
    split; [intros Hin; right; split; [done|by intros ?%elem_of_nil]|].
    intros [(vd&Hin&_)|[? _]]; [by apply elem_of_nil in Hin|done].
  - intros [k' vd'] mem IH [Hm _]%entry_lt_cons Hd.
    rewrite vmerge_cons_nil, keep_elem, IH, live_cons, elem_of_nil by done. simpl. tauto.
  - intros [k' vd'] mem dk dv db IH1 IH2 IH3 Hem Hdd. rewrite vmerge_cons, live_cons. simpl.
    pose proof (entry_lt_cons _ _ Hem) as [Hm Hmlt]. pose proof (key_lt_cons _ _ Hdd) as [Hd Hdlt].
    assert ((k, v) ∈ db → bytes_lt dk k) as Hdk by (apply (Hdlt (k, v))).
    assert (k ∈ mem.*1 → bytes_lt k' k) as Hmk
      by (intros (e&->&He)%list_elem_of_fmap; by apply Hmlt).
    specialize (IH1 Hm Hdd). specialize (IH2 Hem Hd). specialize (IH3 Hm Hd).
    clear Hem Hdd Hmlt Hdlt Hm Hd. rewrite live_cons, elem_of_cons in *. csimpl in *.
    rewrite !not_elem_of_cons in *. pose proof (bytes_lt_irrefl k) as Hirr.
    pose proof (live_in mem k v) as Hlive.
    assert ((k, v) = (k', vd_value vd') → k = k') as Hk' by congruence.
    assert ((k, v) = (dk, dv) → k = dk) as Hk'' by congruence.
    destruct (bytes_ltb_cases k' dk) as [[-> Hlt]|[(->&->&Hlt)|(->&->&Heq)]].
    + rewrite keep_elem, IH1. simpl. clear IH1 IH2 IH3.
      assert (k = k' → ¬ (k, v) ∈ (dk, dv) :: db).
      { rewrite elem_of_cons. intros -> [E|Hin]; [apply Hk'' in E as ->; done|].
        apply Hirr. trans dk; [done|by apply Hdk]. }
      rewrite elem_of_cons in *. tauto.
    + rewrite elem_of_cons, IH2. clear IH1 IH2 IH3.
      assert (k = dk → k ≠ k' ∧ k ∉ mem.*1).
      { intros ->. split; [intros ->; done|]. intros Hx. apply Hirr. trans k'; [done|by apply Hmk]. }
      tauto.
    + subst dk. rewrite keep_elem, IH3. simpl. clear IH1 IH2 IH3.
      assert (k = k' → ¬ (k, v) ∈ db) by (intros -> Hin; by apply Hdk in Hin).
      assert (k = k' → k ∉ mem.*1) by (intros -> Hin; by apply Hmk in Hin).
      destruct (decide (k = k')); tauto.
Qed.

(** The range of the overlay. *)
Lemma overlay_range start prefix mem m l :
  is_range start prefix m l →
  is_range start prefix (overlay mem m)
    (vmerge ((λ key, (key, default (mkValueDelete [] false) (mem !! key))) <$>
       sorted_range start prefix (go_range mem).*1) l).
Proof.
  intros [Hs Hl]. set (entries := (λ key, (key, default (mkValueDelete [] false) (mem !! key))) <$>
    sorted_range start prefix (go_range mem).*1).
  assert (StronglySorted entry_lt entries) as Hes
    by apply sorted_with_values, sorted_range_sorted, NoDup_fst_go_range.
  assert (∀ k, k ∈ entries.*1 ↔ is_Some (mem !! k) ∧ HasPrefix k prefix = true ∧ bytes_le start k)
    as Hkeys.
  { intros k. unfold entries. rewrite <-list_fmap_compose. rewrite (list_fmap_ext _ id) by done.
    rewrite list_fmap_id, sorted_range_elem, list_elem_of_fmap. split.
    - intros [([k' vd]&->&Hin) Hp]. apply elem_of_go_range in Hin. split; [by exists vd|done].
    - intros [[vd Hvd] Hp]. split; [|done]. exists (k, vd). split; [done|].
      by apply elem_of_go_range. }
  split; [by apply vmerge_sorted|]. intros k v. rewrite vmerge_elem by done.
  rewrite lookup_overlay, Hkeys, Hl. assert (live entries k v ↔ ∃ vd, mem !! k = Some vd ∧
    vd_delete vd = false ∧ v = vd_value vd ∧ HasPrefix k prefix = true ∧ bytes_le start k) as ->.
  { unfold live. split.
    - intros (vd&Hin&Hd&->). pose proof (list_elem_of_fmap_2 fst _ _ Hin) as Hk.
      apply Hkeys in Hk as [[vd' Hvd'] Hp]. exists vd. split; [|done].
      apply list_elem_of_fmap in Hin as (k'&[= -> ->]&_). simpl in *. by rewrite Hvd'.
    - intros (vd&Hvd&Hd&->&Hp). exists vd. split; [|done]. apply list_elem_of_fmap. exists k.
      rewrite Hvd. split; [done|]. apply sorted_range_elem. split; [|done].
      apply list_elem_of_fmap. exists (k, vd). split; [done|]. by apply elem_of_go_range. }
  destruct (mem !! k) as [vd|]; simpl.
  - destruct (vd_delete vd) eqn:Hd; split.
    + intros [(vd'&[= <-]&?&_)|[(_&Hp) Hn]]; [congruence|]. destruct Hn. split; [by eexists|done].
    + by intros [? _].
    + intros [(vd'&[= <-]&_&->&Hp)|[(_&Hp) Hn]]; [done|]. destruct Hn. split; [by eexists|done].
    + intros [[= <-] Hp]. left. by exists vd.
  - split.
    + intros [(vd'&?&_)|[? _]]; done.
    + intros Hp. right. split; [done|]. intros [[? ?] _]. done.
Qed.

Context `{DatabaseView D B It, !DatabaseLaws D B It}.

(** What the underlying iterator still has, the entry it stands on included. *)
Definition inner_rest (ex : bool) (inner : It) : list (bytes * bytes) :=
  if ex then [] else (iter_Key inner, iter_Value inner) :: iter_rest inner.

#[export] Instance versiondb_view : DatabaseView versiondb batch versiondb_iter := {|
  db_view v := match vdb_mem v with None => None | Some mem => overlay mem <$> db_view (vdb_db v) end;
  db_ok v := db_ok (vdb_db v) ∧ batch_for (vdb_db v) (vdb_batch v) ∧
    (vdb_mem v ≠ None → is_Some (db_view (vdb_db v)));
  batch_ops b := kv_write <$> b_writes b;
  batch_for _ _ := True;
  iter_rest it :=
    match it with
    | VNodbIter _ => []
    | VIter it => vmerge (vi_mem it)
        (if vi_initialized it then inner_rest (vi_exhausted it) (vi_Iterator it)
         else iter_rest (vi_Iterator it))
    end;
|}.

Lemma inner_Next_spec d inner :
  db_ok d → is_Some (db_view d) →
  iter_rest inner = inner_rest (inner_Next d inner).1 (inner_Next d inner).2 ∧
  iter_Error (inner_Next d inner).2 = iter_Error inner.
Proof.
  intros Hd Ho. unfold inner_Next, inner_rest. destruct (Next_spec d inner Hd Ho) as [Hn He].
  destruct (iter_Next d inner) as [b inner']. simpl in *. split; [|done].
  destruct (iter_rest inner) as [|[k v] l].
  - by destruct Hn as [-> _].
  - by destruct Hn as (->&->&->&->).
Qed.

(** One step of an iterator over [l]. *)
Definition steps_to (l : list (bytes * bytes)) (r : bool * versiondb_iter) : Prop :=
  match l with
  | [] => r.1 = false ∧ iter_rest r.2 = []
  | (k, v) :: l => r.1 = true ∧ iter_Key r.2 = k ∧ iter_Value r.2 = v ∧ iter_rest r.2 = l
  end.

Lemma vi_loop_spec d it inner ex mem :
  db_ok d → is_Some (db_view d) →
  let r := vi_loop d it inner ex mem in
  steps_to (vmerge mem (inner_rest ex inner)) (r.1, VIter r.2) ∧
  vi_err r.2 = vi_err it ∧ iter_Error (vi_Iterator r.2) = iter_Error inner.
Proof.
  intros Hd Ho. revert inner ex.
  induction mem as [|[mk mv] mem IH]; intros inner ex; cbv zeta; cbn [vi_loop].
  - rewrite vmerge_nil. destruct ex; [done|]. pose proof (inner_Next_spec d inner Hd Ho) as [Hr He].
    destruct (inner_Next d inner) as [ex inner']. simpl in *. rewrite Hr. done.
  - destruct ex; cbn [inner_rest]; rewrite ?vmerge_cons_nil, ?vmerge_cons; unfold keep; simpl.
    { destruct (vd_delete mv); simpl; [|done]. apply (IH inner true). }
    pose proof (inner_Next_spec d inner Hd Ho) as [Hr He]. rewrite Hr.
    destruct (inner_Next d inner) as [ex inner'] eqn:En. simpl in Hr, He |- *.
    destruct (bytes_ltb mk (iter_Key inner)).
    { destruct (vd_delete mv); simpl; [|by rewrite <-Hr].
      specialize (IH inner false). cbn [inner_rest] in IH. rewrite Hr in IH. apply IH. }
    destruct (bytes_ltb (iter_Key inner) mk); [done|].
    destruct (vd_delete mv); simpl; [|done]. rewrite <-He. apply (IH inner' ex).
Qed.

Lemma commit_loop_spec d l b :
  batch_for d b →
  ∃ b', commit_loop l b = (Ok tt, b') ∧ batch_for d b' ∧
    batch_ops b' = batch_ops b ++ (entry_write <$> l).
Proof.
  revert b. induction l as [|[k vd] l IH]; intros b Hb; cbn [commit_loop].
  { exists b. csimpl. by rewrite app_nil_r. }
  assert (∃ b1, (if vd_delete vd then batch_Delete k b else batch_Put k (vd_value vd) b) = (Ok tt, b1) ∧
    batch_for d b1 ∧ batch_ops b1 = batch_ops b ++ [entry_write (k, vd)]) as (b1&->&Hb1&Ho).
  { unfold entry_write. simpl. destruct (vd_delete vd).
    - destruct (batch_Delete_spec k b) as (Hr&Ho&Hf).
      destruct (batch_Delete k b) as [r b1]. simpl in *. subst r. exists b1. auto.
    - destruct (batch_Put_spec k (vd_value vd) b) as (Hr&Ho&Hf).
      destruct (batch_Put k (vd_value vd) b) as [r b1]. simpl in *. subst r. exists b1. auto. }
  destruct (IH b1 Hb1) as (b'&->&Hb'&Ho'). exists b'. split_and!; [done|done|].
  rewrite Ho', Ho. csimpl. by rewrite <-app_assoc.
Qed.

Lemma vb_writes mem l m :
  overlay (foldl (λ mem kv, <[kv_key kv := mkValueDelete (kv_value kv) (kv_delete kv)]> mem) mem l) m
  = apply_writes (kv_write <$> l) (overlay mem m).
Proof.
  revert mem. induction l as [|kv l IH]; intros mem; [done|]. csimpl.
  rewrite IH, overlay_insert. done.
Qed.

(** An operation that changes only the overlay. *)
Lemma set_mem_writes v mem mem' ws :
  db_ok v → vdb_mem v = Some mem →
  (∀ m, overlay mem' m = apply_writes ws (overlay mem m)) →
  writes v (Ok tt, set_mem mem' v) ws.
Proof.
  intros (Hd&Hb&Ho) Hm Hw. unfold writes. simpl. rewrite Hm.
  destruct Ho as [m Hv]; [by rewrite Hm|]. rewrite Hv. simpl. rewrite Hw.
  split_and!; try done.
Qed.

Lemma closed_writes v ws :
  db_ok v → vdb_mem v = None → writes v (Err ErrClosed, v) ws.
Proof. intros (Hd&Hb&Ho) Hm. unfold writes. simpl. rewrite Hm. by split_and!. Qed.

#[export] Instance versiondb_laws : DatabaseLaws versiondb batch versiondb_iter.
Proof.
  split.
  - intros k v (Hd&Hb&Ho). simpl. unfold versiondb_Has. destruct (vdb_mem v) as [mem|]; [|done].
    destruct Ho as [m Hv]; [done|]. rewrite Has_spec, Hv by done. simpl. unfold map_Has.
    rewrite lookup_overlay. destruct (mem !! k) as [vd|]; [|done]. simpl. f_equal.
    by destruct (vd_delete vd).
  - intros k v (Hd&Hb&Ho). simpl. unfold versiondb_Get. destruct (vdb_mem v) as [mem|]; [|done].
    destruct Ho as [m Hv]; [done|]. rewrite Get_spec, Hv by done. simpl. unfold map_Get.
    rewrite lookup_overlay. destruct (mem !! k) as [vd|]; [|done]. simpl.
    by destruct (vd_delete vd).
  - intros k w v Hok. simpl. unfold versiondb_Put.
    destruct (vdb_mem v) as [mem|] eqn:Hm; [|by apply closed_writes].
    eapply set_mem_writes; [done|done|]. intros m. by rewrite overlay_insert.
  - intros k v Hok. simpl. unfold versiondb_Delete.
    destruct (vdb_mem v) as [mem|] eqn:Hm; [|by apply closed_writes].
    eapply set_mem_writes; [done|done|]. intros m. by rewrite overlay_insert.
  - intros a b v (Hd&Hb&Ho). simpl. unfold versiondb_Compact. destruct (vdb_mem v); [|done].
    rewrite Compact_spec by done. by destruct (db_view (vdb_db v)).
  - intros v (Hd&Hb&Ho). simpl. unfold versiondb_HealthCheck. destruct (vdb_mem v); [|done].
    rewrite HealthCheck_spec by done. by destruct (db_view (vdb_db v)).
  - intros v _ _. by exists (mkBatch [] 0).
  - intros k w b. split_and!; [done| |done]. simpl. by rewrite fmap_app.
  - intros k b. split_and!; [done| |done]. simpl. by rewrite fmap_app.
  - done.
  - intros b v Hok _. simpl. unfold vb_Write.
    destruct (vdb_mem v) as [mem|] eqn:Hm; [|by apply closed_writes].
    eapply set_mem_writes; [done|done|]. intros m. apply vb_writes.
  - intros v (Hd&Hb&Ho). simpl. unfold versiondb_Close.
    destruct (vdb_mem v) eqn:Hm; simpl; rewrite ?Hm; split_and!; try done.
  - intros start prefix v m (Hd&Hb&Ho) Hm. simpl in *. unfold versiondb_NewIterator.
    destruct (vdb_mem v) as [mem|]; [|done]. apply fmap_Some in Hm as (m0&Hm0&->). simpl.
    destruct (NewIterator_spec start prefix _ _ Hd Hm0) as [Hr He].
    split; [by apply overlay_range|done].
  - intros start prefix v (Hd&Hb&Ho) Hm. simpl in *. unfold versiondb_NewIterator.
    destruct (vdb_mem v) as [mem|]; [|done]. apply fmap_None in Hm.
    destruct Ho as [? Ho]; [done|congruence].
  - intros v it (Hd&Hb&Ho) Hv. destruct it as [it|it]; [done|].
    cbn [iter_Next versiondb_database versiondb_Next]. unfold vi_Next, versiondb_isClosed.
    simpl in Hv. destruct (vdb_mem v) as [mem|] eqn:Hm; [|by destruct Hv].
    destruct Ho as [m Hvw]; [done|]. assert (is_Some (db_view (vdb_db v))) as Hopen by by exists m.
    simpl bool_decide. cbn iota.
    set (p := if negb (vi_initialized it) then inner_Next (vdb_db v) (vi_Iterator it)
              else (vi_exhausted it, vi_Iterator it)).
    assert (iter_rest (VIter it) = vmerge (vi_mem it) (inner_rest p.1 p.2) ∧
      iter_Error p.2 = iter_Error (vi_Iterator it)) as [-> He].
    { simpl. unfold p. destruct (vi_initialized it); simpl; [done|].
      destruct (inner_Next_spec (vdb_db v) (vi_Iterator it) Hd Hopen) as [<- ?]. done. }
    destruct p as [ex inner]. simpl in He.
    destruct (vi_loop_spec (vdb_db v) it inner ex (vi_mem it) Hd Hopen) as (Hs&Herr&Hin).
    destruct (vi_loop (vdb_db v) it inner ex (vi_mem it)) as [b it']. split; [exact Hs|].
    simpl in *. by rewrite Herr, Hin, He.
Qed.
End versiondb.
