(* ===== verification/DatabaseSpec.v ===== *)
(** What the databases promise together ([database/memdb], [prefixdb],
    [versiondb]).

    [db_run] performs a program of operations on any database; [map_run] is the
    same program on a finite map.  The contract makes the two agree, hence so do
    all databases and all stacks of them.  Then: a [versiondb] writes to its
    database exactly on [Commit], and two [prefixdb]s do not see each other. *)

From Stdlib Require Import Strings.Byte.
From S2P Require Import Prelude Ids Packer Database MemDB PrefixDB VersionDB.

(** ** Programs of operations *)

Inductive db_op :=
| OHas (key : bytes)
| OGet (key : bytes)
| OPut (key value : bytes)
| ODelete (key : bytes)
| OBatch (ws : list write)                       (* [NewBatch], the writes, [Write] *)
| OIterate (start prefix : bytes) (limit : nat)  (* a new iterator, read [limit] times *)
| OHealthCheck
| OClose.

Inductive db_obs :=
| BBool (r : result db_error bool)
| BBytes (r : result db_error bytes)
| BUnit (r : result db_error unit)
| BList (l : list (bytes * bytes)) (err : option db_error).

(** [None] is a panic. *)
Definition db_do `{Database D B It} (o : db_op) (d : D) : option (db_obs * D) :=
  match o with
  | OHas k => Some (BBool (db_Has k d), d)
  | OGet k => Some (BBytes (db_Get k d), d)
  | OPut k v => let '(r, d) := db_Put k v d in Some (BUnit r, d)
  | ODelete k => let '(r, d) := db_Delete k d in Some (BUnit r, d)
  | OBatch ws =>
      match db_NewBatch d with
      | None => None
      | Some b => let '(r, d) := batch_Write (fill_batch ws b) d in Some (BUnit r, d)
      end
  | OIterate start prefix limit =>
      let it := db_NewIterator start prefix d in Some (BList (collect limit d it) (iter_Error it), d)
  | OHealthCheck => Some (BUnit (db_HealthCheck d), d)
  | OClose => let '(r, d) := db_Close d in Some (BUnit r, d)
  end.

Fixpoint db_run `{Database D B It} (os : list db_op) (d : D) : option (list db_obs * D) :=
  match os with
  | [] => Some ([], d)
  | o :: os =>
      match db_do o d with
      | None => None
      | Some (b, d) => match db_run os d with Some (bs, d) => Some (b :: bs, d) | None => None end
      end
  end.

(** The same on a map, up to the first [OClose]. *)
Definition map_do (o : db_op) (m : gmap bytes bytes) : db_obs * gmap bytes bytes :=
  match o with
  | OHas k => (BBool (map_Has k m), m)
  | OGet k => (BBytes (map_Get k m), m)
  | OPut k v => (BUnit (Ok tt), <[k := v]> m)
  | ODelete k => (BUnit (Ok tt), delete k m)
  | OBatch ws => (BUnit (Ok tt), apply_writes ws m)
  | OIterate start prefix limit => (BList (take limit (map_range start prefix m)) None, m)
  | OHealthCheck | OClose => (BUnit (Ok tt), m)
  end.

Fixpoint map_run (os : list db_op) (m : gmap bytes bytes) : list db_obs * gmap bytes bytes :=
  match os with
  | [] => ([], m)
  | o :: os =>
      let '(b, m) := map_do o m in let '(bs, m) := map_run os m in (b :: bs, m)
  end.

Section refinement.
Context `{DatabaseLaws D B It}.

Lemma db_do_refines o d m :
  db_ok d → db_view d = Some m → o ≠ OClose →
  ∃ d', db_do o d = Some ((map_do o m).1, d') ∧ db_ok d' ∧ db_view d' = Some (map_do o m).2.
Proof.
  intros Hd Hm Ho. assert (∀ (r : result db_error unit * D) ws, writes d r ws →
    ∃ d', r = (Ok tt, d') ∧ db_ok d' ∧ db_view d' = Some (apply_writes ws m)) as Hw.
  { intros [r d'] ws (Hr&Hv&Hok&_). simpl in *. rewrite Hm in *. exists d'. by subst r. }
  destruct o as [k|k|k v|k|ws|start prefix limit| |]; simpl; try done.
  - exists d. rewrite Has_spec, Hm by done. done.
  - exists d. rewrite Get_spec, Hm by done. done.
  - destruct (Hw _ _ (Put_spec k v d Hd)) as (d'&->&?&Hv). by exists d'.
  - destruct (Hw _ _ (Delete_spec k d Hd)) as (d'&->&?&Hv). by exists d'.
  - destruct (NewBatch_spec d Hd) as (b&->&Hb&Hf); [by exists m|].
    destruct (fill_batch_spec d ws b Hf) as [Hf' Hops].
    destruct (Hw _ _ (batch_Write_spec _ d Hd Hf')) as (d'&->&?&Hv).
    exists d'. by rewrite Hv, Hops, Hb.
  - exists d. split; [|done]. destruct (NewIterator_spec start prefix d m Hd Hm) as [Hr He].
    rewrite collect_spec by (rewrite ?Hm; done). rewrite He.
    by rewrite (is_range_unique _ _ _ _ _ Hr (map_range_spec start prefix m)).
  - exists d. rewrite HealthCheck_spec, Hm by done. done.
Qed.

Lemma db_run_refines os d m :
  db_ok d → db_view d = Some m → OClose ∉ os →
  ∃ d', db_run os d = Some ((map_run os m).1, d') ∧ db_ok d' ∧ db_view d' = Some (map_run os m).2.
Proof.
  revert d m. induction os as [|o os IH]; intros d m Hd Hm Ho; [by exists d|].
  apply not_elem_of_cons in Ho as [Ho Hos]. cbn [db_run map_run].
  destruct (db_do_refines o d m Hd Hm) as (d1&->&Hd1&Hm1); [done|].
  destruct (map_do o m) as [b m1]. simpl in *.
  destruct (IH d1 m1 Hd1 Hm1 Hos) as (d2&->&Hd2&Hm2).
  destruct (map_run os m1) as [bs m2]. by exists d2.
Qed.

(** Once closed, every operation fails with [ErrClosed], whatever comes after. *)
Definition closed_obs (o : db_op) (b : db_obs) : Prop :=
  match o with
  | OHas _ => b = BBool (Err ErrClosed)
  | OGet _ => b = BBytes (Err ErrClosed)
  | OPut _ _ | ODelete _ | OHealthCheck => b = BUnit (Err ErrClosed)
  | OIterate _ _ _ => b = BList [] (Some ErrClosed)
  | OBatch _ | OClose => True
  end.
End refinement.

(** ** [Commit] and [Abort] *)

Section versiondb.
Context `{GoRange} `{DatabaseLaws D B It}.

(** Programs that do not close run on a [versiondb] without a write to the
    underlying database. *)
Lemma versiondb_do_base o (v : versiondb) b v' :
  o ≠ OClose → db_do o v = Some (b, v') → vdb_db v' = vdb_db v.
Proof.
  intros Ho. destruct o as [k|k|k w|k|ws|start prefix limit| |]; simpl; try done;
    try (by intros [= _ <-]).
  - unfold versiondb_Put. by destruct (vdb_mem v); intros [= _ <-].
  - unfold versiondb_Delete. by destruct (vdb_mem v); intros [= _ <-].
  - unfold vb_Write. by destruct (vdb_mem v); intros [= _ <-].
Qed.

Lemma versiondb_run_base os (v : versiondb) bs v' :
  OClose ∉ os → db_run os v = Some (bs, v') → vdb_db v' = vdb_db v.
Proof.
  revert v bs. induction os as [|o os IH]; intros v bs Hos; [by intros [= _ <-]|].
  apply not_elem_of_cons in Hos as [Ho Hos]. cbn [db_run].
  destruct (db_do o v) as [[b v1]|] eqn:E1; [|done].
  destruct (db_run os v1) as [[bs1 v2]|] eqn:E2; [|done]. intros [= _ <-].
  rewrite (IH _ _ Hos E2). by eapply versiondb_do_base.
Qed.

Lemma Commit_spec (v : versiondb) m :
  db_ok v → db_view v = Some m →
  ∃ v', versiondb_Commit v = (Ok tt, v') ∧ db_ok v' ∧ db_view v' = Some m ∧
    db_view (vdb_db v') = Some m ∧ vdb_mem v' = Some ∅.
Proof.
  intros (Hd&Hb&Ho) Hm. unfold versiondb_Commit, versiondb_commitBatch. simpl in Hm.
  destruct (vdb_mem v) as [mem|] eqn:Em; [|done]. apply fmap_Some in Hm as (m0&Hm0&->).
  destruct (batch_Reset_spec (vdb_batch v)) as [Hr Hrf].
  destruct (commit_loop_spec (vdb_db v) (go_range mem) _ (Hrf _ Hb)) as (b'&->&Hb'&Hops).
  simpl. destruct (batch_Write_spec b' (vdb_db v) Hd Hb') as (Hw&Hv&Hok&Hf).
  destruct (batch_Write b' (vdb_db v)) as [r d']. simpl in *. rewrite Hm0 in Hw, Hv. simpl in Hw, Hv.
  subst r. eexists. split; [done|]. unfold versiondb_abort, set_mem. simpl.
  rewrite Hv, Hops, Hr. simpl. rewrite apply_entries_overlay, overlay_empty.
  split_and!; try done. by apply batch_Reset_spec, Hf.
Qed.

Lemma Abort_spec (v : versiondb) m m0 :
  db_ok v → db_view v = Some m → db_view (vdb_db v) = Some m0 →
  db_ok (versiondb_Abort v) ∧ db_view (versiondb_Abort v) = Some m0 ∧
  vdb_db (versiondb_Abort v) = vdb_db v.
Proof.
  intros (Hd&Hb&Ho) Hm Hm0. unfold versiondb_Abort, versiondb_abort, set_mem. simpl in Hm.
  destruct (vdb_mem v) as [mem|] eqn:Em; [|done]. simpl. rewrite Hm0. simpl. by rewrite overlay_empty.
Qed.
End versiondb.

(** ** Isolation of prefixes *)

Section prefixdb.
Context `{DatabaseLaws D B It}.

(** The writes a database with a prefix makes to the one it shares. *)
Definition prefixed (prefix : bytes) (ws : list write) : Prop :=
  ∀ w, w ∈ ws → ∃ k, w.1 = prefix ++ k.

Lemma prefixed_disjoint p1 p2 ws m :
  length p1 = length p2 → p1 ≠ p2 → prefixed p1 ws → submap p2 (apply_writes ws m) = submap p2 m.
Proof.
  intros Hl Hne Hp. rewrite submap_writes.
  replace (omap (strip_write p2) ws) with (@nil write); [done|]. symmetry.
  induction ws as [|w ws IH]; [done|]. simpl.
  destruct (Hp w) as [k Hk]; [left|]. unfold strip_write at 1.
  destruct (HasPrefix w.1 p2) eqn:E.
  - apply HasPrefix_spec in E as [t Et]. rewrite Hk in Et.
    by apply app_inj_1 in Et as [? _].
  - apply IH. intros w' Hw'. apply Hp. by right.
Qed.

Lemma fill_batch_prefixed ws (b : @pd_batch B) :
  prefixed (pb_dbPrefix b) (batch_ops (pb_Batch b)) →
  pb_dbPrefix (fill_batch ws b) = pb_dbPrefix b ∧
  prefixed (pb_dbPrefix b) (batch_ops (pb_Batch (fill_batch ws b))).
Proof.
  unfold fill_batch. revert b. induction ws as [|[k o] ws IH]; intros b Hb; [done|]. simpl.
  set (b1 := match o with Some v => (pdb_Put k v b).2 | None => (pdb_Delete k b).2 end).
  assert (pb_dbPrefix b1 = pb_dbPrefix b ∧
    batch_ops (pb_Batch b1) = batch_ops (pb_Batch b) ++ [(pb_dbPrefix b ++ k, o)]) as [E1 E2].
  { unfold b1. destruct o as [v|].
    - pose proof (batch_Put_spec (pb_dbPrefix b ++ k) v (pb_Batch b)) as (_&Hops&_).
      unfold pdb_Put. by destruct (batch_Put _ v (pb_Batch b)).
    - pose proof (batch_Delete_spec (pb_dbPrefix b ++ k) (pb_Batch b)) as (_&Hops&_).
      unfold pdb_Delete. by destruct (batch_Delete _ (pb_Batch b)). }
  rewrite <-E1. apply IH. rewrite E1, E2. intros w [Hw| ->%list_elem_of_singleton]%elem_of_app;
    [by apply Hb|by exists k].
Qed.

(** The step of a database with a prefix from [p] to [p'] writes only keys with the
    prefix. *)
Definition prefix_step (p p' : @prefixdb D) (m : gmap bytes bytes) : Prop :=
  pd_dbPrefix p' = pd_dbPrefix p ∧ db_ok p' ∧
  ∃ ws, prefixed (pd_dbPrefix p) ws ∧ db_view (pd_db p') = Some (apply_writes ws m).

Lemma prefix_step_same p p' m :
  db_ok p → db_view (pd_db p) = Some m → pd_dbPrefix p' = pd_dbPrefix p → pd_db p' = pd_db p →
  prefix_step p p' m.
Proof.
  intros Hp Hm E1 E2. unfold prefix_step. simpl. rewrite E1, E2. split_and!; try done.
  exists []. split; [by intros w ?%elem_of_nil|done].
Qed.

Lemma pass_update_step (p : @prefixdb D) m f ws r p' :
  db_ok p → db_view (pd_db p) = Some m → prefixed (pd_dbPrefix p) ws →
  writes (pd_db p) (f (pd_db p)) ws → pass_update p f = (r, p') → prefix_step p p' m.
Proof.
  intros Hp Hm Hws (_&Hv&Hok&_). unfold pass_update. destruct (pd_closed p).
  - intros [= _ <-]. by apply prefix_step_same.
  - destruct (f (pd_db p)) as [r' d]. intros [= _ <-]. unfold prefix_step. simpl in *.
    rewrite Hm in Hv. split_and!; try done. by exists ws.
Qed.

Lemma prefixdb_do_step o (p : @prefixdb D) m b p' :
  db_ok p → db_view (pd_db p) = Some m → db_do o p = Some (b, p') → prefix_step p p' m.
Proof.
  intros Hp Hm. destruct o as [k|k|k v|k|ws|start prefix limit| |]; cbn [db_do];
    try (intros [= _ <-]; by apply prefix_step_same).
  - simpl. unfold prefixdb_Put. destruct (pass_update p _) as [r q] eqn:E. intros [= _ <-].
    eapply pass_update_step; [done|done| |by apply Put_spec|exact E].
    intros w ->%list_elem_of_singleton. by exists k.
  - simpl. unfold prefixdb_Delete. destruct (pass_update p _) as [r q] eqn:E. intros [= _ <-].
    eapply pass_update_step; [done|done| |by apply Delete_spec|exact E].
    intros w ->%list_elem_of_singleton. by exists k.
  - destruct (db_NewBatch p) as [b0|] eqn:Eb; [|done].
    destruct (batch_Write (fill_batch ws b0) p) as [r q] eqn:E. intros [= _ <-].
    destruct (pd_closed p) eqn:Ec; [simpl in Eb; unfold prefixdb_NewBatch in Eb; by rewrite Ec in Eb|].
    destruct (NewBatch_spec p Hp) as (b1&E1&Hops&Hf); [simpl; by rewrite Ec, Hm|].
    assert (b1 = b0) as -> by congruence. clear E1.
    assert (prefixed (pb_dbPrefix b0) (batch_ops (pb_Batch b0))) as Hpre.
    { simpl in Eb. unfold prefixdb_NewBatch in Eb. rewrite Ec in Eb.
      destruct (NewBatch_spec (pd_db p) Hp) as (bi&Ebi&Hbi&_); [by exists m|].
      rewrite Ebi in Eb. injection Eb as <-. simpl. rewrite Hbi. by intros w ?%elem_of_nil. }
    destruct (fill_batch_prefixed ws b0 Hpre) as [_ Hpre'].
    destruct (fill_batch_spec p ws b0 Hf) as [[Hfp Hfb] _]. destruct Hf as [Hfp0 _].
    rewrite Hfp0 in Hpre'. eapply pass_update_step; [done|done|exact Hpre'| |exact E].
    by apply batch_Write_spec.
  - simpl. unfold prefixdb_Close. destruct (pd_closed p); intros [= _ <-];
      by apply prefix_step_same.
Qed.

Lemma prefixdb_run_other os (p : @prefixdb D) m p2 bs p' :
  db_ok p → db_view (pd_db p) = Some m → length (pd_dbPrefix p) = length p2 → pd_dbPrefix p ≠ p2 →
  db_run os p = Some (bs, p') →
  ∃ m', db_view (pd_db p') = Some m' ∧ db_ok p' ∧ submap p2 m' = submap p2 m.
Proof.
  revert p m bs. induction os as [|o os IH]; intros p m bs Hp Hm Hl Hne; cbn [db_run].
  { intros [= _ <-]. by exists m. }
  destruct (db_do o p) as [[b p1]|] eqn:E1; [|done].
  destruct (db_run os p1) as [[bs1 q]|] eqn:E2; [|done]. intros [= _ <-].
  destruct (prefixdb_do_step o p m b p1 Hp Hm E1) as (Ep&Hp1&ws&Hws&Hm1).
  rewrite <-Ep in Hl, Hne, Hws.
  destruct (IH p1 _ _ Hp1 Hm1 Hl Hne E2) as (m'&?&?&Hs). exists m'. split_and!; [done..|]. rewrite Hs.
  eapply prefixed_disjoint; [done|done|by rewrite Ep in *].
Qed.
End prefixdb.

(** ** Sample programs *)

#[local] Existing Instance go_range_std.

Definition sample_ops : list db_op :=
  [OPut [x01; x02] [x10]; OPut [x01] [x11]; OBatch [([x02], Some [x12]); ([x01; x02], None)];
   OHas [x01; x02]; OGet [x01]; OIterate [] [] 5; OIterate [x02] [] 5; OHealthCheck].

Definition sample_versiondb : @versiondb memdb batch := mkVersiondb (Some ∅) memdb_New (mkBatch [] 0).

Definition sample_prefixdb : @prefixdb memdb := mkPrefixdb [x07] false memdb_New.

Definition no_close (os : list db_op) : bool :=
  forallb (λ o, match o with OClose => false | _ => true end) os.

Lemma no_close_ok os : no_close os = true → OClose ∉ os.
Proof. intros Hos Hin%list_elem_of_In. by apply (proj1 (forallb_forall _ _) Hos) in Hin. Qed.

(** ** Claims *)

(** C15: the database in memory, a database with a prefix over any database that
    keeps the contract, and a versioned database over any such database are finite
    maps: every program of reads, writes, batches and iterations returns without a
    panic exactly what the same program returns on the map, iterations in the order
    of the keys and without deleted keys. *)
Theorem databases_are_maps `{GoRange} os m :
  OClose ∉ os →
  (∃ d', db_run os (mkMemdb (Some m)) = Some ((map_run os m).1, d') ∧
     mem_db d' = Some (map_run os m).2) ∧
  (∀ `{DatabaseLaws D B It} (p : @prefixdb D), db_ok p → db_view p = Some m →
     ∃ p', db_run os p = Some ((map_run os m).1, p') ∧ db_view p' = Some (map_run os m).2) ∧
  (∀ `{DatabaseLaws D B It} (v : @versiondb D B), db_ok v → db_view v = Some m →
     ∃ v', db_run os v = Some ((map_run os m).1, v') ∧ db_view v' = Some (map_run os m).2).
Proof.
  intros Hos. split_and!.
  - destruct (db_run_refines os (mkMemdb (Some m)) m) as (d'&?&_&?); [done..|]. by exists d'.
  - intros D B It ??? p Hp Hm. destruct (db_run_refines os p m Hp Hm Hos) as (d'&?&_&?).
    by exists d'.
  - intros D B It ??? v Hv Hm. destruct (db_run_refines os v m Hv Hm Hos) as (d'&?&_&?).
    by exists d'.
Qed.

Lemma databases_are_maps_witness :
  OClose ∉ sample_ops ∧
  (∃ d', db_run sample_ops memdb_New = Some
     ([BUnit (Ok tt); BUnit (Ok tt); BUnit (Ok tt); BBool (Ok false); BBytes (Ok [x11]);
       BList [([x01], [x11]); ([x02], [x12])] None; BList [([x02], [x12])] None; BUnit (Ok tt)], d')) ∧
  (∃ v', db_run sample_ops sample_versiondb = Some ((map_run sample_ops ∅).1, v')).
Proof.
  assert (OClose ∉ sample_ops) as Hos by (apply no_close_ok; reflexivity).
  destruct (databases_are_maps sample_ops ∅ Hos) as ((d'&Hm&_)&_&Hv).
  split; [exact Hos|]. split; [exists d'; exact Hm|].
  destruct (Hv memdb batch memdb_iter _ _ _ sample_versiondb) as (v'&Hr&_); [done|done|].
  exists v'. exact Hr.
Defined.

(** A versioned database writes to its database exactly on [Commit]: after
    any program the underlying map is the one from before, [Commit] succeeds and
    makes it the map the program has computed, and [Abort] makes the reads return
    to it. *)
Theorem versiondb_commit_abort `{GoRange} `{DatabaseLaws D B It} os (v : @versiondb D B) m :
  OClose ∉ os → db_ok v → vdb_mem v = Some ∅ → db_view (vdb_db v) = Some m →
  ∃ v1 v2, db_run os v = Some ((map_run os m).1, v1) ∧ db_view (vdb_db v1) = Some m ∧
    versiondb_Commit v1 = (Ok tt, v2) ∧
    db_view (vdb_db v2) = Some (map_run os m).2 ∧ db_view v2 = Some (map_run os m).2 ∧
    db_view (versiondb_Abort v1) = Some m ∧ db_view (vdb_db (versiondb_Abort v1)) = Some m.
Proof.
  intros Hos Hv Hmem Hm.
  assert (db_view v = Some m) as Hvm by (simpl; rewrite Hmem, Hm; simpl; by rewrite overlay_empty).
  destruct (db_run_refines os v m Hv Hvm Hos) as (v1&Hrun&Hok1&Hv1).
  pose proof (versiondb_run_base os v _ _ Hos Hrun) as Hbase. rewrite <-Hbase in Hm.
  destruct (Commit_spec v1 _ Hok1 Hv1) as (v2&Hc&_&Hv2&Hb2&_).
  destruct (Abort_spec v1 _ m Hok1 Hv1 Hm) as (_&Ha&Hab).
  exists v1, v2. rewrite Hab. by split_and!.
Qed.

Lemma versiondb_commit_abort_witness :
  ∃ v1 v2, db_run sample_ops sample_versiondb = Some ((map_run sample_ops ∅).1, v1) ∧
    db_view (vdb_db v1) = Some ∅ ∧ versiondb_Commit v1 = (Ok tt, v2) ∧
    db_Get [x01] (vdb_db v2) = Ok [x11] ∧ db_Get [x01; x02] (vdb_db v2) = Err ErrNotFound.
Proof.
  destruct (versiondb_commit_abort sample_ops sample_versiondb ∅) as (v1&v2&H1&H2&H3&H4&_);
    [apply no_close_ok; reflexivity|done|done|done|].
  exists v1, v2. split; [exact H1|]. split; [exact H2|]. split; [exact H3|].
  rewrite !Get_spec, H4 by exact I. split; vm_compute; reflexivity.
Defined.

(** Databases with different prefixes of the same length over one underlying
    database do not see each other: whatever program runs through the first,
    closing included, the second reads the same map. *)
Theorem prefixdb_isolated `{DatabaseLaws D B It} os (p : @prefixdb D) p2 m bs p' :
  db_ok p → db_view (pd_db p) = Some m → length (pd_dbPrefix p) = length p2 → pd_dbPrefix p ≠ p2 →
  db_run os p = Some (bs, p') →
  db_view (mkPrefixdb p2 false (pd_db p')) = db_view (mkPrefixdb p2 false (pd_db p)).
Proof.
  intros Hp Hm Hl Hne Hrun.
  destruct (prefixdb_run_other os p m p2 bs p' Hp Hm Hl Hne Hrun) as (m'&Hm'&_&Hs).
  simpl. rewrite Hm, Hm'. simpl. by rewrite Hs.
Qed.

Lemma prefixdb_isolated_witness :
  ∃ bs p', db_run sample_ops sample_prefixdb = Some (bs, p') ∧
    db_view p' = Some (map_run sample_ops ∅).2 ∧
    db_view (mkPrefixdb [x08] false (pd_db p')) = Some ∅.
Proof.
  destruct (db_run_refines sample_ops sample_prefixdb ∅) as (p'&E&_&Hv);
    [done|done|apply no_close_ok; reflexivity|].
  exists (map_run sample_ops ∅).1, p'. split; [exact E|]. split; [exact Hv|].
  rewrite (prefixdb_isolated sample_ops sample_prefixdb [x08] ∅ (map_run sample_ops ∅).1 p');
    [reflexivity|done|done|done|discriminate|exact E].
Defined.
