(* ===== verification/DbHelpers.v ===== *)
(** Typed values and loops over databases ([database/helpers.go]).

    The helpers work on any [Database]; their properties follow from its
    contract. *)

From Stdlib Require Import Strings.Byte.
From S2P Require Import Prelude Ids Packer Database MemDB.

Inductive helper_error :=
| HDb (e : db_error)
| HBadID
| errWrongSize
| HBadLength
| HBadBool.

Definition lift_db {A} (r : result db_error A) : result helper_error A :=
  match r with Ok a => Ok a | Err e => Err (HDb e) end.

Section helpers.
Context {D B It : Type} `{Database D B It}.

Definition PutID (key : bytes) (val : ID) (d : D) : result db_error unit * D :=
  db_Put key (id_bytes val) d.

Definition ParseID (b : bytes) : result helper_error ID :=
  match id_of_bytes b with Some id => Ok id | None => Err HBadID end.

Definition GetID (key : bytes) (d : D) : result helper_error ID :=
  result_bind (lift_db (db_Get key d)) ParseID.

Definition PackUInt64 (val : Z) : bytes := be_bytes 8 val.

Definition ParseUInt64 (b : bytes) : result helper_error Z :=
  if decide (length b ≠ 8%nat) then Err errWrongSize else Ok (be_value b).

Definition PutUInt64 (key : bytes) (val : Z) (d : D) : result db_error unit * D :=
  db_Put key (PackUInt64 val) d.

Definition GetUInt64 (key : bytes) (d : D) : result helper_error Z :=
  result_bind (lift_db (db_Get key d)) ParseUInt64.

Definition PackUInt32 (val : Z) : bytes := be_bytes 4 val.

Definition ParseUInt32 (b : bytes) : result helper_error Z :=
  if decide (length b ≠ 4%nat) then Err errWrongSize else Ok (be_value b).

Definition PutUInt32 (key : bytes) (val : Z) (d : D) : result db_error unit * D :=
  db_Put key (PackUInt32 val) d.

Definition GetUInt32 (key : bytes) (d : D) : result helper_error Z :=
  result_bind (lift_db (db_Get key d)) ParseUInt32.

Definition PutBool (key : bytes) (b : bool) (d : D) : result db_error unit * D :=
  if b then db_Put key [x01] d else db_Put key [x00] d.

Definition GetBool (key : bytes) (d : D) : result helper_error bool :=
  result_bind (lift_db (db_Get key d)) (λ b,
    if decide (length b ≠ 1%nat) then Err HBadLength
    else if decide (hd x00 b ≠ x00 ∧ hd x00 b ≠ x01) then Err HBadBool
    else Ok (bool_decide (hd x00 b = x01))).

Definition kvPairOverhead : Z := 8.

(** The loops: [None] is out of fuel. *)
Fixpoint Count_loop (fuel : nat) (d : D) (it : It) (count : Z) : option (Z * It) :=
  match fuel with
  | O => None
  | S fuel =>
      let '(b, it) := iter_Next d it in
      if b : bool then Count_loop fuel d it (count + 1) else Some (count, it)
  end.

Definition Count (fuel : nat) (d : D) : option (Z * option db_error) :=
  match Count_loop fuel d (db_NewIterator [] [] d) 0 with
  | Some (count, it) => Some (count, iter_Error it)
  | None => None
  end.

Fixpoint Size_loop (fuel : nat) (d : D) (it : It) (size : Z) : option (Z * It) :=
  match fuel with
  | O => None
  | S fuel =>
      let '(b, it) := iter_Next d it in
      if b : bool then
        Size_loop fuel d it (size + (Z.of_nat (length (iter_Key it)) +
          Z.of_nat (length (iter_Value it)) + kvPairOverhead))
      else Some (size, it)
  end.

Definition Size (fuel : nat) (d : D) : option (Z * option db_error) :=
  match Size_loop fuel d (db_NewIterator [] [] d) 0 with
  | Some (size, it) => Some (size, iter_Error it)
  | None => None
  end.

Definition IsEmpty (d : D) : bool * option db_error :=
  let '(b, it) := iter_Next d (db_NewIterator [] [] d) in (negb b, iter_Error it).

(** Deletes from the database it iterates over, as [Clear(db, db)] does. *)
Fixpoint ClearPrefix_loop (fuel : nat) (it : It) (d : D) : option (option db_error * D) :=
  match fuel with
  | O => None
  | S fuel =>
      let '(b, it) := iter_Next d it in
      if b : bool then
        let '(r, d) := db_Delete (iter_Key it) d in
        match r with
        | Err e => Some (Some e, d)
        | Ok _ => ClearPrefix_loop fuel it d
        end
      else Some (iter_Error it, d)
  end.

Definition ClearPrefix (fuel : nat) (prefix : bytes) (d : D) : option (option db_error * D) :=
  ClearPrefix_loop fuel (db_NewIterator [] prefix d) d.

Definition Clear (fuel : nat) (d : D) : option (option db_error * D) := ClearPrefix fuel [] d.

Context `{DatabaseView D B It, !DatabaseLaws D B It}.

Lemma Get_Put k v d :
  db_ok d → is_Some (db_view d) → db_Get k (db_Put k v d).2 = Ok v ∧ db_ok (db_Put k v d).2.
Proof.
  intros Hd [m Hm]. destruct (Put_spec k v d Hd) as (_&Hv&Hok&_).
  rewrite Get_spec, Hv, Hm by done. simpl. unfold map_Get, apply_writes. simpl.
  by rewrite lookup_insert_eq.
Qed.

Lemma ClearPrefix_loop_spec fuel it d m :
  db_ok d → db_view d = Some m → (length (iter_rest it) < fuel)%nat → iter_Error it = None →
  ∃ d', ClearPrefix_loop fuel it d = Some (None, d') ∧ db_ok d' ∧
    db_view d' = Some (apply_writes ((λ kv, (kv.1, None)) <$> iter_rest it) m).
Proof.
  revert it d m. induction fuel as [|fuel IH]; intros it d m Hd Hm Hf He; [lia|].
  cbn [ClearPrefix_loop]. destruct (Next_spec d it Hd) as [Hn Herr]; [by exists m|].
  destruct (iter_Next d it) as [b it']. simpl in *. rewrite He in Herr.
  destruct (iter_rest it) as [|[k v] l] eqn:El.
  - destruct Hn as [-> _]. rewrite Herr. by exists d.
  - destruct Hn as (->&->&_&Hl). destruct (Delete_spec k d Hd) as (Hr&Hv&Hok&_).
    destruct (db_Delete k d) as [r d1]. simpl in *. rewrite Hm in *. simpl in *. subst r.
    destruct (IH it' d1 _ Hok Hv) as (d'&->&Hok'&Hv'); [rewrite Hl; lia|done|].
    exists d'. split_and!; [done|done|]. by rewrite Hv', Hl.
Qed.

(** Deleting keys of a list. *)
Lemma delete_keys_lookup (l : list (bytes * bytes)) m k :
  apply_writes ((λ kv, (kv.1, None)) <$> l) m !! k = if decide (k ∈ l.*1) then None else m !! k.
Proof.
  revert m. induction l as [|[k' v] l IH]; intros m; csimpl.
  - destruct (decide (k ∈ [])) as [Hk|]; [by apply elem_of_nil in Hk|done].
  - rewrite apply_writes_cons, IH. simpl. destruct (decide (k = k')) as [->|Hne].
    + rewrite lookup_delete_eq. rewrite (decide_True (P := k' ∈ k' :: l.*1)) by left. by case_decide.
    + rewrite lookup_delete_ne by done.
      destruct (decide (k ∈ l.*1)); [by rewrite decide_True by (by right)|].
      rewrite decide_False; [done|]. by intros [?|?]%elem_of_cons.
Qed.
End helpers.

(** ** Claims *)

(** Values written by the typed helpers are read back: identifiers, 64- and
    32-bit integers in their range, booleans; and a value of another size is an
    error, never a wrong value. *)
Theorem typed_roundtrip `{DatabaseLaws D B It} k d :
  db_ok d → is_Some (db_view d) →
  (∀ id, GetID k (PutID k id d).2 = Ok id) ∧
  (∀ x, is_uint 64 x → GetUInt64 k (PutUInt64 k x d).2 = Ok x) ∧
  (∀ x, is_uint 32 x → GetUInt32 k (PutUInt32 k x d).2 = Ok x) ∧
  (∀ b, GetBool k (PutBool k b d).2 = Ok b) ∧
  (∀ x, GetUInt32 k (PutUInt64 k x d).2 = Err errWrongSize) ∧
  (∀ id, GetUInt64 k (PutID k id d).2 = Err errWrongSize).
Proof.
  intros Hd Ho. assert (∀ v, db_Get k (db_Put k v d).2 = Ok v) as Hg by (intros; by apply Get_Put).
  assert (∀ n w x, Z.of_nat n * 8 = w → is_uint w x → be_value (be_bytes n x) = x) as Hbe.
  { intros n w x Hw Hx. rewrite be_value_bytes. apply Z.mod_small. unfold is_uint in Hx.
    change 256 with (2 ^ 8). rewrite <-Z.pow_mul_r by lia. by rewrite Z.mul_comm, Hw. }
  unfold GetID, GetUInt64, GetUInt32, GetBool, PutID, PutUInt64, PutUInt32, PutBool.
  split_and!; intros *; intros; rewrite ?Hg; cbn [result_bind lift_db].
  - unfold ParseID. by rewrite id_of_bytes_id.
  - unfold ParseUInt64, PackUInt64. rewrite length_be_bytes, decide_False by lia. by rewrite (Hbe 8%nat 64).
  - unfold ParseUInt32, PackUInt32. rewrite length_be_bytes, decide_False by lia. by rewrite (Hbe 4%nat 32).
  - destruct b; by rewrite Hg.
  - done.
  - unfold ParseUInt64. by rewrite id_len.
Qed.

Lemma typed_roundtrip_witness :
  @GetUInt64 memdb batch memdb_iter (@memdb_database go_range_std) [x05]
    (@PutUInt64 memdb batch memdb_iter (@memdb_database go_range_std) [x05] (2 ^ 64 - 1)
       memdb_New).2 = Ok (2 ^ 64 - 1) ∧
  @GetBool memdb batch memdb_iter (@memdb_database go_range_std) [x05]
    (@PutBool memdb batch memdb_iter (@memdb_database go_range_std) [x05] true memdb_New).2 = Ok true.
Proof.
  destruct (@typed_roundtrip memdb batch memdb_iter (@memdb_database go_range_std) _
    (@memdb_laws go_range_std) [x05] memdb_New) as (_&H64&_&Hb&_); [done|by eexists|].
  split; [apply H64; unfold is_uint; lia|apply Hb].
Defined.

(** Clearing a prefix terminates, without an error, after as many turns as the
    database has entries, and deletes exactly the keys with the prefix, although it
    deletes while it iterates. *)
Theorem ClearPrefix_deletes `{DatabaseLaws D B It} prefix d m fuel :
  db_ok d → db_view d = Some m → (size m < fuel)%nat →
  ∃ d' m', ClearPrefix fuel prefix d = Some (None, d') ∧ db_view d' = Some m' ∧
    ∀ k, m' !! k = if HasPrefix k prefix then None else m !! k.
Proof.
  intros Hd Hm Hf. destruct (NewIterator_spec [] prefix d m Hd Hm) as [Hr He].
  set (it := db_NewIterator [] prefix d) in *. destruct Hr as [Hs Hl].
  assert (length (iter_rest it) ≤ size m)%nat as Hlen.
  { rewrite <-(length_fmap fst), <-(size_list_to_set (C := gset bytes)) by (by apply key_lt_NoDup).
    rewrite <-size_dom. apply subseteq_size. intros k. rewrite elem_of_list_to_set, elem_of_dom.
    intros Hk. apply list_elem_of_fmap in Hk as ([k' v]&->&Hin). apply Hl in Hin as [Hk _].
    by exists v. }
  destruct (ClearPrefix_loop_spec fuel it d m Hd Hm) as (d'&E&_&Hv); [lia|done|].
  eexists d', _. split_and!; [exact E|exact Hv|]. intros k. rewrite delete_keys_lookup.
  assert (k ∈ (iter_rest it).*1 ↔ is_Some (m !! k) ∧ HasPrefix k prefix = true) as Hk.
  { rewrite list_elem_of_fmap. split.
    - intros ([k' v]&->&Hin). apply Hl in Hin as (Hk&Hp&_). split; [by exists v|done].
    - intros [[v Hk] Hp]. exists (k, v). split; [done|]. apply Hl. split_and!; [done..|].
      apply bytes_le_nil. }
  destruct (decide (k ∈ (iter_rest it).*1)) as [Hin|Hni].
  - apply Hk in Hin as [_ ->]. done.
  - destruct (HasPrefix k prefix) eqn:Hp; [|done]. destruct (m !! k) eqn:Em; [|done].
    destruct Hni. apply Hk. by split; [eexists|].
Qed.

Definition sample_db : memdb :=
  mkMemdb (Some (<[[x01; x02] := [x10]]> (<[[x01] := [x11]]> (<[[x02] := [x12]]> ∅)))).

Lemma ClearPrefix_deletes_witness :
  ∃ d' m', @ClearPrefix memdb batch memdb_iter (@memdb_database go_range_std) 4 [x01] sample_db =
    Some (None, d') ∧ mem_db d' = Some m' ∧ m' !! [x01; x02] = None ∧ m' !! [x02] = Some [x12].
Proof.
  destruct (@ClearPrefix_deletes memdb batch memdb_iter (@memdb_database go_range_std) _
    (@memdb_laws go_range_std) [x01] sample_db
    (<[[x01; x02] := [x10]]> (<[[x01] := [x11]]> (<[[x02] := [x12]]> ∅))) 4) as (d'&m'&E&Hv&Hk);
    [done|done|vm_compute; lia|].
  exists d', m'. split; [exact E|]. split; [exact Hv|]. rewrite !Hk. split; reflexivity.
Defined.
