(* ===== verification/Cache.v ===== *)
(** Caches that evict the least recently used entry ([cache/lru_cache.go],
    [cache/unique_cache.go]).

    Both keep a map to the elements of a linked list, the state of
    [LinkedHashmap].  They refine [lru_spec], a list of entries from the least to
    the most recently used of bounded length; a value is found as long as fewer
    than [Size] other keys have been used since. *)

From S2P Require Import Prelude LinkedHashmap.

Section lru.
Context {K V : Type} `{Countable K}.

(** The nil map and list of the zero value are empty once [init] has run, which is
    the first thing every method does. *)
Record LRU := mkLRU { lru_entries : linkedHashmap K V; lru_Size : Z }.

Definition lru_New (size : Z) : LRU := mkLRU lh_New size.

Definition lru_init (c : LRU) : LRU :=
  mkLRU (lru_entries c) (if decide (lru_Size c ≤ 0) then 1 else lru_Size c).

(** [Front], [Remove] and the deletion of the key of its entry; [None] is a nil
    dereference. *)
Definition remove_front (lh : linkedHashmap K V) : option (linkedHashmap K V) :=
  match head (entryList lh) with
  | None => None
  | Some e =>
      match elemVal lh !! e with
      | None => None
      | Some (k, _) =>
          Some (mkLinkedHashmap (delete k (entryMap lh)) (list_Remove e (entryList lh)) (elemVal lh))
      end
  end.

(** Every turn removes an element. *)
Fixpoint resize_loop (fuel : nat) (size : Z) (lh : linkedHashmap K V)
    : option (linkedHashmap K V) :=
  if decide (size < Z.of_nat (length (entryList lh))) then
    match fuel with
    | O => None
    | S fuel => match remove_front lh with Some lh => resize_loop fuel size lh | None => None end
    end
  else Some lh.

Definition lru_resize (c : LRU) : option LRU :=
  match resize_loop (length (entryList (lru_entries c))) (lru_Size c) (lru_entries c) with
  | Some lh => Some (mkLRU lh (lru_Size c))
  | None => None
  end.

(** The element at the front becomes the entry of another key at the back. *)
Definition reuse_front (key : K) (value : V) (lh : linkedHashmap K V)
    : option (linkedHashmap K V) :=
  match head (entryList lh) with
  | None => None
  | Some e =>
      match elemVal lh !! e with
      | None => None
      | Some (k, _) =>
          Some (mkLinkedHashmap (<[key := e]> (delete k (entryMap lh)))
                  (list_Remove e (entryList lh) ++ [e]) (<[e := (key, value)]> (elemVal lh)))
      end
  end.

Definition lru_put (key : K) (value : V) (c : LRU) : option LRU :=
  match lru_resize (lru_init c) with
  | None => None
  | Some c =>
      let lh := lru_entries c in
      match entryMap lh !! key with
      | None =>
          if decide (lru_Size c ≤ Z.of_nat (length (entryList lh))) then
            match reuse_front key value lh with
            | Some lh => Some (mkLRU lh (lru_Size c))
            | None => None
            end
          else Some (mkLRU (lh_Put key value lh) (lru_Size c))
      | Some _ => Some (mkLRU (lh_Put key value lh) (lru_Size c))
      end
  end.

(** [MoveToBack]. *)
Definition move_to_back (e : positive) (lh : linkedHashmap K V) : linkedHashmap K V :=
  mkLinkedHashmap (entryMap lh) (list_Remove e (entryList lh) ++ [e]) (elemVal lh).

Definition lru_get (key : K) (c : LRU) : option (option V * LRU) :=
  match lru_resize (lru_init c) with
  | None => None
  | Some c =>
      let lh := lru_entries c in
      match entryMap lh !! key with
      | Some e =>
          match elemVal lh !! e with
          | Some (_, v) => Some (Some v, mkLRU (move_to_back e lh) (lru_Size c))
          | None => None
          end
      | None => Some (None, c)
      end
  end.

Definition lru_evict (key : K) (c : LRU) : option LRU :=
  match lru_resize (lru_init c) with
  | None => None
  | Some c => Some (mkLRU (lh_Delete key (lru_entries c)) (lru_Size c))
  end.

Definition lru_flush (c : LRU) : LRU := mkLRU lh_New (lru_Size (lru_init c)).

(** ** Calls *)

Inductive lru_call := LPut (key : K) (value : V) | LGet (key : K) | LEvict (key : K) | LFlush.

Definition lru_step (o : lru_call) (c : LRU) : option (option V * LRU) :=
  match o with
  | LPut k v => match lru_put k v c with Some c => Some (None, c) | None => None end
  | LGet k => lru_get k c
  | LEvict k => match lru_evict k c with Some c => Some (None, c) | None => None end
  | LFlush => Some (None, lru_flush c)
  end.

Fixpoint lru_run (os : list lru_call) (c : LRU) : option (list (option V) * LRU) :=
  match os with
  | [] => Some ([], c)
  | o :: os =>
      match lru_step o c with
      | None => None
      | Some (r, c) => match lru_run os c with Some (rs, c) => Some (r :: rs, c) | None => None end
      end
  end.

(** ** The specification: the entries, least recently used first *)

(** The entry of [k] is moved to the back, or added there; the list is cut to the
    last [n]. *)
Definition last_n {A : Type} (n : nat) (l : list A) : list A := drop (length l - n) l.

Definition spec_step (n : nat) (o : lru_call) (l : list (K * V)) : option V * list (K * V) :=
  match o with
  | LPut k v => (None, last_n n (alist_put k v l))
  | LGet k =>
      match alist_get k l with Some v => (Some v, alist_put k v l) | None => (None, l) end
  | LEvict k => (None, alist_delete k l)
  | LFlush => (None, [])
  end.

Fixpoint spec_run (n : nat) (os : list lru_call) (l : list (K * V)) : list (option V) * list (K * V) :=
  match os with
  | [] => ([], l)
  | o :: os =>
      let '(r, l) := spec_step n o l in let '(rs, l) := spec_run n os l in (r :: rs, l)
  end.

(** ** Refinement *)

Lemma last_n_id {A : Type} n (l : list A) : (length l ≤ n)%nat → last_n n l = l.
Proof. intros Hl. unfold last_n. by replace (length l - n)%nat with 0%nat by lia. Qed.

Lemma remove_front_rep lh p l :
  lh_rep lh (p :: l) → ∃ lh', remove_front lh = Some lh' ∧ lh_rep lh' l.
Proof.
  intros Hr. pose proof (lh_Delete_rep p.1 _ _ Hr) as Hd. pose proof (rep_NoDup_keys _ _ Hr) as Hn.
  csimpl in Hn. apply NoDup_cons in Hn as [Hni _].
  unfold alist_delete in Hd. rewrite filter_cons_False in Hd by naive_solver.
  rewrite list_filter_id in Hd
    by (intros kv Hkv E; apply Hni; rewrite <-E; by apply (list_elem_of_fmap_2 fst)).
  unfold remove_front. pose proof (rep_holds _ _ Hr) as Hh.
  destruct (entryList lh) as [|e es] eqn:El; [by apply Forall2_length in Hh|].
  apply Forall2_cons in Hh as [[Hv Hm] _]. simpl. rewrite Hv. destruct p as [k v]. simpl in *.
  eexists. split; [done|]. unfold lh_Delete in Hd. rewrite Hm in Hd.
  simpl in Hd. rewrite El in Hd. exact Hd.
Qed.

Lemma reuse_front_rep key v lh p l :
  lh_rep lh (p :: l) → key ∉ (p :: l).*1 →
  ∃ lh', reuse_front key v lh = Some lh' ∧ lh_rep lh' (l ++ [(key, v)]).
Proof.
  intros Hr Hk. destruct (remove_front_rep _ _ _ Hr) as (lh1&E&Hr1). unfold remove_front in E.
  unfold reuse_front. pose proof (rep_nodup _ _ Hr) as Hnd. pose proof (rep_holds _ _ Hr) as Hh.
  destruct (entryList lh) as [|e es] eqn:El; [done|]. simpl in *.
  apply Forall2_cons in Hh as [[Hv Hm] _]. rewrite Hv in *. destruct p as [k w]. simpl in *.
  injection E as <-. eexists. split; [done|]. destruct Hr1 as [Hn1 Hh1 Hm1]. simpl in *.
  assert (e ∉ list_Remove e (e :: es)) as Hne by (intros [? _]%list_elem_of_filter; congruence).
  assert (∀ e', e' ∈ list_Remove e (e :: es) → e' ≠ e) as Hne' by (by intros e' [? _]%list_elem_of_filter).
  split; simpl.
  - apply NoDup_app. split_and!; [done| |apply NoDup_singleton].
    intros e' He' ->%list_elem_of_singleton. done.
  - apply Forall2_app; [|constructor; [|done]].
    + eapply Forall2_impl_in; [exact Hh1|]. intros e' p He' Hp [Hv' Hm']. split; simpl.
      * rewrite lookup_insert_ne; [done|]. intros ->. by apply (Hne' e').
      * simpl in Hm'. rewrite lookup_insert_ne; [done|]. intros ->. apply Hk. right.
        by apply (list_elem_of_fmap_2 fst).
    + split; apply lookup_insert_eq.
  - intros k' e' Hk'. apply lookup_insert_Some in Hk' as [[<- <-]|[Hkne Hk']].
    + split; [apply elem_of_app; right; left|]. exists v. by rewrite lookup_insert_eq.
    + destruct (Hm1 _ _ Hk') as [Hin [v' Hv']]. split; [apply elem_of_app; by left|].
      exists v'. rewrite lookup_insert_ne; [done|]. intros ->. by apply (Hne' e').
Qed.

Lemma move_to_back_rep key e v lh l :
  lh_rep lh l → entryMap lh !! key = Some e → elemVal lh !! e = Some (key, v) →
  lh_rep (move_to_back e lh) (alist_put key v l).
Proof.
  intros Hr Hm Hv. pose proof (lh_Put_rep key v _ _ Hr) as Hp. unfold lh_Put in Hp.
  rewrite Hm in Hp. by rewrite insert_id in Hp.
Qed.

Lemma resize_loop_rep fuel size lh l :
  lh_rep lh l → 0 ≤ size → (length l ≤ fuel)%nat →
  ∃ lh', resize_loop fuel size lh = Some lh' ∧ lh_rep lh' (last_n (Z.to_nat size) l).
Proof.
  revert lh l. induction fuel as [|fuel IH]; intros lh l Hr Hs Hf;
    pose proof (Forall2_length _ _ _ (rep_holds _ _ Hr)) as Hlen; cbn [resize_loop].
  - destruct l; [|simpl in *; lia]. destruct (decide _); [simpl in *; lia|]. by exists lh.
  - destruct (decide _) as [Hlt|Hge].
    + destruct l as [|p l]; [simpl in *; lia|].
      destruct (remove_front_rep _ _ _ Hr) as (lh'&->&Hr').
      destruct (IH lh' l Hr' Hs) as (lh''&->&Hr''); [simpl in *; lia|]. exists lh''. split; [done|].
      unfold last_n in *. cbn [length] in *.
      replace (S (length l) - Z.to_nat size)%nat with (S (length l - Z.to_nat size)) by lia.
      done.
    + exists lh. split; [done|]. by rewrite last_n_id by lia.
Qed.

(** The cache represents the list, whose length is within the size. *)
Definition lru_rep (n : nat) (c : LRU) (l : list (K * V)) : Prop :=
  lh_rep (lru_entries c) l ∧ (length l ≤ n)%nat ∧ Z.to_nat (lru_Size (lru_init c)) = n.

Lemma lru_ready n c l :
  lru_rep n c l →
  ∃ c', lru_resize (lru_init c) = Some c' ∧ lh_rep (lru_entries c') l ∧
    lru_Size c' = lru_Size (lru_init c) ∧ 0 < lru_Size c' ∧ lru_rep n c' l.
Proof.
  intros (Hr&Hl&Hn). assert (0 < lru_Size (lru_init c)) as Hpos by (simpl; case_decide; lia).
  unfold lru_resize. simpl lru_entries.
  destruct (resize_loop_rep (length (entryList (lru_entries c))) (lru_Size (lru_init c)) _ _ Hr)
    as (lh'&->&Hr'); [lia|by rewrite (Forall2_length _ _ _ (rep_holds _ _ Hr))|].
  rewrite Hn, last_n_id in Hr' by done.
  eexists. split; [done|]. split_and!; [done|done|done|]. split_and!; [done|done|].
  rewrite <-Hn. cbn [lru_Size lru_init lru_entries] in Hpos |- *.
  destruct (decide (lru_Size c ≤ 0)); [done|]. by rewrite decide_False by lia.
Qed.

Lemma alist_delete_notin (k : K) (l : list (K * V)) : k ∉ l.*1 → alist_delete k l = l.
Proof.
  intros Hk. apply list_filter_id. intros kv Hkv E. apply Hk. rewrite <-E.
  by apply (list_elem_of_fmap_2 fst).
Qed.

Lemma alist_delete_length (k : K) (l : list (K * V)) : (length (alist_delete k l) ≤ length l)%nat.
Proof. apply length_filter. Qed.

Lemma alist_delete_length_in (k : K) (l : list (K * V)) :
  k ∈ l.*1 → (length (alist_delete k l) < length l)%nat.
Proof.
  intros Hk. apply list_elem_of_fmap in Hk as (kv&->&Hkv).
  eapply length_filter_lt; [exact Hkv|]. tauto.
Qed.

Lemma map_key_spec lh (l : list (K * V)) k : lh_rep lh l → is_Some (entryMap lh !! k) ↔ k ∈ l.*1.
Proof.
  intros Hr. split.
  - intros [e He]. destruct (rep_map _ _ Hr _ _ He) as [Hin [v Hv]].
    destruct (rep_elem _ _ _ Hr Hin) as (p&[Hp _]&Hpl). simplify_eq.
    by apply (list_elem_of_fmap_2 fst) in Hpl.
  - intros Hk. apply list_elem_of_fmap in Hk as (p&->&Hp).
    destruct (rep_pair _ _ _ Hr Hp) as (e&_&[_ Hm]). by exists e.
Qed.

Lemma lru_step_spec n o c l :
  lru_rep n c l →
  ∃ c', lru_step o c = Some ((spec_step n o l).1, c') ∧ lru_rep n c' (spec_step n o l).2.
Proof.
  intros Hc. destruct (lru_ready n c l Hc) as (c1&E1&Hr1&Hs1&Hpos&_&Hl&Hn).
  assert (∀ lh l', lh_rep lh l' → (length l' ≤ n)%nat → lru_rep n (mkLRU lh (lru_Size c1)) l') as Hmk.
  { intros lh l' ??. by split_and!. }
  assert (Z.to_nat (lru_Size c1) = n) as Hn1.
  { rewrite <-Hn. unfold lru_init. simpl. by rewrite decide_False by lia. }
  destruct o as [k v|k|k|]; cbn [lru_step spec_step].
  - unfold lru_put. rewrite E1. pose proof (map_key_spec _ _ k Hr1) as Hkey.
    pose proof (Forall2_length _ _ _ (rep_holds _ _ Hr1)) as Hlen.
    destruct (entryMap (lru_entries c1) !! k) as [e|] eqn:Ek.
    + assert (length (alist_put k v l) ≤ n)%nat as Hle.
      { unfold alist_put. rewrite length_app. simpl.
        pose proof (alist_delete_length_in k l (proj1 Hkey ltac:(by eexists))). lia. }
      eexists. split; [done|]. rewrite last_n_id by done. apply Hmk; [by apply lh_Put_rep|done].
    + assert (k ∉ l.*1) as Hni by (intros Hin; apply Hkey in Hin as [? ?]; done).
      simpl. unfold alist_put. rewrite alist_delete_notin by done.
      destruct (decide (lru_Size c1 ≤ _)) as [Hfull|Hroom].
      * destruct l as [|p l]; [simpl in *; lia|].
        destruct (reuse_front_rep k v _ _ _ Hr1 Hni) as (lh'&->&Hr'). eexists. split; [done|].
        unfold last_n. rewrite length_app. cbn [length] in *.
        replace (S (length l) + 1 - n)%nat with 1%nat by lia. simpl.
        rewrite drop_0. apply Hmk; [done|]. rewrite length_app. simpl. lia.
      * eexists. split; [done|]. rewrite last_n_id by (rewrite length_app; simpl; lia).
        pose proof (lh_Put_rep k v _ _ Hr1) as Hp. unfold alist_put in Hp.
        rewrite alist_delete_notin in Hp by done. apply Hmk; [done|]. rewrite length_app. simpl. lia.
  - unfold lru_get. rewrite E1. pose proof (lh_Get_rep k _ _ Hr1) as Hg. unfold lh_Get in Hg.
    pose proof (map_key_spec _ _ k Hr1) as Hkey.
    destruct (entryMap (lru_entries c1) !! k) as [e|] eqn:Ek.
    + destruct (rep_map _ _ Hr1 _ _ Ek) as [_ [v Hv]]. rewrite Hv in Hg |- *. simpl in Hg.
      rewrite <-Hg. eexists. split; [done|]. apply Hmk; [by apply move_to_back_rep|].
      unfold alist_put. cbn [snd]. rewrite length_app. simpl.
      pose proof (alist_delete_length_in k l (proj1 Hkey ltac:(by eexists))). lia.
    + rewrite <-Hg. exists c1. split; [done|]. destruct c1. by apply Hmk.
  - unfold lru_evict. rewrite E1. eexists. split; [done|]. simpl.
    apply Hmk; [by apply lh_Delete_rep|]. pose proof (alist_delete_length k l). lia.
  - eexists. split; [done|]. simpl. unfold lru_flush. rewrite <-Hs1.
    apply Hmk; [apply lh_New_rep|simpl; lia].
Qed.

Lemma lru_run_spec n os c l :
  lru_rep n c l →
  ∃ c', lru_run os c = Some ((spec_run n os l).1, c') ∧ lru_rep n c' (spec_run n os l).2.
Proof.
  revert c l. induction os as [|o os IH]; intros c l Hc; [by exists c|]. simpl.
  destruct (lru_step_spec n o c l Hc) as (c1&->&Hc1). destruct (spec_step n o l) as [r l1].
  simpl in *. destruct (IH _ _ Hc1) as (c2&->&Hc2). destruct (spec_run n os l1) as [rs l2].
  by exists c2.
Qed.

Lemma lru_rep_New size : lru_rep (Z.to_nat (1 `max` size)) (lru_New size) [].
Proof.
  split_and!; [apply lh_New_rep|simpl; lia|]. simpl. destruct (decide (size ≤ 0)); f_equal; lia.
Qed.

(** ** How long an entry survives *)

(** The keys of the calls that touch the order of the entries. *)
Definition call_key (o : lru_call) : option K :=
  match o with LPut k _ | LGet k => Some k | _ => None end.

(** The calls leave the key alone: it is neither evicted, flushed nor written. *)
Definition leaves (k : K) (o : lru_call) : Prop :=
  match o with LPut k' _ => k' ≠ k | LGet _ => True | LEvict k' => k' ≠ k | LFlush => False end.

(** The other keys that are used. *)
Definition used_keys (k : K) (os : list lru_call) : gset K :=
  list_to_set (omap call_key os) ∖ {[k]}.

(** The entries more recent than that of [k] are of the keys [ks]. *)
Definition recent (k : K) (v : V) (ks : gset K) (l : list (K * V)) : Prop :=
  NoDup l.*1 ∧ ∃ l1 l2, l = l1 ++ (k, v) :: l2 ∧ (∀ k', k' ∈ l2.*1 → k' ∈ ks).

Lemma alist_delete_NoDup (k : K) (l : list (K * V)) : NoDup l.*1 → NoDup (alist_delete k l).*1.
Proof. intros Hn. eapply sublist_NoDup; [exact Hn|]. apply fmap_sublist, sublist_filter. Qed.

Lemma alist_delete_elem (k k' : K) (l : list (K * V)) :
  k' ∈ (alist_delete k l).*1 ↔ k' ∈ l.*1 ∧ k' ≠ k.
Proof.
  unfold alist_delete. rewrite !list_elem_of_fmap. setoid_rewrite list_elem_of_filter. naive_solver.
Qed.

Lemma alist_put_NoDup (k : K) (v : V) l : NoDup l.*1 → NoDup (alist_put k v l).*1.
Proof.
  intros Hn. unfold alist_put. rewrite fmap_app. apply NoDup_app. split_and!.
  - by apply alist_delete_NoDup.
  - intros x [_ Hx]%alist_delete_elem ->%list_elem_of_singleton. done.
  - apply NoDup_singleton.
Qed.

Lemma last_n_app {A : Type} n (l1 l2 : list A) :
  (length l2 ≤ n)%nat → last_n n (l1 ++ l2) = last_n (n - length l2) l1 ++ l2.
Proof.
  intros Hl. unfold last_n. rewrite length_app, drop_app_le by lia. do 2 f_equal. lia.
Qed.

Lemma recent_length (k : K) (v : V) (ks : gset K) l1 l2 :
  NoDup (l1 ++ (k, v) :: l2).*1 → (∀ k', k' ∈ l2.*1 → k' ∈ ks) → k ∉ ks → (length l2 ≤ size ks)%nat.
Proof.
  intros Hn Hks _. rewrite fmap_app in Hn. apply NoDup_app in Hn as (_&_&[_ Hn]%NoDup_cons).
  rewrite <-(length_fmap fst), <-(size_list_to_set (C := gset K)) by exact Hn.
  apply subseteq_size. intros k' Hk'. apply Hks. by apply elem_of_list_to_set in Hk'.
Qed.

(** [k] stays among the last [n] when other entries are cut away. *)
Lemma recent_last_n n (k : K) (v : V) (ks : gset K) l :
  recent k v ks l → k ∉ ks → (size ks < n)%nat → recent k v ks (last_n n l).
Proof.
  intros (Hn&l1&l2&->&Hks) Hk Hs. pose proof (recent_length _ _ _ _ _ Hn Hks Hk) as Hl.
  rewrite last_n_app by (simpl; lia). split.
  - eapply sublist_NoDup; [exact Hn|]. rewrite !fmap_app. apply sublist_app; [|done].
    apply fmap_sublist, sublist_drop.
  - eauto.
Qed.

Lemma recent_put (k : K) (v : V) (ks : gset K) (k' : K) (v' : V) l :
  recent k v ks l → k' ≠ k → recent k v ({[k']} ∪ ks) (alist_put k' v' l).
Proof.
  intros (Hn&l1&l2&->&Hks) Hk. split; [by apply alist_put_NoDup|].
  unfold alist_put, alist_delete. rewrite filter_app, filter_cons_True by naive_solver.
  exists (alist_delete k' l1), (alist_delete k' l2 ++ [(k', v')]). split; [by rewrite <-app_assoc|].
  intros k''. rewrite fmap_app. intros [[Hin _]%alist_delete_elem|Hin]%elem_of_app; [set_solver|].
  apply list_elem_of_singleton in Hin as ->. set_solver.
Qed.
Lemma recent_evict (k : K) (v : V) (ks : gset K) (k' : K) l :
  recent k v ks l → k' ≠ k → recent k v ks (alist_delete k' l).
Proof.
  intros (Hn&l1&l2&->&Hks) Hk. split; [by apply alist_delete_NoDup|].
  unfold alist_delete. rewrite filter_app, filter_cons_True by naive_solver.
  exists (alist_delete k' l1), (alist_delete k' l2). split; [done|].
  intros k'' [Hin _]%alist_delete_elem. by apply Hks.
Qed.

Lemma recent_back (k : K) (v v' : V) (ks : gset K) l : NoDup l.*1 → recent k v ks (alist_put k v l).
Proof.
  intros Hn. split; [by apply alist_put_NoDup|]. exists (alist_delete k l), []. split; [done|].
  by intros k' Hk'%elem_of_nil.
Qed.

Lemma recent_get (k : K) (v : V) (ks : gset K) l : recent k v ks l → alist_get k l = Some v.
Proof.
  intros (Hn&l1&l2&->&_). apply alist_get_Some; [done|]. apply elem_of_app. right. by left.
Qed.

Lemma recent_step n o (k : K) (v : V) (ks : gset K) l :
  recent k v ks l → k ∉ ks → (size (used_keys k [o] ∪ ks) < n)%nat → leaves k o →
  recent k v (used_keys k [o] ∪ ks) (spec_step n o l).2.
Proof.
  intros Hr Hk Hs Ho. unfold used_keys in *.
  assert (k ∉ (list_to_set (omap call_key [o]) ∖ {[k]} : gset K) ∪ ks) as Hk' by set_solver.
  destruct o as [k' v'|k'|k'|]; simpl in *; [| | |done].
  - apply recent_last_n; [|done..]. replace (({[k']} ∪ ∅) ∖ {[k]} : gset K) with ({[k']} : gset K) by set_solver.
    by apply recent_put.
  - destruct (decide (k' = k)) as [->|Hne].
    + rewrite (recent_get _ _ _ _ Hr). apply recent_back; [done|apply Hr].
    + replace (({[k']} ∪ ∅) ∖ {[k]} : gset K) with ({[k']} : gset K) by set_solver.
      destruct (alist_get k' l) as [v'|]; [by apply recent_put|].
      destruct Hr as (Hn&l1&l2&->&Hks). split; [done|]. exists l1, l2. split; [done|]. set_solver.
  - replace ((∅ ∖ {[k]} : gset K) ∪ ks) with ks by set_solver. by apply recent_evict.
Qed.

Lemma recent_run n os (k : K) (v : V) (ks : gset K) l :
  recent k v ks l → k ∉ ks → (size (used_keys k os ∪ ks) < n)%nat → Forall (leaves k) os →
  recent k v (used_keys k os ∪ ks) (spec_run n os l).2.
Proof.
  revert ks l. induction os as [|o os IH]; intros ks l Hr Hk Hs Hos; simpl.
  - by replace (used_keys k [] ∪ ks) with ks by (unfold used_keys; set_solver).
  - apply Forall_cons in Hos as [Ho Hos].
    assert (used_keys k (o :: os) ∪ ks = used_keys k os ∪ (used_keys k [o] ∪ ks)) as E.
    { unfold used_keys. simpl. destruct (call_key o); set_solver. }
    rewrite E in *.
    assert (recent k v (used_keys k [o] ∪ ks) (spec_step n o l).2) as Hr1.
    { apply recent_step; [done|done| |done]. eapply Nat.le_lt_trans; [|exact Hs].
      apply subseteq_size. set_solver. }
    destruct (spec_step n o l) as [r l1]. simpl in Hr1.
    specialize (IH _ _ Hr1 ltac:(unfold used_keys; set_solver) Hs Hos).
    by destruct (spec_run n os l1).
Qed.

Lemma lru_run_app os os' c rs c' rs' c'' :
  lru_run os c = Some (rs, c') → lru_run os' c' = Some (rs', c'') →
  lru_run (os ++ os') c = Some (rs ++ rs', c'').
Proof.
  revert c rs. induction os as [|o os IH]; intros c rs; simpl; [by intros [= <- <-]|].
  destruct (lru_step o c) as [[r c1]|]; [|done]. destruct (lru_run os c1) as [[rs1 c2]|] eqn:E; [|done].
  intros [= <- <-] E'. by rewrite (IH _ _ E E').
Qed.

(** ** The theorems *)

(** C16: every sequence of calls on a new cache runs without a nil dereference and
    answers as the bounded list of entries does; the entries it ends with are those of
    the list, in its order, never more than the size (which is at least one). *)
Theorem lru_refines_spec (size : Z) (os : list lru_call) :
  ∃ c, lru_run os (lru_New size) = Some ((spec_run (Z.to_nat (1 `max` size)) os []).1, c) ∧
    lh_rep (lru_entries c) (spec_run (Z.to_nat (1 `max` size)) os []).2 ∧
    lh_Len (lru_entries c) ≤ 1 `max` size.
Proof.
  destruct (lru_run_spec _ os _ _ (lru_rep_New size)) as (c&Hrun&Hr&Hl&_).
  exists c. split; [done|]. split; [done|]. rewrite (lh_Len_rep _ _ Hr). lia.
Qed.

(** A value stays available for as long as fewer other keys than the cache holds
    have been written or asked for since it was put, and nobody evicted it: whatever the
    calls before, the next [Get] of its key answers it. *)
Theorem lru_get_recent (size : Z) (before os : list lru_call) (k : K) (v : V) :
  Forall (leaves k) os → Z.of_nat (stdpp.base.size (used_keys k os)) < 1 `max` size →
  ∃ rs c, lru_run (before ++ LPut k v :: os ++ [LGet k]) (lru_New size) = Some (rs, c) ∧
    last rs = Some (Some v).
Proof.
  intros Hos Hs. set (n := Z.to_nat (1 `max` size)).
  destruct (lru_run_spec n before _ _ (lru_rep_New size)) as (c1&E1&Hc1).
  destruct (lru_step_spec n (LPut k v) _ _ Hc1) as (c2&E2&Hc2). simpl in E2, Hc2.
  destruct (lru_run_spec n os _ _ Hc2) as (c3&E3&Hc3).
  destruct (lru_step_spec n (LGet k) _ _ Hc3) as (c4&E4&_).
  assert (recent k v ∅ (last_n n (alist_put k v (spec_run n before []).2))) as H0.
  { apply recent_last_n; [|set_solver|rewrite size_empty; unfold n; lia]. apply recent_back; [done|].
    destruct Hc1 as [Hr _]. by eapply rep_NoDup_keys. }
  apply (recent_run n os) in H0; [|set_solver|rewrite union_empty_r_L; unfold n; lia|done].
  apply recent_get in H0. simpl in E4. rewrite H0 in E4.
  assert (lru_run [LGet k] c3 = Some ([Some v], c4)) as E5 by (simpl; simpl in E4; by rewrite E4).
  assert (lru_run [LPut k v] c1 = Some ([None], c2)) as E6 by (simpl; by rewrite E2).
  pose proof (lru_run_app _ _ _ _ _ _ _ E6 (lru_run_app _ _ _ _ _ _ _ E3 E5)) as E7.
  eexists _, c4. split; [exact (lru_run_app _ _ _ _ _ _ _ E1 E7)|]. by rewrite !app_assoc, last_snoc.
Qed.
End lru.

(** Keys 1 and 2 are used in a cache of three after key 7 is put. *)
Lemma lru_get_recent_witness :
  ∃ rs c, lru_run ([LPut 5 0; LPut 6 0] ++ LPut 7 42 :: [LPut 1 0; LGet 2; LGet 7; LPut 1 3] ++ [LGet 7])
            (lru_New 3) = Some (rs, c) ∧ last rs = Some (Some 42).
Proof.
  apply (lru_get_recent 3 [LPut 5 0; LPut 6 0] [LPut 1 0; LGet 2; LGet 7; LPut 1 3] 7 42).
  - repeat constructor; done.
  - by vm_compute.
Defined.

(** ** The cache that tells its values when they leave *)

Section evictable.
Context {K V : Type} `{Countable K}.
(** [Evictable]: the key of a value. *)
Context (Key : V → K).

Record EvictableLRU := mkEvictableLRU { ev_entries : linkedHashmap K V; ev_Size : Z }.

Definition ev_init (c : EvictableLRU) : EvictableLRU :=
  mkEvictableLRU (ev_entries c) (if decide (ev_Size c ≤ 0) then 1 else ev_Size c).

(** The value at the front leaves and is told so; the results carry the values told,
    in order. *)
Definition evict_front (lh : linkedHashmap K V) : option (V * linkedHashmap K V) :=
  match head (entryList lh) with
  | None => None
  | Some e =>
      match elemVal lh !! e with
      | None => None
      | Some (_, v) =>
          Some (v, mkLinkedHashmap (delete (Key v) (entryMap lh)) (list_Remove e (entryList lh))
                     (elemVal lh))
      end
  end.

Fixpoint ev_resize_loop (fuel : nat) (size : Z) (lh : linkedHashmap K V)
    : option (list V * linkedHashmap K V) :=
  if decide (size < Z.of_nat (length (entryList lh))) then
    match fuel with
    | O => None
    | S fuel =>
        match evict_front lh with
        | Some (v, lh) =>
            match ev_resize_loop fuel size lh with
            | Some (vs, lh) => Some (v :: vs, lh)
            | None => None
            end
        | None => None
        end
    end
  else Some ([], lh).

Definition ev_resize (c : EvictableLRU) : option (list V * EvictableLRU) :=
  match ev_resize_loop (length (entryList (ev_entries c))) (ev_Size c) (ev_entries c) with
  | Some (vs, lh) => Some (vs, mkEvictableLRU lh (ev_Size c))
  | None => None
  end.

(** The element at the front is given the new value, at the back. *)
Definition ev_reuse_front (value : V) (lh : linkedHashmap K V) : option (V * linkedHashmap K V) :=
  match head (entryList lh) with
  | None => None
  | Some e =>
      match elemVal lh !! e with
      | None => None
      | Some (_, v) =>
          Some (v, mkLinkedHashmap (<[Key value := e]> (delete (Key v) (entryMap lh)))
                     (list_Remove e (entryList lh) ++ [e]) (<[e := (Key value, value)]> (elemVal lh)))
      end
  end.

Definition ev_deduplicate (value : V) (c : EvictableLRU) : option (V * list V * EvictableLRU) :=
  match ev_resize (ev_init c) with
  | None => None
  | Some (vs, c) =>
      let lh := ev_entries c in
      match entryMap lh !! Key value with
      | None =>
          if decide (ev_Size c ≤ Z.of_nat (length (entryList lh))) then
            match ev_reuse_front value lh with
            | Some (v, lh) => Some (value, vs ++ [v], mkEvictableLRU lh (ev_Size c))
            | None => None
            end
          else Some (value, vs, mkEvictableLRU (lh_Put (Key value) value lh) (ev_Size c))
      | Some e =>
          match elemVal lh !! e with
          | Some (_, v) => Some (v, vs, mkEvictableLRU (move_to_back e lh) (ev_Size c))
          | None => None
          end
      end
  end.

Definition ev_flush (c : EvictableLRU) : option (list V * EvictableLRU) :=
  let c := ev_init c in
  match ev_resize (mkEvictableLRU (ev_entries c) 0) with
  | Some (vs, c') => Some (vs, mkEvictableLRU (ev_entries c') (ev_Size c))
  | None => None
  end.
(** The cache holds the values of the list, under their keys. *)
Definition keyed (v : V) : K * V := (Key v, v).
Definition ev_rep (c : EvictableLRU) (l : list V) : Prop := lh_rep (ev_entries c) (keyed <$> l).

Lemma evict_front_rep lh v l :
  lh_rep lh (keyed <$> v :: l) → ∃ lh', evict_front lh = Some (v, lh') ∧ lh_rep lh' (keyed <$> l).
Proof.
  intros Hr. destruct (remove_front_rep _ _ _ Hr) as (lh'&E&Hr'). pose proof (rep_holds _ _ Hr) as Hh.
  unfold remove_front in E. unfold evict_front. destruct (entryList lh) as [|e es]; [done|].
  apply Forall2_cons in Hh as [[Hv _] _]. simpl in *. rewrite Hv in *. injection E as <-. by eexists.
Qed.

Lemma ev_resize_loop_rep fuel size lh l :
  lh_rep lh (keyed <$> l) → 0 ≤ size → (length l ≤ fuel)%nat →
  ∃ lh', ev_resize_loop fuel size lh = Some (take (length l - Z.to_nat size) l, lh') ∧
    lh_rep lh' (keyed <$> last_n (Z.to_nat size) l).
Proof.
  revert lh l. induction fuel as [|fuel IH]; intros lh l Hr Hs Hf;
    pose proof (Forall2_length _ _ _ (rep_holds _ _ Hr)) as Hlen; rewrite length_fmap in Hlen;
    cbn [ev_resize_loop].
  - destruct l; [|simpl in *; lia]. destruct (decide _); [simpl in *; lia|]. by exists lh.
  - destruct (decide _) as [Hlt|Hge].
    + destruct l as [|v l]; [simpl in *; lia|].
      destruct (evict_front_rep _ _ _ Hr) as (lh'&->&Hr').
      destruct (IH lh' l Hr' Hs) as (lh''&->&Hr''); [simpl in *; lia|].
      exists lh''. unfold last_n in *. cbn [length] in *.
      by replace (S (length l) - Z.to_nat size)%nat with (S (length l - Z.to_nat size)) by lia.
    + exists lh. rewrite last_n_id by lia.
      by replace (length l - Z.to_nat size)%nat with 0%nat by lia.
Qed.

(** Flushing tells every value held, oldest first, and empties the cache. *)
Lemma ev_flush_rep c l :
  ev_rep c l → ∃ c', ev_flush c = Some (l, c') ∧ ev_rep c' [] ∧ ev_Size c' = ev_Size (ev_init c).
Proof.
  intros Hr. unfold ev_flush, ev_resize. cbn [ev_entries ev_Size].
  destruct (ev_resize_loop_rep (length (entryList (ev_entries c))) 0 (ev_entries c) l Hr)
    as (lh'&E&Hr'); [lia|by rewrite (Forall2_length _ _ _ (rep_holds _ _ Hr)), length_fmap|].
  unfold ev_init. cbn [ev_entries ev_Size] in *. rewrite E, Nat.sub_0_r, firstn_all.
  eexists. split; [done|]. split; [|done]. unfold ev_rep. simpl. unfold last_n in Hr'.
  by rewrite Nat.sub_0_r, drop_all in Hr'.
Qed.
Inductive ev_call := EDeduplicate (value : V) | EFlush.

(** The result of the call, if it has one, and the values told. *)
Definition ev_step (o : ev_call) (c : EvictableLRU) : option (option V * list V * EvictableLRU) :=
  match o with
  | EDeduplicate v =>
      match ev_deduplicate v c with Some (r, vs, c) => Some (Some r, vs, c) | None => None end
  | EFlush => match ev_flush c with Some (vs, c) => Some (None, vs, c) | None => None end
  end.

Definition ev_spec (n : nat) (o : ev_call) (l : list V) : option V * list V * list V :=
  match o with
  | EDeduplicate v =>
      match list_find (λ w, Key w = Key v) l with
      | Some (_, w) => (Some w, [], filter (λ w, Key w ≠ Key v) l ++ [w])
      | None =>
          if decide (n ≤ length l)%nat then (Some v, take 1 l, drop 1 l ++ [v])
          else (Some v, [], l ++ [v])
      end
  | EFlush => (None, l, [])
  end.

Definition ev_ok (n : nat) (c : EvictableLRU) (l : list V) : Prop :=
  ev_rep c l ∧ (length l ≤ n)%nat ∧ Z.to_nat (ev_Size (ev_init c)) = n.

Lemma ev_ready n c l :
  ev_ok n c l →
  ∃ c', ev_resize (ev_init c) = Some ([], c') ∧ ev_ok n c' l ∧
    ev_Size c' = ev_Size (ev_init c) ∧ Z.of_nat n = ev_Size c' ∧ (0 < n)%nat.
Proof.
  intros (Hr&Hl&Hn). assert (0 < ev_Size (ev_init c)) as Hpos by (simpl; case_decide; lia).
  unfold ev_resize. simpl ev_entries.
  destruct (ev_resize_loop_rep (length (entryList (ev_entries c))) (ev_Size (ev_init c)) _ _ Hr)
    as (lh'&->&Hr');
    [lia|by rewrite (Forall2_length _ _ _ (rep_holds _ _ Hr)), length_fmap|].
  rewrite Hn, last_n_id in Hr' by done. rewrite Hn.
  replace (length l - n)%nat with 0%nat by lia. eexists. split; [done|]. split_and!; [|done| |lia].
  - split_and!; [done|done|]. rewrite <-Hn. cbn [ev_Size ev_init ev_entries] in Hpos |- *.
    destruct (decide (ev_Size c ≤ 0)); [done|]. by rewrite decide_False by lia.
  - simpl. simpl in Hn, Hpos. lia.
Qed.

Lemma keyed_find v l :
  alist_get (Key v) (keyed <$> l) = snd <$> list_find (λ w, Key w = Key v) l.
Proof.
  induction l as [|w l IH]; [done|]. rewrite fmap_cons. cbn [keyed alist_get list_find].
  destruct (decide (Key w = Key v)); [done|]. rewrite IH. by destruct (list_find _ l) as [[??]|].
Qed.

Lemma keyed_delete k l : alist_delete k (keyed <$> l) = keyed <$> filter (λ w, Key w ≠ k) l.
Proof.
  unfold alist_delete. induction l as [|w l IH]; [done|]. rewrite fmap_cons, !filter_cons.
  cbn [fst keyed]. destruct (decide (Key w ≠ k)); [rewrite fmap_cons|]; by rewrite IH.
Qed.

Lemma ev_step_spec n o c l :
  ev_ok n c l →
  ∃ c', ev_step o c = Some ((ev_spec n o l).1, c') ∧ ev_ok n c' (ev_spec n o l).2.
Proof.
  intros Hc. destruct o as [v|]; cbn [ev_step].
  2:{ destruct Hc as (Hr&_&Hn). destruct (ev_flush_rep _ _ Hr) as (c'&->&Hr'&Hs). exists c'.
    split; [done|]. split_and!; [done|simpl; lia|]. unfold ev_init at 1.
    cbn [ev_Size]. rewrite Hs, <-Hn. unfold ev_init. cbn [ev_Size].
    destruct (decide (ev_Size c ≤ 0)); [done|]. by rewrite decide_False by lia. }
  destruct (ev_ready n c l Hc) as (c1&E1&(Hr1&Hl&Hn)&_&Hn1&Hn0). unfold ev_rep in Hr1.
  assert (∀ lh l', lh_rep lh (keyed <$> l') → (length l' ≤ n)%nat →
    ev_ok n (mkEvictableLRU lh (ev_Size c1)) l') as Hmk by (intros; by split_and!).
  unfold ev_deduplicate. rewrite E1. cbn [ev_spec].
  pose proof (map_key_spec _ _ (Key v) Hr1) as Hkey.
  pose proof (Forall2_length _ _ _ (rep_holds _ _ Hr1)) as Hlen. rewrite length_fmap in Hlen.
  pose proof (keyed_find v l) as Hfind.
  destruct (entryMap (ev_entries c1) !! Key v) as [e|] eqn:Ek.
  - destruct (rep_map _ _ Hr1 _ _ Ek) as [_ [w Hw]]. rewrite Hw.
    pose proof (lh_Get_rep (Key v) _ _ Hr1) as Hg. unfold lh_Get in Hg. rewrite Ek, Hw, Hfind in Hg.
    destruct (list_find _ l) as [[i w']|] eqn:Ef; [|done]. simpl in Hg. simplify_eq. rename w' into w.
    apply list_find_Some in Ef as (Hi&Ew&_). eexists. split; [done|].
    assert (alist_put (Key v) w (keyed <$> l) = keyed <$> (filter (λ w, Key w ≠ Key v) l ++ [w])) as E.
    { unfold alist_put. rewrite keyed_delete. symmetry. etrans; [apply fmap_app|].
      simpl. unfold keyed at 2. by rewrite Ew. }
    cbn [fst snd]. apply Hmk; [rewrite <-E; by apply move_to_back_rep|].
    apply list_elem_of_lookup_2 in Hi.
    pose proof (length_filter_lt (λ w, Key w ≠ Key v) l w Hi ltac:(tauto)).
    rewrite length_app. cbn [length]. lia.
  - assert (Key v ∉ (keyed <$> l).*1) as Hni by (intros Hin; apply Hkey in Hin as [? ?]; done).
    apply alist_get_None in Hni as Hnf. rewrite Hnf in Hfind.
    destruct (list_find _ l); [done|]. destruct (decide (ev_Size c1 ≤ _)) as [Hfull|Hroom].
    + rewrite decide_True by lia. destruct l as [|w l]; [simpl in *; lia|].
      destruct (reuse_front_rep (Key v) v _ _ _ Hr1 Hni) as (lh'&E&Hr').
      unfold reuse_front in E. unfold ev_reuse_front.
      pose proof (rep_holds _ _ Hr1) as Hh. destruct (entryList (ev_entries c1)) as [|e es]; [done|].
      apply Forall2_cons in Hh as [[Hv _] _]. simpl in E, Hv |- *. rewrite Hv in *. injection E as <-.
      eexists. split; [done|]. cbn [fst snd]. cbn [drop]. rewrite ?drop_0.
      apply Hmk; [by rewrite fmap_app|]. rewrite length_app. cbn [length] in *. lia.
    + rewrite decide_False by lia. eexists. split; [done|].
      pose proof (lh_Put_rep (Key v) v _ _ Hr1) as Hp. unfold alist_put in Hp.
      rewrite alist_delete_notin in Hp by done.
      cbn [fst snd]. apply Hmk; [by rewrite fmap_app|]. rewrite length_app. cbn [length]. lia.
Qed.
End evictable.

