(* ===== verification/CodecTypes.v ===== *)
(** Go types and values as the reflective codec sees them
    ([codec/reflectcodec/struct_fielder.go], [codec/linearcodec],
    [codec/hierarchycodec]).

    [gotype] and [govalue] are what [reflect.Type] and [reflect.Value] tell the
    codec.  A struct type does not contain itself except through an interface, as
    holds of every type the node serialises.  [structFielder] selects the fields of
    a struct; a [TypeCodec] gives the types that implement interfaces a prefix;
    [linearCodec] and [hierarchyCodec] are its two implementations. *)

From Stdlib Require Import Strings.Byte Strings.String.
From S2P Require Import Prelude Ids Packer.

(** ** Types *)

Inductive width := W8 | W16 | W32 | W64.

Definition width_bytes (w : width) : nat :=
  match w with W8 => 1 | W16 => 2 | W32 => 4 | W64 => 8 end.
Definition bits (w : width) : Z := 8 * Z.of_nat (width_bytes w).

(** What [reflect.StructField] holds beside the type. *)
Record fieldInfo := mkFieldInfo {
  f_Name : string;
  f_IsExported : bool;
  f_Tag : list (string * string);
}.

(** An interface type is a name; [TOther] stands for the kinds the codec does not
    know (maps, channels, functions, floats). *)
Inductive gotype :=
| TUint (w : width)
| TInt (w : width)
| TString
| TBool
| TUintptr
| TPtr (elem : gotype)
| TInterface (i : positive)
| TSlice (elem : gotype)
| TArray (n : nat) (elem : gotype)
| TStruct (name : string) (fields : list (fieldInfo * gotype))
| TOther (name : string).

Section gotype_ind'.
Context (P : gotype → Prop).
Context (HUint : ∀ w, P (TUint w)) (HInt : ∀ w, P (TInt w)) (HString : P TString)
  (HBool : P TBool) (HUintptr : P TUintptr) (HPtr : ∀ t, P t → P (TPtr t))
  (HInterface : ∀ i, P (TInterface i)) (HSlice : ∀ t, P t → P (TSlice t))
  (HArray : ∀ n t, P t → P (TArray n t))
  (HStruct : ∀ name fs, Forall (λ f, P f.2) fs → P (TStruct name fs))
  (HOther : ∀ name, P (TOther name)).

Definition gotype_ind' : ∀ t, P t :=
  fix go t := match t with
  | TUint w => HUint w
  | TInt w => HInt w
  | TString => HString
  | TBool => HBool
  | TUintptr => HUintptr
  | TPtr t => HPtr t (go t)
  | TInterface i => HInterface i
  | TSlice t => HSlice t (go t)
  | TArray n t => HArray n t (go t)
  | TStruct name fs => HStruct name fs
      ((fix go_fields (fs : list (fieldInfo * gotype)) : Forall (λ f, P f.2) fs :=
        match fs with
        | [] => @List.Forall_nil _ (λ f, P f.2)
        | f :: fs => @List.Forall_cons _ (λ f, P f.2) f fs (go f.2) (go_fields fs)
        end) fs)
  | TOther name => HOther name
  end.
End gotype_ind'.

#[export] Instance width_eq_dec : EqDecision width.
Proof. solve_decision. Defined.
#[export] Instance fieldInfo_eq_dec : EqDecision fieldInfo.
Proof. solve_decision. Defined.

(** Types are the keys of a map. *)
Definition gotype_leaf : Type := width + (nat + (positive + (string + (string * bool * list (string * string))))).

Fixpoint gotype_tree (t : gotype) : gen_tree gotype_leaf :=
  match t with
  | TUint w => GenNode 0 [GenLeaf (inl w)]
  | TInt w => GenNode 1 [GenLeaf (inl w)]
  | TString => GenNode 2 []
  | TBool => GenNode 3 []
  | TUintptr => GenNode 4 []
  | TPtr t => GenNode 5 [gotype_tree t]
  | TInterface i => GenNode 6 [GenLeaf (inr (inr (inl i)))]
  | TSlice t => GenNode 7 [gotype_tree t]
  | TArray n t => GenNode 8 [GenLeaf (inr (inl n)); gotype_tree t]
  | TStruct name fs =>
      GenNode 9 (GenLeaf (inr (inr (inr (inl name)))) ::
        ((λ f, GenNode 0 [GenLeaf (inr (inr (inr (inr (f_Name f.1, f_IsExported f.1, f_Tag f.1)))));
                          gotype_tree f.2]) <$> fs))
  | TOther name => GenNode 10 [GenLeaf (inr (inr (inr (inl name))))]
  end.

Fixpoint gotype_untree (t : gen_tree gotype_leaf) : gotype :=
  match t with
  | GenNode 0 [GenLeaf (inl w)] => TUint w
  | GenNode 1 [GenLeaf (inl w)] => TInt w
  | GenNode 2 [] => TString
  | GenNode 3 [] => TBool
  | GenNode 5 [t] => TPtr (gotype_untree t)
  | GenNode 6 [GenLeaf (inr (inr (inl i)))] => TInterface i
  | GenNode 7 [t] => TSlice (gotype_untree t)
  | GenNode 8 [GenLeaf (inr (inl n)); t] => TArray n (gotype_untree t)
  | GenNode 9 (GenLeaf (inr (inr (inr (inl name)))) :: fs) =>
      TStruct name ((λ f, match f with
        | GenNode 0 [GenLeaf (inr (inr (inr (inr (n, e, tag))))); t] =>
            (mkFieldInfo n e tag, gotype_untree t)
        | _ => (mkFieldInfo ""%string false [], TUintptr)
        end) <$> fs)
  | GenNode 10 [GenLeaf (inr (inr (inr (inl name))))] => TOther name
  | _ => TUintptr
  end.

Lemma gotype_untree_tree t : gotype_untree (gotype_tree t) = t.
Proof.
  induction t as [| | | | |t IH| |t IH|n t IH|name fs IH|] using gotype_ind'; simpl; try congruence.
  f_equal. rewrite <-list_fmap_compose. induction IH as [|f fs Hf _ IH]; [done|].
  rewrite fmap_cons, IH. simpl. rewrite Hf. by destruct f as [[] ?].
Qed.

#[export] Instance width_countable : Countable width.
Proof.
  refine (inj_countable' (λ w, match w with W8 => 0%nat | W16 => 1%nat | W32 => 2%nat | W64 => 3%nat end)
    (λ n, match n with 0%nat => W8 | 1%nat => W16 | 2%nat => W32 | _ => W64 end) _).
  by intros [].
Defined.

#[export] Instance gotype_eq_dec : EqDecision gotype.
Proof.
  refine (λ t u, cast_if (decide (gotype_tree t = gotype_tree u))); [|congruence].
  by rewrite <-(gotype_untree_tree t), <-(gotype_untree_tree u), e.
Defined.

#[export] Instance gotype_countable : Countable gotype :=
  inj_countable' gotype_tree gotype_untree gotype_untree_tree.

(** ** Values *)

(** A slice is nil or lists its elements; an interface holds a value of a type. *)
Inductive govalue :=
| VInt (x : Z)
| VString (s : bytes)
| VBool (b : bool)
| VNilPtr
| VPtr (v : govalue)
| VNilInterface
| VInterface (t : gotype) (v : govalue)
| VNilSlice
| VSlice (vs : list govalue)
| VArray (vs : list govalue)
| VStruct (vs : list govalue)
| VOther.

Section govalue_ind'.
Context (P : govalue → Prop).
Context (HInt : ∀ x, P (VInt x)) (HString : ∀ s, P (VString s)) (HBool : ∀ b, P (VBool b))
  (HNilPtr : P VNilPtr) (HPtr : ∀ v, P v → P (VPtr v)) (HNilInterface : P VNilInterface)
  (HInterface : ∀ t v, P v → P (VInterface t v)) (HNilSlice : P VNilSlice)
  (HSlice : ∀ vs, Forall P vs → P (VSlice vs)) (HArray : ∀ vs, Forall P vs → P (VArray vs))
  (HStruct : ∀ vs, Forall P vs → P (VStruct vs)) (HOther : P VOther).

Definition govalue_ind' : ∀ v, P v :=
  fix go v :=
    let go_all := fix go_all (vs : list govalue) : Forall P vs :=
      match vs with
      | [] => @List.Forall_nil _ P
      | v :: vs => @List.Forall_cons _ P v vs (go v) (go_all vs)
      end in
    match v with
    | VInt x => HInt x
    | VString s => HString s
    | VBool b => HBool b
    | VNilPtr => HNilPtr
    | VPtr v => HPtr v (go v)
    | VNilInterface => HNilInterface
    | VInterface t v => HInterface t v (go v)
    | VNilSlice => HNilSlice
    | VSlice vs => HSlice vs (go_all vs)
    | VArray vs => HArray vs (go_all vs)
    | VStruct vs => HStruct vs (go_all vs)
    | VOther => HOther
    end.
End govalue_ind'.

(** The zero value of a type, as [reflect.New] makes it. *)
Fixpoint zero_value (t : gotype) : govalue :=
  match t with
  | TUint _ | TInt _ | TUintptr => VInt 0
  | TString => VString []
  | TBool => VBool false
  | TPtr _ => VNilPtr
  | TInterface _ => VNilInterface
  | TSlice _ => VNilSlice
  | TArray n t => VArray (replicate n (zero_value t))
  | TStruct _ fs => VStruct ((λ f, zero_value f.2) <$> fs)
  | TOther _ => VOther
  end.

(** ** The codec's errors and computations *)

Inductive codec_error :=
| errPacker (e : pack_error)
| errMarshalNil | errUnmarshalNil | errNeedPointer | errExtraSpace
| errSliceLength | errArrayLength | errUnknownKind | errUnexportedField
| errAlreadyRegistered | errUnregisteredType | errUnknownTypeID | errDoesNotImplement
| errCantPackVersion | errCantUnpackVersion | errUnknownVersion | errDuplicatedVersion
| errMaxLength.

#[export] Instance codec_error_eq_dec : EqDecision codec_error.
Proof. solve_decision. Defined.

(** A method that packs or unpacks and returns an error. *)
Abbreviation coding A := (packing (result codec_error A)).

Definition cret {A} (a : A) : coding A := pret (Ok a).
Definition cfail {A} (e : codec_error) : coding A := pret (Err e).
Definition cpanic {A} : coding A := λ _, None.
Definition cbind {A B} (m : coding A) (k : A → coding B) : coding B :=
  pbind m (λ r, match r with Ok a => k a | Err e => cfail e end).

Declare Scope coding_scope.
Notation "'let+' x := m 'in' k" := (cbind m (λ x, k))
  (at level 10, x name, m at level 100, k at level 200) : coding_scope.
Notation "m ;+ k" := (cbind m (λ _, k)) (at level 100, right associativity) : coding_scope.
Open Scope coding_scope.

(** Calls of the packer followed by a look at [p.Err]. *)
Definition checked {A} (m : packing A) : coding A := λ p,
  match m p with
  | None => None
  | Some (a, p) =>
      Some (match p_Err p with Some e => Err (errPacker e) | None => Ok a end, p)
  end.

(** A loop that stops at the first error. *)
Fixpoint coding_each {A} (ms : list (coding A)) : coding (list A) :=
  match ms with
  | [] => cret []
  | m :: ms => let+ a := m in let+ l := coding_each ms in cret (a :: l)
  end.

(** ** The fields that are serialised *)

Record FieldDesc := mkFieldDesc { Index : nat; MaxSliceLen : Z }.

Definition TagValue : string := "true".
Definition SliceLenTagName : string := "len".
Definition DefaultTagName : string := "serialize".

(** [reflect.StructTag.Get]: empty when the key is absent. *)
Definition Tag_Get (tag : list (string * string)) (key : string) : string :=
  match list_find (λ kv, kv.1 = key) tag with Some (_, kv) => kv.2 | None => "" end.

(** [strconv.ParseUint(s, 10, bitSize)]. *)
Definition digit (c : Ascii.ascii) : option Z :=
  let n := Z.of_N (Ascii.N_of_ascii c) in
  if decide (48 ≤ n ≤ 57) then Some (n - 48) else None.
Fixpoint parse_digits (s : string) (acc : Z) : option Z :=
  match s with
  | EmptyString => Some acc
  | String c s => match digit c with Some d => parse_digits s (acc * 10 + d) | None => None end
  end.
Definition ParseUint10 (bitSize : Z) (s : string) : option Z :=
  match s with
  | EmptyString => None
  | _ => match parse_digits s 0 with
         | Some n => if decide (n < 2 ^ bitSize) then Some n else None
         | None => None
         end
  end.

(** Whether a field is serialised, and the length its slices may have. *)
Definition captureField (tags : list string) (f : fieldInfo) : bool :=
  existsb (λ tag, bool_decide (Tag_Get (f_Tag f) tag = TagValue)) tags.
Definition field_len (maxSliceLen : Z) (f : fieldInfo) : Z :=
  default maxSliceLen (ParseUint10 31 (Tag_Get (f_Tag f) SliceLenTagName)).

(** The loop of [GetSerializedFields] from the field [i].  Its cache of results is
    left out: the result depends on the type alone. *)
Fixpoint serialized_fields (tags : list string) (maxSliceLen : Z) (i : nat)
    (fs : list (fieldInfo * gotype)) : result codec_error (list FieldDesc) :=
  match fs with
  | [] => Ok []
  | f :: fs =>
      if captureField tags f.1 then
        if negb (f_IsExported f.1) then Err errUnexportedField
        else match serialized_fields tags maxSliceLen (S i) fs with
             | Ok ds => Ok (mkFieldDesc i (field_len maxSliceLen f.1) :: ds)
             | Err e => Err e
             end
      else serialized_fields tags maxSliceLen (S i) fs
  end.

Definition GetSerializedFields (tags : list string) (maxSliceLen : Z)
    (fs : list (fieldInfo * gotype)) : result codec_error (list FieldDesc) :=
  serialized_fields tags maxSliceLen 0 fs.

(** ** The prefixes of interfaces *)

Section registries.
Context `{GoAppend}.
(** [reflect.Type.Implements]: which types implement which interfaces. *)
Context (Implements : gotype → positive → bool).

Class TypeCodec (R : Type) : Type := {
  PackPrefix : R → gotype → coding unit;
  UnpackPrefix : R → positive → coding gotype;
}.

(** [linearcodec.linearCodec]. *)
Record linearCodec := mkLinearCodec {
  lc_nextTypeID : Z;
  lc_typeIDToType : gmap Z gotype;
  lc_typeToTypeID : gmap gotype Z;
}.

Definition linear_New : linearCodec := mkLinearCodec 0 ∅ ∅.

Definition linear_SkipRegistrations (num : Z) (c : linearCodec) : linearCodec :=
  mkLinearCodec (wrap 32 (lc_nextTypeID c + wrap 32 num)) (lc_typeIDToType c) (lc_typeToTypeID c).

Definition linear_RegisterType (valType : gotype) (c : linearCodec)
    : result codec_error unit * linearCodec :=
  match lc_typeToTypeID c !! valType with
  | Some _ => (Err errAlreadyRegistered, c)
  | None =>
      (Ok tt, mkLinearCodec (wrap 32 (lc_nextTypeID c + 1))
        (<[lc_nextTypeID c := valType]> (lc_typeIDToType c))
        (<[valType := lc_nextTypeID c]> (lc_typeToTypeID c)))
  end.

Definition linear_PackPrefix (c : linearCodec) (valueType : gotype) : coding unit :=
  match lc_typeToTypeID c !! valueType with
  | None => cfail errUnregisteredType
  | Some typeID => checked (PackInt typeID)
  end.

(** The type of the instance [UnpackPrefix] makes. *)
Definition linear_UnpackPrefix (c : linearCodec) (valueType : positive) : coding gotype :=
  let+ typeID := checked UnpackInt in
  match lc_typeIDToType c !! typeID with
  | None => cfail errUnknownTypeID
  | Some implementingType =>
      if Implements implementingType valueType then cret implementingType
      else cfail errDoesNotImplement
  end.

(** [hierarchycodec.hierarchyCodec]: a type ID is a group and a number. *)
Record hierarchyCodec := mkHierarchyCodec {
  hc_currentGroupID : Z;
  hc_nextTypeID : Z;
  hc_typeIDToType : gmap (Z * Z) gotype;
  hc_typeToTypeID : gmap gotype (Z * Z);
}.

Definition hierarchy_New : hierarchyCodec := mkHierarchyCodec 0 0 ∅ ∅.

Definition hierarchy_SkipRegistrations (num : Z) (c : hierarchyCodec) : hierarchyCodec :=
  mkHierarchyCodec (hc_currentGroupID c) (wrap 16 (hc_nextTypeID c + wrap 16 num))
    (hc_typeIDToType c) (hc_typeToTypeID c).

Definition hierarchy_NextGroup (c : hierarchyCodec) : hierarchyCodec :=
  mkHierarchyCodec (wrap 16 (hc_currentGroupID c + 1)) 0 (hc_typeIDToType c) (hc_typeToTypeID c).

Definition hierarchy_RegisterType (valType : gotype) (c : hierarchyCodec)
    : result codec_error unit * hierarchyCodec :=
  match hc_typeToTypeID c !! valType with
  | Some _ => (Err errAlreadyRegistered, c)
  | None =>
      let valTypeID := (hc_currentGroupID c, hc_nextTypeID c) in
      (Ok tt, mkHierarchyCodec (hc_currentGroupID c) (wrap 16 (hc_nextTypeID c + 1))
        (<[valTypeID := valType]> (hc_typeIDToType c))
        (<[valType := valTypeID]> (hc_typeToTypeID c)))
  end.

Definition hierarchy_PackPrefix (c : hierarchyCodec) (valueType : gotype) : coding unit :=
  match hc_typeToTypeID c !! valueType with
  | None => cfail errUnregisteredType
  | Some (groupID, typeID) =>
      checked (pbind (PackShort groupID) (λ _, PackShort typeID))
  end.

Definition hierarchy_UnpackPrefix (c : hierarchyCodec) (valueType : positive) : coding gotype :=
  let+ t := checked (pbind UnpackShort (λ groupID,
              pbind UnpackShort (λ typeIDShort, pret (groupID, typeIDShort)))) in
  match hc_typeIDToType c !! t with
  | None => cfail errUnknownTypeID
  | Some implementingType =>
      if Implements implementingType valueType then cret implementingType
      else cfail errDoesNotImplement
  end.

#[export] Instance linear_TypeCodec : TypeCodec linearCodec :=
  { PackPrefix := linear_PackPrefix; UnpackPrefix := linear_UnpackPrefix }.
#[export] Instance hierarchy_TypeCodec : TypeCodec hierarchyCodec :=
  { PackPrefix := hierarchy_PackPrefix; UnpackPrefix := hierarchy_UnpackPrefix }.
End registries.
