(* ===== verification/Codec.v ===== *)
(** The reflective codec and its manager ([codec/reflectcodec/type_codec.go],
    [codec/manager.go]).

    [marshal] and [unmarshal] follow the kinds of the type; [unmarshal] nests
    through interfaces as often as the bytes say, which its fuel bounds: every
    prefix of an interface takes four bytes.  [None] is a panic or the end of the
    fuel.  A destination that was filled in part when an error came is dropped. *)

From Stdlib Require Import Strings.Byte Strings.String.
From S2P Require Import Prelude Ids Packer CodecTypes.

Definition MaxInt32 : Z := 2 ^ 31 - 1.

Section codec.
Context `{GoAppend} {R : Type} `{TypeCodec R}.

Record genericCodec := mkGenericCodec {
  typer : R;
  tagNames : list string;
  maxSliceLen : Z;
}.

Definition fielder_fields (c : genericCodec) (fs : list (fieldInfo * gotype))
    : result codec_error (list FieldDesc) :=
  GetSerializedFields (tagNames c) (maxSliceLen c) fs.

Section with_codec.
Context (c : genericCodec).

(** ** Marshalling *)

(** The unsigned integer of the width with the bits of [x]. *)
Definition pack_width (w : width) (x : Z) : packing unit :=
  match w with
  | W8 => PackByte (to_byte x)
  | W16 => PackShort (wrap 16 x)
  | W32 => PackInt (wrap 32 x)
  | W64 => PackLong (wrap 64 x)
  end.

(** [value.Bytes()]. *)
Definition value_byte (v : govalue) : byte := match v with VInt x => to_byte x | _ => x00 end.

(** The case of slices; [ms] marshal the elements. *)
Definition marshal_slice (elem : gotype) (vs : list govalue) (ms : list (coding unit)) (maxLen : Z)
    : coding unit :=
  let numElts := wrap 32 (Z.of_nat (length vs)) in
  if decide (maxLen < numElts) then cfail errSliceLength
  else
    checked (PackInt numElts);+
    if decide (elem = TUint W8) then checked (PackFixedBytes (value_byte <$> vs))
    else let+ _ := coding_each ms in cret tt.

(** The case of arrays. *)
Definition marshal_array (vs : list govalue) (ms : list (coding unit)) : coding unit :=
  if decide (maxSliceLen c < wrap 32 (Z.of_nat (length vs))) then cfail errArrayLength
  else let+ _ := coding_each ms in cret tt.

(** The case of structs: the loop over the fields to serialise. *)
Fixpoint marshal_fields (ds : list FieldDesc) (fs : list (fieldInfo * gotype))
    (ms : list (gotype → Z → coding unit)) : coding unit :=
  match ds with
  | [] => cret tt
  | d :: ds =>
      match fs !! Index d, ms !! Index d with
      | Some f, Some m => m f.2 (MaxSliceLen d);+ marshal_fields ds fs ms
      | _, _ => cpanic
      end
  end.

Fixpoint marshal (value : govalue) (t : gotype) (maxLen : Z) : coding unit :=
  match t, value with
  | TPtr _, VNilPtr | TInterface _, VNilInterface => cfail errMarshalNil
  | TUint w, VInt x | TInt w, VInt x => checked (pack_width w x)
  | TString, VString s => checked (PackStr s)
  | TBool, VBool b => checked (PackBool b)
  | TPtr t, VPtr v => marshal v t (maxSliceLen c)
  | TInterface _, VInterface underlyingType v =>
      PackPrefix (typer c) underlyingType;+
      marshal v underlyingType (maxSliceLen c);+
      checked (pret tt)
  | TSlice t, VNilSlice => marshal_slice t [] [] maxLen
  | TSlice t, VSlice vs => marshal_slice t vs ((λ v, marshal v t (maxSliceLen c)) <$> vs) maxLen
  | TArray _ t, VArray vs => marshal_array vs ((λ v, marshal v t (maxSliceLen c)) <$> vs)
  | TStruct _ fs, VStruct vs =>
      match fielder_fields c fs with
      | Err e => cfail e
      | Ok ds => marshal_fields ds fs ((λ v, marshal v) <$> vs)
      end
  | TOther _, _ => cfail errUnknownKind
  | _, _ => cpanic
  end.

(** [None] is the nil interface. *)
Definition MarshalInto (value : option (gotype * govalue)) : coding unit :=
  match value with
  | None => cfail errMarshalNil
  | Some (t, v) => marshal v t (maxSliceLen c)
  end.

(** ** Unmarshalling *)

(** The unsigned integer the packer returns, and the signed one with its bits. *)
Definition unpack_width (w : width) : packing Z :=
  match w with
  | W8 => pbind UnpackByte (λ b, pret (byte_val b))
  | W16 => UnpackShort
  | W32 => UnpackInt
  | W64 => UnpackLong
  end.
Definition to_signed (w : width) (x : Z) : Z :=
  if decide (x < 2 ^ (bits w - 1)) then x else x - 2 ^ bits w.

Definition byte_value (b : byte) : govalue := VInt (byte_val b).

(** The case of slices; [u] unmarshals an element. *)
Definition unmarshal_slice (elem : gotype) (u : coding govalue) (maxLen : Z) : coding govalue :=
  let+ numElts32 := checked UnpackInt in
  if decide (maxLen < numElts32) then cfail errArrayLength
  else if decide (MaxInt32 < numElts32) then cfail errArrayLength
  else if decide (elem = TUint W8) then
    let+ bs := checked (UnpackFixedBytes numElts32) in cret (VSlice (byte_value <$> bs))
  else let+ vs := coding_each (replicate (Z.to_nat numElts32) u) in cret (VSlice vs).

(** The case of arrays; [us] unmarshal into the elements. *)
Definition unmarshal_array (n : nat) (elem : gotype) (us : list (coding govalue)) : coding govalue :=
  if decide (elem = TUint W8) then
    let+ bs := checked (UnpackFixedBytes (Z.of_nat n)) in cret (VArray (byte_value <$> bs))
  else let+ vs := coding_each us in cret (VArray vs).

(** The case of structs: the fields are filled in order; the others keep their
    value. *)
Fixpoint unmarshal_fields (ds : list FieldDesc) (us : list (govalue → Z → coding govalue))
    (vs : list govalue) : coding (list govalue) :=
  match ds with
  | [] => cret vs
  | d :: ds =>
      match us !! Index d, vs !! Index d with
      | Some u, Some v =>
          let+ v := u v (MaxSliceLen d) in unmarshal_fields ds us (<[Index d := v]> vs)
      | _, _ => cpanic
      end
  end.

(** [rec] unmarshals what an interface holds. *)
Fixpoint unmarshal_kind (rec : gotype → coding govalue) (t : gotype) (value : govalue) (maxLen : Z)
    : coding govalue :=
  match t with
  | TUint w => let+ x := checked (unpack_width w) in cret (VInt x)
  | TInt w => let+ x := checked (unpack_width w) in cret (VInt (to_signed w x))
  | TBool => let+ b := checked UnpackBool in cret (VBool b)
  | TString => let+ s := checked UnpackStr in cret (VString s)
  | TSlice t =>
      unmarshal_slice t (unmarshal_kind rec t (zero_value t) (maxSliceLen c)) maxLen
  | TArray n t =>
      match value with
      | VArray vs =>
          unmarshal_array n t ((λ v, unmarshal_kind rec t v (maxSliceLen c)) <$> vs)
      | _ => cpanic
      end
  | TInterface i =>
      let+ intfImplementor := UnpackPrefix (typer c) i in
      let+ v := rec intfImplementor in
      cret (VInterface intfImplementor v)
  | TStruct _ fs =>
      match fielder_fields c fs, value with
      | Err e, _ => cfail e
      | Ok ds, VStruct vs =>
          let+ vs := unmarshal_fields ds ((λ f, unmarshal_kind rec f.2) <$> fs) vs in
          cret (VStruct vs)
      | _, _ => cpanic
      end
  | TPtr t =>
      let+ v := unmarshal_kind rec t (zero_value t) (maxSliceLen c) in cret (VPtr v)
  | TUintptr | TOther _ => cfail errUnknownKind
  end.

Fixpoint unmarshal (fuel : nat) (t : gotype) (value : govalue) (maxLen : Z) : coding govalue :=
  unmarshal_kind (match fuel with
    | O => λ _, cpanic
    | S fuel => λ t, unmarshal fuel t (zero_value t) (maxSliceLen c)
    end) t value maxLen.

(** Fills the value behind the pointer [dest]; [None] is the nil interface. *)
Definition Unmarshal (bs : bytes) (dest : option (gotype * govalue))
    : option (result codec_error govalue) :=
  match dest with
  | None => Some (Err errUnmarshalNil)
  | Some (TPtr t, v) =>
      let p := mkPacker None 0 bs (Z.of_nat (length bs)) 0 in
      match v with
      | VPtr v =>
          match unmarshal (length bs / 4) t v (maxSliceLen c) p with
          | None => None
          | Some (Err e, _) => Some (Err e)
          | Some (Ok v, p) =>
              if decide (p_Offset p ≠ Z.of_nat (length bs)) then Some (Err errExtraSpace)
              else Some (Ok v)
          end
      | _ => Some (Err errUnmarshalNil)
      end
  | Some _ => Some (Err errNeedPointer)
  end.
End with_codec.

(** ** The manager *)

Record manager := mkManager { maxSize : Z; codecs : gmap Z genericCodec }.

Definition NewManager (size : Z) : manager := mkManager size ∅.

Definition RegisterCodec (version : Z) (c : genericCodec) (m : manager)
    : result codec_error unit * manager :=
  match codecs m !! version with
  | Some _ => (Err errDuplicatedVersion, m)
  | None => (Ok tt, mkManager (maxSize m) (<[version := c]> (codecs m)))
  end.

Definition SetMaxSize (size : Z) (m : manager) : manager := mkManager size (codecs m).

Definition initialSliceCap : Z := 128.

(** [return p.Bytes, c.MarshalInto(value, &p)]: the bytes are taken after the
    call. *)
Definition manager_Marshal (m : manager) (version : Z) (value : option (gotype * govalue))
    : option (result codec_error bytes) :=
  match value with
  | None => Some (Err errMarshalNil)
  | Some _ =>
      match codecs m !! version with
      | None => Some (Err errUnknownVersion)
      | Some c =>
          match PackShort version (mkPacker None (maxSize m) (zeros initialSliceCap) 0 0) with
          | None => None
          | Some (_, p) =>
              if Errored p then Some (Err errCantPackVersion)
              else match MarshalInto c value p with
                   | None => None
                   | Some (Ok _, p) => Some (Ok (p_Bytes p))
                   | Some (Err e, _) => Some (Err e)
                   end
          end
      end
  end.

(** The version is returned with the error too. *)
Definition manager_Unmarshal (m : manager) (bs : bytes) (dest : option (gotype * govalue))
    : option (Z * result codec_error govalue) :=
  match dest with
  | None => Some (0, Err errUnmarshalNil)
  | Some _ =>
      if decide (maxSize m < Z.of_nat (length bs)) then Some (0, Err errMaxLength)
      else
        match UnpackShort (mkPacker None 0 bs (Z.of_nat (length bs)) 0) with
        | None => None
        | Some (version, p) =>
            if Errored p then Some (0, Err errCantUnpackVersion)
            else match codecs m !! version with
                 | None => Some (version, Err errUnknownVersion)
                 | Some c =>
                     match Unmarshal c (drop (Z.to_nat (p_Offset p)) (p_Bytes p)) dest with
                     | None => None
                     | Some r => Some (version, r)
                     end
                 end
        end
  end.
End codec.

Arguments genericCodec : clear implicits.
Arguments manager : clear implicits.
