(* ===== verification/CodecSpec.v ===== *)
(** What the codec promises ([codec]).

    [enc] is the encoding of a value and [fits] says that the codec accepts it;
    [canon] is the value that is read back, where nil slices are empty and fields
    that are not serialised are zero.  [marshal] writes [enc], [unmarshal] reads it
    back, and whatever [unmarshal] accepts is the encoding of what it returns.  The
    prefixes of interfaces enter through the laws of [TypeCodec], which both
    registries keep. *)

From Stdlib Require Import Strings.Byte Strings.String.
From S2P Require Import Prelude Ids Packer CodecTypes Codec.

(** ** Computations that write *)

(** [m] appends [e], or fails for lack of room. *)
Definition codes (m : coding unit) (e : bytes) : Prop := ∀ p, wf_w p →
  p_Err p = None → p_Offset p = p_len p →
  ∃ r p', m p = Some (r, p') ∧ wf_w p' ∧
    if decide (p_len p + Z.of_nat (length e) ≤ p_MaxSize p)
    then r = Ok tt ∧ p_Err p' = None ∧ p_Bytes p' = p_Bytes p ++ e ∧ p_Offset p' = p_len p' ∧
         p_MaxSize p' = p_MaxSize p
    else r = Err (errPacker errBadLength).

Lemma codes_checked m e : appends m e → codes (checked m) e.
Proof.
  intros Hm p Hw He Ho. destruct (Hm p Hw) as [_ Hp]. destruct (Hp He Ho) as (p'&E&Hw'&Hp').
  unfold checked. rewrite E. eexists _, p'. split; [done|]. split; [done|].
  case_decide; [|by rewrite Hp']. destruct Hp' as (->&?). done.
Qed.

Lemma codes_ret : codes (cret tt) [].
Proof.
  intros p Hw He Ho. eexists _, p. split; [done|]. split; [done|]. destruct Hw as (?&?&?).
  rewrite decide_True by (simpl; lia). by rewrite app_nil_r.
Qed.

Lemma codes_bind m k e1 e2 : codes m e1 → codes k e2 → codes (m;+ k) (e1 ++ e2).
Proof.
  intros Hm Hk p Hw He Ho. unfold cbind, pbind. destruct (Hm p Hw He Ho) as (r&p1&->&Hw1&Hp1).
  rewrite length_app, Nat2Z.inj_add. case_decide as Hd.
  - destruct Hp1 as (->&E1&E2&E3&E4). destruct (Hk p1 Hw1 E1 E3) as (r2&p2&->&Hw2&Hp2).
    exists r2, p2. split_and!; [done..|].
    assert (p_len p1 = p_len p + Z.of_nat (length e1)) as El.
    { destruct Hw as (?&?&?), Hw1 as (?&?&?). rewrite <-(length_p_Bytes p1) by lia.
      rewrite E2, length_app, Nat2Z.inj_add, length_p_Bytes by lia. done. }
    rewrite El, E4, <-Z.add_assoc in Hp2. case_decide; [|done].
    destruct Hp2 as (?&?&E5&?&?). split_and!; [done|done| |done|congruence].
    by rewrite E5, E2, app_assoc.
  - subst r. eexists _, p1. split; [done|]. split; [done|]. by rewrite decide_False by lia.
Qed.

Lemma codes_each ms es :
  Forall2 codes ms es → codes (let+ _ := coding_each ms in cret tt) (mjoin es).
Proof.
  induction 1 as [|m e ms es Hm _ IH]; [apply codes_ret|].
  assert (codes (m;+ let+ _ := coding_each ms in cret tt) (e ++ mjoin es)) as Hc
    by (by apply codes_bind).
  intros p Hw He Ho. destruct (Hc p Hw He Ho) as (r&p'&E&Hp'). exists r, p'. split; [|exact Hp'].
  rewrite <-E. unfold cbind, pbind. simpl. unfold cbind, pbind. destruct (m p) as [[[u|e'] p1]|]; try done.
  destruct (coding_each ms p1) as [[[l|e'] p2]|]; done.
Qed.

(** ** Computations that read an encoding *)

Lemma reads_checked {A} (m : packing A) e (v : A) : reads m e v → reads (checked m) e (Ok v).
Proof.
  intros Hm p pre post Hl He Hb Ho. unfold checked. rewrite (Hm p pre post Hl He Hb Ho). simpl.
  by rewrite He.
Qed.

Lemma reads_cret {A} (v : A) : reads (cret v) [] (Ok v).
Proof. apply reads_ret. Qed.

Lemma reads_cbind {A B} (m : coding A) (k : A → coding B) e1 e2 a b :
  reads m e1 (Ok a) → reads (k a) e2 (Ok b) → reads (cbind m k) (e1 ++ e2) (Ok b).
Proof. intros Hm Hk. unfold cbind. by eapply reads_bind. Qed.

Lemma reads_cmap {A B} (m : coding A) (f : A → B) e a :
  reads m e (Ok a) → reads (let+ x := m in cret (f x)) e (Ok (f a)).
Proof. intros Hm. rewrite <-(app_nil_r e). eapply reads_cbind; [done|apply reads_cret]. Qed.

Lemma reads_coding_each {A} (us : list (coding A)) es vs :
  Forall3 (λ u e v, reads u e (Ok v)) us es vs → reads (coding_each us) (mjoin es) (Ok vs).
Proof.
  induction 1 as [|u e v us es vs Hu _ IH]; [apply reads_cret|]. simpl.
  eapply reads_cbind; [done|]. by apply (reads_cmap _ (cons v)).
Qed.

(** ** Computations that read anything *)

(** The bytes [e] are those between the offsets of [p] and [p']. *)
Definition consumes (p p' : Packer) (e : bytes) : Prop :=
  p' = set_Offset (p_Offset p + Z.of_nat (length e)) p ∧
  ∃ post, drop (Z.to_nat (p_Offset p)) (p_Bytes p) = e ++ post.

Definition psound {A} (u : packing A) (P : A → bytes → Prop) : Prop := ∀ p a p',
  rd_ok p → p_Err p = None → u p = Some (a, p') → p_Err p' = None → ∃ e, consumes p p' e ∧ P a e.
Definition sound {A} (u : coding A) (P : A → bytes → Prop) : Prop := ∀ p a p',
  rd_ok p → p_Err p = None → u p = Some (Ok a, p') → ∃ e, consumes p p' e ∧ P a e.

Lemma consumes_ok p p' e : rd_ok p → p_Err p = None → consumes p p' e → rd_ok p' ∧ p_Err p' = None.
Proof.
  intros [[Ho Hol] Hc] He [-> [post Hp]]. split; [|done]. unfold rd_ok. simpl.
  apply (f_equal length) in Hp. rewrite length_drop, length_app in Hp.
  pose proof (length_p_Bytes p ltac:(lia)). unfold p_cap in *. simpl. lia.
Qed.

Lemma consumes_nil p : consumes p p [].
Proof. split; [destruct p; unfold set_Offset; simpl; f_equal; lia|]. by eexists. Qed.

Lemma consumes_trans p p1 p2 e1 e2 :
  rd_ok p → consumes p p1 e1 → consumes p1 p2 e2 → consumes p p2 (e1 ++ e2).
Proof.
  intros [[Ho _] _] [-> [post1 H1]] [-> [post2 H2]]. split.
  - unfold set_Offset. simpl. f_equal. rewrite length_app. lia.
  - exists post2. unfold p_Bytes in *. simpl in *.
    rewrite Z2Nat.inj_add, Nat2Z.id, <-drop_drop, H1, drop_app_length in H2 by lia.
    by rewrite H1, H2, app_assoc.
Qed.

Lemma psound_raw {A} n (zero : A) f :
  psound (unpack_raw n zero f) (λ a e, Z.of_nat (length e) = n ∧ a = f e).
Proof.
  intros p a p' Hp He E He'. unfold unpack_raw in E.
  assert (CheckSpace n p = p ∧ 0 ≤ n) as [Ec Hn].
  { unfold CheckSpace, Errs_Add in *. rewrite He in E. unfold Errored in E.
    repeat case_decide; simplify_eq/=; try done. split; [done|lia]. }
  rewrite Ec in E. unfold Errored in E. rewrite He in E. unfold read_bytes in E.
  destruct (decide _) as [(_&Ho&Hl)|]; [|done]. simplify_eq.
  set (e := take _ _). exists e. assert (Z.of_nat (length e) = n) as Hlen.
  { unfold e. rewrite length_take, length_drop. destruct Hp as [? ?].
    pose proof (length_p_Bytes p ltac:(lia)). lia. }
  split; [|done]. split; [by rewrite Hlen|]. eexists. unfold e. by rewrite take_drop.
Qed.

Lemma psound_ret {A} (a : A) : psound (pret a) (λ a' e, a' = a ∧ e = []).
Proof. intros p a' p' _ _ [= <- <-] _. exists []. split; [apply consumes_nil|done]. Qed.

Lemma psound_bind {A B} (m : packing A) (k : A → packing B) P Q :
  psound m P → rd_total m → (∀ a, rd_total (k a)) → (∀ a, psound (k a) (Q a)) →
  psound (pbind m k) (λ b e, ∃ a e1 e2, e = e1 ++ e2 ∧ P a e1 ∧ Q a b e2).
Proof.
  intros Hm Ht Hkt Hk p b p' Hp He E He'. unfold pbind in E.
  destruct (Ht p Hp) as (a&p1&E1&Hs1). rewrite E1 in E.
  destruct (Hkt a p1 (rs_ok _ _ Hs1)) as (b'&p2&E2&Hs2). rewrite E2 in E. simplify_eq.
  assert (p_Err p1 = None) as He1.
  { destruct (p_Err p1) eqn:Ee; [|done]. assert (p' = p1) as -> by (apply (rs_err _ _ Hs2); congruence).
    congruence. }
  destruct (Hm p a p1 Hp He E1 He1) as (e1&Hc1&HP).
  destruct (Hk a p1 b p' (rs_ok _ _ Hs1) He1 E2 He') as (e2&Hc2&HQ).
  exists (e1 ++ e2). split; [by eapply consumes_trans|]. eauto 10.
Qed.

Lemma sound_checked {A} (m : packing A) P : psound m P → sound (checked m) P.
Proof.
  intros Hm p a p' Hp He E. unfold checked in E. destruct (m p) as [[a' p1]|] eqn:Em; [|done].
  destruct (p_Err p1) eqn:E1; simplify_eq. by eapply Hm.
Qed.

Lemma sound_impl {A} (u : coding A) (P Q : A → bytes → Prop) :
  sound u P → (∀ a e, P a e → Q a e) → sound u Q.
Proof. intros Hu HPQ p a p' Hp He E. destruct (Hu _ _ _ Hp He E) as (e&?&?). eauto. Qed.

Lemma sound_cret {A} (a : A) : sound (cret a) (λ a' e, a' = a ∧ e = []).
Proof. intros p a' p' _ _ [= <- <-]. exists []. split; [apply consumes_nil|done]. Qed.

Lemma sound_cfail {A} e P : sound (@cfail A e) P.
Proof. by intros p a p' _ _ [=]. Qed.

Lemma sound_cpanic {A} P : sound (@cpanic A) P.
Proof. by intros p a p' _ _ [=]. Qed.

Lemma sound_cbind {A B} (m : coding A) (k : A → coding B) P Q :
  sound m P → (∀ a e, P a e → sound (k a) (Q a)) →
  sound (cbind m k) (λ b e, ∃ a e1 e2, e = e1 ++ e2 ∧ P a e1 ∧ Q a b e2).
Proof.
  intros Hm Hk p b p' Hp He E. unfold cbind, pbind in E. destruct (m p) as [[[a|e] p1]|] eqn:Em; try done.
  destruct (Hm p a p1 Hp He Em) as (e1&Hc1&HP).
  destruct (consumes_ok _ _ _ Hp He Hc1) as [Hp1 He1].
  destruct (Hk a e1 HP p1 b p' Hp1 He1 E) as (e2&Hc2&HQ).
  exists (e1 ++ e2). split; [by eapply consumes_trans|]. eauto 10.
Qed.

Lemma sound_cmap {A B} (m : coding A) (f : A → B) (P : A → bytes → Prop) :
  sound m P → sound (let+ x := m in cret (f x)) (λ b e, ∃ a, b = f a ∧ P a e).
Proof.
  intros Hm. eapply sound_impl; [eapply sound_cbind; [exact Hm|intros a ? _; apply sound_cret]|].
  intros b e (a&e1&e2&->&HP&->&->). rewrite app_nil_r. eauto.
Qed.

Lemma sound_coding_each {A} (us : list (coding A)) (Ps : list (A → bytes → Prop)) :
  Forall2 sound us Ps →
  sound (coding_each us) (λ l e, ∃ es, e = mjoin es ∧ Forall3 (λ P a e, P a e) Ps l es).
Proof.
  induction 1 as [|u P us Ps Hu _ IH].
  { eapply sound_impl; [apply sound_cret|]. intros l e [-> ->]. exists []. split; [done|constructor]. }
  simpl. eapply sound_impl; [eapply sound_cbind; [exact Hu|]|].
  { intros a ? _. apply (sound_cmap _ (cons a)), IH. }
  intros l e (a&e1&e2&->&HP&l'&->&es&->&Hf). exists (e1 :: es). split; [done|]. by constructor.
Qed.

(** ** Computations that return *)

(** With fewer than [n] bytes left, [u] returns and does not move back. *)
Definition ctotal {A} (n : Z) (u : coding A) : Prop := ∀ p,
  rd_ok p → p_Err p = None → p_len p - p_Offset p < n →
  ∃ r p', u p = Some (r, p') ∧ rd_ok p' ∧ p_len p' = p_len p ∧ p_Offset p ≤ p_Offset p' ∧
    (is_ok r = true → p_Err p' = None).

Lemma ctotal_checked {A} n (m : packing A) : rd_total m → ctotal n (checked m).
Proof.
  intros Hm p Hp _ _. destruct (Hm p Hp) as (a&p'&E&[Hp' _ Hl Ho _]). unfold checked. rewrite E.
  eexists _, p'. split; [done|]. split_and!; [done..|]. by destruct (p_Err p').
Qed.

Lemma ctotal_pret {A} n (r : result codec_error A) : ctotal n (pret r).
Proof. intros p Hp He _. by exists r, p. Qed.

Lemma ctotal_cbind {A B} n (m : coding A) (k : A → coding B) :
  ctotal n m → (∀ a, ctotal n (k a)) → ctotal n (cbind m k).
Proof.
  intros Hm Hk p Hp He Hn. destruct (Hm p Hp He Hn) as (r&p1&E1&Hp1&Hl1&Ho1&He1).
  unfold cbind, pbind. rewrite E1. destruct r as [a|e].
  - destruct (Hk a p1 Hp1 (He1 eq_refl) ltac:(lia)) as (r2&p2&->&Hp2&Hl2&Ho2&He2).
    exists r2, p2. split_and!; [done..|congruence|lia|done].
  - exists (Err e), p1. by split_and!.
Qed.

Lemma ctotal_coding_each {A} n (us : list (coding A)) : Forall (ctotal n) us → ctotal n (coding_each us).
Proof.
  induction 1 as [|u us Hu _ IH]; [apply ctotal_pret|]. simpl. apply ctotal_cbind; [done|].
  intros a. apply ctotal_cbind; [done|]. intros l. apply ctotal_pret.
Qed.

Lemma ctotal_le {A} n n' (u : coding A) : ctotal n u → n' ≤ n → ctotal n' u.
Proof. intros Hu Hn p Hp He Hl. apply Hu; [done|done|lia]. Qed.

(** ** The methods of the packer *)

Lemma be_bytes_value e : be_bytes (length e) (be_value e) = e.
Proof.
  induction e as [|b e IH]; [done|]. unfold be_value. cbn [foldl length be_bytes].
  rewrite be_value_app. assert (0 ≤ be_value e < 256 ^ Z.of_nat (length e)) as Hb.
  { pose proof (be_value_bytes (length e) (be_value e)) as E. rewrite IH in E. rewrite E.
    apply Z.mod_pos_bound. lia. }
  f_equal.
  - rewrite Z.mul_0_l, Z.add_0_l, Z.div_add_l, Z.div_small by lia. rewrite Z.add_0_r.
    apply to_byte_val.
  - etrans; [|exact IH]. generalize (be_value e) as x. intros x.
    assert (∀ n, (n ≤ length e)%nat → be_bytes n ((0 * 256 + byte_val b) * 256 ^ Z.of_nat (length e) + x) = be_bytes n x)
      as Hn; [|by apply Hn].
    clear. induction n as [|n IH]; intros Hn; [done|]. cbn [be_bytes]. rewrite IH by lia. f_equal.
    apply byte_val_inj. rewrite !byte_val_to_byte.
    replace (Z.of_nat (length e)) with (1 + Z.of_nat n + (Z.of_nat (length e) - 1 - Z.of_nat n)) by lia.
    rewrite !Z.pow_add_r by lia.
    set (y := (0 * 256 + byte_val b)). set (m := 256 ^ Z.of_nat n).
    set (k := 256 ^ (Z.of_nat (length e) - 1 - Z.of_nat n)). change (256 ^ 1) with 256.
    replace (y * (256 * m * k) + x) with ((y * 256 * k) * m + x) by ring.
    assert (0 < m) by (apply Z.pow_pos_nonneg; lia). rewrite Z.div_add_l by lia.
    replace (y * 256 * k + x / m) with (x / m + (y * k) * 256) by ring. apply Z_mod_plus_full.
Qed.

Lemma be_value_range e : 0 ≤ be_value e < 256 ^ Z.of_nat (length e).
Proof.
  pose proof (be_value_bytes (length e) (be_value e)) as E. rewrite be_bytes_value in E. rewrite E.
  apply Z.mod_pos_bound. lia.
Qed.

Section methods.
Context `{GoAppend}.

Lemma psound_be n :
  psound (unpack_raw (Z.of_nat n) 0 be_value) (λ x e, e = be_bytes n x ∧ 0 ≤ x < 256 ^ Z.of_nat n).
Proof.
  intros p a p' Hp He E He'. destruct (psound_raw _ _ _ p a p' Hp He E He') as (e&Hc&Hl&->).
  exists e. split; [done|]. apply Nat2Z.inj in Hl. subst n. split; [by rewrite be_bytes_value|].
  apply be_value_range.
Qed.

Lemma UnpackInt_psound : psound UnpackInt (λ x e, e = enc_int x ∧ is_uint 32 x).
Proof. exact (psound_be 4). Qed.

Lemma UnpackFixedBytes_psound n :
  psound (UnpackFixedBytes n) (λ s e, s = e ∧ Z.of_nat (length e) = n).
Proof.
  intros p a p' Hp He E He'. destruct (psound_raw _ _ _ p a p' Hp He E He') as (e&Hc&Hl&->). eauto.
Qed.

Lemma UnpackByte_psound : psound UnpackByte (λ b e, e = [b]).
Proof.
  intros p a p' Hp He E He'. destruct (psound_raw _ _ _ p a p' Hp He E He') as (e&Hc&Hl&->).
  exists e. split; [done|]. destruct e as [|b [|? ?]]; simpl in *; try (unfold ByteLen in Hl; lia). done.
Qed.

Lemma psound_impl {A} (u : packing A) (P Q : A → bytes → Prop) :
  psound u P → (∀ a e, P a e → Q a e) → psound u Q.
Proof. intros Hu HPQ p a p' Hp He E He'. destruct (Hu _ _ _ Hp He E He') as (e&?&?). eauto. Qed.

Lemma unpack_width_psound w :
  psound (unpack_width w) (λ x e, e = be_bytes (width_bytes w) x ∧ 0 ≤ x < 2 ^ bits w).
Proof.
  destruct w; simpl; try exact (psound_be 2); try exact (psound_be 4); try exact (psound_be 8).
  eapply psound_impl.
  - eapply psound_bind; [apply UnpackByte_psound|apply rd_total_raw|intros b; apply rd_total_ret|].
    intros b. apply (psound_ret (byte_val b)).
  - intros x e (b&e1&e2&->&->&->&->). split; [|apply byte_val_range]. simpl.
    by rewrite Z.div_1_r, to_byte_val.
Qed.

Lemma UnpackBool_psound : psound UnpackBool (λ b e, e = [if b then x01 else x00]).
Proof.
  eapply psound_impl with (P := λ (b : bool) e, ∃ (y : byte) e1 e2, e = e1 ++ e2 ∧ e1 = [y] ∧
    (e2 = [] ∧ y = if b then x01 else x00)).
  - unfold UnpackBool. eapply psound_bind; [apply UnpackByte_psound|apply rd_total_raw| |].
    + intros y. rd_total.
    + intros y. repeat case_decide.
      * subst. eapply psound_impl; [apply psound_ret|]. by intros ? ? [-> ->].
      * subst. eapply psound_impl; [apply psound_ret|]. by intros ? ? [-> ->].
      * intros p a p' _ He [= <- <-] He'. unfold Errs_Add in He'. by rewrite He in He'.
  - intros b e (y&e1&e2&->&->&->&->). done.
Qed.

Lemma UnpackStr_psound : psound UnpackStr (λ s e, e = enc_str s ∧ Z.of_nat (length s) ≤ MaxStringLen).
Proof.
  eapply psound_impl.
  - unfold UnpackStr. eapply psound_bind; [exact (psound_be 2)|apply rd_total_raw| |].
    + intros n. apply rd_total_raw.
    + intros n. apply UnpackFixedBytes_psound.
  - intros s e (n&e1&e2&->&[-> Hn]&->&Hl). unfold enc_str. rewrite Hl. split; [done|].
    unfold MaxStringLen, MaxUint16. lia.
Qed.

Lemma unpack_width_total w : rd_total (unpack_width w).
Proof. destruct w; simpl; rd_total. Qed.
Lemma UnpackBool_total : rd_total UnpackBool.
Proof. unfold UnpackBool. rd_total. Qed.
Lemma UnpackStr_total : rd_total UnpackStr.
Proof. unfold UnpackStr. rd_total. Qed.

Lemma be_bytes_wrap n k x : Z.of_nat n ≤ k → be_bytes n (x mod 256 ^ k) = be_bytes n x.
Proof.
  induction n as [|n IH]; intros Hk; [done|]. cbn [be_bytes]. rewrite IH by lia. f_equal.
  apply byte_val_inj. rewrite !byte_val_to_byte.
  replace k with (Z.of_nat n + (1 + (k - 1 - Z.of_nat n))) by lia. rewrite !Z.pow_add_r by lia.
  set (m := 256 ^ Z.of_nat n). set (r := 256 ^ (k - 1 - Z.of_nat n)). change (256 ^ 1) with 256.
  assert (0 < m) by (apply Z.pow_pos_nonneg; lia). assert (0 < r) by (apply Z.pow_pos_nonneg; lia).
  rewrite Z.rem_mul_r by lia. rewrite Z.mul_comm, Z.div_add, Z.div_small by (try apply Z.mod_pos_bound; lia).
  rewrite Z.add_0_l. rewrite (Z.rem_mul_r (x / m) 256 r) by lia.
  rewrite Z.mul_comm, Z_mod_plus_full. apply Z.mod_mod. lia.
Qed.

Lemma pack_width_appends w x : appends (pack_width w x) (be_bytes (width_bytes w) x).
Proof.
  destruct w; simpl width_bytes.
  - replace (be_bytes 1 x) with [to_byte x] by (simpl; by rewrite Z.div_1_r). apply PackByte_appends.
  - rewrite <-(be_bytes_wrap 2 2 x) by lia. apply PackShort_appends.
  - rewrite <-(be_bytes_wrap 4 4 x) by lia. apply PackInt_appends.
  - rewrite <-(be_bytes_wrap 8 8 x) by lia. apply PackLong_appends.
Qed.

Lemma unpack_width_reads w x :
  0 ≤ x < 2 ^ bits w → reads (unpack_width w) (be_bytes (width_bytes w) x) x.
Proof.
  destruct w; simpl width_bytes; simpl unpack_width; intros Hx.
  - replace (be_bytes 1 x) with [to_byte x] by (simpl; by rewrite Z.div_1_r).
    assert (byte_val (to_byte x) = x) as E by (rewrite byte_val_to_byte; apply Z.mod_small, Hx).
    rewrite <-E at 2. apply (reads_map UnpackByte byte_val). apply UnpackByte_reads.
  - by apply UnpackShort_reads.
  - by apply UnpackInt_reads.
  - by apply UnpackLong_reads.
Qed.
End methods.
