(* ===== verification/CodecRoundTrip.v ===== *)
(** The codec is a bijection between values and their encodings
    ([codec/reflectcodec], [codec/manager.go]).

    [enc] is the encoding of a value and [fits] says that the codec accepts it;
    [canon] is the value that is read back: nil slices are empty and fields that
    are not serialised are zero. *)

From Stdlib Require Import Strings.Byte Strings.String.
From S2P Require Import Prelude Ids Packer CodecTypes Codec CodecSpec.

(** ** What the codec needs of the registry of types *)

Section laws.
Context `{GoAppend} (Implements : gotype → positive → bool).

(** [tc_prefix] is the prefix of a registered type. *)
Class TypeCodecPrefix (R : Type) : Type := {
  tc_prefix : R → gotype → option bytes;
  tc_ok : R → Prop;
}.

Class TypeCodecLaws (R : Type) `{TypeCodec R, TypeCodecPrefix R} : Prop := {
  prefix_length : ∀ r t e, tc_prefix r t = Some e → length e = 4%nat;
  PackPrefix_codes : ∀ r t e, tc_prefix r t = Some e → codes (PackPrefix r t) e;
  UnpackPrefix_reads : ∀ r i t e, tc_ok r → tc_prefix r t = Some e → Implements t i = true →
    reads (UnpackPrefix r i) e (Ok t);
  UnpackPrefix_sound : ∀ r i, tc_ok r →
    sound (UnpackPrefix r i) (λ t e, tc_prefix r t = Some e ∧ Implements t i = true);
  UnpackPrefix_total : ∀ r i n, ctotal n (UnpackPrefix r i);
}.
End laws.

Section spec.
Context `{GoAppend} (Implements : gotype → positive → bool).
Context {R : Type} `{TypeCodec R, TypeCodecPrefix R} `{!TypeCodecLaws Implements R}.
Context (c : genericCodec R).

(** A field is serialised. *)
Abbreviation captured f := (captureField (tagNames c) f.1).

(** ** Encodings *)

Fixpoint enc_fields (fs : list (fieldInfo * gotype)) (es : list (gotype → bytes)) : bytes :=
  match fs, es with
  | f :: fs, e :: es => (if captured f then e f.2 else []) ++ enc_fields fs es
  | _, _ => []
  end.

Fixpoint enc (v : govalue) (t : gotype) : bytes :=
  match t, v with
  | TUint w, VInt x | TInt w, VInt x => be_bytes (width_bytes w) x
  | TString, VString s => enc_str s
  | TBool, VBool b => [if b then x01 else x00]
  | TPtr t, VPtr v => enc v t
  | TInterface _, VInterface t v => default [] (tc_prefix (typer c) t) ++ enc v t
  | TSlice t, VNilSlice => enc_int 0
  | TSlice t, VSlice vs =>
      enc_int (Z.of_nat (length vs)) ++ mjoin ((λ v, enc v t) <$> vs)
  | TArray _ t, VArray vs => mjoin ((λ v, enc v t) <$> vs)
  | TStruct _ fs, VStruct vs => enc_fields fs ((λ v, enc v) <$> vs)
  | _, _ => []
  end.

(** ** Values the codec accepts *)

Fixpoint fits_fields (fs : list (fieldInfo * gotype)) (ps : list (gotype → Z → bool)) : bool :=
  match fs, ps with
  | [], [] => true
  | f :: fs, p :: ps =>
      (if captured f then f_IsExported f.1 && p f.2 (field_len (maxSliceLen c) f.1) else true) &&
      fits_fields fs ps
  | _, _ => false
  end.

Fixpoint fits (v : govalue) (t : gotype) (maxLen : Z) : bool :=
  match t, v with
  | TUint w, VInt x => bool_decide (0 ≤ x < 2 ^ bits w)
  | TInt w, VInt x => bool_decide (- 2 ^ (bits w - 1) ≤ x < 2 ^ (bits w - 1))
  | TString, VString s => bool_decide (Z.of_nat (length s) ≤ MaxStringLen)
  | TBool, VBool _ => true
  | TPtr t, VPtr v => fits v t (maxSliceLen c)
  | TInterface i, VInterface t v =>
      bool_decide (is_Some (tc_prefix (typer c) t)) && Implements t i && fits v t (maxSliceLen c)
  | TSlice t, VNilSlice => bool_decide (0 ≤ maxLen)
  | TSlice t, VSlice vs =>
      bool_decide (Z.of_nat (length vs) ≤ maxLen) &&
      bool_decide (Z.of_nat (length vs) ≤ MaxInt32) &&
      forallb id ((λ v, fits v t (maxSliceLen c)) <$> vs)
  | TArray n t, VArray vs =>
      bool_decide (length vs = n) && bool_decide (Z.of_nat n ≤ MaxUint32) &&
      bool_decide (Z.of_nat n ≤ maxSliceLen c) &&
      forallb id ((λ v, fits v t (maxSliceLen c)) <$> vs)
  | TStruct _ fs, VStruct vs => fits_fields fs ((λ v, fits v) <$> vs)
  | _, _ => false
  end.

(** ** The value read back *)

Fixpoint canon_fields (fs : list (fieldInfo * gotype)) (cs : list (gotype → govalue)) : list govalue :=
  match fs, cs with
  | f :: fs, c :: cs => (if captured f then c f.2 else zero_value f.2) :: canon_fields fs cs
  | _, _ => []
  end.

Fixpoint canon (v : govalue) (t : gotype) : govalue :=
  match t, v with
  | TPtr t, VPtr v => VPtr (canon v t)
  | TInterface _, VInterface t v => VInterface t (canon v t)
  | TSlice t, VNilSlice => VSlice []
  | TSlice t, VSlice vs => VSlice ((λ v, canon v t) <$> vs)
  | TArray _ t, VArray vs => VArray ((λ v, canon v t) <$> vs)
  | TStruct _ fs, VStruct vs => VStruct (canon_fields fs ((λ v, canon v) <$> vs))
  | _, v => v
  end.

(** ** The loops over the fields

    [GetSerializedFields] names the captured fields by their index; the loops over
    its result visit the fields in order. *)
Lemma fields_exported fs ps i :
  fits_fields fs ps = true →
  is_Some (match serialized_fields (tagNames c) (maxSliceLen c) i fs with Ok ds => Some ds | Err _ => None end).
Proof.
  revert ps i. induction fs as [|f fs IH]; intros ps i; simpl; [by eexists|].
  destruct ps as [|p ps]; [done|]. intros [Hf Hfs]%andb_prop. specialize (IH ps (S i) Hfs).
  destruct (captured f); [|done]. apply andb_prop in Hf as [Hx _]. rewrite Hx. simpl.
  destruct (serialized_fields _ _ _ fs); [by eexists|done].
Qed.

Lemma marshal_fields_codes fs0 ms0 fs ms es i ds :
  serialized_fields (tagNames c) (maxSliceLen c) i fs = Ok ds →
  (∀ j, fs0 !! (i + j)%nat = fs !! j) → (∀ j, ms0 !! (i + j)%nat = ms !! j) →
  Forall3 (λ f (m : gotype → Z → coding unit) (e : gotype → bytes), captured f = true →
    codes (m f.2 (field_len (maxSliceLen c) f.1)) (e f.2)) fs ms es →
  codes (marshal_fields ds fs0 ms0) (enc_fields fs es).
Proof.
  intros Hds Hfs Hms Hall. revert i ds Hds Hfs Hms.
  induction Hall as [|f m e fs ms es Hm _ IH]; intros i ds Hds Hfs Hms; simpl in Hds.
  { injection Hds as <-. apply codes_ret. }
  assert (∀ j, fs0 !! (S i + j)%nat = fs !! j) as Hfs'.
  { intros j. replace (S i + j)%nat with (i + S j)%nat by lia. apply Hfs. }
  assert (∀ j, ms0 !! (S i + j)%nat = ms !! j) as Hms'.
  { intros j. replace (S i + j)%nat with (i + S j)%nat by lia. apply Hms. }
  simpl. destruct (captured f); [|by eapply IH].
  destruct (negb _); [done|]. destruct (serialized_fields _ _ _ fs) as [ds'|] eqn:E; [|done].
  injection Hds as <-. simpl. specialize (Hfs 0%nat). specialize (Hms 0%nat).
  rewrite Nat.add_0_r in Hfs, Hms. rewrite Hfs, Hms. simpl.
  apply codes_bind; [by apply Hm|by eapply IH].
Qed.

(** Filling the fields from [i] on, those before are done. *)
Lemma unmarshal_fields_reads us0 pre us fs es cs vs i ds :
  serialized_fields (tagNames c) (maxSliceLen c) i fs = Ok ds →
  length pre = i → length vs = length fs → (∀ j, us0 !! (i + j)%nat = us !! j) →
  length es = length fs → length cs = length fs →
  (∀ j f u e c' v, fs !! j = Some f → us !! j = Some u → es !! j = Some e → cs !! j = Some c' →
     vs !! j = Some v → v = zero_value f.2 ∧ (captured f = true →
       reads (u v (field_len (maxSliceLen c) f.1)) (e f.2) (Ok (c' f.2)))) →
  length us = length fs →
  reads (unmarshal_fields ds us0 (pre ++ vs)) (enc_fields fs es) (Ok (pre ++ canon_fields fs cs)).
Proof.
  revert pre us es cs vs i ds. induction fs as [|f fs IH];
    intros pre us es cs vs i ds Hds Hi Hvs Hus Hes Hcs Hall Hlu; simpl in Hds.
  { injection Hds as <-. destruct vs; [|done]. apply reads_cret. }
  destruct vs as [|v vs], es as [|e es], cs as [|c' cs], us as [|u us]; try done.
  simpl in Hvs, Hes, Hcs, Hlu. destruct (Hall 0%nat f u e c' v) as [Hv Hu]; [done..|].
  assert (∀ j, us0 !! (S i + j)%nat = us !! j) as Hus'.
  { intros j. replace (S i + j)%nat with (i + S j)%nat by lia. apply Hus. }
  assert (∀ w ds', serialized_fields (tagNames c) (maxSliceLen c) (S i) fs = Ok ds' →
    reads (unmarshal_fields ds' us0 (pre ++ w :: vs)) (enc_fields fs es)
      (Ok (pre ++ w :: canon_fields fs cs))) as Hrest.
  { intros w ds' Hds'. rewrite (cons_middle w pre vs), (cons_middle w pre (canon_fields _ _)), !app_assoc.
    eapply IH; [exact Hds'| |lia|exact Hus'|lia|lia| |lia].
    - rewrite length_app. simpl. lia.
    - intros j. apply (Hall (S j)). }
  simpl. destruct (captured f) eqn:Ec.
  - destruct (negb _); [done|]. destruct (serialized_fields _ _ _ fs) as [ds'|] eqn:E; [|done].
    injection Hds as <-. simpl. specialize (Hus 0%nat). rewrite Nat.add_0_r in Hus. rewrite Hus.
    assert ((pre ++ v :: vs) !! i = Some v) as Ev.
    { rewrite lookup_app_r by lia. by rewrite Hi, Nat.sub_diag. }
    rewrite Ev. simpl. eapply reads_cbind; [by apply Hu|].
    replace (<[i := c' f.2]> (pre ++ v :: vs)) with (pre ++ c' f.2 :: vs); [by apply Hrest|].
    rewrite insert_app_r_alt by lia. by rewrite Hi, Nat.sub_diag.
  - rewrite <-Hv. by apply Hrest.
Qed.
(** A value the codec reads: the encoding, accepted and in canonical form. *)
Definition good (t : gotype) (maxLen : Z) (v : govalue) (e : bytes) : Prop :=
  e = enc v t ∧ fits v t maxLen = true ∧ canon v t = v.

Lemma unmarshal_fields_sound us0 pre us fs i ds :
  serialized_fields (tagNames c) (maxSliceLen c) i fs = Ok ds →
  length pre = i → (∀ j, us0 !! (i + j)%nat = us !! j) →
  Forall2 (λ f (u : govalue → Z → coding govalue), captured f = true →
    sound (u (zero_value f.2) (field_len (maxSliceLen c) f.1))
      (good f.2 (field_len (maxSliceLen c) f.1))) fs us →
  sound (unmarshal_fields ds us0 (pre ++ ((λ f, zero_value f.2) <$> fs)))
    (λ r e, ∃ ws, r = pre ++ ws ∧ e = enc_fields fs ((λ v, enc v) <$> ws) ∧
      fits_fields fs ((λ v, fits v) <$> ws) = true ∧ canon_fields fs ((λ v, canon v) <$> ws) = ws).
Proof.
  intros Hds Hi Hus Hall. revert pre i ds Hds Hi Hus.
  induction Hall as [|f u fs us Hu _ IH]; intros pre i ds Hds Hi Hus; simpl in Hds.
  { injection Hds as <-. eapply sound_impl; [apply sound_cret|]. intros r e [-> ->]. by exists []. }
  assert (∀ j, us0 !! (S i + j)%nat = us !! j) as Hus'.
  { intros j. replace (S i + j)%nat with (i + S j)%nat by lia. apply Hus. }
  assert (∀ w ds', serialized_fields (tagNames c) (maxSliceLen c) (S i) fs = Ok ds' →
    sound (unmarshal_fields ds' us0 (pre ++ w :: ((λ f, zero_value f.2) <$> fs)))
      (λ r e, ∃ ws, r = pre ++ w :: ws ∧ e = enc_fields fs ((λ v, enc v) <$> ws) ∧
      fits_fields fs ((λ v, fits v) <$> ws) = true ∧
      canon_fields fs ((λ v, canon v) <$> ws) = ws)) as Hrest.
  { intros w ds' Hds'. rewrite (cons_middle w pre), app_assoc.
    eapply sound_impl; [eapply (IH (pre ++ [w])); [exact Hds'| |exact Hus']|].
    - rewrite length_app. simpl. lia.
    - intros r e (ws&->&Hws). exists ws. by rewrite <-app_assoc. }
  rewrite fmap_cons. simpl. destruct (captured f) eqn:Ec.
  - destruct (negb _) eqn:Ex; [done|]. apply negb_false_iff in Ex.
    destruct (serialized_fields _ _ _ fs) as [ds'|] eqn:E; [|done].
    injection Hds as <-. simpl. specialize (Hus 0%nat). rewrite Nat.add_0_r in Hus. rewrite Hus.
    simpl. rewrite lookup_app_r, Hi, Nat.sub_diag by lia. simpl.
    eapply sound_impl; [eapply sound_cbind; [by apply Hu|]|].
    + intros v ? _. rewrite insert_app_r_alt by lia. rewrite Hi, Nat.sub_diag. simpl. by apply Hrest.
    + intros r e (v&e1&e2&->&(->&Hf&Hc)&ws&->&->&Hfs&Hcs). exists (v :: ws). split; [done|].
      csimpl. by rewrite ?Ec, Ex, Hf, Hc, Hfs, Hcs.
  - eapply sound_impl; [by apply Hrest|]. intros r e (ws&->&->&Hfs&Hcs).
    exists (zero_value f.2 :: ws). split; [done|]. csimpl. by rewrite ?Ec, Hfs, Hcs.
Qed.

(** The destination has the fields and elements of its type. *)
Fixpoint shape_fields (fs : list (fieldInfo * gotype)) (ss : list (gotype → bool)) : bool :=
  match fs, ss with
  | [], [] => true
  | f :: fs, s :: ss => s f.2 && shape_fields fs ss
  | _, _ => false
  end.

Fixpoint has_shape (v : govalue) (t : gotype) : bool :=
  match t, v with
  | TArray n t, VArray vs => bool_decide (length vs = n) && forallb id ((λ v, has_shape v t) <$> vs)
  | TArray _ _, _ => false
  | TStruct _ fs, VStruct vs => shape_fields fs ((λ v, has_shape v) <$> vs)
  | TStruct _ _, _ => false
  | _, _ => true
  end.

Lemma zero_value_shape t : has_shape (zero_value t) t = true.
Proof.
  induction t as [| | | | | | | |n t IH|name fs IH|] using gotype_ind'; simpl; try done.
  - rewrite length_replicate, bool_decide_true by done. simpl. rewrite fmap_replicate, IH.
    by induction n.
  - induction IH as [|f fs Hf _ IH]; [done|]. csimpl. by rewrite Hf, IH.
Qed.

Lemma shape_fields_Forall2 fs vs :
  shape_fields fs ((λ v, has_shape v) <$> vs) = true ↔
  Forall2 (λ f v, has_shape v f.2 = true) fs vs.
Proof.
  split.
  - revert vs. induction fs as [|f fs IH]; intros [|v vs]; simpl; try done.
    intros [Hf Hfs]%andb_prop. constructor; [done|by apply IH].
  - induction 1 as [|f v fs vs Hf _ IH]; [done|]. csimpl. by rewrite Hf, IH.
Qed.

Lemma unmarshal_fields_total n fs us vs ds i :
  serialized_fields (tagNames c) (maxSliceLen c) i fs = Ok ds →
  (∀ j f, fs !! j = Some f → ∃ u v, us !! (i + j)%nat = Some u ∧ vs !! (i + j)%nat = Some v ∧
    ∀ l, ctotal n (u v l)) →
  ctotal n (unmarshal_fields ds us vs).
Proof.
  revert i ds vs. induction fs as [|f fs IH]; intros i ds vs Hds Hall; simpl in Hds.
  { injection Hds as <-. apply ctotal_pret. }
  assert (∀ ws : list govalue, (∀ j, (i < j)%nat → ws !! j = vs !! j) → ∀ j f, fs !! j = Some f →
    ∃ u v, us !! (S i + j)%nat = Some u ∧ ws !! (S i + j)%nat = Some v ∧ ∀ l, ctotal n (u v l)) as Hnext.
  { intros ws Hws j g Hg. rewrite Hws by lia. replace (S i + j)%nat with (i + S j)%nat by lia.
    by apply (Hall (S j) g). }
  destruct (captured f); [|by eapply IH; [|apply Hnext]]. destruct (negb _); [done|].
  destruct (serialized_fields _ _ _ fs) as [ds'|] eqn:E; [|done]. injection Hds as <-. simpl.
  destruct (Hall 0%nat f eq_refl) as (u&v&Hu&Hv&Ht). rewrite Nat.add_0_r in Hu, Hv. rewrite Hu, Hv.
  apply ctotal_cbind; [apply Ht|]. intros v'. eapply IH; [exact E|]. apply Hnext.
  intros j Hj. apply list_lookup_insert_ne. lia.
Qed.
(** ** [marshal] writes the encoding *)

Lemma marshal_slice_codes t vs ms es maxLen :
  Forall2 codes ms es → length vs = length ms →
  Z.of_nat (length vs) ≤ maxLen → Z.of_nat (length vs) ≤ MaxInt32 →
  (t = TUint W8 → es = (λ v, [value_byte v]) <$> vs) →
  codes (marshal_slice t vs ms maxLen) (enc_int (Z.of_nat (length vs)) ++ mjoin es).
Proof.
  intros Hms Hl Hmax Hint Hb. unfold marshal_slice.
  rewrite wrap_id by (unfold is_uint, MaxInt32 in *; lia). rewrite decide_False by lia.
  apply codes_bind; [apply codes_checked, PackInt_appends|]. destruct (decide (t = TUint W8)) as [E|_].
  - apply codes_checked. rewrite (Hb E). replace (mjoin _) with (value_byte <$> vs).
    + apply PackFixedBytes_appends.
    + clear. induction vs as [|v vs IH]; [done|]. csimpl. by rewrite IH.
  - by apply codes_each.
Qed.

Lemma fits_byte v l : fits v (TUint W8) l = true → enc v (TUint W8) = [value_byte v].
Proof. destruct v; simpl; try done. intros _. by rewrite Z.div_1_r. Qed.

Lemma fits_all_Forall vs t :
  forallb id ((λ v, fits v t (maxSliceLen c)) <$> vs) = true ↔
  Forall (λ v, fits v t (maxSliceLen c) = true) vs.
Proof.
  induction vs as [|v vs IH]; csimpl; [split; auto|]. rewrite Forall_cons, andb_true_iff, IH. done.
Qed.

Lemma marshal_codes v t maxLen :
  0 ≤ maxSliceLen c → fits v t maxLen = true → codes (marshal c v t maxLen) (enc v t).
Proof.
  intros Hmax. revert t maxLen.
  induction v as [x|s|b| |v IH| |t' v IH| |vs IH|vs IH|vs IH|] using govalue_ind'; intros t maxLen Hf;
    destruct t as [w|w| | | |t|i|t|n t|name fs|name]; simpl in Hf; try done; simpl.
  - apply codes_checked, pack_width_appends.
  - apply codes_checked, pack_width_appends.
  - apply codes_checked, PackStr_appends. by apply bool_decide_eq_true in Hf.
  - apply codes_checked, PackBool_appends.
  - by apply IH.
  - apply andb_prop in Hf as [[Hp _]%andb_prop Hf]. apply bool_decide_eq_true in Hp as [e He].
    rewrite He. simpl. apply codes_bind; [by eapply PackPrefix_codes|].
    rewrite <-(app_nil_r (enc v t')). apply codes_bind; [by apply IH|].
    apply codes_checked, appends_ret.
  - apply bool_decide_eq_true in Hf. rewrite <-(app_nil_r (enc_int 0)).
    apply (marshal_slice_codes t [] [] []); [constructor|done|simpl; lia|done|done].
  - apply andb_prop in Hf as [[Hl Hi]%andb_prop Hf]. apply fits_all_Forall in Hf.
    apply bool_decide_eq_true in Hl, Hi. apply marshal_slice_codes; [|by rewrite length_fmap|done|done|].
    + clear Hl Hi. induction IH as [|v vs Hv _ IHv]; csimpl; [constructor|].
      apply Forall_cons in Hf as [Hfv Hf]. constructor; [by apply Hv|by apply IHv].
    + intros ->. clear IH Hl Hi. induction Hf as [|v vs Hv _ IHv]; csimpl; [done|].
      rewrite IHv. f_equal. by eapply fits_byte.
  - apply andb_prop in Hf as [[[Hn Hl]%andb_prop Hm]%andb_prop Hf]. apply fits_all_Forall in Hf.
    apply bool_decide_eq_true in Hn, Hl, Hm. unfold marshal_array.
    rewrite wrap_id by (unfold is_uint, MaxUint32 in *; lia). rewrite decide_False by lia.
    apply codes_each. clear Hl Hn Hm. induction IH as [|v vs Hv _ IHv]; csimpl; [constructor|].
    apply Forall_cons in Hf as [Hfv Hf]. constructor; [by apply Hv|by apply IHv].
  - unfold fielder_fields, GetSerializedFields.
    destruct (fields_exported _ _ 0 Hf) as [ds Hds].
    destruct (serialized_fields _ _ 0 fs) as [ds'|] eqn:E; [|done].
    eapply (marshal_fields_codes fs _ fs); [exact E|done|done|].
    clear E Hds. revert fs Hf. induction IH as [|v vs Hv _ IHv]; intros [|f fs]; csimpl; try done;
      [constructor|]. intros [Hf Hfs]%andb_prop. constructor; [|by apply IHv].
    intros Hc. rewrite Hc in Hf. apply andb_prop in Hf as [_ Hf]. by apply Hv.
Qed.
(** ** [unmarshal] reads the encoding back *)

Definition unmarshal_rec (fuel : nat) : gotype → coding govalue :=
  match fuel with
  | O => λ _, cpanic
  | S fuel => λ t, unmarshal c fuel t (zero_value t) (maxSliceLen c)
  end.

Lemma unmarshal_eq fuel t v l :
  unmarshal c fuel t v l = unmarshal_kind c (unmarshal_rec fuel) t v l.
Proof. by destruct fuel. Qed.

Lemma to_signed_mod w x :
  - 2 ^ (bits w - 1) ≤ x < 2 ^ (bits w - 1) → to_signed w (x mod 2 ^ bits w) = x.
Proof.
  intros Hx. unfold to_signed. assert (2 ^ bits w = 2 * 2 ^ (bits w - 1)) as E.
  { rewrite <-Z.pow_succ_r by (by destruct w). f_equal. lia. }
  set (h := 2 ^ (bits w - 1)) in *. destruct (decide (0 ≤ x)).
  - rewrite Z.mod_small by lia. by rewrite decide_True by lia.
  - rewrite <-(Z_mod_plus_full x 1), Z.mod_small by lia. rewrite decide_False by lia. lia.
Qed.

Lemma bits_pow w : 2 ^ bits w = 256 ^ Z.of_nat (width_bytes w).
Proof. by destruct w. Qed.

Lemma be_bytes_mod n x : be_bytes n (x mod 256 ^ Z.of_nat n) = be_bytes n x.
Proof. by apply be_bytes_wrap. Qed.

Lemma enc_in_list v vs t n :
  v ∈ vs → (length (mjoin ((λ v, enc v t) <$> vs)) ≤ n)%nat → (length (enc v t) ≤ n)%nat.
Proof.
  intros Hv. induction vs as [|w vs IH]; [by apply elem_of_nil in Hv|]. csimpl. rewrite length_app.
  apply elem_of_cons in Hv as [->|Hv]; [lia|]. intros Hn. apply IH; [done|lia].
Qed.

Lemma enc_in_fields fs vs j f v n :
  fs !! j = Some f → vs !! j = Some v → captured f = true →
  (length (enc_fields fs ((λ v, enc v) <$> vs)) ≤ n)%nat → (length (enc v f.2) ≤ n)%nat.
Proof.
  intros Hf Hv Hc. revert vs j Hf Hv. induction fs as [|g fs IH]; intros [|w vs] [|j]; try done;
    csimpl; rewrite length_app.
  - intros [= ->] [= ->]. rewrite Hc. lia.
  - intros Hf Hv Hn. eapply IH; [done|done|lia].
Qed.

Lemma canon_bytes vs :
  Forall (λ v, fits v (TUint W8) (maxSliceLen c) = true) vs →
  mjoin ((λ v, enc v (TUint W8)) <$> vs) = value_byte <$> vs ∧
  byte_value <$> (value_byte <$> vs) = (λ v, canon v (TUint W8)) <$> vs.
Proof.
  induction 1 as [|v vs Hv _ [IH1 IH2]]; [done|]. csimpl. rewrite IH1, IH2. rewrite (fits_byte _ _ Hv).
  split; [done|]. f_equal. destruct v; try done. simpl in *. apply bool_decide_eq_true in Hv.
  unfold byte_value. f_equal. rewrite byte_val_to_byte. apply Z.mod_small, Hv.
Qed.

Lemma unmarshal_slice_reads t u vs maxLen :
  Forall (λ v, fits v t (maxSliceLen c) = true ∧ reads u (enc v t) (Ok (canon v t))) vs →
  Z.of_nat (length vs) ≤ maxLen → Z.of_nat (length vs) ≤ MaxInt32 →
  reads (unmarshal_slice t u maxLen) (enc_int (Z.of_nat (length vs)) ++ mjoin ((λ v, enc v t) <$> vs))
    (Ok (VSlice ((λ v, canon v t) <$> vs))).
Proof.
  intros Hvs Hl Hi.
  eapply reads_cbind; [apply reads_checked, UnpackInt_reads; unfold is_uint, MaxInt32 in *; lia|].
  rewrite !decide_False by lia. destruct (decide (t = TUint W8)) as [->|_].
  - destruct (canon_bytes vs) as [-> <-]; [eapply Forall_impl; [exact Hvs|]; naive_solver|].
    apply (reads_cmap _ (λ bs, VSlice (byte_value <$> bs))), reads_checked, UnpackFixedBytes_reads.
    by rewrite length_fmap.
  - apply (reads_cmap _ VSlice), reads_coding_each. rewrite Nat2Z.id. clear Hl Hi.
    induction Hvs as [|v vs [_ Hv] _ IH]; csimpl; by constructor.
Qed.

Lemma unmarshal_array_reads t us vs :
  Forall (λ v, fits v t (maxSliceLen c) = true) vs →
  Forall2 (λ u v, reads u (enc v t) (Ok (canon v t))) us vs →
  reads (unmarshal_array (length vs) t us) (mjoin ((λ v, enc v t) <$> vs))
    (Ok (VArray ((λ v, canon v t) <$> vs))).
Proof.
  intros Hf Hvs. unfold unmarshal_array. destruct (decide (t = TUint W8)) as [->|_].
  - destruct (canon_bytes vs Hf) as [-> <-].
    apply (reads_cmap _ (λ bs, VArray (byte_value <$> bs))), reads_checked, UnpackFixedBytes_reads.
    by rewrite length_fmap.
  - apply (reads_cmap _ VArray), reads_coding_each. clear Hf.
    induction Hvs as [|u v us vs Hv _ IH]; csimpl; by constructor.
Qed.

(** What [unmarshal] does with a value of the encoding's length. *)
Definition reads_back (fuel : nat) (v : govalue) : Prop := ∀ t maxLen,
  fits v t maxLen = true → (length (enc v t) ≤ 4 * fuel + 3)%nat →
  reads (unmarshal c fuel t (zero_value t) maxLen) (enc v t) (Ok (canon v t)).

Lemma reads_back_all fuel vs t :
  Forall (reads_back fuel) vs → Forall (λ v, fits v t (maxSliceLen c) = true) vs →
  (length (mjoin ((λ v, enc v t) <$> vs)) ≤ 4 * fuel + 3)%nat →
  Forall (λ v, fits v t (maxSliceLen c) = true ∧
    reads (unmarshal c fuel t (zero_value t) (maxSliceLen c)) (enc v t) (Ok (canon v t))) vs.
Proof.
  intros Hb Hf Hl. apply Forall_forall. intros v Hv.
  apply (proj1 (Forall_forall _ _) Hf) in Hv as Hfv. split; [done|].
  apply (proj1 (Forall_forall _ _) Hb); [done|done|]. by eapply enc_in_list.
Qed.

Lemma fits_fields_lookup fs vs j f v :
  fits_fields fs ((λ v, fits v) <$> vs) = true → fs !! j = Some f → vs !! j = Some v →
  captured f = true → fits v f.2 (field_len (maxSliceLen c) f.1) = true.
Proof.
  revert vs j. induction fs as [|g fs IH]; intros [|w vs] [|j]; try done; csimpl.
  - intros [Hf _]%andb_prop [= ->] [= ->] Hc. rewrite Hc in Hf. by apply andb_prop in Hf as [_ Hf].
  - intros [_ Hf]%andb_prop. by apply IH.
Qed.

Lemma fits_fields_length fs ps : fits_fields fs ps = true → length ps = length fs.
Proof.
  revert ps. induction fs as [|f fs IH]; intros [|p ps]; simpl; try done.
  intros [_ Hf]%andb_prop. by rewrite (IH _ Hf).
Qed.

Lemma zero_value_struct name fs :
  zero_value (TStruct name fs) = VStruct ((λ f, zero_value f.2) <$> fs).
Proof. done. Qed.

Lemma unmarshal_struct_reads fuel name fs vs maxLen :
  Forall (reads_back fuel) vs → fits (VStruct vs) (TStruct name fs) maxLen = true →
  (length (enc (VStruct vs) (TStruct name fs)) ≤ 4 * fuel + 3)%nat →
  reads (unmarshal c fuel (TStruct name fs) (zero_value (TStruct name fs)) maxLen)
    (enc (VStruct vs) (TStruct name fs)) (Ok (canon (VStruct vs) (TStruct name fs))).
Proof.
  intros Hb Hf Hl. cbn [enc fits] in *. rewrite unmarshal_eq.
  rewrite zero_value_struct. remember ((λ f, zero_value f.2) <$> fs) as zs eqn:Ez.
  cbn [unmarshal_kind canon]. unfold fielder_fields, GetSerializedFields.
  destruct (fields_exported _ _ 0 Hf) as [ds Hds].
  destruct (serialized_fields _ _ 0 fs) as [ds'|] eqn:E; [|done]. clear Hds.
  apply fits_fields_length in Hf as Hlen. rewrite length_fmap in Hlen.
  apply (reads_cmap _ VStruct).
  apply (unmarshal_fields_reads _ [] ((λ f, unmarshal_kind c (unmarshal_rec fuel) f.2) <$> fs) fs
    _ _ _ 0 ds' E);
    rewrite ?Ez, ?length_fmap; try done.
  intros j f u e c' v Hfj Huj Hej Hcj Hvj.
  rewrite list_lookup_fmap, Hfj in Hvj. rewrite list_lookup_fmap, Hfj in Huj.
  rewrite list_lookup_fmap in Hej. destruct (vs !! j) as [w|] eqn:Hw; [|done].
  apply (list_lookup_fmap_Some (λ v, canon v)) in Hcj as (w'&->&Hw'). simplify_eq/=. split; [done|]. intros Hc. rewrite <-unmarshal_eq.
  apply (proj1 (Forall_forall _ _) Hb).
  - by eapply list_elem_of_lookup_2.
  - by eapply fits_fields_lookup.
  - by eapply enc_in_fields.
Qed.

Lemma unmarshal_reads fuel v : tc_ok (typer c) → reads_back fuel v.
Proof.
  intros Hok. revert fuel.
  induction v as [x|s|b| |v IH| |t' v IH| |vs IH|vs IH|vs IH|] using govalue_ind';
    intros fuel t maxLen Hf Hlen;
    destruct t as [w|w| | | |t|i|t|n t|name fs|name]; simpl in Hf; try done;
    try (rewrite unmarshal_eq; cbn [unmarshal_kind enc canon zero_value]).
  - apply bool_decide_eq_true in Hf. by apply (reads_cmap _ VInt), reads_checked, unpack_width_reads.
  - apply bool_decide_eq_true in Hf. rewrite <-(to_signed_mod w x) at 2 by done.
    apply (reads_cmap _ (λ x, VInt (to_signed w x))), reads_checked.
    rewrite <-be_bytes_mod, <-bits_pow. apply unpack_width_reads, Z.mod_pos_bound.
    rewrite bits_pow. by destruct w.
  - apply bool_decide_eq_true in Hf. by apply (reads_cmap _ VString), reads_checked, UnpackStr_reads.
  - apply (reads_cmap _ VBool), reads_checked, UnpackBool_reads.
  - apply (reads_cmap _ VPtr). rewrite <-unmarshal_eq. by apply IH.
  - apply andb_prop in Hf as [[Hp Hi]%andb_prop Hf]. apply bool_decide_eq_true in Hp as [e He].
    simpl in Hlen. rewrite He in *. simpl in *. rewrite length_app in Hlen.
    pose proof (prefix_length (TypeCodecLaws := TypeCodecLaws0) _ _ _ _ He) as Hpl.
    eapply reads_cbind; [by eapply UnpackPrefix_reads|].
    apply (reads_cmap _ (VInterface t')). destruct fuel as [|fuel]; [lia|]. apply IH; [done|lia].
  - apply bool_decide_eq_true in Hf. rewrite <-(app_nil_r (enc_int 0)).
    by apply (unmarshal_slice_reads t _ []).
  - apply andb_prop in Hf as [[Hl Hi]%andb_prop Hf]. apply fits_all_Forall in Hf.
    apply bool_decide_eq_true in Hl, Hi. cbn [enc] in Hlen. rewrite length_app in Hlen.
    apply unmarshal_slice_reads; [|done|done]. rewrite <-unmarshal_eq.
    apply reads_back_all; [|done|lia]. eapply Forall_impl; [exact IH|]. by intros ? ?.
  - apply andb_prop in Hf as [[[Hn Hl]%andb_prop Hm]%andb_prop Hf]. apply fits_all_Forall in Hf.
    apply bool_decide_eq_true in Hn. subst n. apply unmarshal_array_reads; [done|].
    assert (Forall (reads_back fuel) vs) as Hb by (eapply Forall_impl; [exact IH|]; by intros ? ?).
    pose proof (reads_back_all fuel vs t Hb Hf Hlen) as Hr. clear -Hr. rewrite fmap_replicate.
    induction Hr as [|v vs [_ Hv] _ IH]; csimpl; constructor; [|done]. by rewrite <-unmarshal_eq.
  - assert (Forall (reads_back fuel) vs) as Hb by (eapply Forall_impl; [exact IH|]; by intros ? ?).
    pose proof (unmarshal_struct_reads fuel name fs vs maxLen Hb Hf Hlen) as Hs.
    rewrite unmarshal_eq in Hs. exact Hs.
Qed.
(** ** Whatever [unmarshal] accepts is an encoding *)

(** Arrays are not longer than the codec marshals. *)
Fixpoint arrays_ok (t : gotype) : bool :=
  match t with
  | TPtr t | TSlice t => arrays_ok t
  | TArray n t =>
      bool_decide (Z.of_nat n ≤ MaxUint32) && bool_decide (Z.of_nat n ≤ maxSliceLen c) && arrays_ok t
  | TStruct _ fs => forallb id ((λ f, arrays_ok f.2) <$> fs)
  | _ => true
  end.

(** The registered types too. *)
Definition codec_ok : Prop :=
  tc_ok (typer c) ∧ 0 ≤ maxSliceLen c ∧
  ∀ t, is_Some (tc_prefix (typer c) t) → arrays_ok t = true.

Lemma byte_values e :
  mjoin ((λ v, enc v (TUint W8)) <$> (byte_value <$> e)) = e ∧
  forallb id ((λ v, fits v (TUint W8) (maxSliceLen c)) <$> (byte_value <$> e)) = true ∧
  (λ v, canon v (TUint W8)) <$> (byte_value <$> e) = byte_value <$> e.
Proof.
  induction e as [|b e (IH1&IH2&IH3)]; [done|]. csimpl. rewrite IH1, IH2, IH3.
  by rewrite Z.div_1_r, to_byte_val, bool_decide_true by apply byte_val_range.
Qed.

Lemma good_all t l vs es :
  Forall2 (good t l) vs es →
  mjoin es = mjoin ((λ v, enc v t) <$> vs) ∧ Forall (λ v, fits v t l = true) vs ∧
  (λ v, canon v t) <$> vs = vs.
Proof.
  induction 1 as [|v e vs es (->&Hf&Hc) _ (IH1&IH2&IH3)]; [by split_and!|]. csimpl.
  rewrite IH1, IH3, Hc. split_and!; [done|by constructor|done].
Qed.

Lemma coding_each_sound_good (us : list (coding govalue)) t l :
  Forall (λ u, sound u (good t l)) us →
  sound (coding_each us) (λ vs e, ∃ es, e = mjoin es ∧ Forall2 (good t l) vs es ∧ length vs = length us).
Proof.
  intros Hus. eapply sound_impl.
  - apply (sound_coding_each us (replicate (length us) (good t l))).
    clear -Hus. induction Hus; simpl; by constructor.
  - intros vs e (es&->&Hf). exists es. split; [done|].
    clear Hus. remember (replicate _ _) as Ps eqn:E. revert us E.
    induction Hf as [|P v e Ps vs es HP _ IH]; intros [|u us] E; try done. simplify_eq/=.
    destruct (IH us eq_refl) as [? ?]. split; [by constructor|by f_equal].
Qed.
Lemma unmarshal_slice_sound t u maxLen :
  sound u (good t (maxSliceLen c)) → sound (unmarshal_slice t u maxLen) (good (TSlice t) maxLen).
Proof.
  intros Hu. unfold unmarshal_slice. eapply sound_impl.
  - eapply sound_cbind; [apply sound_checked, UnpackInt_psound|]. intros n e0 [_ [Hn _]].
    instantiate (1 := λ n v e, good (TSlice t) maxLen v (enc_int n ++ e)). cbn beta.
    destruct (decide (maxLen < n)) as [|Hmax]; [apply sound_cfail|].
    destruct (decide (MaxInt32 < n)) as [|Hint]; [apply sound_cfail|].
    destruct (decide (t = TUint W8)) as [->|_].
    + eapply sound_impl; [apply sound_cmap, sound_checked, UnpackFixedBytes_psound|].
      intros v e' (bs&->&->&<-). unfold good. cbn [enc fits canon]. rewrite length_fmap.
      destruct (byte_values e') as (->&->&->). by rewrite !bool_decide_true by lia.
    + eapply sound_impl.
      { apply (sound_cmap _ VSlice), (coding_each_sound_good _ t (maxSliceLen c)).
        by apply Forall_replicate. }
      intros v e (vs&->&es&->&Hg&Hl). rewrite length_replicate in Hl.
      apply good_all in Hg as (->&Hf&Hc). unfold good. cbn [enc fits canon].
      rewrite Hc, Hl, Z2Nat.id by lia.
      apply fits_all_Forall in Hf. by rewrite Hf, !bool_decide_true by lia.
  - intros v e (n&e1&e2&->&[-> Hn]&Hg). exact Hg.
Qed.
Lemma unmarshal_array_sound n t us maxLen :
  Forall (λ u, sound u (good t (maxSliceLen c))) us → length us = n →
  arrays_ok (TArray n t) = true →
  sound (unmarshal_array n t us) (good (TArray n t) maxLen).
Proof.
  intros Hus <- [[Hu Hm]%andb_prop _]%andb_prop. unfold unmarshal_array.
  destruct (decide (t = TUint W8)) as [->|_].
  - eapply sound_impl; [apply sound_cmap, sound_checked, UnpackFixedBytes_psound|].
    intros v e (bs&->&->&Hl). apply Nat2Z.inj in Hl.
    unfold good. cbn [enc fits canon]. rewrite length_fmap.
    destruct (byte_values e) as (->&->&->). by rewrite Hl, Hu, Hm, bool_decide_true by done.
  - eapply sound_impl; [by apply (sound_cmap _ VArray), (coding_each_sound_good _ t (maxSliceLen c))|].
    intros v e (vs&->&es&->&Hg&Hl). apply good_all in Hg as (->&Hf&Hc). unfold good.
    cbn [enc fits canon]. rewrite Hc, Hl, Hu, Hm. apply fits_all_Forall in Hf.
    by rewrite Hf, bool_decide_true by done.
Qed.

Lemma unmarshal_kind_sound rec t maxLen :
  codec_ok → arrays_ok t = true →
  (∀ t', is_Some (tc_prefix (typer c) t') → sound (rec t') (good t' (maxSliceLen c))) →
  sound (unmarshal_kind c rec t (zero_value t) maxLen) (good t maxLen).
Proof.
  intros (Hok&_&_) Ht Hrec. revert maxLen Ht.
  induction t as [w|w| | | |t IH|i|t IH|n t IH|name fs IH|name] using gotype_ind';
    intros maxLen Ht; try apply sound_cfail; try (cbn [unmarshal_kind zero_value]).
  - eapply sound_impl; [apply sound_cmap, sound_checked, unpack_width_psound|].
    intros v e (x&->&->&Hx). unfold good. simpl. by rewrite bool_decide_true by done.
  - eapply sound_impl; [apply sound_cmap, sound_checked, unpack_width_psound|].
    intros v e (x&->&->&Hx). unfold good. simpl. split_and!; [|apply bool_decide_eq_true|done].
    + rewrite <-(be_bytes_mod _ (to_signed w x)), <-(be_bytes_mod _ x), <-bits_pow. f_equal.
      unfold to_signed. case_decide; [done|]. by rewrite <-(Z_mod_plus_full (x - _) 1), Z.mul_1_l, Z.sub_add.
    + unfold to_signed. assert (2 ^ bits w = 2 * 2 ^ (bits w - 1)) by (by destruct w).
      case_decide; lia.
  - eapply sound_impl; [apply sound_cmap, sound_checked, UnpackStr_psound|].
    intros v e (x&->&->&Hx). unfold good. simpl. by rewrite bool_decide_true by done.
  - eapply sound_impl; [apply sound_cmap, sound_checked, UnpackBool_psound|].
    intros v e (x&->&->). done.
  - eapply sound_impl; [by apply sound_cmap, IH|]. intros v e (x&->&->&Hf&Hc). unfold good. simpl.
    by rewrite Hf, Hc.
  - eapply sound_impl.
    + eapply sound_cbind; [by apply UnpackPrefix_sound|]. intros t e0 [Hp _].
      apply (sound_cmap _ (VInterface t)), Hrec. by eexists.
    + intros v e (t&e1&e2&->&[Hp Hi]&v'&->&->&Hf&Hc). unfold good. simpl.
      by rewrite Hp, Hi, Hf, Hc.
  - by apply unmarshal_slice_sound, IH.
  - rewrite fmap_replicate. apply unmarshal_array_sound; [|by rewrite length_replicate|done].
    apply Forall_replicate, IH. by apply andb_prop in Ht as [_ Ht].
  - destruct (fielder_fields c fs) as [ds|] eqn:Ed; [|apply sound_cfail].
    eapply sound_impl.
    + apply (sound_cmap _ VStruct).
      apply (unmarshal_fields_sound _ [] ((λ f, unmarshal_kind c rec f.2) <$> fs) fs 0 ds); [done..|].
      clear Ed. simpl in Ht. induction IH as [|f fs Hf _ IH]; [constructor|].
      apply andb_prop in Ht as [Hf' Ht]. csimpl. constructor; [|by apply IH].
      intros _. by apply Hf.
    + intros v e (r&->&ws&->&->&Hf&Hc). unfold good. cbn [enc fits canon]. simpl app. by rewrite Hc.
Qed.

Lemma unmarshal_sound fuel t maxLen :
  codec_ok → arrays_ok t = true →
  sound (unmarshal c fuel t (zero_value t) maxLen) (good t maxLen).
Proof.
  intros Hok. revert t maxLen. induction fuel as [|fuel IH]; intros t maxLen Ht; rewrite unmarshal_eq;
    (apply unmarshal_kind_sound; [done|done|]); intros t' Hp; [apply sound_cpanic|].
  apply IH. by apply Hok.
Qed.

(** ** [unmarshal] returns *)

Lemma unmarshal_kind_total rec t v maxLen n :
  tc_ok (typer c) → (∀ t', ctotal (n - 4) (rec t')) → has_shape v t = true →
  ctotal n (unmarshal_kind c rec t v maxLen).
Proof.
  intros Hok Hrec. revert v maxLen.
  induction t as [w|w| | | |t IH|i|t IH|k t IH|name fs IH|name] using gotype_ind';
    intros v maxLen Hs; cbn [unmarshal_kind]; try apply ctotal_pret.
  - apply ctotal_cbind; [apply ctotal_checked, unpack_width_total|intros; apply ctotal_pret].
  - apply ctotal_cbind; [apply ctotal_checked, unpack_width_total|intros; apply ctotal_pret].
  - apply ctotal_cbind; [apply ctotal_checked, UnpackStr_total|intros; apply ctotal_pret].
  - apply ctotal_cbind; [apply ctotal_checked, UnpackBool_total|intros; apply ctotal_pret].
  - apply ctotal_cbind; [apply IH, zero_value_shape|intros; apply ctotal_pret].
  - intros p Hp He Hn.
    destruct (UnpackPrefix_total (TypeCodecLaws := TypeCodecLaws0) _ (typer c) i n p Hp He Hn)
      as (r&p1&E1&Hp1&Hl1&Ho1&He1). unfold cbind, pbind. rewrite E1. destruct r as [t|e].
    + destruct (UnpackPrefix_sound (TypeCodecLaws := TypeCodecLaws0) _ (typer c) i Hok p t p1 Hp He E1)
        as (e&[-> _]&Hpre&_).
      apply (prefix_length (TypeCodecLaws := TypeCodecLaws0) _ _ _ _) in Hpre.
      destruct (Hrec t _ Hp1 (He1 eq_refl)) as (r&p2&->&Hp2&Hl2&Ho2&He2); [simpl; lia|].
      simpl in *. destruct r as [v'|e']; eexists _, p2; (split; [done|]); split_and!; try done; lia.
    + exists (Err e), p1. by split_and!.
  - unfold unmarshal_slice. apply ctotal_cbind; [apply ctotal_checked, rd_total_raw|]. intros m.
    repeat case_decide; try apply ctotal_pret.
    + apply ctotal_cbind; [apply ctotal_checked, rd_total_raw|intros; apply ctotal_pret].
    + apply ctotal_cbind; [|intros; apply ctotal_pret].
      apply ctotal_coding_each, Forall_replicate, IH, zero_value_shape.
  - simpl in Hs. destruct v as [| | | | | | | | |vs| |]; try done. unfold unmarshal_array.
    apply andb_prop in Hs as [_ Hs]. case_decide.
    + apply ctotal_cbind; [apply ctotal_checked, rd_total_raw|intros; apply ctotal_pret].
    + apply ctotal_cbind; [|intros; apply ctotal_pret]. apply ctotal_coding_each.
      clear -Hs IH. induction vs as [|v vs IHv]; [constructor|]. apply andb_prop in Hs as [Hv Hs].
      csimpl. constructor; [by apply IH|by apply IHv].
  - simpl in Hs. destruct v as [| | | | | | | | | |vs|]; try done.
    destruct (fielder_fields c fs) as [ds|] eqn:Ed; [|apply ctotal_pret].
    apply ctotal_cbind; [|intros; apply ctotal_pret].
    apply (unmarshal_fields_total n fs _ _ _ 0 Ed). intros j f Hj.
    apply shape_fields_Forall2 in Hs. destruct (Forall2_lookup_l _ _ _ _ _ Hs Hj) as (v&Hv&Hsv).
    exists (unmarshal_kind c rec f.2), v. rewrite list_lookup_fmap. simpl. rewrite Hj.
    split_and!; [done..|]. intros l. apply (proj1 (Forall_forall _ _) IH); [|done].
    by eapply list_elem_of_lookup_2.
Qed.

Lemma unmarshal_total fuel t v maxLen :
  tc_ok (typer c) → has_shape v t = true →
  ctotal (4 * Z.of_nat fuel + 4) (unmarshal c fuel t v maxLen).
Proof.
  intros Hok. revert t v maxLen. induction fuel as [|fuel IH]; intros t v maxLen Hs; rewrite unmarshal_eq;
    (apply unmarshal_kind_total; [done| |done]); intros t'.
  - intros p [? ?] _ ?. lia.
  - eapply ctotal_le; [apply IH, zero_value_shape|lia].
Qed.
End spec.
