(* ===== verification/CodecManager.v ===== *)
(** The registries of types and the manager of codecs keep the codec's promises
    ([codec/linearcodec], [codec/hierarchycodec], [codec/manager.go]). *)

From Stdlib Require Import Strings.Byte Strings.String.
From S2P Require Import Prelude Ids Packer CodecTypes Codec CodecSpec CodecRoundTrip.

Section registries.
Context `{GoAppend} (Implements : gotype → positive → bool).
#[local] Existing Instance linear_TypeCodec.
#[local] Existing Instance hierarchy_TypeCodec.

(** ** The linear registry *)

(** The two maps are inverse to each other. *)
Record linear_ok (c : linearCodec) : Prop := {
  lo_inverse : ∀ t id, lc_typeToTypeID c !! t = Some id ↔ lc_typeIDToType c !! id = Some t;
  lo_range : ∀ t id, lc_typeToTypeID c !! t = Some id → is_uint 32 id;
}.

#[export] Instance linear_Prefix : TypeCodecPrefix linearCodec :=
  { tc_prefix c t := enc_int <$> lc_typeToTypeID c !! t; tc_ok := linear_ok }.

#[export] Instance linear_Laws : @TypeCodecLaws Implements linearCodec (linear_TypeCodec Implements) linear_Prefix.
Proof.
  split.
  - intros c t e. simpl. intros (id&_&->)%fmap_Some. apply length_be_bytes.
  - intros c t e. simpl. unfold linear_PackPrefix. intros (id&->&->)%fmap_Some.
    apply codes_checked, PackInt_appends.
  - intros c i t e Hok. simpl. intros (id&Hid&->)%fmap_Some Hi. unfold linear_UnpackPrefix.
    rewrite <-(app_nil_r (enc_int id)).
    eapply reads_cbind; [apply reads_checked, UnpackInt_reads; by eapply lo_range|].
    apply lo_inverse in Hid; [|done]. rewrite Hid, Hi. apply reads_cret.
  - intros c i Hok. simpl. unfold linear_UnpackPrefix. eapply sound_impl.
    + eapply sound_cbind; [apply sound_checked, UnpackInt_psound|]. intros id ? _.
      instantiate (1 := λ id t e, lc_typeIDToType c !! id = Some t ∧ Implements t i = true ∧ e = []).
      cbn beta. destruct (lc_typeIDToType c !! id) as [t|]; [|apply sound_cfail].
      destruct (Implements t i) eqn:Hi; [|apply sound_cfail].
      eapply sound_impl; [apply sound_cret|]. by intros ? ? [-> ->].
    + intros t e (id&e1&e2&->&[-> _]&Hid&Hi&->). split; [|done].
      apply lo_inverse in Hid; [|done]. by rewrite Hid, app_nil_r.
  - intros c i n. simpl. unfold linear_UnpackPrefix.
    apply ctotal_cbind; [apply ctotal_checked, rd_total_raw|]. intros id.
    repeat case_match; apply ctotal_pret.
Qed.

(** Registrations and skips; nobody skips a negative number. *)
Inductive linear_call := LRegister (t : gotype) | LSkip (num : Z).

Definition linear_do (c : linearCodec) (o : linear_call) : linearCodec :=
  match o with
  | LRegister t => (linear_RegisterType t c).2
  | LSkip num => linear_SkipRegistrations num c
  end.

Definition linear_cost (o : linear_call) : Z := match o with LRegister _ => 1 | LSkip num => num end.

(** The identifiers in use are below the next one. *)
Definition linear_inv (c : linearCodec) (n : Z) : Prop :=
  linear_ok c ∧ 0 ≤ lc_nextTypeID c ≤ n ∧
  ∀ t id, lc_typeToTypeID c !! t = Some id → id < lc_nextTypeID c.

Lemma linear_do_inv c n o :
  linear_inv c n → 0 ≤ linear_cost o → n + linear_cost o < 2 ^ 32 →
  linear_inv (linear_do c o) (n + linear_cost o).
Proof.
  intros ([Hinv Hrng]&Hn&Hlt) Ho Hsum. destruct o as [t|num]; simpl in *.
  - unfold linear_RegisterType. destruct (lc_typeToTypeID c !! t) as [id|] eqn:Ht; simpl.
    { split_and!; try done; lia. }
    unfold linear_inv. simpl. rewrite wrap_id by (unfold is_uint; lia). split_and!; [|lia..|].
    + assert (∀ t' id, <[t := lc_nextTypeID c]> (lc_typeToTypeID c) !! t' = Some id ↔
        <[lc_nextTypeID c := t]> (lc_typeIDToType c) !! id = Some t') as Hi.
      { intros t' id. rewrite !lookup_insert_Some, <-Hinv. split.
        - intros [[-> ->]|[Hne Hid]]; [by left|]. right. split; [|done]. apply Hlt in Hid. lia.
        - intros [[-> ->]|[Hne Hid]]; [by left|]. right. split; [congruence|done]. }
      split; simpl; [exact Hi|]. intros t' id [[-> <-]|[_ Hid]]%lookup_insert_Some; [unfold is_uint; lia|].
      by apply Hrng in Hid.
    + intros t' id [[_ <-]|[_ Hid]]%lookup_insert_Some; [lia|]. apply Hlt in Hid. lia.
  - unfold linear_inv. simpl. rewrite (wrap_id 32 num), wrap_id by (unfold is_uint; lia).
    split_and!; [done|lia..|]. intros t id Hid%Hlt. lia.
Qed.

Lemma linear_run_inv c n os :
  linear_inv c n → Forall (λ o, 0 ≤ linear_cost o) os → n + sumZ (linear_cost <$> os) < 2 ^ 32 →
  linear_inv (foldl linear_do c os) (n + sumZ (linear_cost <$> os)).
Proof.
  intros Hc Hos. revert c n Hc. induction Hos as [|o os Ho Hos IH]; intros c n Hc Hsum; csimpl in *.
  { rewrite sumZ_nil, Z.add_0_r. done. }
  rewrite sumZ_cons in *. assert (0 ≤ sumZ (linear_cost <$> os)).
  { apply sumZ_nonneg. by apply Forall_fmap. }
  rewrite Z.add_assoc. apply IH; [|lia]. apply linear_do_inv; [done|done|lia].
Qed.

Lemma linear_inv_New : linear_inv linear_New 0.
Proof. split_and!; [|done..]. split; intros t id; simpl; by rewrite !lookup_empty. Qed.

(** ** The hierarchical registry *)

Record hierarchy_ok (c : hierarchyCodec) : Prop := {
  ho_inverse : ∀ t id, hc_typeToTypeID c !! t = Some id ↔ hc_typeIDToType c !! id = Some t;
  ho_range : ∀ t id, hc_typeToTypeID c !! t = Some id → is_uint 16 id.1 ∧ is_uint 16 id.2;
}.

Definition enc_typeID (id : Z * Z) : bytes := be_bytes 2 id.1 ++ be_bytes 2 id.2.

#[export] Instance hierarchy_Prefix : TypeCodecPrefix hierarchyCodec :=
  { tc_prefix c t := enc_typeID <$> hc_typeToTypeID c !! t; tc_ok := hierarchy_ok }.

Lemma UnpackShort_psound : psound UnpackShort (λ x e, e = be_bytes 2 x ∧ is_uint 16 x).
Proof. exact (psound_be 2). Qed.

Lemma unpack_typeID_psound :
  psound (pbind UnpackShort (λ g, pbind UnpackShort (λ t, pret (g, t)))) (λ id e, e = enc_typeID id).
Proof.
  eapply psound_impl.
  - eapply psound_bind; [apply UnpackShort_psound|apply rd_total_raw|intros g; rd_total|].
    intros g. eapply psound_bind; [apply UnpackShort_psound|apply rd_total_raw|intros t; rd_total|].
    intros t. apply (psound_ret (g, t)).
  - intros id e (g&e1&e2&->&[-> _]&t&e3&e4&->&[-> _]&->&->). unfold enc_typeID. by rewrite app_nil_r.
Qed.

#[export] Instance hierarchy_Laws :
  @TypeCodecLaws Implements hierarchyCodec (hierarchy_TypeCodec Implements) hierarchy_Prefix.
Proof.
  split.
  - intros c t e. simpl. intros (id&_&->)%fmap_Some. unfold enc_typeID.
    by rewrite length_app, !length_be_bytes.
  - intros c t e. simpl. unfold hierarchy_PackPrefix. intros ([g id]&->&->)%fmap_Some.
    apply codes_checked, appends_bind; apply PackShort_appends.
  - intros c i t e Hok. simpl. intros ([g id]&Hid&->)%fmap_Some Hi. unfold hierarchy_UnpackPrefix.
    rewrite <-(app_nil_r (enc_typeID _)). destruct (ho_range _ Hok _ _ Hid) as [Hg Hr].
    eapply reads_cbind.
    { apply reads_checked. unfold enc_typeID. eapply reads_bind; [by apply UnpackShort_reads|].
      apply (reads_map _ (pair g)). by apply UnpackShort_reads. }
    apply ho_inverse in Hid; [|done]. simpl. rewrite Hid, Hi. apply reads_cret.
  - intros c i Hok. simpl. unfold hierarchy_UnpackPrefix. eapply sound_impl.
    + eapply sound_cbind; [apply sound_checked, unpack_typeID_psound|]. intros id ? _.
      instantiate (1 := λ id t e, hc_typeIDToType c !! id = Some t ∧ Implements t i = true ∧ e = []).
      cbn beta. destruct (hc_typeIDToType c !! id) as [t|]; [|apply sound_cfail].
      destruct (Implements t i) eqn:Hi; [|apply sound_cfail].
      eapply sound_impl; [apply sound_cret|]. by intros ? ? [-> ->].
    + intros t e (id&e1&e2&->&->&Hid&Hi&->). split; [|done].
      apply ho_inverse in Hid; [|done]. by rewrite Hid, app_nil_r.
  - intros c i n. simpl. unfold hierarchy_UnpackPrefix.
    apply ctotal_cbind; [apply ctotal_checked; rd_total|]. intros id.
    repeat case_match; apply ctotal_pret.
Qed.
Inductive hierarchy_call := HRegister (t : gotype) | HSkip (num : Z) | HNextGroup.

Definition hierarchy_do (c : hierarchyCodec) (o : hierarchy_call) : hierarchyCodec :=
  match o with
  | HRegister t => (hierarchy_RegisterType t c).2
  | HSkip num => hierarchy_SkipRegistrations num c
  | HNextGroup => hierarchy_NextGroup c
  end.

(** The call stays within the 16 bits of groups and numbers. *)
Definition hierarchy_room (c : hierarchyCodec) (o : hierarchy_call) : Prop :=
  match o with
  | HRegister _ => hc_nextTypeID c + 1 < 2 ^ 16
  | HSkip num => 0 ≤ num ∧ hc_nextTypeID c + num < 2 ^ 16
  | HNextGroup => hc_currentGroupID c + 1 < 2 ^ 16
  end.

Definition hierarchy_inv (c : hierarchyCodec) : Prop :=
  hierarchy_ok c ∧ is_uint 16 (hc_currentGroupID c) ∧ is_uint 16 (hc_nextTypeID c) ∧
  ∀ t id, hc_typeToTypeID c !! t = Some id →
    id.1 < hc_currentGroupID c ∨ id.1 = hc_currentGroupID c ∧ id.2 < hc_nextTypeID c.

Lemma hierarchy_do_inv c o :
  hierarchy_inv c → hierarchy_room c o → hierarchy_inv (hierarchy_do c o).
Proof.
  intros ([Hinv Hrng]&Hg&Hn&Hlt) Hroom. destruct o as [t|num|]; simpl in *.
  - unfold hierarchy_RegisterType. destruct (hc_typeToTypeID c !! t) as [id|] eqn:Ht; simpl.
    { by split_and!. }
    unfold hierarchy_inv. simpl. rewrite wrap_id by (unfold is_uint in *; lia).
    split_and!; [|done|unfold is_uint in *; lia|].
    + set (new := (hc_currentGroupID c, hc_nextTypeID c)).
      assert (∀ t' id, <[t := new]> (hc_typeToTypeID c) !! t' = Some id ↔
        <[new := t]> (hc_typeIDToType c) !! id = Some t') as Hi.
      { intros t' id. rewrite !lookup_insert_Some, <-Hinv. split.
        - intros [[-> ->]|[Hne Hid]]; [by left|]. right. split; [|done]. intros <-.
          apply Hlt in Hid. simpl in Hid. lia.
        - intros [[-> ->]|[Hne Hid]]; [by left|]. right. split; [congruence|done]. }
      split; simpl; [exact Hi|]. intros t' id [[-> <-]|[_ Hid]]%lookup_insert_Some; [done|].
      by apply Hrng in Hid.
    + intros t' id [[_ <-]|[_ Hid]]%lookup_insert_Some; simpl; [lia|]. apply Hlt in Hid. lia.
  - destruct Hroom. unfold hierarchy_inv, is_uint in *. simpl.
    rewrite (wrap_id 16 num), wrap_id by (unfold is_uint; lia).
    split_and!; [done|lia..|]. intros t id Hid%Hlt. lia.
  - unfold hierarchy_inv, is_uint in *. simpl. rewrite wrap_id by (unfold is_uint; lia).
    split_and!; [done|lia..|]. intros t id Hid%Hlt. lia.
Qed.
End registries.

(** ** The manager *)

Section manager.
Context `{GoAppend} (Implements : gotype → positive → bool).
Context {R : Type} `{TypeCodec R, TypeCodecPrefix R} `{!TypeCodecLaws Implements R}.

Definition fresh (bs : bytes) : Packer := mkPacker None 0 bs (Z.of_nat (length bs)) 0.

Lemma fresh_ok bs : rd_ok (fresh bs) ∧ p_Bytes (fresh bs) = bs.
Proof.
  unfold fresh, rd_ok, p_cap, p_Bytes. simpl. rewrite Nat2Z.id, firstn_all. split; [lia|done].
Qed.

(** The bytes [Marshal] returns, when it does. *)
Lemma manager_Marshal_spec (m : manager R) version c t v :
  codecs m !! version = Some c → 0 ≤ maxSliceLen c → fits Implements c v t (maxSliceLen c) = true →
  0 ≤ maxSize m →
  manager_Marshal m version (Some (t, v)) =
    Some (let bs := be_bytes 2 version ++ enc c v t in
      if decide (maxSize m < 2) then Err errCantPackVersion
      else if decide (Z.of_nat (length bs) ≤ maxSize m) then Ok bs
      else Err (errPacker errBadLength)).
Proof.
  intros Hc Hmax Hf Hm. unfold manager_Marshal. rewrite Hc.
  set (p := mkPacker None (maxSize m) (zeros initialSliceCap) 0 0).
  assert (wf_w p) as Hp by (unfold wf_w, p_cap; simpl; lia).
  destruct (PackShort_appends version p Hp) as [_ Hs].
  destruct (Hs eq_refl eq_refl) as (p1&->&Hp1&Hr). simpl in Hr. unfold Errored.
  cbv zeta. rewrite length_app, length_be_bytes.
  destruct (decide (2 ≤ maxSize m)) as [Hd|Hd].
  - rewrite decide_True in Hr by lia. rewrite decide_False by lia.
    destruct Hr as (He&Hb&Ho&Hmx). rewrite He. cbn [MarshalInto].
    destruct (marshal_codes Implements c v t _ Hmax Hf p1 Hp1 He Ho) as (r&p2&->&Hp2&Hr2).
    assert (p_len p1 = 2) as Hl.
    { destruct Hp1 as (?&?&?). rewrite <-(length_p_Bytes p1) by lia. by rewrite Hb. }
    rewrite Hl, Hmx in Hr2.
    replace (2 + Z.of_nat (length (enc c v t))) with (Z.of_nat (2 + length (enc c v t))) in Hr2 by lia.
    destruct (decide (_ ≤ maxSize m)); [|by subst]. destruct Hr2 as (->&_&->&_). by rewrite Hb.
  - rewrite decide_False in Hr by lia. rewrite Hr. by rewrite decide_True by lia.
Qed.

(** The version is read first. *)
Lemma manager_Unmarshal_version (m : manager R) version c bs dest :
  codecs m !! version = Some c → is_uint 16 version → dest ≠ None →
  Z.of_nat (length (be_bytes 2 version ++ bs)) ≤ maxSize m →
  manager_Unmarshal m (be_bytes 2 version ++ bs) dest =
    match Unmarshal c bs dest with Some r => Some (version, r) | None => None end.
Proof.
  intros Hc Hv Hd Hm. unfold manager_Unmarshal. destruct dest as [dest|]; [|done].
  rewrite decide_False by lia. destruct (fresh_ok (be_bytes 2 version ++ bs)) as [[_ Hok] Hb].
  pose proof (UnpackShort_reads version Hv (fresh (be_bytes 2 version ++ bs)) [] bs) as Hr.
  unfold fresh in *. rewrite Hr; [|simpl; split; [lia|exact Hok]|done|by rewrite Hb|done].
  unfold Errored. simpl p_Err. cbn iota. rewrite Hc. cbn [p_Offset set_Offset app].
  rewrite Nat2Z.id. unfold p_Bytes in Hb |- *. cbn [p_len p_arr set_Offset] in *.
  by rewrite Hb, drop_app_length.
Qed.
Lemma consumes_rest p p' e :
  rd_ok p → consumes p p' e →
  drop (Z.to_nat (p_Offset p)) (p_Bytes p) = e ++ drop (Z.to_nat (p_Offset p')) (p_Bytes p').
Proof.
  intros [[Ho _] _] [-> [post Hp]]. unfold p_Bytes in *. cbn [p_Offset set_Offset p_len p_arr].
  rewrite Z2Nat.inj_add, Nat2Z.id, <-drop_drop, Hp, drop_app_length by lia. done.
Qed.

Lemma Unmarshal_enc c bs t v :
  tc_ok (typer c) → fits Implements c v t (maxSliceLen c) = true → bs = enc c v t →
  Unmarshal c bs (Some (TPtr t, VPtr (zero_value t))) = Some (Ok (canon c v t)).
Proof.
  intros Hok Hf ->. set (bs := enc c v t). unfold Unmarshal.
  destruct (fresh_ok bs) as [[_ Hl] Hb]. unfold fresh in *.
  rewrite (unmarshal_reads Implements c (length bs / 4) v Hok t (maxSliceLen c) Hf) with (pre := []) (post := []);
    [| |simpl; split; [lia|exact Hl]|done|by rewrite app_nil_r|done].
  - cbn [p_Offset set_Offset app]. by rewrite decide_False by (unfold bs; lia).
  - fold bs. pose proof (Nat.div_mod_eq (length bs) 4). pose proof (Nat.mod_upper_bound (length bs) 4). lia.
Qed.

Lemma Unmarshal_good c bs t v :
  codec_ok c → arrays_ok c t = true →
  Unmarshal c bs (Some (TPtr t, VPtr (zero_value t))) = Some (Ok v) →
  good Implements c t (maxSliceLen c) v bs.
Proof.
  intros Hok Ht. unfold Unmarshal. destruct (fresh_ok bs) as [Hr Hb]. unfold fresh in *.
  destruct (unmarshal _ _ _ _ _ _) as [[[v'|e] p']|] eqn:E; try done.
  destruct (decide _) as [|Ho]; [done|]. intros [= ->].
  destruct (unmarshal_sound Implements c _ t (maxSliceLen c) Hok Ht _ _ _ Hr eq_refl E)
    as (e&[-> [post Hp]]&Hg). simpl in Ho, Hp. rewrite Hb, drop_0 in Hp. subst bs.
  rewrite length_app in Ho. assert (length post = 0)%nat as ->%nil_length_inv by lia.
  by rewrite app_nil_r.
Qed.

Lemma Unmarshal_total c bs dest :
  tc_ok (typer c) → (∀ t v, dest = Some (TPtr t, VPtr v) → has_shape v t = true) →
  is_Some (Unmarshal c bs dest).
Proof.
  intros Hok Hs. unfold Unmarshal. destruct dest as [[t v]|]; [|by eexists].
  destruct t as [w|w| | | |t|i|t|n t|name fs|name]; try by eexists.
  destruct v as [| | | |v| | | | | | |]; try by eexists.
  destruct (fresh_ok bs) as [Hr _]. unfold fresh in *.
  destruct (unmarshal_total Implements c (length bs / 4) t v (maxSliceLen c) Hok (Hs _ _ eq_refl) _ Hr eq_refl)
    as (r&p'&->&_).
  - cbn [p_len p_Offset]. pose proof (Nat.div_mod_eq (length bs) 4).
    pose proof (Nat.mod_upper_bound (length bs) 4). lia.
  - destruct r; [|by eexists]. case_decide; by eexists.
Qed.

(** ** The theorems *)

(** C17: a value the codec accepts is read back from its bytes, with nil slices
    empty and the fields that are not serialised zero; it has bytes exactly when they
    are not longer than the maximal size. *)
Theorem codec_manager_roundtrip (m : manager R) version c t v :
  codecs m !! version = Some c → is_uint 16 version → codec_ok c → 2 ≤ maxSize m →
  fits Implements c v t (maxSliceLen c) = true →
  if decide (2 + Z.of_nat (length (enc c v t)) ≤ maxSize m) then
    ∃ bs, manager_Marshal m version (Some (t, v)) = Some (Ok bs) ∧
      manager_Unmarshal m bs (Some (TPtr t, VPtr (zero_value t))) = Some (version, Ok (canon c v t))
  else manager_Marshal m version (Some (t, v)) = Some (Err (errPacker errBadLength)).
Proof.
  intros Hc Hv (Hok&Hmax&_) Hm Hf.
  rewrite (manager_Marshal_spec m version c t v Hc Hmax Hf) by lia. cbv zeta.
  rewrite (decide_False (P := maxSize m < 2)) by lia.
  assert (Z.of_nat (length (be_bytes 2 version ++ enc c v t)) = 2 + Z.of_nat (length (enc c v t))) as El.
  { rewrite length_app, length_be_bytes. lia. }
  rewrite El. destruct (decide (_ ≤ maxSize m)); [|done]. eexists. split; [done|].
  rewrite (manager_Unmarshal_version m version c) by (done || lia).
  by rewrite (Unmarshal_enc c _ t v Hok Hf eq_refl).
Qed.

(** C18: the bytes of a value are unique: whatever bytes are accepted are those
    that marshalling the value read gives back. *)
Theorem codec_manager_canonical (m : manager R) bs version c t v :
  codecs m !! version = Some c → codec_ok c → arrays_ok c t = true →
  manager_Unmarshal m bs (Some (TPtr t, VPtr (zero_value t))) = Some (version, Ok v) →
  manager_Marshal m version (Some (t, v)) = Some (Ok bs) ∧ canon c v t = v.
Proof.
  intros Hc Hok Ht. unfold manager_Unmarshal.
  destruct (decide _) as [|Hm]; [done|]. destruct (fresh_ok bs) as [Hr Hb]. unfold fresh in *.
  destruct (UnpackShort _) as [[ver p]|] eqn:E; [|done].
  destruct (Errored p) eqn:Ee; [done|]. unfold Errored in Ee. destruct (p_Err p) eqn:Ep; [done|].
  destruct (UnpackShort_psound _ _ _ Hr eq_refl E Ep) as (e&Hcons&->&_).
  apply consumes_rest in Hcons; [|done]. cbn [p_Offset] in Hcons. rewrite Hb, drop_0 in Hcons.
  destruct (codecs m !! ver) as [c'|] eqn:Ec; [|done].
  destruct (Unmarshal _ _ _) as [r|] eqn:Eu; [|done]. intros [= -> ->].
  rewrite Hc in Ec. injection Ec as <-.
  destruct (Unmarshal_good c _ t v Hok Ht Eu) as (Henc&Hf&Hcan). rewrite Henc in Hcons.
  assert (Z.of_nat (length bs) = 2 + Z.of_nat (length (enc c v t))) as El.
  { rewrite Hcons, length_app, length_be_bytes. lia. }
  destruct Hok as (_&Hmax&_).
  rewrite (manager_Marshal_spec m version c t v Hc Hmax Hf) by lia. cbv zeta. rewrite <-Hcons.
  by rewrite decide_False, decide_True by lia.
Qed.

(** C19: unmarshalling returns, with a value or an error, on every byte string and
    for every destination of the right shape, however deeply the bytes nest
    interfaces. *)
Theorem codec_manager_returns (m : manager R) bs dest :
  map_Forall (λ _ c, tc_ok (typer c)) (codecs m) →
  (∀ t v, dest = Some (TPtr t, VPtr v) → has_shape v t = true) →
  ∃ version r, manager_Unmarshal m bs dest = Some (version, r).
Proof.
  intros Hok Hs. unfold manager_Unmarshal. destruct dest as [dest|]; [|by eexists _, _].
  case_decide; [by eexists _, _|]. destruct (fresh_ok bs) as [Hr _].
  destruct (rd_total_raw ShortLen 0 be_value _ Hr) as (version&p&E&_).
  unfold fresh, UnpackShort in *. rewrite E. destruct (Errored p); [by eexists _, _|].
  destruct (codecs m !! version) as [c|] eqn:Hc; [|by eexists _, _].
  destruct (Unmarshal_total c (drop (Z.to_nat (p_Offset p)) (p_Bytes p)) (Some dest)) as [r ->];
    [by eapply Hok|done|by eexists _, _].
Qed.
End manager.

(** ** A codec with two registered types *)

Section sample.
#[local] Existing Instance go_append_tight.

(** A struct with a field that is not serialised, an array, a slice of interfaces. *)
Definition sample_tag : list (string * string) := [("serialize", "true")]%string.
Definition sample_short : list (string * string) := [("serialize", "true"); ("len", "4")]%string.
Definition sample_key : gotype :=
  TStruct "Key" [(mkFieldInfo "id" false [], TArray 2 (TUint W8));
                 (mkFieldInfo "Bytes" true sample_short, TSlice (TUint W8))].
Definition sample_list : gotype :=
  TStruct "List" [(mkFieldInfo "Id" true sample_tag, TArray 2 (TUint W8));
                  (mkFieldInfo "Delta" true sample_tag, TInt W32);
                  (mkFieldInfo "Items" true sample_tag, TSlice (TInterface 1))].
Definition sample_implements (t : gotype) (i : positive) : bool :=
  bool_decide (t = TPtr sample_key ∨ t = TPtr sample_list).
Definition sample_registry : linearCodec :=
  foldl linear_do linear_New [LRegister (TPtr sample_key); LSkip 3; LRegister (TPtr sample_list)].
Definition sample_codec : genericCodec linearCodec :=
  mkGenericCodec sample_registry [DefaultTagName] 100.
Definition sample_manager : manager linearCodec :=
  (RegisterCodec 7 sample_codec (NewManager 200)).2.

Definition sample_value : govalue :=
  VStruct [VArray [VInt 1; VInt 255]; VInt (-2);
    VSlice [VInterface (TPtr sample_key) (VPtr (VStruct [VArray [VInt 9; VInt 9]; VNilSlice]));
            VInterface (TPtr sample_list) (VPtr (VStruct [VArray [VInt 0; VInt 0]; VInt 5; VNilSlice]))]].

#[local] Instance sample_TypeCodec : TypeCodec linearCodec := linear_TypeCodec sample_implements.

Lemma sample_registry_ok : linear_ok sample_registry.
Proof.
  apply (linear_run_inv linear_New 0 [LRegister (TPtr sample_key); LSkip 3; LRegister (TPtr sample_list)]).
  - apply linear_inv_New.
  - repeat constructor; simpl; lia.
  - reflexivity.
Qed.

Lemma sample_codec_ok : codec_ok sample_codec.
Proof.
  split; [exact sample_registry_ok|]. split; [done|]. intros t [e He]. simpl in He.
  assert (bool_decide (map_Forall (λ t _, arrays_ok sample_codec t = true)
    (lc_typeToTypeID sample_registry)) = true) as Hall by (vm_compute; reflexivity).
  apply bool_decide_eq_true in Hall. destruct (lc_typeToTypeID sample_registry !! t) as [id|] eqn:Hid; [|done].
  exact (Hall t id Hid).
Qed.

Lemma codec_manager_roundtrip_witness :
  ∃ bs, manager_Marshal sample_manager 7 (Some (sample_list, sample_value)) = Some (Ok bs) ∧
    manager_Unmarshal sample_manager bs (Some (TPtr sample_list, VPtr (zero_value sample_list))) =
      Some (7, Ok (canon sample_codec sample_value sample_list)).
Proof.
  pose proof (codec_manager_roundtrip sample_implements sample_manager 7 sample_codec sample_list sample_value
    eq_refl ltac:(by unfold is_uint) sample_codec_ok ltac:(done) ltac:(vm_compute; reflexivity)) as Hw.
  assert (2 + Z.of_nat (length (enc sample_codec sample_value sample_list)) ≤ maxSize sample_manager)
    as Hle by (vm_compute; discriminate).
  rewrite decide_True in Hw by exact Hle. exact Hw.
Defined.

Lemma codec_manager_canonical_witness :
  ∃ bs, manager_Unmarshal sample_manager bs (Some (TPtr sample_key, VPtr (zero_value sample_key))) =
      Some (7, Ok (VStruct [VArray [VInt 0; VInt 0]; VSlice [VInt 8; VInt 9]])) ∧
    manager_Marshal sample_manager 7
      (Some (sample_key, VStruct [VArray [VInt 0; VInt 0]; VSlice [VInt 8; VInt 9]])) = Some (Ok bs).
Proof.
  exists [x00; x07; x00; x00; x00; x02; x08; x09]. assert (E :
    manager_Unmarshal sample_manager [x00; x07; x00; x00; x00; x02; x08; x09]
      (Some (TPtr sample_key, VPtr (zero_value sample_key))) =
      Some (7, Ok (VStruct [VArray [VInt 0; VInt 0]; VSlice [VInt 8; VInt 9]])))
    by (vm_compute; reflexivity).
  split; [exact E|].
  exact (proj1 (codec_manager_canonical sample_implements sample_manager _ 7 sample_codec sample_key _
    eq_refl sample_codec_ok ltac:(vm_compute; reflexivity) E)).
Defined.

(** An interface whose prefix is not a registered type. *)
Lemma codec_manager_returns_witness :
  ∃ version r, manager_Unmarshal sample_manager [x00; x07; x01; x02; x00; x00; x00; x00; x00; x00; x00; x01; x00; x00; x00; x01]
    (Some (TPtr sample_list, VPtr (zero_value sample_list))) = Some (version, r).
Proof.
  apply (codec_manager_returns sample_implements sample_manager).
  - intros version c Hc. change (codecs sample_manager) with (<[7 := sample_codec]> (∅ : gmap Z _)) in Hc.
    revert Hc. intros [[_ <-]|[_ Hc]]%lookup_insert_Some; [exact sample_registry_ok|].
    rewrite lookup_empty in Hc. discriminate.
  - intros t v [= <- <-]. vm_compute. reflexivity.
Defined.
End sample.
