(* ===== verification/LinkedDB.v ===== *)
(** A linked list of key-value pairs in a database ([database/linkeddb]).

    Every pair is a node of a doubly linked list, stored under its key with a zero
    byte in front; the key of the head is stored under [0x01].  The head and the
    nodes are cached, an operation collects its writes in a batch and updates the
    caches once the batch is written.  The database is any [Database], the cache is
    the [LRU] of [Cache], the nodes are encoded by the codec.  [None] is a panic. *)

From Stdlib Require Import Strings.Byte Strings.String.
From S2P Require Import Prelude Ids Packer Database LinkedHashmap Cache CodecTypes Codec.

(** ** Nodes and their codec *)

Record node := mkNode {
  n_Value : bytes;
  n_HasNext : bool;
  n_Next : bytes;
  n_HasPrevious : bool;
  n_Previous : bytes;
}.

#[export] Instance node_eq_dec : EqDecision node.
Proof. solve_decision. Defined.

Definition serialized (name : string) : fieldInfo :=
  mkFieldInfo name true [(DefaultTagName, TagValue)].
Definition TBytes : gotype := TSlice (TUint W8).
Definition node_type : gotype := TStruct "node"
  [(serialized "Value", TBytes); (serialized "HasNext", TBool); (serialized "Next", TBytes);
   (serialized "HasPrevious", TBool); (serialized "Previous", TBytes)].

Definition VBytes' (b : bytes) : govalue := VSlice (byte_value <$> b).
Definition node_value (n : node) : govalue :=
  VStruct [VBytes' (n_Value n); VBool (n_HasNext n); VBytes' (n_Next n);
           VBool (n_HasPrevious n); VBytes' (n_Previous n)].

Definition bytes_of_value (v : govalue) : bytes :=
  match v with VSlice vs => value_byte <$> vs | _ => [] end.
Definition bool_of_value (v : govalue) : bool := match v with VBool b => b | _ => false end.
Definition node_of_value (v : govalue) : node :=
  match v with
  | VStruct [v1; v2; v3; v4; v5] =>
      mkNode (bytes_of_value v1) (bool_of_value v2) (bytes_of_value v3)
        (bool_of_value v4) (bytes_of_value v5)
  | _ => mkNode [] false [] false []
  end.

Definition codecVersion : Z := 0.
Definition c_codec : genericCodec linearCodec := mkGenericCodec linear_New [DefaultTagName] MaxUint32.
Definition c : manager linearCodec := (RegisterCodec codecVersion c_codec (NewManager MaxInt32)).2.

(** ** The list *)

Inductive ldb_error := LErrDb (e : db_error) | LErrCodec (e : codec_error).

#[export] Instance ldb_error_eq_dec : EqDecision ldb_error.
Proof. solve_decision. Defined.

Abbreviation LErrNotFound := (LErrDb ErrNotFound).

Declare Scope ldb_scope.

Section linkeddb.
Context `{GoRange, GoAppend} (Implements : gotype → positive → bool).
Context {D B It : Type} `{Database D B It}.
#[local] Hint Extern 0 (TypeCodec linearCodec) => exact (linear_TypeCodec Implements) : typeclass_instances.

Record linkedDB := mkLinkedDB {
  headKeyIsSynced : bool; headKeyExists : bool;
  headKeyIsUpdated : bool; updatedHeadKeyExists : bool;
  headKey : bytes; updatedHeadKey : bytes;
  nodeCache : @LRU bytes (option node) _ _;   (* [None] is the nil node *)
  updatedNodes : gmap bytes (option node);
  ldb_db : D;
  ldb_batch : B;
}.

Definition headKeyKey : bytes := [x01].
Definition defaultCacheSize : Z := 1024.

Definition ldb_New (db : D) (cacheSize : Z) : option linkedDB :=
  match db_NewBatch db with
  | None => None
  | Some batch =>
      Some (mkLinkedDB false false false false [] [] (lru_New cacheSize) ∅ db batch)
  end.
Definition ldb_NewDefault (db : D) : option linkedDB := ldb_New db defaultCacheSize.

Definition set_head (synced exists_ : bool) (key : bytes) (s : linkedDB) : linkedDB :=
  mkLinkedDB synced exists_ (headKeyIsUpdated s) (updatedHeadKeyExists s) key (updatedHeadKey s)
    (nodeCache s) (updatedNodes s) (ldb_db s) (ldb_batch s).
Definition set_updatedHead (updated exists_ : bool) (key : bytes) (s : linkedDB) : linkedDB :=
  mkLinkedDB (headKeyIsSynced s) (headKeyExists s) updated exists_ (headKey s) key
    (nodeCache s) (updatedNodes s) (ldb_db s) (ldb_batch s).
Definition set_nodeCache (x : LRU) (s : linkedDB) : linkedDB :=
  mkLinkedDB (headKeyIsSynced s) (headKeyExists s) (headKeyIsUpdated s) (updatedHeadKeyExists s)
    (headKey s) (updatedHeadKey s) x (updatedNodes s) (ldb_db s) (ldb_batch s).
Definition set_updatedNodes (x : gmap bytes (option node)) (s : linkedDB) : linkedDB :=
  mkLinkedDB (headKeyIsSynced s) (headKeyExists s) (headKeyIsUpdated s) (updatedHeadKeyExists s)
    (headKey s) (updatedHeadKey s) (nodeCache s) x (ldb_db s) (ldb_batch s).
Definition set_batch (b : B) (s : linkedDB) : linkedDB :=
  mkLinkedDB (headKeyIsSynced s) (headKeyExists s) (headKeyIsUpdated s) (updatedHeadKeyExists s)
    (headKey s) (updatedHeadKey s) (nodeCache s) (updatedNodes s) (ldb_db s) b.
Definition set_db (d : D) (s : linkedDB) : linkedDB :=
  mkLinkedDB (headKeyIsSynced s) (headKeyExists s) (headKeyIsUpdated s) (updatedHeadKeyExists s)
    (headKey s) (updatedHeadKey s) (nodeCache s) (updatedNodes s) d (ldb_batch s).

(** A method: a panic, or a result and the list after the call. *)
Definition ldb (A : Type) : Type := linkedDB → option (result ldb_error A * linkedDB).
Definition lret {A} (a : A) : ldb A := λ s, Some (Ok a, s).
Definition lfail {A} (e : ldb_error) : ldb A := λ s, Some (Err e, s).
(** Go on without an error. *)
Definition lbind {A X} (m : ldb A) (k : A → ldb X) : ldb X := λ s,
  match m s with
  | None => None
  | Some (Ok a, s) => k a s
  | Some (Err e, s) => Some (Err e, s)
  end.
(** Go on with the error at hand. *)
Definition ltry {A X} (m : ldb A) (k : result ldb_error A → ldb X) : ldb X := λ s,
  match m s with Some (r, s) => k r s | None => None end.
Definition lmod (f : linkedDB → linkedDB) : ldb unit := λ s, Some (Ok tt, f s).
(** A method of the batch. *)
Definition lbatch (f : B → result db_error unit * B) : ldb unit := λ s,
  let '(r, b) := f (ldb_batch s) in
  Some (match r with Ok _ => Ok tt | Err e => Err (LErrDb e) end, set_batch b s).

Notation "'let^' x := m 'in' k" := (lbind m (λ x, k))
  (at level 10, x name, m at level 100, k at level 200) : ldb_scope.
Notation "m ^; k" := (lbind m (λ _, k)) (at level 100, right associativity) : ldb_scope.
Open Scope ldb_scope.

Definition nodeKey (key : bytes) : bytes := x00 :: key.

Definition getHeadKey : ldb bytes := λ s,
  if headKeyIsSynced s then
    if headKeyExists s then Some (Ok (headKey s), s) else Some (Err LErrNotFound, s)
  else
    match db_Get headKeyKey (ldb_db s) with
    | Ok key => Some (Ok key, set_head true true key s)
    | Err ErrNotFound => Some (Err LErrNotFound, set_head true false (headKey s) s)
    | Err e => Some (Err (LErrDb e), s)
    end.

Definition putHeadKey (key : bytes) : ldb unit :=
  lmod (set_updatedHead true true key)^; lbatch (batch_Put headKeyKey key).

Definition deleteHeadKey : ldb unit :=
  lmod (λ s, set_updatedHead true false (updatedHeadKey s) s)^; lbatch (batch_Delete headKeyKey).

(** [nodeCache.Put]. *)
Definition cache_node (key : bytes) (n : option node) : ldb unit := λ s,
  match lru_put key n (nodeCache s) with
  | Some x => Some (Ok tt, set_nodeCache x s)
  | None => None
  end.

Definition getNode (key : bytes) : ldb node := λ s,
  match lru_get key (nodeCache s) with
  | None => None
  | Some (Some (Some n), x) => Some (Ok n, set_nodeCache x s)
  | Some (Some None, x) => Some (Err LErrNotFound, set_nodeCache x s)
  | Some (None, x) =>
      let s := set_nodeCache x s in
      match db_Get (nodeKey key) (ldb_db s) with
      | Err ErrNotFound => (cache_node key None^; lfail LErrNotFound) s
      | Err e => Some (Err (LErrDb e), s)
      | Ok nodeBytes =>
          match manager_Unmarshal c nodeBytes (Some (TPtr node_type, VPtr (zero_value node_type))) with
          | None => None
          | Some (_, Ok v) => (cache_node key (Some (node_of_value v))^; lret (node_of_value v)) s
          | Some (_, Err e) => Some (Err (LErrCodec e), s)
          end
      end
  end.

Definition putNode (key : bytes) (n : node) : ldb unit :=
  lmod (λ s, set_updatedNodes (<[key := Some n]> (updatedNodes s)) s)^;
  match manager_Marshal c codecVersion (Some (node_type, node_value n)) with
  | None => λ _, None
  | Some (Err e) => lfail (LErrCodec e)
  | Some (Ok nodeBytes) => lbatch (batch_Put (nodeKey key) nodeBytes)
  end.

Definition deleteNode (key : bytes) : ldb unit :=
  lmod (λ s, set_updatedNodes (<[key := None]> (updatedNodes s)) s)^;
  lbatch (batch_Delete (nodeKey key)).

Definition resetBatch : ldb unit := lmod (λ s,
  set_batch (batch_Reset (ldb_batch s))
    (set_updatedNodes ∅ (set_updatedHead false (updatedHeadKeyExists s) (updatedHeadKey s) s))).

(** The loop over [updatedNodes]. *)
Fixpoint cache_nodes (l : list (bytes * option node)) : ldb unit :=
  match l with
  | [] => lret tt
  | (key, n) :: l => cache_node key n^; cache_nodes l
  end.

Definition writeBatch : ldb unit := λ s,
  let '(r, d) := batch_Write (ldb_batch s) (ldb_db s) in
  let s := set_db d s in
  match r with
  | Err e => Some (Err (LErrDb e), s)
  | Ok _ =>
      let s := if headKeyIsUpdated s then set_head true (updatedHeadKeyExists s) (updatedHeadKey s) s
               else s in
      cache_nodes (go_range (updatedNodes s)) s
  end.

(** ** Operations *)

Definition ldb_Has (key : bytes) : ldb bool := λ s,
  Some (match db_Has (nodeKey key) (ldb_db s) with Ok b => Ok b | Err e => Err (LErrDb e) end, s).

Definition ldb_Get (key : bytes) : ldb bytes :=
  let^ node := getNode key in lret (n_Value node).

Definition ldb_Put (key value : bytes) : ldb unit :=
  resetBatch^;
  ltry (getNode key) (λ r,
    match r with
    | Ok n =>
        putNode key (mkNode value (n_HasNext n) (n_Next n) (n_HasPrevious n) (n_Previous n))^;
        writeBatch
    | Err (LErrDb ErrNotFound) =>
        ltry getHeadKey (λ r,
          match r with
          | Ok headKey =>
              let^ oldHead := getNode headKey in
              putNode headKey
                (mkNode (n_Value oldHead) (n_HasNext oldHead) (n_Next oldHead) true key)^;
              putNode key (mkNode value true headKey false [])^;
              putHeadKey key^; writeBatch
          | Err (LErrDb ErrNotFound) =>
              putNode key (mkNode value false [] false [])^; putHeadKey key^; writeBatch
          | Err e => lfail e
          end)
    | Err e => lfail e
    end).

Definition ldb_Delete (key : bytes) : ldb unit :=
  ltry (getNode key) (λ r,
    match r with
    | Err (LErrDb ErrNotFound) => lret tt
    | Err e => lfail e
    | Ok currentNode =>
        resetBatch^;
        deleteNode key^;
        if n_HasPrevious currentNode then
          let^ previousNode := getNode (n_Previous currentNode) in
          putNode (n_Previous currentNode)
            (mkNode (n_Value previousNode) (n_HasNext currentNode) (n_Next currentNode)
               (n_HasPrevious previousNode) (n_Previous previousNode))^;
          (if n_HasNext currentNode then
             let^ nextNode := getNode (n_Next currentNode) in
             putNode (n_Next currentNode)
               (mkNode (n_Value nextNode) (n_HasNext nextNode) (n_Next nextNode)
                  true (n_Previous currentNode))
           else lret tt)^;
          writeBatch
        else if negb (n_HasNext currentNode) then deleteHeadKey^; writeBatch
        else
          putHeadKey (n_Next currentNode)^;
          let^ nextNode := getNode (n_Next currentNode) in
          putNode (n_Next currentNode)
            (mkNode (n_Value nextNode) (n_HasNext nextNode) (n_Next nextNode) false [])^;
          writeBatch
    end).

Definition ldb_HeadKey : ldb bytes := getHeadKey.

Definition ldb_IsEmpty : ldb bool :=
  ltry ldb_HeadKey (λ r,
    match r with
    | Err (LErrDb ErrNotFound) => lret true
    | Err e => lfail e
    | Ok _ => lret false
    end).

Definition ldb_Head : ldb (bytes * bytes) :=
  let^ headKey := getHeadKey in
  let^ head := getNode headKey in
  lret (headKey, n_Value head).

(** ** Iterators *)

Record ldb_iterator := mkLdbIterator {
  li_initialized : bool; li_exhausted : bool;
  li_key : bytes; li_value : bytes; li_nextKey : bytes;
  li_err : option ldb_error;
}.

Definition ldb_NewIterator : ldb_iterator := mkLdbIterator false false [] [] [] None.

Definition ldb_NewIteratorWithStart (start : bytes) : ldb ldb_iterator :=
  ltry (ldb_Has start) (λ r,
    match r with
    | Ok true => lret (mkLdbIterator true false [] [] start None)
    | _ => lret ldb_NewIterator
    end).

(** The end of an iteration, with its error if there is one. *)
Definition li_stop (err : option ldb_error) (it : ldb_iterator) : ldb_iterator :=
  mkLdbIterator (li_initialized it) true [] [] (li_nextKey it) err.

(** Reading the node of the next key. *)
Definition li_step (it : ldb_iterator) : ldb (bool * ldb_iterator) :=
  ltry (getNode (li_nextKey it)) (λ r,
    match r with
    | Err (LErrDb ErrNotFound) => lret (false, li_stop (li_err it) it)
    | Err e => lret (false, li_stop (Some e) it)
    | Ok n =>
        lret (true, mkLdbIterator (li_initialized it) (negb (n_HasNext n)) (li_nextKey it) (n_Value n)
                (n_Next n) (li_err it))
    end).

Definition li_Next (it : ldb_iterator) : ldb (bool * ldb_iterator) :=
  if li_exhausted it then
    lret (false, mkLdbIterator (li_initialized it) true [] [] (li_nextKey it) (li_err it))
  else if li_initialized it then li_step it
  else
    let init key it := mkLdbIterator true (li_exhausted it) (li_key it) (li_value it) key (li_err it) in
    ltry getHeadKey (λ r,
      match r with
      | Err (LErrDb ErrNotFound) => lret (false, li_stop (li_err it) (init (li_nextKey it) it))
      | Err e => lret (false, li_stop (Some e) (init (li_nextKey it) it))
      | Ok headKey => li_step (init headKey it)
      end).

(** Reading [limit] entries. *)
Fixpoint li_collect (limit : nat) (it : ldb_iterator) : ldb (list (bytes * bytes) * ldb_iterator) :=
  match limit with
  | O => lret ([], it)
  | S limit =>
      let^ r := li_Next it in
      if r.1 : bool then
        let^ rest := li_collect limit r.2 in
        lret ((li_key r.2, li_value r.2) :: rest.1, rest.2)
      else lret ([], r.2)
  end.
End linkeddb.

Notation "'let^' x := m 'in' k" := (lbind m (λ x, k))
  (at level 10, x name, m at level 100, k at level 200) : ldb_scope.

Arguments linkedDB : clear implicits.
