(* ===== verification/LinkedDBSpec.v ===== *)
(** The linked list is an ordered map ([database/linkeddb]).

    [stored m l] says that the database [m] holds the list [l] of pairs, the most
    recently added first; [ldb_ok] adds that the caches agree with it.  A method is
    described by [runs]; while a batch is collected, [pending] tells what it will do
    to the nodes and to the head. *)

From Stdlib Require Import Strings.Byte Strings.String.
From S2P Require Import Prelude Ids Packer Database MemDB LinkedHashmap Cache CodecTypes Codec.
From S2P Require Import CodecSpec CodecRoundTrip CodecManager LinkedDB.

(** ** The codec of nodes *)

Definition small (b : bytes) : Prop := Z.of_nat (length b) ≤ 2 ^ 29.
Definition node_small (n : node) : Prop := small (n_Value n) ∧ small (n_Next n) ∧ small (n_Previous n).

Section node_codec.
Context `{GoAppend} (Implements : gotype → positive → bool).
#[local] Hint Extern 0 (TypeCodec linearCodec) => exact (linear_TypeCodec Implements) : typeclass_instances.

Lemma linear_New_ok : linear_ok linear_New.
Proof. split; intros t id; simpl; by rewrite !lookup_empty. Qed.

Definition node_bytes (n : node) : bytes := be_bytes 2 codecVersion ++ enc c_codec (node_value n) node_type.

Lemma fits_VBytes b l :
  Z.of_nat (length b) ≤ l → small b → fits Implements c_codec (VBytes' b) TBytes l = true.
Proof.
  intros Hl Hb. unfold VBytes', TBytes. cbn [fits]. rewrite length_fmap.
  destruct (byte_values Implements c_codec b) as (_&->&_).
  unfold small in *. rewrite !bool_decide_true; [done|unfold MaxInt32; lia|lia].
Qed.

Lemma node_fits n : node_small n → fits Implements c_codec (node_value n) node_type MaxUint32 = true.
Proof.
  intros (H1&H2&H3). unfold node_type, node_value. cbn [fits].
  assert (∀ b, small b → fits Implements c_codec (VBytes' b) TBytes (field_len (maxSliceLen c_codec)
    (serialized "Value")) = true) as Hb.
  { intros b Hb. apply fits_VBytes; [|done]. unfold small in Hb. unfold field_len, MaxUint32. simpl. unfold MaxUint32. lia. }
  pose proof (Hb _ H1) as B1. pose proof (Hb _ H2) as B2. pose proof (Hb _ H3) as B3.
  cbn -[VBytes' fits TBytes field_len maxSliceLen] in *.
  change (fits Implements c_codec (VBytes' (n_Value n)) TBytes (field_len (maxSliceLen c_codec) (serialized "Value"))
    && (fits Implements c_codec (VBytes' (n_Next n)) TBytes (field_len (maxSliceLen c_codec) (serialized "Value"))
    && (fits Implements c_codec (VBytes' (n_Previous n)) TBytes (field_len (maxSliceLen c_codec) (serialized "Value")) && true)) = true).
  by rewrite B1, B2, B3.
Qed.

Lemma canon_VBytes b : canon c_codec (VBytes' b) TBytes = VBytes' b.
Proof. unfold VBytes', TBytes. cbn [canon]. by destruct (byte_values Implements c_codec b) as (_&_&->). Qed.

Lemma value_byte_values (b : bytes) : value_byte <$> (byte_value <$> b) = b.
Proof. induction b as [|x b IH]; [done|]. csimpl. by rewrite to_byte_val, IH. Qed.

Lemma node_canon n : canon c_codec (node_value n) node_type = node_value n.
Proof.
  unfold node_type, node_value. cbn -[VBytes' TBytes canon]. cbn [canon canon_fields fmap list_fmap].
  cbn -[VBytes' TBytes canon]. cbn [canon]. by rewrite !canon_VBytes.
Qed.

Lemma node_of_value_value n : node_of_value (node_value n) = n.
Proof. destruct n. unfold node_value, VBytes'. simpl. by rewrite !value_byte_values. Qed.

Lemma enc_VBytes b : enc c_codec (VBytes' b) TBytes = enc_int (Z.of_nat (length b)) ++ b.
Proof.
  unfold VBytes', TBytes. cbn [enc]. rewrite length_fmap.
  by destruct (byte_values Implements c_codec b) as (->&_&_).
Qed.

Lemma node_enc n :
  enc c_codec (node_value n) node_type =
    enc c_codec (VBytes' (n_Value n)) TBytes ++ [if n_HasNext n then x01 else x00] ++
    enc c_codec (VBytes' (n_Next n)) TBytes ++ [if n_HasPrevious n then x01 else x00] ++
    enc c_codec (VBytes' (n_Previous n)) TBytes.
Proof. rewrite <-(app_nil_r (enc c_codec (VBytes' (n_Previous n)) TBytes)). reflexivity. Qed.

Lemma node_bytes_length n : node_small n → Z.of_nat (length (node_bytes n)) ≤ MaxInt32.
Proof.
  intros (H1&H2&H3). unfold node_bytes. rewrite node_enc.
  assert (∀ b, length (enc c_codec (VBytes' b) TBytes) = (4 + length b)%nat) as Hb.
  { intros b. rewrite enc_VBytes, length_app. unfold enc_int. by rewrite length_be_bytes. }
  rewrite !length_app, !Hb, length_be_bytes. unfold small, MaxInt32 in *. cbn [length]. lia.
Qed.

Lemma node_Marshal n :
  node_small n → manager_Marshal c codecVersion (Some (node_type, node_value n)) = Some (Ok (node_bytes n)).
Proof.
  intros Hn. rewrite (manager_Marshal_spec Implements c codecVersion c_codec node_type (node_value n));
    [|done|done|by apply node_fits|done].
  cbv zeta. rewrite decide_False by done. apply node_bytes_length in Hn. by rewrite decide_True by exact Hn.
Qed.

Lemma node_Unmarshal n :
  node_small n →
  manager_Unmarshal c (node_bytes n) (Some (TPtr node_type, VPtr (zero_value node_type))) =
    Some (codecVersion, Ok (node_value n)).
Proof.
  intros Hn. unfold node_bytes.
  rewrite (manager_Unmarshal_version c codecVersion c_codec); [|done|done|done|by apply node_bytes_length].
  rewrite (Unmarshal_enc Implements c_codec _ node_type (node_value n));
    [|apply linear_New_ok|by apply node_fits|done]. by rewrite node_canon.
Qed.
End node_codec.

#[local] Arguments manager_Unmarshal : simpl never.
#[local] Arguments manager_Marshal : simpl never.
#[local] Arguments node_bytes : simpl never.

(** ** The nodes of a list *)

Abbreviation pair := (bytes * bytes)%type.

Definition link (v : bytes) (prev next : option bytes) : node :=
  mkNode v (bool_decide (is_Some next)) (default [] next) (bool_decide (is_Some prev)) (default [] prev).

Definition head_key (l : list pair) : option bytes := fst <$> head l.

(** The nodes of a segment between [prev] and [next]. *)
Fixpoint nodes (prev next : option bytes) (l : list pair) : list (bytes * node) :=
  match l with
  | [] => []
  | (k, v) :: l =>
      (k, link v prev (match head_key l with Some k' => Some k' | None => next end)) ::
      nodes (Some k) next l
  end.

Definition node_of (l : list pair) (k : bytes) : option node := alist_get k (nodes None None l).

Definition list_ok (l : list pair) : Prop := NoDup l.*1 ∧ Forall (λ p, small p.1 ∧ small p.2) l.

Lemma nodes_app prev next l1 l2 :
  nodes prev next (l1 ++ l2) =
    nodes prev (match head_key l2 with Some k => Some k | None => next end) l1 ++
    nodes (match last l1 with Some p => Some p.1 | None => prev end) next l2.
Proof.
  revert prev. induction l1 as [|[k v] l1 IH]; intros prev; [done|].
  cbn [app nodes]. rewrite IH, last_cons. f_equal; [|by destruct (last l1)].
  destruct l1 as [|[? ?] ?]; [by destruct l2 as [|[? ?] ?]|done].
Qed.

Lemma nodes_keys prev next l : (nodes prev next l).*1 = l.*1.
Proof. revert prev. induction l as [|[k v] l IH]; intros prev; [done|]. csimpl. by rewrite IH. Qed.

Lemma alist_get_app {V : Type} k (l1 l2 : list (bytes * V)) :
  alist_get k (l1 ++ l2) = match alist_get k l1 with Some x => Some x | None => alist_get k l2 end.
Proof. induction l1 as [|[k' v] l1 IH]; [done|]. simpl. by case_decide. Qed.

Lemma alist_get_nodes_None prev next l k : k ∉ l.*1 → alist_get k (nodes prev next l) = None.
Proof. intros Hk. apply alist_get_None. by rewrite nodes_keys. Qed.

Lemma node_of_None l k : node_of l k = None ↔ k ∉ l.*1.
Proof. unfold node_of. rewrite alist_get_None. by rewrite nodes_keys. Qed.

Definition last_key (l : list pair) : option bytes := fst <$> last l.

(** The node of the key in the middle. *)
Lemma node_of_mid l1 k v l2 :
  k ∉ l1.*1 → node_of (l1 ++ (k, v) :: l2) k = Some (link v (last_key l1) (head_key l2)).
Proof.
  intros Hk. unfold node_of. rewrite nodes_app, alist_get_app, alist_get_nodes_None by done. simpl.
  rewrite decide_True by done. unfold last_key. by destruct (last l1), (head_key l2).
Qed.

Lemma NoDup_mid (l1 : list pair) k v l2 :
  NoDup (l1 ++ (k, v) :: l2).*1 → k ∉ l1.*1 ∧ k ∉ l2.*1 ∧ (∀ x, x ∈ l1.*1 → x ∉ l2.*1).
Proof.
  rewrite fmap_app. csimpl. rewrite NoDup_app, NoDup_cons. set_solver.
Qed.

Lemma list_split (l : list pair) k : k ∈ l.*1 → ∃ l1 v l2, l = l1 ++ (k, v) :: l2.
Proof.
  intros ([k' v]&->&Hin)%list_elem_of_fmap. apply list_elem_of_split in Hin as (l1&l2&->). eauto.
Qed.

(** Pending changes: [u] of nodes, [h] of the head. *)
Definition transition (l : list pair) (u : gmap bytes (option node)) (h : option (option bytes))
    (l' : list pair) : Prop :=
  list_ok l' ∧ (∀ k, node_of l' k = default (node_of l k) (u !! k)) ∧
  head_key l' = default (head_key l) h.

Lemma transition_update l1 k v w l2 :
  list_ok (l1 ++ (k, w) :: l2) → small v →
  transition (l1 ++ (k, w) :: l2) {[k := Some (link v (last_key l1) (head_key l2))]} None
    (l1 ++ (k, v) :: l2).
Proof.
  intros [Hn Hs] Hv. split_and!.
  - split.
    + by rewrite fmap_app in *.
    + apply Forall_app in Hs as [H1 H2]. apply Forall_cons in H2 as [[? ?] H2].
      apply Forall_app. split; [done|]. by constructor.
  - apply NoDup_mid in Hn as (H1&H2&_). intros k'. destruct (decide (k' = k)) as [->|Hne].
    + rewrite lookup_singleton_eq. simpl. by apply node_of_mid.
    + rewrite lookup_singleton_ne by done. simpl. unfold node_of. rewrite !nodes_app, !alist_get_app.
      simpl. by rewrite !(decide_False (P := k = k')) by done.
  - by destruct l1.
Qed.

Lemma transition_first k v :
  small k → small v →
  transition [] {[k := Some (link v None None)]} (Some (Some k)) [(k, v)].
Proof.
  intros Hk Hv. split_and!.
  - split; csimpl; [apply NoDup_singleton|by repeat constructor].
  - intros k'. unfold node_of. simpl. destruct (decide (k = k')) as [->|Hne].
    + by rewrite lookup_singleton_eq.
    + by rewrite lookup_singleton_ne.
  - done.
Qed.

Lemma transition_push k v hk hv l :
  list_ok ((hk, hv) :: l) → k ∉ ((hk, hv) :: l).*1 → small k → small v →
  transition ((hk, hv) :: l)
    (<[k := Some (link v None (Some hk))]> {[hk := Some (link hv (Some k) (head_key l))]})
    (Some (Some k)) ((k, v) :: (hk, hv) :: l).
Proof.
  intros [Hn Hs] Hk Hks Hv. split_and!; [|intros k'|done].
  - split; [by constructor|]. by constructor.
  - csimpl in Hk. apply not_elem_of_cons in Hk as [Hkh _]. unfold node_of. simpl.
    destruct (decide (k = k')) as [->|Hne]; [by rewrite lookup_insert_eq|].
    rewrite lookup_insert_ne by done. destruct (decide (hk = k')) as [->|Hne2].
    + rewrite lookup_singleton_eq. simpl. by destruct (head_key l).
    + by rewrite lookup_singleton_ne.
Qed.

(** Removing the head, the last pair, one in the middle, the only one. *)
Lemma list_ok_remove l1 p l2 : list_ok (l1 ++ p :: l2) → list_ok (l1 ++ l2).
Proof.
  intros [Hn Hs]. split.
  - eapply sublist_NoDup; [exact Hn|]. apply fmap_sublist, sublist_app; [done|]. by constructor.
  - apply Forall_app in Hs as [H1 H2]. apply Forall_cons in H2 as [_ H2]. by apply Forall_app.
Qed.

(** What deleting the pair changes, by its neighbours. *)
Definition delete_updates (k : bytes) (l1 l2 : list pair) : gmap bytes (option node) :=
  let u := {[k := None]} in
  let u := match last l1 with
           | Some (pk, pv) => <[pk := Some (link pv (last_key (removelast l1)) (head_key l2))]> u
           | None => u
           end in
  match l2 with
  | (nk, nv) :: l2 => <[nk := Some (link nv (last_key l1) (head_key l2))]> u
  | [] => u
  end.

(** The node of [x] in a list cut in two, where [x] is looked up in each part. *)
Definition seg (prev next : option bytes) (l : list pair) (x : bytes) : option node :=
  alist_get x (nodes prev next l).

Lemma seg_snoc prev next l k v x :
  k ∉ l.*1 →
  seg prev next (l ++ [(k, v)]) x =
    if decide (k = x) then Some (link v (match last_key l with Some p => Some p | None => prev end) next)
    else seg prev (Some k) l x.
Proof.
  intros Hk. unfold seg. rewrite nodes_app, alist_get_app. simpl. unfold last_key.
  destruct (decide (k = x)) as [<-|Hne].
  - rewrite alist_get_nodes_None by done. by destruct (last l).
  - by destruct (alist_get x _).
Qed.

Lemma seg_cons prev next k v l x :
  seg prev next ((k, v) :: l) x =
    if decide (k = x) then Some (link v prev (match head_key l with Some k' => Some k' | None => next end))
    else seg (Some k) next l x.
Proof. done. Qed.

Lemma seg_app prev next l1 l2 x :
  seg prev next (l1 ++ l2) x =
    match seg prev (match head_key l2 with Some k => Some k | None => next end) l1 x with
    | Some n => Some n
    | None => seg (match last_key l1 with Some p => Some p | None => prev end) next l2 x
    end.
Proof. unfold seg. rewrite nodes_app, alist_get_app. unfold last_key. by destruct (last l1). Qed.

Lemma seg_None prev next l x : x ∉ l.*1 → seg prev next l x = None.
Proof. apply alist_get_nodes_None. Qed.

Lemma last_key_snoc (l : list pair) k v : last_key (l ++ [(k, v)]) = Some k.
Proof. unfold last_key. by rewrite last_snoc. Qed.

Lemma keys_snoc (l : list pair) k v x : x ∉ (l ++ [(k, v)]).*1 → x ∉ l.*1 ∧ x ≠ k.
Proof.
  rewrite fmap_app, not_elem_of_app. intros [? Hx]. split; [done|]. intros ->. apply Hx. left.
Qed.

Lemma NoDup_keys_snoc (l : list pair) k v : NoDup (l ++ [(k, v)]).*1 → k ∉ l.*1.
Proof. rewrite fmap_app, NoDup_app. intros (_&Hd&_) Hk. apply (Hd k Hk). left. Qed.

Lemma transition_delete l1 k v l2 :
  list_ok (l1 ++ (k, v) :: l2) →
  transition (l1 ++ (k, v) :: l2) (delete_updates k l1 l2)
    (if l1 then Some (head_key l2) else None) (l1 ++ l2).
Proof.
  intros Hl. split_and!; [by eapply list_ok_remove| |by destruct l1].
  destruct Hl as [Hn _]. apply NoDup_mid in Hn as Hm. destruct Hm as (Hk1&Hk2&H12).
  rewrite fmap_app in Hn. apply NoDup_app in Hn as (Hn1&_&Hn2). csimpl in Hn2.
  apply NoDup_cons in Hn2 as [_ Hn2].
  intros x. unfold node_of. change (seg None None (l1 ++ l2) x =
    default (seg None None (l1 ++ (k, v) :: l2) x) (delete_updates k l1 l2 !! x)).
  unfold delete_updates. rewrite !seg_app, seg_cons. cbn [head_key head fmap option_fmap option_map fst].
  destruct l1 as [|[pk pv] l1 _] using rev_ind; destruct l2 as [|[nk nv] l2].
  - simpl. destruct (decide (k = x)) as [->|]; [by rewrite lookup_singleton_eq|by rewrite lookup_singleton_ne].
  - simpl. csimpl in Hk2. apply not_elem_of_cons in Hk2 as [Hkn Hk2]. rewrite !seg_cons.
    destruct (decide (nk = x)) as [->|Hne].
    + rewrite lookup_insert_eq. simpl. by destruct (head_key l2).
    + rewrite lookup_insert_ne by done. destruct (decide (k = x)) as [->|Hkx].
      * rewrite lookup_singleton_eq. simpl. by apply seg_None.
      * by rewrite lookup_singleton_ne.
  - apply keys_snoc in Hk1 as [Hk1 Hpk]. apply NoDup_keys_snoc in Hn1 as Hp. rewrite !seg_snoc, last_snoc, removelast_last by done.
    destruct (decide (pk = x)) as [->|Hne].
    + rewrite lookup_insert_eq. simpl. by destruct (last_key l1).
    + rewrite lookup_insert_ne by done. destruct (decide (k = x)) as [->|Hkx].
      * rewrite lookup_singleton_eq. simpl. by rewrite seg_None.
      * by rewrite lookup_singleton_ne.
  - apply keys_snoc in Hk1 as [Hk1 Hpk]. apply NoDup_keys_snoc in Hn1 as Hp.
    csimpl in Hk2. apply not_elem_of_cons in Hk2 as [Hkn Hk2]. csimpl in Hn2.
    apply NoDup_cons in Hn2 as [Hnk _].
    assert (nk ∉ (l1 ++ [(pk, pv)]).*1) as [Hn1' Hpn]%keys_snoc
      by (intros Hin; apply (H12 nk Hin); left).
    rewrite !seg_snoc, last_snoc, removelast_last, last_key_snoc by done. rewrite !seg_cons.
    cbn [head_key head fmap option_fmap option_map fst].
    destruct (decide (nk = x)) as [->|Hne].
    { rewrite lookup_insert_eq. rewrite decide_False by done. simpl. rewrite seg_None by done.
      by destruct (head_key l2). }
    rewrite lookup_insert_ne by done. destruct (decide (pk = x)) as [->|Hne2].
    { rewrite lookup_insert_eq. simpl. by destruct (last_key l1). }
    rewrite lookup_insert_ne by done. destruct (decide (k = x)) as [->|Hkx].
    + rewrite lookup_singleton_eq. simpl. by rewrite !seg_None.
    + by rewrite lookup_singleton_ne.
Qed.

(** ** Methods *)

Section methods.
Context `{GoRange, GoAppend} (Implements : gotype → positive → bool).
Context {D B It : Type} `{DatabaseLaws D B It}.
#[local] Hint Extern 0 (TypeCodec linearCodec) => exact (linear_TypeCodec Implements) : typeclass_instances.

Abbreviation state := (linkedDB D B).

(** The method returns and the result and the state after it satisfy [Q]. *)
Definition runs {A : Type} (m : ldb A) (s : state) (Q : result ldb_error A → state → Prop) : Prop :=
  ∃ r s', m s = Some (r, s') ∧ Q r s'.

Lemma runs_ret {A} (a : A) s (Q : _ → _ → Prop) : Q (Ok a) s → runs (lret a) s Q.
Proof. intros HQ. by exists (Ok a), s. Qed.

Lemma runs_fail {A} e s (Q : result ldb_error A → _ → Prop) : Q (Err e) s → runs (lfail e) s Q.
Proof. intros HQ. by exists (Err e), s. Qed.

Lemma runs_bind {A X} (m : ldb A) (k : A → ldb X) s (P : A → state → Prop) Q :
  runs m s (λ r s', ∃ a, r = Ok a ∧ P a s') → (∀ a s', P a s' → runs (k a) s' Q) → runs (lbind m k) s Q.
Proof.
  intros (r&s'&E&a&->&HP) Hk. destruct (Hk a s' HP) as (r&s''&E'&HQ). exists r, s''.
  unfold lbind. by rewrite E.
Qed.

Lemma runs_try {A X} (m : ldb A) (k : result ldb_error A → ldb X) s P Q :
  runs m s P → (∀ r s', P r s' → runs (k r) s' Q) → runs (ltry m k) s Q.
Proof.
  intros (r&s'&E&HP) Hk. destruct (Hk r s' HP) as (r'&s''&E'&HQ). exists r', s''.
  unfold ltry. by rewrite E.
Qed.

Lemma runs_impl {A} (m : ldb A) s (P Q : result ldb_error A → state → Prop) :
  runs m s P → (∀ r s', P r s' → Q r s') → runs m s Q.
Proof. intros (r&s'&E&HP) HPQ. exists r, s'. auto. Qed.

(** ** What the state represents *)

Record stored (m : gmap bytes bytes) (l : list pair) : Prop := {
  st_list : list_ok l;
  st_head : m !! headKeyKey = head_key l;
  st_node : ∀ k, m !! nodeKey k = node_bytes <$> node_of l k;
}.

(** The entries of the cache are nodes of the list, or nil for keys not in it. *)
Definition cache_ok (stale : bytes → Prop) (x : @LRU bytes (option node) _ _) (l : list pair) : Prop :=
  ∃ n cl, lru_rep n x cl ∧ ∀ k o, (k, o) ∈ cl → o = node_of l k ∨ stale k.

Definition head_ok (s : state) (l : list pair) : Prop :=
  headKeyIsSynced s = true →
  head_key l = if headKeyExists s then Some (headKey s) else None.

Record ldb_ok (s : state) (m : gmap bytes bytes) (l : list pair) : Prop := {
  lk_db : db_ok (ldb_db s);
  lk_view : db_view (ldb_db s) = Some m;
  lk_batch : batch_for (ldb_db s) (ldb_batch s);
  lk_stored : stored m l;
  lk_cache : cache_ok (λ _, False) (nodeCache s) l;
  lk_head : head_ok s l;
}.

(** What the batch will do: to the nodes [u], to the head [h]. *)
Record pending (s : state) (m : gmap bytes bytes) (u : gmap bytes (option node))
    (h : option (option bytes)) : Prop := {
  pd_nodes : updatedNodes s = u;
  pd_head : (if headKeyIsUpdated s
             then Some (if updatedHeadKeyExists s then Some (updatedHeadKey s) else None)
             else None) = h;
  pd_node : ∀ k, apply_writes (batch_ops (ldb_batch s)) m !! nodeKey k =
              match u !! k with Some o => node_bytes <$> o | None => m !! nodeKey k end;
  pd_headKey : apply_writes (batch_ops (ldb_batch s)) m !! headKeyKey =
              default (m !! headKeyKey) h;
}.

Definition st (s : state) m l u h : Prop := ldb_ok s m l ∧ pending s m u h.

Lemma node_of_small l k n : list_ok l → node_of l k = Some n → node_small n.
Proof.
  intros [Hn Hs] Hk. destruct (decide (k ∈ l.*1)) as [Hin|Hni];
    [|apply node_of_None in Hni; congruence].
  apply list_split in Hin as (l1&v&l2&->). apply NoDup_mid in Hn as (Hk1&_).
  rewrite node_of_mid in Hk by done.
  simplify_eq. apply Forall_app in Hs as [H1' H2']. apply Forall_cons in H2' as [[_ Hv] H2'].
  assert (small []) as H0' by done.
  unfold node_small, link. simpl. split_and!; [done| |].
  - unfold head_key. destruct l2 as [|p l2]; [done|]. by apply Forall_cons in H2' as [[? _] _].
  - unfold last_key. destruct l1 as [|p l1 _] using rev_ind; [done|]. rewrite last_snoc. simpl.
    apply Forall_app in H1' as [_ Hp]. by apply Forall_singleton in Hp as [? _].
Qed.

Lemma cache_ok_impl (P Q : bytes → Prop) x l : cache_ok P x l → (∀ k, P k → Q k) → cache_ok Q x l.
Proof. intros (n&cl&Hc&Hcl) HPQ. exists n, cl. split; [done|]. intros k o Hin. destruct (Hcl k o Hin); auto. Qed.

Lemma last_n_elem {A : Type} n (l : list A) x : x ∈ last_n n l → x ∈ l.
Proof. apply subseteq_drop. Qed.

Lemma cache_put_ok (stale : bytes → Prop) x k o l :
  cache_ok (λ k', k' = k ∨ stale k') x l → o = node_of l k →
  ∃ x', lru_put k o x = Some x' ∧ cache_ok stale x' l.
Proof.
  intros (n&cl&Hc&Hcl) Ho. destruct (lru_step_spec n (LPut k o) _ _ Hc) as (x'&E&Hx). simpl in E, Hx.
  destruct (lru_put k o x) as [x''|]; [|done]. injection E as ->. exists x'. split; [done|].
  eexists n, _. split; [exact Hx|]. intros k' o' [Hin|Hin]%last_n_elem%elem_of_app.
  - apply list_elem_of_filter in Hin as [Hne Hin]. simpl in Hne. destruct (Hcl _ _ Hin) as [?|[?|?]]; [by left|by destruct Hne|by right].
  - apply list_elem_of_singleton in Hin. simplify_eq. by left.
Qed.

Lemma cache_get_ok (stale : bytes → Prop) x k l :
  cache_ok stale x l →
  ∃ r x', lru_get k x = Some (r, x') ∧ cache_ok stale x' l ∧
    (∀ o, r = Some o → o = node_of l k ∨ stale k).
Proof.
  intros (n&cl&Hc&Hcl). destruct (lru_step_spec n (LGet k) _ _ Hc) as (x'&E&Hx). simpl in E, Hx.
  pose proof (rep_NoDup_keys _ _ (proj1 Hc)) as Hnd.
  destruct (alist_get k cl) as [o|] eqn:Eo.
  - apply alist_get_Some in Eo; [|done]. exists (Some o), x'. split; [done|]. split.
    + exists n, (alist_put k o cl). split; [done|].
      intros k' o' [Hin|Hin]%elem_of_app.
      * apply list_elem_of_filter in Hin as [_ Hin]. by apply Hcl.
      * apply list_elem_of_singleton in Hin. simplify_eq. by apply Hcl.
    + intros o' [= <-]. by apply Hcl.
  - exists None, x'. split; [done|]. split; [by exists n, cl|done].
Qed.

(** ** Reading *)

(** Only the cache of nodes changes. *)
Lemma ok_set_cache s m l x :
  ldb_ok s m l → cache_ok (λ _, False) x l → ldb_ok (set_nodeCache x s) m l.
Proof. intros [] Hx. by split. Qed.

(** The pending changes of two states are the same. *)
Definition same_pending (s s' : state) : Prop := ∀ m u h, pending s m u h → pending s' m u h.

(** What the list answers. *)
Definition node_res (l : list pair) (k : bytes) : result ldb_error node :=
  match node_of l k with Some n => Ok n | None => Err LErrNotFound end.
Definition head_res (l : list pair) : result ldb_error bytes :=
  match head_key l with Some k => Ok k | None => Err LErrNotFound end.

Lemma getNode_ok s m l k :
  ldb_ok s m l →
  runs (getNode Implements k) s (λ r s', r = node_res l k ∧
    ldb_ok s' m l ∧ same_pending s s').
Proof.
  intros Hs. pose proof Hs as [Hok Hv _ Hst Hc _]. unfold runs, getNode, node_res.
  assert (∀ x, same_pending s (set_nodeCache x s)) as Hp by (intros x m' u h []; by split).
  destruct (cache_get_ok _ _ k _ Hc) as (r&x&->&Hx&Hr). pose proof (ok_set_cache _ _ _ _ Hs Hx) as Hs'.
  destruct r as [[n|]|].
  - destruct (Hr _ eq_refl) as [<-|[]]. eexists _, _. by split.
  - destruct (Hr _ eq_refl) as [<-|[]]. eexists _, _. by split.
  - cbn [ldb_db set_nodeCache]. rewrite (Get_spec _ _ Hok), Hv. simpl. unfold map_Get. rewrite (st_node _ _ Hst).
    assert (∀ o, o = node_of l k → ∃ x', lru_put k o x = Some x' ∧ ldb_ok (set_nodeCache x' s) m l) as Hput.
    { intros o Ho. destruct (cache_put_ok (λ _, False) x k o l) as (x'&E&Hx');
        [eapply cache_ok_impl; [done|auto]|done|]. exists x'. split; [done|by apply ok_set_cache]. }
    destruct (node_of l k) as [n|] eqn:En; simpl.
    + rewrite (node_Unmarshal Implements) by (by eapply node_of_small; [apply Hst|]).
      rewrite node_of_value_value. unfold lbind, cache_node. simpl.
      destruct (Hput (Some n) eq_refl) as (x'&->&?). eexists _, _. split; [done|]. split; [done|].
      split; [done|apply Hp].
    + unfold lbind, cache_node. simpl. destruct (Hput None eq_refl) as (x'&->&?).
      eexists _, _. split; [done|]. split; [done|]. split; [done|apply Hp].
Qed.

Lemma getHeadKey_ok s m l :
  ldb_ok s m l →
  runs getHeadKey s (λ r s', r = head_res l ∧
    ldb_ok s' m l ∧ same_pending s s').
Proof.
  intros Hs. pose proof Hs as [Hok Hv Hb Hst Hc Hh]. unfold runs, getHeadKey, head_res.
  assert (∀ a b c, same_pending s (set_head a b c s)) as Hp by (intros a b c m' u h []; by split).
  destruct (headKeyIsSynced s) eqn:Esync.
  - rewrite (Hh Esync). destruct (headKeyExists s); eexists _, _; (split; [done|]); (split; [done|]); (split; [done|]); by intros ? ? ?.
  - rewrite (Get_spec _ _ Hok), Hv. simpl. unfold map_Get. rewrite (st_head _ _ Hst).
    destruct (head_key l) as [k|] eqn:Ek; eexists _, _; (split; [done|]); (split; [done|]);
      (split; [split; try done; by intros _|apply Hp]).
Qed.

Lemma getNode_runs s m l u h k :
  st s m l u h →
  runs (getNode Implements k) s (λ r s', r = node_res l k ∧
    st s' m l u h).
Proof.
  intros [Hs Hp]. eapply runs_impl; [by apply getNode_ok|]. intros r s' (->&Hs'&Hsp).
  split; [done|]. split; [done|by apply Hsp].
Qed.

Lemma getHeadKey_runs s m l u h :
  st s m l u h →
  runs getHeadKey s (λ r s', r = head_res l ∧
    st s' m l u h).
Proof.
  intros [Hs Hp]. eapply runs_impl; [by apply getHeadKey_ok|]. intros r s' (->&Hs'&Hsp).
  split; [done|]. split; [done|by apply Hsp].
Qed.

(** ** Collecting a batch *)

Lemma resetBatch_runs s m l : ldb_ok s m l → runs resetBatch s (λ r s', ∃ a, r = Ok a ∧ st s' m l ∅ None).
Proof.
  intros [Hok Hv Hb Hst Hc Hh]. unfold runs, resetBatch, lmod. eexists _, _. split; [done|].
  exists tt. split; [done|]. destruct (batch_Reset_spec (ldb_batch s)) as [Hops Hf].
  split; split; try done.
  - by apply Hf.
  - intros k. simpl. by rewrite Hops, lookup_empty.
  - simpl. by rewrite Hops.
Qed.

(** A write of the batch extends the pending changes. *)
Lemma st_batch s m l u h b w u' h' (up ex : bool) key :
  st s m l u h → batch_for (ldb_db s) b → batch_ops b = batch_ops (ldb_batch s) ++ [w] →
  (if up then Some (if ex then Some key else None) else None) = h' →
  (∀ k, apply_write (apply_writes (batch_ops (ldb_batch s)) m) w !! nodeKey k =
     match u' !! k with Some o => node_bytes <$> o | None => m !! nodeKey k end) →
  apply_write (apply_writes (batch_ops (ldb_batch s)) m) w !! headKeyKey = default (m !! headKeyKey) h' →
  st (set_batch b (set_updatedNodes u' (set_updatedHead up ex key s))) m l u' h'.
Proof.
  intros [[Hok Hv Hb Hst Hc Hh] _] Hb' Hops Hup Hn Hk. split; split; try done.
  - intros k. simpl. rewrite Hops, apply_writes_app. apply Hn.
  - simpl. rewrite Hops, apply_writes_app. apply Hk.
Qed.

Lemma node_lookup_insert (u : gmap bytes (option node)) (k k' : bytes) (v : option bytes) (M m : gmap bytes bytes) (o : option node) :
  (∀ k, M !! nodeKey k = match u !! k with Some o => node_bytes <$> o | None => m !! nodeKey k end) →
  v = node_bytes <$> o →
  apply_write M (nodeKey k, v) !! nodeKey k' =
    match <[k := o]> u !! k' with Some o => node_bytes <$> o | None => m !! nodeKey k' end.
Proof.
  intros HM ->. destruct (decide (k = k')) as [->|Hne].
  - rewrite lookup_insert_eq. destruct o; simpl; [by rewrite lookup_insert_eq|by rewrite lookup_delete_eq].
  - assert (nodeKey k ≠ nodeKey k') by (by intros [=]). rewrite lookup_insert_ne by done.
    destruct o; simpl; [rewrite lookup_insert_ne by done|rewrite lookup_delete_ne by done]; apply HM.
Qed.

Lemma node_lookup_head (k : bytes) (v : option bytes) (M : gmap bytes bytes) :
  apply_write M (nodeKey k, v) !! headKeyKey = M !! headKeyKey.
Proof. destruct v; simpl; [by rewrite lookup_insert_ne|by rewrite lookup_delete_ne]. Qed.

Lemma head_lookup_node (k : bytes) (v : option bytes) (M : gmap bytes bytes) :
  apply_write M (headKeyKey, v) !! nodeKey k = M !! nodeKey k.
Proof. destruct v; simpl; [by rewrite lookup_insert_ne|by rewrite lookup_delete_ne]. Qed.

Lemma head_lookup_head (v : option bytes) (M : gmap bytes bytes) :
  apply_write M (headKeyKey, v) !! headKeyKey = v.
Proof. destruct v; simpl; [by rewrite lookup_insert_eq|by rewrite lookup_delete_eq]. Qed.

Lemma putNode_runs s m l u h k n :
  st s m l u h → node_small n →
  runs (putNode Implements k n) s (λ r s', ∃ a, r = Ok a ∧ st s' m l (<[k := Some n]> u) h).
Proof.
  intros Hs Hn. pose proof Hs as [_ [Hu Hh HN HK]].
  destruct (batch_Put_spec (nodeKey k) (node_bytes n) (ldb_batch s)) as (Hr&Hops&Hf).
  unfold runs, putNode, lbind, lmod, lbatch. rewrite (node_Marshal Implements) by done.
  cbn [ldb_batch set_updatedNodes].
  destruct (batch_Put (nodeKey k) (node_bytes n) (ldb_batch s)) as [r b]. simpl in *. subst r.
  eexists _, _. split; [done|]. exists tt. split; [done|]. rewrite Hu.
  apply (st_batch s m l u h b (nodeKey k, Some (node_bytes n)) (<[k := Some n]> u) h (headKeyIsUpdated s) (updatedHeadKeyExists s) (updatedHeadKey s) Hs);
    [by apply Hf, Hs|exact Hops|done| |].
  - intros k'. by apply node_lookup_insert.
  - by rewrite node_lookup_head.
Qed.

Lemma deleteNode_runs s m l u h k :
  st s m l u h →
  runs (deleteNode k) s (λ r s', ∃ a, r = Ok a ∧ st s' m l (<[k := None]> u) h).
Proof.
  intros Hs. pose proof Hs as [_ [Hu Hh HN HK]].
  destruct (batch_Delete_spec (nodeKey k) (ldb_batch s)) as (Hr&Hops&Hf).
  unfold runs, deleteNode, lbind, lmod, lbatch. cbn [ldb_batch set_updatedNodes].
  destruct (batch_Delete (nodeKey k) (ldb_batch s)) as [r b]. simpl in *. subst r.
  eexists _, _. split; [done|]. exists tt. split; [done|]. rewrite Hu.
  apply (st_batch s m l u h b (nodeKey k, None) (<[k := None]> u) h (headKeyIsUpdated s) (updatedHeadKeyExists s) (updatedHeadKey s) Hs);
    [by apply Hf, Hs|exact Hops|done| |].
  - intros k'. by apply node_lookup_insert.
  - by rewrite node_lookup_head.
Qed.

Lemma putHeadKey_runs s m l u h k :
  st s m l u h → runs (putHeadKey k) s (λ r s', ∃ a, r = Ok a ∧ st s' m l u (Some (Some k))).
Proof.
  intros Hs. pose proof Hs as [_ [Hu Hh HN HK]].
  destruct (batch_Put_spec headKeyKey k (ldb_batch s)) as (Hr&Hops&Hf).
  unfold runs, putHeadKey, lbind, lmod, lbatch. cbn [ldb_batch set_updatedHead].
  destruct (batch_Put headKeyKey k (ldb_batch s)) as [r b]. simpl in *. subst r.
  eexists _, _. split; [done|]. exists tt. split; [done|]. subst u.
  apply (st_batch s m l _ h b (headKeyKey, Some k) (updatedNodes s) (Some (Some k)) true true k Hs); [by apply Hf, Hs|exact Hops|done| |].
  - intros k'. rewrite head_lookup_node. apply HN.
  - by rewrite head_lookup_head.
Qed.

Lemma deleteHeadKey_runs s m l u h :
  st s m l u h → runs deleteHeadKey s (λ r s', ∃ a, r = Ok a ∧ st s' m l u (Some None)).
Proof.
  intros Hs. pose proof Hs as [_ [Hu Hh HN HK]].
  destruct (batch_Delete_spec headKeyKey (ldb_batch s)) as (Hr&Hops&Hf).
  unfold runs, deleteHeadKey, lbind, lmod, lbatch. cbn [ldb_batch set_updatedHead].
  destruct (batch_Delete headKeyKey (ldb_batch s)) as [r b]. simpl in *. subst r.
  eexists _, _. split; [done|]. exists tt. split; [done|]. subst u.
  apply (st_batch s m l _ h b (headKeyKey, None) (updatedNodes s) (Some None) true false (updatedHeadKey s) Hs); [by apply Hf, Hs|exact Hops|done| |].
  - intros k'. rewrite head_lookup_node. apply HN.
  - by rewrite head_lookup_head.
Qed.

(** ** Writing the batch *)

Lemma cache_nodes_runs (ups : list (bytes * option node)) (s : state) (x : @LRU bytes (option node) _ _) l :
  cache_ok (λ k, k ∈ ups.*1) x l → (∀ k o, (k, o) ∈ ups → o = node_of l k) → nodeCache s = x →
  ∃ x', cache_nodes ups s = Some (Ok tt, set_nodeCache x' s) ∧ cache_ok (λ _, False) x' l.
Proof.
  revert s x. induction ups as [|[k o] ups IH]; intros s x Hc Ho Hx; simpl.
  - exists x. split; [by destruct s; subst x|]. eapply cache_ok_impl; [done|].
    by intros k ?%elem_of_nil.
  - destruct (cache_put_ok (λ k, k ∈ ups.*1) x k o l) as (x1&E1&Hc1).
    + eapply cache_ok_impl; [exact Hc|]. intros k'. csimpl. by rewrite elem_of_cons.
    + apply Ho. left.
    + unfold lbind, cache_node. rewrite Hx, E1.
      destruct (IH (set_nodeCache x1 s) x1) as (x'&->&Hx'); [done| |done|by exists x'].
      intros k' o' Hin. apply Ho. by right.
Qed.

Lemma writeBatch_runs s m l u h l' :
  st s m l u h → transition l u h l' →
  runs writeBatch s (λ r s', r = Ok tt ∧ ∃ m', ldb_ok s' m' l').
Proof.
  intros [[Hok Hv Hb Hst Hc Hh] [Hu Hp HN HK]] (Hl'&Hnodes&Hhead). unfold runs, writeBatch.
  destruct (batch_Write_spec (ldb_batch s) (ldb_db s) Hok Hb) as (Hw&Hv'&Hok'&Hf).
  destruct (batch_Write (ldb_batch s) (ldb_db s)) as [r d]. simpl in Hw, Hv', Hok', Hf.
  rewrite Hv in Hw, Hv'. simpl in Hw, Hv'. subst r.
  set (m' := apply_writes (batch_ops (ldb_batch s)) m) in *.
  set (s1 := if headKeyIsUpdated (set_db d s) then _ else _).
  assert (nodeCache s1 = nodeCache s ∧ updatedNodes s1 = u ∧ ldb_db s1 = d ∧ ldb_batch s1 = ldb_batch s)
    as (Ec&Eu&Ed&Eb) by (unfold s1; destruct (headKeyIsUpdated _); simpl; by rewrite ?Hu).
  destruct (cache_nodes_runs (go_range (updatedNodes s1)) s1 (nodeCache s1) l') as (x&Ex&Hx).
  - rewrite Ec, Eu. destruct Hc as (n&cl&Hrep&Hcl). exists n, cl. split; [done|]. intros k o Hin.
    destruct (Hcl k o Hin) as [->|[]]. rewrite Hnodes. destruct (u !! k) as [o|] eqn:Ek; [|by left].
    right. apply (list_elem_of_fmap_2' fst _ (k, o)); [|done]. by apply elem_of_go_range.
  - intros k o Hin%elem_of_go_range. rewrite Eu in Hin. by rewrite Hnodes, Hin.
  - done.
  - rewrite Ex. eexists _, _. split; [done|]. split; [done|]. exists m'.
    split; simpl; rewrite ?Ed, ?Eb; try done; [by apply Hf| |].
    + split; [done| |].
      * rewrite HK, Hhead, (st_head _ _ Hst). by destruct h.
      * intros k. rewrite HN, Hnodes, (st_node _ _ Hst). by destruct (u !! k).
    + intros Hsync. rewrite Hhead. unfold s1 in *. simpl in *.
      destruct (headKeyIsUpdated s); subst h; simpl in *; [done|]. by apply Hh.
Qed.
(** ** The operations on the list *)

Definition spec_Put (k v : bytes) (l : list pair) : list pair :=
  if decide (k ∈ l.*1) then (λ p, if decide (p.1 = k) then (k, v) else p) <$> l else (k, v) :: l.

Lemma spec_Put_mid l1 k v w l2 :
  NoDup (l1 ++ (k, w) :: l2).*1 → spec_Put k v (l1 ++ (k, w) :: l2) = l1 ++ (k, v) :: l2.
Proof.
  intros Hn. apply NoDup_mid in Hn as (H1'&H2'&_). unfold spec_Put. rewrite decide_True.
  2:{ rewrite fmap_app. apply elem_of_app. right. left. }
  rewrite fmap_app. csimpl. rewrite decide_True by done.
  assert (∀ l : list pair, k ∉ l.*1 → (λ p : pair, if decide (p.1 = k) then (k, v) else p) <$> l = l) as Hid.
  { clear. induction l as [|[k' v'] l IH]; [done|]. csimpl. rewrite not_elem_of_cons. intros [Hk Hl].
    by rewrite decide_False, IH. }
  by rewrite !Hid.
Qed.

Lemma spec_Delete_mid (l1 : list pair) k w l2 :
  NoDup (l1 ++ (k, w) :: l2).*1 → alist_delete k (l1 ++ (k, w) :: l2) = l1 ++ l2.
Proof.
  intros Hn. apply NoDup_mid in Hn as (H1'&H2'&_). unfold alist_delete.
  rewrite filter_app, filter_cons_False by (intros []; done).
  fold (alist_delete k l1). fold (alist_delete k l2). by rewrite !alist_delete_notin.
Qed.


Lemma ldb_Put_runs s m l k v :
  ldb_ok s m l → small k → small v →
  runs (ldb_Put Implements k v) s (λ r s', r = Ok tt ∧ ∃ m', ldb_ok s' m' (spec_Put k v l)).
Proof.
  intros Hs Hk Hv. unfold ldb_Put. pose proof (st_list _ _ (lk_stored _ _ _ Hs)) as Hl.
  eapply runs_bind; [by apply resetBatch_runs|]. clear s Hs. intros [] s Hs.
  eapply runs_try; [by eapply getNode_runs|]. clear s Hs. intros r s [-> Hs]. unfold node_res.
  destruct (decide (k ∈ l.*1)) as [Hin|Hni].
  - apply list_split in Hin as (l1&w&l2&->). destruct (NoDup_mid _ _ _ _ (proj1 Hl)) as (H1'&_&_).
    rewrite node_of_mid by done. rewrite spec_Put_mid by apply Hl.
    pose proof (transition_update l1 k v w l2 Hl Hv) as Ht.
    eapply runs_bind; [eapply putNode_runs; [done|]|].
    + pose proof (node_of_mid l1 k w l2 H1') as En. by apply node_of_small in En as (_&?&?).
    + intros [] s' Hs'. rewrite insert_empty in Hs'. by eapply writeBatch_runs.
  - apply node_of_None in Hni as En. rewrite En. unfold spec_Put. rewrite decide_False by done.
    eapply runs_try; [by eapply getHeadKey_runs|]. clear s Hs. intros r s [-> Hs]. unfold head_res.
    destruct l as [|[hk hv] l]; cbn [head_key head fmap option_fmap option_map fst].
    + eapply runs_bind; [by eapply putNode_runs|]. clear s Hs. intros [] s Hs.
      eapply runs_bind; [by eapply putHeadKey_runs|]. clear s Hs. intros [] s Hs.
      rewrite insert_empty in Hs. eapply writeBatch_runs; [exact Hs|]. by apply transition_first.
    + pose proof (node_of_mid [] hk hv l ltac:(by intros ?%elem_of_nil)) as Eh. simpl in Eh.
      apply node_of_small in Eh as Hns; [|done].
      eapply runs_bind with (P := λ n s', n = link hv None (head_key l) ∧ st s' m ((hk, hv) :: l) ∅ None).
      { eapply runs_impl; [by eapply getNode_runs|]. unfold node_res. rewrite Eh. intros r s' [-> Hs']. eauto. }
      clear s Hs. intros n s [-> Hs].
      eapply runs_bind; [eapply putNode_runs; [done|]|].
      { destruct Hns as (?&?&_). by split_and!. }
      clear s Hs. intros [] s Hs. eapply runs_bind; [eapply putNode_runs; [done|]|].
      { destruct Hl as [_ Hl]. apply Forall_cons in Hl as [[? _] _]. by split_and!. }
      clear s Hs. intros [] s Hs. eapply runs_bind; [by eapply putHeadKey_runs|].
      clear s Hs. intros [] s Hs. rewrite insert_empty in Hs.
      eapply writeBatch_runs; [exact Hs|]. by apply transition_push.
Qed.
(** Reading a node that is there. *)
Lemma getNode_some s m l u h k n :
  st s m l u h → node_of l k = Some n →
  runs (getNode Implements k) s (λ r s', ∃ n', r = Ok n' ∧ (n' = n ∧ st s' m l u h)).
Proof.
  intros Hs Hn. eapply runs_impl; [by eapply getNode_runs|]. unfold node_res. rewrite Hn.
  intros r s' [-> Hs']. eauto.
Qed.

(** The neighbours of the pair that is deleted, before and after. *)
Lemma node_of_before l1 pk pv p l2 :
  NoDup ((l1 ++ [(pk, pv)]) ++ p :: l2).*1 →
  node_of ((l1 ++ [(pk, pv)]) ++ p :: l2) pk = Some (link pv (last_key l1) (Some p.1)) ∧
  node_of ((l1 ++ [(pk, pv)]) ++ l2) pk = Some (link pv (last_key l1) (head_key l2)).
Proof.
  intros Hn. rewrite <-!app_assoc in *. simpl in *. apply NoDup_mid in Hn as (Hp&_&_).
  by rewrite !node_of_mid.
Qed.

Lemma node_of_after l1 k v nk nv l2 :
  NoDup (l1 ++ (k, v) :: (nk, nv) :: l2).*1 →
  node_of (l1 ++ (k, v) :: (nk, nv) :: l2) nk = Some (link nv (Some k) (head_key l2)) ∧
  node_of (l1 ++ (nk, nv) :: l2) nk = Some (link nv (last_key l1) (head_key l2)).
Proof.
  intros Hn. rewrite (cons_middle (k, v)), app_assoc in *. apply NoDup_mid in Hn as (Hnk&_&_).
  apply keys_snoc in Hnk as Hn'. destruct Hn' as [Hn' _].
  by rewrite !node_of_mid, last_key_snoc.
Qed.

Lemma ldb_Delete_runs s m l k :
  ldb_ok s m l →
  runs (ldb_Delete Implements k) s (λ r s', r = Ok tt ∧ ∃ m', ldb_ok s' m' (alist_delete k l)).
Proof.
  intros Hs. unfold ldb_Delete. eapply runs_try with (P := λ r s', r = node_res l k ∧ ldb_ok s' m l).
  { eapply runs_impl; [by apply getNode_ok|]. by intros r s' (->&?&_). }
  clear s Hs. intros r s [-> Hs]. unfold node_res. pose proof (st_list _ _ (lk_stored _ _ _ Hs)) as Hl.
  destruct (decide (k ∈ l.*1)) as [Hin|Hni].
  2:{ apply node_of_None in Hni as E. rewrite E, alist_delete_notin by done. apply runs_ret.
      split; [done|]. by exists m. }
  apply list_split in Hin as (l1&v&l2&->). destruct (NoDup_mid _ _ _ _ (proj1 Hl)) as (H1'&_&_).
  rewrite node_of_mid by done. rewrite spec_Delete_mid by apply Hl.
  pose proof (transition_delete l1 k v l2 Hl) as Ht. pose proof (list_ok_remove _ _ _ Hl) as Hl'.
  eapply runs_bind; [by apply resetBatch_runs|]. clear s Hs. intros [] s Hs.
  eapply runs_bind; [by eapply deleteNode_runs|]. clear s Hs. intros [] s Hs.
  rewrite insert_empty in Hs. unfold delete_updates in Ht. cbn [link n_HasPrevious n_HasNext n_Next n_Previous].
  destruct l1 as [|[pk pv] l1 _] using rev_ind; destruct l2 as [|[nk nv] l2].
  - simpl in Ht |- *. eapply runs_bind; [by eapply deleteHeadKey_runs|]. clear s Hs. intros [] s Hs.
    by eapply writeBatch_runs.
  - simpl in Ht |- *. eapply runs_bind; [by eapply putHeadKey_runs|]. clear s Hs. intros [] s Hs.
    destruct (node_of_after [] k v nk nv l2 (proj1 Hl)) as [E1 E2].
    eapply runs_bind; [by eapply getNode_some|]. clear s Hs. intros n s [-> Hs].
    eapply runs_bind; [eapply putNode_runs; [done|by eapply node_of_small in E2]|].
    clear s Hs. intros [] s Hs. by eapply writeBatch_runs.
  - rewrite last_snoc, removelast_last in Ht. unfold last_key. rewrite last_snoc. simpl.
    destruct (node_of_before l1 pk pv (k, v) [] (proj1 Hl)) as [E1 E2].
    eapply runs_bind; [by eapply getNode_some|]. clear s Hs. intros n s [-> Hs].
    eapply runs_bind; [eapply putNode_runs; [done|by eapply node_of_small in E2]|].
    clear s Hs. intros [] s Hs. eapply runs_bind with (P := λ _ s', st s' m _ _ None).
    { apply runs_ret. by exists tt. }
    clear s Hs. intros [] s Hs. eapply writeBatch_runs; [exact Hs|]. by destruct l1.
  - rewrite last_snoc, removelast_last in Ht. unfold last_key. rewrite last_snoc. simpl.
    destruct (node_of_before l1 pk pv (k, v) ((nk, nv) :: l2) (proj1 Hl)) as [E1 E2].
    destruct (node_of_after _ k v nk nv l2 (proj1 Hl)) as [E3 E4].
    eapply runs_bind; [by eapply getNode_some|]. clear s Hs. intros n s [-> Hs].
    eapply runs_bind; [eapply putNode_runs; [done|by eapply node_of_small in E2]|].
    clear s Hs. intros [] s Hs. rewrite last_key_snoc in Ht, E4.
    eapply (runs_bind _ _ _ (λ _ s', st s' m ((l1 ++ [(pk, pv)]) ++ (k, v) :: (nk, nv) :: l2)
      (<[nk := Some (link nv (Some pk) (head_key l2))]>
         (<[pk := Some (link pv (last_key l1) (Some nk))]> {[k := None]})) None)).
    { eapply runs_bind; [by eapply getNode_some|]. clear s Hs. intros n s [-> Hs].
      eapply putNode_runs; [done|by eapply node_of_small in E4]. }
    clear s Hs. intros [] s Hs. eapply writeBatch_runs; [exact Hs|]. by destruct l1.
Qed.
End methods.
