(* ===== verification/LinkedDBMap.v ===== *)
(** Programs on a linked list ([database/linkeddb]).

    [ldb_run] performs a program of operations, iterations and re-openings on the
    linked list over any database; [list_run] is the same program on a list of
    pairs, the most recently added first. *)

From Stdlib Require Import Strings.Byte Strings.String.
From S2P Require Import Prelude Ids Packer Database MemDB LinkedHashmap Cache CodecTypes Codec LinkedDB LinkedDBSpec.

Open Scope ldb_scope.

Inductive ldb_op :=
| KHas (key : bytes)
| KGet (key : bytes)
| KPut (key value : bytes)
| KDelete (key : bytes)
| KIsEmpty
| KHeadKey
| KHead
| KIterate (limit : nat)                    (* a new iterator, read [limit] times *)
| KIterateFrom (start : bytes) (limit : nat)
| KReopen (cacheSize : Z).                  (* a new list on the same database *)

Inductive ldb_obs :=
| KBool (r : result ldb_error bool)
| KBytes (r : result ldb_error bytes)
| KUnit (r : result ldb_error unit)
| KPair (r : result ldb_error (bytes * bytes))
| KList (l : list (bytes * bytes)) (err : option ldb_error)
| KDone.

Section programs.
Context `{GoRange, GoAppend} (Implements : gotype → positive → bool).
Context {D B It : Type} `{Database D B It}.

Abbreviation method := (@ldb D B).

Definition iterate (it : ldb_iterator) (limit : nat) : method ldb_obs :=
  let^ r := li_collect Implements limit it in lret (KList r.1 (li_err r.2)).

Definition with_result {A : Type} (f : result ldb_error A → ldb_obs) (m : method A) : method ldb_obs :=
  ltry m (λ r, lret (f r)).

Definition ldb_do (o : ldb_op) : method ldb_obs :=
  match o with
  | KHas k => with_result KBool (ldb_Has k)
  | KGet k => with_result KBytes (ldb_Get Implements k)
  | KPut k v => with_result KUnit (ldb_Put Implements k v)
  | KDelete k => with_result KUnit (ldb_Delete Implements k)
  | KIsEmpty => with_result KBool ldb_IsEmpty
  | KHeadKey => with_result KBytes ldb_HeadKey
  | KHead => with_result KPair (ldb_Head Implements)
  | KIterate limit => iterate ldb_NewIterator limit
  | KIterateFrom start limit =>
      let^ it := ldb_NewIteratorWithStart start in iterate it limit
  | KReopen n => λ s,
      match ldb_New (ldb_db s) n with Some s => Some (Ok KDone, s) | None => None end
  end.

Fixpoint ldb_run (os : list ldb_op) : method (list ldb_obs) :=
  match os with
  | [] => lret []
  | o :: os => let^ b := ldb_do o in let^ bs := ldb_run os in lret (b :: bs)
  end.
End programs.

(** ** The same on a list *)

(** The pairs from a key on, all of them when it is not there. *)
Fixpoint from_key (k : bytes) (l : list pair) : option (list pair) :=
  match l with
  | [] => None
  | p :: l' => if decide (p.1 = k) then Some l else from_key k l'
  end.

Definition found {A : Type} (o : option A) : result ldb_error A :=
  match o with Some a => Ok a | None => Err LErrNotFound end.

Definition list_do (o : ldb_op) (l : list pair) : ldb_obs * list pair :=
  match o with
  | KHas k => (KBool (Ok (bool_decide (k ∈ l.*1))), l)
  | KGet k => (KBytes (found (alist_get k l)), l)
  | KPut k v => (KUnit (Ok tt), spec_Put k v l)
  | KDelete k => (KUnit (Ok tt), alist_delete k l)
  | KIsEmpty => (KBool (Ok (bool_decide (l = []))), l)
  | KHeadKey => (KBytes (found (head_key l)), l)
  | KHead => (KPair (found (head l)), l)
  | KIterate limit => (KList (take limit l) None, l)
  | KIterateFrom start limit => (KList (take limit (default l (from_key start l))) None, l)
  | KReopen _ => (KDone, l)
  end.

Fixpoint list_run (os : list ldb_op) (l : list pair) : list ldb_obs * list pair :=
  match os with
  | [] => ([], l)
  | o :: os => let '(b, l) := list_do o l in let '(bs, l) := list_run os l in (b :: bs, l)
  end.

(** Keys and values are at most 512 MiB, so that a node fits the codec. *)
Definition op_small (o : ldb_op) : Prop :=
  match o with KPut k v => small k ∧ small v | _ => True end.

Section refinement.
Context `{GoRange, GoAppend} (Implements : gotype → positive → bool).
Context {D B It : Type} `{DatabaseLaws D B It}.
Abbreviation state := (linkedDB D B).
Abbreviation method := (@ldb D B).

Lemma node_of_value k l :
  NoDup l.*1 → n_Value <$> node_of l k = alist_get k l.
Proof.
  intros Hn. destruct (decide (k ∈ l.*1)) as [Hin|Hni].
  - apply list_split in Hin as (l1&v&l2&->). apply NoDup_mid in Hn as Hm. destruct Hm as (H1'&_&_).
    rewrite node_of_mid by done. symmetry. apply alist_get_Some; [done|]. apply elem_of_app. right. left.
  - apply node_of_None in Hni as E. rewrite E. symmetry. by apply alist_get_None.
Qed.

(** ** Iterators *)

(** The pairs the iterator has still to give. *)
Definition li_ok (it : ldb_iterator) (l rest : list pair) : Prop :=
  li_err it = None ∧
  if li_exhausted it then rest = []
  else if li_initialized it then
    ∃ l1 k v l2, l = l1 ++ (k, v) :: l2 ∧ rest = (k, v) :: l2 ∧ li_nextKey it = k
  else rest = l.

Definition next_spec (l rest : list pair) (r : result ldb_error (bool * ldb_iterator)) : Prop :=
  match rest with
  | [] => ∃ it, r = Ok (false, it) ∧ li_err it = None
  | (k, v) :: rest =>
      ∃ it, r = Ok (true, it) ∧ li_key it = k ∧ li_value it = v ∧ li_ok it l rest
  end.

Lemma li_step_runs (s : state) m l1 k v l2 it :
  ldb_ok s m (l1 ++ (k, v) :: l2) → li_nextKey it = k → li_err it = None → li_initialized it = true →
  runs (li_step Implements it) s (λ r s', next_spec (l1 ++ (k, v) :: l2) ((k, v) :: l2) r ∧
    ldb_ok s' m (l1 ++ (k, v) :: l2)).
Proof.
  intros Hs <- He Hi. pose proof (st_list _ _ (lk_stored _ _ _ Hs)) as [Hn _].
  apply NoDup_mid in Hn as (H1'&_&_).
  eapply runs_try; [by apply getNode_ok|]. intros r s' (->&Hs'&_). unfold node_res.
  rewrite node_of_mid by done. apply runs_ret. split; [|done]. eexists. split; [done|]. split; [done|].
  split; [done|]. split; [done|]. cbn [li_exhausted li_initialized li_nextKey link n_HasNext n_Next].
  destruct l2 as [|[nk nv] l2]; [done|]. simpl. rewrite Hi.
  exists (l1 ++ [(li_nextKey it, v)]), nk, nv, l2. by rewrite <-app_assoc.
Qed.

Lemma li_Next_runs (s : state) m l rest it :
  ldb_ok s m l → li_ok it l rest →
  runs (li_Next Implements it) s (λ r s', next_spec l rest r ∧ ldb_ok s' m l).
Proof.
  intros Hs [He Hit]. unfold li_Next. destruct (li_exhausted it) eqn:Ex.
  { subst rest. apply runs_ret. split; [by eexists|done]. }
  destruct (li_initialized it) eqn:Ei.
  - destruct Hit as (l1&k&v&l2&->&->&Hk). by apply li_step_runs.
  - subst rest. eapply runs_try; [by apply getHeadKey_ok|]. intros r s' (->&Hs'&_). unfold head_res.
    destruct l as [|[k v] l]; simpl.
    + apply runs_ret. split; [by eexists|done].
    + by apply (li_step_runs s' m []).
Qed.

Lemma li_collect_runs limit (s : state) m l rest it :
  ldb_ok s m l → li_ok it l rest →
  runs (li_collect Implements limit it) s (λ r s', ∃ x, r = Ok x ∧
    ((x.1 = take limit rest ∧ li_err x.2 = None) ∧ ldb_ok s' m l)).
Proof.
  revert s rest it. induction limit as [|limit IH]; intros s rest it Hs Hit; cbn [li_collect].
  { apply runs_ret. eexists. split; [done|]. split; [split; [done|apply Hit]|done]. }
  eapply runs_bind with (P := λ x s', next_spec l rest (Ok x) ∧ ldb_ok s' m l).
  { eapply runs_impl; [by apply li_Next_runs|]. intros r s' [Hr Hs'].
    destruct rest as [|[k v] rest]; destruct Hr as (it'&->&Hr); eexists; (split; [done|]);
      (split; [by eexists|done]). }
  clear s Hs. intros x s [Hx Hs]. destruct rest as [|[k v] rest].
  - destruct Hx as (it'&[= ->]&He). apply runs_ret. eexists. split; [done|]. by split.
  - destruct Hx as (it'&[= ->]&<-&<-&Hit'). cbn [fst snd].
    eapply runs_bind; [by apply IH|]. clear s Hs. intros y s [[Hy1 Hy2] Hs]. apply runs_ret.
    eexists. split; [done|]. simpl. by rewrite Hy1.
Qed.

(** ** Programs *)

Lemma ldb_New_ok (d : D) m l n :
  db_ok d → db_view d = Some m → stored m l → ∃ s, ldb_New d n = Some s ∧ ldb_ok s m l.
Proof.
  intros Hd Hm Hl. unfold ldb_New. destruct (NewBatch_spec d Hd) as (b&->&Hb&Hf); [by exists m|].
  eexists. split; [done|]. split; try done. exists (Z.to_nat (1 `max` n)), []. split; [apply lru_rep_New|].
  by intros k o ?%elem_of_nil.
Qed.

Lemma ldb_Has_eq (s : state) m l k :
  ldb_ok s m l → ldb_Has k s = Some (Ok (bool_decide (k ∈ l.*1)), s).
Proof.
  intros [Hok Hv _ Hst _ _]. unfold ldb_Has. rewrite (Has_spec _ _ Hok), Hv. simpl. unfold map_Has.
  do 3 f_equal. apply bool_decide_ext. rewrite (st_node _ _ Hst), fmap_is_Some, <-not_eq_None_Some.
  rewrite node_of_None. split; [|tauto]. by destruct (decide (k ∈ l.*1)).
Qed.

Lemma from_key_spec k l :
  (k ∉ l.*1 ∧ from_key k l = None) ∨
  (∃ l1 v l2, l = l1 ++ (k, v) :: l2 ∧ from_key k l = Some ((k, v) :: l2)).
Proof.
  induction l as [|[k' v] l IH]; csimpl; [left; split; [by intros ?%elem_of_nil|done]|].
  destruct (decide (k' = k)) as [->|Hne]; [right; by exists [], v, l|].
  destruct IH as [[Hni E]|(l1&w&l2&->&E)].
  - left. rewrite not_elem_of_cons. split; [|done]. by split.
  - right. by exists ((k', v) :: l1), w, l2.
Qed.

Definition does (s : state) (m : method ldb_obs) (b : ldb_obs) (l : list pair) : Prop :=
  runs m s (λ r s', ∃ b', r = Ok b' ∧ (b' = b ∧ ∃ m', ldb_ok s' m' l)).

Lemma does_result {A : Type} (f : result ldb_error A → ldb_obs) (x : method A) s r l :
  runs x s (λ r' s', r' = r ∧ ∃ m', ldb_ok s' m' l) → does s (with_result f x) (f r) l.
Proof.
  intros Hx. eapply runs_try; [exact Hx|]. intros r' s' [-> Hs']. apply runs_ret. eauto.
Qed.

Lemma does_iterate s m l rest it limit :
  ldb_ok s m l → li_ok it l rest → does s (iterate Implements it limit) (KList (take limit rest) None) l.
Proof.
  intros Hs Hit. eapply runs_bind; [by apply li_collect_runs|]. intros [ps it'] s' [[-> He] Hs'].
  apply runs_ret. eexists. split; [done|]. simpl in *. rewrite He. eauto.
Qed.

Lemma ldb_do_refines (o : ldb_op) (s : state) m l :
  ldb_ok s m l → op_small o → does s (ldb_do Implements o) (list_do o l).1 (list_do o l).2.
Proof.
  intros Hs Ho. pose proof (st_list _ _ (lk_stored _ _ _ Hs)) as [Hn _].
  destruct o as [k|k|k v|k| | | |limit|start limit|n]; cbn [ldb_do list_do fst snd].
  - apply does_result. eexists _, _. split; [by eapply ldb_Has_eq|]. eauto.
  - apply does_result. unfold ldb_Get, runs, lbind.
    destruct (getNode_ok Implements s m l k Hs) as (r&s'&->&->&Hs'&_). unfold node_res.
    rewrite <-node_of_value by done. destruct (node_of l k); eexists _, _; (split; [done|]); eauto.
  - apply does_result. destruct Ho. by eapply ldb_Put_runs.
  - apply does_result. by eapply ldb_Delete_runs.
  - apply does_result. eapply runs_try; [by apply getHeadKey_ok|]. intros r s' (->&Hs'&_).
    unfold head_res. destruct l as [|[k v] l]; simpl; apply runs_ret; eauto.
  - apply does_result. eapply runs_impl; [by apply getHeadKey_ok|]. intros r s' (->&Hs'&_).
    unfold head_res, found. eauto.
  - apply does_result. unfold ldb_Head, runs, lbind.
    destruct (getHeadKey_ok s m l Hs) as (r&s'&->&->&Hs'&_). unfold head_res.
    destruct l as [|[k v] l]; simpl; [eexists _, _; (split; [done|]); eauto|].
    destruct (getNode_ok Implements s' m ((k, v) :: l) k Hs') as (r&s''&->&->&Hs''&_). unfold node_res.
    pose proof (node_of_mid [] k v l ltac:(by intros ?%elem_of_nil)) as E. simpl in E. rewrite E.
    eexists _, _. split; [done|]. eauto.
  - apply does_iterate with m; [done|]. by split.
  - unfold does, ldb_NewIteratorWithStart.
    eapply runs_bind with (P := λ it s', li_ok it l (default l (from_key start l)) ∧ ldb_ok s' m l).
    + eapply runs_try with (P := λ r s', r = Ok (bool_decide (start ∈ l.*1)) ∧ s' = s).
      { eexists _, _. split; [by eapply ldb_Has_eq|done]. }
      intros r s' [-> ->]. destruct (from_key_spec start l) as [[Hni ->]|(l1&v&l2&->&->)].
      * rewrite bool_decide_false by done. apply runs_ret. eexists. split; [done|]. split; [by split|done].
      * rewrite bool_decide_true by (rewrite fmap_app; apply elem_of_app; right; left).
        apply runs_ret. eexists. split; [done|]. split; [|done]. split; [done|]. simpl. eauto 10.
    + intros it s' [Hit Hs']. by apply does_iterate with m.
  - destruct Hs as [Hok Hv _ Hst _ _]. destruct (ldb_New_ok _ m l n Hok Hv Hst) as (s'&E&Hs').
    unfold does, runs. rewrite E. eexists _, _. split; [done|]. eauto.
Qed.

Lemma ldb_run_refines os (s : state) m l :
  ldb_ok s m l → Forall op_small os →
  runs (ldb_run Implements os) s (λ r s', r = Ok (list_run os l).1 ∧ ∃ m', ldb_ok s' m' (list_run os l).2).
Proof.
  intros Hs Hos. revert s m l Hs. induction Hos as [|o os Ho _ IH]; intros s m l Hs; cbn [ldb_run list_run].
  { apply runs_ret. eauto. }
  eapply runs_bind; [by eapply ldb_do_refines|]. clear s Hs. intros b s [-> [m' Hs]].
  destruct (list_do o l) as [b l']. simpl in *.
  eapply runs_bind with (P := λ bs s', bs = (list_run os l').1 ∧ ∃ m', ldb_ok s' m' (list_run os l').2).
  { eapply runs_impl; [by eapply IH|]. intros r s' [-> Hs']. eauto. }
  intros bs s' [-> Hs']. destruct (list_run os l') as [bs l'']. apply runs_ret. eauto.
Qed.

(** C20: a linked list in any lawful database is an ordered map: every program of
    reads, writes, deletions, iterations and re-openings, started on a database that
    stores a list, runs without a panic and answers exactly as the list does - the
    pair added last first, a pair updated in place - and the database stores the
    resulting list. *)
Theorem linkeddb_is_list os (d : D) m l n :
  db_ok d → db_view d = Some m → stored m l → Forall op_small os →
  ∃ s s', ldb_New d n = Some s ∧
    ldb_run Implements os s = Some (Ok (list_run os l).1, s') ∧
    ∃ m', db_view (ldb_db s') = Some m' ∧ stored m' (list_run os l).2.
Proof.
  intros Hd Hm Hl Hos. destruct (ldb_New_ok d m l n Hd Hm Hl) as (s&E&Hs).
  destruct (ldb_run_refines os s m l Hs Hos) as (r&s'&E'&->&m'&Hs'). exists s, s'.
  split; [done|]. split; [exact E'|]. exists m'. split; apply Hs'.
Qed.
End refinement.

(** ** A program *)

#[local] Existing Instance go_range_std.
#[local] Existing Instance go_append_tight.

Definition sample_ldb_ops : list ldb_op :=
  [KIsEmpty; KPut [x01] [x10]; KPut [x02] [x11; x12]; KPut [] []; KPut [x02] [x13]; KHead; KIterate 5;
   KDelete [x02]; KReopen 1; KPut [x03] [x14]; KIterateFrom [] 5; KDelete [x03]; KDelete [x09];
   KHeadKey; KGet [x02]; KHas [x01]; KIterate 1; KDelete []; KDelete [x01]; KIsEmpty; KHead].

Lemma linkeddb_is_list_witness :
  ∃ s s', ldb_New memdb_New 2 = Some s ∧
    ldb_run (λ _ _, false) sample_ldb_ops s = Some (Ok (list_run sample_ldb_ops []).1, s') ∧
    ∃ m', db_view (ldb_db s') = Some m' ∧ stored m' [].
Proof.
  apply (linkeddb_is_list (λ _ _, false) sample_ldb_ops memdb_New ∅ [] 2).
  - exact I.
  - reflexivity.
  - split; [split; [constructor|constructor]|reflexivity|]. intros k. by rewrite lookup_empty.
  - repeat constructor; done.
Defined.
