(* ===== verification/GoStd.v ===== *)
(** Parts of the Go language and its standard library that several components
    use: floating-point numbers and [sort.Sort].

    A [float64] is a [spec_float] of the Standard Library's specification of
    IEEE 754, with the precision and the range of the 64-bit format; the node
    converts unsigned integers to it, multiplies, divides and converts back.
    Every operation rounds to the nearest, ties to even.  The conversion of a
    number outside of the range of the integer type is left open by the
    language: [GoConv] is what the machine answers.

    [sort.Sort] sorts by a [Less] method, and leaves the order of elements that
    compare equal open: [GoSort] is any such function. *)

From S2P Require Import Prelude.
From Stdlib Require Import SpecFloat.

Abbreviation float64 := spec_float.

Definition float64_of_Z (x : Z) : float64 := binary_normalize 53 1024 x 0 false.
Definition float64_mul (x y : float64) : float64 := SFmul 53 1024 x y.
Definition float64_div (x y : float64) : float64 := SFdiv 53 1024 x y.

(** The integer part, towards zero; none for an infinity or a NaN. *)
Definition float64_trunc (x : float64) : option Z :=
  match x with
  | S754_zero _ => Some 0
  | S754_infinity _ | S754_nan => None
  | S754_finite s m e =>
      let a := if decide (0 ≤ e) then Z.pos m * 2 ^ e else Z.pos m / 2 ^ (- e) in
      Some (if s then - a else a)
  end.

Class GoConv : Type := {
  conv_uint64 : float64 → Z;
  conv_int : float64 → Z;
  conv_uint64_range x : is_u64 (conv_uint64 x);
  conv_int_range x : - 2 ^ 63 ≤ conv_int x < 2 ^ 63;
}.

(** On amd64 both conversions answer the bit pattern of the least integer. *)
Definition go_conv_amd64 : GoConv.
Proof.
  refine {| conv_uint64 := λ _, 2 ^ 63; conv_int := λ _, - 2 ^ 63 |};
    intros; vm_compute; split; congruence.
Defined.

Section conv.
Context `{GoConv}.

(** [uint64(x)] *)
Definition uint64_of_float64 (x : float64) : Z :=
  match float64_trunc x with
  | Some z => if decide (is_u64 z) then z else conv_uint64 x
  | None => conv_uint64 x
  end.

(** [int(x)] *)
Definition int_of_float64 (x : float64) : Z :=
  match float64_trunc x with
  | Some z => if decide (- 2 ^ 63 ≤ z < 2 ^ 63) then z else conv_int x
  | None => conv_int x
  end.

Lemma uint64_of_float64_range x : is_u64 (uint64_of_float64 x).
Proof.
  unfold uint64_of_float64. destruct (float64_trunc x); [case_decide|]; auto using conv_uint64_range.
Qed.
End conv.

#[export] Hint Resolve uint64_of_float64_range : node.

(** Integers below [2 ^ 53] convert exactly; above, neighbours collapse. *)
Example float64_exact : float64_trunc (float64_of_Z (2 ^ 53 - 1)) = Some (2 ^ 53 - 1).
Proof. vm_compute. done. Qed.

Example float64_collapse : float64_of_Z (2 ^ 60 - 1) = float64_of_Z (2 ^ 60).
Proof. vm_compute. done. Qed.

(** ** sort.Sort *)

(** [x] may stand before [y]. *)
Definition not_less {A} (less : A → A → bool) (x y : A) : Prop := less y x = false.

#[export] Instance not_less_dec {A} (less : A → A → bool) : RelDecision (not_less less).
Proof. intros x y. unfold not_less. apply _. Defined.

(** [Less] must order the elements that are sorted. *)
Class GoSort : Type := {
  go_sort : ∀ {A : Type}, (A → A → bool) → list A → list A;
  go_sort_perm : ∀ A (less : A → A → bool) l, go_sort less l ≡ₚ l;
  go_sort_sorted_on : ∀ A (less : A → A → bool) l,
    (∀ x y z, x ∈ l → y ∈ l → z ∈ l → not_less less x y → not_less less y z → not_less less x z) → Total (not_less less) →
    StronglySorted (not_less less) (go_sort less l);
}.

Lemma go_sort_sorted `{GoSort} A (less : A → A → bool) l :
  Transitive (not_less less) → Total (not_less less) → StronglySorted (not_less less) (go_sort less l).
Proof. intros Htr Hto. apply go_sort_sorted_on; [|done]. intros x y z _ _ _ Hxy Hyz. by etrans. Qed.

Lemma Sorted_StronglySorted_on {A} (R : A → A → Prop) l :
  (∀ x y z, x ∈ l → y ∈ l → z ∈ l → R x y → R y z → R x z) → Sorted R l → StronglySorted R l.
Proof.
  intros Htr Hs. induction Hs as [|x l Hs IH Hx]; [constructor|].
  assert (StronglySorted R l) as Hl by (apply IH; intros a b c Ha Hb Hc; apply Htr; by right).
  constructor; [done|]. destruct Hx as [|y l Hxy]; [constructor|]. apply StronglySorted_inv in Hl as [_ Hy].
  constructor; [done|]. rewrite Forall_forall in Hy |- *. intros z Hz. apply (Htr x y z); [left|right; left|right; by right|done|by apply Hy].
Qed.

(** The instance the examples run with, a merge sort. *)
Definition go_sort_std : GoSort.
Proof.
  refine {| go_sort := λ A less l, merge_sort (not_less less) l |}.
  - intros. apply merge_sort_Permutation.
  - intros A less l Htr Hto. apply Sorted_StronglySorted_on; [|by apply Sorted_merge_sort].
    intros x y z. rewrite !merge_sort_Permutation. apply Htr.
Defined.

(** With a total order on the elements of a list the result is unique. *)
Lemma go_sort_unique {A} `{S1 : GoSort} (S2 : GoSort) (less : A → A → bool) (l : list A) :
  Transitive (not_less less) → Total (not_less less) →
  (∀ x y, x ∈ l → y ∈ l → not_less less x y → not_less less y x → x = y) →
  @go_sort S1 A less l = @go_sort S2 A less l.
Proof.
  intros Htr Hto Ha.
  assert (∀ l1 l2, StronglySorted (not_less less) l1 → StronglySorted (not_less less) l2 →
    (∀ x, x ∈ l1 → x ∈ l) → l1 ≡ₚ l2 → l1 = l2) as Hu.
  { clear S1 S2. intros l1. induction l1 as [|x l1 IH]; intros l2 H1 H2 Hin Hp.
    { by apply Permutation_nil_l in Hp. }
    destruct l2 as [|y l2]; [by apply Permutation_nil_r in Hp|].
    inversion_clear H1 as [|?? H1' F1]. inversion_clear H2 as [|?? H2' F2].
    assert (x = y) as <-.
    { assert (x ∈ y :: l2) as Hx by (rewrite <-Hp; left).
      assert (y ∈ x :: l1) as Hy by (rewrite Hp; left).
      apply elem_of_cons in Hx as [->|Hx]; [done|]. apply elem_of_cons in Hy as [->|Hy]; [done|].
      rewrite Forall_forall in F1, F2. apply Ha; [apply Hin; left|apply Hin; by right|auto|auto]. }
    f_equal. apply IH; [done|done| |by apply Permutation_cons_inv in Hp].
    intros z Hz. apply Hin. by right. }
  apply Hu; [by apply go_sort_sorted..| |by rewrite !go_sort_perm].
  intros x Hx. by rewrite go_sort_perm in Hx.
Qed.
