(* ===== verification/Sampler.v ===== *)
(** Uniform samplers (src/utils/sampler: rand.go, uniform.go,
    uniform_replacer.go, uniform_resample.go).

    A uniform sampler draws distinct numbers of [[0, length)].  Two of them are
    modelled: [uniformReplacer], a Fisher-Yates shuffle on a sparse array, and
    [uniformResample], which draws again until the number is new.  The source
    of randomness ([math/rand] over a third-party generator) is a parameter,
    [Rng]; the state of the global generator is threaded through the calls.

    [replacer_bijection] is the reason the replacer is uniform: the sequences
    of draws and the samples correspond one to one. *)

From S2P Require Import Prelude SafeMath.

Inductive samplerError :=
| errOutOfRange
| errWeightsTooLarge
| errNoValidUniformSamplers
| errNoValidWeightedSamplers
| errMath (e : math_error).

#[export] Instance samplerError_eq_dec : EqDecision samplerError.
Proof. solve_decision. Defined.

Definition MaxInt64 : Z := 2 ^ 63 - 1.

(** ** Sources of randomness *)

(** [type rng interface]: [Int63n] answers in [[0, n)] and panics when [n <= 0];
    [newRNG] seeds a new generator with the time. *)
Class Rng (R : Type) : Type := {
  rng_Seed : Z → R → R;
  rng_Int63n : Z → R → Z * R;
  rng_new : Z → R;
  rng_Int63n_range n r : 0 < n → 0 ≤ (rng_Int63n n r).1 < n;
}.

(** The generator a sampler reads: the field [rng] is nil before [Initialize],
    then the package's [globalRNG] or the sampler's own [seededRNG]. *)
Inductive rngPtr := rngNil | rngGlobal | rngSeeded.

#[export] Instance rngPtr_eq_dec : EqDecision rngPtr.
Proof. solve_decision. Defined.

Section rng.
Context {R : Type} `{!Rng R}.

(** The generators in reach of a sampler: the global one and its own. *)
Record rngs := mkRngs { globalRNG : R; seededRNG : option R }.

(** [s.rng.Int63n(n)]; none is a panic. *)
Definition Int63n (p : rngPtr) (n : Z) (g : rngs) : option (Z * rngs) :=
  if decide (n ≤ 0) then None
  else
    match p with
    | rngNil => None
    | rngGlobal =>
        let '(x, r) := rng_Int63n n (globalRNG g) in Some (x, mkRngs r (seededRNG g))
    | rngSeeded =>
        match seededRNG g with
        | None => None
        | Some r =>
            let '(x, r) := rng_Int63n n r in Some (x, mkRngs (globalRNG g) (Some r))
        end
    end.

(** The pointer a sampler holds can be read. *)
Definition rng_ready (p : rngPtr) (g : rngs) : Prop :=
  match p with rngNil => False | rngGlobal => True | rngSeeded => is_Some (seededRNG g) end.

Lemma Int63n_ready p n g :
  rng_ready p g → 0 < n →
  ∃ x g', Int63n p n g = Some (x, g') ∧ 0 ≤ x < n ∧ rng_ready p g'.
Proof.
  intros Hp Hn. unfold Int63n. rewrite decide_False by lia.
  destruct p; simpl in Hp; [done| |destruct Hp as [r Hr]; rewrite Hr].
  - pose proof (rng_Int63n_range n (globalRNG g) Hn).
    destruct (rng_Int63n n (globalRNG g)) as [x r]. eauto.
  - pose proof (rng_Int63n_range n r Hn). destruct (rng_Int63n n r) as [x r'].
    simpl. naive_solver.
Qed.

(** A call never takes a generator away. *)
Lemma Int63n_keeps p q n g x g' :
  Int63n q n g = Some (x, g') → rng_ready p g → rng_ready p g'.
Proof.
  unfold Int63n. case_decide; [done|]. destruct q; [done| |].
  - destruct (rng_Int63n n (globalRNG g)) as [y r]. intros [= <- <-]. by destruct p.
  - destruct (seededRNG g) as [r|]; [|done]. destruct (rng_Int63n n r) as [y r'].
    intros [= <- <-]. destruct p; simpl; eauto.
Qed.

(** ** uniformReplacer *)

Abbreviation defaultMap := (gmap Z Z).
Definition defaultMap_get (m : defaultMap) (key defaultVal : Z) : Z := default defaultVal (m !! key).

Record uniformReplacer := mkUniformReplacer {
  ur_rng : rngPtr;
  ur_length : Z;
  ur_drawn : defaultMap;
  ur_drawsCount : Z;
}.

Definition uniformReplacer_zero : uniformReplacer := mkUniformReplacer rngNil 0 ∅ 0.

(** [seed] is the time [newRNG] reads. *)
Definition ur_Initialize (seed length : Z) (s : uniformReplacer) (g : rngs)
  : option samplerError * uniformReplacer * rngs :=
  if decide (length > MaxInt64) then (Some errOutOfRange, s, g)
  else (None, mkUniformReplacer rngGlobal length ∅ 0, mkRngs (globalRNG g) (Some (rng_new seed))).

Definition ur_Reset (s : uniformReplacer) : uniformReplacer :=
  mkUniformReplacer (ur_rng s) (ur_length s) ∅ 0.

(** A panic on a sampler that was never initialized. *)
Definition ur_Seed (seed : Z) (s : uniformReplacer) (g : rngs) : option (uniformReplacer * rngs) :=
  match seededRNG g with
  | None => None
  | Some r =>
      Some (mkUniformReplacer rngSeeded (ur_length s) (ur_drawn s) (ur_drawsCount s),
            mkRngs (globalRNG g) (Some (rng_Seed seed r)))
  end.

Definition ur_ClearSeed (s : uniformReplacer) : uniformReplacer :=
  mkUniformReplacer rngGlobal (ur_length s) (ur_drawn s) (ur_drawsCount s).

Definition ur_Next (s : uniformReplacer) (g : rngs)
  : option (result samplerError Z * uniformReplacer * rngs) :=
  if decide (ur_length s ≤ ur_drawsCount s) then Some (Err errOutOfRange, s, g)
  else
    match Int63n (ur_rng s) (ur_length s - ur_drawsCount s) g with
    | None => None
    | Some (x, g) =>
        let draw := x + ur_drawsCount s in
        let ret := defaultMap_get (ur_drawn s) draw draw in
        let drawn := <[draw := defaultMap_get (ur_drawn s) (ur_drawsCount s) (ur_drawsCount s)]>
                       (ur_drawn s) in
        Some (Ok ret, mkUniformReplacer (ur_rng s) (ur_length s) drawn (ur_drawsCount s + 1), g)
    end.

(** The loop of [Sample], [count] more numbers to draw. *)
Fixpoint ur_Sample_loop (count : nat) (s : uniformReplacer) (g : rngs)
  : option (result samplerError (list Z) * uniformReplacer * rngs) :=
  match count with
  | O => Some (Ok [], s, g)
  | S count =>
      match ur_Next s g with
      | None => None
      | Some (Err e, s, g) => Some (Err e, s, g)
      | Some (Ok ret, s, g) =>
          match ur_Sample_loop count s g with
          | None => None
          | Some (Err e, s, g) => Some (Err e, s, g)
          | Some (Ok results, s, g) => Some (Ok (ret :: results), s, g)
          end
      end
  end.

Definition ur_Sample (count : nat) (s : uniformReplacer) (g : rngs)
  : option (result samplerError (list Z) * uniformReplacer * rngs) :=
  ur_Sample_loop count (ur_Reset s) g.

(** ** uniformResample *)

Record uniformResample := mkUniformResample {
  us_rng : rngPtr;
  us_length : Z;
  us_drawn : gset Z;
}.

Definition uniformResample_zero : uniformResample := mkUniformResample rngNil 0 ∅.

Definition us_Initialize (seed length : Z) (s : uniformResample) (g : rngs)
  : option samplerError * uniformResample * rngs :=
  if decide (length > MaxInt64) then (Some errOutOfRange, s, g)
  else (None, mkUniformResample rngGlobal length ∅, mkRngs (globalRNG g) (Some (rng_new seed))).

Definition us_Reset (s : uniformResample) : uniformResample :=
  mkUniformResample (us_rng s) (us_length s) ∅.

Definition us_Seed (seed : Z) (s : uniformResample) (g : rngs) : option (uniformResample * rngs) :=
  match seededRNG g with
  | None => None
  | Some r =>
      Some (mkUniformResample rngSeeded (us_length s) (us_drawn s),
            mkRngs (globalRNG g) (Some (rng_Seed seed r)))
  end.

Definition us_ClearSeed (s : uniformResample) : uniformResample :=
  mkUniformResample rngGlobal (us_length s) (us_drawn s).

(** The loop of [Next]: it has no bound of its own, [fuel] is the number of
    draws it may make; none when it makes no progress within them (or panics). *)
Fixpoint us_Next_loop (fuel : nat) (s : uniformResample) (g : rngs)
  : option (Z * uniformResample * rngs) :=
  match fuel with
  | O => None
  | S fuel =>
      match Int63n (us_rng s) (us_length s) g with
      | None => None
      | Some (draw, g) =>
          if decide (draw ∈ us_drawn s) then us_Next_loop fuel s g
          else Some (draw, mkUniformResample (us_rng s) (us_length s) ({[draw]} ∪ us_drawn s), g)
      end
  end.

Definition us_Next (fuel : nat) (s : uniformResample) (g : rngs)
  : option (result samplerError Z * uniformResample * rngs) :=
  if decide (us_length s ≤ Z.of_nat (size (us_drawn s))) then Some (Err errOutOfRange, s, g)
  else
    match us_Next_loop fuel s g with
    | None => None
    | Some (draw, s, g) => Some (Ok draw, s, g)
    end.

Fixpoint us_Sample_loop (fuel count : nat) (s : uniformResample) (g : rngs)
  : option (result samplerError (list Z) * uniformResample * rngs) :=
  match count with
  | O => Some (Ok [], s, g)
  | S count =>
      match us_Next fuel s g with
      | None => None
      | Some (Err e, s, g) => Some (Err e, s, g)
      | Some (Ok ret, s, g) =>
          match us_Sample_loop fuel count s g with
          | None => None
          | Some (Err e, s, g) => Some (Err e, s, g)
          | Some (Ok results, s, g) => Some (Ok (ret :: results), s, g)
          end
      end
  end.

Definition us_Sample (fuel count : nat) (s : uniformResample) (g : rngs)
  : option (result samplerError (list Z) * uniformResample * rngs) :=
  us_Sample_loop fuel count (us_Reset s) g.
End rng.
Arguments rngs : clear implicits.

(** ** The replacer draws a permutation *)

Section replacer.
Context {R : Type} `{!Rng R}.
Implicit Types (s : uniformReplacer) (g : rngs R).

(** The reference: draw [x] of what remains takes its [x]-th element and puts
    the first one in its place. *)
Definition swap_remove (x : Z) (l : list Z) : list Z :=
  match l with
  | [] => []
  | a :: l => if decide (x = 0) then l else <[Z.to_nat (x - 1) := a]> l
  end.

Fixpoint shuffle (l : list Z) (draws : list Z) : list Z :=
  match draws with
  | [] => []
  | x :: draws => l !!! Z.to_nat x :: shuffle (swap_remove x l) draws
  end.

(** The answers of the source of randomness to [count] calls with the bounds
    [n], [n - 1], ... *)
Fixpoint draw_list (p : rngPtr) (n : Z) (count : nat) (g : rngs R) : option (list Z * rngs R) :=
  match count with
  | O => Some ([], g)
  | S count =>
      match Int63n p n g with
      | None => None
      | Some (x, g) =>
          match draw_list p (n - 1) count g with
          | None => None
          | Some (xs, g) => Some (x :: xs, g)
          end
      end
  end.

Fixpoint valid_draws (n : Z) (draws : list Z) : Prop :=
  match draws with [] => True | x :: draws => 0 ≤ x < n ∧ valid_draws (n - 1) draws end.

Lemma swap_remove_perm x l :
  0 ≤ x < Z.of_nat (length l) → l ≡ₚ l !!! Z.to_nat x :: swap_remove x l.
Proof.
  intros Hx. destruct l as [|a l]; simpl in *; [lia|]. case_decide as E.
  - by subst x.
  - replace (Z.to_nat x) with (S (Z.to_nat (x - 1))) by lia. simpl.
    assert (Z.to_nat (x - 1) < length l)%nat as Hi by lia.
    destruct (lookup_lt_is_Some_2 l (Z.to_nat (x - 1)) Hi) as [b Hb].
    rewrite (list_lookup_total_correct _ _ _ Hb).
    rewrite insert_take_drop by done.
    rewrite <-(take_drop_middle l (Z.to_nat (x - 1)) b) at 1 by done.
    rewrite <-!Permutation_middle. apply perm_swap.
Qed.

Lemma NoDup_swap_remove x l :
  0 ≤ x < Z.of_nat (length l) → NoDup l →
  l !!! Z.to_nat x ∉ swap_remove x l ∧ NoDup (swap_remove x l).
Proof.
  intros Hx Hl. rewrite (swap_remove_perm x l Hx) in Hl. by apply NoDup_cons in Hl.
Qed.

Lemma elem_of_swap_remove x l y :
  0 ≤ x < Z.of_nat (length l) → (y ∈ l ↔ y = l !!! Z.to_nat x ∨ y ∈ swap_remove x l).
Proof.
  intros Hx. pose proof (swap_remove_perm x l Hx) as Hp. rewrite <-elem_of_cons.
  by apply elem_of_Permutation_proper.
Qed.

Lemma length_swap_remove x l :
  0 ≤ x < Z.of_nat (length l) → Z.of_nat (length (swap_remove x l)) = Z.of_nat (length l) - 1.
Proof.
  intros Hx. pose proof (Permutation_length (swap_remove_perm x l Hx)) as E. simpl in E. lia.
Qed.

Lemma shuffle_spec l draws :
  NoDup l → valid_draws (Z.of_nat (length l)) draws →
  NoDup (shuffle l draws) ∧ (∀ x, x ∈ shuffle l draws → x ∈ l).
Proof.
  revert l. induction draws as [|x draws IH]; intros l Hl Hd; simpl in *.
  { split; [constructor|]. intros x Hx. by apply elem_of_nil in Hx. }
  destruct Hd as [Hx Hd]. destruct (NoDup_swap_remove x l Hx Hl) as [Hn Hl'].
  rewrite <-length_swap_remove with (x := x) in Hd by done.
  destruct (IH _ Hl' Hd) as [H1 H2]. split.
  - apply NoDup_cons. naive_solver.
  - intros y Hy. apply (elem_of_swap_remove x); [done|].
    apply elem_of_cons in Hy as [->|Hy]; auto.
Qed.

Lemma length_shuffle l draws : length (shuffle l draws) = length draws.
Proof. revert l. induction draws; intros l; simpl; auto. Qed.

Lemma shuffle_inj l draws1 draws2 :
  NoDup l → valid_draws (Z.of_nat (length l)) draws1 → valid_draws (Z.of_nat (length l)) draws2 →
  shuffle l draws1 = shuffle l draws2 → draws1 = draws2.
Proof.
  revert l draws2. induction draws1 as [|x draws1 IH]; intros l [|y draws2] Hl H1 H2 E;
    simpl in *; [done|done|done|]. destruct H1 as [Hx H1], H2 as [Hy H2]. injection E as E1 E2.
  assert (x = y) as <-.
  { destruct (lookup_lt_is_Some_2 l (Z.to_nat x) ltac:(lia)) as [a Ha].
    destruct (lookup_lt_is_Some_2 l (Z.to_nat y) ltac:(lia)) as [b Hb].
    rewrite (list_lookup_total_correct _ _ _ Ha), (list_lookup_total_correct _ _ _ Hb) in E1.
    subst b. pose proof (NoDup_lookup _ _ _ _ Hl Ha Hb). lia. }
  f_equal. destruct (NoDup_swap_remove x l Hx Hl) as [_ Hl']. rewrite <-length_swap_remove with (x := x) in H1, H2 by done.
  by eapply IH.
Qed.

Lemma shuffle_surj l out :
  NoDup out → (∀ x, x ∈ out → x ∈ l) →
  ∃ draws, valid_draws (Z.of_nat (length l)) draws ∧ shuffle l draws = out.
Proof.
  revert l. induction out as [|a out IH]; intros l Hn Hs; [by exists []|].
  apply NoDup_cons in Hn as [Ha Hn].
  assert (a ∈ l) as Hl by (apply Hs; left).
  apply list_elem_of_lookup in Hl as [i Hi]. pose proof (lookup_lt_Some _ _ _ Hi) as Hlen.
  assert (0 ≤ Z.of_nat i < Z.of_nat (length l)) as Hx by lia.
  pose proof (λ y, elem_of_swap_remove (Z.of_nat i) l y Hx) as Hp.
  rewrite Nat2Z.id, (list_lookup_total_correct _ _ _ Hi) in Hp.
  destruct (IH (swap_remove (Z.of_nat i) l) Hn) as (draws&Hd&E).
  { intros x Hxo. assert (x ∈ l) as Hxl by (apply Hs; by right).
    by apply Hp in Hxl as [->|?]. }
  exists (Z.of_nat i :: draws). simpl.
  rewrite length_swap_remove in Hd by done.
  rewrite Nat2Z.id, (list_lookup_total_correct _ _ _ Hi), E. done.
Qed.

Lemma defaultMap_get_insert (m : gmap Z Z) k v i d :
  defaultMap_get (<[k:=v]> m) i d = if decide (k = i) then v else defaultMap_get m i d.
Proof. unfold defaultMap_get. rewrite lookup_insert. by case_decide. Qed.

(** What a sampler may still answer, the sparse array from [drawsCount] on. *)
Definition ur_remaining s : list Z :=
  (λ i, defaultMap_get (ur_drawn s) i i) <$> seqZ (ur_drawsCount s) (ur_length s - ur_drawsCount s).

Lemma ur_remaining_lookup s x :
  0 ≤ x < ur_length s - ur_drawsCount s →
  ur_remaining s !!! Z.to_nat x =
    defaultMap_get (ur_drawn s) (x + ur_drawsCount s) (x + ur_drawsCount s).
Proof.
  intros Hx. apply list_lookup_total_correct. unfold ur_remaining.
  rewrite list_lookup_fmap, lookup_seqZ_lt by lia. simpl. f_equal; [..|f_equal]; lia.
Qed.

Lemma ur_Next_step s g x g' :
  ur_drawsCount s < ur_length s →
  Int63n (ur_rng s) (ur_length s - ur_drawsCount s) g = Some (x, g') →
  0 ≤ x < ur_length s - ur_drawsCount s →
  ∃ s', ur_Next s g = Some (Ok (ur_remaining s !!! Z.to_nat x), s', g') ∧
    ur_remaining s' = swap_remove x (ur_remaining s) ∧
    ur_rng s' = ur_rng s ∧ ur_length s' = ur_length s ∧ ur_drawsCount s' = ur_drawsCount s + 1.
Proof.
  intros Hc Hi Hx. unfold ur_Next. rewrite decide_False, Hi by lia.
  eexists. split; [by rewrite ur_remaining_lookup|]. split_and!; [|done..].
  unfold ur_remaining. simpl.
  replace (ur_length s - ur_drawsCount s) with (Z.succ (ur_length s - ur_drawsCount s - 1)) by lia.
  rewrite (seqZ_cons (ur_drawsCount s)) by lia. csimpl.
  replace (Z.pred (Z.succ _)) with (ur_length s - ur_drawsCount s - 1) by lia.
  replace (ur_length s - (ur_drawsCount s + 1)) with (ur_length s - ur_drawsCount s - 1) by lia.
  replace (Z.succ (ur_drawsCount s)) with (ur_drawsCount s + 1) by lia.
  case_decide as E.
  - subst x. apply list_fmap_ext. intros i y Hy. apply lookup_seqZ in Hy.
    by rewrite defaultMap_get_insert, decide_False by lia.
  - apply list_eq. intros i. rewrite list_lookup_fmap, list_lookup_insert.
    destruct (decide (Z.of_nat i < ur_length s - ur_drawsCount s - 1)) as [Hlt|Hge].
    2:{ rewrite lookup_seqZ_ge by lia. simpl. case_decide as E'.
        - rewrite length_fmap, length_seqZ in E'. lia.
        - by rewrite list_lookup_fmap, lookup_seqZ_ge by lia. }
    rewrite lookup_seqZ_lt by lia. simpl. rewrite length_fmap, length_seqZ.
    rewrite defaultMap_get_insert. case_decide as E'.
    + by rewrite decide_True by lia.
    + rewrite decide_False by lia. by rewrite list_lookup_fmap, lookup_seqZ_lt by lia.
Qed.

Lemma length_ur_remaining s :
  ur_drawsCount s ≤ ur_length s →
  Z.of_nat (length (ur_remaining s)) = ur_length s - ur_drawsCount s.
Proof. intros. unfold ur_remaining. rewrite length_fmap, length_seqZ. lia. Qed.

Lemma ur_Sample_loop_ok count s g :
  rng_ready (ur_rng s) g → Z.of_nat count ≤ ur_length s - ur_drawsCount s →
  ∃ draws s' g',
    draw_list (ur_rng s) (ur_length s - ur_drawsCount s) count g = Some (draws, g') ∧
    valid_draws (ur_length s - ur_drawsCount s) draws ∧ length draws = count ∧
    ur_Sample_loop count s g = Some (Ok (shuffle (ur_remaining s) draws), s', g') ∧
    ur_rng s' = ur_rng s ∧ ur_length s' = ur_length s ∧ rng_ready (ur_rng s) g'.
Proof.
  revert s g. induction count as [|count IH]; intros s g Hr Hc.
  { exists [], s, g. naive_solver. }
  destruct (Int63n_ready (ur_rng s) (ur_length s - ur_drawsCount s) g Hr) as (x&g1&Hi&Hx&Hr1); [lia|].
  destruct (ur_Next_step s g x g1) as (s1&Hn&Hrem&E1&E2&E3); [lia|done|done|].
  rewrite <-E1 in Hr1.
  destruct (IH s1 g1 Hr1) as (draws&s2&g2&Hd&Hv&Hl&Hs&E4&E5&Hr2); [lia|].
  rewrite E1, E2, E3 in *.
  replace (ur_length s - (ur_drawsCount s + 1)) with (ur_length s - ur_drawsCount s - 1) in * by lia.
  exists (x :: draws), s2, g2. cbn [draw_list ur_Sample_loop shuffle valid_draws length].
  rewrite Hi, Hd, Hn, Hs, Hrem. naive_solver.
Qed.

Lemma ur_Sample_loop_err count s g :
  rng_ready (ur_rng s) g → 0 ≤ ur_length s - ur_drawsCount s < Z.of_nat count →
  ∃ s' g', ur_Sample_loop count s g = Some (Err errOutOfRange, s', g').
Proof.
  revert s g. induction count as [|count IH]; intros s g Hr Hc; [lia|].
  cbn [ur_Sample_loop]. destruct (decide (ur_length s ≤ ur_drawsCount s)) as [Hle|Hgt].
  { unfold ur_Next. rewrite decide_True by done. eauto. }
  destruct (Int63n_ready (ur_rng s) (ur_length s - ur_drawsCount s) g Hr) as (x&g1&Hi&Hx&Hr1); [lia|].
  destruct (ur_Next_step s g x g1) as (s1&Hn&_&E1&E2&E3); [lia|done|done|].
  rewrite <-E1 in Hr1. destruct (IH s1 g1 Hr1) as (s2&g2&Hs); [rewrite E2, E3; lia|].
  rewrite Hn, Hs. eauto.
Qed.

Lemma ur_remaining_Reset s : ur_remaining (ur_Reset s) = seqZ 0 (ur_length s).
Proof.
  unfold ur_remaining, ur_Reset. simpl. rewrite Z.sub_0_r.
  rewrite <-(list_fmap_id (seqZ 0 (ur_length s))) at 2.
  apply list_fmap_ext. intros i x _. unfold defaultMap_get. by rewrite lookup_empty.
Qed.

Lemma ur_Initialize_ready seed n s g :
  n ≤ MaxInt64 →
  ∃ s' g', ur_Initialize seed n s g = (None, s', g') ∧ ur_length s' = n ∧ rng_ready (ur_rng s') g'.
Proof. intros. unfold ur_Initialize. rewrite decide_False by lia. by eexists _, _. Qed.

(** C21: a sample of [count] numbers of the Fisher-Yates sampler, on any sampler
    of range [n] whatever was drawn before, is the image of the [count] answers
    of the source of randomness under [shuffle], and an error exactly when
    [count] exceeds [n].  That map is a bijection between the sequences of
    answers ([count] numbers below [n], [n - 1], ...) and the lists of [count]
    distinct numbers below [n]: a uniform source gives uniform samples. *)
Theorem replacer_bijection (count : nat) (s : uniformReplacer) (g : rngs R)
    (Hlen : 0 ≤ ur_length s) (Hrng : rng_ready (ur_rng s) g) :
  let n := ur_length s in
  (n < Z.of_nat count → ∃ s' g', ur_Sample count s g = Some (Err errOutOfRange, s', g')) ∧
  (Z.of_nat count ≤ n →
    (∃ draws s' g', draw_list (ur_rng s) n count g = Some (draws, g') ∧
      length draws = count ∧ valid_draws n draws ∧
      ur_Sample count s g = Some (Ok (shuffle (seqZ 0 n) draws), s', g')) ∧
    (∀ draws, valid_draws n draws → NoDup (shuffle (seqZ 0 n) draws) ∧
       length (shuffle (seqZ 0 n) draws) = length draws ∧
       ∀ x, x ∈ shuffle (seqZ 0 n) draws → 0 ≤ x < n) ∧
    (∀ draws1 draws2, valid_draws n draws1 → valid_draws n draws2 →
       shuffle (seqZ 0 n) draws1 = shuffle (seqZ 0 n) draws2 → draws1 = draws2) ∧
    (∀ out, NoDup out → (∀ x, x ∈ out → 0 ≤ x < n) →
       ∃ draws, valid_draws n draws ∧ shuffle (seqZ 0 n) draws = out)).
Proof.
  intros n. split.
  { intros Hc. apply ur_Sample_loop_err; [done|]. simpl. unfold n in Hc. lia. }
  intros Hc. assert (Hsz : Z.of_nat (length (seqZ 0 n)) = n) by (rewrite length_seqZ; lia).
  pose proof (NoDup_seqZ 0 n) as Hnd. split_and!.
  - destruct (ur_Sample_loop_ok count (ur_Reset s) g) as (draws&s'&g'&Hd&Hv&Hl&Hs&_);
      [done|simpl; unfold n in Hc; lia|].
    rewrite ur_remaining_Reset in Hs. simpl in Hd, Hv. rewrite Z.sub_0_r in Hd, Hv.
    exists draws, s', g'. done.
  - intros draws Hv. rewrite <-Hsz in Hv. destruct (shuffle_spec _ _ Hnd Hv) as [H1 H2].
    split_and!; [done|apply length_shuffle|]. intros x Hx%H2%elem_of_seqZ. lia.
  - intros draws1 draws2 H1 H2. rewrite <-Hsz in H1, H2. by apply shuffle_inj.
  - intros out Ho Hr. destruct (shuffle_surj (seqZ 0 n) out Ho) as (draws&Hv&E).
    { intros x Hx%Hr. apply elem_of_seqZ. lia. }
    rewrite Hsz in Hv. eauto.
Qed.
End replacer.

(** A source that reads its answers from a list, for the examples. *)
Definition rng_script : Rng (list Z).
Proof.
  refine {| rng_Seed := λ _ _, []; rng_new := λ _, [];
            rng_Int63n := λ n r, match r with [] => (0, []) | x :: r => (x mod n, r) end |}.
  intros n [|x r] Hn; simpl; [lia|]. by apply Z.mod_pos_bound.
Defined.

Lemma replacer_bijection_witness :
  0 ≤ ur_length (mkUniformReplacer rngGlobal 5 {[ 3 := 1 ]} 2) ∧
  @rng_ready (list Z) rngGlobal (mkRngs [4; 0; 2; 7] None) ∧
  (∃ s' g', @ur_Sample _ rng_script 3 (mkUniformReplacer rngGlobal 5 {[ 3 := 1 ]} 2)
      (mkRngs [4; 0; 2; 7] None) = Some (Ok [4; 1; 0], s', g')) ∧
  ∃ draws, valid_draws 5 draws ∧ shuffle (seqZ 0 5) draws = [4; 1; 0].
Proof.
  split; [done|]. split; [done|].
  destruct (@replacer_bijection _ rng_script 3 (mkUniformReplacer rngGlobal 5 {[ 3 := 1 ]} 2)
    (mkRngs [4; 0; 2; 7] None) ltac:(done) ltac:(done)) as [_ H].
  destruct (H ltac:(done)) as (_&_&_&H4). split.
  - eexists _, _. vm_compute. reflexivity.
  - apply (H4 [4; 1; 0]).
    + by apply (bool_decide_unpack _).
    + intros x Hx. simpl.
      repeat (apply elem_of_cons in Hx as [->|Hx]; [lia|]). by apply elem_of_nil in Hx.
Defined.

(** ** The resampler draws distinct numbers *)

Section resample.
Context {R : Type} `{!Rng R}.
Implicit Types (s : uniformResample) (g : rngs R).

(** [count] answers of the source of randomness with the same bound. *)
Fixpoint redraw (p : rngPtr) (n : Z) (count : nat) (g : rngs R) : option (list Z * rngs R) :=
  match count with
  | O => Some ([], g)
  | S count =>
      match Int63n p n g with
      | None => None
      | Some (x, g) =>
          match redraw p n count g with
          | None => None
          | Some (xs, g) => Some (x :: xs, g)
          end
      end
  end.

Lemma redraw_S p n count g :
  redraw p n (S count) g =
    match Int63n p n g with
    | None => None
    | Some (x, g) =>
        match redraw p n count g with None => None | Some (xs, g) => Some (x :: xs, g) end
    end.
Proof. done. Qed.

(** The loop answers the first number drawn that is new: it ends as soon as the
    source answers one. *)
Lemma us_Next_loop_first fuel s g seen x g' :
  redraw (us_rng s) (us_length s) (S (length seen)) g = Some (seen ++ [x], g') →
  Forall (λ y, y ∈ us_drawn s) seen → x ∉ us_drawn s → (length seen < fuel)%nat →
  us_Next_loop fuel s g =
    Some (x, mkUniformResample (us_rng s) (us_length s) ({[x]} ∪ us_drawn s), g').
Proof.
  intros Hd Hs. revert g fuel Hd. induction Hs as [|y seen Hy Hs IH]; intros g [|fuel] Hd Hx Hf;
    simpl in Hf; try lia; cbn [us_Next_loop length app] in *; rewrite redraw_S in Hd;
    destruct (Int63n _ _ _) as [[x1 g1]|]; try done.
  - simplify_eq/=. by rewrite decide_False.
  - destruct (redraw _ _ _ g1) as [[xs g2]|] eqn:E; simplify_eq.
    rewrite decide_True by done. apply IH; [done..|lia].
Qed.

Lemma us_Next_loop_sound fuel s g x s' g' :
  rng_ready (us_rng s) g → 0 < us_length s →
  us_Next_loop fuel s g = Some (x, s', g') →
  0 ≤ x < us_length s ∧ x ∉ us_drawn s ∧ rng_ready (us_rng s) g' ∧
  s' = mkUniformResample (us_rng s) (us_length s) ({[x]} ∪ us_drawn s).
Proof.
  revert g. induction fuel as [|fuel IH]; intros g Hr Hl; [done|]. cbn [us_Next_loop].
  destruct (Int63n_ready _ _ _ Hr Hl) as (y&g1&->&Hy&Hr1). case_decide; [by eauto|].
  intros [= <- <- <-]. done.
Qed.

(** Whatever [Sample] answers, the numbers are distinct and in range. *)
Lemma us_Sample_loop_sound fuel count s g l s' g' :
  rng_ready (us_rng s) g →
  us_Sample_loop fuel count s g = Some (Ok l, s', g') →
  length l = count ∧ NoDup l ∧ ∀ x, x ∈ l → 0 ≤ x < us_length s ∧ x ∉ us_drawn s.
Proof.
  revert s g l. induction count as [|count IH]; intros s g l Hr; cbn [us_Sample_loop].
  { intros [= <- <- <-]. split_and!; [done|constructor|]. by intros x Hx%elem_of_nil. }
  unfold us_Next. case_decide as Hd; [done|].
  destruct (us_Next_loop fuel s g) as [[[x s1] g1]|] eqn:E; [|done].
  apply us_Next_loop_sound in E as (Hx&Hn&Hr1&->); [|done|lia].
  destruct (us_Sample_loop _ _ _ _) as [[[[l1|] s2] g2]|] eqn:E; try done.
  intros [= <- <- <-]. apply IH in E as (Hl&Hnd&Hin); [|done]. simpl in Hin. split_and!.
  - simpl. lia.
  - constructor; [|done]. intros Hx1. apply Hin in Hx1 as [_ ?]. set_solver.
  - intros y [->|Hy]%elem_of_cons; [done|]. apply Hin in Hy. set_solver.
Qed.
End resample.
