(* ===== verification/WeightedSampler.v ===== *)
(** Weighted samplers (src/utils/sampler: weighted.go, weighted_array.go,
    weighted_best.go, weighted_heap.go, weighted_linear.go,
    weighted_uniform.go, weighted_without_replacement_generic.go).

    A weighted sampler is initialized with a list of weights and maps every
    value below their sum to an index.  [Weighted] is the Go interface as a
    type class, [WeightedLaws] what its clients rely on: the values that map to
    an index are exactly as many as its weight.  The linear, the heap and the
    uniform sampler satisfy it; the array sampler satisfies the part that
    concerns the answers it gives, but its search computes with floating-point
    numbers and, for large weights, panics or never ends. *)

From S2P Require Import Prelude SafeMath GoStd Sampler.

(** ** The interface *)

(** [Initialize] may draw random numbers; none is a panic. *)
Class Weighted (R S : Type) : Type := {
  W_Initialize : list Z → S → rngs R → option (option samplerError * S * rngs R);
  W_Sample : Z → S → option (result samplerError nat);
}.

(** The sum of the weights, as every sampler computes it. *)
Fixpoint sum_weights (totalWeight : Z) (weights : list Z) : result math_error Z :=
  match weights with
  | [] => Ok totalWeight
  | weight :: weights =>
      match Add64 totalWeight weight with
      | Err e => Err e
      | Ok newWeight => sum_weights newWeight weights
      end
  end.

(** ** weightedLinear *)

Record cumulativeElement := mkElement { cumulativeWeight : Z; elem_index : nat }.

#[export] Instance cumulativeElement_inhabited : Inhabited cumulativeElement :=
  populate (mkElement 0 0).

Definition elements (weights : list Z) : list cumulativeElement :=
  imap (λ i weight, mkElement weight i) weights.

Definition heavier (x y : cumulativeElement) : bool :=
  bool_decide (cumulativeWeight x > cumulativeWeight y).

(** The loops that turn weights into cumulative weights, from an element
    preceded by the cumulative weight [cum]; on an overflow the rest of the
    array is left as it is. *)
Fixpoint accumulate (cum : Z) (arr : list cumulativeElement)
  : list cumulativeElement * option samplerError :=
  match arr with
  | [] => ([], None)
  | e :: arr =>
      match Add64 cum (cumulativeWeight e) with
      | Err err => (e :: arr, Some (errMath err))
      | Ok newWeight =>
          let '(arr', err) := accumulate newWeight arr in
          (mkElement newWeight (elem_index e) :: arr', err)
      end
  end.

Definition last_weight (arr : list cumulativeElement) : Z :=
  from_option cumulativeWeight 0 (last arr).

Record weightedLinear := mkWeightedLinear { wl_arr : list cumulativeElement }.

Section linear.
Context `{GoSort}.

Definition wl_Initialize (weights : list Z) (s : weightedLinear)
  : option samplerError * weightedLinear :=
  match go_sort heavier (elements weights) with
  | [] => (None, mkWeightedLinear [])
  | e :: arr =>
      let '(arr, err) := accumulate (cumulativeWeight e) arr in
      (err, mkWeightedLinear (e :: arr))
  end.

(** The loop of [Sample] from an index on; none is an index out of range. *)
Fixpoint wl_Sample_loop (value : Z) (arr : list cumulativeElement) : option nat :=
  match arr with
  | [] => None
  | elem :: arr =>
      if decide (value < cumulativeWeight elem) then Some (elem_index elem)
      else wl_Sample_loop value arr
  end.

Definition wl_Sample (value : Z) (s : weightedLinear) : option (result samplerError nat) :=
  if decide (length (wl_arr s) = 0%nat ∨ last_weight (wl_arr s) ≤ value)
  then Some (Err errOutOfRange)
  else Ok <$> wl_Sample_loop value (wl_arr s).
End linear.

(** ** weightedArray *)

Record weightedArray := mkWeightedArray { wa_arr : list cumulativeElement }.

(** [arr[i], arr[j] = arr[j], arr[i]] *)
Definition swap {A} (i j : nat) (l : list A) : list A :=
  match l !! i, l !! j with
  | Some x, Some y => <[i := y]> (<[j := x]> l)
  | _, _ => l
  end.

(** [for i := 1; i < end; i += 2 { swap; end -= 2 }]; [fuel] is at least the
    number of rounds. *)
Fixpoint interleave_loop (fuel i : nat) (end_ : Z) (arr : list cumulativeElement)
  : list cumulativeElement :=
  match fuel with
  | O => arr
  | S fuel =>
      if decide (Z.of_nat i < end_)
      then interleave_loop fuel (i + 2) (end_ - 2) (swap i (Z.to_nat end_) arr)
      else arr
  end.

(** What one round of the search of [Sample] does next. *)
Inductive wa_outcome :=
| wa_found (index : nat)
| wa_continue (minIndex maxIndex index : Z).

(** [arr[i]], none when the index is out of range. *)
Definition at_index {A} (arr : list A) (i : Z) : option A :=
  if decide (i < 0) then None else arr !! Z.to_nat i.

(** [arr[i-1].cumulativeWeight], or 0 at the start of the array. *)
Definition weight_before (arr : list cumulativeElement) (i : Z) : option Z :=
  if decide (i > 0) then cumulativeWeight <$> at_index arr (i - 1) else Some 0.

Section array.
Context `{GoSort, GoConv}.

Definition wa_Initialize (weights : list Z) (s : weightedArray)
  : option samplerError * weightedArray :=
  let arr := go_sort heavier (elements weights) in
  let maxIndex := Z.of_nat (length arr) - 1 in
  let oneIfOdd := Z.land 1 maxIndex in
  let oneIfEven := 1 - oneIfOdd in
  let arr := interleave_loop (length arr) 1 (maxIndex - oneIfEven) arr in
  let '(arr, err) := accumulate 0 arr in
  (err, mkWeightedArray arr).

(** One round of the loop of [Sample]; none is an index out of range.  The
    differences of weights are taken on 64 bits. *)
Definition wa_Sample_round (arr : list cumulativeElement) (value minIndex maxIndex index : Z)
  : option wa_outcome :=
  match weight_before arr index, at_index arr index with
  | Some previousWeight, Some currentElem =>
      if decide (previousWeight ≤ value ∧ value < cumulativeWeight currentElem)
      then Some (wa_found (elem_index currentElem))
      else
        let '(minIndex, maxIndex) :=
          if decide (value < previousWeight) then (minIndex, index - 1) else (index + 1, maxIndex) in
        match weight_before arr minIndex, at_index arr maxIndex with
        | Some minWeight, Some maxElem =>
            let valueRange := wrap64 (cumulativeWeight maxElem - minWeight) in
            let adjustedLookupValue := wrap64 (value - minWeight) in
            let indexRange := maxIndex - minIndex + 1 in
            let lookupMass :=
              float64_mul (float64_of_Z adjustedLookupValue) (float64_of_Z indexRange) in
            Some (wa_continue minIndex maxIndex
              (int_of_float64 (float64_div lookupMass (float64_of_Z valueRange)) + minIndex))
        | _, _ => None
        end
  | _, _ => None
  end.

(** The search, with [fuel] rounds: [None] is a panic, [Some None] a search
    that has not ended. *)
Fixpoint wa_Sample_loop (fuel : nat) (arr : list cumulativeElement)
    (value minIndex maxIndex index : Z) : option (option nat) :=
  match fuel with
  | O => Some None
  | S fuel =>
      match wa_Sample_round arr value minIndex maxIndex index with
      | None => None
      | Some (wa_found i) => Some (Some i)
      | Some (wa_continue minIndex maxIndex index) =>
          wa_Sample_loop fuel arr value minIndex maxIndex index
      end
  end.

Definition wa_Sample (fuel : nat) (value : Z) (s : weightedArray)
  : option (option (result samplerError nat)) :=
  let arr := wa_arr s in
  if decide (length arr = 0%nat ∨ last_weight arr ≤ value) then Some (Some (Err errOutOfRange))
  else
    let maxIndex := Z.of_nat (length arr) - 1 in
    let maxCumulativeWeight := float64_of_Z (last_weight arr) in
    let index :=
      int_of_float64 (float64_div (float64_mul (float64_of_Z value) (float64_of_Z (maxIndex + 1)))
                                  maxCumulativeWeight) in
    fmap (M := option) Ok <$> wa_Sample_loop fuel arr value 0 maxIndex index.
End array.

(** ** weightedHeap *)

Record heapElement := mkHeapElement { he_weight : Z; he_cumulative : Z; he_index : nat }.
Record weightedHeap := mkWeightedHeap { wh_heap : list heapElement }.

Definition heap_less (x y : heapElement) : bool :=
  if decide (he_weight x > he_weight y) then true
  else if decide (he_weight x < he_weight y) then false
  else bool_decide (he_index x < he_index y)%nat.

(** [for i := len - 1; i > 0; i--]; none is an index out of range. *)
Fixpoint wh_link (i : nat) (heap : list heapElement)
  : option (option samplerError * list heapElement) :=
  match i with
  | O => Some (None, heap)
  | S i' =>
      let parentIndex := Nat.div2 (i - 1) in
      match heap !! parentIndex, heap !! i with
      | Some p, Some e =>
          match Add64 (he_cumulative p) (he_cumulative e) with
          | Err err => Some (Some (errMath err), heap)
          | Ok newWeight =>
              wh_link i' (<[parentIndex := mkHeapElement (he_weight p) newWeight (he_index p)]> heap)
          end
      | _, _ => None
      end
  end.

(** The search from an index on; a value is only reduced by weights it is not
    below. *)
Fixpoint wh_Sample_loop (fuel : nat) (heap : list heapElement) (value : Z) (index : nat)
  : option nat :=
  match fuel with
  | O => None
  | S fuel =>
      match heap !! index with
      | None => None
      | Some currentElement =>
          if decide (value < he_weight currentElement) then Some (he_index currentElement)
          else
            let value := value - he_weight currentElement in
            let index := (index * 2 + 1)%nat in
            match heap !! index with
            | None => None
            | Some leftElem =>
                if decide (he_cumulative leftElem ≤ value)
                then wh_Sample_loop fuel heap (value - he_cumulative leftElem) (index + 1)
                else wh_Sample_loop fuel heap value index
            end
      end
  end.

Section heap.
Context `{GoSort}.

Definition wh_Initialize (weights : list Z) (s : weightedHeap)
  : option (option samplerError * weightedHeap) :=
  let heap := go_sort heap_less (imap (λ i weight, mkHeapElement weight weight i) weights) in
  '(err, heap) ← wh_link (length heap - 1) heap;
  Some (err, mkWeightedHeap heap).

Definition wh_Sample (value : Z) (s : weightedHeap) : option (result samplerError nat) :=
  match wh_heap s with
  | [] => Some (Err errOutOfRange)
  | root :: _ =>
      if decide (he_cumulative root ≤ value) then Some (Err errOutOfRange)
      else Ok <$> wh_Sample_loop (length (wh_heap s)) (wh_heap s) value 0
  end.
End heap.

(** ** weightedUniform *)

Record weightedUniform := mkWeightedUniform { wu_indices : list nat; wu_maxWeight : Z }.

Definition MaxInt32 : Z := 2 ^ 31 - 1.

(** The loop that writes every index as often as its weight says. *)
Fixpoint wu_fill (i : nat) (weights : list Z) : list nat :=
  match weights with
  | [] => []
  | weight :: weights => replicate (Z.to_nat weight) i ++ wu_fill (S i) weights
  end.

Definition wu_Initialize (weights : list Z) (s : weightedUniform)
  : option samplerError * weightedUniform :=
  match sum_weights 0 weights with
  | Err e => (Some (errMath e), s)
  | Ok totalWeight =>
      if decide (totalWeight > wu_maxWeight s ∨ totalWeight > MaxInt32)
      then (Some errWeightsTooLarge, s)
      else (None, mkWeightedUniform (wu_fill 0 weights) (wu_maxWeight s))
  end.

Definition wu_Sample (value : Z) (s : weightedUniform) : option (result samplerError nat) :=
  if decide (Z.of_nat (length (wu_indices s)) ≤ value) then Some (Err errOutOfRange)
  else Ok <$> wu_indices s !! Z.to_nat value.

(** ** weightedBest *)

(** The samplers behind the Go interface. *)
Inductive anyWeighted :=
| anyArray (s : weightedArray)
| anyHeap (s : weightedHeap)
| anyUniform (s : weightedUniform).

(** [chosen] is the position of the sampler the embedded interface points to. *)
Record weightedBest := mkWeightedBest {
  wb_chosen : option nat;
  wb_samplers : list anyWeighted;
  wb_benchmarkIterations : nat;
}.

Definition NewWeighted : weightedBest :=
  mkWeightedBest None [anyArray (mkWeightedArray []); anyHeap (mkWeightedHeap []);
                       anyUniform (mkWeightedUniform [] 1024)] 100.

Section best.
Context {R : Type} `{!Rng R, GoSort, GoConv}.
Implicit Types g : rngs R.

(** The rounds the search of the array sampler is followed for. *)
Variable fuel : nat.
(** The time the benchmark of a sampler takes, given the weights. *)
Variable durations : list Z → nat → Z.

Definition any_Initialize (weights : list Z) (a : anyWeighted)
  : option (option samplerError * anyWeighted) :=
  match a with
  | anyArray s => let '(err, s) := wa_Initialize weights s in Some (err, anyArray s)
  | anyHeap s => '(err, s) ← wh_Initialize weights s; Some (err, anyHeap s)
  | anyUniform s => let '(err, s) := wu_Initialize weights s in Some (err, anyUniform s)
  end.

(** None is a panic, or a search that has not ended. *)
Definition any_Sample (value : Z) (a : anyWeighted) : option (result samplerError nat) :=
  match a with
  | anyArray s => mjoin (wa_Sample fuel value s)
  | anyHeap s => wh_Sample value s
  | anyUniform s => wu_Sample value s
  end.

(** The benchmark of one sampler: whether no sample is an error. *)
Fixpoint wb_bench (samples : list Z) (a : anyWeighted) : option bool :=
  match samples with
  | [] => Some true
  | sample :: samples =>
      match any_Sample sample a with
      | None => None
      | Some (Err _) => Some false
      | Some (Ok _) => wb_bench samples a
      end
  end.

(** [samplerLoop] from the [k]-th sampler on. *)
Fixpoint wb_loop (weights samples : list Z) (k : nat) (bestDuration : Z) (chosen : option nat)
    (samplers : list anyWeighted) : option (option nat * list anyWeighted) :=
  match samplers with
  | [] => Some (chosen, [])
  | sampler :: samplers =>
      '(err, sampler) ← any_Initialize weights sampler;
      let next bestDuration chosen :=
        '(chosen, samplers) ← wb_loop weights samples (S k) bestDuration chosen samplers;
        Some (chosen, sampler :: samplers) in
      match err with
      | Some _ => next bestDuration chosen
      | None =>
          ok ← wb_bench samples sampler;
          let duration := durations weights k in
          if decide (ok = true ∧ duration < bestDuration) then next duration (Some k)
          else next bestDuration chosen
      end
  end.

Definition wb_Initialize (weights : list Z) (s : weightedBest) (g : rngs R)
  : option (option samplerError * weightedBest * rngs R) :=
  match sum_weights 0 weights with
  | Err e => Some (Some (errMath e), s, g)
  | Ok totalWeight =>
      if decide (totalWeight > MaxInt64) then Some (Some errWeightsTooLarge, s, g)
      else
        '(samples, g) ← (if decide (totalWeight > 0)
                         then redraw rngGlobal totalWeight (wb_benchmarkIterations s) g
                         else Some ([], g));
        '(chosen, samplers) ← wb_loop weights samples 0 MaxInt64 None (wb_samplers s);
        Some (if decide (chosen = None) then Some errNoValidWeightedSamplers else None,
              mkWeightedBest chosen samplers (wb_benchmarkIterations s), g)
  end.

(** A nil dereference before [Initialize] has chosen a sampler. *)
Definition wb_Sample (value : Z) (s : weightedBest) : option (result samplerError nat) :=
  k ← wb_chosen s;
  a ← wb_samplers s !! k;
  any_Sample value a.
End best.

(** ** What a weighted sampler promises *)

(** [order] is the list of weights and indices in some order; [pick order]
    gives to each entry as many consecutive values as its weight. *)
Fixpoint pick (order : list (Z * nat)) (value : Z) : option nat :=
  match order with
  | [] => None
  | (w, i) :: order => if decide (value < w) then Some i else pick order (value - w)
  end.

Abbreviation total_of order := (sumZ (order.*1)).

Definition entries (weights : list Z) : list (Z * nat) := imap (λ i w, (w, i)) weights.

(** The values below the total that a function maps to an index. *)
Definition fibre (f : Z → option (result samplerError nat)) (total : Z) (i : nat) : list Z :=
  filter (λ v, f v = Some (Ok i)) (seqZ 0 total).

(** A sampler of [weights]: beyond the total an error, below it an index, and
    as many values for each index as its weight. *)
Definition fair (weights : list Z) (f : Z → option (result samplerError nat)) : Prop :=
  (∀ v, sumZ weights ≤ v → f v = Some (Err errOutOfRange)) ∧
  (∀ v, 0 ≤ v < sumZ weights → ∃ i, f v = Some (Ok i) ∧ (i < length weights)%nat) ∧
  (∀ i w, weights !! i = Some w → Z.of_nat (length (fibre f (sumZ weights) i)) = w).

(** How the samplers achieve it: the values below the total are dealt out to the
    entries, in some order. *)
Definition picks (weights : list Z) (f : Z → option (result samplerError nat)) : Prop :=
  ∃ o, o ≡ₚ entries weights ∧
    (∀ v, sumZ weights ≤ v → f v = Some (Err errOutOfRange)) ∧
    (∀ v, 0 ≤ v < sumZ weights → f v = Ok <$> pick o v).

Definition weights_ok (weights : list Z) : Prop := Forall is_u64 weights.

Lemma weights_nonneg weights : weights_ok weights → Forall (λ w, 0 ≤ w) weights.
Proof. intros Hw. eapply Forall_impl; [exact Hw|]. unfold is_uint. simpl. lia. Qed.

Lemma pick_app o1 o2 v :
  Forall (λ e, 0 ≤ e.1) o1 → 0 ≤ v →
  pick (o1 ++ o2) v = if decide (v < total_of o1) then pick o1 v else pick o2 (v - total_of o1).
Proof.
  intros Ho. revert v. induction Ho as [|[w i] o1 Hw Ho IH]; intros v Hv; csimpl.
  { rewrite sumZ_nil, decide_False, Z.sub_0_r by lia. done. }
  simpl in Hw. rewrite sumZ_cons.
  assert (0 ≤ total_of o1) by (apply sumZ_nonneg; by apply Forall_fmap).
  destruct (decide (v < w)).
  { by rewrite decide_True by lia. }
  rewrite IH by lia. destruct (decide (v - w < total_of o1)).
  - by rewrite decide_True by lia.
  - rewrite decide_False by lia. f_equal. lia.
Qed.

Lemma filter_length_fmap {A B} (f : A → B) (P : B → Prop) (Q : A → Prop)
    `{!∀ x, Decision (P x), !∀ x, Decision (Q x)} (l : list A) :
  (∀ x, x ∈ l → (P (f x) ↔ Q x)) → length (filter P (f <$> l)) = length (filter Q l).
Proof.
  induction l as [|x l IH]; intros Hl; [done|]. csimpl. rewrite !filter_cons.
  assert (P (f x) ↔ Q x) as Hx by (apply Hl; left).
  destruct (decide (P (f x))), (decide (Q x)); try tauto; simpl; [f_equal|];
    apply IH; intros y Hy; apply Hl; by right.
Qed.

Lemma filter_seqZ_shift k n (P Q : Z → Prop) `{!∀ x, Decision (P x), !∀ x, Decision (Q x)} :
  (∀ x, 0 ≤ x < n → (P (k + x) ↔ Q x)) →
  length (filter P (seqZ k n)) = length (filter Q (seqZ 0 n)).
Proof.
  intros HPQ. replace (seqZ k n) with (Z.add k <$> seqZ 0 n) by (by rewrite fmap_add_seqZ, Z.add_0_r).
  apply filter_length_fmap. intros x Hx%elem_of_seqZ. apply HPQ. lia.
Qed.

Lemma list_filter_none {A} (P : A → Prop) `{!∀ x, Decision (P x)} (l : list A) :
  (∀ x, x ∈ l → ¬ P x) → filter P l = [].
Proof.
  induction l as [|x l IH]; intros Hl; [done|]. rewrite filter_cons_False by (apply Hl; left).
  apply IH. intros y Hy. apply Hl. by right.
Qed.

(** The number of values that [pick] maps to an index. *)
Lemma pick_count o i :
  Forall (λ e, 0 ≤ e.1) o →
  Z.of_nat (length (filter (λ v, pick o v = Some i) (seqZ 0 (total_of o)))) =
    total_of (filter (λ e, e.2 = i) o).
Proof.
  intros Ho. induction Ho as [|[w j] o Hw Ho IH]; [done|]. simpl in Hw.
  csimpl. rewrite sumZ_cons.
  assert (0 ≤ total_of o) as Ht by (apply sumZ_nonneg; by apply Forall_fmap).
  rewrite seqZ_app by lia. rewrite filter_app, length_app, Nat2Z.inj_add.
  rewrite (filter_seqZ_shift (0 + w) _ _ (λ v, pick o v = Some i)).
  2:{ intros x Hx. rewrite decide_False by lia. by replace (0 + w + x - w) with x by lia. }
  rewrite IH. rewrite (filter_cons _ (w, j)). simpl.
  assert (Z.of_nat (length (filter (λ v, (if decide (v < w) then Some j else pick o (v - w)) = Some i)
    (seqZ 0 w))) = if decide (j = i) then w else 0) as ->.
  { destruct (decide (j = i)) as [->|Hj].
    - rewrite list_filter_id; [rewrite length_seqZ; lia|].
      intros x Hx%elem_of_seqZ. by rewrite decide_True by lia.
    - rewrite list_filter_none; [done|].
      intros x Hx%elem_of_seqZ. rewrite decide_True by lia. congruence. }
  case_decide; csimpl; rewrite ?sumZ_cons; lia.
Qed.

Lemma pick_total o v :
  0 ≤ v < total_of o → ∃ i w, pick o v = Some i ∧ (w, i) ∈ o.
Proof.
  revert v. induction o as [|[w i] o IH]; intros v; csimpl; [rewrite sumZ_nil; lia|].
  rewrite sumZ_cons. intros Hv. case_decide.
  - exists i, w. split; [done|left].
  - destruct (IH (v - w)) as (j&w'&->&Hj); [lia|]. exists j, w'. split; [done|by right].
Qed.

(** The entry at a position gets the values between the weights before it and
    the weights up to it. *)
Lemma pick_middle o1 w i o2 v :
  Forall (λ e, 0 ≤ e.1) o1 → 0 ≤ v → total_of o1 ≤ v < total_of o1 + w →
  pick (o1 ++ (w, i) :: o2) v = Some i.
Proof. intros. rewrite pick_app, decide_False by (done || lia). simpl. by rewrite decide_True by lia. Qed.

Lemma entries_filter (weights : list Z) i w :
  weights !! i = Some w → total_of (filter (λ e, e.2 = i) (entries weights)) = w.
Proof.
  unfold entries.
  assert (∀ k, weights !! i = Some w →
    total_of (filter (λ e, e.2 = (k + i)%nat) (imap (λ i w, (w, (k + i)%nat)) weights)) = w)
    as Hk; [|exact (Hk 0%nat)].
  revert i. induction weights as [|w' weights IH]; intros [|i] k Hi; simplify_eq/=.
  - rewrite filter_cons_True by (simpl; lia). rewrite list_filter_none.
    + csimpl. rewrite sumZ_cons, sumZ_nil. lia.
    + intros e He. apply elem_of_lookup_imap in He as (j&x&->&_). simpl. lia.
  - rewrite filter_cons_False by (simpl; lia).
    rewrite Nat.add_succ_r, <-Nat.add_succ_l. etrans; [|exact (IH i (S k) Hi)].
    do 3 f_equal. apply imap_ext. intros j x _. simpl. f_equal. lia.
Qed.

Lemma entries_total weights : (entries weights).*1 = weights.
Proof.
  unfold entries. rewrite fmap_imap. apply list_eq. intros i. rewrite list_lookup_imap.
  by destruct (weights !! i).
Qed.

Lemma entries_index weights w i : (w, i) ∈ entries weights → weights !! i = Some w.
Proof.
  unfold entries. intros He. apply elem_of_lookup_imap in He as (j&x&E&Hj). by simplify_eq.
Qed.

(** A sampler that picks from the entries, in whatever order, is fair. *)
Lemma picks_fair weights f : weights_ok weights → picks weights f → fair weights f.
Proof.
  intros Hw%weights_nonneg (o&Hp&Herr&Hok). assert (total_of o = sumZ weights) as Ht.
  { rewrite Hp. by rewrite entries_total. }
  assert (Forall (λ e, 0 ≤ e.1) o) as Ho.
  { rewrite Hp. apply Forall_forall. intros [w i] He%entries_index.
    rewrite Forall_lookup in Hw. by eapply Hw. }
  split_and!; [done| |].
  - intros v Hv. destruct (pick_total o v) as (i&w&E&Hi); [lia|]. exists i.
    rewrite Hok, E by done. split; [done|]. rewrite Hp in Hi. apply entries_index in Hi.
    by eapply lookup_lt_Some.
  - intros i w Hi. unfold fibre. rewrite <-(entries_filter weights i w Hi), <-Hp.
    rewrite <-pick_count, Ht by done. f_equal.
    assert (∀ l, (∀ v, v ∈ l → 0 ≤ v < sumZ weights) →
      length (filter (λ v, f v = Some (Ok i)) l) = length (filter (λ v, pick o v = Some i) l)) as Hl.
    { intros l Hl. rewrite <-(list_fmap_id l) at 1. apply filter_length_fmap.
      intros v Hv. simpl. rewrite Hok by auto. destruct (pick o v); simpl; naive_solver. }
    apply Hl. intros v Hv%elem_of_seqZ. lia.
Qed.

(** ** Cumulative weights *)

Definition order_of (arr : list cumulativeElement) : list (Z * nat) :=
  (λ e, (cumulativeWeight e, elem_index e)) <$> arr.

Fixpoint prefix_sums (cum : Z) (arr : list cumulativeElement) : list cumulativeElement :=
  match arr with
  | [] => []
  | e :: arr =>
      mkElement (cum + cumulativeWeight e) (elem_index e) ::
        prefix_sums (cum + cumulativeWeight e) arr
  end.

Definition elements_ok (arr : list cumulativeElement) : Prop :=
  Forall (λ e, is_u64 (cumulativeWeight e)) arr.

Lemma order_nonneg arr : elements_ok arr → Forall (λ e, 0 ≤ e.1) (order_of arr).
Proof.
  intros Ha. apply Forall_fmap. eapply Forall_impl; [exact Ha|]. unfold is_uint. simpl. lia.
Qed.

Lemma order_total_nonneg arr : elements_ok arr → 0 ≤ total_of (order_of arr).
Proof. intros Ha%order_nonneg. apply sumZ_nonneg. by apply Forall_fmap. Qed.

Lemma accumulate_spec cum arr :
  is_u64 cum → elements_ok arr →
  if decide (cum + total_of (order_of arr) ≤ MaxUint64)
  then accumulate cum arr = (prefix_sums cum arr, None)
  else (accumulate cum arr).2 = Some (errMath errOverflow).
Proof.
  intros Hc Ha. revert cum Hc. induction Ha as [|e arr He Ha IH]; intros cum Hc; csimpl.
  { rewrite sumZ_nil. unfold is_uint, MaxUint64 in *. by rewrite decide_True by lia. }
  rewrite sumZ_cons. pose proof (order_total_nonneg arr Ha) as Hn.
  rewrite Add64_spec by done. destruct (decide (cum + cumulativeWeight e ≤ MaxUint64)) as [Hle|Hgt].
  - specialize (IH (cum + cumulativeWeight e)).
    replace (cum + (cumulativeWeight e + total_of (order_of arr)))
      with (cum + cumulativeWeight e + total_of (order_of arr)) by lia.
    assert (is_u64 (cum + cumulativeWeight e)) as Hu by (unfold is_uint, MaxUint64 in *; lia).
    specialize (IH Hu). case_decide; [by rewrite IH|].
    destruct (accumulate _ arr). done.
  - by rewrite decide_False by lia.
Qed.

Lemma accumulate_ok cum arr arr' :
  is_u64 cum → elements_ok arr → accumulate cum arr = (arr', None) →
  arr' = prefix_sums cum arr ∧ cum + total_of (order_of arr) ≤ MaxUint64.
Proof.
  intros Hc Ha E. pose proof (accumulate_spec cum arr Hc Ha) as Hs.
  rewrite E in Hs. case_decide; [|done]. by simplify_eq.
Qed.

Lemma length_prefix_sums cum arr : length (prefix_sums cum arr) = length arr.
Proof. revert cum. induction arr; intros cum; simpl; auto. Qed.

Lemma prefix_sums_lookup cum arr i e :
  arr !! i = Some e →
  prefix_sums cum arr !! i =
    Some (mkElement (cum + total_of (order_of (take (S i) arr))) (elem_index e)).
Proof.
  revert cum i. induction arr as [|e' arr IH]; intros cum [|i] Hi; simplify_eq/=.
  - rewrite sumZ_cons, sumZ_nil, Z.add_0_r. done.
  - rewrite (IH _ _ Hi). csimpl. rewrite sumZ_cons. f_equal. f_equal. lia.
Qed.

Lemma last_prefix_sums cum arr :
  arr ≠ [] → last_weight (prefix_sums cum arr) = cum + total_of (order_of arr).
Proof.
  intros Hne. unfold last_weight. rewrite last_lookup, length_prefix_sums.
  destruct (lookup_lt_is_Some_2 arr (pred (length arr))) as [e He].
  { destruct arr; simpl; [done|lia]. }
  rewrite (prefix_sums_lookup _ _ _ _ He). simpl. rewrite take_ge; [done|lia].
Qed.

Lemma order_of_elements weights : order_of (elements weights) = entries weights.
Proof. unfold order_of, elements, entries. by rewrite fmap_imap. Qed.

Lemma elements_are_ok weights : weights_ok weights → elements_ok (elements weights).
Proof.
  intros Hw. apply Forall_forall. intros e He. apply elem_of_lookup_imap in He as (i&w&->&Hi).
  unfold weights_ok in Hw. rewrite Forall_lookup in Hw. simpl. eauto.
Qed.

(** ** The linear sampler *)

Lemma wl_Sample_loop_pick v cum arr :
  wl_Sample_loop v (prefix_sums cum arr) = pick (order_of arr) (v - cum).
Proof.
  revert cum. induction arr as [|e arr IH]; intros cum; csimpl; [done|].
  rewrite IH. replace (v - (cum + cumulativeWeight e)) with (v - cum - cumulativeWeight e) by lia.
  destruct (decide (v < cum + cumulativeWeight e)); [rewrite decide_True by lia|rewrite decide_False by lia]; done.
Qed.

Section linear.
Context `{GoSort}.

Lemma order_of_sorted less weights : order_of (go_sort less (elements weights)) ≡ₚ entries weights.
Proof. rewrite <-order_of_elements. unfold order_of. by rewrite go_sort_perm. Qed.

Lemma sorted_ok less weights : weights_ok weights → elements_ok (go_sort less (elements weights)).
Proof. intros Hw. unfold elements_ok. rewrite go_sort_perm. by apply elements_are_ok. Qed.

Lemma order_total weights o : o ≡ₚ entries weights → total_of o = sumZ weights.
Proof. intros ->. by rewrite entries_total. Qed.

Lemma wl_Initialize_spec weights s :
  weights_ok weights →
  if decide (sumZ weights ≤ MaxUint64)
  then wl_Initialize weights s =
         (None, mkWeightedLinear (prefix_sums 0 (go_sort heavier (elements weights))))
  else (wl_Initialize weights s).1 = Some (errMath errOverflow).
Proof.
  intros Hw. unfold wl_Initialize. pose proof (sorted_ok heavier weights Hw) as Hok.
  pose proof (order_total _ _ (order_of_sorted heavier weights)) as Ht.
  destruct (go_sort heavier (elements weights)) as [|e arr].
  { rewrite <-Ht. by rewrite decide_True. }
  apply Forall_cons in Hok as [He Ha]. rewrite <-Ht. csimpl. rewrite sumZ_cons, Z.add_0_l.
  pose proof (accumulate_spec _ _ He Ha) as Hs. case_decide; [rewrite Hs; by destruct e|].
  by destruct (accumulate _ arr).
Qed.

Lemma wl_picks weights s s' :
  weights_ok weights → wl_Initialize weights s = (None, s') → picks weights (λ v, wl_Sample v s').
Proof.
  intros Hw E. pose proof (wl_Initialize_spec weights s Hw) as Hs. rewrite E in Hs.
  case_decide; [|done]. simplify_eq. set (arr := go_sort heavier (elements weights)).
  pose proof (order_of_sorted heavier weights) as Hp. fold arr in Hp.
  assert (arr = [] ∨ last_weight (prefix_sums 0 arr) = sumZ weights) as Hl.
  { destruct (decide (arr = [])) as [|Hne]; [by left|right].
    by rewrite last_prefix_sums, Z.add_0_l, (order_total _ _ Hp) by done. }
  exists (order_of arr); split_and!; [done| |];
    intros v Hv; unfold wl_Sample; simpl; rewrite length_prefix_sums.
  - rewrite decide_True; [done|]. destruct Hl as [-> | ->]; [by left|by right].
  - destruct Hl as [Harr | ->].
    + rewrite Harr in Hp. apply Permutation_length in Hp. unfold entries in Hp. rewrite length_imap in Hp.
      destruct weights; [|done]. rewrite sumZ_nil in Hv. lia.
    + rewrite decide_False.
      * by rewrite wl_Sample_loop_pick, Z.sub_0_r.
      * intros [E0|?]; [|lia]. apply nil_length_inv in E0. rewrite E0 in Hp.
        rewrite <-(order_total _ _ Hp) in Hv. change (total_of (order_of [])) with 0 in Hv. lia.
Qed.
End linear.

(** ** The array sampler *)


Lemma swap_perm {A} i j (l : list A) : swap i j l ≡ₚ l.
Proof.
  unfold swap. destruct (l !! i) as [x|] eqn:Hi; [|done]. destruct (l !! j) as [y|] eqn:Hj; [|done].
  by apply Permutation_insert_swap.
Qed.

Lemma interleave_loop_perm fuel i end_ arr : interleave_loop fuel i end_ arr ≡ₚ arr.
Proof.
  revert i end_ arr. induction fuel as [|fuel IH]; intros i end_ arr; simpl; [done|].
  case_decide; [|done]. by rewrite IH, swap_perm.
Qed.

Section array.
Context `{GoSort, GoConv}.

Lemma at_index_Some {A} (arr : list A) i x :
  at_index arr i = Some x → 0 ≤ i ∧ arr !! Z.to_nat i = Some x.
Proof. unfold at_index. case_decide; [done|]. intros. split; [lia|done]. Qed.

(** The search answers the entry of the value, when it answers. *)
Lemma wa_Sample_loop_sound fuel arr v minIndex maxIndex index i :
  elements_ok arr → 0 ≤ v →
  wa_Sample_loop fuel (prefix_sums 0 arr) v minIndex maxIndex index = Some (Some i) →
  pick (order_of arr) v = Some i.
Proof.
  intros Ha Hv. revert minIndex maxIndex index. induction fuel as [|fuel IH];
    intros minIndex maxIndex index; cbn [wa_Sample_loop]; [done|].
  destruct (wa_Sample_round _ _ _ _ _) as [[j|mn mx ix]|] eqn:E; [|eauto|done].
  intros [= ->]. unfold wa_Sample_round in E.
  destruct (weight_before _ index) as [pw|] eqn:Hpw; [|done].
  destruct (at_index _ index) as [ce|] eqn:Hce; [|done].
  apply at_index_Some in Hce as [Hi Hce]. case_decide as Hd.
  2:{ destruct (if decide (v < pw) then _ else _) as [mn mx].
      destruct (weight_before _ mn); [destruct (at_index (prefix_sums 0 arr) mx)|]; done. }
  simplify_eq. destruct Hd as [Hlo Hhi].
  pose proof (lookup_lt_Some _ _ _ Hce) as Hlt. rewrite length_prefix_sums in Hlt.
  destruct (lookup_lt_is_Some_2 arr _ Hlt) as [e He].
  rewrite (prefix_sums_lookup _ _ _ _ He) in Hce. simplify_eq/=.
  rewrite (take_S_r _ _ _ He) in Hhi. unfold order_of in Hhi.
  rewrite !fmap_app, sumZ_app in Hhi. csimpl in Hhi. rewrite sumZ_cons, sumZ_nil in Hhi.
  fold (order_of (take (Z.to_nat index) arr)) in Hhi.
  rewrite <-(take_drop_middle arr _ e He). unfold order_of. rewrite fmap_app. csimpl.
  apply pick_middle; [|done|].
  - apply order_nonneg. by apply Forall_take.
  - change (total_of ((λ e, (cumulativeWeight e, elem_index e)) <$> take (Z.to_nat index) arr))
      with (total_of (order_of (take (Z.to_nat index) arr))). split; [|lia].
    unfold weight_before in Hpw. case_decide as Hi0.
    + destruct (at_index _ (index - 1)) as [pe|] eqn:Hpe; simplify_eq/=.
      apply at_index_Some in Hpe as [_ Hpe].
      destruct (lookup_lt_is_Some_2 arr (Z.to_nat (index - 1))) as [e' He']; [lia|].
      rewrite (prefix_sums_lookup _ _ _ _ He') in Hpe. simplify_eq/=.
      replace (S (Z.to_nat (index - 1))) with (Z.to_nat index) in Hlo by lia. lia.
    + replace (Z.to_nat index) with 0%nat by lia. rewrite take_0. done.
Qed.

Lemma wa_Initialize_accepts weights s :
  weights_ok weights → (wa_Initialize weights s).1 = None ↔ sumZ weights ≤ MaxUint64.
Proof.
  intros Hw. unfold wa_Initialize. set (arr := interleave_loop _ _ _ _).
  assert (arr ≡ₚ go_sort heavier (elements weights)) as Hp by apply interleave_loop_perm.
  assert (elements_ok arr) as Ha by (unfold elements_ok; rewrite Hp; by apply sorted_ok).
  assert (order_of arr ≡ₚ entries weights) as Ho by (unfold order_of; rewrite Hp; apply order_of_sorted).
  pose proof (accumulate_spec 0 arr ltac:(done) Ha) as Hs. rewrite Z.add_0_l, (order_total _ _ Ho) in Hs.
  destruct (accumulate 0 arr) as [arr' err]. simpl. case_decide; simpl in Hs; [injection Hs as _ ->|subst err]; split; done.
Qed.

Lemma wa_Initialize_spec weights s s' :
  weights_ok weights → wa_Initialize weights s = (None, s') →
  ∃ arr, order_of arr ≡ₚ entries weights ∧ elements_ok arr ∧
    sumZ weights ≤ MaxUint64 ∧ wa_arr s' = prefix_sums 0 arr.
Proof.
  intros Hw E. unfold wa_Initialize in E.
  set (arr := interleave_loop _ _ _ _) in E.
  assert (arr ≡ₚ go_sort heavier (elements weights)) as Hp by apply interleave_loop_perm.
  assert (elements_ok arr) as Ha by (unfold elements_ok; rewrite Hp; by apply sorted_ok).
  assert (order_of arr ≡ₚ entries weights) as Ho.
  { unfold order_of. rewrite Hp. apply order_of_sorted. }
  destruct (accumulate 0 arr) as [arr' err] eqn:Eacc. simplify_eq.
  apply accumulate_ok in Eacc as [-> Hle]; [|done|done].
  rewrite (order_total _ _ Ho) in Hle. eauto.
Qed.
End array.

(** The search of the array sampler relies on the quotient of two floating-point
    numbers to stay within the bounds of the search, but above [2 ^ 53] the
    difference of two weights may round up to the weight that bounds it: the
    search then starts over with the same bounds for ever. *)
Theorem weighted_array_diverges `{GoSort, GoConv} s :
  ∃ s', wa_Initialize [2 ^ 60; 2 ^ 60; 2 ^ 60] s = (None, s') ∧
    ∀ fuel, wa_Sample fuel (2 ^ 61 - 1) s' = Some None.
Proof.
  assert (∃ a b c, go_sort heavier (elements [2 ^ 60; 2 ^ 60; 2 ^ 60]) =
    [mkElement (2 ^ 60) a; mkElement (2 ^ 60) b; mkElement (2 ^ 60) c]) as (a&b&c&Hsort).
  { pose proof (go_sort_perm _ heavier (elements [2 ^ 60; 2 ^ 60; 2 ^ 60])) as Hp.
    assert (∀ e, e ∈ go_sort heavier (elements [2 ^ 60; 2 ^ 60; 2 ^ 60]) →
      cumulativeWeight e = 2 ^ 60) as Hw.
    { intros e He. rewrite Hp in He. unfold elements in He. cbn [imap] in He.
      repeat (apply elem_of_cons in He as [->|He]; [done|]). by apply elem_of_nil in He. }
    pose proof (Permutation_length Hp) as Hl.
    destruct (go_sort _ _) as [|[w1 a] [|[w2 b] [|[w3 c] [|]]]]; simplify_eq/=.
    exists a, b, c. repeat f_equal; [apply (Hw (mkElement w1 a))|apply (Hw (mkElement w2 b))|
      apply (Hw (mkElement w3 c))]; set_solver. }
  set (arr := [mkElement (2 ^ 60) a; mkElement (2 ^ 61) b; mkElement (3 * 2 ^ 60) c]).
  exists (mkWeightedArray arr). split; [unfold wa_Initialize; rewrite Hsort; vm_compute; done|].
  assert (∀ fuel, wa_Sample_loop fuel arr (2 ^ 61 - 1) 0 1 2 = Some None) as Hloop.
  { induction fuel as [|fuel IH]; [done|]. cbn [wa_Sample_loop].
    replace (wa_Sample_round arr (2 ^ 61 - 1) 0 1 2) with (Some (wa_continue 0 1 2));
      [exact IH|vm_compute; done]. }
  intros [|fuel]; [vm_compute; done|]. unfold wa_Sample.
  rewrite decide_False by (vm_compute; intros [?|?]; [done|congruence]).
  match goal with |- context [int_of_float64 ?x] =>
    replace (int_of_float64 x) with 2 by (vm_compute; done) end.
  cbn [wa_Sample_loop wa_arr].
  replace (wa_Sample_round arr (2 ^ 61 - 1) 0 (Z.of_nat (length arr) - 1) 2)
    with (Some (wa_continue 0 1 2)) by (vm_compute; done).
  by rewrite Hloop.
Qed.

(** With one weight the same rounding leaves the array: an index out of range. *)
Theorem weighted_array_panics `{GoSort, GoConv} s fuel :
  ∃ s', wa_Initialize [2 ^ 60] s = (None, s') ∧ wa_Sample (S fuel) (2 ^ 60 - 1) s' = None.
Proof.
  exists (mkWeightedArray [mkElement (2 ^ 60) 0]). split.
  - unfold wa_Initialize. pose proof (go_sort_perm _ heavier (elements [2 ^ 60])) as Hp.
    apply Permutation_singleton_r in Hp. rewrite Hp. vm_compute. done.
  - unfold wa_Sample. rewrite decide_False by (vm_compute; intros [?|?]; [done|congruence]).
    cbn [wa_Sample_loop wa_arr]. match goal with |- context [int_of_float64 ?x] =>
      replace (int_of_float64 x) with 1 by (vm_compute; done) end. vm_compute. done.
Qed.

(** ** The heap sampler *)

(** The entries below a position of the heap, in the order the search meets
    them: the entry, the left subtree, the right subtree. *)
Fixpoint subtree_fuel (fuel : nat) (es : list (Z * nat)) (k : nat) : list (Z * nat) :=
  match fuel with
  | O => []
  | S fuel =>
      match es !! k with
      | None => []
      | Some e => e :: subtree_fuel fuel es (2 * k + 1) ++ subtree_fuel fuel es (2 * k + 2)
      end
  end.

Definition subtree (es : list (Z * nat)) (k : nat) : list (Z * nat) :=
  subtree_fuel (S (length es)) es k.

Lemma subtree_fuel_enough es fuel1 fuel2 k :
  (length es - k < fuel1)%nat → (length es - k < fuel2)%nat →
  subtree_fuel fuel1 es k = subtree_fuel fuel2 es k.
Proof.
  revert fuel2 k. induction fuel1 as [|f1 IH]; intros [|f2] k H1 H2; try lia.
  cbn [subtree_fuel]. destruct (es !! k) as [e|] eqn:E; [|done].
  apply lookup_lt_Some in E. rewrite (IH f2 (2 * k + 1)%nat), (IH f2 (2 * k + 2)%nat) by lia. done.
Qed.

Lemma subtree_eq es k :
  subtree es k =
    match es !! k with
    | None => []
    | Some e => e :: subtree es (2 * k + 1) ++ subtree es (2 * k + 2)
    end.
Proof.
  unfold subtree at 1. cbn [subtree_fuel]. destruct (es !! k) as [e|] eqn:E; [|done].
  apply lookup_lt_Some in E. unfold subtree.
  by rewrite (subtree_fuel_enough es _ (S (length es)) (2 * k + 1)),
    (subtree_fuel_enough es _ (S (length es)) (2 * k + 2)) by lia.
Qed.

Lemma subtree_out es k : (length es ≤ k)%nat → subtree es k = [].
Proof. intros Hk. by rewrite subtree_eq, lookup_ge_None_2. Qed.

(** The entries counted at position [k] once the positions from [i] on have been
    added to their parents. *)
Definition linked (es : list (Z * nat)) (i k : nat) : list (Z * nat) :=
  match es !! k with
  | None => []
  | Some e =>
      e :: (if decide (i ≤ 2 * k + 1)%nat then subtree es (2 * k + 1) else []) ++
           (if decide (i ≤ 2 * k + 2)%nat then subtree es (2 * k + 2) else [])
  end.

Lemma linked_self es i k : (i ≤ 2 * k + 1)%nat → linked es i k = subtree es k.
Proof.
  intros. unfold linked. rewrite (subtree_eq es k). destruct (es !! k); [|done].
  by rewrite !decide_True by lia.
Qed.

(** One more position added to its parent. *)
Lemma linked_parent es i :
  (0 < i)%nat → (i < length es)%nat →
  linked es i (Nat.div2 (i - 1)) ≡ₚ linked es (S i) (Nat.div2 (i - 1)) ++ linked es (S i) i.
Proof.
  intros Hi Hlen. rewrite (linked_self es (S i) i) by lia.
  set (p := Nat.div2 (i - 1)).
  assert (i = 2 * p + 1 ∨ i = 2 * p + 2)%nat as Hp.
  { unfold p. pose proof (Nat.div2_odd (i - 1)) as E. destruct (Nat.odd (i - 1)); simpl in E; lia. }
  assert (is_Some (es !! p)) as [e He] by (apply lookup_lt_is_Some; lia).
  unfold linked. rewrite He. destruct Hp as [Hp|Hp].
  - rewrite (decide_True (P := (i ≤ 2 * p + 1)%nat)), (decide_True (P := (i ≤ 2 * p + 2)%nat)),
      (decide_False (P := (S i ≤ 2 * p + 1)%nat)), (decide_True (P := (S i ≤ 2 * p + 2)%nat)) by lia.
    rewrite <-Hp. simpl. apply perm_skip. by rewrite Permutation_app_comm.
  - rewrite (decide_False (P := (i ≤ 2 * p + 1)%nat)), (decide_True (P := (i ≤ 2 * p + 2)%nat)),
      (decide_False (P := (S i ≤ 2 * p + 1)%nat)), (decide_False (P := (S i ≤ 2 * p + 2)%nat)) by lia.
    by rewrite <-Hp.
Qed.

Lemma linked_other es i k :
  (0 < i)%nat → k ≠ Nat.div2 (i - 1) → linked es i k = linked es (S i) k.
Proof.
  intros Hi Hk. unfold linked. destruct (es !! k); [|done].
  assert (i ≠ 2 * k + 1 ∧ i ≠ 2 * k + 2)%nat as [H1 H2].
  { split; intros ->; apply Hk.
    - replace (2 * k + 1 - 1)%nat with (2 * k)%nat by lia. by rewrite Nat.div2_double.
    - replace (2 * k + 2 - 1)%nat with (S (2 * k)) by lia. by rewrite Nat.div2_succ_double. }
  f_equal. f_equal; [destruct (decide (i ≤ 2 * k + 1)%nat)|destruct (decide (i ≤ 2 * k + 2)%nat)];
    first [by rewrite decide_True by lia|by rewrite decide_False by lia].
Qed.

(** A forest whose trees are those of another one, except that one of them has
    got the entries of one more position. *)
Lemma concat_fmap_split {A} (f g : nat → list A) n p x :
  (p < n)%nat → f p ≡ₚ g p ++ x → (∀ k, (k < n)%nat → k ≠ p → f k = g k) →
  concat (f <$> seq 0 n) ≡ₚ concat (g <$> seq 0 n) ++ x.
Proof.
  intros Hp Hf Hk.
  assert (seq 0 n = seq 0 p ++ p :: seq (S p) (n - S p)) as ->.
  { replace n with (p + S (n - S p))%nat at 1 by lia. by rewrite seq_app. }
  rewrite !fmap_app, !fmap_cons, !concat_app. simpl.
  assert (f <$> seq 0 p = g <$> seq 0 p) as ->.
  { apply list_fmap_ext. intros i k Hi. apply lookup_seq in Hi. apply Hk; lia. }
  assert (f <$> seq (S p) (n - S p) = g <$> seq (S p) (n - S p)) as ->.
  { apply list_fmap_ext. intros i k Hi. apply lookup_seq in Hi. apply Hk; lia. }
  rewrite Hf. rewrite <-!(assoc_L (++)). f_equiv. f_equiv. apply Permutation_app_comm.
Qed.

(** The heap once the positions from [i] on have been added to their parents:
    every cumulative weight is the sum of what is linked to the position, and
    nothing is lost. *)
Record heap_inv (es : list (Z * nat)) (i : nat) (heap : list heapElement) : Prop := {
  hi_entries : (λ e, (he_weight e, he_index e)) <$> heap = es;
  hi_cumulative : ∀ k e, heap !! k = Some e → he_cumulative e = total_of (linked es i k);
  hi_u64 : Forall (λ e, is_u64 (he_cumulative e)) heap;
  hi_perm : concat (linked es i <$> seq 0 i) ≡ₚ es;
}.

Lemma hi_length es i heap : heap_inv es i heap → length heap = length es.
Proof. intros Hi. by rewrite <-(hi_entries _ _ _ Hi), length_fmap. Qed.

Definition order_ok (es : list (Z * nat)) : Prop := Forall (λ e, 0 ≤ e.1) es.

Lemma total_nonneg es : order_ok es → 0 ≤ total_of es.
Proof. intros. apply sumZ_nonneg. by apply Forall_fmap. Qed.

Lemma subtree_ok es k : order_ok es → order_ok (subtree es k).
Proof.
  intros He. unfold subtree. generalize (S (length es)). intros fuel. revert k.
  induction fuel as [|fuel IH]; intros k; cbn [subtree_fuel]; [constructor|].
  destruct (es !! k) as [e|] eqn:E; [|constructor].
  constructor; [unfold order_ok in He; rewrite Forall_lookup in He; eauto|]. apply Forall_app. split; apply IH.
Qed.

Lemma linked_ok es i k : order_ok es → order_ok (linked es i k).
Proof.
  intros He. unfold linked. destruct (es !! k) as [e|] eqn:E; [|constructor].
  constructor; [unfold order_ok in He; rewrite Forall_lookup in He; eauto|].
  apply Forall_app. split; case_decide; constructor || by apply subtree_ok.
Qed.

(** A cumulative weight is at most the total. *)
Lemma linked_bound es i k :
  order_ok es → concat (linked es i <$> seq 0 i) ≡ₚ es → (k < i)%nat →
  total_of (linked es i k) ≤ total_of es.
Proof.
  intros He Hi Hk.
  assert (total_of (concat (linked es i <$> seq 0 i)) = total_of es) as <-.
  { by rewrite Hi. }
  assert (seq 0 i = seq 0 k ++ k :: seq (S k) (i - S k)) as ->.
  { replace i with (k + S (i - S k))%nat at 1 by lia. by rewrite seq_app. } rewrite fmap_app, concat_app. csimpl. rewrite !fmap_app, !sumZ_app.
  assert (∀ l, 0 ≤ total_of (concat (linked es i <$> l))) as Hn.
  { intros l. apply total_nonneg. unfold order_ok. apply Forall_concat, Forall_fmap, Forall_true.
    intros j. by apply linked_ok. }
  pose proof (Hn (seq 0 k)). pose proof (Hn (seq (S k) (i - S k))). lia.
Qed.

Lemma linked_perm_step es i :
  (0 < i)%nat → (i < length es)%nat →
  concat (linked es (S i) <$> seq 0 (S i)) ≡ₚ es → concat (linked es i <$> seq 0 i) ≡ₚ es.
Proof.
  intros Hi Hlen Hp. etrans; [|exact Hp]. rewrite seq_S. cbn [Nat.add].
  rewrite fmap_app, concat_app. cbn [fmap list_fmap concat]. rewrite app_nil_r.
  apply (concat_fmap_split _ _ _ (Nat.div2 (i - 1))); [|by apply linked_parent|].
  - pose proof (Nat.div2_decr (i - 1) (i - 1)). lia.
  - intros k _ Hk. by apply linked_other.
Qed.

Lemma heap_inv_step es i heap p e v :
  (0 < i)%nat → (i < length es)%nat → heap_inv es (S i) heap →
  heap !! Nat.div2 (i - 1) = Some p → heap !! i = Some e →
  v = he_cumulative p + he_cumulative e → is_u64 v →
  heap_inv es i (<[Nat.div2 (i - 1) := mkHeapElement (he_weight p) v (he_index p)]> heap).
Proof.
  intros Hi0 Hlen Hi Hp He -> Hv. assert (Nat.div2 (i - 1) < i)%nat as Hpi.
  { pose proof (Nat.div2_decr (i - 1) (i - 1)). lia. }
  split.
  - rewrite list_fmap_insert. simpl. rewrite list_insert_id; [by apply (hi_entries _ _ _ Hi)|].
    by rewrite list_lookup_fmap, Hp.
  - intros k e'. rewrite list_lookup_insert. case_decide as Hk.
    + destruct Hk as [<- _]. intros [= <-]. simpl.
      rewrite (linked_parent es i) by done. rewrite fmap_app, sumZ_app.
      rewrite (hi_cumulative _ _ _ Hi _ _ Hp), (hi_cumulative _ _ _ Hi _ _ He). done.
    + intros He'. rewrite (linked_other es i); [by apply (hi_cumulative _ _ _ Hi)|done|].
      intros ->. apply Hk. split; [done|by eapply lookup_lt_Some].
  - apply Forall_insert; [by apply (hi_u64 _ _ _ Hi)|done].
  - by apply linked_perm_step, (hi_perm _ _ _ Hi).
Qed.

Lemma wh_link_spec es i heap :
  order_ok es → (i < length es)%nat → heap_inv es (S i) heap →
  ∃ err heap', wh_link i heap = Some (err, heap') ∧
    if decide (total_of es ≤ MaxUint64) then err = None ∧ heap_inv es 1 heap'
    else err = Some (errMath errOverflow) ∨ (err = None ∧ heap_inv es 1 heap').
Proof.
  intros Hes. revert heap. induction i as [|i IH]; intros heap Hlen Hi; cbn [wh_link].
  { eexists _, _. split; [done|]. case_decide; auto. }
  pose proof (hi_length _ _ _ Hi) as Hl.
  assert (Nat.div2 (S i - 1) < S i)%nat as Hpi.
  { pose proof (Nat.div2_decr (S i - 1) (S i - 1)). lia. }
  destruct (lookup_lt_is_Some_2 heap (Nat.div2 (S i - 1))) as [p Hp]; [lia|].
  destruct (lookup_lt_is_Some_2 heap (S i)) as [e He]; [lia|]. rewrite Hp, He.
  pose proof (hi_u64 _ _ _ Hi) as Hu. rewrite Forall_lookup in Hu.
  rewrite Add64_spec by eauto.
  destruct (decide (he_cumulative p + he_cumulative e ≤ MaxUint64)) as [Hle|Hle].
  - apply IH; [lia|]. eapply heap_inv_step; [lia|done..|].
    apply Hu in Hp, He. unfold is_uint, MaxUint64 in *. lia.
  - eexists _, _. split; [done|]. rewrite decide_False; [by left|]. intros Ht. apply Hle.
    rewrite (hi_cumulative _ _ _ Hi _ _ Hp), (hi_cumulative _ _ _ Hi _ _ He).
    pose proof (linked_parent es (S i) ltac:(lia) Hlen) as Hpar.
    pose proof (linked_bound es (S i) (Nat.div2 (S i - 1)) Hes) as Hb.
    rewrite Hpar, fmap_app, sumZ_app in Hb.
    etrans; [apply Hb|exact Ht]; [|done]. apply linked_perm_step; [lia|done|].
    by apply (hi_perm _ _ _ Hi).
Qed.

Lemma heap_inv_init (heap : list heapElement) :
  (∀ e, e ∈ heap → he_cumulative e = he_weight e ∧ is_u64 (he_weight e)) →
  heap_inv ((λ e, (he_weight e, he_index e)) <$> heap) (length heap) heap.
Proof.
  intros Hh. set (es := (λ e, (he_weight e, he_index e)) <$> heap).
  assert (∀ k e, heap !! k = Some e →
    linked es (length heap) k = [(he_weight e, he_index e)]) as Hl.
  { intros k e Hk. unfold linked, es. rewrite list_lookup_fmap, Hk. simpl. f_equal.
    assert (∀ j, (if decide (length heap ≤ j)%nat then subtree es j else []) = []) as Hout.
    { intros j. case_decide; [|done]. apply subtree_out. unfold es. by rewrite length_fmap. }
    unfold es in Hout. by rewrite !Hout. }
  split; [done|..].
  - intros k e Hk. rewrite (Hl _ _ Hk). csimpl. rewrite sumZ_cons, sumZ_nil.
    destruct (Hh e) as [-> _]; [by eapply list_elem_of_lookup_2|lia].
  - apply Forall_forall. intros e He. by destruct (Hh e He) as [-> ?].
  - assert (linked es (length heap) <$> seq 0 (length heap) = (λ x, [x]) <$> es) as ->.
    { apply list_eq. intros k. unfold es at 2. rewrite !list_lookup_fmap. destruct (heap !! k) as [e|] eqn:Hk.
      - rewrite lookup_seq_lt by (by eapply lookup_lt_Some). simpl. by rewrite (Hl _ _ Hk).
      - apply lookup_ge_None in Hk. by rewrite lookup_seq_ge. }
    clear. by induction es as [|x es IH]; simpl; [|f_equiv].
Qed.

Lemma heap_final es heap k :
  heap_inv es 1 heap → (k < length es)%nat → linked es 1 k = subtree es k.
Proof. intros. apply linked_self. lia. Qed.

(** The search below a position picks from the entries of its subtree. *)
Lemma wh_Sample_loop_pick es heap fuel k v :
  order_ok es → heap_inv es 1 heap → (length es - k ≤ fuel)%nat →
  0 ≤ v < total_of (subtree es k) →
  wh_Sample_loop fuel heap v k = pick (subtree es k) v.
Proof.
  intros Hes Hi. pose proof (hi_entries _ _ _ Hi) as Hent.
  assert (∀ k e, heap !! k = Some e → he_cumulative e = total_of (subtree es k)) as Hcum.
  { intros j e He. rewrite (hi_cumulative _ _ _ Hi _ _ He), linked_self by lia. done. }
  assert (∀ j, heap !! j = None → subtree es j = []) as Hnone.
  { intros j Hj. rewrite subtree_eq, <-Hent, list_lookup_fmap, Hj. done. }
  revert k v. induction fuel as [|fuel IH]; intros k v Hf Hv.
  { rewrite subtree_out in Hv by lia. csimpl in Hv. rewrite sumZ_nil in Hv. lia. }
  cbn [wh_Sample_loop].
  destruct (heap !! k) as [e|] eqn:He; [|rewrite Hnone in Hv by done; csimpl in Hv; rewrite sumZ_nil in Hv; lia].
  assert (subtree es k = (he_weight e, he_index e) ::
    subtree es (2 * k + 1) ++ subtree es (2 * k + 2)) as E.
  { rewrite subtree_eq, <-Hent at 1. by rewrite list_lookup_fmap, He. }
  rewrite E in *. rewrite fmap_cons, sumZ_cons, fmap_app, sumZ_app in Hv. cbn [fst] in Hv. cbn [pick].
  destruct (decide (v < he_weight e)); [done|].
  assert (k < length es)%nat by (rewrite <-(hi_length _ _ _ Hi); by eapply lookup_lt_Some).
  pose proof (subtree_ok es (2 * k + 1) Hes) as Hl. pose proof (total_nonneg _ Hl).
  rewrite pick_app by (done || lia). replace (k * 2 + 1)%nat with (2 * k + 1)%nat by lia.
  destruct (heap !! (2 * k + 1)%nat) as [le|] eqn:Hle.
  - rewrite (Hcum _ _ Hle).
    destruct (decide (total_of (subtree es (2 * k + 1)) ≤ v - he_weight e)).
    + rewrite decide_False by lia. replace (2 * k + 1 + 1)%nat with (2 * k + 2)%nat by lia.
      rewrite IH by lia. f_equal; lia.
    + rewrite decide_True by lia. apply IH; lia.
  - exfalso. rewrite (Hnone _ Hle) in Hv.
    assert (heap !! (2 * k + 2)%nat = None) as Hr.
    { apply lookup_ge_None in Hle. apply lookup_ge_None. lia. }
    rewrite (Hnone _ Hr) in Hv. csimpl in Hv. rewrite !sumZ_nil in Hv. lia.
Qed.

Section heap.
Context `{GoSort}.

Definition initial_heap (weights : list Z) : list heapElement :=
  go_sort heap_less (imap (λ i weight, mkHeapElement weight weight i) weights).

Lemma initial_heap_order weights :
  (λ e, (he_weight e, he_index e)) <$> initial_heap weights ≡ₚ entries weights.
Proof. unfold initial_heap. rewrite go_sort_perm. unfold entries. by rewrite fmap_imap. Qed.

Lemma initial_heap_elem weights e :
  weights_ok weights → e ∈ initial_heap weights →
  he_cumulative e = he_weight e ∧ is_u64 (he_weight e).
Proof.
  intros Hw He. unfold initial_heap in He. rewrite go_sort_perm in He.
  apply elem_of_lookup_imap in He as (i&w&->&Hi). simpl.
  unfold weights_ok in Hw. rewrite Forall_lookup in Hw. eauto.
Qed.

Lemma entries_ok weights o : weights_ok weights → o ≡ₚ entries weights → order_ok o.
Proof.
  intros Hw Hp. unfold order_ok. rewrite Hp. apply Forall_forall. intros [w i] He%entries_index.
  unfold weights_ok in Hw. rewrite Forall_lookup in Hw. apply Hw in He. unfold is_uint in He. simpl. lia.
Qed.

Lemma wh_Initialize_spec weights s :
  weights_ok weights →
  ∃ err s' es, wh_Initialize weights s = Some (err, s') ∧ es ≡ₚ entries weights ∧
    if decide (sumZ weights ≤ MaxUint64)
    then err = None ∧ (weights = [] ∧ wh_heap s' = [] ∨ weights ≠ [] ∧ heap_inv es 1 (wh_heap s'))
    else err = Some (errMath errOverflow).
Proof.
  intros Hw. unfold wh_Initialize. fold (initial_heap weights).
  pose proof (initial_heap_order weights) as Hp. set (heap := initial_heap weights) in *.
  pose proof (Permutation_length Hp) as Hl. rewrite length_fmap in Hl.
  unfold entries in Hl. rewrite length_imap in Hl.
  set (es := (λ e, (he_weight e, he_index e)) <$> heap) in *.
  pose proof (entries_ok _ _ Hw Hp) as Hok. pose proof (order_total _ _ Hp) as Ht.
  pose proof (heap_inv_init heap (λ e He, initial_heap_elem weights e Hw He)) as Hi. fold es in Hi.
  destruct (decide (weights = [])) as [->|Hne].
  { apply nil_length_inv in Hl. exists None, (mkWeightedHeap []), es. rewrite Hl.
    split; [done|]. split; [done|]. rewrite decide_True by done. auto. }
  assert (0 < length heap)%nat as Hpos by (destruct weights; simpl in *; [done|lia]).
  assert (length es = length heap) as Hles by apply length_fmap.
  destruct (wh_link_spec es (length heap - 1) heap Hok) as (err&heap'&E&Hr); [lia|
    by replace (S (length heap - 1)) with (length heap) by lia|].
  rewrite E. exists err, (mkWeightedHeap heap'), es. split; [done|]. split; [done|].
  rewrite <-Ht. destruct (decide (total_of es ≤ MaxUint64)) as [Hle|Hgt]; [naive_solver|].
  destruct Hr as [->|[-> Hi']]; [done|]. destruct Hgt.
  pose proof (hi_length _ _ _ Hi') as Hl'.
  destruct (lookup_lt_is_Some_2 heap' 0) as [root Hroot]; [lia|].
  pose proof (hi_perm _ _ _ Hi') as Hperm. cbn [seq fmap list_fmap concat] in Hperm.
  rewrite app_nil_r in Hperm. rewrite <-Hperm.
  rewrite <-(hi_cumulative _ _ _ Hi' _ _ Hroot).
  pose proof (hi_u64 _ _ _ Hi') as Hu. rewrite Forall_lookup in Hu. apply Hu in Hroot.
  unfold is_uint, MaxUint64 in *. lia.
Qed.

Lemma heap_inv_picks weights es heap :
  weights_ok weights → es ≡ₚ entries weights → heap_inv es 1 heap → heap ≠ [] →
  picks weights (λ v, wh_Sample v (mkWeightedHeap heap)).
Proof.
  intros Hw Hp Hi Hne. destruct heap as [|root rest] eqn:Eh; [done|]. rewrite <-Eh in *.
  pose proof (hi_length _ _ _ Hi) as Hl.
  assert (0 < length es)%nat as Hpos by (rewrite <-Hl, Eh; simpl; lia).
  pose proof (hi_perm _ _ _ Hi) as Hperm. cbn [seq fmap list_fmap concat] in Hperm.
  rewrite app_nil_r, (linked_self es 1 0) in Hperm by lia.
  assert (he_cumulative root = sumZ weights) as Hroot.
  { rewrite (hi_cumulative _ _ _ Hi 0%nat root) by (by rewrite Eh).
    rewrite linked_self by lia. apply order_total. by rewrite Hperm. }
  exists (subtree es 0); split_and!; [by rewrite Hperm| |];
    intros v Hv; unfold wh_Sample; cbn [wh_heap];
    replace (match heap with [] => _ | _ => _ end) with
      (if decide (he_cumulative root ≤ v) then Some (Err errOutOfRange)
       else Ok <$> wh_Sample_loop (length heap) heap v 0) by (by rewrite Eh); rewrite Hroot.
  - by rewrite decide_True by lia.
  - rewrite decide_False by lia. f_equal.
    apply (wh_Sample_loop_pick es); [by eapply entries_ok|done|lia|].
    rewrite (order_total weights); [done|by rewrite Hperm].
Qed.

Lemma wh_picks weights s s' :
  weights_ok weights → wh_Initialize weights s = Some (None, s') → picks weights (λ v, wh_Sample v s').
Proof.
  intros Hw E. destruct (wh_Initialize_spec weights s Hw) as (err&s''&es&E'&Hp&Hs).
  rewrite E in E'. simplify_eq. case_decide; [|done]. destruct Hs as [_ [[-> Hh]|[Hne Hi]]].
  - destruct s'' as [heap]. simpl in Hh. subst heap.
    exists []. split_and!; [done|intros v _; done|intros v Hv; rewrite sumZ_nil in Hv; lia].
  - destruct s'' as [heap]. eapply heap_inv_picks; [done..|].
    pose proof (hi_length _ _ _ Hi) as Hl. simpl in *. intros ->.
    apply Permutation_length in Hp. unfold entries in Hp. rewrite length_imap in Hp.
    destruct weights; simpl in *; [done|lia].
Qed.
End heap.

(** The order of the heap is the same for every sorting function: the heap
    sampler is deterministic. *)
Lemma wh_Initialize_deterministic (S1 S2 : GoSort) weights s :
  @wh_Initialize S1 weights s = @wh_Initialize S2 weights s.
Proof.
  unfold wh_Initialize. rewrite (@go_sort_unique _ S1 S2); [done|..].
  - intros x y z. unfold not_less, heap_less. decide_all; try done; try lia; intros; lia.
  - intros x y. unfold not_less, heap_less. decide_all; auto; lia.
  - intros x y Hx Hy. apply elem_of_lookup_imap in Hx as (i&w&->&Hi), Hy as (j&w'&->&Hj).
    unfold not_less, heap_less. simpl. decide_all; try done; try lia. intros _ _.
    assert (i = j) as -> by lia. by simplify_eq.
Qed.

(** ** The uniform sampler *)

Lemma sum_weights_spec total weights :
  is_u64 total → weights_ok weights →
  sum_weights total weights =
    if decide (total + sumZ weights ≤ MaxUint64) then Ok (total + sumZ weights)
    else Err errOverflow.
Proof.
  intros Ht Hw. revert total Ht. induction Hw as [|w weights Hw Hws IH]; intros total Ht; cbn [sum_weights].
  { rewrite sumZ_nil, Z.add_0_r. unfold is_uint, MaxUint64 in *. by rewrite decide_True by lia. }
  rewrite sumZ_cons, Add64_spec by done. pose proof (sumZ_nonneg _ (weights_nonneg _ Hws)).
  destruct (decide (total + w ≤ MaxUint64)).
  - rewrite IH by (unfold is_uint, MaxUint64 in *; lia). by rewrite Z.add_assoc.
  - by rewrite decide_False by lia.
Qed.

Lemma wu_fill_lookup k weights v :
  Forall (λ w, 0 ≤ w) weights → 0 ≤ v < sumZ weights →
  wu_fill k weights !! Z.to_nat v = pick (imap (λ i w, (w, (k + i)%nat)) weights) v.
Proof.
  intros Hw. revert k v. induction Hw as [|w weights Hw Hws IH]; intros k v Hv; simpl.
  { rewrite sumZ_nil in Hv. lia. }
  rewrite sumZ_cons in Hv. case_decide.
  - rewrite lookup_app_l by (rewrite length_replicate; lia). rewrite lookup_replicate_2 by lia.
    f_equal. lia.
  - rewrite lookup_app_r by (rewrite length_replicate; lia). rewrite length_replicate.
    replace (Z.to_nat v - Z.to_nat w)%nat with (Z.to_nat (v - w)) by lia.
    rewrite IH by lia. f_equal. apply imap_ext. intros i x _. simpl. f_equal. lia.
Qed.

Lemma length_wu_fill k weights :
  Forall (λ w, 0 ≤ w) weights → Z.of_nat (length (wu_fill k weights)) = sumZ weights.
Proof.
  intros Hw. revert k. induction Hw as [|w weights Hw Hws IH]; intros k; simpl; [done|].
  rewrite sumZ_cons, length_app, length_replicate, Nat2Z.inj_add, IH. lia.
Qed.

Lemma wu_picks weights s s' :
  weights_ok weights → wu_Initialize weights s = (None, s') → picks weights (λ v, wu_Sample v s').
Proof.
  intros Hw. unfold wu_Initialize. destruct (sum_weights 0 weights); [|done].
  case_decide; [done|]. intros [= <-]. pose proof (weights_nonneg _ Hw) as Hn.
  exists (entries weights); split_and!; [done| |]; intros v Hv; unfold wu_Sample; simpl;
    rewrite length_wu_fill by done.
  - by rewrite decide_True.
  - rewrite decide_False by lia. by rewrite wu_fill_lookup.
Qed.

(** ** The samplers implement the interface *)

(** What a client may rely on: whatever a sampler of [weights] answers is the
    entry of the value. *)
Definition picks_when_returns (weights : list Z) (f : Z → option (result samplerError nat)) : Prop :=
  ∃ o, o ≡ₚ entries weights ∧
    ∀ v r, 0 ≤ v → f v = Some r →
      (sumZ weights ≤ v → r = Err errOutOfRange) ∧
      (v < sumZ weights → Some r = Ok <$> pick o v).

Lemma picks_returns weights f : picks weights f → picks_when_returns weights f.
Proof.
  intros (o&Hp&Herr&Hok). exists o. split; [done|]. intros v r Hv E. split; intros Hs.
  - rewrite Herr in E by done. by simplify_eq.
  - by rewrite <-E, Hok.
Qed.

(** [W_ready weights s]: [s] was initialized with [weights]. *)
Class WeightedLaws (R S : Type) `{W : Weighted R S} := {
  W_ready : list Z → S → Prop;
  W_Initialize_ready weights s g s' g' :
    weights_ok weights → W_Initialize weights s g = Some (None, s', g') → W_ready weights s';
  W_Initialize_rng weights s g err s' g' p :
    W_Initialize weights s g = Some (err, s', g') → rng_ready p g → rng_ready p g';
  W_Sample_picks weights s :
    W_ready weights s → picks_when_returns weights (λ v, W_Sample v s);
}.

Section instances.
Context {R : Type} `{!Rng R, GoSort, GoConv}.

#[export] Instance weightedHeap_Weighted : Weighted R weightedHeap := {|
  W_Initialize := λ weights s g, '(err, s) ← wh_Initialize weights s; Some (err, s, g);
  W_Sample := wh_Sample;
|}.

#[export] Instance weightedHeap_laws : WeightedLaws R weightedHeap.
Proof.
  refine {| W_ready := λ weights s, picks weights (λ v, wh_Sample v s) |}; simpl.
  - intros weights s g s' g' Hw E. destruct (wh_Initialize weights s) as [[err s1]|] eqn:E'; [|done].
    simplify_eq/=. by eapply wh_picks.
  - intros weights s g err s' g' p E. destruct (wh_Initialize weights s) as [[err1 s1]|]; [|done].
    by simplify_eq/=.
  - intros weights s. apply picks_returns.
Defined.

(** The search of the array sampler, whenever it ends, picks from one order. *)
Lemma wa_returns weights s s' :
  weights_ok weights → wa_Initialize weights s = (None, s') →
  ∃ o, o ≡ₚ entries weights ∧ ∀ fuel v r, 0 ≤ v → mjoin (wa_Sample fuel v s') = Some r →
    (sumZ weights ≤ v → r = Err errOutOfRange) ∧ (v < sumZ weights → Some r = Ok <$> pick o v).
Proof.
  intros Hw E. destruct (wa_Initialize_spec _ _ _ Hw E) as (arr&Hp&Ha&Hle&Earr).
  exists (order_of arr). split; [done|]. intros fuel v r Hv Hr. unfold wa_Sample in Hr.
  rewrite Earr, length_prefix_sums in Hr.
  assert (length arr = 0%nat ∧ sumZ weights = 0 ∨
    length arr ≠ 0%nat ∧ last_weight (prefix_sums 0 arr) = sumZ weights) as Hlast.
  { rewrite <-(order_total _ _ Hp). destruct arr as [|e arr]; [by left|right].
    split; [done|]. by rewrite last_prefix_sums. }
  destruct (decide (length arr = 0%nat ∨ last_weight (prefix_sums 0 arr) ≤ v)) as [Hd|Hd].
  - simplify_eq/=. split; [done|]. destruct Hlast as [[_ ->]|[? E']]; [lia|].
    rewrite E' in Hd. destruct Hd; [done|lia].
  - destruct Hlast as [[? _]|[_ E']]; [tauto|].
    split; [intros; destruct Hd; right; lia|]. intros _.
    destruct (wa_Sample_loop _ _ _ _ _ _) as [[i|]|] eqn:El; simplify_eq/=.
    apply wa_Sample_loop_sound in El; [|done|done]. by rewrite El.
Qed.

Lemma wa_picks fuel weights s s' :
  weights_ok weights → wa_Initialize weights s = (None, s') →
  picks_when_returns weights (λ v, mjoin (wa_Sample fuel v s')).
Proof. intros Hw E. destruct (wa_returns _ _ _ Hw E) as (o&Hp&Ho). exists o. split; [done|]. intros v r. apply Ho. Qed.

(** It agrees with a fair sampler. *)
Lemma wa_fair weights s s' :
  weights_ok weights → wa_Initialize weights s = (None, s') →
  ∃ f, fair weights f ∧ ∀ fuel v r, 0 ≤ v → wa_Sample fuel v s' = Some (Some r) → f v = Some r.
Proof.
  intros Hw E. destruct (wa_returns _ _ _ Hw E) as (o&Hp&Ho).
  exists (λ v, if decide (sumZ weights ≤ v) then Some (Err errOutOfRange) else Ok <$> pick o v). split.
  - apply picks_fair; [done|]. exists o. split; [done|]. split; intros v Hv; [by rewrite decide_True|by rewrite decide_False by lia].
  - intros fuel v r Hv Hr. destruct (Ho fuel v r Hv) as [H1 H2]; [by rewrite Hr|]. case_decide; [by rewrite H1|]. rewrite <-H2; [done|lia].
Qed.

Variable fuel : nat.
Variable durations : list Z → nat → Z.

Lemma any_picks weights a a' :
  weights_ok weights → any_Initialize weights a = Some (None, a') →
  picks_when_returns weights (λ v, any_Sample fuel v a').
Proof.
  intros Hw E. destruct a as [s|s|s]; simpl in E.
  - destruct (wa_Initialize weights s) as [err s1] eqn:E'. simplify_eq. by eapply wa_picks.
  - destruct (wh_Initialize weights s) as [[err s1]|] eqn:E'; simplify_eq/=.
    apply picks_returns. by eapply wh_picks.
  - destruct (wu_Initialize weights s) as [err s1] eqn:E'. simplify_eq.
    apply picks_returns. by eapply wu_picks.
Qed.

(** The sampler chosen is one that was initialized. *)
Lemma wb_loop_chosen weights samples k best chosen samplers chosen' samplers' :
  wb_loop fuel durations weights samples k best chosen samplers = Some (chosen', samplers') →
  chosen' = chosen ∨ ∃ j a a', chosen' = Some (k + j)%nat ∧ samplers' !! j = Some a' ∧
    any_Initialize weights a = Some (None, a').
Proof.
  revert k best chosen chosen' samplers'.
  induction samplers as [|a samplers IH]; intros k best chosen chosen' samplers'; simpl.
  { intros [= <- <-]. by left. }
  destruct (any_Initialize weights a) as [[err a1]|] eqn:Ea; [|done]. simpl.
  assert (∀ best1 chosen1,
    ('(c, ss) ← wb_loop fuel durations weights samples (S k) best1 chosen1 samplers;
       Some (c, a1 :: ss)) = Some (chosen', samplers') →
    samplers' !! 0%nat = Some a1 ∧ (chosen' = chosen1 ∨ ∃ j a a', chosen' = Some (k + j)%nat ∧
      samplers' !! j = Some a' ∧ any_Initialize weights a = Some (None, a'))) as Hnext.
  { intros best1 chosen1. destruct (wb_loop _ _ _ _ _ _ _ _) as [[c ss]|] eqn:El; [|done].
    intros [= <- <-]. split; [done|].
    destruct (IH _ _ _ _ _ El) as [->|(j&b&b'&->&Hj&Hb)]; [by left|right].
    exists (S j), b, b'. split_and!; [f_equal; lia|done|done]. }
  destruct err as [e|]; [by intros [_ ?]%Hnext|].
  destruct (wb_bench fuel samples a1) as [ok|]; [|done]. simpl. case_decide; [|by intros [_ ?]%Hnext].
  intros [H0' [->|?]]%Hnext; [right|by right]. exists 0%nat, a, a1.
  split_and!; [f_equal; lia|done|done].
Qed.

#[export] Instance weightedBest_Weighted : Weighted R weightedBest := {|
  W_Initialize := wb_Initialize fuel durations;
  W_Sample := wb_Sample fuel;
|}.

Lemma redraw_ready p q n count (g : rngs R) xs g' :
  0 < n → redraw q n count g = Some (xs, g') → rng_ready p g → rng_ready p g'.
Proof.
  intros Hn. revert g xs. induction count as [|count IH]; intros g xs; [by intros [= <- <-]|].
  rewrite redraw_S. destruct (Int63n q n g) as [[x g1]|] eqn:E; [|done].
  destruct (redraw q n count g1) as [[xs1 g2]|] eqn:E2; [|done]. intros [= <- <-] Hp.
  eapply IH; [exact E2|]. by eapply Int63n_keeps.
Qed.

Lemma wb_Initialize_inv weights s (g : rngs R) err s' g' :
  wb_Initialize fuel durations weights s g = Some (err, s', g') →
  (∀ p, rng_ready p g → rng_ready p g') ∧
  (err = None → ∃ samples k samplers,
     wb_loop fuel durations weights samples 0 MaxInt64 None (wb_samplers s) = Some (Some k, samplers) ∧
     s' = mkWeightedBest (Some k) samplers (wb_benchmarkIterations s)).
Proof.
  unfold wb_Initialize. destruct (sum_weights 0 weights) as [total|]; [|by intros [= <- <- <-]].
  case_decide; [by intros [= <- <- <-]|].
  destruct (if decide (total > 0) then _ else _) as [[samples g1]|] eqn:Er; [|done]. simpl.
  destruct (wb_loop _ _ _ _ _ _ _ _) as [[chosen samplers]|] eqn:El; [|done]. simpl.
  intros [= <- <- <-]. split.
  - intros p. case_decide; [|by simplify_eq]. eapply redraw_ready; [|exact Er]. lia.
  - intros Hn. destruct chosen as [k|]; [by exists samples, k, samplers|].
    by rewrite decide_True in Hn.
Qed.

#[export] Instance weightedBest_laws : WeightedLaws R weightedBest.
Proof.
  refine {| W_ready := λ weights s, picks_when_returns weights (λ v, wb_Sample fuel v s) |}; simpl.
  - intros weights s g s' g' Hw E.
    destruct (wb_Initialize_inv _ _ _ _ _ _ E) as [_ Hok].
    destruct (Hok eq_refl) as (samples&k&samplers&El&->).
    apply wb_loop_chosen in El as [?|(j&a&a'&E1&Hj&Ha)]; [done|]. simplify_eq.
    apply (any_picks weights a a') in Ha as (o&Hp&Ho); [|done]. exists o. split; [done|].
    intros v r Hv. unfold wb_Sample. cbn. rewrite Hj. simpl. apply Ho. done.
  - intros weights s g err s' g' p E. apply wb_Initialize_inv in E as [Hg _]. apply Hg.
  - done.
Defined.
End instances.

(** C22: the linear, the heap and the array sampler accept a list of weights exactly
    when their sum fits 64 bits, the uniform sampler exactly when the sum is moreover
    at most its maximum and [MaxInt32]; none of them panics.  Once initialized, the
    linear, the heap and the uniform sampler answer an index for every value below the
    sum of the weights, as many values for each index as its weight, and an error for
    every other value.  The array sampler, whose search may leave the array or go on
    for ever, answers the same as one such assignment of values to indices whenever
    the search ends, after any number of rounds. *)
Theorem weighted_samplers_fair `{GoSort, GoConv} (weights : list Z) (Hw : weights_ok weights)
    (sl : weightedLinear) (sh : weightedHeap) (su : weightedUniform) (sa : weightedArray) :
  (∃ err sl', wl_Initialize weights sl = (err, sl') ∧
     (err = None ↔ sumZ weights ≤ MaxUint64) ∧
     (err = None → fair weights (λ v, wl_Sample v sl'))) ∧
  (∃ err sh', wh_Initialize weights sh = Some (err, sh') ∧
     (err = None ↔ sumZ weights ≤ MaxUint64) ∧
     (err = None → fair weights (λ v, wh_Sample v sh'))) ∧
  (∃ err su', wu_Initialize weights su = (err, su') ∧
     (err = None ↔ sumZ weights ≤ MaxUint64 ∧ sumZ weights ≤ wu_maxWeight su ∧
                   sumZ weights ≤ MaxInt32) ∧
     (err = None → fair weights (λ v, wu_Sample v su'))) ∧
  (∃ err sa', wa_Initialize weights sa = (err, sa') ∧
     (err = None ↔ sumZ weights ≤ MaxUint64) ∧
     (err = None → ∃ f, fair weights f ∧ ∀ fuel v r, 0 ≤ v → wa_Sample fuel v sa' = Some (Some r) → f v = Some r)).
Proof.
  split_and!.
  - pose proof (wl_Initialize_spec weights sl Hw) as Hs.
    destruct (wl_Initialize weights sl) as [err sl'] eqn:E. exists err, sl'. split; [done|]. split.
    + case_decide; simplify_eq/=; naive_solver.
    + intros ->. apply picks_fair; [done|]. by eapply wl_picks.
  - destruct (wh_Initialize_spec weights sh Hw) as (err&sh'&es&E&Hp&Hs). exists err, sh'.
    split; [done|]. split; [case_decide; naive_solver|].
    intros ->. apply picks_fair; [done|]. by eapply wh_picks.
  - destruct (wu_Initialize weights su) as [err su'] eqn:E. exists err, su'. split; [done|]. split.
    + unfold wu_Initialize in E. rewrite sum_weights_spec in E by done. rewrite Z.add_0_l in E.
      repeat case_decide; simplify_eq/=; naive_solver lia.
    + intros ->. apply picks_fair; [done|]. by eapply wu_picks.
  - pose proof (wa_Initialize_accepts weights sa Hw) as Ha. destruct (wa_Initialize weights sa) as [err sa'] eqn:E. exists err, sa'.
    split; [done|]. split; [exact Ha|]. intros ->. by eapply wa_fair.
Qed.

(** With small weights every search of the array sampler ends. *)
Definition ex_array : weightedArray := (@wa_Initialize go_sort_std [3; 0; 5] (mkWeightedArray [])).2.
Definition ex_ends (v : Z) : bool :=
  match @wa_Sample go_conv_amd64 3 v ex_array with Some (Some _) => true | _ => false end.

Lemma weighted_samplers_fair_witness :
  weights_ok [3; 0; 5] ∧
  (∃ err sh', @wh_Initialize go_sort_std [3; 0; 5] (mkWeightedHeap []) = Some (err, sh') ∧
     (err = None ↔ sumZ [3; 0; 5] ≤ MaxUint64) ∧
     (err = None → fair [3; 0; 5] (λ v, wh_Sample v sh'))) ∧
  ∃ f, fair [3; 0; 5] f ∧ ∀ v, 0 ≤ v < 8 → @wa_Sample go_conv_amd64 3 v ex_array = Some (f v).
Proof.
  split; [by repeat constructor|].
  destruct (@weighted_samplers_fair go_sort_std go_conv_amd64 [3; 0; 5] ltac:(by repeat constructor)
    (mkWeightedLinear []) (mkWeightedHeap []) (mkWeightedUniform [] 1024) (mkWeightedArray [])) as (_&Hh&_&err&sa'&E&Hacc&Ha).
  split; [exact Hh|]. destruct Ha as (f&Hf&Hag); [by apply Hacc|]. exists f. split; [exact Hf|]. intros v Hv.
  assert (sa' = ex_array) as -> by (unfold ex_array; by rewrite E).
  assert (forallb ex_ends (seqZ 0 8) = true) as Hends by (vm_compute; reflexivity).
  rewrite forallb_forall in Hends. specialize (Hends v). unfold ex_ends in Hends.
  destruct (@wa_Sample go_conv_amd64 3 v ex_array) as [[r|]|] eqn:Er.
  - by rewrite (Hag 3%nat v r ltac:(lia) Er).
  - exfalso. by discriminate Hends; apply list_elem_of_In, elem_of_seqZ; lia.
  - exfalso. by discriminate Hends; apply list_elem_of_In, elem_of_seqZ; lia.
Defined.
