(* ===== verification/WithoutReplacement.v ===== *)
(** Sampling without replacement by weight (src/utils/sampler: uniform.go,
    uniform_best.go, weighted_without_replacement.go,
    weighted_without_replacement_generic.go).

    The generic sampler draws distinct values with a uniform sampler and maps
    each to an index with a weighted sampler.  [Uniform] and
    [WithoutReplacement] are the Go interfaces as type classes with their laws;
    the two uniform samplers satisfy the first, and the generic sampler, over
    any lawful uniform and weighted samplers, the second. *)

From S2P Require Import Prelude SafeMath GoStd Sampler WeightedSampler.

(** ** Uniform samplers, the interface *)

(** [Initialize] takes the time [newRNG] reads; none is a panic. *)
Class Uniform (R U : Type) : Type := {
  U_Initialize : Z → Z → U → rngs R → option (option samplerError * U * rngs R);
  U_Reset : U → U;
  U_Next : U → rngs R → option (result samplerError Z * U * rngs R);
  U_Seed : Z → U → rngs R → option (U * rngs R);
  U_ClearSeed : U → U;
}.

(** Every generator in reach before a call still is after it. *)
Definition rng_keeps {R} (g g' : rngs R) : Prop := ∀ p, rng_ready p g → rng_ready p g'.

#[export] Instance rng_keeps_preorder {R} : PreOrder (@rng_keeps R).
Proof. split; [by intros g p|]. intros g1 g2 g3 H1 H2 p Hp. apply H2, H1, Hp. Qed.

(** [U_ready n D u g]: a sampler of range [n] that has answered the numbers [D]
    since it was reset. *)
Class UniformLaws (R U : Type) `{Uniform R U} := {
  U_ready : Z → list Z → U → rngs R → Prop;
  U_Initialize_ready seed n u g u' g' :
    0 ≤ n → U_Initialize seed n u g = Some (None, u', g') → U_ready n [] u' g' ∧ n ≤ MaxInt64;
  U_Reset_ready n D u g : U_ready n D u g → U_ready n [] (U_Reset u) g;
  U_Next_ready n D u g r u' g' :
    U_ready n D u g → U_Next u g = Some (r, u', g') →
    r = Err errOutOfRange ∧ n ≤ Z.of_nat (length D) ∧ U_ready n D u' g' ∨
    ∃ x, r = Ok x ∧ 0 ≤ x < n ∧ x ∉ D ∧ U_ready n (x :: D) u' g';
  U_ready_keeps n D u g g' : U_ready n D u g → rng_keeps g g' → U_ready n D u g';
}.

Section uniform.
Context {R : Type} `{!Rng R}.
Implicit Types g : rngs R.

#[export] Instance replacer_Uniform : Uniform R uniformReplacer := {|
  U_Initialize := λ seed n u g, Some (ur_Initialize seed n u g);
  U_Reset := ur_Reset;
  U_Next := ur_Next;
  U_Seed := ur_Seed;
  U_ClearSeed := ur_ClearSeed;
|}.

Definition replacer_ready (n : Z) (D : list Z) (u : uniformReplacer) (g : rngs R) : Prop :=
  ur_length u = n ∧ rng_ready (ur_rng u) g ∧ 0 ≤ ur_drawsCount u ≤ n ∧
  D ++ ur_remaining u ≡ₚ seqZ 0 n.

Lemma replacer_ready_reset n u g :
  0 ≤ n → ur_length u = n → rng_ready (ur_rng u) g → replacer_ready n [] (ur_Reset u) g.
Proof.
  intros Hn <- Hr. split_and!; [done|done|simpl; lia..|].
  by rewrite ur_remaining_Reset.
Qed.

#[export] Instance replacer_laws : UniformLaws R uniformReplacer.
Proof.
  refine {| U_ready := replacer_ready |}; simpl.
  - intros seed n u g u' g' Hn. unfold ur_Initialize. case_decide; [done|]. intros [= <- <-].
    split; [|lia]. by apply (replacer_ready_reset n (mkUniformReplacer rngGlobal n ∅ 0)).
  - intros n D u g (Hl&Hr&Hc&_). apply replacer_ready_reset; [lia|done|done].
  - intros n D u g r u' g' (Hl&Hr&Hc&Hp) E.
    pose proof (Permutation_length Hp) as Hlen.
    pose proof (length_ur_remaining u) as Hrl. rewrite length_app, length_seqZ in Hlen.
    destruct (decide (ur_length u ≤ ur_drawsCount u)) as [Hle|Hlt].
    { unfold ur_Next in E. rewrite decide_True in E by done. simplify_eq. left.
      split_and!; done || lia. }
    destruct (Int63n_ready (ur_rng u) (ur_length u - ur_drawsCount u) g Hr) as (x&g1&Hi&Hx&Hr1); [lia|].
    destruct (ur_Next_step u g x g1) as (u1&Hn&Hrem&E1&E2&E3); [lia|done|done|].
    rewrite E in Hn. simplify_eq. right. eexists. split; [done|].
    assert (0 ≤ x < Z.of_nat (length (ur_remaining u))) as Hxl by (rewrite Hrl; lia).
    rewrite (swap_remove_perm x _ Hxl), <-Hrem in Hp.
    set (y := ur_remaining u !!! Z.to_nat x) in *.
    assert (y ∈ D ++ y :: ur_remaining u1) as Hy by (apply elem_of_app; right; left).
    assert (NoDup (D ++ y :: ur_remaining u1)) as Hnd by (rewrite Hp; apply NoDup_seqZ).
    rewrite Hp in Hy. apply elem_of_seqZ in Hy.
    apply NoDup_app in Hnd as (_&Hnd&_). split; [lia|]. split.
    + intros Hyd. eapply Hnd; [done|left].
    + split_and!; [by rewrite E2|by rewrite E1|lia..|].
      rewrite <-Hp. apply Permutation_middle.
  - intros n D u g g' (Hl&Hr&Hc&Hp) Hk. split_and!; try done; [by apply Hk|lia|lia].
Defined.

(** The resampler, followed for [fuel] draws in each call of [Next]. *)
Variable fuel : nat.

#[export] Instance resample_Uniform : Uniform R uniformResample := {|
  U_Initialize := λ seed n u g, Some (us_Initialize seed n u g);
  U_Reset := us_Reset;
  U_Next := us_Next fuel;
  U_Seed := us_Seed;
  U_ClearSeed := us_ClearSeed;
|}.

Definition resample_ready (n : Z) (D : list Z) (u : uniformResample) (g : rngs R) : Prop :=
  us_length u = n ∧ rng_ready (us_rng u) g ∧ NoDup D ∧ us_drawn u = list_to_set D.

#[export] Instance resample_laws : UniformLaws R uniformResample.
Proof.
  refine {| U_ready := resample_ready |}; simpl.
  - intros seed n u g u' g' Hn. unfold us_Initialize. case_decide; [done|]. intros [= <- <-].
    split; [|lia]. split_and!; [done|done|constructor|done].
  - intros n D u g (Hl&Hr&_&_). split_and!; [done|done|constructor|done].
  - intros n D u g r u' g' (Hl&Hr&Hnd&Hd) E. unfold us_Next in E.
    assert (size (us_drawn u) = length D) as Hs by (rewrite Hd; by apply size_list_to_set).
    rewrite Hs in E. case_decide as Hn.
    { simplify_eq. left. by split_and!. }
    destruct (us_Next_loop fuel u g) as [[[x u1] g1]|] eqn:El; [|done]. simplify_eq. right.
    apply us_Next_loop_sound in El as (Hx&Hxd&Hr1&->); [|done|lia].
    assert (x ∉ D) by (rewrite Hd, elem_of_list_to_set in Hxd; done).
    exists x. split_and!; [done|lia|lia|done|]. split_and!; [done|done|by constructor|]. simpl. by rewrite Hd.
  - intros n D u g g' (Hl&Hr&Hnd&Hd) Hk. split_and!; try done. by apply Hk.
Defined.
End uniform.

(** ** The generic sampler *)

Record weightedWithoutReplacementGeneric (U W : Type) := mkGeneric { wwr_u : U; wwr_w : W }.
Arguments mkGeneric {U W} wwr_u wwr_w.
Arguments wwr_u {U W} w.
Arguments wwr_w {U W} w.

Section generic.
Context {R U W : Type} `{HU : Uniform R U, HW : Weighted R W}.
Implicit Types (s : weightedWithoutReplacementGeneric U W) (g : rngs R).

Definition wwr_Initialize (seed : Z) (weights : list Z) s g
  : option (option samplerError * weightedWithoutReplacementGeneric U W * rngs R) :=
  match sum_weights 0 weights with
  | Err e => Some (Some (errMath e), s, g)
  | Ok totalWeight =>
      '(err, u, g) ← U_Initialize seed totalWeight (wwr_u s) g;
      match err with
      | Some e => Some (Some e, mkGeneric u (wwr_w s), g)
      | None =>
          '(err, w, g) ← W_Initialize weights (wwr_w s) g;
          Some (err, mkGeneric u w, g)
      end
  end.

Fixpoint wwr_Sample_loop (count : nat) (u : U) (w : W) g
  : option (result samplerError (list nat) * U * rngs R) :=
  match count with
  | O => Some (Ok [], u, g)
  | S count =>
      '(weight, u, g) ← U_Next u g;
      match weight with
      | Err e => Some (Err e, u, g)
      | Ok weight =>
          index ← W_Sample weight w;
          match index with
          | Err e => Some (Err e, u, g)
          | Ok index =>
              '(rest, u, g) ← wwr_Sample_loop count u w g;
              match rest with
              | Err e => Some (Err e, u, g)
              | Ok indices => Some (Ok (index :: indices), u, g)
              end
          end
      end
  end.

Definition wwr_Sample (count : nat) s g
  : option (result samplerError (list nat) * weightedWithoutReplacementGeneric U W * rngs R) :=
  '(r, u, g) ← wwr_Sample_loop count (U_Reset (wwr_u s)) (wwr_w s) g;
  Some (r, mkGeneric u (wwr_w s), g).

Definition wwr_Seed (seed : Z) s g
  : option (weightedWithoutReplacementGeneric U W * rngs R) :=
  '(u, g) ← U_Seed seed (wwr_u s) g; Some (mkGeneric u (wwr_w s), g).

Definition wwr_ClearSeed s : weightedWithoutReplacementGeneric U W :=
  mkGeneric (U_ClearSeed (wwr_u s)) (wwr_w s).
End generic.

(** ** Sampling without replacement, the interface *)

Class WithoutReplacement (R S : Type) : Type := {
  S_Initialize : Z → list Z → S → rngs R → option (option samplerError * S * rngs R);
  S_Sample : nat → S → rngs R → option (result samplerError (list nat) * S * rngs R);
}.

(** The number of times an index occurs in a sample. *)
Definition occurrences (i : nat) (indices : list nat) : nat := length (filter (λ j, j = i) indices).

(** A sample of [count] indices drawn without replacement from [weights]. *)
Definition drawn_from (weights : list Z) (count : nat) (indices : list nat) : Prop :=
  length indices = count ∧
  ∀ i, i ∈ indices → ∃ w, weights !! i = Some w ∧ 0 < Z.of_nat (occurrences i indices) ≤ w.

Class WithoutReplacementLaws (R S : Type) `{WithoutReplacement R S} := {
  S_ready : list Z → S → rngs R → Prop;
  S_Initialize_ready seed weights s g s' g' :
    weights_ok weights → S_Initialize seed weights s g = Some (None, s', g') → S_ready weights s' g';
  S_Sample_drawn weights s g count r s' g' :
    weights_ok weights → S_ready weights s g → S_Sample count s g = Some (r, s', g') →
    S_ready weights s' g' ∧
    (r = Err errOutOfRange ∧ sumZ weights < Z.of_nat count ∨
     ∃ indices, r = Ok indices ∧ drawn_from weights count indices);
}.

#[export] Instance generic_WithoutReplacement {R U W} `{Uniform R U, Weighted R W} :
  WithoutReplacement R (weightedWithoutReplacementGeneric U W) :=
  {| S_Initialize := wwr_Initialize; S_Sample := wwr_Sample |}.

Section laws.
Context {R U W : Type} `{UL : UniformLaws R U, WL : WeightedLaws R W}.
Implicit Types (s : weightedWithoutReplacementGeneric U W) (g : rngs R).

(** The values drawn and the indices they pick. *)
Lemma wwr_Sample_loop_spec weights o count n D u w g r u' g' :
  U_ready n D u g → n = sumZ weights →
  (∀ v r, 0 ≤ v → W_Sample v w = Some r →
     (n ≤ v → r = Err errOutOfRange) ∧ (v < n → Some r = Ok <$> pick o v)) →
  wwr_Sample_loop count u w g = Some (r, u', g') →
  ∃ D', U_ready n D' u' g' ∧
    (r = Err errOutOfRange ∧ n < Z.of_nat (length D + count) ∨
     ∃ values indices, r = Ok indices ∧ length indices = count ∧ NoDup values ∧
       (∀ v, v ∈ values → 0 ≤ v < n ∧ v ∉ D) ∧
       Forall2 (λ v i, pick o v = Some i) values indices).
Proof.
  intros Hu Hn Hw. revert D u g r u' g' Hu.
  induction count as [|count IH]; intros D u g r u' g' Hu; cbn [wwr_Sample_loop].
  { intros [= <- <- <-]. exists D. split; [done|]. right. exists [], [].
    split_and!; [done|done|constructor| |constructor]. by intros v Hv%elem_of_nil. }
  destruct (U_Next u g) as [[[r1 u1] g1]|] eqn:En; [|done]. simpl.
  destruct (U_Next_ready _ _ _ _ _ _ _ Hu En) as [(->&Hle&Hu1)|(x&->&Hx&Hxd&Hu1)].
  { intros [= <- <- <-]. exists D. split; [done|]. left. split; [done|lia]. }
  destruct (W_Sample x w) as [ri|] eqn:Ew; [|done]. simpl.
  destruct (Hw x ri ltac:(lia) Ew) as [_ Hpick]. specialize (Hpick ltac:(lia)).
  destruct (pick o x) as [i|] eqn:Ep; simplify_eq/=.
  destruct (wwr_Sample_loop count u1 w g1) as [[[r2 u2] g2]|] eqn:El; [|done]. simpl.
  destruct (IH _ _ _ _ _ _ Hu1 El) as (D'&Hu2&[[-> Hlt]|(values&indices&->&Hlen&Hnd&Hin&Hf)]).
  - intros [= <- <- <-]. exists D'. split; [done|]. left. simpl in Hlt. split; [done|lia].
  - intros [= <- <- <-]. exists D'. split; [done|]. right. exists (x :: values), (i :: indices).
    split_and!; [done|simpl; lia| | |by constructor].
    + constructor; [|done]. intros Hxv. apply Hin in Hxv as [_ Hxv]. apply Hxv. left.
    + intros v [->|Hv]%elem_of_cons; [done|]. apply Hin in Hv as [? Hv]. split; [done|].
      intros ?. apply Hv. by right.
Qed.

(** Distinct values pick an index at most as often as its weight. *)
Lemma picked_occurrences weights o values indices i :
  weights_ok weights → o ≡ₚ entries weights → NoDup values →
  (∀ v, v ∈ values → 0 ≤ v < sumZ weights) →
  Forall2 (λ v i, pick o v = Some i) values indices → i ∈ indices →
  ∃ w, weights !! i = Some w ∧ 0 < Z.of_nat (occurrences i indices) ≤ w.
Proof.
  intros Hw Hp Hnd Hr Hf Hi.
  assert (occurrences i indices = length (filter (λ v, pick o v = Some i) values)) as Hocc.
  { clear Hi Hnd Hr. unfold occurrences. induction Hf as [|v j values indices Hv Hf IH]; [done|].
    rewrite !filter_cons. destruct (decide (j = i)) as [->|Hj].
    - rewrite decide_True by done. simpl. by f_equal.
    - by rewrite decide_False by congruence. }
  assert (∃ v, v ∈ values ∧ pick o v = Some i) as (v&Hv&Hpv).
  { apply list_elem_of_lookup in Hi as [k Hk].
    destruct (Forall2_lookup_r _ _ _ _ _ Hf Hk) as (v&Hv&?). exists v.
    split; [by eapply list_elem_of_lookup_2|done]. }
  assert (total_of o = sumZ weights) as Ht by by apply order_total.
  destruct (pick_total o v) as (j&w&Epick&Hj); [rewrite Ht; auto|].
  rewrite Hpv in Epick. simplify_eq. rewrite Hp in Hj. apply entries_index in Hj.
  exists w. split; [done|]. rewrite Hocc.
  assert (v ∈ filter (λ v, pick o v = Some j) values) as Hvf by by apply list_elem_of_filter.
  split; [destruct (filter _ _); [by apply elem_of_nil in Hvf|simpl; lia]|].
  pose proof (entries_ok weights o Hw Hp) as Hok.
  rewrite <-(entries_filter _ _ _ Hj), <-Hp, <-pick_count by done. rewrite Ht.
  apply inj_le, submseteq_length, NoDup_submseteq; [by apply NoDup_filter|].
  intros y [Hy1 Hy2]%list_elem_of_filter. apply list_elem_of_filter. split; [done|].
  apply elem_of_seqZ. apply Hr in Hy2. lia.
Qed.

#[export] Instance generic_laws : WithoutReplacementLaws R (weightedWithoutReplacementGeneric U W).
Proof.
  refine {| S_ready := λ weights s g,
    (∃ D, U_ready (sumZ weights) D (wwr_u s) g) ∧ W_ready weights (wwr_w s) |}; simpl.
  - intros seed weights s g s' g' Hw. unfold wwr_Initialize.
    rewrite sum_weights_spec by done. pose proof (sumZ_nonneg _ (weights_nonneg _ Hw)).
    case_decide; [|done]. rewrite Z.add_0_l.
    destruct (U_Initialize seed (sumZ weights) (wwr_u s) g) as [[[err u] g1]|] eqn:Eu; [|done].
    simpl. destruct err as [e|]; [done|].
    destruct (W_Initialize weights (wwr_w s) g1) as [[[err w] g2]|] eqn:Ew; [|done]. simpl.
    intros [= -> <- <-]. apply U_Initialize_ready in Eu as [Hu _]; [|done]. split.
    + exists []. eapply U_ready_keeps; [done|]. intros p. by eapply W_Initialize_rng.
    + by eapply W_Initialize_ready.
  - intros weights s g count r s' g' Hw [[D Hu] Hwr] E. unfold wwr_Sample in E.
    destruct (wwr_Sample_loop _ _ _ _) as [[[r1 u1] g1]|] eqn:El; [|done]. simplify_eq/=.
    destruct (W_Sample_picks _ _ Hwr) as (o&Hp&Ho).
    apply U_Reset_ready in Hu.
    destruct (wwr_Sample_loop_spec weights o _ _ _ _ _ _ _ _ _ Hu eq_refl Ho El)
      as (D'&Hu'&Hr). split; [by eauto|].
    destruct Hr as [[-> Hlt]|(values&indices&->&Hlen&Hnd&Hin&Hf)]; [by left|right].
    exists indices. split; [done|]. split; [done|]. intros i Hi.
    eapply picked_occurrences; [done|exact Hp|exact Hnd| |exact Hf|done].
    intros v Hv. by apply Hin.
Defined.
End laws.
