(* ===== verification/Validators.v ===== *)
(** Sets of validators (src/snow/validators: validator.go, set.go).

    A [set] keeps the validators in parallel slices, with an index of each node
    into them, the weights they can be sampled with (zero for a masked
    validator) and the total of those.  The sampler is the interface
    [WithoutReplacement].  The calls of the listeners are the last component of
    what an operation returns.

    A validator is stored behind a pointer that [Get], [List] and [Sample] hand
    out: here they return its value at the time of the call. *)

From S2P Require Import Prelude SafeMath Ids NodeBag GoStd Sampler WeightedSampler.
From S2P Require Import WithoutReplacement.
From Stdlib Require Import Strings.Byte.

(** ** Validators *)

Record validator := mkValidator { vdr_nodeID : NodeID; vdr_weight : Z }.

#[export] Instance validator_eq_dec : EqDecision validator.
Proof. solve_decision. Defined.

Definition vdr_addWeight (v : validator) (weight : Z) : validator :=
  mkValidator (vdr_nodeID v)
    (match Add64 weight (vdr_weight v) with Ok w => w | Err _ => MaxUint64 end).

Definition vdr_removeWeight (v : validator) (weight : Z) : validator :=
  mkValidator (vdr_nodeID v)
    (match Sub64 (vdr_weight v) weight with Ok w => w | Err _ => 0 end).

(** ** Sets *)

(** The methods of [SetCallbackListener]. *)
Inductive vevent :=
| OnValidatorAdded (validatorID : NodeID) (weight : Z)
| OnValidatorRemoved (validatorID : NodeID) (weight : Z)
| OnValidatorWeightChanged (validatorID : NodeID) (oldWeight newWeight : Z).

Inductive validators_error :=
| errWeight (e : math_error)
| errSampler (e : samplerError).

Record vset (L S : Type) := mkVset {
  vs_initialized : bool;
  vdrMap : gmap NodeID nat;
  vdrSlice : list validator;
  vdrWeights : list Z;
  vdrMaskedWeights : list Z;
  vs_sampler : S;
  vs_totalWeight : Z;
  maskedVdrs : gset NodeID;
  callbackListeners : list L;
}.
Arguments mkVset {L S}.
Arguments vs_initialized {L S}.
Arguments vdrMap {L S}.
Arguments vdrSlice {L S}.
Arguments vdrWeights {L S}.
Arguments vdrMaskedWeights {L S}.
Arguments vs_sampler {L S}.
Arguments vs_totalWeight {L S}.
Arguments maskedVdrs {L S}.
Arguments callbackListeners {L S}.

Section vset.
Context {R L Sm : Type} `{!Rng R, !WithoutReplacement R Sm, !GoRange}.
Abbreviation set := (vset L Sm).
Implicit Types s : set.

(** The empty set over a new sampler. *)
Definition NewSet (sampler : Sm) : set := mkVset false ∅ [] [] [] sampler 0 ∅ [].

(** The calls of every listener, in the order they registered. *)
Definition callCallbacks (s : set) (e : vevent) : list (L * vevent) :=
  (λ l, (l, e)) <$> callbackListeners s.

Definition vs_contains (s : set) (vdrID : NodeID) : bool :=
  match vdrMap s !! vdrID with Some _ => true | None => false end.

(** The first loop of [set]: nodes that are added or get another weight; with
    the nodes of the result.  None is an index out of range, here and below. *)
Fixpoint set_changes (s : set) (nodesInResultSet : gset NodeID) (vdrs : list validator)
  : option (list (L * vevent) * gset NodeID) :=
  match vdrs with
  | [] => Some ([], nodesInResultSet)
  | vdr :: vdrs =>
      let vdrID := vdr_nodeID vdr in
      if decide (vdrID ∈ nodesInResultSet) then set_changes s nodesInResultSet vdrs
      else
        '(calls, nodes) ← set_changes s ({[vdrID]} ∪ nodesInResultSet) vdrs;
        match vdrMap s !! vdrID with
        | None => Some (callCallbacks s (OnValidatorAdded vdrID (vdr_weight vdr)) ++ calls, nodes)
        | Some index =>
            existingWeight ← vdrWeights s !! index;
            if decide (existingWeight = vdr_weight vdr) then Some (calls, nodes)
            else Some (callCallbacks s
                   (OnValidatorWeightChanged vdrID existingWeight (vdr_weight vdr)) ++ calls, nodes)
        end
  end.

(** The second loop: nodes that are removed. *)
Fixpoint set_removals (s : set) (nodesInResultSet : gset NodeID) (nodes : list (NodeID * nat))
  : option (list (L * vevent)) :=
  match nodes with
  | [] => Some []
  | (nodeID, index) :: nodes =>
      calls ← set_removals s nodesInResultSet nodes;
      if decide (nodeID ∈ nodesInResultSet) then Some calls
      else w ← vdrWeights s !! index; Some (callCallbacks s (OnValidatorRemoved nodeID w) ++ calls)
  end.

(** The third loop. *)
Fixpoint set_add (s : set) (vdrs : list validator) : option math_error * set :=
  match vdrs with
  | [] => (None, s)
  | vdr :: vdrs =>
      let vdrID := vdr_nodeID vdr in
      let w := vdr_weight vdr in
      if vs_contains s vdrID then set_add s vdrs
      else if decide (w = 0) then set_add s vdrs
      else
        let add masked total :=
          mkVset (vs_initialized s) (<[vdrID := length (vdrSlice s)]> (vdrMap s))
            (vdrSlice s ++ [mkValidator vdrID w]) (vdrWeights s ++ [w])
            (vdrMaskedWeights s ++ [masked]) (vs_sampler s) total (maskedVdrs s)
            (callbackListeners s) in
        if decide (vdrID ∈ maskedVdrs s) then set_add (add 0 (vs_totalWeight s)) vdrs
        else
          match Add64 (vs_totalWeight s) w with
          | Err e => (Some e, add w (vs_totalWeight s))
          | Ok newTotalWeight => set_add (add w newTotalWeight) vdrs
          end
  end.

Definition vs_Set (vdrs : list validator) (s : set)
  : option (option math_error * set * list (L * vevent)) :=
  '(calls1, nodes) ← set_changes s ∅ vdrs;
  calls2 ← set_removals s nodes (go_range (vdrMap s));
  let '(err, s) :=
    set_add (mkVset false ∅ [] [] [] (vs_sampler s) 0 (maskedVdrs s) (callbackListeners s)) vdrs in
  Some (err, s, calls1 ++ calls2).

(** The total weight stays as it is, without an error, when it overflows. *)
Definition vs_addWeight (vdrID : NodeID) (weight : Z) (s : set)
  : option (option math_error * set * list (L * vevent)) :=
  let nodeExists := vs_contains s vdrID in
  let i := default (length (vdrSlice s)) (vdrMap s !! vdrID) in
  let s1 :=
    if nodeExists then s
    else mkVset (vs_initialized s) (<[vdrID := i]> (vdrMap s))
           (vdrSlice s ++ [mkValidator vdrID 0]) (vdrWeights s ++ [0])
           (vdrMaskedWeights s ++ [0]) (vs_sampler s) (vs_totalWeight s) (maskedVdrs s)
           (callbackListeners s) in
  vdr ← vdrSlice s1 !! i;
  oldWeight ← vdrWeights s1 !! i;
  let vdr := vdr_addWeight vdr weight in
  let calls :=
    if nodeExists then callCallbacks s (OnValidatorWeightChanged vdrID oldWeight (vdr_weight vdr))
    else callCallbacks s (OnValidatorAdded vdrID weight) in
  let upd initialized masked total :=
    mkVset initialized (vdrMap s1) (<[i := vdr]> (vdrSlice s1))
      (<[i := wrap64 (oldWeight + weight)]> (vdrWeights s1)) masked (vs_sampler s1) total
      (maskedVdrs s1) (callbackListeners s1) in
  if decide (vdrID ∈ maskedVdrs s1)
  then Some (None, upd (vs_initialized s1) (vdrMaskedWeights s1) (vs_totalWeight s1), calls)
  else
    oldMasked ← vdrMaskedWeights s1 !! i;
    let masked := <[i := wrap64 (oldMasked + weight)]> (vdrMaskedWeights s1) in
    match Add64 (vs_totalWeight s1) weight with
    | Err _ => Some (None, upd (vs_initialized s1) masked (vs_totalWeight s1), calls)
    | Ok newTotalWeight => Some (None, upd false masked newTotalWeight, calls)
    end.

Definition vs_AddWeight (vdrID : NodeID) (weight : Z) (s : set)
  : option (option math_error * set * list (L * vevent)) :=
  if decide (weight = 0) then Some (None, s, []) else vs_addWeight vdrID weight s.

Definition vs_GetWeight (vdrID : NodeID) (s : set) : option (Z * bool) :=
  match vdrMap s !! vdrID with
  | Some index => w ← vdrMaskedWeights s !! index; Some (w, true)
  | None => Some (0, false)
  end.

(** The loop of [SubsetWeight]. *)
Fixpoint subset_weight (totalWeight : Z) (subset : list NodeID) (s : set)
  : option (result math_error Z) :=
  match subset with
  | [] => Some (Ok totalWeight)
  | vdrID :: subset =>
      '(weight, ok) ← vs_GetWeight vdrID s;
      if ok : bool then
        match Add64 totalWeight weight with
        | Err e => Some (Err e)
        | Ok newWeight => subset_weight newWeight subset s
        end
      else subset_weight totalWeight subset s
  end.

Definition vs_SubsetWeight (subset : gmap NodeID ()) (s : set) : option (result math_error Z) :=
  subset_weight 0 (go_range subset).*1 s.

Definition vs_remove (vdrID : NodeID) (s : set) : option (option math_error * set) :=
  match vdrMap s !! vdrID with
  | None => Some (None, s)
  | Some i =>
      let e := pred (length (vdrSlice s)) in
      eVdr ← vdrSlice s !! e;
      iElem ← vdrSlice s !! i;
      eWeight ← vdrWeights s !! e;
      eMasked ← vdrMaskedWeights s !! e;
      let removed initialized total :=
        mkVset initialized (delete vdrID (<[vdr_nodeID eVdr := i]> (vdrMap s)))
          (take e (<[i := eVdr]> (vdrSlice s))) (take e (<[i := eWeight]> (vdrWeights s)))
          (take e (<[i := eMasked]> (vdrMaskedWeights s))) (vs_sampler s) total (maskedVdrs s)
          (callbackListeners s) in
      if decide (vdrID ∈ maskedVdrs s) then Some (None, removed false (vs_totalWeight s))
      else
        match Sub64 (vs_totalWeight s) (vdr_weight iElem) with
        | Err err => Some (Some err, removed (vs_initialized s) (vs_totalWeight s))
        | Ok newTotalWeight => Some (None, removed false newTotalWeight)
        end
  end.

Definition vs_removeWeight (vdrID : NodeID) (weight : Z) (s : set)
  : option (option math_error * set * list (L * vevent)) :=
  match vdrMap s !! vdrID with
  | None => Some (None, s, [])
  | Some i =>
      vdr ← vdrSlice s !! i;
      oldWeight ← vdrWeights s !! i;
      oldMasked ← vdrMaskedWeights s !! i;
      let weight := Min64 oldWeight [weight] in
      let vdr := vdr_removeWeight vdr weight in
      let '(masked, total) :=
        if decide (vdrID ∈ maskedVdrs s) then (vdrMaskedWeights s, vs_totalWeight s)
        else (<[i := wrap64 (oldMasked - weight)]> (vdrMaskedWeights s),
              wrap64 (vs_totalWeight s - weight)) in
      let s1 :=
        mkVset (vs_initialized s) (vdrMap s) (<[i := vdr]> (vdrSlice s))
          (<[i := wrap64 (oldWeight - weight)]> (vdrWeights s)) masked (vs_sampler s) total
          (maskedVdrs s) (callbackListeners s) in
      let uninit s :=
        mkVset false (vdrMap s) (vdrSlice s) (vdrWeights s) (vdrMaskedWeights s) (vs_sampler s)
          (vs_totalWeight s) (maskedVdrs s) (callbackListeners s) in
      if decide (vdr_weight vdr = 0)
      then
        let calls := callCallbacks s (OnValidatorRemoved vdrID oldWeight) in
        '(err, s2) ← vs_remove vdrID s1;
        match err with
        | Some e => Some (Some e, s2, calls)
        | None => Some (None, uninit s2, calls)
        end
      else
        Some (None, uninit s1,
              callCallbacks s (OnValidatorWeightChanged vdrID oldWeight (vdr_weight vdr)))
  end.

Definition vs_RemoveWeight (vdrID : NodeID) (weight : Z) (s : set)
  : option (option math_error * set * list (L * vevent)) :=
  if decide (weight = 0) then Some (None, s, []) else vs_removeWeight vdrID weight s.

Definition vs_Get (vdrID : NodeID) (s : set) : option (option validator) :=
  match vdrMap s !! vdrID with
  | None => Some None
  | Some index => v ← vdrSlice s !! index; Some (Some v)
  end.

Definition vs_Len (s : set) : Z := Z.of_nat (length (vdrSlice s)).
Definition vs_List (s : set) : list validator := vdrSlice s.
Definition vs_Weight (s : set) : Z := vs_totalWeight s.

(** [seed] is the time a new generator is seeded with. *)
Definition vs_Sample (seed : Z) (size : nat) (s : set) (g : rngs R)
  : option (result validators_error (list validator) * set * rngs R) :=
  if decide (size = 0%nat) then Some (Ok [], s, g)
  else
    let with_sampler initialized sampler :=
      mkVset initialized (vdrMap s) (vdrSlice s) (vdrWeights s) (vdrMaskedWeights s) sampler
        (vs_totalWeight s) (maskedVdrs s) (callbackListeners s) in
    '(err, sampler, g) ←
      (if vs_initialized s then Some (None, vs_sampler s, g)
       else S_Initialize seed (vdrMaskedWeights s) (vs_sampler s) g);
    match err with
    | Some e => Some (Err (errSampler e), with_sampler false sampler, g)
    | None =>
        '(r, sampler, g) ← S_Sample size sampler g;
        match r with
        | Err e => Some (Err (errSampler e), with_sampler true sampler, g)
        | Ok indices =>
            vdrs ← mapM (λ index, vdrSlice s !! index) indices;
            Some (Ok vdrs, with_sampler true sampler, g)
        end
    end.

Definition vs_MaskValidator (vdrID : NodeID) (s : set) : option set :=
  if decide (vdrID ∈ maskedVdrs s) then Some s
  else
    let maskedVdrs' := {[vdrID]} ∪ maskedVdrs s in
    match vdrMap s !! vdrID with
    | None =>
        Some (mkVset (vs_initialized s) (vdrMap s) (vdrSlice s) (vdrWeights s) (vdrMaskedWeights s)
          (vs_sampler s) (vs_totalWeight s) maskedVdrs' (callbackListeners s))
    | Some i =>
        w ← vdrWeights s !! i;
        _ ← vdrMaskedWeights s !! i;
        Some (mkVset false (vdrMap s) (vdrSlice s) (vdrWeights s) (<[i := 0]> (vdrMaskedWeights s))
          (vs_sampler s) (wrap64 (vs_totalWeight s - w)) maskedVdrs' (callbackListeners s))
    end.

Definition vs_RevealValidator (vdrID : NodeID) (s : set) : option (option math_error * set) :=
  if decide (vdrID ∉ maskedVdrs s) then Some (None, s)
  else
    let maskedVdrs' := maskedVdrs s ∖ {[vdrID]} in
    let upd initialized masked total :=
      mkVset initialized (vdrMap s) (vdrSlice s) (vdrWeights s) masked (vs_sampler s) total
        maskedVdrs' (callbackListeners s) in
    match vdrMap s !! vdrID with
    | None => Some (None, upd (vs_initialized s) (vdrMaskedWeights s) (vs_totalWeight s))
    | Some i =>
        weight ← vdrWeights s !! i;
        _ ← vdrMaskedWeights s !! i;
        let masked := <[i := weight]> (vdrMaskedWeights s) in
        match Add64 (vs_totalWeight s) weight with
        | Err e => Some (Some e, upd (vs_initialized s) masked (vs_totalWeight s))
        | Ok newTotalWeight => Some (None, upd false masked newTotalWeight)
        end
    end.

Definition vs_RegisterCallbackListener (l : L) (s : set) : option (set * list (L * vevent)) :=
  let s1 := mkVset (vs_initialized s) (vdrMap s) (vdrSlice s) (vdrWeights s) (vdrMaskedWeights s)
              (vs_sampler s) (vs_totalWeight s) (maskedVdrs s) (callbackListeners s ++ [l]) in
  calls ← mapM (λ '(node, index), w ← vdrWeights s !! index; Some (l, OnValidatorAdded node w))
            (go_range (vdrMap s));
  Some (s1, calls).
End vset.

(** ** The abstract set: the weights of the validators and the masked nodes *)

Definition pairing (v : validator) : NodeID * Z := (vdr_nodeID v, vdr_weight v).

(** The weight a validator can be sampled with. *)
Definition sampleable (masked : gset NodeID) (id : NodeID) (w : Z) : Z :=
  if decide (id ∈ masked) then 0 else w.

Definition spec_total (m : gmap NodeID Z) (masked : gset NodeID) : Z :=
  map_total (map_imap (λ id w, Some (sampleable masked id w)) m).

(** What [Set] makes of a list of validators: the first weight given for a node
    that is not zero. *)
Fixpoint set_weights (m : gmap NodeID Z) (vdrs : list validator) : gmap NodeID Z :=
  match vdrs with
  | [] => m
  | v :: vdrs =>
      if decide (is_Some (m !! vdr_nodeID v) ∨ vdr_weight v = 0) then set_weights m vdrs
      else set_weights (<[vdr_nodeID v := vdr_weight v]> m) vdrs
  end.

Section rep.
Context {R L Sm : Type} `{!Rng R, HW : WithoutReplacement R Sm, HL : !WithoutReplacementLaws R Sm, !GoRange}.
Abbreviation set := (vset L Sm).
Implicit Types s : set.

(** [vs_rep s g m]: the set [s], with the sources of randomness [g], holds the
    validators [m]. *)
Record vs_rep (s : set) (g : rngs R) (m : gmap NodeID Z) : Prop := {
  rep_perm : pairing <$> vdrSlice s ≡ₚ map_to_list m;
  rep_index id i : vdrMap s !! id = Some i ↔ ∃ v, vdrSlice s !! i = Some v ∧ vdr_nodeID v = id;
  rep_weights : vdrWeights s = vdr_weight <$> vdrSlice s;
  rep_masked : vdrMaskedWeights s =
    (λ v, sampleable (maskedVdrs s) (vdr_nodeID v) (vdr_weight v)) <$> vdrSlice s;
  rep_total : vs_totalWeight s = sumZ (vdrMaskedWeights s);
  rep_nonneg : map_Forall (λ _ w, 0 ≤ w) m;
  rep_bound : map_total m ≤ MaxUint64;
  rep_sampler : vs_initialized s = true →
    ∃ ws k, S_ready ws (vs_sampler s) g ∧ vdrMaskedWeights s = ws ++ replicate k 0;
}.

Lemma vs_rep_empty sampler masked listeners g :
  vs_rep (mkVset false ∅ [] [] [] sampler 0 masked listeners) g ∅.
Proof.
  split; try done.
  intros id i. simpl. split; [by rewrite lookup_empty|]. intros (v&Hv&_). by rewrite lookup_nil in Hv.
Qed.

Lemma vs_rep_new sampler g : vs_rep (NewSet sampler) g ∅.
Proof. apply vs_rep_empty. Qed.

Section facts.
Context s g m (Hr : vs_rep s g m).

Lemma vrep_elem v : v ∈ vdrSlice s → m !! vdr_nodeID v = Some (vdr_weight v).
Proof.
  intros Hv. apply elem_of_map_to_list.
  assert (pairing v ∈ pairing <$> vdrSlice s) as Hp by by apply list_elem_of_fmap_2.
  by rewrite (rep_perm _ _ _ Hr) in Hp.
Qed.

Lemma rep_lookup id w :
  m !! id = Some w ↔
  ∃ i, vdrMap s !! id = Some i ∧ vdrSlice s !! i = Some (mkValidator id w).
Proof.
  split.
  - intros Hw. apply elem_of_map_to_list in Hw. rewrite <-(rep_perm _ _ _ Hr) in Hw.
    apply list_elem_of_fmap in Hw as ([id' w']&E&Hv). unfold pairing in E. simplify_eq/=.
    apply list_elem_of_lookup in Hv as [i Hi]. exists i. split; [|done].
    apply (rep_index _ _ _ Hr). eauto.
  - intros (i&_&Hi). apply list_elem_of_lookup_2, vrep_elem in Hi. done.
Qed.

Lemma rep_lookup_None id : m !! id = None ↔ vdrMap s !! id = None.
Proof.
  split.
  - intros Hn. destruct (vdrMap s !! id) as [i|] eqn:Hi; [|done].
    apply (rep_index _ _ _ Hr) in Hi as (v&Hv&<-). apply list_elem_of_lookup_2, vrep_elem in Hv. congruence.
  - intros Hn. destruct (m !! id) as [w|] eqn:Hw; [|done]. apply rep_lookup in Hw as (i&Hi&_). congruence.
Qed.

Lemma rep_weight_at i v : vdrSlice s !! i = Some v → vdrWeights s !! i = Some (vdr_weight v).
Proof. intros Hi. rewrite (rep_weights _ _ _ Hr), list_lookup_fmap, Hi. done. Qed.

Lemma rep_masked_at i v :
  vdrSlice s !! i = Some v →
  vdrMaskedWeights s !! i = Some (sampleable (maskedVdrs s) (vdr_nodeID v) (vdr_weight v)).
Proof. intros Hi. rewrite (rep_masked _ _ _ Hr), list_lookup_fmap, Hi. done. Qed.

Lemma rep_sum : sumZ (vdr_weight <$> vdrSlice s) = map_total m.
Proof.
  unfold map_total. rewrite <-(rep_perm _ _ _ Hr), <-list_fmap_compose. done.
Qed.

Lemma rep_weight_range id w : m !! id = Some w → 0 ≤ w ≤ map_total m ∧ is_u64 w.
Proof.
  intros Hw. pose proof (rep_nonneg _ _ _ Hr) as Hp. pose proof (rep_bound _ _ _ Hr).
  assert (w ≤ map_total m) as Hle.
  { by apply (map_total_lookup_le m id). }
  assert (0 ≤ w) by by eapply Hp. unfold is_uint, MaxUint64 in *. lia.
Qed.

Lemma sum_sampleable masked :
  0 ≤ sumZ ((λ v, sampleable masked (vdr_nodeID v) (vdr_weight v)) <$> vdrSlice s) ≤ map_total m.
Proof.
  rewrite <-rep_sum.
  assert (∀ v, v ∈ vdrSlice s → 0 ≤ vdr_weight v) as Hp.
  { intros v Hv%vrep_elem. by apply rep_weight_range in Hv as [[??] _]. }
  revert Hp. generalize (vdrSlice s). induction l as [|v l IH]; intros Hp; csimpl; [rewrite sumZ_nil; lia|].
  rewrite !sumZ_cons. specialize (Hp v ltac:(left)) as Hv.
  destruct IH as [H1 H2]; [intros u Hu; apply Hp; by right|].
  unfold sampleable at 1 3. case_decide; lia.
Qed.

Lemma rep_total_le : 0 ≤ vs_totalWeight s ≤ map_total m.
Proof. rewrite (rep_total _ _ _ Hr), (rep_masked _ _ _ Hr). apply sum_sampleable. Qed.

Lemma rep_masked_ok : weights_ok (vdrMaskedWeights s).
Proof.
  rewrite (rep_masked _ _ _ Hr). apply Forall_fmap, Forall_forall. intros v Hv%vrep_elem. simpl.
  unfold sampleable. case_decide; [unfold is_uint; lia|]. by apply rep_weight_range in Hv as [_ ?].
Qed.
End facts.

(** ** The slices under updates *)

Lemma pairing_delete (l : list validator) (m : gmap NodeID Z) i v :
  pairing <$> l ≡ₚ map_to_list m → l !! i = Some v →
  m !! vdr_nodeID v = Some (vdr_weight v) ∧
  pairing <$> delete i l ≡ₚ map_to_list (delete (vdr_nodeID v) m).
Proof.
  intros Hp Hi. rewrite (delete_Permutation l i v Hi) in Hp. csimpl in Hp.
  assert (m !! vdr_nodeID v = Some (vdr_weight v)) as Hm.
  { apply elem_of_map_to_list. rewrite <-Hp. left. }
  split; [done|]. rewrite <-(insert_delete_id m _ _ Hm) in Hp.
  rewrite map_to_list_insert in Hp by apply lookup_delete_eq.
  by apply Permutation_cons_inv in Hp.
Qed.

Lemma pairing_update (l : list validator) (m : gmap NodeID Z) i v w :
  pairing <$> l ≡ₚ map_to_list m → l !! i = Some v →
  pairing <$> <[i := mkValidator (vdr_nodeID v) w]> l ≡ₚ map_to_list (<[vdr_nodeID v := w]> m).
Proof.
  intros Hp Hi. destruct (pairing_delete l m i v Hp Hi) as [Hm Hd].
  rewrite <-(insert_delete_eq m), map_to_list_insert, <-Hd by apply lookup_delete_eq.
  rewrite insert_take_drop, delete_take_drop, !fmap_app by (by eapply lookup_lt_Some).
  csimpl. by rewrite <-Permutation_middle.
Qed.

Lemma pairing_snoc (l : list validator) (m : gmap NodeID Z) id w :
  pairing <$> l ≡ₚ map_to_list m → m !! id = None →
  pairing <$> (l ++ [mkValidator id w]) ≡ₚ map_to_list (<[id := w]> m).
Proof.
  intros Hp Hm. rewrite map_to_list_insert, fmap_app, Hp by done. csimpl.
  by rewrite <-Permutation_cons_append.
Qed.

Abbreviation sample_weight masked v := (sampleable masked (vdr_nodeID v) (vdr_weight v)).

Lemma map_total_of_slice (l : list validator) (m : gmap NodeID Z) :
  pairing <$> l ≡ₚ map_to_list m → map_total m = sumZ (vdr_weight <$> l).
Proof. intros Hp. unfold map_total. rewrite <-Hp, <-list_fmap_compose. done. Qed.

Lemma sumZ_insert i (l : list Z) x y : l !! i = Some x → sumZ (<[i := y]> l) = sumZ l - x + y.
Proof.
  intros Hi. rewrite insert_take_drop by (by eapply lookup_lt_Some).
  rewrite <-(take_drop_middle _ _ _ Hi) at 3. rewrite !sumZ_app, !sumZ_cons. lia.
Qed.

(** Another weight for the validator at position [i]. *)
Lemma rep_update s g m s' i id old w :
  vs_rep s g m → vdrSlice s !! i = Some (mkValidator id old) →
  0 ≤ w → map_total m - old + w ≤ MaxUint64 →
  vdrMap s' = vdrMap s → vdrSlice s' = <[i := mkValidator id w]> (vdrSlice s) →
  vdrWeights s' = <[i := w]> (vdrWeights s) → maskedVdrs s' = maskedVdrs s →
  vdrMaskedWeights s' = <[i := sampleable (maskedVdrs s) id w]> (vdrMaskedWeights s) →
  vs_totalWeight s' =
    vs_totalWeight s - sampleable (maskedVdrs s) id old + sampleable (maskedVdrs s) id w →
  (vs_initialized s' = true → vs_initialized s = true ∧ vs_sampler s' = vs_sampler s ∧
     id ∈ maskedVdrs s) →
  vs_rep s' g (<[id := w]> m).
Proof.
  intros Hr Hi Hw Hb Emap Esl Ew EK Em Et Hinit.
  destruct (pairing_delete _ _ _ _ (rep_perm _ _ _ Hr) Hi) as [Hm _]. simpl in Hm.
  pose proof (pairing_update _ _ _ _ w (rep_perm _ _ _ Hr) Hi) as Hp. simpl in Hp.
  pose proof (rep_masked_at _ _ _ Hr _ _ Hi) as Hmi. simpl in Hmi.
  split.
  - by rewrite Esl.
  - intros id' j. rewrite Emap, Esl, (rep_index _ _ _ Hr), list_lookup_insert.
    case_decide as Hj; [|done]. destruct Hj as [<- _]. rewrite Hi. naive_solver.
  - by rewrite Ew, Esl, (rep_weights _ _ _ Hr), list_fmap_insert.
  - by rewrite Em, EK, Esl, (rep_masked _ _ _ Hr), list_fmap_insert.
  - rewrite Et, Em, (rep_total _ _ _ Hr).
    rewrite (sumZ_insert _ _ _ _ Hmi). lia.
  - apply map_Forall_insert_2; [done|]. apply (rep_nonneg _ _ _ Hr).
  - rewrite map_total_insert, Hm. simpl. lia.
  - intros (Hi0&Es&Hid)%Hinit. destruct (rep_sampler _ _ _ Hr Hi0) as (ws&k&Hws&E).
    exists ws, k. split; [by rewrite Es|]. rewrite Em, list_insert_id; [done|].
    unfold sampleable in *. rewrite !decide_True in * by done. done.
Qed.

(** A validator more, at the end of the slices. *)
Lemma rep_append s g m s' id w :
  vs_rep s g m → m !! id = None → 0 ≤ w → map_total m + w ≤ MaxUint64 →
  vdrMap s' = <[id := length (vdrSlice s)]> (vdrMap s) →
  vdrSlice s' = vdrSlice s ++ [mkValidator id w] →
  vdrWeights s' = vdrWeights s ++ [w] → maskedVdrs s' = maskedVdrs s →
  vdrMaskedWeights s' = vdrMaskedWeights s ++ [sampleable (maskedVdrs s) id w] →
  vs_totalWeight s' = vs_totalWeight s + sampleable (maskedVdrs s) id w →
  (vs_initialized s' = true → vs_initialized s = true ∧ vs_sampler s' = vs_sampler s ∧
     id ∈ maskedVdrs s) →
  vs_rep s' g (<[id := w]> m).
Proof.
  intros Hr Hm Hw Hb Emap Esl Ew EK Em Et Hinit.
  pose proof (proj1 (rep_lookup_None _ _ _ Hr id) Hm) as Hmap. split.
  - rewrite Esl. apply pairing_snoc; [by apply (rep_perm _ _ _ Hr)|done].
  - intros id' j. rewrite Emap, Esl, lookup_insert. case_decide as Hid.
    + subst id'. split.
      * intros [= <-]. rewrite list_lookup_middle by done. eauto.
      * intros (v&Hv&Hid). apply lookup_app_Some in Hv as [Hv|[Hle Hv]].
        -- assert (vdrMap s !! id = Some j) by (apply (rep_index _ _ _ Hr); eauto). congruence.
        -- apply list_lookup_singleton_Some in Hv as [Hj _]. f_equal. lia.
    + rewrite (rep_index _ _ _ Hr). split.
      * intros (v&Hv&E). exists v. split; [by apply lookup_app_l_Some|done].
      * intros (v&Hv&E). exists v. apply lookup_app_Some in Hv as [Hv|[Hle Hv]]; [done|].
        apply list_lookup_singleton_Some in Hv as [_ <-]. done.
  - by rewrite Ew, Esl, (rep_weights _ _ _ Hr), fmap_app.
  - by rewrite Em, EK, Esl, (rep_masked _ _ _ Hr), fmap_app.
  - rewrite Et, Em, (rep_total _ _ _ Hr), sumZ_app, sumZ_cons, sumZ_nil. lia.
  - apply map_Forall_insert_2; [done|]. apply (rep_nonneg _ _ _ Hr).
  - rewrite map_total_insert, Hm. simpl. lia.
  - intros (Hi0&Es&Hid)%Hinit. destruct (rep_sampler _ _ _ Hr Hi0) as (ws&k&Hws&E).
    exists ws, (S k). split; [by rewrite Es|]. unfold sampleable in Em.
    rewrite decide_True in Em by done.
    rewrite Em, E, <-(assoc_L (++)), replicate_S_end. done.
Qed.

Lemma rep_step_add s g m id w :
  vs_rep s g m → is_u64 w → map_total m + w ≤ MaxUint64 →
  ∃ s', vs_addWeight id w s = Some (None, s',
      match m !! id with
      | Some old => callCallbacks s (OnValidatorWeightChanged id old (old + w))
      | None => callCallbacks s (OnValidatorAdded id w)
      end) ∧
    vs_rep s' g (<[id := default 0 (m !! id) + w]> m) ∧ maskedVdrs s' = maskedVdrs s ∧
    callbackListeners s' = callbackListeners s.
Proof.
  intros Hr Hw Hb. pose proof (rep_total_le _ _ _ Hr) as Htl.
  assert (is_u64 (vs_totalWeight s)) as Htu by (unfold is_uint, MaxUint64 in *; lia).
  assert (Add64 (vs_totalWeight s) w = Ok (vs_totalWeight s + w)) as Hadd.
  { rewrite Add64_spec by done. by rewrite decide_True by lia. }
  assert (0 ≤ w) as Hwpos by (unfold is_uint in *; lia).
  unfold vs_addWeight, vs_contains.
  destruct (m !! id) as [old|] eqn:Hm; simpl.
  - pose proof (proj1 (rep_lookup _ _ _ Hr _ _) Hm) as (i&Hi&Hs). rewrite Hi. simpl.
    destruct (rep_weight_range _ _ _ Hr _ _ Hm) as [[Hpos Hle] Hold].
    rewrite Hs, (rep_weight_at _ _ _ Hr _ _ Hs), (rep_masked_at _ _ _ Hr _ _ Hs).
    unfold vdr_addWeight. simpl. assert (Add64 w old = Ok (old + w)) as ->.
    { rewrite Add64_spec, decide_True by (done || lia). f_equal. lia. }
    rewrite (wrap_id 64 (old + w)) by (unfold is_uint, MaxUint64 in *; lia). rewrite Hadd.
    case_decide as Hid; (eexists; split; [done|split; [|done]]);
      (eapply (rep_update s g m _ i id old (old + w)); [exact Hr|exact Hs|lia|lia|done|done|done|done|..]);
      simpl; unfold sampleable.
    + rewrite decide_True, list_insert_id by
        (try done; rewrite (rep_masked_at _ _ _ Hr _ _ Hs); simpl; unfold sampleable; by rewrite decide_True).
      done.
    + rewrite !decide_True by done. lia.
    + done.
    + rewrite !decide_False by done. f_equal. rewrite wrap_id; [done|]. unfold is_uint, MaxUint64 in *; lia.
    + rewrite !decide_False by done. lia.
    + done.
  - pose proof (proj1 (rep_lookup_None _ _ _ Hr id) Hm) as Hmap. rewrite Hmap. simpl.
    pose proof (f_equal length (rep_weights _ _ _ Hr)) as Hl1.
    pose proof (f_equal length (rep_masked _ _ _ Hr)) as Hl2. rewrite length_fmap in Hl1, Hl2.
    assert (∀ A (l : list A) x n, length l = n → (l ++ [x]) !! n = Some x) as Hlast.
    { intros A l x n <-. by apply list_lookup_middle. }
    assert (∀ A (l : list A) x y n, length l = n → <[n := y]> (l ++ [x]) = l ++ [y]) as Hins.
    { intros A l x y n <-. by rewrite insert_app_r_alt, Nat.sub_diag by done. }
    rewrite !Hlast by done. unfold vdr_addWeight. simpl. assert (Add64 w 0 = Ok w) as ->.
    { rewrite Add64_spec, decide_True by (done || unfold is_uint, MaxUint64 in *; lia). f_equal. lia. }
    rewrite (wrap_id 64 (0 + w)) by done. rewrite Hadd.
    case_decide as Hid; (eexists; split; [done|split; [|done]]);
      (eapply (rep_append s g m _ id w); [exact Hr|done|lia|lia|done|simpl|simpl|done|simpl..]);
      rewrite ?Hins by done; try done; unfold sampleable;
      first [rewrite decide_True by done|rewrite decide_False by done]; try done; try lia.
Qed.

(** ** Removal *)

Lemma swap_pop_lookup {A} (l : list A) i x :
  (i < length l)%nat → l !! pred (length l) = Some x →
  ∀ j, take (pred (length l)) (<[i := x]> l) !! j =
    if decide (j < pred (length l))%nat then (if decide (j = i) then Some x else l !! j) else None.
Proof.
  intros Hi Hx j. case_decide as Hj.
  - rewrite lookup_take_lt by done. rewrite list_lookup_insert.
    destruct (decide (j = i)) as [->|]; [by rewrite decide_True by lia|by rewrite decide_False by naive_solver].
  - by rewrite lookup_take_ge by lia.
Qed.

Lemma swap_pop_perm {A} (l : list A) i v x :
  l !! i = Some v → l !! pred (length l) = Some x →
  v :: take (pred (length l)) (<[i := x]> l) ≡ₚ l.
Proof.
  destruct l as [|y l _] using rev_ind; [done|].
  assert (pred (length (l ++ [y])) = length l) as -> by (rewrite length_app; simpl; lia).
  intros Hi Hx. rewrite list_lookup_middle in Hx by done. simplify_eq.
  apply lookup_app_Some in Hi as [Hi|[Hle Hi]].
  - pose proof (lookup_lt_Some _ _ _ Hi). rewrite insert_app_l by done.
    rewrite take_app_length' by (by rewrite length_insert).
    rewrite insert_take_drop, Permutation_middle by done.
    rewrite <-(take_drop_middle l i v) at 3 by done. rewrite <-(assoc_L (++)). f_equiv.
    simpl. apply perm_skip, Permutation_cons_append.
  - apply list_lookup_singleton_Some in Hi as [Hi <-].
    rewrite take_insert_ge, take_app_length' by (done || lia). apply Permutation_cons_append.
Qed.

Lemma sumZ_elem_le i l x : Forall (λ w, 0 ≤ w) l → l !! i = Some x → x ≤ sumZ l.
Proof.
  intros Hl Hi. rewrite <-(take_drop_middle l i x Hi), sumZ_app, sumZ_cons.
  pose proof (sumZ_nonneg _ (Forall_take _ i _ Hl)).
  pose proof (sumZ_nonneg _ (Forall_drop _ (S i) _ Hl)). lia.
Qed.

Lemma rep_delete_perm (m : gmap NodeID Z) id w :
  m !! id = Some w → map_to_list m ≡ₚ (id, w) :: map_to_list (delete id m).
Proof.
  intros Hm. rewrite <-(insert_delete_id m id w Hm) at 1. by rewrite map_to_list_insert by apply lookup_delete_eq.
Qed.

Lemma rep_inj s g m i j v v' :
  vs_rep s g m → vdrSlice s !! i = Some v → vdrSlice s !! j = Some v' →
  vdr_nodeID v = vdr_nodeID v' → i = j.
Proof.
  intros Hr Hi Hj E.
  assert (vdrMap s !! vdr_nodeID v = Some i) by (apply (rep_index _ _ _ Hr); eauto).
  assert (vdrMap s !! vdr_nodeID v = Some j) by (apply (rep_index _ _ _ Hr); eauto). congruence.
Qed.

(** The last validator takes the place of the one removed. *)
Lemma rep_remove_index s g m i e v ev id j :
  vs_rep s g m → vdrSlice s !! i = Some v → e = pred (length (vdrSlice s)) →
  vdrSlice s !! e = Some ev →
  delete (vdr_nodeID v) (<[vdr_nodeID ev := i]> (vdrMap s)) !! id = Some j ↔
  ∃ u, take e (<[i := ev]> (vdrSlice s)) !! j = Some u ∧ vdr_nodeID u = id.
Proof.
  intros Hr Hi -> He. pose proof (lookup_lt_Some _ _ _ Hi) as Hlt.
  set (e := pred (length (vdrSlice s))) in *.
  rewrite lookup_delete_Some, lookup_insert_Some, (rep_index _ _ _ Hr).
  pose proof (swap_pop_lookup _ _ _ Hlt He j) as Hsw. fold e in Hsw. rewrite Hsw. split.
  - intros [Hid [[<- <-]|[Hid' (u&Hu&<-)]]].
    + assert (i ≠ e) by (intros ->; simplify_eq). exists ev.
      rewrite !decide_True by (done || lia). done.
    + assert (j ≠ i) by (intros ->; simplify_eq). assert (j ≠ e) by (intros ->; simplify_eq).
      apply lookup_lt_Some in Hu as Hju. exists u.
      by rewrite decide_True, decide_False by (done || lia).
  - intros (u&Hu&<-). case_decide as Hj; [|done]. case_decide as Hji.
    + simplify_eq. split; [|by left]. intros E. pose proof (rep_inj _ _ _ _ _ _ _ Hr Hi He E). lia.
    + split; [intros E; by pose proof (rep_inj _ _ _ _ _ _ _ Hr Hi Hu E)|].
      right. split; [|eauto]. intros E. pose proof (rep_inj _ _ _ _ _ _ _ Hr He Hu E). lia.
Qed.

Lemma rep_remove s g m id w :
  vs_rep s g m → m !! id = Some w →
  ∃ s', vs_remove id s = Some (None, s') ∧ vs_rep s' g (delete id m) ∧
    maskedVdrs s' = maskedVdrs s ∧ callbackListeners s' = callbackListeners s ∧
    vs_initialized s' = false.
Proof.
  intros Hr Hm. pose proof (proj1 (rep_lookup _ _ _ Hr _ _) Hm) as (i&Hi&Hs).
  pose proof (lookup_lt_Some _ _ _ Hs) as Hlt.
  destruct (lookup_lt_is_Some_2 (vdrSlice s) (pred (length (vdrSlice s)))) as [ev He]; [lia|].
  pose proof (rep_weight_range _ _ _ Hr _ _ Hm) as [_ Hwu].
  pose proof (rep_total_le _ _ _ Hr) as Htl.
  pose proof (f_equal length (rep_weights _ _ _ Hr)) as Hl1.
  pose proof (f_equal length (rep_masked _ _ _ Hr)) as Hl2. rewrite length_fmap in Hl1, Hl2.
  assert (is_u64 (vs_totalWeight s)) as Htu.
  { pose proof (rep_bound _ _ _ Hr). unfold is_uint, MaxUint64 in *. lia. }
  pose proof (rep_masked_at _ _ _ Hr _ _ Hs) as Hmi. pose proof (rep_masked_at _ _ _ Hr _ _ He) as Hme.
  simpl in Hmi. set (e := pred (length (vdrSlice s))) in *.
  assert (sampleable (maskedVdrs s) id w ≤ vs_totalWeight s) as Hle.
  { rewrite (rep_total _ _ _ Hr). apply (sumZ_elem_le i); [|done].
    by apply weights_nonneg, (rep_masked_ok _ _ _ Hr). }
  assert (∀ init total,
    vs_totalWeight s - sampleable (maskedVdrs s) id w = total → init = false →
    vs_rep (mkVset init (delete id (<[vdr_nodeID ev := i]> (vdrMap s)))
        (take e (<[i := ev]> (vdrSlice s))) (take e (<[i := vdr_weight ev]> (vdrWeights s)))
        (take e (<[i := sample_weight (maskedVdrs s) ev]> (vdrMaskedWeights s))) (vs_sampler s) total
        (maskedVdrs s) (callbackListeners s)) g (delete id m)) as Hrep.
  { intros init total Ht ->. split; simpl.
    - apply (Permutation_cons_inv (a := (id, w))). rewrite <-(rep_delete_perm m id w Hm).
      rewrite <-(rep_perm _ _ _ Hr). rewrite <-(swap_pop_perm _ _ _ _ Hs He) at 2. done.
    - intros id' j. exact (rep_remove_index s g m i e (mkValidator id w) ev id' j Hr Hs eq_refl He).
    - rewrite (rep_weights _ _ _ Hr). rewrite <-list_fmap_insert, fmap_take. done.
    - rewrite (rep_masked _ _ _ Hr). rewrite fmap_take, list_fmap_insert. done.
    - rewrite <-Ht, (rep_total _ _ _ Hr).
      assert (Hme' : vdrMaskedWeights s !! pred (length (vdrMaskedWeights s)) =
        Some (sample_weight (maskedVdrs s) ev)) by (by rewrite Hl2).
      rewrite <-(swap_pop_perm _ _ _ _ Hmi Hme') at 1. rewrite sumZ_cons, Hl2. fold e. lia.
    - apply map_Forall_delete, (rep_nonneg _ _ _ Hr).
    - pose proof (map_total_delete m id w Hm) as E. pose proof (rep_bound _ _ _ Hr).
      pose proof (rep_weight_range _ _ _ Hr _ _ Hm). lia.
    - done. }
  unfold vs_remove. rewrite Hi. fold e. rewrite He, Hs. simpl.
  rewrite (rep_weight_at _ _ _ Hr _ _ He), Hme. simpl.
  rewrite Sub64_spec by done. unfold sampleable in Hle, Hrep. case_decide as Hid.
  - eexists. split; [done|]. split; [|done]. apply Hrep; [|done]. lia.
  - rewrite decide_True by done. eexists. split; [done|]. split; [|done]. by apply Hrep.
Qed.

#[local] Arguments Min64 : simpl never.
#[local] Arguments vdr_removeWeight : simpl never.

Definition uninitialized (s : set) : set :=
  mkVset false (vdrMap s) (vdrSlice s) (vdrWeights s) (vdrMaskedWeights s) (vs_sampler s)
    (vs_totalWeight s) (maskedVdrs s) (callbackListeners s).

Lemma vs_remove_uninitialized id s s' :
  is_Some (vdrMap s !! id) →
  vs_remove id (uninitialized s) = Some (None, s') → vs_remove id s = Some (None, s').
Proof.
  unfold vs_remove, uninitialized. simpl. intros [i ->] E.
  destruct (vdrSlice s !! pred _), (vdrSlice s !! i), (vdrWeights s !! pred _),
    (vdrMaskedWeights s !! pred _); simplify_eq/=. case_decide; [done|].
  by destruct (Sub64 _ _).
Qed.

(** The map after [RemoveWeight]. *)
Definition remove_weight (id : NodeID) (w : Z) (m : gmap NodeID Z) : gmap NodeID Z :=
  match m !! id with
  | None => m
  | Some old => if decide (old ≤ w) then delete id m else <[id := old - w]> m
  end.

Definition remove_event (id : NodeID) (w : Z) (m : gmap NodeID Z) : list vevent :=
  match m !! id with
  | None => []
  | Some old =>
      [if decide (old ≤ w) then OnValidatorRemoved id old
       else OnValidatorWeightChanged id old (old - w)]
  end.

Lemma rep_step_remove s g m id w :
  vs_rep s g m → is_u64 w →
  ∃ s', vs_removeWeight id w s =
      Some (None, s', remove_event id w m ≫= callCallbacks s) ∧
    vs_rep s' g (remove_weight id w m) ∧ maskedVdrs s' = maskedVdrs s ∧
    callbackListeners s' = callbackListeners s.
Proof.
  intros Hr Hw. unfold vs_removeWeight, remove_weight, remove_event.
  pose proof (rep_total_le _ _ _ Hr) as Htl. pose proof (rep_bound _ _ _ Hr) as Hb.
  destruct (m !! id) as [old|] eqn:Hm.
  2:{ rewrite (proj1 (rep_lookup_None _ _ _ Hr id) Hm). eauto. }
  pose proof (proj1 (rep_lookup _ _ _ Hr _ _) Hm) as (i&Hi&Hs). rewrite Hi, Hs. simpl.
  pose proof (rep_masked_at _ _ _ Hr _ _ Hs) as Hmi.
  rewrite (rep_weight_at _ _ _ Hr _ _ Hs), Hmi. simpl.
  destruct (rep_weight_range _ _ _ Hr _ _ Hm) as [Hrange Hold].
  assert (Min64 old [w] = Z.min old w) as -> by (unfold Min64; simpl; decide_lia).
  set (nw := old - Z.min old w).
  assert (Sub64 old (Z.min old w) = Ok nw) as Hsub.
  { unfold is_uint in *. rewrite Sub64_spec, decide_True by (unfold is_uint; lia). done. }
  unfold vdr_removeWeight. simpl. rewrite Hsub.
  set (mt := if decide (id ∈ maskedVdrs s) then _ else _).
  assert (mt = (<[i := sampleable (maskedVdrs s) id nw]> (vdrMaskedWeights s),
    vs_totalWeight s - sampleable (maskedVdrs s) id old + sampleable (maskedVdrs s) id nw)) as ->.
  { pose proof (rep_total _ _ _ Hr) as Ht. unfold mt, sampleable in *. simpl in Hmi.
    case_decide; [rewrite list_insert_id by done; f_equal; lia|].
    assert (old ≤ vs_totalWeight s).
    { rewrite Ht. apply (sumZ_elem_le i); [|done]. by apply weights_nonneg, (rep_masked_ok _ _ _ Hr). }
    rewrite !wrap_id by (unfold is_uint, MaxUint64 in *; lia). f_equal. lia. }
  rewrite (wrap_id 64 nw) by (unfold nw, is_uint in *; lia).
  match goal with |- context [vs_remove id ?s1] =>
    assert (vs_rep (uninitialized s1) g (<[id := nw]> m)) as Hr1 end.
  { eapply (rep_update s g m _ i id old nw); try done; unfold is_uint in *; lia. }
  destruct (decide (old ≤ w)) as [Hle|Hgt].
  - rewrite decide_True by (unfold nw; lia).
    destruct (rep_remove _ _ _ id nw Hr1) as (s'&E&Hr'&EK&EL&_); [apply lookup_insert_eq|].
    apply vs_remove_uninitialized in E; [|simpl; by eauto]. rewrite E. simpl.
    eexists. rewrite app_nil_r. split; [done|]. split; [|done].
    rewrite delete_insert_eq in Hr'. destruct s'. by destruct Hr'.
  - rewrite decide_False by (unfold nw; lia). eexists. rewrite app_nil_r.
    replace (old - w) with nw by (unfold nw; lia). split; [done|]. split; [|done]. exact Hr1.
Qed.

(** Another set of masked nodes. *)
Lemma rep_remask s g m s' :
  vs_rep s g m → vdrMap s' = vdrMap s → vdrSlice s' = vdrSlice s → vdrWeights s' = vdrWeights s →
  (∀ i v, vdrSlice s !! i = Some v → vdrMaskedWeights s' !! i = Some (sample_weight (maskedVdrs s') v)) →
  length (vdrMaskedWeights s') = length (vdrMaskedWeights s) →
  vs_totalWeight s' = sumZ (vdrMaskedWeights s') →
  (vs_initialized s' = true → vs_initialized s = true ∧ vs_sampler s' = vs_sampler s ∧
     vdrMaskedWeights s' = vdrMaskedWeights s) →
  vs_rep s' g m.
Proof.
  intros Hr Emap Esl Ew Hm Hlen Et Hinit. split.
  - rewrite Esl. apply (rep_perm _ _ _ Hr).
  - intros id i. rewrite Emap, Esl. apply (rep_index _ _ _ Hr).
  - rewrite Ew, Esl. apply (rep_weights _ _ _ Hr).
  - rewrite Esl. apply list_eq. intros i. rewrite list_lookup_fmap.
    destruct (vdrSlice s !! i) as [v|] eqn:Hi; [by apply Hm|]. simpl.
    apply lookup_ge_None. apply lookup_ge_None in Hi.
    rewrite Hlen, (rep_masked _ _ _ Hr), length_fmap. done.
  - done.
  - apply (rep_nonneg _ _ _ Hr).
  - apply (rep_bound _ _ _ Hr).
  - intros (Hi&Es&Em)%Hinit. rewrite Es, Em. by apply (rep_sampler _ _ _ Hr).
Qed.

Lemma rep_id_ne s g m id i v :
  vs_rep s g m → vdrMap s !! id = None → vdrSlice s !! i = Some v → vdr_nodeID v ≠ id.
Proof.
  intros Hr Hn Hi E. assert (vdrMap s !! id = Some i) by (apply (rep_index _ _ _ Hr); eauto). congruence.
Qed.

(** The weights after masking or revealing the validator at position [i]. *)
Lemma remask_at s g m i id old K' w' j v :
  vs_rep s g m → vdrSlice s !! i = Some (mkValidator id old) → w' = sampleable K' id old →
  (∀ id', id' ≠ id → (id' ∈ K' ↔ id' ∈ maskedVdrs s)) → vdrSlice s !! j = Some v →
  <[i := w']> (vdrMaskedWeights s) !! j = Some (sample_weight K' v).
Proof.
  intros Hr Hi -> HK Hj. rewrite list_lookup_insert. case_decide as Hij.
  - destruct Hij as [-> _]. simplify_eq. done.
  - assert (vdr_nodeID v ≠ id) as Hne.
    { intros E. apply Hij. rewrite (rep_inj s g m i j (mkValidator id old) v) by done.
      split; [done|]. rewrite (rep_masked _ _ _ Hr), length_fmap. by eapply lookup_lt_Some. }
    rewrite (rep_masked_at _ _ _ Hr _ _ Hj). unfold sampleable. f_equal.
    specialize (HK _ Hne). by repeat case_decide; try tauto.
Qed.

Lemma rep_step_mask s g m id :
  vs_rep s g m → ∃ s', vs_MaskValidator id s = Some s' ∧ vs_rep s' g m ∧
    maskedVdrs s' = {[id]} ∪ maskedVdrs s ∧ callbackListeners s' = callbackListeners s.
Proof.
  intros Hr. unfold vs_MaskValidator. case_decide as Hid.
  { exists s. split_and!; [done|done| |done]. set_solver. }
  destruct (vdrMap s !! id) as [i|] eqn:Hi.
  - apply (rep_index _ _ _ Hr) in Hi as ([id' w]&Hs&E). simpl in E. subst id'.
    pose proof (rep_masked_at _ _ _ Hr _ _ Hs) as Hmi. simpl in Hmi. unfold sampleable in Hmi.
    rewrite decide_False in Hmi by done.
    rewrite (rep_weight_at _ _ _ Hr _ _ Hs), Hmi. simpl.
    eexists. split; [done|]. split; [|done].
    apply (rep_remask s g m); try done; simpl.
    + intros j v Hj. apply (remask_at s g m i id w); try done.
      * unfold sampleable. by rewrite decide_True by set_solver.
      * set_solver.
    + by rewrite length_insert.
    + rewrite (sumZ_insert _ _ _ _ Hmi), <-(rep_total _ _ _ Hr).
      pose proof (rep_total_le _ _ _ Hr). pose proof (rep_bound _ _ _ Hr).
      assert (w ≤ vs_totalWeight s).
      { rewrite (rep_total _ _ _ Hr). apply (sumZ_elem_le i); [|done].
        by apply weights_nonneg, (rep_masked_ok _ _ _ Hr). }
      assert (m !! id = Some w) as Hm by (apply (rep_lookup _ _ _ Hr); exists i; split; [apply (rep_index _ _ _ Hr); eauto|done]).
      destruct (rep_weight_range _ _ _ Hr _ _ Hm).
      rewrite wrap_id by (unfold is_uint, MaxUint64 in *; lia). lia.
  - eexists. split; [done|]. split; [|done]. apply (rep_remask s g m); try done; simpl.
    + intros j v Hj. rewrite (rep_masked_at _ _ _ Hr _ _ Hj). unfold sampleable.
      pose proof (rep_id_ne _ _ _ _ _ _ Hr Hi Hj). f_equal. repeat case_decide; set_solver.
    + apply (rep_total _ _ _ Hr).
Qed.

Lemma rep_step_reveal s g m id :
  vs_rep s g m → ∃ s', vs_RevealValidator id s = Some (None, s') ∧ vs_rep s' g m ∧
    maskedVdrs s' = maskedVdrs s ∖ {[id]} ∧ callbackListeners s' = callbackListeners s.
Proof.
  intros Hr. unfold vs_RevealValidator. destruct (decide (id ∉ maskedVdrs s)) as [Hid|Hid].
  { exists s. split_and!; [done|done| |done]. set_solver. }
  apply dec_stable in Hid.
  destruct (vdrMap s !! id) as [i|] eqn:Hi.
  - apply (rep_index _ _ _ Hr) in Hi as ([id' w]&Hs&E). simpl in E. subst id'.
    assert (m !! id = Some w) as Hm by (apply (rep_lookup _ _ _ Hr); exists i; split; [apply (rep_index _ _ _ Hr); eauto|done]).
    pose proof (rep_masked_at _ _ _ Hr _ _ Hs) as Hmi. simpl in Hmi. unfold sampleable in Hmi.
    rewrite decide_True in Hmi by done.
    rewrite (rep_weight_at _ _ _ Hr _ _ Hs), Hmi. simpl.
    assert (∀ j v, vdrSlice s !! j = Some v →
      <[i := w]> (vdrMaskedWeights s) !! j =
        Some (sample_weight (maskedVdrs s ∖ {[id]}) v)) as Hm'.
    { intros j v Hj. apply (remask_at s g m i id w); try done.
      - unfold sampleable. by rewrite decide_False by set_solver.
      - set_solver. }
    assert (<[i := w]> (vdrMaskedWeights s) =
      (λ v, sample_weight (maskedVdrs s ∖ {[id]}) v) <$> vdrSlice s) as Hl.
    { apply list_eq. intros j. rewrite list_lookup_fmap.
      destruct (vdrSlice s !! j) as [v|] eqn:Hj; [by rewrite (Hm' _ _ Hj)|].
      apply lookup_ge_None. apply lookup_ge_None in Hj.
      by rewrite length_insert, (rep_masked _ _ _ Hr), length_fmap. }
    pose proof (sum_sampleable _ _ _ Hr (maskedVdrs s ∖ {[id]})) as Hsum.
    rewrite <-Hl, (sumZ_insert _ _ _ _ Hmi), <-(rep_total _ _ _ Hr) in Hsum.
    pose proof (rep_total_le _ _ _ Hr). pose proof (rep_bound _ _ _ Hr).
    destruct (rep_weight_range _ _ _ Hr _ _ Hm) as [_ Hw].
    rewrite Add64_spec, decide_True by (done || (unfold is_uint, MaxUint64 in *; lia)).
    eexists. split; [done|]. split; [|done]. apply (rep_remask s g m); try done; simpl.
    + by rewrite length_insert.
    + rewrite (sumZ_insert _ _ _ _ Hmi), <-(rep_total _ _ _ Hr). lia.
  - eexists. split; [done|]. split; [|done]. apply (rep_remask s g m); try done; simpl.
    + intros j v Hj. rewrite (rep_masked_at _ _ _ Hr _ _ Hj). unfold sampleable.
      pose proof (rep_id_ne _ _ _ _ _ _ Hr Hi Hj). f_equal. repeat case_decide; set_solver.
    + apply (rep_total _ _ _ Hr).
Qed.

(** ** [Set] *)

Lemma set_weights_total m vdrs :
  Forall (λ v, 0 ≤ vdr_weight v) vdrs → map_total m ≤ map_total (set_weights m vdrs).
Proof.
  intros Hv. revert m. induction Hv as [|v vdrs Hv _ IH]; intros m; simpl; [lia|].
  case_decide as Hd; [done|]. etrans; [|apply IH]. rewrite map_total_insert.
  destruct (m !! vdr_nodeID v); [destruct Hd; eauto|]. simpl. lia.
Qed.

Lemma rep_contains s g m id : vs_rep s g m → vs_contains s id = bool_decide (is_Some (m !! id)).
Proof.
  intros Hr. unfold vs_contains. destruct (vdrMap s !! id) as [i|] eqn:Hi.
  - rewrite bool_decide_true; [done|]. destruct (m !! id) eqn:Hm; [eauto|].
    apply (rep_lookup_None _ _ _ Hr) in Hm. congruence.
  - apply (rep_lookup_None _ _ _ Hr) in Hi. by rewrite Hi.
Qed.

Lemma rep_set_add vdrs s g m :
  vs_rep s g m → vs_initialized s = false → Forall (λ v, is_u64 (vdr_weight v)) vdrs →
  map_total (set_weights m vdrs) ≤ MaxUint64 →
  ∃ s', set_add s vdrs = (None, s') ∧ vs_rep s' g (set_weights m vdrs) ∧
    maskedVdrs s' = maskedVdrs s ∧ callbackListeners s' = callbackListeners s.
Proof.
  intros Hr Hi Hu. revert s m Hr Hi.
  induction Hu as [|v vdrs Hv Hu IH]; intros s m Hr Hi Hb; cbn [set_add set_weights] in *; [eauto|].
  rewrite (rep_contains _ _ _ _ Hr).
  destruct (decide (is_Some (m !! vdr_nodeID v))) as [Hc|Hc].
  { rewrite bool_decide_true by done. rewrite decide_True in Hb |- * by auto. by apply IH. }
  rewrite bool_decide_false by done. destruct (decide (vdr_weight v = 0)) as [Hz|Hz].
  { rewrite decide_True in Hb |- * by auto. by apply IH. }
  assert (¬ (is_Some (m !! vdr_nodeID v) ∨ vdr_weight v = 0)) as Hno by (by intros [?|?]).
  rewrite decide_False in Hb by done. rewrite (decide_False (P := _ ∨ _)) by done.
  assert (m !! vdr_nodeID v = None) as Hm by (by apply eq_None_not_Some).
  assert (Forall (λ v, 0 ≤ vdr_weight v) vdrs) as Hn.
  { eapply Forall_impl; [exact Hu|]. unfold is_uint. simpl. lia. }
  pose proof (set_weights_total (<[vdr_nodeID v := vdr_weight v]> m) vdrs Hn) as Ht.
  rewrite map_total_insert, Hm in Ht. simpl in Ht. unfold is_uint in Hv.
  assert (map_total m + vdr_weight v ≤ MaxUint64) as Hle by lia.
  pose proof (rep_total_le _ _ _ Hr) as Htl.
  rewrite Add64_spec by (unfold is_uint, MaxUint64 in *; lia).
  rewrite (decide_True (P := vs_totalWeight s + vdr_weight v ≤ MaxUint64)) by lia.
  case_decide as Hid; match goal with |- ∃ s', set_add ?t _ = _ ∧ _ => apply (IH t); [|done|done] end;
    (eapply (rep_append s g m _ _ (vdr_weight v)); [exact Hr|done|lia|lia|done..| | |simpl; congruence]);
    unfold sampleable; simpl;
    first [rewrite decide_True by done|rewrite decide_False by done]; done || lia.
Qed.

(** What a listener makes of a call. *)
Definition apply_event (view : gmap NodeID Z) (e : vevent) : gmap NodeID Z :=
  match e with
  | OnValidatorAdded id w => <[id := w]> view
  | OnValidatorRemoved id _ => delete id view
  | OnValidatorWeightChanged id _ w => <[id := w]> view
  end.

Fixpoint first_weight (vdrs : list validator) (id : NodeID) : option Z :=
  match vdrs with
  | [] => None
  | v :: vdrs => if decide (vdr_nodeID v = id) then Some (vdr_weight v) else first_weight vdrs id
  end.

Lemma set_weights_lookup m vdrs id :
  Forall (λ v, vdr_weight v ≠ 0) vdrs →
  set_weights m vdrs !! id = match m !! id with Some w => Some w | None => first_weight vdrs id end.
Proof.
  intros Hv. revert m. induction Hv as [|v vdrs Hv _ IH]; intros m; simpl; [by destruct (m !! id)|].
  case_decide as Hd; rewrite IH.
  - destruct Hd as [[w Hw]|]; [|done]. destruct (m !! id) eqn:E; [done|].
    rewrite decide_False by congruence. done.
  - assert (m !! vdr_nodeID v = None) by (apply eq_None_not_Some; naive_solver).
    rewrite lookup_insert. case_decide as Hid; [|by destruct (m !! id)].
    subst id. match goal with H : m !! _ = None |- _ => rewrite H end. done.
Qed.

(** The events of the two first loops of [Set], on the abstract set. *)
Fixpoint change_events (m : gmap NodeID Z) (seen : gset NodeID) (vdrs : list validator) : list vevent :=
  match vdrs with
  | [] => []
  | v :: vdrs =>
      let id := vdr_nodeID v in
      if decide (id ∈ seen) then change_events m seen vdrs
      else
        match m !! id with
        | None => [OnValidatorAdded id (vdr_weight v)]
        | Some old =>
            if decide (old = vdr_weight v) then [] else [OnValidatorWeightChanged id old (vdr_weight v)]
        end ++ change_events m ({[id]} ∪ seen) vdrs
  end.

Definition node_set (vdrs : list validator) : gset NodeID := list_to_set (vdr_nodeID <$> vdrs).

Lemma set_changes_spec s g m seen vdrs :
  vs_rep s g m →
  set_changes s seen vdrs =
    Some (change_events m seen vdrs ≫= callCallbacks s, node_set vdrs ∪ seen).
Proof.
  intros Hr. revert seen. induction vdrs as [|v vdrs IH]; intros seen; cbn [set_changes change_events].
  { f_equal. f_equal. unfold node_set. set_solver. }
  case_decide as Hid.
  { rewrite IH. f_equal. f_equal. unfold node_set. csimpl. set_solver. }
  rewrite IH. simpl. rewrite bind_app.
  assert (node_set vdrs ∪ ({[vdr_nodeID v]} ∪ seen) = node_set (v :: vdrs) ∪ seen) as ->.
  { unfold node_set. csimpl. set_solver. }
  destruct (m !! vdr_nodeID v) as [old|] eqn:Hm.
  - pose proof (proj1 (rep_lookup _ _ _ Hr _ _) Hm) as (i&->&Hs).
    rewrite (rep_weight_at _ _ _ Hr _ _ Hs). simpl. case_decide; [done|]. csimpl. by rewrite app_nil_r.
  - rewrite (proj1 (rep_lookup_None _ _ _ Hr _) Hm). csimpl. by rewrite app_nil_r.
Qed.

Lemma change_events_view m seen vdrs view id :
  (∀ id, id ∉ seen → view !! id = m !! id) →
  foldl apply_event view (change_events m seen vdrs) !! id =
    if decide (id ∈ seen) then view !! id
    else match first_weight vdrs id with Some w => Some w | None => m !! id end.
Proof.
  revert seen view. induction vdrs as [|v vdrs IH]; intros seen view Hv; cbn [change_events first_weight].
  { simpl. case_decide; [done|auto]. }
  destruct (decide (vdr_nodeID v ∈ seen)) as [Hs|Hs].
  { rewrite IH by done. case_decide; [done|]. by rewrite decide_False by congruence. }
  rewrite foldl_app. set (view' := foldl apply_event view _).
  assert (∀ id', view' !! id' = if decide (id' = vdr_nodeID v) then Some (vdr_weight v) else view !! id') as Hview'.
  { intros id'. unfold view'. destruct (m !! vdr_nodeID v) as [old|] eqn:Hm.
    - case_decide as Ho; simpl.
      + case_decide as E; [|done]. subst. by rewrite Hv, Hm.
      + rewrite lookup_insert. case_decide; [by rewrite decide_True by done|by rewrite decide_False by congruence].
    - simpl. rewrite lookup_insert. case_decide; [by rewrite decide_True by done|by rewrite decide_False by congruence]. }
  rewrite IH.
  - rewrite Hview'. destruct (decide (id = vdr_nodeID v)) as [->|Hne].
    + rewrite decide_True by set_solver. rewrite decide_False by done. by rewrite decide_True by done.
    + rewrite (decide_False (P := vdr_nodeID v = id)) by congruence.
      destruct (decide (id ∈ seen)); [by rewrite decide_True by set_solver|by rewrite decide_False by set_solver].
  - intros id' Hid'. rewrite Hview', decide_False by set_solver. apply Hv. set_solver.
Qed.

Definition removal_events (m : gmap NodeID Z) (nodes : gset NodeID) (ids : list NodeID) : list vevent :=
  ids ≫= λ id, if decide (id ∈ nodes) then [] else [OnValidatorRemoved id (m !!! id)].

Lemma removal_events_cons m nodes id ids :
  removal_events m nodes (id :: ids) =
    (if decide (id ∈ nodes) then [] else [OnValidatorRemoved id (m !!! id)]) ++
    removal_events m nodes ids.
Proof. done. Qed.

Lemma call_one s e : [e] ≫= callCallbacks s = callCallbacks s e.
Proof. apply bind_singleton. Qed.

Lemma set_removals_spec s g m nodes l :
  vs_rep s g m → (∀ id i, (id, i) ∈ l → vdrMap s !! id = Some i) →
  set_removals s nodes l = Some (removal_events m nodes l.*1 ≫= callCallbacks s).
Proof.
  intros Hr. induction l as [|[id i] l IH]; intros Hl; cbn [set_removals]; [done|].
  rewrite IH by (intros id' j Hj; apply Hl; by right). cbn [mbind option_bind].
  assert (vdrMap s !! id = Some i) as Hi by (apply Hl; left).
  apply (rep_index _ _ _ Hr) in Hi as ([id' w]&Hs&E). simpl in E. subst id'.
  rewrite fmap_cons, removal_events_cons, bind_app. cbn [fst]. case_decide; [done|].
  rewrite (rep_weight_at _ _ _ Hr _ _ Hs), call_one.
  apply list_elem_of_lookup_2, (vrep_elem _ _ _ Hr) in Hs. simpl in Hs.
  by rewrite (lookup_total_correct _ _ _ Hs).
Qed.

Lemma removal_events_view m nodes ids view id :
  foldl apply_event view (removal_events m nodes ids) !! id =
    if decide (id ∈ ids ∧ id ∉ nodes) then None else view !! id.
Proof.
  revert view. induction ids as [|id' ids IH]; intros view; [done|].
  rewrite removal_events_cons, foldl_app, IH. destruct (decide (id' ∈ nodes)) as [Hn|Hn]; simpl.
  - destruct (decide (id ∈ ids ∧ id ∉ nodes)); [by rewrite decide_True by set_solver|].
    by rewrite decide_False by set_solver.
  - destruct (decide (id = id')) as [->|Hne].
    + rewrite lookup_delete_eq. rewrite (decide_True (P := id' ∈ id' :: ids ∧ _)) by (split; [left|done]).
      by case_decide.
    + rewrite lookup_delete_ne by done.
      destruct (decide (id ∈ ids ∧ id ∉ nodes)); [by rewrite decide_True by set_solver|].
      by rewrite decide_False by set_solver.
Qed.

Definition set_events (m : gmap NodeID Z) (vdrs : list validator) (ids : list NodeID) : list vevent :=
  change_events m ∅ vdrs ++ removal_events m (node_set vdrs) ids.

Lemma rep_step_set s g m vdrs :
  vs_rep s g m → Forall (λ v, is_u64 (vdr_weight v)) vdrs →
  map_total (set_weights ∅ vdrs) ≤ MaxUint64 →
  ∃ s' ids, vs_Set vdrs s = Some (None, s', set_events m vdrs ids ≫= callCallbacks s) ∧
    (∀ id, id ∈ ids ↔ is_Some (m !! id)) ∧
    vs_rep s' g (set_weights ∅ vdrs) ∧ maskedVdrs s' = maskedVdrs s ∧
    callbackListeners s' = callbackListeners s.
Proof.
  intros Hr Hu Hb. unfold vs_Set. rewrite (set_changes_spec _ _ _ _ _ Hr). simpl.
  rewrite (set_removals_spec _ g m); [|done|by intros id i; rewrite elem_of_go_range]. simpl.
  match goal with |- context [set_add ?t vdrs] =>
    destruct (rep_set_add vdrs t g ∅) as (s'&->&Hr'&EK&EL); [apply vs_rep_empty|done|done|done|] end.
  exists s', (go_range (vdrMap s)).*1. split; [|split; [|done]].
  - unfold set_events. rewrite bind_app, (right_id_L ∅ (∪)). done.
  - intros id. rewrite list_elem_of_fmap. split.
    + intros ([id' i]&->&Hi%elem_of_go_range). simpl. destruct (m !! id') eqn:E; [eauto|].
      apply (rep_lookup_None _ _ _ Hr) in E. congruence.
    + intros [w Hw]. apply (rep_lookup _ _ _ Hr) in Hw as (i&Hi&_). exists (id, i).
      split; [done|]. by apply elem_of_go_range.
Qed.

(** A listener that knew the set before knows it afterwards, provided that no
    weight is zero. *)
Lemma set_events_view m vdrs ids :
  (∀ id, id ∈ ids ↔ is_Some (m !! id)) → Forall (λ v, vdr_weight v ≠ 0) vdrs →
  foldl apply_event m (set_events m vdrs ids) = set_weights ∅ vdrs.
Proof.
  intros Hids Hv. apply map_eq. intros id. unfold set_events.
  rewrite foldl_app, removal_events_view, change_events_view by done.
  rewrite set_weights_lookup, lookup_empty by done.
  rewrite (decide_False (P := id ∈ ∅)) by set_solver. specialize (Hids id).
  assert (id ∈ node_set vdrs ↔ is_Some (first_weight vdrs id)) as Hn.
  { unfold node_set. rewrite elem_of_list_to_set. clear. induction vdrs as [|v vdrs IH]; csimpl.
    - split; [by intros ?%elem_of_nil|by intros [??]].
    - rewrite elem_of_cons, IH. case_decide; naive_solver. }
  destruct (first_weight vdrs id) as [w|].
  - rewrite decide_False; [done|]. intros [_ Hd]. apply Hd, Hn. eauto.
  - case_decide as Hd; [done|]. destruct (m !! id) eqn:E; [|done]. destruct Hd.
    split; [apply Hids; eauto|]. by intros [??]%Hn.
Qed.

(** ** [Sample] and the queries *)

Lemma rep_with_sampler s g m s' g' :
  vs_rep s g m → vdrMap s' = vdrMap s → vdrSlice s' = vdrSlice s → vdrWeights s' = vdrWeights s →
  vdrMaskedWeights s' = vdrMaskedWeights s → vs_totalWeight s' = vs_totalWeight s →
  maskedVdrs s' = maskedVdrs s →
  (vs_initialized s' = true →
     ∃ ws k, S_ready ws (vs_sampler s') g' ∧ vdrMaskedWeights s = ws ++ replicate k 0) →
  vs_rep s' g' m.
Proof.
  intros Hr E1 E2 E3 E4 E5 E6 Hi.
  split; rewrite ?E1, ?E2, ?E3, ?E4, ?E5, ?E6; try done; apply Hr.
Qed.

(** A sample of [size] validators: all sampleable, none more often than its
    weight. *)
Definition valid_sample (m : gmap NodeID Z) (masked : gset NodeID) (size : nat)
    (vdrs : list validator) : Prop :=
  length vdrs = size ∧
  ∀ v, v ∈ vdrs → m !! vdr_nodeID v = Some (vdr_weight v) ∧ vdr_nodeID v ∉ masked ∧
    Z.of_nat (length (filter (λ u, u = v) vdrs)) ≤ vdr_weight v.

(** The validators at the indices drawn. *)
Lemma drawn_validators s g m ws k size indices vdrs :
  vs_rep s g m → vdrMaskedWeights s = ws ++ replicate k 0 →
  drawn_from ws size indices → mapM (λ i, vdrSlice s !! i) indices = Some vdrs →
  valid_sample m (maskedVdrs s) size vdrs.
Proof.
  intros Hr Em [Hlen Hd] Hv. apply mapM_Some in Hv.
  split; [by rewrite <-(Forall2_length _ _ _ Hv)|]. intros v Hin.
  apply list_elem_of_lookup in Hin as [j Hj].
  destruct (Forall2_lookup_r _ _ _ _ _ Hv Hj) as (i&Hi&Hs).
  destruct (Hd i) as (w&Hw&Hocc); [by eapply list_elem_of_lookup_2|].
  assert (vdrMaskedWeights s !! i = Some w) as Hmi.
  { rewrite Em. by apply lookup_app_l_Some. }
  rewrite (rep_masked_at _ _ _ Hr _ _ Hs) in Hmi. unfold sampleable in Hmi.
  case_decide as Hid; [simplify_eq; lia|]. simplify_eq.
  split; [by apply (vrep_elem _ _ _ Hr), list_elem_of_lookup_2 with i|]. split; [done|].
  replace (length (filter (λ u, u = v) vdrs)) with (occurrences i indices); [lia|].
  clear -Hv Hs Hr. unfold occurrences.
  induction Hv as [|i' v' indices vdrs Hv' Hv IH]; [done|]. rewrite !filter_cons.
  destruct (decide (i' = i)) as [->|Hne].
  - rewrite decide_True by congruence. simpl. by f_equal.
  - rewrite decide_False; [done|]. intros ->. apply Hne.
    by apply (rep_inj _ _ _ _ _ _ _ Hr Hv' Hs).
Qed.

Lemma rep_step_sample s g m seed size r s' g' :
  vs_rep s g m → vs_Sample seed size s g = Some (r, s', g') →
  vs_rep s' g' m ∧ maskedVdrs s' = maskedVdrs s ∧ callbackListeners s' = callbackListeners s ∧
  match r with
  | Ok vdrs => valid_sample m (maskedVdrs s) size vdrs
  | Err e => vs_initialized s' = false ∨
      e = errSampler errOutOfRange ∧ vs_totalWeight s < Z.of_nat size
  end.
Proof.
  intros Hr. unfold vs_Sample. case_decide as Hz.
  { intros [= <- <- <-]. split_and!; [done..|]. split; [by subst|].
    by intros v Hv%elem_of_nil. }
  set (init := if vs_initialized s then _ else _).
  assert (∀ err sampler g1, init = Some (err, sampler, g1) →
    err ≠ None ∨ ∃ ws k, S_ready ws sampler g1 ∧ vdrMaskedWeights s = ws ++ replicate k 0) as Hinit.
  { intros err sampler g1. unfold init. destruct (vs_initialized s) eqn:Hi.
    - intros [= <- <- <-]. right. by apply (rep_sampler _ _ _ Hr).
    - intros E. destruct err as [e|]; [by left|right]. exists (vdrMaskedWeights s), 0%nat.
      split; [|by rewrite app_nil_r]. eapply S_Initialize_ready; [|exact E].
      by apply (rep_masked_ok _ _ _ Hr). }
  destruct init as [[[err sampler] g1]|]; [|done]. simpl. specialize (Hinit _ _ _ eq_refl).
  destruct err as [e|].
  { intros [= <- <- <-]. split; [by eapply rep_with_sampler|]. split_and!; [done..|by left]. }
  destruct Hinit as [?|(ws&k&Hws&Em)]; [done|].
  destruct (S_Sample size sampler g1) as [[[r2 sampler2] g2]|] eqn:Es; [|done]. simpl.
  assert (weights_ok ws) as Hok.
  { pose proof (rep_masked_ok _ _ _ Hr) as H1. rewrite Em in H1. by apply Forall_app in H1 as [? _]. }
  destruct (S_Sample_drawn _ _ _ _ _ _ _ Hok Hws Es) as [Hws2 Hr2].
  destruct Hr2 as [[-> Hlt]|(indices&->&Hd)].
  - intros [= <- <- <-]. split; [by eapply rep_with_sampler; eauto|].
    split_and!; [done..|]. right. split; [done|]. rewrite (rep_total _ _ _ Hr), Em, sumZ_app.
    assert (sumZ (replicate k 0) = 0) as ->; [|lia].
    clear. induction k; [done|]. simpl. rewrite sumZ_cons. lia.
  - destruct (mapM _ indices) as [vdrs|] eqn:Ev; [|done]. simpl.
    intros [= <- <- <-]. split; [by eapply rep_with_sampler; eauto|].
    split_and!; [done..|]. by eapply drawn_validators.
Qed.

Lemma rep_GetWeight s g m id :
  vs_rep s g m →
  vs_GetWeight id s = Some (match m !! id with
                            | Some w => (sampleable (maskedVdrs s) id w, true)
                            | None => (0, false)
                            end).
Proof.
  intros Hr. unfold vs_GetWeight. destruct (m !! id) as [w|] eqn:Hm.
  - pose proof (proj1 (rep_lookup _ _ _ Hr _ _) Hm) as (i&->&Hs).
    by rewrite (rep_masked_at _ _ _ Hr _ _ Hs).
  - by rewrite (proj1 (rep_lookup_None _ _ _ Hr _) Hm).
Qed.

(** The weight of the nodes of a set that can be sampled. *)
Definition sampleable_weight (m : gmap NodeID Z) (masked : gset NodeID) (id : NodeID) : Z :=
  match m !! id with Some w => sampleable masked id w | None => 0 end.

Lemma rep_Weight s g m :
  vs_rep s g m → vs_totalWeight s = sumZ (sampleable_weight m (maskedVdrs s) <$> (map_to_list m).*1).
Proof.
  intros Hr. rewrite (rep_total _ _ _ Hr), (rep_masked _ _ _ Hr), <-(rep_perm _ _ _ Hr).
  rewrite <-!list_fmap_compose. f_equal. apply list_fmap_ext. intros i v Hv. simpl.
  apply list_elem_of_lookup_2, (vrep_elem _ _ _ Hr) in Hv. unfold sampleable_weight. by rewrite Hv.
Qed.

Lemma subset_weight_spec s g m total ids :
  vs_rep s g m → is_u64 total →
  subset_weight total ids s =
    Some (let sum := total + sumZ (sampleable_weight m (maskedVdrs s) <$> ids) in
          if decide (sum ≤ MaxUint64) then Ok sum else Err errOverflow).
Proof.
  intros Hr. revert total. induction ids as [|id ids IH]; intros total Ht; cbn [subset_weight].
  { rewrite fmap_nil, sumZ_nil, Z.add_0_r. cbn zeta.
    by rewrite decide_True by (unfold is_uint, MaxUint64 in *; lia). }
  rewrite (rep_GetWeight _ _ _ _ Hr), fmap_cons, sumZ_cons. cbn zeta.
  assert (∀ ids, 0 ≤ sumZ (sampleable_weight m (maskedVdrs s) <$> ids)) as Hn.
  { intros l. apply sumZ_nonneg, Forall_fmap, Forall_forall. intros x _. simpl.
    unfold sampleable_weight. destruct (m !! x) as [w|] eqn:Hm; [|lia].
    destruct (rep_weight_range _ _ _ Hr _ _ Hm). unfold sampleable. case_decide; lia. }
  specialize (Hn ids).
  assert (is_u64 (sampleable_weight m (maskedVdrs s) id) ∧
    (m !! id = None → sampleable_weight m (maskedVdrs s) id = 0)) as [Hu H0].
  { unfold sampleable_weight. destruct (m !! id) as [w|] eqn:Hm; [|split; [unfold is_uint; lia|done]].
    destruct (rep_weight_range _ _ _ Hr _ _ Hm) as [_ Hw].
    unfold sampleable. case_decide; done. }
  destruct (m !! id) as [w|] eqn:Hm; simpl.
  - replace (sampleable (maskedVdrs s) id w) with (sampleable_weight m (maskedVdrs s) id)
      by (unfold sampleable_weight; by rewrite Hm).
    rewrite Add64_spec by done. set (sw := sampleable_weight m (maskedVdrs s) id) in *.
    destruct (decide (total + sw ≤ MaxUint64)).
    + rewrite IH by (unfold is_uint, MaxUint64 in *; lia). by rewrite Z.add_assoc.
    + by rewrite decide_False by lia.
  - by rewrite IH, H0 by done.
Qed.
End rep.

(** ** The operations together *)

Section spec.
Context {R L Sm : Type} `{!Rng R, HW : WithoutReplacement R Sm, HL : !WithoutReplacementLaws R Sm, !GoRange}.
Abbreviation set := (vset L Sm).
Implicit Types s : set.

(** The calls that change a set. *)
Inductive vop :=
| opSet (vdrs : list validator)
| opAddWeight (id : NodeID) (w : Z)
| opRemoveWeight (id : NodeID) (w : Z)
| opMaskValidator (id : NodeID)
| opRevealValidator (id : NodeID).

Definition vs_step (op : vop) (s : set) : option (option math_error * set * list (L * vevent)) :=
  match op with
  | opSet vdrs => vs_Set vdrs s
  | opAddWeight id w => vs_AddWeight id w s
  | opRemoveWeight id w => vs_RemoveWeight id w s
  | opMaskValidator id => s ← vs_MaskValidator id s; Some (None, s, [])
  | opRevealValidator id => '(err, s) ← vs_RevealValidator id s; Some (err, s, [])
  end.

(** Their effect on the abstract set. *)
Definition spec_step (op : vop) (m : gmap NodeID Z) (masked : gset NodeID)
  : gmap NodeID Z * gset NodeID :=
  match op with
  | opSet vdrs => (set_weights ∅ vdrs, masked)
  | opAddWeight id w => (if decide (w = 0) then m else <[id := default 0 (m !! id) + w]> m, masked)
  | opRemoveWeight id w => (if decide (w = 0) then m else remove_weight id w m, masked)
  | opMaskValidator id => (m, {[id]} ∪ masked)
  | opRevealValidator id => (m, masked ∖ {[id]})
  end.

(** A call in range: the weights are 64-bit integers that are not zero, and
    their sum fits 64 bits after the call. *)
Definition op_ok (op : vop) (m : gmap NodeID Z) : Prop :=
  match op with
  | opSet vdrs =>
      Forall (λ v, is_u64 (vdr_weight v) ∧ vdr_weight v ≠ 0) vdrs ∧
      map_total (set_weights ∅ vdrs) ≤ MaxUint64
  | opAddWeight id w => is_u64 w ∧ map_total m + w ≤ MaxUint64
  | opRemoveWeight id w => is_u64 w
  | _ => True
  end.

Lemma remove_event_view id w m :
  foldl apply_event m (remove_event id w m) = remove_weight id w m.
Proof. unfold remove_event, remove_weight. destruct (m !! id); [|done]. simpl. by case_decide. Qed.

Lemma spec_step_sim op s g m :
  vs_rep s g m → op_ok op m →
  ∃ s' evs, vs_step op s = Some (None, s', evs ≫= callCallbacks s) ∧
    vs_rep s' g (spec_step op m (maskedVdrs s)).1 ∧
    maskedVdrs s' = (spec_step op m (maskedVdrs s)).2 ∧
    callbackListeners s' = callbackListeners s ∧
    foldl apply_event m evs = (spec_step op m (maskedVdrs s)).1.
Proof.
  intros Hr Hok. destruct op as [vdrs|id w|id w|id|id]; simpl in *.
  - destruct Hok as [Hv Hb].
    assert (Forall (λ v, is_u64 (vdr_weight v)) vdrs) as Hu by (eapply Forall_impl; [exact Hv|naive_solver]).
    assert (Forall (λ v, vdr_weight v ≠ 0) vdrs) as Hn by (eapply Forall_impl; [exact Hv|naive_solver]).
    destruct (rep_step_set s g m vdrs Hr Hu Hb) as (s'&ids&E&Hids&Hr'&EK&EL).
    exists s', (set_events m vdrs ids). split_and!; try done. by apply set_events_view.
  - destruct Hok as [Hw Hb]. unfold vs_AddWeight. case_decide as Hz.
    + exists s, []. done.
    + destruct (rep_step_add s g m id w Hr Hw Hb) as (s'&E&Hr'&EK&EL). rewrite E.
      exists s', [match m !! id with
             | Some old => OnValidatorWeightChanged id old (old + w)
             | None => OnValidatorAdded id w
             end].
      rewrite call_one. destruct (m !! id) as [old|]; done.
  - unfold vs_RemoveWeight. case_decide as Hz; [exists s, []; done|].
    destruct (rep_step_remove s g m id w Hr Hok) as (s'&E&Hr'&EK&EL). rewrite E.
    exists s', (remove_event id w m). split_and!; try done. apply remove_event_view.
  - destruct (rep_step_mask s g m id Hr) as (s'&E&Hr'&EK&EL). rewrite E. exists s', []. done.
  - destruct (rep_step_reveal s g m id Hr) as (s'&E&Hr'&EK&EL). rewrite E. exists s', []. done.
Qed.

(** Sequences of calls, with samples between them. *)
Inductive vs_runs : set → rngs R → gmap NodeID Z → gset NodeID → Prop :=
| runs_new sampler g : vs_runs (NewSet sampler) g ∅ ∅
| runs_op op s g m masked err s' calls :
    vs_runs s g m masked → op_ok op m → vs_step op s = Some (err, s', calls) →
    vs_runs s' g (spec_step op m masked).1 (spec_step op m masked).2
| runs_sample seed size s g m masked r s' g' :
    vs_runs s g m masked → vs_Sample seed size s g = Some (r, s', g') →
    vs_runs s' g' m masked
| runs_listen s g m masked l s' calls :
    vs_runs s g m masked → vs_RegisterCallbackListener l s = Some (s', calls) →
    vs_runs s' g m masked.

Lemma rep_listen s g m l s' calls :
  vs_rep s g m → vs_RegisterCallbackListener l s = Some (s', calls) →
  vs_rep s' g m ∧ maskedVdrs s' = maskedVdrs s.
Proof.
  unfold vs_RegisterCallbackListener. intros Hr.
  destruct (mapM _ (go_range (vdrMap s))) as [cs|]; [|done]. intros [= <- _].
  split; [|done]. eapply rep_with_sampler; try done. apply (rep_sampler _ _ _ Hr).
Qed.

(** What a new listener is told, whatever the order of the map. *)
Definition added (m : gmap NodeID Z) (x : NodeID * nat) : vevent := OnValidatorAdded x.1 (default 0 (m !! x.1)).

Lemma added_view m (l : list (NodeID * nat)) view id :
  (∀ x, x ∈ l → is_Some (m !! x.1)) →
  foldl apply_event view (added m <$> l) !! id = if decide (id ∈ l.*1) then m !! id else view !! id.
Proof.
  revert view. induction l as [|[k i] l IH]; intros view Hl; [done|]. rewrite fmap_cons. cbn [foldl]. rewrite IH by (intros x Hx; apply Hl; by right).
  destruct (Hl (k, i)) as [w Hw]; [left|]. simpl in Hw. rewrite fmap_cons. cbn [fst]. destruct (decide (id ∈ l.*1)) as [Hin|Hin].
  - by rewrite decide_True by (by right).
  - cbn [added apply_event fst]. rewrite Hw, lookup_insert. cbn. destruct (decide (k = id)) as [->|Hne]; [by rewrite decide_True by left|].
    rewrite decide_False; [done|]. rewrite elem_of_cons. intros [?|?]; congruence.
Qed.

Lemma rep_listen_calls s g m l : vs_rep s g m →
  ∃ s' evs, vs_RegisterCallbackListener l s = Some (s', (λ e, (l, e)) <$> evs) ∧ foldl apply_event ∅ evs = m.
Proof.
  intros Hr. unfold vs_RegisterCallbackListener.
  assert (∀ x, x ∈ go_range (vdrMap s) → ∃ w, m !! x.1 = Some w ∧ vdrWeights s !! x.2 = Some w) as Hat.
  { intros [node index]. rewrite go_range_perm. intros Hi%elem_of_map_to_list. simpl. apply (rep_index _ _ _ Hr) in Hi as (v&Hv&<-).
    exists (vdr_weight v). split; [by eapply vrep_elem, list_elem_of_lookup_2|by eapply rep_weight_at]. }
  eexists _, (added m <$> go_range (vdrMap s)). split.
  - assert (∀ k : list (NodeID * nat), (∀ x, x ∈ k → ∃ w, m !! x.1 = Some w ∧ vdrWeights s !! x.2 = Some w) →
      mapM (λ '(node, index), w ← vdrWeights s !! index; Some (l, OnValidatorAdded node w)) k = Some ((λ e, (l, e)) <$> (added m <$> k))) as Hmap.
    { intros k Hk. induction k as [|[node index] k IH]; [done|]. destruct (Hk (node, index)) as (w&Hm&Hw); [left|]. simpl in Hm, Hw.
      cbn [mapM]. rewrite Hw. cbn [mbind option_bind]. rewrite IH by (intros x Hx; apply Hk; by right). unfold added. simpl. by rewrite Hm. }
    rewrite Hmap by done. reflexivity.
  - apply map_eq. intros id. rewrite added_view by (intros x Hx; destruct (Hat x Hx) as (w&Hw&_); by exists w).
    case_decide as Hin; [done|]. rewrite lookup_empty. symmetry. apply (rep_lookup_None _ _ _ Hr).
    destruct (vdrMap s !! id) as [i|] eqn:Ei; [|done]. destruct Hin. apply list_elem_of_fmap. exists (id, i). split; [done|].
    rewrite go_range_perm. by apply elem_of_map_to_list.
Qed.

Lemma vs_runs_rep s g m masked : vs_runs s g m masked → vs_rep s g m ∧ maskedVdrs s = masked.
Proof.
  induction 1 as [sampler g|op s g m masked err s' calls _ [Hr <-] Hok E
    |seed size s g m masked r s' g' _ [Hr <-] E|s g m masked l s' calls _ [Hr <-] E].
  - split; [apply vs_rep_new|done].
  - destruct (spec_step_sim op s g m Hr Hok) as (s1&evs&E1&Hr1&EK&_).
    rewrite E in E1. by simplify_eq.
  - destruct (rep_step_sample _ _ _ _ _ _ _ _ Hr E) as (Hr'&EK&_). done.
  - by destruct (rep_listen _ _ _ _ _ _ Hr E).
Qed.

(** C23: over any lawful sampler, a set of validators implements a map from
    nodes to weights with a set of masked nodes.  After every sequence of calls
    in range, each call returns no error, has the effect of the abstract set, and
    tells every listener exactly what turns the old map into the new one; a listener
    that is registered is told of exactly the validators there are, with their
    weights; the queries answer as the map; none of these panics.  A sample that the
    sampler returns has the size asked for, no masked validator, and none more often
    than its weight, and is an error only when the sampler cannot be initialized or
    the size exceeds the total weight. *)
Theorem validators_refine_map s g m masked (Hruns : vs_runs s g m masked) :
  (∀ op, op_ok op m → ∃ s' evs,
     vs_step op s = Some (None, s', evs ≫= callCallbacks s) ∧
     vs_runs s' g (spec_step op m masked).1 (spec_step op m masked).2 ∧
     foldl apply_event m evs = (spec_step op m masked).1) ∧
  (∀ l, ∃ s' evs, vs_RegisterCallbackListener l s = Some (s', (λ e, (l, e)) <$> evs) ∧
     vs_runs s' g m masked ∧ callbackListeners s' = callbackListeners s ++ [l] ∧ foldl apply_event ∅ evs = m) ∧
  (∀ id, vs_GetWeight id s = Some (match m !! id with
      | Some w => (sampleable masked id w, true) | None => (0, false) end)) ∧
  (∀ id, vs_contains s id = bool_decide (is_Some (m !! id))) ∧
  vs_Len s = Z.of_nat (size m) ∧
  vs_Weight s = sumZ (sampleable_weight m masked <$> (map_to_list m).*1) ∧
  (∀ subset, vs_SubsetWeight subset s = Some (
     let sum := sumZ (sampleable_weight m masked <$> (map_to_list subset).*1) in
     if decide (sum ≤ MaxUint64) then Ok sum else Err errOverflow)) ∧
  (∀ seed size r s' g', vs_Sample seed size s g = Some (r, s', g') →
     vs_runs s' g' m masked ∧
     match r with
     | Ok vdrs => valid_sample m masked size vdrs
     | Err e => vs_initialized s' = false ∨
         e = errSampler errOutOfRange ∧ vs_Weight s < Z.of_nat size
     end).
Proof.
  destruct (vs_runs_rep _ _ _ _ Hruns) as [Hr <-]. split_and!.
  - intros op Hok. destruct (spec_step_sim op s g m Hr Hok) as (s'&evs&E&Hr'&EK&EL&Hv).
    exists s', evs. split; [done|]. split; [by eapply runs_op|done].
  - intros l. destruct (rep_listen_calls s g m l Hr) as (s'&evs&E&Hv). exists s', evs. split; [exact E|]. split; [by eapply runs_listen|].
    split; [|done]. unfold vs_RegisterCallbackListener in E. destruct (mapM _ _); [|done]. by injection E as <- _.
  - intros id. apply (rep_GetWeight _ _ _ _ Hr).
  - intros id. apply (rep_contains _ _ _ _ Hr).
  - unfold vs_Len. rewrite <-(length_fmap pairing), (rep_perm _ _ _ Hr).
    by rewrite length_map_to_list.
  - apply (rep_Weight _ _ _ Hr).
  - intros subset. unfold vs_SubsetWeight. rewrite (subset_weight_spec _ _ _ _ _ Hr) by done.
    assert (sumZ (sampleable_weight m (maskedVdrs s) <$> (go_range subset).*1) =
      sumZ (sampleable_weight m (maskedVdrs s) <$> (map_to_list subset).*1)) as ->; [|done].
    by rewrite go_range_perm.
  - intros seed size r s' g' E. split; [by eapply runs_sample|].
    by destruct (rep_step_sample _ _ _ _ _ _ _ _ Hr E) as (_&_&_&?).
Qed.
End spec.

(** A set over the deterministic sampler ([NewDeterministicWeighted] and the
    replacer), for the examples. *)
Abbreviation det_sampler := (weightedWithoutReplacementGeneric uniformReplacer weightedHeap).

Definition det_new : det_sampler := mkGeneric uniformReplacer_zero (mkWeightedHeap []).

Lemma validators_refine_map_witness :
  let HR := rng_script in let HS := go_sort_std in let HG := go_range_std in
  ∃ (s : vset nat det_sampler) evs,
    vs_step (opAddWeight (node1 x01) 5) (NewSet det_new) =
      Some (None, s, evs ≫= callCallbacks (NewSet det_new : vset nat det_sampler)) ∧
    vs_GetWeight (node1 x01) s = Some (5, true).
Proof.
  intros HR HS HG.
  destruct (validators_refine_map (L := nat) (NewSet det_new) (mkRngs [] None) ∅ ∅ (runs_new _ _))
    as (Hstep&_).
  destruct (Hstep (opAddWeight (node1 x01) 5)) as (s&evs&E&Hr&_).
  { split; [done|by rewrite map_total_empty]. }
  destruct (validators_refine_map s _ _ _ Hr) as (_&_&Hw&_).
  exists s, evs. split; [exact E|]. rewrite Hw. simpl. rewrite lookup_insert_eq. reflexivity.
Defined.

(** ** Where the set and its promises part *)

(** An addition that overflows the total weight is not an error, but the total
    stays as it was, while the set answers the new weight. *)
Theorem AddWeight_overflow {R L Sm} `{!Rng R, HW : WithoutReplacement R Sm,
    HL : !WithoutReplacementLaws R Sm, !GoRange} (s : vset L Sm) (g : rngs R) m masked id w :
  vs_runs s g m masked → m !! id = None → id ∉ masked → is_u64 w → w ≠ 0 →
  MaxUint64 < vs_Weight s + w →
  ∃ s' calls, vs_AddWeight id w s = Some (None, s', calls) ∧
    vs_Weight s' = vs_Weight s ∧ vs_GetWeight id s' = Some (w, true).
Proof.
  intros [Hr <-]%vs_runs_rep Hm Hid Hw Hz Ho. unfold vs_AddWeight. rewrite decide_False by done.
  pose proof (proj1 (rep_lookup_None _ _ _ Hr id) Hm) as Hmap.
  unfold vs_addWeight, vs_contains. rewrite Hmap. simpl.
  pose proof (f_equal length (rep_weights _ _ _ Hr)) as Hl1.
  pose proof (f_equal length (rep_masked _ _ _ Hr)) as Hl2. rewrite length_fmap in Hl1, Hl2.
  pose proof (rep_total_le _ _ _ Hr). pose proof (rep_bound _ _ _ Hr).
  assert (∀ A (l : list A) x n, length l = n → (l ++ [x]) !! n = Some x) as Hlast.
  { intros A l x n <-. by apply list_lookup_middle. }
  assert (∀ A (l : list A) x y n, length l = n → <[n := y]> (l ++ [x]) = l ++ [y]) as Hins.
  { intros A l x y n <-. by rewrite insert_app_r_alt, Nat.sub_diag by done. }
  rewrite !Hlast by done. simpl. rewrite decide_False by done. rewrite Add64_spec.
  2,3: unfold is_uint, MaxUint64, vs_Weight in *; lia.
  rewrite decide_False by (unfold vs_Weight in *; lia).
  eexists _, _. split; [done|]. split; [done|]. unfold vs_GetWeight. simpl.
  rewrite lookup_insert_eq, Hins, Hlast by done. simpl. by rewrite (wrap_id 64 (0 + w)).
Qed.

(** [Set] tells the listeners of a new validator of weight zero, which the set
    then does not contain. *)
Theorem Set_zero_weight `{GoRange} {L Sm} (sampler : Sm) (l : L) :
  ∃ s', vs_Set [mkValidator (node1 x01) 0]
      (mkVset false ∅ [] [] [] sampler 0 ∅ [l] : vset L Sm) =
    Some (None, s', [(l, OnValidatorAdded (node1 x01) 0)]) ∧ vs_contains s' (node1 x01) = false.
Proof.
  unfold vs_Set. simpl. assert (go_range (∅ : gmap NodeID nat) = []) as ->.
  { apply Permutation_nil_r. by rewrite go_range_perm, map_to_list_empty. }
  eexists. split; reflexivity.
Qed.
