(* ===== verification/Throttling.v ===== *)
(** Throttling of messages by their size (src/network/throttling: common.go,
    inbound_msg_byte_throttler.go, inbound_msg_buffer_throttler.go,
    outbound_msg_throttler.go).

    The byte throttlers hand out the bytes of two allocations: one that every
    node may draw on, up to a limit per node, and one that is shared out among
    the validators by weight.  [Acquire] of the inbound throttler takes what it
    can and, when that is not enough, waits until released bytes have made up for
    the rest; [release] gives the bytes it returns to the messages that wait,
    oldest first.

    The metadata of a message is shared, through a pointer, by the call that
    waits, the list of waiting messages and the function that releases it:
    [bt_meta] is the store.  The parts of [Acquire] and [release] between [Lock]
    and [Unlock] are atomic steps; their interleavings are in ThrottlingInv. *)

From S2P Require Import Prelude SafeMath Ids NodeBag GoStd LinkedHashmap.

(** What the throttlers ask of the validator set at the time of a call. *)
Record vdr_view := mkVdrView { vw_GetWeight : NodeID → Z * bool; vw_Weight : Z }.

Record MsgByteThrottlerConfig := mkByteConfig {
  VdrAllocSize : Z;
  AtLargeAllocSize : Z;
  NodeMaxAtLargeBytes : Z;
}.

Record commonMsgThrottler := mkCommon {
  nodeMaxAtLargeBytes : Z;
  remainingVdrBytes : Z;
  remainingAtLargeBytes : Z;
  nodeToVdrBytesUsed : gmap NodeID Z;
  nodeToAtLargeBytesUsed : gmap NodeID Z;
  maxVdrBytes : Z;
}.

Definition newCommon (config : MsgByteThrottlerConfig) : commonMsgThrottler :=
  mkCommon (NodeMaxAtLargeBytes config) (VdrAllocSize config) (AtLargeAllocSize config) ∅ ∅
    (VdrAllocSize config).

(** [m[k]], zero when there is no entry. *)
Definition used (m : gmap NodeID Z) (k : NodeID) : Z := default 0 (m !! k).

(** [m[k] -= x; if m[k] == 0 { delete(m, k) }] *)
Definition take_back (m : gmap NodeID Z) (k : NodeID) (x : Z) : gmap NodeID Z :=
  let v := wrap64 (used m k - x) in
  if decide (v = 0) then delete k m else <[k := v]> m.

Definition add_used (m : gmap NodeID Z) (k : NodeID) (x : Z) : gmap NodeID Z :=
  <[k := wrap64 (used m k + x)]> m.

Section common.
Context `{GoConv}.

(** The part of the validator allocation a node may use, by its weight. *)
Definition vdr_allocation (vdrs : vdr_view) (c : commonMsgThrottler) (nodeID : NodeID) : Z :=
  let '(weight, isVdr) := vw_GetWeight vdrs nodeID in
  if decide (isVdr = true ∧ weight ≠ 0)
  then uint64_of_float64 (float64_div
         (float64_mul (float64_of_Z (maxVdrBytes c)) (float64_of_Z weight))
         (float64_of_Z (vw_Weight vdrs)))
  else 0.

(** The bytes a node may still take from the at-large allocation. *)
Definition at_large_allowed (c : commonMsgThrottler) (nodeID : NodeID) : Z :=
  wrap64 (nodeMaxAtLargeBytes c - used (nodeToAtLargeBytesUsed c) nodeID).

(** ... and from its validator allocation. *)
Definition vdr_allowed (vdrs : vdr_view) (c : commonMsgThrottler) (nodeID : NodeID) : Z :=
  let vdrAllocationSize := vdr_allocation vdrs c nodeID in
  let vdrBytesAlreadyUsed := used (nodeToVdrBytesUsed c) nodeID in
  if decide (vdrAllocationSize ≤ vdrBytesAlreadyUsed) then 0
  else vdrAllocationSize - vdrBytesAlreadyUsed.

(** Taking bytes, when there are any to take. *)
Definition take_at_large (c : commonMsgThrottler) (nodeID : NodeID) (bytes : Z) : commonMsgThrottler :=
  if decide (bytes > 0)
  then mkCommon (nodeMaxAtLargeBytes c) (remainingVdrBytes c)
         (wrap64 (remainingAtLargeBytes c - bytes)) (nodeToVdrBytesUsed c)
         (add_used (nodeToAtLargeBytesUsed c) nodeID bytes) (maxVdrBytes c)
  else c.

Definition take_vdr (c : commonMsgThrottler) (nodeID : NodeID) (bytes : Z) : commonMsgThrottler :=
  if decide (bytes > 0)
  then mkCommon (nodeMaxAtLargeBytes c) (wrap64 (remainingVdrBytes c - bytes))
         (remainingAtLargeBytes c) (add_used (nodeToVdrBytesUsed c) nodeID bytes)
         (nodeToAtLargeBytesUsed c) (maxVdrBytes c)
  else c.
End common.

(** ** The inbound byte throttler *)

(** [closeOnAcquireChan]: nil, or a channel that is closed or not. *)
Record msgMetadata := mkMeta {
  bytesNeeded : Z;
  msgSize : Z;
  md_nodeID : NodeID;
  closeOnAcquireChan : option bool;
}.

Record inboundMsgByteThrottler := mkByteThrottler {
  bt_common : commonMsgThrottler;
  nextMsgID : Z;
  nodeToWaitingMsgID : gmap NodeID Z;
  waitingToAcquire : linkedHashmap Z positive;
  bt_meta : gmap positive msgMetadata;
}.

Definition newInboundMsgByteThrottler (config : MsgByteThrottlerConfig) : inboundMsgByteThrottler :=
  mkByteThrottler (newCommon config) 0 ∅ lh_New ∅.

(** What [Acquire] comes to before it blocks: a node that waits already, a
    message that can be read, or a message that waits. *)
Inductive acquired_msg :=
| acqError
| acqReady (metadata : positive)
| acqWaiting (metadata : positive) (msgID : Z).

Section inbound.
Context `{GoConv}.

Definition with_common (c : commonMsgThrottler) (t : inboundMsgByteThrottler) : inboundMsgByteThrottler :=
  mkByteThrottler c (nextMsgID t) (nodeToWaitingMsgID t) (waitingToAcquire t) (bt_meta t).

Definition with_meta (p : positive) (m : msgMetadata) (t : inboundMsgByteThrottler)
  : inboundMsgByteThrottler :=
  mkByteThrottler (bt_common t) (nextMsgID t) (nodeToWaitingMsgID t) (waitingToAcquire t)
    (<[p := m]> (bt_meta t)).

(** [Acquire] up to [Unlock]. *)
Definition bt_Acquire (vdrs : vdr_view) (size : Z) (nodeID : NodeID) (t : inboundMsgByteThrottler)
  : acquired_msg * inboundMsgByteThrottler :=
  match nodeToWaitingMsgID t !! nodeID with
  | Some _ => (acqError, t)
  | None =>
      let metadata := fresh (dom (bt_meta t)) in
      let c := bt_common t in
      let atLargeBytesUsed :=
        Min64 size [at_large_allowed c nodeID; remainingAtLargeBytes c] in
      let c := take_at_large c nodeID atLargeBytesUsed in
      let needed := wrap64 (size - atLargeBytesUsed) in
      if decide (atLargeBytesUsed > 0 ∧ needed = 0)
      then (acqReady metadata, with_meta metadata (mkMeta needed size nodeID None) (with_common c t))
      else
        let vdrBytesUsed :=
          Min64 (remainingVdrBytes c) [needed; vdr_allowed vdrs c nodeID] in
        let c := take_vdr c nodeID vdrBytesUsed in
        let needed := wrap64 (needed - vdrBytesUsed) in
        if decide (vdrBytesUsed > 0 ∧ needed = 0)
        then (acqReady metadata, with_meta metadata (mkMeta needed size nodeID None) (with_common c t))
        else
          let msgID := wrap64 (nextMsgID t + 1) in
          (acqWaiting metadata msgID,
           mkByteThrottler c msgID (<[nodeID := msgID]> (nodeToWaitingMsgID t))
             (lh_Put msgID metadata (waitingToAcquire t))
             (<[metadata := mkMeta needed size nodeID (Some false)]> (bt_meta t)))
  end.

(** The branch of [Acquire] for a context that is done. *)
Definition bt_cancel (msgID : Z) (nodeID : NodeID) (t : inboundMsgByteThrottler)
  : inboundMsgByteThrottler :=
  mkByteThrottler (bt_common t) (nextMsgID t) (delete nodeID (nodeToWaitingMsgID t))
    (lh_Delete msgID (waitingToAcquire t)) (bt_meta t).

(** A message that waits gets its last bytes: its channel is closed (a panic
    when it is nil or closed already) and it does not wait any more. *)
Definition bt_unblock (msgID : Z) (p : positive) (msg : msgMetadata) (t : inboundMsgByteThrottler)
  : option inboundMsgByteThrottler :=
  match closeOnAcquireChan msg with
  | Some false =>
      Some (mkByteThrottler (bt_common t) (nextMsgID t)
              (delete (md_nodeID msg) (nodeToWaitingMsgID t)) (lh_Delete msgID (waitingToAcquire t))
              (<[p := mkMeta (bytesNeeded msg) (msgSize msg) (md_nodeID msg) (Some true)]> (bt_meta t)))
  | _ => None
  end.

(** The bytes a waiting message gets from the at-large allocation. *)
Definition bytes_given (c : commonMsgThrottler) (msg : msgMetadata) : Z :=
  Min64 (bytesNeeded msg) [at_large_allowed c (md_nodeID msg); remainingAtLargeBytes c].

(** The loop over the waiting messages of [release]; none is a panic. *)
Fixpoint bt_give_loop (fuel : nat) (it : iterator Z positive) (t : inboundMsgByteThrottler)
  : option inboundMsgByteThrottler :=
  match fuel with
  | O => None
  | S fuel =>
      if decide (remainingAtLargeBytes (bt_common t) > 0) then
        match it_Next (waitingToAcquire t) it with
        | None => None
        | Some (false, _) => Some t
        | Some (true, it) =>
            '(msgID, p) ← it_pair it;
            msg ← bt_meta t !! p;
            let given := bytes_given (bt_common t) msg in
            let msg' := mkMeta (wrap64 (bytesNeeded msg - given)) (msgSize msg) (md_nodeID msg)
                          (closeOnAcquireChan msg) in
            let t := with_meta p msg'
                       (with_common (take_at_large (bt_common t) (md_nodeID msg) given) t) in
            t ← (if decide (bytesNeeded msg' = 0) then bt_unblock msgID p msg' t else Some t);
            bt_give_loop fuel it t
        end
      else Some t
  end.

(** The bytes of the validator allocation go to the message of the node that
    waits, if any; what is left is returned with them. *)
Definition bt_give_vdr (nodeID : NodeID) (vdrBytesToReturn : Z) (t : inboundMsgByteThrottler)
  : option (Z * inboundMsgByteThrottler) :=
  match nodeToWaitingMsgID t !! nodeID with
  | None => Some (vdrBytesToReturn, t)
  | Some msgID =>
      if decide (vdrBytesToReturn > 0) then
        match lh_Get msgID (waitingToAcquire t) with
        | None => Some (vdrBytesToReturn, t)
        | Some p =>
            msg ← bt_meta t !! p;
            let bytesToGive := Min64 (bytesNeeded msg) [vdrBytesToReturn] in
            let msg' := mkMeta (wrap64 (bytesNeeded msg - bytesToGive)) (msgSize msg) (md_nodeID msg)
                          (closeOnAcquireChan msg) in
            let t := with_meta p msg' t in
            let vdrBytesToReturn := wrap64 (vdrBytesToReturn - bytesToGive) in
            if decide (bytesNeeded msg' = 0)
            then match closeOnAcquireChan msg' with
                 | Some false =>
                     Some (vdrBytesToReturn,
                           mkByteThrottler (bt_common t) (nextMsgID t)
                             (delete nodeID (nodeToWaitingMsgID t))
                             (lh_Delete msgID (waitingToAcquire t))
                             (<[p := mkMeta 0 (msgSize msg) (md_nodeID msg) (Some true)]> (bt_meta t)))
                 | _ => None
                 end
            else Some (vdrBytesToReturn, t)
        end
      else Some (vdrBytesToReturn, t)
  end.

Definition bt_release (metadata : positive) (nodeID : NodeID) (t : inboundMsgByteThrottler)
  : option inboundMsgByteThrottler :=
  md ← bt_meta t !! metadata;
  let releasedBytes := wrap64 (msgSize md - bytesNeeded md) in
  let vdrBytesToReturn :=
    Min64 releasedBytes [used (nodeToVdrBytesUsed (bt_common t)) nodeID] in
  let atLargeBytesToReturn := wrap64 (releasedBytes - vdrBytesToReturn) in
  t ← (if decide (atLargeBytesToReturn > 0) then
         let c := bt_common t in
         let t := with_common
           (mkCommon (nodeMaxAtLargeBytes c) (remainingVdrBytes c)
              (wrap64 (remainingAtLargeBytes c + atLargeBytesToReturn)) (nodeToVdrBytesUsed c)
              (take_back (nodeToAtLargeBytesUsed c) nodeID atLargeBytesToReturn) (maxVdrBytes c)) t in
         bt_give_loop (S (length (entryList (waitingToAcquire t)))) NewIterator t
       else Some t);
  '(vdrBytesToReturn, t) ← bt_give_vdr nodeID vdrBytesToReturn t;
  if decide (vdrBytesToReturn > 0) then
    let c := bt_common t in
    Some (with_common
      (mkCommon (nodeMaxAtLargeBytes c) (wrap64 (remainingVdrBytes c + vdrBytesToReturn))
         (remainingAtLargeBytes c) (take_back (nodeToVdrBytesUsed c) nodeID vdrBytesToReturn)
         (nodeToAtLargeBytesUsed c) (maxVdrBytes c)) t)
  else Some t.
End inbound.

(** ** The outbound throttler *)

Section outbound.
Context `{GoConv}.

(** [bypass] is the message's [BypassThrottling]. *)
Definition ob_Acquire (vdrs : vdr_view) (bypass : bool) (size : Z) (nodeID : NodeID)
    (t : commonMsgThrottler) : bool * commonMsgThrottler :=
  if bypass then (true, t)
  else
    let atLargeBytesUsed := Min64 size [at_large_allowed t nodeID; remainingAtLargeBytes t] in
    let needed := wrap64 (size - atLargeBytesUsed) in
    let vdrBytesUsed := Min64 (remainingVdrBytes t) [needed; vdr_allowed vdrs t nodeID] in
    let needed := wrap64 (needed - vdrBytesUsed) in
    if decide (needed ≠ 0) then (false, t)
    else (true, take_vdr (take_at_large t nodeID atLargeBytesUsed) nodeID vdrBytesUsed).

Definition ob_Release (bypass : bool) (size : Z) (nodeID : NodeID) (t : commonMsgThrottler)
  : commonMsgThrottler :=
  if bypass then t
  else
    let vdrBytesToReturn := Min64 size [used (nodeToVdrBytesUsed t) nodeID] in
    let atLargeBytesToReturn := wrap64 (size - vdrBytesToReturn) in
    mkCommon (nodeMaxAtLargeBytes t)
      (wrap64 (remainingVdrBytes t + vdrBytesToReturn))
      (wrap64 (remainingAtLargeBytes t + atLargeBytesToReturn))
      (take_back (nodeToVdrBytesUsed t) nodeID vdrBytesToReturn)
      (take_back (nodeToAtLargeBytesUsed t) nodeID atLargeBytesToReturn) (maxVdrBytes t).
End outbound.

(** ** The buffer throttler *)

(** Channels are numbered; [bb_closed] are the closed ones. *)
Record inboundMsgBufferThrottler := mkBufferThrottler {
  maxProcessingMsgsPerNode : Z;
  nodeToNumProcessingMsgs : gmap NodeID Z;
  awaitingAcquire : gmap NodeID positive;
  bb_chans : gset positive;
  bb_closed : gset positive;
}.

Definition newInboundMsgBufferThrottler (max : Z) : inboundMsgBufferThrottler :=
  mkBufferThrottler max ∅ ∅ ∅ ∅.

Definition bb_count (t : inboundMsgBufferThrottler) (nodeID : NodeID) : Z :=
  used (nodeToNumProcessingMsgs t) nodeID.

Definition bb_increment (nodeID : NodeID) (t : inboundMsgBufferThrottler) : inboundMsgBufferThrottler :=
  mkBufferThrottler (maxProcessingMsgsPerNode t) (add_used (nodeToNumProcessingMsgs t) nodeID 1)
    (awaitingAcquire t) (bb_chans t) (bb_closed t).

(** [Acquire] up to the select: none when the message may be read at once, or
    the channel to wait for. *)
Definition bb_Acquire (nodeID : NodeID) (t : inboundMsgBufferThrottler)
  : option positive * inboundMsgBufferThrottler :=
  if decide (bb_count t nodeID < maxProcessingMsgsPerNode t)
  then (None, bb_increment nodeID t)
  else
    let closeOnAcquireChan := fresh (bb_chans t) in
    (Some closeOnAcquireChan,
     mkBufferThrottler (maxProcessingMsgsPerNode t) (nodeToNumProcessingMsgs t)
       (<[nodeID := closeOnAcquireChan]> (awaitingAcquire t)) ({[closeOnAcquireChan]} ∪ bb_chans t)
       (bb_closed t)).

(** The two branches of the select. *)
Definition bb_acquired (nodeID : NodeID) (t : inboundMsgBufferThrottler) : inboundMsgBufferThrottler :=
  bb_increment nodeID t.

Definition bb_cancel (nodeID : NodeID) (t : inboundMsgBufferThrottler) : inboundMsgBufferThrottler :=
  mkBufferThrottler (maxProcessingMsgsPerNode t) (nodeToNumProcessingMsgs t)
    (delete nodeID (awaitingAcquire t)) (bb_chans t) (bb_closed t).

(** None: closing a closed channel. *)
Definition bb_release (nodeID : NodeID) (t : inboundMsgBufferThrottler)
  : option inboundMsgBufferThrottler :=
  let counts := take_back (nodeToNumProcessingMsgs t) nodeID 1 in
  match awaitingAcquire t !! nodeID with
  | None =>
      Some (mkBufferThrottler (maxProcessingMsgsPerNode t) counts (awaitingAcquire t) (bb_chans t)
              (bb_closed t))
  | Some waiting =>
      if decide (waiting ∈ bb_closed t) then None
      else Some (mkBufferThrottler (maxProcessingMsgsPerNode t) counts
                   (delete nodeID (awaitingAcquire t)) (bb_chans t) ({[waiting]} ∪ bb_closed t))
  end.

(** ** Handing out the at-large bytes, as a function on the waiting messages *)

Abbreviation meta_store := (gmap positive msgMetadata).

(** What giving [g] bytes makes of the metadata of a message that waits. *)
Definition give_meta (msg : msgMetadata) (g : Z) : msgMetadata :=
  mkMeta (bytesNeeded msg - g) (msgSize msg) (md_nodeID msg)
    (if decide (bytesNeeded msg - g = 0) then Some true else closeOnAcquireChan msg).

Definition give_bytes (max : Z) (rem : Z) (al : gmap NodeID Z) (msg : msgMetadata) : Z :=
  bytesNeeded msg `min` (max - used al (md_nodeID msg)) `min` rem.

(** The state of the loop: the bytes that remain, the bytes used by each node and
    the metadata; [kept] are the messages that go on waiting. *)
Record given := mkGiven {
  gv_rem : Z;
  gv_al : gmap NodeID Z;
  gv_meta : meta_store;
  gv_kept : list (Z * positive);
}.

Fixpoint give (max rem : Z) (al : gmap NodeID Z) (meta : meta_store) (l : list (Z * positive)) : given :=
  match l with
  | [] => mkGiven rem al meta []
  | (id, p) :: l =>
      if decide (rem > 0) then
        match meta !! p with
        | None => mkGiven rem al meta ((id, p) :: l)
        | Some msg =>
            let g := give_bytes max rem al msg in
            let al := if decide (g > 0) then <[md_nodeID msg := used al (md_nodeID msg) + g]> al else al in
            let r := give max (rem - g) al (<[p := give_meta msg g]> meta) l in
            if decide (bytesNeeded msg - g = 0) then r
            else mkGiven (gv_rem r) (gv_al r) (gv_meta r) ((id, p) :: gv_kept r)
        end
      else mkGiven rem al meta ((id, p) :: l)
  end.

(** ** The loop of [release] hands out as [give] does *)

(** The node table agrees with the list of waiting messages. *)
Definition consistent (waiting : gmap NodeID Z) (l : list (Z * positive)) (meta : meta_store) : Prop :=
  ∀ n id, waiting !! n = Some id ↔
    ∃ p msg, (id, p) ∈ l ∧ meta !! p = Some msg ∧ md_nodeID msg = n.

(** A message that waits. *)
Definition waits (msg : msgMetadata) : Prop :=
  is_u64 (bytesNeeded msg) ∧ closeOnAcquireChan msg = Some false.

Definition all_wait (meta : meta_store) (l : list (Z * positive)) : Prop :=
  Forall (λ e, ∃ msg, meta !! e.2 = Some msg ∧ waits msg) l.

(** The at-large allocation is in bounds. *)
Definition al_ok (max rem : Z) (al : gmap NodeID Z) : Prop :=
  is_u64 max ∧ is_u64 rem ∧ ∀ n, 0 ≤ used al n ≤ max.

Lemma Min64_3 a b c : Min64 a [b; c] = a `min` b `min` c.
Proof. unfold Min64. simpl. decide_lia. Qed.

Lemma Min64_2 a b : Min64 a [b] = a `min` b.
Proof. unfold Min64. simpl. decide_lia. Qed.

Lemma at_large_allowed_eq c n rem :
  al_ok (nodeMaxAtLargeBytes c) rem (nodeToAtLargeBytesUsed c) →
  at_large_allowed c n = nodeMaxAtLargeBytes c - used (nodeToAtLargeBytesUsed c) n.
Proof.
  intros (Hm&_&Hu). unfold at_large_allowed. rewrite wrap_id; [done|].
  specialize (Hu n). unfold is_uint in *. lia.
Qed.

Lemma bytes_given_eq c msg :
  al_ok (nodeMaxAtLargeBytes c) (remainingAtLargeBytes c) (nodeToAtLargeBytesUsed c) →
  bytes_given c msg =
    give_bytes (nodeMaxAtLargeBytes c) (remainingAtLargeBytes c) (nodeToAtLargeBytesUsed c) msg.
Proof. intros Hok. unfold bytes_given, give_bytes. by rewrite Min64_3, (at_large_allowed_eq _ _ _ Hok). Qed.

Lemma give_bytes_range max rem al msg :
  al_ok max rem al → is_u64 (bytesNeeded msg) →
  0 ≤ give_bytes max rem al msg ≤ bytesNeeded msg ∧ give_bytes max rem al msg ≤ rem ∧
  used al (md_nodeID msg) + give_bytes max rem al msg ≤ max.
Proof.
  intros (Hm&Hr&Hu) Hn. specialize (Hu (md_nodeID msg)). unfold give_bytes, is_uint in *. lia.
Qed.

Lemma used_insert m k v n : used (<[k := v]> m) n = if decide (k = n) then v else used m n.
Proof. unfold used. rewrite lookup_insert. by case_decide. Qed.

(** Taking bytes for a node. *)
Lemma take_at_large_eq c n g :
  al_ok (nodeMaxAtLargeBytes c) (remainingAtLargeBytes c) (nodeToAtLargeBytesUsed c) →
  0 ≤ g ≤ remainingAtLargeBytes c → used (nodeToAtLargeBytesUsed c) n + g ≤ nodeMaxAtLargeBytes c →
  take_at_large c n g =
    mkCommon (nodeMaxAtLargeBytes c) (remainingVdrBytes c) (remainingAtLargeBytes c - g)
      (nodeToVdrBytesUsed c)
      (if decide (g > 0)
       then <[n := used (nodeToAtLargeBytesUsed c) n + g]> (nodeToAtLargeBytesUsed c)
       else nodeToAtLargeBytesUsed c) (maxVdrBytes c).
Proof.
  intros (Hm&Hr&Hu) Hg Hmax. specialize (Hu n). unfold take_at_large, add_used.
  case_decide; [rewrite !wrap_id by (unfold is_uint in *; lia); done|].
  replace g with 0 by lia. rewrite Z.sub_0_r. by destruct c.
Qed.

Lemma al_ok_take max rem al n g :
  al_ok max rem al → 0 ≤ g ≤ rem → used al n + g ≤ max →
  al_ok max (rem - g) (if decide (g > 0) then <[n := used al n + g]> al else al).
Proof.
  intros (Hm&Hr&Hu) Hg Hmax. split; [done|]. split; [unfold is_uint in *; lia|].
  intros n'. pose proof (Hu n). case_decide; [|done]. rewrite used_insert. case_decide; [lia|done].
Qed.

Lemma all_wait_insert meta l p msg :
  p ∉ l.*2 → all_wait meta l → all_wait (<[p := msg]> meta) l.
Proof.
  intros Hp Hl. apply Forall_forall. intros e He. unfold all_wait in Hl. rewrite Forall_forall in Hl.
  destruct (Hl e He) as (m&Hm&Hw). exists m. split; [|done].
  rewrite lookup_insert_ne; [done|]. intros ->. apply Hp. by apply list_elem_of_fmap_2.
Qed.

Lemma consistent_inj w l meta id p id' p' msg msg' :
  consistent w l meta → (id, p) ∈ l → (id', p') ∈ l → meta !! p = Some msg → meta !! p' = Some msg' →
  md_nodeID msg = md_nodeID msg' → id = id'.
Proof.
  intros Hc H1 H2 E1 E2 En.
  assert (w !! md_nodeID msg = Some id) by (apply Hc; eauto).
  assert (w !! md_nodeID msg = Some id') by (apply Hc; naive_solver). congruence.
Qed.

(** The same messages wait, with other bytes. *)
Lemma consistent_update w l meta p msg msg' :
  consistent w l meta → meta !! p = Some msg → md_nodeID msg' = md_nodeID msg →
  consistent w l (<[p := msg']> meta).
Proof.
  intros Hc Hp En n id. rewrite (Hc n id). split.
  - intros (q&m&Hq&Hm&<-). destruct (decide (p = q)) as [->|Hne].
    + exists q, msg'. rewrite lookup_insert_eq. split_and!; [done|done|]. simplify_eq. done.
    + exists q, m. by rewrite lookup_insert_ne by done.
  - intros (q&m&Hq&Hm&<-). apply lookup_insert_Some in Hm as [[<- <-]|[Hne Hm]].
    + exists p, msg. by rewrite En.
    + by exists q, m.
Qed.

(** A message that does not wait any more. *)
Lemma consistent_remove w l1 l2 meta id p msg :
  NoDup (l1 ++ (id, p) :: l2).*1 → consistent w (l1 ++ (id, p) :: l2) meta → meta !! p = Some msg →
  consistent (delete (md_nodeID msg) w) (l1 ++ l2) meta.
Proof.
  intros Hnd Hc Hp n id'. rewrite lookup_delete_Some, (Hc n id').
  assert (∀ e, e ∈ l1 ++ l2 → e ∈ l1 ++ (id, p) :: l2 ∧ e.1 ≠ id) as Hsub.
  { intros e He. rewrite fmap_app, fmap_cons in Hnd.
    rewrite <-Permutation_middle in Hnd. apply NoDup_cons in Hnd as [Hid _]. simpl in Hid. split.
    - apply elem_of_app in He as [He|He]; apply elem_of_app; [by left|right; by right].
    - intros E. apply Hid. rewrite <-E, <-fmap_app. by apply list_elem_of_fmap_2. }
  assert ((id, p) ∈ l1 ++ (id, p) :: l2) as Hin by (apply elem_of_app; right; left).
  split.
  - intros [Hne (q&m&Hq&Hm&<-)]. exists q, m. split; [|done].
    apply elem_of_app in Hq as [Hq|Hq]; [apply elem_of_app; by left|].
    apply elem_of_cons in Hq as [E|Hq]; [|apply elem_of_app; by right].
    simplify_eq.
  - intros (q&m&Hq&Hm&<-). apply Hsub in Hq as [Hq Hne]. split; [|eauto].
    intros E. by apply Hne, (consistent_inj _ _ _ _ _ _ _ _ _ Hc Hq Hin Hm Hp).
Qed.

Lemma alist_delete_middle (l1 l2 : list (Z * positive)) id p :
  NoDup (l1 ++ (id, p) :: l2).*1 → alist_delete id (l1 ++ (id, p) :: l2) = l1 ++ l2.
Proof.
  intros Hnd. rewrite fmap_app, fmap_cons in Hnd. apply NoDup_app in Hnd as (_&Hd&Hnd).
  apply NoDup_cons in Hnd as [Hid _]. unfold alist_delete. rewrite filter_app, filter_cons_False by (simpl; tauto).
  rewrite !list_filter_id; [done| |].
  - intros e He E. apply Hid. simpl. rewrite <-E. by apply list_elem_of_fmap_2.
  - intros e He E. apply (Hd id); [rewrite <-E; by apply list_elem_of_fmap_2|left].
Qed.

Lemma holds_delete (lh : linkedHashmap Z positive) id e es l :
  entryMap lh !! id = Some e → id ∉ l.*1 → Forall2 (holds lh) es l → Forall2 (holds (lh_Delete id lh)) es l.
Proof.
  intros Hid Hn Hf. eapply Forall2_impl_in; [exact Hf|]. intros e' q He' Hq [H1 H2].
  unfold lh_Delete. rewrite Hid. split; simpl; [done|].
  rewrite lookup_delete_ne; [done|]. intros ->. apply Hn. by apply list_elem_of_fmap_2.
Qed.

Lemma bt_give_loop_spec l2 es l1 fuel it t :
  let c := bt_common t in
  let r := give (nodeMaxAtLargeBytes c) (remainingAtLargeBytes c) (nodeToAtLargeBytesUsed c)
             (bt_meta t) l2 in
  lh_rep (waitingToAcquire t) (l1 ++ l2) → it_at (waitingToAcquire t) it es →
  Forall2 (holds (waitingToAcquire t)) es l2 → (length l2 < fuel)%nat →
  al_ok (nodeMaxAtLargeBytes c) (remainingAtLargeBytes c) (nodeToAtLargeBytesUsed c) →
  all_wait (bt_meta t) l2 → NoDup l2.*2 →
  consistent (nodeToWaitingMsgID t) (l1 ++ l2) (bt_meta t) →
  ∃ t', bt_give_loop fuel it t = Some t' ∧
    bt_common t' = mkCommon (nodeMaxAtLargeBytes c) (remainingVdrBytes c) (gv_rem r)
                     (nodeToVdrBytesUsed c) (gv_al r) (maxVdrBytes c) ∧
    bt_meta t' = gv_meta r ∧ nextMsgID t' = nextMsgID t ∧
    lh_rep (waitingToAcquire t') (l1 ++ gv_kept r) ∧
    consistent (nodeToWaitingMsgID t') (l1 ++ gv_kept r) (bt_meta t').
Proof.
  cbv zeta. revert es l1 fuel it t.
  induction l2 as [|[id p] l2 IH]; intros es l1 [|fuel] it t Hrep Hit Hf Hfuel Hok Hw Hnd Hc;
    try (simpl in Hfuel; lia); cbn [bt_give_loop give].
  { apply Forall2_nil_inv_r in Hf as ->. simpl.
    destruct (it_Next_nil _ _ Hit) as [it' ->].
    exists t. split; [by case_decide|]. split; [by destruct (bt_common t)|]. done. }
  destruct (decide (remainingAtLargeBytes (bt_common t) > 0)) as [Hrem|Hrem].
  2:{ exists t. simpl. split; [done|]. split; [by destruct (bt_common t)|]. done. }
  apply Forall2_cons_inv_r in Hf as (e&es'&Hh&Hf&->).
  destruct (it_Next_cons _ _ _ _ _ Hrep Hit) as (it'&->&Hpair&Hini&Hit').
  destruct Hh as [He Hmap]. simpl in Hmap. rewrite Hpair, He. simpl.
  apply Forall_cons in Hw as [(msg&Hm&Hneed&Hchan) Hw]. simpl in Hm. rewrite Hm. simpl.
  apply NoDup_cons in Hnd as [Hp Hnd]. simpl in Hp.
  rewrite (bytes_given_eq _ _ Hok). set (c := bt_common t) in *.
  set (g := give_bytes (nodeMaxAtLargeBytes c) (remainingAtLargeBytes c) (nodeToAtLargeBytesUsed c) msg).
  destruct (give_bytes_range _ _ _ _ Hok Hneed) as (Hg1&Hg2&Hg3). fold g in Hg1, Hg2, Hg3.
  rewrite (take_at_large_eq _ _ _ Hok) by lia.
  rewrite (wrap_id 64 (bytesNeeded msg - g)) by (unfold is_uint in *; lia).
  pose proof (al_ok_take _ _ _ (md_nodeID msg) g Hok ltac:(lia) ltac:(lia)) as Hok'.
  destruct (decide (bytesNeeded msg - g = 0)) as [Hz|Hz]; simpl.
  - unfold bt_unblock. simpl. rewrite Hchan. simpl.
    assert (id ∉ l2.*1) as Hid.
    { pose proof (rep_NoDup_keys _ _ Hrep) as Hk. rewrite fmap_app, fmap_cons in Hk.
      apply NoDup_app in Hk as (_&_&Hk). by apply NoDup_cons in Hk as [? _]. }
    assert (e ∉ es') as Hee.
    { pose proof (rep_nodup _ _ Hrep) as Hne. intros Hin.
      assert (Forall2 (holds (waitingToAcquire t)) es' l2) as Hf' by done.
      apply list_elem_of_lookup in Hin as [j Hj].
      destruct (Forall2_lookup_l _ _ _ _ _ Hf' Hj) as (q&Hq&[Hq1 Hq2]). rewrite He in Hq1.
      simplify_eq. apply Hid. change id with ((id, p).1). apply list_elem_of_fmap_2.
      by eapply list_elem_of_lookup_2. }
    match goal with |- context [bt_give_loop fuel it' ?t1] => set (t1' := t1) end.
    pose proof (rep_NoDup_keys _ _ Hrep) as Hkeys.
    destruct (IH es' l1 fuel it' t1') as (t'&E&H1&H2&H3&H4&H5); simpl; try done.
    + pose proof (lh_Delete_rep id _ _ Hrep) as Hd. by rewrite alist_delete_middle in Hd.
    + by eapply it_at_Delete.
    + by eapply holds_delete.
    + simpl in Hfuel. lia.
    + rewrite insert_insert_eq. by apply all_wait_insert.
    + rewrite insert_insert_eq.
      eapply consistent_remove in Hc; [|done|exact Hm].
      eapply consistent_update; [exact Hc|exact Hm|done].
    + exists t'. rewrite E. split; [done|]. simpl in H1, H2, H3, H4, H5.
      rewrite insert_insert_eq in *. unfold give_meta.
      rewrite (decide_True (P := bytesNeeded msg - g = 0)) by done. done.
  - match goal with |- context [bt_give_loop fuel it' ?t1] => set (t1' := t1) end.
    destruct (IH es' (l1 ++ [(id, p)]) fuel it' t1') as (t'&E&H1&H2&H3&H4&H5); simpl; try done.
    + by rewrite <-app_assoc.
    + simpl in Hfuel. lia.
    + by apply all_wait_insert.
    + rewrite <-app_assoc. simpl. by eapply consistent_update.
    + exists t'. rewrite E. split; [done|]. simpl in H1, H2, H3, H4, H5.
      unfold give_meta. rewrite (decide_False (P := bytesNeeded msg - g = 0)) by done.
      rewrite <-!app_assoc in *. done.
Qed.
