(* ===== verification/ThrottlingInv.v ===== *)
(** The inbound byte throttler keeps its books (inbound_msg_byte_throttler.go).

    [throttle] is the throttler with the calls of [Acquire] that are blocked and
    the messages whose release function has not been called; [throttle_step] are
    the atomic steps, in any order.  A node has at most one blocked call at a
    time, as the callers promise.  [throttle_inv] is the invariant: what remains
    of an allocation and what the nodes use make up the allocation, and what a
    node uses is what its calls have acquired. *)

From S2P Require Import Prelude SafeMath Ids NodeBag GoStd LinkedHashmap Throttling.
From Stdlib Require Import Strings.Byte.

(** ** An allocation *)

Record alloc_ok (total rem : Z) (m : gmap NodeID Z) : Prop := {
  ao_total : rem + map_total m = total;
  ao_range : is_u64 total;
  ao_rem : 0 ≤ rem;
  ao_nonneg : map_Forall (λ _ x, 0 ≤ x) m;
}.

Lemma used_nonneg total rem m n : alloc_ok total rem m → 0 ≤ used m n.
Proof. intros Ha. unfold used. destruct (m !! n) eqn:E; simpl; [by apply (ao_nonneg _ _ _ Ha n)|lia]. Qed.

Lemma used_le_total total rem m n : alloc_ok total rem m → used m n + rem ≤ total.
Proof.
  intros Ha. pose proof (ao_total _ _ _ Ha). pose proof (ao_nonneg _ _ _ Ha) as Hn. unfold used.
  destruct (m !! n) as [x|] eqn:E; simpl.
  - pose proof (map_total_lookup_le m n x Hn E). lia.
  - pose proof (map_total_nonneg m Hn). lia.
Qed.

Lemma alloc_u64 total rem m n : alloc_ok total rem m → is_u64 rem ∧ is_u64 (used m n).
Proof.
  intros Ha. pose proof (used_nonneg _ _ _ n Ha). pose proof (used_le_total _ _ _ n Ha).
  pose proof (ao_rem _ _ _ Ha). pose proof (ao_range _ _ _ Ha). unfold is_uint in *. lia.
Qed.

(** The update of [n] alone. *)
Definition moved (m m' : gmap NodeID Z) (n : NodeID) (x : Z) : Prop :=
  ∀ n', used m' n' = used m n' + if decide (n' = n) then x else 0.

Lemma alloc_insert total rem m n g :
  alloc_ok total rem m → - used m n ≤ g ≤ rem →
  alloc_ok total (rem - g) (<[n := used m n + g]> m) ∧ moved m (<[n := used m n + g]> m) n g.
Proof.
  intros Ha Hg. split.
  - split.
    + rewrite map_total_insert. pose proof (ao_total _ _ _ Ha). unfold used. lia.
    + apply Ha.
    + lia.
    + apply map_Forall_insert_2; [lia|apply Ha].
  - intros n'. rewrite used_insert. destruct (decide (n' = n)) as [->|Hne].
    + by rewrite decide_True.
    + rewrite decide_False by congruence. lia.
Qed.

Lemma alloc_take total rem m n g :
  alloc_ok total rem m → 0 ≤ g ≤ rem →
  alloc_ok total (rem - g) (if decide (g > 0) then <[n := used m n + g]> m else m) ∧
  moved m (if decide (g > 0) then <[n := used m n + g]> m else m) n g.
Proof.
  intros Ha Hg. pose proof (used_nonneg _ _ _ n Ha). case_decide.
  - apply alloc_insert; [done|lia].
  - replace g with 0 by lia. rewrite Z.sub_0_r. split; [done|]. intros n'. case_decide; lia.
Qed.

Lemma alloc_take_back total rem m n x :
  alloc_ok total rem m → 0 ≤ x ≤ used m n →
  alloc_ok total (rem + x) (take_back m n x) ∧ moved m (take_back m n x) n (- x).
Proof.
  intros Ha Hx. destruct (alloc_u64 _ _ _ n Ha) as [_ Hu].
  unfold take_back. rewrite wrap_id by (unfold is_uint in *; lia). case_decide as Hz.
  - split.
    + split.
      * pose proof (ao_total _ _ _ Ha). unfold used in *. destruct (m !! n) as [v|] eqn:E; simpl in *.
        -- rewrite (map_total_delete m n v E) in *. lia.
        -- rewrite delete_id by done. lia.
      * apply Ha.
      * pose proof (ao_rem _ _ _ Ha). lia.
      * apply map_Forall_delete, Ha.
    + intros n'. unfold used in *. rewrite lookup_delete. destruct (decide (n' = n)) as [->|Hne].
      * rewrite decide_True by done. simpl. lia.
      * rewrite decide_False by congruence. lia.
  - replace (used m n - x) with (used m n + - x) by lia. replace (rem + x) with (rem - - x) by lia.
    pose proof (ao_rem _ _ _ Ha). apply alloc_insert; [done|lia].
Qed.

(** ** What the calls of a node have acquired *)

Definition acquired_by (meta : meta_store) (n : NodeID) (p : positive) : Z :=
  match meta !! p with
  | Some msg => if decide (md_nodeID msg = n) then msgSize msg - bytesNeeded msg else 0
  | None => 0
  end.

Definition node_acquired (meta : meta_store) (n : NodeID) (calls : list positive) : Z :=
  sumZ (acquired_by meta n <$> calls).

#[export] Instance node_acquired_perm meta n : Proper ((≡ₚ) ==> (=)) (node_acquired meta n).
Proof. intros l1 l2 Hp. unfold node_acquired. by rewrite Hp. Qed.

Lemma node_acquired_cons meta n p calls :
  node_acquired meta n (p :: calls) = acquired_by meta n p + node_acquired meta n calls.
Proof. unfold node_acquired. by rewrite fmap_cons, sumZ_cons. Qed.

Lemma node_acquired_not_in meta n p msg calls :
  p ∉ calls → node_acquired (<[p := msg]> meta) n calls = node_acquired meta n calls.
Proof.
  intros Hp. unfold node_acquired. f_equal. apply list_fmap_ext. intros i q Hq.
  unfold acquired_by. rewrite lookup_insert_ne; [done|]. intros <-.
  apply Hp. by eapply list_elem_of_lookup_2.
Qed.

Lemma node_acquired_insert meta n p msg msg' calls :
  NoDup calls → p ∈ calls → meta !! p = Some msg → md_nodeID msg' = md_nodeID msg →
  msgSize msg' = msgSize msg →
  node_acquired (<[p := msg']> meta) n calls =
    node_acquired meta n calls +
      if decide (n = md_nodeID msg) then bytesNeeded msg - bytesNeeded msg' else 0.
Proof.
  intros Hnd Hp Hm En Es. apply elem_of_Permutation in Hp as [calls' Hp].
  rewrite Hp, !node_acquired_cons. rewrite Hp in Hnd. apply NoDup_cons in Hnd as [Hn _].
  rewrite (node_acquired_not_in meta n p msg' calls' Hn).
  unfold acquired_by. rewrite lookup_insert_eq, Hm, En, Es.
  destruct (decide (n = md_nodeID msg)) as [->|Hne].
  - rewrite !decide_True by done. lia.
  - rewrite !decide_False by congruence. lia.
Qed.

(** ** Handing out bytes *)

(** The same message, perhaps with more bytes. *)
Definition fed (msg msg' : msgMetadata) : Prop :=
  md_nodeID msg' = md_nodeID msg ∧ msgSize msg' = msgSize msg ∧
  0 ≤ bytesNeeded msg' ≤ bytesNeeded msg.

Lemma fed_refl msg : 0 ≤ bytesNeeded msg → fed msg msg.
Proof. intros. split; [done|]. split; [done|]. lia. Qed.

Definition feeds (meta meta' : meta_store) : Prop :=
  (∀ p, meta !! p = None → meta' !! p = None) ∧
  ∀ p msg, meta !! p = Some msg → 0 ≤ bytesNeeded msg →
    ∃ msg', meta' !! p = Some msg' ∧ fed msg msg'.

Lemma feeds_refl meta : feeds meta meta.
Proof. split; [done|]. intros p msg Hm Hn. exists msg. by auto using fed_refl. Qed.

Lemma feeds_trans meta1 meta2 meta3 : feeds meta1 meta2 → feeds meta2 meta3 → feeds meta1 meta3.
Proof.
  intros [N1 F1] [N2 F2]. split; [auto|]. intros p msg Hm Hn.
  destruct (F1 p msg Hm Hn) as (msg2&Hm2&E1&E2&Hle).
  destruct (F2 p msg2 Hm2) as (msg3&Hm3&E3&E4&Hle3); [lia|]. exists msg3. split; [done|].
  unfold fed. rewrite E3, E4, E1, E2. split; [done|]. split; [done|]. lia.
Qed.

Lemma feeds_insert meta p msg msg' :
  meta !! p = Some msg → fed msg msg' → feeds meta (<[p := msg']> meta).
Proof.
  intros Hm Hf. split.
  - intros q Hq. rewrite lookup_insert_ne; [done|]. congruence.
  - intros q m Hq Hn. destruct (decide (p = q)) as [->|Hne].
    + exists msg'. rewrite lookup_insert_eq. split; [done|]. by simplify_eq.
    + exists m. rewrite lookup_insert_ne by done. auto using fed_refl.
Qed.

(** What [give] keeps and achieves. *)
Record give_spec (total max rem : Z) (al : gmap NodeID Z) (meta : meta_store)
    (l : list (Z * positive)) (r : given) : Prop := {
  gs_alloc : alloc_ok total (gv_rem r) (gv_al r);
  gs_max n : used al n ≤ used (gv_al r) n ≤ max;
  gs_feeds : feeds meta (gv_meta r);
  gs_other p : p ∉ l.*2 → gv_meta r !! p = meta !! p;
  gs_acquired calls : NoDup calls → (∀ p, p ∈ l.*2 → p ∈ calls) → ∀ n,
    used (gv_al r) n - used al n = node_acquired (gv_meta r) n calls - node_acquired meta n calls;
  gs_kept : gv_kept r `sublist_of` l;
  gs_kept_wait e : e ∈ gv_kept r → ∃ msg, gv_meta r !! e.2 = Some msg ∧ waits msg ∧
    (gv_rem r = 0 ∨ used (gv_al r) (md_nodeID msg) = max);
  gs_done e : e ∈ l → e ∈ gv_kept r ∨
    ∃ msg, gv_meta r !! e.2 = Some msg ∧ bytesNeeded msg = 0 ∧ closeOnAcquireChan msg = Some true;
  gs_needs : (∀ e msg, e ∈ l → meta !! e.2 = Some msg → bytesNeeded msg ≠ 0) →
    ∀ e msg, e ∈ gv_kept r → gv_meta r !! e.2 = Some msg → bytesNeeded msg ≠ 0;
}.

Lemma fed_give msg g :
  0 ≤ g ≤ bytesNeeded msg → fed msg (give_meta msg g).
Proof. intros Hg. split; [done|]. split; [done|]. simpl. lia. Qed.

(** The first message of the list takes its share. *)
Lemma give_head total max rem al meta msg p (l : list (Z * positive)) :
  alloc_ok total rem al → is_u64 max → (∀ n, used al n ≤ max) → is_u64 (bytesNeeded msg) →
  all_wait meta l → p ∉ l.*2 →
  let g := give_bytes max rem al msg in
  let al' := if decide (g > 0) then <[md_nodeID msg := used al (md_nodeID msg) + g]> al else al in
  (0 ≤ g ≤ bytesNeeded msg ∧ g ≤ rem ∧ used al (md_nodeID msg) + g ≤ max) ∧
  (bytesNeeded msg - g = 0 ∨ g = rem ∨ g = max - used al (md_nodeID msg)) ∧
  alloc_ok total (rem - g) al' ∧ moved al al' (md_nodeID msg) g ∧ (∀ n, used al' n ≤ max) ∧
  all_wait (<[p := give_meta msg g]> meta) l.
Proof.
  intros Ha Hmax Hu Hneed Hw Hp g al'.
  assert (al_ok max rem al) as Hok.
  { split; [done|]. split; [apply (alloc_u64 _ _ _ (md_nodeID msg) Ha)|].
    intros n. split; [by eapply used_nonneg|done]. }
  pose proof (give_bytes_range max rem al msg Hok Hneed) as Hg. fold g in Hg. split; [done|].
  split; [unfold g, give_bytes; lia|].
  destruct (alloc_take _ _ _ (md_nodeID msg) g Ha ltac:(lia)) as [Ha' Hmv].
  split; [done|]. split; [done|]. split; [|by apply all_wait_insert].
  intros n. fold al' in Hmv. rewrite Hmv. specialize (Hu n).
  destruct (decide (n = md_nodeID msg)); subst; lia.
Qed.

Lemma give_ok total max rem al meta l :
  alloc_ok total rem al → is_u64 max → (∀ n, used al n ≤ max) → all_wait meta l → NoDup l.*2 →
  give_spec total max rem al meta l (give max rem al meta l).
Proof.
  intros Ha Hmax Hu Hw Hnd. revert rem al meta Ha Hu Hw.
  induction l as [|[id p] l IH]; intros rem al meta Ha Hu Hw; cbn [give].
  { split; simpl; try done; try (by intros e He%elem_of_nil).
    - apply feeds_refl.
    - intros. lia. }
  pose proof Hw as Hw0. apply Forall_cons in Hw as [(msg&Hm&Hneed&Hchan) Hw]. simpl in Hm.
  apply NoDup_cons in Hnd as [Hp Hnd]. simpl in Hp. destruct (decide (rem > 0)) as [Hrem|Hrem].
  2:{ split; simpl; [done|by intros n; split|apply feeds_refl|done|intros; lia|done| |by auto|done].
      intros e He. unfold all_wait in Hw0. rewrite Forall_forall in Hw0.
      destruct (Hw0 e He) as (m&Hm'&Hwm). exists m. split_and!; [done|done|].
      pose proof (ao_rem _ _ _ Ha). left. lia. }
  rewrite Hm.
  destruct (give_head total max rem al meta msg p l Ha Hmax Hu Hneed Hw Hp)
    as ((Hg1&Hg2&Hg3)&Hwhy&Ha'&Hmv&Hu'&Hw').
  set (g := give_bytes max rem al msg) in *. set (al' := if decide (g > 0) then _ else _) in *.
  pose proof (fed_give msg g ltac:(lia)) as Hfed.
  pose proof (feeds_insert meta p msg _ Hm Hfed) as Hfeeds.
  destruct (IH Hnd (rem - g) al' (<[p := give_meta msg g]> meta) Ha' Hu' Hw')
    as [S1 S2 S3 S4 S5 S6 S7 S8 S9].
  set (r := give max (rem - g) al' (<[p := give_meta msg g]> meta) l) in *.
  assert (gv_meta r !! p = Some (give_meta msg g)) as Hrp.
  { rewrite S4 by done. apply lookup_insert_eq. }
  assert (∀ n, used al n ≤ used (gv_al r) n ≤ max) as Hrange.
  { intros n. specialize (S2 n). rewrite Hmv in S2. destruct (decide (n = md_nodeID msg)); lia. }
  assert (∀ q, q ∉ (p :: l.*2) → gv_meta r !! q = meta !! q) as Hother.
  { intros q Hq. apply not_elem_of_cons in Hq as [Hq1 Hq2]. rewrite S4 by done.
    by rewrite lookup_insert_ne by done. }
  assert (∀ calls, NoDup calls → (∀ q, q ∈ p :: l.*2 → q ∈ calls) → ∀ n,
    used (gv_al r) n - used al n = node_acquired (gv_meta r) n calls - node_acquired meta n calls) as Hacq.
  { intros calls Hc Hin n. assert (p ∈ calls) as Hpc by (apply Hin; left).
    assert (∀ q, q ∈ l.*2 → q ∈ calls) as Hin' by (intros q Hq; apply Hin; by right).
    pose proof (S5 calls Hc Hin' n) as E. rewrite Hmv in E.
    rewrite (node_acquired_insert meta n p msg) in E by done. simpl in E.
    destruct (decide (n = md_nodeID msg)); lia. }
  assert ((∀ e m, e ∈ (id, p) :: l → meta !! e.2 = Some m → bytesNeeded m ≠ 0) →
    ∀ e m, e ∈ gv_kept r → gv_meta r !! e.2 = Some m → bytesNeeded m ≠ 0) as Hneeds.
  { intros Hn. apply S9. intros e m He. rewrite lookup_insert_ne; [apply Hn; by right|].
    intros ->. apply Hp. by apply list_elem_of_fmap_2. }
  destruct (decide (bytesNeeded msg - g = 0)) as [Hz|Hz].
  - split; try done.
    + by eapply feeds_trans.
    + by apply sublist_cons.
    + intros e [->|He]%elem_of_cons; [right|by apply S8]. exists (give_meta msg g). split; [done|].
      unfold give_meta. simpl. by rewrite decide_True.
  - split; simpl; try done.
    + by eapply feeds_trans.
    + by apply sublist_skip.
    + intros e [->|He]%elem_of_cons; [|by apply S7]. exists (give_meta msg g). simpl.
      split; [done|]. unfold waits, give_meta. simpl. rewrite decide_False by done.
      split; [split; [unfold is_uint in *; lia|done]|].
      pose proof (S2 (md_nodeID msg)) as Hn. pose proof (Hmv (md_nodeID msg)) as Hmn.
      rewrite decide_True in Hmn by done.
      destruct Hwhy as [?|[E|E]]; [done| |right; lia].
      left. unfold r. rewrite E, Z.sub_diag. by destruct l as [|[]].
    + intros e [->|He]%elem_of_cons; [left; left|]. destruct (S8 e He) as [?|?]; [left; by right|by right].
    + intros Hn e m [->|He]%elem_of_cons; [|by apply Hneeds]. simpl. rewrite Hrp. intros [= <-]. done.
Qed.

(** ** The throttler and its callers *)

(** The blocked calls, in the order they came, and the messages to release. *)
Record throttle := mkThrottle {
  th_t : inboundMsgByteThrottler;
  th_blocked : list (Z * positive);
  th_held : list positive;
}.

Definition th_calls (s : throttle) : list positive := (th_blocked s).*2 ++ th_held s.

Definition th_init (C : MsgByteThrottlerConfig) : throttle :=
  mkThrottle (newInboundMsgByteThrottler C) [] [].

(** The call blocked for a node. *)
Definition blocked_node (s : throttle) (n : NodeID) : Prop :=
  ∃ e msg, e ∈ th_blocked s ∧ bt_meta (th_t s) !! e.2 = Some msg ∧ md_nodeID msg = n.

Section steps.
Context `{GoConv} (allowed : vdr_view → Z → Prop).

(** [allowed] are the validator sets and sizes that [Acquire] is called with.  A
    message identifier is not used twice before [2 ^ 64] messages have waited. *)
Inductive throttle_step (s : throttle) : throttle → Prop :=
| step_ready vdrs size n p t' :
    allowed vdrs size → is_u64 size → ¬ blocked_node s n →
    bt_Acquire vdrs size n (th_t s) = (acqReady p, t') →
    throttle_step s (mkThrottle t' (th_blocked s) (p :: th_held s))
| step_wait vdrs size n p id t' :
    allowed vdrs size → is_u64 size → ¬ blocked_node s n → nextMsgID (th_t s) < MaxUint64 →
    bt_Acquire vdrs size n (th_t s) = (acqWaiting p id, t') →
    throttle_step s (mkThrottle t' (th_blocked s ++ [(id, p)]) (th_held s))
| step_wake l1 id p l2 msg :
    th_blocked s = l1 ++ (id, p) :: l2 → bt_meta (th_t s) !! p = Some msg →
    closeOnAcquireChan msg = Some true →
    throttle_step s (mkThrottle (th_t s) (l1 ++ l2) (p :: th_held s))
| step_cancel l1 id p l2 msg :
    th_blocked s = l1 ++ (id, p) :: l2 → bt_meta (th_t s) !! p = Some msg →
    throttle_step s (mkThrottle (bt_cancel id (md_nodeID msg) (th_t s)) (l1 ++ l2) (p :: th_held s))
| step_release l1 p l2 msg t' :
    th_held s = l1 ++ p :: l2 → bt_meta (th_t s) !! p = Some msg →
    bt_release p (md_nodeID msg) (th_t s) = Some t' →
    throttle_step s (mkThrottle t' (th_blocked s) (l1 ++ l2)).

Inductive throttle_reachable (C : MsgByteThrottlerConfig) : throttle → Prop :=
| reach_init : throttle_reachable C (th_init C)
| reach_step s s' : throttle_reachable C s → throttle_step s s' → throttle_reachable C s'.
End steps.

Abbreviation common_of s := (bt_common (th_t s)).

(** [l] are the messages that wait; [owed] are the bytes of a node that its
    calls do not hold any more and that are still on the books, in the course of
    a release. *)
Record throttle_inv (C : MsgByteThrottlerConfig) (owed : NodeID → Z) (s : throttle)
    (l : list (Z * positive)) : Prop := {
  ti_rep : lh_rep (waitingToAcquire (th_t s)) l;
  ti_consistent : consistent (nodeToWaitingMsgID (th_t s)) l (bt_meta (th_t s));
  ti_wait : all_wait (bt_meta (th_t s)) l;
  ti_sub : l `sublist_of` th_blocked s;
  ti_ready e : e ∈ th_blocked s → e ∈ l ∨
    ∃ msg, bt_meta (th_t s) !! e.2 = Some msg ∧ closeOnAcquireChan msg = Some true ∧ bytesNeeded msg = 0;
  ti_calls : NoDup (th_calls s);
  ti_meta p : p ∈ th_calls s → ∃ msg, bt_meta (th_t s) !! p = Some msg ∧
    is_u64 (msgSize msg) ∧ 0 ≤ bytesNeeded msg ≤ msgSize msg;
  ti_nodes e1 e2 m1 m2 : e1 ∈ th_blocked s → e2 ∈ th_blocked s →
    bt_meta (th_t s) !! e1.2 = Some m1 → bt_meta (th_t s) !! e2.2 = Some m2 →
    md_nodeID m1 = md_nodeID m2 → e1 = e2;
  ti_ids : 0 ≤ nextMsgID (th_t s) ∧ ∀ id, id ∈ (th_blocked s).*1 → id ≤ nextMsgID (th_t s);
  ti_ids_nodup : NoDup (th_blocked s).*1;
  ti_max : nodeMaxAtLargeBytes (common_of s) = NodeMaxAtLargeBytes C ∧ is_u64 (NodeMaxAtLargeBytes C);
  ti_al : alloc_ok (AtLargeAllocSize C) (remainingAtLargeBytes (common_of s))
            (nodeToAtLargeBytesUsed (common_of s));
  ti_al_max n : used (nodeToAtLargeBytesUsed (common_of s)) n ≤ NodeMaxAtLargeBytes C;
  ti_v : alloc_ok (VdrAllocSize C) (remainingVdrBytes (common_of s)) (nodeToVdrBytesUsed (common_of s));
  ti_acquired n : used (nodeToAtLargeBytesUsed (common_of s)) n + used (nodeToVdrBytesUsed (common_of s)) n =
    node_acquired (bt_meta (th_t s)) n (th_calls s) + owed n;
  ti_stuck e msg : e ∈ l → bt_meta (th_t s) !! e.2 = Some msg →
    remainingAtLargeBytes (common_of s) = 0 ∨ bytesNeeded msg = 0 ∨
    used (nodeToAtLargeBytesUsed (common_of s)) (md_nodeID msg) = NodeMaxAtLargeBytes C;
}.

Definition config_ok (C : MsgByteThrottlerConfig) : Prop :=
  is_u64 (VdrAllocSize C) ∧ is_u64 (AtLargeAllocSize C) ∧ is_u64 (NodeMaxAtLargeBytes C).

Definition nothing_owed (n : NodeID) : Z := 0.

Lemma inv_init C : config_ok C → throttle_inv C nothing_owed (th_init C) [].
Proof.
  intros (Hv&Ha&Hm).
  assert (∀ total, is_u64 total → alloc_ok total total ∅) as Halloc.
  { intros total Ht. split; [rewrite map_total_empty; lia|done|unfold is_uint in Ht; lia|].
    apply map_Forall_empty. }
  assert (∀ A (x : A), x ∉ []) as Hnil by (intros A x; apply not_elem_of_nil).
  split; simpl; try done; try apply lh_New_rep; try (by apply Halloc); try (by constructor);
    try (intros; exfalso; match goal with H : _ ∈ _ |- _ => by eapply Hnil end).
  - intros n id. rewrite lookup_empty. split; [done|]. by intros (p&msg&?%Hnil&_).
  - intros p Hp. exfalso. by apply (Hnil _ p).
  - split; [done|]. by intros id ?%Hnil.
  - intros n. unfold used. rewrite lookup_empty. unfold is_uint in Hm. simpl. lia.
Qed.

Lemma ti_al_ok C owed s l :
  throttle_inv C owed s l →
  al_ok (nodeMaxAtLargeBytes (common_of s)) (remainingAtLargeBytes (common_of s))
    (nodeToAtLargeBytesUsed (common_of s)).
Proof.
  intros Hi. destruct (ti_max _ _ _ _ Hi) as [-> Hm]. split; [done|].
  pose proof (ti_al _ _ _ _ Hi) as Ha. split; [apply (alloc_u64 _ _ _ (node1 x00) Ha)|].
  intros n. split; [by eapply used_nonneg|apply (ti_al_max _ _ _ _ Hi)].
Qed.

(** ** Acquire *)

(** The accounts after a call of a node has taken [g] and [vb] bytes. *)
Record took (C : MsgByteThrottlerConfig) (c c' : commonMsgThrottler) (n : NodeID) (g vb : Z) : Prop := {
  tk_max : nodeMaxAtLargeBytes c' = nodeMaxAtLargeBytes c;
  tk_al : alloc_ok (AtLargeAllocSize C) (remainingAtLargeBytes c') (nodeToAtLargeBytesUsed c');
  tk_al_moved : moved (nodeToAtLargeBytesUsed c) (nodeToAtLargeBytesUsed c') n g;
  tk_al_rem : remainingAtLargeBytes c' = remainingAtLargeBytes c - g;
  tk_v : alloc_ok (VdrAllocSize C) (remainingVdrBytes c') (nodeToVdrBytesUsed c');
  tk_v_moved : moved (nodeToVdrBytesUsed c) (nodeToVdrBytesUsed c') n vb;
}.

Lemma took_at_large C c n g :
  al_ok (nodeMaxAtLargeBytes c) (remainingAtLargeBytes c) (nodeToAtLargeBytesUsed c) →
  alloc_ok (AtLargeAllocSize C) (remainingAtLargeBytes c) (nodeToAtLargeBytesUsed c) →
  alloc_ok (VdrAllocSize C) (remainingVdrBytes c) (nodeToVdrBytesUsed c) →
  0 ≤ g ≤ remainingAtLargeBytes c → used (nodeToAtLargeBytesUsed c) n + g ≤ nodeMaxAtLargeBytes c →
  took C c (take_at_large c n g) n g 0.
Proof.
  intros Hok Ha Hv Hg Hm. rewrite take_at_large_eq by done.
  destruct (alloc_take _ _ _ n g Ha Hg) as [H1 H2]. split; simpl; try done.
  intros n'. destruct (decide (n' = n)); lia.
Qed.

Lemma took_vdr C c n vb :
  alloc_ok (AtLargeAllocSize C) (remainingAtLargeBytes c) (nodeToAtLargeBytesUsed c) →
  alloc_ok (VdrAllocSize C) (remainingVdrBytes c) (nodeToVdrBytesUsed c) →
  0 ≤ vb ≤ remainingVdrBytes c → took C c (take_vdr c n vb) n 0 vb.
Proof.
  intros Ha Hv Hg. destruct (alloc_take _ _ _ n vb Hv Hg) as [H1 H2].
  pose proof (used_le_total _ _ _ n Hv). pose proof (ao_range _ _ _ Hv).
  pose proof (used_nonneg _ _ _ n Hv).
  unfold take_vdr, add_used. case_decide as Hd.
  - rewrite !wrap_id by (unfold is_uint in *; lia).
    split; simpl; try done; try lia. intros n'. destruct (decide (n' = n)); lia.
  - replace vb with 0 by lia.
    split; try done; try lia; intros n'; destruct (decide (n' = n)); lia.
Qed.

Lemma took_trans C c1 c2 c3 n g1 g2 v1 v2 :
  took C c1 c2 n g1 v1 → took C c2 c3 n g2 v2 → took C c1 c3 n (g1 + g2) (v1 + v2).
Proof.
  intros [] []. split; try done; try lia.
  - intros n'. rewrite (tk_al_moved1 n'), (tk_al_moved0 n'). destruct (decide (n' = n)); lia.
  - intros n'. rewrite (tk_v_moved1 n'), (tk_v_moved0 n'). destruct (decide (n' = n)); lia.
Qed.

Section acquire.
Context `{GoConv}.

(** What [Acquire] does to the accounts, and what it leaves the message to wait
    for. *)
Lemma bt_Acquire_spec C owed s l vdrs size n r t' :
  throttle_inv C owed s l → is_u64 size → nodeToWaitingMsgID (th_t s) !! n = None →
  bt_Acquire vdrs size n (th_t s) = (r, t') →
  ∃ c g vb p, took C (common_of s) c n g vb ∧ bt_common t' = c ∧ bt_meta (th_t s) !! p = None ∧
    0 ≤ g ∧ 0 ≤ vb ∧ g + vb ≤ size ∧ used (nodeToAtLargeBytesUsed c) n ≤ NodeMaxAtLargeBytes C ∧
    (r = acqReady p ∧ g + vb = size ∧
       t' = with_meta p (mkMeta 0 size n None) (with_common c (th_t s)) ∨
     ∃ id, r = acqWaiting p id ∧ id = wrap64 (nextMsgID (th_t s) + 1) ∧
       (0 < size → 0 < size - (g + vb)) ∧
       (remainingAtLargeBytes c = 0 ∨ size - (g + vb) = 0 ∨
        used (nodeToAtLargeBytesUsed c) n = NodeMaxAtLargeBytes C) ∧
       t' = mkByteThrottler c id (<[n := id]> (nodeToWaitingMsgID (th_t s)))
              (lh_Put id p (waitingToAcquire (th_t s)))
              (<[p := mkMeta (size - (g + vb)) size n (Some false)]> (bt_meta (th_t s)))).
Proof.
  intros Hi Hs Hn. unfold bt_Acquire. rewrite Hn. set (c := common_of s).
  set (p := fresh (dom (bt_meta (th_t s)))).
  assert (bt_meta (th_t s) !! p = None) as Hp by (apply not_elem_of_dom, is_fresh).
  pose proof (ti_al_ok _ _ _ _ Hi) as Hok. fold c in Hok.
  rewrite Min64_3, (at_large_allowed_eq _ _ _ Hok).
  destruct (ti_max _ _ _ _ Hi) as [Emax Hmax]. fold c in Emax.
  pose proof (ti_al_max _ _ _ _ Hi n) as Hal. fold c in Hal.
  destruct Hok as (Hok1&Hok2&Hok3). specialize (Hok3 n) as Hok3n.
  set (g := size `min` _ `min` _).
  assert (0 ≤ g ≤ size ∧ g ≤ remainingAtLargeBytes c ∧
    used (nodeToAtLargeBytesUsed c) n + g ≤ nodeMaxAtLargeBytes c) as (Hg1&Hg2&Hg3).
  { unfold g, is_uint in *. lia. }
  assert (size - g = 0 ∨ remainingAtLargeBytes c - g = 0 ∨
    used (nodeToAtLargeBytesUsed c) n + g = nodeMaxAtLargeBytes c) as Hwhy by (unfold g; lia).
  rewrite (wrap_id 64 (size - g)) by (unfold is_uint in *; lia).
  pose proof (took_at_large C c n g ltac:(done) (ti_al _ _ _ _ Hi) (ti_v _ _ _ _ Hi) ltac:(lia) Hg3) as T1.
  set (c1 := take_at_large c n g) in *.
  assert (used (nodeToAtLargeBytesUsed c1) n = used (nodeToAtLargeBytesUsed c) n + g) as Eu1.
  { rewrite (tk_al_moved _ _ _ _ _ _ T1). by rewrite decide_True. }
  case_decide as Hd.
  { intros [= <- <-]. exists c1, g, 0, p. destruct Hd as [_ Hz]. rewrite Hz.
    split_and!; try done; try lia. left. split_and!; [done|lia|done]. }
  rewrite Min64_3.
  assert (0 ≤ vdr_allowed vdrs c1 n) as Hva.
  { unfold vdr_allowed. case_decide; lia. }
  set (vb := remainingVdrBytes c1 `min` (size - g) `min` vdr_allowed vdrs c1 n).
  pose proof (tk_v _ _ _ _ _ _ T1) as Hv1. pose proof (ao_rem _ _ _ Hv1).
  assert (0 ≤ vb ≤ size - g ∧ vb ≤ remainingVdrBytes c1) as (Hvb1&Hvb2) by (unfold vb; lia).
  rewrite (wrap_id 64 (size - g - vb)) by (unfold is_uint in *; lia).
  pose proof (took_vdr C c1 n vb (tk_al _ _ _ _ _ _ T1) Hv1 ltac:(lia)) as T2.
  set (c2 := take_vdr c1 n vb) in *.
  pose proof (took_trans _ _ _ _ _ _ _ _ _ T1 T2) as T. rewrite Z.add_0_r in T.
  replace (0 + vb) with vb in T by lia.
  assert (used (nodeToAtLargeBytesUsed c2) n = used (nodeToAtLargeBytesUsed c) n + g) as Eu2.
  { rewrite (tk_al_moved _ _ _ _ _ _ T). by rewrite decide_True. }
  replace (size - g - vb) with (size - (g + vb)) by lia.
  case_decide as Hd2.
  - intros [= <- <-]. exists c2, g, vb, p. destruct Hd2 as [_ Hz]. rewrite Hz.
    split_and!; try done; try lia. left. split_and!; [done|lia|done].
  - intros [= <- <-]. exists c2, g, vb, p. split_and!; try done; try lia. right.
    eexists. split; [done|]. split; [done|]. split; [lia|]. split; [|done].
    rewrite (tk_al_rem _ _ _ _ _ _ T), Eu2. lia.
Qed.
End acquire.
