(* ===== verification/ThrottlingSteps.v ===== *)
(** The steps of the inbound byte throttler keep its invariant, and releasing a
    message never panics (inbound_msg_byte_throttler.go). *)

From Stdlib Require Import Strings.Byte.
From S2P Require Import Prelude SafeMath Ids NodeBag LinkedHashmap GoStd Throttling ThrottlingInv.

(** ** Lists *)

Lemma sublist_of_remove {A} (l l1 l2 : list A) x :
  x ∉ l → l `sublist_of` l1 ++ x :: l2 → l `sublist_of` l1 ++ l2.
Proof.
  intros Hx Hs. apply sublist_app_r in Hs as (k1&k2&->&H1&H2). apply sublist_app; [done|].
  apply sublist_cons_r in H2 as [?|(k&->&?)]; [done|]. exfalso. apply Hx. set_solver.
Qed.

Lemma elem_of_middle {A} (l1 l2 : list A) x y : y ∈ l1 ++ x :: l2 ↔ y = x ∨ y ∈ l1 ++ l2.
Proof. rewrite !elem_of_app, elem_of_cons. tauto. Qed.

Lemma alist_delete_sublist (l l1 l2 : list (Z * positive)) id p :
  NoDup (l1 ++ (id, p) :: l2).*1 → l `sublist_of` l1 ++ (id, p) :: l2 →
  alist_delete id l `sublist_of` l1 ++ l2.
Proof.
  intros Hnd Hs. rewrite <-(alist_delete_middle l1 l2 id p Hnd). clear Hnd.
  unfold alist_delete. induction Hs as [|x k1 k2 Hs IH|x k1 k2 Hs IH]; [constructor| |].
  - destruct (decide (x.1 ≠ id)).
    + rewrite !filter_cons_True by done. by constructor.
    + by rewrite !filter_cons_False.
  - destruct (decide (x.1 ≠ id)).
    + rewrite (filter_cons_True _ _ k2) by done. by constructor.
    + by rewrite (filter_cons_False _ _ k2).
Qed.

Lemma sublist_elem {A} (l k : list A) x : l `sublist_of` k → x ∈ l → x ∈ k.
Proof. intros Hs Hx. eapply elem_of_submseteq; [done|]. by apply sublist_submseteq. Qed.

(** ** Taking over the parts of the invariant that a step does not touch *)

Section inv.
Context (C : MsgByteThrottlerConfig).

Lemma inv_blocked_call owed s l e :
  throttle_inv C owed s l → e ∈ th_blocked s → e.2 ∈ th_calls s.
Proof. intros _ He. apply elem_of_app. left. by apply list_elem_of_fmap_2. Qed.

Lemma inv_waiting_call owed s l e : throttle_inv C owed s l → e ∈ l → e.2 ∈ th_calls s.
Proof.
  intros Hi He. eapply inv_blocked_call; [exact Hi|]. by eapply sublist_elem, He; apply Hi.
Qed.

Lemma inv_waiting_NoDup owed s l : throttle_inv C owed s l → NoDup l.*2.
Proof.
  intros Hi. eapply sublist_NoDup; [|apply (fmap_sublist (B := positive)), (ti_sub _ _ _ _ Hi)].
  pose proof (ti_calls _ _ _ _ Hi) as Hc. by apply NoDup_app in Hc as [? _].
Qed.

(** The accounts of the at-large and of the validator allocation. *)
Record accounts_ok (owed : NodeID → Z) (c : commonMsgThrottler) (meta : meta_store)
    (calls : list positive) (l : list (Z * positive)) : Prop := {
  ac_max : nodeMaxAtLargeBytes c = NodeMaxAtLargeBytes C ∧ is_u64 (NodeMaxAtLargeBytes C);
  ac_al : alloc_ok (AtLargeAllocSize C) (remainingAtLargeBytes c) (nodeToAtLargeBytesUsed c);
  ac_al_max n : used (nodeToAtLargeBytesUsed c) n ≤ NodeMaxAtLargeBytes C;
  ac_v : alloc_ok (VdrAllocSize C) (remainingVdrBytes c) (nodeToVdrBytesUsed c);
  ac_acquired n : used (nodeToAtLargeBytesUsed c) n + used (nodeToVdrBytesUsed c) n =
    node_acquired meta n calls + owed n;
  ac_stuck e msg : e ∈ l → meta !! e.2 = Some msg →
    remainingAtLargeBytes c = 0 ∨ bytesNeeded msg = 0 ∨
    used (nodeToAtLargeBytesUsed c) (md_nodeID msg) = NodeMaxAtLargeBytes C;
}.

Lemma inv_accounts owed s l :
  throttle_inv C owed s l → accounts_ok owed (common_of s) (bt_meta (th_t s)) (th_calls s) l.
Proof. by intros []. Qed.

(** ** Acquire *)

(** A call that is new. *)
Lemma accounts_took owed s l c n g vb p msg l' :
  throttle_inv C owed s l → took C (common_of s) c n g vb → 0 ≤ g →
  used (nodeToAtLargeBytesUsed c) n ≤ NodeMaxAtLargeBytes C →
  nodeToWaitingMsgID (th_t s) !! n = None → bt_meta (th_t s) !! p = None →
  md_nodeID msg = n → msgSize msg - bytesNeeded msg = g + vb →
  (∀ e, e ∈ l' → e ∈ l ∨ e.2 = p ∧ (remainingAtLargeBytes c = 0 ∨ bytesNeeded msg = 0 ∨
    used (nodeToAtLargeBytesUsed c) n = NodeMaxAtLargeBytes C)) →
  accounts_ok owed c (<[p := msg]> (bt_meta (th_t s))) (p :: th_calls s) l'.
Proof.
  intros Hi Ht Hg Hmax Hn Hp En Es Hl'. pose proof (ti_max _ _ _ _ Hi) as [Em Hm].
  assert (p ∉ th_calls s) as Hpc by (intros (m&?&_)%(ti_meta _ _ _ _ Hi); congruence).
  split.
  - by rewrite (tk_max _ _ _ _ _ _ Ht).
  - apply Ht.
  - intros n'. destruct (decide (n' = n)) as [->|Hne]; [done|].
    rewrite (tk_al_moved _ _ _ _ _ _ Ht), decide_False by done.
    pose proof (ti_al_max _ _ _ _ Hi n'). lia.
  - apply Ht.
  - intros n'. rewrite node_acquired_cons, (node_acquired_not_in _ _ _ _ _ Hpc).
    rewrite (tk_al_moved _ _ _ _ _ _ Ht), (tk_v_moved _ _ _ _ _ _ Ht).
    pose proof (ti_acquired _ _ _ _ Hi n'). unfold acquired_by. rewrite lookup_insert_eq, En.
    destruct (decide (n' = n)) as [->|Hne]; [rewrite decide_True by done|rewrite decide_False by done]; lia.
  - intros e m He Hm'. destruct (Hl' e He) as [Hel|[Ep Hst]].
    + pose proof (inv_waiting_call _ _ _ _ Hi Hel) as Hc.
      assert (p ≠ e.2) as Hne by congruence. rewrite lookup_insert_ne in Hm' by done.
      assert (md_nodeID m ≠ n) as Hnn.
      { intros E. destruct e as [id q]. assert (nodeToWaitingMsgID (th_t s) !! n = Some id); [|congruence].
        apply (ti_consistent _ _ _ _ Hi). by exists q, m. }
      rewrite (tk_al_moved _ _ _ _ _ _ Ht), decide_False by done.
      pose proof (ao_rem _ _ _ (tk_al _ _ _ _ _ _ Ht)) as Hr.
      rewrite (tk_al_rem _ _ _ _ _ _ Ht) in *.
      destruct (ti_stuck _ _ _ _ Hi e m Hel Hm') as [?|[?|?]]; [left|right; by left|right; right]; lia.
    + rewrite Ep, lookup_insert_eq in Hm'. simplify_eq. done.
Qed.

Lemma consistent_fresh w l meta p msg :
  meta !! p = None → consistent w l meta → all_wait meta l → consistent w l (<[p := msg]> meta).
Proof.
  intros Hp Hc Hw n id. rewrite (Hc n id). unfold all_wait in Hw. rewrite Forall_forall in Hw.
  split; intros (q&m&Hq&Hm&E); exists q, m; (split; [done|]); (split; [|done]);
    assert (p ≠ q) as Hne by (intros ->; destruct (Hw _ Hq) as (m'&Hm'&_); simpl in Hm'; congruence).
  - by rewrite lookup_insert_ne.
  - by rewrite lookup_insert_ne in Hm.
Qed.

Lemma inv_fresh_not_in owed s l p :
  throttle_inv C owed s l → bt_meta (th_t s) !! p = None → p ∉ th_calls s.
Proof. intros Hi Hp (m&?&_)%(ti_meta _ _ _ _ Hi). congruence. Qed.

Context `{GoConv}.

Lemma inv_ready owed s l vdrs size n p t' :
  throttle_inv C owed s l → is_u64 size → bt_Acquire vdrs size n (th_t s) = (acqReady p, t') →
  throttle_inv C owed (mkThrottle t' (th_blocked s) (p :: th_held s)) l.
Proof.
  intros Hi Hs Ha. destruct (nodeToWaitingMsgID (th_t s) !! n) eqn:Hn.
  { unfold bt_Acquire in Ha. by rewrite Hn in Ha. }
  destruct (bt_Acquire_spec C owed s l vdrs size n _ t' Hi Hs Hn Ha)
    as (c&g&vb&q&Ht&Ec&Hp&Hg&Hvb&Hle&Hmax&[(E&Esz&->)|(id&E&_)]); [injection E as <-|done].
  pose proof (inv_fresh_not_in _ _ _ _ Hi Hp) as Hpc.
  assert (th_calls (mkThrottle (with_meta p (mkMeta 0 size n None) (with_common c (th_t s)))
    (th_blocked s) (p :: th_held s)) ≡ₚ p :: th_calls s) as Hperm.
  { unfold th_calls. simpl. by rewrite Permutation_middle. }
  pose proof (accounts_took owed s l c n g vb p (mkMeta 0 size n None) l Hi Ht Hg Hmax Hn Hp
    eq_refl ltac:(simpl; lia) ltac:(auto)) as [A1 A2 A3 A4 A5 A6].
  split; simpl; try done; try apply Hi.
  - eapply consistent_fresh; [done|apply Hi..].
  - eapply all_wait_insert; [|apply Hi]. intros (e&->&He)%list_elem_of_fmap.
    by apply Hpc, (inv_waiting_call owed s l).
  - intros e He. pose proof (inv_blocked_call _ _ _ _ Hi He) as Hc.
    rewrite lookup_insert_ne by congruence. by apply (ti_ready _ _ _ _ Hi).
  - rewrite Hperm. constructor; [done|apply Hi].
  - intros q. rewrite Hperm. intros [->|Hq]%elem_of_cons.
    + rewrite lookup_insert_eq. eexists. split; [done|]. split; [done|]. simpl. lia.
    + rewrite lookup_insert_ne by congruence. by apply (ti_meta _ _ _ _ Hi).
  - intros e1 e2 m1 m2 H1 H2. pose proof (inv_blocked_call _ _ _ _ Hi H1) as Hc1.
    pose proof (inv_blocked_call _ _ _ _ Hi H2) as Hc2.
    rewrite !lookup_insert_ne by congruence. by apply (ti_nodes _ _ _ _ Hi).
  - intros n'. rewrite A5, Hperm. done.
Qed.

Lemma inv_wait owed s l vdrs size n p id t' :
  throttle_inv C owed s l → is_u64 size → ¬ blocked_node s n → nextMsgID (th_t s) < MaxUint64 →
  bt_Acquire vdrs size n (th_t s) = (acqWaiting p id, t') →
  throttle_inv C owed (mkThrottle t' (th_blocked s ++ [(id, p)]) (th_held s)) (l ++ [(id, p)]).
Proof.
  intros Hi Hs Hb Hid Ha. destruct (nodeToWaitingMsgID (th_t s) !! n) eqn:Hn.
  { unfold bt_Acquire in Ha. by rewrite Hn in Ha. }
  destruct (bt_Acquire_spec C owed s l vdrs size n _ t' Hi Hs Hn Ha)
    as (c&g&vb&q&Ht&Ec&Hp&Hg&Hvb&Hle&Hmax&[(E&_)|(id'&E&Eid&_&Hst&->)]); [done|injection E as -> ->].
  destruct (ti_ids _ _ _ _ Hi) as [Hid0 Hids].
  rewrite wrap_id in Eid by (unfold is_uint, MaxUint64 in *; lia).
  set (msg := mkMeta (size - (g + vb)) size n (Some false)).
  pose proof (inv_fresh_not_in _ _ _ _ Hi Hp) as Hpc.
  assert (∀ e, e ∈ th_blocked s → e.2 ≠ q) as Hpb.
  { intros e He E. apply Hpc. rewrite <-E. by apply (inv_blocked_call owed s l). }
  assert (id' ∉ (th_blocked s).*1) as Hidb by (intros Hin%Hids; lia).
  assert (l `sublist_of` th_blocked s) as Hsub by apply Hi.
  assert (id' ∉ l.*1) as Hidl.
  { intros (e&->&He)%list_elem_of_fmap. apply Hidb, list_elem_of_fmap_2. by eapply sublist_elem. }
  pose proof (accounts_took owed s l c n g vb q msg (l ++ [(id', q)]) Hi Ht Hg Hmax Hn Hp
    eq_refl ltac:(simpl; lia)) as [A1 A2 A3 A4 A5 A6].
  { intros e [He| ->%list_elem_of_singleton]%elem_of_app; [by left|]. right. split; [done|]. exact Hst. }
  assert (th_calls (mkThrottle
      (mkByteThrottler c id' (<[n:=id']> (nodeToWaitingMsgID (th_t s)))
         (lh_Put id' q (waitingToAcquire (th_t s))) (<[q:=msg]> (bt_meta (th_t s))))
      (th_blocked s ++ [(id', q)]) (th_held s)) ≡ₚ q :: th_calls s) as Hperm.
  { unfold th_calls. simpl. rewrite fmap_app, <-app_assoc. simpl. by rewrite <-Permutation_middle. }
  pose proof (ti_wait _ _ _ _ Hi) as Hw.
  assert (all_wait (<[q:=msg]> (bt_meta (th_t s))) (l ++ [(id', q)])) as Hw'.
  { apply Forall_app. split.
    - apply all_wait_insert; [|done]. intros (e&->&He)%list_elem_of_fmap.
      by apply Hpc, (inv_waiting_call owed s l).
    - apply Forall_singleton. simpl. exists msg. rewrite lookup_insert_eq. split; [done|].
      split; [|done]. unfold is_uint in *. simpl. lia. }
  split; simpl; try done.
  - rewrite <-(list_filter_id (λ p, p.1 ≠ id') l).
    + apply lh_Put_rep, Hi.
    + intros e He E. apply Hidl. rewrite <-E. by apply list_elem_of_fmap_2.
  - pose proof (consistent_fresh _ _ _ q msg Hp (ti_consistent _ _ _ _ Hi) Hw) as Hc.
    intros n' i. destruct (decide (n = n')) as [<-|Hne].
    + rewrite lookup_insert_eq. split.
      * intros [= <-]. exists q, msg. split; [set_solver|]. by rewrite lookup_insert_eq.
      * intros (q'&m&Hq&Hm&E). apply elem_of_app in Hq as [Hq|[= -> ->]%list_elem_of_singleton]; [|done].
        exfalso. assert (nodeToWaitingMsgID (th_t s) !! n = Some i); [|congruence].
        apply Hc. by exists q', m.
    + rewrite lookup_insert_ne, (Hc n' i) by done. split; intros (q'&m&Hq&Hm&E); exists q', m.
      * split; [set_solver|done].
      * apply elem_of_app in Hq as [Hq|[= -> ->]%list_elem_of_singleton]; [done|].
        rewrite lookup_insert_eq in Hm. injection Hm as <-. by destruct Hne.
  - by apply sublist_app.
  - intros e [He| ->%list_elem_of_singleton]%elem_of_app; [|left; set_solver].
    rewrite lookup_insert_ne by (symmetry; by apply Hpb).
    destruct (ti_ready _ _ _ _ Hi e He) as [?|?]; [left; set_solver|by right].
  - rewrite Hperm. constructor; [done|apply Hi].
  - intros q'. rewrite Hperm. intros [->|Hq]%elem_of_cons.
    + rewrite lookup_insert_eq. exists msg. split; [done|]. split; [done|]. simpl. lia.
    + rewrite lookup_insert_ne by congruence. by apply (ti_meta _ _ _ _ Hi).
  - assert (∀ e m, e ∈ th_blocked s → <[q:=msg]> (bt_meta (th_t s)) !! e.2 = Some m → 
      bt_meta (th_t s) !! e.2 = Some m ∧ md_nodeID m ≠ n) as Hold.
    { intros e m He Hm. rewrite lookup_insert_ne in Hm by (symmetry; by apply Hpb). split; [done|].
      intros E. apply Hb. by exists e, m. }
    intros e1 e2 m1 m2 [H1| ->%list_elem_of_singleton]%elem_of_app
      [H2| ->%list_elem_of_singleton]%elem_of_app E1 E2 E; [| | |done].
    + apply (Hold e1) in E1 as [E1 _]; [|done]. apply (Hold e2) in E2 as [E2 _]; [|done].
      by apply (ti_nodes _ _ _ _ Hi e1 e2 m1 m2).
    + apply (Hold e1) in E1 as [_ E1]; [|done]. simpl in E2. rewrite lookup_insert_eq in E2.
      injection E2 as <-. by destruct E1.
    + apply (Hold e2) in E2 as [_ E2]; [|done]. simpl in E1. rewrite lookup_insert_eq in E1.
      injection E1 as <-. by destruct E2.
  - split; [lia|]. intros i. rewrite fmap_app. intros [Hin%Hids| ->%list_elem_of_singleton]%elem_of_app; simpl; lia.
  - rewrite fmap_app. apply NoDup_app. split; [apply Hi|]. split; [|apply NoDup_singleton].
    intros i Hin ->%list_elem_of_singleton. done.
  - intros n'. rewrite A5, Hperm. done.
Qed.

(** ** A blocked call goes on *)

Lemma inv_wake owed s l l1 id p l2 msg :
  throttle_inv C owed s l → th_blocked s = l1 ++ (id, p) :: l2 → bt_meta (th_t s) !! p = Some msg →
  closeOnAcquireChan msg = Some true →
  throttle_inv C owed (mkThrottle (th_t s) (l1 ++ l2) (p :: th_held s)) l.
Proof.
  intros Hi Hb Hm Hch.
  assert (th_calls (mkThrottle (th_t s) (l1 ++ l2) (p :: th_held s)) ≡ₚ th_calls s) as Hperm.
  { unfold th_calls. simpl. rewrite Hb, !fmap_app, fmap_cons. simpl. by solve_Permutation. }
  assert (∀ e, e ∈ l1 ++ l2 → e ∈ th_blocked s) as Hin.
  { intros e He. rewrite Hb. apply elem_of_middle. by right. }
  pose proof (inv_accounts _ _ _ Hi) as [A1 A2 A3 A4 A5 A6].
  split; simpl; try done; try apply Hi.
  - apply (sublist_of_remove _ _ _ (id, p)); [|rewrite <-Hb; apply Hi].
    intros Hl. pose proof (ti_wait _ _ _ _ Hi) as Hw. unfold all_wait in Hw. rewrite Forall_forall in Hw.
    destruct (Hw _ Hl) as (m&Hm'&_&Hch'). simpl in Hm'. congruence.
  - intros e He. by apply (ti_ready _ _ _ _ Hi), Hin.
  - rewrite Hperm. apply Hi.
  - intros q. rewrite Hperm. apply Hi.
  - intros e1 e2 m1 m2 H1%Hin H2%Hin. by apply (ti_nodes _ _ _ _ Hi).
  - split; [apply (proj1 (ti_ids _ _ _ _ Hi))|]. intros i (e&->&He%Hin)%list_elem_of_fmap.
    by apply (proj2 (ti_ids _ _ _ _ Hi)), list_elem_of_fmap_2.
  - pose proof (ti_ids_nodup _ _ _ _ Hi) as Hnd. rewrite Hb in Hnd.
    rewrite fmap_app, fmap_cons in Hnd. rewrite fmap_app.
    rewrite <-Permutation_middle in Hnd. by apply NoDup_cons in Hnd as [_ ?].
  - intros n. by rewrite A5, Hperm.
Qed.

Lemma inv_cancel owed s l l1 id p l2 msg :
  throttle_inv C owed s l → th_blocked s = l1 ++ (id, p) :: l2 → bt_meta (th_t s) !! p = Some msg →
  throttle_inv C owed (mkThrottle (bt_cancel id (md_nodeID msg) (th_t s)) (l1 ++ l2) (p :: th_held s))
    (alist_delete id l).
Proof.
  intros Hi Hb Hm.
  assert (th_calls (mkThrottle (bt_cancel id (md_nodeID msg) (th_t s)) (l1 ++ l2) (p :: th_held s))
    ≡ₚ th_calls s) as Hperm.
  { unfold th_calls. simpl. rewrite Hb, !fmap_app, fmap_cons. simpl. by solve_Permutation. }
  pose proof (ti_ids_nodup _ _ _ _ Hi) as Hnd. rewrite Hb in Hnd.
  assert ((id, p) ∈ th_blocked s) as Hidp by (rewrite Hb; apply elem_of_middle; by left).
  assert (∀ e, e ∈ l1 ++ l2 → e ∈ th_blocked s ∧ e.1 ≠ id) as Hin.
  { intros e He. rewrite Hb. split; [apply elem_of_middle; by right|]. intros E.
    rewrite fmap_app, fmap_cons, <-Permutation_middle, <-fmap_app in Hnd.
    apply NoDup_cons in Hnd as [Hnd _]. apply Hnd. simpl. rewrite <-E. by apply list_elem_of_fmap_2. }
  assert (∀ e, e ∈ l → e ∈ th_blocked s) as Hsub.
  { intros e. apply sublist_elem, Hi. }
  assert (∀ e, e ∈ alist_delete id l ↔ e ∈ l ∧ e.1 ≠ id) as Hdel.
  { intros e. unfold alist_delete. rewrite list_elem_of_filter. tauto. }
  pose proof (inv_accounts _ _ _ Hi) as [A1 A2 A3 A4 A5 A6].
  split; simpl; try done; try apply Hi.
  - apply lh_Delete_rep, Hi.
  - intros n i. rewrite lookup_delete_Some, (ti_consistent _ _ _ _ Hi n i). split.
    + intros [Hne (q&m&Hq&Hm'&<-)]. exists q, m. split; [|done]. apply Hdel. split; [done|].
      simpl. intros ->. apply Hne. f_equal.
      assert (p = q) as <-; [|congruence].
      pose proof (ti_ids_nodup _ _ _ _ Hi) as Hk. apply alist_get_Some in Hidp; [|done].
      apply Hsub, alist_get_Some in Hq; [congruence|done].
    + intros (q&m&[Hq Hqi]%Hdel&Hm'&<-). split; [|by exists q, m]. intros E. apply Hqi.
      pose proof (ti_nodes _ _ _ _ Hi (id, p) (i, q) msg m Hidp (Hsub _ Hq) Hm Hm' E) as Ee. by injection Ee as <- _.
  - apply Forall_forall. intros e [He _]%Hdel. pose proof (ti_wait _ _ _ _ Hi) as Hw.
    unfold all_wait in Hw. rewrite Forall_forall in Hw. by apply Hw.
  - apply (alist_delete_sublist _ _ _ _ p); [done|]. rewrite <-Hb. apply Hi.
  - intros e [He Hne]%Hin. destruct (ti_ready _ _ _ _ Hi e He) as [?|?]; [|by right]. left. by apply Hdel.
  - rewrite Hperm. apply Hi.
  - intros q. rewrite Hperm. apply Hi.
  - intros e1 e2 m1 m2 [H1 _]%Hin [H2 _]%Hin. by apply (ti_nodes _ _ _ _ Hi).
  - split; [apply (proj1 (ti_ids _ _ _ _ Hi))|]. intros i (e&->&[He _]%Hin)%list_elem_of_fmap.
    by apply (proj2 (ti_ids _ _ _ _ Hi)), list_elem_of_fmap_2.
  - rewrite fmap_app, fmap_cons in Hnd. rewrite fmap_app.
    rewrite <-Permutation_middle in Hnd. by apply NoDup_cons in Hnd as [_ ?].
  - intros n. by rewrite A5, Hperm.
  - intros e m [He _]%Hdel. by apply A6.
Qed.
End inv.

(** * Releasing a message (inbound_msg_byte_throttler.go, release): the bytes it
    held go to the messages that wait and back to the allocations, and nothing
    panics. *)

(** What a node owes. *)
Definition owe (n : NodeID) (x : Z) (n' : NodeID) : Z := if decide (n' = n) then x else 0.

Section release.
Context (C : MsgByteThrottlerConfig).

Lemma inv_acquired_nonneg owed s l n :
  throttle_inv C owed s l → 0 ≤ node_acquired (bt_meta (th_t s)) n (th_calls s).
Proof.
  intros Hi. apply sumZ_nonneg, Forall_forall. intros z (q&->&Hq)%list_elem_of_fmap.
  destruct (ti_meta _ _ _ _ Hi q Hq) as (m&Hm&_&Hr). unfold acquired_by. rewrite Hm.
  case_decide; lia.
Qed.

(** The call that is released is not counted any more. *)
Lemma inv_forget s l l1 p l2 msg :
  throttle_inv C nothing_owed s l → th_held s = l1 ++ p :: l2 → bt_meta (th_t s) !! p = Some msg →
  throttle_inv C (owe (md_nodeID msg) (msgSize msg - bytesNeeded msg))
    (mkThrottle (th_t s) (th_blocked s) (l1 ++ l2)) l ∧
  0 ≤ bytesNeeded msg ≤ msgSize msg ∧ is_u64 (msgSize msg).
Proof.
  intros Hi Hh Hm. set (s' := mkThrottle (th_t s) (th_blocked s) (l1 ++ l2)).
  assert (th_calls s ≡ₚ p :: th_calls s') as Hperm.
  { unfold th_calls. simpl. rewrite Hh. solve_Permutation. }
  pose proof (ti_calls _ _ _ _ Hi) as Hnd. rewrite Hperm in Hnd. apply NoDup_cons in Hnd as [Hp Hnd].
  destruct (ti_meta _ _ _ _ Hi p) as (m&Hm'&Hu&Hr); [rewrite Hperm; left|].
  rewrite Hm in Hm'. injection Hm' as <-. split; [|done].
  assert (∀ q, q ∈ th_calls s' → q ∈ th_calls s) as Hin by (intros q; rewrite Hperm; by right).
  pose proof (inv_accounts _ _ _ _ Hi) as [A1 A2 A3 A4 A5 A6].
  split; simpl; try done; try apply Hi.
  - intros q Hq. by apply (ti_meta _ _ _ _ Hi), Hin.
  - intros n. rewrite A5, Hperm, node_acquired_cons. unfold acquired_by, owe, nothing_owed.
    rewrite Hm. destruct (decide (n = md_nodeID msg)) as [->|Hne].
    + rewrite decide_True by done. lia.
    + rewrite decide_False by congruence. lia.
Qed.

(** Bytes go to messages that wait; some of them need not wait any more. *)
Lemma inv_fed owed owed' s l t' l' :
  throttle_inv C owed s l → feeds (bt_meta (th_t s)) (bt_meta t') → nextMsgID t' = nextMsgID (th_t s) →
  lh_rep (waitingToAcquire t') l' → consistent (nodeToWaitingMsgID t') l' (bt_meta t') →
  l' `sublist_of` l → all_wait (bt_meta t') l' →
  (∀ e, e ∈ l → e ∈ l' ∨ ∃ msg, bt_meta t' !! e.2 = Some msg ∧
    bytesNeeded msg = 0 ∧ closeOnAcquireChan msg = Some true) →
  (∀ p, p ∉ l.*2 → bt_meta t' !! p = bt_meta (th_t s) !! p) →
  accounts_ok C owed' (bt_common t') (bt_meta t') (th_calls s) l' →
  throttle_inv C owed' (mkThrottle t' (th_blocked s) (th_held s)) l'.
Proof.
  intros Hi [Hnone Hfed] Hid Hrep Hc Hsub Hw Hdone Hother [A1 A2 A3 A4 A5 A6].
  assert (∀ p, p ∈ th_calls s → ∃ m m', bt_meta (th_t s) !! p = Some m ∧ bt_meta t' !! p = Some m' ∧
    is_u64 (msgSize m) ∧ 0 ≤ bytesNeeded m ≤ msgSize m ∧ fed m m') as Hmeta.
  { intros p Hp. destruct (ti_meta _ _ _ _ Hi p Hp) as (m&Hm&Hu&Hr).
    destruct (Hfed p m Hm) as (m'&Hm'&Hf); [lia|]. by exists m, m'. }
  split; simpl; try done; try (rewrite Hid; apply Hi); try apply Hi.
  - etrans; [done|apply Hi].
  - intros e He. destruct (ti_ready _ _ _ _ Hi e He) as [Hl|(m&Hm&Hch&Hb)].
    + destruct (Hdone e Hl) as [?|(m&?&?&?)]; [by left|right; by exists m].
    + right. exists m. rewrite Hother; [done|]. intros (e'&E&He')%list_elem_of_fmap.
      pose proof (ti_wait _ _ _ _ Hi) as Hw0. unfold all_wait in Hw0. rewrite Forall_forall in Hw0.
      destruct (Hw0 _ He') as (m'&Hm'&_&Hch'). rewrite <-E in Hm'. congruence.
  - intros p Hp. destruct (Hmeta p Hp) as (m&m'&_&Hm'&Hu&Hr&En&Es&Hf). exists m'. split; [done|].
    rewrite Es. split; [done|lia].
  - intros e1 e2 m1 m2 H1 H2 E1 E2 E.
    destruct (Hmeta _ (inv_blocked_call _ _ _ _ _ Hi H1)) as (a&a'&Ha&Ha'&_&_&En1&_).
    destruct (Hmeta _ (inv_blocked_call _ _ _ _ _ Hi H2)) as (b&b'&Hb&Hb'&_&_&En2&_).
    eapply (ti_nodes _ _ _ _ Hi e1 e2 a b); congruence.
Qed.

Section loop.
Context `{GoConv}.

(** The messages that wait, after [give]. *)
Lemma accounts_give x n s l rem al :
  let c := common_of s in
  let r := give (nodeMaxAtLargeBytes c) rem al (bt_meta (th_t s)) l in
  (∀ n', used al n' + used (nodeToVdrBytesUsed c) n' =
    node_acquired (bt_meta (th_t s)) n' (th_calls s) + owe n x n') →
  alloc_ok (VdrAllocSize C) (remainingVdrBytes c) (nodeToVdrBytesUsed c) →
  nodeMaxAtLargeBytes c = NodeMaxAtLargeBytes C → is_u64 (NodeMaxAtLargeBytes C) →
  NoDup (th_calls s) → (∀ p, p ∈ l.*2 → p ∈ th_calls s) →
  give_spec (AtLargeAllocSize C) (nodeMaxAtLargeBytes c) rem al (bt_meta (th_t s)) l r →
  accounts_ok C (owe n x)
    (mkCommon (nodeMaxAtLargeBytes c) (remainingVdrBytes c) (gv_rem r) (nodeToVdrBytesUsed c)
       (gv_al r) (maxVdrBytes c)) (gv_meta r) (th_calls s) (gv_kept r).
Proof.
  intros c r Hacq Hv Em Hm Hnd Hin [S1 S2 S3 S4 S5 S6 S7 S8]. rewrite Em in *. split; simpl; try done.
  - intros n'. apply S2.
  - intros n'. pose proof (S5 (th_calls s) Hnd Hin n'). specialize (Hacq n'). lia.
  - intros e msg He Hm'. destruct (S7 e He) as (m&Hm2&Hw&Hs). rewrite Hm' in Hm2. injection Hm2 as <-.
    tauto.
Qed.

(** The at-large bytes of a released message. *)
Lemma inv_give s l n x y :
  throttle_inv C (owe n (x + y)) s l → 0 < y ≤ used (nodeToAtLargeBytesUsed (common_of s)) n →
  let c := common_of s in
  let t := with_common (mkCommon (nodeMaxAtLargeBytes c) (remainingVdrBytes c)
             (wrap64 (remainingAtLargeBytes c + y)) (nodeToVdrBytesUsed c)
             (take_back (nodeToAtLargeBytesUsed c) n y) (maxVdrBytes c)) (th_t s) in
  let r := give (nodeMaxAtLargeBytes c) (remainingAtLargeBytes c + y)
             (take_back (nodeToAtLargeBytesUsed c) n y) (bt_meta (th_t s)) l in
  ∃ t', bt_give_loop (S (length (entryList (waitingToAcquire t)))) NewIterator t = Some t' ∧
    bt_common t' = mkCommon (nodeMaxAtLargeBytes c) (remainingVdrBytes c) (gv_rem r)
                     (nodeToVdrBytesUsed c) (gv_al r) (maxVdrBytes c) ∧
    bt_meta t' = gv_meta r ∧
    throttle_inv C (owe n x) (mkThrottle t' (th_blocked s) (th_held s)) (gv_kept r).
Proof.
  intros Hi Hy c t r. pose proof (ti_al _ _ _ _ Hi) as Ha. fold c in Ha, Hy.
  destruct (ti_max _ _ _ _ Hi) as [Em Hm]. fold c in Em.
  destruct (alloc_take_back _ _ _ n y Ha ltac:(lia)) as [Ha' Hmv].
  assert (wrap64 (remainingAtLargeBytes c + y) = remainingAtLargeBytes c + y) as Ew.
  { apply wrap_id. pose proof (used_nonneg _ _ _ n Ha). pose proof (used_le_total _ _ _ n Ha).
    pose proof (ao_range _ _ _ Ha). pose proof (ao_rem _ _ _ Ha). unfold is_uint in *. lia. }
  assert (∀ n', used (take_back (nodeToAtLargeBytesUsed c) n y) n' ≤ nodeMaxAtLargeBytes c) as Hmax.
  { intros n'. rewrite Hmv, Em. pose proof (ti_al_max _ _ _ _ Hi n'). fold c in H0.
    destruct (decide (n' = n)); lia. }
  pose proof (inv_waiting_NoDup _ _ _ _ Hi) as Hnd.
  assert (give_spec (AtLargeAllocSize C) (nodeMaxAtLargeBytes c) (remainingAtLargeBytes c + y)
    (take_back (nodeToAtLargeBytesUsed c) n y) (bt_meta (th_t s)) l r) as Hgs.
  { apply give_ok; [done|by rewrite Em|done|apply Hi|done]. }
  destruct (bt_give_loop_spec l (entryList (waitingToAcquire t)) [] (S (length (entryList (waitingToAcquire t))))
    NewIterator t) as (t'&E&E1&E2&E3&E4&E5).
  - apply Hi.
  - apply it_at_New.
  - apply Hi.
  - pose proof (Forall2_length _ _ _ (rep_holds _ _ (ti_rep _ _ _ _ Hi))). simpl in *. lia.
  - simpl. rewrite Ew. split; [by rewrite Em|].
    split; [apply (alloc_u64 _ _ _ n Ha')|]. intros n'. split; [by eapply used_nonneg|apply Hmax].
  - apply Hi.
  - done.
  - apply Hi.
  - simpl in E1, E2, E3, E4, E5. rewrite Ew in *. fold c r in E1, E2, E4, E5.
    exists t'. split; [done|]. split; [done|]. split; [done|].
    eapply inv_fed; [exact Hi|..]; try done.
    + rewrite E2. apply Hgs.
    + apply Hgs.
    + apply Forall_forall. intros e He. destruct (gs_kept_wait _ _ _ _ _ _ _ Hgs e He) as (m&Hm'&Hw&_).
      rewrite E2. by exists m.
    + rewrite E2. apply Hgs.
    + rewrite E2. apply Hgs.
    + rewrite E1, E2. apply accounts_give; try done; try apply Hi.
      * intros n'. rewrite Hmv. pose proof (ti_acquired _ _ _ _ Hi n') as Hacq.
        fold c in Hacq |- *. unfold owe in *. destruct (decide (n' = n)); lia.
      * intros p (e&->&He)%list_elem_of_fmap. by apply (inv_waiting_call _ _ _ _ _ Hi).
Qed.
End loop.

(** The bytes of the validator allocation. *)
Lemma inv_give_vdr s l n x :
  throttle_inv C (owe n x) s l → is_u64 x →
  ∃ x' t' l', bt_give_vdr n x (th_t s) = Some (x', t') ∧ 0 ≤ x' ≤ x ∧
    bt_common t' = common_of s ∧
    throttle_inv C (owe n x') (mkThrottle t' (th_blocked s) (th_held s)) l'.
Proof.
  intros Hi Hx.
  assert (∃ x' t' l', Some (x, th_t s) = Some (x', t') ∧ 0 ≤ x' ≤ x ∧
    bt_common t' = common_of s ∧
    throttle_inv C (owe n x') (mkThrottle t' (th_blocked s) (th_held s)) l') as Hsame.
  { exists x, (th_t s), l. unfold is_uint in Hx. split; [done|]. split; [lia|]. split; [done|].
    by destruct s. }
  unfold bt_give_vdr. destruct (nodeToWaitingMsgID (th_t s) !! n) as [id|] eqn:Hn; [|done].
  case_decide as Hpos; [|done].
  pose proof (ti_consistent _ _ _ _ Hi) as Hc.
  destruct (proj1 (Hc n id) Hn) as (p&msg&Hp&Hm&En).
  pose proof (rep_NoDup_keys _ _ (ti_rep _ _ _ _ Hi)) as Hk.
  rewrite (lh_Get_rep _ _ _ (ti_rep _ _ _ _ Hi)), (proj2 (alist_get_Some _ _ _ Hk) Hp), Hm.
  cbn [mbind option_bind].
  pose proof (ti_wait _ _ _ _ Hi) as Hw. pose proof Hw as Hw0. unfold all_wait in Hw0.
  rewrite Forall_forall in Hw0. destruct (Hw0 _ Hp) as (m&Hm'&Hneed&Hch). simpl in Hm'.
  rewrite Hm in Hm'. injection Hm' as <-.
  rewrite Min64_2. set (b := bytesNeeded msg `min` x).
  assert (0 ≤ b ≤ bytesNeeded msg ∧ b ≤ x) as Hb by (unfold b, is_uint in *; lia).
  rewrite !wrap_id by (unfold is_uint in *; lia). cbn [bytesNeeded closeOnAcquireChan].
  pose proof (inv_waiting_call _ _ _ _ _ Hi Hp) as Hpc. simpl in Hpc.
  assert (accounts_ok C (owe n (x - b)) (common_of s) (<[p := give_meta msg b]> (bt_meta (th_t s)))
    (th_calls s) l) as Hacc.
  { pose proof (inv_accounts _ _ _ _ Hi) as [A1 A2 A3 A4 A5 A6]. split; try done.
    - intros n'. rewrite A5, (node_acquired_insert _ n' p msg) by (done || apply Hi). simpl.
      unfold owe. rewrite En. destruct (decide (n' = n)); lia.
    - intros e m He Hm'. apply lookup_insert_Some in Hm' as [[Ep <-]|[_ Hm']]; [|by eapply A6].
      rewrite Ep in Hm. destruct (A6 e msg He Hm) as [?|[?|?]]; [by left| |by right; right].
      right. left. simpl. lia. }
  pose proof (fed_give msg b ltac:(lia)) as Hfed.
  pose proof (feeds_insert _ p msg _ Hm Hfed) as Hfeeds.
  assert (∀ q, q ∉ l.*2 → <[p := give_meta msg b]> (bt_meta (th_t s)) !! q = bt_meta (th_t s) !! q) as Hoth.
  { intros q Hq. rewrite lookup_insert_ne; [done|]. intros ->. apply Hq.
    change q with ((id, q).2). by apply list_elem_of_fmap_2. }
  destruct (decide (bytesNeeded msg - b = 0)) as [Hz|Hz].
  - rewrite Hch. eexists _, _, (alist_delete id l). split; [done|]. split; [lia|]. split; [done|].
    assert (<[p := mkMeta 0 (msgSize msg) (md_nodeID msg) (Some true)]>
      (<[p := mkMeta (bytesNeeded msg - b) (msgSize msg) (md_nodeID msg) (Some false)]> (bt_meta (th_t s)))
      = <[p := give_meta msg b]> (bt_meta (th_t s))) as Emeta.
    { rewrite insert_insert_eq. unfold give_meta. by rewrite decide_True, Hz. }
    apply list_elem_of_split in Hp as (k1&k2&El).
    assert (alist_delete id l = k1 ++ k2) as Edel.
    { rewrite El in Hk |- *. by apply alist_delete_middle. }
    eapply (inv_fed _ _ s l); [exact Hi|..]; simpl; rewrite ?Emeta; try done.
    + apply lh_Delete_rep, Hi.
    + rewrite Edel, <-En. eapply consistent_update; [|exact Hm|done].
      eapply consistent_remove; [|rewrite <-El; done|done]. by rewrite <-El.
    + rewrite Edel, El. apply sublist_app; [done|]. by apply sublist_cons.
    + rewrite Edel. apply all_wait_insert.
      * pose proof (inv_waiting_NoDup _ _ _ _ Hi) as Hnd. rewrite El in Hnd.
        rewrite fmap_app, fmap_cons, <-Permutation_middle, <-fmap_app in Hnd.
        by apply NoDup_cons in Hnd as [? _].
      * rewrite El in Hw. apply Forall_app in Hw as [Hw1 Hw2]. apply Forall_cons in Hw2 as [_ Hw2].
        by apply Forall_app.
    + intros e He. rewrite El, elem_of_middle in He. rewrite Edel. destruct He as [->|He]; [right|by left].
      exists (give_meta msg b). simpl. rewrite lookup_insert_eq. by rewrite decide_True.
    + destruct Hacc as [A1 A2 A3 A4 A5 A6]. split; try done. intros e m He. apply A6.
      rewrite Edel in He. rewrite El. apply elem_of_middle. by right.
  - eexists _, _, l. split; [done|]. split; [lia|]. split; [done|].
    assert (mkMeta (bytesNeeded msg - b) (msgSize msg) (md_nodeID msg) (closeOnAcquireChan msg) =
      give_meta msg b) as Emeta by (unfold give_meta; by rewrite decide_False).
    eapply (inv_fed _ _ s l); [exact Hi|..]; simpl; rewrite ?Emeta; try done; try apply Hi.
    + by eapply consistent_update.
    + apply Forall_forall. intros e He. destruct (decide (e.2 = p)) as [->|Hne].
      * exists (give_meta msg b). rewrite lookup_insert_eq. split; [done|].
        rewrite <-Emeta. unfold waits, is_uint in *. simpl. split; [lia|done].
      * destruct (Hw0 e He) as (m&Hm'&?). exists m. by rewrite lookup_insert_ne by done.
    + by left.
Qed.

(** The bytes that are left go back to the validator allocation. *)
Lemma inv_return_vdr s l n x :
  throttle_inv C (owe n x) s l → 0 ≤ x ≤ used (nodeToVdrBytesUsed (common_of s)) n →
  let c := common_of s in
  throttle_inv C nothing_owed
    (mkThrottle (if decide (x > 0)
       then with_common
         (mkCommon (nodeMaxAtLargeBytes c) (wrap64 (remainingVdrBytes c + x))
            (remainingAtLargeBytes c) (take_back (nodeToVdrBytesUsed c) n x)
            (nodeToAtLargeBytesUsed c) (maxVdrBytes c)) (th_t s)
       else th_t s) (th_blocked s) (th_held s)) l.
Proof.
  intros Hi Hx c. pose proof (inv_accounts _ _ _ _ Hi) as [A1 A2 A3 A4 A5 A6].
  fold c in A1, A2, A3, A4, A5, A6, Hx. case_decide as Hd.
  - destruct (alloc_take_back _ _ _ n x A4 Hx) as [Hv Hmv].
    rewrite wrap_id.
    2:{ pose proof (used_nonneg _ _ _ n A4). pose proof (used_le_total _ _ _ n A4).
        pose proof (ao_range _ _ _ A4). pose proof (ao_rem _ _ _ A4). unfold is_uint in *. lia. }
    split; simpl; try done; try apply Hi.
    intros n'. rewrite Hmv. specialize (A5 n'). unfold owe, nothing_owed in *.
    destruct (decide (n' = n)); unfold th_calls in *; simpl; lia.
  - replace x with 0 in * by lia. destruct s as [t b h]. simpl in *. split; try done; try apply Hi.
    intros n'. unfold c in *. rewrite A5. unfold owe, nothing_owed. by case_decide.
Qed.

(** ** Every step *)

Section reach.
Context `{GoConv} (allowed : vdr_view → Z → Prop).

Lemma inv_release s l l1 p l2 msg :
  throttle_inv C nothing_owed s l → th_held s = l1 ++ p :: l2 → bt_meta (th_t s) !! p = Some msg →
  ∃ t' l', bt_release p (md_nodeID msg) (th_t s) = Some t' ∧
    throttle_inv C nothing_owed (mkThrottle t' (th_blocked s) (l1 ++ l2)) l'.
Proof.
  intros Hi Hh Hm. destruct (inv_forget s l l1 p l2 msg Hi Hh Hm) as (Hi1&Hr&Hu).
  set (s1 := mkThrottle (th_t s) (th_blocked s) (l1 ++ l2)) in *. set (n := md_nodeID msg) in *.
  unfold bt_release. rewrite Hm. cbn [mbind option_bind]. rewrite Min64_2.
  rewrite (wrap_id 64 (msgSize msg - bytesNeeded msg)) by (unfold is_uint in *; lia).
  set (rel := msgSize msg - bytesNeeded msg) in *.
  pose proof (used_nonneg _ _ _ n (ti_v _ _ _ _ Hi)) as Hvn.
  set (x := rel `min` used (nodeToVdrBytesUsed (common_of s)) n).
  assert (0 ≤ x ≤ rel ∧ x ≤ used (nodeToVdrBytesUsed (common_of s)) n) as [Hx1 Hx2] by (unfold x, rel; lia).
  rewrite wrap_id by (unfold is_uint in *; lia).
  assert (0 < rel - x → rel - x ≤ used (nodeToAtLargeBytesUsed (common_of s)) n) as Hy.
  { intros Hlt. pose proof (ti_acquired _ _ _ _ Hi1 n) as Hacq. unfold owe in Hacq.
    rewrite decide_True in Hacq by done.
    pose proof (inv_acquired_nonneg _ _ _ n Hi1) as Hpos.
    simpl in Hacq, Hpos. unfold x in *. pose proof (used_nonneg _ _ _ n (ti_al _ _ _ _ Hi)). lia. }
  assert (is_u64 x) as Hxu by (unfold is_uint in *; lia).
  assert (∀ t2 l2', throttle_inv C (owe n x) (mkThrottle t2 (th_blocked s) (l1 ++ l2)) l2' →
    nodeToVdrBytesUsed (bt_common t2) = nodeToVdrBytesUsed (common_of s) →
    ∃ t' l', ('(vdrBytesToReturn, t) ← bt_give_vdr n x t2;
      if decide (vdrBytesToReturn > 0) then
        let c := bt_common t in
        Some (with_common
          (mkCommon (nodeMaxAtLargeBytes c) (wrap64 (remainingVdrBytes c + vdrBytesToReturn))
             (remainingAtLargeBytes c) (take_back (nodeToVdrBytesUsed c) n vdrBytesToReturn)
             (nodeToAtLargeBytesUsed c) (maxVdrBytes c)) t)
      else Some t) = Some t' ∧
      throttle_inv C nothing_owed (mkThrottle t' (th_blocked s) (l1 ++ l2)) l') as Hrest.
  { intros t2 l2' Hi2 Ev. destruct (inv_give_vdr _ _ _ _ Hi2 Hxu) as (x'&t3&l3&E&Hx'&Ec&Hi3).
    simpl in E, Ec. rewrite E. cbn [mbind option_bind].
    pose proof (inv_return_vdr _ _ _ _ Hi3) as Hi4. simpl in Hi4. rewrite Ec, Ev in Hi4.
    specialize (Hi4 ltac:(lia)). rewrite Ec, Ev. case_decide; eauto. }
  case_decide as Hd.
  - assert (x + (rel - x) = rel) as Erel by lia. rewrite <-Erel in Hi1.
    destruct (inv_give s1 l n x (rel - x) Hi1) as (t2&E2&Ec&_&Hi2); [simpl; lia|].
    simpl in E2. simpl. rewrite E2. cbn [mbind option_bind]. eapply Hrest; [exact Hi2|]. by rewrite Ec.
  - assert (x = rel) as Ex by lia. rewrite <-Ex in Hi1. cbn [mbind option_bind].
    eapply Hrest; [exact Hi1|done].
Qed.

Lemma inv_step s s' l :
  throttle_inv C nothing_owed s l → throttle_step allowed s s' → ∃ l', throttle_inv C nothing_owed s' l'.
Proof.
  intros Hi Hs. destruct Hs as [vdrs size n p t' _ Hu _ Ha|vdrs size n p id t' _ Hu Hb Hid Ha
    |l1 id p l2 msg Hb Hm Hch|l1 id p l2 msg Hb Hm|l1 p l2 msg t' Hh Hm Hr].
  - exists l. by eapply inv_ready.
  - exists (l ++ [(id, p)]). by eapply inv_wait.
  - exists l. by eapply inv_wake.
  - exists (alist_delete id l). by eapply inv_cancel.
  - destruct (inv_release s l l1 p l2 msg Hi Hh Hm) as (t2&l'&E&Hi'). exists l'.
    rewrite E in Hr. by injection Hr as ->.
Qed.

Lemma reach_inv s :
  config_ok C → throttle_reachable allowed C s → ∃ l, throttle_inv C nothing_owed s l.
Proof.
  intros Hc. induction 1 as [|s s' _ [l Hi] Hs]; [exists []; by apply inv_init|]. by eapply inv_step.
Qed.
End reach.
End release.
