(* ===== verification/ThrottlingLive.v ===== *)
(** What the inbound byte throttler promises: its books balance, and, when no
    bytes come from the validator allocation, messages that wait are let through
    (inbound_msg_byte_throttler.go). *)

From S2P Require Import Prelude SafeMath Ids NodeBag GoStd LinkedHashmap Throttling ThrottlingInv.
From S2P Require Import ThrottlingSteps.
From Stdlib Require Import Strings.Byte.

(** ** The order of the messages that wait *)

Lemma give_nothing max al meta l : give max 0 al meta l = mkGiven 0 al meta l.
Proof. by destruct l as [|[]]. Qed.

(** A message that goes on waiting although its node may take more bytes has
    taken all there were: the ones after it get nothing. *)
Lemma give_later total max rem al meta l e e' msg :
  alloc_ok total rem al → is_u64 max → (∀ n, used al n ≤ max) → all_wait meta l → NoDup l.*2 →
  let r := give max rem al meta l in
  [e; e'] `sublist_of` l → e ∈ gv_kept r → meta !! e.2 = Some msg →
  used (gv_al r) (md_nodeID msg) < max →
  gv_meta r !! e'.2 = meta !! e'.2 ∧
  (used al (md_nodeID msg) + rem ≤ used (gv_al r) (md_nodeID msg) ∨
   ∃ h m, [h; e; e'] `sublist_of` l ∧ meta !! h.2 = Some m ∧ used al (md_nodeID m) < max).
Proof.
  cbv zeta. intros Ha Hmax Hu Hw Hnd Hs He Hmsg Hlt. revert rem al meta Ha Hu Hw Hs He Hmsg Hlt.
  induction l as [|[id p] l IH]; intros rem al meta Ha Hu Hw Hs He Hmsg Hlt.
  { simpl in He. by apply elem_of_nil in He. }
  pose proof (give_ok total max rem al meta _ Ha Hmax Hu Hw Hnd) as Hgs. cbn [give] in *.
  pose proof Hw as Hw0. apply Forall_cons in Hw as [(m&Hm&Hneed&Hch) Hw]. simpl in Hm.
  apply NoDup_cons in Hnd as [Hp Hnd]. simpl in Hp. rewrite Hm in *.
  destruct (decide (rem > 0)) as [Hrem|Hrem].
  2:{ simpl. split; [done|]. left. pose proof (ao_rem _ _ _ Ha). lia. }
  destruct (give_head total max rem al meta m p l Ha Hmax Hu Hneed Hw Hp)
    as ((Hg1&Hg2&Hg3)&Hwhy&Ha'&Hmv&Hu'&Hw').
  set (g := give_bytes max rem al m) in *. set (al' := if decide (g > 0) then _ else _) in *.
  pose proof (give_ok total max (rem - g) al' _ l Ha' Hmax Hu' Hw' Hnd) as Hgs'.
  set (r := give max (rem - g) al' (<[p := give_meta m g]> meta) l) in *.
  apply sublist_cons_l in Hs as (k1&k2&Ek&Hs). apply sublist_cons_l in Hs as (k3&k4&->&_).
  destruct k1 as [|x k1]; simpl in Ek; injection Ek as Ex El; subst.
  - simpl in Hmsg. rewrite Hm in Hmsg. injection Hmsg as ->.
    assert (bytesNeeded msg - g ≠ 0 ∧ used (gv_al r) (md_nodeID msg) < max) as [Hz Hlt'].
    { destruct (decide (bytesNeeded msg - g = 0)); [|done].
      exfalso. apply Hp. change p with ((id, p).2). apply list_elem_of_fmap_2.
      eapply sublist_elem; [apply Hgs'|exact He]. }
    rewrite decide_False by done. simpl.
    pose proof (proj1 (gs_max _ _ _ _ _ _ _ Hgs' (md_nodeID msg))) as Hmon.
    pose proof Hmv (md_nodeID msg) as Hmvn. rewrite decide_True in Hmvn by done.
    assert (g = rem) as Eg by (unfold g, give_bytes in *; lia).
    assert (∀ q, q ≠ p → gv_meta r !! q = meta !! q) as Hq.
    { intros q Hq. unfold r. replace (rem - g) with 0 by lia. rewrite give_nothing.
      simpl. by rewrite lookup_insert_ne. }
    split; [|left; lia]. apply Hq. intros E. apply Hp. rewrite <-E. apply list_elem_of_fmap_2. set_solver.
  - assert (e ∈ k1 ++ e :: k3 ++ e' :: k4 ∧ e' ∈ k1 ++ e :: k3 ++ e' :: k4) as [Hel Hel'] by set_solver.
    assert (p ≠ e.2 ∧ p ≠ e'.2) as [Hpe Hpe'].
    { split; intros ->; apply Hp; by apply list_elem_of_fmap_2. }
    assert ([e; e'] `sublist_of` k1 ++ e :: k3 ++ e' :: k4) as Hs.
    { apply (sublist_app [] k1 [e; e']); [apply sublist_nil_l|]. constructor.
      apply (sublist_app [] k3 [e']); [apply sublist_nil_l|]. constructor. apply sublist_nil_l. }
    assert (e ∈ gv_kept r ∧ used (gv_al r) (md_nodeID msg) < max) as [He' Hlt'].
    { destruct (decide (bytesNeeded m - g = 0)); simpl in *; [done|]. split; [|done].
      apply elem_of_cons in He as [->|He]; [done|done]. }
    destruct (IH Hnd _ _ _ Ha' Hu' Hw' Hs He') as [Hmeta Hor]; [by rewrite lookup_insert_ne|done|].
    fold r in Hmeta, Hor. rewrite lookup_insert_ne in Hmeta by done.
    assert (∀ T (f : given → T), (f r = f (mkGiven (gv_rem r) (gv_al r) (gv_meta r) ((id, p) :: gv_kept r))) →
      f (if decide (bytesNeeded m - g = 0) then r
         else mkGiven (gv_rem r) (gv_al r) (gv_meta r) ((id, p) :: gv_kept r)) = f r) as Hif.
    { intros T f Ef. by case_decide. }
    rewrite !(Hif _ gv_meta), !(Hif _ gv_al) by done. split; [done|].
    destruct (Z.lt_ge_cases 0 g) as [Hgp|Hgz].
    + right. exists (id, p), m. split; [by apply sublist_skip|]. split; [done|]. lia.
    + assert (g = 0) as E0 by lia. assert (al' = al) as Eal by (unfold al'; by rewrite decide_False by lia).
      assert (rem - g = rem) as Erem by lia. clearbody r al'. subst al'. rewrite Erem in Hor.
      destruct Hor as [?|(h&mh&Hsh&Hmh&Hlth)]; [by left|right].
      exists h, mh. split; [by apply sublist_cons|]. split; [|done].
      assert (h.2 ≠ p) as Hne.
      { intros <-. apply Hp. apply list_elem_of_fmap_2. eapply sublist_elem; [exact Hsh|left]. }
      by rewrite lookup_insert_ne in Hmh by done.
Qed.

(** ** Without validators *)

(** Nobody is a validator, and a message is not empty and not larger than what a node
    may take. *)
Definition no_validators (C : MsgByteThrottlerConfig) (vdrs : vdr_view) (size : Z) : Prop :=
  (∀ n, (vw_GetWeight vdrs n).2 = false ∨ (vw_GetWeight vdrs n).1 = 0) ∧
  0 < size ≤ NodeMaxAtLargeBytes C.

(** A blocked call that goes on, or a message that is released. *)
Inductive drain_step `{GoConv} (s : throttle) : throttle → Prop :=
| drain_wake l1 id p l2 msg :
    th_blocked s = l1 ++ (id, p) :: l2 → bt_meta (th_t s) !! p = Some msg →
    closeOnAcquireChan msg = Some true →
    drain_step s (mkThrottle (th_t s) (l1 ++ l2) (p :: th_held s))
| drain_release l1 p l2 msg t' :
    th_held s = l1 ++ p :: l2 → bt_meta (th_t s) !! p = Some msg →
    bt_release p (md_nodeID msg) (th_t s) = Some t' →
    drain_step s (mkThrottle t' (th_blocked s) (l1 ++ l2)).

Section live.
Context (C : MsgByteThrottlerConfig).

(** What holds of the messages that wait when there are no validators. *)
Record wait_order_ok (c : commonMsgThrottler) (meta : meta_store) (l : list (Z * positive)) : Prop := {
  oo_vdr : nodeToVdrBytesUsed c = ∅;
  oo_needed e msg : e ∈ l → meta !! e.2 = Some msg → bytesNeeded msg ≠ 0;
  oo_order e e' msg msg' : [e; e'] `sublist_of` l → meta !! e.2 = Some msg → meta !! e'.2 = Some msg' →
    used (nodeToAtLargeBytesUsed c) (md_nodeID msg) < NodeMaxAtLargeBytes C →
    bytesNeeded msg' = msgSize msg';
}.

Record live_inv (s : throttle) (l : list (Z * positive)) : Prop := {
  lv_inv : throttle_inv C nothing_owed s l;
  lv_order : wait_order_ok (common_of s) (bt_meta (th_t s)) l;
  lv_sizes p msg : p ∈ th_calls s → bt_meta (th_t s) !! p = Some msg →
    0 < msgSize msg ≤ NodeMaxAtLargeBytes C;
}.

Lemma live_init : config_ok C → live_inv (th_init C) [].
Proof.
  intros Hc. split; [by apply inv_init|split; simpl|simpl].
  - done.
  - by intros e msg ?%elem_of_nil.
  - intros e e' msg msg' Hs. by apply sublist_nil_r in Hs.
  - by intros p msg ?%elem_of_nil.
Qed.

Lemma not_waiting_node owed s l n e m :
  throttle_inv C owed s l → nodeToWaitingMsgID (th_t s) !! n = None → e ∈ l →
  bt_meta (th_t s) !! e.2 = Some m → md_nodeID m ≠ n.
Proof.
  intros Hi Hn He Hm E. destruct e as [id q]. assert (nodeToWaitingMsgID (th_t s) !! n = Some id); [|congruence].
  apply (ti_consistent _ _ _ _ Hi). by exists q, m.
Qed.

Lemma sublist_pair_elem {A} (l : list A) e e' : [e; e'] `sublist_of` l → e ∈ l ∧ e' ∈ l.
Proof. intros Hs. split; (eapply sublist_elem; [exact Hs|set_solver]). Qed.

Context `{GoConv}.

Lemma bt_Acquire_no_vdr vdrs size n t r t' :
  no_validators C vdrs size → nodeToVdrBytesUsed (bt_common t) = ∅ →
  bt_Acquire vdrs size n t = (r, t') → nodeToVdrBytesUsed (bt_common t') = ∅.
Proof.
  intros [Hnv _] Hv. unfold bt_Acquire. destruct (nodeToWaitingMsgID t !! n); [congruence|].
  set (g := Min64 size _). assert (nodeToVdrBytesUsed (take_at_large (bt_common t) n g) = ∅) as Hv1.
  { unfold take_at_large. by case_decide. }
  set (c1 := take_at_large _ _ _) in *.
  assert (vdr_allowed vdrs c1 n = 0) as Hz.
  { unfold vdr_allowed, vdr_allocation. destruct (vw_GetWeight vdrs n) as [w b] eqn:E.
    specialize (Hnv n). rewrite E in Hnv. simpl in Hnv.
    rewrite (decide_False (P := b = true ∧ w ≠ 0)) by (intros [-> ?]; by destruct Hnv).
    rewrite Hv1. unfold used. by rewrite lookup_empty. }
  case_decide; [by intros [= <- <-]|]. rewrite Hz.
  set (vb := Min64 _ _). assert (vb ≤ 0) as Hvb by (unfold vb; rewrite Min64_3; lia).
  assert (take_vdr c1 n vb = c1) as Ht by (unfold take_vdr; by rewrite decide_False by lia).
  rewrite Ht. case_decide; by intros [= <- <-].
Qed.

(** [Acquire], without validators. *)
Lemma acquire_no_vdr s l vdrs size n r t' :
  live_inv s l → no_validators C vdrs size → is_u64 size → bt_Acquire vdrs size n (th_t s) = (r, t') →
  nodeToWaitingMsgID (th_t s) !! n = None → 
  nodeToVdrBytesUsed (bt_common t') = ∅ ∧
  ∃ g p, bt_meta (th_t s) !! p = None ∧ 0 ≤ g ≤ remainingAtLargeBytes (common_of s) ∧
    (∀ n', n' ≠ n → used (nodeToAtLargeBytesUsed (bt_common t')) n' =
       used (nodeToAtLargeBytesUsed (common_of s)) n') ∧
    (r = acqReady p ∧ bt_meta t' = <[p := mkMeta 0 size n None]> (bt_meta (th_t s)) ∨
     ∃ id, r = acqWaiting p id ∧ 0 < size - g ∧
       bt_meta t' = <[p := mkMeta (size - g) size n (Some false)]> (bt_meta (th_t s))).
Proof.
  intros [Hi [Hv _ _] _] Hno Hs Ha Hn. pose proof (bt_Acquire_no_vdr _ _ _ _ _ _ Hno Hv Ha) as Hv'.
  split; [done|].
  destruct (bt_Acquire_spec C _ s l vdrs size n _ t' Hi Hs Hn Ha)
    as (c&g&vb&p&Ht&Ec&Hp&Hg&Hvb&Hle&Hmax&Hor).
  assert (vb = 0) as ->.
  { pose proof (tk_v_moved _ _ _ _ _ _ Ht n) as E. rewrite <-Ec, Hv, Hv', decide_True in E by done. lia. }
  exists g, p. split; [done|]. split.
  { pose proof (tk_al_rem _ _ _ _ _ _ Ht). pose proof (ao_rem _ _ _ (tk_al _ _ _ _ _ _ Ht)). lia. }
  split.
  { intros n' Hne. rewrite Ec, (tk_al_moved _ _ _ _ _ _ Ht), decide_False by done. lia. }
  rewrite Z.add_0_r in Hor. destruct Hno as [_ Hsz].
  destruct Hor as [(->&_&->)|(id&->&_&Hpos&_&->)]; [by left|right].
  exists id. split; [done|]. split; [lia|done].
Qed.

Lemma sublist_snoc_pair {A} (l : list A) e e' x :
  [e; e'] `sublist_of` l ++ [x] → [e; e'] `sublist_of` l ∨ e ∈ l ∧ e' = x.
Proof.
  intros Hs. apply sublist_app_r in Hs as (k1&k2&Ek&H1&H2).
  destruct k1 as [|a [|b k1]]; simplify_eq/=.
  - apply sublist_length in H2. simpl in H2. lia.
  - right. split; [eapply sublist_elem; [exact H1|left]|].
    by eapply sublist_elem, list_elem_of_singleton in H2; [|left].
  - left. destruct k1; simplify_eq/=; done.
Qed.

Lemma order_fresh s l c' p msg :
  live_inv s l → bt_meta (th_t s) !! p = None → nodeToVdrBytesUsed c' = ∅ →
  (∀ e m, e ∈ l → bt_meta (th_t s) !! e.2 = Some m →
    used (nodeToAtLargeBytesUsed c') (md_nodeID m) =
    used (nodeToAtLargeBytesUsed (common_of s)) (md_nodeID m)) →
  wait_order_ok c' (<[p := msg]> (bt_meta (th_t s))) l.
Proof.
  intros [Hi [Hv Hneed Hord] _] Hp Hv' Hu.
  assert (∀ e, e ∈ l → <[p := msg]> (bt_meta (th_t s)) !! e.2 = bt_meta (th_t s) !! e.2) as Hold.
  { intros e He. rewrite lookup_insert_ne; [done|]. intros ->.
    destruct (ti_meta _ _ _ _ Hi e.2 (inv_waiting_call _ _ _ _ _ Hi He)) as (m&?&_). congruence. }
  split; [done| |].
  - intros e m He. rewrite Hold by done. by apply Hneed.
  - intros e e' m m' Hs. destruct (sublist_pair_elem _ _ _ Hs) as [He He'].
    rewrite !Hold by done. intros Hm Hm' Hlt. rewrite (Hu e m He Hm) in Hlt. by eapply Hord.
Qed.

Lemma acquire_node s vdrs size n r t' :
  bt_Acquire vdrs size n (th_t s) = (r, t') → r ≠ acqError → nodeToWaitingMsgID (th_t s) !! n = None.
Proof. unfold bt_Acquire. destruct (nodeToWaitingMsgID (th_t s) !! n); [|done]. by intros [= <- <-]. Qed.

Lemma live_ready s l vdrs size n p t' :
  live_inv s l → no_validators C vdrs size → is_u64 size →
  bt_Acquire vdrs size n (th_t s) = (acqReady p, t') →
  live_inv (mkThrottle t' (th_blocked s) (p :: th_held s)) l.
Proof.
  intros Hl Hno Hs Ha. pose proof (acquire_node _ _ _ _ _ _ Ha ltac:(done)) as Hn.
  destruct (acquire_no_vdr s l vdrs size n _ t' Hl Hno Hs Ha Hn)
    as (Hv&g&q&Hq&Hg&Hu&[(E&Em)|(id&E&_)]); [injection E as <-|done].
  destruct Hl as [Hi Ho Hsz]. split.
  - by eapply inv_ready.
  - simpl. rewrite Em. apply order_fresh; [by split|done|done|].
    intros e m He Hm. apply Hu. by eapply not_waiting_node.
  - simpl. rewrite Em. intros q m Hq' Hm. apply lookup_insert_Some in Hm as [[<- <-]|[Hne Hm]].
    + simpl. apply Hno.
    + apply (Hsz q); [|done]. unfold th_calls in *. simpl in Hq'.
      rewrite <-Permutation_middle in Hq'. apply elem_of_cons in Hq' as [->|?]; done.
Qed.

Lemma live_wait s l vdrs size n p id t' :
  live_inv s l → no_validators C vdrs size → is_u64 size → ¬ blocked_node s n →
  nextMsgID (th_t s) < MaxUint64 → bt_Acquire vdrs size n (th_t s) = (acqWaiting p id, t') →
  live_inv (mkThrottle t' (th_blocked s ++ [(id, p)]) (th_held s)) (l ++ [(id, p)]).
Proof.
  intros Hl Hno Hs Hb Hid Ha. pose proof (acquire_node _ _ _ _ _ _ Ha ltac:(done)) as Hn.
  destruct (acquire_no_vdr s l vdrs size n _ t' Hl Hno Hs Ha Hn)
    as (Hv&g&q&Hq&Hg&Hu&[(E&_)|(id'&E&Hpos&Em)]); [done|injection E as -> ->].
  pose proof (order_fresh s l (bt_common t') q (mkMeta (size - g) size n (Some false)) Hl Hq Hv) as [_ Hneed Hord].
  { intros e m He Hm. apply Hu. destruct Hl as [Hi _ _]. by eapply not_waiting_node. }
  destruct Hl as [Hi Ho Hsz]. pose proof (inv_fresh_not_in _ _ _ _ _ Hi Hq) as Hqc. split.
  - by eapply inv_wait.
  - simpl. rewrite Em. split; [done| |].
    + intros e m [He| ->%list_elem_of_singleton]%elem_of_app Hm; [by eapply Hneed|].
      simpl in Hm. rewrite lookup_insert_eq in Hm. injection Hm as <-. simpl. lia.
    + intros e e' m m' [Hp|[He ->]]%sublist_snoc_pair Hm Hm' Hlt; [by eapply Hord|].
      simpl in Hm'. rewrite lookup_insert_eq in Hm'. injection Hm' as <-. simpl.
      rewrite lookup_insert_ne in Hm.
      2:{ intros ->. by apply Hqc, (inv_waiting_call _ _ _ _ _ Hi). }
      rewrite Hu in Hlt by (by eapply not_waiting_node).
      destruct (ti_stuck _ _ _ _ Hi e m He Hm) as [Hz|[Hz|Hz]]; [lia| |lia].
      by destruct (oo_needed _ _ _ Ho e m He Hm).
  - simpl. rewrite Em. intros q' m Hq' Hm. apply lookup_insert_Some in Hm as [[<- <-]|[Hne Hm]].
    + simpl. apply Hno.
    + apply (Hsz q'); [|done]. unfold th_calls in *. simpl in Hq'.
      rewrite fmap_app in Hq'. simpl in Hq'. apply elem_of_app.
      apply elem_of_app in Hq' as [[?| ->%list_elem_of_singleton]%elem_of_app|?]; [by left|done|by right].
Qed.

Lemma live_wake s l l1 id p l2 msg :
  live_inv s l → th_blocked s = l1 ++ (id, p) :: l2 → bt_meta (th_t s) !! p = Some msg →
  closeOnAcquireChan msg = Some true →
  live_inv (mkThrottle (th_t s) (l1 ++ l2) (p :: th_held s)) l.
Proof.
  intros [Hi Ho Hsz] Hb Hm Hch. split; [by eapply inv_wake|done|].
  simpl. intros q m Hq. apply Hsz. unfold th_calls in *. simpl in Hq. rewrite Hb.
  rewrite fmap_app, fmap_cons. rewrite fmap_app in Hq. set_solver.
Qed.

Lemma live_cancel s l l1 id p l2 msg :
  live_inv s l → th_blocked s = l1 ++ (id, p) :: l2 → bt_meta (th_t s) !! p = Some msg →
  live_inv (mkThrottle (bt_cancel id (md_nodeID msg) (th_t s)) (l1 ++ l2) (p :: th_held s))
    (alist_delete id l).
Proof.
  intros [Hi [Hv Hneed Hord] Hsz] Hb Hm.
  assert (alist_delete id l `sublist_of` l) as Hsub by apply sublist_filter.
  split; [by eapply inv_cancel|split; simpl|]; simpl.
  - done.
  - intros e m He. apply Hneed. by eapply sublist_elem.
  - intros e e' m m' Hs. apply Hord. by etrans.
  - intros q m Hq. apply Hsz. unfold th_calls in *. simpl in Hq. rewrite Hb.
    rewrite fmap_app, fmap_cons. rewrite fmap_app in Hq. set_solver.
Qed.

(** ** Releasing *)

Lemma inv_owe_zero s l n :
  throttle_inv C (owe n 0) s l → throttle_inv C nothing_owed s l.
Proof.
  intros Hi. split; try apply Hi. intros n'. rewrite (ti_acquired _ _ _ _ Hi n').
  unfold owe, nothing_owed. by case_decide.
Qed.

Lemma bt_give_vdr_zero n t : bt_give_vdr n 0 t = Some (0, t).
Proof. unfold bt_give_vdr. by destruct (nodeToWaitingMsgID t !! n). Qed.

(** Without validators a release gives back at-large bytes only. *)
Lemma release_no_vdr s l l1 p l2 msg t' :
  live_inv s l → th_held s = l1 ++ p :: l2 → bt_meta (th_t s) !! p = Some msg →
  bt_release p (md_nodeID msg) (th_t s) = Some t' →
  let c := common_of s in
  let y := msgSize msg - bytesNeeded msg in
  let r := give (nodeMaxAtLargeBytes c) (remainingAtLargeBytes c + y)
             (take_back (nodeToAtLargeBytesUsed c) (md_nodeID msg) y) (bt_meta (th_t s)) l in
  t' = th_t s ∧ throttle_inv C nothing_owed (mkThrottle t' (th_blocked s) (l1 ++ l2)) l ∨
  0 < y ≤ used (nodeToAtLargeBytesUsed c) (md_nodeID msg) ∧
  bt_common t' = mkCommon (nodeMaxAtLargeBytes c) (remainingVdrBytes c) (gv_rem r)
                   (nodeToVdrBytesUsed c) (gv_al r) (maxVdrBytes c) ∧
  bt_meta t' = gv_meta r ∧
  throttle_inv C nothing_owed (mkThrottle t' (th_blocked s) (l1 ++ l2)) (gv_kept r).
Proof.
  intros [Hi [Hv _ _] _] Hh Hm Hr. cbv zeta.
  destruct (inv_forget C s l l1 p l2 msg Hi Hh Hm) as (Hi1&Hrg&Hu).
  set (s1 := mkThrottle (th_t s) (th_blocked s) (l1 ++ l2)) in *. set (n := md_nodeID msg) in *.
  revert Hr. unfold bt_release. rewrite Hm. cbn [mbind option_bind].
  rewrite (wrap_id 64 (msgSize msg - bytesNeeded msg)) by (unfold is_uint in *; lia).
  set (y := msgSize msg - bytesNeeded msg) in *.
  assert (Min64 y [used (nodeToVdrBytesUsed (common_of s)) n] = 0) as ->.
  { rewrite Min64_2, Hv. unfold used. rewrite lookup_empty. simpl. lia. }
  rewrite Z.sub_0_r, wrap_id by (unfold is_uint in *; lia).
  case_decide as Hy; cbn [mbind option_bind].
  - assert (used (nodeToVdrBytesUsed (common_of s)) n = 0) as Hv0.
    { rewrite Hv. unfold used. by rewrite lookup_empty. }
    assert (y ≤ used (nodeToAtLargeBytesUsed (common_of s)) n) as Hyu.
    { pose proof (ti_acquired _ _ _ _ Hi1 n) as Hacq. unfold owe in Hacq.
      rewrite decide_True in Hacq by done. simpl in Hacq.
      pose proof (inv_acquired_nonneg _ _ _ _ n Hi1) as Hpos. simpl in Hpos.
      lia. }
    destruct (inv_give C s1 l n 0 y Hi1) as (t2&E2&Ec&Em&Hi2); [simpl; lia|].
    simpl in E2, Ec, Em, Hi2. simpl. rewrite E2. cbn [mbind option_bind]. rewrite bt_give_vdr_zero.
    cbn [mbind option_bind]. intros [= <-]. right. split; [lia|]. split; [exact Ec|]. split; [exact Em|].
    by eapply inv_owe_zero.
  - rewrite bt_give_vdr_zero. cbn [mbind option_bind]. intros [= <-]. left. split; [done|].
    assert (y = 0) as Ey by lia. rewrite Ey in Hi1. by eapply inv_owe_zero.
Qed.

Lemma live_release s l l1 p l2 msg t' :
  live_inv s l → th_held s = l1 ++ p :: l2 → bt_meta (th_t s) !! p = Some msg →
  bt_release p (md_nodeID msg) (th_t s) = Some t' →
  ∃ l', live_inv (mkThrottle t' (th_blocked s) (l1 ++ l2)) l'.
Proof.
  intros Hl Hh Hm Hr. pose proof (release_no_vdr s l l1 p l2 msg t' Hl Hh Hm Hr) as Hor.
  destruct Hl as [Hi [Hv Hneed Hord] Hsz].
  assert (∀ q, q ∈ th_calls (mkThrottle t' (th_blocked s) (l1 ++ l2)) → q ∈ th_calls s) as Hcalls.
  { intros q. unfold th_calls. simpl. rewrite Hh, !elem_of_app, elem_of_cons. tauto. }
  cbv zeta in Hor. destruct Hor as [[-> Hi']|(Hy&Ec&Em&Hi')].
  { exists l. split; [done|done|]. intros q m Hq. apply Hsz, Hcalls, Hq. }
  set (c := common_of s) in *. set (n := md_nodeID msg) in *.
  set (y := msgSize msg - bytesNeeded msg) in *.
  pose proof (ti_al _ _ _ _ Hi) as Ha. destruct (ti_max _ _ _ _ Hi) as [Emax Hmax].
  fold c in Ha, Emax. rewrite Emax in *.
  destruct (alloc_take_back _ _ _ n y Ha ltac:(lia)) as [Ha' Hmv].
  set (al' := take_back (nodeToAtLargeBytesUsed c) n y) in *.
  assert (∀ n', used al' n' ≤ NodeMaxAtLargeBytes C) as Hu'.
  { intros n'. rewrite Hmv. pose proof (ti_al_max _ _ _ _ Hi n') as Hn. fold c in Hn.
    destruct (decide (n' = n)); lia. }
  pose proof (inv_waiting_NoDup _ _ _ _ Hi) as Hnd. pose proof (ti_wait _ _ _ _ Hi) as Hw.
  pose proof (give_ok _ _ _ _ _ _ Ha' Hmax Hu' Hw Hnd) as Hgs.
  set (r := give _ _ _ _ _) in *. exists (gv_kept r).
  assert (∀ q m', q ∈ th_calls s → gv_meta r !! q = Some m' → 
    ∃ m, bt_meta (th_t s) !! q = Some m ∧ fed m m') as Hfed.
  { intros q m' Hq Hm'. destruct (ti_meta _ _ _ _ Hi q Hq) as (m&Hqm&_&Hrg).
    destruct (proj2 (gs_feeds _ _ _ _ _ _ _ Hgs) q m Hqm) as (m2&Hm2&Hf); [lia|].
    rewrite Hm' in Hm2. injection Hm2 as <-. by exists m. }
  split; [done|split; simpl|]; simpl; rewrite ?Ec, ?Em.
  - done.
  - intros e m He Hme.
    by eapply (gs_needs _ _ _ _ _ _ _ Hgs).
  - intros e e' m m' Hs Hme Hme' Hlt. destruct (sublist_pair_elem _ _ _ Hs) as [He _].
    assert ([e; e'] `sublist_of` l) as Hsl by (etrans; [exact Hs|apply Hgs]).
    destruct (sublist_pair_elem _ _ _ Hsl) as [Hel _].
    destruct (Hfed e.2 m (inv_waiting_call _ _ _ _ _ Hi Hel) Hme) as (m0&Hm0&En&_).
    simpl in Hlt. rewrite En in Hlt.
    destruct (give_later _ _ _ _ _ _ _ _ _ Ha' Hmax Hu' Hw Hnd Hsl He Hm0 Hlt) as [Hsame Hor].
    fold r in Hsame, Hor. rewrite Hsame in Hme'.
    assert (used (nodeToAtLargeBytesUsed c) (md_nodeID m0) < NodeMaxAtLargeBytes C →
      bytesNeeded m' = msgSize m') as Hgo by (intros Hlt0; by eapply (Hord e e')).
    destruct Hor as [Hle|(h&mh&Hsh&Hmh&Hlth)].
    + apply Hgo. rewrite Hmv in Hle. pose proof (ao_rem _ _ _ Ha).
      destruct (decide (md_nodeID m0 = n)); lia.
    + rewrite Hmv in Hlth. destruct (decide (md_nodeID mh = n)) as [Enh|Hne].
      2:{ eapply (Hord h e'); [|done..|lia]. etrans; [|exact Hsh]. apply sublist_skip.
          apply sublist_cons. by apply sublist_skip. }
      apply Hgo. pose proof (proj1 (gs_max _ _ _ _ _ _ _ Hgs (md_nodeID m0))) as Hmon.
      rewrite Hmv in Hmon. destruct (decide (md_nodeID m0 = n)) as [E0|_]; [|fold r in Hmon; lia].
      exfalso. assert (h ∈ l) as Hh' by (eapply sublist_elem; [exact Hsh|left]).
      assert (h = e) as ->.
      { eapply (ti_nodes _ _ _ _ Hi h e mh m0); try done; try (eapply sublist_elem; [apply Hi|done]).
        congruence. }
      apply (sublist_NoDup _ l) in Hsh; [|by eapply NoDup_fmap_1].
      apply NoDup_cons in Hsh as [Hsh _]. apply Hsh. left.
  - intros q m' Hq%Hcalls Hm'. destruct (Hfed q m' Hq Hm') as (m&Hqm&_&Es&_). rewrite Es. by eapply Hsz.
Qed.

Abbreviation nv_reachable s := (throttle_reachable (no_validators C) C s).

Lemma live_step s s' l :
  live_inv s l → throttle_step (no_validators C) s s' → ∃ l', live_inv s' l'.
Proof.
  intros Hl Hs. destruct Hs as [vdrs size n p t' Hno Hu _ Ha|vdrs size n p id t' Hno Hu Hb Hid Ha
    |l1 id p l2 msg Hb Hm Hch|l1 id p l2 msg Hb Hm|l1 p l2 msg t' Hh Hm Hr].
  - exists l. by eapply live_ready.
  - exists (l ++ [(id, p)]). by eapply live_wait.
  - exists l. by eapply live_wake.
  - exists (alist_delete id l). by eapply live_cancel.
  - by eapply live_release.
Qed.

Lemma reach_live s : config_ok C → nv_reachable s → ∃ l, live_inv s l.
Proof.
  intros Hc. induction 1 as [|s s' _ [l Hi] Hs]; [exists []; by apply live_init|]. by eapply live_step.
Qed.

(** ** Progress *)

Lemma map_total_single (m : gmap NodeID Z) n :
  (∀ n', n' ≠ n → used m n' = 0) → map_total m = used m n.
Proof.
  intros Hz. unfold map_total, used in *.
  destruct (m !! n) as [x|] eqn:E.
  - simpl. apply (sumZ_single snd (map_to_list m) (n, x)); [apply NoDup_map_to_list| |].
    + by apply elem_of_map_to_list.
    + intros [n' x'] He%elem_of_map_to_list Hne. simpl. specialize (Hz n').
      rewrite He in Hz. simpl in Hz. apply Hz. intros ->. apply Hne. congruence.
  - apply sumZ_zero. intros [n' x'] He%elem_of_map_to_list. simpl. specialize (Hz n').
    rewrite He in Hz. simpl in Hz. apply Hz. congruence.
Qed.

(** The oldest message that waits, when no message is left to release. *)
Lemma oldest_holds_all s e l :
  config_ok C → live_inv s (e :: l) → th_held s = [] → (∀ e', e' ∈ th_blocked s → e' ∈ e :: l) →
  AtLargeAllocSize C < NodeMaxAtLargeBytes C.
Proof.
  intros Hcfg [Hi [Hv Hneed Hord] Hsz] Hh Hall. set (c := common_of s) in *.
  pose proof (inv_waiting_call _ _ _ _ e Hi ltac:(left)) as Hec.
  destruct (ti_meta _ _ _ _ Hi e.2 Hec) as (m&Hm&_&Hr).
  pose proof (Hneed e m ltac:(left) Hm) as Hn0. pose proof (Hsz _ _ Hec Hm) as Hsm.
  assert (∀ p, p ∈ th_calls s → p ≠ e.2 → used (nodeToAtLargeBytesUsed c) (md_nodeID m) < NodeMaxAtLargeBytes C →
    ∀ n, acquired_by (bt_meta (th_t s)) n p = 0) as Hother.
  { intros p Hp Hne Hlt n. destruct (ti_meta _ _ _ _ Hi p Hp) as (m'&Hm'&_).
    unfold th_calls in Hp. rewrite Hh, app_nil_r in Hp.
    apply list_elem_of_fmap in Hp as (e'&->&He'). apply Hall, elem_of_cons in He' as [->|He']; [done|].
    unfold acquired_by. rewrite Hm'. case_decide; [|done].
    rewrite (Hord e e' m m'); [lia| |done|done|done].
    apply list_elem_of_split in He' as (k1&k2&->). apply sublist_skip.
    apply (sublist_app [] k1 [e']); [apply sublist_nil_l|]. apply sublist_skip, sublist_nil_l. }
  assert (∀ n, used (nodeToAtLargeBytesUsed c) n = node_acquired (bt_meta (th_t s)) n (th_calls s)) as Hacq.
  { intros n. pose proof (ti_acquired _ _ _ _ Hi n) as Ha. fold c in Ha. rewrite Hv in Ha.
    unfold nothing_owed, used in *. rewrite lookup_empty in Ha. simpl in Ha. lia. }
  (* the node of the oldest message may take more *)
  destruct (Z.lt_ge_cases (used (nodeToAtLargeBytesUsed c) (md_nodeID m)) (NodeMaxAtLargeBytes C)) as [Hlt|Hge].
  2:{ exfalso. revert Hge. rewrite Hacq.
      assert (node_acquired (bt_meta (th_t s)) (md_nodeID m) (th_calls s) =
        acquired_by (bt_meta (th_t s)) (md_nodeID m) e.2) as ->.
      { apply sumZ_single; [apply Hi|done|]. intros p Hp Hne. unfold acquired_by.
        destruct (ti_meta _ _ _ _ Hi p Hp) as (m'&Hm'&_). rewrite Hm'. rewrite decide_False; [done|].
        intros E. unfold th_calls in Hp. rewrite Hh, app_nil_r in Hp.
        apply list_elem_of_fmap in Hp as (e'&->&He'). apply Hne. f_equal.
        eapply (ti_nodes _ _ _ _ Hi e' e m' m); try done. eapply sublist_elem; [apply Hi|left]. }
      unfold acquired_by. rewrite Hm, decide_True by done. lia. }
  destruct (ti_stuck _ _ _ _ Hi e m ltac:(left) Hm) as [Hz|[?|?]]; [|done|fold c in H0; lia].
  fold c in Hz. pose proof (ao_total _ _ _ (ti_al _ _ _ _ Hi)) as Htot. fold c in Htot.
  assert (∀ n, node_acquired (bt_meta (th_t s)) n (th_calls s) = acquired_by (bt_meta (th_t s)) n e.2) as Hnode.
  { intros n. apply (sumZ_single (acquired_by (bt_meta (th_t s)) n)); [apply Hi|done|]. 
    intros p Hp Hne. by apply Hother. }
  rewrite (map_total_single _ (md_nodeID m)) in Htot.
  - lia.
  - intros n' Hne. rewrite Hacq, Hnode. unfold acquired_by. rewrite Hm. by rewrite decide_False.
Qed.

Lemma drain_progress s l :
  config_ok C → NodeMaxAtLargeBytes C ≤ AtLargeAllocSize C → live_inv s l → th_blocked s ≠ [] →
  ∃ s', drain_step s s'.
Proof.
  intros Hcfg Hle Hl Hb. pose proof (lv_inv _ _ Hl) as Hi.
  destruct (th_held s) as [|p held] eqn:Hh.
  2:{ destruct (ti_meta _ _ _ _ Hi p) as (msg&Hm&_); [unfold th_calls; rewrite Hh; set_solver|].
      destruct (inv_release C s l [] p held msg Hi Hh Hm) as (t'&_&E&_).
      exists (mkThrottle t' (th_blocked s) ([] ++ held)). by eapply drain_release. }
  destruct (decide (Exists (λ e, e ∉ l) (th_blocked s))) as [Hex|Hall].
  - apply Exists_exists in Hex as (e&He&Hel).
    destruct (ti_ready _ _ _ _ Hi e He) as [?|(msg&Hm&Hch&_)]; [done|]. destruct e as [id p].
    apply list_elem_of_split in He as (l1&l2&E). eexists. by eapply drain_wake.
  - exfalso. rewrite <-Forall_Exists_neg in Hall.
    assert (∀ e, e ∈ th_blocked s → e ∈ l) as Hin.
    { intros e He. rewrite Forall_forall in Hall. specialize (Hall e He).
      destruct (decide (e ∈ l)); [done|]. by destruct Hall. }
    destruct l as [|e l].
    { destruct (th_blocked s) as [|e b]; [done|]. specialize (Hin e ltac:(left)).
      by apply elem_of_nil in Hin. }
    pose proof (oldest_holds_all s e l Hcfg Hl Hh Hin). lia.
Qed.

Definition drain_measure (s : throttle) : nat := 2 * length (th_blocked s) + length (th_held s).

Lemma drain_decreases s s' : drain_step s s' → (drain_measure s' < drain_measure s)%nat.
Proof.
  intros [l1 id p l2 msg Hb _ _|l1 p l2 msg t' Hh _ _]; unfold drain_measure; simpl.
  - rewrite Hb, !length_app. simpl. lia.
  - rewrite Hh, !length_app. simpl. lia.
Qed.

Lemma drain_live s s' l : live_inv s l → drain_step s s' → ∃ l', live_inv s' l'.
Proof.
  intros Hl [l1 id p l2 msg Hb Hm Hch|l1 p l2 msg t' Hh Hm Hr].
  - exists l. by eapply live_wake.
  - by eapply live_release.
Qed.
End live.

(** ** What the throttler promises *)

(** C24: the books of the inbound byte throttler balance, whatever the order of
    the calls, the sizes and the validators: what remains of each allocation and
    what the nodes use of it make up the allocation, no node has more at-large
    bytes than its limit, the bytes on the books of a node are those its calls
    have acquired, a call that is let through has all its bytes, and releasing a
    message never panics. *)
Theorem throttler_books `{GoConv} allowed C s :
  config_ok C → throttle_reachable allowed C s →
  let c := common_of s in
  remainingAtLargeBytes c + map_total (nodeToAtLargeBytesUsed c) = AtLargeAllocSize C ∧
  remainingVdrBytes c + map_total (nodeToVdrBytesUsed c) = VdrAllocSize C ∧
  is_u64 (remainingAtLargeBytes c) ∧ is_u64 (remainingVdrBytes c) ∧
  (∀ n, 0 ≤ used (nodeToAtLargeBytesUsed c) n ≤ NodeMaxAtLargeBytes C ∧
     0 ≤ used (nodeToVdrBytesUsed c) n ≤ VdrAllocSize C ∧
     used (nodeToAtLargeBytesUsed c) n + used (nodeToVdrBytesUsed c) n =
       node_acquired (bt_meta (th_t s)) n (th_calls s)) ∧
  (∀ id p msg, (id, p) ∈ th_blocked s → bt_meta (th_t s) !! p = Some msg →
     closeOnAcquireChan msg = Some true → bytesNeeded msg = 0) ∧
  (∀ p, p ∈ th_held s → ∃ msg t', bt_meta (th_t s) !! p = Some msg ∧
     bt_release p (md_nodeID msg) (th_t s) = Some t').
Proof.
  intros Hc Hr c. destruct (reach_inv _ _ _ Hc Hr) as [l Hi].
  pose proof (ti_al _ _ _ _ Hi) as Ha. pose proof (ti_v _ _ _ _ Hi) as Hv.
  split; [apply Ha|]. split; [apply Hv|].
  split; [apply (alloc_u64 _ _ _ (node1 x00) Ha)|]. split; [apply (alloc_u64 _ _ _ (node1 x00) Hv)|].
  split; [|split].
  - intros n. pose proof (used_nonneg _ _ _ n Ha). pose proof (used_nonneg _ _ _ n Hv).
    pose proof (used_le_total _ _ _ n Hv). pose proof (ao_rem _ _ _ Hv).
    pose proof (ti_al_max _ _ _ _ Hi n). pose proof (ti_acquired _ _ _ _ Hi n) as Hacq.
    unfold nothing_owed in Hacq. unfold c. lia.
  - intros id p msg He Hm Hch. destruct (ti_ready _ _ _ _ Hi _ He) as [Hl|(m&Hm'&_&Hz)].
    + pose proof (ti_wait _ _ _ _ Hi) as Hw. unfold all_wait in Hw. rewrite Forall_forall in Hw.
      destruct (Hw _ Hl) as (m&Hm'&_&Hch'). simpl in Hm'. congruence.
    + simpl in Hm'. congruence.
  - intros p Hp. destruct (ti_meta _ _ _ _ Hi p) as (msg&Hm&_); [apply elem_of_app; by right|].
    apply list_elem_of_split in Hp as (l1&l2&Hh).
    destruct (inv_release C s l l1 p l2 msg Hi Hh Hm) as (t'&_&E&_). by exists msg, t'.
Qed.

(** C25: without validators, as long as every message has at least one byte and at
    most what a node may take ([no_validators]; one of no bytes may wait for ever, see
    [Acquire_zero_waits]), and a node may take at most what there is to share, no
    message waits for ever: once no more messages come, the
    calls that may go on and the messages that are released, in any order, come to an
    end within [2 * blocked + held] steps, and then no call is blocked. *)
Theorem waiting_messages_proceed `{GoConv} C s :
  config_ok C → NodeMaxAtLargeBytes C ≤ AtLargeAllocSize C →
  throttle_reachable (no_validators C) C s →
  ∀ k s', nsteps drain_step k s s' →
    (k ≤ 2 * length (th_blocked s) + length (th_held s))%nat ∧
    ((∀ s'', ¬ drain_step s' s'') → th_blocked s' = []).
Proof.
  intros Hc Hle Hr. destruct (reach_live _ _ Hc Hr) as [l Hl]. intros k s' Hk.
  fold (drain_measure s). revert l Hl. clear Hr.
  induction Hk as [s|k s1 s2 s3 Hs Hk IH]; intros l Hl.
  - split; [lia|]. intros Hstop. destruct (decide (th_blocked s = [])) as [|Hb]; [done|].
    destruct (drain_progress C s l Hc Hle Hl Hb) as [s' Hs']. by destruct (Hstop s').
  - destruct (drain_live C _ _ _ Hl Hs) as [l' Hl']. destruct (IH l' Hl') as [Hm Hstop].
    pose proof (drain_decreases _ _ Hs). split; [lia|done].
Qed.

(** ** Runs *)

Lemma not_blocked t h n : ¬ blocked_node (mkThrottle t [] h) n.
Proof. by intros (e&m&He%elem_of_nil&_). Qed.

(** Evaluation by the virtual machine, without the normal form of the types. *)
Ltac evaluate :=
  match goal with
  | |- _ = ?b => vm_cast_no_check (eq_refl b)
  | _ => vm_compute; reflexivity
  end.

(** A run with a validator that comes to a stop. *)

Module deadlock.
#[local] Existing Instance go_conv_amd64.

Definition config : MsgByteThrottlerConfig := mkByteConfig 2 5 5.
Definition n1 : NodeID := node1 x01.
Definition n2 : NodeID := node1 x02.

(** [n2] is the only validator. *)
Definition nodes : vdr_view :=
  mkVdrView (λ n, if decide (n = n2) then (1, true) else (0, false)) 1.

Definition t1 : inboundMsgByteThrottler := (bt_Acquire nodes 2 n2 (newInboundMsgByteThrottler config)).2.
Definition t2 : inboundMsgByteThrottler := (bt_Acquire nodes 5 n1 t1).2.
Definition t3 : inboundMsgByteThrottler := (bt_Acquire nodes 5 n2 t2).2.
Definition t4 : inboundMsgByteThrottler := default t3 (bt_release 1%positive n2 t3).

Lemma run_deadlock :
  bt_Acquire nodes 2 n2 (newInboundMsgByteThrottler config) = (acqReady 1, t1) ∧
  (bt_Acquire nodes 5 n1 t1 = (acqWaiting 2 1, t2) ∧ nextMsgID t1 < MaxUint64) ∧
  (bt_Acquire nodes 5 n2 t2 = (acqWaiting 3 2, t3) ∧ nextMsgID t2 < MaxUint64 ∧
   md_nodeID <$> bt_meta t2 !! 2%positive = Some n1) ∧
  (bt_release 1 n2 t3 = Some t4 ∧ md_nodeID <$> bt_meta t3 !! 1%positive = Some n2) ∧
  (closeOnAcquireChan <$> bt_meta t4 !! 2%positive) = Some (Some false) ∧
  (closeOnAcquireChan <$> bt_meta t4 !! 3%positive) = Some (Some false).
Proof. split_and!; evaluate. Qed.

#[global] Opaque t1 t2 t3 t4.

Lemma reachable_deadlock : throttle_reachable (λ _ _, True) config (mkThrottle t4 [(1, 2%positive); (2, 3%positive)] []).
Proof.
  destruct run_deadlock as (E1&[E2 I1]&(E3&I2&Em2)&[E4 Em]&_).
  assert (is_u64 2 ∧ is_u64 5) as [Hu2 Hu5] by (unfold is_uint; lia).
  assert (n1 ≠ n2) as Hne by (intros E; by injection E).
  destruct (bt_meta t3 !! 1%positive) as [m|] eqn:Hm; [|discriminate Em].
  cbn in Em. injection Em as Em.
  eapply reach_step with (mkThrottle t3 [(1, 2%positive); (2, 3%positive)] [1%positive]).
  2:{ apply (step_release _ (mkThrottle t3 _ [1%positive]) [] 1%positive [] m t4); [reflexivity|exact Hm|].
      cbn [th_t]. rewrite Em. exact E4. }
  eapply reach_step with (mkThrottle t2 [(1, 2%positive)] [1%positive]).
  2:{ apply (step_wait _ (mkThrottle t2 [(1, 2%positive)] _) nodes 5 n2 3%positive 2);
        [exact I|exact Hu5| |exact I2|exact E3].
      intros (e&m'&He&Hm'&En). cbn [th_blocked th_t] in He, Hm'. apply list_elem_of_singleton in He as ->.
      cbn [snd] in Hm'. rewrite Hm' in Em2. cbn in Em2. injection Em2 as Em2. apply Hne. congruence. }
  eapply reach_step with (mkThrottle t1 [] [1%positive]).
  2:{ apply (step_wait _ (mkThrottle t1 [] _) nodes 5 n1 2%positive 1);
        [exact I|exact Hu5|apply not_blocked|exact I1|exact E2]. }
  eapply reach_step; [apply reach_init|].
  apply (step_ready _ (th_init config) nodes 2 n2 1%positive); [exact I|exact Hu2|apply not_blocked|exact E1].
Qed.
End deadlock.

(** A run without validators. *)
Module quiet.
#[local] Existing Instance go_conv_amd64.

Definition config : MsgByteThrottlerConfig := mkByteConfig 2 5 5.
Definition nodes : vdr_view := mkVdrView (λ n, (0, false)) 1.
Definition t1 : inboundMsgByteThrottler :=
  (bt_Acquire nodes 5 (node1 x01) (newInboundMsgByteThrottler config)).2.
Definition t2 : inboundMsgByteThrottler := (bt_Acquire nodes 5 (node1 x02) t1).2.

Lemma run_quiet :
  bt_Acquire nodes 5 (node1 x01) (newInboundMsgByteThrottler config) = (acqReady 1, t1) ∧
  bt_Acquire nodes 5 (node1 x02) t1 = (acqWaiting 2 1, t2) ∧ nextMsgID t1 < MaxUint64.
Proof. split_and!; evaluate. Qed.

#[global] Opaque t1 t2.

Lemma reachable_quiet :
  throttle_reachable (no_validators config) config (mkThrottle t2 [(1, 2%positive)] [1%positive]).
Proof.
  destruct run_quiet as (E1&E2&I1).
  assert (is_u64 5) as Hu by (unfold is_uint; lia).
  assert (no_validators config nodes 5) as Hno by (split; [by left|simpl; lia]).
  eapply reach_step with (mkThrottle t1 [] [1%positive]).
  2:{ apply (step_wait _ (mkThrottle t1 [] _) nodes 5 (node1 x02) 2%positive 1);
        [exact Hno|exact Hu|apply not_blocked|exact I1|exact E2]. }
  eapply reach_step; [apply reach_init|].
  apply (step_ready _ (th_init config) nodes 5 (node1 x01) 1%positive);
    [exact Hno|exact Hu|apply not_blocked|exact E1].
Qed.
End quiet.

(** With validators messages may wait for ever: the validator's message gets the
    at-large bytes that its node gives back, as bytes of the validator
    allocation, and both messages that wait lack bytes that nobody holds. *)
Theorem throttler_deadlock :
  let HG := go_conv_amd64 in
  ∃ C s, config_ok C ∧ NodeMaxAtLargeBytes C ≤ AtLargeAllocSize C ∧
    throttle_reachable (λ _ _, True) C s ∧ length (th_blocked s) = 2%nat ∧ ∀ s', ¬ drain_step s s'.
Proof.
  intros HG. exists deadlock.config. eexists.
  split; [by vm_compute|]. split; [by vm_compute|]. split; [apply deadlock.reachable_deadlock|]. split; [done|].
  destruct deadlock.run_deadlock as (_&_&_&_&H2&H3).
  intros s' [l1 id p l2 msg Hb Hm Hch|l1 p l2 msg t' Hh _ _]; simpl in *.
  - assert ((id, p) ∈ [(1, 2%positive); (2, 3%positive)]) as He
      by (rewrite Hb; apply elem_of_app; right; left).
    apply elem_of_cons in He as [[= -> ->]|[= -> ->]%list_elem_of_singleton].
    + rewrite Hm in H2. simpl in H2. congruence.
    + rewrite Hm in H3. simpl in H3. congruence.
  - by destruct l1.
Qed.

(** A message of no bytes waits, until somebody else releases bytes. *)
Theorem Acquire_zero_waits `{GoConv} allowed C s vdrs n :
  config_ok C → throttle_reachable allowed C s → nodeToWaitingMsgID (th_t s) !! n = None →
  ∃ p id t', bt_Acquire vdrs 0 n (th_t s) = (acqWaiting p id, t').
Proof.
  intros Hc Hr Hn. destruct (reach_inv _ _ _ Hc Hr) as [l Hi].
  destruct (bt_Acquire vdrs 0 n (th_t s)) as [r t'] eqn:E. revert E.
  unfold bt_Acquire. rewrite Hn.
  pose proof (ti_al_ok _ _ _ _ Hi) as Hok. rewrite Min64_3, (at_large_allowed_eq _ _ _ Hok).
  destruct Hok as (Hm&Hrem&Hu). specialize (Hu n).
  replace (0 `min` _ `min` _) with 0 by (unfold is_uint in *; lia).
  rewrite (decide_False (P := 0 > 0 ∧ _)) by lia. rewrite Z.sub_0_r.
  set (c := take_at_large _ _ _). assert (c = common_of s) as -> by (unfold c, take_at_large; by rewrite decide_False).
  rewrite Min64_3. pose proof (ao_rem _ _ _ (ti_v _ _ _ _ Hi)) as Hrv.
  assert (0 ≤ vdr_allowed vdrs (common_of s) n) as Hva by (unfold vdr_allowed; case_decide; lia).
  replace (_ `min` _ `min` _) with 0.
  2:{ replace (wrap64 0) with 0 by done. lia. }
  rewrite decide_False by lia. intros [= <- <-]. eauto.
Qed.

(** ** Witnesses *)

Lemma throttler_books_witness :
  let HG := go_conv_amd64 in
  let s := mkThrottle deadlock.t4 [(1, 2%positive); (2, 3%positive)] [] in
  throttle_reachable (λ _ _, True) deadlock.config s ∧
  remainingAtLargeBytes (common_of s) + map_total (nodeToAtLargeBytesUsed (common_of s)) = 5.
Proof.
  intros HG s. assert (config_ok deadlock.config) as Hc by by vm_compute.
  destruct (throttler_books (λ _ _, True) deadlock.config s Hc deadlock.reachable_deadlock) as [E _].
  split; [apply deadlock.reachable_deadlock|exact E].
Defined.

Lemma waiting_messages_proceed_witness :
  let HG := go_conv_amd64 in
  let s := mkThrottle quiet.t2 [(1, 2%positive)] [1%positive] in
  throttle_reachable (no_validators quiet.config) quiet.config s ∧
  ∀ k s', nsteps drain_step k s s' →
    (k ≤ 3)%nat ∧ ((∀ s'', ¬ drain_step s' s'') → th_blocked s' = []).
Proof.
  intros HG s. assert (config_ok quiet.config) as Hc by by vm_compute.
  split; [apply quiet.reachable_quiet|].
  assert (NodeMaxAtLargeBytes quiet.config ≤ AtLargeAllocSize quiet.config) as Hle by by vm_compute.
  exact (waiting_messages_proceed quiet.config s Hc Hle quiet.reachable_quiet).
Defined.
