(* ===== verification/Secp256k1fx.v ===== *)
(** The secp256k1 feature extension (src/vms/secp256k1fx: output_owners.go,
    input.go, credential.go, transfer_input.go, transfer_output.go,
    mint_output.go, mint_operation.go, fx.go, keychain.go) and the locks of the
    platform chain (src/vms/platformvm/stakeable).

    An output is owned by a group of addresses, a threshold of whose signatures
    spends it.  [VerifyTransfer] checks an input and its credential against the
    output; [Keychain] builds inputs that pass.

    A value of a Go interface type is an [iface]: the dynamic type and a pointer,
    [None] when it is nil.  The signature scheme and the hash function are
    parameters, [Crypto]. *)

From S2P Require Import Prelude SafeMath Ids NodeBag Packer Database.
From Stdlib Require Import Strings.Byte.

(** [type ShortID [20]byte], the representation of [NodeID]. *)
Abbreviation ShortID := NodeID.
Abbreviation ShortID_bytes := nid_bytes.

(** [RecoverHashPublicKey(hash, sig)] and the address of the key it returns,
    the address of a private key, a signature of a hash; [ComputeHash256Array]. *)
Class Crypto : Type := {
  PrivateKey : Type;
  key_Address : PrivateKey → ShortID;
  SignHash : PrivateKey → bytes → bytes;
  RecoverAddress : bytes → bytes → option ShortID;
  ComputeHash256Array : bytes → ID;
}.

Definition ComputeHash256 `{Crypto} (b : bytes) : bytes := id_bytes (ComputeHash256Array b).

(** A signature is recognised as its key's. *)
Class CryptoLaws `{Crypto} : Prop := {
  recover_sign k h : RecoverAddress h (SignHash k h) = Some (key_Address k);
}.

(** ** Data *)

Record OutputOwners := mkOwners { oo_Locktime : Z; oo_Threshold : Z; oo_Addrs : list ShortID }.
Record Input := mkInput { SigIndices : list Z }.
Record Credential := mkCredential { Sigs : list bytes }.
Record TransferInput := mkTransferInput { ti_Amt : Z; ti_Input : Input }.
Record TransferOutput := mkTransferOutput { to_Amt : Z; to_Owners : OutputOwners }.
Record MintOutput := mkMintOutput { mo_Owners : OutputOwners }.
Record MintOperation := mkMintOperation {
  MintInput : Input;
  op_MintOutput : MintOutput;
  op_TransferOutput : TransferOutput;
}.

#[export] Instance OutputOwners_eq_dec : EqDecision OutputOwners.
Proof. solve_decision. Defined.
#[export] Instance Input_eq_dec : EqDecision Input.
Proof. solve_decision. Defined.

(** The values behind interfaces; [ifOther] is any other type. *)
Inductive iface :=
| ifNil
| ifTx (unsigned_bytes : bytes)
| ifInput (p : option Input)
| ifTransferInput (p : option TransferInput)
| ifCredential (p : option Credential)
| ifOutputOwners (p : option OutputOwners)
| ifTransferOutput (p : option TransferOutput)
| ifMintOutput (p : option MintOutput)
| ifMintOperation (p : option MintOperation)
| ifLockIn (locktime : Z) (i : iface)
| ifLockOut (locktime : Z) (o : iface)
| ifOther.

Inductive fx_error :=
| errWrongTxType | errWrongOpType | errWrongUTXOType | errWrongInputType | errWrongCredentialType
| errWrongOwnerType | errWrongNumberOfUTXOs | errWrongMintCreated | errTimelocked | errTooManySigners
| errTooFewSigners | errInputOutputIndexOutOfBounds | errInputCredentialSignersMismatch
| errWrongAmount | errRecover | errWrongSigner
| errNilOutput | errOutputUnspendable | errOutputUnoptimized | errAddrsNotSortedUnique
| errNilInput | errNotSortedUnique | errNilCredential | errNoValueInput | errNoValueOutput
| errNilMintOperation | errInvalidLocktime | errNestedStakeableLocks | errCantSpend | errUnexpectedType
| errNilDereference.

#[export] Instance fx_error_eq_dec : EqDecision fx_error.
Proof. solve_decision. Defined.

Definition wrap32 (x : Z) : Z := wrap 32 x.
Definition len32 {A} (l : list A) : Z := wrap32 (Z.of_nat (length l)).

(** ** Well-formedness *)

Fixpoint IsSortedAndUniqueShortIDs (ids : list ShortID) : bool :=
  match ids with
  | a :: ((b :: _) as l) =>
      if bytes_ltb (ShortID_bytes a) (ShortID_bytes b) then IsSortedAndUniqueShortIDs l else false
  | _ => true
  end.

Fixpoint IsSortedAndUniqueUint32 (arr : list Z) : bool :=
  match arr with
  | a :: ((b :: _) as l) => if decide (b ≤ a) then false else IsSortedAndUniqueUint32 l
  | _ => true
  end.

Definition OutputOwners_Verify (out : option OutputOwners) : result fx_error unit :=
  match out with
  | None => Err errNilOutput
  | Some out =>
      if decide (oo_Threshold out > len32 (oo_Addrs out)) then Err errOutputUnspendable
      else if decide (oo_Threshold out = 0 ∧ (0 < length (oo_Addrs out))%nat) then Err errOutputUnoptimized
      else if negb (IsSortedAndUniqueShortIDs (oo_Addrs out)) then Err errAddrsNotSortedUnique
      else Ok tt
  end.

Definition OutputOwners_Equals (out other : OutputOwners) : bool :=
  bool_decide (oo_Locktime out = oo_Locktime other ∧ oo_Threshold out = oo_Threshold other ∧
    oo_Addrs out = oo_Addrs other).

Definition Input_Verify (i : option Input) : result fx_error unit :=
  match i with
  | None => Err errNilInput
  | Some i => if IsSortedAndUniqueUint32 (SigIndices i) then Ok tt else Err errNotSortedUnique
  end.

Definition CostPerSignature : Z := 1000.
Definition Input_Cost (i : Input) : result math_error Z :=
  Mul64 (Z.of_nat (length (SigIndices i))) CostPerSignature.

Definition Credential_Verify (c : option Credential) : result fx_error unit :=
  match c with None => Err errNilCredential | Some _ => Ok tt end.

Definition TransferInput_Verify (i : option TransferInput) : result fx_error unit :=
  match i with
  | None => Err errNilInput
  | Some i => if decide (ti_Amt i = 0) then Err errNoValueInput else Input_Verify (Some (ti_Input i))
  end.

Definition TransferOutput_Verify (o : option TransferOutput) : result fx_error unit :=
  match o with
  | None => Err errNilOutput
  | Some o =>
      if decide (to_Amt o = 0) then Err errNoValueOutput else OutputOwners_Verify (Some (to_Owners o))
  end.

Definition MintOutput_Verify (o : option MintOutput) : result fx_error unit :=
  match o with None => Err errNilOutput | Some o => OutputOwners_Verify (Some (mo_Owners o)) end.

(** [verify.All] *)
Fixpoint verify_All (vs : list (result fx_error unit)) : result fx_error unit :=
  match vs with
  | [] => Ok tt
  | Err e :: _ => Err e
  | Ok _ :: vs => verify_All vs
  end.

Definition MintOperation_Verify (op : option MintOperation) : result fx_error unit :=
  match op with
  | None => Err errNilMintOperation
  | Some op =>
      verify_All [Input_Verify (Some (MintInput op)); MintOutput_Verify (Some (op_MintOutput op));
                  TransferOutput_Verify (Some (op_TransferOutput op))]
  end.

(** The method [Verify] of the dynamic type; on a nil interface it is a nil
    dereference.  The locks are those of package stakeable. *)
Fixpoint iface_Verify (v : iface) : result fx_error unit :=
  match v with
  | ifInput p => Input_Verify p
  | ifTransferInput p => TransferInput_Verify p
  | ifCredential p => Credential_Verify p
  | ifOutputOwners p => OutputOwners_Verify p
  | ifTransferOutput p => TransferOutput_Verify p
  | ifMintOutput p => MintOutput_Verify p
  | ifMintOperation p => MintOperation_Verify p
  | ifLockIn locktime i =>
      if decide (locktime = 0) then Err errInvalidLocktime
      else match i with ifLockIn _ _ => Err errNestedStakeableLocks | _ => iface_Verify i end
  | ifLockOut locktime o =>
      if decide (locktime = 0) then Err errInvalidLocktime
      else match o with ifLockOut _ _ => Err errNestedStakeableLocks | _ => iface_Verify o end
  | ifNil | ifTx _ | ifOther => Err errNilDereference
  end.

(** The method [Amount]; none when there is none to call. *)
Fixpoint iface_Amount (v : iface) : option Z :=
  match v with
  | ifTransferInput (Some i) => Some (ti_Amt i)
  | ifTransferOutput (Some o) => Some (to_Amt o)
  | ifLockIn _ i => iface_Amount i
  | ifLockOut _ o => iface_Amount o
  | _ => None
  end.

(** ** The feature extension *)

(** The clock of the virtual machine is read by every call: [now]. *)
Record Fx := mkFx { fx_bootstrapped : bool }.

Definition fx_Bootstrapped (fx : Fx) : Fx := mkFx true.

Section fx.
Context `{Crypto} (fx : Fx) (now : Z).

(** The loop over the signatures. *)
Fixpoint verify_sigs (txHash : bytes) (indices : list Z) (sigs : list bytes) (addrs : list ShortID)
  : result fx_error unit :=
  match indices with
  | [] => Ok tt
  | index :: indices =>
      if decide (len32 addrs ≤ index) then Err errInputOutputIndexOutOfBounds
      else
        match sigs with
        | [] => Err errNilDereference
        | sig :: sigs =>
            match RecoverAddress txHash sig with
            | None => Err errRecover
            | Some addr =>
                if decide (addrs !! Z.to_nat index ≠ Some addr) then Err errWrongSigner
                else verify_sigs txHash indices sigs addrs
            end
        end
  end.

Definition VerifyCredentials (utx : bytes) (i : Input) (cred : Credential) (out : OutputOwners)
  : result fx_error unit :=
  let numSigs := len32 (SigIndices i) in
  if decide (oo_Locktime out > now) then Err errTimelocked
  else if decide (oo_Threshold out < numSigs) then Err errTooManySigners
  else if decide (oo_Threshold out > numSigs) then Err errTooFewSigners
  else if decide (length (SigIndices i) ≠ length (Sigs cred)) then Err errInputCredentialSignersMismatch
  else if negb (fx_bootstrapped fx) then Ok tt
  else verify_sigs (ComputeHash256 utx) (SigIndices i) (Sigs cred) (oo_Addrs out).

Definition fx_VerifySpend (utx : bytes) (i : option TransferInput) (cred : option Credential)
    (utxo : option TransferOutput) : result fx_error unit :=
  match verify_All [TransferOutput_Verify utxo; TransferInput_Verify i; Credential_Verify cred] with
  | Err e => Err e
  | Ok _ =>
      match utxo, i, cred with
      | Some utxo, Some i, Some cred =>
          if decide (to_Amt utxo ≠ ti_Amt i) then Err errWrongAmount
          else VerifyCredentials utx (ti_Input i) cred (to_Owners utxo)
      | _, _, _ => Err errNilDereference
      end
  end.

Definition VerifyTransfer (tx i cred utxo : iface) : result fx_error unit :=
  match tx with
  | ifTx tx =>
      match i with
      | ifTransferInput i =>
          match cred with
          | ifCredential cred =>
              match utxo with
              | ifTransferOutput out => fx_VerifySpend tx i cred out
              | _ => Err errWrongUTXOType
              end
          | _ => Err errWrongCredentialType
          end
      | _ => Err errWrongInputType
      end
  | _ => Err errWrongTxType
  end.

Definition VerifyPermission (tx i cred owner : iface) : result fx_error unit :=
  match tx with
  | ifTx tx =>
      match i with
      | ifInput i =>
          match cred with
          | ifCredential cred =>
              match owner with
              | ifOutputOwners owner =>
                  match verify_All [Input_Verify i; Credential_Verify cred; OutputOwners_Verify owner] with
                  | Err e => Err e
                  | Ok _ =>
                      match i, cred, owner with
                      | Some i, Some cred, Some owner => VerifyCredentials tx i cred owner
                      | _, _, _ => Err errNilDereference
                      end
                  end
              | _ => Err errWrongOwnerType
              end
          | _ => Err errWrongCredentialType
          end
      | _ => Err errWrongInputType
      end
  | _ => Err errWrongTxType
  end.

Definition fx_verifyOperation (tx : bytes) (op : option MintOperation) (cred : option Credential)
    (utxo : option MintOutput) : result fx_error unit :=
  match verify_All [MintOperation_Verify op; Credential_Verify cred; MintOutput_Verify utxo] with
  | Err e => Err e
  | Ok _ =>
      match op, cred, utxo with
      | Some op, Some cred, Some utxo =>
          if negb (OutputOwners_Equals (mo_Owners utxo) (mo_Owners (op_MintOutput op)))
          then Err errWrongMintCreated
          else VerifyCredentials tx (MintInput op) cred (mo_Owners utxo)
      | _, _, _ => Err errNilDereference
      end
  end.

Definition VerifyOperation (tx op cred : iface) (utxos : list iface) : result fx_error unit :=
  match tx with
  | ifTx tx =>
      match op with
      | ifMintOperation op =>
          match cred with
          | ifCredential cred =>
              match utxos with
              | [ifMintOutput out] => fx_verifyOperation tx op cred out
              | [_] => Err errWrongUTXOType
              | _ => Err errWrongNumberOfUTXOs
              end
          | _ => Err errWrongCredentialType
          end
      | _ => Err errWrongOpType
      end
  | _ => Err errWrongTxType
  end.

Definition CreateOutput (amount : Z) (owner : iface) : result fx_error TransferOutput :=
  match owner with
  | ifOutputOwners owner =>
      match OutputOwners_Verify owner with
      | Err e => Err e
      | Ok _ => match owner with Some owner => Ok (mkTransferOutput amount owner) | None => Err errNilDereference end
      end
  | _ => Err errWrongOwnerType
  end.
End fx.

(** ** The keychain *)

Section keychain.
Context `{Crypto}.

Record Keychain := mkKeychain {
  addrToKeyIndex : gmap ShortID nat;
  kc_Addrs : gset ShortID;
  kc_Keys : list PrivateKey;
}.

Definition kc_Add (key : PrivateKey) (kc : Keychain) : Keychain :=
  let addr := key_Address key in
  match addrToKeyIndex kc !! addr with
  | Some _ => kc
  | None => mkKeychain (<[addr := length (kc_Keys kc)]> (addrToKeyIndex kc))
              ({[addr]} ∪ kc_Addrs kc) (kc_Keys kc ++ [key])
  end.

Definition NewKeychain (keys : list PrivateKey) : Keychain :=
  foldl (λ kc key, kc_Add key kc) (mkKeychain ∅ ∅ []) keys.

(** None of the inner option is an index out of range. *)
Definition kc_Get (id : ShortID) (kc : Keychain) : option (option PrivateKey) :=
  match addrToKeyIndex kc !! id with
  | Some i => Some (kc_Keys kc !! i)
  | None => None
  end.

(** The loop from index [i] on; none is an index out of range. *)
Fixpoint match_loop (threshold bound i : Z) (addrs : list ShortID) (kc : Keychain)
    (sigs : list Z) (keys : list PrivateKey) : option (list Z * list PrivateKey) :=
  match addrs with
  | [] => Some (sigs, keys)
  | addr :: addrs =>
      if decide (i < bound ∧ len32 keys < threshold) then
        match kc_Get addr kc with
        | None => match_loop threshold bound (i + 1) addrs kc sigs keys
        | Some None => None
        | Some (Some key) => match_loop threshold bound (i + 1) addrs kc (sigs ++ [i]) (keys ++ [key])
        end
      else Some (sigs, keys)
  end.

Definition kc_Match (owners : OutputOwners) (time : Z) (kc : Keychain)
  : option (list Z * list PrivateKey * bool) :=
  if decide (time < oo_Locktime owners) then Some ([], [], false)
  else
    '(sigs, keys) ← match_loop (oo_Threshold owners) (len32 (oo_Addrs owners)) 0 (oo_Addrs owners) kc [] [];
    Some (sigs, keys, bool_decide (len32 keys = oo_Threshold owners)).

(** A nil pointer is dereferenced: none. *)
Definition kc_Spend (out : iface) (time : Z) (kc : Keychain)
  : option (result fx_error (iface * list PrivateKey)) :=
  match out with
  | ifMintOutput (Some out) =>
      '(sigIndices, keys, able) ← kc_Match (mo_Owners out) time kc;
      Some (if able : bool then Ok (ifInput (Some (mkInput sigIndices)), keys) else Err errCantSpend)
  | ifTransferOutput (Some out) =>
      '(sigIndices, keys, able) ← kc_Match (to_Owners out) time kc;
      Some (if able : bool
            then Ok (ifTransferInput (Some (mkTransferInput (to_Amt out) (mkInput sigIndices))), keys)
            else Err errCantSpend)
  | ifMintOutput None | ifTransferOutput None => None
  | _ => Some (Err errUnexpectedType)
  end.
End keychain.

(** ** What the checks mean *)

(** The fields have the ranges of their types and slices fit in memory. *)
Definition typed_input (i : Input) : Prop :=
  Forall (is_uint 32) (SigIndices i) ∧ Z.of_nat (length (SigIndices i)) < 2 ^ 32.
Definition typed_owners (o : OutputOwners) : Prop :=
  is_uint 32 (oo_Threshold o) ∧ is_u64 (oo_Locktime o) ∧ Z.of_nat (length (oo_Addrs o)) < 2 ^ 32.

Lemma len32_small {A} (l : list A) : Z.of_nat (length l) < 2 ^ 32 → len32 l = Z.of_nat (length l).
Proof. intros Hl. unfold len32, wrap32. apply wrap_id. unfold is_uint. lia. Qed.

Definition addr_lt (a b : ShortID) : Prop := bytes_lt (ShortID_bytes a) (ShortID_bytes b).

#[export] Instance addr_lt_trans : Transitive addr_lt.
Proof. intros a b c. unfold addr_lt. apply bytes_lt_trans. Qed.

Lemma sorted_addrs_spec l : IsSortedAndUniqueShortIDs l = true ↔ Sorted addr_lt l.
Proof.
  induction l as [|a l IH]; [split; constructor|]. destruct l as [|b l].
  { split; [|done]. repeat constructor. }
  cbn [IsSortedAndUniqueShortIDs]. destruct (bytes_ltb _ _) eqn:E.
  - rewrite IH. split; [intros Hs; constructor; [done|by constructor]|by inversion 1].
  - split; [done|]. inversion_clear 1 as [|?? _ Hh]. inversion_clear Hh as [|?? Hlt].
    unfold addr_lt, bytes_lt in Hlt. congruence.
Qed.

Lemma sorted_indices_spec l : IsSortedAndUniqueUint32 l = true ↔ Sorted Z.lt l.
Proof.
  induction l as [|a l IH]; [split; constructor|]. destruct l as [|b l].
  { split; [|done]. repeat constructor. }
  cbn [IsSortedAndUniqueUint32]. case_decide as E.
  - split; [done|]. inversion_clear 1 as [|?? _ Hh]. inversion_clear Hh. lia.
  - rewrite IH. split; [intros Hs; constructor; [done|constructor; lia]|by inversion 1].
Qed.

Lemma sorted_addrs_NoDup l : Sorted addr_lt l → NoDup l.
Proof.
  intros Hs. apply Sorted_StronglySorted in Hs; [|apply _].
  induction Hs as [|a l Hs IH Ha]; constructor; [|done].
  intros Hin. rewrite Forall_forall in Ha. by eapply bytes_lt_irrefl, Ha.
Qed.

Definition on {A} (p : option A) (P : A → Prop) : Prop := ∃ a, p = Some a ∧ P a.

Lemma on_Some {A} (a : A) P : on (Some a) P ↔ P a.
Proof. split; [intros (?&[= ->]&?); done|]. by exists a. Qed.
Lemma on_None {A} (P : A → Prop) : ¬ on None P.
Proof. by intros (?&[=]&_). Qed.

Definition owners_fault (o : OutputOwners) (e : fx_error) : Prop :=
  match e with
  | errOutputUnspendable => Z.of_nat (length (oo_Addrs o)) < oo_Threshold o
  | errOutputUnoptimized => oo_Threshold o = 0 ∧ oo_Addrs o ≠ []
  | errAddrsNotSortedUnique => ¬ Sorted addr_lt (oo_Addrs o)
  | _ => False
  end.

Section spec.
Context `{Crypto} (fx : Fx) (now : Z).

(** The [k]-th signature is by the owner the [k]-th index names. *)
Definition signs (h : bytes) (addrs : list ShortID) (index : Z) (sig : bytes) : Prop :=
  ∃ addr, addrs !! Z.to_nat index = Some addr ∧ RecoverAddress h sig = Some addr.

(** What is wrong with the signatures. *)
Definition sigs_fault (h : bytes) (indices : list Z) (sigs : list bytes) (addrs : list ShortID)
    (e : fx_error) : Prop :=
  match e with
  | errInputOutputIndexOutOfBounds => ∃ index, index ∈ indices ∧ Z.of_nat (length addrs) ≤ index
  | errRecover => ∃ sig, sig ∈ sigs ∧ RecoverAddress h sig = None
  | errWrongSigner => ∃ k index sig addr, indices !! k = Some index ∧ sigs !! k = Some sig ∧
      RecoverAddress h sig = Some addr ∧ addrs !! Z.to_nat index ≠ Some addr
  | _ => False
  end.

(** What is wrong with an input, its credential and the output it spends. *)
Definition fault (utx : bytes) (i : option TransferInput) (c : option Credential)
    (o : option TransferOutput) (e : fx_error) : Prop :=
  match e with
  | errNilOutput => o = None
  | errNilInput => i = None
  | errNilCredential => c = None
  | errNoValueOutput => on o (λ o, to_Amt o = 0)
  | errNoValueInput => on i (λ i, ti_Amt i = 0)
  | errNotSortedUnique => on i (λ i, ¬ Sorted Z.lt (SigIndices (ti_Input i)))
  | errOutputUnspendable | errOutputUnoptimized | errAddrsNotSortedUnique =>
      on o (λ o, owners_fault (to_Owners o) e)
  | errWrongAmount => on o (λ o, on i (λ i, to_Amt o ≠ ti_Amt i))
  | errTimelocked => on o (λ o, now < oo_Locktime (to_Owners o))
  | errTooManySigners =>
      on o (λ o, on i (λ i, oo_Threshold (to_Owners o) < Z.of_nat (length (SigIndices (ti_Input i)))))
  | errTooFewSigners =>
      on o (λ o, on i (λ i, Z.of_nat (length (SigIndices (ti_Input i))) < oo_Threshold (to_Owners o)))
  | errInputCredentialSignersMismatch =>
      on c (λ c, on i (λ i, length (SigIndices (ti_Input i)) ≠ length (Sigs c)))
  | errInputOutputIndexOutOfBounds | errRecover | errWrongSigner =>
      fx_bootstrapped fx = true ∧ on o (λ o, on i (λ i, on c (λ c,
        sigs_fault (ComputeHash256 utx) (SigIndices (ti_Input i)) (Sigs c) (oo_Addrs (to_Owners o)) e)))
  | _ => False
  end.

Lemma OutputOwners_Verify_spec o :
  typed_owners o →
  match OutputOwners_Verify (Some o) with
  | Ok _ => oo_Threshold o ≤ Z.of_nat (length (oo_Addrs o)) ∧
      (oo_Threshold o = 0 → oo_Addrs o = []) ∧ Sorted addr_lt (oo_Addrs o)
  | Err e => owners_fault o e ∧ (e = errOutputUnspendable ∨ e = errOutputUnoptimized ∨ e = errAddrsNotSortedUnique)
  end.
Proof.
  intros (Ht&_&Hl). unfold OutputOwners_Verify. rewrite len32_small by done.
  case_decide as H1; [split; [simpl; lia|by left]|].
  case_decide as H2.
  { split; [|right; by left]. destruct H2 as [? H2]. split; [done|]. intros E. rewrite E in H2. simpl in H2. lia. }
  destruct (IsSortedAndUniqueShortIDs (oo_Addrs o)) eqn:Hs; simpl.
  - apply sorted_addrs_spec in Hs. split_and!; [lia| |done]. intros E.
    destruct (oo_Addrs o) as [|a l] eqn:Ea; [done|]. destruct H2. split; [done|]. simpl. lia.
  - split; [|by right; right]. intros Hs'. apply sorted_addrs_spec in Hs'. congruence.
Qed.

Lemma verify_sigs_spec h indices sigs addrs :
  Forall (is_uint 32) indices → Z.of_nat (length addrs) < 2 ^ 32 → length indices = length sigs →
  match verify_sigs h indices sigs addrs with
  | Ok _ => Forall2 (signs h addrs) indices sigs
  | Err e => sigs_fault h indices sigs addrs e ∧
      (e = errInputOutputIndexOutOfBounds ∨ e = errRecover ∨ e = errWrongSigner)
  end.
Proof.
  intros Hu Ha. revert sigs. induction indices as [|index indices IH]; intros [|sig sigs] Hlen; try done.
  { constructor. }
  apply Forall_cons in Hu as [Hi Hu]. cbn [verify_sigs]. rewrite len32_small by done.
  case_decide as H1.
  { split; [|by left]. exists index. split; [left|done]. }
  destruct (RecoverAddress h sig) as [addr|] eqn:Hr.
  2:{ split; [|right; by left]. exists sig. split; [left|done]. }
  case_decide as H2.
  { split; [|right; by right]. by exists 0%nat, index, sig, addr. }
  specialize (IH Hu sigs ltac:(simpl in Hlen; lia)).
  destruct (verify_sigs h indices sigs addrs) as [[]|e].
  - constructor; [|done]. by exists addr.
  - destruct IH as [Hf He]. split; [|done]. destruct He as [->|[->| ->]]; simpl in *.
    + destruct Hf as (x&Hx&?). exists x. split; [by right|done].
    + destruct Hf as (x&Hx&?). exists x. split; [by right|done].
    + destruct Hf as (k&x&s&a&?&?&?&?). by exists (S k), x, s, a.
Qed.

Lemma signs_no_fault h indices sigs addrs e :
  Forall (is_uint 32) indices → Forall2 (signs h addrs) indices sigs → ¬ sigs_fault h indices sigs addrs e.
Proof.
  intros Hu Hf. rewrite Forall_forall in Hu. destruct e; simpl; try tauto.
  - intros (index&Hi&Hle). pose proof (Hu _ Hi) as Hiu. apply list_elem_of_lookup in Hi as [k Hk].
    destruct (Forall2_lookup_l _ _ _ _ _ Hf Hk) as (sig&_&addr&Ha&_).
    apply lookup_lt_Some in Ha. unfold is_uint in Hiu. lia.
  - intros (sig&Hs&Hr). apply list_elem_of_lookup in Hs as [k Hk].
    destruct (Forall2_lookup_r _ _ _ _ _ Hf Hk) as (index&_&addr&_&Hr'). congruence.
  - intros (k&index&sig&addr&Hi&Hs&Hr&Hne).
    destruct (Forall2_lookup_lr _ _ _ _ _ _ Hf Hi Hs) as (addr'&Ha&Hr'). congruence.
Qed.

(** The signatures of strictly increasing indices come from distinct owners. *)
Lemma signs_distinct h indices sigs addrs :
  Forall (is_uint 32) indices → Sorted Z.lt indices → NoDup addrs → Forall2 (signs h addrs) indices sigs →
  ∃ signers, length signers = length indices ∧ NoDup signers ∧ signers ⊆ addrs ∧
    Forall2 (λ addr sig, RecoverAddress h sig = Some addr) signers sigs.
Proof.
  intros Hu Hs Hnd Hf. apply Sorted_StronglySorted in Hs; [|intros ???; lia].
  assert (∃ signers, Forall2 (λ index addr, addrs !! Z.to_nat index = Some addr) indices signers ∧
    Forall2 (λ addr sig, RecoverAddress h sig = Some addr) signers sigs) as (signers&H1&H2).
  { clear Hs Hu. induction Hf as [|index sig indices sigs (addr&?&?) Hf IH]; [by exists []|].
    destruct IH as (signers&?&?). exists (addr :: signers). split; by constructor. }
  exists signers. split; [symmetry; by eapply Forall2_length|]. split; [|split; [|done]].
  - clear H2 Hf. induction H1 as [|index addr indices signers Ha H1 IH]; [constructor|].
    apply Forall_cons in Hu as [Hi Hu]. inversion_clear Hs as [|?? Hs' Hlt].
    constructor; [|by apply IH]. intros Hin. apply list_elem_of_lookup in Hin as [k Hk].
    destruct (Forall2_lookup_r _ _ _ _ _ H1 Hk) as (index'&Hi'&Ha').
    pose proof (NoDup_lookup _ _ _ _ Hnd Ha Ha') as E. rewrite Forall_forall in Hlt, Hu.
    apply list_elem_of_lookup_2 in Hi'. specialize (Hlt _ Hi'). specialize (Hu _ Hi').
    unfold is_uint in *. lia.
  - intros addr Hin. apply list_elem_of_lookup in Hin as [k Hk].
    destruct (Forall2_lookup_r _ _ _ _ _ H1 Hk) as (index&_&Ha). by eapply list_elem_of_lookup_2.
Qed.

Definition typed_transfer (i : option TransferInput) (o : option TransferOutput) : Prop :=
  (∀ i', i = Some i' → typed_input (ti_Input i')) ∧ (∀ o', o = Some o' → typed_owners (to_Owners o')).

Lemma TransferOutput_Verify_spec o :
  (∀ o', o = Some o' → typed_owners (to_Owners o')) →
  match TransferOutput_Verify o with
  | Ok _ => on o (λ o, to_Amt o ≠ 0 ∧ oo_Threshold (to_Owners o) ≤ Z.of_nat (length (oo_Addrs (to_Owners o))) ∧
      (oo_Threshold (to_Owners o) = 0 → oo_Addrs (to_Owners o) = []) ∧ Sorted addr_lt (oo_Addrs (to_Owners o)))
  | Err e => ∀ utx i c, fault utx i c o e
  end.
Proof.
  intros Ht. unfold TransferOutput_Verify. destruct o as [o|]; [|done]. case_decide as Hz.
  { intros. by apply on_Some. }
  pose proof (OutputOwners_Verify_spec (to_Owners o) (Ht o eq_refl)) as Hs.
  destruct (OutputOwners_Verify (Some (to_Owners o))) as [[]|e].
  - apply on_Some. split; [done|]. exact Hs.
  - destruct Hs as [Hf [->|[->| ->]]]; intros; by apply on_Some.
Qed.

Lemma TransferInput_Verify_spec i :
  match TransferInput_Verify i with
  | Ok _ => on i (λ i, ti_Amt i ≠ 0 ∧ Sorted Z.lt (SigIndices (ti_Input i)))
  | Err e => ∀ utx c o, fault utx i c o e
  end.
Proof.
  unfold TransferInput_Verify, Input_Verify. destruct i as [i|]; [|done]. case_decide as Hz.
  { intros. by apply on_Some. }
  destruct (IsSortedAndUniqueUint32 (SigIndices (ti_Input i))) eqn:Hs.
  - apply on_Some. split; [done|]. by apply sorted_indices_spec.
  - intros. apply on_Some. intros Hs'. apply sorted_indices_spec in Hs'. congruence.
Qed.

(** The requirements on a transfer, apart from the signatures. *)
Lemma no_fault utx i c o e :
  to_Amt o ≠ 0 → ti_Amt i ≠ 0 →
  oo_Threshold (to_Owners o) ≤ Z.of_nat (length (oo_Addrs (to_Owners o))) →
  (oo_Threshold (to_Owners o) = 0 → oo_Addrs (to_Owners o) = []) →
  Sorted addr_lt (oo_Addrs (to_Owners o)) → Sorted Z.lt (SigIndices (ti_Input i)) →
  to_Amt o = ti_Amt i → oo_Locktime (to_Owners o) ≤ now →
  oo_Threshold (to_Owners o) = Z.of_nat (length (SigIndices (ti_Input i))) →
  length (SigIndices (ti_Input i)) = length (Sigs c) →
  (fx_bootstrapped fx = true → ¬ sigs_fault (ComputeHash256 utx) (SigIndices (ti_Input i))
    (Sigs c) (oo_Addrs (to_Owners o)) e) → ¬ fault utx (Some i) (Some c) (Some o) e.
Proof.
  intros ?????????? Hs. destruct e; cbn [fault]; rewrite ?on_Some; try done; try lia;
    try (intros [Hb Hx]; rewrite !on_Some in Hx; by apply (Hs Hb)); simpl; tauto || lia.
Qed.

Lemma fx_VerifySpend_spec utx i c o :
  typed_transfer i o →
  match fx_VerifySpend fx now utx i c o with
  | Ok _ => (∀ e, ¬ fault utx i c o e) ∧
      ∃ i' c' o', i = Some i' ∧ c = Some c' ∧ o = Some o' ∧ ti_Amt i' = to_Amt o' ∧
        oo_Locktime (to_Owners o') ≤ now ∧
        oo_Threshold (to_Owners o') = Z.of_nat (length (SigIndices (ti_Input i'))) ∧
        Sorted Z.lt (SigIndices (ti_Input i')) ∧ Sorted addr_lt (oo_Addrs (to_Owners o')) ∧
        (fx_bootstrapped fx = true →
         Forall2 (signs (ComputeHash256 utx) (oo_Addrs (to_Owners o'))) (SigIndices (ti_Input i')) (Sigs c'))
  | Err e => fault utx i c o e
  end.
Proof.
  intros [Hti Hto]. unfold fx_VerifySpend.
  pose proof (TransferOutput_Verify_spec o Hto) as Ho. pose proof (TransferInput_Verify_spec i) as Hi.
  cbn [verify_All]. destruct (TransferOutput_Verify o) as [[]|e]; [|by apply Ho].
  destruct (TransferInput_Verify i) as [[]|e]; [|by apply Hi].
  destruct c as [c|]; cbn [Credential_Verify]; [|done].
  destruct Ho as (o'&->&Hoz&Hthr&Hopt&Hso). destruct Hi as (i'&->&Hiz&Hsi).
  destruct (Hti i' eq_refl) as [Hiu Hil]. destruct (Hto o' eq_refl) as (Htu&Hlu&Hal).
  case_decide as Hamt; [by apply on_Some, on_Some|].
  unfold VerifyCredentials. rewrite len32_small by done.
  case_decide as H1; [apply on_Some; lia|].
  case_decide as H2; [apply on_Some, on_Some; lia|].
  case_decide as H3; [apply on_Some, on_Some; lia|].
  case_decide as H4; [by apply on_Some, on_Some|].
  pose proof (λ e, no_fault utx i' c o' e Hoz Hiz Hthr Hopt Hso Hsi ltac:(lia) ltac:(lia) ltac:(lia) ltac:(lia)) as Hno.
  destruct (fx_bootstrapped fx) eqn:Hb; simpl.
  - pose proof (verify_sigs_spec (ComputeHash256 utx) (SigIndices (ti_Input i')) (Sigs c)
      (oo_Addrs (to_Owners o')) Hiu Hal) as Hv.
    assert (length (SigIndices (ti_Input i')) = length (Sigs c)) as Hlen by lia.
    specialize (Hv Hlen). destruct (verify_sigs _ _ _ _) as [[]|e].
    + split; [|by exists i', c, o'; split_and!; try done; lia].
      intros e. apply Hno. intros _. by apply signs_no_fault.
    + destruct Hv as [Hf [->|[->| ->]]]; (split; [done|]); by rewrite !on_Some.
  - split; [|by exists i', c, o'; split_and!; try done; lia]. intros e. by apply Hno.
Qed.

(** What is wrong with the arguments of [VerifyTransfer]. *)
Definition transfer_fault (tx i c o : iface) (e : fx_error) : Prop :=
  match e with
  | errWrongTxType => ∀ b, tx ≠ ifTx b
  | errWrongInputType => ∀ p, i ≠ ifTransferInput p
  | errWrongCredentialType => ∀ p, c ≠ ifCredential p
  | errWrongUTXOType => ∀ p, o ≠ ifTransferOutput p
  | _ => ∃ b pi pc po, tx = ifTx b ∧ i = ifTransferInput pi ∧ c = ifCredential pc ∧
      o = ifTransferOutput po ∧ fault b pi pc po e
  end.

Lemma transfer_fault_iff b pi pc po e :
  transfer_fault (ifTx b) (ifTransferInput pi) (ifCredential pc) (ifTransferOutput po) e ↔
  fault b pi pc po e.
Proof.
  assert (∀ Q : Prop, (∃ b' pi' pc' po', ifTx b = ifTx b' ∧ ifTransferInput pi = ifTransferInput pi' ∧
    ifCredential pc = ifCredential pc' ∧ ifTransferOutput po = ifTransferOutput po' ∧
    fault b' pi' pc' po' e) ↔ fault b pi pc po e) as Hiff.
  { intros _. split; [intros (?&?&?&?&[= <-]&[= <-]&[= <-]&[= <-]&?); done|]. by exists b, pi, pc, po. }
  destruct e; try (apply (Hiff True)); simpl; (split; [|done]); intros Hne; by eapply Hne.
Qed.

(** The transfer is authorised by enough distinct owners. *)
Definition authorized (b : bytes) (c : Credential) (o : OutputOwners) : Prop :=
  ∃ signers, Z.of_nat (length signers) = oo_Threshold o ∧ NoDup signers ∧ signers ⊆ oo_Addrs o ∧
    Forall2 (λ addr sig, RecoverAddress (ComputeHash256 b) sig = Some addr) signers (Sigs c).
End spec.

(** C26: [VerifyTransfer] accepts a transfer exactly when nothing is wrong with it,
    and an error it returns names something that is: the types of the arguments,
    the form of the input and of the output, amounts that differ, a time lock, the
    number of signatures, an index or a signature that is not an owner's.  A
    transfer that is accepted after bootstrapping moves the amount of the output
    and carries signatures of the transaction by as many distinct owners as the
    threshold asks for. *)
Theorem VerifyTransfer_correct `{Crypto} (fx : Fx) (now : Z) (tx i c o : iface) :
  (∀ pi po, i = ifTransferInput pi → o = ifTransferOutput po → typed_transfer pi po) →
  match VerifyTransfer fx now tx i c o with
  | Err e => transfer_fault fx now tx i c o e
  | Ok _ => (∀ e, ¬ transfer_fault fx now tx i c o e) ∧
      ∃ b pi pc po, tx = ifTx b ∧ i = ifTransferInput (Some pi) ∧ c = ifCredential (Some pc) ∧
        o = ifTransferOutput (Some po) ∧ ti_Amt pi = to_Amt po ∧ oo_Locktime (to_Owners po) ≤ now ∧
        (fx_bootstrapped fx = true → authorized b pc (to_Owners po))
  end.
Proof.
  intros Ht. unfold VerifyTransfer. destruct tx as [|b| | | | | | | | | |]; try done.
  destruct i as [| | |pi| | | | | | | |]; try done. destruct c as [| | | |pc| | | | | | |]; try done.
  destruct o as [| | | | | |po| | | | |]; try done. specialize (Ht pi po eq_refl eq_refl).
  pose proof (fx_VerifySpend_spec fx now b pi pc po Ht) as Hs.
  destruct (fx_VerifySpend fx now b pi pc po) as [[]|e]; [|by apply transfer_fault_iff].
  destruct Hs as [Hno (i&c&o&->&->&->&Hamt&Hlock&Hthr&Hsi&Hso&Hsig)].
  split; [intros e; rewrite transfer_fault_iff; apply Hno|].
  destruct Ht as [Hti Hto]. destruct (Hti i eq_refl) as [Hiu Hil].
  exists b, i, c, o. split_and!; try done. intros Hb.
  destruct (signs_distinct _ _ _ _ Hiu Hsi (sorted_addrs_NoDup _ Hso) (Hsig Hb)) as (signers&Hlen&?&?&?).
  exists signers. by rewrite Hlen.
Qed.

(** ** The keychain builds inputs that are accepted *)

Section keychain_spec.
Context `{Crypto}.

Definition kc_ok (kc : Keychain) : Prop :=
  ∀ addr i, addrToKeyIndex kc !! addr = Some i →
    ∃ key, kc_Keys kc !! i = Some key ∧ key_Address key = addr.

Lemma kc_Add_ok key kc : kc_ok kc → kc_ok (kc_Add key kc).
Proof.
  intros Hk. unfold kc_Add. destruct (addrToKeyIndex kc !! key_Address key) eqn:E; [done|].
  intros addr i. simpl. intros [[<- <-]|[Hne Hi]]%lookup_insert_Some.
  - exists key. by rewrite lookup_app_r, Nat.sub_diag.
  - destruct (Hk _ _ Hi) as (key'&Hk'&?). exists key'. split; [|done]. by apply lookup_app_l_Some.
Qed.

Lemma NewKeychain_ok keys : kc_ok (NewKeychain keys).
Proof.
  unfold NewKeychain. assert (kc_ok (mkKeychain ∅ ∅ [])) as Hk.
  { intros addr i. simpl. by rewrite lookup_empty. }
  revert Hk. generalize (mkKeychain ∅ ∅ []). induction keys as [|k keys IH]; intros kc Hk; [done|].
  by apply IH, kc_Add_ok.
Qed.

Lemma kc_Get_ok kc addr r :
  kc_ok kc → kc_Get addr kc = Some r → ∃ key, r = Some key ∧ key_Address key = addr.
Proof.
  intros Hk. unfold kc_Get. destruct (addrToKeyIndex kc !! addr) as [i|] eqn:E; [|done].
  intros [= <-]. destruct (Hk _ _ E) as (key&->&?). eauto.
Qed.

(** The keys that were found, with the positions of their addresses. *)
Definition matched (all : list ShortID) (sigs : list Z) (keys : list PrivateKey) : Prop :=
  Forall2 (λ i key, 0 ≤ i ∧ all !! Z.to_nat i = Some (key_Address key)) sigs keys.

Lemma match_loop_ok threshold bound kc all pre addrs sigs keys :
  kc_ok kc → all = pre ++ addrs → Z.of_nat (length all) < 2 ^ 32 → bound ≤ Z.of_nat (length all) →
  is_uint 32 threshold →
  matched all sigs keys → StronglySorted Z.lt sigs → Forall (λ j, j < Z.of_nat (length pre)) sigs →
  Z.of_nat (length keys) ≤ threshold →
  ∃ sigs' keys', match_loop threshold bound (Z.of_nat (length pre)) addrs kc sigs keys = Some (sigs', keys') ∧
    matched all sigs' keys' ∧ StronglySorted Z.lt sigs' ∧ Z.of_nat (length keys') ≤ threshold.
Proof.
  intros Hk Eall Hall Hbound Hthr. revert pre sigs keys Eall.
  induction addrs as [|addr addrs IH]; intros pre sigs keys Eall Hm Hs Hlt Hlen; cbn [match_loop].
  { by exists sigs, keys. }
  case_decide as Hd; [|by exists sigs, keys]. destruct Hd as [Hi Hd].
  rewrite len32_small in Hd by (unfold is_uint in Hthr; lia).
  assert (all = (pre ++ [addr]) ++ addrs) as Eall' by (by rewrite <-app_assoc).
  replace (Z.of_nat (length pre) + 1) with (Z.of_nat (length (pre ++ [addr])))
    by (rewrite length_app; simpl; lia).
  assert (Forall (λ j, j < Z.of_nat (length (pre ++ [addr]))) sigs) as Hlt'.
  { eapply Forall_impl; [exact Hlt|]. intros j Hj. simpl in *. rewrite length_app. simpl. lia. }
  destruct (kc_Get addr kc) as [r|] eqn:Eg; [|by apply IH].
  destruct (kc_Get_ok _ _ _ Hk Eg) as (key&->&Ekey). apply IH; [done| | | |].
  - apply Forall2_app; [done|]. constructor; [|constructor]. split; [lia|].
    rewrite Eall, Nat2Z.id, lookup_app_r, Nat.sub_diag, Ekey by lia. done.
  - clear -Hs Hlt. induction Hs as [|j sigs Hs IH Hj]; simpl; [repeat constructor|].
    apply Forall_cons in Hlt as [Hj' Hlt]. constructor; [by apply IH|].
    apply Forall_app. split; [done|]. by repeat constructor.
  - apply Forall_app. split; [done|]. constructor; [|constructor]. rewrite length_app. simpl. lia.
  - rewrite length_app. simpl. lia.
Qed.

Lemma kc_Match_ok keys owners time :
  typed_owners owners →
  ∃ sigs signers able, kc_Match owners time (NewKeychain keys) = Some (sigs, signers, able) ∧
    (able = true → oo_Locktime owners ≤ time ∧ matched (oo_Addrs owners) sigs signers ∧
       Sorted Z.lt sigs ∧ Z.of_nat (length signers) = oo_Threshold owners).
Proof.
  intros (Ht&_&Ha). unfold kc_Match. case_decide as Hd.
  { exists [], [], false. done. }
  rewrite len32_small by done.
  destruct (match_loop_ok (oo_Threshold owners) (Z.of_nat (length (oo_Addrs owners))) (NewKeychain keys)
    (oo_Addrs owners) [] (oo_Addrs owners) [] []) as (sigs&signers&E&Hm&Hs&Hlen); try done; try (by constructor).
  - apply NewKeychain_ok.
  - simpl. unfold is_uint in Ht. lia.
  - change (Z.of_nat (length [])) with 0 in E. rewrite E. simpl. exists sigs, signers, (bool_decide (len32 signers = oo_Threshold owners)).
    split; [done|]. intros Hb%bool_decide_eq_true.
    rewrite len32_small in Hb by (unfold is_uint in Ht; lia).
    split_and!; [lia|done| |done]. by apply StronglySorted_Sorted.
Qed.

(** The credential made with the keys of [kc_Spend]. *)
Definition sign (utx : bytes) (keys : list PrivateKey) : Credential :=
  mkCredential ((λ k, SignHash k (ComputeHash256 utx)) <$> keys).

Lemma matched_signs `{!CryptoLaws} h all sigs keys :
  matched all sigs keys → Forall2 (signs h all) sigs ((λ k, SignHash k h) <$> keys).
Proof.
  induction 1 as [|i key sigs keys [_ Hi] Hm IH]; constructor; [|done].
  exists (key_Address key). split; [done|]. apply recover_sign.
Qed.

Lemma kc_Spend_ok keys out time :
  typed_owners (to_Owners out) →
  ∃ r, kc_Spend (ifTransferOutput (Some out)) time (NewKeychain keys) = Some r ∧
    match r with
    | Err e => e = errCantSpend
    | Ok (i, signers) => ∃ sigs, i = ifTransferInput (Some (mkTransferInput (to_Amt out) (mkInput sigs))) ∧
        oo_Locktime (to_Owners out) ≤ time ∧ matched (oo_Addrs (to_Owners out)) sigs signers ∧
        Sorted Z.lt sigs ∧ Z.of_nat (length signers) = oo_Threshold (to_Owners out)
    end.
Proof.
  intros Ht. destruct (kc_Match_ok keys (to_Owners out) time Ht) as (sigs&signers&able&E&Hable).
  unfold kc_Spend. rewrite E. simpl. eexists. split; [done|]. destruct able; [|done].
  exists sigs. split; [done|]. by apply Hable.
Qed.

(** An input of [kc_Spend], signed with its keys, spends the output at any later
    time. *)
Lemma kc_Spend_accepted `{!CryptoLaws} fx out time now utx sigs signers :
  typed_owners (to_Owners out) → TransferOutput_Verify (Some out) = Ok tt → time ≤ now →
  oo_Locktime (to_Owners out) ≤ time → matched (oo_Addrs (to_Owners out)) sigs signers →
  Sorted Z.lt sigs → Z.of_nat (length signers) = oo_Threshold (to_Owners out) →
  VerifyTransfer fx now (ifTx utx)
    (ifTransferInput (Some (mkTransferInput (to_Amt out) (mkInput sigs))))
    (ifCredential (Some (sign utx signers))) (ifTransferOutput (Some out)) = Ok tt.
Proof.
  intros Ht Hv Htime Hlock Hm Hs Hlen.
  assert (typed_input (mkInput sigs)) as Hti.
  { pose proof (Forall2_length _ _ _ Hm) as Hlen'. destruct Ht as (Ht&_&Ha). split; simpl.
    - apply Forall_forall. intros i Hi. apply list_elem_of_lookup in Hi as [k Hk].
      destruct (Forall2_lookup_l _ _ _ _ _ Hm Hk) as (key&_&Hi0&Hl). apply lookup_lt_Some in Hl.
      unfold is_uint. lia.
    - unfold is_uint in Ht. lia. }
  simpl. set (i := mkTransferInput _ _). set (c := sign _ _).
  assert (typed_transfer (Some i) (Some out)) as Htt.
  { split; [by intros ? [= <-]|by intros ? [= <-]]. }
  pose proof (fx_VerifySpend_spec fx now utx (Some i) (Some c) (Some out) Htt) as Hspec.
  destruct (fx_VerifySpend fx now utx (Some i) (Some c) (Some out)) as [[]|e]; [done|]. exfalso.
  pose proof (TransferOutput_Verify_spec fx now (Some out) ltac:(by intros ? [= <-])) as Ho.
  rewrite Hv, on_Some in Ho. destruct Ho as (Hz&Hthr&Hopt&Hso). revert Hspec.
  pose proof (Forall2_length _ _ _ Hm) as Hlen'.
  apply no_fault; try done; try (simpl; lia).
  - unfold c, sign. cbn [Sigs]. by rewrite length_fmap.
  - intros _. apply signs_no_fault; [apply Hti|]. by apply matched_signs.
Qed.
End keychain_spec.

(** ** A signature scheme for examples: a signature names its key and the hash *)

Definition toy_hash (b : bytes) : ID := default Empty (id_of_bytes (take 32 (b ++ replicate 32 x00))).

#[local] Instance toy_crypto : Crypto := {|
  PrivateKey := ShortID;
  key_Address k := k;
  SignHash k h := ShortID_bytes k ++ h;
  RecoverAddress h sig := if decide (drop 20 sig = h) then ToNodeID (take 20 sig) else None;
  ComputeHash256Array := toy_hash;
|}.

Lemma toy_laws : CryptoLaws.
Proof.
  split. intros k h. simpl. pose proof (nid_len k) as Hl. unfold ShortIDLen in Hl.
  rewrite drop_app_length', take_app_length' by done. rewrite decide_True by done. apply ToNodeID_bytes.
Qed.

Lemma VerifyTransfer_correct_witness :
  let owners := mkOwners 5 2 [node1 x01; node1 x02; node1 x03] in
  let c := sign [x07] [node1 x01; node1 x03] in
  VerifyTransfer (mkFx true) 9 (ifTx [x07]) (ifTransferInput (Some (mkTransferInput 4 (mkInput [0; 2]))))
    (ifCredential (Some c)) (ifTransferOutput (Some (mkTransferOutput 4 owners))) = Ok tt ∧
  authorized [x07] c owners.
Proof.
  intros owners c.
  set (i := mkTransferInput 4 (mkInput [0; 2])). set (o := mkTransferOutput 4 owners).
  pose proof (VerifyTransfer_correct (mkFx true) 9 (ifTx [x07]) (ifTransferInput (Some i))
    (ifCredential (Some c)) (ifTransferOutput (Some o))) as Hs.
  assert (VerifyTransfer (mkFx true) 9 (ifTx [x07]) (ifTransferInput (Some i)) (ifCredential (Some c))
    (ifTransferOutput (Some o)) = Ok tt) as E by (vm_compute; reflexivity).
  rewrite E in Hs. split; [exact E|].
  destruct Hs as [_ (b&pi&pc&po&[= <-]&[= <-]&[= <-]&[= <-]&_&_&Ha)]; [|by apply Ha].
  intros pi po [= <-] [= <-].
  split; intros ? [= <-]; (split; [|try split]); unfold is_uint; simpl; try lia.
  repeat constructor; lia.
Defined.
