(* ===== verification/Utxo.v ===== *)
(** Unspent outputs, the inputs that spend them and the flow of assets through a
    transaction (src/vms/components/avax: utxo_id.go, asset.go, utxo.go,
    transferables.go, flow_checker.go).

    [VerifyTx] checks the inputs and outputs of a transaction without looking at
    the outputs that are spent: every element is well formed, inputs are sorted and
    distinct, outputs are sorted, and for every asset the inputs bring in at least
    what the outputs and the fee take.  A slice of pointers never holds nil: the
    codec allocates every element. *)

From S2P Require Import Prelude SafeMath Ids NodeBag Packer Database GoStd Secp256k1fx.
From Stdlib Require Import Strings.Byte.

(** ** Data *)

(** [ids.ID.Prefix]: the prefixes and the identifier are packed and hashed. *)
Definition ID_Prefix `{Crypto} (prefixes : list Z) (id : ID) : ID :=
  ComputeHash256Array (concat (be_bytes 8 <$> prefixes) ++ id_bytes id).

Record UTXOID := mkUTXOID { uid_TxID : ID; uid_OutputIndex : Z }.

#[export] Instance UTXOID_eq_dec : EqDecision UTXOID.
Proof. solve_decision. Defined.

(** The identifier is cached in the struct once it is computed. *)
Definition InputID `{Crypto} (u : UTXOID) : ID := ID_Prefix [uid_OutputIndex u] (uid_TxID u).

Record UTXO := mkUTXO { utxo_UTXOID : UTXOID; utxo_Asset : ID; utxo_Out : iface }.
Record TransferableOutput := mkTOut { tout_Asset : ID; tout_Out : iface }.
Record TransferableInput := mkTIn { tin_UTXOID : UTXOID; tin_Asset : ID; tin_In : iface }.

Inductive avax_error :=
| errInsufficientFunds
| errEmptyAssetID
| errEmptyUTXO
| errNilTransferableFxOutput
| errOutputsNotSorted
| errNilTransferableFxInput
| errInputsNotSortedUnique
| errFx (e : fx_error)
| errFlowMath (e : math_error)
| errNoAmount.

#[export] Instance avax_error_eq_dec : EqDecision avax_error.
Proof. solve_decision. Defined.

(** The types whose pointers are a [TransferableOut], and a [TransferableIn]. *)
Fixpoint is_TransferableOut (o : iface) : bool :=
  match o with
  | ifNil | ifTransferOutput _ => true
  | ifLockOut _ o => is_TransferableOut o
  | _ => false
  end.

Fixpoint is_TransferableIn (i : iface) : bool :=
  match i with
  | ifNil | ifTransferInput _ => true
  | ifLockIn _ i => is_TransferableIn i
  | _ => false
  end.

Definition lift_fx (r : result fx_error unit) : result avax_error unit :=
  match r with Ok _ => Ok tt | Err e => Err (errFx e) end.

Definition Asset_Verify (id : ID) : result avax_error unit :=
  if decide (id = Empty) then Err errEmptyAssetID else Ok tt.

Definition UTXO_Verify (u : UTXO) : result avax_error unit :=
  match utxo_Out u with
  | ifNil => Err errEmptyUTXO
  | out => match Asset_Verify (utxo_Asset u) with Err e => Err e | Ok _ => lift_fx (iface_Verify out) end
  end.

Definition TransferableOutput_Verify (out : TransferableOutput) : result avax_error unit :=
  match tout_Out out with
  | ifNil => Err errNilTransferableFxOutput
  | o => match Asset_Verify (tout_Asset out) with Err e => Err e | Ok _ => lift_fx (iface_Verify o) end
  end.

Definition TransferableInput_Verify (i : TransferableInput) : result avax_error unit :=
  match tin_In i with
  | ifNil => Err errNilTransferableFxInput
  | v => match Asset_Verify (tin_Asset i) with Err e => Err e | Ok _ => lift_fx (iface_Verify v) end
  end.

(** ** Order *)

(** [utils.IsSortedAndUnique] and [sort.IsSorted]. *)
Fixpoint IsSortedAndUnique {A} (less : A → A → bool) (l : list A) : bool :=
  match l with
  | a :: ((b :: _) as l) => if less a b then IsSortedAndUnique less l else false
  | _ => true
  end.

Fixpoint IsSorted {A} (less : A → A → bool) (l : list A) : bool :=
  match l with
  | a :: ((b :: _) as l) => if less b a then false else IsSorted less l
  | _ => true
  end.

(** By transaction, then by index. *)
Definition utxoid_less (a b : UTXOID) : bool :=
  if bytes_ltb (id_bytes (uid_TxID a)) (id_bytes (uid_TxID b)) then true
  else if decide (uid_TxID a = uid_TxID b) then bool_decide (uid_OutputIndex a < uid_OutputIndex b)
  else false.

Definition input_less (a b : TransferableInput) : bool := utxoid_less (tin_UTXOID a) (tin_UTXOID b).

(** [marshal] is [codec.Marshal(codecVersion, &out.Out)], none on an error. *)
Definition output_less (marshal : iface → option bytes) (a b : TransferableOutput) : bool :=
  if bytes_ltb (id_bytes (tout_Asset a)) (id_bytes (tout_Asset b)) then true
  else if bytes_ltb (id_bytes (tout_Asset b)) (id_bytes (tout_Asset a)) then false
  else
    match marshal (tout_Out a) with
    | None => false
    | Some iBytes =>
        match marshal (tout_Out b) with
        | None => false
        | Some jBytes => bytes_ltb iBytes jBytes
        end
    end.

Definition IsSortedTransferableOutputs (marshal : iface → option bytes) (outs : list TransferableOutput) : bool :=
  IsSorted (output_less marshal) outs.
Definition IsSortedAndUniqueTransferableInputs (ins : list TransferableInput) : bool :=
  IsSortedAndUnique input_less ins.

(** Both slices are swapped together. *)
Definition SortTransferableInputsWithSigners `{GoSort} {S} (ins : list (TransferableInput * S))
  : list (TransferableInput * S) :=
  go_sort (λ a b, input_less a.1 b.1) ins.
Definition SortTransferableOutputs `{GoSort} (marshal : iface → option bytes)
    (outs : list TransferableOutput) : list TransferableOutput :=
  go_sort (output_less marshal) outs.

(** ** The flow checker *)

Record FlowChecker := mkFlow {
  fc_consumed : gmap ID Z;
  fc_produced : gmap ID Z;
  fc_errs : option avax_error;
}.

Definition NewFlowChecker : FlowChecker := mkFlow ∅ ∅ None.

(** [Errs.Add]: the first error stays. *)
Definition errs_Add (errs err : option avax_error) : option avax_error :=
  match errs with Some e => Some e | None => err end.

Definition amount_of (m : gmap ID Z) (a : ID) : Z := default 0 (m !! a).

(** An overflow leaves 0 in the map. *)
Definition fc_add (value : gmap ID Z) (assetID : ID) (amount : Z) : gmap ID Z * option avax_error :=
  match Add64 (amount_of value assetID) amount with
  | Ok v => (<[assetID := v]> value, None)
  | Err e => (<[assetID := 0]> value, Some (errFlowMath e))
  end.

Definition fc_Consume (assetID : ID) (amount : Z) (fc : FlowChecker) : FlowChecker :=
  let '(value, err) := fc_add (fc_consumed fc) assetID amount in
  mkFlow value (fc_produced fc) (errs_Add (fc_errs fc) err).

Definition fc_Produce (assetID : ID) (amount : Z) (fc : FlowChecker) : FlowChecker :=
  let '(value, err) := fc_add (fc_produced fc) assetID amount in
  mkFlow (fc_consumed fc) value (errs_Add (fc_errs fc) err).

Section flow.
Context `{GoRange}.

Fixpoint flow_loop (produced : list (ID * Z)) (consumed : gmap ID Z) : option avax_error :=
  match produced with
  | [] => None
  | (assetID, producedAssetAmount) :: produced =>
      if decide (producedAssetAmount > amount_of consumed assetID) then Some errInsufficientFunds
      else flow_loop produced consumed
  end.

Definition fc_Verify (fc : FlowChecker) : option avax_error :=
  match fc_errs fc with
  | Some e => Some e
  | None => flow_loop (go_range (fc_produced fc)) (fc_consumed fc)
  end.

(** ** A transaction *)

Fixpoint produce_outs (outs : list TransferableOutput) (fc : FlowChecker) : result avax_error FlowChecker :=
  match outs with
  | [] => Ok fc
  | out :: outs =>
      match TransferableOutput_Verify out with
      | Err e => Err e
      | Ok _ =>
          match iface_Amount (tout_Out out) with
          | None => Err errNoAmount
          | Some amount => produce_outs outs (fc_Produce (tout_Asset out) amount fc)
          end
      end
  end.

Fixpoint produce_all (marshal : iface → option bytes) (allOuts : list (list TransferableOutput))
    (fc : FlowChecker) : result avax_error FlowChecker :=
  match allOuts with
  | [] => Ok fc
  | outs :: allOuts =>
      match produce_outs outs fc with
      | Err e => Err e
      | Ok fc =>
          if negb (IsSortedTransferableOutputs marshal outs) then Err errOutputsNotSorted
          else produce_all marshal allOuts fc
      end
  end.

Fixpoint consume_ins (ins : list TransferableInput) (fc : FlowChecker) : result avax_error FlowChecker :=
  match ins with
  | [] => Ok fc
  | i :: ins =>
      match TransferableInput_Verify i with
      | Err e => Err e
      | Ok _ =>
          match iface_Amount (tin_In i) with
          | None => Err errNoAmount
          | Some amount => consume_ins ins (fc_Consume (tin_Asset i) amount fc)
          end
      end
  end.

Fixpoint consume_all (allIns : list (list TransferableInput)) (fc : FlowChecker)
  : result avax_error FlowChecker :=
  match allIns with
  | [] => Ok fc
  | ins :: allIns =>
      match consume_ins ins fc with
      | Err e => Err e
      | Ok fc =>
          if negb (IsSortedAndUniqueTransferableInputs ins) then Err errInputsNotSortedUnique
          else consume_all allIns fc
      end
  end.

Definition VerifyTx (feeAmount : Z) (feeAssetID : ID) (allIns : list (list TransferableInput))
    (allOuts : list (list TransferableOutput)) (marshal : iface → option bytes) : result avax_error unit :=
  let fc := fc_Produce feeAssetID feeAmount NewFlowChecker in
  match produce_all marshal allOuts fc with
  | Err e => Err e
  | Ok fc =>
      match consume_all allIns fc with
      | Err e => Err e
      | Ok fc => match fc_Verify fc with Some e => Err e | None => Ok tt end
      end
  end.
End flow.

(** ** What the checks mean *)

(** The sum of the flows of an asset. *)
Section flow_sum.
Context {K : Type} `{EqDecision K}.
Implicit Types (fs : list (K * Z)) (a : K).

Definition flow_sum fs a : Z := sumZ (snd <$> filter (λ f, f.1 = a) fs).

Lemma flow_sum_nil a : flow_sum [] a = 0.
Proof. done. Qed.

Lemma flow_sum_cons f fs a : flow_sum (f :: fs) a = (if decide (f.1 = a) then f.2 else 0) + flow_sum fs a.
Proof.
  unfold flow_sum. rewrite filter_cons. case_decide; [|lia]. by rewrite fmap_cons, sumZ_cons.
Qed.

Lemma flow_sum_app fs1 fs2 a : flow_sum (fs1 ++ fs2) a = flow_sum fs1 a + flow_sum fs2 a.
Proof. unfold flow_sum. by rewrite filter_app, fmap_app, sumZ_app. Qed.

#[export] Instance flow_sum_perm : Proper ((≡ₚ) ==> (=) ==> (=)) flow_sum.
Proof. intros l1 l2 Hp a ? <-. unfold flow_sum. by rewrite Hp. Qed.

Definition flows_ok fs : Prop := Forall (λ f, is_u64 f.2) fs.

Lemma flow_sum_nonneg fs a : flows_ok fs → 0 ≤ flow_sum fs a.
Proof.
  intros Hf. induction Hf as [|f fs Hf _ IH]; [by rewrite flow_sum_nil|].
  rewrite flow_sum_cons. unfold is_uint in Hf. case_decide; lia.
Qed.

(** No sum exceeds 64 bits. *)
Definition bounded fs : Prop := ∀ a, flow_sum fs a ≤ MaxUint64.

Lemma bounded_app fs1 fs2 : flows_ok fs2 → bounded (fs1 ++ fs2) → bounded fs1.
Proof.
  intros Hf Ha a. specialize (Ha a). rewrite flow_sum_app in Ha. pose proof (flow_sum_nonneg _ a Hf). lia.
Qed.

Lemma flow_sum_snoc fs a x b :
  flow_sum (fs ++ [(a, x)]) b = flow_sum fs b + if decide (a = b) then x else 0.
Proof. rewrite flow_sum_app, flow_sum_cons, flow_sum_nil. simpl. lia. Qed.
End flow_sum.

(** One of the two maps of the checker, after the flows [fs]. *)
Definition sums (m : gmap ID Z) (fs : list (ID * Z)) : Prop := ∀ a, amount_of m a = flow_sum fs a.

Lemma fc_add_spec m fs a x :
  sums m fs → flows_ok fs → bounded fs → is_u64 x →
  let '(m', err) := fc_add m a x in
  match err with None => sums m' (fs ++ [(a, x)]) ∧ bounded (fs ++ [(a, x)]) | Some _ => ¬ bounded (fs ++ [(a, x)]) end.
Proof.
  intros Hs Hok Hfit Hx. unfold fc_add. rewrite Hs.
  rewrite Add64_spec; [|pose proof (flow_sum_nonneg fs a Hok); pose proof (Hfit a); unfold is_uint, MaxUint64 in *; lia|done].
  pose proof (flow_sum_snoc fs a x) as Hsum.
  case_decide as Hd.
  - split; intros b; rewrite Hsum.
    + unfold amount_of. rewrite lookup_insert. destruct (decide (a = b)) as [<-|Hne]; [done|].
      rewrite Z.add_0_r. apply Hs.
    + specialize (Hfit b). destruct (decide (a = b)) as [<-|Hne]; lia.
  - intros Hf. specialize (Hf a). rewrite Hsum, decide_True in Hf by done. lia.
Qed.

(** The checker after the flows [cons] in and [prod] out. *)
Definition flow_rep (fc : FlowChecker) (cons prod : list (ID * Z)) : Prop :=
  flows_ok cons ∧ flows_ok prod ∧
  match fc_errs fc with
  | None => sums (fc_consumed fc) cons ∧ bounded cons ∧ sums (fc_produced fc) prod ∧ bounded prod
  | Some _ => ¬ (bounded cons ∧ bounded prod)
  end.

Lemma flow_rep_new : flow_rep NewFlowChecker [] [].
Proof.
  assert (bounded (K := ID) []) as Hf by (intros a; rewrite flow_sum_nil; unfold MaxUint64; lia).
  assert (sums ∅ []) as Hs by (intros a; unfold amount_of; by rewrite lookup_empty).
  split; [constructor|]. split; [constructor|]. done.
Qed.

Lemma flow_rep_produce fc cons prod a x :
  flow_rep fc cons prod → is_u64 x → flow_rep (fc_Produce a x fc) cons (prod ++ [(a, x)]).
Proof.
  intros (Hc&Hp&Hr) Hx. assert (flows_ok [(a, x)]) as Ha by (repeat constructor; apply Hx).
  unfold fc_Produce. destruct (fc_add (fc_produced fc) a x) as [m err] eqn:E.
  split; [done|]. split; [by apply Forall_app|]. destruct (fc_errs fc) as [e|] eqn:Ee; simpl.
  - intros [? ?%bounded_app]; [tauto|done].
  - destruct Hr as (Hr1&Hr2&Hr3&Hr4). pose proof (fc_add_spec _ _ a x Hr3 Hp Hr4 Hx) as Hs. rewrite E in Hs.
    destruct err; [tauto|]. by destruct Hs.
Qed.

Lemma flow_rep_consume fc cons prod a x :
  flow_rep fc cons prod → is_u64 x → flow_rep (fc_Consume a x fc) (cons ++ [(a, x)]) prod.
Proof.
  intros (Hc&Hp&Hr) Hx. assert (flows_ok [(a, x)]) as Ha by (repeat constructor; apply Hx).
  unfold fc_Consume. destruct (fc_add (fc_consumed fc) a x) as [m err] eqn:E.
  split; [by apply Forall_app|]. split; [done|]. destruct (fc_errs fc) as [e|] eqn:Ee; simpl.
  - intros [?%bounded_app ?]; [tauto|done].
  - destruct Hr as (Hr1&Hr2&Hr3&Hr4). pose proof (fc_add_spec _ _ a x Hr1 Hc Hr2 Hx) as Hs. rewrite E in Hs.
    destruct err; [tauto|]. by destruct Hs.
Qed.

Section flow_spec.
Context `{GoRange}.

Lemma flow_loop_spec produced consumed :
  flow_loop produced consumed = None ↔ Forall (λ p, p.2 ≤ amount_of consumed p.1) produced.
Proof.
  induction produced as [|[a x] produced IH]; simpl; [split; [constructor|done]|].
  rewrite Forall_cons. simpl. case_decide; [|rewrite IH].
  - split; [done|]. lia.
  - split; [intros; split; [lia|done]|tauto].
Qed.

Lemma fc_Verify_spec fc cons prod :
  flow_rep fc cons prod →
  fc_Verify fc = None ↔ ∀ a, flow_sum prod a ≤ flow_sum cons a ≤ MaxUint64.
Proof.
  intros (Hc&Hp&Hr). unfold fc_Verify. destruct (fc_errs fc) as [e|].
  { split; [done|]. intros Ha. destruct Hr. split; intros a; specialize (Ha a); lia. }
  destruct Hr as (Hs1&Hf1&Hs2&Hf2). rewrite flow_loop_spec, go_range_perm, Forall_forall. split.
  - intros Hl a. split; [|apply Hf1]. rewrite <-Hs1, <-Hs2. unfold amount_of at 1.
    destruct (fc_produced fc !! a) as [x|] eqn:E; simpl.
    + by apply (Hl (a, x)), elem_of_map_to_list.
    + rewrite Hs1. by apply flow_sum_nonneg.
  - intros Ha [a x] Hx%elem_of_map_to_list. simpl. rewrite Hs1.
    specialize (Ha a). rewrite <-Hs2 in Ha. unfold amount_of in Ha. rewrite Hx in Ha. apply Ha.
Qed.

Definition amount (v : iface) : Z := default 0 (iface_Amount v).
Definition out_flow (out : TransferableOutput) : ID * Z := (tout_Asset out, amount (tout_Out out)).
Definition in_flow (i : TransferableInput) : ID * Z := (tin_Asset i, amount (tin_In i)).

Definition out_typed (out : TransferableOutput) : Prop :=
  is_TransferableOut (tout_Out out) = true ∧ is_u64 (amount (tout_Out out)).
Definition in_typed (i : TransferableInput) : Prop :=
  is_TransferableIn (tin_In i) = true ∧ is_u64 (amount (tin_In i)).

Lemma out_Amount o :
  is_TransferableOut o = true → iface_Verify o = Ok tt → iface_Amount o = Some (amount o).
Proof.
  unfold amount. induction o; simpl; try done.
  - by destruct p.
  - intros Ht. case_decide; [done|]. intros Hv. apply IHo; [done|]. by destruct o.
Qed.

Lemma in_Amount i :
  is_TransferableIn i = true → iface_Verify i = Ok tt → iface_Amount i = Some (amount i).
Proof.
  unfold amount. induction i; simpl; try done.
  - by destruct p.
  - intros Ht. case_decide; [done|]. intros Hv. apply IHi; [done|]. by destruct i.
Qed.

Lemma lift_fx_ok r : lift_fx r = Ok tt → r = Ok tt.
Proof. by destruct r as [[]|]. Qed.

Lemma TransferableOutput_Verify_ok out :
  TransferableOutput_Verify out = Ok tt → iface_Verify (tout_Out out) = Ok tt.
Proof.
  unfold TransferableOutput_Verify. destruct (Asset_Verify (tout_Asset out)); destruct (tout_Out out);
    try done; intros ?%lift_fx_ok; done.
Qed.

Lemma TransferableInput_Verify_ok i :
  TransferableInput_Verify i = Ok tt → iface_Verify (tin_In i) = Ok tt.
Proof.
  unfold TransferableInput_Verify. destruct (Asset_Verify (tin_Asset i)); destruct (tin_In i);
    try done; intros ?%lift_fx_ok; done.
Qed.

(** The loops either fail on an element or add all flows. *)
Lemma produce_outs_spec outs fc cons prod :
  Forall out_typed outs → flow_rep fc cons prod →
  match produce_outs outs fc with
  | Ok fc' => Forall (λ out, TransferableOutput_Verify out = Ok tt) outs ∧
      flow_rep fc' cons (prod ++ (out_flow <$> outs))
  | Err _ => ¬ Forall (λ out, TransferableOutput_Verify out = Ok tt) outs
  end.
Proof.
  intros Ht. revert fc prod. induction Ht as [|out outs [Ht Hu] _ IH]; intros fc prod Hr; simpl.
  { rewrite app_nil_r. done. }
  destruct (TransferableOutput_Verify out) as [[]|e] eqn:Ev; [|intros [??]%Forall_cons; congruence].
  rewrite (out_Amount _ Ht (TransferableOutput_Verify_ok _ Ev)).
  specialize (IH _ _ (flow_rep_produce _ _ _ (tout_Asset out) _ Hr Hu)).
  destruct (produce_outs _ _); [|by intros [??]%Forall_cons].
  destruct IH as [IH1 IH2]. rewrite <-app_assoc in IH2. split; [by constructor|done].
Qed.

Lemma consume_ins_spec ins fc cons prod :
  Forall in_typed ins → flow_rep fc cons prod →
  match consume_ins ins fc with
  | Ok fc' => Forall (λ i, TransferableInput_Verify i = Ok tt) ins ∧
      flow_rep fc' (cons ++ (in_flow <$> ins)) prod
  | Err _ => ¬ Forall (λ i, TransferableInput_Verify i = Ok tt) ins
  end.
Proof.
  intros Ht. revert fc cons. induction Ht as [|i ins [Ht Hu] _ IH]; intros fc cons Hr; simpl.
  { rewrite app_nil_r. done. }
  destruct (TransferableInput_Verify i) as [[]|e] eqn:Ev; [|intros [??]%Forall_cons; congruence].
  rewrite (in_Amount _ Ht (TransferableInput_Verify_ok _ Ev)).
  specialize (IH _ _ (flow_rep_consume _ _ _ (tin_Asset i) _ Hr Hu)).
  destruct (consume_ins _ _); [|by intros [??]%Forall_cons].
  destruct IH as [IH1 IH2]. rewrite <-app_assoc in IH2. split; [by constructor|done].
Qed.

Lemma produce_all_spec marshal allOuts fc cons prod :
  Forall out_typed (concat allOuts) → flow_rep fc cons prod →
  match produce_all marshal allOuts fc with
  | Ok fc' => Forall (λ out, TransferableOutput_Verify out = Ok tt) (concat allOuts) ∧
      Forall (λ outs, IsSortedTransferableOutputs marshal outs = true) allOuts ∧
      flow_rep fc' cons (prod ++ (out_flow <$> concat allOuts))
  | Err _ => ¬ (Forall (λ out, TransferableOutput_Verify out = Ok tt) (concat allOuts) ∧
      Forall (λ outs, IsSortedTransferableOutputs marshal outs = true) allOuts)
  end.
Proof.
  revert fc prod. induction allOuts as [|outs allOuts IH]; intros fc prod; simpl.
  { rewrite app_nil_r. done. }
  intros [Ht Hts]%Forall_app Hr. pose proof (produce_outs_spec outs fc cons prod Ht Hr) as Ho.
  destruct (produce_outs outs fc) as [fc'|e]; [|rewrite Forall_app; tauto].
  destruct Ho as [Ho Hr']. destruct (IsSortedTransferableOutputs marshal outs) eqn:Es; simpl.
  2:{ rewrite Forall_cons, Es. naive_solver. }
  specialize (IH _ _ Hts Hr'). destruct (produce_all marshal allOuts fc').
  - rewrite Forall_app, Forall_cons, fmap_app, app_assoc. tauto.
  - rewrite Forall_app, Forall_cons. tauto.
Qed.

Lemma consume_all_spec allIns fc cons prod :
  Forall in_typed (concat allIns) → flow_rep fc cons prod →
  match consume_all allIns fc with
  | Ok fc' => Forall (λ i, TransferableInput_Verify i = Ok tt) (concat allIns) ∧
      Forall (λ ins, IsSortedAndUniqueTransferableInputs ins = true) allIns ∧
      flow_rep fc' (cons ++ (in_flow <$> concat allIns)) prod
  | Err _ => ¬ (Forall (λ i, TransferableInput_Verify i = Ok tt) (concat allIns) ∧
      Forall (λ ins, IsSortedAndUniqueTransferableInputs ins = true) allIns)
  end.
Proof.
  revert fc cons. induction allIns as [|ins allIns IH]; intros fc cons; simpl.
  { rewrite app_nil_r. done. }
  intros [Ht Hts]%Forall_app Hr. pose proof (consume_ins_spec ins fc cons prod Ht Hr) as Ho.
  destruct (consume_ins ins fc) as [fc'|e]; [|rewrite Forall_app; tauto].
  destruct Ho as [Ho Hr']. destruct (IsSortedAndUniqueTransferableInputs ins) eqn:Es; simpl.
  2:{ rewrite Forall_cons, Es. naive_solver. }
  specialize (IH _ _ Hts Hr'). destruct (consume_all allIns fc').
  - rewrite Forall_app, Forall_cons, fmap_app, app_assoc. tauto.
  - rewrite Forall_app, Forall_cons. tauto.
Qed.
End flow_spec.

(** ** What a transaction that passes looks like *)

Definition utxoid_lt (a b : UTXOID) : Prop := utxoid_less a b = true.

Lemma utxoid_lt_spec a b :
  utxoid_lt a b ↔ bytes_lt (id_bytes (uid_TxID a)) (id_bytes (uid_TxID b)) ∨
    (uid_TxID a = uid_TxID b ∧ uid_OutputIndex a < uid_OutputIndex b).
Proof.
  unfold utxoid_lt, utxoid_less. fold (bytes_lt (id_bytes (uid_TxID a)) (id_bytes (uid_TxID b))).
  destruct (bytes_ltb _ _) eqn:E; [split; [by left|done]|]. case_decide as Hd.
  - rewrite bool_decide_eq_true. split; [by right|]. intros [Hlt|[_ ?]]; [|done].
    unfold bytes_lt in Hlt. congruence.
  - split; [done|]. unfold bytes_lt. intros [?|[? _]]; congruence.
Qed.

#[export] Instance utxoid_lt_trans : Transitive utxoid_lt.
Proof.
  intros a b c. rewrite !utxoid_lt_spec. intros [H1|[E1 H1]] [H2|[E2 H2]].
  - left. by etrans.
  - left. by rewrite <-E2.
  - left. by rewrite E1.
  - right. split; [congruence|lia].
Qed.

Lemma utxoid_lt_irrefl a : ¬ utxoid_lt a a.
Proof. rewrite utxoid_lt_spec. intros [?|[_ ?]]; [by eapply bytes_lt_irrefl|lia]. Qed.

Lemma utxoid_lt_total a b : utxoid_lt a b ∨ a = b ∨ utxoid_lt b a.
Proof.
  rewrite !utxoid_lt_spec. destruct a as [ta ia], b as [tb ib]. simpl.
  destruct (bytes_lt_total (id_bytes ta) (id_bytes tb)) as [?|[->%ID_eq|?]]; [tauto| |tauto].
  destruct (Z.lt_total ia ib) as [?|[->|?]]; tauto.
Qed.

Lemma utxoid_not_less a b : utxoid_less b a = false ↔ utxoid_lt a b ∨ a = b.
Proof.
  split.
  - intros E. destruct (utxoid_lt_total a b) as [?|[?|Hlt]]; [by left|by right|]. unfold utxoid_lt in Hlt. congruence.
  - intros Hab. destruct (utxoid_less b a) eqn:E; [|done]. exfalso. fold (utxoid_lt b a) in E.
    destruct Hab as [Hlt| ->]; [eapply (utxoid_lt_irrefl a); by etrans|by eapply utxoid_lt_irrefl].
Qed.

Lemma sorted_unique_spec {A} (less : A → A → bool) (l : list A) :
  IsSortedAndUnique less l = true ↔ Sorted less l.
Proof.
  induction l as [|a [|b l] IH]; [split; constructor|split; [repeat constructor|done]|].
  cbn [IsSortedAndUnique]. destruct (less a b) eqn:E.
  - rewrite IH. split; [intros Hs; constructor; [done|constructor; by rewrite E]|by inversion 1].
  - split; [done|]. inversion_clear 1 as [|?? _ Hh]. inversion_clear Hh as [|?? Hlt]. by rewrite E in Hlt.
Qed.

(** Inputs in strict order spend distinct outputs. *)
Lemma sorted_inputs_spec ins :
  IsSortedAndUniqueTransferableInputs ins = true ↔ Sorted utxoid_lt (tin_UTXOID <$> ins).
Proof.
  unfold IsSortedAndUniqueTransferableInputs. rewrite sorted_unique_spec.
  induction ins as [|i ins IH]; [split; constructor|]. rewrite fmap_cons. split.
  - inversion_clear 1 as [|?? Hs Hh]. constructor; [by apply IH|]. inversion_clear Hh as [|?? Hlt]; constructor.
    by apply Is_true_true.
  - inversion_clear 1 as [|?? Hs Hh]. constructor; [by apply IH|].
    destruct ins as [|j ins]; constructor. inversion_clear Hh as [|?? Hlt]. by apply Is_true_true.
Qed.

Lemma sorted_utxoids_NoDup l : Sorted utxoid_lt l → NoDup l.
Proof.
  intros Hs. apply Sorted_StronglySorted in Hs; [|apply _].
  induction Hs as [|a l Hs IH Ha]; constructor; [|done].
  intros Hin. rewrite Forall_forall in Ha. by eapply utxoid_lt_irrefl, Ha.
Qed.

(** What a transaction has to satisfy: the elements are well formed, the lists of
    outputs are sorted, those of inputs are strictly sorted and so spend distinct
    outputs, and for each asset what comes in covers what goes out and the fee. *)
Record balanced (feeAmount : Z) (feeAssetID : ID) (allIns : list (list TransferableInput))
    (allOuts : list (list TransferableOutput)) (marshal : iface → option bytes) : Prop := mkBalanced {
  bal_ins : Forall (λ i, TransferableInput_Verify i = Ok tt) (concat allIns);
  bal_outs : Forall (λ out, TransferableOutput_Verify out = Ok tt) (concat allOuts);
  bal_sorted_outs : Forall (λ outs, IsSortedTransferableOutputs marshal outs = true) allOuts;
  bal_sorted_ins : Forall (λ ins, Sorted utxoid_lt (tin_UTXOID <$> ins)) allIns;
  bal_flow : ∀ a,
    flow_sum [(feeAssetID, feeAmount)] a + flow_sum (out_flow <$> concat allOuts) a ≤
    flow_sum (in_flow <$> concat allIns) a ≤ MaxUint64;
}.

(** C27: [VerifyTx] accepts exactly the balanced transactions: of no asset do the
    outputs and the fee take more than the inputs bring in, sums that exceed 64
    bits never pass, and no list of inputs spends an output twice. *)
Theorem VerifyTx_correct `{GoRange} feeAmount feeAssetID allIns allOuts marshal :
  is_u64 feeAmount → Forall in_typed (concat allIns) → Forall out_typed (concat allOuts) →
  (VerifyTx feeAmount feeAssetID allIns allOuts marshal = Ok tt ↔
     balanced feeAmount feeAssetID allIns allOuts marshal) ∧
  (balanced feeAmount feeAssetID allIns allOuts marshal →
     Forall (λ ins, NoDup (tin_UTXOID <$> ins)) allIns).
Proof.
  intros Hfee Hins Houts. split.
  2:{ intros [_ _ _ Hs _]. eapply Forall_impl; [exact Hs|]. intros ins. apply sorted_utxoids_NoDup. }
  unfold VerifyTx. pose proof (flow_rep_produce _ _ _ feeAssetID _ flow_rep_new Hfee) as Hr.
  pose proof (produce_all_spec marshal allOuts _ _ _ Houts Hr) as Hp.
  destruct (produce_all _ _ _) as [fc|e]; [|split; [done|by intros []; destruct Hp]].
  destruct Hp as (Hp&Hso&Hr'). pose proof (consume_all_spec allIns _ _ _ Hins Hr') as Hc.
  assert (∀ ins, IsSortedAndUniqueTransferableInputs ins = true ↔ Sorted utxoid_lt (tin_UTXOID <$> ins)) as Hsi
    by apply sorted_inputs_spec.
  destruct (consume_all _ _) as [fc'|e].
  2:{ split; [done|]. intros [Hv _ _ Hs _]. destruct Hc. split; [done|].
      eapply Forall_impl; [exact Hs|]. intros ins. by rewrite Hsi. }
  destruct Hc as (Hc&Hss&Hr''). pose proof (fc_Verify_spec _ _ _ Hr'') as Hv.
  assert ((∀ a, flow_sum ([(feeAssetID, feeAmount)] ++ (out_flow <$> concat allOuts)) a ≤
    flow_sum (in_flow <$> concat allIns) a ≤ MaxUint64) ↔ balanced feeAmount feeAssetID allIns allOuts marshal) as Hb.
  { split; [|intros [_ _ _ _ Hb] a; rewrite flow_sum_app; apply Hb].
    intros Hf. split; try done.
    - eapply Forall_impl; [exact Hss|]. intros ins. by rewrite Hsi.
    - intros a. rewrite <-flow_sum_app. apply Hf. }
  rewrite <-Hb. simpl in Hv |- *. rewrite <-Hv. by destruct (fc_Verify fc'); split.
Qed.

(** Two inputs of 5 and 4 pay an output of 6 and a fee of 2. *)
Lemma VerifyTx_correct_witness :
  let owners := mkOwners 0 1 [node1 x01] in
  let inp n amt := mkTIn (mkUTXOID (id1 x07) n) (id1 x01) (ifTransferInput (Some (mkTransferInput amt (mkInput [0])))) in
  let out := mkTOut (id1 x01) (ifTransferOutput (Some (mkTransferOutput 6 owners))) in
  balanced 2 (id1 x01) [[inp 0 5; inp 1 4]] [[out]] (λ _, Some []).
Proof.
  intros owners inp out.
  refine (proj1 (proj1 (VerifyTx_correct (H := go_range_std) 2 (id1 x01) [[inp 0 5; inp 1 4]] [[out]] (λ _, Some []) _ _ _)) _).
  - unfold is_uint. lia.
  - simpl. rewrite !Forall_cons, Forall_nil. unfold in_typed, out_typed, is_uint. simpl. split_and!; done || lia.
  - simpl. rewrite !Forall_cons, Forall_nil. unfold in_typed, out_typed, is_uint. simpl. split_and!; done || lia.
  - vm_compute. reflexivity.
Defined.
