(* ===== verification/PlatformUtxo.v ===== *)
(** Spending on the platform chain (src/vms/platformvm/utxo/handler.go, the
    unspent outputs of src/vms/platformvm/state/diff.go, and
    src/vms/components/avax/utxo_fetching.go).

    A transaction consumes outputs and produces others, some of them locked until
    a time.  [VerifySpend] looks the consumed outputs up and checks that the
    credentials allow it, that nothing is produced from nothing, and that locked
    funds stay locked, with the same owner, until their time has come; [Consume]
    and [Produce] apply the transaction; [Spend] builds the inputs and outputs of
    one from the outputs a set of keys controls.

    The clock does not move during a call: [now]. *)

From Stdlib Require Import Strings.Byte Strings.String.
From S2P Require Import Prelude SafeMath Ids NodeBag Packer Database CodecTypes Codec LinkedDB GoStd Secp256k1fx Utxo.

(** ** The set of unspent outputs *)

(** [state.UTXOGetter], [state.UTXOAdder] and [state.UTXODeleter]; [GetUTXO]
    answers none on an error. *)
Class UTXOSet `{Crypto} (S : Type) : Type := {
  GetUTXO : ID → S → option UTXO;
  AddUTXO : UTXO → S → S;
  DeleteUTXO : ID → S → S;
}.

Definition utxo_InputID `{Crypto} (u : UTXO) : ID := InputID (utxo_UTXOID u).

(** What the platform chain relies on: the set is a finite map. *)
Class UTXOSetLaws `{Crypto} (S : Type) `{!UTXOSet S} : Type := {
  utxo_view : S → gmap ID UTXO;
  get_view id s : GetUTXO id s = utxo_view s !! id;
  add_view u s : utxo_view (AddUTXO u s) = <[utxo_InputID u := u]> (utxo_view s);
  delete_view id s : utxo_view (DeleteUTXO id s) = delete id (utxo_view s);
}.

(** A map is such a set. *)
#[export] Instance map_UTXOSet `{Crypto} : UTXOSet (gmap ID UTXO) := {|
  GetUTXO id s := s !! id;
  AddUTXO u s := <[utxo_InputID u := u]> s;
  DeleteUTXO id s := delete id s;
|}.

#[export] Instance map_UTXOSetLaws `{Crypto} : UTXOSetLaws (gmap ID UTXO).
Proof. by refine {| utxo_view s := s |}. Defined.

Section diff.
Context `{Crypto} {P : Type} `{!UTXOSet P}.

(** The unspent outputs of a [diff]: what it changes, none for an output it
    deletes, and the state of its parent, none when it is not known any more. *)
Record diff := mkDiff { modifiedUTXOs : gmap ID (option UTXO); parentState : option P }.

Definition diff_GetUTXO (utxoID : ID) (d : diff) : option UTXO :=
  match modifiedUTXOs d !! utxoID with
  | Some utxo => utxo
  | None => match parentState d with None => None | Some parentState => GetUTXO utxoID parentState end
  end.

Definition diff_AddUTXO (utxo : UTXO) (d : diff) : diff :=
  mkDiff (<[utxo_InputID utxo := Some utxo]> (modifiedUTXOs d)) (parentState d).

Definition diff_DeleteUTXO (utxoID : ID) (d : diff) : diff :=
  mkDiff (<[utxoID := None]> (modifiedUTXOs d)) (parentState d).

#[export] Instance diff_UTXOSet : UTXOSet diff := {|
  GetUTXO := diff_GetUTXO; AddUTXO := diff_AddUTXO; DeleteUTXO := diff_DeleteUTXO |}.

(** The loop of [diff.Apply] over the outputs. *)
Definition apply_UTXO (base : P) (m : ID * option UTXO) : P :=
  match m with
  | (_, Some utxo) => AddUTXO utxo base
  | (utxoID, None) => DeleteUTXO utxoID base
  end.

Definition diff_ApplyUTXOs `{GoRange} (base : P) (d : diff) : P :=
  foldl apply_UTXO base (go_range (modifiedUTXOs d)).
End diff.

Arguments diff : clear implicits.

(** ** Fetching outputs by address *)

Section fetching.
Context `{Crypto} `{GoRange, GoSort} {S : Type} `{!UTXOSet S}.
(** [UTXOIDs(addr, previous, limit)] of the reader. *)
Context (UTXOIDs : bytes → ID → Z → option (list ID)).

Definition shortid_less (a b : ShortID) : bool := bytes_ltb (ShortID_bytes a) (ShortID_bytes b).
Definition ShortSet_SortedList (ids : gset ShortID) : list ShortID :=
  go_sort shortid_less (go_range (gset_to_gmap tt ids)).*1.

(** The loop over the identifiers of an address: the outputs, what was seen, the
    last identifier and the limit that is left; [inl] returns. *)
Fixpoint fetch_utxos (db : S) (utxoIDs : list ID) (utxos : list UTXO) (seen : gset ID)
    (lastUTXOID : ID) (limit : Z)
  : option (list UTXO * ID + list UTXO * gset ID * ID * Z) :=
  match utxoIDs with
  | [] => Some (inr (utxos, seen, lastUTXOID, limit))
  | utxoID :: utxoIDs =>
      if decide (utxoID ∈ seen) then fetch_utxos db utxoIDs utxos seen utxoID limit
      else
        match GetUTXO utxoID db with
        | None => None
        | Some utxo =>
            let limit := limit - 1 in
            if decide (limit ≤ 0) then Some (inl (utxos ++ [utxo], utxoID))
            else fetch_utxos db utxoIDs (utxos ++ [utxo]) ({[utxoID]} ∪ seen) utxoID limit
        end
  end.

Fixpoint fetch_addrs (db : S) (searchSize : Z) (addrs : list ShortID) (utxos : list UTXO) (seen : gset ID)
    (lastAddr : ShortID) (lastUTXOID : ID) (limit : Z) : option (list UTXO * ShortID * ID) :=
  match addrs with
  | [] => Some (utxos, lastAddr, lastUTXOID)
  | addr :: addrs =>
      if bytes_ltb (ShortID_bytes addr) (ShortID_bytes lastAddr) then
        fetch_addrs db searchSize addrs utxos seen lastAddr lastUTXOID limit
      else
        let start := if decide (addr = lastAddr) then lastUTXOID else Empty in
        match UTXOIDs (ShortID_bytes addr) start searchSize with
        | None => None
        | Some utxoIDs =>
            match fetch_utxos db utxoIDs utxos seen lastUTXOID limit with
            | None => None
            | Some (inl (utxos, lastUTXOID)) => Some (utxos, addr, lastUTXOID)
            | Some (inr (utxos, seen, lastUTXOID, limit)) =>
                fetch_addrs db searchSize addrs utxos seen addr lastUTXOID limit
            end
        end
  end.

Definition GetPaginatedUTXOs (db : S) (addrs : gset ShortID) (lastAddr : ShortID) (lastUTXOID : ID) (limit : Z)
  : option (list UTXO * ShortID * ID) :=
  fetch_addrs db limit (ShortSet_SortedList addrs) [] ∅ lastAddr lastUTXOID limit.

Definition ShortEmpty : ShortID := node1 x00.
Definition MaxInt : Z := 2 ^ 63 - 1.

Definition GetAllUTXOs (db : S) (addrs : gset ShortID) : option (list UTXO) :=
  match GetPaginatedUTXOs db addrs ShortEmpty Empty MaxInt with
  | Some (utxos, _, _) => Some utxos
  | None => None
  end.

(** The loop of [GetBalance]; an output without an amount is skipped. *)
Fixpoint balance_loop (utxos : list UTXO) (balance : Z) : option Z :=
  match utxos with
  | [] => Some balance
  | utxo :: utxos =>
      match iface_Amount (utxo_Out utxo) with
      | None => balance_loop utxos balance
      | Some amount =>
          match Add64 amount balance with
          | Err _ => None
          | Ok balance => balance_loop utxos balance
          end
      end
  end.

Definition GetBalance (db : S) (addrs : gset ShortID) : option Z :=
  match GetAllUTXOs db addrs with None => None | Some utxos => balance_loop utxos 0 end.
End fetching.

(** ** The handler *)

Inductive spend_error :=
| errNumCredentials | errNumUTXOs
| errSpendFx (e : fx_error)
| errWrongAsset
| errLockedFundsNotMarkedAsLocked
| errWrongLocktime
| errNotOwned
| errMarshalOwner (e : codec_error)
| errSpendMath (e : math_error)
| errLockedIncrease
| errUnlockedIncrease
| errMissingUTXO
| errBalance
| errCantGetUTXOs
| errCantSign
| errFetchSubnet
| errNotSubnetTx
| errNotOwners
| errSpendPanic.

#[export] Instance spend_error_eq_dec : EqDecision spend_error.
Proof. solve_decision. Defined.

(** [for _, x := range l { s = f(x, s) or return err }] *)
Fixpoint for_each {A St E} (f : A → St → result E St) (l : list A) (s : St) : result E St :=
  match l with
  | [] => Ok s
  | x :: l => match f x s with Err e => Err e | Ok s => for_each f l s end
  end.

(** assetID -> locktime -> ownerID -> amount *)
Abbreviation locked_map := (gmap ID (gmap Z (gmap ID Z))).

(** The inner maps are made when they are missing and updated in place. *)
Definition locked_Add (assetID : ID) (locktime : Z) (ownerID : ID) (amount : Z) (m : locked_map)
  : result spend_error locked_map :=
  let asset := default ∅ (m !! assetID) in
  let owners := default ∅ (asset !! locktime) in
  match Add64 (default 0 (owners !! ownerID)) amount with
  | Err e => Err (errSpendMath e)
  | Ok newAmount => Ok (<[assetID := <[locktime := <[ownerID := newAmount]> owners]> asset]> m)
  end.

Definition unlocked_Add (assetID : ID) (amount : Z) (m : gmap ID Z) : result spend_error (gmap ID Z) :=
  match Add64 (amount_of m assetID) amount with
  | Err e => Err (errSpendMath e)
  | Ok newAmount => Ok (<[assetID := newAmount]> m)
  end.

(** The output and the lock time of a [stakeable.LockOut]. *)
Definition split_LockOut (out : iface) : iface * Z :=
  match out with ifLockOut locktime out => (out, locktime) | _ => (out, 0) end.

(** [fx.Owned] *)
Definition Owners (out : iface) : option OutputOwners :=
  match out with ifTransferOutput (Some out) => Some (to_Owners out) | _ => None end.

(** The input without its [stakeable.LockIn]. *)
Definition unwrap_LockIn (now locktime : Z) (i : iface) : result spend_error iface :=
  match i with
  | ifLockIn inner_Locktime i =>
      if decide (inner_Locktime ≠ locktime) then Err errWrongLocktime else Ok i
  | _ => if decide (now < locktime) then Err errLockedFundsNotMarkedAsLocked else Ok i
  end.

(** The type of [secp256k1fx.OutputOwners], as the codec sees it. *)
Definition owners_type : gotype := TStruct "OutputOwners"
  [(serialized "Locktime", TUint W64); (serialized "Threshold", TUint W32);
   (serialized "Addrs", TSlice (TArray 20 (TUint W8)));
   (mkFieldInfo "ctx" false [(DefaultTagName, "false"%string)], TPtr (TOther "snow.Context"))].

Definition owners_value (o : OutputOwners) : govalue :=
  VStruct [VInt (oo_Locktime o); VInt (oo_Threshold o);
           VSlice ((λ a, VArray (byte_value <$> ShortID_bytes a)) <$> oo_Addrs o); VNilPtr].

Definition txs_Version : Z := 0.
Definition defaultMaxSliceLength : Z := 256 * 1024.
Definition defaultMaxSize : Z := 256 * 1024.

Section handler.
Context `{Crypto} `{GoRange, GoSort, GoAppend} (Implements : gotype → positive → bool).
#[local] Hint Extern 0 (TypeCodec linearCodec) => exact (linear_TypeCodec Implements) : typeclass_instances.

(** [txs.Codec]; the types that are registered play no role for [OutputOwners]. *)
Context (registered : linearCodec).
Definition txs_codec : genericCodec linearCodec := mkGenericCodec registered [DefaultTagName] defaultMaxSliceLength.
Definition txs_Codec : manager linearCodec := (RegisterCodec txs_Version txs_codec (NewManager defaultMaxSize)).2.

Definition ownerID (o : OutputOwners) : result spend_error ID :=
  match manager_Marshal txs_Codec txs_Version (Some (TPtr owners_type, VPtr (owners_value o))) with
  | None => Err errSpendPanic
  | Some (Err e) => Err (errMarshalOwner e)
  | Some (Ok ownerBytes) => Ok (ComputeHash256Array ownerBytes)
  end.

(** An output behind [avax.TransferableOut], as the codec sees it. *)
Definition transferOutput_type : gotype := TStruct "TransferOutput"
  [(serialized "Amt", TUint W64); (serialized "OutputOwners", owners_type)].
Definition TransferableOut_type : gotype := TInterface 1.
Definition lockOut_type : gotype := TStruct "LockOut"
  [(serialized "Locktime", TUint W64); (serialized "TransferableOut", TransferableOut_type)].

Fixpoint out_value (out : iface) : govalue :=
  match out with
  | ifNil => VNilInterface
  | ifTransferOutput None => VInterface (TPtr transferOutput_type) VNilPtr
  | ifTransferOutput (Some out) =>
      VInterface (TPtr transferOutput_type) (VPtr (VStruct [VInt (to_Amt out); owners_value (to_Owners out)]))
  | ifLockOut locktime out =>
      VInterface (TPtr lockOut_type) (VPtr (VStruct [VInt locktime; out_value out]))
  | _ => VInterface (TOther "output") VOther
  end.

(** [txs.Codec.Marshal(codecVersion, &out)] *)
Definition marshal_out (out : iface) : option bytes :=
  match manager_Marshal txs_Codec txs_Version (Some (TPtr TransferableOut_type, VPtr (out_value out))) with
  | Some (Ok b) => Some b
  | _ => None
  end.

Section verify.
Context (fx : Fx) (now : Z).

(** One turn of the loop over the inputs. *)
Definition spend_input (tx : iface) (x : UTXO * TransferableInput * iface) (s : gmap ID Z * locked_map)
  : result spend_error (gmap ID Z * locked_map) :=
  let '(utxo, input, cred) := x in
  let '(unlockedConsumed, lockedConsumed) := s in
  let realAssetID := utxo_Asset utxo in
  if decide (realAssetID ≠ tin_Asset input) then Err errWrongAsset
  else
    let '(out, locktime) := split_LockOut (utxo_Out utxo) in
    match unwrap_LockIn now locktime (tin_In input) with
    | Err e => Err e
    | Ok i =>
        match VerifyTransfer fx now tx i cred out with
        | Err e => Err (errSpendFx e)
        | Ok _ =>
            match iface_Amount i with
            | None => Err errSpendPanic
            | Some amount =>
                if decide (locktime ≤ now) then
                  match unlocked_Add realAssetID amount unlockedConsumed with
                  | Err e => Err e
                  | Ok unlockedConsumed => Ok (unlockedConsumed, lockedConsumed)
                  end
                else
                  match Owners out with
                  | None => Err errNotOwned
                  | Some owner =>
                      match ownerID owner with
                      | Err e => Err e
                      | Ok ownerID =>
                          match locked_Add realAssetID locktime ownerID amount lockedConsumed with
                          | Err e => Err e
                          | Ok lockedConsumed => Ok (unlockedConsumed, lockedConsumed)
                          end
                      end
                  end
            end
        end
    end.

(** One turn of the loop over the outputs. *)
Definition spend_output (out : TransferableOutput) (s : gmap ID Z * locked_map)
  : result spend_error (gmap ID Z * locked_map) :=
  let '(unlockedProduced, lockedProduced) := s in
  let assetID := tout_Asset out in
  let '(output, locktime) := split_LockOut (tout_Out out) in
  match iface_Amount output with
  | None => Err errSpendPanic
  | Some amount =>
      if decide (locktime = 0) then
        match unlocked_Add assetID amount unlockedProduced with
        | Err e => Err e
        | Ok unlockedProduced => Ok (unlockedProduced, lockedProduced)
        end
      else
        match Owners output with
        | None => Err errNotOwned
        | Some owner =>
            match ownerID owner with
            | Err e => Err e
            | Ok ownerID =>
                match locked_Add assetID locktime ownerID amount lockedProduced with
                | Err e => Err e
                | Ok lockedProduced => Ok (unlockedProduced, lockedProduced)
                end
            end
        end
  end.

(** The nested loops over the locked funds that are produced: an increase comes
    out of the unlocked funds. *)
Definition lock_owner (assetID : ID) (consumedAmounts : gmap ID Z) (x : ID * Z) (unlockedConsumed : gmap ID Z)
  : result spend_error (gmap ID Z) :=
  let '(ownerID, producedAmount) := x in
  let consumedAmount := amount_of consumedAmounts ownerID in
  if decide (producedAmount > consumedAmount) then
    let increase := producedAmount - consumedAmount in
    let unlockedConsumedAsset := amount_of unlockedConsumed assetID in
    if decide (increase > unlockedConsumedAsset) then Err errLockedIncrease
    else Ok (<[assetID := unlockedConsumedAsset - increase]> unlockedConsumed)
  else Ok unlockedConsumed.

Definition lock_locktime (assetID : ID) (lockedConsumedAsset : gmap Z (gmap ID Z)) (x : Z * gmap ID Z)
  : gmap ID Z → result spend_error (gmap ID Z) :=
  let '(locktime, producedAmounts) := x in
  for_each (lock_owner assetID (default ∅ (lockedConsumedAsset !! locktime))) (go_range producedAmounts).

Definition lock_asset (lockedConsumed : locked_map) (x : ID * gmap Z (gmap ID Z))
  : gmap ID Z → result spend_error (gmap ID Z) :=
  let '(assetID, producedAssetAmounts) := x in
  for_each (lock_locktime assetID (default ∅ (lockedConsumed !! assetID))) (go_range producedAssetAmounts).

Definition unlocked_asset (unlockedConsumed : gmap ID Z) (x : ID * Z) (s : unit) : result spend_error unit :=
  let '(assetID, unlockedProducedAsset) := x in
  if decide (unlockedProducedAsset > amount_of unlockedConsumed assetID) then Err errUnlockedIncrease else Ok s.

Definition verify_creds (cred : iface) (s : unit) : result spend_error unit :=
  match iface_Verify cred with Err e => Err (errSpendFx e) | Ok _ => Ok s end.

(** The map [unlockedProduced] as the call leaves it. *)
Definition VerifySpendUTXOs (tx : iface) (utxos : list UTXO) (ins : list TransferableInput)
    (outs : list TransferableOutput) (creds : list iface) (unlockedProduced : gmap ID Z)
  : result spend_error (gmap ID Z) :=
  if decide (length ins ≠ length creds) then Err errNumCredentials
  else if decide (length ins ≠ length utxos) then Err errNumUTXOs
  else
    match for_each verify_creds creds tt with
    | Err e => Err e
    | Ok _ =>
        match for_each (spend_input tx) (zip (zip utxos ins) creds) (∅, ∅) with
        | Err e => Err e
        | Ok (unlockedConsumed, lockedConsumed) =>
            match for_each spend_output outs (unlockedProduced, ∅) with
            | Err e => Err e
            | Ok (unlockedProduced, lockedProduced) =>
                match for_each (lock_asset lockedConsumed) (go_range lockedProduced) unlockedConsumed with
                | Err e => Err e
                | Ok unlockedConsumed =>
                    match for_each (unlocked_asset unlockedConsumed) (go_range unlockedProduced) tt with
                    | Err e => Err e
                    | Ok _ => Ok unlockedProduced
                    end
                end
            end
        end
    end.

Section utxo_set.
Context {S : Type} `{!UTXOSet S}.

Fixpoint get_utxos (utxoDB : S) (ins : list TransferableInput) : option (list UTXO) :=
  match ins with
  | [] => Some []
  | input :: ins =>
      match GetUTXO (InputID (tin_UTXOID input)) utxoDB with
      | None => None
      | Some utxo => utxos ← get_utxos utxoDB ins; Some (utxo :: utxos)
      end
  end.

Definition VerifySpend (tx : iface) (utxoDB : S) (ins : list TransferableInput)
    (outs : list TransferableOutput) (creds : list iface) (unlockedProduced : gmap ID Z)
  : result spend_error (gmap ID Z) :=
  match get_utxos utxoDB ins with
  | None => Err errMissingUTXO
  | Some utxos => VerifySpendUTXOs tx utxos ins outs creds unlockedProduced
  end.

Definition Consume (utxoDB : S) (ins : list TransferableInput) : S :=
  foldl (λ s input, DeleteUTXO (InputID (tin_UTXOID input)) s) utxoDB ins.

Fixpoint produce_from (index : nat) (txID : ID) (outs : list TransferableOutput) (utxoDB : S) : S :=
  match outs with
  | [] => utxoDB
  | out :: outs =>
      produce_from (1 + index) txID outs
        (AddUTXO (mkUTXO (mkUTXOID txID (wrap32 (Z.of_nat index))) (tout_Asset out) (tout_Out out)) utxoDB)
  end.
Definition Produce (utxoDB : S) (txID : ID) (outs : list TransferableOutput) : S :=
  produce_from 0 txID outs utxoDB.
End utxo_set.
End verify.

(** ** Building a transaction *)

Section spend.
Context (AVAXAssetID : ID) (now : Z).

Definition sub64 (a b : Z) : Z := wrap 64 (a - b).
Definition add64 (a b : Z) : Z := wrap 64 (a + b).

(** The inputs with the keys that sign them, the outputs, what is staked and
    burned so far. *)
Record spending := mkSpending {
  sp_ins : list (TransferableInput * list PrivateKey);
  sp_returnedOuts : list TransferableOutput;
  sp_stakedOuts : list TransferableOutput;
  sp_amountStaked : Z;
  sp_amountBurned : Z;
}.

Definition locked_output (locktime amount : Z) (owners : OutputOwners) : TransferableOutput :=
  mkTOut AVAXAssetID (ifLockOut locktime (ifTransferOutput (Some (mkTransferOutput amount owners)))).
Definition change_output (amount : Z) (changeAddr : ShortID) : TransferableOutput :=
  mkTOut AVAXAssetID (ifTransferOutput (Some (mkTransferOutput amount (mkOwners 0 1 [changeAddr])))).

(** What the first loop does with an output that is locked and can be spent. *)
Definition stake_locked (amount : Z) (utxo : UTXO) (locktime : Z) (owners : OutputOwners) (i : iface)
    (inSigners : list PrivateKey) (remainingValue : Z) (s : spending) : spending :=
  let amountToStake := Min64 (sub64 amount (sp_amountStaked s)) [remainingValue] in
  let remainingValue := sub64 remainingValue amountToStake in
  mkSpending
    (sp_ins s ++ [(mkTIn (utxo_UTXOID utxo) AVAXAssetID (ifLockIn locktime i), inSigners)])
    (if decide (remainingValue > 0) then sp_returnedOuts s ++ [locked_output locktime remainingValue owners]
     else sp_returnedOuts s)
    (sp_stakedOuts s ++ [locked_output locktime amountToStake owners])
    (add64 (sp_amountStaked s) amountToStake) (sp_amountBurned s).

(** Consume locked outputs; none is a nil dereference. *)
Fixpoint stake_loop (kc : Keychain) (amount : Z) (utxos : list UTXO) (s : spending) : option spending :=
  match utxos with
  | [] => Some s
  | utxo :: utxos =>
      if decide (amount ≤ sp_amountStaked s) then Some s
      else if decide (utxo_Asset utxo ≠ AVAXAssetID) then stake_loop kc amount utxos s
      else
        match utxo_Out utxo with
        | ifLockOut locktime (ifTransferOutput inner as out) =>
            if decide (locktime ≤ now) then stake_loop kc amount utxos s
            else
              match kc_Spend out now kc with
              | None => None
              | Some (Err _) => stake_loop kc amount utxos s
              | Some (Ok (i, inSigners)) =>
                  match i, iface_Amount i, inner with
                  | ifTransferInput _, Some remainingValue, Some inner =>
                      stake_loop kc amount utxos
                        (stake_locked amount utxo locktime (to_Owners inner) i inSigners remainingValue s)
                  | ifTransferInput _, _, _ => None
                  | _, _, _ => stake_loop kc amount utxos s
                  end
              end
        | _ => stake_loop kc amount utxos s
        end
  end.

Definition burn_unlocked (amount fee : Z) (changeAddr : ShortID) (utxo : UTXO) (i : iface)
    (inSigners : list PrivateKey) (remainingValue : Z) (s : spending) : spending :=
  let amountToBurn := Min64 (sub64 fee (sp_amountBurned s)) [remainingValue] in
  let remainingValue := sub64 remainingValue amountToBurn in
  let amountToStake := Min64 (sub64 amount (sp_amountStaked s)) [remainingValue] in
  let remainingValue := sub64 remainingValue amountToStake in
  mkSpending
    (sp_ins s ++ [(mkTIn (utxo_UTXOID utxo) AVAXAssetID i, inSigners)])
    (if decide (remainingValue > 0) then sp_returnedOuts s ++ [change_output remainingValue changeAddr]
     else sp_returnedOuts s)
    (if decide (amountToStake > 0) then sp_stakedOuts s ++ [change_output amountToStake changeAddr]
     else sp_stakedOuts s)
    (add64 (sp_amountStaked s) amountToStake) (add64 (sp_amountBurned s) amountToBurn).

Fixpoint burn_loop (kc : Keychain) (amount fee : Z) (changeAddr : ShortID) (utxos : list UTXO) (s : spending)
  : option spending :=
  match utxos with
  | [] => Some s
  | utxo :: utxos =>
      if decide (fee ≤ sp_amountBurned s ∧ amount ≤ sp_amountStaked s) then Some s
      else if decide (utxo_Asset utxo ≠ AVAXAssetID) then burn_loop kc amount fee changeAddr utxos s
      else
        let '(out, locktime) := split_LockOut (utxo_Out utxo) in
        if decide (locktime > now) then burn_loop kc amount fee changeAddr utxos s
        else
          match kc_Spend out now kc with
          | None => None
          | Some (Err _) => burn_loop kc amount fee changeAddr utxos s
          | Some (Ok (i, inSigners)) =>
              match i, iface_Amount i with
              | ifTransferInput _, Some remainingValue =>
                  burn_loop kc amount fee changeAddr utxos
                    (burn_unlocked amount fee changeAddr utxo i inSigners remainingValue s)
              | ifTransferInput _, None => None
              | _, _ => burn_loop kc amount fee changeAddr utxos s
              end
          end
  end.

(** The part of [Spend] after the outputs are fetched: the inputs with their keys,
    the outputs that are returned and those that are staked. *)
Definition spend_utxos (utxos : list UTXO) (keys : list PrivateKey) (amount fee : Z) (changeAddr : ShortID)
  : result spend_error (list (TransferableInput * list PrivateKey) * list TransferableOutput * list TransferableOutput) :=
  let kc := NewKeychain keys in
  match stake_loop kc amount utxos (mkSpending [] [] [] 0 0) with
  | None => Err errSpendPanic
  | Some s =>
      match burn_loop kc amount fee changeAddr utxos s with
      | None => Err errSpendPanic
      | Some s =>
          if decide (sp_amountBurned s < fee ∨ sp_amountStaked s < amount) then Err errBalance
          else Ok (SortTransferableInputsWithSigners (sp_ins s),
                   SortTransferableOutputs marshal_out (sp_returnedOuts s),
                   SortTransferableOutputs marshal_out (sp_stakedOuts s))
      end
  end.

Definition Spend {S : Type} `{!UTXOSet S} (UTXOIDs : bytes → ID → Z → option (list ID)) (utxosReader : S)
    (keys : list PrivateKey) (amount fee : Z) (changeAddr : ShortID)
  : result spend_error (list (TransferableInput * list PrivateKey) * list TransferableOutput * list TransferableOutput) :=
  match GetAllUTXOs UTXOIDs utxosReader (list_to_set (key_Address <$> keys)) with
  | None => Err errCantGetUTXOs
  | Some utxos => spend_utxos utxos keys amount fee changeAddr
  end.

(** [GetTx] is what the state answers: none on an error, and of the transaction the
    owner if it is a [CreateSubnetTx]. *)
Definition Authorize (GetTx : ID → option (option iface)) (subnetID : ID) (keys : list PrivateKey)
  : result spend_error (iface * list PrivateKey) :=
  match GetTx subnetID with
  | None => Err errFetchSubnet
  | Some None => Err errNotSubnetTx
  | Some (Some (ifOutputOwners (Some owner))) =>
      match kc_Match owner now (NewKeychain keys) with
      | None => Err errSpendPanic
      | Some (indices, signers, true) => Ok (ifInput (Some (mkInput indices)), signers)
      | Some (_, _, false) => Err errCantSign
      end
  | Some (Some (ifOutputOwners None)) => Err errSpendPanic
  | Some (Some _) => Err errNotOwners
  end.
End spend.
End handler.
