(* ===== verification/PlatformUtxoSpec.v ===== *)
(** What [VerifySpendUTXOs] checks.

    Every input consumes and every output produces an amount under a key, the
    asset and the lock: none, or a time and an owner.  The maps of the code are
    the sums of these flows.  Of each asset the inputs have to cover what the
    outputs produce without a lock and what they lock beyond the funds that were
    locked alike. *)

From S2P Require Import Prelude SafeMath Ids NodeBag Packer Database CodecTypes Codec LinkedDB GoStd Secp256k1fx Utxo PlatformUtxo.
From Stdlib Require Import Strings.Byte.

Abbreviation lock := (option (Z * ID)).
Abbreviation flow_key := (ID * option (Z * ID))%type.

(** ** Sums over keys *)

Lemma flow_sum_map {A K} `{EqDecision K} (key : A → K) (f : A → Z) (l : list A) (a : K) :
  flow_sum ((λ x, (key x, f x)) <$> l) a = sumZ (f <$> filter (λ x, key x = a) l).
Proof.
  induction l as [|x l IH]; [done|]. rewrite fmap_cons, flow_sum_cons, filter_cons. simpl.
  case_decide; [by rewrite fmap_cons, sumZ_cons, IH|]. lia.
Qed.

(** The sum of a list is the sum over the keys that occur in it. *)
Lemma flow_partition {K} `{EqDecision K} (fs : list (K * Z)) (ks : list K) :
  NoDup ks → (∀ f, f ∈ fs → f.1 ∈ ks) → sumZ (flow_sum fs <$> ks) = sumZ fs.*2.
Proof.
  intros Hnd. induction fs as [|f fs IH]; intros Hin.
  { apply sumZ_zero. done. }
  rewrite fmap_cons, sumZ_cons, <-IH by (intros; apply Hin; by right).
  rewrite (list_fmap_ext _ (λ k, (if decide (f.1 = k) then f.2 else 0) + flow_sum fs k) ks)
    by (intros; apply flow_sum_cons).
  rewrite sumZ_fmap_add. f_equal.
  rewrite (sumZ_single _ ks f.1); [by rewrite decide_True|done|apply Hin; left|].
  intros y _ Hne. by rewrite decide_False.
Qed.

Definition is_locked (k : flow_key) : Prop := k.2 ≠ None.
#[export] Instance is_locked_dec k : Decision (is_locked k).
Proof. unfold is_locked. apply _. Defined.

(** The flow of an asset, whatever the lock. *)
Definition asset_flow (f : flow_key * Z) : ID * Z := (f.1.1, f.2).
Definition asset_total (fs : list (flow_key * Z)) (a : ID) : Z := flow_sum (asset_flow <$> fs) a.

Definition locked_keys (fs : list (flow_key * Z)) : list flow_key := filter is_locked (remove_dups fs.*1).

(** What is locked beyond the funds of [cons] that were locked alike, by asset. *)
Definition increases (cons prod : list (flow_key * Z)) : list (ID * Z) :=
  (λ k, (k.1, Z.max 0 (flow_sum prod k - flow_sum cons k))) <$> locked_keys prod.

Lemma asset_total_app fs1 fs2 a : asset_total (fs1 ++ fs2) a = asset_total fs1 a + asset_total fs2 a.
Proof. unfold asset_total. by rewrite fmap_app, flow_sum_app. Qed.

Lemma locked_keys_spec fs k : k ∈ locked_keys fs ↔ is_locked k ∧ ∃ x, (k, x) ∈ fs.
Proof.
  unfold locked_keys. rewrite list_elem_of_filter, elem_of_remove_dups, list_elem_of_fmap. split.
  - intros [? [[k' x] [-> ?]]]. eauto.
  - intros [? [x ?]]. split; [done|]. by exists (k, x).
Qed.

Lemma NoDup_locked_keys fs : NoDup (locked_keys fs).
Proof. apply NoDup_filter, NoDup_remove_dups. Qed.

(** Of an asset, what is locked and what is not; any list of distinct keys that has
    the locked ones will do. *)
Lemma asset_total_split fs ks a :
  NoDup ks → Forall is_locked ks → (∀ f, f ∈ fs → is_locked f.1 → f.1 ∈ ks) →
  asset_total fs a = flow_sum fs (a, None) + flow_sum ((λ k, (k.1, flow_sum fs k)) <$> ks) a.
Proof.
  intros Hnd Hl Hin. rewrite (flow_sum_map fst (flow_sum fs) ks a).
  transitivity (sumZ (flow_sum fs <$> (a, None) :: filter (λ k, k.1 = a) ks)); [|by rewrite fmap_cons, sumZ_cons].
  assert (∀ k, k.1 = a → flow_sum fs k = flow_sum (filter (λ f, f.1.1 = a) fs) k) as Hf.
  { intros k Hk. unfold flow_sum. rewrite list_filter_filter. do 2 f_equal.
    apply list_filter_iff. intros f. split; [|tauto]. intros <-. done. }
  rewrite (Forall_fmap_ext_1 _ (flow_sum (filter (λ f, f.1.1 = a) fs))).
  2:{ constructor; [by apply Hf|]. apply Forall_forall. intros k [? _]%list_elem_of_filter. by apply Hf. }
  rewrite flow_partition.
  - apply (flow_sum_map (λ f, f.1.1) snd fs a).
  - constructor; [|by apply NoDup_filter]. intros [_ Hk]%list_elem_of_filter.
    rewrite Forall_forall in Hl. by apply (Hl _ Hk).
  - intros f [Hfa Hff]%list_elem_of_filter. destruct f as [[a' [l|]] x]; simpl in *; subst a'; [|left].
    right. apply list_elem_of_filter. split; [done|]. by apply (Hin _ Hff).
Qed.

(** ** The maps are sums of flows *)

Definition locked_lookup (m : locked_map) (assetID : ID) (locktime : Z) (ownerID : ID) : option Z :=
  asset ← m !! assetID; owners ← asset !! locktime; owners !! ownerID.

Record flows_rep (s : gmap ID Z * locked_map) (fs : list (flow_key * Z)) : Prop := mkFlowsRep {
  fr_ok : flows_ok fs;
  fr_bounded : bounded fs;
  fr_unlocked : ∀ a, amount_of s.1 a = flow_sum fs (a, None);
  fr_locked : ∀ a t o, default 0 (locked_lookup s.2 a t o) = flow_sum fs (a, Some (t, o));
  fr_keys : ∀ a t o, is_Some (locked_lookup s.2 a t o) ↔ ∃ x, ((a, Some (t, o)), x) ∈ fs;
}.

(** Add an amount under a key. *)
Definition flow_Add (k : flow_key) (amount : Z) (s : gmap ID Z * locked_map)
  : result spend_error (gmap ID Z * locked_map) :=
  match k with
  | (assetID, None) =>
      match unlocked_Add assetID amount s.1 with Err e => Err e | Ok u => Ok (u, s.2) end
  | (assetID, Some (locktime, ownerID)) =>
      match locked_Add assetID locktime ownerID amount s.2 with Err e => Err e | Ok l => Ok (s.1, l) end
  end.

Lemma locked_lookup_insert (m : locked_map) a t o x a' t' o' :
  locked_lookup (<[a := <[t := <[o := x]> (default ∅ (default ∅ (m !! a) !! t))]> (default ∅ (m !! a))]> m) a' t' o' =
  if decide ((a, t, o) = (a', t', o')) then Some x else locked_lookup m a' t' o'.
Proof.
  unfold locked_lookup. destruct (decide (a = a')) as [<-|Ha].
  2:{ rewrite lookup_insert_ne, decide_False by congruence. done. }
  rewrite lookup_insert_eq. simpl. destruct (decide (t = t')) as [<-|Ht].
  2:{ rewrite lookup_insert_ne, decide_False by congruence. by destruct (m !! a). }
  rewrite lookup_insert_eq. simpl. destruct (decide (o = o')) as [<-|Ho].
  { rewrite lookup_insert_eq, decide_True by done. done. }
  rewrite lookup_insert_ne, decide_False by congruence.
  destruct (m !! a) as [m1|]; simpl; [|done]. by destruct (m1 !! t).
Qed.

Lemma locked_at_default (m : locked_map) a t o :
  default 0 (default ∅ (default ∅ (m !! a) !! t) !! o) = default 0 (locked_lookup m a t o).
Proof.
  unfold locked_lookup. destruct (m !! a) as [m1|]; simpl; [|done]. by destruct (m1 !! t).
Qed.

Lemma bounded_snoc {K} `{EqDecision K} (fs : list (K * Z)) k x :
  bounded fs → bounded (fs ++ [(k, x)]) ↔ flow_sum fs k + x ≤ MaxUint64.
Proof.
  intros Hb. split.
  - intros Hk. specialize (Hk k). rewrite flow_sum_snoc, decide_True in Hk by done. done.
  - intros Hk k'. rewrite flow_sum_snoc. specialize (Hb k'). destruct (decide (k = k')) as [<-|]; lia.
Qed.

Lemma flow_Add_spec k x s fs :
  flows_rep s fs → is_u64 x →
  match flow_Add k x s with
  | Ok s' => flows_rep s' (fs ++ [(k, x)])
  | Err _ => ¬ bounded (fs ++ [(k, x)])
  end.
Proof.
  intros [Hok Hb Hu Hl Hk] Hx.
  assert (flows_ok (fs ++ [(k, x)])) as Hok' by (apply Forall_app; split; [done|by apply Forall_singleton]).
  assert (is_u64 (flow_sum fs k)) as Hs.
  { pose proof (flow_sum_nonneg fs k Hok). specialize (Hb k). unfold is_uint, MaxUint64 in *. lia. }
  pose proof (bounded_snoc fs k x Hb) as Hbs. destruct k as [a [[t o]|]]; cbn [flow_Add].
  - unfold locked_Add. rewrite locked_at_default, Hl, Add64_spec by done.
    case_decide; [|by rewrite Hbs]. split; cbn [fst snd]; [done|by apply Hbs| | |].
    + intros a'. rewrite flow_sum_snoc, decide_False by congruence. rewrite Z.add_0_r. apply Hu.
    + intros a' t' o'. rewrite locked_lookup_insert, flow_sum_snoc.
      destruct (decide ((a, t, o) = (a', t', o'))) as [[= <- <- <-]|Hne].
      * rewrite decide_True by done. done.
      * rewrite decide_False by congruence. rewrite Z.add_0_r. apply Hl.
    + intros a' t' o'. rewrite locked_lookup_insert. setoid_rewrite elem_of_app. setoid_rewrite list_elem_of_singleton.
      destruct (decide ((a, t, o) = (a', t', o'))) as [[= <- <- <-]|Hne].
      * split; [|done]. intros _. exists x. by right.
      * rewrite Hk. split; [intros [y ?]; exists y; by left|]. intros [y [?|[= -> -> -> _]]]; [by exists y|done].
  - unfold unlocked_Add. rewrite Hu, Add64_spec by done.
    case_decide; [|by rewrite Hbs]. split; cbn [fst snd]; [done|by apply Hbs| | |].
    + intros a'. rewrite flow_sum_snoc. unfold amount_of. rewrite lookup_insert.
      destruct (decide (a = a')) as [<-|Hne]; [by rewrite decide_True|].
      rewrite decide_False by congruence. rewrite Z.add_0_r. apply Hu.
    + intros a' t' o'. rewrite flow_sum_snoc, decide_False by congruence. rewrite Z.add_0_r. apply Hl.
    + intros a' t' o'. rewrite Hk. setoid_rewrite elem_of_app. setoid_rewrite list_elem_of_singleton.
      split; [intros [y ?]; exists y; by left|]. intros [y [?|?]]; [by exists y|done].
Qed.

(** A loop whose turns either fail or add the flow of their element. *)
Section flow_loop.
Context {A : Type} (f : A → gmap ID Z * locked_map → result spend_error (gmap ID Z * locked_map)).
Context (good : A → Prop) (flow : A → option (flow_key * Z)).

Definition adds_flow (x : A) : Prop :=
  (∃ k a, good x ∧ flow x = Some (k, a) ∧ is_u64 a ∧ ∀ s, f x s = flow_Add k a s) ∨
  (¬ (good x ∧ is_Some (flow x)) ∧ ∀ s, ∃ e, f x s = Err e).

Lemma flow_loop_adds xs s fs :
  Forall adds_flow xs → flows_rep s fs →
  match for_each f xs s with
  | Ok s' => Forall good xs ∧ ∃ fl, mapM flow xs = Some fl ∧ flows_rep s' (fs ++ fl)
  | Err _ => ¬ (Forall good xs ∧ ∃ fl, mapM flow xs = Some fl ∧ bounded (fs ++ fl))
  end.
Proof.
  intros Hxs. revert s fs. induction Hxs as [|x xs Hx Hxs IH]; intros s fs Hr; cbn [for_each].
  { split; [constructor|]. exists []. by rewrite app_nil_r. }
  destruct Hx as [(k&a&Hg&Hf&Ha&Hx)|[Hbad Hx]].
  2:{ destruct (Hx s) as [e ->]. intros [[Hg _]%Forall_cons (fl&Hm&_)]. destruct Hbad. split; [done|].
      simpl in Hm. destruct (flow x); [done|discriminate]. }
  rewrite Hx. pose proof (flow_Add_spec k a s fs Hr Ha) as Hadd.
  assert (∀ fl, mapM flow (x :: xs) = Some fl ↔ ∃ fl', mapM flow xs = Some fl' ∧ fl = (k, a) :: fl') as Hcons.
  { intros fl. simpl. rewrite Hf. simpl. destruct (mapM flow xs) as [fl'|]; simpl.
    - split; [intros [= <-]; by exists fl'|]. by intros (?&[= <-]&->).
    - split; [done|]. by intros (?&?&_). }
  destruct (flow_Add k a s) as [s'|e].
  - specialize (IH s' _ Hadd). destruct (for_each f xs s') as [s''|e].
    + destruct IH as [Hgs (fl&Hm&Hr')]. split; [by constructor|]. exists ((k, a) :: fl). rewrite Hcons.
      rewrite <-app_assoc in Hr'. split; [by exists fl|done].
    + intros [[_ Hgs]%Forall_cons (fl&Hm&Hb)]. apply IH. split; [done|].
      apply Hcons in Hm as (fl'&Hm&->). exists fl'. by rewrite <-app_assoc.
  - intros [[_ Hgs]%Forall_cons (fl&Hm&Hb)]. apply Hadd. apply Hcons in Hm as (fl'&Hm&->).
    rewrite cons_middle, app_assoc in Hb. eapply bounded_app; [|exact Hb].
    clear -Hxs Hgs Hm. revert fl' Hm. induction Hxs as [|x xs Hx Hxs IH]; intros fl' Hm.
    { injection Hm as <-. constructor. }
    apply Forall_cons in Hgs as [Hg Hgs]. simpl in Hm.
    destruct Hx as [(k&a&_&Hf&Ha&_)|[Hbad _]].
    + rewrite Hf in Hm. simpl in Hm. destruct (mapM flow xs) as [fl|]; [|done]. injection Hm as <-.
      constructor; [done|]. by apply IH.
    + destruct Hbad. split; [done|]. by destruct (flow x).
Qed.
End flow_loop.

(** ** The inputs and the outputs *)

Section flows.
Context `{Crypto} `{GoRange, GoSort, GoAppend} (Implements : gotype → positive → bool) (registered : linearCodec).
Context (fx : Fx) (now : Z).
Abbreviation owner_id := (ownerID Implements registered).

(** The lock of an output, none when its owner cannot be identified. *)
Definition lock_of (unlocked : Prop) `{Decision unlocked} (out : iface) (locktime : Z) : option lock :=
  if decide unlocked then Some None
  else owner ← Owners out; match owner_id owner with Ok id => Some (Some (locktime, id)) | Err _ => None end.

(** An output that is consumed is not locked once its time has come. *)
Definition consumed_flow (utxo : UTXO) : option (flow_key * Z) :=
  let '(out, locktime) := split_LockOut (utxo_Out utxo) in
  lock ← lock_of (locktime ≤ now) out locktime; amount ← iface_Amount out;
  Some ((utxo_Asset utxo, lock), amount).

Definition produced_flow (out : TransferableOutput) : option (flow_key * Z) :=
  let '(output, locktime) := split_LockOut (tout_Out out) in
  lock ← lock_of (locktime = 0) output locktime; amount ← iface_Amount output;
  Some ((tout_Asset out, lock), amount).

(** The input names the asset and the lock of the output, and the feature
    extension lets it be spent. *)
Definition input_ok (tx : iface) (x : UTXO * TransferableInput * iface) : Prop :=
  let '(utxo, input, cred) := x in
  let '(out, locktime) := split_LockOut (utxo_Out utxo) in
  utxo_Asset utxo = tin_Asset input ∧
  ∃ i, unwrap_LockIn now locktime (tin_In input) = Ok i ∧ VerifyTransfer fx now tx i cred out = Ok tt.

Lemma VerifyTransfer_inv tx i cred out :
  VerifyTransfer fx now tx i cred out = Ok tt →
  ∃ pi po, i = ifTransferInput (Some pi) ∧ out = ifTransferOutput (Some po) ∧ ti_Amt pi = to_Amt po.
Proof.
  unfold VerifyTransfer. destruct tx; try done. destruct i as [| | |pi| | | | | | | |]; try done.
  destruct cred as [| | | |pc| | | | | | |]; try done. destruct out as [| | | | | |po| | | | |]; try done.
  unfold fx_VerifySpend. destruct po as [po|]; [|done].
  destruct (verify_All _) as [[]|]; [|done]. destruct pi as [pi|]; [|done]. destruct pc; [|done].
  case_decide as Hd; [done|]. intros _. exists pi, po. split_and!; [done|done|lia].
Qed.

Definition amount_ok (o : iface) : Prop := ∀ x, iface_Amount o = Some x → is_u64 x.

Lemma amount_ok_split o : amount_ok o → amount_ok (split_LockOut o).1.
Proof. by destruct o. Qed.

Lemma spend_input_adds tx x :
  amount_ok (utxo_Out x.1.1) →
  adds_flow (spend_input Implements registered fx now tx) (input_ok tx) (λ x, consumed_flow x.1.1) x.
Proof.
  destruct x as [[utxo input] cred]. simpl. intros Ha%amount_ok_split. unfold adds_flow, spend_input, input_ok, consumed_flow. simpl.
  destruct (split_LockOut (utxo_Out utxo)) as [out locktime]. simpl in Ha.
  destruct (decide (utxo_Asset utxo = tin_Asset input)) as [Hasset|Hasset].
  2:{ right. split; [by intros [[? _] _]|]. intros [u l]. exists errWrongAsset. by rewrite decide_True. }
  destruct (unwrap_LockIn now locktime (tin_In input)) as [i|e].
  2:{ right. split; [by intros [[_ (?&[= <-]&?)] _]; congruence|]. intros [u l]. exists e. by rewrite decide_False by tauto. }
  destruct (VerifyTransfer fx now tx i cred out) as [[]|e] eqn:Ev.
  2:{ right. split; [by intros [[_ (?&[= <-]&?)] _]; congruence|]. intros [u l]. exists (errSpendFx e). by rewrite decide_False by tauto. }
  destruct (VerifyTransfer_inv _ _ _ _ Ev) as (pi&po&->&->&Hamt). specialize (Ha (to_Amt po) eq_refl).
  unfold lock_of. simpl. rewrite Hamt. destruct (decide (locktime ≤ now)) as [Hle|Hle].
  - left. exists (utxo_Asset utxo, None), (to_Amt po). split; [by eauto|]. split; [done|]. split; [done|].
    intros [u l]. rewrite decide_False by tauto. done.
  - simpl. destruct (owner_id (to_Owners po)) as [id|e]; simpl.
    + left. exists (utxo_Asset utxo, Some (locktime, id)), (to_Amt po). split; [by eauto|]. split; [done|].
      split; [done|]. intros [u l]. rewrite decide_False by tauto. done.
    + right. split; [by intros [_ [? ?]]|]. intros [u l]. exists e. by rewrite decide_False by tauto.
Qed.

Lemma spend_output_adds out :
  amount_ok (tout_Out out) → adds_flow (spend_output Implements registered) (λ _, True) produced_flow out.
Proof.
  intros Ha%amount_ok_split. unfold adds_flow, spend_output, produced_flow.
  destruct (split_LockOut (tout_Out out)) as [output locktime]. simpl in Ha.
  destruct (iface_Amount output) as [amount|] eqn:Eamt.
  2:{ right. split; [|intros [u l]; by eexists]. intros [_ [? ?]]. by destruct (lock_of _ _ _). }
  specialize (Ha _ Eamt). unfold lock_of. destruct (decide (locktime = 0)) as [Hz|Hz].
  - left. exists (tout_Asset out, None), amount. split; [done|]. split; [done|]. split; [done|].
    by intros [u l].
  - destruct (Owners output) as [owner|]; simpl.
    2:{ right. split; [by intros [_ [? ?]]|]. intros [u l]. by eexists. }
    destruct (owner_id owner) as [id|e]; simpl.
    + left. exists (tout_Asset out, Some (locktime, id)), amount. split; [done|]. split; [done|]. split; [done|].
      by intros [u l].
    + right. split; [by intros [_ [? ?]]|]. intros [u l]. by eexists.
Qed.
End flows.

(** ** The locked funds *)

Section locked.
Context `{GoRange}.

Lemma for_each_app {A St E} (f : A → St → result E St) l1 l2 s :
  for_each f (l1 ++ l2) s = match for_each f l1 s with Err e => Err e | Ok s => for_each f l2 s end.
Proof. revert s. induction l1 as [|x l1 IH]; intros s; [done|]. simpl. destruct (f x s); [apply IH|done]. Qed.

(** Nested loops are a loop over all the inner elements. *)
Lemma for_each_bind {A B St E} (g : A → list B) (f : B → St → result E St) (l : list A) s :
  for_each f (l ≫= g) s = for_each (λ x, for_each f (g x)) l s.
Proof.
  revert s. induction l as [|x l IH]; intros s; [done|]. rewrite bind_cons, for_each_app. simpl.
  by destruct (for_each f (g x) s).
Qed.

Lemma fmap_bind {A B C} (g : A → list B) (h : B → C) (l : list A) :
  h <$> (l ≫= g) = l ≫= λ x, h <$> g x.
Proof. induction l as [|x l IH]; [done|]. by rewrite !bind_cons, fmap_app, IH. Qed.

Lemma for_each_ext {A St E} (f g : A → St → result E St) l s :
  (∀ x s, f x s = g x s) → for_each f l s = for_each g l s.
Proof.
  intros Hfg. revert s. induction l as [|x l IH]; intros s; [done|]. simpl. rewrite Hfg.
  destruct (g x s); [apply IH|done].
Qed.

(** The entries of the nested maps, in the order of the loops. *)
Definition locked_entries (m : locked_map) : list (flow_key * Z) :=
  x ← go_range m; y ← go_range x.2; z ← go_range y.2; [((x.1, Some (y.1, z.1)), z.2)].

Lemma elem_of_locked_entries m k x :
  (k, x) ∈ locked_entries m ↔ ∃ a t o, k = (a, Some (t, o)) ∧ locked_lookup m a t o = Some x.
Proof.
  unfold locked_entries, locked_lookup. split.
  - intros ([a m1]&([t m2]&([o y]&Hin&Ho)%list_elem_of_bind&Ht)%list_elem_of_bind&Ha)%list_elem_of_bind.
    apply list_elem_of_singleton in Hin as [= -> ->]. apply elem_of_go_range in Ha, Ht, Ho. simpl in *.
    exists a, t, o. rewrite Ha. simpl. rewrite Ht. done.
  - intros (a&t&o&->&(m1&Ha&(m2&Ht&Ho)%bind_Some)%bind_Some).
    apply list_elem_of_bind. exists (a, m1). split; [|by apply elem_of_go_range].
    apply list_elem_of_bind. exists (t, m2). split; [|by apply elem_of_go_range].
    apply list_elem_of_bind. exists (o, x). split; [|by apply elem_of_go_range]. by apply list_elem_of_singleton.
Qed.

Lemma NoDup_bind_key {A B K} (g : A → list B) (key : A → K) (key' : B → K) (l : list A) :
  (∀ x y, x ∈ l → y ∈ g x → key' y = key x) → NoDup (key <$> l) → (∀ x, x ∈ l → NoDup (g x)) →
  NoDup (l ≫= g).
Proof.
  induction l as [|x l IH]; intros Hk Hnd Hg; [constructor|]. rewrite bind_cons.
  apply NoDup_cons in Hnd as [Hx Hnd]. apply NoDup_app. split_and!.
  - apply Hg. left.
  - intros y Hy (x'&Hy'&Hx')%list_elem_of_bind. apply Hx. apply list_elem_of_fmap. exists x'. split; [|done].
    rewrite <-(Hk x y), (Hk x' y); [done|by right|done|left|done].
  - apply IH; [intros; apply Hk; [by right|done]|done|intros; apply Hg; by right].
Qed.

Lemma NoDup_locked_entries m : NoDup (locked_entries m).*1.
Proof.
  unfold locked_entries.
  assert (∀ l : list (ID * gmap Z (gmap ID Z)), (l ≫= λ x, go_range x.2 ≫= λ y, go_range y.2 ≫= λ z,
    [((x.1, Some (y.1, z.1)), z.2)]).*1 =
    l ≫= λ x, go_range x.2 ≫= λ y, (λ z, (x.1, Some (y.1, z.1))) <$> go_range y.2) as ->.
  { intros l. rewrite fmap_bind. apply list_bind_ext; [|done]. intros x. simpl.
    rewrite fmap_bind. apply list_bind_ext; [|done]. intros y. simpl. rewrite fmap_bind.
    induction (go_range y.2) as [|z zs IH]; [done|]. rewrite bind_cons, fmap_cons, IH. done. }
  apply (NoDup_bind_key _ fst fst).
  - intros x k _ (y&(z&->&_)%list_elem_of_fmap&_)%list_elem_of_bind. done.
  - apply NoDup_fst_go_range.
  - intros x _. apply (NoDup_bind_key _ (λ y, Some y.1) (λ k, fst <$> k.2)).
    + intros y k _ (z&->&_)%list_elem_of_fmap. done.
    + change (λ y, Some y.1) with (Some ∘ fst : Z * gmap ID Z → option Z).
      rewrite list_fmap_compose. apply NoDup_fmap_2; [apply _|]. apply NoDup_fst_go_range.
    + intros y _. change (λ z : ID * Z, (x.1, Some (y.1, z.1))) with ((λ o, (x.1, Some (y.1, o))) ∘ fst (A := ID) (B := Z)).
      rewrite list_fmap_compose. apply NoDup_fmap_2; [|apply NoDup_fst_go_range]. by intros o1 o2 [= ->].
Qed.

(** One turn of the innermost loop, on an entry. *)
Definition lock_entry (lockedConsumed : locked_map) (f : flow_key * Z) (u : gmap ID Z)
  : result spend_error (gmap ID Z) :=
  match f with
  | ((a, Some (t, o)), x) => lock_owner a (default ∅ (default ∅ (lockedConsumed !! a) !! t)) (o, x) u
  | _ => Ok u
  end.

Lemma lock_loops lc lp u :
  for_each (lock_asset lc) (go_range lp) u = for_each (lock_entry lc) (locked_entries lp) u.
Proof.
  unfold locked_entries. rewrite for_each_bind. apply for_each_ext. intros [a m1] v.
  rewrite for_each_bind. apply for_each_ext. intros [t m2] w.
  rewrite for_each_bind. apply for_each_ext. intros [o x] z. simpl.
  by destruct (decide (_ > _)); [destruct (decide (_ > _))|].
Qed.

Definition locked_amount (m : locked_map) (k : flow_key) : Z :=
  match k with (a, Some (t, o)) => default 0 (locked_lookup m a t o) | (_, None) => 0 end.

Definition entry_increase (lc : locked_map) (f : flow_key * Z) : ID * Z :=
  (f.1.1, Z.max 0 (f.2 - locked_amount lc f.1)).

Lemma lock_entries_spec lc es u :
  (∀ a, 0 ≤ amount_of u a) → Forall (λ f, is_locked f.1) es →
  match for_each (lock_entry lc) es u with
  | Ok u' => ∀ a, amount_of u' a = amount_of u a - flow_sum (entry_increase lc <$> es) a ∧ 0 ≤ amount_of u' a
  | Err _ => ∃ a, amount_of u a < flow_sum (entry_increase lc <$> es) a
  end.
Proof.
  intros Hu Hes. revert u Hu. induction Hes as [|[[a l] x] es Hl Hes IH]; intros u Hu; cbn [for_each].
  { intros a. specialize (Hu a). change (flow_sum _ _) with 0. lia. }
  rewrite fmap_cons. destruct l as [[t o]|]; [|done]. cbn [lock_entry]. unfold lock_owner.
  change (amount_of (default ∅ (default ∅ (lc !! a) !! t)) o) with
    (default 0 (default ∅ (default ∅ (lc !! a) !! t) !! o)). rewrite (locked_at_default lc a t o).
  assert (0 ≤ flow_sum (entry_increase lc <$> es) a) as Hnn.
  { clear. induction es as [|f es IH]; [done|]. rewrite fmap_cons, flow_sum_cons. simpl. case_decide; lia. }
  set (c := default 0 (locked_lookup lc a t o)) in *.
  assert (∀ b, flow_sum (entry_increase lc ((a, Some (t, o)), x) :: (entry_increase lc <$> es)) b =
    (if decide (a = b) then Z.max 0 (x - c) else 0) + flow_sum (entry_increase lc <$> es) b) as Hs
    by (intros b; apply flow_sum_cons).
  case_decide as Hd.
  - case_decide as Hi.
    { exists a. rewrite Hs, decide_True by done. lia. }
    specialize (IH (<[a := amount_of u a - (x - c)]> u)).
    assert (∀ b, amount_of (<[a := amount_of u a - (x - c)]> u) b = amount_of u b - if decide (a = b) then x - c else 0) as Ha.
    { intros b. unfold amount_of. rewrite lookup_insert. destruct (decide (a = b)) as [<-|]; simpl; lia. }
    destruct (for_each _ es _) as [u'|e].
    + intros b. rewrite Hs. destruct (IH ltac:(intros b'; rewrite Ha; specialize (Hu b'); destruct (decide (a = b')) as [<-|]; lia) b) as [-> ?].
      split; [|done]. rewrite Ha. case_decide; lia.
    + destruct IH as [b Hb]; [intros b'; rewrite Ha; specialize (Hu b'); destruct (decide (a = b')) as [<-|]; lia|].
      exists b. rewrite Hs. rewrite Ha in Hb. case_decide; lia.
  - specialize (IH u Hu). destruct (for_each _ es _) as [u'|e].
    + intros b. rewrite Hs. destruct (IH b) as [-> ?]. split; [|done]. case_decide; lia.
    + destruct IH as [b Hb]. exists b. rewrite Hs. case_decide; lia.
Qed.

Lemma entries_increases uc lc up lp cons prod a :
  flows_rep (uc, lc) cons → flows_rep (up, lp) prod →
  flow_sum (entry_increase lc <$> locked_entries lp) a = flow_sum (increases cons prod) a.
Proof.
  intros [_ _ _ Hlc _] [_ _ _ Hlp Hkp]. simpl in *.
  assert (∀ f, f ∈ locked_entries lp → entry_increase lc f = (f.1.1, Z.max 0 (flow_sum prod f.1 - flow_sum cons f.1))) as He.
  { intros [k x] (a'&t&o&->&Hl)%elem_of_locked_entries. unfold entry_increase. simpl.
    by rewrite Hlc, <-(Hlp a' t o), Hl. }
  rewrite (Forall_fmap_ext_1 _ (λ f, (f.1.1, Z.max 0 (flow_sum prod f.1 - flow_sum cons f.1)))) by (by apply Forall_forall).
  unfold increases.
  assert (locked_keys prod ≡ₚ (locked_entries lp).*1) as ->.
  { apply NoDup_Permutation; [apply NoDup_locked_keys|apply NoDup_locked_entries|]. intros k.
    rewrite locked_keys_spec, list_elem_of_fmap. split.
    - intros [Hk Hx]. destruct k as [a' [[t o]|]]; [|done]. apply Hkp in Hx as [x Hx].
      exists ((a', Some (t, o)), x). split; [done|]. apply elem_of_locked_entries. eauto 6.
    - intros ([k' x]&->&(a'&t&o&->&Hl)%elem_of_locked_entries). split; [done|]. apply Hkp. by eexists. }
  by rewrite <-list_fmap_compose.
Qed.
End locked.

(** ** The whole check *)

Lemma flows_rep_empty : flows_rep (∅, ∅) [].
Proof.
  split; simpl; try done.
  - constructor.
  - intros a t o. unfold locked_lookup. rewrite lookup_empty. simpl. split; [by intros [? ?]|]. by intros [? ?%not_elem_of_nil].
Qed.

(** The fee: what is produced before the outputs. *)
Definition fee_flows (m : gmap ID Z) : list (flow_key * Z) := (λ p, ((p.1, None), p.2)) <$> map_to_list m.
Definition fee_ok (m : gmap ID Z) : Prop := ∀ a, is_u64 (amount_of m a).

Lemma fee_flows_unlocked m a : flow_sum (fee_flows m) (a, None) = amount_of m a.
Proof.
  unfold fee_flows. rewrite (flow_sum_map (λ p : ID * Z, (p.1, None) : flow_key) snd). unfold amount_of.
  destruct (m !! a) as [x|] eqn:E; simpl.
  - assert (filter (λ p, ((p.1, None) : flow_key) = (a, None)) (map_to_list m) ≡ₚ [(a, x)]) as ->; [|rewrite fmap_cons, sumZ_cons; apply Z.add_0_r].
    apply NoDup_Permutation; [apply NoDup_filter, NoDup_map_to_list|apply NoDup_singleton|].
    intros [a' x']. rewrite list_elem_of_filter, elem_of_map_to_list, list_elem_of_singleton. simpl. split.
    + intros [[= ->] ?]. congruence.
    + intros [= -> ->]. done.
  - apply sumZ_zero. intros [a' x'] [Ha Hx%elem_of_map_to_list]%list_elem_of_filter. simpl in Ha. congruence.
Qed.

Lemma fee_flows_locked m a l : flow_sum (fee_flows m) (a, Some l) = 0.
Proof.
  unfold fee_flows. rewrite (flow_sum_map (λ p : ID * Z, (p.1, None) : flow_key) snd). apply sumZ_zero.
  intros p [Ha _]%list_elem_of_filter. done.
Qed.

Lemma flows_rep_fee m : fee_ok m → flows_rep (m, ∅) (fee_flows m).
Proof.
  intros Hm. split; simpl.
  - apply Forall_fmap, Forall_forall. intros [a x] Hx%elem_of_map_to_list. specialize (Hm a).
    unfold amount_of in Hm. by rewrite Hx in Hm.
  - intros [a [l|]]; [rewrite fee_flows_locked; unfold MaxUint64; lia|]. rewrite fee_flows_unlocked.
    specialize (Hm a). unfold is_uint, MaxUint64 in *. lia.
  - intros a. by rewrite fee_flows_unlocked.
  - intros a t o. by rewrite fee_flows_locked.
  - intros a t o. unfold locked_lookup. rewrite lookup_empty. simpl. split; [by intros [? ?]|].
    intros [x (p&?&_)%list_elem_of_fmap]. done.
Qed.

Section verify_spend.
Context `{Crypto} `{GoRange, GoSort, GoAppend} (Implements : gotype → positive → bool) (registered : linearCodec).
Context (fx : Fx) (now : Z).
Abbreviation consumed := (consumed_flow Implements registered now).
Abbreviation produced := (produced_flow Implements registered).

(** Without overflow, the funds that are consumed cover those that are produced:
    those without a lock, and those locked beyond what was locked alike. *)
Definition covered (cons prod : list (flow_key * Z)) : Prop :=
  bounded cons ∧ bounded prod ∧
  ∀ a, flow_sum prod (a, None) + flow_sum (increases cons prod) a ≤ flow_sum cons (a, None).

Record spends (tx : iface) (utxos : list UTXO) (ins : list TransferableInput) (outs : list TransferableOutput)
    (creds : list iface) (fee : gmap ID Z) (cons prod : list (flow_key * Z)) : Prop := mkSpends {
  sp_creds : length ins = length creds;
  sp_utxos : length ins = length utxos;
  sp_creds_ok : Forall (λ cred, iface_Verify cred = Ok tt) creds;
  sp_ins_ok : Forall (input_ok fx now tx) (zip (zip utxos ins) creds);
  sp_cons : mapM consumed utxos = Some cons;
  sp_prod : mapM produced outs = Some prod;
  sp_covered : covered cons (fee_flows fee ++ prod);
}.

Lemma verify_creds_spec creds :
  match for_each verify_creds creds tt with
  | Ok _ => Forall (λ cred, iface_Verify cred = Ok tt) creds
  | Err _ => ¬ Forall (λ cred, iface_Verify cred = Ok tt) creds
  end.
Proof.
  induction creds as [|c creds IH]; cbn [for_each]; [constructor|]. unfold verify_creds at 1.
  destruct (iface_Verify c) as [[]|e] eqn:E.
  - destruct (for_each _ creds tt); [by constructor|]. by intros [_ ?]%Forall_cons.
  - intros [? _]%Forall_cons. congruence.
Qed.

Lemma unlocked_asset_spec u l :
  match for_each (unlocked_asset u) l tt with
  | Ok _ => Forall (λ p, p.2 ≤ amount_of u p.1) l
  | Err _ => ¬ Forall (λ p, p.2 ≤ amount_of u p.1) l
  end.
Proof.
  induction l as [|[a x] l IH]; cbn [for_each]; [constructor|]. unfold unlocked_asset at 1. case_decide.
  - intros [? _]%Forall_cons. simpl in *. lia.
  - destruct (for_each _ l tt); [constructor; [simpl; lia|done]|]. by intros [_ ?]%Forall_cons.
Qed.

Lemma mapM_zip_fst {A B C} (f : A → option C) (l : list A) (k : list B) :
  length l = length k → mapM (λ x, f x.1) (zip l k) = mapM f l.
Proof.
  revert k. induction l as [|x l IH]; intros [|y k] Hl; try done. simpl. by rewrite IH by (simpl in Hl; lia).
Qed.

(** The three parts of the check: the inputs, the outputs, the comparison. *)
Lemma spend_inputs_spec tx utxos ins creds :
  length ins = length creds → length ins = length utxos → Forall (λ u, amount_ok (utxo_Out u)) utxos →
  match for_each (spend_input Implements registered fx now tx) (zip (zip utxos ins) creds) (∅, ∅) with
  | Ok s => Forall (input_ok fx now tx) (zip (zip utxos ins) creds) ∧
      ∃ cons, mapM consumed utxos = Some cons ∧ flows_rep s cons
  | Err _ => ¬ (Forall (input_ok fx now tx) (zip (zip utxos ins) creds) ∧
      ∃ cons, mapM consumed utxos = Some cons ∧ bounded cons)
  end.
Proof.
  intros Hl1 Hl2 Hut.
  assert (Forall (adds_flow (spend_input Implements registered fx now tx) (input_ok fx now tx)
    (λ x, consumed x.1.1)) (zip (zip utxos ins) creds)) as Hadd.
  { apply Forall_forall. intros [[u i] c] Hx. apply spend_input_adds. simpl.
    apply elem_of_zip_l, elem_of_zip_l in Hx. rewrite Forall_forall in Hut. by apply Hut. }
  pose proof (flow_loop_adds _ _ _ _ _ _ Hadd flows_rep_empty) as Hin.
  rewrite (mapM_zip_fst (λ x, consumed x.1)), mapM_zip_fst in Hin by (rewrite ?length_zip_with; lia). exact Hin.
Qed.

Lemma spend_outputs_spec outs fee :
  Forall (λ o, amount_ok (tout_Out o)) outs → fee_ok fee →
  match for_each (spend_output Implements registered) outs (fee, ∅) with
  | Ok s => ∃ prod, mapM produced outs = Some prod ∧ flows_rep s (fee_flows fee ++ prod)
  | Err _ => ¬ ∃ prod, mapM produced outs = Some prod ∧ bounded (fee_flows fee ++ prod)
  end.
Proof.
  intros Hot Hfee.
  assert (Forall (adds_flow (spend_output Implements registered) (λ _, True) produced) outs) as Hadd.
  { eapply Forall_impl; [exact Hot|]. intros o. apply spend_output_adds. }
  pose proof (flow_loop_adds _ _ _ _ _ _ Hadd (flows_rep_fee fee Hfee)) as Hout.
  destruct (for_each (spend_output _ _) _ _); [by destruct Hout|].
  intros Hp. apply Hout. split; [by apply Forall_true|done].
Qed.

Lemma rep_unlocked_nonneg s fs a : flows_rep s fs → 0 ≤ amount_of s.1 a.
Proof. intros Hr. rewrite (fr_unlocked _ _ Hr). apply flow_sum_nonneg, (fr_ok _ _ Hr). Qed.

Lemma settle_spec s cons s' prod :
  flows_rep s cons → flows_rep s' prod →
  let covers := ∀ a, flow_sum prod (a, None) + flow_sum (increases cons prod) a ≤ flow_sum cons (a, None) in
  match for_each (lock_asset s.2) (go_range s'.2) s.1 with
  | Err _ => ¬ covers
  | Ok u =>
      match for_each (unlocked_asset u) (go_range s'.1) tt with Ok _ => covers | Err _ => ¬ covers end
  end.
Proof.
  destruct s as [uc lc], s' as [up lp]. intros Hrc Hrp covers. simpl. rewrite lock_loops.
  assert (Forall (λ f, is_locked f.1) (locked_entries lp)) as Hle.
  { apply Forall_forall. intros [k x] (?&?&?&->&_)%elem_of_locked_entries. done. }
  pose proof (lock_entries_spec lc (locked_entries lp) uc (λ a, rep_unlocked_nonneg _ _ a Hrc) Hle) as Hlk.
  assert (covers ↔ ∀ a, amount_of up a + flow_sum (entry_increase lc <$> locked_entries lp) a ≤ amount_of uc a) as Hcov.
  { unfold covers. setoid_rewrite (entries_increases _ _ _ _ _ _ _ Hrc Hrp).
    pose proof (fr_unlocked _ _ Hrc) as Hu. pose proof (fr_unlocked _ _ Hrp) as Hu'. simpl in Hu, Hu'.
    by setoid_rewrite Hu; setoid_rewrite Hu'. }
  destruct (for_each (lock_entry lc) (locked_entries lp) uc) as [uc'|e].
  2:{ intros Hc. rewrite Hcov in Hc. destruct Hlk as [a Ha]. specialize (Hc a). pose proof (rep_unlocked_nonneg _ _ a Hrp).
      unfold fst in *. lia. }
  pose proof (unlocked_asset_spec uc' (go_range up)) as Hun.
  assert (Forall (λ p, p.2 ≤ amount_of uc' p.1) (go_range up) ↔ ∀ a, amount_of up a ≤ amount_of uc' a) as Hall.
  { rewrite Forall_forall. split.
    - intros Hf a. unfold amount_of at 1. destruct (up !! a) as [x|] eqn:E; simpl; [|apply (Hlk a)].
      by apply (Hf (a, x)), elem_of_go_range.
    - intros Hf [a x] Hx%elem_of_go_range. specialize (Hf a). unfold amount_of at 1 in Hf. by rewrite Hx in Hf. }
  destruct (for_each (unlocked_asset uc') _ tt) as [[]|]; rewrite Hall in Hun.
  - apply Hcov. intros b. specialize (Hun b). destruct (Hlk b). lia.
  - intros Hc. rewrite Hcov in Hc. apply Hun. intros a. specialize (Hc a). destruct (Hlk a). lia.
Qed.

Lemma VerifySpendUTXOs_spec tx utxos ins outs creds fee :
  Forall (λ u, amount_ok (utxo_Out u)) utxos → Forall (λ o, amount_ok (tout_Out o)) outs → fee_ok fee →
  match VerifySpendUTXOs Implements registered fx now tx utxos ins outs creds fee with
  | Ok unlockedProduced => ∃ cons prod, spends tx utxos ins outs creds fee cons prod ∧
      ∀ a, amount_of unlockedProduced a = amount_of fee a + flow_sum prod (a, None)
  | Err _ => ∀ cons prod, ¬ spends tx utxos ins outs creds fee cons prod
  end.
Proof.
  intros Hut Hot Hfee. unfold VerifySpendUTXOs.
  case_decide as Hl1; [by intros ? ? []|]. case_decide as Hl2; [by intros ? ? []|].
  assert (length ins = length creds) as Hl1' by lia. assert (length ins = length utxos) as Hl2' by lia. clear Hl1 Hl2.
  pose proof (verify_creds_spec creds) as Hcr. destruct (for_each verify_creds creds tt) as [[]|e]; [|by intros ? ? []].
  pose proof (spend_inputs_spec tx utxos ins creds Hl1' Hl2' Hut) as Hin.
  destruct (for_each (spend_input _ _ _ _ _) _ _) as [[uc lc]|e].
  2:{ intros cons prod [_ _ _ Hi Hc _ [Hb _]]. apply Hin. eauto. }
  destruct Hin as [Hi (cons&Hc&Hrc)]. pose proof (spend_outputs_spec outs fee Hot Hfee) as Hout.
  destruct (for_each (spend_output _ _) _ _) as [[up lp]|e].
  2:{ intros cons' prod [_ _ _ _ _ Hp (_&Hb&_)]. apply Hout. eauto. }
  destruct Hout as (prod&Hp&Hrp). pose proof (settle_spec _ _ _ _ Hrc Hrp) as Hs. simpl in Hs.
  assert (∀ cons' prod', spends tx utxos ins outs creds fee cons' prod' → ∀ a,
    flow_sum (fee_flows fee ++ prod) (a, None) + flow_sum (increases cons (fee_flows fee ++ prod)) a ≤
    flow_sum cons (a, None)) as Hno.
  { intros cons' prod' [_ _ _ _ Hc' Hp' (_&_&Hcov)]. assert (cons' = cons) as -> by congruence.
    assert (prod' = prod) as -> by congruence. exact Hcov. }
  destruct (for_each (lock_asset lc) _ uc) as [uc'|e]; [|intros ? ? Hsp; by apply Hs, (Hno _ _ Hsp)].
  destruct (for_each (unlocked_asset uc') _ tt) as [[]|e]; [|intros ? ? Hsp; by apply Hs, (Hno _ _ Hsp)].
  exists cons, prod. split.
  - split; try done. split; [apply (fr_bounded _ _ Hrc)|]. split; [apply (fr_bounded _ _ Hrp)|done].
  - intros a. rewrite <-(fee_flows_unlocked fee a), <-flow_sum_app. apply (fr_unlocked _ _ Hrp).
Qed.
End verify_spend.
