(* ===== verification/PlatformUtxoSafety.v ===== *)
(** Transactions do not create funds.

    The set of unspent outputs is any implementation of [UTXOSet], among them the
    layers of changes that blocks put on the state of their parents ([diff]).  A
    transaction that [VerifySpend] accepts leaves, once [Consume] and [Produce] have
    applied it, at most the supply that was there less its fee. *)

From S2P Require Import Prelude SafeMath Ids NodeBag Packer Database CodecTypes Codec LinkedDB GoStd Secp256k1fx Utxo PlatformUtxo PlatformUtxoSpec.
From Stdlib Require Import Strings.Byte.

(** ** A diff is a set of unspent outputs *)

Section diff_laws.
Context `{Crypto} {P : Type} `{!UTXOSet P} `{!UTXOSetLaws P}.

(** What the diff changes, over the state of its parent. *)
Definition overlay (m : gmap ID (option UTXO)) (base : gmap ID UTXO) : gmap ID UTXO :=
  merge (λ x y, match x with Some u => u | None => y end) m base.

Lemma lookup_diff_overlay m base id : overlay m base !! id = match m !! id with Some u => u | None => base !! id end.
Proof. unfold overlay. rewrite lookup_merge. by destruct (m !! id) as [[]|], (base !! id). Qed.

Definition diff_view (d : diff P) : gmap ID UTXO :=
  overlay (modifiedUTXOs d) (match parentState d with Some p => utxo_view p | None => ∅ end).

#[export] Instance diff_UTXOSetLaws : UTXOSetLaws (diff P).
Proof.
  refine {| utxo_view := diff_view |}.
  - intros id [m p]. unfold diff_view. rewrite lookup_diff_overlay. simpl. unfold diff_GetUTXO. simpl.
    destruct (m !! id); [done|]. destruct p; [apply get_view|]. by rewrite lookup_empty.
  - intros u [m p]. unfold diff_view. simpl. apply map_eq. intros id.
    rewrite lookup_diff_overlay, !lookup_insert, lookup_diff_overlay. by case_decide.
  - intros id' [m p]. unfold diff_view. simpl. apply map_eq. intros id.
    rewrite lookup_diff_overlay, lookup_insert, lookup_delete, lookup_diff_overlay. by case_decide.
Defined.

(** Added outputs are stored under their identifiers. *)
Definition diff_ok (d : diff P) : Prop :=
  ∀ id u, modifiedUTXOs d !! id = Some (Some u) → id = utxo_InputID u.

Lemma diff_AddUTXO_ok u d : diff_ok d → diff_ok (diff_AddUTXO u d).
Proof. intros Hd id u'. simpl. intros [[<- [= <-]]|[_ ?]]%lookup_insert_Some; [done|]. by apply Hd. Qed.

Lemma diff_DeleteUTXO_ok id d : diff_ok d → diff_ok (diff_DeleteUTXO id d).
Proof. intros Hd id' u. simpl. intros [[_ [=]]|[_ ?]]%lookup_insert_Some. by apply Hd. Qed.

Lemma apply_UTXOs_view l base id :
  NoDup l.*1 → (∀ id u, (id, Some u) ∈ l → id = utxo_InputID u) →
  utxo_view (foldl apply_UTXO base l) !! id =
    match (list_to_map l : gmap ID (option UTXO)) !! id with Some u => u | None => utxo_view base !! id end.
Proof.
  revert base. induction l as [|[k o] l IH]; intros base Hnd Hl; [done|].
  apply NoDup_cons in Hnd as [Hk Hnd]. cbn [foldl]. rewrite IH; [|done|intros; apply Hl; by right].
  cbn [list_to_map foldr]. change (foldr _ ∅ l) with (list_to_map l : gmap ID (option UTXO)).
  destruct (decide (k = id)) as [<-|Hne]; [rewrite lookup_insert_eq|rewrite lookup_insert_ne by done].
  - rewrite (not_elem_of_list_to_map_1 l k) by done. destruct o as [u|]; simpl.
    + rewrite add_view, <-(Hl k u) by left. by rewrite lookup_insert_eq.
    + by rewrite delete_view, lookup_delete_eq.
  - destruct (list_to_map l !! id); [done|]. destruct o as [u|]; simpl.
    + rewrite add_view, <-(Hl k u) by left. by rewrite lookup_insert_ne.
    + by rewrite delete_view, lookup_delete_ne.
Qed.

(** Applying a diff to the state of its parent gives the set the diff stood for,
    in whatever order the map is read. *)
Lemma diff_ApplyUTXOs_view `{GoRange} d base :
  diff_ok d → parentState d = Some base → utxo_view (diff_ApplyUTXOs base d) = utxo_view d.
Proof.
  intros Hd Hp. apply map_eq. intros id. unfold diff_ApplyUTXOs. rewrite apply_UTXOs_view.
  - simpl. unfold diff_view. rewrite lookup_diff_overlay, Hp.
    assert (list_to_map (go_range (modifiedUTXOs d)) = modifiedUTXOs d) as ->; [|done].
    rewrite (list_to_map_proper _ (map_to_list (modifiedUTXOs d))).
    + apply list_to_map_to_list.
    + apply NoDup_fst_go_range.
    + apply go_range_perm.
  - apply NoDup_fst_go_range.
  - intros k u Hk%elem_of_go_range. by apply Hd.
Qed.
End diff_laws.

(** ** Covered transactions balance *)

Lemma flow_sum_superset (f : flow_key → Z) ks ks' a :
  NoDup ks → ks ⊆ ks' → NoDup ks' → (∀ k, k ∈ ks' → k ∉ ks → f k = 0) →
  flow_sum ((λ k, (k.1, f k)) <$> ks) a = flow_sum ((λ k, (k.1, f k)) <$> ks') a.
Proof.
  intros Hnd Hsub Hnd' Hz. destruct (submseteq_Permutation ks ks') as [l Hl]; [by apply NoDup_submseteq|].
  rewrite Hl in Hnd'. apply NoDup_app in Hnd' as (_&Hdisj&_).
  rewrite Hl, fmap_app, flow_sum_app, (flow_sum_map fst f l a), sumZ_zero; [lia|].
  intros k [_ Hk]%list_elem_of_filter. apply Hz; [rewrite Hl; apply elem_of_app; by right|].
  intros Hk'. by apply (Hdisj k).
Qed.

Definition all_locked (cons prod : list (flow_key * Z)) : list flow_key :=
  remove_dups (locked_keys cons ++ locked_keys prod).

Lemma all_locked_split cons prod fs a :
  (fs = cons ∨ fs = prod) →
  asset_total fs a = flow_sum fs (a, None) + flow_sum ((λ k, (k.1, flow_sum fs k)) <$> all_locked cons prod) a.
Proof.
  intros Hfs. unfold all_locked. apply asset_total_split.
  - apply NoDup_remove_dups.
  - apply Forall_forall. intros k [[? _]%locked_keys_spec|[? _]%locked_keys_spec]%elem_of_remove_dups%elem_of_app; done.
  - intros [k x] Hf Hl. apply elem_of_remove_dups, elem_of_app. simpl in *.
    destruct Hfs as [-> | ->]; [left|right]; apply locked_keys_spec; eauto.
Qed.

Lemma increases_all cons prod a :
  flows_ok cons → flow_sum (increases cons prod) a =
  flow_sum ((λ k, (k.1, Z.max 0 (flow_sum prod k - flow_sum cons k))) <$> all_locked cons prod) a.
Proof.
  intros Hok. unfold increases. apply flow_sum_superset.
  - apply NoDup_locked_keys.
  - intros k Hk. apply elem_of_remove_dups, elem_of_app. by right.
  - apply NoDup_remove_dups.
  - intros k Hk Hn. pose proof (flow_sum_nonneg cons k Hok).
    assert (flow_sum prod k = 0) as ->; [|lia]. apply sumZ_zero.
    intros [k' x] [Hk' Hx]%list_elem_of_filter. simpl in Hk'. subst k'. destruct Hn.
    apply locked_keys_spec. split; [|by exists x].
    by apply elem_of_remove_dups, elem_of_app in Hk as [[? _]%locked_keys_spec|[? _]%locked_keys_spec].
Qed.

(** What is produced of an asset is at most what is consumed of it. *)
Lemma covered_total cons prod a :
  flows_ok cons → covered cons prod → asset_total prod a ≤ asset_total cons a.
Proof.
  intros Hok (_&_&Hc). specialize (Hc a). rewrite increases_all in Hc by done.
  rewrite (all_locked_split cons prod prod), (all_locked_split cons prod cons) by eauto.
  rewrite !(flow_sum_map fst) in *.
  set (ks := filter _ _) in *.
  assert (sumZ (flow_sum prod <$> ks) ≤ sumZ (flow_sum cons <$> ks) +
    sumZ ((λ k, Z.max 0 (flow_sum prod k - flow_sum cons k)) <$> ks)) as Hle; [|lia].
  rewrite <-sumZ_fmap_add. apply sumZ_fmap_le. intros k _. lia.
Qed.

(** ** The supply *)

Section supply.
Context `{Crypto} `{GoRange, GoSort, GoAppend} (Implements : gotype → positive → bool) (registered : linearCodec).
Context (fx : Fx) (now : Z).
Context {S : Type} `{!UTXOSet S} `{!UTXOSetLaws S}.
Abbreviation consumed := (consumed_flow Implements registered now).
Abbreviation produced := (produced_flow Implements registered).

(** What an output is worth in an asset, and the sum over a set. *)
Definition worth (a : ID) (u : UTXO) : Z := if decide (utxo_Asset u = a) then amount (utxo_Out u) else 0.
Definition map_supply (m : gmap ID UTXO) (a : ID) : Z := sumZ ((λ p, worth a p.2) <$> map_to_list m).
Definition supply (s : S) (a : ID) : Z := map_supply (utxo_view s) a.

Definition utxos_ok (s : S) : Prop := ∀ id u, utxo_view s !! id = Some u → amount_ok (utxo_Out u).

Lemma amount_nonneg o : amount_ok o → 0 ≤ amount o.
Proof.
  intros Ho. unfold amount. unfold amount_ok, is_uint in Ho. destruct (iface_Amount o) as [x|]; simpl; [|lia].
  destruct (Ho x eq_refl). lia.
Qed.

Lemma worth_nonneg a u : amount_ok (utxo_Out u) → 0 ≤ worth a u.
Proof. intros ?%amount_nonneg. unfold worth. case_decide; lia. Qed.

Lemma map_supply_delete m id u a :
  m !! id = Some u → map_supply m a = worth a u + map_supply (delete id m) a.
Proof. intros Hm. unfold map_supply. rewrite <-(map_to_list_delete m id u) by done. done. Qed.

Lemma map_supply_insert m id u a :
  (∀ u, m !! id = Some u → 0 ≤ worth a u) → map_supply (<[id := u]> m) a ≤ worth a u + map_supply m a.
Proof.
  intros Hm. rewrite (map_supply_delete _ id u) by apply lookup_insert_eq. rewrite delete_insert_eq.
  destruct (m !! id) as [u'|] eqn:E.
  - rewrite (map_supply_delete m id u') by done. specialize (Hm u' eq_refl). lia.
  - rewrite delete_id by done. lia.
Qed.

Lemma get_utxos_inv s ins utxos :
  get_utxos s ins = Some utxos →
  Forall2 (λ i u, utxo_view s !! InputID (tin_UTXOID i) = Some u) ins utxos.
Proof.
  revert utxos. induction ins as [|i ins IH]; simpl; intros utxos; [by intros [= <-]|].
  rewrite get_view. destruct (utxo_view s !! _) as [u|] eqn:E; [|done].
  destruct (get_utxos s ins) as [us|]; [|done]. intros [= <-]. constructor; [done|]. by apply IH.
Qed.

Lemma get_utxos_complete s ins utxos :
  Forall2 (λ i u, utxo_view s !! InputID (tin_UTXOID i) = Some u) ins utxos → get_utxos s ins = Some utxos.
Proof. induction 1 as [|i u ins us Hi _ IH]; simpl; [done|]. by rewrite get_view, Hi, IH. Qed.

Lemma get_utxos_ok s ins utxos :
  utxos_ok s → get_utxos s ins = Some utxos → Forall (λ u, amount_ok (utxo_Out u)) utxos.
Proof.
  intros Hs Hg%get_utxos_inv. induction Hg as [|i u ins us Hi _ IH]; constructor; [|done]. by eapply Hs.
Qed.

(** C28: [VerifySpend] accepts exactly when every output that is named is there, its
    input and credential may spend it, and the funds that are consumed cover those
    that are produced, the fee included: of each asset, what is produced without a
    lock and what is locked beyond the funds that were locked until the same time
    for the same owner comes out of funds that are not locked any more.  Sums that
    exceed 64 bits never pass.  The map of the caller ends with all that is produced
    without a lock. *)
Theorem VerifySpend_correct tx (utxoDB : S) ins outs creds fee :
  utxos_ok utxoDB → Forall (λ o, amount_ok (tout_Out o)) outs → fee_ok fee →
  let found utxos := Forall2 (λ i u, utxo_view utxoDB !! InputID (tin_UTXOID i) = Some u) ins utxos in
  match VerifySpend Implements registered fx now tx utxoDB ins outs creds fee with
  | Ok unlockedProduced => ∃ utxos cons prod, found utxos ∧
      spends Implements registered fx now tx utxos ins outs creds fee cons prod ∧
      ∀ a, amount_of unlockedProduced a = amount_of fee a + flow_sum prod (a, None)
  | Err _ => ∀ utxos cons prod, found utxos →
      ¬ spends Implements registered fx now tx utxos ins outs creds fee cons prod
  end.
Proof.
  intros Hs Ho Hf found. unfold VerifySpend. destruct (get_utxos utxoDB ins) as [utxos|] eqn:Eg.
  2:{ intros utxos cons prod Hfound%get_utxos_complete. congruence. }
  pose proof (VerifySpendUTXOs_spec Implements registered fx now tx utxos ins outs creds fee
    (get_utxos_ok _ _ _ Hs Eg) Ho Hf) as Hspec.
  destruct (VerifySpendUTXOs _ _ _ _ _ _ _ _ _ _) as [m|e].
  - destruct Hspec as (cons&prod&?&?). exists utxos, cons, prod. split; [by apply get_utxos_inv|done].
  - intros utxos' cons prod Hfound%get_utxos_complete. assert (utxos' = utxos) as -> by congruence. apply Hspec.
Qed.

(** [Consume] takes the outputs the inputs name out of the set. *)
Lemma Consume_supply s ins utxos a :
  NoDup ((λ i, InputID (tin_UTXOID i)) <$> ins) → get_utxos s ins = Some utxos →
  supply s a = sumZ (worth a <$> utxos) + supply (Consume s ins) a ∧
  (utxos_ok s → utxos_ok (Consume s ins)).
Proof.
  intros Hnd Hg%get_utxos_inv. unfold Consume. revert s Hnd Hg. revert utxos.
  induction ins as [|i ins IH]; intros utxos s Hnd Hg; inversion_clear Hg as [|? u ? us Hu Hg']; [done|].
  rewrite fmap_cons in Hnd. apply NoDup_cons in Hnd as [Hi Hnd]. rewrite fmap_cons, sumZ_cons. simpl.
  destruct (IH us (DeleteUTXO (InputID (tin_UTXOID i)) s) Hnd) as [IH1 IH2].
  - clear -Hg' Hi. induction Hg' as [|j v ins us Hj _ IHg]; constructor.
    + rewrite delete_view, lookup_delete_ne; [done|]. intros E. apply Hi. rewrite E, fmap_cons. left.
    + apply IHg. intros Hin. apply Hi. rewrite fmap_cons. by right.
  - split.
    + rewrite <-Z.add_assoc, <-IH1. unfold supply. rewrite delete_view. by apply map_supply_delete.
    + intros Hok. apply IH2. intros id v. rewrite delete_view. intros [_ Hv]%lookup_delete_Some. by eapply Hok.
Qed.

Lemma AddUTXO_ok u s : utxos_ok s → amount_ok (utxo_Out u) → utxos_ok (AddUTXO u s).
Proof. intros Hs Hu id v. rewrite add_view. intros [[_ <-]|[_ Hv]]%lookup_insert_Some; [done|]. by eapply Hs. Qed.

Lemma AddUTXO_supply u s a : utxos_ok s → supply (AddUTXO u s) a ≤ worth a u + supply s a.
Proof. intros Hs. unfold supply. rewrite add_view. apply map_supply_insert. intros v Hv. eapply worth_nonneg, Hs, Hv. Qed.

Definition out_worth (a : ID) (out : TransferableOutput) : Z :=
  if decide (tout_Asset out = a) then amount (tout_Out out) else 0.

(** [Produce] adds at most the outputs: an identifier in use is overwritten. *)
Lemma Produce_supply s txID outs a :
  utxos_ok s → Forall (λ o, amount_ok (tout_Out o)) outs →
  supply (Produce s txID outs) a ≤ sumZ (out_worth a <$> outs) + supply s a.
Proof.
  unfold Produce. generalize 0%nat. revert s. induction outs as [|out outs IH]; intros s n Hs Ho; [done|].
  apply Forall_cons in Ho as [Ho Hos]. rewrite fmap_cons, sumZ_cons. cbn [produce_from].
  etrans; [apply IH; [by apply AddUTXO_ok|done]|]. pose proof (AddUTXO_supply (mkUTXO (mkUTXOID txID (wrap32 (Z.of_nat n))) (tout_Asset out) (tout_Out out)) s a Hs) as Hadd.
  change (worth a _) with (out_worth a out) in Hadd. lia.
Qed.

(** The flows of a transaction are worth what its outputs are. *)
Lemma split_Amount o : iface_Amount (split_LockOut o).1 = iface_Amount o.
Proof. by destruct o. Qed.

Lemma mapM_worth {A} (flow : A → option (flow_key * Z)) (w : A → Z) xs fs a :
  (∀ x f, flow x = Some f → w x = if decide (f.1.1 = a) then f.2 else 0) →
  mapM flow xs = Some fs → sumZ (w <$> xs) = asset_total fs a.
Proof.
  intros Hw. revert fs. induction xs as [|x xs IH]; intros fs Hm; [by injection Hm as <-|]. simpl in Hm.
  destruct (flow x) as [f|] eqn:Ef; simpl in Hm; [|done].
  destruct (mapM flow xs) as [fs'|]; simpl in Hm; [|done]. injection Hm as <-.
  unfold asset_total. rewrite !fmap_cons, sumZ_cons, flow_sum_cons, (IH fs' eq_refl), (Hw x f Ef). done.
Qed.

Lemma consumed_worth utxos cons a :
  mapM consumed utxos = Some cons → sumZ (worth a <$> utxos) = asset_total cons a.
Proof.
  apply mapM_worth. intros u f Ef. unfold consumed_flow in Ef. unfold worth, amount. rewrite <-split_Amount.
  destruct (split_LockOut (utxo_Out u)) as [out t]. destruct (lock_of _ _ _ _ _); simpl in Ef; [|done].
  simpl. by destruct (iface_Amount out); simpl in Ef; [injection Ef as <-|].
Qed.

Lemma produced_worth outs prod a :
  mapM produced outs = Some prod → sumZ (out_worth a <$> outs) = asset_total prod a.
Proof.
  apply mapM_worth. intros u f Ef. unfold produced_flow in Ef. unfold out_worth, amount. rewrite <-split_Amount.
  destruct (split_LockOut (tout_Out u)) as [out t]. destruct (lock_of _ _ _ _ _); simpl in Ef; [|done].
  simpl. by destruct (iface_Amount out); simpl in Ef; [injection Ef as <-|].
Qed.

Lemma Forall2_elem_r {A B} (P : A → B → Prop) l k y :
  Forall2 P l k → y ∈ k → ∃ x, x ∈ l ∧ P x y.
Proof.
  intros Hf [i Hi]%list_elem_of_lookup. destruct (Forall2_lookup_r _ _ _ _ _ Hf Hi) as (x&Hx&?).
  exists x. split; [by eapply list_elem_of_lookup_2|done].
Qed.

Lemma mapM_flows_ok {A} (flow : A → option (flow_key * Z)) xs fs :
  (∀ x f, x ∈ xs → flow x = Some f → is_u64 f.2) → mapM flow xs = Some fs → flows_ok fs.
Proof.
  intros Hu Hm%mapM_Some. apply Forall_forall. intros f Hf.
  destruct (Forall2_elem_r _ _ _ _ Hm Hf) as (x&Hx&Ef). by eapply Hu.
Qed.

Lemma consumed_amount u f : amount_ok (utxo_Out u) → consumed u = Some f → is_u64 f.2.
Proof.
  intros Hu%amount_ok_split. unfold consumed_flow. destruct (split_LockOut (utxo_Out u)) as [out t].
  destruct (lock_of _ _ _ _ _); simpl; [|done].
  destruct (iface_Amount out) eqn:E; simpl; [|done]. intros [= <-]. by apply Hu.
Qed.

Lemma fee_total fee a : asset_total (fee_flows fee) a = amount_of fee a.
Proof.
  rewrite (asset_total_split (fee_flows fee) [] a); [|constructor|constructor|].
  - rewrite fee_flows_unlocked. apply Z.add_0_r.
  - intros f (p&->&_)%list_elem_of_fmap Hl. by destruct Hl.
Qed.

(** [Consume] by what it leaves. *)
Lemma Consume_view s ins : utxo_view (Consume s ins) = foldl (λ m i, delete (InputID (tin_UTXOID i)) m) (utxo_view s) ins.
Proof. unfold Consume. revert s. induction ins as [|i ins IH]; intros s; [done|]. simpl. by rewrite IH, delete_view. Qed.

Lemma Consume_ok s ins : utxos_ok s → utxos_ok (Consume s ins).
Proof.
  unfold Consume. revert s. induction ins as [|i ins IH]; intros s Hs; [done|]. simpl. apply IH. intros id u. rewrite delete_view.
  intros [_ Hu]%lookup_delete_Some. by eapply Hs.
Qed.

Lemma Produce_ok s txID outs : utxos_ok s → Forall (λ o, amount_ok (tout_Out o)) outs → utxos_ok (Produce s txID outs).
Proof.
  unfold Produce. generalize 0%nat. revert s. induction outs as [|o outs IH]; intros s n Hs Ho; [done|]. apply Forall_cons in Ho as [Ho Hos].
  simpl. apply IH; [|done]. by apply AddUTXO_ok.
Qed.

Lemma supply_nonneg s a : utxos_ok s → 0 ≤ supply s a.
Proof.
  intros Hs. apply sumZ_nonneg, Forall_fmap, Forall_forall. intros [i u] Hu%elem_of_map_to_list. by eapply worth_nonneg, Hs.
Qed.

(** What is produced and the fee are covered by what is consumed. *)
Lemma spend_utxos_balance tx utxos ins outs creds fee unlockedProduced a :
  Forall (λ u, amount_ok (utxo_Out u)) utxos → Forall (λ o, amount_ok (tout_Out o)) outs → fee_ok fee →
  VerifySpendUTXOs Implements registered fx now tx utxos ins outs creds fee = Ok unlockedProduced →
  sumZ (out_worth a <$> outs) + amount_of fee a ≤ sumZ (worth a <$> utxos).
Proof.
  intros Hut Ho Hf Hv.
  pose proof (VerifySpendUTXOs_spec Implements registered fx now tx utxos ins outs creds fee Hut Ho Hf) as Hspec.
  rewrite Hv in Hspec. destruct Hspec as (cons&prod&[_ _ _ _ Hc Hp Hcov]&_).
  rewrite (consumed_worth utxos cons a Hc), (produced_worth outs prod a Hp).
  assert (flows_ok cons) as Hok.
  { eapply mapM_flows_ok; [|exact Hc]. intros u f Hu Hcf. eapply consumed_amount; [|exact Hcf].
    rewrite Forall_forall in Hut. by apply Hut. }
  pose proof (covered_total cons _ a Hok Hcov) as Ht. rewrite asset_total_app, fee_total in Ht. lia.
Qed.

Lemma spend_balance tx (utxoDB : S) ins outs creds fee unlockedProduced a :
  utxos_ok utxoDB → Forall (λ o, amount_ok (tout_Out o)) outs → fee_ok fee →
  NoDup ((λ i, InputID (tin_UTXOID i)) <$> ins) →
  VerifySpend Implements registered fx now tx utxoDB ins outs creds fee = Ok unlockedProduced →
  sumZ (out_worth a <$> outs) + amount_of fee a + supply (Consume utxoDB ins) a ≤ supply utxoDB a.
Proof.
  intros Hs Ho Hf Hnd Hv. unfold VerifySpend in Hv.
  destruct (get_utxos utxoDB ins) as [utxos|] eqn:Eg; [|done].
  destruct (Consume_supply utxoDB ins utxos a Hnd Eg) as [-> _].
  pose proof (spend_utxos_balance _ _ _ _ _ _ _ a (get_utxos_ok _ _ _ Hs Eg) Ho Hf Hv). lia.
Qed.

(** C29: A transaction that [VerifySpend] accepts creates no funds.  Its fee, which
    the caller hands in as already produced, is gone: once the inputs are consumed
    and the outputs produced, the supply of every asset is at most what it was less
    the fee, whichever implementation holds the unspent outputs. *)
Theorem spend_conserves_supply tx txID (utxoDB : S) ins outs creds fee unlockedProduced :
  utxos_ok utxoDB → Forall (λ o, amount_ok (tout_Out o)) outs → fee_ok fee →
  NoDup ((λ i, InputID (tin_UTXOID i)) <$> ins) →
  VerifySpend Implements registered fx now tx utxoDB ins outs creds fee = Ok unlockedProduced →
  ∀ a, supply (Produce (Consume utxoDB ins) txID outs) a + amount_of fee a ≤ supply utxoDB a.
Proof.
  intros Hs Ho Hf Hnd Hv a. pose proof (spend_balance _ _ _ _ _ _ _ a Hs Ho Hf Hnd Hv).
  pose proof (Produce_supply (Consume utxoDB ins) txID outs a (Consume_ok utxoDB ins Hs) Ho). lia.
Qed.
End supply.

(** ** Examples: 10 pay an output of 7 and a fee of 2 *)

Section examples.
#[local] Existing Instances toy_crypto go_range_std go_sort_std go_append_tight.

Definition ex_key : ShortID := node1 x01.
Definition ex_asset : ID := id1 x05.
Definition ex_out (amt : Z) : iface := ifTransferOutput (Some (mkTransferOutput amt (mkOwners 0 1 [ex_key]))).
Definition ex_utxo : UTXO := mkUTXO (mkUTXOID (id1 x07) 0) ex_asset (ex_out 10).
Definition ex_set : gmap ID UTXO := {[ utxo_InputID ex_utxo := ex_utxo ]}.
Definition ex_in : TransferableInput :=
  mkTIn (mkUTXOID (id1 x07) 0) ex_asset (ifTransferInput (Some (mkTransferInput 10 (mkInput [0])))).
Definition ex_spend : result spend_error (gmap ID Z) :=
  VerifySpend (λ _ _, true) linear_New (mkFx true) 3 (ifTx [x09]) ex_set [ex_in] [mkTOut ex_asset (ex_out 7)]
    [ifCredential (Some (sign [x09] [ex_key]))] {[ ex_asset := 2 ]}.

Definition is_ok {E A} (r : result E A) : bool := match r with Ok _ => true | Err _ => false end.

Lemma is_ok_inv {E A} (r : result E A) : is_ok r = true → ∃ a, r = Ok a.
Proof. destruct r; [by eexists|done]. Qed.

Lemma ex_spend_ok : ∃ m, ex_spend = Ok m.
Proof. apply is_ok_inv. vm_compute. reflexivity. Qed.

Lemma ex_set_ok : utxos_ok ex_set.
Proof. intros id u. simpl. unfold ex_set. intros [_ <-]%lookup_singleton_Some. intros x [= <-]. unfold is_uint. lia. Qed.

Lemma ex_fee_ok : fee_ok {[ ex_asset := 2 ]}.
Proof.
  intros a. unfold amount_of. destruct (decide (ex_asset = a)) as [<-|].
  - rewrite lookup_singleton_eq. unfold is_uint. simpl. lia.
  - rewrite lookup_singleton_ne by done. unfold is_uint. simpl. lia.
Qed.

Lemma ex_outs_ok : Forall (λ o, amount_ok (tout_Out o)) [mkTOut ex_asset (ex_out 7)].
Proof. apply Forall_singleton. intros x [= <-]. unfold is_uint. lia. Qed.

Lemma VerifySpend_correct_witness :
  ∃ unlockedProduced, ex_spend = Ok unlockedProduced ∧ amount_of unlockedProduced ex_asset = 9.
Proof.
  pose proof (VerifySpend_correct (λ _ _, true) linear_New (mkFx true) 3 (ifTx [x09]) ex_set [ex_in]
    [mkTOut ex_asset (ex_out 7)] [ifCredential (Some (sign [x09] [ex_key]))] {[ ex_asset := 2 ]}
    ex_set_ok ex_outs_ok ex_fee_ok) as Hs.
  destruct ex_spend_ok as [m E]. exists m. split; [done|]. fold ex_spend in Hs. rewrite E in Hs.
  destruct Hs as (utxos&cons&prod&_&[_ _ _ _ _ Hp _]&Ha). rewrite Ha. injection Hp as <-.
  unfold amount_of. rewrite lookup_singleton_eq. reflexivity.
Defined.

Lemma spend_conserves_supply_witness :
  supply (Produce (Consume ex_set [ex_in]) (id1 x08) [mkTOut ex_asset (ex_out 7)]) ex_asset + 2 ≤ 10.
Proof.
  destruct ex_spend_ok as [m E].
  pose proof (spend_conserves_supply (λ _ _, true) linear_New (mkFx true) 3 (ifTx [x09]) (id1 x08) ex_set [ex_in]
    [mkTOut ex_asset (ex_out 7)] [ifCredential (Some (sign [x09] [ex_key]))] {[ ex_asset := 2 ]} m
    ex_set_ok ex_outs_ok ex_fee_ok (NoDup_singleton _) E ex_asset) as Hs.
  assert (supply ex_set ex_asset = 10) as Hten.
  { unfold supply, map_supply. simpl. unfold ex_set. rewrite map_to_list_singleton. reflexivity. }
  rewrite Hten in Hs. unfold amount_of in Hs. rewrite lookup_singleton_eq in Hs. exact Hs.
Defined.
End examples.
