(* ===== verification/PlatformSpend.v ===== *)
(** What [Spend] builds, [VerifySpend] accepts.

    The inputs and outputs [Spend] chooses, with credentials signed by the keys it
    returns, pass the check of a transaction that burns the fee, at the time they
    are built and at any later time: an output that was locked when it was chosen
    may have been unlocked since. *)

From S2P Require Import Prelude SafeMath Ids NodeBag Packer Database CodecTypes Codec LinkedDB GoStd Secp256k1fx Utxo PlatformUtxo PlatformUtxoSpec PlatformUtxoSafety.
From Stdlib Require Import Strings.Byte.

(** ** Lists *)

Lemma mapM_snoc {A B} (f : A → option B) l k x y :
  mapM f l = Some k → f x = Some y → mapM f (l ++ [x]) = Some (k ++ [y]).
Proof. rewrite !mapM_Some. intros Hl Hx. apply Forall2_app; [done|]. by constructor. Qed.

Lemma mapM_app_Some {A B} (f : A → option B) l1 l2 k1 k2 :
  mapM f l1 = Some k1 → mapM f l2 = Some k2 → mapM f (l1 ++ l2) = Some (k1 ++ k2).
Proof. rewrite !mapM_Some. apply Forall2_app. Qed.

Lemma mapM_perm {A B} (f : A → option B) l l' k :
  l ≡ₚ l' → mapM f l = Some k → ∃ k', mapM f l' = Some k' ∧ k ≡ₚ k'.
Proof.
  intros Hp. revert k. induction Hp as [|x l l' Hp IH|x y l|l1 l2 l3 _ IH1 _ IH2]; intros k Hk; simpl in *.
  - by exists k.
  - destruct (f x) as [b|]; simpl in *; [|done]. destruct (mapM f l) as [kl|]; [|done]. injection Hk as <-.
    destruct (IH kl eq_refl) as (k'&->&Hk'). exists (b :: k'). by rewrite Hk'.
  - destruct (f x) as [b|]; simpl in *; [|by destruct (f y)]. destruct (f y) as [b'|]; simpl in *; [|done].
    destruct (mapM f l) as [kl|]; simpl in *; [|done]. injection Hk as <-. exists (b :: b' :: kl).
    split; [done|constructor].
  - destruct (IH1 _ Hk) as (k2&Hk2&?). destruct (IH2 _ Hk2) as (k3&Hk3&?). exists k3. split; [done|]. by etrans.
Qed.

Lemma sumZ_submseteq (f : UTXO → Z) l k :
  l ⊆+ k → (∀ x, x ∈ k → 0 ≤ f x) → sumZ (f <$> l) ≤ sumZ (f <$> k).
Proof.
  intros [r Hr]%submseteq_Permutation Hf. rewrite Hr, fmap_app, sumZ_app.
  enough (0 ≤ sumZ (f <$> r)) by lia. apply sumZ_nonneg, Forall_fmap, Forall_forall.
  intros x Hx. apply Hf. rewrite Hr. apply elem_of_app. by right.
Qed.

Lemma submseteq_NoDup {A} (l k : list A) : l ⊆+ k → NoDup k → NoDup l.
Proof. intros [r ->]%submseteq_Permutation. by intros [? _]%NoDup_app. Qed.

(** Sums are bounded by the total. *)
Lemma flow_sum_le_total {K} `{EqDecision K} (fs : list (K * Z)) k :
  flows_ok fs → flow_sum fs k ≤ sumZ fs.*2.
Proof.
  induction 1 as [|f fs Hf Hfs IH]; [done|]. rewrite flow_sum_cons, fmap_cons, sumZ_cons. unfold is_uint in Hf.
  pose proof (flow_sum_nonneg fs k Hfs). case_decide; lia.
Qed.

Lemma flow_partition_le {K} `{EqDecision K} (fs : list (K * Z)) (ks : list K) :
  NoDup ks → flows_ok fs → sumZ (flow_sum fs <$> ks) ≤ sumZ fs.*2.
Proof.
  intros Hnd. induction 1 as [|f fs Hf Hfs IH]; [by rewrite sumZ_zero|].
  rewrite fmap_cons, sumZ_cons. etrans; [|apply Z.add_le_mono_l, IH].
  rewrite (list_fmap_ext _ (λ k, (if decide (f.1 = k) then f.2 else 0) + flow_sum fs k) ks)
    by (intros; apply flow_sum_cons).
  rewrite sumZ_fmap_add. apply Z.add_le_mono_r. unfold is_uint in Hf. destruct (decide (f.1 ∈ ks)) as [Hin|Hin].
  - rewrite (sumZ_single _ ks f.1); [by rewrite decide_True|done|done|]. intros y _ Hne. by rewrite decide_False.
  - rewrite sumZ_zero; [lia|]. intros y Hy. rewrite decide_False; [done|]. by intros <-.
Qed.

Lemma flow_sum_no_key {K} `{EqDecision K} (fs : list (K * Z)) k :
  (∀ f, f ∈ fs → f.1 ≠ k) → flow_sum fs k = 0.
Proof. intros Hf. apply sumZ_zero. intros f [Hk Hin]%list_elem_of_filter. by destruct (Hf f Hin). Qed.

Lemma covered_perm cons cons' prod prod' :
  cons ≡ₚ cons' → prod ≡ₚ prod' → covered cons prod → covered cons' prod'.
Proof.
  intros Hc Hp (H1&H2&H3).
  assert (∀ k, flow_sum cons' k = flow_sum cons k) as Ec by (intros k; by rewrite Hc).
  assert (∀ k, flow_sum prod' k = flow_sum prod k) as Ep by (intros k; by rewrite Hp).
  split; [intros k; by rewrite Ec|]. split; [intros k; by rewrite Ep|].
  intros a. rewrite Ec, Ep. specialize (H3 a).
  assert (flow_sum (increases cons' prod') a = flow_sum (increases cons prod) a) as ->; [|done].
  unfold increases. assert (locked_keys prod' ≡ₚ locked_keys prod) as ->.
  { apply NoDup_Permutation; [apply NoDup_locked_keys..|]. intros k. rewrite !locked_keys_spec. by setoid_rewrite Hp. }
  f_equal. apply list_fmap_ext. intros _ k _. by rewrite Ec, Ep.
Qed.

(** ** Fetching *)

Section fetching.
Context `{Crypto} `{GoRange, GoSort} {S : Type} `{!UTXOSet S} `{!UTXOSetLaws S}.
Context (UTXOIDs : bytes → ID → Z → option (list ID)).

(** The outputs are those of distinct identifiers. *)
Definition fetched (db : S) (utxos : list UTXO) (seen : gset ID) : Prop :=
  ∃ ids, NoDup ids ∧ list_to_set ids = seen ∧ Forall2 (λ id u, utxo_view db !! id = Some u) ids utxos.

Lemma fetched_add db utxos seen id u :
  fetched db utxos seen → id ∉ seen → utxo_view db !! id = Some u → fetched db (utxos ++ [u]) ({[id]} ∪ seen).
Proof.
  intros (ids&Hnd&<-&Hf) Hid Hu. exists (ids ++ [id]). split_and!.
  - apply NoDup_app. split_and!; [done| |apply NoDup_singleton]. intros x Hx ->%list_elem_of_singleton. set_solver.
  - rewrite list_to_set_app_L. simpl. set_solver.
  - apply Forall2_app; [done|]. by constructor.
Qed.

Lemma fetch_utxos_fetched db utxoIDs utxos seen lastUTXOID limit r :
  fetched db utxos seen → fetch_utxos db utxoIDs utxos seen lastUTXOID limit = Some r →
  match r with
  | inl (utxos, _) => ∃ seen, fetched db utxos seen
  | inr (utxos, seen, _, _) => fetched db utxos seen
  end.
Proof.
  revert utxos seen lastUTXOID limit. induction utxoIDs as [|id utxoIDs IH]; intros utxos seen last limit Hf; simpl.
  { intros [= <-]. done. }
  case_decide as Hid; [by apply IH|]. rewrite get_view. destruct (utxo_view db !! id) as [u|] eqn:Eu; [|done].
  pose proof (fetched_add _ _ _ _ _ Hf Hid Eu) as Hf'. case_decide; [|by apply IH]. intros [= <-]. by eexists.
Qed.

Lemma fetch_addrs_fetched db searchSize addrs utxos seen lastAddr lastUTXOID limit utxos' la lu :
  fetched db utxos seen →
  fetch_addrs UTXOIDs db searchSize addrs utxos seen lastAddr lastUTXOID limit = Some (utxos', la, lu) →
  ∃ seen, fetched db utxos' seen.
Proof.
  revert utxos seen lastAddr lastUTXOID limit.
  induction addrs as [|addr addrs IH]; intros utxos seen lastAddr lastUTXOID limit Hf; simpl.
  { intros [= <- _ _]. by exists seen. }
  destruct (bytes_ltb _ _); [by apply IH|]. destruct (UTXOIDs _ _ _) as [ids|]; [|done].
  destruct (fetch_utxos _ _ _ _ _ _) as [r|] eqn:Er; [|done].
  pose proof (fetch_utxos_fetched _ _ _ _ _ _ _ Hf Er) as Hr.
  destruct r as [[us l]|[[[us sn] l] lim]]; [intros [= <- _ _]; done|]. by apply IH.
Qed.

(** The set stores outputs under their identifiers. *)
Definition keyed (db : S) : Prop := ∀ id u, utxo_view db !! id = Some u → id = utxo_InputID u.

Lemma GetAllUTXOs_fetched db addrs utxos :
  keyed db → GetAllUTXOs UTXOIDs db addrs = Some utxos →
  NoDup (utxo_InputID <$> utxos) ∧ Forall (λ u, utxo_view db !! utxo_InputID u = Some u) utxos.
Proof.
  intros Hk. unfold GetAllUTXOs, GetPaginatedUTXOs.
  destruct (fetch_addrs _ _ _ _ _ _ _ _ _) as [[[us la] lu]|] eqn:E; [|done]. intros [= ->].
  apply (fetch_addrs_fetched db _ _ _ ∅) in E as (seen&ids&Hnd&_&Hf).
  2:{ exists []. split_and!; [constructor|done|constructor]. }
  assert (utxo_InputID <$> utxos = ids) as ->.
  { clear Hnd. induction Hf as [|id u ids us' Hu _ IH]; [done|]. rewrite fmap_cons, IH. f_equal. symmetry. by apply Hk. }
  split; [done|]. clear Hnd. induction Hf as [|id u ids us' Hu _ IH]; constructor; [|done].
  by rewrite <-(Hk _ _ Hu).
Qed.

Lemma fetched_supply db utxos a :
  utxos_ok db → NoDup (utxo_InputID <$> utxos) → Forall (λ u, utxo_view db !! utxo_InputID u = Some u) utxos →
  sumZ (worth a <$> utxos) ≤ supply db a.
Proof.
  intros Hok Hnd Hf. unfold supply, map_supply.
  assert ((λ p : ID * UTXO, worth a p.2) <$> map_to_list (utxo_view db) = worth a <$> (map_to_list (utxo_view db)).*2) as ->
    by (by rewrite <-list_fmap_compose).
  apply sumZ_submseteq.
  - assert (utxos = (((λ u, (utxo_InputID u, u)) <$> utxos).*2)) as Hu by (rewrite <-list_fmap_compose; symmetry; apply list_fmap_id).
    rewrite Hu. apply fmap_submseteq. apply NoDup_submseteq.
    + eapply (NoDup_fmap_1 fst). rewrite <-list_fmap_compose. done.
    + intros p (u&->&Hin)%list_elem_of_fmap. apply elem_of_map_to_list. rewrite Forall_forall in Hf. by apply Hf.
  - intros u ([id u']&->&Hin%elem_of_map_to_list)%list_elem_of_fmap. eapply worth_nonneg, Hok, Hin.
Qed.
End fetching.

(** ** The loops *)

Section spend.
Context `{Crypto} `{Hlaws : !CryptoLaws} `{GoRange, GoSort, GoAppend}.
Context (Implements : gotype → positive → bool) (registered : linearCodec).
Context (AVAXAssetID : ID) (now : Z) (fx : Fx) (later : Z) (utx : bytes).
Context (keys : list PrivateKey) (amount fee : Z) (changeAddr : ShortID).
Hypothesis Hnow : 0 ≤ now.
Hypothesis Hlater : now ≤ later.
Hypothesis Hamount : is_u64 amount.
Hypothesis Hfee : is_u64 fee.
Abbreviation consumed := (consumed_flow Implements registered later).
Abbreviation produced := (produced_flow Implements registered).
Abbreviation entry := (UTXO * (TransferableInput * list PrivateKey))%type.

(** The outputs of the platform chain: well-formed transfers, perhaps locked, whose
    owners the codec can encode. *)
Definition utxo_typed (u : UTXO) : Prop :=
  ∃ o, (split_LockOut (utxo_Out u)).1 = ifTransferOutput (Some o) ∧ is_u64 (to_Amt o) ∧
    typed_owners (to_Owners o) ∧ TransferOutput_Verify (Some o) = Ok tt ∧
    is_ok (ownerID Implements registered (to_Owners o)) = true.

(** The credential for the keys of an input. *)
Definition signed (x : TransferableInput * list PrivateKey) : iface := ifCredential (Some (sign utx x.2)).

(** An output that was chosen, with its input. *)
Definition entry_ok (e : entry) : Prop :=
  let '(u, (i, signers)) := e in
  tin_UTXOID i = utxo_UTXOID u ∧ input_ok fx later (ifTx utx) (u, i, signed (i, signers)).

(** The flow of a locked output: as it was, and as it counts [later]. *)
Definition kept_flow (x : Z * ID * Z) : flow_key * Z := ((AVAXAssetID, Some x.1), x.2).
Definition later_flow (x : Z * ID * Z) : flow_key * Z :=
  ((AVAXAssetID, if decide (x.1.1 ≤ later) then None else Some x.1), x.2).
Definition plain_flow (x : Z) : flow_key * Z := ((AVAXAssetID, None), x).

(** The state of the loops after the locked outputs [T1] and the unlocked [T2], with
    the flows [locked] and [plain] of what they consume, [pr] and [ps] of the outputs
    that are returned and staked. *)
Record spend_inv (s : spending) (T1 T2 : list entry) (locked : list (Z * ID * Z)) (plain : list Z)
    (pr ps : list (flow_key * Z)) : Prop := mkSpendInv {
  si_ins : sp_ins s = (T1 ++ T2).*2;
  si_entries : Forall entry_ok (T1 ++ T2);
  si_locked : mapM consumed T1.*1 = Some (later_flow <$> locked);
  si_plain : mapM consumed T2.*1 = Some (plain_flow <$> plain);
  si_pr : mapM produced (sp_returnedOuts s) = Some pr;
  si_ps : mapM produced (sp_stakedOuts s) = Some ps;
  si_keys : Forall (λ f, f.1.1 = AVAXAssetID) (pr ++ ps);
  si_kept : ∀ k, is_locked k → flow_sum (pr ++ ps) k = flow_sum (kept_flow <$> locked) k;
  si_change : flow_sum (pr ++ ps) (AVAXAssetID, None) + sp_amountBurned s = sumZ plain;
  si_total : sumZ (pr ++ ps).*2 + sp_amountBurned s = sumZ locked.*2 + sumZ plain;
  si_ok : flows_ok (pr ++ ps);
  si_locked_ok : Forall is_u64 locked.*2;
  si_plain_ok : Forall is_u64 plain;
  si_staked : sumZ ps.*2 = sp_amountStaked s;
  si_staked_le : 0 ≤ sp_amountStaked s ≤ amount;
  si_burned_le : 0 ≤ sp_amountBurned s ≤ fee;
}.

Lemma spend_inv_init : spend_inv (mkSpending [] [] [] 0 0) [] [] [] [] [] [].
Proof using Hamount Hfee.
  unfold is_uint in *. split; simpl; try done; try (by constructor); lia.
Qed.

Lemma produced_locked t x owners id :
  t ≠ 0 → ownerID Implements registered owners = Ok id →
  produced (locked_output AVAXAssetID t x owners) = Some (kept_flow (t, id, x)).
Proof.
  intros Ht Ho. unfold produced_flow, locked_output, lock_of. simpl. rewrite decide_False by done. simpl. by rewrite Ho.
Qed.

Lemma produced_change x : produced (change_output AVAXAssetID x changeAddr) = Some (plain_flow x).
Proof. done. Qed.

Lemma Min64_min x y : Min64 x [y] = Z.min x y.
Proof. unfold Min64. simpl. case_decide; lia. Qed.

Lemma sub64_le x y : is_u64 x → 0 ≤ y ≤ x → sub64 x y = x - y.
Proof. intros Hx Hy. unfold sub64. apply wrap_id. unfold is_uint in *. lia. Qed.
Lemma add64_le x y z : is_u64 z → 0 ≤ x → 0 ≤ y → x + y ≤ z → add64 x y = x + y.
Proof. intros Hx ? ? ?. unfold add64. apply wrap_id. unfold is_uint in *. lia. Qed.

(** Outputs that are only made when they are worth something. *)
Lemma mapM_maybe (f : Z → TransferableOutput) (g : Z → flow_key * Z) outs p x :
  (∀ x, produced (f x) = Some (g x)) → mapM produced outs = Some p →
  mapM produced (if decide (x > 0) then outs ++ [f x] else outs) =
    Some (p ++ if decide (x > 0) then [g x] else []).
Proof. intros Hf Hp. case_decide; [by apply mapM_snoc|by rewrite app_nil_r]. Qed.

Definition maybe (x : Z) (f : flow_key * Z) : list (flow_key * Z) := if decide (x > 0) then [f] else [].

Lemma maybe_sum k x k' : 0 ≤ x → flow_sum (maybe x (k, x)) k' = if decide (k = k') then x else 0.
Proof.
  intros Hx. unfold maybe. destruct (decide (x > 0)).
  - rewrite flow_sum_cons, flow_sum_nil. simpl. lia.
  - rewrite flow_sum_nil. case_decide; lia.
Qed.

Lemma maybe_total k x : 0 ≤ x → sumZ (maybe x (k, x)).*2 = x.
Proof. intros Hx. unfold maybe. case_decide; [|simpl; unfold sumZ; simpl; lia]. rewrite fmap_cons, sumZ_cons. unfold sumZ. simpl. lia. Qed.

Lemma maybe_Forall (P : flow_key * Z → Prop) x f : P f → Forall P (maybe x f).
Proof. intros. unfold maybe. case_decide; [by apply Forall_singleton|constructor]. Qed.

Lemma flow_sum_maybe4 pr ps x y (f g : flow_key * Z) k :
  flow_sum ((pr ++ maybe x f) ++ (ps ++ maybe y g)) k =
  flow_sum (pr ++ ps) k + flow_sum (maybe x f) k + flow_sum (maybe y g) k.
Proof. rewrite !flow_sum_app. lia. Qed.

(** The consumed flow of a typed output. *)
Lemma consumed_typed u o t id :
  utxo_Asset u = AVAXAssetID → split_LockOut (utxo_Out u) = (ifTransferOutput (Some o), t) →
  ownerID Implements registered (to_Owners o) = Ok id → consumed u = Some (later_flow (t, id, to_Amt o)).
Proof.
  intros Ha Hs Ho. unfold consumed_flow, later_flow, lock_of. rewrite Hs, Ha. simpl.
  destruct (decide (t ≤ later)); simpl; [done|]. by rewrite Ho.
Qed.

Lemma stake_locked_inv s T1 locked pr ps u t o id i signers :
  spend_inv s T1 [] locked [] pr ps → sp_amountStaked s < amount → utxo_Asset u = AVAXAssetID →
  split_LockOut (utxo_Out u) = (ifTransferOutput (Some o), t) → t ≠ 0 → is_u64 (to_Amt o) → to_Amt o ≠ 0 →
  ownerID Implements registered (to_Owners o) = Ok id →
  entry_ok (u, (mkTIn (utxo_UTXOID u) AVAXAssetID (ifLockIn t i), signers)) →
  ∃ e pr' ps', e.1 = u ∧
    spend_inv (stake_locked AVAXAssetID amount u t (to_Owners o) i signers (to_Amt o) s)
      (T1 ++ [e]) [] (locked ++ [(t, id, to_Amt o)]) [] pr' ps'.
Proof using Hamount.
  intros [Hins Hent Hlk Hpl Hpr Hps Hk Hkept Hch Htot Hok Hlok Hpok Hst Hstle Hble] Hlt Ha Hs Ht Hx Hx0 Ho He.
  unfold stake_locked. rewrite Min64_min, (sub64_le amount) by (assumption || lia).
  set (x := to_Amt o) in *. set (st := Z.min (amount - sp_amountStaked s) x) in *.
  assert (0 < st ≤ x) as Hst' by (unfold is_uint in Hx; lia). rewrite sub64_le by (assumption || lia).
  set (r := x - st) in *. rewrite (add64_le _ _ amount) by (assumption || lia).
  exists (u, (mkTIn (utxo_UTXOID u) AVAXAssetID (ifLockIn t i), signers)),
    (pr ++ maybe r (kept_flow (t, id, r))), (ps ++ maybe st (kept_flow (t, id, st))). split; [done|].
  rewrite app_nil_r in *.
  assert (is_u64 r ∧ is_u64 st) as [Hru Hsu] by (unfold is_uint in *; lia).
  split; cbn [sp_ins sp_returnedOuts sp_stakedOuts sp_amountStaked sp_amountBurned]; rewrite ?app_nil_r.
  - by rewrite fmap_app, Hins.
  - apply Forall_app. split; [done|]. by apply Forall_singleton.
  - rewrite fmap_app, fmap_app. apply mapM_snoc; [done|]. by apply consumed_typed.
  - done.
  - apply (mapM_maybe (λ x, locked_output AVAXAssetID t x (to_Owners o)) (λ x, kept_flow (t, id, x))); [|done].
    intros. by apply produced_locked.
  - unfold maybe. rewrite decide_True by lia. apply mapM_snoc; [done|]. by apply produced_locked.
  - apply Forall_app in Hk as [??]. rewrite !Forall_app. split_and!; auto using maybe_Forall.
  - intros k Hlock. rewrite flow_sum_maybe4, fmap_app, (flow_sum_app (kept_flow <$> locked)), <-Hkept by done.
    unfold kept_flow. cbn [fst snd]. rewrite !maybe_sum by lia. csimpl. rewrite flow_sum_cons, flow_sum_nil. cbn [fst snd].
    case_decide; lia.
  - rewrite flow_sum_maybe4. unfold kept_flow. cbn [fst snd]. rewrite !maybe_sum, !decide_False by (lia || done). lia.
  - rewrite !fmap_app, !sumZ_app in *. unfold kept_flow. cbn [fst snd]. rewrite !maybe_total by lia.
    rewrite fmap_cons, sumZ_cons. change (sumZ [].*2) with 0. simpl. lia.
  - unfold flows_ok in *. apply Forall_app in Hok as [??]. rewrite !Forall_app. split_and!; auto using maybe_Forall.
  - rewrite fmap_app. apply Forall_app. split; [done|]. by apply Forall_singleton.
  - done.
  - rewrite fmap_app, sumZ_app, Hst. unfold kept_flow. cbn [fst snd]. by rewrite maybe_total by lia.
  - lia.
  - done.
Qed.

Lemma burn_unlocked_inv s T1 T2 locked plain pr ps u t o i signers :
  spend_inv s T1 T2 locked plain pr ps → utxo_Asset u = AVAXAssetID →
  split_LockOut (utxo_Out u) = (ifTransferOutput (Some o), t) → t ≤ now → is_u64 (to_Amt o) →
  is_ok (ownerID Implements registered (to_Owners o)) = true →
  entry_ok (u, (mkTIn (utxo_UTXOID u) AVAXAssetID i, signers)) →
  ∃ e pr' ps', e.1 = u ∧
    spend_inv (burn_unlocked AVAXAssetID amount fee changeAddr u i signers (to_Amt o) s)
      T1 (T2 ++ [e]) locked (plain ++ [to_Amt o]) pr' ps'.
Proof using Hamount Hfee Hlater.
  intros [Hins Hent Hlk Hpl Hpr Hps Hk Hkept Hch Htot Hok Hlok Hpok Hst Hstle Hble] Ha Hs Ht Hx [id Ho]%is_ok_inv He.
  unfold burn_unlocked. rewrite !Min64_min, (sub64_le fee) by (assumption || lia).
  set (x := to_Amt o) in *. set (b := Z.min (fee - sp_amountBurned s) x) in *.
  assert (0 ≤ b ≤ x) as Hb by (unfold is_uint in Hx; lia). rewrite (sub64_le x b) by (assumption || lia).
  assert (is_u64 (x - b)) as Hxb by (unfold is_uint in *; lia). rewrite (sub64_le amount) by (assumption || lia).
  set (st := Z.min (amount - sp_amountStaked s) (x - b)) in *.
  assert (0 ≤ st ≤ x - b) as Hst' by lia. rewrite (sub64_le (x - b) st) by (assumption || lia).
  set (r := x - b - st) in *. rewrite (add64_le _ st amount), (add64_le _ b fee) by (assumption || lia).
  exists (u, (mkTIn (utxo_UTXOID u) AVAXAssetID i, signers)), (pr ++ maybe r (plain_flow r)), (ps ++ maybe st (plain_flow st)).
  split; [done|]. assert (is_u64 r ∧ is_u64 st) as [Hru Hsu] by (unfold is_uint in *; lia).
  split; cbn [sp_ins sp_returnedOuts sp_stakedOuts sp_amountStaked sp_amountBurned].
  - by rewrite app_assoc, fmap_app, Hins.
  - rewrite app_assoc. apply Forall_app. split; [done|]. by apply Forall_singleton.
  - done.
  - rewrite fmap_app, fmap_app. apply mapM_snoc; [done|]. erewrite consumed_typed by done.
    unfold later_flow. simpl. by rewrite decide_True by lia.
  - by apply (mapM_maybe (λ x, change_output AVAXAssetID x changeAddr)).
  - by apply (mapM_maybe (λ x, change_output AVAXAssetID x changeAddr)).
  - apply Forall_app in Hk as [??]. rewrite !Forall_app. split_and!; auto using maybe_Forall.
  - intros k Hlock. rewrite flow_sum_maybe4, <-Hkept by done. unfold plain_flow.
    rewrite !maybe_sum, !decide_False by (lia || by intros <-). lia.
  - rewrite flow_sum_maybe4, sumZ_app, sumZ_cons. unfold plain_flow. rewrite !maybe_sum, !decide_True by (lia || done).
    change (sumZ []) with 0. lia.
  - rewrite !fmap_app, !sumZ_app in *. unfold plain_flow. rewrite !maybe_total by lia.
    rewrite sumZ_cons. change (sumZ []) with 0. lia.
  - unfold flows_ok in *. apply Forall_app in Hok as [??]. rewrite !Forall_app. split_and!; auto using maybe_Forall.
  - done.
  - apply Forall_app. split; [done|]. by apply Forall_singleton.
  - rewrite fmap_app, sumZ_app, Hst. unfold plain_flow. by rewrite maybe_total by lia.
  - lia.
  - lia.
Qed.

Definition locktime (u : UTXO) : Z := (split_LockOut (utxo_Out u)).2.

(** What the keychain builds can be used [later]. *)
Lemma kc_Spend_entry u o t i signers :
  utxo_Asset u = AVAXAssetID → split_LockOut (utxo_Out u) = (ifTransferOutput (Some o), t) →
  typed_owners (to_Owners o) → TransferOutput_Verify (Some o) = Ok tt →
  kc_Spend (ifTransferOutput (Some o)) now (NewKeychain keys) = Some (Ok (i, signers)) →
  iface_Amount i = Some (to_Amt o) ∧ (∃ p, i = ifTransferInput p) ∧
  (∀ v, unwrap_LockIn later t v = Ok i → entry_ok (u, (mkTIn (utxo_UTXOID u) AVAXAssetID v, signers))).
Proof using Hlater Hlaws.
  intros Ha Hs Hto Hv Hk. destruct (kc_Spend_ok keys o now Hto) as (r&Hr&Hspec).
  rewrite Hk in Hr. injection Hr as <-. destruct Hspec as (sigs&->&Hlock&Hm&Hsort&Hlen).
  split; [done|]. split; [by eexists|]. intros v Hun. split; [done|]. unfold input_ok. rewrite Hs. split; [done|].
  eexists. split; [exact Hun|]. by apply (kc_Spend_accepted fx o now later utx sigs signers).
Qed.

(** The loops pick outputs of the asset, locked ones and then others. *)
Definition picks (P : UTXO → Prop) (utxos : list UTXO) (T : list entry) : Prop :=
  T.*1 `sublist_of` utxos ∧ Forall (λ e, utxo_Asset e.1 = AVAXAssetID ∧ P e.1) T.

Lemma picks_nil P utxos : picks P utxos [].
Proof. split; [apply sublist_nil_l|constructor]. Qed.
Lemma picks_skip P u utxos T : picks P utxos T → picks P (u :: utxos) T.
Proof. intros [??]. split; [by apply sublist_cons|done]. Qed.
Lemma picks_take (P : UTXO → Prop) utxos e T :
  utxo_Asset e.1 = AVAXAssetID → P e.1 → picks P utxos T → picks P (e.1 :: utxos) (e :: T).
Proof. intros ?? [??]. split; [rewrite fmap_cons; by apply sublist_skip|by constructor]. Qed.

Abbreviation is_staking := (λ u, now < locktime u).
Abbreviation is_burning := (λ u, locktime u ≤ now).

Definition staked_from (utxos : list UTXO) (T1 : list entry) (r : option spending) : Prop :=
  ∃ s T1' locked pr ps, r = Some s ∧ spend_inv s (T1 ++ T1') [] locked [] pr ps ∧ picks is_staking utxos T1'.

Lemma staked_stop utxos s T1 locked pr ps :
  spend_inv s T1 [] locked [] pr ps → staked_from utxos T1 (Some s).
Proof.
  intros Hi. exists s, [], locked, pr, ps. rewrite app_nil_r. split; [done|]. split; [done|]. apply picks_nil.
Qed.

Lemma staked_skip u utxos T1 r : staked_from utxos T1 r → staked_from (u :: utxos) T1 r.
Proof. intros (s&T&l&pr&ps&?&?&?). exists s, T, l, pr, ps. split_and!; try done. by apply picks_skip. Qed.

Lemma stake_loop_ok utxos s T1 locked pr ps :
  spend_inv s T1 [] locked [] pr ps → Forall utxo_typed utxos →
  staked_from utxos T1 (stake_loop AVAXAssetID now (NewKeychain keys) amount utxos s).
Proof using Hamount Hnow Hlater Hlaws.
  intros Hi Ht. revert s T1 locked pr ps Hi.
  induction Ht as [|u utxos Hu Hus IH]; intros s T1 locked pr ps Hi; cbn [stake_loop]; [by eapply staked_stop|].
  case_decide as Hd; [by eapply staked_stop|]. pose proof (staked_skip u _ _ _ (IH _ _ _ _ _ Hi)) as Hskip.
  case_decide as Hasset; [exact Hskip|]. destruct Hu as (o&Hsplit&Hx&Hto&Hv&Hid).
  destruct (utxo_Out u) as [| | | | | |p| | | |t inner|] eqn:Eout; try exact Hskip.
  simpl in Hsplit. subst inner. case_decide as Hlt; [exact Hskip|].
  destruct (kc_Spend_ok keys o now Hto) as (r&Hr&_). rewrite Hr.
  destruct r as [[i signers]|e]; [|exact Hskip].
  assert (utxo_Asset u = AVAXAssetID) as Ha by (by destruct (decide (utxo_Asset u = AVAXAssetID))).
  assert (split_LockOut (utxo_Out u) = (ifTransferOutput (Some o), t)) as Hsp by (by rewrite Eout).
  destruct (kc_Spend_entry u o t i signers Ha Hsp Hto Hv Hr) as (Hamt&[p ->]&Hentry). rewrite Hamt.
  apply is_ok_inv in Hid as [id Hid].
  assert (to_Amt o ≠ 0) as Hx0 by (intros E; simpl in Hv; by rewrite decide_True in Hv).
  destruct (stake_locked_inv s T1 locked pr ps u t o id (ifTransferInput p) signers Hi ltac:(lia) Ha Hsp ltac:(lia) Hx Hx0 Hid)
    as (e&pr1&ps1&<-&Hi'); [apply Hentry; simpl; by rewrite decide_False by tauto|].
  destruct (IH _ _ _ _ _ Hi') as (s'&T1'&l'&pr'&ps'&Hrun&Hinv&Hp).
  exists s', (e :: T1'), l', pr', ps'. split; [exact Hrun|]. split; [by rewrite <-app_assoc in Hinv|].
  apply picks_take; [done| |done]. unfold locktime. rewrite Hsp. simpl. lia.
Qed.

Definition burned_from (utxos : list UTXO) (T1 T2 : list entry) (locked : list (Z * ID * Z)) (r : option spending) : Prop :=
  ∃ s T2' plain pr ps, r = Some s ∧ spend_inv s T1 (T2 ++ T2') locked plain pr ps ∧ picks is_burning utxos T2'.

Lemma burned_stop utxos s T1 T2 locked plain pr ps :
  spend_inv s T1 T2 locked plain pr ps → burned_from utxos T1 T2 locked (Some s).
Proof.
  intros Hi. exists s, [], plain, pr, ps. rewrite app_nil_r. split; [done|]. split; [done|]. apply picks_nil.
Qed.

Lemma burned_skip u utxos T1 T2 locked r :
  burned_from utxos T1 T2 locked r → burned_from (u :: utxos) T1 T2 locked r.
Proof. intros (s&T&l&pr&ps&?&?&?). exists s, T, l, pr, ps. split_and!; try done. by apply picks_skip. Qed.

Lemma burn_loop_ok utxos s T1 T2 locked plain pr ps :
  spend_inv s T1 T2 locked plain pr ps → Forall utxo_typed utxos →
  burned_from utxos T1 T2 locked (burn_loop AVAXAssetID now (NewKeychain keys) amount fee changeAddr utxos s).
Proof using Hamount Hfee Hlater Hlaws.
  intros Hi Ht. revert s T2 plain pr ps Hi.
  induction Ht as [|u utxos Hu Hus IH]; intros s T2 plain pr ps Hi; cbn [burn_loop]; [by eapply burned_stop|].
  destruct (decide (fee ≤ sp_amountBurned s ∧ amount ≤ sp_amountStaked s)) as [Hd|Hd]; [by eapply burned_stop|].
  pose proof (burned_skip u _ _ _ _ _ (IH _ _ _ _ _ Hi)) as Hskip.
  case_decide as Hasset; [exact Hskip|]. destruct Hu as (o&Hsplit&Hx&Hto&Hv&Hid).
  destruct (split_LockOut (utxo_Out u)) as [out t] eqn:Hsp. simpl in Hsplit. subst out.
  case_decide as Hlt; [exact Hskip|].
  destruct (kc_Spend_ok keys o now Hto) as (r&Hr&_). rewrite Hr.
  destruct r as [[i signers]|e]; [|exact Hskip].
  assert (utxo_Asset u = AVAXAssetID) as Ha by (by destruct (decide (utxo_Asset u = AVAXAssetID))).
  destruct (kc_Spend_entry u o t i signers Ha Hsp Hto Hv Hr) as (Hamt&[p ->]&Hentry). rewrite Hamt.
  destruct (burn_unlocked_inv s T1 T2 locked plain pr ps u t o (ifTransferInput p) signers Hi Ha Hsp ltac:(lia) Hx Hid)
    as (e&pr1&ps1&<-&Hi'); [apply Hentry; simpl; by rewrite decide_False by lia|].
  destruct (IH _ _ _ _ _ Hi') as (s'&T2'&l'&pr'&ps'&Hrun&Hinv&Hp).
  exists s', (e :: T2'), l', pr', ps'. split; [exact Hrun|]. split; [by rewrite <-app_assoc in Hinv|].
  apply picks_take; [done| |done]. unfold locktime. rewrite Hsp. simpl. lia.
Qed.

(** The flows of the state cover each other once the fee is burned. *)
Lemma kept_minus_later locked k :
  is_locked k → flow_sum (kept_flow <$> locked) k - flow_sum (later_flow <$> locked) k =
  flow_sum (kept_flow <$> filter (λ x, x.1.1 ≤ later) locked) k.
Proof.
  intros Hk. induction locked as [|x locked IH]; [done|].
  rewrite !fmap_cons, !flow_sum_cons, filter_cons. unfold later_flow at 1. simpl.
  destruct (decide (x.1.1 ≤ later)) as [Hd|Hd].
  - rewrite fmap_cons, flow_sum_cons. rewrite (decide_False (P := (AVAXAssetID, None) = k)) by (by intros <-).
    unfold kept_flow at 2. simpl. case_decide; lia.
  - case_decide; lia.
Qed.

Lemma later_unlocked locked :
  flow_sum (later_flow <$> locked) (AVAXAssetID, None) = sumZ (filter (λ x, x.1.1 ≤ later) locked).*2.
Proof.
  induction locked as [|x locked IH]; [done|]. rewrite fmap_cons, flow_sum_cons, filter_cons, IH.
  unfold later_flow at 1. simpl. destruct (decide (x.1.1 ≤ later)) as [Hd|Hd].
  - rewrite decide_True by done. by rewrite fmap_cons, sumZ_cons.
  - by rewrite decide_False by congruence.
Qed.

Lemma plain_sum plain k : flow_sum (plain_flow <$> plain) k = if decide (k = (AVAXAssetID, None)) then sumZ plain else 0.
Proof.
  induction plain as [|x plain IH]; [by case_decide|]. rewrite fmap_cons, flow_sum_cons, sumZ_cons, IH. simpl.
  destruct (decide (k = (AVAXAssetID, None))) as [->|Hne]; [by rewrite decide_True|]. by rewrite decide_False by congruence.
Qed.

Lemma fmap_snd_flows (locked : list (Z * ID * Z)) (plain : list Z) :
  (kept_flow <$> locked).*2 = locked.*2 ∧ (later_flow <$> locked).*2 = locked.*2 ∧ (plain_flow <$> plain).*2 = plain.
Proof. rewrite <-!list_fmap_compose. split; [done|]. split; [done|]. apply list_fmap_id. Qed.

Lemma spend_inv_covered s T1 T2 locked plain pr ps :
  spend_inv s T1 T2 locked plain pr ps → sp_amountBurned s = fee → sumZ locked.*2 + sumZ plain ≤ MaxUint64 →
  covered ((later_flow <$> locked) ++ (plain_flow <$> plain)) (fee_flows {[ AVAXAssetID := fee ]} ++ (pr ++ ps)).
Proof using Hfee.
  intros [_ _ _ _ _ _ Hk Hkept Hch Htot Hok Hlok Hpok _ _ _] Hb Hmax. rewrite Hb in *.
  set (cons := _ ++ _). set (P := pr ++ ps) in *. set (prod := _ ++ P).
  destruct (fmap_snd_flows locked plain) as (E1&E2&E3).
  assert (fee_flows {[AVAXAssetID := fee]} = [plain_flow fee]) as Efee by (unfold fee_flows; by rewrite map_to_list_singleton).
  assert (flows_ok cons) as Hokc.
  { apply Forall_app. split; apply (Forall_fmap _ _ _); [by rewrite Forall_fmap in Hlok|done]. }
  assert (flows_ok prod) as Hokp by (unfold prod; rewrite Efee; by constructor).
  assert (∀ f, f ∈ prod → f.1.1 = AVAXAssetID) as Hkeys.
  { unfold prod. rewrite Efee. intros f [->|Hf]%elem_of_cons; [done|]. rewrite Forall_forall in Hk. by apply Hk. }
  split; [|split].
  - intros k. etrans; [by apply flow_sum_le_total|]. unfold cons. rewrite fmap_app, E2, E3, sumZ_app. lia.
  - intros k. etrans; [by apply flow_sum_le_total|]. unfold prod. rewrite Efee, fmap_app, sumZ_app. simpl.
    rewrite sumZ_cons. change (sumZ []) with 0. lia.
  - intros a. destruct (decide (a = AVAXAssetID)) as [->|Hne].
    2:{ rewrite flow_sum_no_key by (intros f Hf E; apply Hne; by rewrite <-(Hkeys f Hf), E).
        rewrite flow_sum_no_key; [by apply flow_sum_nonneg|].
        intros f (k&->&[_ [x Hx]]%locked_keys_spec)%list_elem_of_fmap. simpl. intros <-. by apply Hne, (Hkeys _ Hx). }
    unfold increases. rewrite (flow_sum_map fst). set (ks := filter _ _).
    assert (Forall is_locked ks) as Hlocked.
    { apply Forall_forall. intros k [_ [? _]%locked_keys_spec]%list_elem_of_filter. done. }
    assert (NoDup ks) as Hnd by apply NoDup_filter, NoDup_locked_keys.
    set (D := filter (λ x : Z * ID * Z, x.1.1 ≤ later) locked).
    assert (flows_ok (kept_flow <$> D)) as HokD.
    { apply Forall_fmap, Forall_forall. intros x [_ Hx]%list_elem_of_filter.
      rewrite Forall_fmap, Forall_forall in Hlok. by apply Hlok. }
    rewrite (Forall_fmap_ext_1 _ (flow_sum (kept_flow <$> D)) ks).
    + etrans; [by apply Z.add_le_mono_l, flow_partition_le|].
      destruct (fmap_snd_flows D plain) as [-> _]. unfold cons, prod.
      rewrite !flow_sum_app, later_unlocked, plain_sum, decide_True, fee_flows_unlocked by done.
      unfold amount_of. rewrite lookup_singleton_eq. cbn [default]. fold D. unfold id. lia.
    + eapply Forall_impl; [exact Hlocked|]. intros k Hl. cbv beta.
      pose proof (flow_sum_nonneg _ k HokD) as HD. unfold D in HD |- *. rewrite <-kept_minus_later in HD |- * by done.
      assert (flow_sum prod k = flow_sum (kept_flow <$> locked) k) as ->.
      { unfold prod. rewrite Efee. simpl. rewrite flow_sum_cons, decide_False by (by intros <-). by apply Hkept. }
      assert (flow_sum cons k = flow_sum (later_flow <$> locked) k) as ->; [|lia].
      unfold cons. rewrite flow_sum_app, plain_sum, decide_False by (by intros ->). lia.
Qed.

(** The outputs that were picked are distinct. *)
Lemma picks_distinct utxos T1 T2 :
  NoDup utxos → picks is_staking utxos T1 → picks is_burning utxos T2 → (T1 ++ T2).*1 ⊆+ utxos.
Proof.
  intros Hnd [Hs1 Ha1] [Hs2 Ha2]. apply NoDup_submseteq.
  - rewrite fmap_app. apply NoDup_app. split_and!; [by eapply sublist_NoDup| |by eapply sublist_NoDup].
    intros u (e1&->&Hin1)%list_elem_of_fmap (e2&E&Hin2)%list_elem_of_fmap.
    rewrite Forall_forall in Ha1, Ha2. destruct (Ha1 e1 Hin1), (Ha2 e2 Hin2). rewrite E in *. lia.
  - intros u Hu. rewrite fmap_app in Hu. apply elem_of_app in Hu as [Hu|Hu]; (eapply elem_of_submseteq; [exact Hu|by apply sublist_submseteq]).
Qed.

(** Inputs with distinct outputs are in strict order once they are sorted. *)
Lemma sort_inputs_sorted {A} (ins : list (TransferableInput * A)) :
  NoDup ((λ x, tin_UTXOID x.1) <$> ins) →
  Sorted utxoid_lt ((λ x, tin_UTXOID x.1) <$> SortTransferableInputsWithSigners ins).
Proof.
  intros Hnd. unfold SortTransferableInputsWithSigners. set (less := λ a b : TransferableInput * A, _).
  assert (∀ x y, not_less less x y ↔ utxoid_lt (tin_UTXOID x.1) (tin_UTXOID y.1) ∨ tin_UTXOID x.1 = tin_UTXOID y.1) as Hnl.
  { intros x y. apply utxoid_not_less. }
  assert (StronglySorted (not_less less) (go_sort less ins)) as Hs.
  { apply go_sort_sorted.
    - intros x y z. rewrite !Hnl. intros [H1'|E1] [H2'|E2]; [left; by etrans|left; by rewrite <-E2|left; by rewrite E1|right; congruence].
    - intros x y. rewrite !Hnl. destruct (utxoid_lt_total (tin_UTXOID x.1) (tin_UTXOID y.1)) as [?|[?|?]]; [left|left|right]; auto. }
  rewrite <-(go_sort_perm _ less ins) in Hnd. apply StronglySorted_Sorted.
  induction Hs as [|x l Hs IH Hx]; [constructor|]. rewrite fmap_cons in *. apply NoDup_cons in Hnd as [Hn Hnd].
  constructor; [by apply IH|]. apply Forall_fmap, Forall_forall. intros y Hy. rewrite Forall_forall in Hx.
  simpl. destruct (proj1 (Hnl x y) (Hx y Hy)) as [?|E]; [done|]. destruct Hn. rewrite E. apply list_elem_of_fmap. by exists y.
Qed.

(** Outputs that the codec can encode are in order once they are sorted. *)
Lemma bytes_ltb_asym a b : bytes_ltb a b = true → bytes_ltb b a = false.
Proof. intros Hab. apply bytes_le_lt. by left. Qed.

Lemma output_not_less m x y bx by_ : m (tout_Out x) = Some bx → m (tout_Out y) = Some by_ →
  not_less (output_less m) x y ↔ bytes_lt (id_bytes (tout_Asset x)) (id_bytes (tout_Asset y)) ∨
    id_bytes (tout_Asset x) = id_bytes (tout_Asset y) ∧ bytes_le bx by_.
Proof.
  intros Hx Hy. unfold not_less, output_less. rewrite Hx, Hy. destruct (bytes_lt_total (id_bytes (tout_Asset x)) (id_bytes (tout_Asset y))) as [Hl|[He|Hl]].
  - rewrite (bytes_ltb_asym _ _ Hl), Hl. tauto.
  - rewrite He. pose proof (bytes_lt_irrefl (id_bytes (tout_Asset y))) as Hirr. unfold bytes_lt, bytes_le in *.
    destruct (bytes_ltb (id_bytes (tout_Asset y)) _); [done|]. tauto.
  - rewrite Hl. split; [done|]. intros [Hl'|[He _]]; [|rewrite He in Hl]; by destruct (bytes_lt_irrefl (id_bytes (tout_Asset y))); try (etrans; done).
Qed.

Lemma output_less_total m : Total (not_less (output_less m)).
Proof.
  intros x y. unfold not_less. destruct (output_less m y x) eqn:E; [right|by left]. unfold output_less in *.
  destruct (bytes_ltb (id_bytes (tout_Asset y)) _) eqn:E1; [by rewrite (bytes_ltb_asym _ _ E1)|].
  destruct (bytes_ltb (id_bytes (tout_Asset x)) _) eqn:E2; [done|].
  destruct (m (tout_Out y)); [|done]. destruct (m (tout_Out x)); [|done]. by apply bytes_ltb_asym.
Qed.

Lemma StronglySorted_IsSorted {A} (less : A → A → bool) l : StronglySorted (not_less less) l → IsSorted less l = true.
Proof.
  induction 1 as [|x l _ IH Hx]; [done|]. destruct l as [|y l]; [done|]. cbn [IsSorted]. apply Forall_cons in Hx as [Hy _]. unfold not_less in Hy. by rewrite Hy.
Qed.

Lemma sort_outputs_sorted m outs :
  Forall (λ o, is_Some (m (tout_Out o))) outs → IsSortedTransferableOutputs m (SortTransferableOutputs m outs) = true.
Proof.
  intros Hm. rewrite Forall_forall in Hm. apply StronglySorted_IsSorted, go_sort_sorted_on; [|apply output_less_total].
  intros x y z Hx Hy Hz. destruct (Hm x Hx) as [bx Ex], (Hm y Hy) as [b_y Ey], (Hm z Hz) as [bz Ez].
  rewrite (output_not_less _ _ _ _ _ Ex Ey), (output_not_less _ _ _ _ _ Ey Ez), (output_not_less _ _ _ _ _ Ex Ez).
  intros [Hxy|[Exy Hxy]] [Hyz|[Eyz Hyz]]; [left; by etrans|left; congruence|left; congruence|right; split; [congruence|by etrans]].
Qed.

Lemma zip_fmap3 {A B C D} (f : A → B) (g : A → C) (h : A → D) l :
  zip (zip (f <$> l) (g <$> l)) (h <$> l) = (λ x, (f x, g x, h x)) <$> l.
Proof. induction l as [|x l IH]; [done|]. csimpl. by rewrite IH. Qed.

Lemma asset_total_all fs : Forall (λ f, f.1.1 = AVAXAssetID) fs → asset_total fs AVAXAssetID = sumZ fs.*2.
Proof.
  induction 1 as [|f fs Hf _ IH]; [done|]. unfold asset_total in *. rewrite !fmap_cons, flow_sum_cons, sumZ_cons, IH.
  simpl. by rewrite decide_True.
Qed.

Lemma utxo_typed_amount u : utxo_typed u → amount_ok (utxo_Out u).
Proof. intros (o&Hs&Hx&_) x. rewrite <-split_Amount, Hs. by intros [= <-]. Qed.
Lemma produced_amounts outs prod :
  flows_ok prod → mapM produced outs = Some prod → Forall (λ o, amount_ok (tout_Out o)) outs.
Proof.
  intros Hok Hm%mapM_Some. induction Hm as [|o f outs prod Hf _ IH]; constructor.
  - apply Forall_cons in Hok as [Hok _]. intros x. rewrite <-split_Amount. unfold produced_flow in Hf.
    destruct (split_LockOut (tout_Out o)) as [out t]. destruct (lock_of _ _ _ _ _); simpl in Hf; [|done].
    simpl. intros E. rewrite E in Hf. injection Hf as <-. exact Hok.
  - apply IH. by apply Forall_cons in Hok as [_ ?].
Qed.

(** What the state consumes is worth the outputs that were picked. *)
Lemma spend_inv_worth s T1 T2 locked plain pr ps :
  spend_inv s T1 T2 locked plain pr ps →
  mapM consumed (T1 ++ T2).*1 = Some ((later_flow <$> locked) ++ (plain_flow <$> plain)) ∧
  sumZ (worth AVAXAssetID <$> (T1 ++ T2).*1) = sumZ locked.*2 + sumZ plain.
Proof.
  intros [_ _ Hlk Hpl _ _ _ _ _ _ _ _ _ _ _ _].
  assert (mapM consumed (T1 ++ T2).*1 = Some ((later_flow <$> locked) ++ (plain_flow <$> plain))) as Hm
    by (rewrite fmap_app; by apply mapM_app_Some).
  split; [exact Hm|]. rewrite (consumed_worth _ _ _ _ _ _ Hm), asset_total_all.
  - destruct (fmap_snd_flows locked plain) as (_&E2&E3). by rewrite fmap_app, sumZ_app, E2, E3.
  - apply Forall_app. split; by apply Forall_fmap, Forall_true.
Qed.

(** The inputs of the state after sorting, with the outputs they spend. *)
Lemma spend_inv_sorted s T1 T2 locked plain pr ps utxos :
  spend_inv s T1 T2 locked plain pr ps → (T1 ++ T2).*1 ⊆+ utxos → NoDup (utxo_InputID <$> utxos) →
  let ins := SortTransferableInputsWithSigners (sp_ins s) in
  ∃ T, T ≡ₚ T1 ++ T2 ∧ ins = T.*2 ∧ Forall entry_ok T ∧
    Forall2 (λ u x, utxo_UTXOID u = tin_UTXOID x.1) T.*1 ins ∧ Sorted utxoid_lt ((λ x, tin_UTXOID x.1) <$> ins).
Proof.
  intros [Hins Hent _ _ _ _ _ _ _ _ _ _ _ _ _ _] Hsub Hnd ins.
  assert (ins ≡ₚ (T1 ++ T2).*2) as Hp by (unfold ins, SortTransferableInputsWithSigners; by rewrite go_sort_perm, Hins).
  apply Permutation_map_inv in Hp as (T&ET&HT). change (map snd T) with (T.*2) in ET.
  assert (Forall entry_ok T) as HentT by (by rewrite <-HT).
  assert (∀ T', Forall entry_ok T' → (λ x : TransferableInput * list PrivateKey, tin_UTXOID x.1) <$> T'.*2 = utxo_UTXOID <$> T'.*1) as Huid.
  { intros T'. induction 1 as [|[u [i sg]] T' He _ IH]; [done|]. rewrite !fmap_cons, IH. f_equal. apply He. }
  exists T. split; [by symmetry|]. split; [done|]. split; [done|]. split.
  - rewrite ET. clear -HentT. induction HentT as [|[u [i sg]] T' He _ IH]; constructor; [|done]. symmetry. apply He.
  - apply sort_inputs_sorted. rewrite Hins, Huid by done. apply (NoDup_fmap_1 InputID). rewrite <-list_fmap_compose.
    eapply submseteq_NoDup; [|exact Hnd]. by apply (fmap_submseteq utxo_InputID).
Qed.

(** The inputs and outputs after sorting, with the output every input spends. *)
Lemma spend_utxos_accepted utxos r :
  NoDup (utxo_InputID <$> utxos) → Forall utxo_typed utxos → sumZ (worth AVAXAssetID <$> utxos) ≤ MaxUint64 →
  spend_utxos Implements registered AVAXAssetID now utxos keys amount fee changeAddr = r →
  match r with
  | Err e => e = errBalance
  | Ok (ins, returned, staked) => ∃ us cons prod,
      us ⊆ utxos ∧ Forall2 (λ u x, utxo_UTXOID u = tin_UTXOID x.1) us ins ∧
      Sorted utxoid_lt ((λ x, tin_UTXOID x.1) <$> ins) ∧ sumZ (out_worth AVAXAssetID <$> staked) = amount ∧
      (∀ outs, outs = returned ∨ outs = staked → Forall (λ o, is_Some (marshal_out Implements registered (tout_Out o))) outs →
        IsSortedTransferableOutputs (marshal_out Implements registered) outs = true) ∧
      Forall (λ o, amount_ok (tout_Out o)) (returned ++ staked) ∧
      spends Implements registered fx later (ifTx utx) us ins.*1 (returned ++ staked) (signed <$> ins)
        {[ AVAXAssetID := fee ]} cons prod
  end.
Proof using Hnow Hlater Hamount Hfee Hlaws.
  intros Hnd Ht Hmax <-. unfold spend_utxos.
  destruct (stake_loop_ok utxos _ _ _ _ _ spend_inv_init Ht) as (s1&T1&locked&pr1&ps1&->&Hi1&Hp1).
  destruct (burn_loop_ok utxos _ _ _ _ _ _ _ Hi1 Ht) as (s&T2&plain&pr&ps&->&Hi&Hp2).
  simpl in Hi. case_decide as Hd; [done|].
  assert ((T1 ++ T2).*1 ⊆+ utxos) as Hsub by (by apply picks_distinct; [eapply NoDup_fmap_1|..]).
  destruct (spend_inv_worth _ _ _ _ _ _ _ Hi) as [Hcons Hworth].
  destruct (spend_inv_sorted _ _ _ _ _ _ _ _ Hi Hsub Hnd) as (T&HT&->&Hent&Huid&Hsort).
  assert (sumZ locked.*2 + sumZ plain ≤ MaxUint64) as Hle.
  { rewrite <-Hworth. etrans; [|exact Hmax]. apply sumZ_submseteq; [done|]. intros u Hu.
    rewrite Forall_forall in Ht. by apply worth_nonneg, utxo_typed_amount, Ht. }
  assert (sp_amountBurned s = fee) as Hb by (destruct (si_burned_le _ _ _ _ _ _ _ Hi); lia).
  pose proof (spend_inv_covered _ _ _ _ _ _ _ Hi Hb Hle) as Hcov.
  destruct Hi as [_ _ _ _ Hpr Hps Hk _ _ _ Hok _ _ Hst Hstle _].
  destruct (mapM_perm consumed (T1 ++ T2).*1 T.*1 _ ltac:(by rewrite HT) Hcons) as (cons&Hcons'&Hpc).
  pose proof (λ outs, Permutation_sym (go_sort_perm _ (output_less (marshal_out Implements registered)) outs)) as Hsp.
  destruct (mapM_perm produced _ _ _ (Hsp _) Hpr) as (pr'&Hpr'&Hpp).
  destruct (mapM_perm produced _ _ _ (Hsp _) Hps) as (ps'&Hps'&Hpps).
  exists T.*1, cons, (pr' ++ ps'). split_and!; [|exact Huid|exact Hsort| | | |].
  - intros u Hu. rewrite HT in Hu. by eapply elem_of_submseteq.
  - rewrite (produced_worth _ _ _ _ _ Hps'), asset_total_all.
    + rewrite <-Hpps, Hst. lia.
    + rewrite <-Hpps. by apply Forall_app in Hk as [_ ?].
  - intros outs [-> | ->] Hm; unfold SortTransferableOutputs in Hm; rewrite go_sort_perm in Hm; by apply sort_outputs_sorted.
  - eapply produced_amounts; [|by apply mapM_app_Some]. unfold flows_ok. by rewrite <-Hpp, <-Hpps.
  - split.
    + by rewrite !length_fmap.
    + by rewrite !length_fmap.
    + apply Forall_fmap, Forall_true. done.
    + rewrite <-!list_fmap_compose, zip_fmap3. apply Forall_fmap. eapply Forall_impl; [exact Hent|].
      intros [u [i sg]] [_ He]. exact He.
    + done.
    + by apply mapM_app_Some.
    + eapply covered_perm; [exact Hpc| |exact Hcov]. by rewrite Hpp, Hpps.
Qed.
End spend.

(** C30: [Spend] never gives up for want of anything but funds, and what it builds is
    accepted: the inputs are in order, and so are the outputs, both those that are
    returned and those that are staked, as long as the codec can encode them (the
    order is that of their encodings); the outputs that are staked are worth the
    amount, and with credentials signed by the keys it returns, [VerifySpend] passes
    for a transaction that burns the fee, now and at any later time. *)
Theorem Spend_accepted `{Crypto, !CryptoLaws} `{GoRange, GoSort, GoAppend} {S : Type} `{!UTXOSet S} `{!UTXOSetLaws S}
    (Implements : gotype → positive → bool) (registered : linearCodec) (UTXOIDs : bytes → ID → Z → option (list ID))
    (AVAXAssetID : ID) (now later : Z) (fx : Fx) (utx : bytes) (db : S) (keys : list PrivateKey) (amount fee : Z)
    (changeAddr : ShortID) :
  0 ≤ now ≤ later → is_u64 amount → is_u64 fee → keyed db →
  (∀ id u, utxo_view db !! id = Some u → utxo_typed Implements registered u) →
  supply db AVAXAssetID ≤ MaxUint64 →
  match Spend Implements registered AVAXAssetID now UTXOIDs db keys amount fee changeAddr with
  | Err e => e = errCantGetUTXOs ∨ e = errBalance
  | Ok (ins, returned, staked) =>
      Sorted utxoid_lt ((λ x, tin_UTXOID x.1) <$> ins) ∧ sumZ (out_worth AVAXAssetID <$> staked) = amount ∧
      (∀ outs, outs = returned ∨ outs = staked → Forall (λ o, is_Some (marshal_out Implements registered (tout_Out o))) outs →
        IsSortedTransferableOutputs (marshal_out Implements registered) outs = true) ∧
      ∃ m, VerifySpend Implements registered fx later (ifTx utx) db ins.*1 (returned ++ staked) (signed utx <$> ins)
        {[ AVAXAssetID := fee ]} = Ok m
  end.
Proof.
  intros [Hnow Hlater] Hamt Hfee Hkeyed Htyped Hsup. unfold Spend.
  destruct (GetAllUTXOs _ _ _) as [utxos|] eqn:Eg; [|by left].
  destruct (GetAllUTXOs_fetched _ _ _ _ Hkeyed Eg) as [Hnd Hview].
  assert (Forall (utxo_typed Implements registered) utxos) as Ht.
  { eapply Forall_impl; [exact Hview|]. intros u. apply Htyped. }
  assert (utxos_ok db) as Hok by (intros id u Hu; eapply utxo_typed_amount, Htyped, Hu).
  pose proof (fetched_supply db utxos AVAXAssetID Hok Hnd Hview) as Hle.
  pose proof (spend_utxos_accepted Implements registered AVAXAssetID now fx later utx keys amount fee changeAddr
    Hnow Hlater Hamt Hfee utxos _ Hnd Ht ltac:(lia) eq_refl) as Hs.
  destruct (spend_utxos _ _ _ _ _ _ _ _ _) as [[[ins returned] staked]|e]; [|by right].
  destruct Hs as (us&cons&prod&Hsub&Huid&Hsort&Hst&Hord&Hout&Hsp). split; [done|]. split; [done|]. split; [done|].
  rewrite Forall_forall in Hview.
  assert (get_utxos db ins.*1 = Some us) as Hget.
  { apply get_utxos_complete. clear -Huid Hsub Hview. induction Huid as [|u x us ins Hu _ IH]; constructor.
    - rewrite <-Hu. apply Hview, Hsub. left.
    - apply IH. intros v Hv. apply Hsub. by right. }
  unfold VerifySpend. rewrite Hget.
  assert (fee_ok {[AVAXAssetID := fee]}) as Hfo.
  { intros a. unfold amount_of. destruct (decide (AVAXAssetID = a)) as [<-|]; [by rewrite lookup_singleton_eq|].
    rewrite lookup_singleton_ne by done. unfold is_uint. simpl. lia. }
  pose proof (VerifySpendUTXOs_spec Implements registered fx later (ifTx utx) us ins.*1 (returned ++ staked)
    (signed utx <$> ins) _ (get_utxos_ok _ _ _ Hok Hget) Hout Hfo) as Hv.
  destruct (VerifySpendUTXOs _ _ _ _ _ _ _ _ _ _) as [m|e]; [by exists m|]. by destruct (Hv cons prod).
Qed.

(** A locked output of 100 and another of 20: 110 are staked and 5 burned. *)
Section examples.
#[local] Existing Instances toy_crypto toy_laws go_range_std go_sort_std go_append_tight.

Definition ex_locked : UTXO := mkUTXO (mkUTXOID (id1 x07) 1) ex_asset (ifLockOut 50 (ex_out 100)).
Definition ex_plain : UTXO := mkUTXO (mkUTXOID (id1 x07) 0) ex_asset (ex_out 20).
Definition ex_db : gmap ID UTXO := {[ utxo_InputID ex_locked := ex_locked; utxo_InputID ex_plain := ex_plain ]}.
Definition ex_reader (addr : bytes) (start : ID) (limit : Z) : option (list ID) :=
  Some [utxo_InputID ex_locked; utxo_InputID ex_plain].
(** A codec that knows the outputs of transfers and locked outputs. *)
Definition ex_codec : linearCodec :=
  (linear_RegisterType (TPtr lockOut_type) (linear_RegisterType (TPtr transferOutput_type) (linear_SkipRegistrations 2 linear_New)).2).2.
Definition ex_Spend :=
  Spend (λ _ _, true) ex_codec ex_asset 3 ex_reader ex_db [ex_key] 110 5 ex_key.

Lemma ex_db_cases id u : ex_db !! id = Some u → (id, u) = (utxo_InputID ex_locked, ex_locked) ∨ (id, u) = (utxo_InputID ex_plain, ex_plain).
Proof.
  unfold ex_db. intros [[<- <-]|[_ [<- <-]%lookup_singleton_Some]]%lookup_insert_Some; [by left|by right].
Qed.

Lemma ex_typed amt : is_u64 amt → amt ≠ 0 →
  is_ok (ownerID (λ _ _, true) ex_codec (mkOwners 0 1 [ex_key])) = true →
  ∃ o, ex_out amt = ifTransferOutput (Some o) ∧ is_u64 (to_Amt o) ∧
    typed_owners (to_Owners o) ∧ TransferOutput_Verify (Some o) = Ok tt ∧
    is_ok (ownerID (λ _ _, true) ex_codec (to_Owners o)) = true.
Proof.
  intros Hu Hz Hid. eexists. split; [done|]. split; [done|]. split; [|split; [|done]].
  - unfold typed_owners, is_uint. simpl. lia.
  - simpl. by rewrite decide_False.
Qed.

Lemma Spend_accepted_witness :
  ∃ ins returned staked, ex_Spend = Ok (ins, returned, staked) ∧ length ins = 2%nat ∧ length staked = 2%nat ∧
    IsSortedTransferableOutputs (marshal_out (λ _ _, true) ex_codec) staked = true ∧
    sumZ (out_worth ex_asset <$> staked) = 110 ∧
    ∃ m, VerifySpend (λ _ _, true) ex_codec (mkFx true) 60 (ifTx [x09]) ex_db ins.*1 (returned ++ staked)
      (signed [x09] <$> ins) {[ ex_asset := 5 ]} = Ok m.
Proof.
  assert (is_ok (ownerID (λ _ _, true) ex_codec (mkOwners 0 1 [ex_key])) = true) as Hid by (vm_compute; reflexivity).
  assert (match ex_Spend with Ok (ins, _, staked) => (length ins, length staked, forallb (λ o, bool_decide (is_Some (marshal_out (λ _ _, true) ex_codec (tout_Out o)))) staked) | Err _ => (0%nat, 0%nat, false) end = (2%nat, 2%nat, true)) as Hlen by (vm_compute; reflexivity).
  pose proof (Spend_accepted (λ _ _, true) ex_codec ex_reader ex_asset 3 60 (mkFx true) [x09] ex_db [ex_key] 110 5 ex_key) as Hs.
  fold ex_Spend in Hs. destruct ex_Spend as [[[ins returned] staked]|e]; [|done].
  injection Hlen as Hlen Hlen' Hmar. destruct Hs as (_&Hst&Hord&Hv).
  - lia.
  - unfold is_uint. lia.
  - unfold is_uint. lia.
  - intros id u [[= -> ->]|[= -> ->]]%ex_db_cases; reflexivity.
  - intros id u [[= -> ->]|[= -> ->]]%ex_db_cases.
    + exact (ex_typed 100 ltac:(unfold is_uint; lia) ltac:(lia) Hid).
    + exact (ex_typed 20 ltac:(unfold is_uint; lia) ltac:(lia) Hid).
  - assert (supply ex_db ex_asset = 120) as ->; [|unfold MaxUint64; lia].
    unfold supply, map_supply. simpl. unfold ex_db. rewrite map_to_list_insert by (vm_compute; reflexivity).
    rewrite map_to_list_singleton. reflexivity.
  - exists ins, returned, staked. split; [done|]. split; [done|]. split; [done|]. split; [|split; [exact Hst|exact Hv]].
    apply Hord; [by right|]. apply Is_true_true, forallb_True in Hmar. eapply Forall_impl; [exact Hmar|]. intros o. simpl. by rewrite bool_decide_spec.
Defined.
End examples.
