(* ===== verification/Snowstorm.v ===== *)
(** The conflict graph of transactions (src/snow/consensus/snowstorm: directed.go,
    snowball.go, acceptor.go, rejector.go; src/snow/events/blocker.go).

    Transactions that consume a common input conflict, and so do transactions that
    a whitelist does not name.  A processing transaction is a node with edges to the
    conflicting transactions that are preferred over it ([outs]) and from those it
    is preferred over ([ins]).  A poll credits the transactions with alpha votes and
    turns edges; a transaction with enough consecutive successful polls is accepted
    once its dependencies are, which rejects all its conflicts, and with each
    rejected transaction those that depend on it.

    A transaction is its identifier; what it is asked for are functions of
    [TxContext].  Acceptors and rejectors are shared between the lists of a blocker:
    they are indices into a store.  Metrics and logging are left out. *)

From S2P Require Import Prelude Ids Bag Snowball Topological.
From Stdlib Require Import Strings.Byte.

(** ** What a transaction answers *)

(** The calls consensus makes on transactions and on the acceptors of its context.
    A call changes the world or returns an error. *)
Class TxContext : Type := {
  tx_world : Type;
  tx_error : Type;
  tx_Status : tx_world → ID → Status;
  tx_Accept : ID → tx_world → result tx_error tx_world;
  tx_Reject : ID → tx_world → result tx_error tx_world;
  tx_DecisionAccept : ID → tx_world → result tx_error tx_world;
  tx_InputIDs : ID → list ID;
  tx_Dependencies : ID → result tx_error (list ID);
  tx_HasWhitelist : ID → bool;
  tx_Whitelist : ID → result tx_error (gset ID);
  tx_HasBytes : ID → bool;
}.

(** [Decidable]: [Accept] and [Reject] move the status of their transaction and
    nothing else does. *)
Class TxLaws `{TxContext} : Prop := {
  tx_Accept_status : ∀ t w w', tx_Accept t w = Ok w' →
    ∀ id, tx_Status w' id = if decide (id = t) then Accepted else tx_Status w id;
  tx_Reject_status : ∀ t w w', tx_Reject t w = Ok w' →
    ∀ id, tx_Status w' id = if decide (id = t) then Rejected else tx_Status w id;
  tx_DecisionAccept_status : ∀ t w w', tx_DecisionAccept t w = Ok w' →
    ∀ id, tx_Status w' id = tx_Status w id;
}.

(** ** snowball.go *)

Record snowball := mkSnowball {
  numSuccessfulPolls : Z;
  confidence : Z;
  lastVote : Z;
  rogue : bool;
}.

Definition getConfidence (currentVote : Z) (sb : snowball) : Z :=
  if decide (lastVote sb ≠ currentVote) then 0 else confidence sb.

Definition recordSuccessfulPoll (currentVote : Z) (sb : snowball) : snowball :=
  let confidence := if decide (wrap64 (lastVote sb + 1) ≠ currentVote) then 0 else confidence sb in
  mkSnowball (numSuccessfulPolls sb + 1) (confidence + 1) currentVote (rogue sb).

Definition finalized (betaVirtuous betaRogue : Z) (sb : snowball) : bool :=
  (negb (rogue sb) && bool_decide (betaVirtuous ≤ confidence sb)) || bool_decide (betaRogue ≤ confidence sb).

(** ** events.Blocker *)

(** The objects that wait for an event, by their index in the store. *)
Definition Blocker : Type := gmap ID (list nat).

(** The objects that are told about an event, and what remains. *)
Definition blocker_take (id : ID) (b : Blocker) : list nat * Blocker := (default [] (b !! id), delete id b).

Definition blocker_wait (pending : nat) (b : Blocker) (id : ID) : Blocker :=
  <[id := default [] (b !! id) ++ [pending]]> b.

Record acceptor := mkAcceptor { ac_deps : gset ID; ac_rejected : bool; ac_txID : ID }.
Record rejector := mkRejector { rj_deps : gset ID; rj_rejected : bool; rj_txID : ID }.

(** ** Directed *)

Record directedTx := mkDirectedTx {
  dt_snowball : snowball;
  dt_pendingAccept : bool;
  dt_ins : gset ID;
  dt_outs : gset ID;
}.

Definition set_sb (f : snowball → snowball) (n : directedTx) : directedTx :=
  mkDirectedTx (f (dt_snowball n)) (dt_pendingAccept n) (dt_ins n) (dt_outs n).
Definition set_edges (ins outs : gset ID) (n : directedTx) : directedTx :=
  mkDirectedTx (dt_snowball n) (dt_pendingAccept n) ins outs.
Definition set_pendingAccept (n : directedTx) : directedTx :=
  mkDirectedTx (dt_snowball n) true (dt_ins n) (dt_outs n).

Section directed.
Context `{GoRange, TxContext}.

Record Directed := mkDirected {
  dg_params : Parameters;
  dg_preferences : gset ID;
  dg_virtuous : gset ID;
  dg_virtuousVoting : gset ID;
  dg_pollNumber : Z;
  dg_pendingAccept : Blocker;
  dg_pendingReject : Blocker;
  dg_errs : option tx_error;
  dg_txs : gmap ID directedTx;
  dg_utxos : gmap ID (gset ID);
  dg_whitelists : gmap ID (gset ID);
  dg_acceptors : list acceptor;
  dg_rejectors : list rejector;
  dg_world : tx_world;
}.

Definition Directed_Initialize (params : Parameters) (w : tx_world) : Directed :=
  mkDirected params ∅ ∅ ∅ 0 ∅ ∅ None ∅ ∅ ∅ [] [] w.

(** *** Updates of the fields *)

Definition upd_sets (p v vv : gset ID → gset ID) (d : Directed) : Directed :=
  mkDirected (dg_params d) (p (dg_preferences d)) (v (dg_virtuous d)) (vv (dg_virtuousVoting d)) (dg_pollNumber d)
    (dg_pendingAccept d) (dg_pendingReject d) (dg_errs d) (dg_txs d) (dg_utxos d) (dg_whitelists d)
    (dg_acceptors d) (dg_rejectors d) (dg_world d).
Definition upd_txs (f : gmap ID directedTx → gmap ID directedTx) (d : Directed) : Directed :=
  mkDirected (dg_params d) (dg_preferences d) (dg_virtuous d) (dg_virtuousVoting d) (dg_pollNumber d)
    (dg_pendingAccept d) (dg_pendingReject d) (dg_errs d) (f (dg_txs d)) (dg_utxos d) (dg_whitelists d)
    (dg_acceptors d) (dg_rejectors d) (dg_world d).
Definition upd_utxos (f : gmap ID (gset ID) → gmap ID (gset ID)) (d : Directed) : Directed :=
  mkDirected (dg_params d) (dg_preferences d) (dg_virtuous d) (dg_virtuousVoting d) (dg_pollNumber d)
    (dg_pendingAccept d) (dg_pendingReject d) (dg_errs d) (dg_txs d) (f (dg_utxos d)) (dg_whitelists d)
    (dg_acceptors d) (dg_rejectors d) (dg_world d).
Definition upd_whitelists (f : gmap ID (gset ID) → gmap ID (gset ID)) (d : Directed) : Directed :=
  mkDirected (dg_params d) (dg_preferences d) (dg_virtuous d) (dg_virtuousVoting d) (dg_pollNumber d)
    (dg_pendingAccept d) (dg_pendingReject d) (dg_errs d) (dg_txs d) (dg_utxos d) (f (dg_whitelists d))
    (dg_acceptors d) (dg_rejectors d) (dg_world d).
Definition upd_accepting (b : Blocker) (l : list acceptor) (d : Directed) : Directed :=
  mkDirected (dg_params d) (dg_preferences d) (dg_virtuous d) (dg_virtuousVoting d) (dg_pollNumber d)
    b (dg_pendingReject d) (dg_errs d) (dg_txs d) (dg_utxos d) (dg_whitelists d)
    l (dg_rejectors d) (dg_world d).
Definition upd_rejecting (b : Blocker) (l : list rejector) (d : Directed) : Directed :=
  mkDirected (dg_params d) (dg_preferences d) (dg_virtuous d) (dg_virtuousVoting d) (dg_pollNumber d)
    (dg_pendingAccept d) b (dg_errs d) (dg_txs d) (dg_utxos d) (dg_whitelists d)
    (dg_acceptors d) l (dg_world d).
Definition upd_world (w : tx_world) (d : Directed) : Directed :=
  mkDirected (dg_params d) (dg_preferences d) (dg_virtuous d) (dg_virtuousVoting d) (dg_pollNumber d)
    (dg_pendingAccept d) (dg_pendingReject d) (dg_errs d) (dg_txs d) (dg_utxos d) (dg_whitelists d)
    (dg_acceptors d) (dg_rejectors d) w.
(** [Errs.Add] of the result of a call *)
Definition upd_errs (e : option tx_error) (d : Directed) : Directed :=
  mkDirected (dg_params d) (dg_preferences d) (dg_virtuous d) (dg_virtuousVoting d) (dg_pollNumber d)
    (dg_pendingAccept d) (dg_pendingReject d) (match dg_errs d with Some e => Some e | None => e end)
    (dg_txs d) (dg_utxos d) (dg_whitelists d) (dg_acceptors d) (dg_rejectors d) (dg_world d).
Definition upd_pollNumber (n : Z) (d : Directed) : Directed :=
  mkDirected (dg_params d) (dg_preferences d) (dg_virtuous d) (dg_virtuousVoting d) n
    (dg_pendingAccept d) (dg_pendingReject d) (dg_errs d) (dg_txs d) (dg_utxos d) (dg_whitelists d)
    (dg_acceptors d) (dg_rejectors d) (dg_world d).

Definition set_remove (id : ID) (s : gset ID) : gset ID := s ∖ {[id]}.
Definition set_add (id : ID) (s : gset ID) : gset ID := {[id]} ∪ s.
(** [range] over a set *)
Definition range_set (s : gset ID) : list ID := (go_range (gset_to_gmap tt s)).*1.

(** A call: a nil dereference, or a result and the state after the call.  An
    error ends the calls around it. *)
Definition storm (A : Type) : Type := Directed → option (result tx_error A * Directed).
Definition sret {A} (a : A) : storm A := λ d, Some (Ok a, d).
Definition sbind {A B} (m : storm A) (k : A → storm B) : storm B := λ d,
  match m d with
  | None => None
  | Some (Ok a, d) => k a d
  | Some (Err e, d) => Some (Err e, d)
  end.
Definition smod (f : Directed → Directed) : storm unit := λ d, Some (Ok tt, f d).
Definition spanic {A} : storm A := λ _, None.
(** A call on the virtual machine. *)
Definition scall (f : tx_world → result tx_error tx_world) : storm unit := λ d,
  match f (dg_world d) with
  | Ok w => Some (Ok tt, upd_world w d)
  | Err e => Some (Err e, d)
  end.
Definition slift {A} (r : result tx_error A) : storm A := λ d,
  match r with Ok a => Some (Ok a, d) | Err e => Some (Err e, d) end.
(** [errs.Add(m)]: the error is kept and the caller goes on. *)
Definition skeep (m : storm unit) : storm unit := λ d,
  match m d with
  | None => None
  | Some (Ok _, d) => Some (Ok tt, d)
  | Some (Err e, d) => Some (Ok tt, upd_errs (Some e) d)
  end.
Definition sfor {A} (f : A → storm unit) : list A → storm unit :=
  fix go l := match l with [] => sret tt | x :: l => sbind (f x) (λ _, go l) end.
End directed.

Arguments storm {_} A.

Declare Scope storm_scope.
Delimit Scope storm_scope with storm.
Notation "'let$' x := m 'in' k" := (sbind m (λ x, k))
  (at level 10, x name, m at level 100, k at level 200) : storm_scope.
Notation "m $; k" := (sbind m (λ _, k)) (at level 100, right associativity) : storm_scope.

(** *** The graph *)

Section graph.
Context `{GoRange, TxContext}.
Local Open Scope storm_scope.

Definition Issued (tx : ID) (d : Directed) : bool :=
  Status_Decided (tx_Status (dg_world d) tx) || bool_decide (is_Some (dg_txs d !! tx)).

Definition Virtuous (d : Directed) : gset ID := dg_virtuous d.
Definition Preferences (d : Directed) : gset ID := dg_preferences d.
Definition VirtuousVoting (d : Directed) : gset ID := dg_virtuousVoting d.
Definition Quiesce (d : Directed) : bool := bool_decide (size (dg_virtuousVoting d) = 0%nat).
Definition Directed_Finalized (d : Directed) : bool := bool_decide (size (dg_preferences d) = 0%nat).

Definition IsVirtuous (tx : ID) (d : Directed) : bool :=
  match dg_txs d !! tx with
  | Some node => negb (rogue (dt_snowball node))
  | None => forallb (λ utxoID, bool_decide (dg_utxos d !! utxoID = None)) (tx_InputIDs tx)
  end.

Definition Conflicts (tx : ID) (d : Directed) : gset ID :=
  match dg_txs d !! tx with
  | Some node => dt_ins node ∪ dt_outs node
  | None => ⋃ ((λ inputID, default ∅ (dg_utxos d !! inputID)) <$> tx_InputIDs tx)
  end.

(** A transaction without inputs is accepted at once. *)
Definition shouldVote (tx : ID) : storm bool := λ d,
  if Issued tx d then Some (Ok false, d)
  else match tx_InputIDs tx with
  | _ :: _ => Some (Ok true, d)
  | [] =>
      ((if tx_HasBytes tx then scall (tx_DecisionAccept tx) else sret tt)$;
       scall (tx_Accept tx)$;
       sret false) d
  end.

(** The edge from the node of [srcID], which is being added, to that of [dstID]. *)
Definition addEdge (srcID : ID) (src : directedTx) (dstID : ID) : storm directedTx := λ d,
  match dg_txs d !! dstID with
  | None => None
  | Some dst =>
      let dst := mkDirectedTx
        (mkSnowball (numSuccessfulPolls (dt_snowball dst)) (confidence (dt_snowball dst))
           (lastVote (dt_snowball dst)) true)
        (dt_pendingAccept dst) (set_add srcID (dt_ins dst)) (dt_outs dst) in
      Some (Ok (set_edges (dt_ins src) (set_add dstID (dt_outs src)) src),
            upd_txs (insert dstID dst) (upd_sets id (set_remove dstID) (set_remove dstID) d))
  end.

Fixpoint addEdges (srcID : ID) (src : directedTx) (dstIDs : list ID) : storm directedTx :=
  match dstIDs with
  | [] => sret src
  | dstID :: dstIDs => let$ src := addEdge srcID src dstID in addEdges srcID src dstIDs
  end.

(** The whitelists that do not name the transaction. *)
Definition add_whitelisted (txID : ID) (txNode : directedTx) : storm directedTx := λ d,
  addEdges txID txNode
    (fst <$> filter (λ x, txID ∉ x.2) (go_range (dg_whitelists d))) d.

(** The whitelist of the transaction itself. *)
Definition add_whitelist (tx : ID) (txNode : directedTx) : storm directedTx := λ d,
  if tx_HasWhitelist tx then
    (let$ whitelist := slift (tx_Whitelist tx) in
     let$ txNode := (λ d, addEdges tx txNode
       (filter (λ otherID, otherID ∉ whitelist) (go_range (dg_txs d)).*1) d) in
     smod (upd_whitelists (insert tx whitelist))$;
     sret txNode) d
  else Some (Ok txNode, d).

Fixpoint add_inputs (tx : ID) (txNode : directedTx) (inputIDs : list ID) : storm directedTx :=
  match inputIDs with
  | [] => sret txNode
  | inputID :: inputIDs =>
      let$ txNode := (λ d, addEdges tx txNode (range_set (default ∅ (dg_utxos d !! inputID))) d) in
      smod (upd_utxos (λ utxos, <[inputID := set_add tx (default ∅ (utxos !! inputID))]> utxos))$;
      add_inputs tx txNode inputIDs
  end.

(** The dependencies that are not accepted. *)
Definition pending_deps (d : Directed) (deps : list ID) : gset ID :=
  list_to_set (filter (λ dep, tx_Status (dg_world d) dep ≠ Accepted) deps).

Definition registerRejector (tx : ID) : storm unit :=
  let$ deps := slift (tx_Dependencies tx) in
  smod (λ d,
    let toReject := mkRejector (pending_deps d deps) false tx in
    upd_rejecting (foldl (blocker_wait (length (dg_rejectors d))) (dg_pendingReject d) (range_set (rj_deps toReject)))
      (dg_rejectors d ++ [toReject]) d).

Definition Directed_Add (tx : ID) : storm unit :=
  let$ vote := shouldVote tx in
  if vote : bool then
    let txNode := mkDirectedTx (mkSnowball 0 0 0 false) false ∅ ∅ in
    let$ txNode := add_whitelisted tx txNode in
    let$ txNode := add_whitelist tx txNode in
    let$ txNode := add_inputs tx txNode (tx_InputIDs tx) in
    let isRogue := bool_decide (size (dt_outs txNode) ≠ 0%nat) in
    let txNode := set_sb (λ sb, mkSnowball (numSuccessfulPolls sb) (confidence sb) (lastVote sb) isRogue) txNode in
    smod (λ d, if isRogue then d else upd_sets (set_add tx) (set_add tx) (set_add tx) d)$;
    smod (upd_txs (insert tx txNode))$;
    registerRejector tx
  else sret tt.
End graph.

(** *** Decisions *)

Section decisions.
Context `{GoRange, TxContext}.
Local Open Scope storm_scope.

(** The transaction no longer consumes the inputs. *)
Definition release_input (conflictKey : ID) (d : Directed) (inputID : ID) : Directed :=
  match dg_utxos d !! inputID with
  | None => d
  | Some txIDs =>
      let txIDs := set_remove conflictKey txIDs in
      upd_whitelists (delete conflictKey)
        (upd_utxos (λ utxos, if decide (size txIDs = 0%nat) then delete inputID utxos
                             else <[inputID := txIDs]> utxos) d)
  end.

Definition remove_neighbor (txIDKey : ID) (d : Directed) (neighborID : ID) : Directed :=
  match dg_txs d !! neighborID with
  | None => d
  | Some neighbor =>
      let neighbor := set_edges (set_remove txIDKey (dt_ins neighbor)) (set_remove txIDKey (dt_outs neighbor)) neighbor in
      let d := upd_txs (insert neighborID neighbor) d in
      if decide (size (dt_outs neighbor) = 0%nat) then upd_sets (set_add neighborID) id id d else d
  end.

Definition removeConflict (txIDKey : ID) (neighborIDs : gset ID) (d : Directed) : Directed :=
  foldl (remove_neighbor txIDKey) d (range_set neighborIDs).

Definition errored (d : Directed) : bool := match dg_errs d with Some _ => true | None => false end.

(** [acceptor.Abandon] for all the acceptors that wait for the event. *)
Definition abandon_acceptors (txID : ID) (d : Directed) : Directed :=
  let '(blocking, b) := blocker_take txID (dg_pendingAccept d) in
  upd_accepting b
    (foldl (λ l k, alter (λ a, mkAcceptor (ac_deps a) true (ac_txID a)) k l) (dg_acceptors d) blocking) d.

(** [rejector.Fulfill]; [rej] is [reject]. *)
Definition rejector_Fulfill (rej : list ID → storm unit) (k : nat) : storm unit := λ d,
  match dg_rejectors d !! k with
  | None => None
  | Some r =>
      if rj_rejected r || errored d then Some (Ok tt, d)
      else skeep (rej [rj_txID r])
        (upd_rejecting (dg_pendingReject d) (<[k := mkRejector (rj_deps r) true (rj_txID r)]> (dg_rejectors d)) d)
  end.

Definition rejectTx (rej : list ID → storm unit) (txID : ID) : storm unit :=
  scall (tx_Reject txID)$;
  smod (abandon_acceptors txID)$;
  (λ d,
    let '(blocking, b) := blocker_take txID (dg_pendingReject d) in
    sfor (rejector_Fulfill rej) blocking (upd_rejecting b (dg_rejectors d) d)).

Definition forget (conflictKey : ID) (d : Directed) : Directed :=
  upd_sets (set_remove conflictKey) (set_remove conflictKey) (set_remove conflictKey)
    (upd_txs (delete conflictKey) d).

(** One turn of the loop of [reject]. *)
Definition reject_one (rej : list ID → storm unit) (conflictKey : ID) : storm unit := λ d,
  match dg_txs d !! conflictKey with
  | None => None
  | Some conflict =>
      (smod (λ d, foldl (release_input conflictKey) d (tx_InputIDs conflictKey))$;
       smod (forget conflictKey)$;
       smod (removeConflict conflictKey (dt_ins conflict))$;
       smod (removeConflict conflictKey (dt_outs conflict))$;
       rejectTx rej conflictKey) d
  end.

Fixpoint reject (fuel : nat) (conflictIDs : list ID) : storm unit :=
  match fuel with
  | O => spanic
  | S fuel => sfor (reject_one (reject fuel)) conflictIDs
  end.

(** Every call of [reject] inside of another has one transaction less to reject. *)
Definition reject_set (conflictIDs : gset ID) : storm unit := λ d,
  reject (S (size (dg_txs d))) (range_set conflictIDs) d.

Definition Directed_Remove (txID : ID) : storm unit := reject_set {[txID]}.

(** [acceptor.Update]; [acc] is [accept]. *)
Definition acceptor_Update (acc : ID → storm unit) (k : nat) : storm unit := λ d,
  match dg_acceptors d !! k with
  | None => None
  | Some a =>
      if ac_rejected a || bool_decide (size (ac_deps a) ≠ 0%nat) || errored d then Some (Ok tt, d)
      else skeep (acc (ac_txID a)) d
  end.

Definition acceptor_Fulfill (acc : ID → storm unit) (id : ID) (k : nat) : storm unit :=
  smod (λ d, upd_accepting (dg_pendingAccept d)
    (alter (λ a, mkAcceptor (set_remove id (ac_deps a)) (ac_rejected a) (ac_txID a)) k (dg_acceptors d)) d)$;
  acceptor_Update acc k.

Definition acceptTx (acc : ID → storm unit) (txID : ID) : storm unit :=
  (if tx_HasBytes txID then scall (tx_DecisionAccept txID) else sret tt)$;
  scall (tx_Accept txID)$;
  (λ d,
    let '(blocking, b) := blocker_take txID (dg_pendingAccept d) in
    sfor (acceptor_Fulfill acc txID) blocking (upd_accepting b (dg_acceptors d) d))$;
  smod (λ d, upd_rejecting (blocker_take txID (dg_pendingReject d)).2 (dg_rejectors d) d).

(** What [accept] does before it rejects the conflicts. *)
Definition claim_inputs (txID : ID) (d : Directed) : Directed :=
  upd_sets (set_remove txID) (set_remove txID) id
    (upd_utxos (λ utxos, foldl (λ utxos inputID, delete inputID utxos) utxos (tx_InputIDs txID))
      (upd_whitelists (delete txID) (upd_txs (delete txID) d))).

Definition accept_one (acc : ID → storm unit) (txID : ID) : storm unit := λ d,
  match dg_txs d !! txID with
  | None => None
  | Some txNode =>
      (smod (claim_inputs txID)$;
       reject_set (dt_ins txNode)$;
       reject_set (dt_outs txNode)$;
       acceptTx acc txID) d
  end.

Fixpoint accept (fuel : nat) (txID : ID) : storm unit :=
  match fuel with
  | O => spanic
  | S fuel => accept_one (accept fuel) txID
  end.

Definition registerAcceptor (tx : ID) : storm unit :=
  let$ deps := slift (tx_Dependencies tx) in
  (λ d,
    let toAccept := mkAcceptor (pending_deps d deps) false tx in
    let k := length (dg_acceptors d) in
    let fuel := S (size (dg_txs d)) in
    (smod (upd_sets id id (set_remove tx))$;
     smod (upd_accepting (foldl (blocker_wait k) (dg_pendingAccept d) (range_set (ac_deps toAccept)))
       (dg_acceptors d ++ [toAccept]))$;
     acceptor_Update (accept fuel) k) d).

(** *** Polls *)

(** The edge from [txID] to [conflictID] is turned when [txID] has more successful
    polls. *)
Definition redirectEdge (txID : ID) (conflictID : ID) : storm bool := λ d,
  match dg_txs d !! txID, dg_txs d !! conflictID with
  | Some txNode, Some conflict =>
      if decide (numSuccessfulPolls (dt_snowball txNode) ≤ numSuccessfulPolls (dt_snowball conflict))
      then Some (Ok false, d)
      else
        let conflict := set_edges (set_remove txID (dt_ins conflict)) (set_add txID (dt_outs conflict)) conflict in
        let txNode := set_edges (set_add conflictID (dt_ins txNode)) (set_remove conflictID (dt_outs txNode)) txNode in
        let d := upd_txs (λ txs, <[txID := txNode]> (<[conflictID := conflict]> txs))
          (upd_sets (set_remove conflictID) id id d) in
        Some (Ok true, if decide (size (dt_outs txNode) = 0%nat) then upd_sets (set_add txID) id id d else d)
  | _, _ => None
  end.

Fixpoint redirect_loop (txID : ID) (outs : list ID) (changed : bool) : storm bool :=
  match outs with
  | [] => sret changed
  | conflictID :: outs =>
      let$ c := redirectEdge txID conflictID in redirect_loop txID outs (c || changed)
  end.

Definition redirectEdges (txID : ID) : storm bool := λ d,
  match dg_txs d !! txID with
  | None => None
  | Some txNode => redirect_loop txID (range_set (dt_outs txNode)) false d
  end.

(** One turn of the loop of [RecordPoll]; [inr] returns from it. *)
Definition poll_tx (changed : bool) (txID : ID) : storm (bool + bool) := λ d,
  match dg_txs d !! txID with
  | None => Some (Ok (inl changed), d)
  | Some txNode =>
      let txNode := set_sb (recordSuccessfulPoll (dg_pollNumber d)) txNode in
      let ready := negb (dt_pendingAccept txNode) &&
        finalized (BetaVirtuous (dg_params d)) (BetaRogue (dg_params d)) (dt_snowball txNode) in
      let d := upd_txs (insert txID (if ready then set_pendingAccept txNode else txNode)) d in
      match (if ready then registerAcceptor txID else sret tt) d with
      | None => None
      | Some (Err e, d) => Some (Err e, d)
      | Some (Ok _, d) =>
          if ready && errored d then Some (Ok (inr changed), d)
          else if decide (tx_Status (dg_world d) txID ≠ Accepted) then
            (let$ c := redirectEdges txID in sret (inl (c || changed))) d
          else Some (Ok (inl true), d)
      end
  end.

Fixpoint poll_loop (txIDs : list ID) (changed : bool) : storm bool :=
  match txIDs with
  | [] => sret changed
  | txID :: txIDs =>
      let$ r := poll_tx changed txID in
      match r with
      | inl changed => poll_loop txIDs changed
      | inr changed => sret changed
      end
  end.

(** The error that the callbacks left is returned with the result. *)
Definition Directed_RecordPoll (votes : Bag) : storm bool := λ d,
  let votes := Bag_SetThreshold (Alpha (dg_params d)) votes in
  poll_loop (range_set (Bag_Threshold votes)) false (upd_pollNumber (wrap64 (dg_pollNumber d + 1)) d).
End decisions.
