(* ===== verification/SnowstormInv.v ===== *)
(** The invariant of the conflict graph.

    Edges join exactly the processing transactions that conflict, and are recorded
    at both ends; the preferred transactions are those without an outgoing edge, the
    virtuous ones those without any conflict so far.  While a transaction is being
    accepted its node is gone but its conflicts are not: the invariant has the set
    of such transactions as a parameter. *)

From S2P Require Import Prelude Ids Bag Snowball Topological Snowstorm.

Abbreviation status d t := (tx_Status (dg_world d) t).

Section inv.
Context `{GoRange, TxContext}.
Implicit Types (d : Directed) (u v t : ID) (n m : directedTx) (X : gset ID).

(** ** Conflicts *)

Definition whitelist_of t : gset ID := match tx_Whitelist t with Ok s => s | Err _ => ∅ end.

Definition share_input u v : Prop := ∃ i, i ∈ tx_InputIDs u ∧ i ∈ tx_InputIDs v.
Definition excludes u v : Prop := tx_HasWhitelist u = true ∧ v ∉ whitelist_of u.
Definition conflict u v : Prop := u ≠ v ∧ (share_input u v ∨ excludes u v ∨ excludes v u).

Lemma conflict_sym u v : conflict u v → conflict v u.
Proof.
  intros [Hne Hc]. split; [done|]. destruct Hc as [(i&?&?)|[?|?]]; [left; by exists i|right; by right|right; by left].
Qed.

Definition edges n : gset ID := dt_ins n ∪ dt_outs n.

Record ginv X d : Prop := mkGinv {
  g_gone : ∀ t, t ∈ X → dg_txs d !! t = None;
  g_in : ∀ u n v, dg_txs d !! u = Some n → v ∈ dt_ins n → v ∈ X ∨ ∃ m, dg_txs d !! v = Some m ∧ u ∈ dt_outs m;
  g_out : ∀ u n v, dg_txs d !! u = Some n → v ∈ dt_outs n → v ∈ X ∨ ∃ m, dg_txs d !! v = Some m ∧ u ∈ dt_ins m;
  g_sound : ∀ u n v, dg_txs d !! u = Some n → v ∈ edges n → conflict u v;
  g_complete : ∀ u n v m, dg_txs d !! u = Some n → dg_txs d !! v = Some m → conflict u v → v ∈ edges n;
  g_utxos : ∀ u n i, dg_txs d !! u = Some n → i ∈ tx_InputIDs u →
    (∃ a, a ∈ X ∧ i ∈ tx_InputIDs a) ∨ ∃ s, dg_utxos d !! i = Some s ∧ u ∈ s;
  g_spenders : ∀ i s u, dg_utxos d !! i = Some s → u ∈ s → i ∈ tx_InputIDs u ∧ is_Some (dg_txs d !! u);
  g_listed : ∀ u n, dg_txs d !! u = Some n → tx_HasWhitelist u = true → is_Some (dg_whitelists d !! u);
  g_lists : ∀ u s, dg_whitelists d !! u = Some s → tx_HasWhitelist u = true ∧ tx_Whitelist u = Ok s;
  g_preferred : ∀ u, u ∈ dg_preferences d ↔ ∃ n, dg_txs d !! u = Some n ∧ dt_outs n = ∅;
  g_virtuous : ∀ u, u ∈ dg_virtuous d ↔ ∃ n, dg_txs d !! u = Some n ∧ rogue (dt_snowball n) = false;
  g_rogue : ∀ u n, dg_txs d !! u = Some n → rogue (dt_snowball n) = false → edges n = ∅;
  g_processing : ∀ u n, dg_txs d !! u = Some n → Status_Decided (status d u) = false;
}.

(** ** Removing a node *)

Definition drop_edge t n : directedTx := set_edges (set_remove t (dt_ins n)) (set_remove t (dt_outs n)) n.

(** What none of the changes to the graph touches. *)
Record same_rest d d' : Prop := mkSameRest {
  sr_errs : dg_errs d' = dg_errs d;
  sr_world : dg_world d' = dg_world d;
  sr_acceptors : dg_acceptors d' = dg_acceptors d;
}.

#[global] Instance same_rest_preorder : PreOrder same_rest.
Proof. split; [by intros d; split|]. intros d1 d2 d3 [] []. split; congruence. Qed.

Lemma size_empty_iff (s : gset ID) : size s = 0%nat ↔ s = ∅.
Proof. rewrite size_empty_iff. by rewrite leibniz_equiv_iff. Qed.

Lemma elem_of_range_set (s : gset ID) u : u ∈ range_set s ↔ u ∈ s.
Proof.
  unfold range_set. rewrite list_elem_of_fmap. split.
  - intros ([v []]&->&Hv%elem_of_go_range). by apply lookup_gset_to_gmap_Some in Hv as [? _].
  - intros Hu. exists (u, tt). split; [done|]. apply elem_of_go_range. by apply lookup_gset_to_gmap_Some.
Qed.

Lemma remove_neighbors t l d :
  let d' := foldl (remove_neighbor t) d l in
  (∀ u, dg_txs d' !! u = if decide (u ∈ l) then drop_edge t <$> dg_txs d !! u else dg_txs d !! u) ∧
  (∀ u, u ∈ dg_preferences d' ↔ u ∈ dg_preferences d ∨
     u ∈ l ∧ ∃ n, dg_txs d !! u = Some n ∧ dt_outs (drop_edge t n) = ∅) ∧
  dg_utxos d' = dg_utxos d ∧ dg_whitelists d' = dg_whitelists d ∧ dg_virtuous d' = dg_virtuous d ∧ same_rest d d'.
Proof.
  revert d. induction l as [|v l IH]; intros d; simpl.
  { split; [done|]. split; [|by repeat split]. intros u. split; [by left|]. intros [?|[?%not_elem_of_nil _]]; done. }
  destruct (IH (remove_neighbor t d v)) as (H1'&H2'&H3'&H4'&H5'&H6'). clear IH.
  assert (∀ n, drop_edge t (drop_edge t n) = drop_edge t n) as Hidem.
  { intros n. unfold drop_edge, set_edges, set_remove. simpl. f_equal; set_solver. }
  assert (∀ u, dg_txs (remove_neighbor t d v) !! u = if decide (u = v) then drop_edge t <$> dg_txs d !! u else dg_txs d !! u) as T1.
  { intros u. unfold remove_neighbor. destruct (dg_txs d !! v) as [n|] eqn:E.
    - assert (∀ d0, dg_txs (if decide (size (dt_outs (drop_edge t n)) = 0%nat) then upd_sets (set_add v) id id d0 else d0) = dg_txs d0) as Hif
        by (intros d0; by case_decide).
      fold (drop_edge t n). rewrite Hif. simpl. rewrite lookup_insert. destruct (decide (v = u)) as [<-|].
      + rewrite decide_True by done. by rewrite E.
      + by rewrite decide_False by congruence.
    - destruct (decide (u = v)) as [->|]; [by rewrite E|done]. }
  assert (∀ u, u ∈ dg_preferences (remove_neighbor t d v) ↔ u ∈ dg_preferences d ∨
    u = v ∧ ∃ n, dg_txs d !! u = Some n ∧ dt_outs (drop_edge t n) = ∅) as T2.
  { intros u. unfold remove_neighbor. destruct (dg_txs d !! v) as [n|] eqn:E.
    - fold (drop_edge t n). case_decide as Hd.
      + simpl. unfold set_add. rewrite elem_of_union, elem_of_singleton. apply size_empty_iff in Hd. naive_solver.
      + simpl. split; [by left|]. intros [?|[-> (n'&Hn'&Ho)]]; [done|]. rewrite E in Hn'. injection Hn' as <-.
        by rewrite <-size_empty_iff in Ho.
    - split; [by left|]. intros [?|[-> (n'&?&_)]]; [done|congruence]. }
  assert (same_rest d (remove_neighbor t d v) ∧ dg_utxos (remove_neighbor t d v) = dg_utxos d ∧
    dg_whitelists (remove_neighbor t d v) = dg_whitelists d ∧ dg_virtuous (remove_neighbor t d v) = dg_virtuous d) as (T3&T4&T5&T6).
  { unfold remove_neighbor. destruct (dg_txs d !! v); [case_decide|]; by repeat split. }
  split; [|split; [|split_and!; try congruence; by etrans]].
  - intros u. rewrite H1', T1. destruct (decide (u = v)) as [->|Hne].
    + rewrite (decide_True (P := v ∈ v :: l)) by left. destruct (dg_txs d !! v); simpl; case_decide; simpl; congruence.
    + destruct (decide (u ∈ l)); [rewrite decide_True by (by right)|rewrite decide_False by (by rewrite elem_of_cons; naive_solver)]; done.
  - intros u. rewrite H2', T2. setoid_rewrite T1. rewrite elem_of_cons. destruct (decide (u = v)) as [->|Hne].
    + split.
      * intros [[?|[_ ?]]|[_ (n&Hn&Ho)]]; [by left|right; by split; [left|]|].
        destruct (dg_txs d !! v) as [n0|]; [|done]. injection Hn as <-. right. split; [by left|].
        exists n0. rewrite Hidem in Ho. done.
      * intros [?|[_ ?]]; [by left; left|]. left. by right.
    + naive_solver.
Qed.

Lemma drop_edge_ins t n v : v ∈ dt_ins (drop_edge t n) ↔ v ∈ dt_ins n ∧ v ≠ t.
Proof. unfold drop_edge, set_remove. simpl. by rewrite elem_of_difference, elem_of_singleton. Qed.
Lemma drop_edge_outs t n v : v ∈ dt_outs (drop_edge t n) ↔ v ∈ dt_outs n ∧ v ≠ t.
Proof. unfold drop_edge, set_remove. simpl. by rewrite elem_of_difference, elem_of_singleton. Qed.

(** ** Releasing inputs *)

Lemma release_inputs t l d :
  let d' := foldl (release_input t) d l in
  (∀ i s', dg_utxos d' !! i = Some s' → ∃ s, dg_utxos d !! i = Some s ∧ s' ⊆ s ∧ (i ∈ l → t ∉ s')) ∧
  (∀ i s u, dg_utxos d !! i = Some s → u ∈ s → u ≠ t → ∃ s', dg_utxos d' !! i = Some s' ∧ u ∈ s') ∧
  (∀ u, u ≠ t → dg_whitelists d' !! u = dg_whitelists d !! u) ∧
  (∀ s, dg_whitelists d' !! t = Some s → dg_whitelists d !! t = Some s) ∧
  dg_txs d' = dg_txs d ∧ dg_preferences d' = dg_preferences d ∧ dg_virtuous d' = dg_virtuous d ∧ same_rest d d'.
Proof.
  revert d. induction l as [|j l IH]; intros d; simpl.
  { split_and!; try done; [|by eauto]. intros i s Hs. exists s. split_and!; try done. by intros ?%not_elem_of_nil. }
  destruct (IH (release_input t d j)) as (I1&I2&I3&I4&I5&I6&I7&I8). clear IH.
  assert (dg_txs (release_input t d j) = dg_txs d ∧ dg_preferences (release_input t d j) = dg_preferences d ∧
    dg_virtuous (release_input t d j) = dg_virtuous d ∧ same_rest d (release_input t d j)) as (T5&T6&T7&T8).
  { unfold release_input. destruct (dg_utxos d !! j); by split_and!. }
  assert (∀ u, u ≠ t → dg_whitelists (release_input t d j) !! u = dg_whitelists d !! u) as T3.
  { intros u Hu. unfold release_input. destruct (dg_utxos d !! j); [|done]. simpl. by rewrite lookup_delete_ne. }
  assert (∀ s, dg_whitelists (release_input t d j) !! t = Some s → dg_whitelists d !! t = Some s) as T4.
  { intros s. unfold release_input. destruct (dg_utxos d !! j); [|done]. simpl. by rewrite lookup_delete_eq. }
  assert (∀ i, dg_utxos (release_input t d j) !! i =
    if decide (i = j) then match dg_utxos d !! j with
      | Some s => if decide (set_remove t s = ∅) then None else Some (set_remove t s) | None => None end
    else dg_utxos d !! i) as T1.
  { intros i. unfold release_input. destruct (dg_utxos d !! j) as [s|] eqn:E; simpl.
    - case_decide as Hs; rewrite size_empty_iff in Hs; [rewrite lookup_delete|rewrite lookup_insert];
        destruct (decide (i = j)) as [->|]; repeat (case_decide; try done); congruence.
    - destruct (decide (i = j)) as [->|]; done. }
  split_and!; try congruence; try (by etrans).
  - intros i s' Hs'. destruct (I1 i s' Hs') as (s1&Hs1&Hsub&Hnot). rewrite T1 in Hs1.
    destruct (decide (i = j)) as [->|Hne].
    + destruct (dg_utxos d !! j) as [s|]; [|done]. case_decide; [done|]. injection Hs1 as <-.
      exists s. unfold set_remove in *. split_and!; [done|set_solver|]. set_solver.
    + exists s1. split_and!; [done..|]. intros [->|?]%elem_of_cons; [done|by apply Hnot].
  - intros i s u Hs Hu Hut. destruct (decide (i = j)) as [->|Hne].
    + apply (I2 j (set_remove t s) u); [|unfold set_remove; set_solver|done]. rewrite T1, decide_True by done. rewrite Hs.
      rewrite decide_False; [done|]. unfold set_remove. set_solver.
    + apply (I2 i s u); [|done..]. by rewrite T1, decide_False by done.
  - intros u Hu. by rewrite I3, T3 by done.
  - intros s Hs. by apply T4, I4.
Qed.

(** A node is removed together with the edges to it. *)
Lemma ginv_remove X d d' t :
  ginv X d →
  (∀ u, dg_txs d' !! u = if decide (u = t) then None else drop_edge t <$> dg_txs d !! u) →
  (∀ u, u ∈ dg_preferences d' ↔ ∃ n, dg_txs d' !! u = Some n ∧ dt_outs n = ∅) →
  (∀ u, u ∈ dg_virtuous d' ↔ u ∈ dg_virtuous d ∧ u ≠ t) →
  (∀ i s', dg_utxos d' !! i = Some s' → ∃ s, dg_utxos d !! i = Some s ∧ s' ⊆ s ∧ (i ∈ tx_InputIDs t → t ∉ s')) →
  (∀ i s u, dg_utxos d !! i = Some s → u ∈ s → u ≠ t → ∃ s', dg_utxos d' !! i = Some s' ∧ u ∈ s') →
  (∀ u, u ≠ t → dg_whitelists d' !! u = dg_whitelists d !! u) →
  (∀ s, dg_whitelists d' !! t = Some s → dg_whitelists d !! t = Some s) →
  dg_world d' = dg_world d →
  ginv X d'.
Proof.
  intros G Ht Hp Hv Hu1 Hu2 Hw1 Hw2 Hw.
  assert (∀ u n', dg_txs d' !! u = Some n' → u ≠ t ∧ ∃ n, dg_txs d !! u = Some n ∧ n' = drop_edge t n) as Hold.
  { intros u n'. rewrite Ht. case_decide as Hd; [done|]. intros (n&?&?)%fmap_Some. eauto. }
  assert (∀ u n, dg_txs d !! u = Some n → u ≠ t → dg_txs d' !! u = Some (drop_edge t n)) as Hnew.
  { intros u n Hn Hne. by rewrite Ht, decide_False, Hn by done. }
  split.
  - intros u Hu. rewrite Ht. case_decide; [done|]. by rewrite (g_gone X d G u Hu).
  - intros u n' v (Hne&n&Hn&->)%Hold [Hv' Hvt]%drop_edge_ins.
    destruct (g_in X d G u n v Hn Hv') as [?|(m&Hm&Hu)]; [by left|right]. exists (drop_edge t m).
    split; [by apply Hnew|]. by apply drop_edge_outs.
  - intros u n' v (Hne&n&Hn&->)%Hold [Hv' Hvt]%drop_edge_outs.
    destruct (g_out X d G u n v Hn Hv') as [?|(m&Hm&Hu)]; [by left|right]. exists (drop_edge t m).
    split; [by apply Hnew|]. by apply drop_edge_ins.
  - intros u n' v (Hne&n&Hn&->)%Hold Hv'. apply (g_sound X d G u n v Hn).
    unfold edges, drop_edge, set_remove in *. simpl in Hv'. set_solver.
  - intros u n' v m' (Hne&n&Hn&->)%Hold (Hnv&m&Hm&->)%Hold Hc.
    pose proof (g_complete X d G u n v m Hn Hm Hc) as Hv'. unfold edges, drop_edge, set_remove in *. simpl. set_solver.
  - intros u n' i (Hne&n&Hn&->)%Hold Hi. destruct (g_utxos X d G u n i Hn Hi) as [?|(s&Hs&Hus)]; [by left|right].
    by apply (Hu2 i s u).
  - intros i s' u Hs' Hus. destruct (Hu1 i s' Hs') as (s&Hs&Hsub&Hnot).
    destruct (g_spenders X d G i s u Hs (Hsub u Hus)) as [Hi [n Hn]]. split; [done|].
    destruct (decide (u = t)) as [->|Hne]; [by exfalso; apply Hnot|]. by eexists; apply Hnew.
  - intros u n' (Hne&n&Hn&->)%Hold Hl. rewrite Hw1 by done. by apply (g_listed X d G u n).
  - intros u s Hs. apply (g_lists X d G). destruct (decide (u = t)) as [->|Hne]; [by apply Hw2|by rewrite <-Hw1].
  - done.
  - intros u. rewrite Hv, (g_virtuous X d G). split.
    + intros [(n&Hn&Hr) Hne]. exists (drop_edge t n). split; [by apply Hnew|done].
    + intros (n'&(Hne&n&Hn&->)%Hold&Hr). split; [|done]. by exists n.
  - intros u n' (Hne&n&Hn&->)%Hold Hr. pose proof (g_rogue X d G u n Hn Hr) as He.
    unfold edges, drop_edge, set_remove in *. simpl. set_solver.
  - intros u n' (Hne&n&Hn&->)%Hold. rewrite Hw. by apply (g_processing X d G u n).
Qed.
End inv.
