(* ===== verification/SnowstormReject.v ===== *)
(** Rejection in the conflict graph: the invariant survives every way out of
    [reject], and each call only removes transactions, with their edges, and leaves
    those it removed rejected. *)

From S2P Require Import Prelude Ids Bag Snowball Topological Snowstorm SnowstormInv.

(** ** Calls that keep a relation between the states *)

Section keeps.
Context `{GoRange, TxContext}.
Implicit Types (d : Directed) (R : relation Directed).

Definition keeps R {A} (m : storm A) : Prop := ∀ d r d', m d = Some (r, d') → R d d'.

Lemma keeps_ret R `{!Reflexive R} {A} (a : A) : keeps R (sret a).
Proof. intros d r d' [= <- <-]. reflexivity. Qed.
Lemma keeps_mod R f : (∀ d, R d (f d)) → keeps R (smod f).
Proof. intros Hf d r d' [= <- <-]. apply Hf. Qed.
Lemma keeps_lift R `{!Reflexive R} {A} (r : result tx_error A) : keeps R (slift r).
Proof. intros d r' d'. unfold slift. destruct r; intros [= <- <-]; reflexivity. Qed.
Lemma keeps_panic R {A} : keeps R (spanic (A := A)).
Proof. intros d r d' [=]. Qed.
Lemma keeps_bind R `{!Transitive R} {A B} (m : storm A) (k : A → storm B) :
  keeps R m → (∀ a, keeps R (k a)) → keeps R (sbind m k).
Proof.
  intros Hm Hk d r d'. unfold sbind. destruct (m d) as [[[a|e] d1]|] eqn:E; [| |done].
  - intros Hr. etrans; [by eapply Hm|by eapply Hk].
  - intros [= <- <-]. by eapply Hm.
Qed.
Lemma keeps_for R `{!PreOrder R} {A} (f : A → storm unit) l : (∀ x, keeps R (f x)) → keeps R (sfor f l).
Proof. intros Hf. induction l as [|x l IH]; simpl; [apply (keeps_ret R)|by apply keeps_bind; [tc_solve|..]]. Qed.
Lemma keeps_keep R `{!Transitive R} (m : storm unit) :
  (∀ d e, R d (upd_errs e d)) → keeps R m → keeps R (skeep m).
Proof.
  intros He Hm d r d'. unfold skeep. destruct (m d) as [[[a|e] d1]|] eqn:E; [| |done]; intros [= <- <-].
  - by eapply Hm.
  - etrans; [by eapply Hm|apply He].
Qed.

Lemma sfor_ext R `{!PreOrder R} {A} (f g : A → storm unit) l d :
  (∀ x, keeps R (f x)) → (∀ x d', R d d' → f x d' = g x d') → sfor f l d = sfor g l d.
Proof.
  intros Hf. revert d. induction l as [|x l IH]; intros d Hfg; simpl; [done|]. unfold sbind. rewrite <-Hfg by reflexivity.
  destruct (f x d) as [[[a|e] d1]|] eqn:E; [|done..]. apply IH.
  intros y d2 Hd2. apply Hfg. etrans; [by eapply Hf|done].
Qed.

(** What every turn of a loop achieves holds after it. *)
Lemma sfor_ok {A} (f : A → storm unit) (P : A → Directed → Prop) l d d' :
  (∀ x d d', f x d = Some (Ok tt, d') → P x d') →
  (∀ x y d r d', P y d → f x d = Some (r, d') → P y d') →
  sfor f l d = Some (Ok tt, d') → ∀ x, x ∈ l → P x d'.
Proof.
  intros Hnew Hkeep Hl x Hx.
  assert (∀ l d, P x d → sfor f l d = Some (Ok tt, d') → P x d') as Hrest.
  { clear l d Hl Hx. induction l as [|y l IH]; intros d Hd; simpl; [by intros [= <-]|].
    unfold sbind. destruct (f y d) as [[[[]|e] d1]|] eqn:E; [|done..]. apply IH. by eapply Hkeep. }
  revert d Hl. induction Hx as [x l|x y l Hx IH]; intros d; simpl; unfold sbind.
  - destruct (f x d) as [[[[]|e] d1]|] eqn:E; [|done..]. apply Hrest. by eapply Hnew.
  - destruct (f y d) as [[[[]|e] d1]|] eqn:E; [|done..]. by apply IH.
Qed.
End keeps.

Section reject.
Context `{GoRange, TxContext, !TxLaws}.
Implicit Types (d : Directed) (u v t : ID) (n m : directedTx) (X : gset ID).

(** ** The graph is unchanged *)

Record same_graph d d' : Prop := mkSameGraph {
  sg_txs : dg_txs d' = dg_txs d;
  sg_utxos : dg_utxos d' = dg_utxos d;
  sg_whitelists : dg_whitelists d' = dg_whitelists d;
  sg_preferences : dg_preferences d' = dg_preferences d;
  sg_virtuous : dg_virtuous d' = dg_virtuous d;
}.

(** The world may change the status of what is not in the graph. *)
Lemma ginv_same X d d' :
  same_graph d d' → (∀ u, is_Some (dg_txs d !! u) → status d' u = status d u) → ginv X d → ginv X d'.
Proof.
  intros [Ht Hu Hl Hp Hv] Hs G.
  split; rewrite ?Ht, ?Hu, ?Hl, ?Hp, ?Hv; try apply G.
  intros u n Hn. rewrite Hs by done. by apply (g_processing X d G u n).
Qed.

(** ** Shrinking *)

Record shrinks d d' : Prop := mkShrinks {
  sh_txs : ∀ u n', dg_txs d' !! u = Some n' →
    ∃ n, dg_txs d !! u = Some n ∧ dt_ins n' ⊆ dt_ins n ∧ dt_outs n' ⊆ dt_outs n;
  sh_status : ∀ u, status d' u = status d u ∨
    status d' u = Rejected ∧ is_Some (dg_txs d !! u) ∧ dg_txs d' !! u = None;
  sh_errs : dg_errs d ≠ None → dg_errs d' ≠ None;
  sh_acceptors : ∀ k a', dg_acceptors d' !! k = Some a' →
    ∃ a, dg_acceptors d !! k = Some a ∧ ac_deps a = ac_deps a' ∧ ac_txID a = ac_txID a';
}.

Lemma shrinks_gone d d' u : shrinks d d' → dg_txs d !! u = None → dg_txs d' !! u = None.
Proof.
  intros S Hu. destruct (dg_txs d' !! u) as [n'|] eqn:E; [|done].
  destruct (sh_txs d d' S u n' E) as (n&Hn&_). congruence.
Qed.

#[global] Instance shrinks_preorder : PreOrder shrinks.
Proof.
  split.
  - intros d. split; [eauto|by left|done|eauto].
  - intros d1 d2 d3 S1 S2. split.
    + intros u n3 Hn3. destruct (sh_txs _ _ S2 u n3 Hn3) as (n2&Hn2&?&?).
      destruct (sh_txs _ _ S1 u n2 Hn2) as (n1&Hn1&?&?). exists n1. split; [done|]. split; by etrans.
    + intros u. destruct (sh_status _ _ S2 u) as [->|(->&[n2 Hn2]&Hn3)].
      * destruct (sh_status _ _ S1 u) as [?|(?&?&?)]; [by left|right]. by split_and!; [| |apply (shrinks_gone d2)].
      * right. split_and!; [done| |done]. destruct (sh_txs _ _ S1 u n2 Hn2) as (n1&Hn1&_). by eexists.
    + intros Hd. by apply (sh_errs _ _ S2), (sh_errs _ _ S1).
    + intros k a3 Ha3. destruct (sh_acceptors _ _ S2 k a3 Ha3) as (a2&Ha2&?&?).
      destruct (sh_acceptors _ _ S1 k a2 Ha2) as (a1&Ha1&?&?). exists a1. split; [done|]. split; congruence.
Qed.

(** Nothing but the blockers and the error changes. *)
Record same_but_errs d d' : Prop := mkSameButErrs {
  se_world : dg_world d' = dg_world d;
  se_errs : dg_errs d ≠ None → dg_errs d' ≠ None;
  se_acceptors : ∀ k a', dg_acceptors d' !! k = Some a' →
    ∃ a, dg_acceptors d !! k = Some a ∧ ac_deps a = ac_deps a' ∧ ac_txID a = ac_txID a';
}.

Lemma same_but_errs_eq d d' :
  dg_world d' = dg_world d → dg_acceptors d' = dg_acceptors d → (dg_errs d ≠ None → dg_errs d' ≠ None) → same_but_errs d d'.
Proof. intros ? Ha ?. split; [done..|rewrite Ha; eauto]. Qed.

Lemma shrinks_same d d' : dg_txs d' = dg_txs d → same_but_errs d d' → shrinks d d'.
Proof. intros Ht [Hw He Ha]. split; [rewrite Ht; eauto|intros u; left; by rewrite Hw|done..]. Qed.

(** The relation that [reject] keeps. *)
Definition rejects X d d' : Prop := ginv X d → ginv X d' ∧ shrinks d d'.

#[global] Instance rejects_preorder X : PreOrder (rejects X).
Proof.
  split; [by intros d ?|]. intros d1 d2 d3 S1 S2 G1.
  destruct (S1 G1) as [G2 ?]. destruct (S2 G2) as [G3 ?]. split; [done|by etrans].
Qed.

Lemma rejects_frame X d d' : same_graph d d' → same_but_errs d d' → rejects X d d'.
Proof.
  intros Hg Hs G. split; [|by apply shrinks_same; [apply Hg|]].
  apply (ginv_same X d); [done|intros; by rewrite (se_world _ _ Hs)|done].
Qed.

(** ** Removal of one transaction *)

Definition removal t n d : Directed :=
  removeConflict t (dt_outs n) (removeConflict t (dt_ins n) (forget t (foldl (release_input t) d (tx_InputIDs t)))).

Lemma reject_one_eq rej t d :
  reject_one rej t d = match dg_txs d !! t with None => None | Some n => rejectTx rej t (removal t n d) end.
Proof. done. Qed.

Lemma not_edge X d u n t m :
  ginv X d → dg_txs d !! u = Some n → dg_txs d !! t = Some m → u ∉ edges m → drop_edge t n = n.
Proof.
  intros G Hu Ht Hne.
  assert (t ∉ X) as HtX by (intros HX; by rewrite (g_gone X d G t HX) in Ht).
  assert (t ∉ dt_ins n).
  { intros Hi. destruct (g_in X d G u n t Hu Hi) as [?|(m'&Hm'&?)]; [done|].
    rewrite Ht in Hm'. injection Hm' as <-. unfold edges in Hne. set_solver. }
  assert (t ∉ dt_outs n).
  { intros Hi. destruct (g_out X d G u n t Hu Hi) as [?|(m'&Hm'&?)]; [done|].
    rewrite Ht in Hm'. injection Hm' as <-. unfold edges in Hne. set_solver. }
  destruct n as [sb p ins outs]. unfold drop_edge, set_edges, set_remove. simpl in *. f_equal; set_solver.
Qed.

Lemma drop_edge_idem t n : drop_edge t (drop_edge t n) = drop_edge t n.
Proof. unfold drop_edge, set_edges, set_remove. simpl. f_equal; set_solver. Qed.

Lemma removal_txs X d t m u :
  ginv X d → dg_txs d !! t = Some m →
  dg_txs (removal t m d) !! u = if decide (u = t) then None else drop_edge t <$> dg_txs d !! u.
Proof.
  intros G Hm. unfold removal, removeConflict.
  destruct (remove_neighbors t (range_set (dt_outs m))
    (foldl (remove_neighbor t) (forget t (foldl (release_input t) d (tx_InputIDs t))) (range_set (dt_ins m)))) as (->&_).
  destruct (remove_neighbors t (range_set (dt_ins m)) (forget t (foldl (release_input t) d (tx_InputIDs t)))) as (->&_).
  destruct (release_inputs t (tx_InputIDs t) d) as (_&_&_&_&Ht&_).
  simpl. rewrite Ht, lookup_delete. destruct (decide (t = u)) as [<-|Hne].
  { rewrite (decide_True (P := t = t)) by done. by repeat case_decide. }
  rewrite (decide_False (P := u = t)) by congruence.
  destruct (dg_txs d !! u) as [n|] eqn:En; [|by repeat case_decide]. simpl.
  case_decide as Ho; case_decide as Hi; simpl; rewrite ?drop_edge_idem; try done.
  rewrite elem_of_range_set in Ho. rewrite elem_of_range_set in Hi.
  f_equal. symmetry. apply (not_edge X d u n t m); [done..|]. unfold edges. set_solver.
Qed.

Lemma removal_preferences X d t m u :
  ginv X d → dg_txs d !! t = Some m →
  u ∈ dg_preferences (removal t m d) ↔ ∃ n, dg_txs (removal t m d) !! u = Some n ∧ dt_outs n = ∅.
Proof.
  intros G Hm. setoid_rewrite (removal_txs X d t m); [|done..]. unfold removal, removeConflict.
  destruct (remove_neighbors t (range_set (dt_outs m))
    (foldl (remove_neighbor t) (forget t (foldl (release_input t) d (tx_InputIDs t))) (range_set (dt_ins m)))) as (_&->&_).
  destruct (remove_neighbors t (range_set (dt_ins m)) (forget t (foldl (release_input t) d (tx_InputIDs t)))) as (Hl&->&_).
  setoid_rewrite Hl. destruct (release_inputs t (tx_InputIDs t) d) as (_&_&_&_&Ht&Hp&_).
  simpl. rewrite Ht, Hp, lookup_delete, !elem_of_range_set. clear Hl.
  unfold set_remove. rewrite elem_of_difference, elem_of_singleton, (g_preferred X d G).
  destruct (decide (u = t)) as [->|Hne].
  { rewrite (decide_True (P := t = t)) by done. split; [|by intros (n&?&_)].
    intros [[[_ ?]|[_ (n&?&_)]]|[_ (n&?&_)]]; [done..|]. by case_decide. }
  rewrite (decide_False (P := t = u)) by congruence.
  assert (∀ n, dt_outs n = ∅ → dt_outs (drop_edge t n) = ∅) as Hdrop.
  { intros n Hn. unfold drop_edge, set_remove. simpl. rewrite Hn. set_solver. }
  destruct (dg_txs d !! u) as [n|] eqn:En.
  - split.
    + intros [[[(n0&[= <-]&Ho) _]|[_ (n0&[= <-]&Ho)]]|[_ (n0&Hn0&Ho)]].
      * exists (drop_edge t n). split; [done|by apply Hdrop].
      * by exists (drop_edge t n).
      * exists (drop_edge t n). split; [done|].
        assert (n0 = drop_edge t n ∨ n0 = n) as [-> | ->] by (case_decide; [left|right]; simpl in Hn0; congruence).
        all: unfold drop_edge, set_remove in *; simpl in *; set_solver.
    + intros (n0&[= <-]&Ho). left. destruct (decide (t ∈ dt_outs n)) as [Hin|Hnin].
      * right. split; [|by exists n]. destruct (g_out X d G u n t En Hin) as [HX|(m'&Hm'&?)].
        -- by rewrite (g_gone X d G t HX) in Hm.
        -- rewrite Hm in Hm'. by injection Hm' as <-.
      * left. split; [|done]. exists n. split; [done|]. unfold drop_edge, set_remove in Ho. simpl in Ho. set_solver.
  - split; [|by intros (n&?&_)].
    intros [[[(n&?&_) _]|[_ (n&?&_)]]|[_ (n&?&_)]]; [done..|]. by case_decide.
Qed.

(** What [removeConflict] leaves alone. *)
Lemma removal_rest d t m :
  dg_utxos (removal t m d) = dg_utxos (foldl (release_input t) d (tx_InputIDs t)) ∧
  dg_whitelists (removal t m d) = dg_whitelists (foldl (release_input t) d (tx_InputIDs t)) ∧
  dg_virtuous (removal t m d) = set_remove t (dg_virtuous d) ∧ same_rest d (removal t m d).
Proof.
  unfold removal, removeConflict.
  destruct (remove_neighbors t (range_set (dt_outs m))
    (foldl (remove_neighbor t) (forget t (foldl (release_input t) d (tx_InputIDs t))) (range_set (dt_ins m)))) as (_&_&Ou&Ow&Ov&Os).
  destruct (remove_neighbors t (range_set (dt_ins m)) (forget t (foldl (release_input t) d (tx_InputIDs t)))) as (_&_&Iu&Iw&Iv&Is).
  destruct (release_inputs t (tx_InputIDs t) d) as (_&_&_&_&_&_&Rv&Rs).
  split_and!.
  - by rewrite Ou, Iu.
  - by rewrite Ow, Iw.
  - rewrite Ov, Iv. simpl. by rewrite Rv.
  - etrans; [|exact Os]. etrans; [|exact Is]. etrans; [exact Rs|]. done.
Qed.

Lemma removal_ginv X d t m : ginv X d → dg_txs d !! t = Some m → ginv X (removal t m d).
Proof.
  intros G Hm. destruct (removal_rest d t m) as (Hu&Hw&Hv&[_ Hworld _]).
  destruct (release_inputs t (tx_InputIDs t) d) as (R1&R2&R3&R4&_).
  apply (ginv_remove X d _ t); rewrite ?Hu, ?Hw, ?Hv; try done.
  - intros u. by apply (removal_txs X).
  - intros u. by apply (removal_preferences X).
  - intros u. unfold set_remove. by rewrite elem_of_difference, elem_of_singleton.
Qed.

Lemma removal_shrinks X d t m : ginv X d → dg_txs d !! t = Some m → shrinks d (removal t m d).
Proof.
  intros G Hm. destruct (removal_rest d t m) as (_&_&_&[He Hworld Ha]).
  split; [|intros u; left; by rewrite Hworld|by rewrite He|rewrite Ha; eauto].
  intros u n'. rewrite (removal_txs X) by done. case_decide; [done|]. intros (n&->&->)%fmap_Some.
  exists n. split; [done|]. unfold drop_edge, set_remove. simpl. set_solver.
Qed.

(** ** Rejection *)

Lemma keeps_fulfill_rejector R `{!PreOrder R} rej k :
  (∀ d b l, R d (upd_rejecting b l d)) → (∀ d e, R d (upd_errs e d)) → (∀ l, keeps R (rej l)) →
  keeps R (rejector_Fulfill rej k).
Proof.
  intros Hr He Hrej d r d'. unfold rejector_Fulfill. destruct (dg_rejectors d !! k) as [rj|]; [|done].
  destruct (rj_rejected rj || errored d); [intros [= <- <-]; reflexivity|].
  intros Hk. etrans; [apply Hr|by eapply keeps_keep; [tc_solve|..|exact Hk]].
Qed.

(** [rejectTx] after the call of the transaction's [Reject]. *)
Definition notify_rejected (rej : list ID → storm unit) t : storm unit :=
  sbind (smod (abandon_acceptors t)) (λ _ d,
    let '(blocking, b) := blocker_take t (dg_pendingReject d) in
    sfor (rejector_Fulfill rej) blocking (upd_rejecting b (dg_rejectors d) d)).

Lemma keeps_notify_rejected R `{!PreOrder R} rej t :
  (∀ d b l, R d (upd_rejecting b l d)) → (∀ d, R d (abandon_acceptors t d)) → (∀ d e, R d (upd_errs e d)) →
  (∀ l, keeps R (rej l)) → keeps R (notify_rejected rej t).
Proof.
  intros Hr Ha He Hrej. apply keeps_bind; [tc_solve|by apply keeps_mod; intros d; apply Ha|].
  intros _ d r d' Hd. etrans; [apply Hr|]. eapply keeps_for; [tc_solve| |exact Hd].
  intros k. by apply keeps_fulfill_rejector.
Qed.

Lemma rejectTx_eq rej t d :
  rejectTx rej t d = match tx_Reject t (dg_world d) with
    | Ok w => notify_rejected rej t (upd_world w d)
    | Err e => Some (Err e, d)
    end.
Proof. unfold rejectTx, sbind at 1, scall. by destruct (tx_Reject t (dg_world d)). Qed.

Lemma errs_kept e d : dg_errs d ≠ None → dg_errs (upd_errs e d) ≠ None.
Proof. simpl. by destruct (dg_errs d). Qed.

Lemma abandon_same t d : same_but_errs d (abandon_acceptors t d).
Proof.
  split; [done..|]. simpl. generalize (default [] (dg_pendingAccept d !! t)) as l. intros l. generalize (dg_acceptors d) as s.
  induction l as [|j l IH]; intros s k a' Ha'; simpl in *; [by exists a'|].
  destruct (IH _ k a' Ha') as (a&Ha&Hd&Hi). rewrite list_lookup_alter in Ha. case_decide as Hjk.
  - subst k. apply fmap_Some in Ha as (a0&Ha0&->). by exists a0.
  - by exists a.
Qed.

Lemma removed_rejected X d t m w :
  ginv X d → dg_txs d !! t = Some m → tx_Reject t (dg_world d) = Ok w →
  ginv X (upd_world w (removal t m d)) ∧ shrinks d (upd_world w (removal t m d)).
Proof.
  intros G Hm Hw. pose proof (tx_Reject_status t _ w Hw) as Hst.
  pose proof (removal_ginv X d t m G Hm) as G'. pose proof (removal_shrinks X d t m G Hm) as S'.
  destruct (removal_rest d t m) as (_&_&_&[_ Hworld _]).
  assert (dg_txs (removal t m d) !! t = None) as Hgone by (by rewrite (removal_txs X), decide_True).
  split.
  - apply (ginv_same X (removal t m d)); [done| |done]. intros u Hu. simpl. rewrite Hst, Hworld, decide_False; [done|].
    intros ->. rewrite Hgone in Hu. by destruct Hu.
  - split; [apply S'| |apply S'..]. intros u. simpl. rewrite Hst. case_decide as Hut; [|by left]. subst u.
    right. split_and!; [done|by eexists|done].
Qed.

Lemma reject_one_rejects X rej t :
  (∀ l, keeps (rejects X) (rej l)) → keeps (rejects X) (reject_one rej t).
Proof.
  intros Hrej d r d'. rewrite reject_one_eq. destruct (dg_txs d !! t) as [m|] eqn:Em; [|done].
  rewrite rejectTx_eq. destruct (removal_rest d t m) as (_&_&_&[_ Hworld _]). rewrite Hworld.
  destruct (tx_Reject t (dg_world d)) as [w|e] eqn:Ew.
  - intros Hr G. destruct (removed_rejected X d t m w G Em Ew) as [G1 S1].
    assert (rejects X (upd_world w (removal t m d)) d') as Hk.
    { refine (keeps_notify_rejected (rejects X) rej t _ _ _ Hrej _ _ _ Hr); intros; apply rejects_frame; try done.
      - by apply same_but_errs_eq.
      - apply abandon_same.
      - apply same_but_errs_eq; [done..|]. apply errs_kept. }
    destruct (Hk G1) as [? ?]. split; [done|by etrans].
  - intros [= <- <-] G. split; [by apply removal_ginv|by apply (removal_shrinks X)].
Qed.

Lemma reject_rejects X fuel l : keeps (rejects X) (reject fuel l).
Proof.
  revert l. induction fuel as [|fuel IH]; intros l; simpl; [apply keeps_panic|].
  apply keeps_for; [tc_solve|]. intros t. by apply reject_one_rejects.
Qed.

(** ** Nothing comes back, and the fuel is enough *)

Definition fewer d d' : Prop := ∀ u, dg_txs d !! u = None → dg_txs d' !! u = None.

#[global] Instance fewer_preorder : PreOrder fewer.
Proof. split; [by intros d u|]. intros d1 d2 d3 F1 F2 u Hu. by apply F2, F1. Qed.

Lemma fewer_same d d' : dg_txs d' = dg_txs d → fewer d d'.
Proof. by intros E u; rewrite E. Qed.

Lemma fewer_size d d' : fewer d d' → (size (dg_txs d') ≤ size (dg_txs d))%nat.
Proof.
  intros Hf. rewrite <-!size_dom. apply subseteq_size. intros u. rewrite !elem_of_dom, <-!not_eq_None_Some. auto.
Qed.

Lemma removal_fewer d t m : fewer d (removal t m d) ∧ dg_txs (removal t m d) !! t = None.
Proof.
  unfold removal, removeConflict.
  destruct (remove_neighbors t (range_set (dt_outs m))
    (foldl (remove_neighbor t) (forget t (foldl (release_input t) d (tx_InputIDs t))) (range_set (dt_ins m)))) as (HO&_).
  destruct (remove_neighbors t (range_set (dt_ins m)) (forget t (foldl (release_input t) d (tx_InputIDs t)))) as (HI&_).
  destruct (release_inputs t (tx_InputIDs t) d) as (_&_&_&_&Ht&_).
  assert (∀ u, u = t ∨ dg_txs d !! u = None → dg_txs (removal t m d) !! u = None) as Hall.
  { intros u Hu. unfold removal, removeConflict. rewrite HO, HI. simpl. rewrite Ht, lookup_delete.
    destruct (decide (t = u)); [by repeat case_decide|]. destruct Hu as [->| ->]; [done|]. by repeat case_decide. }
  split; [intros u Hu|]; apply Hall; auto.
Qed.

Lemma keeps_fewer_rejectTx rej t : (∀ l, keeps fewer (rej l)) → keeps fewer (rejectTx rej t).
Proof.
  intros Hrej d r d'. rewrite rejectTx_eq. destruct (tx_Reject t (dg_world d)) as [w|e]; [|by intros [= <- <-]].
  intros Hr. refine (keeps_notify_rejected fewer rej t _ _ _ Hrej _ _ _ Hr); intros; by apply fewer_same.
Qed.

Lemma keeps_fewer_reject_one rej t : (∀ l, keeps fewer (rej l)) → keeps fewer (reject_one rej t).
Proof.
  intros Hrej d r d'. rewrite reject_one_eq. destruct (dg_txs d !! t) as [m|]; [|done].
  intros Hr. etrans; [apply removal_fewer|by eapply keeps_fewer_rejectTx].
Qed.

Lemma reject_fewer fuel l : keeps fewer (reject fuel l).
Proof.
  revert l. induction fuel as [|fuel IH]; intros l; simpl; [apply keeps_panic|].
  apply keeps_for; [tc_solve|]. intros t. by apply keeps_fewer_reject_one.
Qed.

Lemma reject_gone fuel l d d' : reject fuel l d = Some (Ok tt, d') → ∀ t, t ∈ l → dg_txs d' !! t = None.
Proof.
  destruct fuel as [|fuel]; simpl; [done|]. intros Hr.
  refine (sfor_ok _ (λ t d, dg_txs d !! t = None) l d d' _ _ Hr).
  - intros t d1 d2. rewrite reject_one_eq. destruct (dg_txs d1 !! t) as [m|]; [|done]. intros Hd2.
    apply keeps_fewer_rejectTx in Hd2; [|intros; apply reject_fewer]. apply Hd2, removal_fewer.
  - intros t u d1 r d2 Hu Hd. apply keeps_fewer_reject_one in Hd; [by apply Hd|intros; apply reject_fewer].
Qed.

(** With more fuel than transactions the fuel does not matter. *)
Lemma reject_fuel_irrelevant f1 f2 l d :
  (size (dg_txs d) < f1)%nat → (size (dg_txs d) < f2)%nat → reject f1 l d = reject f2 l d.
Proof.
  revert f2 l d. induction f1 as [|f1 IH]; intros [|f2] l d Hf1 Hf2; [lia..|]. simpl.
  apply (sfor_ext fewer); [intros t; apply keeps_fewer_reject_one; intros; apply reject_fewer|].
  intros t d1 Hd1%fewer_size. rewrite !reject_one_eq. destruct (dg_txs d1 !! t) as [m|] eqn:Em; [|done].
  destruct (removal_fewer d1 t m) as [Hf Hg].
  assert (size (dg_txs (removal t m d1)) < size (dg_txs d1))%nat as Hlt.
  { rewrite <-!size_dom. apply subset_size. split.
    - intros u. rewrite !elem_of_dom, <-!not_eq_None_Some. auto.
    - intros Hsub. assert (t ∈ dom (dg_txs (removal t m d1))) as Ht by (apply Hsub, elem_of_dom; by eexists).
      apply elem_of_dom in Ht as [? ?]. congruence. }
  rewrite !rejectTx_eq. destruct (tx_Reject t _) as [w|e]; [|done].
  unfold notify_rejected, sbind, smod. simpl. 
  set (d2 := upd_rejecting _ _ _).
  assert (size (dg_txs d2) = size (dg_txs (removal t m d1))) as Hd2 by done. clearbody d2.
  apply (sfor_ext fewer); [intros k; apply keeps_fulfill_rejector; [tc_solve|by intros; apply fewer_same..|intros; apply reject_fewer]|].
  intros k d3 Hd3%fewer_size. unfold rejector_Fulfill. destruct (dg_rejectors d3 !! k) as [rj|]; [|done].
  destruct (rj_rejected rj || errored d3); [done|]. unfold skeep. rewrite (IH f2); [done|simpl; lia..].
Qed.
End reject.
