(* ===== verification/SnowstormAccept.v ===== *)
(** Acceptance in the conflict graph.

    A transaction that is accepted leaves the graph together with everything that
    conflicts with it.  After a call without an error the invariant holds again, no
    accepted transaction has an input in common with another accepted or with a
    processing one, every accepted transaction has its dependencies accepted, and
    what has left the graph is decided. *)

From S2P Require Import Prelude Ids Bag Snowball Topological Snowstorm SnowstormInv SnowstormReject.

(** ** What calls without an error achieve *)

Section achieves.
Context `{GoRange, TxContext}.
Implicit Types (d : Directed) (Q : relation Directed).

(** An error that is kept is never dropped; when none is left, [Q] holds. *)
Definition achieves Q {A} (m : storm A) : Prop := ∀ d r d', m d = Some (r, d') →
  (dg_errs d ≠ None → dg_errs d' ≠ None) ∧ ((∃ a, r = Ok a) → dg_errs d' = None → Q d d').

Lemma achieves_weaken Q1 Q2 {A} (m : storm A) : (∀ d d', Q1 d d' → Q2 d d') → achieves Q1 m → achieves Q2 m.
Proof. intros HQ Hm d r d' Hd. destruct (Hm d r d' Hd) as [He Hq]. split; [done|auto]. Qed.

Lemma achieves_ret Q `{!Reflexive Q} {A} (a : A) : achieves Q (sret a).
Proof. intros d r d' [= <- <-]. split; [done|]. intros. reflexivity. Qed.

Lemma achieves_mod Q f :
  (∀ d, dg_errs (f d) = dg_errs d) → (∀ d, Q d (f d)) → achieves Q (smod f).
Proof. intros He Hf d r d' [= <- <-]. split; [by rewrite He|]. intros. apply Hf. Qed.

Lemma achieves_lift Q `{!Reflexive Q} {A} (r : result tx_error A) : achieves Q (slift r).
Proof. intros d r' d'. unfold slift. destruct r; intros [= <- <-]; (split; [done|]); intros; reflexivity. Qed.

Lemma achieves_panic Q {A} : achieves Q (spanic (A := A)).
Proof. intros d r d' [=]. Qed.

Lemma achieves_bind_from Q1 Q2 {A B} (m : storm A) (k : A → storm B) (Q : relation Directed) :
  achieves Q1 m → (∀ a, achieves Q2 (k a)) → (∀ d1 d2 d3, Q1 d1 d2 → Q2 d2 d3 → Q d1 d3) → achieves Q (sbind m k).
Proof.
  intros Hm Hk HQ d r d'. unfold sbind. destruct (m d) as [[[a|e] d1]|] eqn:E; [| |done].
  - intros Hr. destruct (Hm d _ d1 E) as [He1 Hq1]. destruct (Hk a d1 r d' Hr) as [He2 Hq2].
    split; [by intros; apply He2, He1|]. intros Hok Hn. eapply HQ; [|by apply Hq2]. apply Hq1; [by eexists|].
    destruct (dg_errs d1); [|done]. by destruct He2.
  - intros [= <- <-]. destruct (Hm d _ d1 E) as [He1 _]. split; [done|]. by intros [a [=]].
Qed.

Lemma achieves_bind Q `{!Transitive Q} {A B} (m : storm A) (k : A → storm B) :
  achieves Q m → (∀ a, achieves Q (k a)) → achieves Q (sbind m k).
Proof. intros Hm Hk. apply (achieves_bind_from Q Q); [done..|]. intros d1 d2 d3. apply transitivity. Qed.

Lemma achieves_for Q `{!PreOrder Q} {A} (f : A → storm unit) l : (∀ x, achieves Q (f x)) → achieves Q (sfor f l).
Proof. intros Hf. induction l as [|x l IH]; simpl; [apply (achieves_ret Q)|by apply achieves_bind; [tc_solve|..]]. Qed.

Lemma achieves_keep Q (m : storm unit) : achieves Q m → achieves Q (skeep m).
Proof.
  intros Hm d r d'. unfold skeep. destruct (m d) as [[[a|e] d1]|] eqn:E; [| |done];
    intros [= <- <-]; destruct (Hm d _ d1 E) as [He Hq].
  - split; [done|]. intros _. apply Hq. by eexists.
  - split; [intros; by apply errs_kept, He|]. intros _ Hn. simpl in Hn. by destruct (dg_errs d1).
Qed.

End achieves.

Section rejecting.
Context `{GoRange, TxContext, !TxLaws}.
Implicit Types (d : Directed) (u v t : ID) (n m : directedTx) (X : gset ID).

(** What leaves the graph is decided. *)
Definition leaves d d' : Prop :=
  ∀ t, is_Some (dg_txs d !! t) → is_Some (dg_txs d' !! t) ∨ Status_Decided (status d' t) = true.

Definition rejects_all X d d' : Prop := ginv X d → (ginv X d' ∧ shrinks d d') ∧ leaves d d'.

Lemma leaves_shrinks d1 d2 d3 : leaves d1 d2 → leaves d2 d3 → shrinks d2 d3 → leaves d1 d3.
Proof.
  intros L1 L2 S t Ht. destruct (L1 t Ht) as [?|Hd]; [by apply L2|].
  right. by destruct (sh_status _ _ S t) as [->|(->&_&_)].
Qed.

#[global] Instance rejects_all_preorder X : PreOrder (rejects_all X).
Proof.
  split; [by intros d ?; split; [|by left]|]. intros d1 d2 d3 S1 S2 G1.
  destruct (S1 G1) as [[G2 ?] ?]. destruct (S2 G2) as [[G3 ?] ?]. split; [split; [done|by etrans]|].
  by apply (leaves_shrinks d1 d2).
Qed.

Lemma rejects_all_frame X d d' : same_graph d d' → same_but_errs d d' → rejects_all X d d'.
Proof.
  intros Hg Hs G. split; [by apply rejects_frame|]. intros t Ht. left. by rewrite (sg_txs _ _ Hg).
Qed.

Lemma fulfill_rejector_all X rej k :
  (∀ l, achieves (rejects_all X) (rej l)) → achieves (rejects_all X) (rejector_Fulfill rej k).
Proof.
  intros Hrej d r d'. unfold rejector_Fulfill. destruct (dg_rejectors d !! k) as [rj|]; [|done].
  destruct (rj_rejected rj || errored d); [intros [= <- <-]; split; [done|]; intros; reflexivity|].
  intros Hk. apply (achieves_keep (rejects_all X)) in Hk as [He Hq]; [|done]. split; [done|].
  intros Hok Hn. etrans; [|by apply Hq]. apply rejects_all_frame; [done|by apply same_but_errs_eq].
Qed.

Lemma notify_rejected_all X rej t :
  (∀ l, achieves (rejects_all X) (rej l)) → achieves (rejects_all X) (notify_rejected rej t).
Proof.
  intros Hrej. apply achieves_bind; [tc_solve| |].
  - apply achieves_mod; [done|]. intros d. apply rejects_all_frame; [done|apply abandon_same].
  - intros _ d r d' Hd. simpl in Hd.
    eapply (achieves_for (rejects_all X)) in Hd as [He Hq]; [|intros k; by apply fulfill_rejector_all].
    split; [done|]. intros Hok Hn. etrans; [|by apply Hq]. apply rejects_all_frame; [done|by apply same_but_errs_eq].
Qed.

Lemma reject_one_all X rej t :
  (∀ l, achieves (rejects_all X) (rej l)) → achieves (rejects_all X) (reject_one rej t).
Proof.
  intros Hrej d r d'. rewrite reject_one_eq. destruct (dg_txs d !! t) as [m|] eqn:Em; [|done].
  rewrite rejectTx_eq. destruct (removal_rest d t m) as (_&_&_&[Herrs Hworld _]). rewrite Hworld.
  destruct (tx_Reject t (dg_world d)) as [w|e] eqn:Ew.
  - intros Hr. apply (notify_rejected_all X) in Hr as [He Hq]; [|done]. simpl in He. rewrite Herrs in He. split; [done|].
    intros Hok Hn G. destruct (removed_rejected X d t m w G Em Ew) as [G1 S1].
    destruct (Hq Hok Hn G1) as [[G2 S2] L2]. split; [split; [done|by etrans]|].
    apply (leaves_shrinks d (upd_world w (removal t m d))); [|done..].
    intros u Hu. simpl. rewrite (tx_Reject_status t _ w Ew), (removal_txs X) by done. case_decide; [by right|left].
    destruct Hu as [n ->]. by eexists.
  - intros [= <- <-]. rewrite Herrs. split; [done|]. by intros [? [=]].
Qed.

Lemma reject_all X fuel l : achieves (rejects_all X) (reject fuel l).
Proof.
  revert l. induction fuel as [|fuel IH]; intros l; simpl; [apply achieves_panic|].
  apply achieves_for; [tc_solve|]. intros t. by apply reject_one_all.
Qed.

Lemma reject_set_all X s : achieves (rejects_all X) (reject_set s).
Proof. intros d r d' Hd. by apply (reject_all X) in Hd. Qed.

Lemma reject_set_gone s d d' : reject_set s d = Some (Ok tt, d') → ∀ t, t ∈ s → dg_txs d' !! t = None.
Proof. intros Hr t Ht. eapply reject_gone; [exact Hr|]. by apply elem_of_range_set. Qed.
End rejecting.

(** ** Safe states *)

Section accepting.
Context `{GoRange, TxContext, !TxLaws}.
Implicit Types (d : Directed) (u v t : ID) (n m : directedTx) (X : gset ID).

Definition deps_of t : list ID := match tx_Dependencies t with Ok l => l | Err _ => [] end.

Definition deps_accepted d t : Prop := ∀ dep, dep ∈ deps_of t → status d dep = Accepted.

Record safe d : Prop := mkSafe {
  s_ginv : ginv ∅ d;
  s_disjoint : ∀ t u, status d t = Accepted → status d u = Accepted → t ≠ u → ¬ share_input t u;
  s_unspent : ∀ t u, status d t = Accepted → is_Some (dg_txs d !! u) → ¬ share_input t u;
  s_deps : ∀ t, status d t = Accepted → tx_InputIDs t ≠ [] → deps_accepted d t;
  s_acceptors : ∀ k a dep, dg_acceptors d !! k = Some a → dep ∈ deps_of (ac_txID a) →
    dep ∈ ac_deps a ∨ status d dep = Accepted;
}.

Record progress d d' : Prop := mkProgress {
  p_final : ∀ t, Status_Decided (status d t) = true → status d' t = status d t;
  p_leaves : leaves d d';
}.

#[global] Instance progress_preorder : PreOrder progress.
Proof.
  split; [by intros d; split; [|by left]|]. intros d1 d2 d3 P1 P2. split.
  - intros t Ht. pose proof (p_final _ _ P1 t Ht) as E. rewrite <-E. apply (p_final _ _ P2). by rewrite E.
  - intros t Ht. destruct (p_leaves _ _ P1 t Ht) as [?|Hd]; [by apply (p_leaves _ _ P2)|].
    right. by rewrite (p_final _ _ P2 t Hd).
Qed.

Lemma progress_accepted d d' t : progress d d' → status d t = Accepted → status d' t = Accepted.
Proof. intros P Ht. by rewrite (p_final _ _ P t); rewrite Ht. Qed.

Lemma progress_same d d' : dg_txs d' = dg_txs d → dg_world d' = dg_world d → progress d d'.
Proof. intros Ht Hw. split; [by rewrite Hw|]. intros t. rewrite Ht. by left. Qed.

(** The relation that acceptance keeps. *)
Definition advances d d' : Prop := safe d → safe d' ∧ progress d d'.

#[global] Instance advances_preorder : PreOrder advances.
Proof.
  split; [by intros d ?|]. intros d1 d2 d3 S1 S2 G1.
  destruct (S1 G1) as [G2 ?]. destruct (S2 G2) as [G3 ?]. split; [done|by etrans].
Qed.

(** Only the blockers, the error and the sets that the invariant does not speak of change. *)
Lemma advances_frame d d' : same_graph d d' → dg_world d' = dg_world d →
  (safe d → ∀ k a dep, dg_acceptors d' !! k = Some a → dep ∈ deps_of (ac_txID a) →
    dep ∈ ac_deps a ∨ status d dep = Accepted) →
  advances d d'.
Proof.
  intros Hg Hw Ha S. split; [|by apply progress_same; [apply Hg|]].
  split; unfold deps_accepted; rewrite ?(sg_txs _ _ Hg), ?Hw; try apply S; [|by apply Ha].
  apply (ginv_same ∅ d); [done|intros; by rewrite Hw|apply S].
Qed.

Lemma advances_same d d' :
  same_graph d d' → dg_world d' = dg_world d → dg_acceptors d' = dg_acceptors d → advances d d'.
Proof. intros Hg Hw Ha. apply advances_frame; [done..|]. rewrite Ha. apply s_acceptors. Qed.

(** ** The accepted transaction leaves the graph *)

Lemma claimed_lookup l (utxos : gmap ID (gset ID)) i :
  foldl (λ utxos inputID, delete inputID utxos) utxos l !! i = if decide (i ∈ l) then None else utxos !! i.
Proof.
  revert utxos. induction l as [|j l IH]; intros utxos; cbn [foldl]; [by rewrite decide_False by apply not_elem_of_nil|].
  rewrite IH, lookup_delete. destruct (decide (i ∈ l)) as [Hi|Hi].
  - by rewrite decide_True by (by right).
  - destruct (decide (j = i)) as [->|Hne]; [by rewrite decide_True by left|].
    rewrite decide_False; [done|]. rewrite elem_of_cons. naive_solver.
Qed.

Lemma claim_ginv d t n : ginv ∅ d → dg_txs d !! t = Some n → ginv {[t]} (claim_inputs t d).
Proof.
  intros G Hn. set (d' := claim_inputs t d).
  assert (∀ u m, dg_txs d' !! u = Some m ↔ u ≠ t ∧ dg_txs d !! u = Some m) as Hl.
  { intros u m. simpl. rewrite lookup_delete. destruct (decide (t = u)) as [->|]; naive_solver. }
  assert (∀ u, is_Some (dg_txs d !! u) → u = t ∨ is_Some (dg_txs d' !! u)) as His.
  { intros u [m Hm]. destruct (decide (u = t)); [by left|right]. exists m. by apply Hl. }
  split.
  - intros u ->%elem_of_singleton. simpl. by rewrite lookup_delete_eq.
  - intros u m v [Hu Hm]%Hl Hv. destruct (g_in ∅ d G u m v Hm Hv) as [?|(m'&Hm'&?)]; [set_solver|].
    destruct (decide (v = t)) as [->|]; [left; set_solver|right]. exists m'. split; [by apply Hl|done].
  - intros u m v [Hu Hm]%Hl Hv. destruct (g_out ∅ d G u m v Hm Hv) as [?|(m'&Hm'&?)]; [set_solver|].
    destruct (decide (v = t)) as [->|]; [left; set_solver|right]. exists m'. split; [by apply Hl|done].
  - intros u m v [Hu Hm]%Hl. by apply (g_sound ∅ d G u m).
  - intros u m v m' [Hu Hm]%Hl [Hv Hm']%Hl. by apply (g_complete ∅ d G u m v m').
  - intros u m i [Hu Hm]%Hl Hi. simpl. rewrite claimed_lookup. case_decide as Hit; [left; exists t; set_solver|right].
    destruct (g_utxos ∅ d G u m i Hm Hi) as [(a&?&_)|?]; [set_solver|done].
  - intros i s u Hs Hus. simpl in Hs. rewrite claimed_lookup in Hs. case_decide as Hit; [done|].
    destruct (g_spenders ∅ d G i s u Hs Hus) as [Hi [->|?]%His]; [done|by split].
  - intros u m [Hu Hm]%Hl Hw. simpl. rewrite lookup_delete_ne by done. by apply (g_listed ∅ d G u m).
  - intros u s. simpl. intros [_ Hs]%lookup_delete_Some. by apply (g_lists ∅ d G).
  - intros u. setoid_rewrite Hl. simpl. unfold set_remove. rewrite elem_of_difference, elem_of_singleton, (g_preferred ∅ d G).
    naive_solver.
  - intros u. setoid_rewrite Hl. simpl. unfold set_remove. rewrite elem_of_difference, elem_of_singleton, (g_virtuous ∅ d G).
    naive_solver.
  - intros u m [Hu Hm]%Hl. by apply (g_rogue ∅ d G u m).
  - intros u m [Hu Hm]%Hl. by apply (g_processing ∅ d G u m).
Qed.

(** Once no conflict of the accepted transaction is left the invariant is whole. *)
Lemma ginv_close d t : ginv {[t]} d → (∀ u, is_Some (dg_txs d !! u) → ¬ conflict u t) → ginv ∅ d.
Proof.
  intros G Hno.
  assert (∀ u n v, dg_txs d !! u = Some n → v ∈ edges n → v ∉ ({[t]} : gset ID)) as Hne.
  { intros u n v Hn Hv ->%elem_of_singleton. apply (Hno u); [by eexists|]. by apply (g_sound _ d G u n). }
  split; try apply G.
  - intros t' ?. set_solver.
  - intros u n v Hn Hv. destruct (g_in _ d G u n v Hn Hv) as [Hx|?]; [|by right].
    exfalso. apply (Hne u n v Hn); [unfold edges; set_solver|done].
  - intros u n v Hn Hv. destruct (g_out _ d G u n v Hn Hv) as [Hx|?]; [|by right].
    exfalso. apply (Hne u n v Hn); [unfold edges; set_solver|done].
  - intros u n i Hn Hi. destruct (g_utxos _ d G u n i Hn Hi) as [(a&->%elem_of_singleton&Ha)|?]; [|by right].
    exfalso. apply (Hno u); [by eexists|]. split; [|left; by exists i].
    intros ->. by rewrite (g_gone _ d G t) in Hn by set_solver.
Qed.

(** The conflicts of [t] have been rejected. *)
Record cleared t d d' : Prop := mkCleared {
  c_ginv : ginv ∅ d';
  c_gone : dg_txs d' !! t = None;
  c_clear : ∀ u, is_Some (dg_txs d' !! u) → ¬ conflict u t;
  c_sub : ∀ u, is_Some (dg_txs d' !! u) → is_Some (dg_txs d !! u);
  c_status : ∀ u, status d' u = status d u ∨ status d' u = Rejected ∧ is_Some (dg_txs d !! u) ∧ u ≠ t;
  c_leaves : ∀ u, u ≠ t → is_Some (dg_txs d !! u) → is_Some (dg_txs d' !! u) ∨ Status_Decided (status d' u) = true;
  c_acceptors : ∀ k a', dg_acceptors d' !! k = Some a' →
    ∃ a, dg_acceptors d !! k = Some a ∧ ac_deps a = ac_deps a' ∧ ac_txID a = ac_txID a';
}.

Lemma reject_conflicts t n d d2 d3 :
  ginv ∅ d → dg_txs d !! t = Some n →
  reject_set (dt_ins n) (claim_inputs t d) = Some (Ok tt, d2) → reject_set (dt_outs n) d2 = Some (Ok tt, d3) →
  dg_errs d3 = None → cleared t d d3.
Proof.
  intros G Hn H2 H3 He3. set (d1 := claim_inputs t d) in *. pose proof (claim_ginv d t n G Hn) as G1. fold d1 in G1.
  pose proof (reject_set_gone _ _ _ H2) as Hins. pose proof (reject_set_gone _ _ _ H3) as Houts.
  destruct (reject_set_all {[t]} _ d1 _ d2 H2) as [_ A2]. destruct (reject_set_all {[t]} _ d2 _ d3 H3) as [E3 A3].
  assert (dg_errs d2 = None) as He2 by (destruct (dg_errs d2); [by destruct E3|done]).
  destruct (A2 ltac:(by eexists) He2 G1) as [[G2 S12] L12]. destruct (A3 ltac:(by eexists) He3 G2) as [[G3 S23] L23].
  assert (shrinks d1 d3) as S13 by (by etrans).
  assert (∀ u, is_Some (dg_txs d1 !! u) ↔ u ≠ t ∧ is_Some (dg_txs d !! u)) as H1d.
  { intros u. simpl. rewrite lookup_delete. destruct (decide (t = u)) as [->|]; [|naive_solver].
    split; [by intros [? ?]|naive_solver]. }
  assert (∀ u, is_Some (dg_txs d3 !! u) → is_Some (dg_txs d1 !! u)) as H31.
  { intros u [n3 Hn3]. destruct (sh_txs _ _ S13 u n3 Hn3) as (n1&Hn1&_). by eexists. }
  assert (∀ u, is_Some (dg_txs d3 !! u) → ¬ conflict u t) as Hclear.
  { intros u Hu Hc. destruct (proj1 (H1d u) (H31 u Hu)) as [Hne [m Hm]].
    pose proof (g_complete ∅ d G t n u m Hn Hm (conflict_sym _ _ Hc)) as Hedge. apply elem_of_union in Hedge as [Hi|Ho].
    - rewrite (shrinks_gone d2 d3 u S23 (Hins u Hi)) in Hu. by destruct Hu.
    - rewrite (Houts u Ho) in Hu. by destruct Hu. }
  split.
  - by apply (ginv_close d3 t).
  - apply (g_gone _ d3 G3). set_solver.
  - done.
  - intros u Hu. by apply H1d, H31.
  - intros u. destruct (sh_status _ _ S13 u) as [?|(?&[? ?]%H1d&?)]; [by left|by right].
  - intros u Hne Hu. apply (leaves_shrinks d1 d2 d3 L12 L23 S23). by apply H1d.
  - apply (sh_acceptors _ _ S13).
Qed.

Lemma accepted_safe t d d' w :
  cleared t d d' → safe d → is_Some (dg_txs d !! t) → deps_accepted d t →
  (∀ u, tx_Status w u = if decide (u = t) then Accepted else status d' u) →
  safe (upd_world w d') ∧ progress d (upd_world w d').
Proof.
  intros C S Ht Hdeps Hw.
  assert (Status_Decided (status d t) = false) as Hpt by (destruct Ht as [n Hn]; by apply (g_processing ∅ d (s_ginv d S) t n)).
  assert (∀ u, status (upd_world w d') u = Accepted → u = t ∨ u ≠ t ∧ status d u = Accepted) as Hacc.
  { intros u. simpl. rewrite Hw. case_decide; [by left|right]. split; [done|].
    destruct (c_status _ _ _ C u) as [<-|(?&_)]; congruence. }
  assert (progress d (upd_world w d')) as P.
  { split.
    - intros u Hu. simpl. rewrite Hw. case_decide; [congruence|].
      destruct (c_status _ _ _ C u) as [?|(_&[n Hn]&_)]; [done|].
      rewrite (g_processing ∅ d (s_ginv d S) u n Hn) in Hu. done.
    - intros u Hu. simpl. rewrite Hw. case_decide; [by right|]. by apply (c_leaves _ _ _ C). }
  split; [|done]. split.
  - apply (ginv_same ∅ d'); [done| |apply C]. intros u Hu. simpl. rewrite Hw, decide_False; [done|].
    intros ->. rewrite (c_gone _ _ _ C) in Hu. by destruct Hu.
  - intros u v [->|[Hu Hu']]%Hacc [->|[Hv Hv']]%Hacc Hne; [done| | |by apply (s_disjoint d S)].
    + intros Hs. apply (s_unspent d S v t); [done..|]. destruct Hs as (i&?&?). by exists i.
    + by apply (s_unspent d S u t).
  - intros u v [->|[Hu Hu']]%Hacc Hv; simpl in Hv.
    + intros (i&Hi&Hi'). apply (c_clear _ _ _ C v Hv). split; [|left; by exists i].
      intros ->. rewrite (c_gone _ _ _ C) in Hv. by destruct Hv.
    + apply (s_unspent d S u v); [done|]. by apply (c_sub _ _ _ C).
  - intros u [->|[Hu Hu']]%Hacc Hin dep Hdep; (eapply progress_accepted; [exact P|]); [by apply Hdeps|].
    by apply (s_deps d S u).
  - intros k a' dep Ha' Hdep. destruct (c_acceptors _ _ _ C k a' Ha') as (a&Ha&Hd&Hi). rewrite <-Hi in Hdep.
    destruct (s_acceptors d S k a dep Ha Hdep) as [?|?]; [left; by rewrite <-Hd|right].
    by apply (progress_accepted d).
Qed.

(** ** Acceptors *)

(** A call of [accept] on a transaction whose dependencies are accepted. *)
Definition accepts t d d' : Prop := deps_accepted d t → advances d d'.

Lemma acceptor_Update_advances acc k :
  (∀ t, achieves (accepts t) (acc t)) → achieves advances (acceptor_Update acc k).
Proof.
  intros Hacc d r d'. unfold acceptor_Update. destruct (dg_acceptors d !! k) as [a|] eqn:Ea; [|done].
  destruct (_ || _ || _) eqn:Eg; [intros [= <- <-]; split; [done|]; intros; reflexivity|].
  intros Hk. apply (achieves_keep (accepts (ac_txID a))) in Hk as [He Hq]; [|done]. split; [done|].
  intros Hok Hn S. apply Hq; [done..| |done]. intros dep Hdep.
  destruct (s_acceptors d S k a dep Ea Hdep) as [Hin|?]; [|done].
  apply orb_false_iff in Eg as [[_ Es]%orb_false_iff _]. apply bool_decide_eq_false, dec_stable in Es.
  apply size_empty_iff in Es. set_solver.
Qed.

(** While the event of [t] is handled [t] stays accepted. *)
Definition advances_on t d d' : Prop := status d t = Accepted → advances d d'.

#[global] Instance advances_on_preorder t : PreOrder (advances_on t).
Proof.
  split; [by intros d ? ?|]. intros d1 d2 d3 S1 S2 Ht S.
  destruct (S1 Ht S) as [S' P]. destruct (S2 (progress_accepted _ _ t P Ht) S') as [? ?]. split; [done|by etrans].
Qed.

Lemma acceptor_Fulfill_advances acc t k :
  (∀ t, achieves (accepts t) (acc t)) → achieves (advances_on t) (acceptor_Fulfill acc t k).
Proof.
  intros Hacc. apply achieves_bind; [tc_solve| |].
  - apply achieves_mod; [done|]. intros d Ht. apply advances_frame; [done..|]. intros S j a dep Ha Hdep. simpl in Ha.
    rewrite list_lookup_alter in Ha. case_decide as Hj; [|by apply (s_acceptors d S j)].
    apply fmap_Some in Ha as (a0&Ha0&->). simpl in *. destruct (s_acceptors d S k a0 dep Ha0 Hdep) as [?|?]; [|by right].
    destruct (decide (dep = t)) as [->|]; [by right|left]. unfold set_remove. set_solver.
  - intros _. apply (achieves_weaken advances); [by intros d d' Hd _|]. by apply acceptor_Update_advances.
Qed.

(** [acceptTx] after the calls on the virtual machine. *)
Definition notify_accepted (acc : ID → storm unit) t : storm unit :=
  sbind (λ d,
    let '(blocking, b) := blocker_take t (dg_pendingAccept d) in
    sfor (acceptor_Fulfill acc t) blocking (upd_accepting b (dg_acceptors d) d)) (λ _,
  smod (λ d, upd_rejecting (blocker_take t (dg_pendingReject d)).2 (dg_rejectors d) d)).

Lemma notify_accepted_advances acc t :
  (∀ t, achieves (accepts t) (acc t)) → achieves (advances_on t) (notify_accepted acc t).
Proof.
  intros Hacc. apply achieves_bind; [tc_solve| |].
  - intros d r d' Hd. simpl in Hd.
    apply (achieves_for (advances_on t)) in Hd as [He Hq]; [|intros k; by apply acceptor_Fulfill_advances].
    split; [done|]. intros Hok Hn. etrans; [|by apply Hq]. intros _. by apply advances_same.
  - intros _. apply achieves_mod; [done|]. intros d _. by apply advances_same.
Qed.

(** The calls on the virtual machine. *)
Definition vm_accept t : storm unit :=
  sbind (if tx_HasBytes t then scall (tx_DecisionAccept t) else sret tt) (λ _, scall (tx_Accept t)).

Lemma acceptTx_eq acc t d :
  acceptTx acc t d = match vm_accept t d with
    | Some (Ok _, d) => notify_accepted acc t d
    | Some (Err e, d) => Some (Err e, d)
    | None => None
    end.
Proof.
  unfold acceptTx, vm_accept, sbind.
  destruct ((if tx_HasBytes t then scall (tx_DecisionAccept t) else sret tt) d) as [[[[]|e] d1]|]; [|done..].
  by destruct (scall (tx_Accept t) d1) as [[[[]|e] d2]|].
Qed.

Lemma vm_accept_spec t d : ∃ r w, vm_accept t d = Some (r, upd_world w d) ∧
  (r = Ok tt → ∀ u, tx_Status w u = if decide (u = t) then Accepted else status d u).
Proof.
  assert (∀ d, d = upd_world (dg_world d) d) as Hself by (by intros []).
  unfold vm_accept, sbind.
  assert (∃ r1 w1, (if tx_HasBytes t then scall (tx_DecisionAccept t) else sret tt) d = Some (r1, upd_world w1 d) ∧
    ∀ u, tx_Status w1 u = status d u) as (r1&w1&->&Hw1).
  { destruct (tx_HasBytes t); [|exists (Ok tt), (dg_world d); by rewrite <-Hself]. unfold scall.
    destruct (tx_DecisionAccept t (dg_world d)) as [w1|e] eqn:Ew.
    - exists (Ok tt), w1. split; [done|]. by apply (tx_DecisionAccept_status t).
    - exists (Err e), (dg_world d). by rewrite <-Hself. }
  destruct r1 as [[]|e]; [|by exists (Err e), w1]. unfold scall. simpl.
  destruct (tx_Accept t w1) as [w2|e] eqn:Ew2; [|by exists (Err e), w1].
  exists (Ok tt), w2. split; [done|]. intros _ u. rewrite (tx_Accept_status t w1 w2 Ew2). case_decide; [done|apply Hw1].
Qed.

Lemma accept_one_accepts acc t :
  (∀ t, achieves (accepts t) (acc t)) → achieves (accepts t) (accept_one acc t).
Proof.
  intros Hacc d r d'. unfold accept_one. destruct (dg_txs d !! t) as [n|] eqn:En; [|done].
  unfold sbind at 1, smod. unfold sbind at 1. destruct (reject_set (dt_ins n) (claim_inputs t d)) as [[[[]|e] d2]|] eqn:E2; [| |done].
  2:{ intros [= <- <-]. destruct (reject_set_all ∅ _ _ _ _ E2) as [He _]. split; [done|]. by intros [? [=]]. }
  unfold sbind at 1. destruct (reject_set_all ∅ _ _ _ _ E2) as [He2 _]. simpl in He2.
  destruct (reject_set (dt_outs n) d2) as [[[[]|e] d3]|] eqn:E3; [| |done].
  2:{ intros [= <- <-]. destruct (reject_set_all ∅ _ _ _ _ E3) as [He _]. split; [by intros; apply He, He2|]. by intros [? [=]]. }
  destruct (reject_set_all ∅ _ _ _ _ E3) as [He3 _].
  rewrite acceptTx_eq. destruct (vm_accept_spec t d3) as (r1&w&->&Hw). destruct r1 as [[]|e]; intros Hr.
  2:{ injection Hr as <- <-. simpl. split; [by intros; apply He3, He2|]. by intros [? [=]]. }
  specialize (Hw eq_refl).
  destruct (notify_accepted_advances acc t Hacc _ _ _ Hr) as [He Hq]. simpl in He.
  split; [by intros; apply He, He3, He2|]. intros Hok Hn Hdeps S.
  assert (dg_errs d3 = None) as Hd3 by (destruct (dg_errs d3); [by destruct He|done]).
  pose proof (reject_conflicts t n d d2 d3 (s_ginv d S) En E2 E3 Hd3) as C.
  destruct (accepted_safe t d d3 w C S ltac:(by eexists) Hdeps Hw) as [S' P'].
  destruct (Hq Hok Hn) as [S'' P'']; [simpl; by rewrite Hw, decide_True|done|]. split; [done|by etrans].
Qed.

Lemma accept_accepts fuel t : achieves (accepts t) (accept fuel t).
Proof.
  revert t. induction fuel as [|fuel IH]; intros t; simpl; [apply achieves_panic|]. by apply accept_one_accepts.
Qed.

Lemma registerAcceptor_advances t : achieves advances (registerAcceptor t).
Proof.
  intros d r d'. unfold registerAcceptor, sbind at 1, slift.
  destruct (tx_Dependencies t) as [deps|e] eqn:Ed; [|intros [= <- <-]; split; [done|]; by intros [? [=]]].
  unfold sbind, smod. intros Hr.
  destruct (acceptor_Update_advances _ _ (accept_accepts _) _ _ _ Hr) as [He Hq]. simpl in He. split; [done|].
  intros Hok Hn. etrans; [|by apply Hq]. apply advances_frame; [done..|]. simpl. intros S k a dep Ha Hdep.
  apply lookup_snoc_Some in Ha as [[_ Ha]|[_ <-]]; [by apply (s_acceptors d S k a)|]. simpl in *.
  unfold deps_of in Hdep. rewrite Ed in Hdep. destruct (decide (status d dep = Accepted)); [by right|left].
  apply elem_of_list_to_set, list_elem_of_filter. done.
Qed.

(** ** The fuel of [accept] is enough *)

Lemma claim_fewer t n d : dg_txs d !! t = Some n →
  fewer d (claim_inputs t d) ∧ (size (dg_txs (claim_inputs t d)) < size (dg_txs d))%nat.
Proof.
  intros Hn. split.
  - intros u Hu. simpl. rewrite lookup_delete. by case_decide.
  - simpl. rewrite map_size_delete, Hn. assert (size (dg_txs d) ≠ 0%nat); [|lia]. apply map_size_ne_0_lookup. exists t. by eexists.
Qed.

Lemma keeps_fewer_Update acc k : (∀ t, keeps fewer (acc t)) → keeps fewer (acceptor_Update acc k).
Proof.
  intros Hacc d r d'. unfold acceptor_Update. destruct (dg_acceptors d !! k); [|done].
  destruct (_ || _ || _); [intros [= <- <-]; reflexivity|].
  intros Hk. refine (keeps_keep fewer _ _ (Hacc _) _ _ _ Hk). intros; by apply fewer_same.
Qed.

Lemma keeps_fewer_Fulfill acc t k : (∀ t, keeps fewer (acc t)) → keeps fewer (acceptor_Fulfill acc t k).
Proof.
  intros Hacc. apply keeps_bind; [tc_solve|apply keeps_mod; intros; by apply fewer_same|].
  intros _. by apply keeps_fewer_Update.
Qed.

Lemma keeps_fewer_acceptTx acc t : (∀ t, keeps fewer (acc t)) → keeps fewer (acceptTx acc t).
Proof.
  intros Hacc d r d'. rewrite acceptTx_eq. destruct (vm_accept_spec t d) as (r1&w&->&_).
  destruct r1 as [[]|e]; [|intros [= <- <-]; by apply fewer_same].
  intros Hr. etrans; [|refine (keeps_bind fewer _ _ _ _ _ _ _ Hr)]; [by apply fewer_same| |].
  - intros d1 r1 d2 Hd. etrans; [|refine (keeps_for fewer _ _ _ _ _ _ Hd)]; [by apply fewer_same|].
    intros k. by apply keeps_fewer_Fulfill.
  - intros _. apply keeps_mod. intros. by apply fewer_same.
Qed.

Lemma keeps_fewer_accept fuel t : keeps fewer (accept fuel t).
Proof.
  revert t. induction fuel as [|fuel IH]; intros t; simpl; [apply keeps_panic|].
  intros d r d'. unfold accept_one. destruct (dg_txs d !! t) as [n|] eqn:En; [|done]. intros Hr.
  refine (keeps_bind fewer _ _ _ _ _ _ _ Hr).
  - intros d1 r1 d2 [= <- <-]. intros u Hu. simpl. rewrite lookup_delete. by case_decide.
  - intros _. apply keeps_bind; [tc_solve|intros d1 r1 d2; apply reject_fewer|intros _].
    apply keeps_bind; [tc_solve|intros d1 r1 d2; apply reject_fewer|intros _]. by apply keeps_fewer_acceptTx.
Qed.

Lemma accept_fuel_irrelevant f1 f2 t d :
  (size (dg_txs d) < f1)%nat → (size (dg_txs d) < f2)%nat → accept f1 t d = accept f2 t d.
Proof.
  revert f2 t d. induction f1 as [|f1 IH]; intros [|f2] t d Hf1 Hf2; [lia..|]. simpl. unfold accept_one.
  destruct (dg_txs d !! t) as [n|] eqn:En; [|done]. destruct (claim_fewer t n d En) as [_ Hlt].
  unfold sbind, smod.
  destruct (reject_set (dt_ins n) (claim_inputs t d)) as [[[[]|e] d2]|] eqn:E2; [|done..]. apply reject_fewer, fewer_size in E2.
  destruct (reject_set (dt_outs n) d2) as [[[[]|e] d3]|] eqn:E3; [|done..]. apply reject_fewer, fewer_size in E3.
  rewrite !acceptTx_eq. destruct (vm_accept_spec t d3) as ([[]|e]&w&->&_); [|done].
  unfold notify_accepted, sbind. simpl. set (d4 := upd_accepting _ _ _).
  assert (size (dg_txs d4) = size (dg_txs d3)) as Hd4 by done. clearbody d4.
  rewrite (sfor_ext fewer _ (acceptor_Fulfill (accept f2) t)); [done|intros; apply keeps_fewer_Fulfill, keeps_fewer_accept|].
  intros k d5 Hd5%fewer_size. unfold acceptor_Fulfill, sbind, smod, acceptor_Update. simpl.
  destruct (alter _ k _ !! k) as [a|]; [|done]. destruct (_ || _ || _); [done|].
  unfold skeep. rewrite (IH f2); [done|simpl; lia..].
Qed.
End accepting.
