(* ===== verification/SnowstormPoll.v ===== *)
(** Polls of the conflict graph: a successful poll turns edges towards the
    transaction with more successful polls and keeps the invariant. *)

From S2P Require Import Prelude Ids Bag Snowball Topological Snowstorm SnowstormInv SnowstormReject SnowstormAccept.

Section polls.
Context `{GoRange, TxContext, !TxLaws}.
Implicit Types (d : Directed) (u v t c : ID) (n m : directedTx) (X : gset ID).

(** The same transactions are processing and nothing else has happened. *)
Record same_nodes d d' : Prop := mkSameNodes {
  sn_nodes : ∀ u, is_Some (dg_txs d' !! u) ↔ is_Some (dg_txs d !! u);
  sn_rest : same_rest d d';
}.

#[global] Instance same_nodes_preorder : PreOrder same_nodes.
Proof.
  split; [by intros d; split|]. intros d1 d2 d3 [N1 R1] [N2 R2]. split; [|by etrans].
  intros u. by rewrite N2.
Qed.

Lemma advances_nodes d d' : (ginv ∅ d → ginv ∅ d') → same_nodes d d' → advances d d'.
Proof.
  intros HG [Hn [_ Hw Ha]] S.
  split; [split|split]; unfold deps_accepted; rewrite ?Hw, ?Ha; try apply S; try done.
  - apply HG, S.
  - intros t u Ht Hu. apply (s_unspent d S); [done|by apply Hn].
  - intros t Ht. left. by apply Hn.
Qed.

(** ** A node with the same edges *)

Lemma ginv_node X d t n n' :
  dg_txs d !! t = Some n → dt_ins n' = dt_ins n → dt_outs n' = dt_outs n →
  rogue (dt_snowball n') = rogue (dt_snowball n) → ginv X d → ginv X (upd_txs (insert t n') d).
Proof.
  intros Hn Hi Ho Hr G. set (d' := upd_txs (insert t n') d).
  assert (∀ u m', dg_txs d' !! u = Some m' → ∃ m, dg_txs d !! u = Some m ∧ dt_ins m' = dt_ins m ∧
    dt_outs m' = dt_outs m ∧ rogue (dt_snowball m') = rogue (dt_snowball m)) as Hold.
  { intros u m'. simpl. rewrite lookup_insert. case_decide; [intros [= <-]; subst; by exists n|]. intros. by exists m'. }
  assert (∀ u m, dg_txs d !! u = Some m → ∃ m', dg_txs d' !! u = Some m' ∧ dt_ins m' = dt_ins m ∧
    dt_outs m' = dt_outs m ∧ rogue (dt_snowball m') = rogue (dt_snowball m)) as Hnew.
  { intros u m Hm. simpl. rewrite lookup_insert. case_decide; [|by exists m]. subst u. exists n'. rewrite Hn in Hm.
    by injection Hm as <-. }
  assert (∀ m m', dt_ins m' = dt_ins m → dt_outs m' = dt_outs m → edges m' = edges m) as Hedges.
  { intros m m' Hmi Hmo. unfold edges. by rewrite Hmi, Hmo. }
  split.
  - intros u Hu. simpl. rewrite lookup_insert. case_decide as Hd; [|by apply (g_gone X d G)].
    subst u. by rewrite (g_gone X d G t Hu) in Hn.
  - intros u m' v (m&Hm&Hmi&_)%Hold. rewrite Hmi. intros Hv.
    destruct (g_in X d G u m v Hm Hv) as [?|(k&(k'&Hk'&_&Hko&_)%Hnew&?)]; [by left|right].
    exists k'. by rewrite Hko.
  - intros u m' v (m&Hm&_&Hmo&_)%Hold. rewrite Hmo. intros Hv.
    destruct (g_out X d G u m v Hm Hv) as [?|(k&(k'&Hk'&Hki&_)%Hnew&?)]; [by left|right].
    exists k'. by rewrite Hki.
  - intros u m' v (m&Hm&Hmi&Hmo&_)%Hold. rewrite (Hedges m m') by done. by apply (g_sound X d G u m).
  - intros u m' v k' (m&Hm&Hmi&Hmo&_)%Hold (k&Hk&_)%Hold. rewrite (Hedges m m') by done. by apply (g_complete X d G u m v k).
  - intros u m' i (m&Hm&_)%Hold. by apply (g_utxos X d G u m).
  - intros i s u Hs Hu. destruct (g_spenders X d G i s u Hs Hu) as [? [m (m'&Hm'&_)%Hnew]]. split; [done|by eexists].
  - intros u m' (m&Hm&_)%Hold. by apply (g_listed X d G u m).
  - apply (g_lists X d G).
  - intros u. simpl. rewrite (g_preferred X d G). split.
    + intros (m&(m'&Hm'&_&Hmo&_)%Hnew&He). exists m'. split; [done|congruence].
    + intros (m'&(m&Hm&_&Hmo&_)%Hold&He). exists m. split; [done|congruence].
  - intros u. simpl. rewrite (g_virtuous X d G). split.
    + intros (m&(m'&Hm'&_&_&Hmr)%Hnew&He). exists m'. split; [done|congruence].
    + intros (m'&(m&Hm&_&_&Hmr)%Hold&He). exists m. split; [done|congruence].
  - intros u m' (m&Hm&Hmi&Hmo&Hmr)%Hold. rewrite Hmr, (Hedges m m') by done. by apply (g_rogue X d G u m).
  - intros u m' (m&Hm&_)%Hold. by apply (g_processing X d G u m).
Qed.

Lemma insert_same_nodes d t n n' : dg_txs d !! t = Some n → same_nodes d (upd_txs (insert t n') d).
Proof.
  intros Hn. split; [|done]. intros u. simpl. rewrite lookup_insert. case_decide; [|done]. subst u. rewrite Hn. split; by eexists.
Qed.

(** ** Turning an edge *)

Definition turn_to c n : directedTx := set_edges (set_add c (dt_ins n)) (set_remove c (dt_outs n)) n.
Definition turn_from t n : directedTx := set_edges (set_remove t (dt_ins n)) (set_add t (dt_outs n)) n.

Lemma set_add_in u v (s : gset ID) : u ∈ set_add v s ↔ u = v ∨ u ∈ s.
Proof. unfold set_add. set_solver. Qed.
Lemma set_remove_in u v (s : gset ID) : u ∈ set_remove v s ↔ u ∈ s ∧ u ≠ v.
Proof. unfold set_remove. set_solver. Qed.

Section turn.
Context d d' t c n m.
Hypothesis G : ginv ∅ d.
Hypothesis Hn : dg_txs d !! t = Some n.
Hypothesis Hm : dg_txs d !! c = Some m.
Hypothesis Hc : c ∈ edges n.
Hypothesis Ht : dg_txs d' = <[t := turn_to c n]> (<[c := turn_from t m]> (dg_txs d)).
Hypothesis Hp : dg_preferences d' =
  if decide (size (dt_outs (turn_to c n)) = 0%nat) then set_add t (set_remove c (dg_preferences d))
  else set_remove c (dg_preferences d).

Lemma turn_irr u k v : dg_txs d !! u = Some k → v ∈ edges k → v ≠ u.
Proof. intros Hk Hv ->. by destruct (g_sound ∅ d G u k u Hk Hv). Qed.

Lemma turn_ne : c ≠ t.
Proof. by apply (turn_irr t n). Qed.

Lemma turn_lookup u k' : dg_txs d' !! u = Some k' ↔ u = t ∧ k' = turn_to c n ∨ u = c ∧ k' = turn_from t m ∨
  u ≠ t ∧ u ≠ c ∧ dg_txs d !! u = Some k'.
Proof. pose proof turn_ne. rewrite Ht, !lookup_insert. repeat case_decide; subst; naive_solver. Qed.

Lemma turn_edges : edges (turn_to c n) = edges n ∧ edges (turn_from t m) = edges m.
Proof.
  pose proof (g_sound ∅ d G t n c Hn Hc) as Hcon%conflict_sym.
  pose proof (g_complete ∅ d G c m t n Hm Hn Hcon) as Htm. clear -Hc Htm.
  unfold edges, turn_to, turn_from, set_add, set_remove in *. simpl. set_unfold.
  split; intros u; [destruct (decide (u = c))|destruct (decide (u = t))]; naive_solver.
Qed.

(** The node of a transaction before and after. *)
Definition turned k k' : Prop := edges k' = edges k ∧ rogue (dt_snowball k') = rogue (dt_snowball k).

Lemma turn_old u k' : dg_txs d' !! u = Some k' → ∃ k, dg_txs d !! u = Some k ∧ turned k k'.
Proof.
  destruct turn_edges as [E1 E2]. intros [[-> ->]|[[-> ->]|(_&_&?)]]%turn_lookup; [by exists n|by exists m|by exists k'].
Qed.

Lemma turn_new u k : dg_txs d !! u = Some k → ∃ k', dg_txs d' !! u = Some k' ∧ turned k k'.
Proof.
  destruct turn_edges as [E1 E2]. intros Hk. destruct (decide (u = t)) as [->|]; [|destruct (decide (u = c)) as [->|]].
  - rewrite Hn in Hk. injection Hk as <-. exists (turn_to c n). split; [by apply turn_lookup; left|done].
  - rewrite Hm in Hk. injection Hk as <-. exists (turn_from t m). split; [by apply turn_lookup; right; left|done].
  - exists k. split; [by apply turn_lookup; right; right|done].
Qed.

Lemma turn_other u k : u ≠ t → u ≠ c → dg_txs d !! u = Some k → dg_txs d' !! u = Some k.
Proof. intros. apply turn_lookup. auto. Qed.
Lemma turn_at_t : dg_txs d' !! t = Some (turn_to c n).
Proof. apply turn_lookup. auto. Qed.
Lemma turn_at_c : dg_txs d' !! c = Some (turn_from t m).
Proof. apply turn_lookup. auto. Qed.

Lemma turn_in u k' v :
  dg_txs d' !! u = Some k' → v ∈ dt_ins k' → ∃ l, dg_txs d' !! v = Some l ∧ u ∈ dt_outs l.
Proof.
  intros [[-> ->]|[[-> ->]|(?&?&Hk')]]%turn_lookup Hvi.
  - destruct (decide (v = c)) as [->|Hvc]; [exists (turn_from t m); split; [apply turn_at_c|by apply set_add_in; left]|].
    apply set_add_in in Hvi as [?|Hvi]; [done|].
    destruct (g_in ∅ d G t n v Hn Hvi) as [?|(k&Hk&?)]; [set_solver|]. exists k. split; [|done].
    apply turn_other; [|done..]. apply (turn_irr t n); [done|by apply elem_of_union_l].
  - apply set_remove_in in Hvi as [Hvi Hvt]. destruct (g_in ∅ d G c m v Hm Hvi) as [?|(k&Hk&?)]; [set_solver|].
    exists k. split; [|done]. apply turn_other; [done| |done]. apply (turn_irr c m); [done|by apply elem_of_union_l].
  - destruct (g_in ∅ d G u k' v Hk' Hvi) as [?|(k&Hk&Hu')]; [set_solver|].
    destruct (decide (v = t)) as [->|]; [|destruct (decide (v = c)) as [->|]]; [| |by exists k; split; [apply turn_other|]].
    + exists (turn_to c n). split; [apply turn_at_t|]. apply set_remove_in. split; [congruence|done].
    + exists (turn_from t m). split; [apply turn_at_c|]. apply set_add_in. right. congruence.
Qed.

Lemma turn_out u k' v :
  dg_txs d' !! u = Some k' → v ∈ dt_outs k' → ∃ l, dg_txs d' !! v = Some l ∧ u ∈ dt_ins l.
Proof.
  intros [[-> ->]|[[-> ->]|(?&?&Hk')]]%turn_lookup Hvo.
  - apply set_remove_in in Hvo as [Hvo Hvc]. destruct (g_out ∅ d G t n v Hn Hvo) as [?|(k&Hk&?)]; [set_solver|].
    exists k. split; [|done]. apply turn_other; [|done..]. apply (turn_irr t n); [done|by apply elem_of_union_r].
  - destruct (decide (v = t)) as [->|Hvt]; [exists (turn_to c n); split; [apply turn_at_t|by apply set_add_in; left]|].
    apply set_add_in in Hvo as [?|Hvo]; [done|].
    destruct (g_out ∅ d G c m v Hm Hvo) as [?|(k&Hk&?)]; [set_solver|]. exists k. split; [|done].
    apply turn_other; [done| |done]. apply (turn_irr c m); [done|by apply elem_of_union_r].
  - destruct (g_out ∅ d G u k' v Hk' Hvo) as [?|(k&Hk&Hu')]; [set_solver|].
    destruct (decide (v = t)) as [->|]; [|destruct (decide (v = c)) as [->|]]; [| |by exists k; split; [apply turn_other|]].
    + exists (turn_to c n). split; [apply turn_at_t|]. apply set_add_in. right. congruence.
    + exists (turn_from t m). split; [apply turn_at_c|]. apply set_remove_in. split; [congruence|done].
Qed.

Lemma turn_preferred u : u ∈ dg_preferences d' ↔ ∃ k, dg_txs d' !! u = Some k ∧ dt_outs k = ∅.
Proof.
  pose proof turn_ne. rewrite Hp. destruct (decide (u = c)) as [->|Huc]; [|destruct (decide (u = t)) as [->|Hut]].
  - split; [case_decide; unfold set_add, set_remove; set_solver|]. rewrite turn_at_c. intros (k&[= <-]&Ho). exfalso.
    unfold turn_from, set_add in Ho. simpl in Ho. set_solver.
  - rewrite turn_at_t. case_decide as Hs.
    + split; [intros _|intros; apply set_add_in; by left]. exists (turn_to c n). by rewrite size_empty_iff in Hs.
    + split; [|intros (k&[= <-]&Ho); by rewrite <-size_empty_iff in Ho].
      intros [(k&Hk&Ho)%(g_preferred ∅ d G) _]%set_remove_in. rewrite Hn in Hk. injection Hk as <-.
      destruct Hs. apply size_empty_iff. unfold turn_to, set_remove. simpl. set_solver.
  - assert (dg_txs d' !! u = dg_txs d !! u) as -> by (rewrite Ht, !lookup_insert_ne by congruence; done).
    rewrite <-(g_preferred ∅ d G u). unfold set_add, set_remove. case_decide; set_solver.
Qed.

Lemma ginv_turn :
  dg_utxos d' = dg_utxos d → dg_whitelists d' = dg_whitelists d → dg_virtuous d' = dg_virtuous d →
  dg_world d' = dg_world d → ginv ∅ d'.
Proof.
  intros Hu Hl Hv Hw. split.
  - intros u. set_solver.
  - intros u k v Hk Hvk. right. by apply (turn_in u k).
  - intros u k v Hk Hvk. right. by apply (turn_out u k).
  - intros u k' v (k&Hk&->&_)%turn_old. by apply (g_sound ∅ d G u k).
  - intros u k' v l' (k&Hk&->&_)%turn_old (l&Hl'&_)%turn_old. by apply (g_complete ∅ d G u k v l).
  - intros u k' i (k&Hk&_)%turn_old. rewrite Hu. by apply (g_utxos ∅ d G u k).
  - intros i s u. rewrite Hu. intros Hs Hus. destruct (g_spenders ∅ d G i s u Hs Hus) as [? [k (k'&Hk'&_)%turn_new]].
    split; [done|by eexists].
  - intros u k' (k&Hk&_)%turn_old. rewrite Hl. by apply (g_listed ∅ d G u k).
  - rewrite Hl. apply (g_lists ∅ d G).
  - apply turn_preferred.
  - intros u. rewrite Hv, (g_virtuous ∅ d G). split.
    + intros (k&(k'&Hk'&_&Hr)%turn_new&He). exists k'. split; [done|congruence].
    + intros (k'&(k&Hk&_&Hr)%turn_old&He). exists k. split; [done|congruence].
  - intros u k' (k&Hk&->&->)%turn_old. by apply (g_rogue ∅ d G u k).
  - intros u k' (k&Hk&_)%turn_old. rewrite Hw. by apply (g_processing ∅ d G u k).
Qed.
End turn.

(** ** Polls *)

Lemma redirectEdge_spec t c n d :
  ginv ∅ d → dg_txs d !! t = Some n → c ∈ edges n →
  ∃ b d', redirectEdge t c d = Some (Ok b, d') ∧ ginv ∅ d' ∧ same_nodes d d' ∧
    ∃ n', dg_txs d' !! t = Some n' ∧ edges n' = edges n.
Proof.
  intros G Hn Hc.
  assert (∃ m, dg_txs d !! c = Some m) as [m Hm].
  { apply elem_of_union in Hc as [Hi|Ho]; [destruct (g_in ∅ d G t n c Hn Hi) as [?|(m&?&_)]|
      destruct (g_out ∅ d G t n c Hn Ho) as [?|(m&?&_)]]; [set_solver|by exists m|set_solver|by exists m]. }
  unfold redirectEdge. rewrite Hn, Hm. case_decide as Hle; [exists false, d; split_and!; [done..|by exists n]|].
  fold (turn_from t m) (turn_to c n). eexists true, _. split; [reflexivity|].
  set (d' := if decide _ then _ else _).
  assert (dg_txs d' = <[t := turn_to c n]> (<[c := turn_from t m]> (dg_txs d))) as Ht by (unfold d'; by case_decide).
  split; [|split].
  - eapply (ginv_turn d d' t c n m); try done; unfold d'; by case_decide.
  - split; [|unfold d'; case_decide; by split]. intros u. rewrite Ht, !lookup_insert.
    repeat case_decide; subst; rewrite ?Hn, ?Hm; (done || (split; intros; by eexists)).
  - exists (turn_to c n). rewrite Ht, lookup_insert_eq. split; [done|]. by apply (turn_edges d t c n m).
Qed.

Lemma redirect_loop_spec t l b n d :
  ginv ∅ d → dg_txs d !! t = Some n → (∀ c, c ∈ l → c ∈ edges n) →
  ∃ b' d', redirect_loop t l b d = Some (Ok b', d') ∧ ginv ∅ d' ∧ same_nodes d d'.
Proof.
  revert b n d. induction l as [|c l IH]; intros b n d G Hn Hl; simpl; [by exists b, d|]. unfold sbind.
  destruct (redirectEdge_spec t c n d G Hn) as (b1&d1&->&G1&S1&n1&Hn1&E1); [apply Hl; by left|].
  destruct (IH (b1 || b) n1 d1 G1 Hn1) as (b'&d'&->&G'&S'); [intros c' Hc'; rewrite E1; apply Hl; by right|].
  exists b', d'. split_and!; [done..|by etrans].
Qed.

(** Turning the edges of a processing transaction never dereferences nil. *)
Lemma redirectEdges_spec t d :
  ginv ∅ d → is_Some (dg_txs d !! t) →
  ∃ b d', redirectEdges t d = Some (Ok b, d') ∧ ginv ∅ d' ∧ same_nodes d d'.
Proof.
  intros G [n Hn]. unfold redirectEdges. rewrite Hn. apply (redirect_loop_spec t _ false n); [done..|].
  intros c Hc%elem_of_range_set. by apply elem_of_union_r.
Qed.

Lemma redirectEdge_errs t c d r d' : redirectEdge t c d = Some (r, d') → dg_errs d' = dg_errs d.
Proof.
  unfold redirectEdge. destruct (dg_txs d !! t), (dg_txs d !! c); try done.
  repeat case_decide; by intros [= <- <-].
Qed.

Lemma redirectEdges_advances t : achieves advances (redirectEdges t).
Proof.
  intros d r d' Hr. split.
  - unfold redirectEdges in Hr. destruct (dg_txs d !! t); [|done]. revert Hr. generalize false as b.
    generalize (range_set (dt_outs d0)) as l. intros l b Hr He.
    assert (dg_errs d' = dg_errs d) as ->; [|done]. clear He. revert b d Hr.
    induction l as [|c l IH]; intros b d Hr; simpl in Hr; [by injection Hr as <- <-|].
    unfold sbind in Hr. destruct (redirectEdge t c d) as [[[b1|e] d1]|] eqn:E; [| |done]; apply redirectEdge_errs in E.
    + rewrite (IH _ _ Hr). done.
    + by injection Hr as <- <-.
  - intros _ _ S. assert (is_Some (dg_txs d !! t)) as Ht.
    { unfold redirectEdges in Hr. destruct (dg_txs d !! t); [by eexists|done]. }
    destruct (redirectEdges_spec t d (s_ginv d S) Ht) as (b&d1&E&G1&N1). rewrite Hr in E. injection E as -> ->.
    by apply advances_nodes.
Qed.

Lemma poll_tx_advances b t : achieves advances (poll_tx b t).
Proof.
  intros d r d'. unfold poll_tx. destruct (dg_txs d !! t) as [n|] eqn:En; [|intros [= <- <-]; split; [done|]; intros; reflexivity].
  set (ready := negb _ && _). set (d1 := upd_txs _ d).
  assert (advances d d1) as A1.
  { apply advances_nodes; [|by apply (insert_same_nodes d t n)].
    unfold d1. apply (ginv_node ∅ d t n); [done|..]; by destruct ready. }
  assert (achieves advances (if ready then registerAcceptor t else sret tt)) as Hreg.
  { destruct ready; [apply registerAcceptor_advances|apply (achieves_ret advances)]. }
  destruct ((if ready then registerAcceptor t else sret tt) d1) as [[[[]|e] d2]|] eqn:E2; [| |done].
  2:{ intros [= <- <-]. destruct (Hreg _ _ _ E2) as [He _]. split; [exact He|]. by intros [? [=]]. }
  destruct (Hreg _ _ _ E2) as [He2 Hq2]. change (dg_errs d1) with (dg_errs d) in He2.
  assert (dg_errs d2 = None → advances d d2) as A2 by (intros Hn2; etrans; [exact A1|apply Hq2; [by eexists|done]]).
  clearbody d1 ready. clear E2 A1 Hreg Hq2. destruct (ready && errored d2); [intros [= <- <-]; split; [done|by intros _]|].
  case_decide; [|intros [= <- <-]; split; [done|by intros _]].
  unfold sbind. destruct (redirectEdges t d2) as [[[b3|e] d3]|] eqn:E3; [| |done]; intros [= <- <-];
    destruct (redirectEdges_advances t _ _ _ E3) as [He3 Hq3]; (split; [by intros; apply He3, He2|]); [|by intros [? [=]]].
  intros _ Hn3. etrans; [|apply Hq3; [by eexists|done]]. apply A2. destruct (dg_errs d2); [by destruct He3|done].
Qed.

Lemma poll_loop_advances l b : achieves advances (poll_loop l b).
Proof.
  revert b. induction l as [|t l IH]; intros b; simpl; [apply (achieves_ret advances)|].
  apply achieves_bind; [tc_solve|apply poll_tx_advances|]. intros [b'|b']; [apply IH|apply (achieves_ret advances)].
Qed.

Lemma RecordPoll_advances votes : achieves advances (Directed_RecordPoll votes).
Proof.
  intros d r d' Hr. unfold Directed_RecordPoll in Hr. destruct (poll_loop_advances _ _ _ _ _ Hr) as [He Hq].
  split; [exact He|]. intros Hok Hn. etrans; [|by apply Hq]. by apply advances_same.
Qed.

Lemma Remove_advances t : achieves advances (Directed_Remove t).
Proof.
  intros d r d' Hr. destruct (reject_set_all ∅ _ _ _ _ Hr) as [He Hq]. split; [done|]. intros Hok Hn S.
  destruct (Hq Hok Hn (s_ginv d S)) as [[G' S'] L'].
  assert (∀ u, status d' u = Accepted → status d u = Accepted) as Hacc.
  { intros u Hu. destruct (sh_status _ _ S' u) as [<-|(?&_)]; congruence. }
  assert (progress d d') as P.
  { split; [|done]. intros u Hu. destruct (sh_status _ _ S' u) as [?|(_&[n Hn']&_)]; [done|].
    rewrite (g_processing ∅ d (s_ginv d S) u n Hn') in Hu. done. }
  split; [|done]. split; [done|..].
  - intros u v Hu%Hacc Hv%Hacc. by apply (s_disjoint d S).
  - intros u v Hu%Hacc [n' Hn']. destruct (sh_txs _ _ S' v n' Hn') as (m&Hm&_). apply (s_unspent d S); [done|by eexists].
  - intros u Hu%Hacc Hin dep Hdep. apply (progress_accepted d); [done|]. by apply (s_deps d S u).
  - intros k a' dep Ha' Hdep. destruct (sh_acceptors _ _ S' k a' Ha') as (a&Ha&Hd&Hi). rewrite <-Hi in Hdep.
    destruct (s_acceptors d S k a dep Ha Hdep) as [?|?]; [left; by rewrite <-Hd|right]. by apply (progress_accepted d).
Qed.
End polls.
