(* ===== verification/SnowstormAdd.v ===== *)
(** Adding a transaction to the conflict graph: its edges lead to exactly the
    processing transactions that it conflicts with. *)

From S2P Require Import Prelude Ids Bag Snowball Topological Snowstorm SnowstormInv SnowstormReject SnowstormAccept SnowstormPoll.

Section adding.
Context `{GoRange, TxContext, !TxLaws}.
Implicit Types (d : Directed) (u v c : ID) (n m : directedTx) (D : gset ID).

(** ** Edges from the new transaction *)

Definition new_node (outs : gset ID) : directedTx := mkDirectedTx (mkSnowball 0 0 0 false) false ∅ outs.

Definition marked t n : directedTx :=
  mkDirectedTx (mkSnowball (numSuccessfulPolls (dt_snowball n)) (confidence (dt_snowball n)) (lastVote (dt_snowball n)) true)
    (dt_pendingAccept n) (set_add t (dt_ins n)) (dt_outs n).

(** The nodes of [D] have been marked since [d]. *)
Record linked t D d d' : Prop := mkLinked {
  l_txs : ∀ u, dg_txs d' !! u = if decide (u ∈ D) then marked t <$> dg_txs d !! u else dg_txs d !! u;
  l_dom : ∀ u, u ∈ D → is_Some (dg_txs d !! u);
  l_virtuous : ∀ u, u ∈ dg_virtuous d' ↔ u ∈ dg_virtuous d ∧ u ∉ D;
  l_preferences : dg_preferences d' = dg_preferences d;
  l_rest : same_rest d d';
}.

Lemma marked_idem t n : marked t (marked t n) = marked t n.
Proof. unfold marked, set_add. simpl. f_equal. set_solver. Qed.

Lemma linked_nil t d : linked t ∅ d d.
Proof. split; [intros u; by rewrite decide_False by set_solver|set_solver|set_solver|done..]. Qed.

(** Changes to the other maps. *)
Lemma linked_frame t D d d1 d2 :
  linked t D d d1 → dg_txs d2 = dg_txs d1 → dg_virtuous d2 = dg_virtuous d1 → dg_preferences d2 = dg_preferences d1 →
  same_rest d1 d2 → linked t D d d2.
Proof.
  intros [T M V P R] Et Ev Ep Er. split; rewrite ?Et, ?Ev, ?Ep; try done. by etrans.
Qed.

Lemma addEdge_linked t D d0 d c r d' :
  linked t D d0 d → addEdge t (new_node D) c d = Some (r, d') →
  r = Ok (new_node ({[c]} ∪ D)) ∧ linked t ({[c]} ∪ D) d0 d' ∧ dg_utxos d' = dg_utxos d ∧ dg_whitelists d' = dg_whitelists d.
Proof.
  intros [T M V P R]. unfold addEdge. destruct (dg_txs d !! c) as [k|] eqn:Ek; [|done]. fold (marked t k).
  intros [= <- <-]. split; [done|]. split; [|done].
  assert (∃ k0, dg_txs d0 !! c = Some k0 ∧ marked t k = marked t k0) as (k0&Hk0&Hmk).
  { rewrite T in Ek. case_decide; [|by exists k]. apply fmap_Some in Ek as (k0&?&->). exists k0. by rewrite marked_idem. }
  split; simpl; try done.
  - intros u. rewrite lookup_insert. destruct (decide (c = u)) as [<-|Hne].
    + rewrite decide_True by set_solver. rewrite Hk0. simpl. by rewrite Hmk.
    + rewrite T. destruct (decide (u ∈ D)); [rewrite decide_True by set_solver|rewrite decide_False by set_solver]; done.
  - intros u [->%elem_of_singleton|?]%elem_of_union; [by eexists|by apply M].
  - intros u. rewrite set_remove_in, V. set_solver.
  - etrans; [exact R|done].
Qed.

Lemma addEdges_linked t l D d0 d r d' :
  linked t D d0 d → addEdges t (new_node D) l d = Some (r, d') →
  r = Ok (new_node (list_to_set l ∪ D)) ∧ linked t (list_to_set l ∪ D) d0 d' ∧
    dg_utxos d' = dg_utxos d ∧ dg_whitelists d' = dg_whitelists d.
Proof.
  revert D d. induction l as [|c l IH]; intros D d L; simpl.
  { intros [= <- <-]. by rewrite union_empty_l_L. }
  unfold sbind. destruct (addEdge t (new_node D) c d) as [[r1 d1]|] eqn:E; [|done].
  destruct (addEdge_linked t D d0 d c r1 d1 L E) as (->&L1&Hu1&Hw1). intros Hr.
  destruct (IH _ _ L1 Hr) as (->&L'&Hu'&Hw'). rewrite Hu', Hw', Hu1, Hw1.
  assert (list_to_set l ∪ ({[c]} ∪ D) = {[c]} ∪ list_to_set l ∪ D) as <- by set_solver. done.
Qed.

(** ** The three groups of conflicts *)

Definition named_by t : gmap ID (gset ID) → gset ID := λ wl, list_to_set (fst <$> filter (λ x, t ∉ x.2) (go_range wl)).

Lemma elem_of_named_by t wl u : u ∈ named_by t wl ↔ ∃ s, wl !! u = Some s ∧ t ∉ s.
Proof.
  unfold named_by. rewrite elem_of_list_to_set, list_elem_of_fmap. split.
  - intros ([v s]&->&[? ?%elem_of_go_range]%list_elem_of_filter). by exists s.
  - intros (s&Hs&?). exists (u, s). split; [done|]. apply list_elem_of_filter. split; [done|]. by apply elem_of_go_range.
Qed.

Lemma add_whitelisted_linked t d r d' :
  add_whitelisted t (new_node ∅) d = Some (r, d') →
  let D := named_by t (dg_whitelists d) in
  r = Ok (new_node D) ∧ linked t D d d' ∧ dg_utxos d' = dg_utxos d ∧ dg_whitelists d' = dg_whitelists d.
Proof.
  intros Hr. eapply addEdges_linked in Hr as Hr'; [|apply linked_nil]. by rewrite union_empty_r_L in Hr'.
Qed.

Lemma add_whitelist_linked t D d0 d r d' :
  linked t D d0 d → add_whitelist t (new_node D) d = Some (Ok r, d') →
  ∃ D', r = new_node D' ∧ linked t D' d0 d' ∧ dg_utxos d' = dg_utxos d ∧
    (∀ u, u ∈ D' ↔ u ∈ D ∨ is_Some (dg_txs d !! u) ∧ excludes t u) ∧
    (if tx_HasWhitelist t then ∃ s, tx_Whitelist t = Ok s ∧ dg_whitelists d' = <[t := s]> (dg_whitelists d)
     else dg_whitelists d' = dg_whitelists d).
Proof.
  intros L. unfold add_whitelist, excludes, whitelist_of. destruct (tx_HasWhitelist t) eqn:Ew.
  2:{ intros [= <- <-]. exists D. split_and!; [done..|naive_solver|done]. }
  unfold sbind at 1, slift. destruct (tx_Whitelist t) as [s|e] eqn:Es; [|done]. unfold sbind at 1.
  destruct (addEdges t (new_node D) _ d) as [[r1 d1]|] eqn:E1; [|done].
  destruct (addEdges_linked t _ D d0 d r1 d1 L E1) as (->&L1&Hu1&Hw1). intros [= <- <-].
  eexists. split; [reflexivity|]. split; [by eapply linked_frame|]. split; [done|]. split.
  - intros u. rewrite elem_of_union, elem_of_list_to_set, list_elem_of_filter, list_elem_of_fmap. split.
    + intros [[? ([v k]&->&Hk%elem_of_go_range)]|?]; [right|by left]. split; [by eexists|done].
    + intros [?|[[k Hk] [_ ?]]]; [by right|left]. split; [done|]. exists (u, k). split; [done|]. by apply elem_of_go_range.
  - exists s. split; [done|]. simpl. by rewrite Hw1.
Qed.

(** The spenders of an input. *)
Definition spenders (utxos : gmap ID (gset ID)) (i : ID) : gset ID := default ∅ (utxos !! i).

Lemma add_inputs_linked t l D d0 d r d' :
  dg_txs d0 !! t = None → linked t D d0 d → add_inputs t (new_node D) l d = Some (r, d') →
  ∃ D', r = Ok (new_node D') ∧ linked t D' d0 d' ∧ dg_whitelists d' = dg_whitelists d ∧
    (∀ u, u ∈ D' ↔ u ∈ D ∨ u ≠ t ∧ ∃ i, i ∈ l ∧ u ∈ spenders (dg_utxos d) i) ∧
    (∀ i u, u ∈ spenders (dg_utxos d') i ↔ u ∈ spenders (dg_utxos d) i ∨ u = t ∧ i ∈ l).
Proof.
  intros Ht. revert D d. induction l as [|i l IH]; intros D d L; simpl.
  { intros [= <- <-]. exists D. split_and!; [done..| |]; set_solver. }
  unfold sbind. destruct (addEdges t (new_node D) _ d) as [[r1 d1]|] eqn:E1; [|done].
  destruct (addEdges_linked t _ D d0 d r1 d1 L E1) as (->&L1&Hu1&Hw1). simpl. intros Hr.
  set (d2 := upd_utxos _ d1) in Hr.
  assert (linked t (list_to_set (range_set (default ∅ (dg_utxos d !! i))) ∪ D) d0 d2) as L2 by (by eapply linked_frame).
  destruct (IH _ d2 L2 Hr) as (D'&->&L'&Hw'&HD'&HU').
  assert (t ∉ spenders (dg_utxos d) i) as Hti.
  { intros Hti. destruct (l_dom _ _ _ _ L1 t) as [? ?]; [|congruence].
    apply elem_of_union_l, elem_of_list_to_set, elem_of_range_set. done. }
  assert (∀ j u, u ∈ spenders (dg_utxos d2) j ↔ u ∈ spenders (dg_utxos d) j ∨ u = t ∧ j = i) as H2.
  { intros j u. unfold spenders, d2. simpl. rewrite Hu1, lookup_insert. destruct (decide (i = j)) as [->|]; simpl.
    - rewrite set_add_in. naive_solver.
    - naive_solver. }
  exists D'. split; [done|]. split; [done|]. split; [by rewrite Hw', <-Hw1|]. split.
  - intros u. rewrite HD'. setoid_rewrite H2. setoid_rewrite elem_of_cons.
    rewrite elem_of_union, elem_of_list_to_set, elem_of_range_set. fold (spenders (dg_utxos d) i).
    destruct (decide (u = t)) as [->|]; naive_solver.
  - intros j u. rewrite HU', H2, elem_of_cons. naive_solver.
Qed.

Lemma elem_of_spenders utxos i u : u ∈ spenders utxos i ↔ ∃ s, utxos !! i = Some s ∧ u ∈ s.
Proof. unfold spenders. destruct (utxos !! i) as [s|]; simpl; [naive_solver|]. split; [set_solver|]. by intros (s&?&_). Qed.

(** ** The new node *)

Section added.
Context (t : ID) D d d3 d'.
Definition added_node : directedTx :=
  set_sb (λ sb, mkSnowball (numSuccessfulPolls sb) (confidence sb) (lastVote sb) (bool_decide (size D ≠ 0%nat))) (new_node D).
Hypothesis G : ginv ∅ d.
Hypothesis Hnone : dg_txs d !! t = None.
Hypothesis L : linked t D d d3.
Hypothesis HD : ∀ u, u ∈ D ↔ is_Some (dg_txs d !! u) ∧ conflict t u.
Hypothesis Ht : dg_txs d' = <[t := added_node]> (dg_txs d3).

(** A node before and after. *)
Definition relinked u k : directedTx := if decide (u ∈ D) then marked t k else k.

Lemma node_added_lookup u k' : dg_txs d' !! u = Some k' ↔
  u = t ∧ k' = added_node ∨ u ≠ t ∧ ∃ k, dg_txs d !! u = Some k ∧ k' = relinked u k.
Proof.
  rewrite Ht, lookup_insert, (l_txs _ _ _ _ L). unfold relinked. destruct (decide (t = u)) as [->|Hne]; [naive_solver|].
  case_decide; [rewrite fmap_Some|]; naive_solver.
Qed.

Lemma node_added_old u k : dg_txs d !! u = Some k → u ≠ t ∧ dg_txs d' !! u = Some (relinked u k).
Proof. intros Hk. assert (u ≠ t) by congruence. split; [done|]. apply node_added_lookup. right. eauto. Qed.

Lemma relinked_outs u k : dt_outs (relinked u k) = dt_outs k.
Proof. unfold relinked. by case_decide. Qed.
Lemma relinked_ins u k v : v ∈ dt_ins (relinked u k) ↔ v ∈ dt_ins k ∨ v = t ∧ u ∈ D.
Proof. unfold relinked. case_decide; simpl; rewrite ?set_add_in; naive_solver. Qed.
Lemma relinked_edges u k v : v ∈ edges (relinked u k) ↔ v ∈ edges k ∨ v = t ∧ u ∈ D.
Proof. unfold edges. rewrite !elem_of_union, relinked_ins, relinked_outs. naive_solver. Qed.
Lemma relinked_rogue u k : rogue (dt_snowball (relinked u k)) = false ↔ rogue (dt_snowball k) = false ∧ u ∉ D.
Proof. unfold relinked. case_decide; simpl; naive_solver. Qed.
Lemma added_at : dg_txs d' !! t = Some added_node.
Proof. apply node_added_lookup. by left. Qed.

Lemma added_in u k' v :
  dg_txs d' !! u = Some k' → v ∈ dt_ins k' → ∃ l, dg_txs d' !! v = Some l ∧ u ∈ dt_outs l.
Proof.
  intros [[-> ->]|(Hu&k&Hk&->)]%node_added_lookup; [simpl; set_solver|]. intros [Hv|[-> Hu']]%relinked_ins.
  - destruct (g_in ∅ d G u k v Hk Hv) as [?|(m&[_ Hm]%node_added_old&?)]; [set_solver|]. eexists. split; [done|]. by rewrite relinked_outs.
  - exists added_node. split; [apply added_at|done].
Qed.

Lemma added_out u k' v :
  dg_txs d' !! u = Some k' → v ∈ dt_outs k' → ∃ l, dg_txs d' !! v = Some l ∧ u ∈ dt_ins l.
Proof.
  intros [[-> ->]|(Hu&k&Hk&->)]%node_added_lookup.
  - simpl. intros Hv. destruct (l_dom _ _ _ _ L v Hv) as [m [_ Hm]%node_added_old]. eexists. split; [done|]. apply relinked_ins. by right.
  - rewrite relinked_outs. intros Hv.
    destruct (g_out ∅ d G u k v Hk Hv) as [?|(m&[_ Hm]%node_added_old&?)]; [set_solver|]. eexists. split; [done|].
    apply relinked_ins. by left.
Qed.

Lemma added_sound u k' v : dg_txs d' !! u = Some k' → v ∈ edges k' → conflict u v.
Proof.
  intros [[-> ->]|(Hu&k&Hk&->)]%node_added_lookup.
  - unfold edges. simpl. intros Hv. apply HD. set_solver.
  - intros [Hv|[-> Hv]]%relinked_edges; [by apply (g_sound ∅ d G u k)|]. apply conflict_sym. by apply HD.
Qed.

Lemma added_complete u k' v l' :
  dg_txs d' !! u = Some k' → dg_txs d' !! v = Some l' → conflict u v → v ∈ edges k'.
Proof.
  intros [[-> ->]|(Hu&k&Hk&->)]%node_added_lookup [[-> ->]|(Hv&l&Hl&->)]%node_added_lookup Hc.
  - by destruct Hc.
  - unfold edges. simpl. apply elem_of_union_r, HD. split; [by eexists|done].
  - apply relinked_edges. right. split; [done|]. apply HD. split; [by eexists|by apply conflict_sym].
  - apply relinked_edges. left. by apply (g_complete ∅ d G u k v l).
Qed.

Hypothesis HU : ∀ i u, u ∈ spenders (dg_utxos d') i ↔ u ∈ spenders (dg_utxos d) i ∨ u = t ∧ i ∈ tx_InputIDs t.
Hypothesis HW : if tx_HasWhitelist t then ∃ s, tx_Whitelist t = Ok s ∧ dg_whitelists d' = <[t := s]> (dg_whitelists d)
  else dg_whitelists d' = dg_whitelists d.

Lemma added_utxos u k' i :
  dg_txs d' !! u = Some k' → i ∈ tx_InputIDs u → ∃ s, dg_utxos d' !! i = Some s ∧ u ∈ s.
Proof.
  intros Hk' Hi. apply elem_of_spenders, HU. apply node_added_lookup in Hk' as [[-> ->]|(Hu&k&Hk&->)]; [by right|left].
  apply elem_of_spenders. destruct (g_utxos ∅ d G u k i Hk Hi) as [(a&?&_)|?]; [set_solver|done].
Qed.

Lemma added_spenders i s u : dg_utxos d' !! i = Some s → u ∈ s → i ∈ tx_InputIDs u ∧ is_Some (dg_txs d' !! u).
Proof.
  intros Hs Hu. assert (u ∈ spenders (dg_utxos d') i) as [Hold|[-> Hi]]%HU by (apply elem_of_spenders; eauto).
  - apply elem_of_spenders in Hold as (s0&Hs0&Hu0). destruct (g_spenders ∅ d G i s0 u Hs0 Hu0) as [? [k [_ Hk]%node_added_old]].
    split; [done|by eexists].
  - split; [done|]. rewrite added_at. by eexists.
Qed.

Lemma added_listed u k' : dg_txs d' !! u = Some k' → tx_HasWhitelist u = true → is_Some (dg_whitelists d' !! u).
Proof.
  intros [[-> ->]|(Hu&k&Hk&->)]%node_added_lookup Hw.
  - rewrite Hw in HW. destruct HW as (s&_&->). rewrite lookup_insert_eq. by eexists.
  - destruct (g_listed ∅ d G u k Hk Hw) as [s Hs]. exists s.
    destruct (tx_HasWhitelist t); [destruct HW as (s'&_&->); by rewrite lookup_insert_ne|by rewrite HW].
Qed.

Lemma added_lists u s : dg_whitelists d' !! u = Some s → tx_HasWhitelist u = true ∧ tx_Whitelist u = Ok s.
Proof.
  destruct (tx_HasWhitelist t) eqn:Ew; [|rewrite HW; apply (g_lists ∅ d G)].
  destruct HW as (s'&Hs'&->). rewrite lookup_insert. case_decide; [|apply (g_lists ∅ d G)]. intros [= <-]. by subst u.
Qed.

Lemma ginv_added :
  dg_preferences d' = (if bool_decide (size D ≠ 0%nat) then dg_preferences d3 else set_add t (dg_preferences d3)) →
  dg_virtuous d' = (if bool_decide (size D ≠ 0%nat) then dg_virtuous d3 else set_add t (dg_virtuous d3)) →
  dg_world d' = dg_world d3 → Status_Decided (status d t) = false → ginv ∅ d'.
Proof.
  intros Hp Hv Hw Hst.
  assert (∀ s u, u ∈ (if bool_decide (size D ≠ 0%nat) then s else set_add t s) ↔ u ∈ s ∨ u = t ∧ D = ∅) as Hif.
  { intros s u. rewrite <-size_empty_iff. case_bool_decide as Hs; [naive_solver|]. rewrite set_add_in. naive_solver lia. }
  assert (dg_world d' = dg_world d) as Hwd by (rewrite Hw; apply L).
  split.
  - intros u. set_solver.
  - intros u k v Hk Hvk. right. by apply (added_in u k).
  - intros u k v Hk Hvk. right. by apply (added_out u k).
  - apply added_sound.
  - apply added_complete.
  - intros u k i Hk Hi. right. by apply (added_utxos u k).
  - apply added_spenders.
  - apply added_listed.
  - apply added_lists.
  - intros u. rewrite Hp, Hif, (l_preferences _ _ _ _ L), (g_preferred ∅ d G). setoid_rewrite node_added_lookup. split.
    + intros [(k&Hk&Ho)|[-> HD0]]; [|exists added_node; split; [by left|done]].
      exists (relinked u k). rewrite relinked_outs. split; [|done]. right. split; [congruence|eauto].
    + intros (k'&[[-> ->]|(Hu&k&Hk&->)]&Ho); [by right|left]. rewrite relinked_outs in Ho. eauto.
  - intros u. rewrite Hv, Hif, (l_virtuous _ _ _ _ L), (g_virtuous ∅ d G). setoid_rewrite node_added_lookup. split.
    + intros [[(k&Hk&Hr) HuD]|[-> HD0]].
      * exists (relinked u k). rewrite relinked_rogue. split; [|done]. right. split; [congruence|eauto].
      * exists added_node. split; [by left|]. simpl. rewrite HD0. apply bool_decide_eq_false. rewrite size_empty. lia.
    + intros (k'&[[-> ->]|(Hu&k&Hk&->)]&Hr).
      * right. split; [done|]. simpl in Hr. apply bool_decide_eq_false, dec_stable in Hr. by apply size_empty_iff.
      * apply relinked_rogue in Hr as [? ?]. left. eauto.
  - intros u k' [[-> ->]|(Hu&k&Hk&->)]%node_added_lookup Hr.
    + simpl in Hr. apply bool_decide_eq_false, dec_stable in Hr. apply size_empty_iff in Hr. unfold edges. simpl. set_solver.
    + apply relinked_rogue in Hr as [Hr HuD]. pose proof (g_rogue ∅ d G u k Hk Hr). unfold relinked. by rewrite decide_False.
  - intros u k' [[-> ->]|(Hu&k&Hk&->)]%node_added_lookup; rewrite Hwd; [done|]. by apply (g_processing ∅ d G u k).
Qed.
End added.
End adding.
