(* ===== verification/SnowstormSafety.v ===== *)
(** What the conflict graph guarantees over all runs without an error: no input is
    consumed twice, the dependencies of a transaction with inputs come first,
    decisions are final, and the preferences are free of conflicts. *)

From S2P Require Import Prelude Ids Bag Snowball Topological Snowstorm SnowstormInv SnowstormReject SnowstormAccept SnowstormPoll SnowstormAdd.
From Stdlib Require Import Strings.Byte.

Section safety.
Context `{GoRange, TxContext, !TxLaws}.
Implicit Types (d : Directed) (t u v : ID) (D : gset ID).

(** A transaction is verified before it is issued: the virtual machine has seen that
    no accepted transaction consumes one of its inputs. *)
Definition verified d t : Prop := ∀ a, status d a = Accepted → ¬ share_input a t.

(** ** Adding a transaction *)

Lemma shouldVote_spec t d b d' :
  shouldVote t d = Some (Ok b, d') →
  b = false ∧ d' = d ∨
  Issued t d = false ∧ (b = true ∧ d' = d ∧ tx_InputIDs t ≠ [] ∨
    b = false ∧ tx_InputIDs t = [] ∧ ∃ w, d' = upd_world w d ∧
      ∀ u, tx_Status w u = if decide (u = t) then Accepted else status d u).
Proof.
  unfold shouldVote. destruct (Issued t d) eqn:Ei; [intros [= <- <-]; by left|].
  destruct (tx_InputIDs t) as [|i l] eqn:El; [|intros [= <- <-]; right; split; [done|]; by left].
  intros Hs. right. split; [done|]. right.
  destruct (vm_accept_spec t d) as (r&w&Hvm&Hw). revert Hs. unfold vm_accept, sbind in *.
  destruct ((if tx_HasBytes t then scall (tx_DecisionAccept t) else sret tt) d) as [[[[]|e] d1]|]; [|done..].
  rewrite Hvm. destruct r as [[]|e]; [|done]. intros [= <- <-]. split; [done|]. split; [done|]. exists w. auto.
Qed.

Lemma Issued_false t d : Issued t d = false → Status_Decided (status d t) = false ∧ dg_txs d !! t = None.
Proof.
  unfold Issued. intros [? Hd%bool_decide_eq_false]%orb_false_iff. split; [done|]. by apply eq_None_not_Some.
Qed.

Lemma accept_without_inputs t d w :
  Issued t d = false → tx_InputIDs t = [] →
  (∀ u, tx_Status w u = if decide (u = t) then Accepted else status d u) → advances d (upd_world w d).
Proof.
  intros [Hd Hn]%Issued_false Hi Hw S.
  assert (∀ u, status d u = Accepted → tx_Status w u = Accepted) as Hmono by (intros u Hu; rewrite Hw; by case_decide).
  assert (∀ u, tx_Status w u = Accepted → u = t ∨ status d u = Accepted) as Hacc by (intros u; rewrite Hw; case_decide; auto).
  assert (∀ u, ¬ share_input t u) as Hno by (intros u (i&Hi'&_); rewrite Hi in Hi'; by apply not_elem_of_nil in Hi').
  assert (∀ u, ¬ share_input u t) as Hno' by (intros u (i&_&Hi'); rewrite Hi in Hi'; by apply not_elem_of_nil in Hi').
  split; [split|split]; simpl.
  - apply (ginv_same ∅ d); [done| |apply S]. intros u [n Hu]. simpl. rewrite Hw, decide_False; [done|congruence].
  - intros u v [->|Hu]%Hacc [->|Hv]%Hacc Hne; auto. by apply (s_disjoint d S).
  - intros u v [->|Hu]%Hacc Hv; [auto|]. by apply (s_unspent d S).
  - intros u [->|Hu]%Hacc Hin dep Hdep; [done|]. by apply Hmono, (s_deps d S u).
  - intros k a dep Ha Hdep. destruct (s_acceptors d S k a dep Ha Hdep) as [?|?]; auto.
  - intros u Hu. rewrite Hw. case_decide; [congruence|done].
  - intros u Hu. by left.
Qed.

(** The edges of the new node. *)
Lemma Add_conflicts t d (D1 D2 D3 : gset ID) d2 :
  ginv ∅ d → dg_txs d !! t = None →
  D1 = named_by t (dg_whitelists d) → (∀ u, u ∈ D1 → is_Some (dg_txs d !! u)) →
  (∀ u, u ∈ D2 ↔ u ∈ D1 ∨ is_Some (dg_txs d !! u) ∧ excludes t u) → dg_utxos d2 = dg_utxos d →
  (∀ u, u ∈ D3 ↔ u ∈ D2 ∨ u ≠ t ∧ ∃ i, i ∈ tx_InputIDs t ∧ u ∈ spenders (dg_utxos d2) i) →
  ∀ u, u ∈ D3 ↔ is_Some (dg_txs d !! u) ∧ conflict t u.
Proof.
  intros G Hn -> HD1 HD2 Hu2 HD3 u. rewrite HD3, HD2, Hu2. split.
  - intros [[Hin|[[k Hk] He]]|(Hne&i&Hi&Hs)].
    + destruct (HD1 u Hin) as [k Hk]. apply elem_of_named_by in Hin as (s&Hs&Hts).
      destruct (g_lists ∅ d G u s Hs) as [Hl Hw]. split; [by eexists|]. split; [congruence|]. right. right.
      split; [done|]. unfold whitelist_of. by rewrite Hw.
    + split; [by eexists|]. split; [congruence|]. right. by left.
    + apply elem_of_spenders in Hs as (s&Hs&Hus). destruct (g_spenders ∅ d G i s u Hs Hus) as [Hiu Hk].
      split; [done|]. split; [done|]. left. by exists i.
  - intros [[k Hk] [Hne [(i&Hi&Hiu)|[He|[Hl Hw]]]]].
    + right. split; [done|]. exists i. split; [done|]. apply elem_of_spenders.
      destruct (g_utxos ∅ d G u k i Hk Hiu) as [(a&?&_)|?]; [set_solver|done].
    + left. right. split; [by eexists|done].
    + left. left. apply elem_of_named_by. destruct (g_listed ∅ d G u k Hk Hl) as [s Hs].
      exists s. split; [done|]. destruct (g_lists ∅ d G u s Hs) as [_ Hws]. unfold whitelist_of in Hw. by rewrite Hws in Hw.
Qed.

Lemma safe_added t d d' :
  safe d → verified d t → ginv ∅ d' → (∀ u, is_Some (dg_txs d' !! u) ↔ u = t ∨ is_Some (dg_txs d !! u)) →
  same_rest d d' → safe d' ∧ progress d d'.
Proof.
  intros S Hver G' Hdom [_ Hw Ha].
  split; [split|split]; unfold deps_accepted; rewrite ?Hw, ?Ha; try apply S; try done.
  - intros u v Hu [->|Hv]%Hdom; [by apply Hver|by apply (s_unspent d S)].
  - intros u Hu. left. apply Hdom. by right.
Qed.

(** The state after the edges are drawn. *)
Definition add_node t D d : Directed :=
  upd_txs (insert t (added_node D))
    (if bool_decide (size D ≠ 0%nat) then d else upd_sets (set_add t) (set_add t) (set_add t) d).

Lemma add_node_fields t D d :
  dg_txs (add_node t D d) = <[t := added_node D]> (dg_txs d) ∧
  dg_preferences (add_node t D d) =
    (if bool_decide (size D ≠ 0%nat) then dg_preferences d else set_add t (dg_preferences d)) ∧
  dg_virtuous (add_node t D d) = (if bool_decide (size D ≠ 0%nat) then dg_virtuous d else set_add t (dg_virtuous d)) ∧
  dg_utxos (add_node t D d) = dg_utxos d ∧ dg_whitelists (add_node t D d) = dg_whitelists d ∧ same_rest d (add_node t D d).
Proof. unfold add_node. by case_bool_decide. Qed.

(** An [Add] that votes: the edges and the node. *)
Lemma Directed_Add_node t d d' :
  ginv ∅ d → Issued t d = false → tx_InputIDs t ≠ [] → Directed_Add t d = Some (Ok tt, d') →
  ∃ D d3 b l, linked t D d d3 ∧ (∀ u, u ∈ D ↔ is_Some (dg_txs d !! u) ∧ conflict t u) ∧
    (∀ i u, u ∈ spenders (dg_utxos d3) i ↔ u ∈ spenders (dg_utxos d) i ∨ u = t ∧ i ∈ tx_InputIDs t) ∧
    (if tx_HasWhitelist t then ∃ s, tx_Whitelist t = Ok s ∧ dg_whitelists d3 = <[t := s]> (dg_whitelists d)
     else dg_whitelists d3 = dg_whitelists d) ∧
    d' = upd_rejecting b l (add_node t D d3).
Proof.
  intros G Hi Hin. unfold Directed_Add, sbind at 1, shouldVote. rewrite Hi. destruct (tx_InputIDs t) as [|i0 rest] eqn:Eis; [done|].
  rewrite <-Eis. clear Eis Hin i0 rest. destruct (Issued_false t d Hi) as [Hst Hnone].
  change (mkDirectedTx _ _ _ _) with (new_node ∅).
  unfold sbind at 1. destruct (add_whitelisted t (new_node ∅) d) as [[r1 d1]|] eqn:E1; [|done].
  apply add_whitelisted_linked in E1 as (->&L1&Hu1&Hw1).
  unfold sbind at 1. destruct (add_whitelist t _ d1) as [[[n2|e] d2]|] eqn:E2; [|done..].
  destruct (add_whitelist_linked t _ d d1 n2 d2 L1 E2) as (D2&->&L2&Hu2&HD2&HW2).
  unfold sbind at 1. destruct (add_inputs t _ _ d2) as [[r3 d3]|] eqn:E3; [|done].
  destruct (add_inputs_linked t _ _ d d2 r3 d3 Hnone L2 E3) as (D3&->&L3&Hw3&HD3&HU3). clear E2 E3.
  unfold sbind, smod, registerRejector, sbind, slift. destruct (tx_Dependencies t); [|done]. intros [= <-].
  eexists D3, d3, _, _. split; [done|]. split_and!; [| | |reflexivity].
  - eapply (Add_conflicts t d _ D2 D3 d2); [done|done|reflexivity|apply (l_dom _ _ _ _ L1)| |congruence|done].
    intros u. rewrite HD2, (l_txs _ _ _ _ L1). case_decide; [rewrite fmap_is_Some|]; done.
  - intros i u. by rewrite HU3, Hu2, Hu1.
  - rewrite Hw3. by rewrite Hw1 in HW2.
Qed.

Lemma Add_voting_advances t d d' :
  Issued t d = false → tx_InputIDs t ≠ [] → Directed_Add t d = Some (Ok tt, d') → verified d t → advances d d'.
Proof.
  intros Hi Hin Hr Hver S. pose proof (s_ginv d S) as G.
  destruct (Directed_Add_node t d d' G Hi Hin Hr) as (D&d3&b&l&L&HD&HU&HW&->).
  destruct (Issued_false t d Hi) as [Hst Hnone]. destruct (add_node_fields t D d3) as (Ft&Fp&Fv&Fu&Fw&Fr).
  assert (safe (add_node t D d3) ∧ progress d (add_node t D d3)) as [S4 P4].
  { apply (safe_added t d _ S Hver).
    - apply (ginv_added t D d d3); rewrite ?Fu, ?Fw; try done. by destruct Fr.
    - intros u. rewrite Ft, lookup_insert, (l_txs _ _ _ _ L). destruct (decide (t = u)) as [->|Hne].
      + split; [by left|by eexists].
      + destruct (decide (u ∈ D)); rewrite ?fmap_is_Some; (split; [intros; by right|by intros [->|?]]).
    - etrans; [apply L|done]. }
  destruct (advances_same (add_node t D d3) (upd_rejecting b l (add_node t D d3))) as [S' P']; [done..|].
  split; [done|by etrans].
Qed.

Lemma Add_advances t d d' : Directed_Add t d = Some (Ok tt, d') → verified d t → advances d d'.
Proof.
  intros Hr. pose proof Hr as Hr'. unfold Directed_Add, sbind at 1 in Hr'.
  destruct (shouldVote t d) as [[[b|e] d1]|] eqn:Ev; [|done..].
  apply shouldVote_spec in Ev as [[-> ->]|[Hi [(->&->&Hin)|(->&Hin&w&->&Hw)]]].
  - by injection Hr' as <-.
  - by apply Add_voting_advances.
  - injection Hr' as <-. intros _. by apply (accept_without_inputs t).
Qed.

(** ** Runs *)

(** The calls that return without an error, one after the other. *)
Inductive reaches d : Directed → Prop :=
  | reach_refl : reaches d d
  | reach_add t d1 d2 : reaches d d1 → verified d1 t → Directed_Add t d1 = Some (Ok tt, d2) →
      dg_errs d2 = None → reaches d d2
  | reach_poll votes b d1 d2 : reaches d d1 → Directed_RecordPoll votes d1 = Some (Ok b, d2) →
      dg_errs d2 = None → reaches d d2
  | reach_remove t d1 d2 : reaches d d1 → Directed_Remove t d1 = Some (Ok tt, d2) →
      dg_errs d2 = None → reaches d d2.

Lemma reaches_trans d1 d2 d3 : reaches d1 d2 → reaches d2 d3 → reaches d1 d3.
Proof. intros H12 H23. induction H23; eauto using reach_add, reach_poll, reach_remove. Qed.

Lemma reaches_advances d d' : reaches d d' → advances d d'.
Proof.
  induction 1 as [|t d1 d2 _ IH Hv Hr He|votes b d1 d2 _ IH Hr He|t d1 d2 _ IH Hr He]; [reflexivity|..];
    (etrans; [exact IH|]).
  - by apply (Add_advances t).
  - apply (RecordPoll_advances votes d1 (Ok b) d2); [done|by eexists|done].
  - apply (Remove_advances t d1 (Ok tt) d2); [done|by eexists|done].
Qed.

(** What the transactions accepted before the run satisfy. *)
Record world_ok (w : tx_world) : Prop := mkWorldOk {
  w_disjoint : ∀ t u, tx_Status w t = Accepted → tx_Status w u = Accepted → t ≠ u → ¬ share_input t u;
  w_deps : ∀ t dep, tx_Status w t = Accepted → tx_InputIDs t ≠ [] → dep ∈ deps_of t → tx_Status w dep = Accepted;
}.

Lemma safe_Initialize params w : world_ok w → safe (Directed_Initialize params w).
Proof.
  intros [Hd Hdep]. split; simpl; try done.
  - split; simpl; try (intros *; rewrite ?lookup_empty; done); try set_solver.
  - intros t u _ [? ?]. done.
  - intros t Ht Hin dep. by apply Hdep.
Qed.

Lemma reaches_safe params w d : world_ok w → reaches (Directed_Initialize params w) d → safe d.
Proof. intros Hw Hr. by apply (reaches_advances _ _ Hr), safe_Initialize. Qed.

(** A transaction without inputs is accepted when it is added, whether its
    dependencies are or not: they are not looked at. *)
Lemma Add_ignores_dependencies t d d' :
  Issued t d = false → tx_InputIDs t = [] → Directed_Add t d = Some (Ok tt, d') →
  status d' t = Accepted ∧ ∀ u, u ≠ t → status d' u = status d u.
Proof.
  intros Hi Hin. unfold Directed_Add, shouldVote, sbind. rewrite Hi, Hin.
  destruct (vm_accept_spec t d) as (r&w&Hvm&Hw). revert Hvm. unfold vm_accept, sbind.
  destruct ((if tx_HasBytes t then scall (tx_DecisionAccept t) else sret tt) d) as [[[[]|e] d1]|]; [|done..].
  intros ->. destruct r as [[]|e]; [|done]. specialize (Hw eq_refl). intros [= <-]. cbn.
  split; [by rewrite Hw, decide_True|]. intros u Hu. by rewrite Hw, decide_False.
Qed.

(** C8: Over every run without an error from a sound ledger, however the node
    interleaves new transactions, polls and removals: two accepted transactions
    never consume the same input; a transaction with inputs is accepted only when
    all its dependencies are (one without inputs is accepted at once, see
    [Add_ignores_dependencies]); no processing transaction consumes an input of an
    accepted one; a decision is never changed, and a transaction that is no longer
    processing has been decided. *)
Theorem snowstorm_no_double_spend params w d d' :
  world_ok w → reaches (Directed_Initialize params w) d → reaches d d' →
  (∀ t u, status d t = Accepted → status d u = Accepted → t ≠ u → ¬ share_input t u) ∧
  (∀ t, status d t = Accepted → tx_InputIDs t ≠ [] → deps_accepted d t) ∧
  (∀ t u, status d t = Accepted → is_Some (dg_txs d !! u) → ¬ share_input t u) ∧
  (∀ t, Status_Decided (status d t) = true → status d' t = status d t) ∧
  (∀ t, is_Some (dg_txs d !! t) → is_Some (dg_txs d' !! t) ∨ Status_Decided (status d' t) = true).
Proof.
  intros Hw Hr Hr'. pose proof (reaches_safe _ _ _ Hw Hr) as S. destruct (reaches_advances _ _ Hr' S) as [_ [Pf Pl]].
  split_and!; [apply (s_disjoint d S)|apply (s_deps d S)|apply (s_unspent d S)|done..].
Qed.

(** C9: In every state of such a run the edges of a processing transaction lead to
    exactly the processing transactions that it conflicts with, which is what
    [Conflicts] answers; the preferences are free of conflicts, and every processing
    transaction that is not preferred has an edge to a conflicting one, which has it
    among its incoming edges (and need not be preferred itself);
    a virtuous transaction is preferred, has no conflict, and [IsVirtuous] answers
    so. *)
Theorem snowstorm_preferences params w d :
  world_ok w → reaches (Directed_Initialize params w) d →
  (∀ t, is_Some (dg_txs d !! t) → ∀ u, u ∈ Conflicts t d ↔ is_Some (dg_txs d !! u) ∧ conflict t u) ∧
  (∀ t u, t ∈ Preferences d → u ∈ Preferences d → ¬ conflict t u) ∧
  (∀ t n, dg_txs d !! t = Some n → t ∉ Preferences d →
     ∃ u m, u ∈ dt_outs n ∧ dg_txs d !! u = Some m ∧ t ∈ dt_ins m ∧ conflict t u) ∧
  (∀ t, t ∈ Virtuous d → t ∈ Preferences d ∧ IsVirtuous t d = true ∧ ∀ u, is_Some (dg_txs d !! u) → ¬ conflict t u).
Proof.
  intros Hw Hr. pose proof (s_ginv _ (reaches_safe _ _ _ Hw Hr)) as G. split_and!.
  - intros t [n Hn] u. unfold Conflicts. rewrite Hn. change (dt_ins n ∪ dt_outs n) with (edges n). split.
    + intros Hu. split; [|by apply (g_sound ∅ d G t n)].
      apply elem_of_union in Hu as [Hu|Hu]; [destruct (g_in ∅ d G t n u Hn Hu) as [?|(m&?&_)]|
        destruct (g_out ∅ d G t n u Hn Hu) as [?|(m&?&_)]]; [set_solver|by eexists|set_solver|by eexists].
    + intros [[m Hm] Hc]. by apply (g_complete ∅ d G t n u m).
  - intros t u (n&Hn&Ho)%(g_preferred ∅ d G) (m&Hm&Ho')%(g_preferred ∅ d G) Hc.
    pose proof (g_complete ∅ d G t n u m Hn Hm Hc) as [Hu|Hu]%elem_of_union; [|set_solver].
    destruct (g_in ∅ d G t n u Hn Hu) as [?|(m'&Hm'&?)]; [set_solver|]. rewrite Hm in Hm'. injection Hm' as <-. set_solver.
  - intros t n Hn Hp. destruct (set_choose_or_empty (dt_outs n)) as [[u Hu]|He].
    + destruct (g_out ∅ d G t n u Hn Hu) as [?|(m&Hm&Ht)]; [set_solver|]. exists u, m. split_and!; [done..|].
      apply (g_sound ∅ d G t n); [done|by apply elem_of_union_r].
    + destruct Hp. apply (g_preferred ∅ d G). exists n. split; [done|]. by apply leibniz_equiv.
  - intros t (n&Hn&Hrg)%(g_virtuous ∅ d G). pose proof (g_rogue ∅ d G t n Hn Hrg) as He. split_and!.
    + apply (g_preferred ∅ d G). exists n. split; [done|]. unfold edges in He. set_solver.
    + unfold IsVirtuous. by rewrite Hn, Hrg.
    + intros u [m Hm] Hc. pose proof (g_complete ∅ d G t n u m Hn Hm Hc). set_solver.
Qed.

(** C10: [reject] calls itself through the rejectors and [accept] through the
    acceptors; one more than the number of processing transactions bounds the depth
    of these calls: with that fuel or more the result does not depend on it. *)
Theorem snowstorm_calls_terminate d l t f :
  (size (dg_txs d) < f)%nat →
  reject f l d = reject (S (size (dg_txs d))) l d ∧ accept f t d = accept (S (size (dg_txs d))) t d.
Proof. intros Hf. split; [apply reject_fuel_irrelevant|apply accept_fuel_irrelevant]; lia. Qed.
End safety.

(** ** Concrete transactions *)

Module Example.

(** Iteration in the opposite order. *)
Definition go_range_rev : GoRange :=
  {| go_range := λ K V _ _ m, reverse (map_to_list m);
     go_range_perm := λ K V _ _ m, reverse_Permutation _ |}.

Definition tx (n : byte) : ID := id1 n.
Definition input (n : byte) : ID := id1 n.

(** [A] consumes two inputs, [B] one of them and [C] the other; [C] consumes an
    output of [B] as well, so it depends on it. *)
Definition A : ID := tx x0a.
Definition B : ID := tx x0b.
Definition C : ID := tx x0c.

(** [W] consumes an input of [A] and has an empty whitelist; [E] is unrelated. *)
Definition W : ID := tx x0d.
Definition E : ID := tx x0e.

Definition example_inputs (t : ID) : list ID :=
  if decide (t = A) then [input x01; input x02]
  else if decide (t = B) then [input x01]
  else if decide (t = C) then [input x03; input x02]
  else if decide (t = W) then [input x01]
  else if decide (t = E) then [input x04]
  else [].

Definition example_deps (t : ID) : list ID := if decide (t = C) then [B] else [].

#[global] Instance example_tx : TxContext := {|
  tx_world := gmap ID Status;
  tx_error := unit;
  tx_Status w t := default Processing (w !! t);
  tx_Accept t w := Ok (<[t := Accepted]> w);
  tx_Reject t w := Ok (<[t := Rejected]> w);
  tx_DecisionAccept t w := Ok w;
  tx_InputIDs := example_inputs;
  tx_Dependencies t := Ok (example_deps t);
  tx_HasWhitelist t := bool_decide (t = W);
  tx_Whitelist t := Ok ∅;
  tx_HasBytes t := true;
|}.

#[global] Instance example_laws : TxLaws.
Proof.
  split; simpl.
  - intros t w w' [= <-] u. rewrite lookup_insert. destruct (decide (t = u)) as [->|]; [by rewrite decide_True|].
    by rewrite decide_False by congruence.
  - intros t w w' [= <-] u. rewrite lookup_insert. destruct (decide (t = u)) as [->|]; [by rewrite decide_True|].
    by rewrite decide_False by congruence.
  - by intros t w w' [= <-].
Qed.

Lemma example_world_ok : world_ok ∅.
Proof. by split. Qed.

(** Alpha 1, beta for virtuous transactions 1 and for others 2. *)
Definition example_params : Parameters := mkParameters 1 1 1 2 1 1 1 1 1 1.

Definition vote (t : ID) : Bag := Bag_Add [t] Bag_zero.

(** The state that a call leaves. *)
Definition after {X} (m : storm X) (d : Directed) : Directed := match m d with Some (_, d') => d' | None => d end.
Definition returns {X} (m : storm X) (d : Directed) : bool :=
  match m d with Some (Ok _, d') => negb (errored d') | _ => false end.

Definition panics {X} (m : storm X) (d : Directed) : bool := match m d with None => true | _ => false end.

Lemma panics_None {X} (m : storm X) d : panics m d = true → m d = None.
Proof. unfold panics. by destruct (m d). Qed.

Lemma after_ok (m : storm unit) d : returns m d = true → m d = Some (Ok tt, after m d) ∧ dg_errs (after m d) = None.
Proof.
  unfold returns, after, errored. destruct (m d) as [[[[]|e] d']|]; [|done..]. by destruct (dg_errs d').
Qed.

Lemma after_value {X} (m : storm X) d :
  returns m d = true → ∃ x, m d = Some (Ok x, after m d) ∧ dg_errs (after m d) = None.
Proof.
  unfold returns, after, errored. destruct (m d) as [[[x|e] d']|]; [|done..]. exists x. by destruct (dg_errs d').
Qed.

Section std.
#[local] Existing Instance go_range_std.

Definition start : Directed := Directed_Initialize example_params ∅.
Definition with_A : Directed := after (Directed_Add A) start.
Definition with_B : Directed := after (Directed_Add B) with_A.
Definition polled : Directed := after (Directed_RecordPoll (vote A)) with_B.
Definition decided : Directed := after (Directed_RecordPoll (vote A)) polled.

(** Nothing is accepted yet, so every transaction is verified. *)
Lemma verified_all (d : Directed) t : dg_world d = ∅ → verified d t.
Proof.
  intros Hw a Ha. simpl in Ha. rewrite Hw in Ha. change (default Processing ((∅ : gmap ID Status) !! a) = Accepted) in Ha.
  by rewrite lookup_empty in Ha.
Qed.

Lemma example_with_B : reaches start with_B.
Proof.
  assert (returns (Directed_Add A) start && returns (Directed_Add B) with_A = true) as [HA HB]%andb_true_iff
    by (vm_compute; reflexivity).
  destruct (after_ok _ _ HA) as [EA NA], (after_ok _ _ HB) as [EB NB].
  assert (dg_world start = ∅) as WA by reflexivity. assert (dg_world with_A = ∅) as WB by (vm_compute; reflexivity).
  exact (reach_add _ B _ _ (reach_add _ A _ _ (reach_refl _) (verified_all _ _ WA) EA NA) (verified_all _ _ WB) EB NB).
Qed.

Lemma example_decided : reaches with_B decided.
Proof.
  assert (returns (Directed_RecordPoll (vote A)) with_B && returns (Directed_RecordPoll (vote A)) polled = true)
    as [HA HB]%andb_true_iff by (vm_compute; reflexivity).
  destruct (after_value _ _ HA) as (b1&EA&NA), (after_value _ _ HB) as (b2&EB&NB).
  exact (reach_poll _ _ _ _ _ (reach_poll _ _ _ _ _ (reach_refl _) EA NA) EB NB).
Qed.

Lemma decided_statuses : status decided A = Accepted ∧ status decided B = Rejected ∧ Status_Decided (status with_B B) = false.
Proof. vm_compute. done. Qed.

(** After two polls for [A], [A] is accepted, nothing else that is accepted consumes
    one of its inputs, and [B] has been decided. *)
Lemma snowstorm_no_double_spend_witness :
  status decided A = Accepted ∧ (∀ u, status decided u = Accepted → A ≠ u → ¬ share_input A u) ∧
  (is_Some (dg_txs decided !! B) ∨ Status_Decided (status decided B) = true).
Proof.
  pose proof decided_statuses as (HA&_&_).
  destruct (snowstorm_no_double_spend example_params ∅ decided decided example_world_ok
    (reaches_trans _ _ _ example_with_B example_decided) (reach_refl _)) as (Hd&_).
  destruct (snowstorm_no_double_spend example_params ∅ with_B decided example_world_ok example_with_B example_decided)
    as (_&_&_&_&Hl).
  split; [exact HA|]. split; [intros u Hu Hne; exact (Hd A u HA Hu Hne)|].
  assert (bool_decide (is_Some (dg_txs with_B !! B)) = true) as HB by (vm_compute; reflexivity).
  exact (Hl B (bool_decide_eq_true_1 _ HB)).
Defined.

(** [A] and [B] conflict: [Conflicts] finds [A], and they are not both preferred. *)
Lemma snowstorm_preferences_witness :
  A ∈ Conflicts B with_B ∧ A ∈ Preferences with_B ∧ B ∉ Preferences with_B.
Proof.
  assert (conflict B A) as Hc.
  { split; [by apply (bool_decide_eq_true_1 (B ≠ A)); vm_compute|]. left. exists (input x01). split; left. }
  destruct (snowstorm_preferences example_params ∅ with_B example_world_ok example_with_B) as (H1&H2&_).
  assert (bool_decide (is_Some (dg_txs with_B !! A) ∧ is_Some (dg_txs with_B !! B) ∧ A ∈ Preferences with_B) = true) as Hall
    by (vm_compute; reflexivity).
  apply bool_decide_eq_true_1 in Hall as (HA&HB&HP).
  split; [apply (H1 B HB); split; [exact HA|exact Hc]|]. split; [exact HP|].
  intros HPB. exact (H2 B A HPB HP Hc).
Defined.

Lemma snowstorm_calls_terminate_witness :
  reject 9 [A; B] with_B = reject 3 [A; B] with_B ∧ accept 9 A with_B = accept 3 A with_B.
Proof.
  assert (size (dg_txs with_B) = 2%nat) as Hs by (vm_compute; reflexivity).
  pose proof (snowstorm_calls_terminate with_B [A; B] A 9) as Ht. rewrite Hs in Ht. apply Ht. lia.
Defined.
End std.

(** *** A rejection that cascades *)

(** [A], [B] and [C] are added and [A] has one successful poll. *)
Definition cascade_setup `{GoRange} : storm unit :=
  sbind (Directed_Add A) (λ _, sbind (Directed_Add B) (λ _, sbind (Directed_Add C) (λ _,
  sbind (Directed_RecordPoll (vote A)) (λ _, sret tt)))).

(** The second successful poll of [A] accepts it and so rejects [B] and [C].  When
    [B] is rejected first, the rejector of [C], which depends on [B], rejects [C],
    and the loop over the conflicts of [A] then comes to [C], which is no longer
    there; when [C] is rejected first, its rejector still waits for [B] and rejects
    [C] again.  In either order a nil node is dereferenced. *)
Theorem accept_cascade_panics (G : GoRange) :
  G = go_range_std ∨ G = go_range_rev →
  let d := Directed_Initialize example_params ∅ in
  returns cascade_setup d = true ∧ Directed_RecordPoll (vote A) (after cascade_setup d) = None.
Proof.
  intros HG d.
  assert (returns cascade_setup d && panics (Directed_RecordPoll (vote A)) (after cascade_setup d) = true)
    as [? ?%panics_None]%andb_true_iff by (destruct HG as [-> | ->]; vm_compute; reflexivity).
  done.
Qed.

(** *** A whitelist that outlives its transaction *)

(** [A] and [W] are added and [A] is accepted, which rejects [W]. *)
Definition stale_setup `{GoRange} : storm unit :=
  sbind (Directed_Add A) (λ _, sbind (Directed_Add W) (λ _,
  sbind (Directed_RecordPoll (vote A)) (λ _, sbind (Directed_RecordPoll (vote A)) (λ _, sret tt)))).

(** [reject] forgets the whitelist of a transaction only when one of its inputs is
    still tracked; the inputs of [W] went with [A].  The whitelist stays, and the
    next transaction that it does not name makes [Add] dereference a nil node. *)
Theorem rejected_whitelist_panics (G : GoRange) :
  G = go_range_std ∨ G = go_range_rev →
  let d := Directed_Initialize example_params ∅ in
  returns stale_setup d = true ∧ status (after stale_setup d) W = Rejected ∧
  Directed_Add E (after stale_setup d) = None.
Proof.
  intros HG d.
  assert (returns stale_setup d && bool_decide (status (after stale_setup d) W = Rejected) &&
    panics (Directed_Add E) (after stale_setup d) = true)
    as [[? ?%bool_decide_eq_true_1]%andb_true_iff ?%panics_None]%andb_true_iff
    by (destruct HG as [-> | ->]; vm_compute; reflexivity).
  done.
Qed.
End Example.
