(* ===== verification/GoHeap.v ===== *)
(** The binary heaps of Go's container/heap, over any type with a [Less] method.

    A heap is a slice; the functions sift an element towards the leaves or towards
    the root.  [Less] may dereference nil: it is a partial function, and so are the
    functions of the heap.  When it is an order on the elements at hand, every
    function returns a heap of the same elements with a least one at the root. *)

From S2P Require Import Prelude.

(** ** The functions *)

Section heap.
Context {A : Type} (less : A → A → option bool).
Implicit Types l : list A.

Definition heap_Less l (i j : nat) : option bool := x ← l !! i; y ← l !! j; less x y.
Definition heap_Swap l (i j : nat) : option (list A) := x ← l !! i; y ← l !! j; Some (<[j := x]> (<[i := y]> l)).

(** The element at [i] sinks; the result has the place where it stays. *)
Fixpoint heap_down_from (fuel : nat) l (i n : nat) : option (nat * list A) :=
  match fuel with
  | O => None
  | S fuel =>
      let j1 := (2 * i + 1)%nat in
      if decide (n ≤ j1)%nat then Some (i, l)
      else
        j ← (let j2 := (j1 + 1)%nat in
             if decide (j2 < n)%nat then b ← heap_Less l j2 j1; Some (if b : bool then j2 else j1) else Some j1);
        b ← heap_Less l j i;
        if b : bool then l' ← heap_Swap l i j; heap_down_from fuel l' j n else Some (i, l)
  end.

(** Every turn at least doubles the index. *)
Definition heap_down l (i0 n : nat) : option (bool * list A) :=
  '(i, l') ← heap_down_from (S n) l i0 n; Some (bool_decide (i0 < i)%nat, l').

Fixpoint heap_up_from (fuel : nat) l (j : nat) : option (list A) :=
  match fuel with
  | O => None
  | S fuel =>
      let i := ((j - 1) / 2)%nat in
      if decide (i = j) then Some l
      else b ← heap_Less l j i;
        if b : bool then l' ← heap_Swap l i j; heap_up_from fuel l' i else Some l
  end.

Definition heap_up l (j : nat) : option (list A) := heap_up_from (S j) l j.

Fixpoint heap_init_from (k : nat) l (n : nat) : option (list A) :=
  match k with
  | O => Some l
  | S i => '(_, l') ← heap_down l i n; heap_init_from i l' n
  end.

Definition heap_Init l : option (list A) := heap_init_from (length l / 2) l (length l).

Definition heap_Push l (x : A) : option (list A) := heap_up (l ++ [x]) (length l).

Definition heap_Pop l : option (A * list A) :=
  let n := (length l - 1)%nat in
  l' ← heap_Swap l 0 n;
  '(_, l') ← heap_down l' 0 n;
  x ← l' !! n; Some (x, take n l').

Definition heap_Fix l (i : nat) : option (list A) :=
  '(moved, l') ← heap_down l i (length l);
  if moved : bool then Some l' else heap_up l' i.
End heap.

(** ** Heaps *)

Section heap_spec.
Context {A : Type} (less : A → A → option bool) (P : A → Prop) (lt : A → A → Prop).
Context (less_total : ∀ x y, P x → P y → ∃ b : bool, less x y = Some b ∧ (b = true ↔ lt x y)).
Context (lt_asym : ∀ x y, P x → P y → lt x y → ¬ lt y x).
Context (le_trans : ∀ x y z, P x → P y → P z → ¬ lt y x → ¬ lt z y → ¬ lt z x).
Implicit Types (l : list A) (p c g i j : nat).

Definition ordered l p c : Prop := ∀ x y, l !! p = Some x → l !! c = Some y → ¬ lt y x.
Definition child p c : Prop := (c = 2 * p + 1 ∨ c = 2 * p + 2)%nat.

(** The nodes from [k] on are not greater than their children. *)
Definition heap_from (k n : nat) l : Prop := ∀ p c, child p c → (k ≤ p)%nat → (c < n)%nat → ordered l p c.
(** The first [n] elements can be compared. *)
Definition valid n l : Prop := ∀ k x, (k < n)%nat → l !! k = Some x → P x.
Definition is_heap l : Prop := heap_from 0 (length l) l.

(** The same, but for the node [i] and its children, or for the node [j] and its parent. *)
Definition down_hole (k n i : nat) l : Prop :=
  (∀ p c, child p c → (k ≤ p)%nat → (c < n)%nat → p ≠ i → ordered l p c) ∧
  (∀ g c, child g i → child i c → (k ≤ g)%nat → (c < n)%nat → ordered l g c).
Definition up_hole (n j : nat) l : Prop :=
  (∀ p c, child p c → (c < n)%nat → c ≠ j → ordered l p c) ∧
  (∀ g c, child g j → child j c → (c < n)%nat → ordered l g c).

Lemma Forall_valid n l : Forall P l → valid n l.
Proof. intros HP k x _. apply (Forall_lookup_1 _ _ _ _ HP). Qed.

Lemma heap_Less_spec n l i j :
  valid n l → (n ≤ length l)%nat → (i < n)%nat → (j < n)%nat →
  ∃ x y b, l !! i = Some x ∧ l !! j = Some y ∧ P x ∧ P y ∧ heap_Less less l i j = Some b ∧ (b = true ↔ lt x y).
Proof.
  intros HP Hn Hi Hj. destruct (lookup_lt_is_Some_2 l i) as [x Hx]; [lia|]. destruct (lookup_lt_is_Some_2 l j) as [y Hy]; [lia|].
  pose proof (HP i x Hi Hx) as Px. pose proof (HP j y Hj Hy) as Py.
  destruct (less_total x y Px Py) as (b&Hb&Hlt). exists x, y, b. split_and!; [done..| |done].
  unfold heap_Less. by rewrite Hx, Hy.
Qed.

Lemma heap_Swap_spec l i j x y :
  l !! i = Some x → l !! j = Some y →
  ∃ l', heap_Swap l i j = Some l' ∧ l' ≡ₚ l ∧ l' !! j = Some x ∧ (i ≠ j → l' !! i = Some y) ∧
    ∀ k, k ≠ i → k ≠ j → l' !! k = l !! k.
Proof.
  intros Hx Hy. eexists. unfold heap_Swap. rewrite Hx, Hy. split; [reflexivity|].
  pose proof (lookup_lt_Some _ _ _ Hx). pose proof (lookup_lt_Some _ _ _ Hy). split_and!.
  - by apply Permutation_insert_swap.
  - apply list_lookup_insert_eq. by rewrite length_insert.
  - intros. rewrite list_lookup_insert_ne by done. by apply list_lookup_insert_eq.
  - intros k Hi Hj. by rewrite !list_lookup_insert_ne by done.
Qed.

Lemma child_parent p1 p2 c : child p1 c → child p2 c → p1 = p2.
Proof. unfold child. lia. Qed.
Lemma child_lt p c : child p c → (p < c)%nat.
Proof. unfold child. lia. Qed.

Section swapped.
Context (l l' : list A) (i j : nat) (x y : A).
Hypothesis (Hi : l !! i = Some x) (Hj : l !! j = Some y) (Hij : child i j).
Hypothesis (Hi' : l' !! i = Some y) (Hj' : l' !! j = Some x).
Hypothesis (Hrest : ∀ k, k ≠ i → k ≠ j → l' !! k = l !! k).
Context (n : nat).
Hypothesis (HP : valid n l) (Hlt : lt y x) (Hjn : (j < n)%nat).

Lemma swapped_P k z : (k < n)%nat → l !! k = Some z → P z.
Proof. apply HP. Qed.

Lemma swapped_lt : (i < n)%nat.
Proof. pose proof (child_lt _ _ Hij). lia. Qed.

Lemma swapped_valid : valid n l'.
Proof.
  pose proof swapped_lt. intros k z Hk. destruct (decide (k = i)) as [->|]; [|destruct (decide (k = j)) as [->|]].
  - rewrite Hi'. intros [= <-]. by apply (HP j).
  - rewrite Hj'. intros [= <-]. by apply (HP i).
  - rewrite Hrest by done. by apply HP.
Qed.

Lemma swapped_edge : ordered l' i j.
Proof.
  pose proof swapped_lt. intros a b. rewrite Hi', Hj'. intros [= <-] [= <-].
  apply lt_asym; [by apply (swapped_P j)|by apply (swapped_P i)|done].
Qed.

Lemma swapped_other p c : p ≠ i → p ≠ j → c ≠ i → c ≠ j → ordered l p c → ordered l' p c.
Proof. unfold ordered. intros. rewrite !Hrest in * by done. eauto. Qed.

Lemma swapped_down_hole k :
  (k ≤ i)%nat → down_hole k n i l → (∀ c, child i c → (c < n)%nat → ordered l j c) → down_hole k n j l'.
Proof.
  intros Hk [H1 H2] Hmin. pose proof (child_lt _ _ Hij). split.
  - intros p c Hc Hkp Hn Hpj. destruct (decide (p = i)) as [->|Hpi].
    + destruct (decide (c = j)) as [->|Hcj]; [apply swapped_edge|]. pose proof (child_lt _ _ Hc).
      intros a b. rewrite Hi', (Hrest c) by lia. intros [= <-] Hb. exact (Hmin c Hc Hn y b Hj Hb).
    + assert (c ≠ j) by (intros ->; by apply Hpi, (child_parent _ _ j)).
      destruct (decide (c = i)) as [->|Hci].
      * intros a b. rewrite (Hrest p), Hi' by done. intros Ha [= <-]. exact (H2 p j Hc Hij Hkp Hjn a y Ha Hj).
      * apply swapped_other; auto.
  - intros g c Hg Hc Hkg Hn. pose proof (child_parent _ _ _ Hg Hij) as ->. pose proof (child_lt _ _ Hc).
    intros a b. rewrite Hi', (Hrest c) by lia. intros [= <-] Hb.
    exact (H1 j c Hc ltac:(lia) Hn ltac:(lia) y b Hj Hb).
Qed.

Lemma swapped_up_hole : up_hole n j l → up_hole n i l'.
Proof.
  intros [H1 H2]. pose proof (child_lt _ _ Hij). pose proof swapped_lt. split.
  - intros p c Hc Hn Hci. pose proof (child_lt _ _ Hc). destruct (decide (p = i)) as [->|Hpi].
    + destruct (decide (c = j)) as [->|Hcj]; [apply swapped_edge|].
      intros a b. rewrite Hi', (Hrest c) by done. intros [= <-] Hb.
      apply (le_trans y x b); [by apply (swapped_P j)|by apply (swapped_P i)|by apply (swapped_P c)| |by apply (H1 i c)].
      apply lt_asym; [by apply (swapped_P j)|by apply (swapped_P i)|done].
    + assert (c ≠ j) by (intros ->; by apply Hpi, (child_parent _ _ j)).
      destruct (decide (p = j)) as [->|Hpj].
      * intros a b. rewrite Hj', (Hrest c) by done. intros [= <-] Hb. by apply (H2 i c).
      * apply swapped_other; auto.
  - intros g c Hg Hc Hn. pose proof (child_lt _ _ Hg). pose proof (child_lt _ _ Hc).
    assert (ordered l g i) as Hgi by (apply H1; [done|lia..]).
    intros a b. rewrite (Hrest g) by lia. intros Ha. destruct (decide (c = j)) as [->|Hcj].
    + rewrite Hj'. intros [= <-]. by apply Hgi.
    + rewrite (Hrest c) by lia. intros Hb.
      apply (le_trans a x b); [apply (swapped_P g); [lia|done]|by apply (swapped_P i)|by apply (swapped_P c)|by apply Hgi|by apply (H1 i c)].
Qed.
End swapped.

(** ** Sinking *)

Lemma down_hole_done k n i l :
  down_hole k n i l → (∀ c, child i c → (c < n)%nat → ordered l i c) → heap_from k n l.
Proof. intros [H1 _] Hi p c Hc Hk Hn. destruct (decide (p = i)) as [->|]; auto. Qed.

(** The child that is compared is not greater than the other. *)
Lemma least_child l i n :
  valid n l → (n ≤ length l)%nat → (2 * i + 1 < n)%nat →
  ∃ j, (let j1 := (2 * i + 1)%nat in let j2 := (j1 + 1)%nat in
        if decide (j2 < n)%nat then b ← heap_Less less l j2 j1; Some (if b : bool then j2 else j1) else Some j1) = Some j ∧
    child i j ∧ (j < n)%nat ∧ ∀ c, child i c → (c < n)%nat → ordered l j c.
Proof.
  intros HP Hn Hi. unfold child.
  assert (∀ k, (k < n)%nat → ordered l k k) as Hrefl.
  { intros k Hk x y Hx Hy. rewrite Hx in Hy. injection Hy as <-. intros Hlt. by apply (lt_asym x x); [apply (HP k)..| |]. }
  cbn zeta. case_decide as Hj2.
  - destruct (heap_Less_spec n l (2 * i + 1 + 1) (2 * i + 1) HP) as (x&y&b&Hx&Hy&Px&Py&->&Hb); [lia..|]. cbn [mbind option_bind].
    exists (if b then 2 * i + 1 + 1 else 2 * i + 1)%nat. split; [done|]. split; [destruct b; lia|]. split; [destruct b; lia|].
    intros c Hc Hcn. destruct b.
    + destruct Hc as [->| ->]; [|replace (2 * i + 2)%nat with (2 * i + 1 + 1)%nat by lia; apply Hrefl; lia].
      intros a b. rewrite Hx, Hy. intros [= <-] [= <-]. apply lt_asym; [done..|by apply Hb].
    + destruct Hc as [->| ->]; [apply Hrefl; lia|]. replace (2 * i + 2)%nat with (2 * i + 1 + 1)%nat by lia.
      intros a b. rewrite Hx, Hy. intros [= <-] [= <-]. intros Hlt. by apply Hb in Hlt.
  - exists (2 * i + 1)%nat. split; [done|]. split; [by left|]. split; [lia|]. intros c [->| ->] Hcn; [apply Hrefl; lia|lia].
Qed.

Lemma heap_down_from_spec fuel k l i n :
  valid n l → (n ≤ length l)%nat → (k ≤ i)%nat → (n < fuel + i)%nat → (0 < fuel)%nat → down_hole k n i l →
  ∃ i' l', heap_down_from less fuel l i n = Some (i', l') ∧ l' ≡ₚ l ∧ heap_from k n l' ∧
    (∀ p, (n ≤ p)%nat → l' !! p = l !! p) ∧ ((i < n)%nat → (i' < n)%nat) ∧ (i ≤ i')%nat ∧ (i' = i → l' = l).
Proof.
  revert l i. induction fuel as [|fuel IH]; intros l i HP Hn Hk Hf H0 Hh; [lia|]. cbn [heap_down_from].
  case_decide as Hj1.
  { exists i, l. split_and!; try done. apply (down_hole_done k n i); [done|]. unfold child. intros. lia. }
  destruct (least_child l i n HP Hn) as (j&Hjeq&Hij&Hjn&Hmin); [lia|]. cbn zeta in Hjeq. rewrite Hjeq. cbn [mbind option_bind].
  pose proof (child_lt _ _ Hij) as Hlt.
  destruct (heap_Less_spec n l j i HP) as (y&x&b&Hy&Hx&Py&Px&->&Hb); [lia..|]. cbn [mbind option_bind]. destruct b.
  - destruct (heap_Swap_spec l i j x y Hx Hy) as (l1&->&Hperm&Hj'&Hi'&Hrest). cbn [mbind option_bind].
    specialize (Hi' ltac:(lia)). pose proof (Permutation_length Hperm) as Hlen.
    destruct (IH l1 j) as (i'&l'&->&Hperm'&Hheap&Htail&Hi'n&Hle&_).
    + by apply (swapped_valid l l1 i j x y).
    + lia.
    + lia.
    + lia.
    + unfold child in Hij. lia.
    + apply (swapped_down_hole l l1 i j x y); try done. by apply Hb.
    + exists i', l'. split_and!; [done|by rewrite Hperm'|done| | |lia|lia].
      * intros p Hp. rewrite Htail by done. apply Hrest; lia.
      * intros _. by apply Hi'n.
  - exists i, l. split_and!; try done. apply (down_hole_done k n i); [done|]. intros c Hc Hcn a z Ha Hz.
    rewrite Hx in Ha. injection Ha as <-.
    apply (le_trans x y z); [done..|by apply (HP c)| |by apply (Hmin c Hc Hcn)].
    intros Hyx. by apply Hb in Hyx.
Qed.

Lemma heap_down_spec k l i n :
  valid n l → (n ≤ length l)%nat → (k ≤ i)%nat → down_hole k n i l →
  ∃ b l', heap_down less l i n = Some (b, l') ∧ l' ≡ₚ l ∧ heap_from k n l' ∧ (∀ p, (n ≤ p)%nat → l' !! p = l !! p) ∧
    (b = false → l' = l).
Proof.
  intros HP Hn Hk Hh.
  destruct (heap_down_from_spec (S n) k l i n) as (i'&l'&Hd&Hperm&Hheap&Htail&_&Hle&Hsame); [done..|lia|lia|done|].
  unfold heap_down. rewrite Hd. eexists _, l'. split; [reflexivity|]. split_and!; try done.
  intros Hb%bool_decide_eq_false. apply Hsame. lia.
Qed.

(** ** Rising *)

Lemma heap_up_from_spec fuel l j :
  Forall P l → (j < length l)%nat → (j < fuel)%nat → up_hole (length l) j l →
  ∃ l', heap_up_from less fuel l j = Some l' ∧ l' ≡ₚ l ∧ is_heap l'.
Proof.
  revert l j. induction fuel as [|fuel IH]; intros l j HP Hj Hf Hh; [lia|]. cbn [heap_up_from].
  set (i := ((j - 1) / 2)%nat).
  assert (j = 0%nat ∧ i = j ∨ child i j ∧ i ≠ j) as [[Hj0 Hij]|[Hij Hne]].
  { unfold i, child. destruct (decide (j = 0%nat)) as [->|]; [by left|right].
    pose proof (Nat.div_mod (j - 1) 2 ltac:(done)). pose proof (Nat.mod_upper_bound (j - 1) 2 ltac:(done)). lia. }
  { rewrite decide_True by done. exists l. split_and!; [done..|]. intros p c Hc _ Hn.
    pose proof (child_lt _ _ Hc). apply (proj1 Hh); [done..|lia]. }
  rewrite decide_False by done. pose proof (child_lt _ _ Hij) as Hlt.
  destruct (heap_Less_spec (length l) l j i) as (y&x&b&Hy&Hx&Py&Px&->&Hb); [by apply Forall_valid|lia..|].
  cbn [mbind option_bind]. destruct b.
  - destruct (heap_Swap_spec l i j x y Hx Hy) as (l1&->&Hperm&Hj'&Hi'&Hrest). cbn [mbind option_bind].
    specialize (Hi' Hne). pose proof (Permutation_length Hperm) as Hlen.
    destruct (IH l1 i) as (l'&->&Hperm'&Hheap).
    + by rewrite Hperm.
    + lia.
    + lia.
    + rewrite Hlen. apply (swapped_up_hole l l1 i j x y); try done; [by apply Forall_valid|by apply Hb].
    + exists l'. split_and!; [done|by rewrite Hperm'|done].
  - exists l. split_and!; [done..|]. intros p c Hc _ Hn. destruct (decide (c = j)) as [->|]; [|by apply (proj1 Hh)].
    rewrite (child_parent _ _ _ Hc Hij). intros a z. rewrite Hx, Hy. intros [= <-] [= <-] Hyx. by apply Hb in Hyx.
Qed.

(** ** The functions *)

Lemma heap_root l x y : Forall P l → is_heap l → l !! 0%nat = Some x → y ∈ l → ¬ lt y x.
Proof.
  intros HP Hh Hx [k Hk]%list_elem_of_lookup. revert y Hk. induction (lt_wf k) as [k _ IH]. intros y Hk.
  destruct (decide (k = 0%nat)) as [->|Hk0].
  { rewrite Hx in Hk. injection Hk as <-. intros Hlt.
    by apply (lt_asym x x); [apply (Forall_lookup_1 _ _ _ _ HP Hx)..| |]. }
  set (p := ((k - 1) / 2)%nat).
  assert (child p k) as Hpk.
  { unfold p, child. pose proof (Nat.div_mod (k - 1) 2 ltac:(done)). pose proof (Nat.mod_upper_bound (k - 1) 2 ltac:(done)). lia. }
  pose proof (child_lt _ _ Hpk) as Hlt. pose proof (lookup_lt_Some _ _ _ Hk) as Hlen.
  destruct (lookup_lt_is_Some_2 l p) as [z Hz]; [lia|].
  apply (le_trans x z y); [by apply (Forall_lookup_1 _ _ _ _ HP Hx)|by apply (Forall_lookup_1 _ _ _ _ HP Hz)|
    by apply (Forall_lookup_1 _ _ _ _ HP Hk)|by apply (IH p)|apply (Hh p k); [done|lia|done..]].
Qed.

Lemma heap_init_from_spec k l :
  Forall P l → (k ≤ length l)%nat → heap_from k (length l) l →
  ∃ l', heap_init_from less k l (length l) = Some l' ∧ l' ≡ₚ l ∧ is_heap l'.
Proof.
  revert l. induction k as [|k IH]; intros l HP Hk Hh; simpl; [by exists l|].
  destruct (heap_down_spec k l k (length l)) as (b&l1&->&Hperm&Hheap&_); [by apply Forall_valid|done..| |].
  { split; intros p c Hc; [intros; apply Hh; [done|lia..]|]. pose proof (child_lt _ _ Hc). intros. lia. }
  cbn [mbind option_bind]. pose proof (Permutation_length Hperm) as Hlen. rewrite <-Hlen in Hheap |- *.
  destruct (IH l1) as (l'&->&Hperm'&Hh'); [by rewrite Hperm|lia|done|]. exists l'. split_and!; [done|by rewrite Hperm'|done].
Qed.

Lemma heap_Init_spec l : Forall P l → ∃ l', heap_Init less l = Some l' ∧ l' ≡ₚ l ∧ is_heap l'.
Proof.
  intros HP. apply heap_init_from_spec; [done|apply Nat.div_le_upper_bound; lia|].
  intros p c Hc Hk Hn. exfalso. pose proof (Nat.div_mod (length l) 2 ltac:(done)).
  pose proof (Nat.mod_upper_bound (length l) 2 ltac:(done)). unfold child in Hc. lia.
Qed.

Lemma heap_Push_spec l x :
  Forall P l → P x → is_heap l → ∃ l', heap_Push less l x = Some l' ∧ l' ≡ₚ x :: l ∧ is_heap l'.
Proof.
  intros HP Px Hh. unfold heap_Push, heap_up.
  destruct (heap_up_from_spec (S (length l)) (l ++ [x]) (length l)) as (l'&->&Hperm&Hh').
  - apply Forall_app_2; [done|]. by apply Forall_singleton.
  - rewrite length_app. simpl. lia.
  - lia.
  - split.
    + intros p c Hc Hn Hne. rewrite length_app in Hn. simpl in Hn. pose proof (child_lt _ _ Hc).
      unfold ordered. rewrite !lookup_app_l by lia. apply Hh; [done|lia..].
    + intros g c Hg Hc Hn. rewrite length_app in Hn. simpl in Hn. pose proof (child_lt _ _ Hc). lia.
  - exists l'. split_and!; [done| |done]. rewrite Hperm. by rewrite Permutation_app_comm.
Qed.

(** The root is replaced by a value that may be greater. *)
Lemma heap_Fix_root_spec x l :
  Forall P (x :: l) → (∀ p c, child p c → (0 < p)%nat → (c < S (length l))%nat → ordered (x :: l) p c) →
  ∃ l', heap_Fix less (x :: l) 0 = Some l' ∧ l' ≡ₚ x :: l ∧ is_heap l'.
Proof.
  intros HP Hh. unfold heap_Fix.
  destruct (heap_down_spec 0 (x :: l) 0 (length (x :: l))) as (b&l'&->&Hperm&Hheap&_&Hsame); [by apply Forall_valid|done..| |].
  { split; [intros p c Hc _ Hn Hp; apply Hh; [done|lia|done]|]. intros g c Hg. apply child_lt in Hg. lia. }
  pose proof (Permutation_length Hperm) as Hlen. rewrite <-Hlen in Hheap. cbn [mbind option_bind].
  exists l'. destruct b; [done|]. split; [|done]. unfold heap_up. cbn [heap_up_from]. done.
Qed.

(** The root leaves; it is not compared with the others. *)
Lemma heap_Pop_root_spec x l :
  Forall P l → (∀ p c, child p c → (0 < p)%nat → (c < S (length l))%nat → ordered (x :: l) p c) →
  ∃ l', heap_Pop less (x :: l) = Some (x, l') ∧ l' ≡ₚ l ∧ is_heap l'.
Proof.
  intros HP Hh. unfold heap_Pop. replace (length (x :: l) - 1)%nat with (length l) by (simpl; lia).
  destruct (lookup_lt_is_Some_2 (x :: l) (length l)) as [y Hy]; [simpl; lia|].
  destruct (heap_Swap_spec (x :: l) 0 (length l) x y) as (l1&->&Hperm&Hn&H0&Hrest); [done..|].
  cbn [mbind option_bind]. pose proof (Permutation_length Hperm) as Hlen. simpl in Hlen.
  destruct (heap_down_spec 0 l1 0 (length l)) as (b&l2&->&Hperm2&Hheap&Htail&_); [|lia|lia| |].
  { intros k z Hk. destruct (decide (k = 0%nat)) as [->|Hk0].
    - rewrite H0 by lia. intros [= <-]. destruct (length l) as [|n] eqn:El; [lia|]. simpl in Hy.
      by apply (Forall_lookup_1 _ _ _ _ HP Hy).
    - rewrite Hrest by lia. destruct k as [|k]; [done|]. simpl. intros Hz. by apply (Forall_lookup_1 _ _ _ _ HP Hz). }
  { split.
    - intros p c Hc _ Hcn Hp. pose proof (child_lt _ _ Hc). unfold ordered. rewrite !Hrest by lia. apply Hh; [done|lia..].
    - intros g c Hg. apply child_lt in Hg. lia. }
  cbn [mbind option_bind]. rewrite Htail, Hn by lia. cbn [mbind option_bind]. exists (take (length l) l2).
  assert (l2 ≡ₚ x :: l) as Hall by (by rewrite Hperm2).
  assert (l2 = take (length l) l2 ++ [x]) as Hsplit.
  { rewrite <-(take_drop (length l) l2) at 1. f_equal. apply list_eq. intros [|k]; rewrite lookup_drop, ?Nat.add_0_r.
    - rewrite Htail by lia. by rewrite Hn.
    - rewrite lookup_ge_None_2; [done|]. rewrite Hall. simpl. lia. }
  split; [done|]. split.
  - apply (Permutation_cons_inv (a := x)). rewrite <-Hall. rewrite Hsplit at 2. apply Permutation_cons_append.
  - intros p c Hc _ Hcn. rewrite length_take in Hcn. pose proof (child_lt _ _ Hc).
    unfold ordered. rewrite !lookup_take_lt by lia. apply Hheap; [done|lia..].
Qed.

Lemma is_heap_tail x l p c :
  is_heap (x :: l) → child p c → (0 < p)%nat → (c < S (length l))%nat → ordered (x :: l) p c.
Proof. intros Hh Hc Hp Hn. apply Hh; [done|lia|done]. Qed.

(** Another root: the rest stays in order. *)
Lemma is_heap_replace x y l p c :
  is_heap (x :: l) → child p c → (0 < p)%nat → (c < S (length l))%nat → ordered (y :: l) p c.
Proof.
  intros Hh Hc Hp Hn. pose proof (child_lt _ _ Hc). destruct p as [|p], c as [|c]; [lia..|].
  exact (is_heap_tail x l _ _ Hh Hc Hp Hn).
Qed.
End heap_spec.
