(* ===== verification/Stakers.v ===== *)
(** Validators and delegators of the platform chain
    (src/vms/platformvm/state: staker.go, priorities.go, stakers.go and the
    iterators).

    A set of stakers keeps, per subnet and node, the validator and a tree of its
    delegators, and one tree of all stakers in the order in which they move; a
    difference keeps what was added and deleted since its parent.  The views of a
    stack of differences are iterators: over a tree, merged by a heap, masked by
    the deleted stakers.

    The trees are those of github.com/google/btree: [BTree] is what it documents.
    Instants are integers: those near the end of what [time.Time] can hold are not
    told apart from others.  A tree does not change while it is iterated over. *)

From S2P Require Import Prelude Ids NodeBag Database GoHeap.

(** ** Stakers *)

Record Staker := mkStaker {
  st_TxID : ID;
  st_NodeID : NodeID;
  st_SubnetID : ID;
  st_Weight : Z;
  st_StartTime : Z;
  st_EndTime : Z;
  st_PotentialReward : Z;
  st_NextTime : Z;
  st_Priority : Z;
}.

#[export] Instance Staker_eq_dec : EqDecision Staker.
Proof. solve_decision. Defined.

Definition Staker_Less (s than : Staker) : bool :=
  if decide (st_NextTime s < st_NextTime than) then true
  else if decide (st_NextTime than < st_NextTime s) then false
  else if decide (st_Priority s < st_Priority than) then true
  else if decide (st_Priority than < st_Priority s) then false
  else bytes_ltb (id_bytes (st_TxID s)) (id_bytes (st_TxID than)).

(** *** Priorities *)

Definition SubnetDelegatorCurrentPriority : Z := 1.
Definition SubnetValidatorCurrentPriority : Z := 2.
Definition PrimaryNetworkDelegatorCurrentPriority : Z := 3.
Definition PrimaryNetworkValidatorCurrentPriority : Z := 4.

Definition PrimaryNetworkDelegatorPendingPriority : Z := 1.
Definition PrimaryNetworkValidatorPendingPriority : Z := 2.
Definition SubnetValidatorPendingPriority : Z := 3.
Definition SubnetDelegatorPendingPriority : Z := 4.

Definition PendingToCurrentPriorities : list Z :=
  [0; PrimaryNetworkDelegatorCurrentPriority; PrimaryNetworkValidatorCurrentPriority;
   SubnetValidatorCurrentPriority; SubnetDelegatorCurrentPriority].

Definition PrimaryNetworkID : ID := Empty.

(** *** Time and the validator of a transaction (src/vms/platformvm/validator) *)

(** [int64(x)] *)
Definition to_int64 (x : Z) : Z := (x + 2 ^ 63) mod 2 ^ 64 - 2 ^ 63.

(** Instants and durations are numbers of nanoseconds; a duration has 64 bits, and
    [Sub] gives the nearest one. *)
Definition Second : Z := 10 ^ 9.
Definition time_Unix (sec : Z) : Z := sec * Second.
Definition time_Sub (t u : Z) : Z := Z.max (- 2 ^ 63) (Z.min (2 ^ 63 - 1) (t - u)).

Record Validator := mkValidator { v_NodeID : NodeID; v_Start : Z; v_End : Z; v_Wght : Z }.

Definition v_StartTime (v : Validator) : Z := time_Unix (to_int64 (v_Start v)).
Definition v_EndTime (v : Validator) : Z := time_Unix (to_int64 (v_End v)).
Definition v_Duration (v : Validator) : Z := time_Sub (v_EndTime v) (v_StartTime v).

Inductive validator_error := ErrWeightTooSmall | errBadSubnetID.

Definition validator_Verify (v : Validator) : result validator_error unit :=
  if decide (v_Wght v = 0) then Err ErrWeightTooSmall else Ok tt.

Definition v_BoundedBy (v : Validator) (startTime endTime : Z) : bool :=
  negb (bool_decide (v_StartTime v < startTime)) && negb (bool_decide (endTime < v_EndTime v)).

Record SubnetValidator := mkSubnetValidator { sv_Validator : Validator; sv_Subnet : ID }.

Definition subnetValidator_Verify (v : SubnetValidator) : result validator_error unit :=
  if decide (sv_Subnet v = PrimaryNetworkID) then Err errBadSubnetID else validator_Verify (sv_Validator v).

Definition NewPrimaryNetworkStaker (txID : ID) (vdr : Validator) : Staker :=
  mkStaker txID (v_NodeID vdr) PrimaryNetworkID (v_Wght vdr) (v_StartTime vdr) (v_EndTime vdr) 0 0 0.

Definition NewSubnetStaker (txID : ID) (vdr : SubnetValidator) : Staker :=
  mkStaker txID (v_NodeID (sv_Validator vdr)) (sv_Subnet vdr) (v_Wght (sv_Validator vdr))
    (v_StartTime (sv_Validator vdr)) (v_EndTime (sv_Validator vdr)) 0 0 0.

(** ** github.com/google/btree *)

(** Two stakers that are not less than one another are the same item. *)
Definition same_item (x y : Staker) : Prop := Staker_Less x y = false ∧ Staker_Less y x = false.
Definition staker_lt (x y : Staker) : Prop := Staker_Less x y = true.

Class BTree : Type := {
  btree : Type;
  bt_New : btree;
  bt_ReplaceOrInsert : Staker → btree → btree;
  bt_Delete : Staker → btree → btree;
  bt_Len : btree → nat;
  bt_Ascend : btree → list Staker;
}.

Class BTreeLaws `{BTree} : Prop := {
  bt_New_items : bt_Ascend bt_New = [];
  bt_insert_items x t y : y ∈ bt_Ascend (bt_ReplaceOrInsert x t) ↔ y = x ∨ y ∈ bt_Ascend t ∧ ¬ same_item x y;
  bt_delete_items x t y : y ∈ bt_Ascend (bt_Delete x t) ↔ y ∈ bt_Ascend t ∧ ¬ same_item x y;
  bt_sorted t : StronglySorted staker_lt (bt_Ascend t);
  bt_Len_items t : bt_Len t = length (bt_Ascend t);
}.

(** ** Iterators *)

(** [it_Value] is none for a nil staker, which the callers dereference.  [it_left]
    is not a method: it bounds how often [Next] returns true. *)
Class StakerIterator (I : Type) : Type := {
  it_Next : I → option (bool * I);
  it_Value : I → option Staker;
  it_Release : I → I;
  it_left : I → nat;
}.

(** [for it.Next() { body(it.Value()) }]: the body goes on, or leaves the loop. *)
Fixpoint it_loop_from {I A R} `{StakerIterator I} (fuel : nat) (body : A → Staker → option (A + R)) (it : I) (a : A)
  : option (A + R) :=
  match fuel with
  | O => None
  | S fuel =>
      '(more, it) ← it_Next it;
      if more : bool then
        x ← it_Value it;
        r ← body a x;
        match r with inl a => it_loop_from fuel body it a | inr r => Some (inr r) end
      else Some (inl a)
  end.
Definition it_loop {I A R} `{StakerIterator I} (body : A → Staker → option (A + R)) (it : I) (a : A) : option (A + R) :=
  it_loop_from (S (it_left it)) body it a.

(** The same over a slice. *)
Fixpoint slice_loop {A B R} (body : A → B → option (A + R)) (l : list B) (a : A) : option (A + R) :=
  match l with
  | [] => Some (inl a)
  | x :: l => r ← body a x; match r with inl a => slice_loop body l a | inr r => Some (inr r) end
  end.
(** A loop that always goes to the end. *)
Definition each {A B} (body : A → B → option A) (l : list B) (a : A) : option A :=
  r ← slice_loop (λ a x, a ← body a x; Some (inl a)) l a;
  match r with inl a => Some a | inr r => match r : Empty_set with end end.

(** *** tree_iterator.go, empty_iterator.go *)

(** [next] is what the goroutine has still to send. *)
Inductive treeIterator :=
  | EmptyIterator
  | TreeIterator (current : option Staker) (next : list Staker).

Definition NewTreeIterator `{BTree} (tree : option btree) : treeIterator :=
  match tree with None => EmptyIterator | Some tree => TreeIterator None (bt_Ascend tree) end.

Definition tree_Next (it : treeIterator) : option (bool * treeIterator) :=
  match it with
  | EmptyIterator => Some (false, EmptyIterator)
  | TreeIterator _ [] => Some (false, TreeIterator None [])
  | TreeIterator _ (x :: next) => Some (true, TreeIterator (Some x) next)
  end.

Definition tree_Value (it : treeIterator) : option Staker :=
  match it with EmptyIterator => None | TreeIterator current _ => current end.

Definition tree_Release (it : treeIterator) : treeIterator :=
  match it with EmptyIterator => EmptyIterator | TreeIterator current _ => TreeIterator current [] end.

#[export] Instance tree_StakerIterator : StakerIterator treeIterator := {|
  it_Next := tree_Next;
  it_Value := tree_Value;
  it_Release := tree_Release;
  it_left it := match it with EmptyIterator => O | TreeIterator _ next => length next end;
|}.

(** *** merged_iterator.go *)

Record mergedIterator (I : Type) := mkMergedIterator { mg_initialized : bool; mg_heap : list I }.
Arguments mkMergedIterator {I} _ _.
Arguments mg_initialized {I} _.
Arguments mg_heap {I} _.

Section merged.
Context {I : Type} `{StakerIterator I}.

Definition merged_Less (a b : I) : option bool := x ← it_Value a; y ← it_Value b; Some (Staker_Less x y).

(** Iterators that are exhausted are replaced by the last one. *)
Fixpoint drop_exhausted (fuel : nat) (i : nat) (stakers : list I) : option (list I) :=
  match fuel with
  | O => None
  | S fuel =>
      match stakers !! i with
      | None => Some stakers
      | Some staker =>
          '(more, staker) ← it_Next staker;
          if more : bool then drop_exhausted fuel (S i) (<[i := staker]> stakers)
          else
            let newLength := (length stakers - 1)%nat in
            last ← stakers !! newLength;
            drop_exhausted fuel i (take newLength (<[i := last]> stakers))
      end
  end.

Definition NewMergedIterator (stakers : list I) : option (mergedIterator I) :=
  stakers ← drop_exhausted (S (length stakers)) 0 stakers;
  heap ← heap_Init merged_Less stakers;
  Some (mkMergedIterator false heap).

Definition merged_Next (it : mergedIterator I) : option (bool * mergedIterator I) :=
  match mg_heap it with
  | [] => Some (false, it)
  | current :: rest =>
      if negb (mg_initialized it) then Some (true, mkMergedIterator true (mg_heap it))
      else
        '(more, current) ← it_Next current;
        if more : bool then
          heap ← heap_Fix merged_Less (current :: rest) 0;
          Some (true, mkMergedIterator true heap)
        else
          '(_, heap) ← heap_Pop merged_Less (it_Release current :: rest);
          Some (bool_decide (0 < length heap)%nat, mkMergedIterator true heap)
  end.

Definition merged_Value (it : mergedIterator I) : option Staker := current ← mg_heap it !! 0%nat; it_Value current.

Definition merged_Release (it : mergedIterator I) : mergedIterator I := mkMergedIterator (mg_initialized it) [].

#[export] Instance merged_StakerIterator : StakerIterator (mergedIterator I) := {|
  it_Next := merged_Next;
  it_Value := merged_Value;
  it_Release := merged_Release;
  it_left it := ((if mg_initialized it then 0 else 1) + sum_list_with (λ i, S (it_left i)) (mg_heap it))%nat;
|}.
End merged.

(** *** masked_iterator.go *)

Record maskedIterator (I : Type) := mkMaskedIterator { mk_parentIterator : I; mk_maskedStakers : gmap ID Staker }.
Arguments mkMaskedIterator {I} _ _.
Arguments mk_parentIterator {I} _.
Arguments mk_maskedStakers {I} _.

Section masked.
Context {I : Type} `{StakerIterator I}.

Fixpoint masked_Next_loop (fuel : nat) (i : maskedIterator I) : option (bool * maskedIterator I) :=
  match fuel with
  | O => None
  | S fuel =>
      '(more, parentIterator) ← it_Next (mk_parentIterator i);
      let i := mkMaskedIterator parentIterator (mk_maskedStakers i) in
      if more : bool then
        staker ← it_Value parentIterator;
        if decide (mk_maskedStakers i !! st_TxID staker = None) then Some (true, i) else masked_Next_loop fuel i
      else Some (false, i)
  end.

Definition masked_Next (i : maskedIterator I) : option (bool * maskedIterator I) :=
  masked_Next_loop (S (it_left (mk_parentIterator i))) i.

#[export] Instance masked_StakerIterator : StakerIterator (maskedIterator I) := {|
  it_Next := masked_Next;
  it_Value i := it_Value (mk_parentIterator i);
  it_Release i := mkMaskedIterator (it_Release (mk_parentIterator i)) (mk_maskedStakers i);
  it_left i := it_left (mk_parentIterator i);
|}.
End masked.

(** An iterator of one kind or of another. *)
#[export] Instance sum_StakerIterator {I J} `{StakerIterator I, StakerIterator J} : StakerIterator (I + J) := {|
  it_Next it := match it with
    | inl i => '(more, i) ← it_Next i; Some (more, inl i)
    | inr j => '(more, j) ← it_Next j; Some (more, inr j)
    end;
  it_Value it := match it with inl i => it_Value i | inr j => it_Value j end;
  it_Release it := match it with inl i => inl (it_Release i) | inr j => inr (it_Release j) end;
  it_left it := match it with inl i => it_left i | inr j => it_left j end;
|}.

(** ** stakers.go *)

Section stakers.
Context `{BTree}.

Record baseStaker := mkBaseStaker { bs_validator : option Staker; bs_delegators : option btree }.

Record diffValidator := mkDiffValidator {
  dv_validatorModified : bool;
  dv_validatorDeleted : bool;
  dv_validator : option Staker;
  dv_addedDelegators : option btree;
  dv_deletedDelegators : gmap ID Staker;
}.

Record baseStakers := mkBaseStakers {
  b_validators : gmap ID (gmap NodeID baseStaker);
  b_stakers : btree;
  b_validatorDiffs : gmap ID (gmap NodeID diffValidator);
}.

Definition newBaseStakers : baseStakers := mkBaseStakers ∅ bt_New ∅.

Inductive state_error := ErrNotFound | ErrMissingParentState.

Definition base_GetValidator (v : baseStakers) (subnetID : ID) (nodeID : NodeID) : result state_error Staker :=
  match b_validators v !! subnetID with
  | None => Err ErrNotFound
  | Some subnetValidators =>
      match subnetValidators !! nodeID with
      | None => Err ErrNotFound
      | Some validator => match bs_validator validator with None => Err ErrNotFound | Some s => Ok s end
      end
  end.

(** [getOrCreate...] returns a pointer into the nested maps: the entry is read with
    a default and written back. *)
Definition get_or_create {V} (zero : V) (m : gmap ID (gmap NodeID V)) (subnetID : ID) (nodeID : NodeID) : V :=
  default zero (default ∅ (m !! subnetID) !! nodeID).
Definition put_entry {V} (m : gmap ID (gmap NodeID V)) (subnetID : ID) (nodeID : NodeID) (x : V) : gmap ID (gmap NodeID V) :=
  <[subnetID := <[nodeID := x]> (default ∅ (m !! subnetID))]> m.

Definition getOrCreateValidator (v : baseStakers) (subnetID : ID) (nodeID : NodeID) : baseStaker :=
  get_or_create (mkBaseStaker None None) (b_validators v) subnetID nodeID.
Definition diffValidator_zero : diffValidator := mkDiffValidator false false None None ∅.
Definition getOrCreateValidatorDiff (v : baseStakers) (subnetID : ID) (nodeID : NodeID) : diffValidator :=
  get_or_create diffValidator_zero (b_validatorDiffs v) subnetID nodeID.

(** The validator of a difference is set or marked as deleted. *)
Definition dv_modify (deleted : bool) (staker : Staker) (d : diffValidator) : diffValidator :=
  mkDiffValidator true deleted (Some staker) (dv_addedDelegators d) (dv_deletedDelegators d).
Definition dv_addDelegator (staker : Staker) (d : diffValidator) : diffValidator :=
  mkDiffValidator (dv_validatorModified d) (dv_validatorDeleted d) (dv_validator d)
    (Some (bt_ReplaceOrInsert staker (default bt_New (dv_addedDelegators d)))) (dv_deletedDelegators d).
Definition dv_deleteDelegator (staker : Staker) (d : diffValidator) : diffValidator :=
  mkDiffValidator (dv_validatorModified d) (dv_validatorDeleted d) (dv_validator d)
    (dv_addedDelegators d) (<[st_TxID staker := staker]> (dv_deletedDelegators d)).

Definition base_PutValidator (staker : Staker) (v : baseStakers) : baseStakers :=
  let subnetID := st_SubnetID staker in let nodeID := st_NodeID staker in
  let validator := getOrCreateValidator v subnetID nodeID in
  mkBaseStakers
    (put_entry (b_validators v) subnetID nodeID (mkBaseStaker (Some staker) (bs_delegators validator)))
    (bt_ReplaceOrInsert staker (b_stakers v))
    (put_entry (b_validatorDiffs v) subnetID nodeID
      (dv_modify false staker (getOrCreateValidatorDiff v subnetID nodeID))).

(** An entry without a validator and without delegators is deleted. *)
Definition pruneValidator (validators : gmap ID (gmap NodeID baseStaker)) (subnetID : ID) (nodeID : NodeID)
  : option (gmap ID (gmap NodeID baseStaker)) :=
  let subnetValidators := default ∅ (validators !! subnetID) in
  validator ← subnetValidators !! nodeID;
  if decide (bs_validator validator ≠ None) then Some validators
  else if match bs_delegators validator with Some t => bool_decide (0 < bt_Len t)%nat | None => false end then Some validators
  else
    let subnetValidators := delete nodeID subnetValidators in
    Some (if decide (size subnetValidators = 0%nat) then delete subnetID validators
          else <[subnetID := subnetValidators]> validators).

Definition base_DeleteValidator (staker : Staker) (v : baseStakers) : option baseStakers :=
  let subnetID := st_SubnetID staker in let nodeID := st_NodeID staker in
  let validator := getOrCreateValidator v subnetID nodeID in
  validators ← pruneValidator
    (put_entry (b_validators v) subnetID nodeID (mkBaseStaker None (bs_delegators validator))) subnetID nodeID;
  Some (mkBaseStakers validators (bt_Delete staker (b_stakers v))
    (put_entry (b_validatorDiffs v) subnetID nodeID
      (dv_modify true staker (getOrCreateValidatorDiff v subnetID nodeID)))).

Definition base_GetDelegatorIterator (v : baseStakers) (subnetID : ID) (nodeID : NodeID) : treeIterator :=
  match b_validators v !! subnetID with
  | None => EmptyIterator
  | Some subnetValidators =>
      match subnetValidators !! nodeID with
      | None => EmptyIterator
      | Some validator => NewTreeIterator (bs_delegators validator)
      end
  end.

Definition base_PutDelegator (staker : Staker) (v : baseStakers) : baseStakers :=
  let subnetID := st_SubnetID staker in let nodeID := st_NodeID staker in
  let validator := getOrCreateValidator v subnetID nodeID in
  mkBaseStakers
    (put_entry (b_validators v) subnetID nodeID (mkBaseStaker (bs_validator validator)
      (Some (bt_ReplaceOrInsert staker (default bt_New (bs_delegators validator))))))
    (bt_ReplaceOrInsert staker (b_stakers v))
    (put_entry (b_validatorDiffs v) subnetID nodeID
      (dv_addDelegator staker (getOrCreateValidatorDiff v subnetID nodeID))).

Definition base_DeleteDelegator (staker : Staker) (v : baseStakers) : option baseStakers :=
  let subnetID := st_SubnetID staker in let nodeID := st_NodeID staker in
  let validator := getOrCreateValidator v subnetID nodeID in
  validators ← pruneValidator
    (put_entry (b_validators v) subnetID nodeID
      (mkBaseStaker (bs_validator validator) (bt_Delete staker <$> bs_delegators validator))) subnetID nodeID;
  Some (mkBaseStakers validators (bt_Delete staker (b_stakers v))
    (put_entry (b_validatorDiffs v) subnetID nodeID
      (dv_deleteDelegator staker (getOrCreateValidatorDiff v subnetID nodeID)))).

Definition base_GetStakerIterator (v : baseStakers) : treeIterator := NewTreeIterator (Some (b_stakers v)).

(** *** Differences *)

Record diffStakers := mkDiffStakers {
  ds_validatorDiffs : gmap ID (gmap NodeID diffValidator);
  ds_addedStakers : option btree;
  ds_deletedStakers : gmap ID Staker;
}.

Definition diffStakers_zero : diffStakers := mkDiffStakers ∅ None ∅.

(** The second result tells whether the difference knows. *)
Definition diff_GetValidator (s : diffStakers) (subnetID : ID) (nodeID : NodeID) : option Staker * bool :=
  match ds_validatorDiffs s !! subnetID with
  | None => (None, false)
  | Some subnetValidatorDiffs =>
      match subnetValidatorDiffs !! nodeID with
      | None => (None, false)
      | Some validatorDiff =>
          if negb (dv_validatorModified validatorDiff) then (None, false)
          else if dv_validatorDeleted validatorDiff then (None, true)
          else (dv_validator validatorDiff, true)
      end
  end.

Definition getOrCreateDiff (s : diffStakers) (subnetID : ID) (nodeID : NodeID) : diffValidator :=
  get_or_create diffValidator_zero (ds_validatorDiffs s) subnetID nodeID.

(** The difference of the staker's validator is changed by [f]. *)
Definition modify_diff (f : diffValidator → diffValidator) (staker : Staker) (s : diffStakers) : gmap ID (gmap NodeID diffValidator) :=
  put_entry (ds_validatorDiffs s) (st_SubnetID staker) (st_NodeID staker)
    (f (getOrCreateDiff s (st_SubnetID staker) (st_NodeID staker))).

Definition diff_PutValidator (staker : Staker) (s : diffStakers) : diffStakers :=
  mkDiffStakers (modify_diff (dv_modify false staker) staker s)
    (Some (bt_ReplaceOrInsert staker (default bt_New (ds_addedStakers s)))) (ds_deletedStakers s).

Definition diff_DeleteValidator (staker : Staker) (s : diffStakers) : diffStakers :=
  mkDiffStakers (modify_diff (dv_modify true staker) staker s)
    (ds_addedStakers s) (<[st_TxID staker := staker]> (ds_deletedStakers s)).

Definition diff_PutDelegator (staker : Staker) (s : diffStakers) : diffStakers :=
  mkDiffStakers (modify_diff (dv_addDelegator staker) staker s)
    (Some (bt_ReplaceOrInsert staker (default bt_New (ds_addedStakers s)))) (ds_deletedStakers s).

Definition diff_DeleteDelegator (staker : Staker) (s : diffStakers) : diffStakers :=
  mkDiffStakers (modify_diff (dv_deleteDelegator staker) staker s)
    (ds_addedStakers s) (<[st_TxID staker := staker]> (ds_deletedStakers s)).

(** *** The loops of [diff.Apply] over the stakers *)

Definition apply_validatorDiff `{GoRange} (v : baseStakers) (validatorDiff : diffValidator) : option baseStakers :=
  v ← (if dv_validatorModified validatorDiff then
         validator ← dv_validator validatorDiff;
         if dv_validatorDeleted validatorDiff then base_DeleteValidator validator v
         else Some (base_PutValidator validator v)
       else Some v);
  r ← it_loop (λ v x, Some (inl (base_PutDelegator x v))) (NewTreeIterator (dv_addedDelegators validatorDiff)) v;
  match r with
  | inl v => each (λ v '(_, delegator), base_DeleteDelegator delegator v) (go_range (dv_deletedDelegators validatorDiff)) v
  | inr r => match r : Empty_set with end
  end.

Definition apply_stakers `{GoRange} (d : diffStakers) (v : baseStakers) : option baseStakers :=
  each (λ v '(_, subnetValidatorDiffs), each (λ v '(_, validatorDiff), apply_validatorDiff v validatorDiff)
    (go_range subnetValidatorDiffs) v) (go_range (ds_validatorDiffs d)) v.

Section views.
Context {I : Type} `{StakerIterator I}.

Definition diff_GetDelegatorIterator (parentIterator : I) (s : diffStakers) (subnetID : ID) (nodeID : NodeID)
  : option (maskedIterator (mergedIterator (I + treeIterator))) :=
  let '(addedDelegatorIterator, deletedDelegators) :=
    match ds_validatorDiffs s !! subnetID with
    | Some subnetValidatorDiffs =>
        match subnetValidatorDiffs !! nodeID with
        | Some validatorDiff => (NewTreeIterator (dv_addedDelegators validatorDiff), dv_deletedDelegators validatorDiff)
        | None => (EmptyIterator, ∅)
        end
    | None => (EmptyIterator, ∅)
    end in
  merged ← NewMergedIterator [inl parentIterator; inr addedDelegatorIterator];
  Some (mkMaskedIterator merged deletedDelegators).

Definition diff_GetStakerIterator (parentIterator : I) (s : diffStakers)
  : option (maskedIterator (mergedIterator (I + treeIterator))) :=
  merged ← NewMergedIterator [inl parentIterator; inr (NewTreeIterator (ds_addedStakers s))];
  Some (mkMaskedIterator merged (ds_deletedStakers s)).
End views.
End stakers.
