(* ===== verification/StakerIters.v ===== *)
(** What the iterators over stakers yield: a merged iterator yields all stakers of
    its iterators in order, a masked one those that are not deleted. *)

From S2P Require Import Prelude Ids NodeBag Database GoHeap Stakers.

(** ** The order of stakers *)

Lemma staker_lt_iff x y : staker_lt x y ↔
  st_NextTime x < st_NextTime y ∨ st_NextTime x = st_NextTime y ∧
    (st_Priority x < st_Priority y ∨ st_Priority x = st_Priority y ∧ bytes_lt (id_bytes (st_TxID x)) (id_bytes (st_TxID y))).
Proof.
  unfold staker_lt, Staker_Less, bytes_lt. repeat case_decide; split; try done; try lia; intros Hx.
  - right. split; [lia|]. right. split; [lia|done].
  - destruct Hx as [?|[? [?|[? ?]]]]; [lia..|done].
Qed.

Lemma staker_lt_irrefl x : ¬ staker_lt x x.
Proof. rewrite staker_lt_iff. intros [?|[_ [?|[_ ?%bytes_lt_irrefl]]]]; [lia..|done]. Qed.

#[export] Instance staker_lt_trans : Transitive staker_lt.
Proof.
  intros x y z. rewrite !staker_lt_iff. intros [?|[? [?|[? H1]]]] [?|[? [?|[? H2]]]]; try lia.
  right. split; [lia|]. right. split; [lia|]. by etrans.
Qed.

Lemma staker_lt_asym x y : staker_lt x y → ¬ staker_lt y x.
Proof. intros H1 H2. apply (staker_lt_irrefl x). by etrans. Qed.

Definition staker_le x y : Prop := ¬ staker_lt y x.

Lemma staker_lt_cases x y : staker_lt x y ∨ staker_lt y x ∨ same_item x y.
Proof. unfold staker_lt, same_item. destruct (Staker_Less x y), (Staker_Less y x); auto. Qed.

Lemma same_item_iff x y : same_item x y ↔
  st_NextTime x = st_NextTime y ∧ st_Priority x = st_Priority y ∧ st_TxID x = st_TxID y.
Proof.
  unfold same_item. rewrite <-!not_true_iff_false. fold (staker_lt x y) (staker_lt y x). rewrite !staker_lt_iff. split.
  - intros [H1 H2]. assert (st_NextTime x = st_NextTime y) by lia. assert (st_Priority x = st_Priority y) by lia.
    split_and!; [done..|]. apply ID_eq.
    destruct (bytes_lt_total (id_bytes (st_TxID x)) (id_bytes (st_TxID y))) as [?|[?|?]]; [|done|]; exfalso; [apply H1|apply H2]; auto.
  - intros (->&->&->). split; intros [?|[_ [?|[_ ?%bytes_lt_irrefl]]]]; lia || done.
Qed.

#[export] Instance staker_le_trans : Transitive staker_le.
Proof.
  intros x y z H1 H2 H3. destruct (staker_lt_cases x y) as [Hxy|[?|Hs]]; [|done|].
  - apply H2. by etrans.
  - apply H2. apply same_item_iff in Hs as (?&?&?). rewrite staker_lt_iff in *. intuition congruence.
Qed.

Lemma staker_lt_le x y : staker_lt x y → staker_le x y.
Proof. apply staker_lt_asym. Qed.

#[export] Instance same_item_dec x y : Decision (same_item x y).
Proof. unfold same_item. apply _. Defined.

(** ** What an iterator yields *)

Section yields.
Context {I : Type} `{StakerIterator I}.

Inductive yields (i : I) : list Staker → Prop :=
  | yields_nil i' : it_Next i = Some (false, i') → yields i []
  | yields_cons i' x l : it_Next i = Some (true, i') → it_Value i' = Some x → yields i' l → yields i (x :: l).

Lemma yields_det i l1 l2 : yields i l1 → yields i l2 → l1 = l2.
Proof.
  intros H1. revert l2. induction H1 as [i i' Hn|i i' x l Hn Hv _ IH]; intros l2 H2; destruct H2 as [i2 Hn2|i2 y l2 Hn2 Hv2 H2];
    rewrite Hn in Hn2; injection Hn2; [done|done|done|intros <-].
  rewrite Hv in Hv2. injection Hv2 as <-. f_equal. by apply IH.
Qed.

(** [it_left] bounds what is still to come. *)
Class StakerIteratorLaws : Prop := { it_left_Next i i' : it_Next i = Some (true, i') → (it_left i' < it_left i)%nat }.

Lemma it_left_yields `{!StakerIteratorLaws} i l : yields i l → (length l ≤ it_left i)%nat.
Proof. induction 1 as [|i i' x l Hn Hv _ IH]; simpl; [lia|]. apply it_left_Next in Hn. lia. Qed.
End yields.

Arguments StakerIteratorLaws I {_}.

(** A loop over an iterator is the loop over what it yields. *)
Lemma it_loop_yields {I A R} `{StakerIterator I, !StakerIteratorLaws I} (body : A → Staker → option (A + R)) (it : I) l a :
  yields it l → it_loop body it a = slice_loop body l a.
Proof.
  intros Hy. unfold it_loop. pose proof (it_left_yields it l Hy) as Hf. assert (length l < S (it_left it))%nat as Hf' by lia. clear Hf.
  revert Hf'. generalize (S (it_left it)) as fuel. intros fuel. revert fuel a.
  induction Hy as [i i' Hn|i i' x l Hn Hv _ IH]; intros [|fuel] a Hf; simpl in *; try lia; rewrite Hn; [done|].
  cbn [mbind option_bind]. rewrite Hv. cbn [mbind option_bind]. destruct (body a x) as [[a'|r]|]; cbn [mbind option_bind]; [|done..].
  apply IH. lia.
Qed.

Lemma slice_loop_each {A B R} (f : A → B → A) l a : slice_loop (R := R) (λ a x, Some (inl (f a x))) l a = Some (inl (foldl f a l)).
Proof. revert a. induction l as [|x l IH]; intros a; simpl; [done|]. apply IH. Qed.

Lemma each_nil {A B} (body : A → B → option A) a : each body [] a = Some a.
Proof. done. Qed.
Lemma each_cons {A B} (body : A → B → option A) x l a : each body (x :: l) a = a ← body a x; each body l a.
Proof. unfold each. simpl. by destruct (body a x). Qed.

#[export] Instance tree_laws : StakerIteratorLaws treeIterator.
Proof. split. intros [|c [|y next]] i'; simpl; [done..|]. intros [= <-]. simpl. lia. Qed.

Lemma tree_yields c next : yields (TreeIterator c next) next.
Proof. revert c. induction next as [|x next IH]; intros c; [by eapply yields_nil|by eapply yields_cons]. Qed.

Definition tree_items `{BTree} (t : option btree) : list Staker := match t with Some t => bt_Ascend t | None => [] end.

Lemma NewTreeIterator_yields `{BTree} t : yields (NewTreeIterator t) (tree_items t).
Proof. destruct t; [apply tree_yields|by eapply yields_nil]. Qed.

Section sum.
Context {I J : Type} `{StakerIterator I, StakerIterator J}.

Lemma sum_yields_inl (i : I) l : yields i l → yields (I := I + J) (inl i) l.
Proof.
  induction 1 as [i i' Hn|i i' x l Hn Hv _ IH]; [apply (yields_nil _ (inl i'))|apply (yields_cons _ (inl i')); [|done..]];
    simpl; by rewrite Hn.
Qed.
Lemma sum_yields_inr (j : J) l : yields j l → yields (I := I + J) (inr j) l.
Proof.
  induction 1 as [j j' Hn|j j' x l Hn Hv _ IH]; [apply (yields_nil _ (inr j'))|apply (yields_cons _ (inr j')); [|done..]];
    simpl; by rewrite Hn.
Qed.

#[export] Instance sum_laws `{!StakerIteratorLaws I, !StakerIteratorLaws J} : StakerIteratorLaws (I + J).
Proof.
  split. intros [i|j] s'; simpl; [destruct (it_Next i) as [[b i']|] eqn:E|destruct (it_Next j) as [[b j']|] eqn:E]; try done;
    simpl; intros [= -> <-]; by apply it_left_Next in E.
Qed.
End sum.

(** ** Masked *)

Section masked.
Context {I : Type} `{StakerIterator I, !StakerIteratorLaws I}.

Lemma masked_loop_yields fuel (p : I) m l :
  yields p l → (length l < fuel)%nat →
  match filter (λ s, m !! st_TxID s = None) l with
  | [] => ∃ i', masked_Next_loop fuel (mkMaskedIterator p m) = Some (false, i')
  | x :: _ => ∃ p' l', masked_Next_loop fuel (mkMaskedIterator p m) = Some (true, mkMaskedIterator p' m) ∧
      it_Value p' = Some x ∧ yields p' l' ∧ filter (λ s, m !! st_TxID s = None) l = x :: filter (λ s, m !! st_TxID s = None) l' ∧
      (length l' < length l)%nat
  end.
Proof.
  intros Hy. revert fuel. induction Hy as [p p' Hn|p p' x l Hn Hv Hy IH]; intros [|fuel] Hf; simpl in *; try lia.
  { exists (mkMaskedIterator p' m). by rewrite Hn. }
  rewrite Hn. cbn [mbind option_bind mk_maskedStakers]. rewrite Hv. cbn [mbind option_bind].
  rewrite filter_cons. case_decide as Hm.
  - exists p', l. split_and!; [done..|lia].
  - specialize (IH fuel ltac:(lia)). destruct (filter _ l) as [|y r] eqn:Ef; [done|].
    destruct IH as (p1&l1&?&?&?&?&?). exists p1, l1. split_and!; [done..|lia].
Qed.

Lemma masked_yields (p : I) m l : yields p l → yields (mkMaskedIterator p m) (filter (λ s, m !! st_TxID s = None) l).
Proof.
  revert p. induction l as [l IH] using (well_founded_induction (well_founded_ltof _ (@length Staker))). intros p Hy.
  assert (length l < S (it_left p))%nat as Hf by (pose proof (it_left_yields p l Hy); lia).
  pose proof (masked_loop_yields _ p m l Hy Hf) as Hl. destruct (filter _ l) as [|x r] eqn:Ef.
  - destruct Hl as [i' Hi']. by eapply yields_nil.
  - destruct Hl as (p'&l'&Hn&Hv&Hy'&[= ->]&Hlt). eapply yields_cons; [exact Hn|exact Hv|]. by apply (IH l').
Qed.

#[export] Instance masked_laws : StakerIteratorLaws (maskedIterator I).
Proof.
  assert (∀ fuel (i i' : maskedIterator I), masked_Next_loop fuel i = Some (true, i') → (it_left i' < it_left i)%nat) as Hloop.
  { induction fuel as [|fuel IH]; intros i i' Hn; [done|]. simpl in Hn.
    destruct (it_Next (mk_parentIterator i)) as [[[] p']|] eqn:En; [|done..]. apply it_left_Next in En. simpl in Hn.
    destruct (it_Value p') as [y|] eqn:Ev; [|done]. simpl in Hn. case_decide; [by injection Hn as <-|].
    apply IH in Hn. simpl in *. lia. }
  split. intros i i'. apply Hloop.
Qed.
End masked.

(** ** Merged *)

Section merged.
Context {I : Type} `{StakerIterator I, !StakerIteratorLaws I}.

Definition positioned (i : I) : Prop := is_Some (it_Value i).
Definition iter_lt (a b : I) : Prop := ∃ x y, it_Value a = Some x ∧ it_Value b = Some y ∧ staker_lt x y.

Lemma merged_Less_total a b : positioned a → positioned b → ∃ r : bool, merged_Less a b = Some r ∧ (r = true ↔ iter_lt a b).
Proof.
  intros [x Hx] [y Hy]. exists (Staker_Less x y). unfold merged_Less. rewrite Hx, Hy. split; [done|].
  unfold iter_lt. rewrite Hx, Hy. split; [eauto|]. by intros (x'&y'&[= <-]&[= <-]&?).
Qed.

Lemma iter_lt_asym a b : positioned a → positioned b → iter_lt a b → ¬ iter_lt b a.
Proof.
  intros _ _ (x&y&Hx&Hy&Hlt) (y'&x'&Hy'&Hx'&Hlt'). apply (staker_lt_asym x y); [done|]. congruence.
Qed.

Lemma iter_lt_value a b x y : it_Value a = Some x → it_Value b = Some y → iter_lt a b ↔ staker_lt x y.
Proof. intros Hx Hy. unfold iter_lt. rewrite Hx, Hy. split; [by intros (?&?&[= <-]&[= <-]&?)|eauto]. Qed.

Lemma iter_le_trans a b c : positioned a → positioned b → positioned c → ¬ iter_lt b a → ¬ iter_lt c b → ¬ iter_lt c a.
Proof.
  intros [x Hx] [y Hy] [z Hz]. rewrite (iter_lt_value b a y x), (iter_lt_value c b z y), (iter_lt_value c a z x) by done.
  apply (staker_le_trans x y z).
Qed.

(** An iterator that stands at [v] and has [r] to come. *)
Definition stands (i : I) (vr : Staker * list Staker) : Prop :=
  it_Value i = Some vr.1 ∧ yields i vr.2 ∧ StronglySorted staker_le (vr.1 :: vr.2).

Definition items (vr : Staker * list Staker) : list Staker := vr.1 :: vr.2.

Lemma stands_positioned h vrs : Forall2 stands h vrs → Forall positioned h.
Proof. induction 1 as [|i vr h vrs (Hv&_)]; constructor; [by eexists|done]. Qed.

Lemma stands_perm h h' vrs : Forall2 stands h vrs → h' ≡ₚ h → ∃ vrs', Forall2 stands h' vrs' ∧ vrs' ≡ₚ vrs.
Proof.
  intros Hs Hp. destruct (Permutation_Forall2 (symmetry Hp) Hs) as (vrs'&Hp'&Hs'). by exists vrs'.
Qed.

Lemma items_perm vrs vrs' : vrs ≡ₚ vrs' → (vrs ≫= items) ≡ₚ (vrs' ≫= items).
Proof. intros Hp. by rewrite Hp. Qed.

(** The root of the heap stands at a least staker. *)
Lemma root_least c h v r vrs x :
  Forall2 stands (c :: h) ((v, r) :: vrs) → is_heap iter_lt (c :: h) → x ∈ r ++ (vrs ≫= items) → staker_le v x.
Proof.
  intros Hs Hh Hx. pose proof (stands_positioned _ _ Hs) as HP. apply Forall2_cons in Hs as [(Hv&_&Hr) Hs]. simpl in Hv, Hr.
  apply elem_of_app in Hx as [Hx|Hx].
  { apply StronglySorted_cons in Hr as [Hr _]. by eapply (Forall_forall (staker_le v) r). }
  apply list_elem_of_bind in Hx as ([v' r']&Hx&Hin).
  apply list_elem_of_lookup in Hin as [k Hk]. destruct (Forall2_lookup_r _ _ _ _ _ Hs Hk) as (c'&Hc'&Hv'&_&Hr'). simpl in *.
  assert (staker_le v v') as Hvv'.
  { pose proof (heap_root positioned iter_lt iter_lt_asym iter_le_trans (c :: h) c c' HP Hh) as Hroot.
    rewrite (iter_lt_value c' c v' v) in Hroot by done. apply Hroot; [done|]. right. by eapply list_elem_of_lookup_2. }
  apply elem_of_cons in Hx as [->|Hx]; [done|]. etrans; [done|]. apply StronglySorted_cons in Hr' as [Hr' _].
  by eapply (Forall_forall (staker_le v') r').
Qed.

(** The iterator after a call of [Next] that has moved the root. *)
Lemma merged_run N c h v r vrs :
  (length (r ++ (vrs ≫= items)) < N)%nat →
  Forall2 stands (c :: h) ((v, r) :: vrs) → is_heap iter_lt (c :: h) →
  ∃ out, yields (mkMergedIterator true (c :: h)) out ∧ out ≡ₚ r ++ (vrs ≫= items) ∧
    StronglySorted staker_le (v :: out).
Proof.
  revert c h v r vrs. induction N as [|N IH]; intros c h v r vrs HN Hs Hh; [lia|].
  assert (∀ x, x ∈ r ++ (vrs ≫= items) → staker_le v x) as Hleast by (intros x; by apply (root_least c h)).
  assert (∀ out, out ≡ₚ r ++ (vrs ≫= items) → StronglySorted staker_le out → StronglySorted staker_le (v :: out)) as Hcons.
  { intros out Hp Hso. constructor; [done|]. apply Forall_forall. intros x Hx. apply Hleast. by rewrite <-Hp. }
  (* what follows a call that leaves the heap [h'] *)
  assert (∀ h' vrs', Forall2 stands h' vrs' → is_heap iter_lt h' → (vrs' ≫= items) ≡ₚ r ++ (vrs ≫= items) →
    it_Next (mkMergedIterator true (c :: h)) = Some (bool_decide (0 < length h')%nat, mkMergedIterator true h') →
    ∃ out, yields (mkMergedIterator true (c :: h)) out ∧ out ≡ₚ r ++ (vrs ≫= items) ∧
      StronglySorted staker_le (v :: out)) as Hstep.
  { intros [|c' h'] vrs' Hs' Hh' Hp Hn.
    - apply Forall2_nil_inv_l in Hs' as ->. simpl in Hp. exists []. split_and!; [by eapply yields_nil|done|]. by apply Hcons; [|constructor].
    - destruct vrs' as [|[v' r'] vrs']; [by apply Forall2_cons_nil_inv in Hs'|]. rewrite bind_cons in Hp. simpl in Hp.
      destruct (IH c' h' v' r' vrs') as (out&Hy&Hpo&Hso); [apply Permutation_length in Hp; simpl in Hp; lia|done..|].
      assert (v' :: out ≡ₚ r ++ (vrs ≫= items)) as Hp' by (rewrite Hpo; done).
      exists (v' :: out). split_and!; [|done|by apply Hcons].
      eapply yields_cons; [exact Hn| |exact Hy]. apply Forall2_cons in Hs' as [(Hv'&_) _]. exact Hv'. }
  pose proof (Forall2_cons_1 _ _ _ _ _ Hs) as [(Hv&Hy&Hr) Hs'].  simpl in Hv, Hy, Hr.
  inversion Hy as [c' Hn Hnil|c' x r' Hn Hvx Hy' Hcr]; subst.
  - destruct (heap_Pop_root_spec merged_Less positioned iter_lt merged_Less_total iter_lt_asym iter_le_trans
      (it_Release c') h) as (h'&Hpop&Hp&Hh'); [by apply (stands_positioned _ vrs)|intros p q; by apply (is_heap_replace iter_lt c)|].
    destruct (stands_perm h h' vrs Hs' Hp) as (vrs'&Hsv&Hpv). apply (Hstep h' vrs' Hsv Hh'); [by rewrite (items_perm _ _ Hpv)|].
    simpl. unfold merged_Next. simpl. rewrite Hn. simpl. by rewrite Hpop.
  - assert (Forall2 stands (c' :: h) ((x, r') :: vrs)) as Hs1.
    { constructor; [|done]. split_and!; [done..|]. by apply StronglySorted_cons in Hr as [_ ?]. }
    destruct (heap_Fix_root_spec merged_Less positioned iter_lt merged_Less_total iter_lt_asym iter_le_trans
      c' h) as (h'&Hfix&Hp&Hh'); [by apply (stands_positioned _ _ Hs1)|intros p q; by apply (is_heap_replace iter_lt c)|].
    destruct (stands_perm (c' :: h) h' _ Hs1 Hp) as (vrs'&Hsv&Hpv). apply (Hstep h' vrs' Hsv Hh'); [by rewrite (items_perm _ _ Hpv)|].
    simpl. unfold merged_Next. simpl. rewrite Hn. simpl. rewrite Hfix. simpl.
    rewrite bool_decide_eq_true_2; [done|]. rewrite Hp. simpl. lia.
Qed.

Definition yields_sorted (i : I) (l : list Staker) : Prop := yields i l ∧ StronglySorted staker_le l.

(** The last iterator takes the place of the exhausted one. *)
Lemma take_last {A} (done : list A) t ts z :
  take (length (done ++ t :: ts ++ [z]) - 1) (<[length done := z]> (done ++ t :: ts ++ [z])) = done ++ z :: ts ∧
  (done ++ t :: ts ++ [z]) !! (length (done ++ t :: ts ++ [z]) - 1)%nat = Some z.
Proof.
  assert (length (done ++ t :: ts ++ [z]) - 1 = length (done ++ t :: ts))%nat as ->.
  { rewrite !length_app. simpl. rewrite length_app. simpl. lia. }
  split.
  - rewrite insert_app_r_alt by lia. rewrite Nat.sub_diag. simpl.
    replace (done ++ z :: ts ++ [z]) with ((done ++ z :: ts) ++ [z]) by (by rewrite <-app_assoc).
    rewrite take_app_length'; [done|]. rewrite !length_app. done.
  - replace (done ++ t :: ts ++ [z]) with ((done ++ t :: ts) ++ [z]) by (by rewrite <-app_assoc).
    rewrite lookup_app_r, Nat.sub_diag by lia. done.
Qed.

Lemma drop_exhausted_spec fuel done todo vrs ls :
  Forall2 stands done vrs → Forall2 yields_sorted todo ls → (length todo < fuel)%nat →
  ∃ h vrs', drop_exhausted fuel (length done) (done ++ todo) = Some h ∧ Forall2 stands h vrs' ∧
    (vrs' ≫= items) ≡ₚ (vrs ≫= items) ++ mjoin ls.
Proof.
  revert done todo vrs ls. induction fuel as [|fuel IH]; intros done todo vrs ls Hd Ht Hf; [lia|]. cbn [drop_exhausted].
  destruct Ht as [|t l ts ls [Hy Hso] Ht].
  { rewrite app_nil_r, lookup_ge_None_2 by lia. exists done, vrs. split_and!; [done..|]. simpl. by rewrite app_nil_r. }
  rewrite list_lookup_middle by done. inversion Hy as [t' Hn Hnil|t' x r Hn Hv Hy' Hcr]; subst; rewrite Hn; cbn [mbind option_bind].
  - destruct ts as [|z ts' _] using rev_ind.
    + apply Forall2_nil_inv_l in Ht as ->. rewrite length_app. simpl. replace (length done + 1 - 1)%nat with (length done) by lia.
      rewrite list_lookup_middle by done. cbn [mbind option_bind]. rewrite insert_app_r_alt, Nat.sub_diag by lia. simpl.
      rewrite take_app_length. destruct fuel as [|fuel]; [simpl in Hf; lia|]. cbn [drop_exhausted]. rewrite lookup_ge_None_2 by lia.
      exists done, vrs. split_and!; [done..|]. by rewrite app_nil_r.
    + apply Forall2_app_inv_l in Ht as (ls'&lz&Ht&Hz&->). apply Forall2_cons_inv_l in Hz as (lz'&?&Hz&->%Forall2_nil_inv_l&->).
      destruct (take_last done t ts' z) as [Htake Hlast]. rewrite Hlast. cbn [mbind option_bind]. rewrite Htake.
      destruct (IH done (z :: ts') vrs (lz' :: ls')) as (h&vrs'&->&Hs&Hp); [done|by constructor| |].
      { simpl in *. rewrite length_app in Hf. simpl in Hf. lia. }
      exists h, vrs'. split_and!; [done..|]. rewrite Hp. f_equiv. simpl. rewrite join_app. simpl. rewrite app_nil_r.
      apply Permutation_app_comm.
  - rewrite insert_app_r_alt, Nat.sub_diag by lia. simpl.
    destruct (IH (done ++ [t']) ts (vrs ++ [(x, r)]) ls) as (h&vrs'&Hh&Hs&Hp).
    + apply Forall2_app; [done|]. constructor; [|done]. done.
    + done.
    + simpl in Hf. lia.
    + rewrite length_app in Hh. simpl in Hh. rewrite Nat.add_1_r, <-app_assoc in Hh. exists h, vrs'. split_and!; [done..|].
      rewrite Hp, bind_app. simpl. rewrite app_nil_r, <-app_assoc. done.
Qed.

(** The merged iterator yields everything in order. *)
Lemma merged_yields its ls :
  Forall2 yields_sorted its ls →
  ∃ m out, NewMergedIterator its = Some m ∧ yields m out ∧ out ≡ₚ mjoin ls ∧ StronglySorted staker_le out.
Proof.
  intros Hy. unfold NewMergedIterator.
  destruct (drop_exhausted_spec (S (length its)) [] its [] ls) as (h&vrs&Hd&Hs&Hp); [constructor|done|lia|].
  change (drop_exhausted (S (length its)) 0 its = Some h) in Hd. rewrite Hd. cbn [mbind option_bind].
  destruct (heap_Init_spec merged_Less positioned iter_lt merged_Less_total iter_lt_asym iter_le_trans h) as (h'&->&Hph&Hh');
    [by apply (stands_positioned _ vrs)|]. cbn [mbind option_bind].
  destruct (stands_perm h h' vrs Hs Hph) as (vrs'&Hs'&Hpv). rewrite <-(items_perm _ _ Hpv) in Hp. simpl in Hp.
  exists (mkMergedIterator false h'). destruct h' as [|c h'].
  - apply Forall2_nil_inv_l in Hs' as ->. exists []. split_and!; [done|by eapply yields_nil|done|constructor].
  - apply Forall2_cons_inv_l in Hs' as ([v r]&vrs1&Hv&Hs'&->).
    destruct (merged_run (S (length (r ++ (vrs1 ≫= items)))) c h' v r vrs1) as (out&Ho&Hpo&Hso); [lia|by constructor|done|].
    exists (v :: out). split_and!; [done| |by rewrite Hpo, <-Hp|done].
    eapply yields_cons; [reflexivity| |exact Ho]. apply Hv.
Qed.

(** Whatever [Less] answers, [down] permutes the first [n] elements. *)
Lemma heap_down_from_perm (less : I → I → option bool) fuel l i n i' l' :
  heap_down_from less fuel l i n = Some (i', l') → l' ≡ₚ l ∧ ∀ p, (n ≤ p)%nat → l' !! p = l !! p.
Proof.
  revert l i. induction fuel as [|fuel IH]; intros l i; [done|]. cbn [heap_down_from]. case_decide as Hj1; [by intros [= <- <-]|].
  intros (j&Hj&(b&_&Hr)%bind_Some)%bind_Some. destruct b; [|by injection Hr as <- <-].
  assert (j < n)%nat as Hjn.
  { case_decide; [apply bind_Some in Hj as ([]&_&[= <-])|injection Hj as <-]; lia. }
  apply bind_Some in Hr as (l1&Hsw&Hr). apply IH in Hr as [Hp Ht]. unfold heap_Swap in Hsw.
  apply bind_Some in Hsw as (x&Hx&(y&Hy&[= <-])%bind_Some). split.
  - rewrite Hp. by apply Permutation_insert_swap.
  - intros p Hpn. rewrite Ht, !list_lookup_insert_ne by lia. done.
Qed.

Lemma heap_down_perm (less : I → I → option bool) l i n b l' :
  heap_down less l i n = Some (b, l') → l' ≡ₚ l ∧ ∀ p, (n ≤ p)%nat → l' !! p = l !! p.
Proof. unfold heap_down. intros ([i' l1]&Hd&[= <- <-])%bind_Some. by eapply heap_down_from_perm. Qed.

Lemma heap_Pop_perm (less : I → I → option bool) x l y l' : heap_Pop less (x :: l) = Some (y, l') → l' ≡ₚ l.
Proof.
  unfold heap_Pop. replace (length (x :: l) - 1)%nat with (length l) by (simpl; lia).
  intros (l1&Hsw&([b l2]&Hd&(z&Hz&[= -> <-])%bind_Some)%bind_Some)%bind_Some.
  apply heap_down_perm in Hd as [Hd Ht]. unfold heap_Swap in Hsw.
  apply bind_Some in Hsw as (a&[= <-]&(w&Hw&[= <-])%bind_Some).
  assert (l2 ≡ₚ x :: l) as Hd' by (etrans; [exact Hd|by apply (Permutation_insert_swap (x :: l) 0 (length l))]).
  clear Hd. rename Hd' into Hd. rewrite Ht, list_lookup_insert_eq in Hz.
  2:{ simpl. rewrite ?length_insert. simpl. lia. } 2:{ lia. } injection Hz as <-.
  assert (l2 = take (length l) l2 ++ [x]) as Hsplit.
  { rewrite <-(take_drop (length l) l2) at 1. f_equal. apply list_eq. intros [|k]; rewrite lookup_drop, ?Nat.add_0_r.
    - rewrite Ht by lia. rewrite list_lookup_insert_eq; [done|]. simpl. rewrite ?length_insert. simpl. lia.
    - rewrite lookup_ge_None_2; [done|]. rewrite Hd. simpl. lia. }
  apply (Permutation_cons_inv (a := x)). rewrite <-Hd. rewrite Hsplit at 2. apply Permutation_cons_append.
Qed.

#[export] Instance merged_laws : StakerIteratorLaws (mergedIterator I).
Proof.
  split. intros [[] [|c h]] i'; simpl; [done| |done|]; unfold merged_Next; simpl; [|intros [= <-]; simpl; lia].
  intros ([[] c']&Hn&Hr)%bind_Some.
  - apply bind_Some in Hr as (h'&Hf&[= <-]). apply it_left_Next in Hn. simpl. unfold heap_Fix in Hf.
    apply bind_Some in Hf as ([b l1]&[Hd _]%heap_down_perm&Hf).
    assert (h' = l1) as -> by (destruct b; [by injection Hf as <-|unfold heap_up in Hf; simpl in Hf; by injection Hf as <-]).
    rewrite Hd. simpl. lia.
  - apply bind_Some in Hr as ([x h']&Hp%heap_Pop_perm&[= _ <-]). simpl. rewrite Hp. lia.
Qed.
End merged.
