(* ===== verification/StakerChanges.v ===== *)
(** The changes of the set of current stakers, in the order in which they will
    happen (src/vms/platformvm/state/staker_diff_iterator.go).

    A heap over the iterator of current stakers takes in the pending stakers that
    have become current, to be removed later.  The iterator yields every addition
    and every removal, by time, additions first. *)

From S2P Require Import Prelude Ids NodeBag Database GoHeap Stakers StakerIters.

(** ** mutableStakerIterator *)

Definition staker_less (x y : Staker) : option bool := Some (Staker_Less x y).

Record mutableStakerIterator (I : Type) := mkMutableStakerIterator {
  mu_iteratorExhausted : bool;
  mu_iterator : I;
  mu_heap : list Staker;
}.
Arguments mkMutableStakerIterator {I} _ _ _.
Arguments mu_iteratorExhausted {I} _.
Arguments mu_iterator {I} _.
Arguments mu_heap {I} _.

Section mutable.
Context {I : Type} `{StakerIterator I}.

Definition newMutableStakerIterator (iterator : I) : option (mutableStakerIterator I) :=
  '(more, iterator) ← it_Next iterator;
  Some (mkMutableStakerIterator (negb more) iterator []).

Definition mutable_Add (staker : Staker) (it : mutableStakerIterator I) : option (mutableStakerIterator I) :=
  heap ← heap_Push staker_less (mu_heap it) staker;
  Some (mkMutableStakerIterator (mu_iteratorExhausted it) (mu_iterator it) heap).

Definition mutable_Value (it : mutableStakerIterator I) : option Staker := mu_heap it !! 0%nat.

Definition mutable_Next (it : mutableStakerIterator I) : option (bool * mutableStakerIterator I) :=
  heap ← (if decide (0 < length (mu_heap it))%nat then '(_, heap) ← heap_Pop staker_less (mu_heap it); Some heap else Some (mu_heap it));
  let it := mkMutableStakerIterator (mu_iteratorExhausted it) (mu_iterator it) heap in
  if mu_iteratorExhausted it then Some (bool_decide (0 < length heap)%nat, it)
  else
    nextIteratorStaker ← it_Value (mu_iterator it);
    if match heap !! 0%nat with None => true | Some root => Staker_Less nextIteratorStaker root end then
      it ← mutable_Add nextIteratorStaker it;
      '(more, iterator) ← it_Next (mu_iterator it);
      Some (true, mkMutableStakerIterator (negb more) iterator (mu_heap it))
    else Some (true, it).

Definition mutable_Release (it : mutableStakerIterator I) : mutableStakerIterator I :=
  mkMutableStakerIterator true (it_Release (mu_iterator it)) [].
End mutable.

(** ** stakerDiffIterator *)

Record stakerDiffIterator (I J : Type) := mkStakerDiffIterator {
  di_currentIteratorExhausted : bool;
  di_currentIterator : mutableStakerIterator I;
  di_pendingIteratorExhausted : bool;
  di_pendingIterator : J;
  di_modifiedStaker : option Staker;
  di_isAdded : bool;
}.
Arguments mkStakerDiffIterator {I J} _ _ _ _ _ _.
Arguments di_currentIteratorExhausted {I J} _.
Arguments di_currentIterator {I J} _.
Arguments di_pendingIteratorExhausted {I J} _.
Arguments di_pendingIterator {I J} _.
Arguments di_modifiedStaker {I J} _.
Arguments di_isAdded {I J} _.

(** The staker when it becomes current. *)
Definition to_current (staker : Staker) : option Staker :=
  priority ← PendingToCurrentPriorities !! Z.to_nat (st_Priority staker);
  Some (mkStaker (st_TxID staker) (st_NodeID staker) (st_SubnetID staker) (st_Weight staker) (st_StartTime staker)
    (st_EndTime staker) (st_PotentialReward staker) (st_EndTime staker) priority).

Section diff.
Context {I J : Type} `{StakerIterator I, StakerIterator J}.

Definition NewStakerDiffIterator (currentIterator : I) (pendingIterator : J) : option (stakerDiffIterator I J) :=
  mutableCurrentIterator ← newMutableStakerIterator currentIterator;
  '(moreCurrent, mutableCurrentIterator) ← mutable_Next mutableCurrentIterator;
  '(morePending, pendingIterator) ← it_Next pendingIterator;
  Some (mkStakerDiffIterator (negb moreCurrent) mutableCurrentIterator (negb morePending) pendingIterator None false).

Definition advanceCurrent (it : stakerDiffIterator I J) : option (stakerDiffIterator I J) :=
  modifiedStaker ← mutable_Value (di_currentIterator it);
  '(more, currentIterator) ← mutable_Next (di_currentIterator it);
  Some (mkStakerDiffIterator (negb more) currentIterator (di_pendingIteratorExhausted it) (di_pendingIterator it)
    (Some modifiedStaker) false).

Definition advancePending (it : stakerDiffIterator I J) : option (stakerDiffIterator I J) :=
  modifiedStaker ← it_Value (di_pendingIterator it);
  '(more, pendingIterator) ← it_Next (di_pendingIterator it);
  toRemove ← to_current modifiedStaker;
  currentIterator ← mutable_Add toRemove (di_currentIterator it);
  Some (mkStakerDiffIterator false currentIterator (negb more) pendingIterator (Some modifiedStaker) true).

Definition diffIterator_Next (it : stakerDiffIterator I J) : option (bool * stakerDiffIterator I J) :=
  if di_currentIteratorExhausted it && di_pendingIteratorExhausted it then Some (false, it)
  else
    it ← (if di_currentIteratorExhausted it then advancePending it
          else if di_pendingIteratorExhausted it then advanceCurrent it
          else
            nextStakerRemoved ← mutable_Value (di_currentIterator it);
            nextStakerAdded ← it_Value (di_pendingIterator it);
            if decide (st_EndTime nextStakerRemoved < st_StartTime nextStakerAdded) then advanceCurrent it
            else advancePending it);
    Some (true, it).

Definition diffIterator_Value (it : stakerDiffIterator I J) : option Staker * bool := (di_modifiedStaker it, di_isAdded it).
End diff.

(** ** The heap of the current stakers *)

Section mutable_spec.
Context {I : Type} `{StakerIterator I}.

Definition all_stakers (x : Staker) : Prop := True.

Lemma staker_less_total x y : all_stakers x → all_stakers y → ∃ b : bool, staker_less x y = Some b ∧ (b = true ↔ staker_lt x y).
Proof. intros _ _. by exists (Staker_Less x y). Qed.
Lemma staker_heap_asym x y : all_stakers x → all_stakers y → staker_lt x y → ¬ staker_lt y x.
Proof. intros _ _. apply staker_lt_asym. Qed.
Lemma staker_heap_trans x y z : all_stakers x → all_stakers y → all_stakers z → ¬ staker_lt y x → ¬ staker_lt z y → ¬ staker_lt z x.
Proof. intros _ _ _. apply (staker_le_trans x y z). Qed.
Lemma all_all l : Forall all_stakers l.
Proof. by apply Forall_forall. Qed.

Lemma staker_root l x y : is_heap staker_lt l → l !! 0%nat = Some x → y ∈ l → staker_le x y.
Proof. intros Hh. apply (heap_root all_stakers staker_lt staker_heap_asym staker_heap_trans l x y (all_all l) Hh). Qed.

(** The iterator stands at the root of its heap and has the stakers of [M], in any order, to go. *)
Definition holds (it : mutableStakerIterator I) (M : list Staker) : Prop :=
  is_heap staker_lt (mu_heap it) ∧
  if mu_iteratorExhausted it then M ≡ₚ mu_heap it
  else ∃ w r x, it_Value (mu_iterator it) = Some w ∧ yields (mu_iterator it) r ∧ StronglySorted staker_le (w :: r) ∧
    mu_heap it !! 0%nat = Some x ∧ staker_le x w ∧ M ≡ₚ mu_heap it ++ w :: r.

Lemma holds_perm it M M' : holds it M → M ≡ₚ M' → holds it M'.
Proof.
  intros [Hh Hi] HP. split; [done|]. destruct (mu_iteratorExhausted it); [by rewrite <-HP|].
  destruct Hi as (w&r&x&?&?&?&?&?&HM). exists w, r, x. split_and!; [done..|]. by rewrite <-HP.
Qed.

Lemma holds_Value it M : holds it M →
  match mutable_Value it with
  | Some x => x ∈ M ∧ ∀ y, y ∈ M → staker_le x y
  | None => M = []
  end.
Proof.
  unfold mutable_Value. intros [Hh Hi]. destruct (mu_iteratorExhausted it).
  - destruct (mu_heap it !! 0%nat) as [x|] eqn:Ex.
    + split; [rewrite Hi; by eapply list_elem_of_lookup_2|]. intros y. rewrite Hi. by apply staker_root.
    + destruct (mu_heap it); [|done]. by apply Permutation_nil_r.
  - destruct Hi as (w&r&x&Hw&Hy&Hs&Hx&Hxw&HM). rewrite Hx. split; [rewrite HM; apply elem_of_app; left; by eapply list_elem_of_lookup_2|].
    intros y. rewrite HM, elem_of_app, elem_of_cons. intros [Hin|[->|Hin]]; [by apply (staker_root (mu_heap it))|done|].
    etrans; [done|]. apply StronglySorted_cons in Hs as [Hs _]. by eapply (Forall_forall (staker_le w) r).
Qed.

Lemma holds_Add it M s : holds it M → ∃ it', mutable_Add s it = Some it' ∧ holds it' (s :: M).
Proof.
  intros [Hh Hi]. unfold mutable_Add.
  destruct (heap_Push_spec staker_less all_stakers staker_lt staker_less_total staker_heap_asym staker_heap_trans (mu_heap it) s)
    as (h&->&Hp&Hh'); [apply all_all|done..|]. cbn [mbind option_bind]. eexists. split; [reflexivity|]. split; [done|]. simpl.
  destruct (mu_iteratorExhausted it); [by rewrite Hi|].
  destruct Hi as (w&r&x&Hw&Hy&Hs&Hx&Hxw&HM).
  destruct (h !! 0%nat) as [x'|] eqn:Ex'; [|apply lookup_ge_None_1 in Ex'; rewrite Hp in Ex'; simpl in Ex'; lia].
  exists w, r, x'. split_and!; [done..| |by rewrite HM, Hp].
  etrans; [|done]. apply (staker_root h); [done..|]. rewrite Hp. right. by eapply list_elem_of_lookup_2.
Qed.

(** The next staker of the iterator goes into the heap when it is due. *)
Lemma holds_refill exhausted it h M w r :
  is_heap staker_lt h → exhausted = false → it_Value it = Some w → yields it r → StronglySorted staker_le (w :: r) → M ≡ₚ h ++ w :: r →
  ∃ it', (if match h !! 0%nat with None => true | Some root => Staker_Less w root end then
      it' ← mutable_Add w (mkMutableStakerIterator exhausted it h);
      '(more, iterator) ← it_Next (mu_iterator it');
      Some (true, mkMutableStakerIterator (negb more) iterator (mu_heap it'))
    else Some (true, mkMutableStakerIterator exhausted it h)) = Some (true, it') ∧ holds it' M.
Proof.
  intros Hh -> Hw Hy Hs HM. unfold mutable_Add. cbn [mu_heap mu_iterator mu_iteratorExhausted].
  destruct (match h !! 0%nat with None => true | Some root => Staker_Less w root end) eqn:Ed.
  - destruct (heap_Push_spec staker_less all_stakers staker_lt staker_less_total staker_heap_asym staker_heap_trans h w)
      as (h'&->&Hp&Hh'); [apply all_all|done..|]. cbn [mbind option_bind mu_heap mu_iterator].
    assert (M ≡ₚ h' ++ r) as HM' by (rewrite HM, Hp; by rewrite <-Permutation_middle).
    inversion Hy as [i' Hn Hnil|i' w' r' Hn Hv' Hy' Hcr]; subst; rewrite Hn; cbn [mbind option_bind mu_heap].
    + eexists. split; [reflexivity|]. split; [done|]. simpl. by rewrite HM', app_nil_r.
    + eexists. split; [reflexivity|]. split; [done|]. cbn [negb mu_iteratorExhausted mu_iterator mu_heap].
      destruct (h' !! 0%nat) as [x|] eqn:Ex; [|apply lookup_ge_None_1 in Ex; rewrite Hp in Ex; simpl in Ex; lia].
      exists w', r', x. apply StronglySorted_cons in Hs as [Hs1 Hs2]. split_and!; try done.
      etrans; [apply (staker_root h' x w); [done..|rewrite Hp; by left]|]. by apply Forall_cons in Hs1 as [? _].
  - eexists. split; [reflexivity|]. split; [done|]. simpl. destruct (h !! 0%nat) as [x|] eqn:Ex; [|done].
    exists w, r, x. split_and!; try done. unfold staker_le, staker_lt. by rewrite Ed.
Qed.

Lemma holds_Next it M x :
  holds it M → mutable_Value it = Some x →
  ∃ M' it', mutable_Next it = Some (bool_decide (M' ≠ []), it') ∧ holds it' M' ∧ M ≡ₚ x :: M'.
Proof.
  unfold mutable_Value, mutable_Next. intros [Hh Hi] Hx. destruct (mu_heap it) as [|x0 h0] eqn:Eh; [done|]. injection Hx as ->.
  rewrite decide_True by (simpl; lia).
  destruct (heap_Pop_root_spec staker_less all_stakers staker_lt staker_less_total staker_heap_asym staker_heap_trans x h0)
    as (h&->&Hp&Hh'); [apply all_all|intros p q; by apply is_heap_tail|]. cbn [mbind option_bind].
  cbn [mu_iteratorExhausted mu_iterator]. destruct (mu_iteratorExhausted it) eqn:Ee.
  - exists h, (mkMutableStakerIterator true (mu_iterator it) h). split; [|split; [split; [exact Hh'|]|by rewrite Hi, Hp]].
    + f_equal. f_equal. apply bool_decide_ext. destruct h; simpl; split; try done; lia.
    + by simpl.
  - destruct Hi as (w&r&x0&Hw&Hy&Hs&_&_&HM). rewrite Hw. cbn [mbind option_bind].
    destruct (holds_refill false (mu_iterator it) h (h ++ w :: r) w r) as (it'&Hit'&Hholds); try done.
    exists (h ++ w :: r), it'. split_and!; [|done|by rewrite HM, <-Hp].
    rewrite bool_decide_eq_true_2; [exact Hit'|]. by destruct h.
Qed.

Lemma holds_start i l :
  yields i l → StronglySorted staker_le l →
  ∃ it it', newMutableStakerIterator i = Some it ∧ mutable_Next it = Some (bool_decide (l ≠ []), it') ∧ holds it' l.
Proof.
  intros Hy Hs. unfold newMutableStakerIterator.
  inversion Hy as [i' Hn Hnil|i' w r Hn Hv Hy' Hcr]; subst; rewrite Hn; cbn [mbind option_bind].
  - exists (mkMutableStakerIterator true i' []), (mkMutableStakerIterator true i' []). split; [done|]. split; [done|].
    split; [|by simpl]. intros p c Hc. simpl. lia.
  - eexists. unfold mutable_Next. cbn [mu_heap mu_iterator mu_iteratorExhausted negb].
    destruct (holds_refill false i' [] (w :: r) w r) as (it'&Hit'&Hholds); try done.
    exists it'. split; [reflexivity|]. split; [|done]. rewrite decide_False by (simpl; lia).
    cbn [mbind option_bind mu_iteratorExhausted mu_heap mu_iterator]. rewrite Hv. cbn [mbind option_bind].
    rewrite bool_decide_eq_true_2 by done. exact Hit'.
Qed.
End mutable_spec.

(** ** The changes *)

Definition promote (p : Staker) : Staker := default p (to_current p).

(** [M] are the current stakers and [P] the pending ones, in order: the changes from
    here on.  The least current staker is removed when it ends before the next
    pending one starts, otherwise that one becomes current. *)
Inductive staker_run : list Staker → list Staker → list (Staker * bool) → Prop :=
  | run_done : staker_run [] [] []
  | run_remove x M M' P evs :
      M ≡ₚ x :: M' → (∀ y, y ∈ M' → staker_le x y) → (∀ p, p ∈ P → st_EndTime x < st_StartTime p) →
      staker_run M' P evs → staker_run M P ((x, false) :: evs)
  | run_add p P M evs :
      (∀ y, y ∈ M → st_StartTime p ≤ st_EndTime y) →
      staker_run (promote p :: M) P evs → staker_run M (p :: P) ((p, true) :: evs).

Definition current_ok (s : Staker) : Prop := st_NextTime s = st_EndTime s.
Definition pending_ok (s : Staker) : Prop :=
  st_NextTime s = st_StartTime s ∧ st_StartTime s ≤ st_EndTime s ∧ 1 ≤ st_Priority s ≤ 4.

Lemma to_current_promote p : pending_ok p → to_current p = Some (promote p).
Proof.
  intros (_&_&Hp). unfold promote, to_current.
  assert (is_Some (PendingToCurrentPriorities !! Z.to_nat (st_Priority p))) as [q Hq] by (apply lookup_lt_is_Some; simpl; lia).
  by rewrite Hq.
Qed.

Lemma promote_current p : pending_ok p → current_ok (promote p).
Proof.
  intros Hp. pose proof (to_current_promote p Hp) as Ht. unfold to_current in Ht. apply bind_Some in Ht as (q&_&Ht).
  injection Ht as Ht. rewrite <-Ht. done.
Qed.

Lemma promote_fields p :
  st_Weight (promote p) = st_Weight p ∧ st_EndTime (promote p) = st_EndTime p ∧ st_TxID (promote p) = st_TxID p.
Proof. unfold promote, to_current. by destruct (PendingToCurrentPriorities !! _). Qed.

Lemma staker_le_time x y : staker_le x y → st_NextTime x ≤ st_NextTime y.
Proof. unfold staker_le. rewrite staker_lt_iff. lia. Qed.

Section changes.
Context {I J : Type} `{StakerIterator I, StakerIterator J}.
Implicit Types it : stakerDiffIterator I J.

Inductive changes it : list (Staker * bool) → Prop :=
  | changes_nil it' : diffIterator_Next it = Some (false, it') → changes it []
  | changes_cons it' x b evs : diffIterator_Next it = Some (true, it') → diffIterator_Value it' = (Some x, b) →
      changes it' evs → changes it ((x, b) :: evs).

(** The pending iterator stands at the first staker of [P]. *)
Definition pending_holds (exhausted : bool) (j : J) (P : list Staker) : Prop :=
  if exhausted then P = []
  else ∃ p P', it_Value j = Some p ∧ yields j P' ∧ P = p :: P'.

Record at_state it M P : Prop := mkAtState {
  as_current : holds (di_currentIterator it) M;
  as_exhausted : di_currentIteratorExhausted it = bool_decide (M = []);
  as_pending : pending_holds (di_pendingIteratorExhausted it) (di_pendingIterator it) P;
  as_current_ok : Forall current_ok M;
  as_pending_ok : Forall pending_ok P;
  as_sorted : StronglySorted staker_le P;
}.

Lemma advanceCurrent_spec it M P x :
  at_state it M P → mutable_Value (di_currentIterator it) = Some x →
  ∃ it' M', advanceCurrent it = Some it' ∧ diffIterator_Value it' = (Some x, false) ∧ at_state it' M' P ∧ M ≡ₚ x :: M'.
Proof.
  intros [Hc He Hp Hco Hpo Hso] Hx. unfold advanceCurrent. rewrite Hx. cbn [mbind option_bind].
  destruct (holds_Next _ M x Hc Hx) as (M'&c'&->&Hc'&HM). cbn [mbind option_bind].
  eexists _, M'. split; [reflexivity|]. split; [done|]. split; [|done]. split; simpl; try done.
  - rewrite <-bool_decide_not. apply bool_decide_ext. destruct M'; naive_solver.
  - rewrite HM in Hco. by apply Forall_cons in Hco as [_ ?].
Qed.

Lemma advancePending_spec it M P p P' :
  at_state it M P → di_pendingIteratorExhausted it = false → P = p :: P' →
  ∃ it', advancePending it = Some it' ∧ diffIterator_Value it' = (Some p, true) ∧ at_state it' (promote p :: M) P'.
Proof.
  intros [Hc He Hp Hco Hpo Hso] Hex ->. unfold advancePending, pending_holds in *. rewrite Hex in Hp.
  destruct Hp as (p0&P0&Hv&Hy&[= <- <-]). rewrite Hv. cbn [mbind option_bind].
  apply Forall_cons in Hpo as [Hpp Hpo]. apply StronglySorted_cons in Hso as [_ Hso].
  destruct (holds_Add _ M (promote p) Hc) as (c'&Hadd&Hc').
  inversion Hy as [j' Hn Hnil|j' p' P1 Hn Hv' Hy' Hcr]; subst; rewrite Hn; cbn [mbind option_bind];
    rewrite (to_current_promote p Hpp); cbn [mbind option_bind]; rewrite Hadd; cbn [mbind option_bind];
    (eexists; split; [reflexivity|]; split; [done|]); split; simpl; try done.
  - constructor; [by apply promote_current|done].
  - by exists p', P1.
  - constructor; [by apply promote_current|done].
Qed.

Lemma diff_changes N it M P :
  (length M + 2 * length P < N)%nat → at_state it M P → ∃ evs, changes it evs ∧ staker_run M P evs.
Proof.
  revert it M P. induction N as [|N IH]; intros it M P HN Hat; [lia|].
  pose proof Hat as [Hc He Hp Hco Hpo Hso]. pose proof (holds_Value _ _ Hc) as Hval.
  (* the two ways to go on *)
  assert (∀ x, mutable_Value (di_currentIterator it) = Some x → (∀ p, p ∈ P → st_EndTime x < st_StartTime p) →
    diffIterator_Next it = (it' ← advanceCurrent it; Some (true, it')) → ∃ evs, changes it evs ∧ staker_run M P evs) as Hremove.
  { intros x Hx HP Hn. rewrite Hx in Hval. destruct Hval as [Hin Hleast].
    destruct (advanceCurrent_spec it M P x Hat Hx) as (it'&M'&Hadv&Hv&Hat'&HM). rewrite Hadv in Hn. cbn [mbind option_bind] in Hn.
    destruct (IH it' M' P) as (evs&Hch&Hrun); [rewrite HM in HN; simpl in HN; lia|done|].
    exists ((x, false) :: evs). split; [by eapply changes_cons|]. apply (run_remove x M M'); try done.
    intros y Hy. apply Hleast. rewrite HM. by right. }
  assert (∀ p P', P = p :: P' → di_pendingIteratorExhausted it = false → (∀ y, y ∈ M → st_StartTime p ≤ st_EndTime y) →
    diffIterator_Next it = (it' ← advancePending it; Some (true, it')) → ∃ evs, changes it evs ∧ staker_run M P evs) as Hadd.
  { intros p P' HPp Hex HM Hn. destruct (advancePending_spec it M P p P' Hat Hex HPp) as (it'&Hadv&Hv&Hat').
    rewrite Hadv in Hn. cbn [mbind option_bind] in Hn. subst P.
    destruct (IH it' (promote p :: M) P') as (evs&Hch&Hrun); [simpl in *; lia|done|].
    exists ((p, true) :: evs). split; [by eapply changes_cons|]. by apply run_add. }
  unfold diffIterator_Next in *. unfold pending_holds in Hp. rewrite He in *.
  destruct (mutable_Value (di_currentIterator it)) as [x|] eqn:Ex.
  - destruct Hval as [Hin Hleast]. assert (M ≠ []) as HMn by (intros ->; by apply not_elem_of_nil in Hin).
    rewrite bool_decide_eq_false_2 in * by done. simpl in *. destruct (di_pendingIteratorExhausted it) eqn:Ee.
    + apply (Hremove x); [done| |done]. subst P. intros p Hpp. by apply not_elem_of_nil in Hpp.
    + destruct Hp as (p&P'&Hvp&Hyp&HPp). rewrite Hvp in *. cbn [mbind option_bind] in *.
      case_decide as Hlt.
      * apply (Hremove x); [done| |done]. subst P. intros q [->|Hq]%elem_of_cons; [done|].
        apply Forall_cons in Hpo as [(Hpt&_) Hpo]. apply StronglySorted_cons in Hso as [Hso _].
        pose proof (proj1 (Forall_forall _ _) Hso q Hq) as Hle%staker_le_time.
        pose proof (proj1 (Forall_forall _ _) Hpo q Hq) as (Hqt&_). lia.
      * apply (Hadd p P'); [done..| |done]. intros y Hy. pose proof (Hleast y Hy) as Hle%staker_le_time.
        pose proof (proj1 (Forall_forall _ _) Hco y Hy) as Hyt. pose proof (proj1 (Forall_forall _ _) Hco x Hin) as Hxt.
        unfold current_ok in *. lia.
  - subst M. rewrite bool_decide_eq_true_2 in * by done. simpl in *. destruct (di_pendingIteratorExhausted it) eqn:Ee.
    + subst P. exists []. split; [|constructor]. eapply changes_nil. unfold diffIterator_Next. rewrite He, Ee. done.
    + destruct Hp as (p&P'&Hvp&Hyp&HPp). apply (Hadd p P'); [done..| |done]. intros y Hy. by apply not_elem_of_nil in Hy.
Qed.

(** The iterator yields a run of the changes. *)
Lemma NewStakerDiffIterator_changes (i : I) (j : J) M P :
  yields i M → yields j P → StronglySorted staker_le M → StronglySorted staker_le P → Forall current_ok M → Forall pending_ok P →
  ∃ it evs, NewStakerDiffIterator i j = Some it ∧ changes it evs ∧ staker_run M P evs.
Proof.
  intros Hi Hj HM HP HMo HPo. unfold NewStakerDiffIterator.
  destruct (holds_start i M Hi HM) as (m&m'&->&Hn&Hm). cbn [mbind option_bind]. rewrite Hn. cbn [mbind option_bind].
  assert (∃ b j', it_Next j = Some (b, j') ∧ pending_holds (negb b) j' P) as (b&j'&->&Hj').
  { inversion Hj as [j' Hnj Hnil|j' p P1 Hnj Hv' Hy' Hcr]; subst; eexists _, j'; (split; [exact Hnj|]); [done|].
    by exists p, P1. }
  cbn [mbind option_bind].
  set (it := mkStakerDiffIterator _ _ _ _ _ _). destruct (diff_changes (S (length M + 2 * length P)) it M P) as (evs&Hch&Hrun); [lia| |].
  - split; try done. simpl. rewrite <-bool_decide_not. apply bool_decide_ext. destruct M; naive_solver.
  - by exists it, evs.
Qed.
End changes.

(** *** The order of the changes *)

(** The time of a change: additions of a time come before its removals, and further
    ties are broken by the order of stakers. *)
Definition change_le (a b : Staker * bool) : Prop :=
  st_NextTime a.1 < st_NextTime b.1 ∨
  st_NextTime a.1 = st_NextTime b.1 ∧ (a.2 = true ∧ b.2 = false ∨ a.2 = b.2 ∧ staker_le a.1 b.1).

(** Every current staker is removed; every pending one is added and removed. *)
Definition all_changes (M P : list Staker) : list (Staker * bool) :=
  ((λ s, (s, false)) <$> M) ++ (P ≫= λ p, [(p, true); (promote p, false)]).

Lemma staker_run_perm M P evs : staker_run M P evs → evs ≡ₚ all_changes M P.
Proof.
  unfold all_changes. induction 1 as [|x M M' P evs HM _ _ _ IH|p P M evs _ _ IH]; [done|by rewrite HM, IH|].
  rewrite IH, bind_cons. simpl. by rewrite <-!Permutation_middle.
Qed.

Lemma staker_run_sorted M P evs :
  staker_run M P evs → Forall current_ok M → Forall pending_ok P → StronglySorted staker_le P → StronglySorted change_le evs.
Proof.
  induction 1 as [|x M M' P evs HM Hleast HP Hrun IH|p P M evs HM Hrun IH]; intros HMo HPo Hso; [constructor|..].
  - rewrite HM in HMo. apply Forall_cons in HMo as [Hx HMo]. constructor; [by apply IH|].
    apply Forall_forall. intros e He. rewrite (staker_run_perm _ _ _ Hrun) in He.
    apply elem_of_app in He as [(y&->&Hy)%list_elem_of_fmap|(q&Hq&Hqp)%list_elem_of_bind].
    + pose proof (Hleast y Hy) as Hle. pose proof (staker_le_time _ _ Hle). unfold change_le. simpl.
      destruct (decide (st_NextTime x = st_NextTime y)); [right; auto|left; lia].
    + pose proof (HP q Hqp). pose proof (proj1 (Forall_forall _ _) HPo q Hqp) as Hq'. pose proof (promote_current q Hq') as Hcq.
      destruct (promote_fields q) as (_&Hend&_). destruct Hq' as (?&?&?). unfold current_ok in *. left.
      apply elem_of_cons in Hq as [->|[->|[]%not_elem_of_nil]%elem_of_cons]; simpl; lia.
  - apply Forall_cons in HPo as [Hp HPo]. apply StronglySorted_cons in Hso as [Hle Hso].
    pose proof (promote_current p Hp) as Hcp. destruct (promote_fields p) as (_&Hend&_).
    constructor; [apply IH; [by constructor|done..]|]. destruct Hp as (Hpt&Hpe&_).
    apply Forall_forall. intros e He. rewrite (staker_run_perm _ _ _ Hrun) in He.
    apply elem_of_app in He as [(y&->&Hy)%list_elem_of_fmap|(q&Hq&Hqp)%list_elem_of_bind].
    + assert (st_NextTime p ≤ st_NextTime y) as Hle'.
      { apply elem_of_cons in Hy as [->|Hy]; [unfold current_ok in Hcp; lia|].
        pose proof (HM y Hy). pose proof (proj1 (Forall_forall _ _) HMo y Hy) as Hyo. unfold current_ok in Hyo. lia. }
      unfold change_le. simpl. destruct (decide (st_NextTime p = st_NextTime y)); [right; auto|left; lia].
    + pose proof (proj1 (Forall_forall _ _) Hle q Hqp) as Hpq. pose proof (staker_le_time _ _ Hpq).
      pose proof (proj1 (Forall_forall _ _) HPo q Hqp) as Hq'. pose proof (promote_current q Hq') as Hcq.
      destruct (promote_fields q) as (_&Hendq&_). destruct Hq' as (?&?&?). unfold current_ok in *. unfold change_le.
      apply elem_of_cons in Hq as [->|[->|[]%not_elem_of_nil]%elem_of_cons]; simpl.
      * destruct (decide (st_NextTime p = st_NextTime q)); [right; auto|left; lia].
      * destruct (decide (st_NextTime p = st_NextTime (promote q))); [right; auto|left; lia].
Qed.
