(* ===== verification/StakerSets.v ===== *)
(** Sets of stakers as the rest of the node sees them: one validator per subnet and
    node, delegators, and everybody in the order in which they move.

    [StakerSet] is the interface that a state and a difference over it share,
    [StakerSetLaws] what it promises; the base of the state keeps the promise. *)

From S2P Require Import Prelude Ids NodeBag Database GoHeap Stakers StakerIters.

(** ** The interface *)

(** A getter may dereference nil, or fail. *)
Class StakerSet (T : Type) : Type := {
  ss_iter : Type;
  #[global] ss_iterator :: StakerIterator ss_iter;
  GetValidator : T → ID → NodeID → result state_error Staker;
  GetDelegatorIterator : T → ID → NodeID → option (result state_error ss_iter);
  GetStakerIterator : T → option (result state_error ss_iter);
}.

Definition found (o : option Staker) : result state_error Staker :=
  match o with Some x => Ok x | None => Err ErrNotFound end.

(** The slot of a staker. *)
Definition in_slot (s : ID) (n : NodeID) (x : Staker) : Prop := st_SubnetID x = s ∧ st_NodeID x = n.

#[export] Instance in_slot_dec s n x : Decision (in_slot s n x).
Proof. unfold in_slot. apply _. Defined.

Class StakerSetLaws (T : Type) `{!StakerSet T} : Type := {
  #[global] ss_iter_laws :: StakerIteratorLaws ss_iter;
  set_ok : T → Prop;
  validator_of : T → ID → NodeID → option Staker;
  is_delegator : T → Staker → Prop;
  set_slot t s n x : set_ok t → validator_of t s n = Some x → in_slot s n x;
  set_apart t x : set_ok t → is_delegator t x → validator_of t (st_SubnetID x) (st_NodeID x) ≠ Some x;
  set_unique t x y : set_ok t →
    is_delegator t x ∨ validator_of t (st_SubnetID x) (st_NodeID x) = Some x →
    is_delegator t y ∨ validator_of t (st_SubnetID y) (st_NodeID y) = Some y →
    st_TxID x = st_TxID y → x = y;
  GetValidator_spec t s n : set_ok t → GetValidator t s n = found (validator_of t s n);
  GetDelegatorIterator_spec t s n : set_ok t → ∃ it l,
    GetDelegatorIterator t s n = Some (Ok it) ∧ yields it l ∧ StronglySorted staker_lt l ∧
    ∀ x, x ∈ l ↔ is_delegator t x ∧ in_slot s n x;
  GetStakerIterator_spec t : set_ok t → ∃ it l,
    GetStakerIterator t = Some (Ok it) ∧ yields it l ∧ StronglySorted staker_lt l ∧
    ∀ x, x ∈ l ↔ is_delegator t x ∨ validator_of t (st_SubnetID x) (st_NodeID x) = Some x;
}.

Definition member {T} `{StakerSetLaws T} (t : T) (x : Staker) : Prop :=
  is_delegator t x ∨ validator_of t (st_SubnetID x) (st_NodeID x) = Some x.

(** No staker of the set has the transaction. *)
Definition fresh {T} `{StakerSetLaws T} (t : T) (i : ID) : Prop := ∀ x, member t x → st_TxID x ≠ i.

(** ** Nested maps *)

Section nested.
Context {V : Type}.
Implicit Types m : gmap ID (gmap NodeID V).

Definition entry m (s : ID) (n : NodeID) : option V := m !! s ≫= λ k, k !! n.

Lemma entry_put m s n x s' n' :
  entry (put_entry m s n x) s' n' = if decide (s' = s ∧ n' = n) then Some x else entry m s' n'.
Proof.
  unfold entry, put_entry. rewrite lookup_insert. destruct (decide (s = s')) as [->|Hs]; simpl.
  - rewrite lookup_insert. destruct (decide (n = n')) as [->|Hn]; [by rewrite decide_True|].
    rewrite decide_False by naive_solver. by destruct (m !! s').
  - by rewrite decide_False by naive_solver.
Qed.

Lemma get_or_create_entry zero m s n : get_or_create zero m s n = default zero (entry m s n).
Proof. unfold get_or_create, entry. by destruct (m !! s). Qed.

Lemma entry_empty s n : entry (∅ : gmap ID (gmap NodeID V)) s n = None.
Proof. unfold entry. by rewrite lookup_empty. Qed.
End nested.

(** ** The base *)

Section base.
Context `{BTree, !BTreeLaws}.
Implicit Types (v : baseStakers) (x y : Staker) (s : ID) (n : NodeID).

#[export] Instance base_StakerSet : StakerSet baseStakers := {|
  ss_iter := treeIterator;
  GetValidator := base_GetValidator;
  GetDelegatorIterator v s n := Some (Ok (base_GetDelegatorIterator v s n));
  GetStakerIterator v := Some (Ok (base_GetStakerIterator v));
|}.

Definition base_validator v s n : option Staker := entry (b_validators v) s n ≫= bs_validator.
Definition base_delegators v s n : list Staker := tree_items (entry (b_validators v) s n ≫= bs_delegators).
Definition base_delegator v x : Prop := x ∈ base_delegators v (st_SubnetID x) (st_NodeID x).

Record base_ok v : Prop := mkBaseOk {
  bo_slot s n x : base_validator v s n = Some x → in_slot s n x;
  bo_delegators s n x : x ∈ base_delegators v s n → in_slot s n x;
  bo_stakers x : x ∈ bt_Ascend (b_stakers v) ↔ base_delegator v x ∨ base_validator v (st_SubnetID x) (st_NodeID x) = Some x;
  bo_apart x : base_delegator v x → base_validator v (st_SubnetID x) (st_NodeID x) ≠ Some x;
  bo_unique x y : x ∈ bt_Ascend (b_stakers v) → y ∈ bt_Ascend (b_stakers v) → st_TxID x = st_TxID y → x = y;
}.

Lemma base_GetValidator_eq v s n : base_GetValidator v s n = found (base_validator v s n).
Proof.
  unfold base_GetValidator, base_validator, entry. destruct (b_validators v !! s) as [m|]; [|done]. simpl.
  destruct (m !! n) as [b|]; [|done]. simpl. by destruct (bs_validator b).
Qed.

Lemma base_GetDelegatorIterator_yields v s n : yields (base_GetDelegatorIterator v s n) (base_delegators v s n).
Proof.
  unfold base_GetDelegatorIterator, base_delegators, entry. destruct (b_validators v !! s) as [m|]; simpl; [|by eapply yields_nil].
  destruct (m !! n) as [b|]; simpl; [apply NewTreeIterator_yields|by eapply yields_nil].
Qed.

Lemma tree_items_sorted t : StronglySorted staker_lt (tree_items t).
Proof. destruct t; [apply bt_sorted|constructor]. Qed.

#[export] Instance base_laws : StakerSetLaws baseStakers.
Proof.
  refine {| set_ok := base_ok; validator_of := base_validator; is_delegator := base_delegator |}.
  - intros t s n x Hok. apply Hok.
  - intros t x Hok. apply Hok.
  - intros t x y Hok Hx Hy. apply (bo_unique t Hok); by apply (bo_stakers t Hok).
  - intros t s n _. apply base_GetValidator_eq.
  - intros t s n Hok. exists (base_GetDelegatorIterator t s n), (base_delegators t s n). split_and!.
    + done.
    + apply base_GetDelegatorIterator_yields.
    + apply tree_items_sorted.
    + intros x. unfold base_delegator. split.
      * intros Hx. pose proof (bo_delegators t Hok s n x Hx) as Hs. split; [|done]. by destruct Hs as [-> ->].
      * by intros [Hx [<- <-]].
  - intros t Hok. exists (base_GetStakerIterator t), (bt_Ascend (b_stakers t)). split_and!.
    + done.
    + apply (NewTreeIterator_yields (Some (b_stakers t))).
    + apply bt_sorted.
    + apply (bo_stakers t Hok).
Defined.

Lemma base_ok_new : base_ok newBaseStakers.
Proof.
  split; unfold base_delegator, base_delegators, base_validator, newBaseStakers; simpl; intros *; rewrite ?entry_empty, ?bt_New_items; simpl;
    rewrite ?elem_of_nil; naive_solver.
Qed.

(** *** Insertion into and deletion from the trees *)

Lemma fresh_insert x (t : btree) y :
  (∀ z, z ∈ bt_Ascend t → st_TxID z ≠ st_TxID x) → y ∈ bt_Ascend (bt_ReplaceOrInsert x t) ↔ y = x ∨ y ∈ bt_Ascend t.
Proof.
  intros Hf. rewrite bt_insert_items. split; [naive_solver|]. intros [->|Hy]; [by left|right]. split; [done|].
  intros (_&_&Hid)%same_item_iff. by apply (Hf y).
Qed.

Lemma unique_delete x (t : btree) y :
  (∀ z, z ∈ bt_Ascend t → st_TxID z = st_TxID x → z = x) → y ∈ bt_Ascend (bt_Delete x t) ↔ y ∈ bt_Ascend t ∧ y ≠ x.
Proof.
  intros Hu. rewrite bt_delete_items. split; intros [Hy Hne]; (split; [done|]).
  - intros ->. apply Hne. by apply same_item_iff.
  - intros (_&_&Hid)%same_item_iff. by apply Hne, Hu.
Qed.

(** *** The operations *)

(** A validator of a slot, or the delegators of a slot, are replaced. *)
Definition set_validator (f : ID → NodeID → option Staker) x (o : option Staker) s n : option Staker :=
  if decide (in_slot s n x) then o else f s n.

Lemma in_slot_self x : in_slot (st_SubnetID x) (st_NodeID x) x.
Proof. done. Qed.

Lemma pruneValidator_views m s n :
  is_Some (entry m s n) →
  ∃ m', pruneValidator m s n = Some m' ∧ ∀ s' n',
    (entry m' s' n' ≫= bs_validator) = (entry m s' n' ≫= bs_validator) ∧
    tree_items (entry m' s' n' ≫= bs_delegators) = tree_items (entry m s' n' ≫= bs_delegators).
Proof.
  intros [b Hb]. unfold pruneValidator. unfold entry in Hb. destruct (m !! s) as [k|] eqn:Ek; [|done]. simpl in Hb. simpl.
  rewrite Hb. simpl. case_decide as Hv; [by exists m|].
  destruct (match bs_delegators b with Some t => bool_decide (0 < bt_Len t)%nat | None => false end) eqn:Ed; [by exists m|].
  assert (tree_items (bs_delegators b) = []) as Hd.
  { destruct (bs_delegators b) as [t|]; [|done]. apply bool_decide_eq_false in Ed. simpl. rewrite bt_Len_items in Ed.
    destruct (bt_Ascend t); [done|]. simpl in Ed. lia. }
  assert (∀ m' s' n', (∀ s' n', entry m' s' n' = if decide (s' = s ∧ n' = n) then None else entry m s' n') →
    (entry m' s' n' ≫= bs_validator) = (entry m s' n' ≫= bs_validator) ∧
    tree_items (entry m' s' n' ≫= bs_delegators) = tree_items (entry m s' n' ≫= bs_delegators)) as Hview.
  { intros m' s' n' ->. case_decide as Hsn; [|done]. destruct Hsn as [-> ->]. unfold entry. rewrite Ek. simpl. rewrite Hb. simpl.
    by rewrite Hv, Hd. }
  eexists. split; [reflexivity|]. intros s' n'. apply Hview. clear s' n'. intros s' n'. unfold entry. case_decide as Hsz.
  - rewrite lookup_delete. destruct (decide (s = s')) as [<-|]; simpl; [|by rewrite decide_False by naive_solver].
    rewrite Ek. simpl. apply map_size_empty_inv in Hsz. destruct (decide (n' = n)) as [->|Hn]; [by rewrite decide_True|].
    rewrite decide_False by naive_solver. assert (delete n k !! n' = None) as Hk by (by rewrite Hsz, lookup_empty).
    by rewrite lookup_delete_ne in Hk by congruence.
  - rewrite lookup_insert. destruct (decide (s = s')) as [<-|]; simpl; [|by rewrite decide_False by naive_solver].
    rewrite Ek. simpl. rewrite lookup_delete. destruct (decide (n = n')) as [->|]; [by rewrite decide_True|].
    by rewrite decide_False by naive_solver.
Qed.

(** The views after a change of one entry. *)
Lemma put_entry_views m s n (b : baseStaker) s' n' :
  (entry (put_entry m s n b) s' n' ≫= bs_validator) =
    (if decide (s' = s ∧ n' = n) then bs_validator b else entry m s' n' ≫= bs_validator) ∧
  tree_items (entry (put_entry m s n b) s' n' ≫= bs_delegators) =
    (if decide (s' = s ∧ n' = n) then tree_items (bs_delegators b) else tree_items (entry m s' n' ≫= bs_delegators)).
Proof. rewrite entry_put. by case_decide. Qed.

Lemma slot_iff s n x : in_slot s n x ↔ s = st_SubnetID x ∧ n = st_NodeID x.
Proof. unfold in_slot. naive_solver. Qed.

Lemma getOrCreate_delegators v s n : tree_items (bs_delegators (getOrCreateValidator v s n)) = base_delegators v s n.
Proof. unfold getOrCreateValidator, base_delegators. rewrite get_or_create_entry. by destruct (entry _ s n). Qed.
Lemma getOrCreate_validator v s n : bs_validator (getOrCreateValidator v s n) = base_validator v s n.
Proof. unfold getOrCreateValidator, base_validator. rewrite get_or_create_entry. by destruct (entry _ s n). Qed.

(** What an operation on the base does to the views. *)
Record base_change v v' (V : ID → NodeID → option Staker) (D : Staker → Prop) (A : Staker → Prop) : Prop := mkBaseChange {
  bc_validator s n : base_validator v' s n = V s n;
  bc_delegators s n y : y ∈ base_delegators v' s n ↔ in_slot s n y ∧ D y;
  bc_stakers y : y ∈ bt_Ascend (b_stakers v') ↔ A y;
}.

Lemma base_change_ok v v' V D A :
  base_change v v' V D A →
  (∀ s n x, V s n = Some x → in_slot s n x) →
  (∀ x, A x ↔ D x ∨ V (st_SubnetID x) (st_NodeID x) = Some x) →
  (∀ x, D x → V (st_SubnetID x) (st_NodeID x) ≠ Some x) →
  (∀ x y, A x → A y → st_TxID x = st_TxID y → x = y) →
  base_ok v' ∧ (∀ s n, base_validator v' s n = V s n) ∧ (∀ y, base_delegator v' y ↔ D y).
Proof.
  intros [Hv Hd Ha] Hs Hm Hap Hu.
  assert (∀ y, base_delegator v' y ↔ D y) as Hdel.
  { intros y. unfold base_delegator. rewrite Hd. split; [by intros [_ ?]|]. by split. }
  split; [|done]. split.
  - intros s n x. rewrite Hv. apply Hs.
  - intros s n x. rewrite Hd. by intros [? _].
  - intros x. by rewrite Ha, Hdel, Hv.
  - intros x. rewrite Hdel, Hv. apply Hap.
  - intros x y. rewrite !Ha. apply Hu.
Qed.

Lemma delegators_iff v s n y : base_ok v → y ∈ base_delegators v s n ↔ in_slot s n y ∧ base_delegator v y.
Proof.
  intros Hok. unfold base_delegator. split; [|by intros [[<- <-] ?]]. intros Hy.
  pose proof (bo_delegators v Hok s n y Hy) as Hs. split; [done|]. by destruct Hs as [-> ->].
Qed.

Lemma fresh_stakers v x y : base_ok v → fresh v (st_TxID x) → y ∈ bt_Ascend (b_stakers v) → st_TxID y ≠ st_TxID x.
Proof. intros Hok Hf Hy. apply Hf. by apply (bo_stakers v Hok). Qed.

Lemma base_PutValidator_spec x v :
  base_ok v → fresh v (st_TxID x) → base_validator v (st_SubnetID x) (st_NodeID x) = None →
  let v' := base_PutValidator x v in
  base_ok v' ∧ (∀ s n, base_validator v' s n = set_validator (base_validator v) x (Some x) s n) ∧
  (∀ y, base_delegator v' y ↔ base_delegator v y).
Proof.
  intros Hok Hf Hnone v'.
  apply (base_change_ok v v' _ _ (λ y, y = x ∨ y ∈ bt_Ascend (b_stakers v))).
  - split.
    + intros s n. unfold base_validator, v', base_PutValidator. simpl. rewrite (proj1 (put_entry_views _ _ _ _ s n)). simpl.
      unfold set_validator. apply decide_ext, symmetry, slot_iff.
    + intros s n y. unfold base_delegators, v', base_PutValidator. simpl. rewrite (proj2 (put_entry_views _ _ _ _ s n)). simpl.
      rewrite getOrCreate_delegators. case_decide as Hsn; [destruct Hsn as [-> ->]|]; by apply delegators_iff.
    + intros y. apply fresh_insert. intros z. by apply fresh_stakers.
  - intros s n y. unfold set_validator. case_decide as Hsl; [by intros [= <-]|apply (bo_slot v Hok)].
  - intros y. rewrite (bo_stakers v Hok). unfold set_validator. case_decide as Hsl.
    + split.
      * intros [->|[?|Hy]]; [by right|by left|]. apply slot_iff in Hsl as [Hs Hn]. congruence.
      * intros [?|[= <-]]; [by right; left|by left].
    + split; [|by right]. intros [->|?]; [|done]. by destruct Hsl.
  - intros y Hy. unfold set_validator. case_decide as Hsl; [|by apply (bo_apart v Hok)]. intros [= <-].
    apply (Hf x); [by left|done].
  - intros y z [->|Hy] [->|Hz] Hid; [done|..|by apply (bo_unique v Hok)].
    + by apply symmetry, (fresh_stakers v x z) in Hid.
    + by apply (fresh_stakers v x y) in Hid.
Qed.

(** A validator that is there is deleted; one that was never put leaves nothing behind. *)
Lemma base_DeleteValidator_spec x v :
  base_ok v →
  base_validator v (st_SubnetID x) (st_NodeID x) = Some x ∨
    base_validator v (st_SubnetID x) (st_NodeID x) = None ∧ fresh v (st_TxID x) →
  ∃ v', base_DeleteValidator x v = Some v' ∧ base_ok v' ∧
    (∀ s n, base_validator v' s n = set_validator (base_validator v) x None s n) ∧
    (∀ y, base_delegator v' y ↔ base_delegator v y).
Proof.
  intros Hok Hx. unfold base_DeleteValidator.
  set (m := put_entry (b_validators v) _ _ _). destruct (pruneValidator_views m (st_SubnetID x) (st_NodeID x)) as (m'&->&Hm').
  { unfold m. rewrite entry_put, decide_True by done. by eexists. }
  cbn [mbind option_bind]. eexists. split; [reflexivity|]. set (v' := mkBaseStakers _ _ _).
  assert (∀ y, y ∈ bt_Ascend (b_stakers v) → st_TxID y = st_TxID x → y = x) as Hu.
  { intros y Hy Hid. destruct Hx as [Hx|[_ Hf]]; [|by apply (fresh_stakers v x y) in Hid].
    apply (bo_unique v Hok); [done| |done]. apply (bo_stakers v Hok). by right. }
  apply (base_change_ok v v' _ _ (λ y, y ∈ bt_Ascend (b_stakers v) ∧ y ≠ x)).
  - split.
    + intros s n. unfold base_validator, v'. simpl. rewrite (proj1 (Hm' s n)). unfold m. rewrite (proj1 (put_entry_views _ _ _ _ s n)).
      unfold set_validator. apply decide_ext, symmetry, slot_iff.
    + intros s n y. unfold base_delegators, v'. simpl. rewrite (proj2 (Hm' s n)). unfold m. rewrite (proj2 (put_entry_views _ _ _ _ s n)).
      simpl. rewrite getOrCreate_delegators. case_decide as Hsn; [destruct Hsn as [-> ->]|]; by apply delegators_iff.
    + intros y. by apply unique_delete.
  - intros s n y. unfold set_validator. case_decide; [done|apply (bo_slot v Hok)].
  - intros y. rewrite (bo_stakers v Hok). unfold set_validator. case_decide as Hsl.
    + apply slot_iff in Hsl as [Hs Hn]. split.
      * intros [[?|Hy] Hne]; [by left|]. rewrite Hs, Hn in Hy. destruct Hx as [?|[? _]]; congruence.
      * intros [Hy|?]; [|done]. split; [by left|]. intros ->.
        destruct Hx as [?|[_ Hf]]; [by apply (bo_apart v Hok x)|by apply (Hf x); [left|]].
    + split; [by intros [? _]|]. intros Hy. split; [done|]. intros ->. by destruct Hsl.
  - intros y Hy. unfold set_validator. case_decide; [done|]. by apply (bo_apart v Hok).
  - intros y z [Hy _] [Hz _]. by apply (bo_unique v Hok).
Qed.

Lemma base_PutDelegator_spec x v :
  base_ok v → fresh v (st_TxID x) →
  let v' := base_PutDelegator x v in
  base_ok v' ∧ (∀ s n, base_validator v' s n = base_validator v s n) ∧
  (∀ y, base_delegator v' y ↔ y = x ∨ base_delegator v y).
Proof.
  intros Hok Hf v'.
  assert (∀ z, z ∈ base_delegators v (st_SubnetID x) (st_NodeID x) → st_TxID z ≠ st_TxID x) as Hfd.
  { intros z Hz. apply delegators_iff in Hz as [_ Hz]; [|done]. apply Hf. by left. }
  apply (base_change_ok v v' _ _ (λ y, y = x ∨ y ∈ bt_Ascend (b_stakers v))).
  - split.
    + intros s n. unfold base_validator, v', base_PutDelegator. simpl. rewrite (proj1 (put_entry_views _ _ _ _ s n)). simpl.
      rewrite getOrCreate_validator. by case_decide as Hsn; [destruct Hsn as [-> ->]|].
    + intros s n y. unfold base_delegators, v', base_PutDelegator. simpl. rewrite (proj2 (put_entry_views _ _ _ _ s n)). simpl.
      rewrite <-getOrCreate_delegators in Hfd.
      case_decide as Hsn; [destruct Hsn as [-> ->]|].
      * rewrite fresh_insert; [|by destruct (bs_delegators (getOrCreateValidator v _ _)); simpl; rewrite ?bt_New_items].
        assert (bt_Ascend (default bt_New (bs_delegators (getOrCreateValidator v (st_SubnetID x) (st_NodeID x)))) =
          base_delegators v (st_SubnetID x) (st_NodeID x)) as ->.
        { rewrite <-getOrCreate_delegators. destruct (bs_delegators _); simpl; [done|by rewrite bt_New_items]. }
        rewrite delegators_iff by done. split; [intros [->|[? ?]]; [by split; [|left]|by split; [|right]]|]. intros [? [->|?]]; [by left|by right].
      * change (y ∈ base_delegators v s n ↔ in_slot s n y ∧ (y = x ∨ base_delegator v y)). rewrite delegators_iff by done.
        split; [by intros [? ?]; auto|]. intros [Hs [->|?]]; [|done]. by apply slot_iff in Hs.
    + intros y. apply fresh_insert. intros z. by apply fresh_stakers.
  - intros s n y. apply (bo_slot v Hok).
  - intros y. rewrite (bo_stakers v Hok). naive_solver.
  - intros y [->|Hy]; [|by apply (bo_apart v Hok)]. intros Hv. apply (Hf x); [by right|done].
  - intros y z [->|Hy] [->|Hz] Hid; [done|..|by apply (bo_unique v Hok)].
    + by apply symmetry, (fresh_stakers v x z) in Hid.
    + by apply (fresh_stakers v x y) in Hid.
Qed.

Lemma base_DeleteDelegator_spec x v :
  base_ok v → base_delegator v x →
  ∃ v', base_DeleteDelegator x v = Some v' ∧ base_ok v' ∧
    (∀ s n, base_validator v' s n = base_validator v s n) ∧
    (∀ y, base_delegator v' y ↔ base_delegator v y ∧ y ≠ x).
Proof.
  intros Hok Hx. unfold base_DeleteDelegator.
  set (m := put_entry (b_validators v) _ _ _). destruct (pruneValidator_views m (st_SubnetID x) (st_NodeID x)) as (m'&->&Hm').
  { unfold m. rewrite entry_put, decide_True by done. by eexists. }
  cbn [mbind option_bind]. eexists. split; [reflexivity|]. set (v' := mkBaseStakers _ _ _).
  assert (x ∈ bt_Ascend (b_stakers v)) as Hxin by (apply (bo_stakers v Hok); by left).
  apply (base_change_ok v v' _ _ (λ y, y ∈ bt_Ascend (b_stakers v) ∧ y ≠ x)).
  - split.
    + intros s n. unfold base_validator, v'. simpl. rewrite (proj1 (Hm' s n)). unfold m. rewrite (proj1 (put_entry_views _ _ _ _ s n)).
      simpl. rewrite getOrCreate_validator. by case_decide as Hsn; [destruct Hsn as [-> ->]|].
    + intros s n y. unfold base_delegators, v'. simpl. rewrite (proj2 (Hm' s n)). unfold m. rewrite (proj2 (put_entry_views _ _ _ _ s n)).
      simpl. case_decide as Hsn.
      * destruct Hsn as [-> ->].
        assert (y ∈ tree_items (bt_Delete x <$> bs_delegators (getOrCreateValidator v (st_SubnetID x) (st_NodeID x))) ↔
          y ∈ base_delegators v (st_SubnetID x) (st_NodeID x) ∧ y ≠ x) as ->.
        { rewrite <-getOrCreate_delegators. destruct (bs_delegators _) as [t|] eqn:Et; simpl.
          - apply unique_delete. intros z Hz Hid. assert (base_delegator v z) as Hzd.
            { apply (delegators_iff v (st_SubnetID x) (st_NodeID x) z Hok). rewrite <-getOrCreate_delegators, Et. done. }
            apply (bo_unique v Hok); [by apply (bo_stakers v Hok); left|done..].
          - split; [by intros ?%not_elem_of_nil|by intros [?%not_elem_of_nil _]]. }
        rewrite delegators_iff by done. naive_solver.
      * change (y ∈ base_delegators v s n ↔ in_slot s n y ∧ base_delegator v y ∧ y ≠ x). rewrite delegators_iff by done.
        split; [|naive_solver]. intros [Hs Hy]. split_and!; [done..|]. intros ->. by apply slot_iff in Hs.
    + intros y. apply unique_delete. intros z Hz Hid. by apply (bo_unique v Hok).
  - intros s n y. apply (bo_slot v Hok).
  - intros y. rewrite (bo_stakers v Hok). split.
    + intros [[?|?] ?]; auto.
    + intros [[? ?]|Hy]; [auto|]. split; [by right|]. intros ->. by apply (bo_apart v Hok x).
  - intros y [Hy _]. by apply (bo_apart v Hok).
  - intros y z [Hy _] [Hz _]. by apply (bo_unique v Hok).
Qed.
End base.
