(* ===== verification/StakerDiff.v ===== *)
(** A difference over a set of stakers (src/vms/platformvm/state: the methods of
    diff.go over diffStakers of stakers.go).

    [diff_ok] relates what a difference has recorded to the set of its parent; every
    operation keeps it, under the contract of its caller: transactions are new, a
    slot is free before a validator takes it, and what is deleted is there.  Seen
    through its iterators a difference is again a set of stakers. *)

From S2P Require Import Prelude Ids NodeBag Database GoHeap Stakers StakerIters StakerSets.

Section diff.
Context {T : Type} `{StakerSet T} `{BTree}.

(** The parent is none when its state is not known any more. *)
Record stakers_diff := mkStakersDiff { sd_diffs : diffStakers; sd_parent : option T }.

Definition sd_GetValidator (d : stakers_diff) (subnetID : ID) (nodeID : NodeID) : result state_error Staker :=
  match diff_GetValidator (sd_diffs d) subnetID nodeID with
  | (newValidator, true) => match newValidator with None => Err ErrNotFound | Some x => Ok x end
  | (_, false) =>
      match sd_parent d with
      | None => Err ErrMissingParentState
      | Some parentState => GetValidator parentState subnetID nodeID
      end
  end.

Definition sd_GetDelegatorIterator (d : stakers_diff) (subnetID : ID) (nodeID : NodeID)
  : option (result state_error (maskedIterator (mergedIterator (ss_iter + treeIterator)))) :=
  match sd_parent d with
  | None => Some (Err ErrMissingParentState)
  | Some parentState =>
      r ← GetDelegatorIterator parentState subnetID nodeID;
      match r with
      | Err e => Some (Err e)
      | Ok parentIterator => it ← diff_GetDelegatorIterator parentIterator (sd_diffs d) subnetID nodeID; Some (Ok it)
      end
  end.

Definition sd_GetStakerIterator (d : stakers_diff)
  : option (result state_error (maskedIterator (mergedIterator (ss_iter + treeIterator)))) :=
  match sd_parent d with
  | None => Some (Err ErrMissingParentState)
  | Some parentState =>
      r ← GetStakerIterator parentState;
      match r with
      | Err e => Some (Err e)
      | Ok parentIterator => it ← diff_GetStakerIterator parentIterator (sd_diffs d); Some (Ok it)
      end
  end.

#[export] Instance sd_StakerSet : StakerSet stakers_diff := {|
  ss_iter := maskedIterator (mergedIterator (ss_iter + treeIterator));
  GetValidator := sd_GetValidator;
  GetDelegatorIterator := sd_GetDelegatorIterator;
  GetStakerIterator := sd_GetStakerIterator;
|}.

Definition sd_map (f : diffStakers → diffStakers) (d : stakers_diff) : stakers_diff := mkStakersDiff (f (sd_diffs d)) (sd_parent d).
End diff.

Arguments stakers_diff T {_}.

(** ** What a difference has recorded *)

Section inv.
Context {T : Type} `{StakerSetLaws T} `{BTree, !BTreeLaws}.
Implicit Types (p : T) (d : diffStakers) (x y : Staker) (s : ID) (n : NodeID) (i : ID).

Definition dent d s n : diffValidator := default diffValidator_zero (entry (ds_validatorDiffs d) s n).
Definition added d s n : list Staker := tree_items (dv_addedDelegators (dent d s n)).
Definition all_added d : list Staker := tree_items (ds_addedStakers d).

(** The set that the difference stands for. *)
Definition dval p d s n : option Staker :=
  if dv_validatorModified (dent d s n) then
    if dv_validatorDeleted (dent d s n) then None else dv_validator (dent d s n)
  else validator_of p s n.
Definition candidate p d x : Prop := is_delegator p x ∨ x ∈ added d (st_SubnetID x) (st_NodeID x).
Definition ddel p d x : Prop :=
  candidate p d x ∧ dv_deletedDelegators (dent d (st_SubnetID x) (st_NodeID x)) !! st_TxID x = None.

Record diff_ok p d : Prop := mkDiffOk {
  do_slot s n x : x ∈ added d s n → in_slot s n x;
  do_added s n x : x ∈ added d s n → x ∈ all_added d;
  do_fresh x : x ∈ all_added d → fresh p (st_TxID x);
  do_unique x y : x ∈ all_added d → y ∈ all_added d → st_TxID x = st_TxID y → x = y;
  do_put s n : dv_validatorModified (dent d s n) = true → dv_validatorDeleted (dent d s n) = false →
    ∃ x, dv_validator (dent d s n) = Some x ∧ in_slot s n x ∧ x ∈ all_added d ∧
      ds_deletedStakers d !! st_TxID x = None ∧ x ∉ added d s n;
  do_all x : x ∈ all_added d →
    x ∈ added d (st_SubnetID x) (st_NodeID x) ∨ dval p d (st_SubnetID x) (st_NodeID x) = Some x ∨
    is_Some (ds_deletedStakers d !! st_TxID x);
  do_candidate x : candidate p d x →
    ds_deletedStakers d !! st_TxID x = None ↔ dv_deletedDelegators (dent d (st_SubnetID x) (st_NodeID x)) !! st_TxID x = None;
  do_parent s n x : validator_of p s n = Some x →
    ds_deletedStakers d !! st_TxID x = None ↔ dv_validatorModified (dent d s n) = false;
  do_deleted i : is_Some (ds_deletedStakers d !! i) → ∃ x, st_TxID x = i ∧ (x ∈ all_added d ∨ member p x);
  do_deleted_delegator s n i y : dv_deletedDelegators (dent d s n) !! i = Some y →
    is_Some (ds_deletedStakers d !! i) ∧ st_TxID y = i ∧ in_slot s n y ∧ candidate p d y;
}.

(** The staker is from a transaction that neither the parent nor the difference has seen. *)
Definition new_tx p d x : Prop := fresh p (st_TxID x) ∧ ∀ y, y ∈ all_added d → st_TxID y ≠ st_TxID x.

Lemma diff_ok_zero p : diff_ok p diffStakers_zero.
Proof.
  assert (∀ s n, dent diffStakers_zero s n = diffValidator_zero) as Hd by (intros s n; unfold dent; simpl; by rewrite entry_empty).
  split; unfold all_added, candidate, dval, added; intros *; rewrite ?Hd; simpl; rewrite ?elem_of_nil, ?lookup_empty; try done.
Qed.

Lemma new_tx_deleted p d x : diff_ok p d → new_tx p d x → ds_deletedStakers d !! st_TxID x = None.
Proof.
  intros Hok [Hf Hn]. apply eq_None_not_Some. intros Hs. apply (do_deleted p d Hok) in Hs as (y&Hid&[Hy|Hy]).
  - by apply (Hn y).
  - by apply (Hf y).
Qed.

Lemma tree_insert_items x (t : option btree) y :
  (∀ z, z ∈ tree_items t → st_TxID z ≠ st_TxID x) →
  y ∈ bt_Ascend (bt_ReplaceOrInsert x (default bt_New t)) ↔ y = x ∨ y ∈ tree_items t.
Proof.
  intros Hf. rewrite fresh_insert; destruct t; simpl in *; rewrite ?bt_New_items; done.
Qed.

(** ** The validator of a slot *)

Lemma diff_GetValidator_eq p d s n :
  sd_GetValidator (mkStakersDiff d (Some p)) s n =
  if dv_validatorModified (dent d s n) then
    found (if dv_validatorDeleted (dent d s n) then None else dv_validator (dent d s n))
  else GetValidator p s n.
Proof.
  unfold sd_GetValidator, diff_GetValidator, dent, entry. simpl. destruct (ds_validatorDiffs d !! s) as [m|]; simpl; [|done].
  destruct (m !! n) as [e|]; simpl; [|done]. destruct (dv_validatorModified e); simpl; [|done].
  by destruct (dv_validatorDeleted e).
Qed.

Lemma dval_slot p d s n x : set_ok p → diff_ok p d → dval p d s n = Some x → in_slot s n x.
Proof.
  intros Hp Hok. unfold dval. destruct (dv_validatorModified _) eqn:Em; [|by apply set_slot].
  destruct (dv_validatorDeleted _) eqn:Ed; [done|]. intros Hx.
  destruct (do_put p d Hok s n Em Ed) as (y&Hy&Hs&_). rewrite Hx in Hy. by injection Hy as <-.
Qed.

(** A validator of the difference is new or from the parent. *)
Lemma dval_cases p d s n x : diff_ok p d → dval p d s n = Some x →
  dv_validatorModified (dent d s n) = true ∧ x ∈ all_added d ∧ ds_deletedStakers d !! st_TxID x = None ∧ x ∉ added d s n ∨
  dv_validatorModified (dent d s n) = false ∧ validator_of p s n = Some x.
Proof.
  intros Hok Hx. unfold dval in Hx. destruct (dv_validatorModified _) eqn:Em; [left|by right].
  destruct (dv_validatorDeleted _) eqn:Ed; [done|]. destruct (do_put p d Hok s n Em Ed) as (y&Hy&Hs&Ha&Hd&Hn).
  rewrite Hy in Hx. by injection Hx as <-.
Qed.

(** *** Transactions are unique *)

(** Everybody the difference knows. *)
Definition known p d x : Prop := member p x ∨ x ∈ all_added d.

Lemma known_unique p d x y : set_ok p → diff_ok p d → known p d x → known p d y → st_TxID x = st_TxID y → x = y.
Proof.
  intros Hp Hok [Hx|Hx] [Hy|Hy] Hid.
  - by apply (set_unique p).
  - by apply (do_fresh p d Hok y Hy x) in Hx.
  - by apply (do_fresh p d Hok x Hx y) in Hy.
  - by apply (do_unique p d Hok).
Qed.

Lemma candidate_known p d x : diff_ok p d → candidate p d x → known p d x.
Proof. intros Hok [?|?]; [by left; left|right]. by eapply do_added. Qed.

Lemma dval_known p d s n x : set_ok p → diff_ok p d → dval p d s n = Some x → known p d x.
Proof.
  intros Hp Hok Hx. destruct (dval_cases p d s n x Hok Hx) as [(_&?&_)|(_&Hv)]; [by right|]. left. right.
  by destruct (set_slot p s n x Hp Hv) as [-> ->].
Qed.

Lemma candidate_not_dval p d s n x y :
  set_ok p → diff_ok p d → candidate p d x → dval p d s n = Some y → st_TxID x ≠ st_TxID y.
Proof.
  intros Hp Hok Hx Hy Hid.
  assert (x = y) as -> by (apply (known_unique p d); eauto using candidate_known, dval_known).
  destruct (dval_slot p d s n y Hp Hok Hy) as [<- <-].
  destruct (dval_cases p d _ _ y Hok Hy) as [(_&Ha&_&Hn)|(_&Hv)], Hx as [Hx|Hx].
  - by apply (do_fresh p d Hok y Ha y); [left|].
  - done.
  - by apply (set_apart p y Hp).
  - apply (do_fresh p d Hok y (do_added p d Hok _ _ y Hx) y); [by right|done].
Qed.

Lemma candidate_not_parent p d s n x y :
  set_ok p → diff_ok p d → candidate p d x → validator_of p s n = Some y → st_TxID x ≠ st_TxID y.
Proof.
  intros Hp Hok Hx Hy Hid. destruct (set_slot p s n y Hp Hy) as [<- <-].
  assert (x = y) as -> by (apply (known_unique p d); [done..|by apply candidate_known|by left; right|done]).
  destruct Hx as [Hx|Hx]; [by apply (set_apart p y Hp)|].
  apply (do_fresh p d Hok y (do_added p d Hok _ _ y Hx) y); [by right|done].
Qed.

(** *** The operations *)

Lemma dent_put f d x a e s n :
  dent (mkDiffStakers (modify_diff f x d) a e) s n =
  if decide (in_slot s n x) then f (dent d s n) else dent d s n.
Proof.
  unfold modify_diff, getOrCreateDiff, dent. simpl. rewrite entry_put, get_or_create_entry.
  destruct (decide (in_slot s n x)) as [Hs|Hs]; rewrite slot_iff in Hs; [rewrite decide_True by done|by rewrite decide_False].
  by destruct Hs as [-> ->].
Qed.

Lemma diff_PutDelegator_ok p d x :
  set_ok p → diff_ok p d → new_tx p d x →
  diff_ok p (diff_PutDelegator x d) ∧
  (∀ s n, dval p (diff_PutDelegator x d) s n = dval p d s n) ∧
  (∀ y, ddel p (diff_PutDelegator x d) y ↔ y = x ∨ ddel p d y).
Proof.
  intros Hp Hok Hnew. set (d' := diff_PutDelegator x d).
  assert (∀ s n, dent d' s n = if decide (in_slot s n x) then dv_addDelegator x (dent d s n) else dent d s n) as Hd
    by (intros; apply dent_put).
  assert (∀ s n, dv_validatorModified (dent d' s n) = dv_validatorModified (dent d s n)) as Hmod by (intros; rewrite Hd; by case_decide).
  assert (∀ s n, dv_validatorDeleted (dent d' s n) = dv_validatorDeleted (dent d s n)) as Hdel by (intros; rewrite Hd; by case_decide).
  assert (∀ s n, dv_validator (dent d' s n) = dv_validator (dent d s n)) as Hval by (intros; rewrite Hd; by case_decide).
  assert (∀ s n, dv_deletedDelegators (dent d' s n) = dv_deletedDelegators (dent d s n)) as Hdd by (intros; rewrite Hd; by case_decide).
  assert (∀ s n, dval p d' s n = dval p d s n) as Hdval by (intros; unfold dval; by rewrite Hmod, Hdel, Hval).
  assert (∀ y, y ∈ all_added d' ↔ y = x ∨ y ∈ all_added d) as Hall by (intros; apply tree_insert_items, Hnew).
  assert (∀ s n y, y ∈ added d' s n ↔ y = x ∧ in_slot s n x ∨ y ∈ added d s n) as Hadd.
  { intros s n y. unfold added at 1. rewrite Hd. case_decide as Hs; simpl; [|by intuition].
    rewrite tree_insert_items; [by intuition|]. intros z Hz. by apply Hnew, (do_added p d Hok s n). }
  assert (∀ y, candidate p d' y ↔ y = x ∨ candidate p d y) as Hcand.
  { intros y. unfold candidate. rewrite Hadd. split; [by intuition|]. intros [->|?]; [|by intuition]. right. left. split; [done|apply in_slot_self]. }
  pose proof (new_tx_deleted p d x Hok Hnew) as Hxd. change (ds_deletedStakers d) with (ds_deletedStakers d') in Hxd.
  assert (∀ s n, dv_deletedDelegators (dent d s n) !! st_TxID x = None) as Hxdd.
  { intros s n. apply eq_None_not_Some. intros [y Hy]. apply (do_deleted_delegator p d Hok) in Hy as [[? Hy] _]. simpl in Hxd. congruence. }
  split_and!; [|done|].
  - split.
    + intros s n y. rewrite Hadd. intros [[-> ?]|?]; [done|by eapply do_slot].
    + intros s n y. rewrite Hadd, Hall. intros [[-> ?]|?]; [by left|right]. by eapply do_added.
    + intros y. rewrite Hall. intros [->|?]; [apply Hnew|by eapply do_fresh].
    + intros y z. rewrite !Hall. intros [->|Hy] [->|Hz] Hid; [done|..|by eapply do_unique].
      * by apply symmetry, (proj2 Hnew z) in Hid.
      * by apply (proj2 Hnew y) in Hid.
    + intros s n. rewrite Hmod, Hdel, Hval. intros Hm He. destruct (do_put p d Hok s n Hm He) as (y&?&?&Hy&?&?).
      exists y. rewrite Hall, Hadd. split_and!; [done..|by right|done|]. intros [[-> _]|?]; [|done]. by apply (proj2 Hnew x).
    + intros y. rewrite Hall, Hadd, Hdval. intros [->|Hy]; [left; left; split; [done|apply in_slot_self]|].
      destruct (do_all p d Hok y Hy) as [?|?]; auto.
    + intros y. rewrite Hcand, Hdd. intros [->|Hy]; [|by apply (do_candidate p d Hok)]. by rewrite Hxd, Hxdd.
    + intros s n y. rewrite Hmod. apply (do_parent p d Hok).
    + intros i Hi. destruct (do_deleted p d Hok i Hi) as (y&?&?). exists y. rewrite Hall. intuition.
    + intros s n i y. rewrite Hdd, Hcand. intros Hi. destruct (do_deleted_delegator p d Hok s n i y Hi) as (?&?&?&?). auto.
  - intros y. unfold ddel. rewrite Hcand, Hdd. split; [|intros [->|[? ?]]]; [by intuition|by auto|by auto].
Qed.

Lemma diff_DeleteDelegator_ok p d x :
  set_ok p → diff_ok p d → ddel p d x →
  diff_ok p (diff_DeleteDelegator x d) ∧
  (∀ s n, dval p (diff_DeleteDelegator x d) s n = dval p d s n) ∧
  (∀ y, ddel p (diff_DeleteDelegator x d) y ↔ ddel p d y ∧ y ≠ x).
Proof.
  intros Hp Hok [Hxc Hx]. set (d' := diff_DeleteDelegator x d).
  assert (∀ s n, dent d' s n = if decide (in_slot s n x) then dv_deleteDelegator x (dent d s n) else dent d s n) as Hd
    by (intros; apply dent_put).
  assert (∀ s n, dv_validatorModified (dent d' s n) = dv_validatorModified (dent d s n)) as Hmod by (intros; rewrite Hd; by case_decide).
  assert (∀ s n, dv_validatorDeleted (dent d' s n) = dv_validatorDeleted (dent d s n)) as Hdel by (intros; rewrite Hd; by case_decide).
  assert (∀ s n, dv_validator (dent d' s n) = dv_validator (dent d s n)) as Hval by (intros; rewrite Hd; by case_decide).
  assert (∀ s n, added d' s n = added d s n) as Hadd by (intros; unfold added; rewrite Hd; by case_decide).
  assert (∀ s n i, dv_deletedDelegators (dent d' s n) !! i =
    if decide (in_slot s n x ∧ st_TxID x = i) then Some x else dv_deletedDelegators (dent d s n) !! i) as Hdd.
  { intros s n i. rewrite Hd. destruct (decide (in_slot s n x)); simpl; [|by rewrite decide_False by intuition].
    rewrite lookup_insert. destruct (decide (st_TxID x = i)); [by rewrite decide_True|by rewrite decide_False by intuition]. }
  assert (∀ s n, dval p d' s n = dval p d s n) as Hdval by (intros; unfold dval; by rewrite Hmod, Hdel, Hval).
  assert (∀ y, candidate p d' y ↔ candidate p d y) as Hcand by (intros; unfold candidate; by rewrite Hadd).
  assert (∀ i, ds_deletedStakers d' !! i = if decide (st_TxID x = i) then Some x else ds_deletedStakers d !! i) as Hds
    by (intros; apply lookup_insert).
  assert (∀ y, candidate p d y → st_TxID x = st_TxID y → x = y) as Huniq.
  { intros y Hy. apply (known_unique p d); [done..| |]; by apply candidate_known. }
  split_and!; [|done|].
  - split.
    + intros s n y. rewrite Hadd. apply (do_slot p d Hok).
    + intros s n y. rewrite Hadd. apply (do_added p d Hok).
    + apply (do_fresh p d Hok).
    + apply (do_unique p d Hok).
    + intros s n. rewrite Hmod, Hdel, Hval, Hadd. intros Hm He. destruct (do_put p d Hok s n Hm He) as (y&Hy&?&?&?&?).
      exists y. rewrite Hds, decide_False; [done|]. apply (candidate_not_dval p d s n); [done..|].
      unfold dval. by rewrite Hm, He.
    + intros y Hy. rewrite Hadd, Hdval, Hds. destruct (do_all p d Hok y Hy) as [?|[?|?]]; auto. case_decide; eauto.
    + intros y. rewrite Hcand, Hds, Hdd. intros Hy. case_decide as Hid.
      * rewrite (Huniq y Hy Hid). rewrite decide_True; [done|]. split; [apply in_slot_self|done].
      * rewrite decide_False by intuition. by apply (do_candidate p d Hok).
    + intros s n y Hy. rewrite Hmod, Hds, decide_False; [by apply (do_parent p d Hok)|]. by apply (candidate_not_parent p d s n).
    + intros i. rewrite Hds. case_decide as Hid; [|apply (do_deleted p d Hok)]. intros _. exists x. split; [done|].
      destruct (candidate_known p d x Hok Hxc); auto.
    + intros s n i y. rewrite Hdd, Hcand, Hds. case_decide as Hi.
      * intros [= <-]. destruct Hi as [? ?]. rewrite decide_True by done. eauto.
      * intros Hy. destruct (do_deleted_delegator p d Hok s n i y Hy) as (?&?&?&?). split; [|done]. case_decide; eauto.
  - intros y. unfold ddel. rewrite Hcand, Hdd. split.
    + intros [Hy Hn]. case_decide as Hi; [done|]. split_and!; [done..|]. intros ->. destruct Hi. split; [apply in_slot_self|done].
    + intros [[Hy Hn] Hne]. split; [done|]. rewrite decide_False; [done|]. intros [_ Hid]. by apply Hne, symmetry, (Huniq y Hy).
Qed.

Lemma diff_PutValidator_ok p d x :
  set_ok p → diff_ok p d → new_tx p d x → dval p d (st_SubnetID x) (st_NodeID x) = None →
  diff_ok p (diff_PutValidator x d) ∧
  (∀ s n, dval p (diff_PutValidator x d) s n = set_validator (dval p d) x (Some x) s n) ∧
  (∀ y, ddel p (diff_PutValidator x d) y ↔ ddel p d y).
Proof.
  intros Hp Hok Hnew Hnone. set (d' := diff_PutValidator x d).
  assert (∀ s n, dent d' s n = if decide (in_slot s n x) then dv_modify false x (dent d s n) else dent d s n) as Hd
    by (intros; apply dent_put).
  assert (∀ s n, added d' s n = added d s n) as Hadd by (intros; unfold added; rewrite Hd; by case_decide).
  assert (∀ s n, dv_deletedDelegators (dent d' s n) = dv_deletedDelegators (dent d s n)) as Hdd by (intros; rewrite Hd; by case_decide).
  assert (∀ s n, dval p d' s n = set_validator (dval p d) x (Some x) s n) as Hdval
    by (intros; unfold dval, set_validator; rewrite Hd; by case_decide).
  assert (∀ y, y ∈ all_added d' ↔ y = x ∨ y ∈ all_added d) as Hall by (intros; apply tree_insert_items, Hnew).
  assert (∀ y, candidate p d' y ↔ candidate p d y) as Hcand by (intros; unfold candidate; by rewrite Hadd).
  pose proof (new_tx_deleted p d x Hok Hnew) as Hxd.
  split_and!; [|done|].
  - split.
    + intros s n y. rewrite Hadd. apply (do_slot p d Hok).
    + intros s n y. rewrite Hadd, Hall. right. by eapply do_added.
    + intros y. rewrite Hall. intros [->|?]; [apply Hnew|by eapply do_fresh].
    + intros y z. rewrite !Hall. intros [->|Hy] [->|Hz] Hid; [done|..|by eapply do_unique].
      * by apply symmetry, (proj2 Hnew z) in Hid.
      * by apply (proj2 Hnew y) in Hid.
    + intros s n. rewrite Hd, Hadd. destruct (decide (in_slot s n x)) as [Hs|Hs].
      * intros _ _. exists x. rewrite Hall. split_and!; [done..|by left|done|]. intros Hx%(do_added p d Hok). by apply (proj2 Hnew x).
      * intros Hm He. destruct (do_put p d Hok s n Hm He) as (y&?&?&?&?&?). exists y. rewrite Hall. auto 10.
    + intros y. rewrite Hall, Hadd, Hdval. intros [->|Hy]; [right; left; apply decide_True, in_slot_self|].
      destruct (do_all p d Hok y Hy) as [?|[Hv|?]]; auto. right; left. unfold set_validator. case_decide as Hs; [|done].
      apply slot_iff in Hs as [Hs Hn]. rewrite Hs, Hn in Hv. congruence.
    + intros y. rewrite Hcand, Hdd. apply (do_candidate p d Hok).
    + intros s n y Hy. change (ds_deletedStakers d') with (ds_deletedStakers d). rewrite (do_parent p d Hok s n y Hy), Hd.
      case_decide as Hs; [|done]. simpl. apply slot_iff in Hs as [-> ->]. unfold dval in Hnone.
      destruct (dv_validatorModified _); [done|congruence].
    + intros i Hi. destruct (do_deleted p d Hok i Hi) as (y&?&?). exists y. rewrite Hall. intuition.
    + intros s n i y. rewrite Hdd, Hcand. apply (do_deleted_delegator p d Hok).
  - intros y. unfold ddel. by rewrite Hcand, Hdd.
Qed.

Lemma diff_DeleteValidator_ok p d x :
  set_ok p → diff_ok p d → dval p d (st_SubnetID x) (st_NodeID x) = Some x →
  diff_ok p (diff_DeleteValidator x d) ∧
  (∀ s n, dval p (diff_DeleteValidator x d) s n = set_validator (dval p d) x None s n) ∧
  (∀ y, ddel p (diff_DeleteValidator x d) y ↔ ddel p d y).
Proof.
  intros Hp Hok Hx. set (d' := diff_DeleteValidator x d).
  assert (∀ s n, dent d' s n = if decide (in_slot s n x) then dv_modify true x (dent d s n) else dent d s n) as Hd
    by (intros; apply dent_put).
  assert (∀ s n, added d' s n = added d s n) as Hadd by (intros; unfold added; rewrite Hd; by case_decide).
  assert (∀ s n, dv_deletedDelegators (dent d' s n) = dv_deletedDelegators (dent d s n)) as Hdd by (intros; rewrite Hd; by case_decide).
  assert (∀ s n, dval p d' s n = set_validator (dval p d) x None s n) as Hdval
    by (intros; unfold dval, set_validator; rewrite Hd; by case_decide).
  assert (∀ y, candidate p d' y ↔ candidate p d y) as Hcand by (intros; unfold candidate; by rewrite Hadd).
  assert (∀ i, ds_deletedStakers d' !! i = if decide (st_TxID x = i) then Some x else ds_deletedStakers d !! i) as Hds
    by (intros; apply lookup_insert).
  pose proof (dval_known p d _ _ x Hp Hok Hx) as Hxk.
  split_and!; [|done|].
  - split.
    + intros s n y. rewrite Hadd. apply (do_slot p d Hok).
    + intros s n y. rewrite Hadd. apply (do_added p d Hok).
    + apply (do_fresh p d Hok).
    + apply (do_unique p d Hok).
    + intros s n. rewrite Hd, Hadd. destruct (decide (in_slot s n x)) as [Hs|Hs]; [done|].
      intros Hm He. destruct (do_put p d Hok s n Hm He) as (y&?&Hsy&?&?&?). exists y. rewrite Hds, decide_False; [done|].
      intros Hid. assert (x = y) as ->; [|done]. apply (known_unique p d); [done..|by right|done].
    + intros y Hy. rewrite Hadd, Hdval, Hds. destruct (decide (st_TxID x = st_TxID y)) as [Hid|Hid]; [eauto|].
      destruct (do_all p d Hok y Hy) as [?|[Hv|?]]; auto. right; left. unfold set_validator. case_decide as Hs; [|done].
      apply slot_iff in Hs as [Hs Hn]. rewrite Hs, Hn in Hv. congruence.
    + intros y. rewrite Hcand, Hdd, Hds. intros Hy. rewrite decide_False; [by apply (do_candidate p d Hok)|].
      apply not_eq_sym. by eapply candidate_not_dval.
    + intros s n y Hy. rewrite Hds, Hd. destruct (set_slot p s n y Hp Hy) as [<- <-].
      destruct (decide (in_slot (st_SubnetID y) (st_NodeID y) x)) as [Hs|Hs].
      * simpl. split; [|done]. apply slot_iff in Hs as [Hs Hn]. case_decide as Hid; [done|].
        rewrite (do_parent p d Hok _ _ y Hy). intros Hm. unfold dval in Hx. rewrite <-Hs, <-Hn, Hm in Hx. congruence.
      * rewrite decide_False; [by apply (do_parent p d Hok)|]. intros Hid.
        assert (x = y) as ->; [|by destruct Hs]. apply (known_unique p d); [done..|by left; right|done].
    + intros i. rewrite Hds. case_decide as Hid; [|apply (do_deleted p d Hok)]. intros _. exists x. split; [done|].
      destruct Hxk; auto.
    + intros s n i y. rewrite Hdd, Hcand, Hds. intros Hy. destruct (do_deleted_delegator p d Hok s n i y Hy) as (?&?&?&?).
      split; [|done]. case_decide; eauto.
  - intros y. unfold ddel. by rewrite Hcand, Hdd.
Qed.
End inv.

(** * A difference over a set of stakers is a set of stakers: what its iterators
    yield, and any sequence of its operations against a map of validators and a
    set of delegators. *)

(** ** Sorted without repetition *)

Lemma sorted_lt_le l : StronglySorted staker_lt l → StronglySorted staker_le l.
Proof.
  induction 1 as [|x l Hs IH Hx]; constructor; [done|]. eapply Forall_impl; [exact Hx|]. apply staker_lt_le.
Qed.

Lemma sorted_lt_NoDup l : StronglySorted staker_lt l → NoDup l.
Proof.
  induction 1 as [|x l Hs IH Hx]; constructor; [|done]. intros Hin. apply (staker_lt_irrefl x).
  by apply (proj1 (Forall_forall _ _) Hx).
Qed.

Lemma sorted_le_lt l :
  StronglySorted staker_le l → NoDup l → (∀ x y, x ∈ l → y ∈ l → st_TxID x = st_TxID y → x = y) → StronglySorted staker_lt l.
Proof.
  induction 1 as [|x l Hs IH Hx]; intros Hnd Hu; constructor; apply NoDup_cons in Hnd as [Hn Hnd].
  - apply IH; [done|]. intros y z Hy Hz. apply Hu; by right.
  - apply Forall_forall. intros y Hy. pose proof (proj1 (Forall_forall _ _) Hx y Hy) as Hle.
    destruct (staker_lt_cases x y) as [?|[?|Hsame]]; [done..|].
    exfalso. apply Hn. rewrite (Hu x y); [done|by left|by right|]. by apply same_item_iff in Hsame as (_&_&?).
Qed.

Lemma sorted_filter (P : Staker → Prop) `{∀ x, Decision (P x)} l : StronglySorted staker_lt l → StronglySorted staker_lt (filter P l).
Proof.
  induction 1 as [|x l Hs IH Hx]; [constructor|]. rewrite filter_cons. case_decide; [|done]. constructor; [done|].
  apply Forall_forall. intros y [_ Hy]%list_elem_of_filter. by apply (proj1 (Forall_forall _ _) Hx).
Qed.

(** ** The iterators of a difference *)

Section view.
Context {T : Type} `{StakerSetLaws T} `{BTree, !BTreeLaws}.
Implicit Types (p : T) (d : diffStakers) (x y : Staker) (s : ID) (n : NodeID).

(** The parent's stakers and the added ones, in order, without the deleted ones. *)
Lemma overlay_yields (pi : ss_iter) (ti : treeIterator) lp la (m : gmap ID Staker) :
  yields pi lp → yields ti la → StronglySorted staker_lt lp → StronglySorted staker_lt la →
  (∀ x y, x ∈ lp ++ la → y ∈ lp ++ la → st_TxID x = st_TxID y → x = y) → (∀ x, x ∈ lp → x ∉ la) →
  ∃ mg l, NewMergedIterator [inl pi; inr ti] = Some mg ∧ yields (mkMaskedIterator mg m) l ∧ StronglySorted staker_lt l ∧
    ∀ x, x ∈ l ↔ (x ∈ lp ∨ x ∈ la) ∧ m !! st_TxID x = None.
Proof.
  intros Hp Ha Hsp Hsa Hu Hdis.
  destruct (merged_yields [inl pi; inr ti : ss_iter + treeIterator] [lp; la]) as (mg&out&Hmg&Hy&Hperm&Hs).
  { repeat constructor; auto using sum_yields_inl, sum_yields_inr, sorted_lt_le. }
  simpl in Hperm. rewrite app_nil_r in Hperm.
  exists mg, (filter (λ x, m !! st_TxID x = None) out). split_and!; [done|by apply masked_yields| |].
  - assert (StronglySorted staker_lt out) as Hslt.
    { apply sorted_le_lt; [done| |].
      - rewrite Hperm. apply NoDup_app. split_and!; auto using sorted_lt_NoDup.
      - intros x y. rewrite Hperm. apply Hu. }
    by apply sorted_filter.
  - intros x. rewrite list_elem_of_filter, Hperm, elem_of_app. tauto.
Qed.

Lemma diff_GetDelegatorIterator_eq (pi : ss_iter) d s n :
  diff_GetDelegatorIterator pi d s n =
  (mg ← NewMergedIterator [inl pi; inr (NewTreeIterator (dv_addedDelegators (dent d s n)))];
   Some (mkMaskedIterator mg (dv_deletedDelegators (dent d s n)))).
Proof.
  unfold diff_GetDelegatorIterator, dent, entry. destruct (ds_validatorDiffs d !! s) as [k|]; simpl; [|done].
  by destruct (k !! n).
Qed.

Lemma sd_delegators p d s n : set_ok p → diff_ok p d → ∃ it l,
  sd_GetDelegatorIterator (mkStakersDiff d (Some p)) s n = Some (Ok it) ∧ yields it l ∧ StronglySorted staker_lt l ∧
  ∀ x, x ∈ l ↔ ddel p d x ∧ in_slot s n x.
Proof.
  intros Hp Hok. destruct (GetDelegatorIterator_spec p s n Hp) as (pi&lp&Hpi&Hyp&Hsp&Hlp).
  assert (∀ x, x ∈ lp ++ added d s n ↔ candidate p d x ∧ in_slot s n x) as Hc.
  { intros x. rewrite elem_of_app, Hlp. unfold candidate. split.
    - intros [[? ?]|Hx]; [auto|]. pose proof (do_slot p d Hok s n x Hx) as Hs. split; [|done]. right. by destruct Hs as [-> ->].
    - intros [[?|?] Hs]; [auto|]. right. by destruct Hs as [<- <-]. }
  destruct (overlay_yields pi (NewTreeIterator (dv_addedDelegators (dent d s n))) lp (added d s n)
    (dv_deletedDelegators (dent d s n))) as (mg&l&Hmg&Hy&Hs&Hl); try done.
  - apply NewTreeIterator_yields.
  - apply tree_items_sorted.
  - intros x y. rewrite !Hc. intros [Hx _] [Hy _]. apply (known_unique p d); auto using candidate_known.
  - intros x Hx Ha. apply Hlp in Hx as [Hx _]. apply (do_fresh p d Hok x (do_added p d Hok s n x Ha) x); [by left|done].
  - exists (mkMaskedIterator mg (dv_deletedDelegators (dent d s n))), l. split_and!; [|done..|].
    + unfold sd_GetDelegatorIterator. simpl. rewrite Hpi. simpl. rewrite diff_GetDelegatorIterator_eq, Hmg. done.
    + intros x. rewrite Hl, <-elem_of_app, Hc. unfold ddel. split.
      * intros [[? Hs'] ?]. destruct Hs' as [<- <-]. done.
      * intros [[? ?] [<- <-]]. done.
Qed.

(** A staker that is known and not deleted is in the set. *)
Lemma sd_members p d x : set_ok p → diff_ok p d →
  known p d x ∧ ds_deletedStakers d !! st_TxID x = None ↔ ddel p d x ∨ dval p d (st_SubnetID x) (st_NodeID x) = Some x.
Proof.
  intros Hp Hok. split.
  - intros [Hk Hn]. assert (candidate p d x → ddel p d x) as Hc by (intros Hc; split; [done|by apply (do_candidate p d Hok)]).
    destruct Hk as [[Hx|Hx]|Hx].
    + left. apply Hc. by left.
    + right. unfold dval. by rewrite (proj1 (do_parent p d Hok _ _ x Hx) Hn).
    + destruct (do_all p d Hok x Hx) as [?|[?|[? ?]]]; [|by right|congruence]. left. apply Hc. by right.
  - intros [[Hc Hd]|Hv].
    + split; [by apply candidate_known|by apply (do_candidate p d Hok)].
    + split; [by eapply dval_known|]. destruct (dval_cases p d _ _ x Hok Hv) as [(_&_&?&_)|(Hm&Hx)]; [done|].
      by apply (do_parent p d Hok _ _ x Hx).
Qed.

Lemma sd_stakers p d : set_ok p → diff_ok p d → ∃ it l,
  sd_GetStakerIterator (mkStakersDiff d (Some p)) = Some (Ok it) ∧ yields it l ∧ StronglySorted staker_lt l ∧
  ∀ x, x ∈ l ↔ ddel p d x ∨ dval p d (st_SubnetID x) (st_NodeID x) = Some x.
Proof.
  intros Hp Hok. destruct (GetStakerIterator_spec p Hp) as (pi&lp&Hpi&Hyp&Hsp&Hlp).
  assert (∀ x, x ∈ lp ++ all_added d ↔ known p d x) as Hk by (intros x; by rewrite elem_of_app, Hlp).
  destruct (overlay_yields pi (NewTreeIterator (ds_addedStakers d)) lp (all_added d) (ds_deletedStakers d))
    as (mg&l&Hmg&Hy&Hs&Hl); try done.
  - apply NewTreeIterator_yields.
  - apply tree_items_sorted.
  - intros x y. rewrite !Hk. by apply known_unique.
  - intros x Hx Ha. apply (do_fresh p d Hok x Ha x); [by apply Hlp|done].
  - exists (mkMaskedIterator mg (ds_deletedStakers d)), l. split_and!; [|done..|].
    + unfold sd_GetStakerIterator. simpl. rewrite Hpi. simpl. unfold diff_GetStakerIterator. by rewrite Hmg.
    + intros x. by rewrite Hl, <-elem_of_app, Hk, sd_members.
Qed.

Definition sd_ok (D : stakers_diff T) : Prop := ∃ p, sd_parent D = Some p ∧ set_ok p ∧ diff_ok p (sd_diffs D).
Definition sd_validator (D : stakers_diff T) s n : option Staker := p ← sd_parent D; dval p (sd_diffs D) s n.
Definition sd_delegator (D : stakers_diff T) x : Prop := match sd_parent D with Some p => ddel p (sd_diffs D) x | None => False end.

#[export] Instance sd_laws : StakerSetLaws (stakers_diff T).
Proof.
  refine {| set_ok := sd_ok; validator_of := sd_validator; is_delegator := sd_delegator |}.
  - intros [d ?] s n x (p&Hpar&Hp&Hok). unfold sd_validator. simpl in *. subst. simpl. by apply dval_slot.
  - intros [d ?] x (p&Hpar&Hp&Hok). unfold sd_validator, sd_delegator. simpl in *. subst. simpl. intros [Hc _] Hv.
    by apply (candidate_not_dval p d _ _ x x Hp Hok Hc Hv).
  - intros [d ?] x y (p&Hpar&Hp&Hok). unfold sd_validator, sd_delegator. simpl in *. subst. simpl.
    rewrite <-!sd_members by done. intros [Hx _] [Hy _]. by apply (known_unique p d).
  - intros [d ?] s n (p&Hpar&Hp&Hok). unfold sd_validator. simpl in *. subst. simpl. rewrite diff_GetValidator_eq. unfold dval.
    destruct (dv_validatorModified _); [done|]. by apply GetValidator_spec.
  - intros [d ?] s n (p&Hpar&Hp&Hok). unfold sd_delegator. simpl in *. subst. by apply sd_delegators.
  - intros [d ?] (p&Hpar&Hp&Hok). unfold sd_delegator, sd_validator. simpl in *. subst. by apply sd_stakers.
Defined.
End view.
