(* ===== verification/StakerApply.v ===== *)
(** Any sequence of operations on a difference, against a map of validators and a
    map of delegators, and [diff.Apply]: applied to the base it was made from, a
    difference leaves the set it stood for. *)

From S2P Require Import Prelude Ids NodeBag Database GoHeap Stakers StakerIters StakerSets StakerDiff.

(** ** Trees as sorted lists *)

Fixpoint sorted_insert (x : Staker) (l : list Staker) : list Staker :=
  match l with
  | [] => [x]
  | y :: l => if Staker_Less x y then x :: y :: l else if Staker_Less y x then y :: sorted_insert x l else x :: l
  end.

Lemma sorted_insert_spec x l : StronglySorted staker_lt l →
  StronglySorted staker_lt (sorted_insert x l) ∧ ∀ y, y ∈ sorted_insert x l ↔ y = x ∨ y ∈ l ∧ ¬ same_item x y.
Proof.
  induction 1 as [|z l Hs [IHs IHl] Hz]; simpl.
  { split; [by repeat constructor|]. intros y. rewrite elem_of_cons, elem_of_nil. tauto. }
  assert (∀ y, y ∈ l → staker_lt z y) as Hlt by (by apply Forall_forall).
  destruct (Staker_Less x z) eqn:Exz; [|destruct (Staker_Less z x) eqn:Ezx].
  - split.
    + constructor; [by constructor|]. constructor; [done|]. eapply Forall_impl; [exact Hz|]. intros y. by transitivity z.
    + intros y. rewrite elem_of_cons. split; [|tauto]. intros [->|Hy]; [by left|right]. split; [done|].
      assert (staker_lt x y) as Hxy by (apply elem_of_cons in Hy as [->|Hy]; [done|transitivity z; auto]).
      intros [Hn _]. unfold staker_lt in Hxy. congruence.
  - split.
    + constructor; [done|]. apply Forall_forall. intros y. rewrite IHl. intros [->|[? _]]; auto.
    + intros y. rewrite !elem_of_cons, IHl. split; [|tauto]. intros [->|[->|[? ?]]]; [|by left|by right; auto].
      right. split; [by left|]. intros [_ ?]. congruence.
  - assert (same_item x z) as Hsame by done. split.
    + constructor; [done|]. apply Forall_forall. intros y Hy. specialize (Hlt y Hy). apply same_item_iff in Hsame as (?&?&?).
      rewrite staker_lt_iff in *. intuition congruence.
    + intros y. rewrite !elem_of_cons. split.
      * intros [->|Hy]; [by left|right]. split; [by right|]. intros Hxy. apply (staker_lt_irrefl y).
        specialize (Hlt y Hy). apply same_item_iff in Hsame as (?&?&?), Hxy as (?&?&?). rewrite staker_lt_iff in *. intuition congruence.
      * intros [->|[[->|?] ?]]; auto. done.
Qed.

Definition list_BTree : BTree := {|
  btree := { l : list Staker | StronglySorted staker_lt l };
  bt_New := [] ↾ SSorted_nil _;
  bt_ReplaceOrInsert x t := sorted_insert x (`t) ↾ proj1 (sorted_insert_spec x (`t) (proj2_sig t));
  bt_Delete x t := filter (λ y, ¬ same_item x y) (`t) ↾ sorted_filter _ _ (proj2_sig t);
  bt_Len t := length (`t);
  bt_Ascend t := `t;
|}.

Lemma list_BTreeLaws : BTreeLaws (H := list_BTree).
Proof.
  split.
  - done.
  - intros x t y. simpl. apply (proj2 (sorted_insert_spec x _ (proj2_sig t))).
  - intros x t y. simpl. rewrite list_elem_of_filter. tauto.
  - intros t. apply (proj2_sig t).
  - done.
Qed.

(** ** Applying *)

Lemma each_inv {A B} (body : A → B → option A) (P : list B → A → Prop) l a :
  P [] a → (∀ pre x post a, l = pre ++ x :: post → P pre a → ∃ a', body a x = Some a' ∧ P (pre ++ [x]) a') →
  ∃ a', each body l a = Some a' ∧ P l a'.
Proof.
  intros H0 Hstep. assert (∀ pre post a, l = pre ++ post → P pre a → ∃ a', each body post a = Some a' ∧ P l a') as Hgen; [|by apply (Hgen [] l)].
  intros pre post. revert pre. induction post as [|x post IH]; intros pre a' -> HP.
  - exists a'. by rewrite app_nil_r in *.
  - rewrite each_cons. destruct (Hstep pre x post a') as (a2&->&HP2); [done..|]. apply (IH (pre ++ [x])); [|done]. by rewrite <-app_assoc.
Qed.

Section apply.
Context `{BTree, !BTreeLaws} `{GoRange}.
Implicit Types (p v : baseStakers) (d : diffStakers) (x y : Staker) (s : ID) (n : NodeID).

Lemma put_delegators_spec l v :
  base_ok v → NoDup (st_TxID <$> l) → (∀ x, x ∈ l → fresh v (st_TxID x)) →
  let v' := foldl (λ v x, base_PutDelegator x v) v l in
  base_ok v' ∧ (∀ s n, base_validator v' s n = base_validator v s n) ∧ (∀ y, base_delegator v' y ↔ y ∈ l ∨ base_delegator v y).
Proof.
  revert v. induction l as [|x l IH]; intros v Hok Hnd Hf.
  { simpl. split_and!; [done..|]. intros y. rewrite elem_of_nil. tauto. }
  rewrite fmap_cons, NoDup_cons in Hnd. destruct Hnd as [Hx Hnd].
  destruct (base_PutDelegator_spec x v Hok) as (Hok'&Hv&Hd); [apply Hf; by left|].
  destruct (IH (base_PutDelegator x v)) as (Hok2&Hv2&Hd2); [done..| |].
  - intros y Hy z [Hz|Hz].
    + apply Hd in Hz as [->|Hz]; [|by apply (Hf y); [right|left]].
      intros Hid. apply Hx. rewrite Hid. by apply list_elem_of_fmap_2.
    + simpl in Hz. rewrite Hv in Hz. apply (Hf y); [by right|by right].
  - simpl. split_and!; [done| |].
    + intros s n. by rewrite Hv2, Hv.
    + intros y. rewrite Hd2, Hd, elem_of_cons. tauto.
Qed.

Lemma delete_delegators_spec (l : list (ID * Staker)) v :
  base_ok v → NoDup l.*2 → (∀ x, x ∈ l.*2 → base_delegator v x) →
  ∃ v', each (λ v '(_, delegator), base_DeleteDelegator delegator v) l v = Some v' ∧ base_ok v' ∧
    (∀ s n, base_validator v' s n = base_validator v s n) ∧ (∀ y, base_delegator v' y ↔ base_delegator v y ∧ y ∉ l.*2).
Proof.
  revert v. induction l as [|[i x] l IH]; intros v Hok Hnd Hin.
  { exists v. split_and!; [done..|]. intros y. simpl. rewrite elem_of_nil. tauto. }
  simpl in Hnd. apply NoDup_cons in Hnd as [Hx Hnd].
  destruct (base_DeleteDelegator_spec x v Hok) as (v1&Hv1&Hok1&Hval&Hd); [apply Hin; by left|].
  destruct (IH v1) as (v2&Hv2&Hok2&Hval2&Hd2); [done..| |].
  - intros y Hy. apply Hd. split; [apply Hin; by right|]. by intros ->.
  - exists v2. rewrite each_cons, Hv1. split_and!; [done..| |].
    + intros s n. by rewrite Hval2, Hval.
    + intros y. simpl. rewrite Hd2, Hd, elem_of_cons. tauto.
Qed.

(** What [Apply] needs besides: a slot that the parent fills is not filled again. *)
Record applicable p d : Prop := mkApplicable {
  ap_put s n : dv_validatorModified (dent d s n) = true → dv_validatorDeleted (dent d s n) = false → base_validator p s n = None;
  ap_deleted s n : dv_validatorModified (dent d s n) = true → dv_validatorDeleted (dent d s n) = true →
    ∃ x, dv_validator (dent d s n) = Some x ∧ in_slot s n x ∧
      (base_validator p s n = Some x ∨ base_validator p s n = None ∧ x ∈ all_added d ∧ x ∉ added d s n);
}.

(** The slots of [K] have been applied. *)
Record applied p d (K : ID → NodeID → Prop) v : Prop := mkApplied {
  ad_ok : base_ok v;
  ad_new s n : K s n → base_validator v s n = dval p d s n;
  ad_old s n : ¬ K s n → base_validator v s n = base_validator p s n;
  ad_new_delegator x : K (st_SubnetID x) (st_NodeID x) → base_delegator v x ↔ ddel p d x;
  ad_old_delegator x : ¬ K (st_SubnetID x) (st_NodeID x) → base_delegator v x ↔ base_delegator p x;
}.

Section slot.
Context p d (Hp : base_ok p) (Hd : diff_ok p d) (Ha : applicable p d).
Context (K : ID → NodeID → Prop) (HK : ∀ s n, Decision (K s n)).

(** A new staker of a slot that is not yet applied is not in the base. *)
Lemma applied_fresh v s n x :
  applied p d K v → ¬ K s n → in_slot s n x → x ∈ all_added d → fresh v (st_TxID x).
Proof.
  intros [Hok Hn Ho Hnd Hod] HKs Hs Hx y Hy Hid.
  assert (∀ z, member p z → st_TxID z ≠ st_TxID x) as Hf by (apply (do_fresh p d Hd x Hx)).
  destruct (HK (st_SubnetID y) (st_NodeID y)) as [Ky|Ky].
  - assert (known p d y) as Hk.
    { destruct Hy as [Hy|Hy]; [apply (Hnd y Ky) in Hy as [Hy _]; by apply candidate_known|].
      simpl in Hy. rewrite (Hn _ _ Ky) in Hy. by eapply dval_known. }
    assert (y = x) as -> by (apply (known_unique p d); [done..|by right|done]). destruct Hs as [<- <-]. done.
  - apply (Hf y); [|done]. destruct Hy as [Hy|Hy]; [left; by apply (Hod y Ky)|right]. simpl in Hy. by rewrite (Ho _ _ Ky) in Hy.
Qed.

(** The validator of the slot. *)
Lemma apply_validator_spec v s n :
  applied p d K v → ¬ K s n →
  ∃ v', (if dv_validatorModified (dent d s n) then
           validator ← dv_validator (dent d s n);
           if dv_validatorDeleted (dent d s n) then base_DeleteValidator validator v else Some (base_PutValidator validator v)
         else Some v) = Some v' ∧ base_ok v' ∧
    (∀ s' n', base_validator v' s' n' = if decide (s' = s ∧ n' = n) then dval p d s n else base_validator v s' n') ∧
    (∀ y, base_delegator v' y ↔ base_delegator v y).
Proof.
  intros Hv HKs. pose proof Hv as [Hok Hn Ho Hnd Hod]. unfold dval.
  assert (∀ v' x o, in_slot s n x → (∀ s' n', base_validator v' s' n' = set_validator (base_validator v) x o s' n') →
    ∀ s' n', base_validator v' s' n' = if decide (s' = s ∧ n' = n) then o else base_validator v s' n') as Hset.
  { intros v' x o Hs Hv' s' n'. rewrite Hv'. unfold set_validator. apply decide_ext. rewrite slot_iff. by destruct Hs as [-> ->]. }
  destruct (dv_validatorModified _) eqn:Em; [destruct (dv_validatorDeleted _) eqn:Ed|].
  - destruct (ap_deleted p d Ha s n Em Ed) as (x&->&Hs&Hx). cbn [mbind option_bind].
    destruct (base_DeleteValidator_spec x v Hok) as (v'&Hv'&Hok'&Hval&Hdel).
    { destruct Hs as [<- <-]. rewrite (Ho _ _ HKs). destruct Hx as [?|(?&?&?)]; [by left|right]. split; [done|]. by eapply applied_fresh. }
    exists v'. split_and!; [done..| |done]. by eapply Hset.
  - destruct (do_put p d Hd s n Em Ed) as (x&->&Hs&Hx&_). cbn [mbind option_bind].
    destruct (base_PutValidator_spec x v Hok) as (Hok'&Hval&Hdel).
    { by eapply applied_fresh. }
    { destruct Hs as [-> ->]. rewrite (Ho _ _ HKs). by apply (ap_put p d Ha). }
    eexists. split_and!; [done..| |done]. by eapply Hset.
  - exists v. split_and!; [done..| |done]. intros s' n'. case_decide as Hsn; [|done]. destruct Hsn as [-> ->]. by apply Ho.
Qed.

Lemma apply_slot_spec v s n :
  applied p d K v → ¬ K s n →
  ∃ v', apply_validatorDiff v (dent d s n) = Some v' ∧ applied p d (λ s' n', K s' n' ∨ s' = s ∧ n' = n) v'.
Proof.
  intros Hv HKs. pose proof Hv as [Hok Hn Ho Hnd Hod]. unfold apply_validatorDiff.
  destruct (apply_validator_spec v s n Hv HKs) as (v1&->&Hok1&Hval1&Hdel1). cbn [mbind option_bind].
  rewrite (it_loop_yields _ _ _ _ (NewTreeIterator_yields _)), slice_loop_each. cbn [mbind option_bind].
  fold (added d s n).
  assert (∀ x, x ∈ added d s n → in_slot s n x ∧ x ∈ all_added d ∧ candidate p d x) as Hadd.
  { intros x Hx. pose proof (do_slot p d Hd s n x Hx) as Hs. split_and!; [done|by eapply do_added|]. right. by destruct Hs as [-> ->]. }
  destruct (put_delegators_spec (added d s n) v1 Hok1) as (Hok2&Hval2&Hdel2).
  - apply NoDup_fmap_2_strong; [|apply sorted_lt_NoDup, tree_items_sorted]. intros x y Hx Hy. apply (do_unique p d Hd); by apply Hadd.
  - intros x Hx y Hy Hid. destruct (Hadd x Hx) as (Hsx&Hax&Hcx). destruct Hy as [Hy|Hy].
    + apply Hdel1 in Hy. by apply (applied_fresh v s n x Hv HKs Hsx Hax y); [left|].
    + simpl in Hy. rewrite Hval1 in Hy. case_decide as Hsn.
      * apply (candidate_not_dval p d s n x y); done.
      * by apply (applied_fresh v s n x Hv HKs Hsx Hax y); [right|].
  - set (v2 := foldl _ v1 _) in *.
    assert (∀ y, in_slot s n y → base_delegator v2 y ↔ candidate p d y) as Hcand.
    { intros y Hs. rewrite Hdel2, Hdel1. destruct Hs as [<- <-]. rewrite (Hod y HKs). unfold candidate. simpl. tauto. }
    assert (∀ i x, (i, x) ∈ go_range (dv_deletedDelegators (dent d s n)) → st_TxID x = i ∧ in_slot s n x ∧ candidate p d x) as Hgone.
    { intros i x Hx%elem_of_go_range. by apply (do_deleted_delegator p d Hd) in Hx as (_&?&?&?). }
    destruct (delete_delegators_spec (go_range (dv_deletedDelegators (dent d s n))) v2 Hok2) as (v3&->&Hok3&Hval3&Hdel3).
    { apply NoDup_fmap_2_strong; [|apply NoDup_go_range]. intros [i x] [j y] Hx Hy. simpl. intros ->.
      by rewrite <-(proj1 (Hgone i y Hx)), <-(proj1 (Hgone j y Hy)). }
    { intros x [[i y] [-> Hx]]%list_elem_of_fmap. apply Hgone in Hx as (_&?&?). by apply Hcand. }
    exists v3. split; [done|]. split; [done|..].
    + intros s' n' Hsn. rewrite Hval3, Hval2, Hval1. case_decide as Hc; [by destruct Hc as [-> ->]|].
      apply Hn. destruct Hsn as [?|?]; [done|by destruct Hc].
    + intros s' n' Hsn. rewrite Hval3, Hval2, Hval1, decide_False by tauto. apply Ho. tauto.
    + intros x Hsn. rewrite Hdel3. destruct (decide (st_SubnetID x = s ∧ st_NodeID x = n)) as [Hs|Hs].
      * rewrite (Hcand x Hs). unfold ddel. destruct Hs as [-> ->].
        enough (candidate p d x → x ∉ (go_range (dv_deletedDelegators (dent d s n))).*2 ↔
          dv_deletedDelegators (dent d s n) !! st_TxID x = None) by tauto.
        intros Hx. rewrite eq_None_not_Some. apply not_iff_compat. split.
        -- intros [[i y] [-> Hy]]%list_elem_of_fmap. exists y. simpl. rewrite (proj1 (Hgone _ _ Hy)). by apply elem_of_go_range.
        -- intros [y Hy%elem_of_go_range]. destruct (Hgone _ _ Hy) as (Hid&_&Hcy).
           assert (y = x) as -> by (apply (known_unique p d); auto using candidate_known). apply list_elem_of_fmap. by exists (st_TxID x, x).
      * rewrite Hdel2, Hdel1, (Hnd x) by tauto. split; [|intros ?; split; [by right|]].
        -- intros [[Hx|?] _]; [|done]. by apply Hadd in Hx as [Hx _].
        -- intros [[i y] [-> Hy]]%list_elem_of_fmap. by apply Hgone in Hy as (_&?&_).
    + intros x Hsn. assert (¬ in_slot s n x) as Hs by (unfold in_slot; tauto). rewrite Hdel3, Hdel2, Hdel1, (Hod x) by tauto.
      split; [|intros ?; split; [by right|]].
      * intros [[Hx|?] _]; [|done]. by apply Hadd in Hx as [Hx _].
      * intros [[i y] [-> Hy]]%list_elem_of_fmap. by apply Hgone in Hy as (_&?&_).
Qed.
End slot.

Lemma applied_ext p d (K K' : ID → NodeID → Prop) v :
  applied p d K v → (∀ s n, Decision (K s n)) →
  (∀ s n, K s n → K' s n) → (∀ s n, K' s n → K s n ∨ dent d s n = diffValidator_zero) → applied p d K' v.
Proof.
  intros [Hok Hn Ho Hnd Hod] HK Hin Hout.
  assert (∀ s n, dent d s n = diffValidator_zero → dval p d s n = base_validator p s n) as Hz1 by (intros s n Hz; unfold dval; by rewrite Hz).
  assert (∀ x, dent d (st_SubnetID x) (st_NodeID x) = diffValidator_zero → ddel p d x ↔ base_delegator p x) as Hz2.
  { intros x Hz. unfold ddel, candidate, added. rewrite Hz. simpl. rewrite lookup_empty, elem_of_nil. tauto. }
  split; [done|..].
  - intros s n Hs. destruct (HK s n) as [?|HnK]; [auto|]. destruct (Hout s n Hs) as [?|?]; [done|]. rewrite Ho, Hz1; done.
  - intros s n Hs. apply Ho. auto.
  - intros x Hs. destruct (HK (st_SubnetID x) (st_NodeID x)) as [?|HnK]; [auto|]. destruct (Hout _ _ Hs) as [?|?]; [done|]. rewrite Hod, Hz2; done.
  - intros x Hs. apply Hod. auto.
Qed.

Lemma range_split {V} `{Countable L} (m : gmap L V) pre k e post :
  go_range m = pre ++ (k, e) :: post → m !! k = Some e ∧ k ∉ pre.*1.
Proof.
  intros Hm. split.
  - apply elem_of_go_range. rewrite Hm. apply elem_of_app. right. by left.
  - pose proof (NoDup_fst_go_range m) as Hnd. rewrite Hm, fmap_app, fmap_cons in Hnd. apply NoDup_app in Hnd as (_&Hnd&_).
    intros Hk. by apply (Hnd k Hk); left.
Qed.

Lemma apply_stakers_spec p d :
  base_ok p → diff_ok p d → applicable p d →
  ∃ v', apply_stakers d p = Some v' ∧ base_ok v' ∧ (∀ s n, base_validator v' s n = dval p d s n) ∧ (∀ x, base_delegator v' x ↔ ddel p d x).
Proof.
  intros Hp Hd Ha. unfold apply_stakers.
  edestruct (each_inv (λ v '(_, m), each (λ v '(_, e), apply_validatorDiff v e) (go_range m) v)
    (λ pre v, applied p d (λ s n, s ∈ pre.*1) v) (go_range (ds_validatorDiffs d)) p) as (v'&->&Hv').
  - split; try done; intros *; by intros ?%not_elem_of_nil.
  - intros pre [s m] post v Hm HK. apply range_split in Hm as [Hm Hs].
    edestruct (each_inv (λ v '(_, e), apply_validatorDiff v e)
      (λ pre' v, applied p d (λ s' n', s' ∈ pre.*1 ∨ s' = s ∧ n' ∈ pre'.*1) v) (go_range m) v) as (v1&->&Hv1).
    + apply (applied_ext _ _ _ _ _ HK); [intros; simpl; apply _|auto|].
      intros s' n' [?|[_ ?%not_elem_of_nil]]; [auto|done].
    + intros pre' [n e] post' v1 He Hv1. apply range_split in He as [He Hn].
      assert (dent d s n = e) as He' by (unfold dent, entry; rewrite Hm; simpl; by rewrite He).
      destruct (apply_slot_spec p d Hp Hd Ha _ _ v1 s n Hv1) as (v2&Hv2&Hap); [tauto|].
      exists v2. rewrite <-He'. split; [done|]. apply (applied_ext _ _ _ _ _ Hap); [intros; simpl; apply _|intros s' n'|intros s' n'];
        rewrite fmap_app, elem_of_app; simpl; rewrite list_elem_of_singleton; tauto.
    + exists v1. split; [done|]. apply (applied_ext _ _ _ _ _ Hv1); [intros; simpl; apply _|intros s' n'|intros s' n'];
        rewrite fmap_app, elem_of_app; simpl; rewrite list_elem_of_singleton; [tauto|].
      intros [?|Heq]; [auto|subst s']. destruct (decide (n' ∈ (go_range m).*1)) as [?|Hn]; [auto|right].
      unfold dent, entry. rewrite Hm. simpl. destruct (m !! n') as [e|] eqn:He; [|done]. destruct Hn.
      apply elem_of_go_range in He. by apply (list_elem_of_fmap_2 fst) in He.
  - exists v'. apply (applied_ext p d _ (λ _ _, True)) in Hv' as [Hok Hn _ Hnd _]; [|intros; simpl; apply _|done|].
    + split_and!; auto.
    + intros s n _. destruct (decide (s ∈ (go_range (ds_validatorDiffs d)).*1)) as [?|Hs]; [auto|right].
      unfold dent, entry. destruct (ds_validatorDiffs d !! s) as [m|] eqn:Hm; [|done]. destruct Hs.
      apply elem_of_go_range in Hm. by apply (list_elem_of_fmap_2 fst) in Hm.
Qed.
End apply.
