(* ===== verification/StakerRefine.v ===== *)
(** Stakers against their specification: a map from slots to validators and a map
    from transactions to delegators.  Differences over any set of stakers refine
    it, stacked as deep as blocks are processed, and applying one to the base
    leaves the same maps. *)

From Stdlib Require Import Strings.Byte.
From S2P Require Import Prelude Ids NodeBag Database GoHeap Stakers StakerIters StakerSets StakerDiff StakerApply.

(** ** The specification *)

Inductive staker_op :=
  | PutValidatorOp (x : Staker)
  | DeleteValidatorOp (x : Staker)
  | PutDelegatorOp (x : Staker)
  | DeleteDelegatorOp (x : Staker).

Definition slot (x : Staker) : ID * NodeID := (st_SubnetID x, st_NodeID x).

Record stakers_spec := mkStakersSpec {
  sp_validators : gmap (ID * NodeID) Staker;
  sp_delegators : gmap ID Staker;
  sp_used : gset ID;
}.

(** None where the caller breaks its contract: a transaction makes one staker, a
    slot takes one validator, and what is deleted is there. *)
Definition spec_step (sp : stakers_spec) (op : staker_op) : option stakers_spec :=
  match op with
  | PutValidatorOp x =>
      if decide (st_TxID x ∉ sp_used sp ∧ sp_validators sp !! slot x = None) then
        Some (mkStakersSpec (<[slot x := x]> (sp_validators sp)) (sp_delegators sp) ({[st_TxID x]} ∪ sp_used sp))
      else None
  | DeleteValidatorOp x =>
      if decide (sp_validators sp !! slot x = Some x) then
        Some (mkStakersSpec (delete (slot x) (sp_validators sp)) (sp_delegators sp) (sp_used sp))
      else None
  | PutDelegatorOp x =>
      if decide (st_TxID x ∉ sp_used sp) then
        Some (mkStakersSpec (sp_validators sp) (<[st_TxID x := x]> (sp_delegators sp)) ({[st_TxID x]} ∪ sp_used sp))
      else None
  | DeleteDelegatorOp x =>
      if decide (sp_delegators sp !! st_TxID x = Some x) then
        Some (mkStakersSpec (sp_validators sp) (delete (st_TxID x) (sp_delegators sp)) (sp_used sp))
      else None
  end.

Fixpoint spec_run (ops : list staker_op) (sp : stakers_spec) : option stakers_spec :=
  match ops with [] => Some sp | op :: ops => sp ← spec_step sp op; spec_run ops sp end.

Definition diff_op `{BTree} (d : diffStakers) (op : staker_op) : diffStakers :=
  match op with
  | PutValidatorOp x => diff_PutValidator x d
  | DeleteValidatorOp x => diff_DeleteValidator x d
  | PutDelegatorOp x => diff_PutDelegator x d
  | DeleteDelegatorOp x => diff_DeleteDelegator x d
  end.
Definition diff_run `{BTree} (ops : list staker_op) : diffStakers := foldl diff_op diffStakers_zero ops.

Record represents {T} `{StakerSetLaws T} (t : T) (sp : stakers_spec) : Prop := mkRepresents {
  re_ok : set_ok t;
  re_validator s n : validator_of t s n = sp_validators sp !! (s, n);
  re_delegator x : is_delegator t x ↔ sp_delegators sp !! st_TxID x = Some x;
  re_used x : member t x → st_TxID x ∈ sp_used sp;
}.

(** ** Simulation *)

Section sim.
Context {T : Type} `{StakerSetLaws T} `{BTree, !BTreeLaws}.
Implicit Types (p : T) (d : diffStakers) (x y : Staker).

Record sim p d sp : Prop := mkSim {
  si_parent : set_ok p;
  si_ok : diff_ok p d;
  si_validator s n : dval p d s n = sp_validators sp !! (s, n);
  si_delegator x : ddel p d x ↔ sp_delegators sp !! st_TxID x = Some x;
  si_used x : known p d x → st_TxID x ∈ sp_used sp;
}.

Lemma sim_zero p sp : represents p sp → sim p diffStakers_zero sp.
Proof.
  intros [Hok Hv Hd Hu]. assert (∀ s n, dent diffStakers_zero s n = diffValidator_zero) as Hz by (intros s n; unfold dent; simpl; by rewrite entry_empty).
  split; [done|apply diff_ok_zero|..].
  - intros s n. unfold dval. rewrite Hz. apply Hv.
  - intros x. rewrite <-Hd. unfold ddel, candidate, added. rewrite Hz. simpl. rewrite lookup_empty, elem_of_nil. tauto.
  - intros x [Hx|Hx]; [by apply Hu|]. unfold all_added in Hx. by apply not_elem_of_nil in Hx.
Qed.

Lemma sim_new p d sp x : sim p d sp → st_TxID x ∉ sp_used sp → new_tx p d x.
Proof. intros [_ _ _ _ Hu] Hx. split; [intros y Hy Hid|intros y Hy Hid]; apply Hx; rewrite <-Hid; apply Hu; [by left|by right]. Qed.

Lemma set_validator_insert (V : gmap (ID * NodeID) Staker) f x s n :
  (∀ s n, f s n = V !! (s, n)) → set_validator f x (Some x) s n = <[slot x := x]> V !! (s, n).
Proof.
  intros Hf. unfold set_validator. rewrite lookup_insert, Hf. apply decide_ext. unfold in_slot, slot. split; [by intros [-> ->]|by intros [= -> ->]].
Qed.
Lemma set_validator_delete (V : gmap (ID * NodeID) Staker) f x s n :
  (∀ s n, f s n = V !! (s, n)) → set_validator f x None s n = delete (slot x) V !! (s, n).
Proof.
  intros Hf. unfold set_validator. rewrite lookup_delete, Hf. apply decide_ext. unfold in_slot, slot. split; [by intros [-> ->]|by intros [= -> ->]].
Qed.

Lemma sim_known_put p d d' sp x :
  sim p d sp → (∀ y, y ∈ all_added d' → y = x ∨ y ∈ all_added d) → ∀ y, known p d' y → st_TxID y ∈ {[st_TxID x]} ∪ sp_used sp.
Proof.
  intros [_ _ _ _ Hu] Ha y [Hy|Hy]; [apply elem_of_union_r, Hu; by left|].
  apply Ha in Hy as [->|Hy]; [set_solver|]. apply elem_of_union_r, Hu. by right.
Qed.

Lemma sim_delegator_put p d d' sp x :
  sim p d sp → st_TxID x ∉ sp_used sp → (∀ y, ddel p d' y ↔ y = x ∨ ddel p d y) →
  ∀ y, ddel p d' y ↔ <[st_TxID x := x]> (sp_delegators sp) !! st_TxID y = Some y.
Proof.
  intros [Hp Hok _ Hd Hu] Hx Hd' y. rewrite Hd', lookup_insert. case_decide as Hid.
  - split; [|intros [= <-]; by left]. intros [->|[Hy _]]; [done|]. destruct Hx. rewrite Hid. apply Hu. by apply candidate_known.
  - rewrite Hd. split; [|by right]. intros [->|?]; done.
Qed.

Lemma sim_delegator_delete p d d' sp x :
  sim p d sp → sp_delegators sp !! st_TxID x = Some x → (∀ y, ddel p d' y ↔ ddel p d y ∧ y ≠ x) →
  ∀ y, ddel p d' y ↔ delete (st_TxID x) (sp_delegators sp) !! st_TxID y = Some y.
Proof.
  intros [_ _ _ Hd _] Hx Hd' y. rewrite Hd', Hd, lookup_delete. case_decide as Hid.
  - split; [|done]. intros [Hy Hne]. rewrite <-Hid, Hx in Hy. by injection Hy as ->.
  - split; [by intros [? _]|]. intros ?. split; [done|]. by intros ->.
Qed.

Lemma sim_step p d sp op sp' : sim p d sp → spec_step sp op = Some sp' → sim p (diff_op d op) sp'.
Proof.
  intros Hs Hop. pose proof Hs as [Hp Hok Hv Hd Hu]. destruct op as [x|x|x|x]; simpl in *; case_decide as Hc; [|done| |done| |done| |done]; injection Hop as <-.
  - destruct Hc as [Hx Hn]. pose proof (sim_new p d sp x Hs Hx) as Hnew.
    destruct (diff_PutValidator_ok p d x) as (Hok'&Hv'&Hd'); [done..|by rewrite Hv|]. split; simpl; [done..| | |].
    + intros s n. rewrite Hv'. by apply set_validator_insert.
    + intros y. by rewrite Hd'.
    + apply (sim_known_put p d); [done|]. intros y. apply tree_insert_items, Hnew.
  - destruct (diff_DeleteValidator_ok p d x) as (Hok'&Hv'&Hd'); [done..|by rewrite Hv|]. split; simpl; [done..| | |done].
    + intros s n. rewrite Hv'. by apply set_validator_delete.
    + intros y. by rewrite Hd'.
  - pose proof (sim_new p d sp x Hs Hc) as Hnew.
    destruct (diff_PutDelegator_ok p d x) as (Hok'&Hv'&Hd'); [done..|]. split; simpl; [done..| | |].
    + intros s n. by rewrite Hv'.
    + by apply (sim_delegator_put p d).
    + apply (sim_known_put p d); [done|]. intros y. apply tree_insert_items, Hnew.
  - destruct (diff_DeleteDelegator_ok p d x) as (Hok'&Hv'&Hd'); [done..|by apply Hd|]. split; simpl; [done..| | |done].
    + intros s n. by rewrite Hv'.
    + by apply (sim_delegator_delete p d).
Qed.

Lemma sim_run ops p d sp sp' : sim p d sp → spec_run ops sp = Some sp' → sim p (foldl diff_op d ops) sp'.
Proof.
  revert d sp. induction ops as [|op ops IH]; intros d sp Hs Hr; simpl in *; [by injection Hr as <-|].
  destruct (spec_step sp op) as [sp1|] eqn:E; [|done]. simpl in Hr. by eapply IH; [eapply sim_step|].
Qed.

Lemma sim_represents p d sp : sim p d sp → represents (mkStakersDiff d (Some p)) sp.
Proof.
  intros [Hp Hok Hv Hd Hu]. split.
  - by exists p.
  - intros s n. simpl. apply Hv.
  - intros x. simpl. apply Hd.
  - intros x Hx. apply Hu. by apply (sd_members p d x Hp Hok).
Qed.
End sim.

(** What the getters of a set answer, given its specification. *)
Record reads {T} `{StakerSetLaws T} (t : T) (sp : stakers_spec) : Prop := mkReads {
  rd_validator s n : GetValidator t s n = found (sp_validators sp !! (s, n));
  rd_delegators s n : ∃ it l, GetDelegatorIterator t s n = Some (Ok it) ∧ yields it l ∧ StronglySorted staker_lt l ∧
    ∀ x, x ∈ l ↔ sp_delegators sp !! st_TxID x = Some x ∧ slot x = (s, n);
  rd_stakers : ∃ it l, GetStakerIterator t = Some (Ok it) ∧ yields it l ∧ StronglySorted staker_lt l ∧
    ∀ x, x ∈ l ↔ sp_delegators sp !! st_TxID x = Some x ∨ sp_validators sp !! slot x = Some x;
}.

Lemma represents_reads {T} `{StakerSetLaws T} (t : T) sp : represents t sp → reads t sp.
Proof.
  intros [Hok Hv Hd Hu]. split.
  - intros s n. by rewrite GetValidator_spec, Hv.
  - intros s n. destruct (GetDelegatorIterator_spec t s n Hok) as (it&l&?&?&?&Hl). exists it, l. split_and!; [done..|].
    intros x. rewrite Hl, Hd. unfold in_slot, slot. by rewrite pair_eq.
  - destruct (GetStakerIterator_spec t Hok) as (it&l&?&?&?&Hl). exists it, l. split_and!; [done..|].
    intros x. by rewrite Hl, Hd, Hv.
Qed.

Lemma represents_new `{BTree, !BTreeLaws} : represents newBaseStakers (mkStakersSpec ∅ ∅ ∅).
Proof.
  split; [apply base_ok_new|..]; unfold member; simpl; intros *; unfold base_delegator, base_delegators, base_validator; simpl;
    rewrite ?entry_empty, ?lookup_empty; simpl; rewrite ?elem_of_nil; naive_solver.
Qed.

(** C31: A block's difference refines the specification of a set of stakers, whatever
    set its parent is (the base of the state or another difference): after any
    sequence of operations that keeps the callers' contract, the getters answer from
    the specification's maps, every iterator yields each staker once, in the order
    in which stakers move, and the difference can itself be a parent. *)
Theorem staker_diff_refines {T} `{StakerSetLaws T} `{BTree, !BTreeLaws} (p : T) sp ops sp' :
  represents p sp → spec_run ops sp = Some sp' →
  let D := mkStakersDiff (diff_run ops) (Some p) in represents D sp' ∧ reads D sp'.
Proof.
  intros Hr Hops. assert (represents (mkStakersDiff (diff_run ops) (Some p)) sp') as HD.
  { apply sim_represents. by eapply sim_run; [apply sim_zero|]. }
  split; [exact HD|]. by apply represents_reads.
Qed.

(** ** Applying *)

Section applying.
Context `{BTree, !BTreeLaws} `{GoRange}.
Implicit Types (v : baseStakers) (d : diffStakers) (x y : Staker).

Definition fills_free (sp : stakers_spec) (op : staker_op) : Prop :=
  match op with PutValidatorOp x => sp_validators sp !! slot x = None | _ => True end.

Lemma applicable_step v d sp0 sp op sp' :
  represents v sp0 → sim v d sp → applicable v d → spec_step sp op = Some sp' → fills_free sp0 op → applicable v (diff_op d op).
Proof.
  intros Hr Hs [Hput Hdel] Hop Hfree. pose proof Hs as [Hp Hok Hv Hd Hu]. destruct op as [x|x|x|x]; simpl in *; case_decide as Hc; try done.
  - destruct Hc as [Hx Hn]. split; intros s n; unfold added, diff_PutValidator; rewrite dent_put; case_decide as Hsl; simpl; try done; [|apply Hput|].
    + intros _ _. pose proof (re_validator v sp0 Hr s n) as E. simpl in E. rewrite E. destruct Hsl as [<- <-]. done.
    + intros Hm He. destruct (Hdel s n Hm He) as (y&?&?&[?|(?&Hy&?)]); exists y; eauto. split_and!; [done..|]. right. split_and!; [done| |done].
      apply tree_insert_items; [apply (sim_new v d sp x Hs Hx)|]. by right.
  - split; intros s n; unfold added, diff_DeleteValidator; rewrite dent_put; case_decide as Hsl; simpl; try done; [apply Hput| |apply Hdel].
    intros _ _. exists x. split_and!; [done..|]. assert (dval v d s n = Some x) as Hx by (rewrite Hv; destruct Hsl as [<- <-]; done).
    unfold dval in Hx. destruct (dv_validatorModified (dent d s n)) eqn:Em; [|by left]. right.
    destruct (dv_validatorDeleted (dent d s n)) eqn:Ed; [done|]. destruct (do_put v d Hok s n Em Ed) as (y&Hy&_&?&_&?).
    rewrite Hx in Hy. injection Hy as <-. auto.
  - split; intros s n; unfold added, diff_PutDelegator; rewrite dent_put; case_decide as Hsl; simpl; try done; [apply Hput|apply Hput| |].
    + intros Hm He. destruct (Hdel s n Hm He) as (y&?&?&[?|(?&Hy&Hna)]); exists y; eauto. split_and!; [done..|]. right.
      pose proof (sim_new v d sp x Hs Hc) as Hnew. split_and!; [done|apply tree_insert_items; [apply Hnew|by right]|].
      rewrite tree_insert_items; [|intros z Hz; by apply Hnew, (do_added v d Hok s n)]. intros [->|?]; [|done]. by apply (proj2 Hnew x).
    + intros Hm He. destruct (Hdel s n Hm He) as (y&?&?&[?|(?&Hy&?)]); exists y; eauto. split_and!; [done..|]. right. split_and!; [done| |done].
      apply tree_insert_items; [apply (sim_new v d sp x Hs Hc)|]. by right.
  - split; intros s n; unfold added, diff_DeleteDelegator; rewrite dent_put; case_decide as Hsl; simpl; try done; [apply Hput|apply Hput|apply Hdel|apply Hdel].
Qed.

Lemma applicable_run ops v d sp0 sp sp' :
  represents v sp0 → sim v d sp → applicable v d → spec_run ops sp = Some sp' → Forall (fills_free sp0) ops →
  applicable v (foldl diff_op d ops).
Proof.
  intros Hr. revert d sp. induction ops as [|op ops IH]; intros d sp Hs Ha Hrun Hf; simpl in *; [done|].
  apply Forall_cons in Hf as [Hop Hf]. destruct (spec_step sp op) as [sp1|] eqn:E; [|done]. simpl in Hrun.
  eapply IH; [by eapply sim_step|by eapply applicable_step|done..].
Qed.

Lemma applicable_zero v : applicable v diffStakers_zero.
Proof. split; intros s n; unfold dent; simpl; by rewrite entry_empty. Qed.
End applying.

(** Applying the difference leaves what it stood for. *)
Lemma apply_run `{BTree, !BTreeLaws} `{GoRange} (v : baseStakers) sp ops sp' :
  represents v sp → spec_run ops sp = Some sp' → Forall (fills_free sp) ops →
  ∃ v', apply_stakers (diff_run ops) v = Some v' ∧ represents v' sp'.
Proof.
  intros Hr Hops Hf. pose proof (sim_zero v sp Hr) as Hz. pose proof (sim_run ops v _ sp sp' Hz Hops) as Hs.
  destruct (apply_stakers_spec v (diff_run ops)) as (v'&Hv'&Hok&Hval&Hdel); [apply Hs|apply Hs| |].
  { eapply applicable_run; [done|done|apply applicable_zero|done|done]. }
  assert (represents v' sp') as HR.
  { split; [done| | |].
    - intros s n. simpl. rewrite Hval. apply Hs.
    - intros x. simpl. rewrite Hdel. apply Hs.
    - intros x Hx. apply Hs. apply (sd_members v (diff_run ops) x); [apply Hs|apply Hs|].
      destruct Hx as [Hx|Hx]; simpl in Hx; [left; by apply Hdel|right]. by rewrite <-Hval. }
  by exists v'.
Qed.

(** C32: Applying the difference of an accepted block to the base gives a base that
    stands for the same validators and delegators as the difference did, in whatever
    order the maps are ranged over, as long as no validator was put where the base
    already had one. *)
Theorem staker_apply_refines `{BTree, !BTreeLaws} `{GoRange} (v : baseStakers) sp ops sp' :
  represents v sp → spec_run ops sp = Some sp' → Forall (fills_free sp) ops →
  ∃ v', apply_stakers (diff_run ops) v = Some v' ∧ represents v' sp' ∧ reads v' sp'.
Proof.
  intros Hr Hops Hf. destruct (apply_run v sp ops sp' Hr Hops Hf) as (v'&Hv'&HR). exists v'. split_and!; [done..|]. by apply represents_reads.
Qed.

(** ** An example *)

Definition ex_staker (tx : Byte.byte) (weight start end_ next priority : Z) : Staker :=
  mkStaker (id1 tx) (node1 x01) PrimaryNetworkID weight start end_ 0 next priority.
Definition ex_validator : Staker := ex_staker x01 10 0 100 100 PrimaryNetworkValidatorCurrentPriority.
Definition ex_delegator1 : Staker := ex_staker x02 3 20 60 60 PrimaryNetworkDelegatorCurrentPriority.
Definition ex_delegator2 : Staker := ex_staker x03 4 10 40 40 PrimaryNetworkDelegatorCurrentPriority.
Definition ex_ops : list staker_op :=
  [PutValidatorOp ex_validator; PutDelegatorOp ex_delegator1; PutDelegatorOp ex_delegator2; DeleteDelegatorOp ex_delegator1].
Definition ex_spec : stakers_spec :=
  mkStakersSpec {[slot ex_validator := ex_validator]} {[id1 x03 := ex_delegator2]} {[id1 x01; id1 x02; id1 x03]}.

Lemma ex_run : spec_run ex_ops (mkStakersSpec ∅ ∅ ∅) = Some ex_spec.
Proof. vm_cast_no_check (eq_refl (Some ex_spec)). Qed.

Section example.
#[local] Existing Instances list_BTree list_BTreeLaws go_range_std.

Lemma staker_diff_refines_witness :
  reads (mkStakersDiff (diff_run ex_ops) (Some newBaseStakers)) ex_spec.
Proof.
  exact (proj2 (staker_diff_refines newBaseStakers (mkStakersSpec ∅ ∅ ∅) ex_ops ex_spec represents_new ex_run)).
Defined.

Lemma staker_apply_refines_witness :
  ∃ v', apply_stakers (diff_run ex_ops) newBaseStakers = Some v' ∧ represents v' ex_spec ∧ reads v' ex_spec.
Proof.
  refine (staker_apply_refines newBaseStakers (mkStakersSpec ∅ ∅ ∅) ex_ops ex_spec represents_new ex_run _).
  repeat constructor; simpl; apply lookup_empty.
Defined.

(** A validator that replaces, within one block, one of the base: the difference
    has only the new one, but once it is applied the base still lists the old one
    among its stakers. *)
Definition ex_successor : Staker := ex_staker x04 10 100 200 200 PrimaryNetworkValidatorCurrentPriority.
Definition ex_replace : list staker_op := [DeleteValidatorOp ex_validator; PutValidatorOp ex_successor].

Definition ex_stale : bool :=
  match apply_stakers (diff_run ex_replace) (base_PutValidator ex_validator newBaseStakers) with
  | Some v => bool_decide (bt_Ascend (b_stakers v) = [ex_validator; ex_successor]) &&
      match base_GetValidator v PrimaryNetworkID (node1 x01) with Ok x => bool_decide (x = ex_successor) | Err _ => false end
  | None => false
  end.

Lemma apply_replacement_stale :
  is_Some (spec_run ex_replace (mkStakersSpec {[slot ex_validator := ex_validator]} ∅ {[id1 x01]})) ∧
  ∃ v', apply_stakers (diff_run ex_replace) (base_PutValidator ex_validator newBaseStakers) = Some v' ∧
    bt_Ascend (b_stakers v') = [ex_validator; ex_successor] ∧
    base_GetValidator v' PrimaryNetworkID (node1 x01) = Ok ex_successor.
Proof.
  split; [apply (bool_decide_eq_true_1 _); vm_cast_no_check (eq_refl true)|].
  assert (ex_stale = true) as Hs by (vm_compute; reflexivity). unfold ex_stale in Hs.
  destruct (apply_stakers (diff_run ex_replace) (base_PutValidator ex_validator newBaseStakers)) as [v|]; [|done]. exists v. split; [done|].
  apply andb_true_iff in Hs as [Hl Hg]. apply bool_decide_eq_true in Hl. split; [done|].
  destruct (base_GetValidator v _ _) as [x|]; [|done]. apply bool_decide_eq_true in Hg. by subst.
Qed.
End example.
