(* ===== verification/DelegatorWeight.v ===== *)
(** The weight that is delegated to a validator
    (src/vms/platformvm/txs/executor/proposal_tx_executor.go: GetNextStakerChangeTime,
    GetValidator, canDelegate and GetMaxWeight).

    [GetMaxWeight] walks the changes of a validator's delegators with a running
    weight; it is the maximum, over a period, of the weight of those who are then
    staking.  [canDelegate] decides with it whether a delegator fits. *)

From S2P Require Import Prelude SafeMath Ids NodeBag Database GoHeap Stakers StakerIters StakerChanges StakerSets.

Inductive exec_error := StateErr (e : state_error) | MathErr (e : math_error).

(** ** The code *)

Section code.
Context {C P : Type} `{StakerSet C, StakerSet P}.
Implicit Types (current : C) (pending : P).

Definition GetNextStakerChangeTime current pending : option (result state_error Z) :=
  r ← GetStakerIterator current;
  match r with
  | Err e => Some (Err e)
  | Ok currentStakerIterator =>
      r ← GetStakerIterator pending;
      match r with
      | Err e => Some (Err e)
      | Ok pendingStakerIterator =>
          '(hasCurrentStaker, currentStakerIterator) ← it_Next currentStakerIterator;
          '(hasPendingStaker, pendingStakerIterator) ← it_Next pendingStakerIterator;
          match hasCurrentStaker : bool, hasPendingStaker : bool with
          | true, true =>
              c ← it_Value currentStakerIterator;
              p ← it_Value pendingStakerIterator;
              Some (Ok (if decide (st_NextTime c < st_NextTime p) then st_NextTime c else st_NextTime p))
          | true, false => c ← it_Value currentStakerIterator; Some (Ok (st_NextTime c))
          | false, true => p ← it_Value pendingStakerIterator; Some (Ok (st_NextTime p))
          | false, false => Some (Err ErrNotFound)
          end
      end
  end.

(** [executor.GetValidator] *)
Definition GetAnyValidator current pending (subnetID : ID) (nodeID : NodeID) : result state_error Staker :=
  match GetValidator current subnetID nodeID with
  | Ok validator => Ok validator
  | Err ErrNotFound => GetValidator pending subnetID nodeID
  | Err e => Err e
  end.

(** The first loop of [GetMaxWeight]. *)
Definition add_weight (currentWeight : Z) (currentDelegator : Staker) : option (Z + math_error) :=
  Some (match Add64 currentWeight (st_Weight currentDelegator) with Ok w => inl w | Err e => inr e end).

(** The body of the second: the weight and the maximum so far; [inr (Ok w)] breaks. *)
Definition weigh (startTime endTime : Z) (w : Z * Z) (change : Staker * bool) : (Z * Z) + result math_error (Z * Z) :=
  let '(currentMax, currentWeight) := w in let '(delegator, isAdded) := change in
  if decide (endTime < st_NextTime delegator) then inr (Ok w)
  else
    let currentMax := if decide (st_NextTime delegator < startTime) then currentMax else Max64 currentMax [currentWeight] in
    match (if isAdded then Add64 else Sub64) currentWeight (st_Weight delegator) with
    | Ok currentWeight => inl (currentMax, currentWeight)
    | Err e => inr (Err e)
    end.

Fixpoint weigh_changes {I J} `{StakerIterator I, StakerIterator J} (fuel : nat) (startTime endTime : Z)
    (it : stakerDiffIterator I J) (w : Z * Z) : option (result math_error (Z * Z)) :=
  match fuel with
  | O => None
  | S fuel =>
      '(more, it) ← diffIterator_Next it;
      if more : bool then
        let '(delegator, isAdded) := diffIterator_Value it in
        delegator ← delegator;
        match weigh startTime endTime w (delegator, isAdded) with
        | inl w => weigh_changes fuel startTime endTime it w
        | inr r => Some r
        end
      else Some (Ok w)
  end.

Definition GetMaxWeight current pending (validator : Staker) (startTime endTime : Z) : option (result exec_error Z) :=
  r ← GetDelegatorIterator current (st_SubnetID validator) (st_NodeID validator);
  match r with
  | Err e => Some (Err (StateErr e))
  | Ok currentDelegatorIterator =>
      r ← it_loop add_weight currentDelegatorIterator (st_Weight validator);
      match r with
      | inr e => Some (Err (MathErr e))
      | inl currentWeight =>
          r ← GetDelegatorIterator current (st_SubnetID validator) (st_NodeID validator);
          match r with
          | Err e => Some (Err (StateErr e))
          | Ok currentDelegatorIterator =>
              r ← GetDelegatorIterator pending (st_SubnetID validator) (st_NodeID validator);
              match r with
              | Err e => Some (Err (StateErr e))
              | Ok pendingDelegatorIterator =>
                  delegatorChangesIterator ← NewStakerDiffIterator currentDelegatorIterator pendingDelegatorIterator;
                  r ← weigh_changes (S (it_left currentDelegatorIterator + 2 * it_left pendingDelegatorIterator))
                        startTime endTime delegatorChangesIterator (0, currentWeight);
                  match r with
                  | Err e => Some (Err (MathErr e))
                  | Ok (currentMax, currentWeight) => Some (Ok (Max64 currentMax [currentWeight]))
                  end
              end
          end
      end
  end.

Definition canDelegate current pending (validator : Staker) (weightLimit : Z) (delegator : Staker) : option (result exec_error bool) :=
  if decide (st_StartTime delegator < st_StartTime validator) then Some (Ok false)
  else if decide (st_EndTime validator < st_EndTime delegator) then Some (Ok false)
  else
    r ← GetMaxWeight current pending validator (st_StartTime delegator) (st_EndTime delegator);
    match r with
    | Err e => Some (Err e)
    | Ok maxWeight =>
        match Add64 maxWeight (st_Weight delegator) with
        | Err e => Some (Err (MathErr e))
        | Ok newMaxWeight => Some (Ok (bool_decide (newMaxWeight ≤ weightLimit)))
        end
    end.
End code.

(** ** The weight at an instant *)

Definition weights (l : list Staker) : Z := sumZ (st_Weight <$> l).

(** Those of [M], the current ones, who have not ended before [t], and those of [P],
    the pending ones, who stake at [t]. *)
Definition weight_at (w : Z) (M P : list Staker) (t : Z) : Z :=
  w + weights (filter (λ y, t ≤ st_EndTime y) M) + weights (filter (λ p, st_StartTime p ≤ t ≤ st_EndTime p) P).

Definition is_maximum (f : Z → Z) (lo hi m : Z) : Prop :=
  (∃ t, lo ≤ t ≤ hi ∧ f t = m) ∧ ∀ t, lo ≤ t ≤ hi → f t ≤ m.

Lemma weights_cons x l : weights (x :: l) = st_Weight x + weights l.
Proof. done. Qed.
#[export] Instance weights_Proper : Proper ((≡ₚ) ==> (=)) weights.
Proof. intros l l' Hl. unfold weights. induction Hl; rewrite ?fmap_cons, ?sumZ_cons; lia. Qed.

Definition weighty (x : Staker) : Prop := 0 ≤ st_Weight x.

Lemma weights_filter (Q : Staker → Prop) `{∀ x, Decision (Q x)} l : Forall weighty l → 0 ≤ weights (filter Q l) ≤ weights l.
Proof.
  induction 1 as [|x l Hx _ IH]; [done|]. rewrite filter_cons, weights_cons. unfold weighty in Hx. case_decide; rewrite ?weights_cons; lia.
Qed.
Lemma weights_all (Q : Staker → Prop) `{∀ x, Decision (Q x)} l : (∀ x, x ∈ l → Q x) → weights (filter Q l) = weights l.
Proof. intros Hl. by rewrite list_filter_id. Qed.
Lemma weights_none (Q : Staker → Prop) `{∀ x, Decision (Q x)} l : (∀ x, x ∈ l → ¬ Q x) → weights (filter Q l) = 0.
Proof.
  induction l as [|x l IH]; intros Hl; [done|]. rewrite filter_cons, decide_False by (apply Hl; by left). apply IH. intros y Hy. apply Hl. by right.
Qed.

(** ** The loop over the changes *)

Section loop.
Context (startTime endTime : Z) (w : Z).

(** The loop over a list of changes. *)
Fixpoint weigh_list (evs : list (Staker * bool)) (st : Z * Z) : result math_error (Z * Z) :=
  match evs with
  | [] => Ok st
  | e :: evs => match weigh startTime endTime st e with inl st => weigh_list evs st | inr r => r end
  end.

Lemma weigh_changes_list {I J} `{StakerIterator I, StakerIterator J} (it : stakerDiffIterator I J) evs fuel st :
  changes it evs → (length evs < fuel)%nat → weigh_changes fuel startTime endTime it st = Some (weigh_list evs st).
Proof.
  intros Hch. revert fuel st. induction Hch as [it it' Hn|it it' x b evs Hn Hv _ IH]; intros [|fuel] st Hf; cbn [weigh_changes weigh_list length] in *; try lia; rewrite Hn.
  { done. }
  cbn [mbind option_bind]. rewrite Hv. cbn [mbind option_bind]. destruct (weigh _ _ _ _); [|done]. apply IH. lia.
Qed.

Lemma Max64_max a b : Max64 a [b] = Z.max a b.
Proof. unfold Max64. simpl. case_decide; lia. Qed.

(** The bounds on the weights that keep the checked operations from failing. *)
Record fits (M P : list Staker) : Prop := mkFits {
  fi_current : Forall weighty M;
  fi_pending : Forall weighty P;
  fi_total : w + weights M + weights P ≤ MaxUint64;
}.

Lemma delegated_nonneg l : Forall weighty l → 0 ≤ weights l.
Proof. intros Hl. pose proof (weights_filter (λ _, True) l Hl). lia. Qed.

Lemma fits_remove x M M' P : M ≡ₚ x :: M' → fits M P → fits M' P ∧ weighty x ∧ weights M = st_Weight x + weights M'.
Proof.
  intros HM [Hc Hp Ht]. rewrite HM, weights_cons in *. apply Forall_cons in Hc as [Hx Hc]. unfold weighty in *.
  pose proof (delegated_nonneg M' Hc). split_and!; [split; [done..|lia]|done..].
Qed.

Lemma fits_add p M P : fits M (p :: P) → fits (promote p :: M) P ∧ weighty p ∧ weights (promote p :: M) = st_Weight p + weights M.
Proof.
  intros [Hc Hp Ht]. apply Forall_cons in Hp as [Hw Hp]. rewrite weights_cons in *. destruct (promote_fields p) as (Hpw&_&_).
  split_and!; [|done|by rewrite Hpw]. split; [constructor; [|done]|done|]; unfold weighty in *; rewrite ?weights_cons, Hpw; [done|lia].
Qed.

Lemma weigh_add p cm cw :
  0 ≤ cw → weighty p → cw + st_Weight p ≤ MaxUint64 → st_NextTime p ≤ endTime →
  weigh startTime endTime (cm, cw) (p, true) = inl (if decide (st_NextTime p < startTime) then cm else Z.max cm cw, cw + st_Weight p).
Proof.
  unfold weighty, MaxUint64. intros. unfold weigh. rewrite decide_False by lia. rewrite Max64_max.
  rewrite Add64_spec by (unfold is_uint; lia). rewrite decide_True by (unfold MaxUint64; lia). done.
Qed.

Lemma weigh_remove x cm cw :
  0 ≤ cw ≤ MaxUint64 → weighty x → st_Weight x ≤ cw → st_NextTime x ≤ endTime →
  weigh startTime endTime (cm, cw) (x, false) = inl (if decide (st_NextTime x < startTime) then cm else Z.max cm cw, cw - st_Weight x).
Proof.
  unfold weighty, MaxUint64. intros. unfold weigh. rewrite decide_False by lia. rewrite Max64_max.
  rewrite Sub64_spec by (unfold is_uint; lia). by rewrite decide_True by lia.
Qed.

(** What the loop answers: at least the weight at every instant of the period, and
    no more than a bound on those weights. *)
Definition loop_ok (M P : list Staker) (cm m : Z) : Prop :=
  cm ≤ m ∧ (∀ t, startTime ≤ t ≤ endTime → weight_at w M P t ≤ m) ∧
  ∀ b now, cm ≤ b → now ≤ endTime → (∀ y, y ∈ M → now ≤ st_EndTime y) → (∀ p, p ∈ P → now ≤ st_StartTime p) →
    (∀ t, startTime ≤ t ≤ endTime → now ≤ t → weight_at w M P t ≤ b) → m ≤ b.

Lemma weight_at_le M P t : Forall weighty M → (∀ p, p ∈ P → t < st_StartTime p) → weight_at w M P t ≤ w + weights M.
Proof.
  intros HM HP. unfold weight_at. rewrite (weights_none _ P) by (intros p Hp; specialize (HP p Hp); lia).
  pose proof (weights_filter (λ y, t ≤ st_EndTime y) M HM). lia.
Qed.

Lemma weight_at_ge M P t : Forall weighty P → (∀ y, y ∈ M → t ≤ st_EndTime y) → w + weights M ≤ weight_at w M P t.
Proof.
  intros HP HM. unfold weight_at. rewrite (weights_all _ M) by done.
  pose proof (weights_filter (λ p, st_StartTime p ≤ t ≤ st_EndTime p) P HP). lia.
Qed.

Lemma weight_at_perm M M' P t : M ≡ₚ M' → weight_at w M P t = weight_at w M' P t.
Proof. intros HM. unfold weight_at. by rewrite HM. Qed.

Lemma weight_at_remove x M P t :
  weight_at w (x :: M) P t = (if decide (t ≤ st_EndTime x) then st_Weight x else 0) + weight_at w M P t.
Proof. unfold weight_at. rewrite filter_cons. case_decide; rewrite ?weights_cons; lia. Qed.

Lemma weight_at_add p M P t :
  weight_at w (promote p :: M) P t = weight_at w M (p :: P) t + (if decide (t < st_StartTime p ∧ t ≤ st_EndTime p) then st_Weight p else 0).
Proof.
  rewrite weight_at_remove. destruct (promote_fields p) as (->&->&_). unfold weight_at. rewrite filter_cons.
  repeat case_decide; rewrite ?weights_cons; lia.
Qed.

(** The loop leaves when every change that is left comes after the period. *)
Lemma loop_ok_end M P cm :
  startTime ≤ endTime → Forall weighty M → Forall weighty P → (∀ y, y ∈ M → endTime ≤ st_EndTime y) → (∀ p, p ∈ P → endTime < st_StartTime p) →
  loop_ok M P cm (Z.max cm (w + weights M)).
Proof.
  intros Hse HwM HwP HM HP. split_and!; [lia| |].
  - intros t Ht. assert (weight_at w M P t ≤ w + weights M); [|lia]. apply weight_at_le; [done|]. intros p Hp. specialize (HP p Hp). lia.
  - intros b now Hb Hnow _ _ Hbound. pose proof (weight_at_ge M P endTime HwP HM). specialize (Hbound endTime). lia.
Qed.

Lemma loop_ok_remove x M M' P cm m :
  startTime ≤ endTime → M ≡ₚ x :: M' → Forall weighty M → Forall weighty P → (∀ y, y ∈ M' → st_EndTime x ≤ st_EndTime y) → (∀ p, p ∈ P → st_EndTime x < st_StartTime p) →
  st_EndTime x ≤ endTime →
  loop_ok M' P (if decide (st_EndTime x < startTime) then cm else Z.max cm (w + weights M)) m → loop_ok M P cm m.
Proof.
  intros Hse HM HwM HwP Hleast HP Hx (Hcm&Hup&Hlow). set (cm' := if decide _ then _ else _) in *.
  assert (weighty x ∧ Forall weighty M') as [Hwx HwM'] by (rewrite HM in HwM; by apply Forall_cons in HwM).
  assert (cm ≤ cm') as Hcm' by (unfold cm'; case_decide; lia).
  assert (∀ y, y ∈ M → st_EndTime x ≤ st_EndTime y) as Hall by (intros y; rewrite HM, elem_of_cons; intros [->|?]; [lia|auto]).
  split_and!; [lia| |].
  - intros t Ht. destruct (decide (t ≤ st_EndTime x)) as [Htx|Htx].
    + pose proof (weight_at_le M P t HwM) as Hle. unfold cm' in Hcm. rewrite decide_False in Hcm by lia.
      etrans; [apply Hle|lia]. intros p Hp. specialize (HP p Hp). lia.
    + rewrite (weight_at_perm M (x :: M')), weight_at_remove, decide_False by (done || lia). by apply Hup.
  - intros b now Hb Hnow HMn HPn Hbound. assert (now ≤ st_EndTime x) as Hnx by (apply HMn; rewrite HM; by left).
    apply (Hlow b (st_EndTime x)); [|done|done|intros p Hp; specialize (HP p Hp); lia|].
    + unfold cm'. case_decide; [done|]. pose proof (weight_at_ge M P (st_EndTime x) HwP Hall). specialize (Hbound (st_EndTime x)). lia.
    + intros t Ht Htx. specialize (Hbound t Ht ltac:(lia)). rewrite (weight_at_perm M (x :: M')), weight_at_remove in Hbound by done.
      unfold weighty in Hwx. case_decide; lia.
Qed.

Lemma loop_ok_add p M P cm m :
  startTime ≤ endTime → Forall weighty M → Forall weighty (p :: P) → (∀ y, y ∈ M → st_StartTime p ≤ st_EndTime y) → (∀ q, q ∈ P → st_StartTime p ≤ st_StartTime q) →
  st_StartTime p ≤ st_EndTime p → st_StartTime p ≤ endTime →
  loop_ok (promote p :: M) P (if decide (st_StartTime p < startTime) then cm else Z.max cm (w + weights M)) m → loop_ok M (p :: P) cm m.
Proof.
  intros Hse HwM HwP HM HP Hp Hpe (Hcm&Hup&Hlow). set (cm' := if decide _ then _ else _) in *.
  assert (cm ≤ cm') as Hcm' by (unfold cm'; case_decide; lia).
  assert (weighty p) as Hwp by (by apply Forall_cons in HwP as [? _]). unfold weighty in Hwp.
  split_and!; [lia| |].
  - intros t Ht. specialize (Hup t Ht). rewrite weight_at_add in Hup. case_decide; lia.
  - intros b now Hb Hnow HMn HPn Hbound. assert (now ≤ st_StartTime p) as Hnp by (apply HPn; by left).
    apply (Hlow b (st_StartTime p)); [|done| |done|].
    + unfold cm'. case_decide; [done|]. pose proof (weight_at_ge M (p :: P) (st_StartTime p) HwP HM). specialize (Hbound (st_StartTime p)). lia.
    + intros y [->|Hy]%elem_of_cons; [|auto]. by destruct (promote_fields p) as (_&->&_).
    + intros t Ht Htp. rewrite weight_at_add, decide_False by lia. specialize (Hbound t Ht ltac:(lia)). lia.
Qed.

Lemma weigh_list_run M P evs cm :
  startTime ≤ endTime → 0 ≤ w → staker_run M P evs → Forall current_ok M → Forall pending_ok P → StronglySorted staker_le P → fits M P →
  ∃ cm' cw', weigh_list evs (cm, w + weights M) = Ok (cm', cw') ∧ loop_ok M P cm (Z.max cm' cw').
Proof.
  intros Hse Hw Hrun. revert cm. induction Hrun as [|x M M' P evs HM Hleast HP Hrun IH|p P M evs HM Hrun IH]; intros cm HMo HPo Hso Hfit.
  - exists cm, (w + weights []). split; [done|]. apply loop_ok_end; [done|constructor|constructor|..]; intros ? ?%not_elem_of_nil; done.
  - pose proof (fits_remove x M M' P HM Hfit) as (Hfit'&Hwx&Hsum). destruct Hfit as [HwM HwP Htot].
    pose proof (fi_current _ _ Hfit') as HwM'.
    assert (current_ok x ∧ Forall current_ok M') as [Hxo HMo'] by (rewrite HM in HMo; by apply Forall_cons in HMo). unfold current_ok in Hxo.
    assert (∀ y, y ∈ M' → st_EndTime x ≤ st_EndTime y) as Hle.
    { intros y Hy. pose proof (staker_le_time _ _ (Hleast y Hy)). pose proof (proj1 (Forall_forall _ _) HMo' y Hy) as Hyo. unfold current_ok in Hyo. lia. }
    pose proof (delegated_nonneg M' HwM'). pose proof (delegated_nonneg P HwP). unfold weighty in Hwx.
    destruct (decide (endTime < st_NextTime x)) as [Hend|Hend].
    + exists cm, (w + weights M). split; [simpl; by rewrite decide_True|]. apply loop_ok_end; try done.
      * intros y. rewrite HM, elem_of_cons. intros [->|Hy]; [lia|]. specialize (Hle y Hy). lia.
      * intros p Hp. specialize (HP p Hp). lia.
    + cbn [weigh_list]. rewrite weigh_remove by (unfold weighty; lia).
      replace (w + weights M - st_Weight x) with (w + weights M') by lia.
      destruct (IH (if decide (st_NextTime x < startTime) then cm else Z.max cm (w + weights M))) as (cm'&cw'&Heq&Hloop); [done..|].
      exists cm', cw'. split; [done|]. rewrite Hxo in *. apply (loop_ok_remove x M M'); try done. lia.
  - pose proof (fits_add p M P Hfit) as (Hfit'&Hwp&Hsum). destruct Hfit as [HwM HwP Htot]. rewrite weights_cons in Htot.
    apply Forall_cons in HPo as [Hpo HPo]. pose proof (promote_current p Hpo) as Hpc. destruct Hpo as (Hpt&Hpe&_).
    apply StronglySorted_cons in Hso as [Hmin Hso].
    assert (∀ q, q ∈ P → st_StartTime p ≤ st_StartTime q) as Hle.
    { intros q Hq. pose proof (proj1 (Forall_forall _ _) Hmin q Hq) as Hpq%staker_le_time.
      pose proof (proj1 (Forall_forall _ _) HPo q Hq) as (Hqt&_). lia. }
    pose proof (delegated_nonneg M HwM). pose proof (fi_pending _ _ Hfit') as HwP'. pose proof (delegated_nonneg P HwP'). unfold weighty in Hwp.
    destruct (decide (endTime < st_NextTime p)) as [Hend|Hend].
    + exists cm, (w + weights M). split; [simpl; by rewrite decide_True|]. apply loop_ok_end; try done.
      * intros y Hy. specialize (HM y Hy). lia.
      * intros q [->|Hq]%elem_of_cons; [lia|]. specialize (Hle q Hq). lia.
    + cbn [weigh_list]. rewrite weigh_add by (unfold weighty; lia).
      replace (w + weights M + st_Weight p) with (w + weights (promote p :: M)) by lia.
      destruct (IH (if decide (st_NextTime p < startTime) then cm else Z.max cm (w + weights M))) as (cm'&cw'&Heq&Hloop);
        [by constructor|done..|].
      exists cm', cw'. split; [done|]. rewrite Hpt in *. apply loop_ok_add; try done. lia.
Qed.
End loop.

(** ** The answers *)

Lemma max_exists (f : Z → Z) lo hi : lo ≤ hi → ∃ t, lo ≤ t ≤ hi ∧ ∀ u, lo ≤ u ≤ hi → f u ≤ f t.
Proof.
  intros Hle. pattern hi. revert hi Hle. apply Zlt_lower_bound_ind. intros hi IH Hle.
  destruct (decide (lo = hi)) as [->|Hne]; [exists hi; split; [lia|]; intros u Hu; by replace u with hi by lia|].
  destruct (IH (hi - 1) ltac:(lia)) as (t&Ht&Hmax). destruct (decide (f t ≤ f hi)).
  - exists hi. split; [lia|]. intros u Hu. destruct (decide (u = hi)) as [->|]; [lia|]. specialize (Hmax u ltac:(lia)). lia.
  - exists t. split; [lia|]. intros u Hu. destruct (decide (u = hi)) as [->|]; [lia|]. apply Hmax. lia.
Qed.

Lemma lower_bound (f : Staker → Z) (l : list Staker) b : ∃ now, now ≤ b ∧ ∀ x, x ∈ l → now ≤ f x.
Proof.
  induction l as [|x l [now [Hb Hnow]]].
  - exists b. split; [lia|]. by intros x ?%not_elem_of_nil.
  - exists (Z.min now (f x)). split; [lia|]. intros y [->|Hy]%elem_of_cons; [lia|]. specialize (Hnow y Hy). lia.
Qed.

Lemma loop_ok_maximum startTime endTime w M P m :
  startTime ≤ endTime → 0 ≤ w → Forall weighty M → Forall weighty P →
  loop_ok startTime endTime w M P 0 m → is_maximum (weight_at w M P) startTime endTime m.
Proof.
  intros Hse Hw HM HP (Hm&Hup&Hlow). split; [|done]. destruct (max_exists (weight_at w M P) startTime endTime Hse) as (t&Ht&Hmax).
  exists t. split; [done|]. specialize (Hup t Ht). destruct (lower_bound st_EndTime M endTime) as (n1&Hn1&H1).
  destruct (lower_bound st_StartTime P n1) as (n2&Hn2&H2). enough (m ≤ weight_at w M P t) by lia. apply (Hlow _ n2); [|lia| |done|auto].
  - unfold weight_at. pose proof (weights_filter (λ y, t ≤ st_EndTime y) M HM).
    pose proof (weights_filter (λ p, st_StartTime p ≤ t ≤ st_EndTime p) P HP). lia.
  - intros y Hy. specialize (H1 y Hy). lia.
Qed.

(** The sum of the first loop. *)
Lemma add_weights_sum l w : 0 ≤ w → Forall weighty l → w + weights l ≤ MaxUint64 → slice_loop add_weight l w = Some (inl (w + weights l)).
Proof.
  revert w. induction l as [|x l IH]; intros w Hw Hl Ht; [unfold weights; by rewrite fmap_nil, sumZ_nil, Z.add_0_r|].
  apply Forall_cons in Hl as [Hx Hl]. rewrite weights_cons in Ht. unfold weighty, MaxUint64 in *. pose proof (delegated_nonneg l Hl).
  simpl. rewrite Add64_spec by (unfold is_uint; lia). rewrite decide_True by (unfold MaxUint64; lia). rewrite IH by (done || lia).
  do 2 f_equal. rewrite weights_cons. lia.
Qed.

(** The delegators of a validator, in any order. *)
Definition delegators_of {T} `{StakerSetLaws T} (t : T) (validator : Staker) (l : list Staker) : Prop :=
  NoDup l ∧ ∀ x, x ∈ l ↔ is_delegator t x ∧ in_slot (st_SubnetID validator) (st_NodeID validator) x.

Lemma delegators_of_iterator {T} `{StakerSetLaws T} (t : T) validator l :
  set_ok t → delegators_of t validator l →
  ∃ it l', GetDelegatorIterator t (st_SubnetID validator) (st_NodeID validator) = Some (Ok it) ∧ yields it l' ∧ l' ≡ₚ l ∧ StronglySorted staker_le l'.
Proof.
  intros Hok [Hnd Hl]. destruct (GetDelegatorIterator_spec t (st_SubnetID validator) (st_NodeID validator) Hok) as (it&l'&?&?&Hs&Hl').
  exists it, l'. split_and!; [done..| |].
  - apply NoDup_Permutation; [|done|intros x; by rewrite Hl, Hl'].
    clear -Hs. induction Hs as [|x l' _ IH Hx]; constructor; [|done]. intros Hin. apply (staker_lt_irrefl x). by apply (proj1 (Forall_forall _ _) Hx).
  - clear -Hs. induction Hs as [|x l' _ IH Hx]; constructor; [done|]. eapply Forall_impl; [exact Hx|]. apply staker_lt_le.
Qed.

Section answers.
Context {C P : Type} `{StakerSetLaws C, StakerSetLaws P}.
Implicit Types (current : C) (pending : P).

(** What the callers of [GetMaxWeight] provide: the delegators of the validator,
    those who are current and those who are pending, with weights that fit. *)
Record delegation current pending validator (cur pend : list Staker) : Prop := mkDelegation {
  dg_current : set_ok current;
  dg_pending : set_ok pending;
  dg_cur : delegators_of current validator cur;
  dg_pend : delegators_of pending validator pend;
  dg_cur_ok : Forall current_ok cur;
  dg_pend_ok : Forall pending_ok pend;
  dg_validator : weighty validator;
  dg_fits : fits (st_Weight validator) cur pend;
}.

Lemma GetMaxWeight_spec current pending validator cur pend startTime endTime :
  delegation current pending validator cur pend → startTime ≤ endTime →
  ∃ m, GetMaxWeight current pending validator startTime endTime = Some (Ok m) ∧
    is_maximum (weight_at (st_Weight validator) cur pend) startTime endTime m.
Proof.
  intros [Hc Hp Hcur Hpend Hco Hpo Hv Hfit] Hse.
  destruct (delegators_of_iterator current validator cur Hc Hcur) as (ci&M&Hci&Hcy&HM&HMs).
  destruct (delegators_of_iterator pending validator pend Hp Hpend) as (pi&Q&Hpi&Hpy&HQ&HQs).
  assert (fits (st_Weight validator) M Q) as HfitM by (destruct Hfit; split; by rewrite ?HM, ?HQ).
  assert (Forall current_ok M) as HMo by (by rewrite HM). assert (Forall pending_ok Q) as HQo by (by rewrite HQ).
  pose proof HfitM as [HMw HQw Htot]. pose proof (delegated_nonneg Q HQw).
  unfold GetMaxWeight. rewrite Hci. cbn [mbind option_bind]. rewrite (it_loop_yields _ _ _ _ Hcy), add_weights_sum by (done || lia).
  cbn [mbind option_bind]. rewrite Hpi. cbn [mbind option_bind].
  destruct (NewStakerDiffIterator_changes ci pi M Q) as (it&evs&->&Hch&Hrun); try done. cbn [mbind option_bind].
  rewrite (weigh_changes_list _ _ _ evs); [|done|].
  - destruct (weigh_list_run startTime endTime (st_Weight validator) M Q evs 0) as (cm&cw&->&Hloop); try done.
    exists (Z.max cm cw). split; [cbn [mbind option_bind]; by rewrite Max64_max|].
    apply loop_ok_maximum in Hloop as [(t&Ht&Hm) Hup]; [|done..].
    assert (∀ t, weight_at (st_Weight validator) M Q t = weight_at (st_Weight validator) cur pend t) as Heq
      by (intros u; unfold weight_at; by rewrite HM, HQ).
    split; [exists t; by rewrite <-Heq|]. intros u Hu. rewrite <-Heq. by apply Hup.
  - rewrite (staker_run_perm _ _ _ Hrun). unfold all_changes. rewrite length_app, length_fmap.
    assert (length (Q ≫= λ p, [(p, true); (promote p, false)]) = 2 * length Q)%nat as -> by (clear; induction Q as [|q Q IH]; [done|]; rewrite bind_cons, length_app, IH; simpl; lia).
    pose proof (it_left_yields ci M Hcy). pose proof (it_left_yields pi Q Hpy). lia.
Qed.

Lemma canDelegate_spec current pending validator cur pend weightLimit delegator :
  delegation current pending validator cur pend → st_StartTime delegator ≤ st_EndTime delegator → weighty delegator →
  st_Weight validator + weights cur + weights pend + st_Weight delegator ≤ MaxUint64 →
  ∃ b : bool, canDelegate current pending validator weightLimit delegator = Some (Ok b) ∧
    (b = true ↔ st_StartTime validator ≤ st_StartTime delegator ∧ st_EndTime delegator ≤ st_EndTime validator ∧
      ∀ t, st_StartTime delegator ≤ t ≤ st_EndTime delegator →
        weight_at (st_Weight validator) cur pend t + st_Weight delegator ≤ weightLimit).
Proof.
  intros Hdg Hse Hw Htot. unfold canDelegate. case_decide; [exists false; split; [done|]; split; [done|lia]|].
  case_decide; [exists false; split; [done|]; split; [done|lia]|].
  destruct (GetMaxWeight_spec _ _ _ _ _ (st_StartTime delegator) (st_EndTime delegator) Hdg Hse) as (m&->&(t&Ht&Hm)&Hup).
  cbn [mbind option_bind]. destruct Hdg as [_ _ _ _ _ _ Hv [Hcw Hpw _]]. unfold weighty, MaxUint64 in *.
  assert (0 ≤ m ≤ st_Weight validator + weights cur + weights pend).
  { rewrite <-Hm. unfold weight_at. pose proof (weights_filter (λ y, t ≤ st_EndTime y) cur Hcw).
    pose proof (weights_filter (λ p, st_StartTime p ≤ t ≤ st_EndTime p) pend Hpw). lia. }
  rewrite Add64_spec by (unfold is_uint; lia). rewrite decide_True by (unfold MaxUint64; lia). eexists. split; [reflexivity|].
  rewrite bool_decide_eq_true. split.
  - intros Hle. split_and!; [lia..|]. intros u Hu. specialize (Hup u Hu). lia.
  - intros (_&_&Hall). specialize (Hall t Ht). lia.
Qed.

(** The next change is the first that any staker makes. *)
Lemma GetNextStakerChangeTime_spec current pending :
  set_ok current → set_ok pending →
  (∃ t, GetNextStakerChangeTime current pending = Some (Ok t) ∧
    (∃ x, (member current x ∨ member pending x) ∧ st_NextTime x = t) ∧
    ∀ x, member current x ∨ member pending x → t ≤ st_NextTime x) ∨
  GetNextStakerChangeTime current pending = Some (Err ErrNotFound) ∧ ∀ x, ¬ member current x ∧ ¬ member pending x.
Proof.
  intros Hc Hp. destruct (GetStakerIterator_spec current Hc) as (ci&lc&Hci&Hcy&Hcs&Hlc).
  destruct (GetStakerIterator_spec pending Hp) as (pi&lp&Hpi&Hpy&Hps&Hlp). unfold GetNextStakerChangeTime.
  rewrite Hci. cbn [mbind option_bind]. rewrite Hpi. cbn [mbind option_bind]. fold (member current) in *.
  assert (∀ x l y, StronglySorted staker_lt (x :: l) → y ∈ x :: l → st_NextTime x ≤ st_NextTime y) as Hfirst.
  { intros x l y [_ Hs]%StronglySorted_inv [->|Hy]%elem_of_cons; [lia|]. by apply staker_le_time, staker_lt_le, (proj1 (Forall_forall _ _) Hs). }
  assert (∀ x, member current x ↔ x ∈ lc) as Hmc by (intros x; symmetry; apply Hlc).
  assert (∀ x, member pending x ↔ x ∈ lp) as Hmp by (intros x; symmetry; apply Hlp).
  inversion Hcy as [ci' Hcn Hcnil|ci' c lc' Hcn Hcv Hcy' Hcr]; inversion Hpy as [pi' Hpn Hpnil|pi' p lp' Hpn Hpv Hpy' Hpr]; subst;
    rewrite Hcn; cbn [mbind option_bind]; rewrite Hpn; cbn [mbind option_bind]; rewrite ?Hcv, ?Hpv; cbn [mbind option_bind].
  - right. split; [done|]. intros x. rewrite Hmc, Hmp. split; apply not_elem_of_nil.
  - left. eexists. split; [reflexivity|]. split; [exists p; rewrite Hmp; split; [right; by left|done]|].
    intros x. rewrite Hmc, Hmp. intros [?%not_elem_of_nil|Hx]; [done|]. by apply (Hfirst p lp').
  - left. eexists. split; [reflexivity|]. split; [exists c; rewrite Hmc; split; [left; by left|done]|].
    intros x. rewrite Hmc, Hmp. intros [Hx|?%not_elem_of_nil]; [|done]. by apply (Hfirst c lc').
  - left. eexists. split; [reflexivity|]. split.
    + case_decide; [exists c; rewrite Hmc; split; [left; by left|done]|exists p; rewrite Hmp; split; [right; by left|done]].
    + intros x. rewrite Hmc, Hmp. intros [Hx|Hx]; [pose proof (Hfirst c lc' x Hcs Hx)|pose proof (Hfirst p lp' x Hps Hx)]; case_decide; lia.
Qed.
End answers.
