(* ===== verification/DelegatorLimit.v ===== *)
(** The limit on what is delegated to a validator, on the stakers of a block's
    state: [GetMaxWeight] and [canDelegate] over sets of stakers that stand for
    known validators and delegators, such as stacks of differences. *)

From Stdlib Require Import Strings.Byte.
From S2P Require Import Prelude SafeMath Ids NodeBag Database GoHeap Stakers StakerIters StakerChanges StakerSets StakerDiff StakerApply StakerRefine DelegatorWeight.

(** The delegators of the validator's slot. *)
Definition slot_delegators (sp : stakers_spec) (validator : Staker) : list Staker :=
  filter (λ x, slot x = slot validator) (map_to_list (sp_delegators sp)).*2.

Definition keyed (sp : stakers_spec) : Prop := map_Forall (λ i x, st_TxID x = i) (sp_delegators sp).

Lemma slot_delegators_of {T} `{StakerSetLaws T} (t : T) sp validator :
  represents t sp → keyed sp → delegators_of t validator (slot_delegators sp validator).
Proof.
  intros Hr Hk. split.
  - apply NoDup_filter, NoDup_fmap_2_strong; [|apply NoDup_map_to_list].
    intros [i x] [j y] Hx%elem_of_map_to_list Hy%elem_of_map_to_list. simpl. intros ->. by rewrite <-(Hk _ _ Hx), <-(Hk _ _ Hy).
  - intros x. unfold slot_delegators. rewrite list_elem_of_filter, (re_delegator t sp Hr). unfold slot, in_slot. rewrite pair_eq.
    rewrite list_elem_of_fmap. split.
    + intros [Hs ([i y]&->&Hy%elem_of_map_to_list)]. simpl in *. by rewrite (Hk _ _ Hy).
    + intros [Hx Hs]. split; [done|]. exists (st_TxID x, x). by rewrite elem_of_map_to_list.
Qed.

(** The delegators are as transactions make them, and all weights together fit. *)
Record staking (spc spp : stakers_spec) (validator : Staker) : Prop := mkStaking {
  sg_current : keyed spc;
  sg_pending : keyed spp;
  sg_current_ok : Forall (λ x, current_ok x ∧ weighty x) (slot_delegators spc validator);
  sg_pending_ok : Forall (λ x, pending_ok x ∧ weighty x) (slot_delegators spp validator);
  sg_validator : weighty validator;
  sg_fits : st_Weight validator + weights (slot_delegators spc validator) + weights (slot_delegators spp validator) ≤ MaxUint64;
}.

Lemma staking_delegation {C P} `{StakerSetLaws C, StakerSetLaws P} (current : C) (pending : P) spc spp validator :
  represents current spc → represents pending spp → staking spc spp validator →
  delegation current pending validator (slot_delegators spc validator) (slot_delegators spp validator).
Proof.
  intros Hc Hp [Hkc Hkp [Hco Hcw]%Forall_and [Hpo Hpw]%Forall_and Hv Hfit].
  split; [apply Hc|apply Hp|by apply slot_delegators_of..|done|done|done|done].
Qed.

(** C33: [GetMaxWeight] is the largest total weight of a validator, its own and that of
    the delegators who are staking to it, over the instants of a period: a current
    delegator counts until it ends, a pending one from its start to its end.  The
    walk over the changes does not fail when all weights together fit into 64 bits. *)
Theorem GetMaxWeight_maximum {C P} `{StakerSetLaws C, StakerSetLaws P} (current : C) (pending : P) spc spp validator startTime endTime :
  represents current spc → represents pending spp → staking spc spp validator → startTime ≤ endTime →
  ∃ m, GetMaxWeight current pending validator startTime endTime = Some (Ok m) ∧
    is_maximum (weight_at (st_Weight validator) (slot_delegators spc validator) (slot_delegators spp validator)) startTime endTime m.
Proof. intros Hc Hp Hs. by apply GetMaxWeight_spec, staking_delegation. Qed.

(** C34: [canDelegate] admits a delegator exactly when it stakes within the period of
    the validator and at no instant of its own period the total weight, with its own,
    exceeds the limit. *)
Theorem canDelegate_iff {C P} `{StakerSetLaws C, StakerSetLaws P} (current : C) (pending : P) spc spp validator weightLimit delegator :
  represents current spc → represents pending spp → staking spc spp validator →
  st_StartTime delegator ≤ st_EndTime delegator → weighty delegator →
  st_Weight validator + weights (slot_delegators spc validator) + weights (slot_delegators spp validator) + st_Weight delegator ≤ MaxUint64 →
  ∃ b : bool, canDelegate current pending validator weightLimit delegator = Some (Ok b) ∧
    (b = true ↔ st_StartTime validator ≤ st_StartTime delegator ∧ st_EndTime delegator ≤ st_EndTime validator ∧
      ∀ t, st_StartTime delegator ≤ t ≤ st_EndTime delegator →
        weight_at (st_Weight validator) (slot_delegators spc validator) (slot_delegators spp validator) t + st_Weight delegator ≤ weightLimit).
Proof. intros Hc Hp Hs. by apply canDelegate_spec, staking_delegation. Qed.

(** ** An example *)

Section example.
#[local] Existing Instances list_BTree list_BTreeLaws.

(** A validator of weight 10 with a current delegator of weight 4 until 40, and a
    pending one of weight 3 from 20 to 60. *)
Definition ex_current_ops : list staker_op := [PutValidatorOp ex_validator; PutDelegatorOp ex_delegator2].
Definition ex_current_spec : stakers_spec :=
  mkStakersSpec {[slot ex_validator := ex_validator]} {[id1 x03 := ex_delegator2]} {[id1 x01; id1 x03]}.
Definition ex_pending1 : Staker := ex_staker x05 3 20 60 20 PrimaryNetworkDelegatorPendingPriority.
Definition ex_pending_ops : list staker_op := [PutDelegatorOp ex_pending1].
Definition ex_pending_spec : stakers_spec := mkStakersSpec ∅ {[id1 x05 := ex_pending1]} {[id1 x05]}.

Definition ex_set (ops : list staker_op) : stakers_diff baseStakers := mkStakersDiff (diff_run ops) (Some newBaseStakers).

Lemma ex_set_represents ops sp : spec_run ops (mkStakersSpec ∅ ∅ ∅) = Some sp → represents (ex_set ops) sp.
Proof. intros Hr. apply sim_represents. by eapply sim_run; [apply sim_zero, represents_new|]. Qed.

Lemma ex_current_represents : represents (ex_set ex_current_ops) ex_current_spec.
Proof. apply ex_set_represents. vm_cast_no_check (eq_refl (Some ex_current_spec)). Qed.
Lemma ex_pending_represents : represents (ex_set ex_pending_ops) ex_pending_spec.
Proof. apply ex_set_represents. vm_cast_no_check (eq_refl (Some ex_pending_spec)). Qed.

Lemma ex_current_delegators : slot_delegators ex_current_spec ex_validator = [ex_delegator2].
Proof. unfold slot_delegators, ex_current_spec. simpl. rewrite map_to_list_singleton. simpl. by rewrite filter_cons, decide_True. Qed.
Lemma ex_pending_delegators : slot_delegators ex_pending_spec ex_validator = [ex_pending1].
Proof. unfold slot_delegators, ex_pending_spec. simpl. rewrite map_to_list_singleton. simpl. by rewrite filter_cons, decide_True. Qed.

Lemma ex_staking : staking ex_current_spec ex_pending_spec ex_validator.
Proof.
  split; rewrite ?ex_current_delegators, ?ex_pending_delegators.
  - by apply map_Forall_singleton.
  - by apply map_Forall_singleton.
  - apply Forall_singleton. unfold current_ok, weighty. simpl. lia.
  - apply Forall_singleton. unfold pending_ok, weighty, ex_pending1, ex_staker, PrimaryNetworkDelegatorPendingPriority. simpl. lia.
  - unfold weighty. simpl. lia.
  - apply Z.leb_le. reflexivity.
Qed.

Lemma GetMaxWeight_maximum_witness :
  ∃ m, GetMaxWeight (ex_set ex_current_ops) (ex_set ex_pending_ops) ex_validator 10 60 = Some (Ok m) ∧
    is_maximum (weight_at 10 (slot_delegators ex_current_spec ex_validator) (slot_delegators ex_pending_spec ex_validator)) 10 60 m.
Proof. apply (GetMaxWeight_maximum _ _ _ _ _ _ _ ex_current_represents ex_pending_represents ex_staking). lia. Defined.

(** The maximum is reached while both stake. *)
Lemma GetMaxWeight_example : GetMaxWeight (ex_set ex_current_ops) (ex_set ex_pending_ops) ex_validator 10 60 = Some (Ok 17).
Proof. vm_compute. reflexivity. Qed.

Lemma canDelegate_iff_witness :
  ∃ b : bool, canDelegate (ex_set ex_current_ops) (ex_set ex_pending_ops) ex_validator 20 (ex_staker x06 4 30 50 30 1) = Some (Ok b) ∧
    (b = true ↔ 0 ≤ 30 ∧ 50 ≤ 100 ∧ ∀ t, 30 ≤ t ≤ 50 →
      weight_at 10 (slot_delegators ex_current_spec ex_validator) (slot_delegators ex_pending_spec ex_validator) t + 4 ≤ 20).
Proof.
  apply (canDelegate_iff _ _ _ _ _ 20 (ex_staker x06 4 30 50 30 1) ex_current_represents ex_pending_represents ex_staking).
  - simpl. lia.
  - unfold weighty. simpl. lia.
  - rewrite ex_current_delegators, ex_pending_delegators. apply Z.leb_le. reflexivity.
Defined.

(** The delegator would be the fourth between 30 and 40. *)
Lemma canDelegate_example : canDelegate (ex_set ex_current_ops) (ex_set ex_pending_ops) ex_validator 20 (ex_staker x06 4 30 50 30 1) = Some (Ok false).
Proof. vm_compute. reflexivity. Qed.
End example.
