(* ===== verification/Reward.v ===== *)
(** Staking rewards (src/vms/platformvm/reward, and the split between a delegator and
    its validator of src/vms/platformvm/txs/executor/proposal_tx_executor.go).

    [Calculate] computes on integers of any size and rounds down once per division;
    the result is the exact formula of its comment, rounded down once, and never more
    than what is left to be minted. *)

From S2P Require Import Prelude SafeMath.

Definition PercentDenominator : Z := 1000000.
Definition consumptionRateDenominator : Z := PercentDenominator.

(** Durations are numbers of nanoseconds. *)
Record RewardConfig := mkRewardConfig {
  rc_MaxConsumptionRate : Z;
  rc_MinConsumptionRate : Z;
  rc_MintingPeriod : Z;
  rc_SupplyCap : Z;
}.

Record calculator := mkCalculator {
  maxSubMinConsumptionRate : Z;
  minConsumptionRate : Z;
  mintingPeriod : Z;
  supplyCap : Z;
}.

Definition NewCalculator (c : RewardConfig) : calculator :=
  mkCalculator (wrap64 (rc_MaxConsumptionRate c - rc_MinConsumptionRate c)) (rc_MinConsumptionRate c)
    (wrap64 (rc_MintingPeriod c)) (rc_SupplyCap c).

(** [big.Int.Div]: a division by zero panics. *)
Definition big_Div (x y : Z) : option Z := if decide (y = 0) then None else Some (x / y).

Definition Calculate (c : calculator) (stakedDuration stakedAmount currentSupply : Z) : option Z :=
  let bigStakedDuration := wrap64 stakedDuration in
  let adjustedConsumptionRateNumerator := maxSubMinConsumptionRate c * bigStakedDuration in
  let adjustedMinConsumptionRateNumerator := minConsumptionRate c * mintingPeriod c in
  let adjustedConsumptionRateNumerator := adjustedConsumptionRateNumerator + adjustedMinConsumptionRateNumerator in
  let adjustedConsumptionRateDenominator := mintingPeriod c * consumptionRateDenominator in
  let reward := wrap64 (supplyCap c - currentSupply) in
  let reward := reward * adjustedConsumptionRateNumerator in
  let reward := reward * stakedAmount in
  let reward := reward * bigStakedDuration in
  reward ← big_Div reward adjustedConsumptionRateDenominator;
  reward ← big_Div reward currentSupply;
  reward ← big_Div reward (mintingPeriod c);
  Some (wrap64 reward).

(** The reward of a delegator and what its validator keeps of it. *)
Definition split_reward (shares potentialReward : Z) : Z * Z :=
  let delegatorShares := wrap64 (PercentDenominator - shares) in
  let delegatorReward := wrap64 (delegatorShares * (potentialReward / PercentDenominator)) in
  let delegatorReward := match Mul64 delegatorShares potentialReward with
    | Ok optimisticReward => optimisticReward / PercentDenominator
    | Err _ => delegatorReward
    end in
  (delegatorReward, wrap64 (potentialReward - delegatorReward)).

(** ** The formula *)

Record config_ok (c : RewardConfig) : Prop := mkConfigOk {
  co_min : 0 ≤ rc_MinConsumptionRate c ≤ rc_MaxConsumptionRate c;
  co_max : rc_MaxConsumptionRate c ≤ PercentDenominator;
  co_period : 0 < rc_MintingPeriod c < 2 ^ 63;
  co_cap : is_u64 (rc_SupplyCap c);
}.

(** [remaining * (amount / supply) * rate * (duration / period)] with
    [rate = (min + (max - min) * (duration / period)) / denominator], as one
    quotient. *)
Definition reward_numerator (c : RewardConfig) (duration amount supply : Z) : Z :=
  (rc_SupplyCap c - supply) * amount *
  (rc_MinConsumptionRate c * rc_MintingPeriod c + (rc_MaxConsumptionRate c - rc_MinConsumptionRate c) * duration) * duration.
Definition reward_denominator (c : RewardConfig) (supply : Z) : Z :=
  PercentDenominator * rc_MintingPeriod c * rc_MintingPeriod c * supply.
Definition exact_reward (c : RewardConfig) (duration amount supply : Z) : Z :=
  reward_numerator c duration amount supply / reward_denominator c supply.

Section bounds.
Context (c : RewardConfig) (Hc : config_ok c).

Lemma rate_le duration :
  0 ≤ duration ≤ rc_MintingPeriod c →
  0 ≤ rc_MinConsumptionRate c * rc_MintingPeriod c + (rc_MaxConsumptionRate c - rc_MinConsumptionRate c) * duration ≤
    PercentDenominator * rc_MintingPeriod c.
Proof. destruct Hc as [? ? ? _]. nia. Qed.

Lemma exact_reward_bound duration amount supply :
  0 ≤ duration ≤ rc_MintingPeriod c → 0 ≤ amount ≤ supply → 0 < supply ≤ rc_SupplyCap c →
  0 ≤ exact_reward c duration amount supply ≤ rc_SupplyCap c - supply.
Proof.
  intros Hd Ha Hs. pose proof (rate_le duration Hd) as Hr. unfold exact_reward, reward_numerator, reward_denominator.
  set (rate := _ + _) in *. set (mp := rc_MintingPeriod c) in *. assert (0 < mp) as Hmp by apply Hc.
  assert (0 < PercentDenominator) by (unfold PercentDenominator; lia). set (pd := PercentDenominator) in *.
  set (left := rc_SupplyCap c - supply). assert (0 ≤ left) by lia.
  assert (0 ≤ rate * duration ≤ pd * mp * mp) as Hrd by nia.
  assert (0 ≤ left * amount ≤ left * supply) as Hla by nia.
  assert (0 < pd * mp * mp) as Hpm by nia. clearbody rate mp pd left.
  replace (left * amount * rate * duration) with ((left * amount) * (rate * duration)) by ring.
  split.
  - apply Z.div_pos; nia.
  - apply Z.div_le_upper_bound; [nia|].
    replace (pd * mp * mp * supply * left) with ((left * supply) * (pd * mp * mp)) by ring.
    apply Z.mul_le_mono_nonneg; lia.
Qed.

Lemma Calculate_exact duration amount supply :
  0 ≤ duration ≤ rc_MintingPeriod c → 0 ≤ amount ≤ supply → 0 < supply ≤ rc_SupplyCap c →
  Calculate (NewCalculator c) duration amount supply = Some (exact_reward c duration amount supply).
Proof.
  intros Hd Ha Hs. pose proof (exact_reward_bound duration amount supply Hd Ha Hs) as Hb.
  destruct Hc as [Hmin Hmax Hp Hcap]. unfold is_uint in Hcap.
  unfold Calculate, NewCalculator, PercentDenominator in *. cbn [maxSubMinConsumptionRate minConsumptionRate mintingPeriod supplyCap].
  rewrite (wrap_id 64 (rc_MaxConsumptionRate c - rc_MinConsumptionRate c)) by (unfold is_uint; lia).
  rewrite (wrap_id 64 (rc_MintingPeriod c)) by (unfold is_uint; lia).
  rewrite (wrap_id 64 duration) by (unfold is_uint; lia).
  rewrite (wrap_id 64 (rc_SupplyCap c - supply)) by (unfold is_uint; lia).
  unfold big_Div, consumptionRateDenominator, PercentDenominator. rewrite decide_False by nia. cbn [mbind option_bind].
  rewrite decide_False by lia. cbn [mbind option_bind]. rewrite decide_False by lia. cbn [mbind option_bind].
  rewrite !Z.div_div by nia. f_equal. unfold exact_reward, reward_numerator, reward_denominator, PercentDenominator in *.
  match goal with |- wrap64 (?a / ?b) = _ => replace (a / b) with
    ((rc_SupplyCap c - supply) * amount * (rc_MinConsumptionRate c * rc_MintingPeriod c + (rc_MaxConsumptionRate c - rc_MinConsumptionRate c) * duration) * duration /
     (1000000 * rc_MintingPeriod c * rc_MintingPeriod c * supply)) by (f_equal; ring) end.
  apply wrap_id. unfold is_uint. lia.
Qed.
End bounds.

(** C35: The potential reward is exact: the formula of the comment of [Calculate],
    rounded down once, although the code divides three times and works on integers of
    64 bits before and after; and what is minted never lifts the supply above its cap.
    With no supply at all the division panics. *)
Theorem Calculate_within_cap c duration amount supply :
  config_ok c → 0 ≤ duration ≤ rc_MintingPeriod c → 0 ≤ amount ≤ supply → supply ≤ rc_SupplyCap c →
  match Calculate (NewCalculator c) duration amount supply with
  | Some r => 0 < supply ∧ r = exact_reward c duration amount supply ∧ 0 ≤ r ∧ supply + r ≤ rc_SupplyCap c
  | None => supply = 0
  end.
Proof.
  intros Hc Hd Ha Hs. destruct (decide (supply = 0)) as [->|Hne].
  - unfold Calculate, big_Div. simpl. case_decide; [done|]. simpl. done.
  - rewrite (Calculate_exact c Hc) by lia. pose proof (exact_reward_bound c Hc duration amount supply Hd Ha ltac:(lia)). split_and!; lia.
Qed.

(** A year's stake of 2 000 tokens, of 360 million out of 720 million. *)
Lemma Calculate_within_cap_witness :
  let c := mkRewardConfig 120000 100000 (365 * 24 * 3600 * 10 ^ 9) (720 * 10 ^ 15) in
  exact_reward c (365 * 24 * 3600 * 10 ^ 9) (2000 * 10 ^ 9) (360 * 10 ^ 15) = 240 * 10 ^ 9.
Proof.
  intros c. assert (config_ok c) as Hc by (split; unfold is_uint, PercentDenominator; simpl; lia).
  pose proof (Calculate_within_cap c (365 * 24 * 3600 * 10 ^ 9) (2000 * 10 ^ 9) (360 * 10 ^ 15) Hc ltac:(simpl; lia) ltac:(lia) ltac:(simpl; lia)) as Hr.
  assert (Calculate (NewCalculator c) (365 * 24 * 3600 * 10 ^ 9) (2000 * 10 ^ 9) (360 * 10 ^ 15) = Some (240 * 10 ^ 9)) as E by (vm_compute; reflexivity).
  rewrite E in Hr. symmetry. apply Hr.
Defined.

(** ** The split *)

Lemma split_reward_spec shares potentialReward :
  0 ≤ shares ≤ PercentDenominator → is_u64 potentialReward →
  let '(delegator, delegatee) := split_reward shares potentialReward in
  0 ≤ delegator ∧ 0 ≤ delegatee ∧ delegator + delegatee = potentialReward ∧
  (PercentDenominator - shares) * (potentialReward / PercentDenominator) ≤ delegator ≤ (PercentDenominator - shares) * potentialReward / PercentDenominator.
Proof.
  intros Hs Hr. unfold split_reward. unfold is_uint in Hr.
  rewrite (wrap_id 64 (PercentDenominator - shares)) by (unfold is_uint, PercentDenominator in *; lia).
  rewrite Mul64_spec by (unfold is_uint, PercentDenominator in *; lia).
  set (k := PercentDenominator - shares) in *. assert (0 ≤ k ≤ PercentDenominator) as Hk by lia.
  assert (PercentDenominator = 1000000) as Hpd by done. rewrite Hpd in *. clear Hs. clearbody k.
  pose proof (Z.div_mod potentialReward 1000000 ltac:(lia)) as Hdm. pose proof (Z.mod_pos_bound potentialReward 1000000 ltac:(lia)) as Hmod.
  set (q := potentialReward / 1000000) in *. set (m := potentialReward mod 1000000) in *.
  assert (0 ≤ q) as Hq by (apply Z.div_pos; lia).
  assert (0 ≤ k * q ≤ potentialReward) as Hkq by nia.
  assert (k * q ≤ k * potentialReward / 1000000) as Hfloor by (apply Z.div_le_lower_bound; [lia|]; nia).
  assert (k * potentialReward / 1000000 ≤ potentialReward) as Hle by (apply Z.div_le_upper_bound; [lia|]; nia).
  case_decide.
  - rewrite wrap_id by (unfold is_uint; lia). split_and!; lia.
  - rewrite (wrap_id 64 (k * q)) by (unfold is_uint; lia). rewrite wrap_id by (unfold is_uint; lia). split_and!; lia.
Qed.
