(* ===== verification/PlatformTxs.v ===== *)
(** Transactions of the platform chain (src/vms/platformvm/txs) and what each has to
    satisfy on its own, before any state is looked at.

    A transaction that has passed is marked, and passes again without being looked
    at: [SyntacticVerify] returns the marked transaction. *)

From Stdlib Require Import Strings.Byte.
From S2P Require Import Prelude SafeMath Ids NodeBag Packer Database CodecTypes Codec GoStd Secp256k1fx Utxo PlatformUtxo PlatformUtxoSpec PlatformUtxoSafety Stakers Reward.
#[local] Open Scope node_scope.

(** ** Data *)

Record BaseTx := mkBaseTx {
  btx_NetworkID : Z;
  btx_BlockchainID : ID;
  btx_Outs : list TransferableOutput;
  btx_Ins : list TransferableInput;
  btx_Memo : bytes;
  btx_SyntacticallyVerified : bool;
  btx_unsignedBytes : bytes;
}.

Record AddValidatorTx := mkAddValidatorTx {
  av_Base : BaseTx;
  av_Validator : Validator;
  av_Stake : list TransferableOutput;
  av_RewardsOwner : iface;
  av_Shares : Z;
}.

Record AddSubnetValidatorTx := mkAddSubnetValidatorTx {
  as_Base : BaseTx;
  as_Validator : SubnetValidator;
  as_SubnetAuth : iface;
}.

Record AddDelegatorTx := mkAddDelegatorTx {
  ad_Base : BaseTx;
  ad_Validator : Validator;
  ad_Stake : list TransferableOutput;
  ad_RewardsOwner : iface;
}.

Record CreateChainTx := mkCreateChainTx {
  cc_Base : BaseTx;
  cc_SubnetID : ID;
  cc_ChainName : bytes;
  cc_VMID : ID;
  cc_FxIDs : list ID;
  cc_GenesisData : bytes;
  cc_SubnetAuth : iface;
}.

Record CreateSubnetTx := mkCreateSubnetTx { cs_Base : BaseTx; cs_Owner : iface }.

Record ImportTx := mkImportTx { im_Base : BaseTx; im_SourceChain : ID; im_ImportedInputs : list TransferableInput }.

Record ExportTx := mkExportTx { ex_Base : BaseTx; ex_DestinationChain : ID; ex_ExportedOutputs : list TransferableOutput }.

Record AdvanceTimeTx := mkAdvanceTimeTx { at_Time : Z }.
Definition at_Timestamp (tx : AdvanceTimeTx) : Z := time_Unix (to_int64 (at_Time tx)).

Record RewardValidatorTx := mkRewardValidatorTx { rv_TxID : ID }.

Inductive UnsignedTx :=
  | uAddValidator (tx : AddValidatorTx)
  | uAddSubnetValidator (tx : AddSubnetValidatorTx)
  | uAddDelegator (tx : AddDelegatorTx)
  | uCreateChain (tx : CreateChainTx)
  | uCreateSubnet (tx : CreateSubnetTx)
  | uImport (tx : ImportTx)
  | uExport (tx : ExportTx)
  | uAdvanceTime (tx : AdvanceTimeTx)
  | uRewardValidator (tx : RewardValidatorTx).

Record Tx := mkTx { tx_Unsigned : UnsignedTx; tx_Creds : list iface; tx_id : ID }.

(** What the verification of a transaction reads of [snow.Context]. *)
Record SnowContext := mkSnowContext { ctx_NetworkID : Z; ctx_ChainID : ID; ctx_SubnetID : ID; ctx_AVAXAssetID : ID }.

(** [InputIDs] and [Outputs]; an output set of nil is empty. *)
Definition base_InputIDs `{Crypto} (tx : BaseTx) : gset ID := list_to_set ((λ i, InputID (tin_UTXOID i)) <$> btx_Ins tx).
Definition import_InputUTXOs `{Crypto} (tx : ImportTx) : gset ID :=
  list_to_set ((λ i, InputID (tin_UTXOID i)) <$> im_ImportedInputs tx).

Definition unsigned_base (u : UnsignedTx) : option BaseTx :=
  match u with
  | uAddValidator tx => Some (av_Base tx)
  | uAddSubnetValidator tx => Some (as_Base tx)
  | uAddDelegator tx => Some (ad_Base tx)
  | uCreateChain tx => Some (cc_Base tx)
  | uCreateSubnet tx => Some (cs_Base tx)
  | uImport tx => Some (im_Base tx)
  | uExport tx => Some (ex_Base tx)
  | uAdvanceTime _ | uRewardValidator _ => None
  end.

Definition unsigned_InputIDs `{Crypto} (u : UnsignedTx) : gset ID :=
  match unsigned_base u with
  | None => ∅
  | Some base => match u with uImport tx => base_InputIDs base ∪ import_InputUTXOs tx | _ => base_InputIDs base end
  end.

Definition unsigned_Outputs (u : UnsignedTx) : list TransferableOutput :=
  match unsigned_base u with None => [] | Some base => btx_Outs base end.

Definition tx_UTXOs (tx : Tx) : list UTXO :=
  imap (λ i out, mkUTXO (mkUTXOID (tx_id tx) (wrap32 (Z.of_nat i))) (tout_Asset out) (tout_Out out)) (unsigned_Outputs (tx_Unsigned tx)).

(** ** SyntacticVerify *)

Inductive tx_error :=
| errSignedTxNotInitialized
| ErrWrongNetworkID | errWrongChainID | errMemoTooLong
| errTxOutput (e : avax_error) | errTxInput (e : avax_error)
| errTxOutputsNotSorted | errTxInputsNotSortedUnique
| errTooManyShares
| errTxValidator (e : validator_error)
| errTxOwner (e : fx_error)
| errStakeMath (e : math_error)
| errStakeNotAVAX
| errStakeWeightMismatch
| ErrCantValidatePrimaryNetwork | errNameTooLong | errInvalidVMID | errFxIDsNotSortedAndUnique | errGenesisTooLong
| errIllegalNameCharacter
| errNoImportInputs | errNoExportOutputs | ErrWrongLocktime
| errTxPanic.

Definition MaxMemoSize : Z := 256.
Definition MaxNameLen : Z := 128.
Definition MaxGenesisLen : Z := 1024 * 1024.

(** [avax.BaseTx.Verify] *)
Definition BaseTx_Verify (ctx : SnowContext) (t : BaseTx) : result tx_error unit :=
  if decide (btx_NetworkID t ≠ ctx_NetworkID ctx) then Err ErrWrongNetworkID
  else if decide (btx_BlockchainID t ≠ ctx_ChainID ctx) then Err errWrongChainID
  else if decide (MaxMemoSize < Z.of_nat (length (btx_Memo t))) then Err errMemoTooLong
  else Ok tt.

Definition map_err {E F A} (f : E → F) (r : result E A) : result F A := match r with Ok a => Ok a | Err e => Err (f e) end.

(** [if err := v.Verify(); err != nil] for every element. *)
Fixpoint verify_each {A E} (f : A → result E unit) (l : list A) : result E unit :=
  match l with
  | [] => Ok tt
  | x :: l => match f x with Err e => Err e | Ok _ => verify_each f l end
  end.

Section verify.
Context `{Crypto} (marshal : iface → option bytes) (ctx : SnowContext).

Definition base_SyntacticVerify (tx : BaseTx) : result tx_error unit :=
  if btx_SyntacticallyVerified tx then Ok tt
  else
    let? _ := BaseTx_Verify ctx tx in
    let? _ := verify_each (λ out, map_err errTxOutput (TransferableOutput_Verify out)) (btx_Outs tx) in
    let? _ := verify_each (λ i, map_err errTxInput (TransferableInput_Verify i)) (btx_Ins tx) in
    if negb (IsSortedTransferableOutputs marshal (btx_Outs tx)) then Err errTxOutputsNotSorted
    else if negb (IsSortedAndUniqueTransferableInputs (btx_Ins tx)) then Err errTxInputsNotSortedUnique
    else Ok tt.

Definition mark (tx : BaseTx) : BaseTx :=
  mkBaseTx (btx_NetworkID tx) (btx_BlockchainID tx) (btx_Outs tx) (btx_Ins tx) (btx_Memo tx) true (btx_unsignedBytes tx).

(** The loop over the staked outputs. *)
Fixpoint stake_weight (stake : list TransferableOutput) (totalStakeWeight : Z) : result tx_error Z :=
  match stake with
  | [] => Ok totalStakeWeight
  | out :: stake =>
      let? _ := map_err errTxOutput (TransferableOutput_Verify out) in
      match iface_Amount (tout_Out out) with
      | None => Err errTxPanic
      | Some amount =>
          let? newWeight := map_err errStakeMath (Add64 totalStakeWeight amount) in
          if decide (tout_Asset out ≠ ctx_AVAXAssetID ctx) then Err errStakeNotAVAX
          else stake_weight stake newWeight
      end
  end.

(** Both kinds of staker check the owner, the stake and its weight. *)
Definition verify_stake (vdr : Validator) (rewardsOwner : iface) (stake : list TransferableOutput) : result tx_error unit :=
  let? _ := map_err errTxValidator (validator_Verify vdr) in
  let? _ := map_err errTxOwner (iface_Verify rewardsOwner) in
  let? totalStakeWeight := stake_weight stake 0 in
  if negb (IsSortedTransferableOutputs marshal stake) then Err errTxOutputsNotSorted
  else if decide (totalStakeWeight ≠ v_Wght vdr) then Err errStakeWeightMismatch
  else Ok tt.

Definition AddValidatorTx_SyntacticVerify (tx : AddValidatorTx) : result tx_error AddValidatorTx :=
  if btx_SyntacticallyVerified (av_Base tx) then Ok tx
  else if decide (PercentDenominator < av_Shares tx) then Err errTooManyShares
  else
    let? _ := base_SyntacticVerify (av_Base tx) in
    let? _ := verify_stake (av_Validator tx) (av_RewardsOwner tx) (av_Stake tx) in
    Ok (mkAddValidatorTx (mark (av_Base tx)) (av_Validator tx) (av_Stake tx) (av_RewardsOwner tx) (av_Shares tx)).

Definition AddDelegatorTx_SyntacticVerify (tx : AddDelegatorTx) : result tx_error AddDelegatorTx :=
  if btx_SyntacticallyVerified (ad_Base tx) then Ok tx
  else
    let? _ := base_SyntacticVerify (ad_Base tx) in
    let? _ := verify_stake (ad_Validator tx) (ad_RewardsOwner tx) (ad_Stake tx) in
    Ok (mkAddDelegatorTx (mark (ad_Base tx)) (ad_Validator tx) (ad_Stake tx) (ad_RewardsOwner tx)).

Definition AddSubnetValidatorTx_SyntacticVerify (tx : AddSubnetValidatorTx) : result tx_error AddSubnetValidatorTx :=
  if btx_SyntacticallyVerified (as_Base tx) then Ok tx
  else
    let? _ := base_SyntacticVerify (as_Base tx) in
    let? _ := map_err errTxValidator (subnetValidator_Verify (as_Validator tx)) in
    let? _ := map_err errTxOwner (iface_Verify (as_SubnetAuth tx)) in
    Ok (mkAddSubnetValidatorTx (mark (as_Base tx)) (as_Validator tx) (as_SubnetAuth tx)).

(** A letter, a digit or a space of ASCII; the bytes of any other character are
    above it. *)
Definition legal_name_byte (b : byte) : bool :=
  let r := Z.of_N (to_N b) in
  bool_decide (65 ≤ r ≤ 90 ∨ 97 ≤ r ≤ 122 ∨ 48 ≤ r ≤ 57 ∨ r = 32).

Definition IsSortedAndUniqueIDs (l : list ID) : bool := IsSortedAndUnique (λ a b, bytes_ltb (id_bytes a) (id_bytes b)) l.

Definition CreateChainTx_SyntacticVerify (tx : CreateChainTx) : result tx_error CreateChainTx :=
  if btx_SyntacticallyVerified (cc_Base tx) then Ok tx
  else if decide (cc_SubnetID tx = PrimaryNetworkID) then Err ErrCantValidatePrimaryNetwork
  else if decide (MaxNameLen < Z.of_nat (length (cc_ChainName tx))) then Err errNameTooLong
  else if decide (cc_VMID tx = Empty) then Err errInvalidVMID
  else if negb (IsSortedAndUniqueIDs (cc_FxIDs tx)) then Err errFxIDsNotSortedAndUnique
  else if decide (MaxGenesisLen < Z.of_nat (length (cc_GenesisData tx))) then Err errGenesisTooLong
  else if negb (forallb legal_name_byte (cc_ChainName tx)) then Err errIllegalNameCharacter
  else
    let? _ := base_SyntacticVerify (cc_Base tx) in
    let? _ := map_err errTxOwner (iface_Verify (cc_SubnetAuth tx)) in
    Ok (mkCreateChainTx (mark (cc_Base tx)) (cc_SubnetID tx) (cc_ChainName tx) (cc_VMID tx) (cc_FxIDs tx) (cc_GenesisData tx) (cc_SubnetAuth tx)).

Definition CreateSubnetTx_SyntacticVerify (tx : CreateSubnetTx) : result tx_error CreateSubnetTx :=
  if btx_SyntacticallyVerified (cs_Base tx) then Ok tx
  else
    let? _ := base_SyntacticVerify (cs_Base tx) in
    let? _ := map_err errTxOwner (iface_Verify (cs_Owner tx)) in
    Ok (mkCreateSubnetTx (mark (cs_Base tx)) (cs_Owner tx)).

Definition ImportTx_SyntacticVerify (tx : ImportTx) : result tx_error ImportTx :=
  if btx_SyntacticallyVerified (im_Base tx) then Ok tx
  else if decide (length (im_ImportedInputs tx) = 0%nat) then Err errNoImportInputs
  else
    let? _ := base_SyntacticVerify (im_Base tx) in
    let? _ := verify_each (λ i, map_err errTxInput (TransferableInput_Verify i)) (im_ImportedInputs tx) in
    if negb (IsSortedAndUniqueTransferableInputs (im_ImportedInputs tx)) then Err errTxInputsNotSortedUnique
    else Ok (mkImportTx (mark (im_Base tx)) (im_SourceChain tx) (im_ImportedInputs tx)).

Definition verify_exported (out : TransferableOutput) : result tx_error unit :=
  let? _ := map_err errTxOutput (TransferableOutput_Verify out) in
  match tout_Out out with ifLockOut _ _ => Err ErrWrongLocktime | _ => Ok tt end.

Definition ExportTx_SyntacticVerify (tx : ExportTx) : result tx_error ExportTx :=
  if btx_SyntacticallyVerified (ex_Base tx) then Ok tx
  else if decide (length (ex_ExportedOutputs tx) = 0%nat) then Err errNoExportOutputs
  else
    let? _ := base_SyntacticVerify (ex_Base tx) in
    let? _ := verify_each verify_exported (ex_ExportedOutputs tx) in
    if negb (IsSortedTransferableOutputs marshal (ex_ExportedOutputs tx)) then Err errTxOutputsNotSorted
    else Ok (mkExportTx (mark (ex_Base tx)) (ex_DestinationChain tx) (ex_ExportedOutputs tx)).

Definition unsigned_SyntacticVerify (u : UnsignedTx) : result tx_error UnsignedTx :=
  match u with
  | uAddValidator tx => let? tx := AddValidatorTx_SyntacticVerify tx in Ok (uAddValidator tx)
  | uAddSubnetValidator tx => let? tx := AddSubnetValidatorTx_SyntacticVerify tx in Ok (uAddSubnetValidator tx)
  | uAddDelegator tx => let? tx := AddDelegatorTx_SyntacticVerify tx in Ok (uAddDelegator tx)
  | uCreateChain tx => let? tx := CreateChainTx_SyntacticVerify tx in Ok (uCreateChain tx)
  | uCreateSubnet tx => let? tx := CreateSubnetTx_SyntacticVerify tx in Ok (uCreateSubnet tx)
  | uImport tx => let? tx := ImportTx_SyntacticVerify tx in Ok (uImport tx)
  | uExport tx => let? tx := ExportTx_SyntacticVerify tx in Ok (uExport tx)
  | uAdvanceTime tx => Ok (uAdvanceTime tx)
  | uRewardValidator tx => Ok (uRewardValidator tx)
  end.

Definition tx_SyntacticVerify (tx : Tx) : result tx_error Tx :=
  if decide (tx_id tx = Empty) then Err errSignedTxNotInitialized
  else
    let? u := unsigned_SyntacticVerify (tx_Unsigned tx) in
    Ok (mkTx u (tx_Creds tx) (tx_id tx)).
End verify.

(** ** What a verified transaction satisfies *)

Section verified.
Context `{Crypto} (marshal : iface → option bytes) (ctx : SnowContext).

Abbreviation amounts_ok := (Forall (λ o : TransferableOutput, amount_ok (tout_Out o))).
Definition total_amount (outs : list TransferableOutput) : Z := sumZ ((λ o, amount (tout_Out o)) <$> outs).

Lemma total_amount_nonneg outs : amounts_ok outs → 0 ≤ total_amount outs.
Proof. intros Ho. apply sumZ_nonneg. apply Forall_fmap. eapply Forall_impl; [exact Ho|]. intros o. apply amount_nonneg. Qed.

(** The stake is in AVAX, and its weight is what it is worth. *)
Lemma stake_weight_sum stake t w :
  amounts_ok stake → is_u64 t → stake_weight ctx stake t = Ok w →
  w = t + total_amount stake ∧ Forall (λ o, tout_Asset o = ctx_AVAXAssetID ctx) stake.
Proof.
  revert t. induction stake as [|o stake IH]; intros t Hs Ht; cbn [stake_weight].
  { intros [= <-]. unfold total_amount. rewrite fmap_nil, sumZ_nil. split; [lia|constructor]. }
  apply Forall_cons in Hs as [Ho Hs]. destruct (map_err errTxOutput (TransferableOutput_Verify o)); simpl; [|done].
  destruct (iface_Amount (tout_Out o)) as [x|] eqn:Ex; [|done]. pose proof (Ho x Ex) as Hx.
  rewrite Add64_spec by done. case_decide as Hov; simpl; [|done]. case_decide as Has; [done|]. intros Hw.
  destruct (IH (t + x)) as [-> Hall]; [done|by unfold is_uint, MaxUint64 in *; lia|done|]. split; [|constructor; [by destruct (decide (tout_Asset o = ctx_AVAXAssetID ctx))|done]].
  unfold total_amount. rewrite fmap_cons, sumZ_cons. unfold amount at 2. rewrite Ex. simpl. lia.
Qed.

Definition staked (w : Z) (stake : list TransferableOutput) : Prop :=
  total_amount stake = w ∧ Forall (λ o, tout_Asset o = ctx_AVAXAssetID ctx) stake.

Lemma verify_stake_inv vdr owner stake :
  amounts_ok stake → verify_stake marshal ctx vdr owner stake = Ok tt → v_Wght vdr ≠ 0 ∧ staked (v_Wght vdr) stake.
Proof.
  intros Hs. unfold verify_stake, validator_Verify. case_decide as Hw; simpl; [done|].
  destruct (map_err errTxOwner (iface_Verify owner)); simpl; [|done].
  destruct (stake_weight ctx stake 0) as [w|] eqn:Ew; simpl; [|done].
  destruct (negb _); [done|]. case_decide as Hm; [done|]. intros _. split; [done|].
  apply stake_weight_sum in Ew as [Hsum Hall]; [|done|by unfold is_uint; lia]. split; [|done].
  assert (w = v_Wght vdr) by lia. lia.
Qed.

Definition unsigned_marked (u : UnsignedTx) : bool := match unsigned_base u with Some base => btx_SyntacticallyVerified base | None => false end.

(** A transaction is read without the mark, and verification alone sets it. *)
Definition honest (tx : Tx) : Prop :=
  unsigned_marked (tx_Unsigned tx) = true →
  ∃ tx0, unsigned_marked (tx_Unsigned tx0) = false ∧ tx_SyntacticVerify marshal ctx tx0 = Ok tx.

(** A transaction that is marked or passes has passed without the mark. *)
Lemma verified_unmarked tx tx' :
  honest tx → tx_SyntacticVerify marshal ctx tx = Ok tx' →
  ∃ tx0, unsigned_marked (tx_Unsigned tx0) = false ∧ tx_SyntacticVerify marshal ctx tx0 = Ok tx'.
Proof.
  intros Hh Hv. destruct (unsigned_marked (tx_Unsigned tx)) eqn:Em; [|by exists tx].
  destruct (Hh Em) as (tx0&Hm&H0). exists tx0. split; [done|]. rewrite H0, <-Hv. clear H0 Hh.
  unfold tx_SyntacticVerify in *. case_decide; [done|]. destruct tx as [u cr i]. simpl in *. destruct u as [t|t|t|t|t|t|t|t|t]; simpl in *; try done;
    unfold unsigned_marked in Em; simpl in Em; revert Hv;
    unfold AddValidatorTx_SyntacticVerify, AddSubnetValidatorTx_SyntacticVerify, AddDelegatorTx_SyntacticVerify, CreateChainTx_SyntacticVerify,
      CreateSubnetTx_SyntacticVerify, ImportTx_SyntacticVerify, ExportTx_SyntacticVerify; rewrite Em; simpl; by intros [= <-].
Qed.

Lemma AddValidator_passes t t' :
  AddValidatorTx_SyntacticVerify marshal ctx t = Ok t' →
  av_Validator t' = av_Validator t ∧ av_Stake t' = av_Stake t ∧ av_Shares t' = av_Shares t ∧
  (btx_SyntacticallyVerified (av_Base t) = false →
    av_Shares t ≤ PercentDenominator ∧ verify_stake marshal ctx (av_Validator t) (av_RewardsOwner t) (av_Stake t) = Ok tt).
Proof.
  unfold AddValidatorTx_SyntacticVerify. destruct (btx_SyntacticallyVerified (av_Base t)); [by intros [= <-]|].
  case_decide as Hs; [done|]. destruct (base_SyntacticVerify _ _ _) as [[]|]; simpl; [|done].
  destruct (verify_stake _ _ _ _ _) as [[]|]; simpl; [|done]. intros [= <-]. simpl. split_and!; [done..|]. intros _. split; [lia|done].
Qed.

Lemma AddDelegator_passes t t' :
  AddDelegatorTx_SyntacticVerify marshal ctx t = Ok t' →
  ad_Validator t' = ad_Validator t ∧ ad_Stake t' = ad_Stake t ∧
  (btx_SyntacticallyVerified (ad_Base t) = false → verify_stake marshal ctx (ad_Validator t) (ad_RewardsOwner t) (ad_Stake t) = Ok tt).
Proof.
  unfold AddDelegatorTx_SyntacticVerify. destruct (btx_SyntacticallyVerified (ad_Base t)); [by intros [= <-]|].
  destruct (base_SyntacticVerify _ _ _) as [[]|]; simpl; [|done].
  destruct (verify_stake _ _ _ _ _) as [[]|]; simpl; [|done]. by intros [= <-].
Qed.

Lemma AddSubnetValidator_passes t t' :
  AddSubnetValidatorTx_SyntacticVerify marshal ctx t = Ok t' →
  as_Validator t' = as_Validator t ∧
  (btx_SyntacticallyVerified (as_Base t) = false → sv_Subnet (as_Validator t) ≠ PrimaryNetworkID ∧ v_Wght (sv_Validator (as_Validator t)) ≠ 0).
Proof.
  unfold AddSubnetValidatorTx_SyntacticVerify. destruct (btx_SyntacticallyVerified (as_Base t)); [by intros [= <-]|].
  destruct (base_SyntacticVerify _ _ _) as [[]|]; simpl; [|done]. unfold subnetValidator_Verify, validator_Verify.
  case_decide; simpl; [done|]. case_decide; simpl; [done|]. destruct (map_err _ _); simpl; [|done]. by intros [= <-].
Qed.

(** Verification changes the mark alone; by the kind of transaction. *)
Lemma verified_kind tx tx' : tx_SyntacticVerify marshal ctx tx = Ok tx' →
  unsigned_SyntacticVerify marshal ctx (tx_Unsigned tx) = Ok (tx_Unsigned tx').
Proof. unfold tx_SyntacticVerify. case_decide; [done|]. destruct (unsigned_SyntacticVerify _ _ _); simpl; [|done]. by intros [= <-]. Qed.

Ltac by_kind u := destruct u; simpl; try match goal with |- context [result_bind ?r _] => destruct r eqn:?; simpl end; intros [=]; subst; eauto.

Lemma AddValidator_kind u t' : unsigned_SyntacticVerify marshal ctx u = Ok (uAddValidator t') → ∃ t, u = uAddValidator t ∧ AddValidatorTx_SyntacticVerify marshal ctx t = Ok t'.
Proof. by_kind u. Qed.
Lemma AddDelegator_kind u t' : unsigned_SyntacticVerify marshal ctx u = Ok (uAddDelegator t') → ∃ t, u = uAddDelegator t ∧ AddDelegatorTx_SyntacticVerify marshal ctx t = Ok t'.
Proof. by_kind u. Qed.
Lemma AddSubnetValidator_kind u t' : unsigned_SyntacticVerify marshal ctx u = Ok (uAddSubnetValidator t') → ∃ t, u = uAddSubnetValidator t ∧ AddSubnetValidatorTx_SyntacticVerify marshal ctx t = Ok t'.
Proof. by_kind u. Qed.

Lemma AddValidator_verified tx tx' t :
  honest tx → tx_Unsigned tx = uAddValidator t → tx_SyntacticVerify marshal ctx tx = Ok tx' → amounts_ok (av_Stake t) →
  av_Shares t ≤ PercentDenominator ∧ v_Wght (av_Validator t) ≠ 0 ∧ staked (v_Wght (av_Validator t)) (av_Stake t).
Proof.
  intros Hh Hu Hv Ha. destruct (verified_unmarked tx tx' Hh Hv) as (tx0&Hm&H0). apply verified_kind in Hv, H0. rewrite Hu in Hv. simpl in Hv.
  destruct (AddValidatorTx_SyntacticVerify marshal ctx t) as [t'|] eqn:Et; simpl in Hv; [|done]. injection Hv as Hv. rewrite <-Hv in H0.
  destruct (AddValidator_passes t t' Et) as (E1&E2&E3&_). apply AddValidator_kind in H0 as (t0&Eu&Et0). rewrite Eu in Hm.
  destruct (AddValidator_passes t0 t' Et0) as (F1&F2&F3&Hp). destruct (Hp Hm) as [Hs Hst].
  rewrite <-E1, <-E2, <-E3, F1, F2, F3 in *. split; [done|]. by eapply verify_stake_inv.
Qed.

Lemma AddDelegator_verified tx tx' t :
  honest tx → tx_Unsigned tx = uAddDelegator t → tx_SyntacticVerify marshal ctx tx = Ok tx' → amounts_ok (ad_Stake t) →
  v_Wght (ad_Validator t) ≠ 0 ∧ staked (v_Wght (ad_Validator t)) (ad_Stake t).
Proof.
  intros Hh Hu Hv Ha. destruct (verified_unmarked tx tx' Hh Hv) as (tx0&Hm&H0). apply verified_kind in Hv, H0. rewrite Hu in Hv. simpl in Hv.
  destruct (AddDelegatorTx_SyntacticVerify marshal ctx t) as [t'|] eqn:Et; simpl in Hv; [|done]. injection Hv as Hv. rewrite <-Hv in H0.
  destruct (AddDelegator_passes t t' Et) as (E1&E2&_). apply AddDelegator_kind in H0 as (t0&Eu&Et0). rewrite Eu in Hm.
  destruct (AddDelegator_passes t0 t' Et0) as (F1&F2&Hp). specialize (Hp Hm).
  rewrite <-E1, <-E2, F1, F2 in *. by eapply verify_stake_inv.
Qed.

Lemma AddSubnetValidator_verified tx tx' t :
  honest tx → tx_Unsigned tx = uAddSubnetValidator t → tx_SyntacticVerify marshal ctx tx = Ok tx' →
  sv_Subnet (as_Validator t) ≠ PrimaryNetworkID ∧ v_Wght (sv_Validator (as_Validator t)) ≠ 0.
Proof.
  intros Hh Hu Hv. destruct (verified_unmarked tx tx' Hh Hv) as (tx0&Hm&H0). apply verified_kind in Hv, H0. rewrite Hu in Hv. simpl in Hv.
  destruct (AddSubnetValidatorTx_SyntacticVerify marshal ctx t) as [t'|] eqn:Et; simpl in Hv; [|done]. injection Hv as Hv. rewrite <-Hv in H0.
  destruct (AddSubnetValidator_passes t t' Et) as (E1&_). apply AddSubnetValidator_kind in H0 as (t0&Eu&Et0). rewrite Eu in Hm.
  destruct (AddSubnetValidator_passes t0 t' Et0) as (F1&Hp). rewrite <-E1, F1. by apply Hp.
Qed.
End verified.
