(* ===== verification/PlatformState.v ===== *)
(** The state of the platform chain as blocks see it
    (src/vms/platformvm/state: Chain of state.go, diff.go).

    A chain has a time, a supply, current and pending stakers, unspent outputs, and a
    ledger: its transactions with their status, the rewards that were paid, its
    subnets and their chains.  A difference over a chain is again a chain, each part
    over the part of its parent. *)

From S2P Require Import Prelude SafeMath Ids NodeBag Database GoStd Secp256k1fx Utxo PlatformUtxo PlatformTxs.
From S2P Require Import GoHeap Stakers StakerIters StakerSets StakerDiff.

(** ** The ledger *)

(** The status of a transaction (src/vms/platformvm/status). *)
Inductive Status := status_Unknown | status_Committed | status_Aborted | status_Processing | status_Dropped.

#[export] Instance Status_eq_dec : EqDecision Status.
Proof. solve_decision. Defined.

(** Reading the subnets or chains fills a cache. *)
Class Ledger (X : Type) : Type := {
  GetTx : ID → X → result state_error (Tx * Status);
  AddTx : Tx → Status → X → X;
  GetRewardUTXOs : ID → X → result state_error (list UTXO);
  AddRewardUTXO : ID → UTXO → X → X;
  GetSubnets : X → result state_error (list Tx) * X;
  AddSubnet : Tx → X → X;
  GetChains : ID → X → result state_error (list Tx) * X;
  AddChain : Tx → X → option X;
}.

(** What the platform chain relies on. *)
Class LedgerLaws (X : Type) `{!Ledger X} : Type := {
  ledger_ok : X → Prop;
  txs_of : X → ID → option (Tx * Status);
  rewards_of : X → ID → list UTXO;
  subnets_of : X → list Tx;
  chains_of : X → ID → list Tx;
  GetTx_spec i x : ledger_ok x → GetTx i x = match txs_of x i with Some t => Ok t | None => Err ErrNotFound end;
  GetRewardUTXOs_spec i x : ledger_ok x → GetRewardUTXOs i x = Ok (rewards_of x i);
  GetSubnets_spec x : ledger_ok x → ∃ x', GetSubnets x = (Ok (subnets_of x), x') ∧ ledger_ok x' ∧
    txs_of x' = txs_of x ∧ rewards_of x' = rewards_of x ∧ subnets_of x' = subnets_of x ∧ chains_of x' = chains_of x;
  GetChains_spec i x : ledger_ok x → ∃ x', GetChains i x = (Ok (chains_of x i), x') ∧ ledger_ok x' ∧
    txs_of x' = txs_of x ∧ rewards_of x' = rewards_of x ∧ subnets_of x' = subnets_of x ∧ chains_of x' = chains_of x;
}.

(** The subnet of a transaction that creates a chain; others make the assertion
    panic. *)
Definition chain_subnet (tx : Tx) : option ID :=
  match tx_Unsigned tx with uCreateChain c => Some (cc_SubnetID c) | _ => None end.

Section ledger_diff.
Context {X : Type} `{!Ledger X}.

(** A slice of the cache may be nil. *)
Record ledger_diff := mkLedgerDiff {
  ld_addedSubnets : list Tx;
  ld_cachedSubnets : option (list Tx);
  ld_addedChains : gmap ID (list Tx);
  ld_cachedChains : gmap ID (list Tx);
  ld_addedTxs : gmap ID (Tx * Status);
  ld_addedRewardUTXOs : gmap ID (list UTXO);
  ld_parent : option X;
}.

Definition ledger_NewDiff (parent : X) : ledger_diff := mkLedgerDiff [] None ∅ ∅ ∅ ∅ (Some parent).

(** The parent is read, and its caches may change. *)
Definition ld_read (f : X → result state_error (list Tx) * X) (d : ledger_diff) : result state_error (list Tx) * ledger_diff :=
  match ld_parent d with
  | None => (Err ErrMissingParentState, d)
  | Some parentState =>
      let '(r, parentState) := f parentState in
      (r, mkLedgerDiff (ld_addedSubnets d) (ld_cachedSubnets d) (ld_addedChains d) (ld_cachedChains d) (ld_addedTxs d)
            (ld_addedRewardUTXOs d) (Some parentState))
  end.

Definition ld_GetSubnets (d : ledger_diff) : result state_error (list Tx) * ledger_diff :=
  if decide (length (ld_addedSubnets d) = 0%nat) then ld_read GetSubnets d
  else if decide (length (default [] (ld_cachedSubnets d)) ≠ 0%nat) then (Ok (default [] (ld_cachedSubnets d)), d)
  else
    match ld_read GetSubnets d with
    | (Err e, d) => (Err e, d)
    | (Ok subnets, d) =>
        let newSubnets := subnets ++ ld_addedSubnets d in
        (Ok newSubnets, mkLedgerDiff (ld_addedSubnets d) (Some newSubnets) (ld_addedChains d) (ld_cachedChains d) (ld_addedTxs d)
            (ld_addedRewardUTXOs d) (ld_parent d))
    end.

Definition ld_AddSubnet (createSubnetTx : Tx) (d : ledger_diff) : ledger_diff :=
  mkLedgerDiff (ld_addedSubnets d ++ [createSubnetTx]) ((λ l, l ++ [createSubnetTx]) <$> ld_cachedSubnets d)
    (ld_addedChains d) (ld_cachedChains d) (ld_addedTxs d) (ld_addedRewardUTXOs d) (ld_parent d).

Definition ld_GetChains (subnetID : ID) (d : ledger_diff) : result state_error (list Tx) * ledger_diff :=
  let addedChains := default [] (ld_addedChains d !! subnetID) in
  if decide (length addedChains = 0%nat) then ld_read (GetChains subnetID) d
  else
    match ld_cachedChains d !! subnetID with
    | Some cachedChains => (Ok cachedChains, d)
    | None =>
        match ld_read (GetChains subnetID) d with
        | (Err e, d) => (Err e, d)
        | (Ok chains, d) =>
            let newChains := chains ++ addedChains in
            (Ok newChains, mkLedgerDiff (ld_addedSubnets d) (ld_cachedSubnets d) (ld_addedChains d)
                (<[subnetID := newChains]> (ld_cachedChains d)) (ld_addedTxs d) (ld_addedRewardUTXOs d) (ld_parent d))
        end
    end.

Definition ld_AddChain (createChainTx : Tx) (d : ledger_diff) : option ledger_diff :=
  subnetID ← chain_subnet createChainTx;
  let addedChains := <[subnetID := default [] (ld_addedChains d !! subnetID) ++ [createChainTx]]> (ld_addedChains d) in
  let cachedChains := match ld_cachedChains d !! subnetID with
    | None => ld_cachedChains d
    | Some cachedChains => <[subnetID := cachedChains ++ [createChainTx]]> (ld_cachedChains d)
    end in
  Some (mkLedgerDiff (ld_addedSubnets d) (ld_cachedSubnets d) addedChains cachedChains (ld_addedTxs d) (ld_addedRewardUTXOs d) (ld_parent d)).

Definition ld_GetTx (txID : ID) (d : ledger_diff) : result state_error (Tx * Status) :=
  match ld_addedTxs d !! txID with
  | Some tx => Ok tx
  | None => match ld_parent d with None => Err ErrMissingParentState | Some parentState => GetTx txID parentState end
  end.

Definition ld_AddTx (tx : Tx) (status : Status) (d : ledger_diff) : ledger_diff :=
  mkLedgerDiff (ld_addedSubnets d) (ld_cachedSubnets d) (ld_addedChains d) (ld_cachedChains d)
    (<[tx_id tx := (tx, status)]> (ld_addedTxs d)) (ld_addedRewardUTXOs d) (ld_parent d).

Definition ld_GetRewardUTXOs (txID : ID) (d : ledger_diff) : result state_error (list UTXO) :=
  match ld_addedRewardUTXOs d !! txID with
  | Some utxos => Ok utxos
  | None => match ld_parent d with None => Err ErrMissingParentState | Some parentState => GetRewardUTXOs txID parentState end
  end.

Definition ld_AddRewardUTXO (txID : ID) (utxo : UTXO) (d : ledger_diff) : ledger_diff :=
  mkLedgerDiff (ld_addedSubnets d) (ld_cachedSubnets d) (ld_addedChains d) (ld_cachedChains d) (ld_addedTxs d)
    (<[txID := default [] (ld_addedRewardUTXOs d !! txID) ++ [utxo]]> (ld_addedRewardUTXOs d)) (ld_parent d).

#[export] Instance diff_Ledger : Ledger ledger_diff := {|
  GetTx := ld_GetTx; AddTx := ld_AddTx;
  GetRewardUTXOs := ld_GetRewardUTXOs; AddRewardUTXO := ld_AddRewardUTXO;
  GetSubnets := ld_GetSubnets; AddSubnet := ld_AddSubnet;
  GetChains := ld_GetChains; AddChain := ld_AddChain;
|}.

(** The loops of [diff.Apply] over the ledger. *)
Definition ledger_Apply `{GoRange} (base : X) (d : ledger_diff) : option X :=
  let base := foldl (λ x subnet, AddSubnet subnet x) base (ld_addedSubnets d) in
  base ← each (λ x '(_, chains), each (λ x chain, AddChain chain x) chains x) (go_range (ld_addedChains d)) base;
  let base := foldl (λ x '(_, (tx, status)), AddTx tx status x) base (go_range (ld_addedTxs d)) in
  let base := foldl (λ x '(txID, utxos), foldl (λ x utxo, AddRewardUTXO txID utxo x) x utxos) base (go_range (ld_addedRewardUTXOs d)) in
  Some base.
End ledger_diff.

Arguments ledger_diff X : clear implicits.

(** A difference over a ledger is a ledger. *)
Section ledger_laws.
Context {X : Type} `{!Ledger X, !LedgerLaws X}.
Implicit Types d : ledger_diff X.

(** The caches hold what would be computed without them. *)
Definition caches_ok (p : X) d : Prop :=
  (∀ l, ld_cachedSubnets d = Some l → l = subnets_of p ++ ld_addedSubnets d) ∧
  (∀ i l, ld_cachedChains d !! i = Some l → l = chains_of p i ++ default [] (ld_addedChains d !! i)).
Definition ld_ok d : Prop := ∃ p, ld_parent d = Some p ∧ ledger_ok p ∧ caches_ok p d.

Definition ld_txs d (i : ID) : option (Tx * Status) :=
  match ld_addedTxs d !! i with Some t => Some t | None => p ← ld_parent d; txs_of p i end.
Definition ld_rewards d (i : ID) : list UTXO :=
  match ld_addedRewardUTXOs d !! i with Some l => l | None => match ld_parent d with Some p => rewards_of p i | None => [] end end.
Definition ld_subnets d : list Tx := match ld_parent d with Some p => subnets_of p | None => [] end ++ ld_addedSubnets d.
Definition ld_chains d (i : ID) : list Tx :=
  match ld_parent d with Some p => chains_of p i | None => [] end ++ default [] (ld_addedChains d !! i).

Lemma ld_GetSubnets_spec d : ld_ok d → ∃ d', ld_GetSubnets d = (Ok (ld_subnets d), d') ∧ ld_ok d' ∧
  ld_txs d' = ld_txs d ∧ ld_rewards d' = ld_rewards d ∧ ld_subnets d' = ld_subnets d ∧ ld_chains d' = ld_chains d.
Proof.
  intros (p&Hp&Hok&Hc1&Hc2). destruct (GetSubnets_spec p Hok) as (p'&Hr&Hok'&Ht&Hrw&Hs&Hch).
  assert (∀ i, chains_of p' i = chains_of p i) as Hch' by (intros i; by rewrite Hch).
  unfold ld_GetSubnets, ld_read, ld_subnets, ld_txs, ld_rewards, ld_chains, ld_ok, caches_ok. destruct d as [a c ac cc t r par]. simpl in *.
  subst par. rewrite Hr. case_decide as Ha.
  - apply nil_length_inv in Ha as ->. rewrite app_nil_r. eexists. split; [reflexivity|]. simpl. rewrite Ht, Hrw, Hs, Hch, app_nil_r.
    split; [|done]. exists p'. split_and!; [done..| |]; rewrite ?Hs, ?app_nil_r; [intros l Hl; by rewrite (Hc1 l Hl), app_nil_r|].
    intros i l Hl. by rewrite Hch', (Hc2 i l Hl).
  - destruct c as [l|]; simpl.
    + specialize (Hc1 l eq_refl) as ->. rewrite decide_True by (rewrite length_app; lia). eexists. split; [reflexivity|]. split; [|done].
      exists p. split_and!; [done..| |done]. by intros l [= <-].
    + eexists. split; [reflexivity|]. simpl. rewrite Ht, Hrw, Hs, Hch. split; [|done]. exists p'. split_and!; [done..| |]; simpl.
      * intros l [= <-]. by rewrite Hs.
      * intros i l Hl. by rewrite Hch', (Hc2 i l Hl).
Qed.

Lemma ld_GetChains_spec i d : ld_ok d → ∃ d', ld_GetChains i d = (Ok (ld_chains d i), d') ∧ ld_ok d' ∧
  ld_txs d' = ld_txs d ∧ ld_rewards d' = ld_rewards d ∧ ld_subnets d' = ld_subnets d ∧ ld_chains d' = ld_chains d.
Proof.
  intros (p&Hp&Hok&Hc1&Hc2). destruct (GetChains_spec i p Hok) as (p'&Hr&Hok'&Ht&Hrw&Hs&Hch).
  assert (∀ i, chains_of p' i = chains_of p i) as Hch' by (intros j; by rewrite Hch).
  unfold ld_GetChains, ld_read, ld_subnets, ld_txs, ld_rewards, ld_chains, ld_ok, caches_ok. destruct d as [a c ac cc t r par]. simpl in *.
  subst par. rewrite Hr. case_decide as Ha.
  - apply nil_length_inv in Ha. eexists. split; [rewrite Ha, app_nil_r; reflexivity|]. simpl. rewrite Ht, Hrw, Hs, Hch.
    split; [|done]. exists p'. split_and!; [done..| |]; simpl.
    + intros l Hl. by rewrite Hs, (Hc1 l Hl).
    + intros j l Hl. by rewrite Hch', (Hc2 j l Hl).
  - destruct (cc !! i) as [l|] eqn:Ei.
    + rewrite (Hc2 i l Ei). eexists. split; [reflexivity|]. split; [|done]. by exists p.
    + eexists. split; [reflexivity|]. simpl. rewrite Ht, Hrw, Hs, Hch. split; [|done]. exists p'. split_and!; [done..| |]; simpl.
      * intros l Hl. by rewrite Hs, (Hc1 l Hl).
      * intros j l. rewrite lookup_insert. case_decide as Hij; [intros [= <-]; subst j; by rewrite Hch'|]. intros Hl. by rewrite Hch', (Hc2 j l Hl).
Qed.

#[export] Instance diff_LedgerLaws : LedgerLaws (ledger_diff X).
Proof.
  refine {| ledger_ok := ld_ok; txs_of := ld_txs; rewards_of := ld_rewards; subnets_of := ld_subnets; chains_of := ld_chains |}.
  - intros i d (p&Hp&Hok&_). simpl. unfold ld_GetTx, ld_txs. rewrite Hp. simpl. destruct (ld_addedTxs d !! i); [done|]. by rewrite GetTx_spec.
  - intros i d (p&Hp&Hok&_). simpl. unfold ld_GetRewardUTXOs, ld_rewards. rewrite Hp. destruct (ld_addedRewardUTXOs d !! i); [done|].
    by rewrite GetRewardUTXOs_spec.
  - apply ld_GetSubnets_spec.
  - apply ld_GetChains_spec.
Defined.

(** The operations on it. *)
Lemma ld_ok_new (p : X) : ledger_ok p → ld_ok (ledger_NewDiff p).
Proof. intros Hp. exists p. split; [done|]. split; [done|]. split; simpl; [done|]. intros i l Hl. by rewrite lookup_empty in Hl. Qed.

Lemma ld_AddTx_spec tx st d : ld_ok d → ld_ok (ld_AddTx tx st d) ∧
  ∀ i, ld_txs (ld_AddTx tx st d) i = if decide (tx_id tx = i) then Some (tx, st) else ld_txs d i.
Proof.
  intros Hok. split; [exact Hok|]. intros i. unfold ld_txs, ld_AddTx. simpl. rewrite lookup_insert. by case_decide.
Qed.

Lemma ld_AddSubnet_ok tx d : ld_ok d → ld_ok (ld_AddSubnet tx d) ∧ ld_subnets (ld_AddSubnet tx d) = ld_subnets d ++ [tx].
Proof.
  intros (p&Hp&Hok&Hc1&Hc2). split.
  - exists p. split; [done|]. split; [done|]. split; simpl; [|done]. intros l Hl. apply fmap_Some in Hl as (l'&Hl'&->). by rewrite (Hc1 l' Hl'), app_assoc.
  - unfold ld_subnets, ld_AddSubnet. simpl. by rewrite app_assoc.
Qed.

Lemma ld_AddChain_ok tx i d : ld_ok d → chain_subnet tx = Some i → ∃ d', ld_AddChain tx d = Some d' ∧ ld_ok d' ∧
  ∀ j, ld_chains d' j = if decide (i = j) then ld_chains d j ++ [tx] else ld_chains d j.
Proof.
  intros (p&Hp&Hok&Hc1&Hc2) Hi. unfold ld_AddChain. rewrite Hi. cbn [mbind option_bind]. eexists. split; [reflexivity|]. split.
  - exists p. split; [done|]. split; [done|]. split; simpl; [done|]. intros j l. rewrite lookup_insert.
    destruct (ld_cachedChains d !! i) as [c|] eqn:Ec.
    + rewrite lookup_insert. case_decide as Hij; [intros [= <-]; subst j; simpl; by rewrite (Hc2 i c Ec), app_assoc|apply Hc2].
    + intros Hl. case_decide as Hij; [subst j; congruence|by apply Hc2].
  - intros j. unfold ld_chains. simpl. rewrite lookup_insert. case_decide as Hij; [subst j; simpl; by rewrite app_assoc|done].
Qed.
End ledger_laws.

(** ** Chains *)

Record chain (C P U X : Type) := mkChain {
  ch_timestamp : Z;
  ch_currentSupply : Z;
  ch_current : C;
  ch_pending : P;
  ch_utxos : U;
  ch_ledger : X;
}.
Arguments mkChain {C P U X} _ _ _ _ _ _.
Arguments ch_timestamp {C P U X} _.
Arguments ch_currentSupply {C P U X} _.
Arguments ch_current {C P U X} _.
Arguments ch_pending {C P U X} _.
Arguments ch_utxos {C P U X} _.
Arguments ch_ledger {C P U X} _.

Section chain.
Context {C P U X : Type}.
Implicit Types c : chain C P U X.

Definition SetTimestamp (timestamp : Z) c : chain C P U X :=
  mkChain timestamp (ch_currentSupply c) (ch_current c) (ch_pending c) (ch_utxos c) (ch_ledger c).
Definition SetCurrentSupply (currentSupply : Z) c : chain C P U X :=
  mkChain (ch_timestamp c) currentSupply (ch_current c) (ch_pending c) (ch_utxos c) (ch_ledger c).
Definition on_current (f : C → C) c : chain C P U X :=
  mkChain (ch_timestamp c) (ch_currentSupply c) (f (ch_current c)) (ch_pending c) (ch_utxos c) (ch_ledger c).
Definition on_pending (f : P → P) c : chain C P U X :=
  mkChain (ch_timestamp c) (ch_currentSupply c) (ch_current c) (f (ch_pending c)) (ch_utxos c) (ch_ledger c).
Definition on_utxos (f : U → U) c : chain C P U X :=
  mkChain (ch_timestamp c) (ch_currentSupply c) (ch_current c) (ch_pending c) (f (ch_utxos c)) (ch_ledger c).
Definition on_ledger (f : X → X) c : chain C P U X :=
  mkChain (ch_timestamp c) (ch_currentSupply c) (ch_current c) (ch_pending c) (ch_utxos c) (f (ch_ledger c)).
End chain.

(** A difference over a chain. *)
Abbreviation chain_diff C P U X := (chain (stakers_diff C) (stakers_diff P) (PlatformUtxo.diff U) (ledger_diff X)).

Section diff.
Context `{BTree} {C P U X : Type}.
Implicit Types (parent : chain C P U X) (d : chain_diff C P U X).

(** [NewDiff] with what [GetState] answers for the parent. *)
Definition NewDiff (parentState : option (chain C P U X)) : result state_error (chain_diff C P U X) :=
  match parentState with
  | None => Err ErrMissingParentState
  | Some parentState =>
      Ok (mkChain (ch_timestamp parentState) (ch_currentSupply parentState)
        (mkStakersDiff diffStakers_zero (Some (ch_current parentState)))
        (mkStakersDiff diffStakers_zero (Some (ch_pending parentState)))
        (PlatformUtxo.mkDiff ∅ (Some (ch_utxos parentState)))
        (ledger_NewDiff (ch_ledger parentState)))
  end.

Definition PutCurrentValidator (staker : Staker) : chain_diff C P U X → chain_diff C P U X := on_current (sd_map (diff_PutValidator staker)).
Definition DeleteCurrentValidator (staker : Staker) : chain_diff C P U X → chain_diff C P U X := on_current (sd_map (diff_DeleteValidator staker)).
Definition PutCurrentDelegator (staker : Staker) : chain_diff C P U X → chain_diff C P U X := on_current (sd_map (diff_PutDelegator staker)).
Definition DeleteCurrentDelegator (staker : Staker) : chain_diff C P U X → chain_diff C P U X := on_current (sd_map (diff_DeleteDelegator staker)).
Definition PutPendingValidator (staker : Staker) : chain_diff C P U X → chain_diff C P U X := on_pending (sd_map (diff_PutValidator staker)).
Definition DeletePendingValidator (staker : Staker) : chain_diff C P U X → chain_diff C P U X := on_pending (sd_map (diff_DeleteValidator staker)).
Definition PutPendingDelegator (staker : Staker) : chain_diff C P U X → chain_diff C P U X := on_pending (sd_map (diff_PutDelegator staker)).
Definition DeletePendingDelegator (staker : Staker) : chain_diff C P U X → chain_diff C P U X := on_pending (sd_map (diff_DeleteDelegator staker)).
End diff.

(** [diff.Apply]: to a chain whose stakers are the base's. *)
Definition diff_Apply `{BTree} `{GoRange} `{Crypto} {U X} `{!UTXOSet U} `{!Ledger X}
    (base : chain baseStakers baseStakers U X) (d : chain_diff baseStakers baseStakers U X)
  : option (chain baseStakers baseStakers U X) :=
  current ← apply_stakers (sd_diffs (ch_current d)) (ch_current base);
  pending ← apply_stakers (sd_diffs (ch_pending d)) (ch_pending base);
  ledger ← ledger_Apply (ch_ledger base) (ch_ledger d);
  Some (mkChain (ch_timestamp d) (ch_currentSupply d) current pending (diff_ApplyUTXOs (ch_utxos base) (ch_utxos d)) ledger).
