(* ===== verification/PlatformBooks.v ===== *)
(** Runs of equal operations on a set of stakers, and sums over its stakers. *)

From S2P Require Import Prelude SafeMath Ids Packer NodeBag Database CodecTypes Codec GoStd Secp256k1fx Utxo PlatformUtxo PlatformUtxoSpec PlatformUtxoSafety.
From S2P Require Import GoHeap Stakers StakerIters StakerSets StakerDiff StakerApply StakerRefine Reward PlatformTxs PlatformState.

(** ** Sums *)

Section sums.
Context {K : Type} `{Countable K}.
Implicit Types (m : gmap K Staker) (f : Staker → Z).

Lemma map_total_fmap_insert f m k x : m !! k = None → map_total (f <$> <[k := x]> m) = f x + map_total (f <$> m).
Proof. intros Hm. rewrite fmap_insert, map_total_insert_None; [done|]. by rewrite lookup_fmap, Hm. Qed.

Lemma map_total_fmap_delete f m k x : m !! k = Some x → map_total (f <$> m) = f x + map_total (f <$> delete k m).
Proof. intros Hm. rewrite fmap_delete. rewrite <-(map_total_delete (f <$> m) k (f x)) by (by rewrite lookup_fmap, Hm). lia. Qed.
End sums.

(** The sum over all stakers of a specification. *)
Definition spec_total (f : Staker → Z) (sp : stakers_spec) : Z :=
  map_total (f <$> sp_validators sp) + map_total (f <$> sp_delegators sp).

(** The stakers of a specification; a map may hold others under foreign keys. *)
Definition staker_in (sp : stakers_spec) (x : Staker) : Prop :=
  sp_validators sp !! slot x = Some x ∨ sp_delegators sp !! st_TxID x = Some x.

(** Every staker is under its own key, validators satisfy [V] and delegators [D]. *)
Record role_ok (sp : stakers_spec) (V D : Staker → Prop) : Prop := mkRoleOk {
  ro_validator k x : sp_validators sp !! k = Some x → slot x = k ∧ V x;
  ro_delegator i x : sp_delegators sp !! i = Some x → st_TxID x = i ∧ D x;
}.

Lemma role_ok_impl sp (V D V' D' : Staker → Prop) :
  role_ok sp V D → (∀ x, V x → V' x) → (∀ x, D x → D' x) → role_ok sp V' D'.
Proof. intros [Hv Hd] HV HD. split; [intros k x Hx%Hv|intros i x Hx%Hd]; destruct Hx; auto. Qed.

Lemma map_total_fmap_nonneg {K} `{Countable K} (f : Staker → Z) (m : gmap K Staker) :
  (∀ k x, m !! k = Some x → 0 ≤ f x) → 0 ≤ map_total (f <$> m).
Proof. intros Hf. apply map_total_nonneg. intros k z Hz. apply lookup_fmap_Some in Hz as (x&<-&Hx). by eapply Hf. Qed.

Lemma role_totals f sp V D :
  role_ok sp V D → (∀ y, V y → 0 ≤ f y) → (∀ y, D y → 0 ≤ f y) →
  (∀ m, m ⊆ sp_validators sp → 0 ≤ map_total (f <$> m)) ∧ ∀ m, m ⊆ sp_delegators sp → 0 ≤ map_total (f <$> m).
Proof.
  intros [Hv Hd] HV HD. split; intros m Hm; apply map_total_fmap_nonneg; intros k y Hy.
  - apply HV, (Hv k). by eapply lookup_weaken.
  - apply HD, (Hd k). by eapply lookup_weaken.
Qed.

Lemma spec_total_nonneg f sp V D : role_ok sp V D → (∀ y, V y → 0 ≤ f y) → (∀ y, D y → 0 ≤ f y) → 0 ≤ spec_total f sp.
Proof.
  intros Hr HV HD. destruct (role_totals f sp V D Hr HV HD) as [Hv Hd]. specialize (Hv _ (reflexivity _)). specialize (Hd _ (reflexivity _)).
  unfold spec_total. lia.
Qed.

(** A staker accounts for a part of the sum. *)
Lemma spec_total_le f sp V D x :
  role_ok sp V D → (∀ y, V y → 0 ≤ f y) → (∀ y, D y → 0 ≤ f y) → staker_in sp x → f x ≤ spec_total f sp.
Proof.
  intros Hr HV HD Hx. destruct (role_totals f sp V D Hr HV HD) as [Hv Hd]. unfold spec_total. destruct Hx as [Hx|Hx].
  - rewrite (map_total_fmap_delete f _ _ _ Hx). pose proof (Hv _ (delete_subseteq (sp_validators sp) (slot x))). specialize (Hd _ (reflexivity _)). lia.
  - rewrite (map_total_fmap_delete f _ _ _ Hx). pose proof (Hd _ (delete_subseteq (sp_delegators sp) (st_TxID x))). specialize (Hv _ (reflexivity _)). lia.
Qed.

(** What a set of stakers says of its specification. *)
Section represented.
Context {T : Type} `{StakerSetLaws T} (t : T) (sp : stakers_spec) (Hr : represents t sp).

Lemma represents_member x : member t x ↔ staker_in sp x.
Proof. destruct Hr as [_ Hv Hd _]. unfold member, staker_in. rewrite Hd, Hv. unfold slot. tauto. Qed.

Lemma represents_used x : staker_in sp x → st_TxID x ∈ sp_used sp.
Proof. intros Hx. apply (re_used _ _ Hr). by apply represents_member. Qed.

Lemma represents_unique x y : staker_in sp x → staker_in sp y → st_TxID x = st_TxID y → x = y.
Proof. rewrite <-!represents_member. apply set_unique, Hr. Qed.

Lemma represents_apart x : sp_delegators sp !! st_TxID x = Some x → sp_validators sp !! slot x ≠ Some x.
Proof. destruct Hr as [Hok Hv Hd _]. rewrite <-Hd. unfold slot. rewrite <-Hv. by apply set_apart. Qed.
End represented.

(** ** Runs *)

Lemma spec_run_app ops ops' sp : spec_run (ops ++ ops') sp = spec_run ops sp ≫= spec_run ops'.
Proof. revert sp. induction ops as [|op ops IH]; intros sp; simpl; [done|]. destruct (spec_step sp op); simpl; [apply IH|done]. Qed.

Lemma run_put_validators l sp :
  NoDup (st_TxID <$> l) → NoDup (slot <$> l) → (∀ x, x ∈ l → st_TxID x ∉ sp_used sp ∧ sp_validators sp !! slot x = None) →
  ∃ sp', spec_run (PutValidatorOp <$> l) sp = Some sp' ∧
    (∀ k y, sp_validators sp' !! k = Some y ↔ y ∈ l ∧ slot y = k ∨ sp_validators sp !! k = Some y) ∧
    sp_delegators sp' = sp_delegators sp ∧ (∀ i, i ∈ sp_used sp' ↔ i ∈ st_TxID <$> l ∨ i ∈ sp_used sp) ∧
    ∀ f, spec_total f sp' = spec_total f sp + sumZ (f <$> l).
Proof.
  revert sp. induction l as [|x l IH]; intros sp Hid Hsl Hfree.
  { exists sp. split; [done|]. split; [intros k y; rewrite elem_of_nil; tauto|]. split; [done|].
    split; [intros i; rewrite fmap_nil, elem_of_nil; tauto|]. intros f. rewrite fmap_nil, sumZ_nil. lia. }
  rewrite fmap_cons, NoDup_cons in Hid. destruct Hid as [Hid Hids]. rewrite fmap_cons, NoDup_cons in Hsl. destruct Hsl as [Hsl Hsls].
  destruct (Hfree x) as [Hx Hxs]; [by left|].
  set (sp1 := mkStakersSpec (<[slot x := x]> (sp_validators sp)) (sp_delegators sp) ({[st_TxID x]} ∪ sp_used sp)).
  destruct (IH sp1 Hids Hsls) as (sp'&Hrun&Hv&Hd&Hu&Ht).
  { intros y Hy. destruct (Hfree y) as [Hy1 Hy2]; [by right|]. simpl. split.
    - rewrite elem_of_union, elem_of_singleton. intros [Heq|?]; [|done]. apply Hid. rewrite <-Heq. by apply list_elem_of_fmap_2.
    - rewrite lookup_insert_ne; [done|]. intros Heq. apply Hsl. rewrite Heq. by apply list_elem_of_fmap_2. }
  exists sp'. split; [rewrite fmap_cons; simpl; rewrite decide_True by done; exact Hrun|]. split_and!; [|done|..].
  - intros k y. rewrite Hv. simpl. rewrite elem_of_cons, lookup_insert. case_decide as Hk.
    + split; [intros [?|[= <-]]; tauto|]. intros [[[Hy|Hy] ?]|Hy]; [subst y; auto|auto|]. subst k. congruence.
    + split; [intros [?|?]; tauto|]. intros [[[Hy|Hy] ?]|Hy]; [by subst y|auto|auto].
  - intros i. rewrite Hu. simpl. rewrite elem_of_union, elem_of_singleton, elem_of_cons. tauto.
  - intros f. rewrite Ht, fmap_cons, sumZ_cons. unfold spec_total. simpl. rewrite map_total_fmap_insert by done. lia.
Qed.

Lemma run_put_delegators l sp :
  NoDup (st_TxID <$> l) → (∀ x, x ∈ l → st_TxID x ∉ sp_used sp ∧ sp_delegators sp !! st_TxID x = None) →
  ∃ sp', spec_run (PutDelegatorOp <$> l) sp = Some sp' ∧
    (∀ k y, sp_delegators sp' !! k = Some y ↔ y ∈ l ∧ st_TxID y = k ∨ sp_delegators sp !! k = Some y) ∧
    sp_validators sp' = sp_validators sp ∧ (∀ i, i ∈ sp_used sp' ↔ i ∈ st_TxID <$> l ∨ i ∈ sp_used sp) ∧
    ∀ f, spec_total f sp' = spec_total f sp + sumZ (f <$> l).
Proof.
  revert sp. induction l as [|x l IH]; intros sp Hid Hfree.
  { exists sp. split; [done|]. split; [intros k y; rewrite elem_of_nil; tauto|]. split; [done|].
    split; [intros i; rewrite fmap_nil, elem_of_nil; tauto|]. intros f. rewrite fmap_nil, sumZ_nil. lia. }
  rewrite fmap_cons, NoDup_cons in Hid. destruct Hid as [Hid Hids].
  destruct (Hfree x) as [Hx Hxs]; [by left|].
  set (sp1 := mkStakersSpec (sp_validators sp) (<[st_TxID x := x]> (sp_delegators sp)) ({[st_TxID x]} ∪ sp_used sp)).
  destruct (IH sp1 Hids) as (sp'&Hrun&Hd&Hv&Hu&Ht).
  { intros y Hy. destruct (Hfree y) as [Hy1 Hy2]; [by right|]. simpl.
    assert (st_TxID x ≠ st_TxID y) as Hne by (intros Heq; apply Hid; rewrite Heq; by apply list_elem_of_fmap_2).
    split; [rewrite elem_of_union, elem_of_singleton; intros [?|?]; congruence|]. by rewrite lookup_insert_ne. }
  exists sp'. split; [rewrite fmap_cons; simpl; rewrite decide_True by done; exact Hrun|]. split_and!; [|done|..].
  - intros k y. rewrite Hd. simpl. rewrite elem_of_cons, lookup_insert. case_decide as Hk.
    + split; [intros [?|[= <-]]; tauto|]. intros [[[Hy|Hy] ?]|Hy]; [subst y; auto|auto|]. subst k. congruence.
    + split; [intros [?|?]; tauto|]. intros [[[Hy|Hy] ?]|Hy]; [by subst y|auto|auto].
  - intros i. rewrite Hu. simpl. rewrite elem_of_union, elem_of_singleton, elem_of_cons. tauto.
  - intros f. rewrite Ht, fmap_cons, sumZ_cons. unfold spec_total. simpl. rewrite map_total_fmap_insert by done. lia.
Qed.

Lemma run_delete_validators l sp :
  NoDup (slot <$> l) → (∀ x, x ∈ l → sp_validators sp !! slot x = Some x) →
  ∃ sp', spec_run (DeleteValidatorOp <$> l) sp = Some sp' ∧
    (∀ k y, sp_validators sp' !! k = Some y ↔ sp_validators sp !! k = Some y ∧ (y ∈ l → slot y ≠ k)) ∧
    sp_delegators sp' = sp_delegators sp ∧ sp_used sp' = sp_used sp ∧
    ∀ f, spec_total f sp' = spec_total f sp - sumZ (f <$> l).
Proof.
  revert sp. induction l as [|x l IH]; intros sp Hsl Hin.
  { exists sp. split; [done|]. split; [intros k y; rewrite elem_of_nil; tauto|]. split; [done|]. split; [done|].
    intros f. rewrite fmap_nil, sumZ_nil. lia. }
  rewrite fmap_cons, NoDup_cons in Hsl. destruct Hsl as [Hsl Hsls].
  pose proof (Hin x ltac:(by left)) as Hx.
  set (sp1 := mkStakersSpec (delete (slot x) (sp_validators sp)) (sp_delegators sp) (sp_used sp)).
  destruct (IH sp1 Hsls) as (sp'&Hrun&Hv&Hd&Hu&Ht).
  { intros y Hy. simpl. rewrite lookup_delete_ne; [by apply Hin; right|]. intros Heq. apply Hsl. rewrite Heq. by apply list_elem_of_fmap_2. }
  exists sp'. split; [rewrite fmap_cons; simpl; rewrite decide_True by done; exact Hrun|]. split_and!; [|done..|].
  - intros k y. rewrite Hv. simpl. rewrite elem_of_cons, lookup_delete. case_decide as Hk.
    + split; [by intros [? _]|]. intros [Hy Hne]. subst k. rewrite Hx in Hy. injection Hy as <-. by destruct (Hne ltac:(by left)).
    + split; intros [Hy Hne]; (split; [done|]); [|tauto]. intros [->|?]; auto.
  - intros f. rewrite Ht, fmap_cons, sumZ_cons. unfold spec_total. simpl.
    rewrite (map_total_fmap_delete f (sp_validators sp) (slot x) x) by done. lia.
Qed.

Lemma run_delete_delegators l sp :
  NoDup (st_TxID <$> l) → (∀ x, x ∈ l → sp_delegators sp !! st_TxID x = Some x) →
  ∃ sp', spec_run (DeleteDelegatorOp <$> l) sp = Some sp' ∧
    (∀ k y, sp_delegators sp' !! k = Some y ↔ sp_delegators sp !! k = Some y ∧ (y ∈ l → st_TxID y ≠ k)) ∧
    sp_validators sp' = sp_validators sp ∧ sp_used sp' = sp_used sp ∧
    ∀ f, spec_total f sp' = spec_total f sp - sumZ (f <$> l).
Proof.
  revert sp. induction l as [|x l IH]; intros sp Hsl Hin.
  { exists sp. split; [done|]. split; [intros k y; rewrite elem_of_nil; tauto|]. split; [done|]. split; [done|].
    intros f. rewrite fmap_nil, sumZ_nil. lia. }
  rewrite fmap_cons, NoDup_cons in Hsl. destruct Hsl as [Hsl Hsls].
  pose proof (Hin x ltac:(by left)) as Hx.
  set (sp1 := mkStakersSpec (sp_validators sp) (delete (st_TxID x) (sp_delegators sp)) (sp_used sp)).
  destruct (IH sp1 Hsls) as (sp'&Hrun&Hd&Hv&Hu&Ht).
  { intros y Hy. simpl. rewrite lookup_delete_ne; [by apply Hin; right|]. intros Heq. apply Hsl. rewrite Heq. by apply list_elem_of_fmap_2. }
  exists sp'. split; [rewrite fmap_cons; simpl; rewrite decide_True by done; exact Hrun|]. split_and!; [|done..|].
  - intros k y. rewrite Hd. simpl. rewrite elem_of_cons, lookup_delete. case_decide as Hk.
    + split; [by intros [? _]|]. intros [Hy Hne]. subst k. rewrite Hx in Hy. injection Hy as <-. by destruct (Hne ltac:(by left)).
    + split; intros [Hy Hne]; (split; [done|]); [|tauto]. intros [->|?]; auto.
  - intros f. rewrite Ht, fmap_cons, sumZ_cons. unfold spec_total. simpl.
    rewrite (map_total_fmap_delete f (sp_delegators sp) (st_TxID x) x) by done. lia.
Qed.

(** ** Single steps *)

Definition put_op (delegator : bool) (x : Staker) : staker_op := if delegator then PutDelegatorOp x else PutValidatorOp x.
Definition delete_op (delegator : bool) (x : Staker) : staker_op := if delegator then DeleteDelegatorOp x else DeleteValidatorOp x.

Lemma spec_put_step sp V D (delegator : bool) x :
  role_ok sp V D → (∀ y, staker_in sp y → st_TxID y ∈ sp_used sp) → (if delegator then D x else V x) →
  st_TxID x ∉ sp_used sp → (delegator = false → sp_validators sp !! slot x = None) →
  ∃ sp', spec_step sp (put_op delegator x) = Some sp' ∧ role_ok sp' V D ∧ sp_used sp' = {[st_TxID x]} ∪ sp_used sp ∧
    (∀ f, spec_total f sp' = spec_total f sp + f x) ∧ (∀ y, staker_in sp' y → y = x ∨ staker_in sp y) ∧
    (∀ k, is_Some (sp_validators sp' !! k) → is_Some (sp_validators sp !! k) ∨ delegator = false ∧ k = slot x).
Proof.
  intros [Hv Hd] Hu Hx Hid Hfree. destruct delegator; simpl.
  - assert (sp_delegators sp !! st_TxID x = None) as Hn.
    { destruct (sp_delegators sp !! st_TxID x) as [y|] eqn:E; [|done]. destruct Hid. destruct (Hd _ _ E) as [Heq _]. rewrite <-Heq. apply Hu. right. by rewrite Heq. }
    rewrite decide_True by done. eexists. split; [reflexivity|]. simpl. split; [split; simpl; [done|]|split; [done|split; [|split]]].
    + intros i y. rewrite lookup_insert. case_decide; [by intros [= <-]|apply Hd].
    + intros f. unfold spec_total. simpl. rewrite map_total_fmap_insert by done. lia.
    + intros y. unfold staker_in. simpl. rewrite lookup_insert. case_decide; [intros [?|[= <-]]; auto|tauto].
    + intros k Hk. by left.
  - specialize (Hfree eq_refl). rewrite decide_True by done. eexists. split; [reflexivity|]. simpl. split; [split; simpl; [|done]|split; [done|split; [|split]]].
    + intros k y. rewrite lookup_insert. case_decide; [by intros [= <-]|apply Hv].
    + intros f. unfold spec_total. simpl. rewrite map_total_fmap_insert by done. lia.
    + intros y. unfold staker_in. simpl. rewrite lookup_insert. case_decide; [intros [[= <-]|?]; auto|tauto].
    + intros k. rewrite lookup_insert. case_decide; [by right|by left].
Qed.

Lemma spec_delete_step sp (delegator : bool) x :
  (if delegator then sp_delegators sp !! st_TxID x = Some x else sp_validators sp !! slot x = Some x) →
  ∃ sp', spec_step sp (delete_op delegator x) = Some sp' ∧ sp_used sp' = sp_used sp ∧
    sp_validators sp' ⊆ sp_validators sp ∧ sp_delegators sp' ⊆ sp_delegators sp ∧ ∀ f, spec_total f sp' = spec_total f sp - f x.
Proof.
  intros Hx. destruct delegator; simpl; rewrite decide_True by done; eexists; (split; [reflexivity|]); simpl;
    (split; [done|]); (split; [done || apply delete_subseteq|]); (split; [done || apply delete_subseteq|]);
    intros f; unfold spec_total; simpl; rewrite (map_total_fmap_delete f _ _ _ Hx); lia.
Qed.

Lemma role_ok_subseteq sp sp' V D :
  role_ok sp V D → sp_validators sp' ⊆ sp_validators sp → sp_delegators sp' ⊆ sp_delegators sp → role_ok sp' V D.
Proof. intros [Hv Hd] Hs1 Hs2. split; [intros k x Hx; apply Hv|intros i x Hx; apply Hd]; by eapply lookup_weaken. Qed.

(** * The books of the platform chain: what its stakers and unspent outputs add up to.

    AVAX is in unspent outputs, staked, promised as a reward, or on another chain; the
    sum never exceeds the recorded supply, and the supply never exceeds its cap.  Every
    staker is of the kind its place asks for and is backed by the transaction that
    made it, which is where the stake is returned from. *)

(** ** Stakers *)

Definition primary (x : Staker) : Prop := st_SubnetID x = PrimaryNetworkID.

#[export] Instance primary_dec x : Decision (primary x).
Proof. unfold primary. apply _. Defined.

(** What a staker holds in AVAX: the weight of a validator of a subnet is not staked. *)
Definition stake_of (x : Staker) : Z := if decide (primary x) then st_Weight x + st_PotentialReward x else 0.

Definition pending_priority (delegator : bool) (x : Staker) : Z :=
  if delegator then PrimaryNetworkDelegatorPendingPriority
  else if decide (primary x) then PrimaryNetworkValidatorPendingPriority else SubnetValidatorPendingPriority.
Definition current_priority (delegator : bool) (x : Staker) : Z :=
  if delegator then PrimaryNetworkDelegatorCurrentPriority
  else if decide (primary x) then PrimaryNetworkValidatorCurrentPriority else SubnetValidatorCurrentPriority.

(** The outputs a transaction stakes are worth the weight. *)
Definition funds (stake : list TransferableOutput) (x : Staker) : Prop :=
  Forall (λ o, amount_ok (tout_Out o)) stake ∧ total_amount stake = st_Weight x.

Section books.
Context (cfg : RewardConfig).

Abbreviation ledger_txs := (ID → option (Tx * Status)).

Definition backed (txs : ledger_txs) (delegator : bool) (x : Staker) : Prop :=
  ∃ tx st, txs (st_TxID x) = Some (tx, st) ∧
    match tx_Unsigned tx with
    | uAddValidator t => delegator = false ∧ primary x ∧ funds (av_Stake t) x ∧ 0 ≤ av_Shares t ≤ PercentDenominator
    | uAddDelegator t => delegator = true ∧ funds (ad_Stake t) x
    | uAddSubnetValidator _ => delegator = false ∧ ¬ primary x
    | _ => False
    end.

Record pending_ok (txs : ledger_txs) (delegator : bool) (x : Staker) : Prop := mkPendingOk {
  pk_backed : backed txs delegator x;
  pk_primary : delegator = true → primary x;
  pk_priority : st_Priority x = pending_priority delegator x;
  pk_weight : 0 < st_Weight x < 2 ^ 64;
  pk_reward : st_PotentialReward x = 0;
  pk_next : st_NextTime x = st_StartTime x;
  pk_duration : 0 ≤ time_Sub (st_EndTime x) (st_StartTime x) ≤ rc_MintingPeriod cfg;
}.

Record current_ok (txs : ledger_txs) (delegator : bool) (x : Staker) : Prop := mkCurrentOk {
  ck_backed : backed txs delegator x;
  ck_primary : delegator = true → primary x;
  ck_priority : st_Priority x = current_priority delegator x;
  ck_weight : 0 < st_Weight x < 2 ^ 64;
  ck_reward : is_u64 (st_PotentialReward x);
  ck_next : st_NextTime x = st_EndTime x;
}.

Record accounts (elsewhere : Z) (txs : ledger_txs) (spc spp : stakers_spec) (outputs currentSupply : Z) : Prop := mkAccounts {
  ac_current : role_ok spc (current_ok txs false) (current_ok txs true);
  ac_pending : role_ok spp (pending_ok txs false) (pending_ok txs true);
  ac_apart x : staker_in spp x → st_TxID x ∉ sp_used spc;
  ac_slots k : is_Some (sp_validators spp !! k) → sp_validators spc !! k = None;
  ac_used i : i ∈ sp_used spc ∪ sp_used spp → is_Some (txs i);
  ac_outputs : 0 ≤ outputs;
  ac_money : outputs + spec_total stake_of spc + spec_total stake_of spp + elsewhere ≤ currentSupply ≤ rc_SupplyCap cfg;
}.

(** ** Later ledgers *)

(** Transactions stay; one that is recorded again is the same. *)
Definition txs_extend (txs txs' : ledger_txs) : Prop :=
  ∀ i t st, txs i = Some (t, st) → ∃ t' st', txs' i = Some (t', st') ∧ tx_Unsigned t' = tx_Unsigned t.

Lemma backed_extend txs txs' b x : txs_extend txs txs' → backed txs b x → backed txs' b x.
Proof. intros He (t&st&Ht&Hk). destruct (He _ _ _ Ht) as (t'&st'&Ht'&Hu). exists t', st'. split; [done|]. by rewrite Hu. Qed.

Lemma pending_ok_extend txs txs' b x : txs_extend txs txs' → pending_ok txs b x → pending_ok txs' b x.
Proof. intros He [Hb ? ? ? ? ? ?]. split; try done. by eapply backed_extend. Qed.

Lemma current_ok_extend txs txs' b x : txs_extend txs txs' → current_ok txs b x → current_ok txs' b x.
Proof. intros He [Hb ? ? ? ? ?]. split; try done. by eapply backed_extend. Qed.

Section elsewhere.
Context (elsewhere : Z).

(** Funds that leave the outputs for other chains are still there. *)
Lemma accounts_shift el' txs txs' spc spp o o' s :
  txs_extend txs txs' → 0 ≤ o' → o' + el' ≤ o + elsewhere → accounts elsewhere txs spc spp o s → accounts el' txs' spc spp o' s.
Proof.
  intros He Ho Hle [Hc Hp Ha Hs Hu ? Hm]. split; try done; [..|lia].
  - eapply role_ok_impl; [exact Hc|intros x; by apply current_ok_extend..].
  - eapply role_ok_impl; [exact Hp|intros x; by apply pending_ok_extend..].
  - intros i Hi. destruct (Hu i Hi) as [[t st] Ht]. destruct (He _ _ _ Ht) as (t'&st'&?&_). eauto.
Qed.

Lemma accounts_extend txs txs' spc spp o o' s :
  txs_extend txs txs' → 0 ≤ o' ≤ o → accounts elsewhere txs spc spp o s → accounts elsewhere txs' spc spp o' s.
Proof. intros He Ho. apply accounts_shift; [done|lia..]. Qed.

(** ** Sums *)

Lemma stake_of_pending txs b x : pending_ok txs b x → 0 ≤ stake_of x.
Proof. intros [? ? ? ? Hr ? ?]. unfold stake_of. case_decide; [|done]. lia. Qed.

Lemma stake_of_current txs b x : current_ok txs b x → 0 ≤ stake_of x.
Proof. intros [? ? ? ? Hr ?]. unfold is_uint in Hr. unfold stake_of. case_decide; [|done]. lia. Qed.

(** What a staker that is paid for holds is part of the supply. *)
Lemma pending_le_supply txs spc spp o s x :
  0 ≤ elsewhere → accounts elsewhere txs spc spp o s → staker_in spp x → stake_of x ≤ s.
Proof.
  intros He [Hc Hp _ _ _ Ho Hm] Hx.
  pose proof (spec_total_le stake_of spp _ _ x Hp (stake_of_pending txs _) (stake_of_pending txs _) Hx).
  pose proof (spec_total_nonneg stake_of spc _ _ Hc (stake_of_current txs _) (stake_of_current txs _)). lia.
Qed.

Lemma supply_u64 txs spc spp o s : 0 ≤ elsewhere → config_ok cfg → accounts elsewhere txs spc spp o s → is_u64 s.
Proof.
  intros He Hcfg [Hc Hp _ _ _ Ho Hm]. pose proof (co_cap _ Hcfg) as Hcap. unfold is_uint in *.
  pose proof (spec_total_nonneg stake_of spp _ _ Hp (stake_of_pending txs _) (stake_of_pending txs _)).
  pose proof (spec_total_nonneg stake_of spc _ _ Hc (stake_of_current txs _) (stake_of_current txs _)). lia.
Qed.

(** ** Changes that keep the accounts *)

(** A staker is added for what it takes out of the outputs. *)
Lemma accounts_put txs txs' spc spp o o' s delegator x :
  accounts elsewhere txs spc spp o s → txs_extend txs txs' → (∀ y, staker_in spp y → st_TxID y ∈ sp_used spp) →
  txs (st_TxID x) = None → pending_ok txs' delegator x →
  (delegator = false → sp_validators spc !! slot x = None ∧ sp_validators spp !! slot x = None) →
  0 ≤ o' → o' + stake_of x ≤ o →
  ∃ spp', spec_step spp (put_op delegator x) = Some spp' ∧ accounts elsewhere txs' spc spp' o' s.
Proof.
  intros [Hc Hp Ha Hs Hu ? Hm] He Hin Hnew Hx Hfree Ho Hle.
  assert (st_TxID x ∉ sp_used spc ∪ sp_used spp) as Hid by (intros Hi; destruct (Hu _ Hi); congruence).
  apply not_elem_of_union in Hid as [Hidc Hidp].
  destruct (spec_put_step spp (pending_ok txs' false) (pending_ok txs' true) delegator x) as (spp'&Hstep&Hr&Hus&Ht&Hst&Hsl); [|done|by destruct delegator|done|by intros ?; apply Hfree|].
  { eapply role_ok_impl; [exact Hp|intros y; by apply pending_ok_extend..]. }
  exists spp'. split; [done|]. split; [|done|..|done|rewrite Ht; lia].
  - eapply role_ok_impl; [exact Hc|intros y; by apply current_ok_extend..].
  - intros y Hy. destruct (Hst y Hy); subst; auto.
  - intros k Hk. destruct (Hsl k Hk) as [?|[Hd Hk']]; [by apply Hs|]. subst k. by apply Hfree.
  - intros i. rewrite Hus. intros Hi. destruct (decide (i = st_TxID x)) as [Heq|Hne].
    + subst i. destruct Hx as [(t&st&?&_) _ _ _ _ _ _]. eauto.
    + destruct (Hu i ltac:(set_solver)) as [[t st] Ht']. destruct (He _ _ _ Ht') as (t'&st'&?&_). eauto.
Qed.

(** A staker leaves with at most what it holds; what it is not given was not minted. *)
Lemma accounts_delete txs txs' spc spp o o' s s' delegator x :
  accounts elsewhere txs spc spp o s → txs_extend txs txs' →
  (if delegator : bool then sp_delegators spc !! st_TxID x = Some x else sp_validators spc !! slot x = Some x) →
  0 ≤ o' → o' - s' ≤ o - s + stake_of x → s' ≤ s →
  ∃ spc', spec_step spc (delete_op delegator x) = Some spc' ∧ accounts elsewhere txs' spc' spp o' s'.
Proof.
  intros [Hc Hp Ha Hs Hu ? Hm] He Hx Ho Hle Hss.
  destruct (spec_delete_step spc delegator x Hx) as (spc'&Hstep&Hus&Hsv&Hsd&Ht).
  exists spc'. split; [done|]. split; [..|done|rewrite Ht; lia].
  - eapply role_ok_impl; [eapply role_ok_subseteq; [exact Hc|done..]|intros y; by apply current_ok_extend..].
  - eapply role_ok_impl; [exact Hp|intros y; by apply pending_ok_extend..].
  - intros y Hy. rewrite Hus. by apply Ha.
  - intros k Hk. specialize (Hs k Hk). destruct (sp_validators spc' !! k) eqn:E; [|done]. by rewrite (lookup_weaken _ _ _ _ E Hsv) in Hs.
  - intros i. rewrite Hus. intros Hi. destruct (Hu i Hi) as [[t st] Ht']. destruct (He _ _ _ Ht') as (t'&st'&?&_). eauto.
Qed.
End elsewhere.
End books.

(** ** The books of a chain *)

Section chain_books.
Context `{Crypto} (cfg : RewardConfig) (ctx : SnowContext) (elsewhere : Z).
Context {C P U X : Type} `{!StakerSet C, !StakerSetLaws C, !StakerSet P, !StakerSetLaws P, !UTXOSet U, !UTXOSetLaws U, !Ledger X, !LedgerLaws X}.

Record books (ch : chain C P U X) (spc spp : stakers_spec) : Prop := mkBooks {
  bk_current : represents (ch_current ch) spc;
  bk_pending : represents (ch_pending ch) spp;
  bk_utxos : utxos_ok (ch_utxos ch);
  bk_ledger : ledger_ok (ch_ledger ch);
  bk_accounts : accounts cfg elsewhere (txs_of (ch_ledger ch)) spc spp (supply (ch_utxos ch) (ctx_AVAXAssetID ctx)) (ch_currentSupply ch);
}.

Definition balanced (ch : chain C P U X) : Prop := ∃ spc spp, books ch spc spp.
End chain_books.
