(* ===== verification/ProposalExecutor.v ===== *)
(** Executing the transactions that are proposed and then committed or aborted
    (src/vms/platformvm/txs/executor/proposal_tx_executor.go).

    Adding a staker consumes what its transaction spends and puts the staker among
    the pending ones; advancing the time moves stakers to and from the current ones
    and mints their potential rewards; rewarding a validator removes it, returns its
    stake and, when committed, pays the reward.

    None is a panic.  The clock does not move during a call. *)

From Stdlib Require Import SpecFloat Strings.Byte.
From S2P Require Import Prelude SafeMath Ids NodeBag Packer Database CodecTypes Codec LinkedDB GoStd Secp256k1fx Utxo PlatformUtxo PlatformTxs.
From S2P Require Import GoHeap Stakers StakerIters StakerSets StakerDiff DelegatorWeight Reward PlatformState.
#[local] Open Scope node_scope.

Definition MaxFutureStartTime : Z := 24 * 7 * 2 * 3600 * Second.
Definition SyncBound : Z := 10 * Second.
Definition MaxValidatorWeightFactor : Z := 5.

(** [ids.EmptyNodeID] *)
Definition EmptyNodeID : NodeID := node1 x00.

(** What the executors read of [config.Config]. *)
Record Config := mkConfig {
  cfg_AddStakerTxFee : Z;
  cfg_TxFee : Z;
  cfg_CreateAssetTxFee : Z;
  cfg_CreateSubnetTxFee : Z;
  cfg_CreateBlockchainTxFee : Z;
  cfg_MinValidatorStake : Z;
  cfg_MaxValidatorStake : Z;
  cfg_MinDelegatorStake : Z;
  cfg_MinDelegationFee : Z;
  cfg_UptimePercentage : float64;
  cfg_MinStakeDuration : Z;
  cfg_MaxStakeDuration : Z;
  cfg_ApricotPhase3Time : Z;
  cfg_ApricotPhase5Time : Z;
  cfg_BlueberryTime : Z;
}.

(** [Backend]; [be_Uptimes] is [CalculateUptimePercentFrom], none when it fails. *)
Record Backend := mkBackend {
  be_Config : Config;
  be_Ctx : SnowContext;
  be_Clk : Z;
  be_Fx : Fx;
  be_Uptimes : NodeID → Z → option float64;
  be_Rewards : calculator;
  be_Bootstrapped : bool;
}.

(** [uint64(clk.Time().Unix())], which the flow checker compares lock times with. *)
Definition be_now (e : Backend) : Z := wrap64 (be_Clk e / Second).

Inductive executor_error :=
| errSyntactic (e : tx_error)
| errWeightTooSmall | errWeightTooLarge | errInsufficientDelegationFee | errStakeTooShort | errStakeTooLong
| errEmptyNodeID | errStartTooEarly | errDuplicateValidator | errFutureStakeTime
| errState (e : state_error)
| errVerifySpend (e : spend_error)
| errWrongNumberOfCredentials | errValidatorSubset | errNotASubnet | errPermission (e : fx_error)
| errStakeOverflow | errOverDelegated | errExec (e : exec_error)
| errTimeTooFar | errTimeNotAfter | errTimeAfterChange | errUnexpectedPriority | errSupplyMath (e : math_error)
| errInvalidID | errNoStaker | errWrongStaker | errBeforeEnd
| errCreateOutput (e : fx_error) | errExecWrongTxType | errShouldBeDSValidator | errUptime.

(** The panic and the error. *)
Definition pr_bind {E A B} (m : option (result E A)) (k : A → option (result E B)) : option (result E B) :=
  match m with None => None | Some (Err e) => Some (Err e) | Some (Ok a) => k a end.
Notation "'let!' x := m 'in' k" := (pr_bind m (λ x, k))
  (at level 10, x name, m at level 100, k at level 200) : node_scope.
Notation "'let!' ' p := m 'in' k" := (pr_bind m (λ p, k))
  (at level 10, p strict pattern, m at level 100, k at level 200) : node_scope.

Definition lift {E F A} (f : E → F) (r : result E A) : option (result F A) := Some (map_err f r).
Definition lift2 {E F A} (f : E → F) (r : option (result E A)) : option (result F A) := map_err f <$> r.
Definition check {E} (b : bool) (e : E) : option (result E unit) := Some (if b then Err e else Ok tt).
Definition panic {E A} (o : option A) : option (result E A) := Ok <$> o.

(** [_, err := GetValidator(...)]: an error is expected. *)
Definition must_be_missing (r : result state_error Staker) : option (result executor_error unit) :=
  match r with
  | Ok _ => Some (Err errDuplicateValidator)
  | Err ErrNotFound => Some (Ok tt)
  | Err e => Some (Err (errState e))
  end.

Section executor.
Context `{Crypto} `{GoRange, GoSort, GoAppend} (Implements : gotype → positive → bool) (registered : linearCodec).
Context `{BTree} {C P U X : Type} `{!StakerSet C, !StakerSet P, !UTXOSet U, !Ledger X}.
Context (e : Backend) (parent : option (chain C P U X)).

Record proposal := mkProposal {
  OnCommit : chain_diff C P U X;
  OnAbort : chain_diff C P U X;
  PrefersCommit : bool;
}.

Let cfg := be_Config e.
Let marshal := marshal_out Implements registered.

Definition GetState : option (result executor_error (chain C P U X)) :=
  Some (match parent with None => Err (errState ErrMissingParentState) | Some parentState => Ok parentState end).

Definition newDiff : option (result executor_error (chain_diff C P U X)) := lift errState (NewDiff parent).

(** The inputs are consumed and the outputs produced. *)
Definition transfer (base : BaseTx) (txID : ID) (outs : list TransferableOutput) (d : chain_diff C P U X) : chain_diff C P U X :=
  on_utxos (λ u, Produce (Consume u (btx_Ins base)) txID outs) d.

(** The rest of a transaction that adds a staker: [put] puts it, [refund] are the
    outputs when it is aborted. *)
Definition stage (base : BaseTx) (txID : ID) (refund : list TransferableOutput) (put : chain_diff C P U X → chain_diff C P U X) (startTime : Z)
  : option (result executor_error proposal) :=
  let! onCommit := newDiff in
  let onCommit := put (transfer base txID (btx_Outs base) onCommit) in
  let! onAbort := newDiff in
  let onAbort := transfer base txID refund onAbort in
  Some (Ok (mkProposal onCommit onAbort (bool_decide (be_Clk e < startTime)))).

(** [FlowChecker.VerifySpend] with a fee in AVAX. *)
Definition verify_spend (base : BaseTx) (parentState : chain C P U X) (outs : list TransferableOutput) (creds : list iface) (fee : Z)
  : option (result executor_error unit) :=
  match VerifySpend Implements registered (be_Fx e) (be_now e) (ifTx (btx_unsignedBytes base)) (ch_utxos parentState)
      (btx_Ins base) outs creds {[ctx_AVAXAssetID (be_Ctx e) := fee]} with
  | Ok _ => Some (Ok tt)
  | Err errSpendPanic => None
  | Err err => Some (Err (errVerifySpend err))
  end.

Definition AsPending (priority : Z) (s : Staker) : Staker :=
  mkStaker (st_TxID s) (st_NodeID s) (st_SubnetID s) (st_Weight s) (st_StartTime s) (st_EndTime s) (st_PotentialReward s) (st_StartTime s) priority.

Definition exec_AddValidatorTx (Tx : PlatformTxs.Tx) (tx : AddValidatorTx) : option (result executor_error proposal) :=
  let! _ := lift errSyntactic (tx_SyntacticVerify marshal (be_Ctx e) Tx) in
  let! _ := check (bool_decide (v_Wght (av_Validator tx) < cfg_MinValidatorStake cfg)) errWeightTooSmall in
  let! _ := check (bool_decide (cfg_MaxValidatorStake cfg < v_Wght (av_Validator tx))) errWeightTooLarge in
  let! _ := check (bool_decide (av_Shares tx < cfg_MinDelegationFee cfg)) errInsufficientDelegationFee in
  let duration := v_Duration (av_Validator tx) in
  let! _ := check (bool_decide (duration < cfg_MinStakeDuration cfg)) errStakeTooShort in
  let! _ := check (bool_decide (cfg_MaxStakeDuration cfg < duration)) errStakeTooLong in
  let! parentState := GetState in
  let currentTimestamp := ch_timestamp parentState in
  let! _ := check (negb (bool_decide (currentTimestamp < cfg_BlueberryTime cfg)) && bool_decide (v_NodeID (av_Validator tx) = EmptyNodeID)) errEmptyNodeID in
  let outs := btx_Outs (av_Base tx) ++ av_Stake tx in
  let startTime := v_StartTime (av_Validator tx) in
  let! _ := if be_Bootstrapped e then
      let! _ := check (negb (bool_decide (currentTimestamp < startTime))) errStartTooEarly in
      let! _ := must_be_missing (GetAnyValidator (ch_current parentState) (ch_pending parentState) PrimaryNetworkID (v_NodeID (av_Validator tx))) in
      let! _ := verify_spend (av_Base tx) parentState outs (tx_Creds Tx) (cfg_AddStakerTxFee cfg) in
      check (bool_decide (currentTimestamp + MaxFutureStartTime < startTime)) errFutureStakeTime
    else Some (Ok tt) in
  let txID := tx_id Tx in
  stage (av_Base tx) txID outs
    (PutPendingValidator (AsPending PrimaryNetworkValidatorPendingPriority (NewPrimaryNetworkStaker txID (av_Validator tx)))) startTime.

Definition exec_AddSubnetValidatorTx (Tx : PlatformTxs.Tx) (tx : AddSubnetValidatorTx) : option (result executor_error proposal) :=
  let! _ := lift errSyntactic (tx_SyntacticVerify marshal (be_Ctx e) Tx) in
  let vdr := sv_Validator (as_Validator tx) in
  let duration := v_Duration vdr in
  let! _ := check (bool_decide (duration < cfg_MinStakeDuration cfg)) errStakeTooShort in
  let! _ := check (bool_decide (cfg_MaxStakeDuration cfg < duration)) errStakeTooLong in
  let! _ := check (bool_decide (length (tx_Creds Tx) = 0%nat)) errWrongNumberOfCredentials in
  let! parentState := GetState in
  let startTime := v_StartTime vdr in
  let! _ := if be_Bootstrapped e then
      let currentTimestamp := ch_timestamp parentState in
      let! _ := check (negb (bool_decide (currentTimestamp < startTime))) errStartTooEarly in
      let! _ := must_be_missing (GetAnyValidator (ch_current parentState) (ch_pending parentState) (sv_Subnet (as_Validator tx)) (v_NodeID vdr)) in
      let! primaryNetworkValidator := lift errState (GetAnyValidator (ch_current parentState) (ch_pending parentState) PrimaryNetworkID (v_NodeID vdr)) in
      let! _ := check (negb (v_BoundedBy vdr (st_StartTime primaryNetworkValidator) (st_EndTime primaryNetworkValidator))) errValidatorSubset in
      let baseTxCredsLen := (length (tx_Creds Tx) - 1)%nat in
      let baseTxCreds := take baseTxCredsLen (tx_Creds Tx) in
      let! subnetCred := panic (tx_Creds Tx !! baseTxCredsLen) in
      let! '(subnetIntf, _) := lift errState (GetTx (sv_Subnet (as_Validator tx)) (ch_ledger parentState)) in
      let! subnet := match tx_Unsigned subnetIntf with uCreateSubnet subnet => Some (Ok subnet) | _ => Some (Err errNotASubnet) end in
      let! _ := lift errPermission (VerifyPermission (be_Fx e) (be_now e) (ifTx (btx_unsignedBytes (as_Base tx))) (as_SubnetAuth tx) subnetCred (cs_Owner subnet)) in
      let! _ := verify_spend (as_Base tx) parentState (btx_Outs (as_Base tx)) baseTxCreds (cfg_TxFee cfg) in
      check (bool_decide (currentTimestamp + MaxFutureStartTime < startTime)) errFutureStakeTime
    else Some (Ok tt) in
  let txID := tx_id Tx in
  stage (as_Base tx) txID (btx_Outs (as_Base tx))
    (PutPendingValidator (AsPending SubnetValidatorPendingPriority (NewSubnetStaker txID (as_Validator tx)))) startTime.

Definition exec_AddDelegatorTx (Tx : PlatformTxs.Tx) (tx : AddDelegatorTx) : option (result executor_error proposal) :=
  let! _ := lift errSyntactic (tx_SyntacticVerify marshal (be_Ctx e) Tx) in
  let duration := v_Duration (ad_Validator tx) in
  let! _ := check (bool_decide (duration < cfg_MinStakeDuration cfg)) errStakeTooShort in
  let! _ := check (bool_decide (cfg_MaxStakeDuration cfg < duration)) errStakeTooLong in
  let! _ := check (bool_decide (v_Wght (ad_Validator tx) < cfg_MinDelegatorStake cfg)) errWeightTooSmall in
  let outs := btx_Outs (ad_Base tx) ++ ad_Stake tx in
  let! parentState := GetState in
  let txID := tx_id Tx in
  let newStaker := AsPending PrimaryNetworkDelegatorPendingPriority (NewPrimaryNetworkStaker txID (ad_Validator tx)) in
  let startTime := v_StartTime (ad_Validator tx) in
  let! _ := if be_Bootstrapped e then
      let currentTimestamp := ch_timestamp parentState in
      let! _ := check (negb (bool_decide (currentTimestamp < startTime))) errStartTooEarly in
      let! primaryNetworkValidator := lift errState (GetAnyValidator (ch_current parentState) (ch_pending parentState) PrimaryNetworkID (v_NodeID (ad_Validator tx))) in
      let! maximumWeight := lift (λ _, errStakeOverflow) (Mul64 MaxValidatorWeightFactor (st_Weight primaryNetworkValidator)) in
      let maximumWeight := if bool_decide (currentTimestamp < cfg_ApricotPhase3Time cfg) then maximumWeight
                           else Min64 maximumWeight [cfg_MaxValidatorStake cfg] in
      let! can := lift2 errExec (canDelegate (ch_current parentState) (ch_pending parentState) primaryNetworkValidator maximumWeight newStaker) in
      let! _ := check (negb can) errOverDelegated in
      let! _ := verify_spend (ad_Base tx) parentState outs (tx_Creds Tx) (cfg_AddStakerTxFee cfg) in
      check (bool_decide (currentTimestamp + MaxFutureStartTime < startTime)) errFutureStakeTime
    else Some (Ok tt) in
  stage (ad_Base tx) txID outs (PutPendingDelegator newStaker) startTime.

(** ** Advancing the time *)

(** The supply and the stakers that move, as gathered by the loop over the pending
    stakers. *)
Record moves := mkMoves {
  mv_currentSupply : Z;
  mv_currentValidatorsToAdd : list Staker;
  mv_pendingValidatorsToRemove : list Staker;
  mv_currentDelegatorsToAdd : list Staker;
  mv_pendingDelegatorsToRemove : list Staker;
}.

Definition with_reward (r : Z) (s : Staker) : Staker :=
  mkStaker (st_TxID s) (st_NodeID s) (st_SubnetID s) (st_Weight s) (st_StartTime s) (st_EndTime s) r (st_NextTime s) (st_Priority s).

(** The potential reward of a staker, and the supply with it. *)
Definition mint (s : Staker) (currentSupply : Z) : option (result executor_error (Z * Z)) :=
  potentialReward ← Calculate (be_Rewards e) (time_Sub (st_EndTime s) (st_StartTime s)) (st_Weight s) currentSupply;
  Some (match Add64 currentSupply potentialReward with
    | Err err => Err (errSupplyMath err)
    | Ok currentSupply => Ok (potentialReward, currentSupply)
    end).

(** The body of the loop; leaving it is a break or an error. *)
Definition move_pending (txTimestamp : Z) (m : moves) (stakerToRemove : Staker) : option (moves + result executor_error moves) :=
  if decide (txTimestamp < st_StartTime stakerToRemove) then Some (inr (Ok m))
  else
    priority ← PendingToCurrentPriorities !! Z.to_nat (st_Priority stakerToRemove);
    let stakerToAdd := mkStaker (st_TxID stakerToRemove) (st_NodeID stakerToRemove) (st_SubnetID stakerToRemove) (st_Weight stakerToRemove)
      (st_StartTime stakerToRemove) (st_EndTime stakerToRemove) (st_PotentialReward stakerToRemove) (st_EndTime stakerToRemove) priority in
    if decide (st_Priority stakerToRemove = PrimaryNetworkDelegatorPendingPriority) then
      r ← mint stakerToRemove (mv_currentSupply m);
      Some (match r with
        | Err err => inr (Err err)
        | Ok (potentialReward, currentSupply) =>
            inl (mkMoves currentSupply (mv_currentValidatorsToAdd m) (mv_pendingValidatorsToRemove m)
              (mv_currentDelegatorsToAdd m ++ [with_reward potentialReward stakerToAdd]) (mv_pendingDelegatorsToRemove m ++ [stakerToRemove]))
        end)
    else if decide (st_Priority stakerToRemove = PrimaryNetworkValidatorPendingPriority) then
      r ← mint stakerToRemove (mv_currentSupply m);
      Some (match r with
        | Err err => inr (Err err)
        | Ok (potentialReward, currentSupply) =>
            inl (mkMoves currentSupply (mv_currentValidatorsToAdd m ++ [with_reward potentialReward stakerToAdd]) (mv_pendingValidatorsToRemove m ++ [stakerToRemove])
              (mv_currentDelegatorsToAdd m) (mv_pendingDelegatorsToRemove m))
        end)
    else if decide (st_Priority stakerToRemove = SubnetValidatorPendingPriority) then
      Some (inl (mkMoves (mv_currentSupply m) (mv_currentValidatorsToAdd m ++ [stakerToAdd]) (mv_pendingValidatorsToRemove m ++ [stakerToRemove])
        (mv_currentDelegatorsToAdd m) (mv_pendingDelegatorsToRemove m)))
    else Some (inr (Err errUnexpectedPriority)).

(** The body of the loop over the current stakers. *)
Definition move_current (txTimestamp : Z) (currentValidatorsToRemove : list Staker) (stakerToRemove : Staker)
  : option (list Staker + list Staker) :=
  Some (if decide (txTimestamp < st_EndTime stakerToRemove) then inr currentValidatorsToRemove
  else if decide (st_Priority stakerToRemove = PrimaryNetworkDelegatorCurrentPriority ∨ st_Priority stakerToRemove = PrimaryNetworkValidatorCurrentPriority)
    then inr currentValidatorsToRemove
  else inl (currentValidatorsToRemove ++ [stakerToRemove])).

Definition apply_moves (txTimestamp : Z) (m : moves) (currentValidatorsToRemove : list Staker) (d : chain_diff C P U X) : chain_diff C P U X :=
  let d := SetTimestamp txTimestamp d in
  let d := SetCurrentSupply (mv_currentSupply m) d in
  let d := foldl (λ d s, PutCurrentValidator s d) d (mv_currentValidatorsToAdd m) in
  let d := foldl (λ d s, DeletePendingValidator s d) d (mv_pendingValidatorsToRemove m) in
  let d := foldl (λ d s, PutCurrentDelegator s d) d (mv_currentDelegatorsToAdd m) in
  let d := foldl (λ d s, DeletePendingDelegator s d) d (mv_pendingDelegatorsToRemove m) in
  foldl (λ d s, DeleteCurrentValidator s d) d currentValidatorsToRemove.

Definition exec_AdvanceTimeTx (Tx : PlatformTxs.Tx) (tx : AdvanceTimeTx) : option (result executor_error proposal) :=
  let! _ := check (bool_decide (length (tx_Creds Tx) ≠ 0%nat)) errWrongNumberOfCredentials in
  let txTimestamp := at_Timestamp tx in
  let localTimestampPlusSync := be_Clk e + SyncBound in
  let! _ := check (bool_decide (localTimestampPlusSync < txTimestamp)) errTimeTooFar in
  let! parentState := GetState in
  let! _ := check (negb (bool_decide (ch_timestamp parentState < txTimestamp))) errTimeNotAfter in
  let! nextStakerChangeTime := lift2 errState (GetNextStakerChangeTime (ch_current parentState) (ch_pending parentState)) in
  let! _ := check (bool_decide (nextStakerChangeTime < txTimestamp)) errTimeAfterChange in
  let! pendingStakerIterator := lift2 errState (GetStakerIterator (ch_pending parentState)) in
  let! r := panic (it_loop (move_pending txTimestamp) pendingStakerIterator (mkMoves (ch_currentSupply parentState) [] [] [] [])) in
  let! m := Some (match r with inl m => Ok m | inr r => r end) in
  let! currentStakerIterator := lift2 errState (GetStakerIterator (ch_current parentState)) in
  let! r := panic (it_loop (move_current txTimestamp) currentStakerIterator []) in
  let currentValidatorsToRemove := match r with inl l | inr l => l end in
  let! onCommit := newDiff in
  let onCommit := apply_moves txTimestamp m currentValidatorsToRemove onCommit in
  let! onAbort := newDiff in
  Some (Ok (mkProposal onCommit onAbort (negb (bool_decide (localTimestampPlusSync < txTimestamp))))).

(** ** Rewarding a validator *)

(** The outputs of the stake, [first] being the number of other outputs. *)
Fixpoint refund_stake (txID : ID) (first : nat) (stake : list TransferableOutput) (u : PlatformUtxo.diff U) : PlatformUtxo.diff U :=
  match stake with
  | [] => u
  | out :: stake =>
      refund_stake txID (S first) stake
        (AddUTXO (mkUTXO (mkUTXOID txID (wrap32 (Z.of_nat first))) (ctx_AVAXAssetID (be_Ctx e)) (tout_Out out)) u)
  end.

(** A reward that is not zero is paid to its owner. *)
Definition pay_reward (txID : ID) (index : nat) (amount : Z) (owner : iface) (d : chain_diff C P U X) : option (result executor_error (chain_diff C P U X)) :=
  if decide (0 < amount) then
    let! out := lift errCreateOutput (CreateOutput amount owner) in
    let utxo := mkUTXO (mkUTXOID txID (wrap32 (Z.of_nat index))) (ctx_AVAXAssetID (be_Ctx e)) (ifTransferOutput (Some out)) in
    Some (Ok (on_ledger (AddRewardUTXO txID utxo) (on_utxos (AddUTXO utxo) d)))
  else Some (Ok d).

(** What is decided for a validator and for a delegator: both differences, and the
    node and time the uptime is measured from. *)
Definition reward_validator (txID : ID) (stakerToRemove : Staker) (uStakerTx : AddValidatorTx) (onCommit onAbort : chain_diff C P U X)
  : option (result executor_error (chain_diff C P U X * chain_diff C P U X * NodeID * Z)) :=
  let onCommit := DeleteCurrentValidator stakerToRemove onCommit in
  let onAbort := DeleteCurrentValidator stakerToRemove onAbort in
  let outs := length (btx_Outs (av_Base uStakerTx)) in
  let onCommit := on_utxos (refund_stake txID outs (av_Stake uStakerTx)) onCommit in
  let onAbort := on_utxos (refund_stake txID outs (av_Stake uStakerTx)) onAbort in
  let! onCommit := pay_reward txID (outs + length (av_Stake uStakerTx)) (st_PotentialReward stakerToRemove) (av_RewardsOwner uStakerTx) onCommit in
  Some (Ok (onCommit, onAbort, v_NodeID (av_Validator uStakerTx), v_StartTime (av_Validator uStakerTx))).

Definition reward_delegator (parentState : chain C P U X) (txID : ID) (stakerToRemove : Staker) (uStakerTx : AddDelegatorTx) (onCommit onAbort : chain_diff C P U X)
  : option (result executor_error (chain_diff C P U X * chain_diff C P U X * NodeID * Z)) :=
  let onCommit := DeleteCurrentDelegator stakerToRemove onCommit in
  let onAbort := DeleteCurrentDelegator stakerToRemove onAbort in
  let outs := length (btx_Outs (ad_Base uStakerTx)) in
  let onCommit := on_utxos (refund_stake txID outs (ad_Stake uStakerTx)) onCommit in
  let onAbort := on_utxos (refund_stake txID outs (ad_Stake uStakerTx)) onAbort in
  let! vdrStaker := lift errState (GetValidator (ch_current parentState) PrimaryNetworkID (v_NodeID (ad_Validator uStakerTx))) in
  let! '(vdrTxIntf, _) := lift errState (GetTx (st_TxID vdrStaker) (ch_ledger parentState)) in
  let! vdrTx := match tx_Unsigned vdrTxIntf with uAddValidator vdrTx => Some (Ok vdrTx) | _ => Some (Err errExecWrongTxType) end in
  let '(delegatorReward, delegateeReward) := split_reward (av_Shares vdrTx) (st_PotentialReward stakerToRemove) in
  let index := (outs + length (ad_Stake uStakerTx))%nat in
  let! onCommit := pay_reward txID index delegatorReward (ad_RewardsOwner uStakerTx) onCommit in
  let offset := if decide (0 < delegatorReward) then 1%nat else 0%nat in
  let! onCommit := pay_reward txID (index + offset) delegateeReward (av_RewardsOwner vdrTx) onCommit in
  Some (Ok (onCommit, onAbort, v_NodeID (ad_Validator uStakerTx), v_StartTime (av_Validator vdrTx))).

Definition exec_RewardValidatorTx (Tx : PlatformTxs.Tx) (tx : RewardValidatorTx) : option (result executor_error proposal) :=
  let! _ := check (bool_decide (rv_TxID tx = Empty)) errInvalidID in
  let! _ := check (bool_decide (length (tx_Creds Tx) ≠ 0%nat)) errWrongNumberOfCredentials in
  let! parentState := GetState in
  let! currentStakerIterator := lift2 errState (GetStakerIterator (ch_current parentState)) in
  let! '(more, currentStakerIterator) := panic (it_Next currentStakerIterator) in
  let! _ := check (negb more) errNoStaker in
  let! stakerToRemove := panic (it_Value currentStakerIterator) in
  let! _ := check (bool_decide (st_TxID stakerToRemove ≠ rv_TxID tx)) errWrongStaker in
  let! _ := check (bool_decide (st_EndTime stakerToRemove ≠ ch_timestamp parentState)) errBeforeEnd in
  let! '(stakerTx, _) := lift errState (GetTx (st_TxID stakerToRemove) (ch_ledger parentState)) in
  let! onCommit := newDiff in
  let! onAbort := newDiff in
  let! newSupply := lift errSupplyMath (Sub64 (ch_currentSupply onAbort) (st_PotentialReward stakerToRemove)) in
  let onAbort := SetCurrentSupply newSupply onAbort in
  let! '(onCommit, onAbort, nodeID, startTime) :=
    match tx_Unsigned stakerTx with
    | uAddValidator uStakerTx => reward_validator (rv_TxID tx) stakerToRemove uStakerTx onCommit onAbort
    | uAddDelegator uStakerTx => reward_delegator parentState (rv_TxID tx) stakerToRemove uStakerTx onCommit onAbort
    | _ => Some (Err errShouldBeDSValidator)
    end in
  let! uptime := Some (match be_Uptimes e nodeID startTime with Some uptime => Ok uptime | None => Err errUptime end) in
  Some (Ok (mkProposal onCommit onAbort (SFleb (cfg_UptimePercentage cfg) uptime))).

(** The visitor. *)
Definition ProposalTxExecutor (Tx : PlatformTxs.Tx) : option (result executor_error proposal) :=
  match tx_Unsigned Tx with
  | uCreateChain _ | uCreateSubnet _ | uImport _ | uExport _ => Some (Err errExecWrongTxType)
  | uAddValidator tx => exec_AddValidatorTx Tx tx
  | uAddSubnetValidator tx => exec_AddSubnetValidatorTx Tx tx
  | uAddDelegator tx => exec_AddDelegatorTx Tx tx
  | uAdvanceTime tx => exec_AdvanceTimeTx Tx tx
  | uRewardValidator tx => exec_RewardValidatorTx Tx tx
  end.
End executor.

(** What [verifier.ProposalBlock] makes of the outcomes. *)
Section outcomes.
Context `{BTree} {C P U X : Type} `{!Ledger X}.

Definition onCommitState (pr : proposal) (tx : Tx) : chain_diff C P U X := on_ledger (AddTx tx status_Committed) (OnCommit pr).
Definition onAbortState (pr : proposal) (tx : Tx) : chain_diff C P U X := on_ledger (AddTx tx status_Aborted) (OnAbort pr).
End outcomes.
