(* ===== verification/AdvanceTime.v ===== *)
(** Stakers whose time has come move from the pending to the current ones, and
    validators of subnets whose time is over leave: the effect on the specification
    of both sets, and on the accounts. *)

From S2P Require Import Prelude SafeMath Ids NodeBag Database GoStd Secp256k1fx Utxo PlatformUtxo PlatformUtxoSpec PlatformUtxoSafety GoHeap Stakers StakerIters.
From S2P Require Import StakerSets StakerDiff StakerRefine Reward PlatformTxs PlatformState PlatformBooks ProposalExecutor.

(** What a pending staker becomes: its reward is set and it moves again at its end. *)
Definition promoted (delegator : bool) (x y : Staker) : Prop :=
  ∃ r, is_u64 r ∧ (primary x ∨ r = 0) ∧
    y = mkStaker (st_TxID x) (st_NodeID x) (st_SubnetID x) (st_Weight x) (st_StartTime x) (st_EndTime x) r (st_EndTime x) (current_priority delegator x).

Lemma promoted_same b x y : promoted b x y → st_TxID y = st_TxID x ∧ slot y = slot x ∧ (primary y ↔ primary x).
Proof. by intros (r&_&_&->). Qed.

Lemma promoted_ids b l l' : Forall2 (promoted b) l l' → st_TxID <$> l' = st_TxID <$> l ∧ slot <$> l' = slot <$> l.
Proof.
  induction 1 as [|x y l l' (Hi&Hs&_)%promoted_same _ [IH1 IH2]]; [done|]. by rewrite !fmap_cons, Hi, Hs, IH1, IH2.
Qed.

Lemma promoted_ok cfg txs b x y : pending_ok cfg txs b x → promoted b x y → current_ok txs b y.
Proof.
  intros [Hb Hp ? Hw ? ? ?] (r&Hr&_&->). split; simpl; done.
Qed.

(** The lists that move are those of the maps. *)
Record moving (spp : stakers_spec) (vs ds : list Staker) : Prop := mkMoving {
  mo_validators : ∀ x, x ∈ vs → sp_validators spp !! slot x = Some x;
  mo_delegators : ∀ x, x ∈ ds → sp_delegators spp !! st_TxID x = Some x;
  mo_NoDup_v : NoDup vs;
  mo_NoDup_d : NoDup ds;
}.

Section pending.
Context {P : Type} `{StakerSetLaws P} (p : P) (spp : stakers_spec) (Hr : represents p spp).
Context (vs ds : list Staker) (Hmv : moving spp vs ds).

Lemma moving_in x : x ∈ vs ∨ x ∈ ds → staker_in spp x.
Proof. intros [Hx|Hx]; [left; by apply (mo_validators _ _ _ Hmv)|right; by apply (mo_delegators _ _ _ Hmv)]. Qed.

Lemma moving_slots : NoDup (slot <$> vs).
Proof.
  apply NoDup_fmap_2_strong; [|apply Hmv]. intros x y Hx Hy Heq. apply (mo_validators _ _ _ Hmv) in Hx, Hy. rewrite Heq in Hx. congruence.
Qed.

Lemma moving_ids_of l : (∀ x, x ∈ l → x ∈ vs ∨ x ∈ ds) → NoDup l → NoDup (st_TxID <$> l).
Proof.
  intros Hl Hnd. apply NoDup_fmap_2_strong; [|done]. intros x y Hx%Hl%moving_in Hy%Hl%moving_in. by apply (represents_unique p spp Hr).
Qed.

Lemma moving_ids_apart x y : x ∈ vs → y ∈ ds → st_TxID x ≠ st_TxID y.
Proof.
  intros Hx Hy Heq. assert (x = y) as ->.
  { apply (represents_unique p spp Hr); [apply moving_in; by left|apply moving_in; by right|done]. }
  by apply (represents_apart p spp Hr y); [apply (mo_delegators _ _ _ Hmv)|apply (mo_validators _ _ _ Hmv)].
Qed.

Lemma pending_leave :
  ∃ spp', spec_run ((DeleteValidatorOp <$> vs) ++ (DeleteDelegatorOp <$> ds)) spp = Some spp' ∧
    sp_used spp' = sp_used spp ∧
    (∀ k y, sp_validators spp' !! k = Some y ↔ sp_validators spp !! k = Some y ∧ (y ∈ vs → slot y ≠ k)) ∧
    (∀ i y, sp_delegators spp' !! i = Some y ↔ sp_delegators spp !! i = Some y ∧ (y ∈ ds → st_TxID y ≠ i)) ∧
    ∀ f, spec_total f spp' = spec_total f spp - sumZ (f <$> vs) - sumZ (f <$> ds).
Proof.
  destruct (run_delete_validators vs spp moving_slots (mo_validators _ _ _ Hmv)) as (sp1&R1&V1&D1&U1&T1).
  destruct (run_delete_delegators ds sp1) as (sp2&R2&D2&V2&U2&T2).
  { apply moving_ids_of; [tauto|apply Hmv]. }
  { intros x Hx. rewrite D1. by apply (mo_delegators _ _ _ Hmv). }
  exists sp2. split; [by rewrite spec_run_app, R1|]. split; [congruence|]. split; [by rewrite V2|]. split; [by rewrite <-D1|].
  intros f. rewrite T2, T1. lia.
Qed.
End pending.

Section current.
Context {C : Type} `{StakerSetLaws C} (c : C) (spc : stakers_spec) (Hr : represents c spc).
Context (V D : Staker → Prop) (Hrole : role_ok spc V D).
Context (vs' ds' gone : list Staker).

Lemma current_enter :
  NoDup (st_TxID <$> vs') → NoDup (slot <$> vs') → NoDup (st_TxID <$> ds') → NoDup gone →
  (∀ x, x ∈ vs' → st_TxID x ∉ sp_used spc ∧ sp_validators spc !! slot x = None) →
  (∀ x, x ∈ ds' → st_TxID x ∉ sp_used spc) →
  (∀ x y, x ∈ vs' → y ∈ ds' → st_TxID x ≠ st_TxID y) →
  (∀ x, x ∈ gone → sp_validators spc !! slot x = Some x) →
  ∃ spc', spec_run ((PutValidatorOp <$> vs') ++ (PutDelegatorOp <$> ds') ++ (DeleteValidatorOp <$> gone)) spc = Some spc' ∧
    (∀ i, i ∈ sp_used spc' ↔ i ∈ st_TxID <$> vs' ∨ i ∈ st_TxID <$> ds' ∨ i ∈ sp_used spc) ∧
    (∀ k y, sp_validators spc' !! k = Some y ↔ (y ∈ vs' ∧ slot y = k ∨ sp_validators spc !! k = Some y) ∧ (y ∈ gone → slot y ≠ k)) ∧
    (∀ i y, sp_delegators spc' !! i = Some y ↔ y ∈ ds' ∧ st_TxID y = i ∨ sp_delegators spc !! i = Some y) ∧
    ∀ f, spec_total f spc' = spec_total f spc + sumZ (f <$> vs') + sumZ (f <$> ds') - sumZ (f <$> gone).
Proof.
  intros Hidv Hslv Hidd Hndg Hv Hd Hap Hg.
  destruct (run_put_validators vs' spc Hidv Hslv Hv) as (sp1&R1&V1&D1&U1&T1).
  destruct (run_put_delegators ds' sp1 Hidd) as (sp2&R2&D2&V2&U2&T2).
  { intros x Hx. rewrite U1, D1. split.
    - intros [(y&Hy&Hyv)%list_elem_of_fmap|Hu]; [by apply (Hap y x)|by apply (Hd x)].
    - destruct (sp_delegators spc !! st_TxID x) as [y|] eqn:E; [|done]. destruct (Hd x Hx).
      destruct (ro_delegator _ _ _ Hrole _ _ E) as [Heq _]. rewrite <-Heq. apply (represents_used c spc Hr). right. by rewrite Heq. }
  destruct (run_delete_validators gone sp2) as (sp3&R3&V3&D3&U3&T3).
  { apply NoDup_fmap_2_strong; [|done]. intros x y Hx%Hg Hy%Hg Heq. rewrite Heq in Hx. congruence. }
  { intros x Hx. rewrite V2. apply V1. right. by apply Hg. }
  exists sp3. rewrite !spec_run_app, R1. simpl. rewrite spec_run_app, R2. simpl. split; [done|]. rewrite U3, D3. split.
  { intros i. rewrite U2, U1. tauto. }
  split; [|split].
  - intros k y. by rewrite V3, V2, V1.
  - intros i y. by rewrite D2, D1.
  - intros f. rewrite T3, T2, T1. lia.
Qed.
End current.

(** ** The accounts *)

Section accounts.
Context (cfg : RewardConfig) (elsewhere : Z).
Context {C P : Type} `{!StakerSet C, !StakerSetLaws C, !StakerSet P, !StakerSetLaws P} (c : C) (p : P).

(** The specifications once [vs] and [ds] have moved as [vs'] and [ds'] and [gone] left. *)
Record moved (spc spp : stakers_spec) (vs ds vs' ds' gone : list Staker) (spc' spp' : stakers_spec) : Prop := mkMoved {
  md_current : spec_run ((PutValidatorOp <$> vs') ++ (PutDelegatorOp <$> ds') ++ (DeleteValidatorOp <$> gone)) spc = Some spc';
  md_pending : spec_run ((DeleteValidatorOp <$> vs) ++ (DeleteDelegatorOp <$> ds)) spp = Some spp';
  md_validator k y : sp_validators spc' !! k = Some y ↔ (y ∈ vs' ∧ slot y = k ∨ sp_validators spc !! k = Some y) ∧ (y ∈ gone → slot y ≠ k);
  md_delegator i y : sp_delegators spc' !! i = Some y ↔ y ∈ ds' ∧ st_TxID y = i ∨ sp_delegators spc !! i = Some y;
  md_left_validator k y : sp_validators spp' !! k = Some y ↔ sp_validators spp !! k = Some y ∧ (y ∈ vs → slot y ≠ k);
  md_left_delegator i y : sp_delegators spp' !! i = Some y ↔ sp_delegators spp !! i = Some y ∧ (y ∈ ds → st_TxID y ≠ i);
  md_used i : i ∈ sp_used spc' ↔ i ∈ st_TxID <$> vs' ∨ i ∈ st_TxID <$> ds' ∨ i ∈ sp_used spc;
  md_left_used : sp_used spp' = sp_used spp;
  md_total f : spec_total f spc' = spec_total f spc + sumZ (f <$> vs') + sumZ (f <$> ds') - sumZ (f <$> gone);
  md_left_total f : spec_total f spp' = spec_total f spp - sumZ (f <$> vs) - sumZ (f <$> ds);
}.

Context (txs : ID → option (Tx * Status)) (spc spp : stakers_spec) (o s : Z).
Context (Hc : represents c spc) (Hp : represents p spp) (Hac : accounts cfg elsewhere txs spc spp o s).
Context (vs ds vs' ds' gone : list Staker) (Hmv : moving spp vs ds).
Context (Hvs : Forall2 (promoted false) vs vs') (Hds : Forall2 (promoted true) ds ds').
Context (Hgone : NoDup gone) (Hexp : ∀ x, x ∈ gone → sp_validators spc !! slot x = Some x ∧ ¬ primary x).

Lemma promoted_from b l l' y : Forall2 (promoted b) l l' → y ∈ l' → ∃ x, x ∈ l ∧ promoted b x y.
Proof. intros Hl Hy. destruct (Forall2_elem_r _ _ _ _ Hl Hy) as (x&?&?). eauto. Qed.

Lemma moving_moved : ∃ spc' spp', moved spc spp vs ds vs' ds' gone spc' spp'.
Proof.
  destruct (pending_leave p spp Hp vs ds Hmv) as (spp'&Rp&Up&Vp&Dp&Tp).
  destruct (promoted_ids _ _ _ Hvs) as [Hiv Hsv]. destruct (promoted_ids _ _ _ Hds) as [Hid _].
  destruct (current_enter c spc Hc _ _ (ac_current _ _ _ _ _ _ _ Hac) vs' ds' gone) as (spc'&Rc&Uc&Vc&Dc&Tc).
  - rewrite Hiv. apply (moving_ids_of p spp Hp vs ds Hmv); [tauto|apply Hmv].
  - rewrite Hsv. by apply (moving_slots spp vs ds).
  - rewrite Hid. apply (moving_ids_of p spp Hp vs ds Hmv); [tauto|apply Hmv].
  - done.
  - intros y Hy. destruct (promoted_from _ _ _ _ Hvs Hy) as (x&Hx&(->&->&_)%promoted_same). split.
    + apply (ac_apart _ _ _ _ _ _ _ Hac). apply (moving_in spp vs ds Hmv). by left.
    + apply (ac_slots _ _ _ _ _ _ _ Hac). exists x. by apply (mo_validators _ _ _ Hmv).
  - intros y Hy. destruct (promoted_from _ _ _ _ Hds Hy) as (x&Hx&(->&_&_)%promoted_same).
    apply (ac_apart _ _ _ _ _ _ _ Hac). apply (moving_in spp vs ds Hmv). by right.
  - intros y z Hy Hz. destruct (promoted_from _ _ _ _ Hvs Hy) as (x&Hx&(->&_&_)%promoted_same).
    destruct (promoted_from _ _ _ _ Hds Hz) as (w&Hw&(->&_&_)%promoted_same). by apply (moving_ids_apart p spp Hp vs ds Hmv).
  - intros x Hx. by apply Hexp.
  - exists spc', spp'. by split.
Qed.

Lemma gone_nothing : sumZ (stake_of <$> gone) = 0.
Proof. apply sumZ_zero. intros x Hx. unfold stake_of. rewrite decide_False; [done|]. by apply Hexp. Qed.

(** A staker that is still pending has not moved. *)
Lemma still_pending spc' spp' x : moved spc spp vs ds vs' ds' gone spc' spp' → staker_in spp' x →
  staker_in spp x ∧ st_TxID x ∉ st_TxID <$> vs ∧ st_TxID x ∉ st_TxID <$> ds.
Proof.
  intros Hm Hx. assert (staker_in spp x ∧ (x ∉ vs) ∧ x ∉ ds) as (Hin&Hv&Hd).
  { destruct Hx as [Hx|Hx].
    - apply (md_left_validator _ _ _ _ _ _ _ _ _ Hm) in Hx as [Hx Hn]. split; [by left|]. split; [by intros ?%Hn|]. intros Hxd.
      by apply (represents_apart p spp Hp x (mo_delegators _ _ _ Hmv x Hxd)).
    - apply (md_left_delegator _ _ _ _ _ _ _ _ _ Hm) in Hx as [Hx Hn]. split; [by right|]. split; [|by intros ?%Hn]. intros Hxv.
      by apply (represents_apart p spp Hp x Hx), (mo_validators _ _ _ Hmv). }
  split; [done|]. split; intros (y&Hy&Hyl)%list_elem_of_fmap; [apply Hv|apply Hd];
    (assert (x = y) as ->; [|done]); apply (represents_unique p spp Hp); try done; apply (moving_in spp vs ds Hmv); auto.
Qed.

Lemma accounts_moved spc' spp' s' :
  moved spc spp vs ds vs' ds' gone spc' spp' →
  s' = s + (sumZ (stake_of <$> vs') + sumZ (stake_of <$> ds')) - (sumZ (stake_of <$> vs) + sumZ (stake_of <$> ds)) →
  s' ≤ rc_SupplyCap cfg → accounts cfg elsewhere txs spc' spp' o s'.
Proof.
  intros Hm Hs' Hcap. pose proof Hac as [Hrc Hrp Hap Hsl Hu Ho Hmoney].
  assert (∀ b l l' y, Forall2 (promoted b) l l' → (∀ x, x ∈ l → pending_ok cfg txs b x) → y ∈ l' → current_ok txs b y) as Hpr.
  { intros b l l' y Hl Hok Hy. destruct (promoted_from _ _ _ _ Hl Hy) as (x&Hx&Hxy). eapply promoted_ok; eauto. }
  split; [..|done|].
  - split.
    + intros k y. rewrite (md_validator _ _ _ _ _ _ _ _ _ Hm). intros [[[Hy Hk]|Hy] _]; [|by apply Hrc]. split; [done|].
      eapply Hpr; [exact Hvs| |done]. intros x Hx. by apply (ro_validator _ _ _ Hrp (slot x)), (mo_validators _ _ _ Hmv).
    + intros i y. rewrite (md_delegator _ _ _ _ _ _ _ _ _ Hm). intros [[Hy Hk]|Hy]; [|by apply Hrc]. split; [done|].
      eapply Hpr; [exact Hds| |done]. intros x Hx. by apply (ro_delegator _ _ _ Hrp (st_TxID x)), (mo_delegators _ _ _ Hmv).
  - eapply role_ok_subseteq; [exact Hrp|..]; apply map_subseteq_spec; intros k y.
    + by intros [? _]%(md_left_validator _ _ _ _ _ _ _ _ _ Hm).
    + by intros [? _]%(md_left_delegator _ _ _ _ _ _ _ _ _ Hm).
  - intros x Hx. destruct (still_pending spc' spp' x Hm Hx) as (Hin&Hv&Hd). rewrite (md_used _ _ _ _ _ _ _ _ _ Hm).
    destruct (promoted_ids _ _ _ Hvs) as [-> _]. destruct (promoted_ids _ _ _ Hds) as [-> _].
    intros [?|[?|?]]; [done..|]. by apply (Hap x).
  - intros k [x Hx]. apply (md_left_validator _ _ _ _ _ _ _ _ _ Hm) in Hx as [Hx Hn].
    destruct (sp_validators spc' !! k) as [y|] eqn:E; [|done]. apply (md_validator _ _ _ _ _ _ _ _ _ Hm) in E as [[[Hy Hk]|Hy] _].
    + destruct (promoted_from _ _ _ _ Hvs Hy) as (z&Hz&(_&Hs&_)%promoted_same). pose proof (mo_validators _ _ _ Hmv z Hz) as Hz'.
      rewrite <-Hs, Hk, Hx in Hz'. injection Hz' as <-. destruct (Hn Hz). congruence.
    + rewrite Hsl in Hy; [done|]. eauto.
  - intros i. rewrite elem_of_union, (md_used _ _ _ _ _ _ _ _ _ Hm), (md_left_used _ _ _ _ _ _ _ _ _ Hm).
    destruct (promoted_ids _ _ _ Hvs) as [-> _]. destruct (promoted_ids _ _ _ Hds) as [-> _].
    assert (∀ x, x ∈ vs ∨ x ∈ ds → is_Some (txs (st_TxID x))) as Hl.
    { intros x Hx. apply Hu, elem_of_union_r, (represents_used p spp Hp). by apply (moving_in spp vs ds Hmv). }
    intros [[(x&->&?)%list_elem_of_fmap|[(x&->&?)%list_elem_of_fmap|?]]|?]; [by apply Hl; auto..|apply Hu; set_solver|apply Hu; set_solver].
  - rewrite (md_total _ _ _ _ _ _ _ _ _ Hm), (md_left_total _ _ _ _ _ _ _ _ _ Hm), gone_nothing. lia.
Qed.
End accounts.

(** * Advancing the time of the platform chain (AdvanceTimeTx of
    src/vms/platformvm/txs/executor/proposal_tx_executor.go): the loops over the
    pending and the current stakers. *)

Section loops.
Context (e : Backend) (cfg : RewardConfig) (Hcfg : config_ok cfg) (Hcalc : be_Rewards e = NewCalculator cfg).
Context (txs : ID → option (Tx * Status)) (t : Z).

Definition delegates (x : Staker) : Prop := st_Priority x = PrimaryNetworkDelegatorPendingPriority.
#[local] Instance delegates_dec x : Decision (delegates x).
Proof. unfold delegates. apply _. Defined.

Lemma mint_ok b x s :
  pending_ok cfg txs b x → st_Weight x ≤ s ≤ rc_SupplyCap cfg →
  ∃ r, mint e x s = Some (Ok (r, s + r)) ∧ is_u64 r ∧ 0 ≤ r ≤ rc_SupplyCap cfg - s.
Proof.
  intros [_ _ _ Hw _ _ Hd] Hs. pose proof (co_cap _ Hcfg) as Hcap. unfold is_uint in Hcap.
  pose proof (exact_reward_bound cfg Hcfg _ (st_Weight x) s Hd ltac:(lia) ltac:(lia)) as Hb.
  unfold mint. rewrite Hcalc, (Calculate_exact cfg Hcfg) by lia. cbn [mbind option_bind].
  rewrite Add64_spec by (unfold is_uint; lia). rewrite decide_True by (unfold MaxUint64; lia).
  eexists. split; [reflexivity|]. unfold is_uint. lia.
Qed.

(** A staker that can be moved in the supply [s]. *)
Definition movable (s : Z) (x : Staker) : Prop := ∃ b, pending_ok cfg txs b x ∧ (primary x → st_Weight x ≤ s).

(** What the loop has gathered when it has gone through [pre]. *)
Record gathered (m m' : moves) (vs ds vs' ds' : list Staker) : Prop := mkGathered {
  ga_remove_v : mv_pendingValidatorsToRemove m' = mv_pendingValidatorsToRemove m ++ vs;
  ga_remove_d : mv_pendingDelegatorsToRemove m' = mv_pendingDelegatorsToRemove m ++ ds;
  ga_add_v : mv_currentValidatorsToAdd m' = mv_currentValidatorsToAdd m ++ vs';
  ga_add_d : mv_currentDelegatorsToAdd m' = mv_currentDelegatorsToAdd m ++ ds';
  ga_v : Forall2 (promoted false) vs vs';
  ga_d : Forall2 (promoted true) ds ds';
  ga_supply : mv_currentSupply m' = mv_currentSupply m +
    (sumZ (stake_of <$> vs') + sumZ (stake_of <$> ds')) - (sumZ (stake_of <$> vs) + sumZ (stake_of <$> ds));
  ga_cap : mv_currentSupply m ≤ mv_currentSupply m' ≤ rc_SupplyCap cfg;
}.

(** One staker whose time has come. *)
Lemma move_pending_step m x :
  movable (mv_currentSupply m) x → mv_currentSupply m ≤ rc_SupplyCap cfg → st_StartTime x ≤ t →
  ∃ m', move_pending e t m x = Some (inl m') ∧
    (delegates x ∧ (∃ y, gathered m m' [] [x] [] [y]) ∨ ¬ delegates x ∧ ∃ y, gathered m m' [x] [] [y] []).
Proof.
  intros (b&Hx&Hle) Hcap Ht. pose proof Hx as [_ Hprim Hprio Hw Hr _ _]. unfold move_pending, delegates. rewrite decide_False by lia.
  destruct (decide (primary x)) as [Hpx|Hpx].
  - destruct (mint_ok b x (mv_currentSupply m) Hx ltac:(split; [by apply Hle|done])) as (r&Hmint&Hr64&Hrb).
    assert (∀ y : Staker, st_Weight y = st_Weight x → st_PotentialReward y = r → primary y → stake_of y = stake_of x + r) as Hst.
    { intros y E1 E2 Hy. unfold stake_of. rewrite !decide_True by done. lia. }
    rewrite Hmint. unfold pending_priority in Hprio. destruct b.
    + rewrite Hprio. simpl. eexists. split; [reflexivity|]. left. split; [done|]. eexists. split; simpl; rewrite ?app_nil_r; try done.
      * constructor; [|constructor]. exists r. split; [done|]. split; [by left|]. reflexivity.
      * rewrite !sumZ_cons, !sumZ_nil, (Hst (with_reward r _)) by done. lia.
      * lia.
    + rewrite Hprio, decide_True by done. simpl. eexists. split; [reflexivity|]. right. split; [by unfold PrimaryNetworkDelegatorPendingPriority, PrimaryNetworkValidatorPendingPriority|].
      eexists. split; simpl; rewrite ?app_nil_r; try done.
      * constructor; [|constructor]. exists r. split; [done|]. split; [by left|]. unfold current_priority. rewrite decide_True by done. reflexivity.
      * rewrite !sumZ_cons, !sumZ_nil, (Hst (with_reward r _)) by done. lia.
      * lia.
  - destruct b; [by destruct Hpx; apply Hprim|]. unfold pending_priority in Hprio. rewrite decide_False in Hprio by done. rewrite Hprio. simpl.
    eexists. split; [reflexivity|]. right. split; [done|]. eexists. split; simpl; rewrite ?app_nil_r; try done.
    + constructor; [|constructor]. exists 0. split; [by unfold is_uint; lia|]. split; [by right|]. unfold current_priority. rewrite decide_False by done. by rewrite Hr.
    + unfold stake_of. simpl. unfold primary in *. simpl. rewrite !decide_False by done. lia.
Qed.

Lemma gathered_trans m1 m2 m3 vs1 ds1 vs1' ds1' vs2 ds2 vs2' ds2' :
  gathered m1 m2 vs1 ds1 vs1' ds1' → gathered m2 m3 vs2 ds2 vs2' ds2' →
  gathered m1 m3 (vs1 ++ vs2) (ds1 ++ ds2) (vs1' ++ vs2') (ds1' ++ ds2').
Proof.
  intros [A1 A2 A3 A4 A5 A6 A7 A8] [B1 B2 B3 B4 B5 B6 B7 B8]. split.
  - by rewrite B1, A1, app_assoc.
  - by rewrite B2, A2, app_assoc.
  - by rewrite B3, A3, app_assoc.
  - by rewrite B4, A4, app_assoc.
  - by apply Forall2_app.
  - by apply Forall2_app.
  - rewrite !fmap_app, !sumZ_app. lia.
  - lia.
Qed.

Lemma gathered_nil m : mv_currentSupply m ≤ rc_SupplyCap cfg → gathered m m [] [] [] [].
Proof. intros ?. split; rewrite ?app_nil_r, ?fmap_nil, ?sumZ_nil; try done; lia. Qed.

(** The whole loop takes the stakers whose time has come. *)
Lemma move_pending_run l m :
  (∀ x, x ∈ l → movable (mv_currentSupply m) x) → mv_currentSupply m ≤ rc_SupplyCap cfg →
  ∃ pre post m' vs' ds', l = pre ++ post ∧ Forall (λ x, st_StartTime x ≤ t) pre ∧ (∀ x, head post = Some x → t < st_StartTime x) ∧
    (slice_loop (move_pending e t) l m = Some (inl m') ∨ slice_loop (move_pending e t) l m = Some (inr (Ok m'))) ∧
    gathered m m' (filter (λ x, ¬ delegates x) pre) (filter delegates pre) vs' ds'.
Proof.
  revert m. induction l as [|x l IH]; intros m Hl Hcap.
  { exists [], [], m, [], []. split_and!; [done|constructor|done|by left|by apply gathered_nil]. }
  destruct (decide (st_StartTime x ≤ t)) as [Hx|Hx].
  - destruct (move_pending_step m x (Hl x ltac:(by left)) Hcap Hx) as (m1&Hm1&Hg).
    assert (mv_currentSupply m ≤ mv_currentSupply m1 ≤ rc_SupplyCap cfg) as Hm1s by (destruct Hg as [[_ [y Hg]]|[_ [y Hg]]]; by destruct Hg).
    destruct (IH m1) as (pre&post&m'&vs'&ds'&->&Hpre&Hpost&Hrun&Hg'); [|lia|].
    { intros y Hy. destruct (Hl y ltac:(by right)) as (b&Hb&Hle). exists b. split; [done|]. intros Hp. specialize (Hle Hp). lia. }
    destruct Hg as [[Hd [y Hg]]|[Hd [y Hg]]].
    + exists (x :: pre), post, m', vs', (y :: ds'). split_and!; [done|by constructor|done|by simpl; rewrite Hm1|].
      rewrite filter_cons_False, filter_cons_True by tauto. apply (gathered_trans _ _ _ _ _ _ _ _ _ _ _ Hg Hg').
    + exists (x :: pre), post, m', (y :: vs'), ds'. split_and!; [done|by constructor|done|by simpl; rewrite Hm1|].
      rewrite filter_cons_True, filter_cons_False by tauto. apply (gathered_trans _ _ _ _ _ _ _ _ _ _ _ Hg Hg').
  - exists [], (x :: l), m, [], []. split_and!; [done|constructor|intros y [= <-]; lia| |by apply gathered_nil].
    right. cbn [slice_loop]. assert (move_pending e t m x = Some (inr (Ok m))) as ->; [|done]. unfold move_pending. by rewrite decide_True by lia.
Qed.

(** The loop over the current stakers. *)
Definition serves_primary (x : Staker) : Prop :=
  st_Priority x = PrimaryNetworkDelegatorCurrentPriority ∨ st_Priority x = PrimaryNetworkValidatorCurrentPriority.
#[local] Instance serves_primary_dec x : Decision (serves_primary x).
Proof. unfold serves_primary. apply _. Defined.

Lemma move_current_run l acc :
  ∃ pre post r, l = pre ++ post ∧ Forall (λ x, st_EndTime x ≤ t ∧ ¬ serves_primary x) pre ∧
    (∀ x, head post = Some x → t < st_EndTime x ∨ serves_primary x) ∧
    slice_loop (move_current t) l acc = Some r ∧ (match r with inl g | inr g => g end) = acc ++ pre.
Proof.
  revert acc. induction l as [|x l IH]; intros acc.
  { exists [], [], (inl acc). split_and!; [done|constructor|done|done|by rewrite app_nil_r]. }
  destruct (decide (t < st_EndTime x ∨ serves_primary x)) as [Hx|Hx].
  { exists [], (x :: l), (inr acc). split; [done|]. split; [constructor|]. split; [by intros y [= <-]|]. split; [|by rewrite app_nil_r].
    cbn [slice_loop]. assert (move_current t acc x = Some (inr acc)) as ->; [|done]. unfold move_current.
    case_decide; [done|]. by rewrite decide_True by tauto. }
  destruct (IH (acc ++ [x])) as (pre&post&r&->&Hpre&Hpost&Hrun&Hr). exists (x :: pre), post, r. split; [done|].
  split; [constructor; [split; [lia|tauto]|done]|]. split; [done|]. split; [|by rewrite Hr, <-app_assoc].
  cbn [slice_loop]. assert (move_current t acc x = Some (inl (acc ++ [x]))) as ->; [|done]. unfold move_current, serves_primary in *. by rewrite !decide_False by tauto.
Qed.
End loops.

(** ** What the loops gather from the sets *)

Lemma sorted_rest l pre h post y : StronglySorted staker_lt l → l = pre ++ h :: post → y ∈ h :: post → y = h ∨ staker_lt h y.
Proof.
  intros Hs -> [Heq|Hy]%elem_of_cons; [by left|]. right. apply StronglySorted_app_1_r, StronglySorted_inv in Hs as [_ Hs].
  rewrite Forall_forall in Hs. by apply Hs.
Qed.

Lemma staker_lt_next x y : staker_lt x y → st_NextTime x ≤ st_NextTime y ∧ (st_NextTime x = st_NextTime y → st_Priority x ≤ st_Priority y).
Proof. intros Hlt%staker_lt_iff. lia. Qed.

Section gather.
Context (e : Backend) (cfg : RewardConfig) (Hcfg : config_ok cfg) (Hcalc : be_Rewards e = NewCalculator cfg).
Context (elsewhere : Z) (Hel : 0 ≤ elsewhere) (t : Z).
Context {C P : Type} `{!StakerSet C, !StakerSetLaws C, !StakerSet P, !StakerSetLaws P} (c : C) (p : P).
Context (txs : ID → option (Tx * Status)) (spc spp : stakers_spec) (o s : Z).
Context (Hc : represents c spc) (Hp : represents p spp) (Hac : accounts cfg elsewhere txs spc spp o s).

Lemma pending_kind x : staker_in spp x → ∃ b, pending_ok cfg txs b x ∧
  (b = true ↔ delegates x) ∧ if b : bool then sp_delegators spp !! st_TxID x = Some x else sp_validators spp !! slot x = Some x.
Proof.
  pose proof (ac_pending _ _ _ _ _ _ _ Hac) as Hr. unfold delegates. intros [Hx|Hx].
  - destruct (ro_validator _ _ _ Hr _ _ Hx) as [_ Hok]. exists false. split; [done|]. split; [|done].
    rewrite (pk_priority _ _ _ _ Hok). unfold pending_priority. by case_decide.
  - destruct (ro_delegator _ _ _ Hr _ _ Hx) as [_ Hok]. exists true. split; [done|]. split; [|done]. by rewrite (pk_priority _ _ _ _ Hok).
Qed.

Lemma current_kind x : staker_in spc x → ∃ b, current_ok txs b x ∧
  (serves_primary x ↔ primary x) ∧ if b : bool then sp_delegators spc !! st_TxID x = Some x else sp_validators spc !! slot x = Some x.
Proof.
  pose proof (ac_current _ _ _ _ _ _ _ Hac) as Hr. unfold serves_primary. intros [Hx|Hx].
  - destruct (ro_validator _ _ _ Hr _ _ Hx) as [_ Hok]. exists false. split; [done|]. split; [|done].
    rewrite (ck_priority _ _ _ Hok). unfold current_priority. case_decide; naive_solver.
  - destruct (ro_delegator _ _ _ Hr _ _ Hx) as [_ Hok]. exists true. split; [done|]. split; [|done].
    rewrite (ck_priority _ _ _ Hok). pose proof (ck_primary _ _ _ Hok eq_refl). naive_solver.
Qed.

(** The pending stakers whose time has come are moved, all of them. *)
Lemma pending_gathered :
  ∃ it m r vs' ds', GetStakerIterator p = Some (Ok it) ∧
    it_loop (move_pending e t) it (mkMoves s [] [] [] []) = Some r ∧ (match r with inl m => Ok m | inr r => r end) = Ok m ∧
    gathered cfg (mkMoves s [] [] [] []) m (mv_pendingValidatorsToRemove m) (mv_pendingDelegatorsToRemove m) vs' ds' ∧
    moving spp (mv_pendingValidatorsToRemove m) (mv_pendingDelegatorsToRemove m) ∧
    ∀ x, x ∈ mv_pendingValidatorsToRemove m ∨ x ∈ mv_pendingDelegatorsToRemove m ↔ staker_in spp x ∧ st_StartTime x ≤ t.
Proof.
  destruct (rd_stakers _ _ (represents_reads _ _ Hp)) as (it&l&Hit&Hy&Hsort&Hl).
  assert (∀ x, x ∈ l ↔ staker_in spp x) as Hin by (intros x; rewrite Hl; unfold staker_in; tauto).
  destruct (move_pending_run e cfg Hcfg Hcalc txs t l (mkMoves s [] [] [] [])) as (pre&post&m&vs'&ds'&Hpp&Hpre&Hpost&Hrun&Hg).
  { intros x Hx%Hin. destruct (pending_kind x Hx) as (b&Hok&_). exists b. split; [done|]. intros Hpx. simpl.
    pose proof (pending_le_supply _ _ _ _ _ _ _ x Hel Hac Hx) as Hle. unfold stake_of in Hle. rewrite decide_True in Hle by done.
    rewrite (pk_reward _ _ _ _ Hok) in Hle. lia. }
  { simpl. apply Hac. }
  pose proof Hg as [G1 G2 _ _ _ _ _ _]. simpl in G1, G2.
  assert (∃ r, slice_loop (move_pending e t) l (mkMoves s [] [] [] []) = Some r ∧ (match r with inl m => Ok m | inr r => r end) = Ok m) as (r&Hr&Hrm)
    by (destruct Hrun; eauto).
  exists it, m, r, vs', ds'. rewrite G1, G2.
  assert (∀ x, x ∈ pre ↔ staker_in spp x ∧ st_StartTime x ≤ t) as Hall.
  { intros x. rewrite <-Hin, Hpp, elem_of_app. rewrite Forall_forall in Hpre. split; [intros Hx; split; [by left|by apply Hpre]|].
    intros [[Hx|Hx] Ht]; [done|]. destruct post as [|h post]; [by apply not_elem_of_nil in Hx|]. specialize (Hpost h eq_refl).
    destruct (sorted_rest l pre h post x Hsort Hpp Hx) as [->|[Hlt _]%staker_lt_next]; [lia|].
    destruct (pending_kind h) as (b&Hh&_); [apply Hin; rewrite Hpp; set_solver|].
    destruct (pending_kind x) as (b'&Hx'&_); [apply Hin; rewrite Hpp; set_solver|].
    rewrite (pk_next _ _ _ _ Hh), (pk_next _ _ _ _ Hx') in Hlt. lia. }
  split; [done|]. split; [by rewrite (it_loop_yields _ _ _ _ Hy)|].
  assert (NoDup pre) as Hnd by (apply sorted_lt_NoDup, (StronglySorted_app_1_l _ pre post); by rewrite <-Hpp).
  split; [done|]. split; [done|]. split.
  - split; [| |by apply NoDup_filter..].
    + intros x [Hd Hx]%list_elem_of_filter. apply Hall in Hx as [Hx _]. destruct (pending_kind x Hx) as ([]&_&Hb&Hk); [by destruct Hd; apply Hb|done].
    + intros x [Hd Hx]%list_elem_of_filter. apply Hall in Hx as [Hx _]. destruct (pending_kind x Hx) as ([]&_&Hb&Hk); [done|by apply Hb in Hd].
  - intros x. rewrite !list_elem_of_filter, <-Hall. destruct (decide (delegates x)); tauto.
Qed.

(** The validators of subnets whose time is over leave; all of them, when no staker
    moves before [t]. *)
Lemma current_gathered :
  ∃ it r gone, GetStakerIterator c = Some (Ok it) ∧ it_loop (move_current t) it [] = Some r ∧ (match r with inl l | inr l => l end) = gone ∧
    NoDup gone ∧ (∀ x, x ∈ gone → sp_validators spc !! slot x = Some x ∧ ¬ primary x) ∧
    (∀ x, x ∈ gone → st_EndTime x ≤ t) ∧
    ((∀ x, staker_in spc x → t ≤ st_NextTime x) → ∀ x, staker_in spc x → st_EndTime x ≤ t → ¬ primary x → x ∈ gone).
Proof.
  destruct (rd_stakers _ _ (represents_reads _ _ Hc)) as (it&l&Hit&Hy&Hsort&Hl).
  assert (∀ x, x ∈ l ↔ staker_in spc x) as Hin by (intros x; rewrite Hl; unfold staker_in; tauto).
  destruct (move_current_run t l []) as (pre&post&r&Hpp&Hpre&Hpost&Hrun&Hr). rewrite Forall_forall in Hpre.
  exists it, r, pre. split; [done|]. split; [by rewrite (it_loop_yields _ _ _ _ Hy)|]. split; [done|].
  split; [apply sorted_lt_NoDup, (StronglySorted_app_1_l _ pre post); by rewrite <-Hpp|]. split; [|split].
  - intros x Hx. destruct (Hpre x Hx) as [_ Hs]. destruct (current_kind x) as (b&Hok&Hiff&Hb); [apply Hin; rewrite Hpp; set_solver|].
    rewrite Hiff in Hs. split; [|done]. destruct b; [|done]. by destruct Hs; apply (ck_primary _ _ _ Hok).
  - intros x Hx. by apply Hpre.
  - intros Hnext x Hx He Hnp. pose proof (proj2 (Hin x) Hx) as Hxl. rewrite Hpp, elem_of_app in Hxl. destruct Hxl as [?|Hxp]; [done|].
    destruct post as [|h post]; [by apply not_elem_of_nil in Hxp|]. assert (staker_in spc h) as Hh by (apply Hin; rewrite Hpp; set_solver).
    destruct (current_kind x Hx) as (b&Hokx&Hix&_). destruct (current_kind h Hh) as (b'&Hokh&Hih&_).
    pose proof (Hnext h Hh) as Hnh. rewrite (ck_next _ _ _ Hokh) in Hnh.
    assert (st_Priority x = SubnetValidatorCurrentPriority) as Hpx.
    { rewrite (ck_priority _ _ _ Hokx). unfold current_priority. destruct b; [by destruct Hnp; apply (ck_primary _ _ _ Hokx)|]. by rewrite decide_False. }
    destruct (sorted_rest l pre h post x Hsort Hpp Hxp) as [->|[Hlt Hpr]%staker_lt_next].
    { destruct (Hpost h eq_refl) as [?|?]; [lia|]. by destruct Hnp; apply Hix. }
    rewrite (ck_next _ _ _ Hokh), (ck_next _ _ _ Hokx) in Hlt, Hpr. specialize (Hpr ltac:(lia)).
    destruct (Hpost h eq_refl) as [?|[Hs|Hs]]; [lia|..]; rewrite Hs, Hpx in Hpr;
      unfold PrimaryNetworkDelegatorCurrentPriority, PrimaryNetworkValidatorCurrentPriority, SubnetValidatorCurrentPriority in Hpr; lia.
Qed.
End gather.
