(* ===== verification/ChainRuns.v ===== *)
(** The operations on a chain's difference as runs on its parts: sequences of
    operations on the current and the pending stakers, changes of the unspent outputs
    and of the ledger. *)

From Stdlib Require Import SpecFloat Strings.Byte.
From S2P Require Import Prelude SafeMath Ids Packer NodeBag Database CodecTypes Codec GoStd Secp256k1fx Utxo PlatformUtxo PlatformUtxoSpec PlatformUtxoSafety.
From S2P Require Import GoHeap Stakers StakerIters StakerSets StakerDiff StakerApply StakerRefine Reward PlatformTxs PlatformState PlatformBooks ProposalExecutor.

Lemma represents_run {T} `{StakerSetLaws T} `{BTree, !BTreeLaws} (p : T) sp ops sp' :
  represents p sp → spec_run ops sp = Some sp' → represents (mkStakersDiff (diff_run ops) (Some p)) sp'.
Proof. intros Hr Hops. apply sim_represents. by eapply sim_run; [apply sim_zero|]. Qed.

Section runs.
Context `{Crypto} `{BTree} {C P U X : Type}.
Implicit Types d : chain_diff C P U X.

(** The difference over a parent that nothing has happened to. *)
Definition new_diff (ps : chain C P U X) : chain_diff C P U X :=
  mkChain (ch_timestamp ps) (ch_currentSupply ps) (mkStakersDiff diffStakers_zero (Some (ch_current ps)))
    (mkStakersDiff diffStakers_zero (Some (ch_pending ps))) (PlatformUtxo.mkDiff ∅ (Some (ch_utxos ps))) (ledger_NewDiff (ch_ledger ps)).

Lemma NewDiff_new ps : NewDiff (Some ps) = Ok (new_diff ps).
Proof. done. Qed.

Definition sd_run {T} (ops : list staker_op) (D : stakers_diff T) : stakers_diff T := mkStakersDiff (foldl diff_op (sd_diffs D) ops) (sd_parent D).

Lemma sd_run_app {T} ops ops' (D : stakers_diff T) : sd_run ops' (sd_run ops D) = sd_run (ops ++ ops') D.
Proof. unfold sd_run. simpl. by rewrite foldl_app. Qed.

Lemma fold_current (op : Staker → staker_op) l d :
  foldl (λ d s, on_current (sd_run [op s]) d) d l = on_current (sd_run (op <$> l)) d.
Proof.
  revert d. induction l as [|x l IH]; intros d; simpl; [by destruct d as [? ? [? ?] ? ? ?]|]. rewrite IH. unfold on_current. simpl. done.
Qed.

Lemma fold_pending (op : Staker → staker_op) l d :
  foldl (λ d s, on_pending (sd_run [op s]) d) d l = on_pending (sd_run (op <$> l)) d.
Proof.
  revert d. induction l as [|x l IH]; intros d; simpl; [by destruct d as [? ? ? [? ?] ? ?]|]. rewrite IH. unfold on_pending. simpl. done.
Qed.

Lemma apply_moves_runs t m gone d :
  apply_moves t m gone d =
  on_current (sd_run ((PutValidatorOp <$> mv_currentValidatorsToAdd m) ++ (PutDelegatorOp <$> mv_currentDelegatorsToAdd m) ++ (DeleteValidatorOp <$> gone)))
    (on_pending (sd_run ((DeleteValidatorOp <$> mv_pendingValidatorsToRemove m) ++ (DeleteDelegatorOp <$> mv_pendingDelegatorsToRemove m)))
      (SetCurrentSupply (mv_currentSupply m) (SetTimestamp t d))).
Proof.
  unfold apply_moves.
  assert (∀ l d, foldl (λ d s, PutCurrentValidator s d) d l = on_current (sd_run (PutValidatorOp <$> l)) d) as E1 by exact (fold_current PutValidatorOp).
  assert (∀ l d, foldl (λ d s, DeletePendingValidator s d) d l = on_pending (sd_run (DeleteValidatorOp <$> l)) d) as E2 by exact (fold_pending DeleteValidatorOp).
  assert (∀ l d, foldl (λ d s, PutCurrentDelegator s d) d l = on_current (sd_run (PutDelegatorOp <$> l)) d) as E3 by exact (fold_current PutDelegatorOp).
  assert (∀ l d, foldl (λ d s, DeletePendingDelegator s d) d l = on_pending (sd_run (DeleteDelegatorOp <$> l)) d) as E4 by exact (fold_pending DeleteDelegatorOp).
  assert (∀ l d, foldl (λ d s, DeleteCurrentValidator s d) d l = on_current (sd_run (DeleteValidatorOp <$> l)) d) as E5 by exact (fold_current DeleteValidatorOp).
  rewrite E1, E2, E3, E4, E5. unfold on_current, on_pending. simpl. by rewrite !sd_run_app.
Qed.
End runs.

(** ** The parts of a difference *)

Section parts.
Context `{Crypto} `{BTree, !BTreeLaws} {C P U X : Type}.
Context `{!StakerSet C, !StakerSetLaws C, !StakerSet P, !StakerSetLaws P, !UTXOSet U, !UTXOSetLaws U, !Ledger X, !LedgerLaws X}.
Implicit Types (ps : chain C P U X) (u : U).

(** The outputs of a difference nothing has happened to are those of the parent. *)
Lemma new_diff_view u : utxo_view (PlatformUtxo.mkDiff ∅ (Some u)) = utxo_view u.
Proof. simpl. unfold diff_view. apply map_eq. intros i. rewrite lookup_diff_overlay. simpl. by rewrite lookup_empty. Qed.

Lemma new_diff_supply u a : supply (PlatformUtxo.mkDiff ∅ (Some u)) a = supply u a.
Proof. unfold supply. by rewrite new_diff_view. Qed.

Lemma new_diff_ok u : utxos_ok u → utxos_ok (PlatformUtxo.mkDiff ∅ (Some u)).
Proof. unfold utxos_ok. by rewrite new_diff_view. Qed.

Lemma new_diff_Consume u ins a : supply (Consume (PlatformUtxo.mkDiff ∅ (Some u)) ins) a = supply (Consume u ins) a.
Proof. unfold supply. by rewrite !Consume_view, new_diff_view. Qed.

(** Recording a transaction. *)
Definition records (tx : Tx) (txs : ID → option (Tx * Status)) : Prop :=
  ∀ t st, txs (tx_id tx) = Some (t, st) → tx_Unsigned t = tx_Unsigned tx.

Lemma record_tx_in (D : ledger_diff X) txs tx st :
  ledger_ok D → (∀ i, txs_of D i = txs i) → records tx txs →
  ledger_ok (AddTx tx st D) ∧ txs_extend txs (txs_of (AddTx tx st D)) ∧ txs_of (AddTx tx st D) (tx_id tx) = Some (tx, st).
Proof.
  intros HD Hsame Hrec. destruct (ld_AddTx_spec tx st D HD) as [Hok Ht]. split; [exact Hok|].
  assert (∀ i, txs_of (AddTx tx st D) i = if decide (tx_id tx = i) then Some (tx, st) else txs i) as Ht'.
  { intros i. change (txs_of (AddTx tx st D) i) with (ld_txs (ld_AddTx tx st D) i). rewrite Ht. case_decide; [done|apply Hsame]. }
  split; [|by rewrite Ht', decide_True]. intros i t st' Hi. rewrite Ht'. case_decide as Hid; [|by eauto].
  subst i. eexists _, _. split; [reflexivity|]. symmetry. by eapply Hrec.
Qed.

Lemma new_ledger (x : X) : ledger_ok x → ledger_ok (ledger_NewDiff x) ∧ ∀ i, txs_of (ledger_NewDiff x) i = txs_of x i.
Proof. intros Hx. split; [by apply ld_ok_new|]. intros i. simpl. unfold ld_txs. simpl. by rewrite lookup_empty. Qed.

Lemma record_tx (x : X) tx st :
  ledger_ok x → records tx (txs_of x) →
  let x' := AddTx tx st (ledger_NewDiff x) in
  ledger_ok x' ∧ txs_extend (txs_of x) (txs_of x') ∧ txs_of x' (tx_id tx) = Some (tx, st).
Proof. intros Hx Hrec. destruct (new_ledger x Hx) as [Hok Hsame]. by apply record_tx_in. Qed.
End parts.

(** ** What a difference grows by *)

(** Outputs are added and deleted. *)
Section moves.
Context `{Crypto} {U : Type} `{!UTXOSet U}.

Inductive utxo_step (u : U) : U → Prop :=
  | step_add x : utxo_step u (AddUTXO x u)
  | step_delete i : utxo_step u (DeleteUTXO i u).

Lemma Consume_moves ins u : rtc utxo_step u (Consume u ins).
Proof.
  unfold Consume. revert u. induction ins as [|i ins IH]; intros u; simpl; [done|]. eapply rtc_l; [|apply IH]. constructor.
Qed.

Lemma Produce_moves txID outs u : rtc utxo_step u (Produce u txID outs).
Proof.
  unfold Produce. generalize 0%nat. revert u. induction outs as [|o outs IH]; intros u n; cbn [produce_from]; [done|].
  eapply rtc_l; [|apply IH]. constructor.
Qed.

Lemma transfer_moves ins txID outs u : rtc utxo_step u (Produce (Consume u ins) txID outs).
Proof. etrans; [apply Consume_moves|apply Produce_moves]. Qed.

(** The outputs of a difference over those of the parent. *)
Definition utxos_over (p : U) (d : PlatformUtxo.diff U) : Prop := parentState d = Some p ∧ PlatformUtxoSafety.diff_ok d.
End moves.

Lemma utxos_over_moves `{Crypto} {U} `{!UTXOSet U} (p : U) (d d' : PlatformUtxo.diff U) :
  rtc utxo_step d d' → utxos_over p d → utxos_over p d'.
Proof.
  induction 1 as [|d d1 d' Hs _ IH]; [done|]. intros [Hp Hd]. apply IH. destruct Hs as [x|i].
  - split; [done|]. exact (diff_AddUTXO_ok x d Hd).
  - split; [done|]. exact (diff_DeleteUTXO_ok i d Hd).
Qed.

(** The ledger of a difference that nothing has been read from: no cache is filled,
    and what was added is under its own key. *)
Record ledger_flat {X} (l : ledger_diff X) : Prop := mkLedgerFlat {
  lf_subnets : ld_cachedSubnets l = None;
  lf_chains : ld_cachedChains l = ∅;
  lf_txs i t st : ld_addedTxs l !! i = Some (t, st) → tx_id t = i;
  lf_added i c t : ld_addedChains l !! i = Some c → t ∈ c → chain_subnet t = Some i;
}.

Definition ledger_over {X} (p : X) (l : ledger_diff X) : Prop := ld_parent l = Some p ∧ ledger_flat l.

Section ledger_over.
Context {X : Type} `{!Ledger X} (p : X).
Implicit Types l : ledger_diff X.

Lemma ledger_over_new : ledger_over p (ledger_NewDiff p).
Proof. split; [done|]. by split. Qed.

Lemma ledger_over_AddTx tx st l : ledger_over p l → ledger_over p (AddTx tx st l).
Proof.
  intros [Hp [Hs Hc Ht Ha]]. split; [done|]. split; [done|done| |done].
  intros i t st'. cbn. intros [[<- [= <- <-]]|[_ Hi]]%lookup_insert_Some; [done|by eapply Ht].
Qed.

Lemma ledger_over_AddSubnet tx l : ledger_over p l → ledger_over p (AddSubnet tx l).
Proof. intros [Hp [Hs Hc Ht Ha]]. split; [done|]. split; [|done..]. cbn. by rewrite Hs. Qed.

Lemma ledger_over_AddChain tx l l' : AddChain tx l = Some l' → ledger_over p l → ledger_over p l'.
Proof.
  intros Hl [Hp [Hs Hc Ht Ha]]. cbn in Hl. unfold ld_AddChain in Hl. destruct (chain_subnet tx) as [j|] eqn:Ej; [|done]. injection Hl as <-.
  split; [done|]. split; [done| |done|]; cbn; [by rewrite Hc, lookup_empty|].
  intros i c t. intros [[<- <-]|[_ Hi]]%lookup_insert_Some Hin; [|by eapply Ha].
  apply elem_of_app in Hin as [Hin| ->%list_elem_of_singleton]; [|done].
  destruct (ld_addedChains l !! j) as [c|] eqn:Ec; [by eapply Ha|by apply elem_of_nil in Hin].
Qed.

Lemma ledger_over_AddRewardUTXO i u l : ledger_over p l → ledger_over p (AddRewardUTXO i u l).
Proof. intros [Hp [Hs Hc Ht Ha]]. split; [done|]. by split. Qed.
End ledger_over.

(** The stakers of a difference, by the operations that led to them; none fills a
    place of the parent that is taken. *)
Definition stakers_over `{BTree} {T} (p : T) (sp : stakers_spec) (d : stakers_diff T) (sp' : stakers_spec) : Prop :=
  ∃ ops, d = mkStakersDiff (diff_run ops) (Some p) ∧ spec_run ops sp = Some sp' ∧ Forall (fills_free sp) ops.

Lemma stakers_over_zero `{BTree} {T} (p : T) sp : stakers_over p sp (mkStakersDiff diffStakers_zero (Some p)) sp.
Proof. by exists []. Qed.

(** The difference [d] has grown over [ps]. *)
Record grown `{Crypto} `{BTree} {C P U X} `{!UTXOSet U, !Ledger X} (ps : chain C P U X) (spc spp : stakers_spec) (d : chain_diff C P U X) (spc' spp' : stakers_spec) : Prop := mkGrown {
  gw_current : stakers_over (ch_current ps) spc (ch_current d) spc';
  gw_pending : stakers_over (ch_pending ps) spp (ch_pending d) spp';
  gw_utxos : utxos_over (ch_utxos ps) (ch_utxos d);
  gw_ledger : ledger_over (ch_ledger ps) (ch_ledger d);
}.

(** The books of a difference, and how it came to be. *)
Definition grown_books `{Crypto} `{BTree, !BTreeLaws} {C P U X}
    `{!StakerSet C, !StakerSetLaws C, !StakerSet P, !StakerSetLaws P, !UTXOSet U, !UTXOSetLaws U, !Ledger X, !LedgerLaws X}
    (cfg : RewardConfig) (ctx : SnowContext) (elsewhere : Z) (ps : chain C P U X) (spc spp : stakers_spec) (d : chain_diff C P U X) : Prop :=
  ∃ spc' spp', grown ps spc spp d spc' spp' ∧ books cfg ctx elsewhere d spc' spp'.

Section grown.
Context `{Crypto} `{BTree, !BTreeLaws} {C P U X : Type}.
Context `{!StakerSet C, !StakerSetLaws C, !StakerSet P, !StakerSetLaws P, !UTXOSet U, !UTXOSetLaws U, !Ledger X, !LedgerLaws X}.
Implicit Types (ps : chain C P U X) (d : chain_diff C P U X).

Lemma new_diff_grown ps spc spp : grown ps spc spp (new_diff ps) spc spp.
Proof. split; [apply stakers_over_zero..| |apply ledger_over_new]. split; [done|]. intros id u. simpl. by rewrite lookup_empty. Qed.

Lemma grown_ledger ps spc spp f : ledger_over (ch_ledger ps) (f (ledger_NewDiff (ch_ledger ps))) → grown ps spc spp (on_ledger f (new_diff ps)) spc spp.
Proof. intros Hl. pose proof (new_diff_grown ps spc spp) as [? ? ? _]. by split. Qed.

Lemma grown_balanced cfg ctx el ps spc spp d : grown_books cfg ctx el ps spc spp d → balanced cfg ctx el d.
Proof. intros (spc'&spp'&_&Hb). by exists spc', spp'. Qed.
End grown.

(** Puts before anything is deleted fill places that were free. *)
Lemma puts_fill_free ops sp sp' :
  spec_run ops sp = Some sp' → (∀ x, DeleteValidatorOp x ∉ ops) → Forall (fills_free sp) ops.
Proof.
  enough (∀ sp0, (∀ k, is_Some (sp_validators sp0 !! k) → is_Some (sp_validators sp !! k)) → spec_run ops sp = Some sp' →
    (∀ x, DeleteValidatorOp x ∉ ops) → Forall (fills_free sp0) ops) as Hen by (apply Hen; auto).
  revert sp. induction ops as [|op ops IH]; intros sp sp0 Hsub Hrun Hdel; [constructor|]. cbn [spec_run] in Hrun.
  apply bind_Some in Hrun as (sp1&Hop&Hrun).
  assert (∀ k, is_Some (sp_validators sp !! k) → is_Some (sp_validators sp1 !! k)) as Hmono.
  { destruct op as [x|x|x|x]; cbn [spec_step] in Hop; case_decide; try done; injection Hop as <-; cbn [sp_validators]; try done.
    - intros k Hk. rewrite lookup_insert. case_decide; [by eexists|done].
    - destruct (Hdel x). left. }
  constructor; [|eapply (IH sp1); [intros k Hk; by apply Hmono, Hsub|done|intros x Hx; apply (Hdel x); by right]].
  destruct op as [x|x|x|x]; try done. cbn [spec_step] in Hop. case_decide as Hd; [|done]. destruct Hd as [_ Hd].
  cbn [fills_free]. apply eq_None_not_Some. intros Hs%Hsub. rewrite Hd in Hs. by destruct Hs.
Qed.

Lemma deletes_fill_free sp ops : (∀ x, PutValidatorOp x ∉ ops) → Forall (fills_free sp) ops.
Proof. intros Hops. apply Forall_forall. intros [x|x|x|x] Hx; simpl; try done. by destruct (Hops x). Qed.

(** * A ledger kept in maps, and a small chain whose books are in order: one validator
    staked 10 and is promised 3, another has staked 10 and waits, and 5 are on other
    chains. *)

(** ** A ledger *)

Record map_ledger := mkMapLedger {
  ml_txs : gmap ID (Tx * Status);
  ml_rewards : gmap ID (list UTXO);
  ml_subnets : list Tx;
  ml_chains : gmap ID (list Tx);
}.

#[export] Instance map_Ledger : Ledger map_ledger := {|
  GetTx i x := match ml_txs x !! i with Some t => Ok t | None => Err ErrNotFound end;
  AddTx tx st x := mkMapLedger (<[tx_id tx := (tx, st)]> (ml_txs x)) (ml_rewards x) (ml_subnets x) (ml_chains x);
  GetRewardUTXOs i x := Ok (default [] (ml_rewards x !! i));
  AddRewardUTXO i u x := mkMapLedger (ml_txs x) (<[i := default [] (ml_rewards x !! i) ++ [u]]> (ml_rewards x)) (ml_subnets x) (ml_chains x);
  GetSubnets x := (Ok (ml_subnets x), x);
  AddSubnet tx x := mkMapLedger (ml_txs x) (ml_rewards x) (ml_subnets x ++ [tx]) (ml_chains x);
  GetChains i x := (Ok (default [] (ml_chains x !! i)), x);
  AddChain tx x := i ← chain_subnet tx; Some (mkMapLedger (ml_txs x) (ml_rewards x) (ml_subnets x) (<[i := default [] (ml_chains x !! i) ++ [tx]]> (ml_chains x)));
|}.

#[export] Instance map_LedgerLaws : LedgerLaws map_ledger.
Proof.
  refine {| ledger_ok _ := True; txs_of x i := ml_txs x !! i; rewards_of x i := default [] (ml_rewards x !! i); subnets_of := ml_subnets;
    chains_of x i := default [] (ml_chains x !! i) |}; [done|done|intros x _; by exists x|intros i x _; by exists x].
Defined.

(** ** The chain *)

Definition ex_ctx : SnowContext := mkSnowContext 1 (id1 x0b) PrimaryNetworkID ex_asset.
Definition ex_rewards : RewardConfig := mkRewardConfig 120000 100000 (100 * Second) 1000.

Lemma ex_rewards_ok : config_ok ex_rewards.
Proof. split; unfold is_uint, PercentDenominator; simpl; unfold Second; lia. Qed.

Definition ex_config : Config :=
  mkConfig 1 1 1 1 1 5 100 1 20000 (S754_zero false) 0 (100 * Second) 0 0 0.
Definition ex_backend (clk : Z) : Backend :=
  mkBackend ex_config ex_ctx clk (mkFx true) (λ _ _, Some (S754_zero false)) (NewCalculator ex_rewards) true.

Definition ex_owner : iface := ifOutputOwners (Some (mkOwners 0 1 [ex_key])).
Definition ex_stake : list TransferableOutput := [mkTOut ex_asset (ex_out 10)].
Definition ex_base : BaseTx := mkBaseTx 1 (id1 x0b) [] [] [] true [x09].
Definition ex_add (node : byte) (start end_ : Z) (id : ID) : Tx :=
  mkTx (uAddValidator (mkAddValidatorTx ex_base (mkValidator (node1 node) start end_ 10) ex_stake ex_owner 20000)) [] id.

Definition ex_active : Staker :=
  mkStaker (id1 x01) (node1 x01) PrimaryNetworkID 10 (5 * Second) (100 * Second) 3 (100 * Second) PrimaryNetworkValidatorCurrentPriority.
Definition ex_waiting : Staker :=
  mkStaker (id1 x02) (node1 x02) PrimaryNetworkID 10 (50 * Second) (90 * Second) 0 (50 * Second) PrimaryNetworkValidatorPendingPriority.
Definition ex_ledger : map_ledger :=
  mkMapLedger (<[id1 x01 := (ex_add x01 5 100 (id1 x01), status_Committed)]> {[id1 x02 := (ex_add x02 50 90 (id1 x02), status_Committed)]}) ∅ [] ∅.

Definition one_validator (x : Staker) : stakers_spec := mkStakersSpec {[slot x := x]} ∅ {[st_TxID x]}.

Lemma one_validator_total f x : spec_total f (one_validator x) = f x.
Proof.
  unfold spec_total, one_validator. cbn [sp_validators sp_delegators].
  assert (∀ K `{Countable K}, map_total (f <$> (∅ : gmap K Staker)) = 0) as He by (intros K ? ?; by rewrite fmap_empty).
  rewrite <-insert_empty, map_total_fmap_insert by apply lookup_empty. rewrite He, He. lia.
Qed.

Lemma one_validator_role x (V D : Staker → Prop) : V x → role_ok (one_validator x) V D.
Proof. intros Hx. split; simpl; [by intros k y [<- <-]%lookup_singleton_Some|]. intros i y Hy. by rewrite lookup_empty in Hy. Qed.

Lemma one_validator_in x y : staker_in (one_validator x) y ↔ y = x.
Proof.
  unfold staker_in. simpl. rewrite lookup_empty, lookup_singleton_Some. split; [by intros [[_ ->]|?]|]. intros ->. by left.
Qed.

Section example.
#[local] Existing Instances toy_crypto list_BTree list_BTreeLaws.

Definition ex_set_of (x : Staker) : stakers_diff baseStakers := mkStakersDiff (diff_run [PutValidatorOp x]) (Some newBaseStakers).

Lemma ex_set_of_represents x : represents (ex_set_of x) (one_validator x).
Proof.
  apply (represents_run newBaseStakers (mkStakersSpec ∅ ∅ ∅) [PutValidatorOp x]); [apply represents_new|]. cbn [spec_run spec_step sp_used sp_validators].
  rewrite decide_True by (split; [set_solver|apply lookup_empty]). cbn [mbind option_bind sp_delegators]. unfold one_validator.
  by rewrite (right_id_L ∅ (∪)).
Qed.

Definition ex_chain (now : Z) : chain (stakers_diff baseStakers) (stakers_diff baseStakers) (gmap ID UTXO) map_ledger :=
  mkChain now 28 (ex_set_of ex_active) (ex_set_of ex_waiting) ∅ ex_ledger.

Lemma ex_funds x : st_Weight x = 10 → funds ex_stake x.
Proof. intros Hx. split; [|by rewrite Hx]. apply Forall_singleton. intros y [= <-]. unfold is_uint. lia. Qed.

Lemma ex_accounts : accounts ex_rewards 5 (λ i, ml_txs ex_ledger !! i) (one_validator ex_active) (one_validator ex_waiting) 0 28.
Proof.
  assert (ml_txs ex_ledger !! id1 x01 = Some (ex_add x01 5 100 (id1 x01), status_Committed)) as H1 by reflexivity.
  assert (ml_txs ex_ledger !! id1 x02 = Some (ex_add x02 50 90 (id1 x02), status_Committed)) as H2 by reflexivity.
  split.
  - apply one_validator_role. split; [|done|reflexivity|simpl; lia|unfold is_uint; simpl; lia|done].
    eexists _, _. split; [exact H1|]. simpl. split; [done|]. split; [done|]. split; [by apply ex_funds|]. unfold PercentDenominator. lia.
  - apply one_validator_role. split; [|done|reflexivity|simpl; lia|done|done|unfold time_Sub; simpl; unfold Second; lia].
    eexists _, _. split; [exact H2|]. simpl. split; [done|]. split; [done|]. split; [by apply ex_funds|]. unfold PercentDenominator. lia.
  - intros x ->%one_validator_in. simpl. rewrite elem_of_singleton. done.
  - intros k [x Hx]. simpl in *. apply lookup_singleton_Some in Hx as [<- _]. by rewrite lookup_singleton_ne.
  - intros i. simpl. rewrite elem_of_union, !elem_of_singleton. intros [Hi|Hi]; subst i; eexists; [exact H1|exact H2].
  - done.
  - rewrite !one_validator_total. unfold stake_of. simpl. lia.
Qed.

Lemma ex_books now : books ex_rewards ex_ctx 5 (ex_chain now) (one_validator ex_active) (one_validator ex_waiting).
Proof.
  split; [apply ex_set_of_represents|apply ex_set_of_represents| |done|exact ex_accounts].
  intros id u Hu. change ((∅ : gmap ID UTXO) !! id = Some u) in Hu. by rewrite lookup_empty in Hu.
Qed.
End example.
