(* ===== verification/BooksTime.v ===== *)
(** Advancing the time moves exactly the stakers whose time has come, and keeps the
    books. *)

From Stdlib Require Import Strings.Byte.
From S2P Require Import Prelude SafeMath Ids NodeBag Packer Database CodecTypes Codec GoStd Secp256k1fx Utxo PlatformUtxo PlatformUtxoSpec PlatformUtxoSafety.
From S2P Require Import Reward PlatformTxs GoHeap Stakers StakerIters StakerSets StakerDiff StakerApply StakerRefine PlatformBooks DelegatorWeight DelegatorLimit.
From S2P Require Import PlatformState PlatformBooks AdvanceTime ProposalExecutor ChainRuns.

Section advance.
Context `{Crypto} `{BTree, !BTreeLaws} {C P U X : Type}.
Context `{!StakerSet C, !StakerSetLaws C, !StakerSet P, !StakerSetLaws P, !UTXOSet U, !UTXOSetLaws U, !Ledger X, !LedgerLaws X}.
Context (e : Backend) (cfg : RewardConfig) (Hcfg : config_ok cfg) (Hcalc : be_Rewards e = NewCalculator cfg).
Context (elsewhere : Z) (Hel : 0 ≤ elsewhere).
Context (ps : chain C P U X) (spc spp : stakers_spec) (Hbk : books cfg (be_Ctx e) elsewhere ps spc spp).

(** The time may be advanced to one that is not far ahead of the clock, after the
    time of the chain, and not after a staker moves. *)
Record can_advance (Tx : PlatformTxs.Tx) (t : Z) : Prop := mkCanAdvance {
  ca_creds : tx_Creds Tx = [];
  ca_clock : t ≤ be_Clk e + SyncBound;
  ca_after : ch_timestamp ps < t;
  ca_some : ∃ x, staker_in spc x ∨ staker_in spp x;
  ca_next x : staker_in spc x ∨ staker_in spp x → t ≤ st_NextTime x;
}.

(** What the proposal does when it is committed. *)
Record advances (t : Z) (m : moves) (gone : list Staker) (spc' spp' : stakers_spec) : Prop := mkAdvances {
  av_moved : moved spc spp (mv_pendingValidatorsToRemove m) (mv_pendingDelegatorsToRemove m)
    (mv_currentValidatorsToAdd m) (mv_currentDelegatorsToAdd m) gone spc' spp';
  av_gathered : gathered cfg (mkMoves (ch_currentSupply ps) [] [] [] []) m (mv_pendingValidatorsToRemove m) (mv_pendingDelegatorsToRemove m)
    (mv_currentValidatorsToAdd m) (mv_currentDelegatorsToAdd m);
  av_moving : moving spp (mv_pendingValidatorsToRemove m) (mv_pendingDelegatorsToRemove m);
  av_due x : x ∈ mv_pendingValidatorsToRemove m ∨ x ∈ mv_pendingDelegatorsToRemove m ↔ staker_in spp x ∧ st_StartTime x ≤ t;
  av_gone x : x ∈ gone → sp_validators spc !! slot x = Some x ∧ ¬ primary x;
  av_expired x : x ∈ gone ↔ staker_in spc x ∧ st_EndTime x ≤ t ∧ ¬ primary x;
  av_gone_NoDup : NoDup gone;
}.

Lemma exec_AdvanceTimeTx_cases Tx tx :
  can_advance Tx (at_Timestamp tx) ∧ (∃ m gone spc' spp', advances (at_Timestamp tx) m gone spc' spp' ∧
    exec_AdvanceTimeTx e (Some ps) Tx tx = Some (Ok (mkProposal (apply_moves (at_Timestamp tx) m gone (new_diff ps)) (new_diff ps) true))) ∨
  ¬ can_advance Tx (at_Timestamp tx) ∧ ∃ err, exec_AdvanceTimeTx e (Some ps) Tx tx = Some (Err err).
Proof.
  destruct Hbk as [Hc Hp Hu Hx Hac]. set (t := at_Timestamp tx).
  destruct (pending_gathered e cfg Hcfg Hcalc elsewhere Hel t (ch_current ps) (ch_pending ps) _ _ _ _ _ Hc Hp Hac) as (itp&m&rp&vs'&ds'&Hitp&Hlp&Hrp&Hg&Hmv&Hdue).
  destruct (current_gathered e cfg Hcfg Hcalc elsewhere Hel t (ch_current ps) (ch_pending ps) _ _ _ _ _ Hc Hp Hac) as (itc&rc&gone&Hitc&Hlc&Hrc&Hgnd&Hgone&Hgt&Hgall).
  unfold exec_AdvanceTimeTx. fold t. unfold check, GetState.
  destruct (bool_decide_reflect (length (tx_Creds Tx) ≠ 0%nat)) as [Hcr|Hcr]; cbn [pr_bind].
  { right. split; [|by eexists]. intros [Hcr' _ _ _ _]. by rewrite Hcr' in Hcr. }
  destruct (bool_decide_reflect (be_Clk e + SyncBound < t)) as [Hck|Hck]; cbn [pr_bind].
  { right. split; [|by eexists]. intros [_ ? _ _ _]. lia. }
  destruct (bool_decide_reflect (ch_timestamp ps < t)) as [Haf|Haf]; cbn [pr_bind negb].
  2:{ right. split; [|by eexists]. intros [_ _ ? _ _]. lia. }
  destruct (GetNextStakerChangeTime_spec (ch_current ps) (ch_pending ps) (re_ok _ _ Hc) (re_ok _ _ Hp)) as [(n&Hn&(x&Hxm&Hxn)&Hmin)|[Hn Hnone]]; rewrite Hn; cbn [lift2 fmap option_fmap option_map map_err pr_bind].
  2:{ right. split; [|by eexists]. intros [_ _ _ [x Hxs] _]. destruct (Hnone x). rewrite !(represents_member _ _ Hc), !(represents_member _ _ Hp) in *. tauto. }
  setoid_rewrite (represents_member _ _ Hc) in Hmin. setoid_rewrite (represents_member _ _ Hp) in Hmin.
  rewrite (represents_member _ _ Hc), (represents_member _ _ Hp) in Hxm.
  destruct (bool_decide_reflect (n < t)) as [Hnt|Hnt]; cbn [pr_bind].
  { right. split; [|by eexists]. intros [_ _ _ _ Hnext]. specialize (Hnext x Hxm). lia. }
  assert (can_advance Tx t) as Hcan.
  { split; [|lia|done|by exists x|]. - destruct (tx_Creds Tx); [done|]. simpl in Hcr. lia. - intros y Hy. specialize (Hmin y Hy). lia. }
  left. split; [done|]. rewrite Hitp. cbn [lift2 fmap option_fmap option_map map_err pr_bind]. rewrite Hlp. cbn [panic fmap option_fmap option_map pr_bind].
  rewrite Hrp. cbn [pr_bind]. rewrite Hitc. cbn [lift2 fmap option_fmap option_map map_err pr_bind]. rewrite Hlc. cbn [panic fmap option_fmap option_map pr_bind].
  rewrite Hrc. pose proof Hg as [_ _ G3 G4 Hvs Hds _ _]. simpl in G3, G4. subst vs' ds'.
  destruct (moving_moved cfg elsewhere (ch_current ps) (ch_pending ps) _ _ _ _ _ Hc Hp Hac _ _ _ _ gone Hmv Hvs Hds Hgnd Hgone) as (spc'&spp'&Hmd).
  exists m, gone, spc', spp'. split.
  - split; try done. intros y. split; [|intros (?&?&?); apply Hgall; [|done..]; intros z Hz; apply Hcan; by left].
    intros Hy. destruct (Hgone y Hy). split; [by left|]. split; [by apply Hgt|done].
  - unfold newDiff, lift. rewrite NewDiff_new. done.
Qed.

(** The books of both outcomes. *)
Lemma advance_commits t m gone spc' spp' :
  advances t m gone spc' spp' →
  let d := apply_moves t m gone (new_diff ps) in
  represents (ch_current d) spc' ∧ represents (ch_pending d) spp' ∧ ch_utxos d = PlatformUtxo.mkDiff ∅ (Some (ch_utxos ps)) ∧
  ch_ledger d = ledger_NewDiff (ch_ledger ps) ∧ ch_timestamp d = t ∧ ch_currentSupply d = mv_currentSupply m ∧
  accounts cfg elsewhere (txs_of (ch_ledger ps)) spc' spp' (supply (ch_utxos ps) (ctx_AVAXAssetID (be_Ctx e))) (mv_currentSupply m).
Proof.
  intros [Hmd Hg Hmv _ Hgone _ Hgnd] d. destruct Hbk as [Hc Hp Hu Hx Hac]. subst d. rewrite apply_moves_runs. cbn [on_current on_pending ch_current ch_pending].
  split; [by apply (represents_run _ spc); [|apply (md_current _ _ _ _ _ _ _ _ _ Hmd)]|].
  split; [by apply (represents_run _ spp); [|apply (md_pending _ _ _ _ _ _ _ _ _ Hmd)]|].
  split; [done|]. split; [done|]. split; [done|]. split; [done|]. destruct Hg as [_ _ _ _ Hvs Hds Hs Hcap].
  by eapply (accounts_moved cfg elsewhere (ch_current ps) (ch_pending ps) _ _ _ _ _ Hc Hp Hac _ _ _ _ gone Hmv Hvs Hds Hgnd Hgone _ _ _ Hmd Hs); apply Hcap.
Qed.

Lemma advance_grown Tx t m gone spc' spp' st :
  advances t m gone spc' spp' → grown ps spc spp (on_ledger (AddTx Tx st) (apply_moves t m gone (new_diff ps))) spc' spp'.
Proof.
  intros [Hmd _ _ _ _ _ _]. rewrite apply_moves_runs. split; [..|by apply ledger_over_AddTx, ledger_over_new].
  - eexists. split; [reflexivity|]. pose proof (md_current _ _ _ _ _ _ _ _ _ Hmd) as Hrun. split; [exact Hrun|].
    rewrite app_assoc in Hrun |- *. apply Forall_app. split; [|apply deletes_fill_free; set_solver].
    rewrite spec_run_app in Hrun. apply bind_Some in Hrun as (sp&Hrun&_). eapply puts_fill_free; [exact Hrun|set_solver].
  - eexists. split; [reflexivity|]. split; [apply (md_pending _ _ _ _ _ _ _ _ _ Hmd)|apply deletes_fill_free; set_solver].
  - apply new_diff_grown; done.
Qed.

Lemma advance_balanced Tx tx pr :
  records Tx (txs_of (ch_ledger ps)) → exec_AdvanceTimeTx e (Some ps) Tx tx = Some (Ok pr) →
  grown_books cfg (be_Ctx e) elsewhere ps spc spp (on_ledger (AddTx Tx status_Committed) (OnCommit pr)) ∧
  grown_books cfg (be_Ctx e) elsewhere ps spc spp (on_ledger (AddTx Tx status_Aborted) (OnAbort pr)).
Proof.
  intros Hrec Hex. destruct (exec_AdvanceTimeTx_cases Tx tx) as [[_ (m&gone&spc'&spp'&Hadv&Heq)]|[_ [err Herr]]]; [|congruence].
  rewrite Heq in Hex. injection Hex as <-. cbn [OnCommit OnAbort]. pose proof Hbk as [Hc Hp Hu Hx Hac].
  destruct (advance_commits _ m gone spc' spp' Hadv) as (Hc'&Hp'&Hu'&Hl'&_&Hs&Hac'). split.
  - destruct (record_tx (ch_ledger ps) Tx status_Committed Hx Hrec) as (Hok&Hext&_).
    exists spc', spp'. split; [by apply advance_grown|]. split; cbn [on_ledger ch_current ch_pending ch_utxos ch_ledger ch_currentSupply]; [done|done|rewrite Hu'; by apply new_diff_ok|by rewrite Hl'|].
    rewrite Hl', Hu', Hs, new_diff_supply. eapply accounts_extend; [exact Hext| |exact Hac']. split; [by apply supply_nonneg|done].
  - destruct (record_tx (ch_ledger ps) Tx status_Aborted Hx Hrec) as (Hok&Hext&_).
    exists spc, spp. split; [by apply grown_ledger, ledger_over_AddTx, ledger_over_new|]. split; cbn [on_ledger new_diff ch_current ch_pending ch_utxos ch_ledger ch_currentSupply];
      [by apply (represents_run _ spc [])|by apply (represents_run _ spp [])|by apply new_diff_ok|done|].
    rewrite new_diff_supply. eapply accounts_extend; [exact Hext| |exact Hac]. split; [by apply supply_nonneg|done].
Qed.

(** ** What is moved *)

Lemma advances_left t m gone spc' spp' x : advances t m gone spc' spp' → staker_in spp' x ↔ staker_in spp x ∧ t < st_StartTime x.
Proof.
  intros [Hmd _ Hmv Hdue _ _ _]. specialize (Hdue x). destruct Hbk as [_ Hp _ _ _]. unfold staker_in in *.
  rewrite (md_left_validator _ _ _ _ _ _ _ _ _ Hmd), (md_left_delegator _ _ _ _ _ _ _ _ _ Hmd).
  pose proof (mo_validators _ _ _ Hmv x). pose proof (mo_delegators _ _ _ Hmv x). pose proof (represents_apart _ _ Hp x).
  destruct (decide (st_StartTime x ≤ t)); [assert (¬ t < st_StartTime x) by lia|assert (t < st_StartTime x) by lia]; naive_solver.
Qed.

Lemma advances_current t m gone spc' spp' y : advances t m gone spc' spp' →
  staker_in spc' y ↔ staker_in spc y ∧ (t < st_EndTime y ∨ primary y) ∨ y ∈ mv_currentValidatorsToAdd m ++ mv_currentDelegatorsToAdd m.
Proof.
  intros [Hmd Hg Hmv Hdue Hgone Hexp _]. destruct Hbk as [Hc Hp _ _ Hac]. unfold staker_in at 1. rewrite elem_of_app.
  rewrite (md_validator _ _ _ _ _ _ _ _ _ Hmd), (md_delegator _ _ _ _ _ _ _ _ _ Hmd).
  assert (y ∈ gone → y ∉ mv_currentValidatorsToAdd m) as Hng.
  { intros Hy1 Hy2. destruct Hg as [_ _ _ _ Hvs _ _ _]. destruct (promoted_from _ _ _ _ Hvs Hy2) as (x&Hx&(_&Hs&_)%promoted_same).
    destruct (Hgone y Hy1) as [Hy _]. rewrite (ac_slots _ _ _ _ _ _ _ Hac) in Hy; [done|]. exists x. rewrite Hs. by apply (mo_validators _ _ _ Hmv). }
  assert (sp_delegators spc !! st_TxID y = Some y → primary y) as Hdp.
  { intros Hy. apply (ck_primary _ _ _ (proj2 (ro_delegator _ _ _ (ac_current _ _ _ _ _ _ _ Hac) _ _ Hy)) eq_refl). }
  specialize (Hexp y). unfold staker_in in *.
  destruct (decide (st_EndTime y ≤ t)); [assert (¬ t < st_EndTime y) by lia|assert (t < st_EndTime y) by lia]; destruct (decide (primary y)); naive_solver.
Qed.

Lemma advances_promoted t m gone spc' spp' : advances t m gone spc' spp' →
  Forall2 (λ x y, promoted (bool_decide (delegates x)) x y) (mv_pendingValidatorsToRemove m ++ mv_pendingDelegatorsToRemove m)
    (mv_currentValidatorsToAdd m ++ mv_currentDelegatorsToAdd m).
Proof.
  intros [_ [_ _ _ _ Hvs Hds _ _] Hmv _ _ _ _]. pose proof (ac_pending _ _ _ _ _ _ _ (bk_accounts _ _ _ _ _ _ Hbk)) as Hr.
  apply Forall2_app; eapply Forall2_impl_in; [exact Hvs| |exact Hds|]; intros x y Hx _ Hxy.
  - apply (mo_validators _ _ _ Hmv) in Hx. destruct (ro_validator _ _ _ Hr _ _ Hx) as [_ Hok]. rewrite bool_decide_eq_false_2; [done|].
    unfold delegates. rewrite (pk_priority _ _ _ _ Hok). unfold pending_priority. by case_decide.
  - apply (mo_delegators _ _ _ Hmv) in Hx. destruct (ro_delegator _ _ _ Hr _ _ Hx) as [_ Hok]. rewrite bool_decide_eq_true_2; [done|].
    unfold delegates. by rewrite (pk_priority _ _ _ _ Hok).
Qed.

(** C36: Advancing the time to [t] is accepted exactly when the transaction carries no
    credential, [t] is at most [SyncBound] ahead of the clock and after the time of the
    chain, there is a staker, current or pending, and none of them moves before [t].
    Committed, the time is [t]; every pending staker whose start has come, and no other, is now current, with its reward set; every validator
    of a subnet whose end has come is gone and nobody else; and the supply has grown
    by exactly what the new stakers are promised.  Aborted, nothing has changed.  The
    code never panics. *)
Theorem advance_time_exact Tx tx :
  let t := at_Timestamp tx in
  (can_advance Tx t → ∃ pr spc' spp' due new,
    exec_AdvanceTimeTx e (Some ps) Tx tx = Some (Ok pr) ∧ OnAbort pr = new_diff ps ∧ ch_timestamp (OnCommit pr) = t ∧
    represents (ch_current (OnCommit pr)) spc' ∧ represents (ch_pending (OnCommit pr)) spp' ∧
    (∀ x, x ∈ due ↔ staker_in spp x ∧ st_StartTime x ≤ t) ∧ Forall2 (λ x y, promoted (bool_decide (delegates x)) x y) due new ∧
    (∀ x, staker_in spp' x ↔ staker_in spp x ∧ t < st_StartTime x) ∧
    (∀ y, staker_in spc' y ↔ staker_in spc y ∧ (t < st_EndTime y ∨ primary y) ∨ y ∈ new) ∧
    ch_currentSupply (OnCommit pr) = ch_currentSupply ps + sumZ (stake_of <$> new) - sumZ (stake_of <$> due)) ∧
  (¬ can_advance Tx t → ∃ err, exec_AdvanceTimeTx e (Some ps) Tx tx = Some (Err err)).
Proof.
  intros t. destruct (exec_AdvanceTimeTx_cases Tx tx) as [[Hcan (m&gone&spc'&spp'&Hadv&Hex)]|[Hcan Herr]]; [|done].
  split; [|done]. intros _. destruct (advance_commits t m gone spc' spp' Hadv) as (Hc'&Hp'&_&_&Ht&Hs&_).
  eexists _, spc', spp', _, _. split; [exact Hex|]. cbn [OnCommit OnAbort]. split; [done|]. split; [done|]. split; [done|]. split; [done|].
  split; [intros x; rewrite elem_of_app; apply (av_due _ _ _ _ _ Hadv)|]. split; [by eapply advances_promoted|].
  split; [intros x; by eapply advances_left|]. split; [intros y; by eapply advances_current|].
  fold t. rewrite Hs, (ga_supply _ _ _ _ _ _ _ (av_gathered _ _ _ _ _ Hadv)), !fmap_app, !sumZ_app. simpl. lia.
Qed.
End advance.

(** ** The validator that waits starts at 50 *)

Section example.
#[local] Existing Instances toy_crypto list_BTree list_BTreeLaws.

Definition ex_advance : AdvanceTimeTx := mkAdvanceTimeTx 50.
Definition ex_advance_tx : Tx := mkTx (uAdvanceTime ex_advance) [] (id1 x03).

Lemma advance_time_exact_witness :
  ∃ pr spp', exec_AdvanceTimeTx (ex_backend (45 * Second)) (Some (ex_chain (10 * Second))) ex_advance_tx ex_advance = Some (Ok pr) ∧
    ch_timestamp (OnCommit pr) = 50 * Second ∧ represents (ch_pending (OnCommit pr)) spp' ∧ ∀ x, ¬ staker_in spp' x.
Proof.
  destruct (advance_time_exact (ex_backend (45 * Second)) ex_rewards ex_rewards_ok eq_refl 5 ltac:(lia) (ex_chain (10 * Second)) _ _ (ex_books _)
    ex_advance_tx ex_advance) as [Hcan _].
  destruct Hcan as (pr&spc'&spp'&due&new&Hex&_&Ht&_&Hp&_&_&Hleft&_).
  - split; [done|vm_compute; done|reflexivity|exists ex_active; left; by apply one_validator_in|].
    intros x [->%one_validator_in| ->%one_validator_in]; vm_compute; done.
  - exists pr, spp'. split; [exact Hex|]. split; [exact Ht|]. split; [exact Hp|].
    intros x [->%one_validator_in Hlt]%Hleft. vm_compute in Hlt. done.
Defined.
End example.
