(* ===== verification/Books.v ===== *)
(** Proposals keep the books: however the platform chain decides on a transaction
    that is proposed to it, no AVAX comes from nowhere. *)

From Stdlib Require Import SpecFloat Strings.Byte.
From S2P Require Import Prelude SafeMath Ids Packer NodeBag Database CodecTypes Codec GoStd Secp256k1fx Utxo PlatformUtxo PlatformUtxoSpec PlatformUtxoSafety.
From S2P Require Import GoHeap Stakers StakerIters StakerSets StakerDiff StakerApply StakerRefine DelegatorWeight Reward PlatformTxs PlatformState PlatformBooks ProposalExecutor.
From S2P Require Import AdvanceTime ChainRuns BooksTime.

(** * Adding a validator or a delegator keeps the books, committed or aborted: what is
    staked comes out of the outputs that are spent. *)

(** ** Sequences of steps that can fail *)

Lemma pr_bind_Ok {E A B} (m : option (result E A)) (k : A → option (result E B)) r :
  pr_bind m k = Some (Ok r) → ∃ a, m = Some (Ok a) ∧ k a = Some (Ok r).
Proof. destruct m as [[a|]|]; simpl; [by eauto|done..]. Qed.

Lemma check_Ok {E} b (err : E) u : check b err = Some (Ok u) → b = false.
Proof. by destruct b. Qed.

Lemma lift_Ok {E F A} (f : E → F) (r : result E A) a : lift f r = Some (Ok a) → r = Ok a.
Proof. destruct r; simpl; [by intros [= <-]|done]. Qed.

(** Takes one step off the hypothesis [H]. *)
Ltac peel H x Hx := apply pr_bind_Ok in H as (x & Hx & H).

Section stake.
Context `{Crypto} `{GoRange, GoSort, GoAppend} (Implements : gotype → positive → bool) (registered : linearCodec).
Context `{BTree, !BTreeLaws} {C P U X : Type}.
Context `{!StakerSet C, !StakerSetLaws C, !StakerSet P, !StakerSetLaws P, !UTXOSet U, !UTXOSetLaws U, !Ledger X, !LedgerLaws X}.
Context (e : Backend) (cfg : RewardConfig) (elsewhere : Z).
Context (ps : chain C P U X) (spc spp : stakers_spec) (Hbk : books cfg (be_Ctx e) elsewhere ps spc spp).

Abbreviation AVAX := (ctx_AVAXAssetID (be_Ctx e)).
Abbreviation amounts_ok := (Forall (λ o : TransferableOutput, amount_ok (tout_Out o))).
Abbreviation recorded tx st d := (on_ledger (AddTx tx st) d).

Lemma staked_worth w stake : staked (be_Ctx e) w stake → sumZ (out_worth AVAX <$> stake) = w.
Proof.
  intros [<- Hs]. unfold total_amount. f_equal. apply Forall_fmap_ext. eapply Forall_impl; [exact Hs|]. intros o Ho. simpl. unfold out_worth. by rewrite decide_True.
Qed.

Lemma verify_spend_balance base outs creds fee u :
  amounts_ok outs → is_u64 fee → NoDup ((λ i, InputID (tin_UTXOID i)) <$> btx_Ins base) →
  verify_spend Implements registered e base ps outs creds fee = Some (Ok u) →
  sumZ (out_worth AVAX <$> outs) + supply (Consume (ch_utxos ps) (btx_Ins base)) AVAX ≤ supply (ch_utxos ps) AVAX.
Proof.
  intros Ho Hf Hnd Hv. unfold verify_spend in Hv. destruct (VerifySpend _ _ _ _ _ _ _ _ _ _) as [m|err] eqn:E; [|by destruct err].
  apply (spend_balance Implements registered _ _ _ _ _ _ _ _ m AVAX) in E; [|apply Hbk|done| |done].
  - unfold amount_of in E. rewrite lookup_singleton_eq in E. simpl in E. unfold is_uint in Hf. lia.
  - intros a. unfold amount_of. destruct (decide (a = AVAX)) as [->|Hne]; [by rewrite lookup_singleton_eq|].
    rewrite lookup_singleton_ne by done. by unfold is_uint; simpl; lia.
Qed.

(** The outcomes of a transaction whose outputs are [outs], of which [stake] is
    kept back for the staker. *)
Section outcomes.
Context (Tx : PlatformTxs.Tx) (base : BaseTx) (stake : list TransferableOutput) (delegator : bool) (x : Staker).
Context (Hnew : txs_of (ch_ledger ps) (tx_id Tx) = None) (Hid : st_TxID x = tx_id Tx).
Context (Houts : amounts_ok (btx_Outs base)) (Hstake : amounts_ok stake).
Context (Hbal : sumZ (out_worth AVAX <$> (btx_Outs base ++ stake)) + supply (Consume (ch_utxos ps) (btx_Ins base)) AVAX ≤ supply (ch_utxos ps) AVAX).

Lemma transfer_outputs outs :
  amounts_ok outs → let u := ch_utxos (transfer base (tx_id Tx) outs (new_diff ps)) in
  utxos_ok u ∧ 0 ≤ supply u AVAX ≤ sumZ (out_worth AVAX <$> outs) + supply (Consume (ch_utxos ps) (btx_Ins base)) AVAX.
Proof.
  intros Ho u. assert (utxos_ok (Consume (PlatformUtxo.mkDiff ∅ (Some (ch_utxos ps))) (btx_Ins base))) as Hc by (apply Consume_ok, new_diff_ok, Hbk).
  assert (utxos_ok u) as Hu by (by apply Produce_ok). split; [done|]. split; [by apply supply_nonneg|].
  rewrite <-new_diff_Consume. by apply Produce_supply.
Qed.

Lemma new_tx_recorded st : let x' := AddTx Tx st (ledger_NewDiff (ch_ledger ps)) in
  ledger_ok x' ∧ txs_extend (txs_of (ch_ledger ps)) (txs_of x') ∧ txs_of x' (tx_id Tx) = Some (Tx, st).
Proof. apply record_tx; [apply Hbk|]. intros t st' Ht. congruence. Qed.

Lemma stage_commit :
  (∀ st, pending_ok cfg (txs_of (AddTx Tx st (ledger_NewDiff (ch_ledger ps)))) delegator x) →
  (delegator = false → sp_validators spc !! slot x = None ∧ sp_validators spp !! slot x = None) →
  stake_of x = sumZ (out_worth AVAX <$> stake) →
  grown_books cfg (be_Ctx e) elsewhere ps spc spp (recorded Tx status_Committed (on_pending (sd_run [put_op delegator x]) (transfer base (tx_id Tx) (btx_Outs base) (new_diff ps)))).
Proof.
  intros Hok Hfree Hst. pose proof Hbk as [Hc Hp Hu Hx Hac]. destruct (new_tx_recorded status_Committed) as (Hl&Hext&_).
  destruct (transfer_outputs (btx_Outs base) Houts) as [Hu' Hs'].
  rewrite fmap_app, sumZ_app in Hbal.
  destruct (accounts_put cfg elsewhere _ _ spc spp _ (supply (ch_utxos (transfer base (tx_id Tx) (btx_Outs base) (new_diff ps))) AVAX) _ delegator x Hac Hext)
    as (spp'&Hstep&Hac'); [apply (represents_used _ _ Hp)|by rewrite Hid|apply Hok|done|lia|lia|].
  assert (spec_run [put_op delegator x] spp = Some spp') as Hrun by (cbn [spec_run]; by rewrite Hstep).
  exists spc, spp'. split; [split|split; try done].
  - apply stakers_over_zero.
  - exists [put_op delegator x]. split; [done|]. split; [done|]. apply Forall_singleton. destruct delegator; simpl; [done|]. by apply Hfree.
  - eapply utxos_over_moves; [apply transfer_moves|]. apply (new_diff_grown ps spc spp).
  - by apply ledger_over_AddTx, ledger_over_new.
  - by apply (represents_run _ spc []).
  - by apply (represents_run _ spp [put_op delegator x]).
Qed.

Lemma stage_abort :
  grown_books cfg (be_Ctx e) elsewhere ps spc spp (recorded Tx status_Aborted (transfer base (tx_id Tx) (btx_Outs base ++ stake) (new_diff ps))).
Proof.
  pose proof Hbk as [Hc Hp Hu Hx Hac]. destruct (new_tx_recorded status_Aborted) as (Hl&Hext&_).
  destruct (transfer_outputs (btx_Outs base ++ stake)) as [Hu' Hs']; [by apply Forall_app|].
  exists spc, spp. split.
  { split; [apply stakers_over_zero..| |by apply ledger_over_AddTx, ledger_over_new].
    eapply utxos_over_moves; [apply transfer_moves|]. apply (new_diff_grown ps spc spp). }
  split; [by apply (represents_run _ spc [])|by apply (represents_run _ spp [])|done|done|].
  eapply accounts_extend; [exact Hext| |exact Hac]. cbn [on_ledger ch_utxos]. lia.
Qed.
End outcomes.

(** ** The transactions *)

Context (Hcap : cfg_MaxStakeDuration (be_Config e) ≤ rc_MintingPeriod cfg) (Hmin : 0 ≤ cfg_MinStakeDuration (be_Config e)).
Context (Hfee : is_u64 (cfg_AddStakerTxFee (be_Config e))) (Htxfee : is_u64 (cfg_TxFee (be_Config e))) (Hboot : be_Bootstrapped e = true).
Abbreviation marshal := (marshal_out Implements registered).
Abbreviation outcomes_balanced Tx pr := (
  grown_books cfg (be_Ctx e) elsewhere ps spc spp (recorded Tx status_Committed (OnCommit pr)) ∧ grown_books cfg (be_Ctx e) elsewhere ps spc spp (recorded Tx status_Aborted (OnAbort pr))).

Definition distinct_inputs (base : BaseTx) : Prop := NoDup ((λ i, InputID (tin_UTXOID i)) <$> btx_Ins base).

Lemma missing_free subnet node u :
  must_be_missing (GetAnyValidator (ch_current ps) (ch_pending ps) subnet node) = Some (Ok u) →
  sp_validators spc !! (subnet, node) = None ∧ sp_validators spp !! (subnet, node) = None.
Proof.
  destruct Hbk as [Hc Hp _ _ _]. unfold GetAnyValidator. rewrite (rd_validator _ _ (represents_reads _ _ Hc)), (rd_validator _ _ (represents_reads _ _ Hp)).
  destruct (sp_validators spc !! (subnet, node)); simpl; [done|]. by destruct (sp_validators spp !! (subnet, node)).
Qed.

Lemma checked_duration d :
  bool_decide (d < cfg_MinStakeDuration (be_Config e)) = false → bool_decide (cfg_MaxStakeDuration (be_Config e) < d) = false → 0 ≤ d ≤ rc_MintingPeriod cfg.
Proof. intros Hlo%bool_decide_eq_false Hhi%bool_decide_eq_false. lia. Qed.

Lemma stage_outcomes base stake delegator x Tx startTime put pr :
  put = on_pending (sd_run [put_op delegator x]) →
  stage e (Some ps) base (tx_id Tx) (btx_Outs base ++ stake) put startTime = Some (Ok pr) →
  OnCommit pr = on_pending (sd_run [put_op delegator x]) (transfer base (tx_id Tx) (btx_Outs base) (new_diff ps)) ∧
  OnAbort pr = transfer base (tx_id Tx) (btx_Outs base ++ stake) (new_diff ps).
Proof. intros ->. by intros [= <-]. Qed.

Lemma add_validator_balanced Tx t pr :
  tx_Unsigned Tx = uAddValidator t → honest marshal (be_Ctx e) Tx → txs_of (ch_ledger ps) (tx_id Tx) = None →
  amounts_ok (btx_Outs (av_Base t)) → amounts_ok (av_Stake t) → is_u64 (v_Wght (av_Validator t)) → 0 ≤ av_Shares t → distinct_inputs (av_Base t) →
  exec_AddValidatorTx Implements registered e (Some ps) Tx t = Some (Ok pr) → outcomes_balanced Tx pr.
Proof.
  intros Hu Hh Hnew Houts Hstake Hw Hsh Hdist Hex. unfold exec_AddValidatorTx in Hex.
  peel Hex tx' Hsv. peel Hex u1 Hq1. peel Hex u2 Hq2. peel Hex u3 Hq3. peel Hex u4 Hd1. peel Hex u5 Hd2. peel Hex ps' Hps. injection Hps as <-.
  peel Hex u6 Hq6. peel Hex u7 Hb. rewrite Hboot in Hb. peel Hb u8 Hq8. peel Hb u9 Hmiss. peel Hb u10 Hsp.
  apply lift_Ok, (AddValidator_verified _ _ _ _ t) in Hsv as (Hshares&Hw0&Hst); [|done..]. apply check_Ok in Hd1, Hd2.
  apply missing_free in Hmiss. apply (verify_spend_balance (av_Base t)) in Hsp; [|by apply Forall_app|done|done].
  destruct (stage_outcomes _ _ false (AsPending PrimaryNetworkValidatorPendingPriority (NewPrimaryNetworkStaker (tx_id Tx) (av_Validator t))) _ _ _ _ eq_refl Hex) as [-> ->].
  split; [eapply stage_commit|eapply stage_abort]; eauto; [|by rewrite (staked_worth _ _ Hst); unfold stake_of; simpl; lia].
  intros st. destruct (new_tx_recorded Tx Hnew st) as (_&_&Ht). split; simpl; try done.
  - exists Tx, st. split; [exact Ht|]. rewrite Hu. destruct Hst as [Hst _]. split_and!; try done; lia.
  - unfold is_uint in Hw. lia.
  - by apply checked_duration.
Qed.

Lemma add_delegator_balanced Tx t pr :
  tx_Unsigned Tx = uAddDelegator t → honest marshal (be_Ctx e) Tx → txs_of (ch_ledger ps) (tx_id Tx) = None →
  amounts_ok (btx_Outs (ad_Base t)) → amounts_ok (ad_Stake t) → is_u64 (v_Wght (ad_Validator t)) → distinct_inputs (ad_Base t) →
  exec_AddDelegatorTx Implements registered e (Some ps) Tx t = Some (Ok pr) → outcomes_balanced Tx pr.
Proof.
  intros Hu Hh Hnew Houts Hstake Hw Hdist Hex. unfold exec_AddDelegatorTx in Hex.
  peel Hex tx' Hsv. peel Hex u4 Hd1. peel Hex u5 Hd2. peel Hex u1 Hq1. peel Hex ps' Hps. injection Hps as <-.
  peel Hex u7 Hb. rewrite Hboot in Hb. peel Hb u8 Hq8. peel Hb vdr Hvdr. peel Hb mw Hmw. peel Hb can Hcan. peel Hb u9 Hcan'. peel Hb u10 Hsp.
  apply lift_Ok, (AddDelegator_verified _ _ _ _ t) in Hsv as (Hw0&Hst); [|done..]. apply check_Ok in Hd1, Hd2.
  apply (verify_spend_balance (ad_Base t)) in Hsp; [|by apply Forall_app|done|done].
  destruct (stage_outcomes _ _ true (AsPending PrimaryNetworkDelegatorPendingPriority (NewPrimaryNetworkStaker (tx_id Tx) (ad_Validator t))) _ _ _ _ eq_refl Hex) as [-> ->].
  split; [eapply stage_commit|eapply stage_abort]; eauto; [|done|by rewrite (staked_worth _ _ Hst); unfold stake_of; simpl; lia].
  intros st. destruct (new_tx_recorded Tx Hnew st) as (_&_&Ht). split; simpl; try done.
  - exists Tx, st. split; [exact Ht|]. rewrite Hu. destruct Hst as [Hst _]. split_and!; try done; lia.
  - unfold is_uint in Hw. lia.
  - by apply checked_duration.
Qed.

Lemma add_subnet_validator_balanced Tx t pr :
  tx_Unsigned Tx = uAddSubnetValidator t → honest marshal (be_Ctx e) Tx → txs_of (ch_ledger ps) (tx_id Tx) = None →
  amounts_ok (btx_Outs (as_Base t)) → is_u64 (v_Wght (sv_Validator (as_Validator t))) → distinct_inputs (as_Base t) →
  exec_AddSubnetValidatorTx Implements registered e (Some ps) Tx t = Some (Ok pr) → outcomes_balanced Tx pr.
Proof.
  intros Hu Hh Hnew Houts Hw Hdist Hex. unfold exec_AddSubnetValidatorTx in Hex.
  peel Hex tx' Hsv. peel Hex u4 Hd1. peel Hex u5 Hd2. peel Hex u1 Hq1. peel Hex ps' Hps. injection Hps as <-.
  peel Hex u7 Hb. rewrite Hboot in Hb. peel Hb u8 Hq8. peel Hb u9 Hmiss. peel Hb pnv Hpnv. peel Hb u10 Hbd. peel Hb cred Hcred. peel Hb sub Hsub.
  destruct sub as [sub ?]. peel Hb owner Hown. peel Hb u11 Hperm. peel Hb u12 Hsp.
  apply lift_Ok, (AddSubnetValidator_verified _ _ _ _ t) in Hsv as (Hsn&Hw0); [|done..]. apply check_Ok in Hd1, Hd2.
  apply missing_free in Hmiss. rewrite <-(app_nil_r (btx_Outs (as_Base t))) in Hsp, Hex.
  apply (verify_spend_balance (as_Base t)) in Hsp; [|by rewrite app_nil_r|done|done].
  destruct (stage_outcomes _ _ false (AsPending SubnetValidatorPendingPriority (NewSubnetStaker (tx_id Tx) (as_Validator t))) _ _ _ _ eq_refl Hex) as [-> ->].
  split; [eapply stage_commit|eapply stage_abort]; eauto; [|by unfold stake_of; rewrite decide_False].
  intros st. destruct (new_tx_recorded Tx Hnew st) as (_&_&Ht). split; simpl; try done.
  - exists Tx, st. split; [exact Ht|]. by rewrite Hu.
  - unfold pending_priority. by rewrite decide_False.
  - unfold is_uint in Hw. lia.
  - by apply checked_duration.
Qed.
End stake.

(** * Rewarding a staker keeps the books: committed, it takes its stake and its reward
    with it; aborted, the reward is taken back from the supply. *)

Section reward.
Context `{Crypto} `{BTree, !BTreeLaws} {C P U X : Type}.
Context `{!StakerSet C, !StakerSetLaws C, !StakerSet P, !StakerSetLaws P, !UTXOSet U, !UTXOSetLaws U, !Ledger X, !LedgerLaws X}.
Context (e : Backend) (cfg : RewardConfig) (elsewhere : Z).
Context (ps : chain C P U X) (spc spp : stakers_spec) (Hbk : books cfg (be_Ctx e) elsewhere ps spc spp).
Implicit Types d : chain_diff C P U X.

Abbreviation AVAX := (ctx_AVAXAssetID (be_Ctx e)).
Abbreviation amounts_ok := (Forall (λ o : TransferableOutput, amount_ok (tout_Out o))).

(** ** What is paid *)

Lemma refund_stake_pays txID n stake (u : PlatformUtxo.diff U) :
  utxos_ok u → amounts_ok stake →
  utxos_ok (refund_stake e txID n stake u) ∧ supply (refund_stake e txID n stake u) AVAX ≤ total_amount stake + supply u AVAX.
Proof.
  revert n u. induction stake as [|o stake IH]; intros n u Hu Ho; cbn [refund_stake].
  { unfold total_amount. rewrite fmap_nil, sumZ_nil. split; [done|lia]. }
  apply Forall_cons in Ho as [Ho Hos]. set (v := mkUTXO _ _ _). destruct (IH (S n) (AddUTXO v u)) as [Hok Hs]; [by apply AddUTXO_ok|done|].
  split; [done|]. pose proof (AddUTXO_supply v u AVAX Hu) as Hv. unfold worth in Hv. rewrite decide_True in Hv by done.
  change (utxo_Out v) with (tout_Out o) in Hv.
  unfold total_amount in *. rewrite fmap_cons, sumZ_cons. lia.
Qed.

Lemma refund_stake_moves txID n stake (u : PlatformUtxo.diff U) : rtc utxo_step u (refund_stake e txID n stake u).
Proof. revert n u. induction stake as [|o stake IH]; intros n u; cbn [refund_stake]; [done|]. eapply rtc_l; [|apply IH]. constructor. Qed.

(** Paying changes the outputs, and the ledger but for its transactions. *)
Record pays d (z : Z) d' : Prop := mkPays {
  pa_current : ch_current d' = ch_current d;
  pa_pending : ch_pending d' = ch_pending d;
  pa_supply : ch_currentSupply d' = ch_currentSupply d;
  pa_utxos : utxos_ok (ch_utxos d) → utxos_ok (ch_utxos d') ∧ supply (ch_utxos d') AVAX ≤ z + supply (ch_utxos d) AVAX;
  pa_ledger : ledger_ok (ch_ledger d) → ledger_ok (ch_ledger d') ∧ ∀ i, txs_of (ch_ledger d') i = txs_of (ch_ledger d) i;
  pa_moves : rtc utxo_step (ch_utxos d) (ch_utxos d');
  pa_over p : ledger_over p (ch_ledger d) → ledger_over p (ch_ledger d');
}.

Lemma pays_trans d1 d2 d3 z1 z2 : pays d1 z1 d2 → pays d2 z2 d3 → pays d1 (z1 + z2) d3.
Proof.
  intros [A1 A2 A3 A4 A5 A6 A7] [B1 B2 B3 B4 B5 B6 B7]. split; [congruence..| | |by etrans|auto].
  - intros Hu. destruct (A4 Hu) as [Hu2 ?]. destruct (B4 Hu2) as [Hu3 ?]. split; [done|lia].
  - intros Hl. destruct (A5 Hl) as [Hl2 E2]. destruct (B5 Hl2) as [Hl3 E3]. split; [done|]. intros i. by rewrite E3.
Qed.

Lemma refund_pays txID n stake d : amounts_ok stake → pays d (total_amount stake) (on_utxos (refund_stake e txID n stake) d).
Proof. intros Ho. split; simpl; try done; [intros Hu; by apply refund_stake_pays|apply refund_stake_moves]. Qed.

Lemma pay_reward_pays txID n z owner d d' :
  is_u64 z → pay_reward e txID n z owner d = Some (Ok d') → pays d z d'.
Proof.
  unfold pay_reward. intros Hz. unfold is_uint in Hz. case_decide as Hpos.
  - intros Hd. peel Hd out Hout. injection Hd as <-. apply lift_Ok in Hout.
    assert (iface_Amount (ifTransferOutput (Some out)) = Some z) as Ham.
    { unfold CreateOutput in Hout. repeat case_match; try done. by injection Hout as <-. }
    set (u := mkUTXO _ _ _) in *. assert (amount_ok (utxo_Out u)) as Hu.
    { intros y. change (utxo_Out u) with (ifTransferOutput (Some out)). rewrite Ham. intros [= <-]. done. }
    split; [done..| | | |]; cbn [on_ledger on_utxos ch_utxos ch_ledger].
    + intros Hok. split; [exact (AddUTXO_ok u (ch_utxos d) Hok Hu)|]. pose proof (AddUTXO_supply u (ch_utxos d) AVAX Hok) as Hs. unfold worth in Hs.
      rewrite decide_True in Hs by done. unfold amount in Hs. change (utxo_Out u) with (ifTransferOutput (Some out)) in Hs. rewrite Ham in Hs. exact Hs.
    + intros Hok. split; [exact Hok|done].
    + apply rtc_once. exact (step_add _ u).
    + intros p. apply ledger_over_AddRewardUTXO.
  - intros [= <-]. split; try done. intros Hok. split; [done|]. lia.
Qed.

(** ** The outcomes *)

Section staker.
Context (Tx : PlatformTxs.Tx) (delegator : bool) (x : Staker) (Hrec : records Tx (txs_of (ch_ledger ps))).
Context (Hx : if delegator then sp_delegators spc !! st_TxID x = Some x else sp_validators spc !! slot x = Some x).

(** The staker is deleted, and [z] paid, with a supply of [s]. *)
Lemma reward_outcome d s z st :
  pays (SetCurrentSupply s (on_current (sd_run [delete_op delegator x]) (new_diff ps))) z d →
  z - s ≤ stake_of x - ch_currentSupply ps → s ≤ ch_currentSupply ps →
  grown_books cfg (be_Ctx e) elsewhere ps spc spp (on_ledger (AddTx Tx st) d).
Proof.
  intros [E1 E2 E3 Hut Hle Hmv Hov] Hz Hs. destruct Hbk as [Hc Hp Hu Hl Hac]. simpl in E1, E2, E3.
  destruct (Hut (new_diff_ok _ Hu)) as [Hu' Hsup]. change (supply (ch_utxos (SetCurrentSupply _ _)) AVAX) with (supply (PlatformUtxo.mkDiff ∅ (Some (ch_utxos ps))) AVAX) in Hsup.
  rewrite new_diff_supply in Hsup. destruct (new_ledger _ Hl) as [Hl0 Hsame0]. destruct (Hle Hl0) as [Hl' Hsame].
  destruct (record_tx_in (ch_ledger d) (txs_of (ch_ledger ps)) Tx st Hl') as (Hok&Hext&_); [intros i; rewrite Hsame; apply Hsame0|done|].
  destruct (accounts_delete cfg elsewhere _ _ spc spp _ (supply (ch_utxos d) AVAX) _ s delegator x Hac Hext Hx) as (spc'&Hstep&Hac');
    [by apply supply_nonneg|lia|done|].
  exists spc', spp. split.
  { split; cbn [on_ledger ch_current ch_pending ch_utxos ch_ledger]; rewrite ?E1, ?E2.
    - exists [delete_op delegator x]. split; [done|]. split; [cbn [spec_run]; by rewrite Hstep|]. apply deletes_fill_free. destruct delegator; set_solver.
    - apply stakers_over_zero.
    - eapply utxos_over_moves; [exact Hmv|]. apply (new_diff_grown ps spc spp).
    - apply ledger_over_AddTx, Hov, ledger_over_new. }
  split; cbn [on_ledger ch_current ch_pending ch_utxos ch_ledger ch_currentSupply]; [..|done|done|by rewrite E3].
  - rewrite E1. apply (represents_run _ spc [delete_op delegator x]); [done|]. cbn [spec_run]. by rewrite Hstep.
  - rewrite E2. by apply (represents_run _ spp []).
Qed.
End staker.

(** A staker that was first to leave, by its transaction. *)
Lemma first_current it more it' x :
  GetStakerIterator (ch_current ps) = Some (Ok it) → it_Next it = Some (more, it') → more = true → it_Value it' = Some x → staker_in spc x.
Proof.
  intros Hit Hn -> Hv. destruct (rd_stakers _ _ (represents_reads _ _ (bk_current _ _ _ _ _ _ Hbk))) as (it0&l&Hit0&Hy&_&Hl).
  rewrite Hit in Hit0. injection Hit0 as <-. inversion Hy as [i' Hn'|i' y l' Hn' Hv' _]; subst; rewrite Hn in Hn'; [done|].
  injection Hn' as <-. rewrite Hv in Hv'. injection Hv' as <-. assert (x ∈ x :: l') as Hx by left. apply Hl in Hx. unfold staker_in. tauto.
Qed.

Lemma lookup_tx i (tx : PlatformTxs.Tx * Status) : lift errState (GetTx i (ch_ledger ps)) = Some (Ok tx) → txs_of (ch_ledger ps) i = Some tx.
Proof.
  intros Ht%lift_Ok. rewrite GetTx_spec in Ht by apply Hbk. destruct (txs_of (ch_ledger ps) i); [|done]. by injection Ht as ->.
Qed.

Abbreviation outcomes_balanced Tx c a := (
  grown_books cfg (be_Ctx e) elsewhere ps spc spp (on_ledger (AddTx Tx status_Committed) c) ∧ grown_books cfg (be_Ctx e) elsewhere ps spc spp (on_ledger (AddTx Tx status_Aborted) a)).

Lemma reward_validator_balanced Tx txID x t st0 tx0 c a n ts :
  records Tx (txs_of (ch_ledger ps)) → staker_in spc x → txs_of (ch_ledger ps) (st_TxID x) = Some (tx0, st0) → tx_Unsigned tx0 = uAddValidator t →
  reward_validator e txID x t (new_diff ps) (SetCurrentSupply (ch_currentSupply ps - st_PotentialReward x) (new_diff ps)) = Some (Ok (c, a, n, ts)) →
  outcomes_balanced Tx c a.
Proof.
  intros Hrec Hx Htx Hk Hex. destruct (current_kind cfg elsewhere _ _ _ _ _ (bk_accounts _ _ _ _ _ _ Hbk) x Hx) as (b&Hok&_&Hb).
  pose proof Hok as [(tx1&st1&Htx1&Hback) _ _ Hw Hr _]. rewrite Htx in Htx1. injection Htx1 as <- <-. rewrite Hk in Hback.
  destruct Hback as (->&Hprim&[Ham Htot]&_). assert (stake_of x = st_Weight x + st_PotentialReward x) as Hst by (unfold stake_of; by rewrite decide_True).
  unfold reward_validator in Hex. peel Hex d Hd. injection Hex as <- <- _ _. apply pay_reward_pays in Hd; [|done]. split.
  - apply (reward_outcome Tx false x Hrec Hb d (ch_currentSupply ps) (total_amount (av_Stake t) + st_PotentialReward x)); [|lia..].
    eapply pays_trans; [|exact Hd]. by apply refund_pays.
  - apply (reward_outcome Tx false x Hrec Hb _ (ch_currentSupply ps - st_PotentialReward x) (total_amount (av_Stake t))); [by apply refund_pays|..];
      unfold is_uint in Hr; lia.
Qed.

Lemma reward_delegator_balanced Tx txID x t st0 tx0 c a n ts :
  records Tx (txs_of (ch_ledger ps)) → staker_in spc x → txs_of (ch_ledger ps) (st_TxID x) = Some (tx0, st0) → tx_Unsigned tx0 = uAddDelegator t →
  reward_delegator e ps txID x t (new_diff ps) (SetCurrentSupply (ch_currentSupply ps - st_PotentialReward x) (new_diff ps)) = Some (Ok (c, a, n, ts)) →
  outcomes_balanced Tx c a.
Proof.
  intros Hrec Hx Htx Hk Hex. pose proof (bk_accounts _ _ _ _ _ _ Hbk) as Hac. destruct (current_kind cfg elsewhere _ _ _ _ _ Hac x Hx) as (b&Hok&_&Hb).
  pose proof Hok as [(tx1&st1&Htx1&Hback) Hprim _ Hw Hr _]. rewrite Htx in Htx1. injection Htx1 as <- <-. rewrite Hk in Hback.
  destruct Hback as (->&[Ham Htot]). assert (stake_of x = st_Weight x + st_PotentialReward x) as Hst by (unfold stake_of; rewrite decide_True; auto).
  unfold reward_delegator in Hex. peel Hex vdr Hvdr. peel Hex vtx Hvtx. destruct vtx as [vtx vst]. peel Hex vt Hvt.
  apply lift_Ok in Hvdr. rewrite (rd_validator _ _ (represents_reads _ _ (bk_current _ _ _ _ _ _ Hbk))) in Hvdr.
  destruct (sp_validators spc !! _) as [v|] eqn:Ev; [|done]. injection Hvdr as ->.
  destruct (ro_validator _ _ _ (ac_current _ _ _ _ _ _ _ Hac) _ _ Ev) as [_ [(tx1&st1&Htx1&Hback) _ _ _ _ _]].
  apply lookup_tx in Hvtx. rewrite Hvtx in Htx1. injection Htx1 as <- <-. destruct (tx_Unsigned vtx) as [vt'|?|?|?|?|?|?|?|?]; try done.
  injection Hvt as ->. destruct Hback as (_&_&_&Hsh).
  pose proof (split_reward_spec (av_Shares vt) (st_PotentialReward x) Hsh Hr) as Hsplit. destruct (split_reward _ _) as [dr er].
  destruct Hsplit as (Hdr&Her&Hsum&_). peel Hex d1 Hd1. peel Hex d2 Hd2. injection Hex as <- <- _ _.
  unfold is_uint in Hr. apply pay_reward_pays in Hd1; [|unfold is_uint; lia]. apply pay_reward_pays in Hd2; [|unfold is_uint; lia]. split.
  - apply (reward_outcome Tx true x Hrec Hb d2 (ch_currentSupply ps) (total_amount (ad_Stake t) + dr + er)); [|lia..].
    eapply pays_trans; [|exact Hd2]. eapply pays_trans; [|exact Hd1]. by apply refund_pays.
  - apply (reward_outcome Tx true x Hrec Hb _ (ch_currentSupply ps - st_PotentialReward x) (total_amount (ad_Stake t))); [by apply refund_pays|lia..].
Qed.

Lemma reward_balanced Tx tx pr :
  0 ≤ elsewhere → config_ok cfg → records Tx (txs_of (ch_ledger ps)) →
  exec_RewardValidatorTx e (Some ps) Tx tx = Some (Ok pr) → outcomes_balanced Tx (OnCommit pr) (OnAbort pr).
Proof.
  intros Hel Hcfg Hrec Hex. unfold exec_RewardValidatorTx in Hex.
  peel Hex u1 Hq1. peel Hex u2 Hq2. peel Hex ps' Hps. injection Hps as <-. peel Hex it Hit. peel Hex nx Hnx. destruct nx as [more it'].
  peel Hex u3 Hmore. peel Hex x Hx. peel Hex u4 Hid. peel Hex u5 Hend. peel Hex tx0 Htx. destruct tx0 as [tx0 st0]. peel Hex c0 Hc0. peel Hex a0 Ha0.
  injection Hc0 as <-. injection Ha0 as <-. peel Hex ns Hns. apply lift_Ok in Hns. apply lookup_tx in Htx. apply check_Ok in Hmore.
  assert (staker_in spc x) as Hin.
  { unfold lift2 in Hit. destruct (GetStakerIterator (ch_current ps)) as [[it0|]|] eqn:Eit; try done. injection Hit as ->.
    unfold panic in Hnx, Hx. destruct (it_Next it) as [[m i']|] eqn:En; [|done]. injection Hnx as -> ->. destruct (it_Value it') as [y|] eqn:Ey; [|done].
    injection Hx as ->. eapply first_current; eauto. by destruct more. }
  assert (ns = ch_currentSupply ps - st_PotentialReward x) as Hnseq.
  { destruct (current_kind cfg elsewhere _ _ _ _ _ (bk_accounts _ _ _ _ _ _ Hbk) x Hin) as (b&Hok&_&_).
    change (ch_currentSupply (new_diff ps)) with (ch_currentSupply ps) in Hns.
    rewrite Sub64_spec in Hns; [|eapply supply_u64; eauto; apply Hbk|apply Hok]. case_decide; [|done]. by injection Hns as <-. }
  subst ns. peel Hex r Hr. destruct r as [[[c a] n] ts]. peel Hex up Hup. injection Hex as <-. cbn [OnCommit OnAbort].
  destruct (tx_Unsigned tx0) as [t|t|t|t|t|t|t|t|t] eqn:Ek; try done.
  - by eapply reward_validator_balanced.
  - by eapply reward_delegator_balanced.
Qed.
End reward.

(** * Proposals *)

(** A node that has caught up and is configured consistently. *)
Record node_ok (e : Backend) (cfg : RewardConfig) : Prop := mkNodeOk {
  no_config : config_ok cfg;
  no_rewards : be_Rewards e = NewCalculator cfg;
  no_max : cfg_MaxStakeDuration (be_Config e) ≤ rc_MintingPeriod cfg;
  no_min : 0 ≤ cfg_MinStakeDuration (be_Config e);
  no_staker_fee : is_u64 (cfg_AddStakerTxFee (be_Config e));
  no_fee : is_u64 (cfg_TxFee (be_Config e));
  no_bootstrapped : be_Bootstrapped e = true;
}.

Section proposals.
Context `{Crypto} `{GoRange, GoSort, GoAppend} (Implements : gotype → positive → bool) (registered : linearCodec).
Context `{BTree, !BTreeLaws} {C P U X : Type}.
Context `{!StakerSet C, !StakerSetLaws C, !StakerSet P, !StakerSetLaws P, !UTXOSet U, !UTXOSetLaws U, !Ledger X, !LedgerLaws X}.
Context (e : Backend) (cfg : RewardConfig) (elsewhere : Z) (ps : chain C P U X).

Abbreviation amounts_ok := (Forall (λ o : TransferableOutput, amount_ok (tout_Out o))).

(** The numbers of a staker's transaction have the width of their type, and its
    inputs name different outputs. *)
Definition fits (u : UnsignedTx) : Prop :=
  match u with
  | uAddValidator t => amounts_ok (btx_Outs (av_Base t)) ∧ amounts_ok (av_Stake t) ∧ is_u64 (v_Wght (av_Validator t)) ∧ 0 ≤ av_Shares t ∧ distinct_inputs (av_Base t)
  | uAddDelegator t => amounts_ok (btx_Outs (ad_Base t)) ∧ amounts_ok (ad_Stake t) ∧ is_u64 (v_Wght (ad_Validator t)) ∧ distinct_inputs (ad_Base t)
  | uAddSubnetValidator t => amounts_ok (btx_Outs (as_Base t)) ∧ is_u64 (v_Wght (sv_Validator (as_Validator t))) ∧ distinct_inputs (as_Base t)
  | _ => True
  end.

(** A staker's transaction is not in the ledger yet; any other may be there again,
    since identifiers do not collide. *)
Definition new_to (txs : ID → option (Tx * Status)) (Tx : PlatformTxs.Tx) : Prop :=
  match tx_Unsigned Tx with
  | uAdvanceTime _ | uRewardValidator _ => records Tx txs
  | _ => txs (tx_id Tx) = None
  end.

(** Both outcomes grow over the parent and keep the books. *)
Lemma proposal_grown spc spp Tx pr :
  node_ok e cfg → 0 ≤ elsewhere → books cfg (be_Ctx e) elsewhere ps spc spp →
  honest (marshal_out Implements registered) (be_Ctx e) Tx → fits (tx_Unsigned Tx) → new_to (txs_of (ch_ledger ps)) Tx →
  ProposalTxExecutor Implements registered e (Some ps) Tx = Some (Ok pr) →
  grown_books cfg (be_Ctx e) elsewhere ps spc spp (onCommitState pr Tx) ∧ grown_books cfg (be_Ctx e) elsewhere ps spc spp (onAbortState pr Tx).
Proof.
  intros [Hcfg Hcalc Hmax Hmin Hfee Htf Hboot] Hel Hbk Hh Hf Hnew Hex. unfold ProposalTxExecutor in Hex. unfold new_to in Hnew.
  destruct (tx_Unsigned Tx) as [t|t|t|t|t|t|t|t|t] eqn:Eu; try done.
  - destruct Hf as (?&?&?&?&?). by eapply add_validator_balanced.
  - destruct Hf as (?&?&?). by eapply add_subnet_validator_balanced.
  - destruct Hf as (?&?&?&?). by eapply add_delegator_balanced.
  - by eapply advance_balanced.
  - by eapply reward_balanced.
Qed.

(** C37: A proposal keeps the books.  Let the AVAX in unspent outputs, staked, promised
    to the stakers and on other chains be at most the recorded supply, itself at most
    the cap, every staker be backed by the transaction that made it, and nobody wait
    for a place that is taken.  Then the same holds of the state of either outcome of
    a transaction that the executor accepts: a staker that is added, a time that
    advances with the rewards it mints, a staker that is paid and leaves or is only
    given its stake back. *)
Theorem proposal_keeps_books Tx pr :
  node_ok e cfg → 0 ≤ elsewhere → balanced cfg (be_Ctx e) elsewhere ps →
  honest (marshal_out Implements registered) (be_Ctx e) Tx → fits (tx_Unsigned Tx) → new_to (txs_of (ch_ledger ps)) Tx →
  ProposalTxExecutor Implements registered e (Some ps) Tx = Some (Ok pr) →
  balanced cfg (be_Ctx e) elsewhere (onCommitState pr Tx) ∧ balanced cfg (be_Ctx e) elsewhere (onAbortState pr Tx).
Proof.
  intros Hnode Hel (spc&spp&Hbk) Hh Hf Hnew Hex. destruct (proposal_grown spc spp Tx pr) as [Hc Ha]; [done..|].
  split; by eapply grown_balanced.
Qed.
End proposals.

(** ** The validator that staked is paid 13 and leaves *)

Section example.
#[local] Existing Instances toy_crypto list_BTree list_BTreeLaws go_range_std go_sort_std go_append_tight.

Definition ex_pay_tx : Tx := mkTx (uRewardValidator (mkRewardValidatorTx (id1 x01))) [] (id1 x04).
Definition ex_pay := ProposalTxExecutor (λ _ _, true) linear_New (ex_backend (100 * Second)) (Some (ex_chain (100 * Second))) ex_pay_tx.
Definition ex_paid : bool := match ex_pay with Some (Ok _) => true | _ => false end.

Lemma proposal_keeps_books_witness :
  ∃ pr, ex_pay = Some (Ok pr) ∧ balanced ex_rewards ex_ctx 5 (onCommitState pr ex_pay_tx) ∧ balanced ex_rewards ex_ctx 5 (onAbortState pr ex_pay_tx).
Proof.
  assert (ex_paid = true) as Hpaid by (vm_compute; reflexivity). unfold ex_paid in Hpaid. destruct ex_pay as [[pr|]|] eqn:Hex; [|done..].
  exists pr. split; [done|].
  apply (proposal_keeps_books (λ _ _, true) linear_New (ex_backend (100 * Second)) ex_rewards 5 (ex_chain (100 * Second)) ex_pay_tx pr).
  - split; [apply ex_rewards_ok|done|vm_compute; done|done|unfold is_uint; simpl; lia|unfold is_uint; simpl; lia|done].
  - lia.
  - exists (one_validator ex_active), (one_validator ex_waiting). apply ex_books.
  - done.
  - done.
  - intros t st Ht. exfalso. revert Ht. vm_compute. done.
  - exact Hex.
Defined.
End example.
