(* ===== verification/StandardExecutor.v ===== *)
(** Executing the transactions that a standard block decides at once
    (src/vms/platformvm/txs/executor: standard_tx_executor.go, atomic_tx_executor.go,
    and the loop over the transactions of blocks/executor/verifier.go).

    They create chains and subnets, and move funds from and to other chains: an
    import spends unspent outputs that the other chain has put into the memory both
    share, an export asks for outputs to be put there.  The outputs go through the
    codec.  What the memory and the lookup of subnets answer are arguments. *)

From Stdlib Require Import Strings.Byte Strings.String.
From S2P Require Import Prelude SafeMath Ids NodeBag Packer Database CodecTypes Codec LinkedDB GoStd Secp256k1fx Utxo PlatformUtxo PlatformTxs.
From S2P Require Import GoHeap Stakers StakerIters StakerSets StakerDiff DelegatorWeight Reward PlatformState ProposalExecutor.
#[local] Open Scope node_scope.

(** ** Unspent outputs through the codec *)

(** [verify.State] is another interface than [avax.TransferableOut]. *)
Definition State_type : gotype := TInterface 2.
Definition id_type : gotype := TArray 32 (TUint W8).
Definition mintOutput_type : gotype := TStruct "MintOutput" [(serialized "OutputOwners", owners_type)].

Definition utxo_type : gotype := TStruct "UTXO"
  [(serialized "UTXOID", TStruct "UTXOID"
      [(serialized "TxID", id_type); (serialized "OutputIndex", TUint W32);
       (mkFieldInfo "Symbol" true [], TBool); (mkFieldInfo "id" false [], id_type)]);
   (serialized "Asset", TStruct "Asset" [(serialized "ID", id_type)]);
   (serialized "Out", State_type)].

Definition id_value (i : ID) : govalue := VArray (byte_value <$> id_bytes i).

(** An output as a [verify.State]. *)
Definition state_value (out : iface) : govalue :=
  match out with
  | ifMintOutput None => VInterface (TPtr mintOutput_type) VNilPtr
  | ifMintOutput (Some out) => VInterface (TPtr mintOutput_type) (VPtr (VStruct [owners_value (mo_Owners out)]))
  | ifOutputOwners None => VInterface (TPtr owners_type) VNilPtr
  | ifOutputOwners (Some out) => VInterface (TPtr owners_type) (VPtr (owners_value out))
  | out => out_value out
  end.

Definition utxo_govalue (u : UTXO) : govalue :=
  VStruct [VStruct [id_value (uid_TxID (utxo_UTXOID u)); VInt (uid_OutputIndex (utxo_UTXOID u)); VBool false; id_value Empty];
    VStruct [id_value (utxo_Asset u)]; state_value (utxo_Out u)].

(** What the codec has read into the variable, as the model has it. *)
Definition value_id (v : govalue) : option ID :=
  match v with VArray vs => id_of_bytes (value_byte <$> vs) | _ => None end.
Definition value_owners (v : govalue) : option OutputOwners :=
  match v with
  | VStruct (VInt locktime :: VInt threshold :: VSlice addrs :: _) =>
      addrs ← mapM (λ a, match a with VArray vs => ToNodeID (value_byte <$> vs) | _ => None end) addrs;
      Some (mkOwners locktime threshold addrs)
  | _ => None
  end.
Definition type_name (t : gotype) : string := match t with TPtr (TStruct name _) => name | _ => EmptyString end.

Fixpoint value_out (v : govalue) : option iface :=
  match v with
  | VNilInterface => Some ifNil
  | VInterface t (VPtr (VStruct (v1 :: vs) as v)) =>
      if String.eqb (type_name t) "TransferOutput" then
        match v1, vs with
        | VInt amt, owners :: _ => o ← value_owners owners; Some (ifTransferOutput (Some (mkTransferOutput amt o)))
        | _, _ => None
        end
      else if String.eqb (type_name t) "MintOutput" then o ← value_owners v1; Some (ifMintOutput (Some (mkMintOutput o)))
      else if String.eqb (type_name t) "OutputOwners" then o ← value_owners v; Some (ifOutputOwners (Some o))
      else if String.eqb (type_name t) "LockOut" then
        match v1, vs with
        | VInt locktime, out :: _ => o ← value_out out; Some (ifLockOut locktime o)
        | _, _ => None
        end
      else Some ifOther
  | _ => None
  end.

Definition value_utxo (v : govalue) : option UTXO :=
  match v with
  | VStruct [VStruct (txID :: VInt index :: _); VStruct (asset :: _); out] =>
      txID ← value_id txID; asset ← value_id asset; out ← value_out out;
      Some (mkUTXO (mkUTXOID txID index) asset out)
  | _ => None
  end.

(** ** Atomic requests (src/chains/atomic/shared_memory.go) *)

Record Element := mkElement { el_Key : bytes; el_Value : bytes; el_Traits : list bytes }.
Record Requests := mkRequests { RemoveRequests : list bytes; PutRequests : list Element }.

Inductive standard_error :=
| errStdExec (e : executor_error)
| errCustomAssetBeforeBlueberry
| errSameChainID | errMismatchedSubnetIDs | errSubnetLookup
| errSharedMemory | errUnmarshalUTXO | errMarshalUTXO | errImportMissing.

(** Why a block's transactions are not accepted: its state is missing, one of them
    fails, or two conflict. *)
Inductive batch_error :=
| errBatchState (e : state_error)
| errBatchTx (txID : ID) (e : standard_error)
| errConflictingBatchTxs.

(** [out.(avax.Addressable)] *)
Fixpoint Addresses (out : iface) : list bytes :=
  match out with
  | ifOutputOwners (Some o) => ShortID_bytes <$> oo_Addrs o
  | ifTransferOutput (Some o) => ShortID_bytes <$> oo_Addrs (to_Owners o)
  | ifMintOutput (Some o) => ShortID_bytes <$> oo_Addrs (mo_Owners o)
  | ifLockOut _ out => Addresses out
  | _ => []
  end.

Definition GetCreateBlockchainTxFee (c : Config) (t : Z) : Z :=
  if decide (t < cfg_ApricotPhase3Time c) then cfg_CreateAssetTxFee c else cfg_CreateBlockchainTxFee c.
Definition GetCreateSubnetTxFee (c : Config) (t : Z) : Z :=
  if decide (t < cfg_ApricotPhase3Time c) then cfg_CreateAssetTxFee c else cfg_CreateSubnetTxFee c.

Section executor.
Context `{Crypto} `{GoRange, GoSort, GoAppend} (Implements : gotype → positive → bool) (registered : linearCodec).
Context {C P U X : Type} `{!UTXOSet U, !Ledger X}.
Context (SharedMemory_Get : ID → list bytes → option (list bytes)) (SNLookup_SubnetID : ID → option ID).
Context (e : Backend).
#[local] Hint Extern 0 (TypeCodec linearCodec) => exact (linear_TypeCodec Implements) : typeclass_instances.
Abbreviation chain := (chain C P U X).

Let cfg := be_Config e.
Let marshal := marshal_out Implements registered.
Let Codec := txs_Codec registered.

Definition Unmarshal_UTXO (utxoBytes : bytes) : option (result standard_error UTXO) :=
  match manager_Unmarshal Codec utxoBytes (Some (TPtr utxo_type, VPtr (zero_value utxo_type))) with
  | None => None
  | Some (_, Err _) => Some (Err errUnmarshalUTXO)
  | Some (_, Ok v) => Ok <$> value_utxo v
  end.

Definition Marshal_UTXO (u : UTXO) : option (result standard_error bytes) :=
  match manager_Marshal Codec txs_Version (Some (TPtr utxo_type, VPtr (utxo_govalue u))) with
  | None => None
  | Some (Err _) => Some (Err errMarshalUTXO)
  | Some (Ok b) => Some (Ok b)
  end.

(** [verify.SameSubnet] *)
Definition SameSubnet (peerChainID : ID) : result standard_error unit :=
  let ctx := be_Ctx e in
  if decide (peerChainID = ctx_ChainID ctx) then Err errSameChainID
  else match SNLookup_SubnetID peerChainID with
  | None => Err errSubnetLookup
  | Some subnetID => if decide (ctx_SubnetID ctx ≠ subnetID) then Err errMismatchedSubnetIDs else Ok tt
  end.

(** What an executed transaction leaves: the state, the inputs it takes from other
    chains, its requests, and the chain to create when it is accepted. *)
Record executed := mkExecuted {
  ex_State : chain;
  ex_Inputs : gset ID;
  ex_AtomicRequests : list (ID * Requests);
  ex_OnAccept : option (ID * CreateChainTx);
}.

Definition std {A} (m : option (result executor_error A)) : option (result standard_error A) := map_err errStdExec <$> m.

Definition utxo_transfer (base : BaseTx) (txID : ID) (d : chain) : chain :=
  on_utxos (λ u, Produce (Consume u (btx_Ins base)) txID (btx_Outs base)) d.

Definition exec_CreateChainTx (Tx : PlatformTxs.Tx) (tx : CreateChainTx) (State : chain) : option (result standard_error executed) :=
  let! _ := std (lift errSyntactic (tx_SyntacticVerify marshal (be_Ctx e) Tx)) in
  let! _ := std (check (bool_decide (length (tx_Creds Tx) = 0%nat)) errWrongNumberOfCredentials) in
  let baseTxCredsLen := (length (tx_Creds Tx) - 1)%nat in
  let baseTxCreds := take baseTxCredsLen (tx_Creds Tx) in
  let! subnetCred := panic (tx_Creds Tx !! baseTxCredsLen) in
  let createBlockchainTxFee := GetCreateBlockchainTxFee cfg (ch_timestamp State) in
  let! _ := std (verify_spend Implements registered e (cc_Base tx) State (btx_Outs (cc_Base tx)) baseTxCreds createBlockchainTxFee) in
  let! '(subnetIntf, _) := std (lift errState (GetTx (cc_SubnetID tx) (ch_ledger State))) in
  let! subnet := std (match tx_Unsigned subnetIntf with uCreateSubnet subnet => Some (Ok subnet) | _ => Some (Err errNotASubnet) end) in
  let! _ := std (lift errPermission (VerifyPermission (be_Fx e) (be_now e) (ifTx (btx_unsignedBytes (cc_Base tx))) (cc_SubnetAuth tx) subnetCred (cs_Owner subnet))) in
  let txID := tx_id Tx in
  let State := utxo_transfer (cc_Base tx) txID State in
  let! ledger := panic (AddChain Tx (ch_ledger State)) in
  Some (Ok (mkExecuted (on_ledger (λ _, ledger) State) ∅ [] (Some (txID, tx)))).

Definition exec_CreateSubnetTx (Tx : PlatformTxs.Tx) (tx : CreateSubnetTx) (State : chain) : option (result standard_error executed) :=
  let! _ := std (lift errSyntactic (tx_SyntacticVerify marshal (be_Ctx e) Tx)) in
  let createSubnetTxFee := GetCreateSubnetTxFee cfg (ch_timestamp State) in
  let! _ := std (verify_spend Implements registered e (cs_Base tx) State (btx_Outs (cs_Base tx)) (tx_Creds Tx) createSubnetTxFee) in
  let State := utxo_transfer (cs_Base tx) (tx_id Tx) State in
  Some (Ok (mkExecuted (on_ledger (AddSubnet Tx) State) ∅ [] None)).

(** Before the upgrade only AVAX may be imported. *)
Definition import_asset_ok (currentChainTime : Z) (i : TransferableInput) : bool :=
  negb (bool_decide (currentChainTime < cfg_BlueberryTime cfg)) || bool_decide (tin_Asset i = ctx_AVAXAssetID (be_Ctx e)).

(** The loop over what the memory has answered, for so many inputs.  It answers once
    for each key: more would not fit, fewer would leave nil pointers, and either is
    taken for a panic. *)
Fixpoint unmarshal_all (inputs : nat) (allUTXOBytes : list bytes) : option (result standard_error (list UTXO)) :=
  match allUTXOBytes, inputs with
  | [], O => Some (Ok [])
  | [], S _ => None
  | utxoBytes :: rest, _ =>
      let! utxo := Unmarshal_UTXO utxoBytes in
      match inputs with
      | O => None
      | S inputs =>
          let! utxos := unmarshal_all inputs rest in
          Some (Ok (utxo :: utxos))
      end
  end.

Definition imported_ids (tx : ImportTx) : list bytes := (λ i, id_bytes (InputID (tin_UTXOID i))) <$> im_ImportedInputs tx.

Definition exec_ImportTx (Tx : PlatformTxs.Tx) (tx : ImportTx) (State : chain) : option (result standard_error executed) :=
  let! _ := std (lift errSyntactic (tx_SyntacticVerify marshal (be_Ctx e) Tx)) in
  let! _ := check (negb (forallb (import_asset_ok (ch_timestamp State)) (im_ImportedInputs tx))) errCustomAssetBeforeBlueberry in
  let base := im_Base tx in
  let! _ := if be_Bootstrapped e then
      let! _ := Some (SameSubnet (im_SourceChain tx)) in
      let! allUTXOBytes := Some (match SharedMemory_Get (im_SourceChain tx) (imported_ids tx) with Some l => Ok l | None => Err errSharedMemory end) in
      let! own := Some (match get_utxos (ch_utxos State) (btx_Ins base) with Some l => Ok l | None => Err errImportMissing end) in
      let! imported := unmarshal_all (length (im_ImportedInputs tx)) allUTXOBytes in
      match VerifySpendUTXOs Implements registered (be_Fx e) (be_now e) (ifTx (btx_unsignedBytes base)) (own ++ imported)
          (btx_Ins base ++ im_ImportedInputs tx) (btx_Outs base) (tx_Creds Tx) {[ctx_AVAXAssetID (be_Ctx e) := cfg_TxFee cfg]} with
      | Ok _ => Some (Ok tt)
      | Err errSpendPanic => None
      | Err err => Some (Err (errStdExec (errVerifySpend err)))
      end
    else Some (Ok tt) in
  Some (Ok (mkExecuted (utxo_transfer base (tx_id Tx) State) (import_InputUTXOs tx) [(im_SourceChain tx, mkRequests (imported_ids tx) [])] None)).

(** The outputs that are put into the shared memory. *)
Definition exported_utxo (base : BaseTx) (txID : ID) (i : nat) (out : TransferableOutput) : UTXO :=
  mkUTXO (mkUTXOID txID (wrap32 (Z.of_nat (length (btx_Outs base) + i)))) (tout_Asset out) (tout_Out out).

Fixpoint export_elems (utxos : list UTXO) : option (result standard_error (list Element)) :=
  match utxos with
  | [] => Some (Ok [])
  | utxo :: utxos =>
      let! utxoBytes := Marshal_UTXO utxo in
      let! elems := export_elems utxos in
      Some (Ok (mkElement (id_bytes (utxo_InputID utxo)) utxoBytes (Addresses (utxo_Out utxo)) :: elems))
  end.

Definition exec_ExportTx (Tx : PlatformTxs.Tx) (tx : ExportTx) (State : chain) : option (result standard_error executed) :=
  let! _ := std (lift errSyntactic (tx_SyntacticVerify marshal (be_Ctx e) Tx)) in
  let base := ex_Base tx in
  let outs := btx_Outs base ++ ex_ExportedOutputs tx in
  let! _ := if be_Bootstrapped e then Some (SameSubnet (ex_DestinationChain tx)) else Some (Ok tt) in
  let! _ := std (verify_spend Implements registered e base State outs (tx_Creds Tx) (cfg_TxFee cfg)) in
  let txID := tx_id Tx in
  let State := utxo_transfer base txID State in
  let! elems := export_elems (imap (exported_utxo base txID) (ex_ExportedOutputs tx)) in
  Some (Ok (mkExecuted State ∅ [(ex_DestinationChain tx, mkRequests [] elems)] None)).

(** The visitor. *)
Definition StandardTxExecutor (State : chain) (Tx : PlatformTxs.Tx) : option (result standard_error executed) :=
  match tx_Unsigned Tx with
  | uCreateChain tx => exec_CreateChainTx Tx tx State
  | uCreateSubnet tx => exec_CreateSubnetTx Tx tx State
  | uImport tx => exec_ImportTx Tx tx State
  | uExport tx => exec_ExportTx Tx tx State
  | _ => Some (Err (errStdExec errExecWrongTxType))
  end.

(** ** The transactions of a block *)

(** What a standard block leaves, while its transactions are gone through. *)
Record batch := mkBatch {
  bt_State : chain;
  bt_Inputs : gset ID;
  bt_AtomicRequests : gmap ID Requests;
  bt_OnAccept : list (ID * CreateChainTx);
}.

(** Requests to the same chain are merged. *)
Definition merge_requests (m : gmap ID Requests) (x : ID * Requests) : gmap ID Requests :=
  let '(chainID, txRequests) := x in
  match m !! chainID with
  | None => <[chainID := txRequests]> m
  | Some chainRequests =>
      <[chainID := mkRequests (RemoveRequests chainRequests ++ RemoveRequests txRequests) (PutRequests chainRequests ++ PutRequests txRequests)]> m
  end.

Fixpoint execute_all (b : batch) (txs : list PlatformTxs.Tx) : option (result batch_error batch) :=
  match txs with
  | [] => Some (Ok b)
  | tx :: txs =>
      let! x := lift2 (errBatchTx (tx_id tx)) (StandardTxExecutor (bt_State b) tx) in
      let! _ := check (negb (bool_decide (bt_Inputs b ## ex_Inputs x))) errConflictingBatchTxs in
      execute_all
        (mkBatch (on_ledger (AddTx tx status_Committed) (ex_State x)) (bt_Inputs b ∪ ex_Inputs x)
          (foldl merge_requests (bt_AtomicRequests b) (ex_AtomicRequests x))
          (bt_OnAccept b ++ match ex_OnAccept x with Some f => [f] | None => [] end)) txs
  end.
End executor.

Section block.
Context `{Crypto} `{GoRange, GoSort, GoAppend} (Implements : gotype → positive → bool) (registered : linearCodec).
Context `{BTree} {C P U X : Type} `{!UTXOSet U, !Ledger X}.
Context (SharedMemory_Get : ID → list bytes → option (list bytes)) (SNLookup_SubnetID : ID → option ID).

(** [AtomicTxExecutor]: a visitor that only takes imports and exports. *)
Definition AtomicTxExecutor (e : Backend) (parent : option (chain C P U X)) (Tx : PlatformTxs.Tx)
  : option (result standard_error (executed (C := stakers_diff C) (P := stakers_diff P) (U := PlatformUtxo.diff U) (X := ledger_diff X))) :=
  match tx_Unsigned Tx with
  | uImport _ | uExport _ =>
      let! onAccept := std (lift errState (NewDiff parent)) in
      StandardTxExecutor Implements registered SharedMemory_Get SNLookup_SubnetID e onAccept Tx
  | _ => Some (Err (errStdExec errExecWrongTxType))
  end.

(** [verifier.StandardBlock] up to the inputs of its ancestors. *)
Definition execute_block (e : Backend) (parent : option (chain C P U X)) (txs : list PlatformTxs.Tx)
  : option (result batch_error (batch (C := stakers_diff C) (P := stakers_diff P) (U := PlatformUtxo.diff U) (X := ledger_diff X))) :=
  let! onAcceptState := lift errBatchState (NewDiff parent) in
  execute_all Implements registered SharedMemory_Get SNLookup_SubnetID e (mkBatch onAcceptState ∅ ∅ []) txs.
End block.
