(* ===== verification/StandardBooks.v ===== *)
(** Standard blocks keep the books: whatever they import leaves the memory that the
    chains share, and whatever they export is still there. *)

From Stdlib Require Import Strings.Byte.
From S2P Require Import Prelude SafeMath Ids Packer NodeBag Database CodecTypes Codec GoStd Secp256k1fx Utxo PlatformUtxo PlatformUtxoSpec PlatformUtxoSafety.
From S2P Require Import GoHeap Stakers StakerIters StakerSets StakerDiff StakerApply StakerRefine DelegatorWeight Reward PlatformTxs PlatformState PlatformBooks ProposalExecutor.
From S2P Require Import AdvanceTime ChainRuns BooksTime Books StandardExecutor.
#[local] Open Scope node_scope.

Lemma lift2_Ok {E F A} (f : E → F) (r : option (result E A)) a : lift2 f r = Some (Ok a) → r = Some (Ok a).
Proof. unfold lift2. intros (x&->&Hx)%fmap_Some. destruct x; [by injection Hx as ->|done]. Qed.

(** ** The shared memory *)

(** What is left of the memory when [I] is taken from it. *)
Definition rest (M : gmap ID UTXO) (I : gset ID) : gmap ID UTXO := filter (λ p, p.1 ∉ I) M.

Lemma rest_lookup M I i : rest M I !! i = if decide (i ∈ I) then None else M !! i.
Proof. apply option_eq. intros u. unfold rest. rewrite map_lookup_filter_Some. simpl. case_decide; naive_solver. Qed.

Lemma rest_empty M : rest M ∅ = M.
Proof. apply map_eq. intros i. rewrite rest_lookup. by rewrite decide_False by set_solver. Qed.

Lemma rest_union M I J : rest M (I ∪ J) = rest (rest M I) J.
Proof. apply map_eq. intros i. rewrite !rest_lookup. repeat case_decide; set_solver. Qed.

(** Outputs that are there are worth what the memory loses with them. *)
Lemma rest_supply a ids us M :
  NoDup ids → Forall2 (λ i u, M !! i = Some u) ids us →
  map_supply M a = sumZ (worth a <$> us) + map_supply (rest M (list_to_set ids)) a.
Proof.
  intros Hnd Hall. revert M us Hall. induction ids as [|i ids IH]; intros M us Hall; inversion Hall as [|? u ? us' Hu Hus]; subst.
  { rewrite fmap_nil, sumZ_nil. cbn [list_to_set]. by rewrite rest_empty. }
  apply NoDup_cons in Hnd as [Hi Hnd]. rewrite fmap_cons, sumZ_cons. rewrite (map_supply_delete M i u) by done.
  rewrite (IH Hnd (delete i M) us').
  - assert (rest (delete i M) (list_to_set ids) = rest M (list_to_set (i :: ids))) as ->; [|lia].
    apply map_eq. intros j. rewrite !rest_lookup, lookup_delete. repeat case_decide; set_solver.
  - eapply Forall2_impl_in; [exact Hus|]. intros j v Hj _ Hv. rewrite lookup_delete_ne; [done|]. intros ->. done.
Qed.

(** ** What a block may hold *)

Abbreviation amounts_ok := (Forall (λ o : TransferableOutput, amount_ok (tout_Out o))).

(** The widths of the amounts, and inputs that name different outputs. *)
Definition standard_fits `{Crypto} (u : UnsignedTx) : Prop :=
  match u with
  | uCreateChain t => amounts_ok (btx_Outs (cc_Base t)) ∧ distinct_inputs (cc_Base t)
  | uCreateSubnet t => amounts_ok (btx_Outs (cs_Base t)) ∧ distinct_inputs (cs_Base t)
  | uImport t => amounts_ok (btx_Outs (im_Base t)) ∧ distinct_inputs (im_Base t) ∧ NoDup ((λ i, InputID (tin_UTXOID i)) <$> im_ImportedInputs t)
  | uExport t => amounts_ok (btx_Outs (ex_Base t)) ∧ amounts_ok (ex_ExportedOutputs t) ∧ distinct_inputs (ex_Base t)
  | _ => True
  end.

(** What a transaction sends to other chains. *)
Definition exported (a : ID) (u : UnsignedTx) : Z :=
  match u with uExport t => sumZ (out_worth a <$> ex_ExportedOutputs t) | _ => 0 end.

Lemma exported_nonneg `{Crypto} a u : standard_fits u → 0 ≤ exported a u.
Proof.
  destruct u as [t|t|t|t|t|t|t|t|t]; simpl; try done. intros (_&Ho&_). apply sumZ_nonneg, Forall_fmap. eapply Forall_impl; [exact Ho|].
  intros o Hok. simpl. unfold out_worth. case_decide; [by apply amount_nonneg|done].
Qed.

(** Identifiers do not collide: with the ledger, nor in the block. *)
Definition no_collisions (txs : ID → option (Tx * Status)) (l : list Tx) : Prop :=
  (∀ t, t ∈ l → records t txs) ∧ ∀ t t', t ∈ l → t' ∈ l → tx_id t = tx_id t' → tx_Unsigned t = tx_Unsigned t'.

Record fees_ok (c : Config) : Prop := mkFeesOk {
  fo_asset : is_u64 (cfg_CreateAssetTxFee c);
  fo_subnet : is_u64 (cfg_CreateSubnetTxFee c);
  fo_chain : is_u64 (cfg_CreateBlockchainTxFee c);
}.

Lemma blockchain_fee_ok c t : fees_ok c → is_u64 (GetCreateBlockchainTxFee c t).
Proof. intros Hc. unfold GetCreateBlockchainTxFee. case_decide; apply Hc. Qed.

Lemma subnet_fee_ok c t : fees_ok c → is_u64 (GetCreateSubnetTxFee c t).
Proof. intros Hc. unfold GetCreateSubnetTxFee. case_decide; apply Hc. Qed.

(** Which keys a chain is asked to remove of what another one has sent. *)
Definition removed (c : ID) (k : bytes) (m : gmap ID Requests) : Prop := ∃ r, m !! c = Some r ∧ k ∈ RemoveRequests r.

Lemma removed_merge c' k m c r : removed c' k (merge_requests m (c, r)) ↔ removed c' k m ∨ c' = c ∧ k ∈ RemoveRequests r.
Proof.
  unfold merge_requests, removed. destruct (decide (c' = c)) as [->|Hne].
  - destruct (m !! c) as [r0|]; rewrite lookup_insert_eq; [|naive_solver].
    split; [intros (r'&[= <-]&Hk); simpl in Hk; apply elem_of_app in Hk; naive_solver|].
    intros Hk. eexists. split; [reflexivity|]. simpl. apply elem_of_app. naive_solver.
  - destruct (m !! c) as [r0|]; rewrite lookup_insert_ne by done; naive_solver.
Qed.

(** Standard transactions leave the stakers, the time and the supply alone; outputs
    are added and deleted, and the ledger is only added to. *)
Record frame `{Crypto} {C P U X} `{!UTXOSet U} (d d' : chain C P U (ledger_diff X)) : Prop := mkFrame {
  fr_timestamp : ch_timestamp d' = ch_timestamp d;
  fr_supply : ch_currentSupply d' = ch_currentSupply d;
  fr_current : ch_current d' = ch_current d;
  fr_pending : ch_pending d' = ch_pending d;
  fr_utxos : rtc utxo_step (ch_utxos d) (ch_utxos d');
  fr_ledger p : ledger_over p (ch_ledger d) → ledger_over p (ch_ledger d');
}.

Lemma chain_frame_trans `{Crypto} {C P U X} `{!UTXOSet U} (d1 d2 d3 : chain C P U (ledger_diff X)) : frame d1 d2 → frame d2 d3 → frame d1 d3.
Proof. intros [] []. split; [congruence..|by etrans|auto]. Qed.

(** ** The transactions *)

Section standard.
Context `{Crypto} `{GoRange, GoSort, GoAppend} (Implements : gotype → positive → bool) (registered : linearCodec).
Context `{BTree, !BTreeLaws} {C P U X : Type}.
Context `{!StakerSet C, !StakerSetLaws C, !StakerSet P, !StakerSetLaws P, !UTXOSet U, !UTXOSetLaws U, !Ledger X, !LedgerLaws X}.
Context (SharedMemory_Get : ID → list bytes → option (list bytes)) (SNLookup_SubnetID : ID → option ID).
Context (e : Backend) (cfg : RewardConfig) (M : gmap ID UTXO) (origin : ID → ID).
Implicit Types d : chain C P U (ledger_diff X).

Abbreviation AVAX := (ctx_AVAXAssetID (be_Ctx e)).

(** The memory holds [M], each output in what its origin has sent, as the codec reads
    it. *)
Record memory_holds : Prop := mkMemoryHolds {
  mh_amounts i u : M !! i = Some u → amount_ok (utxo_Out u);
  mh_get source keys bs us : SharedMemory_Get source keys = Some bs → unmarshal_all Implements registered (length keys) bs = Some (Ok us) →
    Forall2 (λ k u, ∃ i, k = id_bytes i ∧ M !! i = Some u ∧ origin i = source) keys us;
}.

(** The keys of [I], as they are to be removed. *)
Definition keys_of (I : gset ID) (c : ID) (k : bytes) : Prop := ∃ i, i ∈ I ∧ k = id_bytes i ∧ origin i = c.

(** Funds move: [el] becomes [el']. *)
Lemma moved_books el el' d spc spp base Tx st f :
  books cfg (be_Ctx e) el d spc spp → amounts_ok (btx_Outs base) → records Tx (txs_of (ch_ledger d)) →
  ledger_ok (f (ch_ledger d)) → (∀ i, txs_of (f (ch_ledger d)) i = txs_of (ch_ledger d) i) →
  sumZ (out_worth AVAX <$> btx_Outs base) + supply (Consume (ch_utxos d) (btx_Ins base)) AVAX + el' ≤ supply (ch_utxos d) AVAX + el →
  books cfg (be_Ctx e) el' (on_ledger (AddTx Tx st) (on_ledger f (utxo_transfer base (tx_id Tx) d))) spc spp.
Proof.
  intros [Hc Hp Hu Hl Hac] Hout Hrec Hf Hsame Hle. destruct (record_tx_in _ _ Tx st Hf Hsame Hrec) as (Hok&Hext&_).
  pose proof (Consume_ok _ (btx_Ins base) Hu) as Hcons. split; try done; cbn [on_ledger utxo_transfer on_utxos ch_utxos ch_ledger ch_currentSupply].
  - by apply Produce_ok.
  - eapply accounts_shift; [exact Hext| | |exact Hac].
    + apply supply_nonneg. by apply Produce_ok.
    + pose proof (Produce_supply (Consume (ch_utxos d) (btx_Ins base)) (tx_id Tx) (btx_Outs base) AVAX Hcons Hout). lia.
Qed.

Section one.
Context (E : Z) (I : gset ID) (d : chain C P U (ledger_diff X)) (spc spp : stakers_spec) (Tx : PlatformTxs.Tx) (st : Status).
Context (Hbk : books cfg (be_Ctx e) (E + map_supply (rest M I) AVAX) d spc spp) (Hrec : records Tx (txs_of (ch_ledger d))).
Context (Hfees : fees_ok (be_Config e)) (Hfee : is_u64 (cfg_TxFee (be_Config e))) (Hboot : be_Bootstrapped e = true) (Hmem : memory_holds).

(** What executing the transaction leaves behind. *)
Record leaves (x : executed (C := C) (P := P) (U := U) (X := ledger_diff X)) : Prop := mkLeaves {
  lv_books : books cfg (be_Ctx e) (E + exported AVAX (tx_Unsigned Tx) + map_supply (rest M (I ∪ ex_Inputs x)) AVAX) (on_ledger (AddTx Tx st) (ex_State x)) spc spp;
  lv_frame : frame d (ex_State x);
  lv_txs i : txs_of (ch_ledger (ex_State x)) i = txs_of (ch_ledger d) i;
  lv_one : (length (ex_AtomicRequests x) ≤ 1)%nat;
  lv_removed c k m : removed c k (foldl merge_requests m (ex_AtomicRequests x)) ↔ removed c k m ∨ keys_of (ex_Inputs x) c k;
  lv_there i : i ∈ ex_Inputs x → is_Some (M !! i);
}.

Lemma transfer_frame base f :
  (∀ p, ledger_over p (ch_ledger d) → ledger_over p (f (ch_ledger d))) → frame d (on_ledger f (utxo_transfer base (tx_id Tx) d)).
Proof. intros Hf. split; try done. apply transfer_moves. Qed.

Lemma nothing_removed c k m : removed c k m ↔ removed c k m ∨ keys_of ∅ c k.
Proof. unfold keys_of. set_solver. Qed.

Lemma std_Ok {A} (m : option (result executor_error A)) a : std m = Some (Ok a) → m = Some (Ok a).
Proof. unfold std. intros (r&Hr&Hm)%fmap_Some. destruct r; [|done]. by injection Hm as ->. Qed.

Lemma create_chain_leaves t x :
  tx_Unsigned Tx = uCreateChain t → standard_fits (uCreateChain t) →
  exec_CreateChainTx Implements registered e Tx t d = Some (Ok x) → leaves x.
Proof.
  intros Hu [Hout Hnd] Hex. unfold exec_CreateChainTx in Hex.
  peel Hex u1 Hq1. peel Hex u2 Hq2. peel Hex cred Hq3. peel Hex u4 Hsp. peel Hex sub Hq5. destruct sub as [sub ?]. peel Hex s6 Hq6. peel Hex u7 Hq7.
  peel Hex l Hl. injection Hex as <-.
  apply std_Ok in Hsp. eapply verify_spend_balance in Hsp; [|exact Hbk|done|by apply blockchain_fee_ok|done].
  destruct (ld_AddChain_ok Tx (cc_SubnetID t) (ch_ledger d)) as (l'&Hl'&Hok&_); [apply Hbk|unfold chain_subnet; by rewrite Hu|].
  unfold panic in Hl. change (ch_ledger (utxo_transfer _ _ d)) with (ch_ledger d) in Hl. apply fmap_Some in Hl as (l0&Hl0&Heq). injection Heq as <-.
  change (ld_AddChain Tx (ch_ledger d) = Some l) in Hl0. rewrite Hl0 in Hl'. injection Hl' as <-.
  assert (∀ i, txs_of l i = txs_of (ch_ledger d) i) as Hsame.
  { intros i. unfold ld_AddChain in Hl0. destruct (chain_subnet Tx); [|done]. by injection Hl0 as <-. }
  split; [|apply (transfer_frame _ (λ _, l)); intros p; by apply (ledger_over_AddChain p Tx)|exact Hsame|simpl; lia|intros; apply nothing_removed|set_solver]. rewrite Hu. cbn [exported ex_State ex_Inputs]. rewrite (right_id_L ∅ (∪)).
  eapply (moved_books _ _ _ _ _ _ _ _ (λ _, l) Hbk); [done|done|exact Hok|exact Hsame|lia].
Qed.

Lemma create_subnet_leaves t x :
  tx_Unsigned Tx = uCreateSubnet t → standard_fits (uCreateSubnet t) →
  exec_CreateSubnetTx Implements registered e Tx t d = Some (Ok x) → leaves x.
Proof.
  intros Hu [Hout Hnd] Hex. unfold exec_CreateSubnetTx in Hex. peel Hex u1 Hq1. peel Hex u4 Hsp. injection Hex as <-.
  apply std_Ok in Hsp. eapply verify_spend_balance in Hsp; [|exact Hbk|done|by apply subnet_fee_ok|done].
  split; [|apply (transfer_frame _ (ld_AddSubnet Tx)); intros p; by apply (ledger_over_AddSubnet p Tx)|done|simpl; lia|intros; apply nothing_removed|set_solver]. rewrite Hu. cbn [exported ex_State ex_Inputs]. rewrite (right_id_L ∅ (∪)).
  eapply (moved_books _ _ _ _ _ _ _ _ (ld_AddSubnet Tx) Hbk); [done|done|by apply (ld_AddSubnet_ok Tx (ch_ledger d)), Hbk|done|lia].
Qed.

Lemma export_leaves t x :
  tx_Unsigned Tx = uExport t → standard_fits (uExport t) →
  exec_ExportTx Implements registered SNLookup_SubnetID e Tx t d = Some (Ok x) → leaves x.
Proof.
  intros Hu (Hout&Hexp&Hnd) Hex. unfold exec_ExportTx in Hex. peel Hex u1 Hq1. peel Hex u2 Hq2. peel Hex u3 Hsp. peel Hex elems Hq4. injection Hex as <-.
  apply std_Ok in Hsp. eapply verify_spend_balance in Hsp; [|exact Hbk|by apply Forall_app|done|done]. rewrite fmap_app, sumZ_app in Hsp.
  split; [|by apply (transfer_frame _ (λ l, l))|done|simpl; lia|intros c k m; cbn [foldl ex_AtomicRequests ex_Inputs]; rewrite removed_merge; unfold keys_of; set_solver|set_solver].
  rewrite Hu. cbn [exported ex_State ex_Inputs]. rewrite (right_id_L ∅ (∪)).
  eapply (moved_books _ _ _ _ _ _ _ _ (λ l, l) Hbk); [done|done|apply Hbk|done|lia].
Qed.

Lemma imported_supply t us :
  NoDup ((λ i, InputID (tin_UTXOID i)) <$> im_ImportedInputs t) → I ## import_InputUTXOs t →
  Forall2 (λ k u, ∃ i, k = id_bytes i ∧ M !! i = Some u ∧ origin i = im_SourceChain t) (imported_ids t) us →
  map_supply (rest M I) AVAX = sumZ (worth AVAX <$> us) + map_supply (rest M (I ∪ import_InputUTXOs t)) AVAX.
Proof.
  intros Hnd Hdis Hall. rewrite rest_union. apply rest_supply; [done|].
  unfold imported_ids in Hall. apply Forall2_fmap_l in Hall. apply Forall2_fmap_l. eapply Forall2_impl_in; [exact Hall|].
  intros i u Hi _ (j&Hj&Hm&_). cbn in Hj. apply ID_eq in Hj. subst j. cbn. rewrite rest_lookup, decide_False; [done|]. intros HI. apply (Hdis _ HI).
  apply elem_of_list_to_set, list_elem_of_fmap. eauto.
Qed.

Lemma import_leaves t x :
  tx_Unsigned Tx = uImport t → standard_fits (uImport t) → I ## ex_Inputs x →
  exec_ImportTx Implements registered SharedMemory_Get SNLookup_SubnetID e Tx t d = Some (Ok x) → leaves x.
Proof.
  intros Hu (Hout&Hnd&Hnd') Hdis Hex. unfold exec_ImportTx in Hex. rewrite Hboot in Hex. peel Hex u1 Hq1. peel Hex u2 Hq2. peel Hex u3 Hsp. injection Hex as <-.
  peel Hsp u4 Hq4. peel Hsp bs Hget. peel Hsp own Hown. peel Hsp imported Himp.
  destruct (SharedMemory_Get _ _) as [bs'|] eqn:Eget; [|done]. injection Hget as ->.
  destruct (get_utxos _ _) as [own'|] eqn:Eown; [|done]. injection Hown as ->.
  assert (Forall2 (λ k u, ∃ i, k = id_bytes i ∧ M !! i = Some u ∧ origin i = im_SourceChain t) (imported_ids t) imported) as Hall.
  { eapply mh_get; [done|exact Eget|]. unfold imported_ids. by rewrite length_fmap. }
  destruct (VerifySpendUTXOs _ _ _ _ _ _ _ _ _ _) as [m|err] eqn:Ev; [|by destruct err]. clear Hsp.
  cbn [ex_State ex_Inputs ex_AtomicRequests foldl] in *. 
  assert (∀ i, i ∈ import_InputUTXOs t ↔ id_bytes i ∈ imported_ids t) as Hin.
  { intros i. unfold import_InputUTXOs, imported_ids. rewrite elem_of_list_to_set, !list_elem_of_fmap. split; intros (y&Hy&Hyt); exists y; (split; [|done]);
      [by rewrite Hy|by apply ID_eq]. }
  assert (∀ i, i ∈ import_InputUTXOs t → is_Some (M !! i) ∧ origin i = im_SourceChain t) as Hthere.
  { intros i Hi%Hin. destruct (Forall2_elem_r _ _ _ _ (proj1 (Forall2_flip _ _ _) Hall) Hi) as (u&_&j&Hj&Hm&Ho). apply ID_eq in Hj. subst j. split; [by exists u|done]. }
  split; [|by apply (transfer_frame _ (λ l, l))|done|simpl; lia| |intros i Hi; by apply Hthere]; cbn [ex_State ex_Inputs ex_AtomicRequests foldl].
  - rewrite Hu. cbn [exported]. rewrite Z.add_0_r. eapply (moved_books _ _ _ _ _ _ _ _ (λ l, l) Hbk); [done|done|apply Hbk|done|].
    apply (spend_utxos_balance Implements registered _ _ _ _ _ _ _ _ m AVAX) in Ev; [|..].
    + rewrite (imported_supply t imported Hnd' Hdis Hall). destruct (Consume_supply _ _ _ AVAX Hnd Eown) as [-> _].
      rewrite fmap_app, sumZ_app in Ev. unfold amount_of in Ev. rewrite lookup_singleton_eq in Ev. simpl in Ev. unfold is_uint in Hfee. lia.
    + apply Forall_app. split; [eapply get_utxos_ok; [|exact Eown]; apply Hbk|].
      apply Forall_forall. intros u Huin. destruct (Forall2_elem_r _ _ _ _ Hall Huin) as (k&_&i&_&Hi&_). by eapply mh_amounts.
    + done.
    + intros a. unfold amount_of. destruct (decide (a = AVAX)) as [->|Hne]; [by rewrite lookup_singleton_eq|].
      rewrite lookup_singleton_ne by done. by unfold is_uint; simpl; lia.
  - intros c k m'. rewrite removed_merge. cbn [RemoveRequests]. unfold keys_of. split; (intros [?|Hk]; [by left|right]).
    + destruct Hk as [-> Hk]. unfold imported_ids in Hk. apply list_elem_of_fmap in Hk as (y&->&Hy). exists (InputID (tin_UTXOID y)).
      assert (InputID (tin_UTXOID y) ∈ import_InputUTXOs t) as Hi by (apply elem_of_list_to_set, list_elem_of_fmap; eauto).
      split; [done|]. split; [done|]. by apply Hthere.
    + destruct Hk as (i&Hi&->&<-). split; [by apply Hthere|by apply Hin].
Qed.

Lemma standard_leaves x :
  standard_fits (tx_Unsigned Tx) → I ## ex_Inputs x →
  StandardTxExecutor Implements registered SharedMemory_Get SNLookup_SubnetID e d Tx = Some (Ok x) → leaves x.
Proof.
  intros Hf Hdis Hex. unfold StandardTxExecutor in Hex. destruct (tx_Unsigned Tx) as [t|t|t|t|t|t|t|t|t] eqn:Hu; try done.
  - by eapply create_chain_leaves.
  - by eapply create_subnet_leaves.
  - by eapply import_leaves.
  - by eapply export_leaves.
Qed.
End one.

(** ** The block *)

Lemma no_collisions_head txs tx l : no_collisions txs (tx :: l) → records tx txs.
Proof. intros [Hr _]. apply Hr. left. Qed.

Lemma no_collisions_tail (txs txs' : ID → option (Tx * Status)) tx l st :
  (∀ i, txs' i = if decide (tx_id tx = i) then Some (tx, st) else txs i) → no_collisions txs (tx :: l) → no_collisions txs' l.
Proof.
  intros Htx [Hr Hp]. split; [|intros t t' Ht Ht'; apply Hp; by right].
  intros t Ht t' st' Ht'. rewrite Htx in Ht'. case_decide as Heq.
  - injection Ht' as <- _. apply Hp; [left|by right|done].
  - eapply Hr; [by right|done].
Qed.

Definition sent (txs : list PlatformTxs.Tx) : Z := sumZ ((λ tx, exported AVAX (tx_Unsigned tx)) <$> txs).

Lemma execute_all_inputs txs (b b' : batch (C := C) (P := P) (U := U) (X := ledger_diff X)) :
  execute_all Implements registered SharedMemory_Get SNLookup_SubnetID e b txs = Some (Ok b') → bt_Inputs b ⊆ bt_Inputs b'.
Proof.
  revert b. induction txs as [|tx txs IH]; intros b Hex; cbn [execute_all] in Hex; [by injection Hex as <-|].
  peel Hex x Hx. apply lift2_Ok in Hx. peel Hex u Hover. apply IH in Hex. cbn [bt_Inputs] in Hex. set_solver.
Qed.

(** [I] has been taken from the memory before. *)
Lemma execute_all_books (E : Z) (I : gset ID) spc spp txs (b b' : batch (C := C) (P := P) (U := U) (X := ledger_diff X)) :
  fees_ok (be_Config e) → is_u64 (cfg_TxFee (be_Config e)) → be_Bootstrapped e = true → memory_holds →
  no_collisions (txs_of (ch_ledger (bt_State b))) txs → Forall (λ tx, standard_fits (tx_Unsigned tx)) txs →
  books cfg (be_Ctx e) (E + map_supply (rest M (I ∪ bt_Inputs b)) AVAX) (bt_State b) spc spp →
  (∀ c k, removed c k (bt_AtomicRequests b) ↔ keys_of (bt_Inputs b) c k) →
  execute_all Implements registered SharedMemory_Get SNLookup_SubnetID e b txs = Some (Ok b') → I ## bt_Inputs b' →
  books cfg (be_Ctx e) (E + sent txs + map_supply (rest M (I ∪ bt_Inputs b')) AVAX) (bt_State b') spc spp ∧
  frame (bt_State b) (bt_State b') ∧ bt_Inputs b ⊆ bt_Inputs b' ∧
  (∀ c k, removed c k (bt_AtomicRequests b') ↔ keys_of (bt_Inputs b') c k) ∧ ∀ i, i ∈ bt_Inputs b' → i ∈ bt_Inputs b ∨ is_Some (M !! i).
Proof.
  intros Hfees Hfee Hboot Hmem. revert E b. induction txs as [|tx txs IH]; intros E b Hnc Hfit Hbk Hrm Hex Hdis; cbn [execute_all] in Hex.
  { injection Hex as <-. unfold sent. rewrite fmap_nil, sumZ_nil, Z.add_0_r. split_and!; try done. by left. }
  peel Hex x Hx. apply lift2_Ok in Hx. peel Hex u Hover. apply check_Ok, negb_false_iff, bool_decide_eq_true in Hover. apply Forall_cons in Hfit as [Hf Hfit].
  assert (bt_Inputs b ∪ ex_Inputs x ⊆ bt_Inputs b') as Hmono by (eapply execute_all_inputs in Hex; done).
  destruct (standard_leaves E (I ∪ bt_Inputs b) (bt_State b) spc spp tx status_Committed Hbk (no_collisions_head _ _ _ Hnc) Hfees Hfee Hboot Hmem x Hf) as [Hbk' Hfr Htxs _ Hrm' Hth];
    [set_solver|done|].
  eapply (IH (E + exported AVAX (tx_Unsigned tx))) in Hex as (Hb&Hfr'&_&Hr&Hth').
  - split_and!; [|eapply chain_frame_trans; [exact Hfr|]; eapply chain_frame_trans; [|exact Hfr'] |set_solver|done|].
    + unfold sent in *. rewrite fmap_cons, sumZ_cons. rewrite Z.add_assoc. exact Hb.
    + split; try done. intros p. by apply ledger_over_AddTx.
    + intros i Hi. destruct (Hth' i Hi) as [Hi'|?]; [|by right]. cbn [bt_Inputs] in Hi'. apply elem_of_union in Hi' as [?|?]; [by left|right; by apply Hth].
  - eapply no_collisions_tail; [|exact Hnc]. intros i. cbn [bt_State].
    assert (ld_ok (ch_ledger (ex_State x))) as Hok by apply Hbk'.
    etrans; [by apply (ld_AddTx_spec tx status_Committed)|]. case_decide; [done|apply Htxs].
  - done.
  - cbn [bt_Inputs bt_State]. rewrite (assoc_L (∪)). exact Hbk'.
  - intros c k. cbn [bt_AtomicRequests bt_Inputs]. rewrite Hrm', Hrm. unfold keys_of. set_solver.
  - done.
Qed.
End standard.

Section theorem.
Context `{Crypto} `{GoRange, GoSort, GoAppend} (Implements : gotype → positive → bool) (registered : linearCodec).
Context `{BTree, !BTreeLaws} {C P U X : Type}.
Context `{!StakerSet C, !StakerSetLaws C, !StakerSet P, !StakerSetLaws P, !UTXOSet U, !UTXOSetLaws U, !Ledger X, !LedgerLaws X}.
Context (SharedMemory_Get : ID → list bytes → option (list bytes)) (SNLookup_SubnetID : ID → option ID).
Context (e : Backend) (cfg : RewardConfig) (M : gmap ID UTXO) (origin : ID → ID) (ps : chain C P U X).

Abbreviation AVAX := (ctx_AVAXAssetID (be_Ctx e)).

Lemma new_diff_books el spc spp : books cfg (be_Ctx e) el ps spc spp → books cfg (be_Ctx e) el (new_diff ps) spc spp.
Proof.
  intros [Hc Hp Hu Hl Hac]. destruct (new_ledger _ Hl) as [Hl' Hsame].
  split; [by apply (represents_run _ spc [])|by apply (represents_run _ spp [])|by apply new_diff_ok|done|].
  cbn [new_diff ch_utxos ch_ledger ch_currentSupply]. rewrite new_diff_supply. eapply accounts_extend; [|split; [by apply supply_nonneg|done]|exact Hac].
  intros i t st Ht. exists t, st. by rewrite Hsame.
Qed.

Lemma frame_grown spc spp d : frame (new_diff ps) d → grown ps spc spp d spc spp.
Proof.
  intros Hfr. pose proof (new_diff_grown ps spc spp) as [Gc Gp Gu Gl].
  split; [rewrite (fr_current _ _ Hfr); exact Gc|rewrite (fr_pending _ _ Hfr); exact Gp| |by apply (fr_ledger _ _ Hfr)].
  eapply utxos_over_moves; [apply (fr_utxos _ _ Hfr)|exact Gu].
Qed.

(** The state a block leaves grows over its parent, with what the ancestors [I] have
    imported already. *)
Lemma standard_grown E (I : gset ID) spc spp txs b :
  fees_ok (be_Config e) → is_u64 (cfg_TxFee (be_Config e)) → be_Bootstrapped e = true → memory_holds Implements registered SharedMemory_Get M origin →
  no_collisions (txs_of (ch_ledger ps)) txs → Forall (λ tx, standard_fits (tx_Unsigned tx)) txs →
  books cfg (be_Ctx e) (E + map_supply (rest M I) AVAX) ps spc spp →
  execute_block Implements registered SharedMemory_Get SNLookup_SubnetID e (Some ps) txs = Some (Ok b) → I ## bt_Inputs b →
  grown_books cfg (be_Ctx e) (E + sent e txs + map_supply (rest M (I ∪ bt_Inputs b)) AVAX) ps spc spp (bt_State b) ∧
  frame (new_diff ps) (bt_State b) ∧
  (∀ c k, removed c k (bt_AtomicRequests b) ↔ keys_of origin (bt_Inputs b) c k) ∧ ∀ i, i ∈ bt_Inputs b → is_Some (M !! i).
Proof.
  intros Hfees Hfee Hboot Hmem Hnc Hfit Hbk Hex Hdis. unfold execute_block in Hex. peel Hex d Hd. injection Hd as <-.
  eapply (execute_all_books Implements registered SharedMemory_Get SNLookup_SubnetID e cfg M origin E I spc spp) in Hex as (Hb&Hfr&_&Hrm&Hth); try done.
  - split_and!; [|done|done|intros i Hi; destruct (Hth i Hi) as [Hi'|?]; [set_solver|done]]. exists spc, spp. split; [by apply frame_grown|exact Hb].
  - cbn [bt_Inputs bt_State]. rewrite (right_id_L ∅ (∪)). by apply new_diff_books.
  - intros c k. cbn. unfold keys_of. split; [|set_solver]. intros (r&Hc&_). by rewrite lookup_empty in Hc.
Qed.

Lemma requests_map (l : list (ID * Requests)) : (length l ≤ 1)%nat → list_to_map l = foldl merge_requests (∅ : gmap ID Requests) l.
Proof. destruct l as [|[c r] [|? ?]]; simpl; intros Hl; [done| |lia]. by rewrite lookup_empty. Qed.

(** The same for an atomic transaction. *)
Lemma atomic_grown E (I : gset ID) spc spp tx x :
  fees_ok (be_Config e) → is_u64 (cfg_TxFee (be_Config e)) → be_Bootstrapped e = true → memory_holds Implements registered SharedMemory_Get M origin →
  records tx (txs_of (ch_ledger ps)) → standard_fits (tx_Unsigned tx) →
  books cfg (be_Ctx e) (E + map_supply (rest M I) AVAX) ps spc spp →
  AtomicTxExecutor Implements registered SharedMemory_Get SNLookup_SubnetID e (Some ps) tx = Some (Ok x) → I ## ex_Inputs x →
  grown_books cfg (be_Ctx e) (E + exported AVAX (tx_Unsigned tx) + map_supply (rest M (I ∪ ex_Inputs x)) AVAX) ps spc spp (on_ledger (AddTx tx status_Committed) (ex_State x)) ∧
  (∀ c k, removed c k (list_to_map (ex_AtomicRequests x)) ↔ keys_of origin (ex_Inputs x) c k) ∧ ∀ i, i ∈ ex_Inputs x → is_Some (M !! i).
Proof.
  intros Hfees Hfee Hboot Hmem Hrec Hfit Hbk Hex Hdis.
  assert (StandardTxExecutor Implements registered SharedMemory_Get SNLookup_SubnetID e (new_diff ps) tx = Some (Ok x)) as Hstd.
  { unfold AtomicTxExecutor in Hex. destruct (tx_Unsigned tx); try done; peel Hex d Hd; by injection Hd as <-. }
  destruct (standard_leaves Implements registered SharedMemory_Get SNLookup_SubnetID e cfg M origin E I (new_diff ps) spc spp tx status_Committed) with (x := x)
    as [Hb Hfr Htxs Hone Hrm Hth]; [by apply new_diff_books| |done..|].
  - destruct (new_ledger _ (bk_ledger _ _ _ _ _ _ Hbk)) as [_ Hsame]. intros t st Ht. eapply Hrec. by rewrite <-Hsame.
  - split_and!; [| |exact Hth].
    + exists spc, spp. split; [|exact Hb]. apply frame_grown. destruct Hfr as [F1 F2 F3 F4 F5 F6]. split; try done. intros p Hp. by apply ledger_over_AddTx, F6.
    + intros c k. rewrite (requests_map _ Hone), Hrm. split; [|by right]. intros [(r&Hc&_)|Hk]; [by rewrite lookup_empty in Hc|done].
Qed.

Lemma sent_nonneg txs : Forall (λ tx, standard_fits (tx_Unsigned tx)) txs → 0 ≤ sent e txs.
Proof.
  intros Hf. apply sumZ_nonneg, Forall_fmap. eapply Forall_impl; [exact Hf|]. intros tx. simpl. by apply exported_nonneg.
Qed.

(** C38: A standard block keeps the books.  Let the AVAX in the chain's unspent outputs,
    staked, promised, in the shared memory and on other chains be at most the
    recorded supply, and the rest of the books be in order.  When the executor
    accepts the transactions of a block, one after the other, the same holds of the
    state they leave, with what they export counted on the other chains and without
    what they import in the memory: no output is imported twice, none is worth more
    than it was, and the fees are gone.  The stakers, the time and the supply are as
    they were, what is imported is in the memory, and the keys it is asked to remove
    are those of the outputs imported, each of the chain that sent it. *)
Theorem standard_block_keeps_books E txs b :
  node_ok e cfg → fees_ok (be_Config e) → memory_holds Implements registered SharedMemory_Get M origin →
  no_collisions (txs_of (ch_ledger ps)) txs → Forall (λ tx, standard_fits (tx_Unsigned tx)) txs →
  balanced cfg (be_Ctx e) (E + map_supply M AVAX) ps →
  execute_block Implements registered SharedMemory_Get SNLookup_SubnetID e (Some ps) txs = Some (Ok b) →
  balanced cfg (be_Ctx e) (E + sent e txs + map_supply (rest M (bt_Inputs b)) AVAX) (bt_State b) ∧
  frame (new_diff ps) (bt_State b) ∧
  (∀ c k, removed c k (bt_AtomicRequests b) ↔ keys_of origin (bt_Inputs b) c k) ∧ ∀ i, i ∈ bt_Inputs b → is_Some (M !! i).
Proof.
  intros Hnode Hfees Hmem Hnc Hfit (spc&spp&Hbk) Hex.
  destruct (standard_grown E ∅ spc spp txs b) as ((spc'&spp'&_&Hb)&Hfr&Hrm&Hth); [done|apply Hnode|apply Hnode|done|done|done| |done|set_solver|].
  - by rewrite rest_empty.
  - rewrite (left_id_L ∅ (∪)) in Hb. split; [by exists spc', spp'|done].
Qed.
End theorem.

(** ** 4 are imported, of which 3 arrive *)

Section example.
#[local] Existing Instances toy_crypto list_BTree list_BTreeLaws go_range_std go_sort_std go_append_tight.
Abbreviation implements := (λ (_ : gotype) (_ : positive), true).

Definition ex_registered : linearCodec := (linear_RegisterType (TPtr transferOutput_type) (linear_SkipRegistrations 2 linear_New)).2.
Definition ex_foreign : UTXO := mkUTXO (mkUTXOID (id1 x07) 0) ex_asset (ex_out 4).
Definition ex_memory : gmap ID UTXO := {[ utxo_InputID ex_foreign := ex_foreign ]}.
Definition ex_foreign_bytes : bytes := match Marshal_UTXO implements ex_registered ex_foreign with Some (Ok b) => b | _ => [] end.
Definition ex_get (source : ID) (keys : list bytes) : option (list bytes) :=
  mapM (λ k, if decide (source = id1 x0c ∧ k = id_bytes (utxo_InputID ex_foreign)) then Some ex_foreign_bytes else None) keys.
Definition ex_import : Tx :=
  mkTx (uImport (mkImportTx (mkBaseTx 1 (id1 x0b) [mkTOut ex_asset (ex_out 3)] [] [] false [x09]) (id1 x0c)
    [mkTIn (mkUTXOID (id1 x07) 0) ex_asset (ifTransferInput (Some (mkTransferInput 4 (mkInput [0]))))]))
    [ifCredential (Some (sign [x09] [ex_key]))] (id1 x04).
Definition ex_block := execute_block implements ex_registered ex_get (λ _, Some PrimaryNetworkID) (ex_backend (10 * Second)) (Some (ex_chain (10 * Second))) [ex_import].
Definition ex_imported : bool := match ex_block with Some (Ok _) => true | _ => false end.

Lemma ex_memory_holds : memory_holds implements ex_registered ex_get ex_memory (λ _, id1 x0c).
Proof.
  split.
  - intros i u. unfold ex_memory. intros [_ <-]%lookup_singleton_Some. intros x [= <-]. unfold is_uint. lia.
  - intros source keys. unfold ex_get. induction keys as [|k keys IH]; intros bs us Hget Hun.
    { injection Hget as <-. injection Hun as <-. constructor. }
    cbn [mapM length] in Hget, Hun. apply bind_Some in Hget as (b&Hb&Hget). case_decide as Hk; [|done]. destruct Hk as [-> Hk]. apply (inj Some) in Hb; subst b.
    apply bind_Some in Hget as (bs'&Hbs&Hget). injection Hget as <-. cbn [unmarshal_all] in Hun.
    assert (Unmarshal_UTXO implements ex_registered ex_foreign_bytes = Some (Ok ex_foreign)) as Hu by (vm_compute; reflexivity).
    rewrite Hu in Hun. cbn [pr_bind] in Hun. peel Hun us' Hus. injection Hun as <-. constructor; [|by eapply IH].
    exists (utxo_InputID ex_foreign). split; [done|]. split; [|done]. unfold ex_memory. apply lookup_singleton_eq.
Qed.

Lemma ex_import_fits : standard_fits (tx_Unsigned ex_import).
Proof.
  unfold ex_import. cbn [tx_Unsigned standard_fits im_Base im_ImportedInputs btx_Outs]. unfold distinct_inputs. cbn [btx_Ins].
  rewrite list_fmap_singleton, fmap_nil. split; [|split; [apply NoDup_nil_2|apply NoDup_singleton]].
  apply Forall_singleton. intros y [= <-]. unfold is_uint. lia.
Qed.

Lemma standard_block_keeps_books_witness :
  ∃ b, ex_block = Some (Ok b) ∧ balanced ex_rewards ex_ctx (1 + sent (ex_backend (10 * Second)) [ex_import] + map_supply (rest ex_memory (bt_Inputs b)) ex_asset) (bt_State b).
Proof.
  assert (ex_imported = true) as Hok by (vm_compute; reflexivity). unfold ex_imported in Hok. destruct ex_block as [[b|]|] eqn:Hex; [|done..].
  exists b. split; [done|].
  apply (standard_block_keeps_books implements ex_registered ex_get (λ _, Some PrimaryNetworkID) (ex_backend (10 * Second)) ex_rewards ex_memory (λ _, id1 x0c)
    (ex_chain (10 * Second)) 1 [ex_import] b).
  - split; [apply ex_rewards_ok|done|vm_compute; done|done|unfold is_uint; simpl; lia|unfold is_uint; simpl; lia|done].
  - split; unfold is_uint; simpl; lia.
  - apply ex_memory_holds.
  - split; [|intros t t' ->%list_elem_of_singleton ->%list_elem_of_singleton; done].
    intros t ->%list_elem_of_singleton. intros t' st Ht. exfalso. revert Ht. vm_compute. done.
  - apply Forall_singleton, ex_import_fits.
  - assert (map_supply ex_memory (ctx_AVAXAssetID (be_Ctx (ex_backend (10 * Second)))) = 4) as ->.
    { unfold map_supply, ex_memory. rewrite map_to_list_singleton. reflexivity. }
    exists (one_validator ex_active), (one_validator ex_waiting). apply ex_books.
  - exact Hex.
Defined.
End example.
