(* ===== verification/BlockManager.v ===== *)
(** The blocks of the platform chain: verified, accepted and rejected
    (src/vms/platformvm/blocks: common_block.go, option_blocks.go and the like;
    blocks/executor: backend.go, block_state.go, verifier.go, acceptor.go,
    rejector.go, block.go).

    A block that is being decided keeps differences over the state of its parent,
    which it finds by the identifier of the parent whenever it is asked: the state
    on disk, or the difference of another block.  Accepting a block applies its
    difference to the state on disk.

    None is a panic.  Writing to the database does not fail; logs, metrics and the
    window of recently accepted blocks are left out. *)

From Stdlib Require Import Strings.Byte Strings.String.
From S2P Require Import Topological.
From S2P Require Import Prelude SafeMath Ids NodeBag Packer Database CodecTypes Codec LinkedDB GoStd Secp256k1fx Utxo PlatformUtxo PlatformTxs.
From S2P Require Import GoHeap Stakers StakerIters StakerSets StakerDiff StakerApply Reward PlatformState ProposalExecutor StandardExecutor.
#[local] Open Scope node_scope.

(** ** Blocks *)

Inductive block_kind :=
| ProposalBlock (tx : Tx)
| AtomicBlock (tx : Tx)
| StandardBlock (txs : list Tx)
| CommitBlock
| AbortBlock.

(** A block with its [CommonBlock]. *)
Record block := mkBlock { blk_id : ID; blk_PrntID : ID; blk_Hght : Z; blk_kind : block_kind }.

Definition blk_Txs (b : block) : list Tx :=
  match blk_kind b with
  | ProposalBlock tx | AtomicBlock tx => [tx]
  | StandardBlock txs => txs
  | CommitBlock | AbortBlock => []
  end.

(** ** What blocks are decided with *)

(** [mempool.Mempool], as far as blocks call it. *)
Class Mempool (M : Type) : Type := {
  mempool_Add : Tx → M → M;
  RemoveProposalTx : Tx → M → M;
  RemoveDecisionTxs : list Tx → M → M;
  MarkDropped : ID → M → M;
}.

(** [atomic.SharedMemory] of this chain. *)
Class SharedMemory (S : Type) : Type := {
  sm_Get : S → ID → list bytes → option (list bytes);
  sm_Apply : gmap ID Requests → S → option S;
}.

(** ** States by identifier *)

(** A difference without the states it refers to. *)
Abbreviation flat := (chain diffStakers diffStakers (gmap ID (option UTXO)) (ledger_diff Empty_set)).

Definition ld_attach {X Y} (parent : option Y) (d : ledger_diff X) : ledger_diff Y :=
  mkLedgerDiff (ld_addedSubnets d) (ld_cachedSubnets d) (ld_addedChains d) (ld_cachedChains d) (ld_addedTxs d) (ld_addedRewardUTXOs d) parent.

Section attach.
Context `{BTree} {C P U X : Type}.

Definition detach (d : chain_diff C P U X) : flat :=
  mkChain (ch_timestamp d) (ch_currentSupply d) (sd_diffs (ch_current d)) (sd_diffs (ch_pending d))
    (modifiedUTXOs (ch_utxos d)) (ld_attach None (ch_ledger d)).

Definition attach (f : flat) (parent : option (chain C P U X)) : chain_diff C P U X :=
  mkChain (ch_timestamp f) (ch_currentSupply f) (mkStakersDiff (ch_current f) (ch_current <$> parent)) (mkStakersDiff (ch_pending f) (ch_pending <$> parent))
    (PlatformUtxo.mkDiff (ch_utxos f) (ch_utxos <$> parent)) (ld_attach (ch_ledger <$> parent) (ch_ledger f)).
End attach.

(** [state.Diff]: what it changes, and the block whose state it is over. *)
Record block_diff `{BTree} := mkBlockDiff { bd_parentID : ID; bd_diff : flat }.

Arguments mkBlockDiff {_} _ _.

(** A chain that is so many differences above the state on disk. *)
Section versions.
Context `{Crypto} `{BTree} {U X : Type} {outputs : UTXOSet U} {ledger : Ledger X}.

Fixpoint stakers_at (n : nat) : Type := match n with O => baseStakers | S n => stakers_diff (stakers_at n) end.
Fixpoint utxos_at (n : nat) : Type := match n with O => U | S n => PlatformUtxo.diff (utxos_at n) end.
Fixpoint ledger_at (n : nat) : Type := match n with O => X | S n => ledger_diff (ledger_at n) end.

#[export] Instance stakers_at_StakerSet : ∀ n, StakerSet (stakers_at n) :=
  fix go n := match n with O => base_StakerSet | S n => @sd_StakerSet _ (go n) _ end.
#[export] Instance utxos_at_UTXOSet : ∀ n, UTXOSet (utxos_at n) :=
  fix go n := match n with O => outputs | S n => @diff_UTXOSet _ _ (go n) end.
#[export] Instance ledger_at_Ledger : ∀ n, Ledger (ledger_at n) :=
  fix go n := match n with O => ledger | S n => @diff_Ledger _ (go n) end.

Definition chain_at (n : nat) : Type := chain (stakers_at n) (stakers_at n) (utxos_at n) (ledger_at n).
Definition version : Type := { n & chain_at n }.

(** A difference over a state that may be missing. *)
Definition version_over (f : flat) (parent : option version) : version :=
  match parent with
  | Some (existT n ps) => existT (S n) (attach f (Some ps))
  | None => existT 1%nat (attach f None)
  end.
End versions.

Arguments chain_at {_} U X n : rename.
Arguments version {_} U X : rename.

(** ** The manager *)

Record blockState `{BTree} := mkBlockState {
  bs_statelessBlock : block;
  bs_onAcceptState : option block_diff;
  bs_onCommitState : option block_diff;
  bs_onAbortState : option block_diff;
  bs_initiallyPreferCommit : bool;
  bs_inputs : gset ID;
  bs_timestamp : Z;
  bs_atomicRequests : gmap ID Requests;
  bs_onAcceptFunc : list (ID * CreateChainTx);
}.

Arguments mkBlockState {_} _ _ _ _ _ _ _ _ _.

(** What blocks use of [state.State]. *)
Record State `{BTree} (U X : Type) := mkState {
  s_chain : chain baseStakers baseStakers U X;
  s_lastAccepted : ID;
  s_height : Z;
  s_blocks : gmap ID (block * Topological.Status);
}.
Arguments mkState {_ U X} _ _ _ _.
Arguments s_chain {_ U X} _.
Arguments s_lastAccepted {_ U X} _.
Arguments s_height {_ U X} _.
Arguments s_blocks {_ U X} _.

(** [backend]; the chains that were created and the shared memory are kept with it. *)
Record backend `{BTree} (U X M S : Type) := mkBackend {
  bk_Mempool : M;
  bk_lastAccepted : ID;
  bk_blkIDToState : gmap ID blockState;
  bk_state : State U X;
  bk_memory : S;
  bk_created : list (ID * CreateChainTx);
}.
Arguments mkBackend {_ U X M S} _ _ _ _ _ _.
Arguments bk_Mempool {_ U X M S} _.
Arguments bk_lastAccepted {_ U X M S} _.
Arguments bk_blkIDToState {_ U X M S} _.
Arguments bk_state {_ U X M S} _.
Arguments bk_memory {_ U X M S} _.
Arguments bk_created {_ U X M S} _.

Inductive block_error :=
| errNoBlock
| errUnexpectedHeight
| errNoBlockState
| errBlockTx (e : executor_error)
| errBlockBatch (e : batch_error)
| errBlockAtomic (e : standard_error)
| errAfterApricotPhase5
| errConflictingParentTxs
| errSharedMemoryApply
| errNotOracle | errOptionBlock.

Section manager.
Context `{Crypto} `{GoRange, GoSort, GoAppend} (Implements : gotype → positive → bool) (registered : linearCodec).
Context `{BTree} {U X M S : Type} `{!UTXOSet U, !Ledger X, !Mempool M, !SharedMemory S}.
Context (SNLookup_SubnetID : ID → option ID).
#[local] Hint Extern 0 (TypeCodec linearCodec) => exact (linear_TypeCodec Implements) : typeclass_instances.
Abbreviation Backend := (backend U X M S).
Implicit Types B : Backend.

Definition on_mempool (f : M → M) B : Backend :=
  mkBackend (f (bk_Mempool B)) (bk_lastAccepted B) (bk_blkIDToState B) (bk_state B) (bk_memory B) (bk_created B).
Definition put_block (blkID : ID) (s : blockState) B : Backend :=
  mkBackend (bk_Mempool B) (bk_lastAccepted B) (<[blkID := s]> (bk_blkIDToState B)) (bk_state B) (bk_memory B) (bk_created B).
Definition free (blkID : ID) B : Backend :=
  mkBackend (bk_Mempool B) (bk_lastAccepted B) (delete blkID (bk_blkIDToState B)) (bk_state B) (bk_memory B) (bk_created B).
Definition set_lastAccepted (blkID : ID) B : Backend :=
  mkBackend (bk_Mempool B) blkID (bk_blkIDToState B) (bk_state B) (bk_memory B) (bk_created B).
Definition on_state (f : State U X → State U X) B : Backend :=
  mkBackend (bk_Mempool B) (bk_lastAccepted B) (bk_blkIDToState B) (f (bk_state B)) (bk_memory B) (bk_created B).
Definition set_memory (m : S) B : Backend :=
  mkBackend (bk_Mempool B) (bk_lastAccepted B) (bk_blkIDToState B) (bk_state B) m (bk_created B).
Definition create_chains (fs : list (ID * CreateChainTx)) B : Backend :=
  mkBackend (bk_Mempool B) (bk_lastAccepted B) (bk_blkIDToState B) (bk_state B) (bk_memory B) (bk_created B ++ fs).

Definition AddStatelessBlock (b : block) (status : Topological.Status) (s : State U X) : State U X :=
  mkState (s_chain s) (s_lastAccepted s) (s_height s) (<[blk_id b := (b, status)]> (s_blocks s)).
Definition with_chain (c : chain baseStakers baseStakers U X) (s : State U X) : State U X :=
  mkState c (s_lastAccepted s) (s_height s) (s_blocks s).

(** [backend.GetState], which every access to a difference calls again for its
    parent: the heights go down, so the height of the block bounds the calls. *)
Fixpoint state_of (fuel : nat) B (blkID : ID) : option (version U X) :=
  match bk_blkIDToState B !! blkID with
  | Some state =>
      match bs_onAcceptState state with
      | Some d =>
          Some (version_over (bd_diff d) (match fuel with O => None | Datatypes.S fuel => state_of fuel B (bd_parentID d) end))
      | None => None
      end
  | None => if decide (blkID = s_lastAccepted (bk_state B)) then Some (existT 0%nat (s_chain (bk_state B))) else None
  end.

Definition height_fuel B (blkID : ID) : nat :=
  match bk_blkIDToState B !! blkID with Some state => Datatypes.S (Z.to_nat (blk_Hght (bs_statelessBlock state))) | None => 0%nat end.

Definition backend_GetState B (blkID : ID) : option (version U X) := state_of (height_fuel B blkID) B blkID.

Definition backend_GetBlock B (blkID : ID) : option block :=
  match bk_blkIDToState B !! blkID with
  | Some blk => Some (bs_statelessBlock blk)
  | None => fst <$> s_blocks (bk_state B) !! blkID
  end.

(** ** The verifier *)

Definition outcome : Type := option (Backend * result block_error unit).
Definition fails B (err : block_error) : outcome := Some (B, Err err).
Definition done B : outcome := Some (B, Ok tt).

(** The check every block starts with; a block that is there already has been
    verified. *)
Definition unless_verified B (b : block) (verify : outcome) : outcome :=
  match bk_blkIDToState B !! blk_id b with
  | Some _ => done B
  | None =>
      match backend_GetBlock B (blk_PrntID b) with
      | None => fails B errNoBlock
      | Some parent => if decide (wrap64 (blk_Hght parent + 1) ≠ blk_Hght b) then fails B errUnexpectedHeight else verify
      end
  end.

(** [verifyUniqueInputs]: the loop over the ancestors that are in memory. *)
Fixpoint conflicts (fuel : nat) B (parentID : ID) (inputs : gset ID) : option (result block_error unit) :=
  match bk_blkIDToState B !! parentID with
  | None => Some (Ok tt)
  | Some parentState =>
      if decide (¬ bs_inputs parentState ## inputs) then Some (Err errConflictingParentTxs)
      else match fuel with
        | O => None
        | Datatypes.S fuel => conflicts fuel B (blk_PrntID (bs_statelessBlock parentState)) inputs
        end
  end.

Definition verifyUniqueInputs B (b : block) (inputs : gset ID) : option (result block_error unit) :=
  if decide (inputs = ∅) then Some (Ok tt) else conflicts (height_fuel B (blk_PrntID b)) B (blk_PrntID b) inputs.

(** What the executors are given for the parent. *)
Definition parent_state B (b : block) : { n & option (chain_at U X n) } :=
  match backend_GetState B (blk_PrntID b) with Some (existT n ps) => existT n (Some ps) | None => existT 0%nat None end.

Definition verify_ProposalBlock (e : ProposalExecutor.Backend) (b : block) (tx : Tx) B : outcome :=
  unless_verified B b (
    let '(existT n parentState) := parent_state B b in
    match ProposalTxExecutor Implements registered e parentState tx with
    | None => None
    | Some (Err err) => fails (on_mempool (MarkDropped (tx_id tx)) B) (errBlockTx err)
    | Some (Ok txExecutor) =>
        let onCommit := onCommitState txExecutor tx in
        let onAbort := onAbortState txExecutor tx in
        done (on_mempool (RemoveProposalTx tx)
          (put_block (blk_id b)
            (mkBlockState b None (Some (mkBlockDiff (blk_PrntID b) (detach onCommit))) (Some (mkBlockDiff (blk_PrntID b) (detach onAbort)))
              (PrefersCommit txExecutor) ∅ (ch_timestamp onAbort) ∅ []) B))
    end).

Definition verify_AtomicBlock (e : ProposalExecutor.Backend) (b : block) (tx : Tx) B : outcome :=
  unless_verified B b (
    match backend_GetState B (blk_PrntID b) with
    | None => fails B errNoBlockState
    | Some (existT n parentState) =>
        if decide (cfg_ApricotPhase5Time (be_Config e) ≤ ch_timestamp parentState) then fails B errAfterApricotPhase5
        else
          match AtomicTxExecutor Implements registered (sm_Get (bk_memory B)) SNLookup_SubnetID e (Some parentState) tx with
          | None => None
          | Some (Err err) => fails (on_mempool (MarkDropped (tx_id tx)) B) (errBlockAtomic err)
          | Some (Ok atomicExecutor) =>
              let onAccept := on_ledger (AddTx tx status_Committed) (ex_State atomicExecutor) in
              match verifyUniqueInputs B b (ex_Inputs atomicExecutor) with
              | None => None
              | Some (Err err) => fails B err
              | Some (Ok _) =>
                  done (on_mempool (RemoveDecisionTxs [tx])
                    (put_block (blk_id b)
                      (mkBlockState b (Some (mkBlockDiff (blk_PrntID b) (detach onAccept))) None None false (ex_Inputs atomicExecutor)
                        (ch_timestamp onAccept) (list_to_map (ex_AtomicRequests atomicExecutor)) []) B))
              end
          end
    end).

(** A transaction that fails is dropped. *)
Definition drop_failed (err : batch_error) B : Backend :=
  match err with errBatchTx txID _ => on_mempool (MarkDropped txID) B | _ => B end.

Definition verify_StandardBlock (e : ProposalExecutor.Backend) (b : block) (txs : list Tx) B : outcome :=
  unless_verified B b (
    let '(existT n parentState) := parent_state B b in
    match execute_block Implements registered (sm_Get (bk_memory B)) SNLookup_SubnetID e parentState txs with
    | None => None
    | Some (Err err) => fails (drop_failed err B) (errBlockBatch err)
    | Some (Ok batch) =>
        match verifyUniqueInputs B b (bt_Inputs batch) with
        | None => None
        | Some (Err err) => fails B err
        | Some (Ok _) =>
            done (on_mempool (RemoveDecisionTxs txs)
              (put_block (blk_id b)
                (mkBlockState b (Some (mkBlockDiff (blk_PrntID b) (detach (bt_State batch)))) None None false (bt_Inputs batch)
                  (ch_timestamp (bt_State batch)) (bt_AtomicRequests batch) (bt_OnAccept batch)) B))
        end
    end).

(** A commit or an abort takes the difference its parent has for it; that the parent
    is no proposal is a nil dereference. *)
Definition verify_option (chosen : blockState → option block_diff) (b : block) B : outcome :=
  unless_verified B b (
    match bk_blkIDToState B !! blk_PrntID b with
    | None => fails B errNoBlockState
    | Some parentState =>
        match chosen parentState with
        | None => None
        | Some onAcceptState =>
            done (put_block (blk_id b) (mkBlockState b (Some onAcceptState) None None false ∅ (ch_timestamp (bd_diff onAcceptState)) ∅ []) B)
        end
    end).

Definition Verify (e : ProposalExecutor.Backend) (b : block) B : outcome :=
  match blk_kind b with
  | ProposalBlock tx => verify_ProposalBlock e b tx B
  | AtomicBlock tx => verify_AtomicBlock e b tx B
  | StandardBlock txs => verify_StandardBlock e b txs B
  | CommitBlock => verify_option bs_onCommitState b B
  | AbortBlock => verify_option bs_onAbortState b B
  end.

(** ** The acceptor *)

Definition commonAccept (b : block) B : Backend :=
  on_state (λ s, AddStatelessBlock b Topological.Accepted (mkState (s_chain s) (blk_id b) (blk_Hght b) (s_blocks s)))
    (set_lastAccepted (blk_id b) B).

(** [blkState.onAcceptState.Apply(a.state)]; no difference is a nil dereference. *)
Definition apply_accepted (blkState : blockState) B : option Backend :=
  d ← bs_onAcceptState blkState;
  c ← diff_Apply (s_chain (bk_state B)) (attach (bd_diff d) None);
  Some (on_state (with_chain c) B).

Definition accept_decision (b : block) B : outcome :=
  let B := commonAccept b B in
  match bk_blkIDToState B !! blk_id b with
  | None => fails (free (blk_id b) B) errNoBlockState
  | Some blkState =>
      B ← apply_accepted blkState B;
      match sm_Apply (bs_atomicRequests blkState) (bk_memory B) with
      | None => fails (free (blk_id b) B) errSharedMemoryApply
      | Some memory => done (free (blk_id b) (create_chains (bs_onAcceptFunc blkState) (set_memory memory B)))
      end
  end.

Definition accept_option (b : block) B : outcome :=
  match bk_blkIDToState B !! blk_PrntID b with
  | None => fails B errNoBlockState
  | Some parentState =>
      let freed B := free (blk_id b) (free (blk_PrntID b) B) in
      let B := commonAccept b (commonAccept (bs_statelessBlock parentState) B) in
      match bk_blkIDToState B !! blk_id b with
      | None => fails (freed B) errNoBlockState
      | Some blkState => B ← apply_accepted blkState B; done (freed B)
      end
  end.

Definition Accept (b : block) B : outcome :=
  match blk_kind b with
  | ProposalBlock _ => done (set_lastAccepted (blk_id b) B)
  | AtomicBlock _ | StandardBlock _ => accept_decision b B
  | CommitBlock | AbortBlock => accept_option b B
  end.

(** ** The rejector *)

Definition Reject (b : block) B : Backend :=
  free (blk_id b) (on_state (AddStatelessBlock b Topological.Rejected) (on_mempool (λ m, foldl (λ m tx, mempool_Add tx m) m (blk_Txs b)) B)).

(** ** What the engine asks a block *)

Definition Status B (b : block) : Topological.Status :=
  if decide (bk_lastAccepted B = blk_id b) then Topological.Accepted
  else match bk_blkIDToState B !! blk_id b with
  | Some _ => Topological.Processing
  | None => match s_blocks (bk_state B) !! blk_id b with Some (_, status) => status | None => Topological.Processing end
  end.

(** The blocks that decide a proposal, the preferred one first.  Their identifiers
    are hashes of what the codec makes of them. *)
Definition commonBlock_type : gotype := TStruct "CommonBlock"
  [(serialized "PrntID", id_type); (serialized "Hght", TUint W64); (mkFieldInfo "id" false [], id_type); (mkFieldInfo "bytes" false [], TSlice (TUint W8))].
Definition option_type (name : string) : gotype := TStruct name [(serialized "CommonBlock", commonBlock_type)].
Definition Block_type : gotype := TInterface 3.

Definition option_value (name : string) (parentID : ID) (height : Z) : govalue :=
  VInterface (TPtr (option_type name)) (VPtr (VStruct [VStruct [id_value parentID; VInt height; id_value Empty; VNilSlice]])).

(** [blocks.Codec] is made as [txs.Codec] is, with the types of the blocks. *)
Definition NewOptionBlock (registeredBlocks : linearCodec) (name : string) (kind : block_kind) (parentID : ID) (height : Z) : option (result block_error block) :=
  match manager_Marshal (txs_Codec registeredBlocks) txs_Version (Some (TPtr Block_type, VPtr (option_value name parentID height))) with
  | None => None
  | Some (Err _) => Some (Err errOptionBlock)
  | Some (Ok bytes) => Some (Ok (mkBlock (ComputeHash256Array bytes) parentID height kind))
  end.

Definition Options (registeredBlocks : linearCodec) B (b : block) : option (result block_error (block * block)) :=
  match blk_kind b with
  | ProposalBlock _ =>
      let! commitBlock := NewOptionBlock registeredBlocks "CommitBlock" CommitBlock (blk_id b) (wrap64 (blk_Hght b + 1)) in
      let! abortBlock := NewOptionBlock registeredBlocks "AbortBlock" AbortBlock (blk_id b) (wrap64 (blk_Hght b + 1)) in
      match bk_blkIDToState B !! blk_id b with
      | None => Some (Err errNoBlockState)
      | Some blkState => Some (Ok (if bs_initiallyPreferCommit blkState then (commitBlock, abortBlock) else (abortBlock, commitBlock)))
      end
  | _ => Some (Err errNotOracle)
  end.

Definition Timestamp B (b : block) : Z :=
  match bk_blkIDToState B !! blk_id b with
  | Some blkState => bs_timestamp blkState
  | None => ch_timestamp (s_chain (bk_state B))
  end.
End manager.
