(* ===== verification/BlockViews.v ===== *)
(** What a chain shows, however many differences it is above the state on disk:
    a difference leads from one view to another over any chain that shows the first,
    and applying it to the state on disk leads there as well. *)

From Stdlib Require Import Strings.Byte.
From S2P Require Import Prelude SafeMath Ids Packer NodeBag Database CodecTypes Codec GoStd Secp256k1fx Utxo PlatformUtxo PlatformUtxoSpec PlatformUtxoSafety.
From S2P Require Import GoHeap Stakers StakerIters StakerSets StakerDiff StakerApply StakerRefine Reward PlatformTxs PlatformState PlatformBooks.
From S2P Require Import ProposalExecutor ChainRuns StandardExecutor BlockManager.

Record view := mkView {
  vw_timestamp : Z;
  vw_supply : Z;
  vw_current : stakers_spec;
  vw_pending : stakers_spec;
  vw_utxos : gmap ID UTXO;
  vw_txs : ID → option (Tx * PlatformState.Status);
}.

Record sees {C P U X : Type} `{Crypto} `{StakerSetLaws C} `{StakerSetLaws P} `{!UTXOSet U, !UTXOSetLaws U, !Ledger X, !LedgerLaws X}
    (c : chain C P U X) (V : view) : Prop := mkSees {
  se_timestamp : ch_timestamp c = vw_timestamp V;
  se_supply : ch_currentSupply c = vw_supply V;
  se_current : represents (ch_current c) (vw_current V);
  se_pending : represents (ch_pending c) (vw_pending V);
  se_utxos : utxo_view (ch_utxos c) = vw_utxos V;
  se_ledger : ledger_ok (ch_ledger c);
  se_txs i : txs_of (ch_ledger c) i = vw_txs V i;
}.

(** The books of a view. *)
Definition view_books (cfg : RewardConfig) (ctx : SnowContext) (elsewhere : Z) (V : view) : Prop :=
  (∀ id u, vw_utxos V !! id = Some u → amount_ok (utxo_Out u)) ∧
  accounts cfg elsewhere (vw_txs V) (vw_current V) (vw_pending V) (map_supply (vw_utxos V) (ctx_AVAXAssetID ctx)) (vw_supply V).

(** A difference leads from a view to another. *)
Record between `{Crypto} `{BTree} (f : flat) (V V' : view) : Prop := mkBetween {
  bw_timestamp : vw_timestamp V' = ch_timestamp f;
  bw_supply : vw_supply V' = ch_currentSupply f;
  bw_current : ∃ ops, ch_current f = diff_run ops ∧ spec_run ops (vw_current V) = Some (vw_current V') ∧ Forall (fills_free (vw_current V)) ops;
  bw_pending : ∃ ops, ch_pending f = diff_run ops ∧ spec_run ops (vw_pending V) = Some (vw_pending V') ∧ Forall (fills_free (vw_pending V)) ops;
  bw_keyed id u : ch_utxos f !! id = Some (Some u) → id = utxo_InputID u;
  bw_utxos : vw_utxos V' = overlay (ch_utxos f) (vw_utxos V);
  bw_ledger : ledger_flat (ch_ledger f);
  bw_txs i : vw_txs V' i = match ld_addedTxs (ch_ledger f) !! i with Some t => Some t | None => vw_txs V i end;
}.

Lemma flat_attach {X Y} (p : option Y) (l : ledger_diff X) : ledger_flat l → ledger_flat (ld_attach p l).
Proof. by intros []. Qed.

Section views.
Context `{Crypto} `{BTree, !BTreeLaws} {C P U X : Type}.
Context `{!StakerSet C, !StakerSetLaws C, !StakerSet P, !StakerSetLaws P, !UTXOSet U, !UTXOSetLaws U, !Ledger X, !LedgerLaws X}.
Implicit Types (c : chain C P U X) (d : chain_diff C P U X) (f : flat) (V : view).

Lemma accounts_txs cfg el (txs txs' : ID → option (Tx * PlatformState.Status)) spc spp o s :
  (∀ i, txs i = txs' i) → accounts cfg el txs spc spp o s → accounts cfg el txs' spc spp o s.
Proof.
  intros Htxs Hac. eapply accounts_extend; [|split; [apply Hac|done]|exact Hac]. intros i t st Hi. exists t, st. by rewrite <-Htxs.
Qed.

Lemma sees_books cfg ctx el c V : sees c V → books cfg ctx el c (vw_current V) (vw_pending V) ↔ view_books cfg ctx el V.
Proof.
  intros [Ht Hs Hc Hp Hu Hl Htx]. unfold view_books. rewrite <-Hu, <-Hs. split.
  - intros [_ _ Hok _ Hac]. split; [exact Hok|]. eapply accounts_txs; [|exact Hac]; done.
  - intros [Hok Hac]. split; [done..|]. eapply accounts_txs; [|exact Hac]. done.
Qed.

(** Over any chain that shows the first view, it shows the second. *)
Lemma attach_sees c f V V' : sees c V → between f V V' → sees (attach f (Some c)) V'.
Proof.
  intros [Ht Hs Hc Hp Hu Hl Htx] [Bt Bs (oc&Ec&Rc&_) (op&Ep&Rp&_) Bk Bu Bl Btx]. split; cbn [attach ch_timestamp ch_currentSupply ch_current ch_pending ch_utxos ch_ledger fmap option_fmap option_map].
  - done.
  - done.
  - rewrite Ec. by eapply represents_run.
  - rewrite Ep. by eapply represents_run.
  - simpl. unfold diff_view. simpl. by rewrite Hu, Bu.
  - exists (ch_ledger c). split; [done|]. split; [done|]. destruct Bl as [L1 L2 _ _]. split; simpl.
    + intros l. by rewrite L1.
    + intros i l. rewrite L2. by rewrite lookup_empty.
  - intros i. simpl. unfold ld_txs. simpl. rewrite Btx. by destruct (ld_addedTxs (ch_ledger f) !! i).
Qed.

(** What an executor leaves over a chain is such a difference. *)
Lemma grown_between cfg ctx el c V d :
  sees c V → grown_books cfg ctx el c (vw_current V) (vw_pending V) d →
  ∃ V', between (detach d) V V' ∧ view_books cfg ctx el V' ∧ vw_timestamp V' = ch_timestamp d.
Proof.
  intros [Ht Hs Hc Hp Hu Hl Htx] (spc'&spp'&[(oc&Ec&Rc&Fc) (op&Ep&Rp&Fp) [Eu Ku] [El Fl]]&Hb).
  exists (mkView (ch_timestamp d) (ch_currentSupply d) spc' spp' (utxo_view (ch_utxos d)) (txs_of (ch_ledger d))).
  split; [|split; [|done]].
  - split; cbn [detach vw_timestamp vw_supply vw_current vw_pending vw_utxos vw_txs ch_timestamp ch_currentSupply ch_current ch_pending ch_utxos ch_ledger].
    + done.
    + done.
    + exists oc. by rewrite Ec.
    + exists op. by rewrite Ep.
    + exact Ku.
    + simpl. unfold diff_view. by rewrite Eu, Hu.
    + by apply flat_attach.
    + intros i. simpl. unfold ld_txs. rewrite El. simpl. rewrite <-Htx. by destruct (ld_addedTxs (ch_ledger d) !! i).
  - destruct Hb as [_ _ Hok _ Hac]. split; [exact Hok|exact Hac].
Qed.
End views.

(** ** Applying *)

(** What is written to a ledger. *)
Class LedgerWrites (X : Type) `{!Ledger X, !LedgerLaws X} : Prop := {
  AddTx_spec tx st x : ledger_ok x → ledger_ok (AddTx tx st x) ∧
    ∀ i, txs_of (AddTx tx st x) i = if decide (tx_id tx = i) then Some (tx, st) else txs_of x i;
  AddSubnet_spec tx x : ledger_ok x → ledger_ok (AddSubnet tx x) ∧ ∀ i, txs_of (AddSubnet tx x) i = txs_of x i;
  AddChain_spec tx x : ledger_ok x → is_Some (chain_subnet tx) → ∃ x', AddChain tx x = Some x' ∧ ledger_ok x' ∧ ∀ i, txs_of x' i = txs_of x i;
  AddRewardUTXO_spec j u x : ledger_ok x → ledger_ok (AddRewardUTXO j u x) ∧ ∀ i, txs_of (AddRewardUTXO j u x) i = txs_of x i;
}.

#[export] Instance map_LedgerWrites : LedgerWrites map_ledger.
Proof.
  split; try done.
  - intros tx st x _. split; [done|]. intros i. simpl. rewrite lookup_insert. done.
  - intros tx x _ [j Hj]. simpl. rewrite Hj. simpl. eexists. split; [reflexivity|done].
Qed.

(** What every turn keeps, the loop keeps. *)
Lemma each_keeps {A B} (K : A → Prop) (body : A → B → option A) l a :
  (∀ a x, x ∈ l → K a → ∃ a', body a x = Some a' ∧ K a') → K a → ∃ a', each body l a = Some a' ∧ K a'.
Proof.
  intros Hbody. revert a. induction l as [|x l IH]; intros a Ha; [by exists a|]. rewrite each_cons.
  destruct (Hbody a x) as (a1&->&H1); [left|done|]. simpl. apply IH; [|done]. intros a2 y Hy. apply Hbody. by right.
Qed.

Lemma foldl_keeps {A B} (K : A → Prop) (body : A → B → A) l a : (∀ a x, K a → K (body a x)) → K a → K (foldl body a l).
Proof. intros Hbody. revert a. induction l as [|x l IH]; intros a Ha; simpl; [done|]. by apply IH, Hbody. Qed.

Section apply.
Context `{Crypto} `{BTree, !BTreeLaws} `{GoRange} {U X : Type} `{!UTXOSet U, !UTXOSetLaws U, !Ledger X, !LedgerLaws X, !LedgerWrites X}.

Definition same_txs (x0 x : X) : Prop := ledger_ok x ∧ ∀ i, txs_of x i = txs_of x0 i.

Lemma AddTxs_spec (l : list (ID * (Tx * PlatformState.Status))) (x : X) :
  NoDup l.*1 → (∀ i t st, (i, (t, st)) ∈ l → tx_id t = i) → ledger_ok x →
  let x' := foldl (λ x '(_, (tx, status)), AddTx tx status x) x l in
  ledger_ok x' ∧ ∀ i, txs_of x' i = match (list_to_map l : gmap ID (Tx * PlatformState.Status)) !! i with Some t => Some t | None => txs_of x i end.
Proof.
  revert x. induction l as [|[k [t st]] l IH]; intros x Hnd Hk Hx; [done|].
  apply NoDup_cons in Hnd as [Hnot Hnd]. cbn [foldl]. destruct (AddTx_spec t st x Hx) as [Hx1 Ht1].
  destruct (IH (AddTx t st x) Hnd) as [Hok Htx]; [intros i t' st' Hi; apply (Hk i t' st'); by right|done|]. split; [exact Hok|].
  intros i. rewrite Htx, Ht1. assert (tx_id t = k) as -> by (eapply Hk; left). cbn [list_to_map foldr].
  change (foldr _ ∅ l) with (list_to_map l : gmap ID (Tx * PlatformState.Status)). rewrite lookup_insert. cbn. case_decide as Hki; [|done].
  subst i. by rewrite (not_elem_of_list_to_map_1 l k).
Qed.

Lemma AddRewards_spec (l : list (ID * list UTXO)) (x : X) :
  ledger_ok x → same_txs x (foldl (λ x '(txID, utxos), foldl (λ x utxo, AddRewardUTXO txID utxo x) x utxos) x l).
Proof.
  intros Hx. apply (foldl_keeps (same_txs x)); [|by split]. intros a [j us] Ha. apply (foldl_keeps (same_txs x)); [|done]. intros b u [Hb Hbt].
  destruct (AddRewardUTXO_spec j u b Hb) as [? Hr]. split; [done|]. intros i. by rewrite Hr.
Qed.

Lemma ledger_Apply_spec (x : X) (l : ledger_diff X) : ledger_ok x → ledger_flat l → ∃ x', ledger_Apply x l = Some x' ∧ ledger_ok x' ∧
  ∀ i, txs_of x' i = match ld_addedTxs l !! i with Some t => Some t | None => txs_of x i end.
Proof.
  intros Hx [_ _ Htx Hch]. unfold ledger_Apply.
  assert (same_txs x (foldl (λ x subnet, AddSubnet subnet x) x (ld_addedSubnets l))) as Hs.
  { apply foldl_keeps; [|by split]. intros y tx [Hy Hyt]. destruct (AddSubnet_spec tx y Hy) as [Hok Ht]. split; [done|]. intros i. by rewrite Ht. }
  edestruct (each_keeps (same_txs x) (λ x '(_, chains), each (λ x chain, AddChain chain x) chains x) (go_range (ld_addedChains l)))
    as (y&->&[Hy Hyt]); [|exact Hs|].
  { intros a [j cs] Hj%elem_of_go_range Ha. apply each_keeps; [|done]. intros b t Ht [Hb Hbt].
    destruct (AddChain_spec t b Hb) as (b'&Hb'&Hok&Hsame); [rewrite (Hch j cs t Hj Ht); by eexists|].
    exists b'. split; [done|]. split; [done|]. intros i. by rewrite Hsame. }
  cbn [mbind option_bind]. eexists. split; [reflexivity|].
  destruct (AddTxs_spec (go_range (ld_addedTxs l)) y) as [Hok Ht]; [apply NoDup_fst_go_range|by intros i t st ?%elem_of_go_range; eapply Htx|done|].
  set (y1 := foldl _ y _) in *. destruct (AddRewards_spec (go_range (ld_addedRewardUTXOs l)) y1 Hok) as [Hok' Hsame].
  split; [done|]. intros i. rewrite Hsame, Ht, Hyt.
  assert (list_to_map (go_range (ld_addedTxs l)) = ld_addedTxs l) as ->; [|done].
  rewrite (list_to_map_proper _ (map_to_list (ld_addedTxs l))); [apply list_to_map_to_list|apply NoDup_fst_go_range|apply go_range_perm].
Qed.

(** The difference of a block, applied to the state on disk that shows what it is
    over, leaves a state that shows what it leads to. *)
Lemma apply_sees (base : chain baseStakers baseStakers U X) f V V' :
  sees base V → between f V V' → ∃ base', diff_Apply base (attach f None) = Some base' ∧ sees base' V'.
Proof.
  intros [Ht Hs Hc Hp Hu Hl Htx] [Bt Bs (oc&Ec&Rc&Fc) (op&Ep&Rp&Fp) Bk Bu Bl Btx]. unfold diff_Apply, attach. cbn [ch_current ch_pending ch_utxos ch_ledger ch_timestamp ch_currentSupply sd_diffs fmap option_fmap option_map].
  rewrite Ec, Ep. destruct (apply_run (ch_current base) _ oc _ Hc Rc Fc) as (vc&->&Hvc). destruct (apply_run (ch_pending base) _ op _ Hp Rp Fp) as (vp&->&Hvp).
  cbn [mbind option_bind]. destruct (ledger_Apply_spec (ch_ledger base) (ld_attach None (ch_ledger f)) Hl) as (l&->&Hlok&Hltx); [by apply flat_attach|].
  cbn [mbind option_bind]. eexists. split; [reflexivity|].
  split; cbn [ch_timestamp ch_currentSupply ch_current ch_pending ch_utxos ch_ledger]; try done.
  - pose proof (diff_ApplyUTXOs_view (PlatformUtxo.mkDiff (ch_utxos f) (Some (ch_utxos base))) (ch_utxos base)) as Hv.
    unfold diff_ApplyUTXOs in *. cbn [modifiedUTXOs] in *. rewrite Hv; [|exact Bk|done]. simpl. unfold diff_view. simpl. by rewrite Hu, Bu.
  - intros i. rewrite Hltx, Btx, <-Htx. done.
Qed.
End apply.
