(* ===== verification/BlockBooks.v ===== *)
(** Blocks keep the books, and agree with what they become: the states of all blocks
    that are being decided are in order, accepting a block fails only when the shared
    memory refuses, and what its descendants show does not change by it. *)

From Stdlib Require Import Strings.Byte.
From S2P Require Import Topological.
From S2P Require Import Prelude SafeMath Ids Packer NodeBag Database CodecTypes Codec GoStd Secp256k1fx Utxo PlatformUtxo PlatformUtxoSpec PlatformUtxoSafety.
From S2P Require Import GoHeap Stakers StakerIters StakerSets StakerDiff StakerApply StakerRefine Reward PlatformTxs PlatformState PlatformBooks.
From S2P Require Import ProposalExecutor ChainRuns BooksTime Books StandardExecutor StandardBooks BlockManager BlockViews.
#[local] Open Scope node_scope.

(** ** States at any height above the disk *)

Section laws.
Context `{Crypto} `{BTree, !BTreeLaws} {U X : Type} {outputs : UTXOSet U} {outputs_laws : UTXOSetLaws U} {ledger : Ledger X} {ledger_laws : LedgerLaws X}.

#[export] Instance stakers_at_laws : ∀ n, StakerSetLaws (stakers_at n) :=
  fix go n := match n with O => base_laws | S n => @sd_laws _ _ (go n) _ _ end.
#[export] Instance utxos_at_laws : ∀ n, UTXOSetLaws (utxos_at n) :=
  fix go n := match n with O => outputs_laws | S n => @diff_UTXOSetLaws _ _ _ (go n) end.
#[export] Instance ledger_at_laws : ∀ n, LedgerLaws (ledger_at n) :=
  fix go n := match n with O => ledger_laws | S n => @diff_LedgerLaws _ _ (go n) end.

(** What a state shows. *)
Definition shows (v : version U X) (V : view) : Prop := sees (projT2 v : chain_at U X (projT1 v)) V.
End laws.

(** ** The memory *)

(** [Get] answers from the outputs that are there, each from what its origin has sent.
    [Apply] may refuse; when it does not, it removes the outputs it is asked to. *)
Class SharedMemoryLaws `{GoAppend} (Implements : gotype → positive → bool) (registered : linearCodec) (S : Type) `{!SharedMemory S} : Type := {
  sm_shows : S → gmap ID UTXO → (ID → ID) → Prop;
  sm_Get_spec s m origin : sm_shows s m origin → memory_holds Implements registered (sm_Get s) m origin;
  sm_Apply_spec requests s s' m origin I :
    sm_shows s m origin → sm_Apply requests s = Some s' → (∀ c k, removed c k requests ↔ keys_of origin I c k) → (∀ i, i ∈ I → is_Some (m !! i)) →
    sm_shows s' (rest m I) origin;
}.

(** ** What is imported *)

(** The outputs of the shared memory that a transaction, or a block, imports. *)
Definition tx_imports `{Crypto} (u : UnsignedTx) : gset ID := match u with uImport t => import_InputUTXOs t | _ => ∅ end.
Definition block_imports `{Crypto} (b : block) : gset ID :=
  match blk_kind b with
  | AtomicBlock tx => tx_imports (tx_Unsigned tx)
  | StandardBlock txs => ⋃ ((λ tx, tx_imports (tx_Unsigned tx)) <$> txs)
  | ProposalBlock _ | CommitBlock | AbortBlock => ∅
  end.

Section imports.
Context `{Crypto} `{GoRange, GoSort, GoAppend} (Implements : gotype → positive → bool) (registered : linearCodec).
Context {C P U X : Type} `{!UTXOSet U, !Ledger X}.
Context (SharedMemory_Get : ID → list bytes → option (list bytes)) (SNLookup_SubnetID : ID → option ID) (e : ProposalExecutor.Backend).

Lemma standard_inputs (d : chain C P U X) Tx x :
  StandardTxExecutor Implements registered SharedMemory_Get SNLookup_SubnetID e d Tx = Some (Ok x) → ex_Inputs x = tx_imports (tx_Unsigned Tx).
Proof.
  intros Hex. unfold StandardTxExecutor in Hex. destruct (tx_Unsigned Tx) as [t|t|t|t|t|t|t|t|t]; try done.
  - unfold exec_CreateChainTx in Hex. peel Hex u1 Hq1. peel Hex u2 Hq2. peel Hex cred Hq3. peel Hex u4 Hsp. peel Hex sub Hq5. destruct sub as [sub ?].
    peel Hex s6 Hq6. peel Hex u7 Hq7. peel Hex l Hl. by injection Hex as <-.
  - unfold exec_CreateSubnetTx in Hex. peel Hex u1 Hq1. peel Hex u4 Hsp. by injection Hex as <-.
  - unfold exec_ImportTx in Hex. peel Hex u1 Hq1. peel Hex u2 Hq2. peel Hex u3 Hsp. by injection Hex as <-.
  - unfold exec_ExportTx in Hex. peel Hex u1 Hq1. peel Hex u2 Hq2. peel Hex u3 Hsp. peel Hex elems Hq4. by injection Hex as <-.
Qed.

Lemma batch_inputs txs (b b' : batch (C := C) (P := P) (U := U) (X := X)) :
  execute_all Implements registered SharedMemory_Get SNLookup_SubnetID e b txs = Some (Ok b') →
  bt_Inputs b' = bt_Inputs b ∪ ⋃ ((λ tx, tx_imports (tx_Unsigned tx)) <$> txs).
Proof.
  revert b. induction txs as [|tx txs IH]; intros b Hex; cbn [execute_all] in Hex; [injection Hex as <-; simpl; by rewrite (right_id_L ∅ (∪))|].
  peel Hex x Hx. apply lift2_Ok, standard_inputs in Hx. peel Hex u Hover. apply IH in Hex. cbn [bt_Inputs] in Hex.
  rewrite Hex, Hx, fmap_cons. cbn [union_list foldr]. by rewrite (assoc_L (∪)).
Qed.

End imports.

Section block_imports.
Context `{Crypto} `{GoRange, GoSort, GoAppend} (Implements : gotype → positive → bool) (registered : linearCodec).
Context `{BTree} {C P U X : Type} `{!StakerSet C, !StakerSet P, !UTXOSet U, !Ledger X}.
Context (SharedMemory_Get : ID → list bytes → option (list bytes)) (SNLookup_SubnetID : ID → option ID) (e : ProposalExecutor.Backend).

Lemma block_inputs (ps : chain C P U X) txs b :
  execute_block Implements registered SharedMemory_Get SNLookup_SubnetID e (Some ps) txs = Some (Ok b) →
  bt_Inputs b = ⋃ ((λ tx, tx_imports (tx_Unsigned tx)) <$> txs).
Proof.
  intros Hex. unfold execute_block in Hex. peel Hex d Hd. apply batch_inputs in Hex. rewrite Hex. cbn [bt_Inputs]. apply (left_id_L ∅ (∪)).
Qed.

Lemma atomic_inputs (ps : chain C P U X) tx x :
  AtomicTxExecutor Implements registered SharedMemory_Get SNLookup_SubnetID e (Some ps) tx = Some (Ok x) → ex_Inputs x = tx_imports (tx_Unsigned tx).
Proof.
  unfold AtomicTxExecutor. destruct (tx_Unsigned tx) eqn:E; try done; intros Hex; apply standard_inputs in Hex; by rewrite Hex, E.
Qed.
End block_imports.

(** ** Steps of the manager *)

Section blocks.
Context `{Crypto} `{GoRange, GoSort, GoAppend} (Implements : gotype → positive → bool) (registered : linearCodec).
Context `{BTree, !BTreeLaws} {U X M S : Type} {outputs : UTXOSet U} {outputs_laws : UTXOSetLaws U} {ledger : Ledger X} {ledger_laws : LedgerLaws X}.
Context `{!LedgerWrites X, !Mempool M, !SharedMemory S, !SharedMemoryLaws Implements registered S}.
Context (SNLookup_SubnetID : ID → option ID) (cfg : RewardConfig) (ctx : SnowContext) (origin : ID → ID) (E0 : Z) (HE0 : 0 ≤ E0).
Abbreviation manager := (backend U X M S).
Implicit Types (B : manager) (b : block) (bs : blockState).

Abbreviation AVAX := (ctx_AVAXAssetID ctx).
Abbreviation kind bs := (blk_kind (bs_statelessBlock bs)).
Abbreviation parent bs := (blk_PrntID (bs_statelessBlock bs)).
Abbreviation height bs := (blk_Hght (bs_statelessBlock bs)).

Definition is_proposal b : Prop := match blk_kind b with ProposalBlock _ => True | _ => False end.
Definition is_option b : Prop := match blk_kind b with CommitBlock | AbortBlock => True | _ => False end.

Lemma is_option_dec b : {is_option b} + {¬ is_option b}.
Proof. unfold is_option. destruct (blk_kind b); tauto. Qed.

Lemma is_proposal_dec b : {is_proposal b} + {¬ is_proposal b}.
Proof. unfold is_proposal. destruct (blk_kind b); tauto. Qed.

Lemma option_not_proposal b : is_option b → ¬ is_proposal b.
Proof. unfold is_option, is_proposal. destruct (blk_kind b); tauto. Qed.

(** The block, or one it descends from without a gap, was accepted last. *)
Inductive live B : ID → Prop :=
  | live_accepted : live B (s_lastAccepted (bk_state B))
  | live_child id bs : bk_blkIDToState B !! id = Some bs → live B (parent bs) → live B id.

(** What the engine issues: blocks that have not been decided, over blocks that are
    live, by a node that has caught up; their transactions as they are parsed. *)
Definition txs_fit (txs : ID → option (Tx * PlatformState.Status)) b : Prop :=
  match blk_kind b with
  | ProposalBlock tx => honest (marshal_out Implements registered) ctx tx ∧ fits (tx_Unsigned tx) ∧ new_to txs tx
  | AtomicBlock tx => records tx txs ∧ standard_fits (tx_Unsigned tx)
  | StandardBlock l => no_collisions txs l ∧ Forall (λ tx, standard_fits (tx_Unsigned tx)) l
  | CommitBlock | AbortBlock => True
  end.

(** What a block imports with the blocks it descends from, up to the last accepted
    one. *)
Inductive imported B : ID → gset ID → Prop :=
  | imported_accepted : imported B (s_lastAccepted (bk_state B)) ∅
  | imported_child id bs T : bk_blkIDToState B !! id = Some bs → imported B (parent bs) T →
      imported B id (T ∪ block_imports (bs_statelessBlock bs)).

Record issued (e : Backend) B b : Prop := mkIssued {
  is_new : s_blocks (bk_state B) !! blk_id b = None;
  is_parent : live B (blk_PrntID b);
  is_height : 0 < blk_Hght b < 2 ^ 64;
  is_node : node_ok e cfg;
  is_fees : fees_ok (be_Config e);
  is_ctx : be_Ctx e = ctx;
  is_txs v : backend_GetState B (blk_PrntID b) = Some v → txs_fit (txs_of (ch_ledger (projT2 v : chain_at U X (projT1 v)))) b;
}.

(** The engine accepts the children of the last accepted block, and rejects others.
    A block that cannot be accepted stops the node. *)
Inductive block_step B : manager → Prop :=
  | step_verify e b B' r : issued e B b → Verify Implements registered SNLookup_SubnetID e b B = Some (B', r) → block_step B B'
  | step_accept b bs B' : bk_blkIDToState B !! blk_id b = Some bs → bs_statelessBlock bs = b → blk_PrntID b = bk_lastAccepted B →
      blk_id b ≠ bk_lastAccepted B → Accept b B = Some (B', Ok tt) → block_step B B'
  | step_reject b bs : bk_blkIDToState B !! blk_id b = Some bs → bs_statelessBlock bs = b → blk_id b ≠ bk_lastAccepted B →
      block_step B (Reject b B).

(** ** The invariant *)

(** A block's view, what it leaves in the shared memory, and the funds on other chains. *)
Record sight := mkSight { sg_view : view; sg_memory : gmap ID UTXO; sg_elsewhere : Z }.

Record sound (sg : sight) : Prop := mkSound {
  so_books : view_books cfg ctx (sg_elsewhere sg + map_supply (sg_memory sg) AVAX) (sg_view sg);
  so_memory i u : sg_memory sg !! i = Some u → amount_ok (utxo_Out u);
  so_elsewhere : E0 ≤ sg_elsewhere sg;
}.

(** [sg'] is reached from [sg] by the difference, taking [I] out of the memory. *)
Definition reaches (sg : sight) (f : flat) (I : gset ID) (sg' : sight) : Prop :=
  between f (sg_view sg) (sg_view sg') ∧ sg_memory sg' = rest (sg_memory sg) I ∧ sound sg' ∧ sg_elsewhere sg ≤ sg_elsewhere sg' ∧
    ∀ i, i ∈ I → is_Some (sg_memory sg !! i).

Section invariant.
Context (W : gmap ID sight).

(** What is kept for a block. *)
Record entry_ok (m : gmap ID blockState) (s : State U X) (id : ID) bs : Prop := mkEntryOk {
  en_id : blk_id (bs_statelessBlock bs) = id;
  en_height : 0 < height bs < 2 ^ 64;
  en_undecided : s_blocks s !! id = None;
  en_parent : is_Some (m !! parent bs) ∨ is_Some (s_blocks s !! parent bs);
  en_below pbs : m !! parent bs = Some pbs → height pbs < height bs;
  en_requests c k : removed c k (bs_atomicRequests bs) ↔ keys_of origin (bs_inputs bs) c k;
  en_proposal : is_proposal (bs_statelessBlock bs) → W !! id = None ∧ bs_inputs bs = ∅ ∧ bs_onAcceptState bs = None ∧
    ∃ sg, W !! parent bs = Some sg ∧ ∀ d, bs_onCommitState bs = Some d ∨ bs_onAbortState bs = Some d →
      bd_parentID d = parent bs ∧ ∃ sg', reaches sg (bd_diff d) ∅ sg';
  en_decision : ¬ is_proposal (bs_statelessBlock bs) → bs_onCommitState bs = None ∧ bs_onAbortState bs = None ∧
    ∃ d sg sg', bs_onAcceptState bs = Some d ∧ W !! bd_parentID d = Some sg ∧ W !! id = Some sg' ∧ reaches sg (bd_diff d) (bs_inputs bs) sg' ∧
      (¬ is_option (bs_statelessBlock bs) → bd_parentID d = parent bs) ∧
      (is_option (bs_statelessBlock bs) → bs_inputs bs = ∅ ∧
        match m !! parent bs with
        | Some pbs => is_proposal (bs_statelessBlock pbs) ∧ bd_parentID d = parent pbs
        | None => parent bs ≠ s_lastAccepted s
        end);
  en_inputs : bs_inputs bs = block_imports (bs_statelessBlock bs);
}.

Record inv_of (m : gmap ID blockState) (s : State U X) (last : ID) (memory : S) : Prop := mkInv {
  iv_base : ∃ sg, W !! s_lastAccepted s = Some sg ∧ sees (s_chain s) (sg_view sg) ∧ sm_shows memory (sg_memory sg) origin ∧ sound sg;
  iv_decided : is_Some (s_blocks s !! s_lastAccepted s);
  iv_last : last = s_lastAccepted s ∨
    ∃ bs, m !! last = Some bs ∧ is_proposal (bs_statelessBlock bs) ∧ parent bs = s_lastAccepted s;
  iv_known id : is_Some (W !! id) → is_Some (m !! id) ∨ is_Some (s_blocks s !! id);
  iv_entries id bs : m !! id = Some bs → entry_ok m s id bs;
}.

Definition inv B : Prop := inv_of (bk_blkIDToState B) (bk_state B) (bk_lastAccepted B) (bk_memory B).

(** ** What an entry says *)

Section facts.
Context B (Hinv : inv B).

Lemma base_not_in_memory : bk_blkIDToState B !! s_lastAccepted (bk_state B) = None.
Proof.
  destruct (bk_blkIDToState B !! _) as [bs|] eqn:E; [|done]. pose proof (en_undecided _ _ _ _ (iv_entries _ _ _ _ Hinv _ _ E)) as Hn.
  destruct (iv_decided _ _ _ _ Hinv) as [x Hx]. congruence.
Qed.

Lemma live_parent id bs : bk_blkIDToState B !! id = Some bs → live B id → live B (parent bs).
Proof.
  intros Hid Hl. inversion Hl as [|id' bs' Hid' Hp]; subst; [by rewrite base_not_in_memory in Hid|]. rewrite Hid in Hid'. by injection Hid' as <-.
Qed.

(** The block whose state a decision is over. *)
Lemma decision_parent id bs d :
  bk_blkIDToState B !! id = Some bs → live B id → bs_onAcceptState bs = Some d →
  live B (bd_parentID d) ∧ ∀ pbs, bk_blkIDToState B !! bd_parentID d = Some pbs → height pbs < height bs.
Proof.
  intros Hid Hl Hd. pose proof (iv_entries _ _ _ _ Hinv _ _ Hid) as Hen.
  assert (¬ is_proposal (bs_statelessBlock bs)) as Hnp by (intros Hp; destruct (en_proposal _ _ _ _ Hen Hp) as (_&_&Hn&_); congruence).
  destruct (en_decision _ _ _ _ Hen Hnp) as (_&_&d'&sg&sg'&Hd'&_&_&_&Hdir&Hopt). rewrite Hd in Hd'. injection Hd' as <-.
  pose proof (live_parent _ _ Hid Hl) as Hlp. destruct (is_option_dec (bs_statelessBlock bs)) as [Ho|Ho].
  - destruct (Hopt Ho) as [_ Hm]. destruct (bk_blkIDToState B !! parent bs) as [pbs|] eqn:Ep.
    + destruct Hm as [Hpp ->]. split; [by eapply live_parent|]. intros ppbs Hpp'.
      pose proof (en_below _ _ _ _ Hen _ Ep). pose proof (en_below _ _ _ _ (iv_entries _ _ _ _ Hinv _ _ Ep) _ Hpp'). lia.
    + inversion Hlp as [E|id' bs' Hid' _]; subst; congruence.
  - rewrite (Hdir Ho). split; [done|]. apply (en_below _ _ _ _ Hen).
Qed.

Lemma state_of_base n : state_of n B (s_lastAccepted (bk_state B)) = Some (existT 0%nat (s_chain (bk_state B))).
Proof. destruct n; cbn [state_of]; rewrite base_not_in_memory; by rewrite decide_True. Qed.

(** Enough calls reach the state on disk: a live block that is no proposal has a
    state, which shows what is known of the block. *)
Lemma state_of_shows id :
  live B id → (∀ bs, bk_blkIDToState B !! id = Some bs → ¬ is_proposal (bs_statelessBlock bs)) →
  ∃ v sg, backend_GetState B id = Some v ∧ W !! id = Some sg ∧ shows v (sg_view sg) ∧ sound sg.
Proof.
  unfold backend_GetState, height_fuel. intros Hl Hnp. destruct (bk_blkIDToState B !! id) as [bs|] eqn:Eid.
  - specialize (Hnp bs eq_refl). set (n := Datatypes.S (Z.to_nat (height bs))). assert (height bs < Z.of_nat n) as Hn by lia. clearbody n.
    revert id bs Eid Hl Hnp Hn. induction n as [|n IH]; intros id bs Eid Hl Hnp Hn; [pose proof (en_height _ _ _ _ (iv_entries _ _ _ _ Hinv _ _ Eid)); lia|].
    cbn [state_of]. rewrite Eid. destruct (en_decision _ _ _ _ (iv_entries _ _ _ _ Hinv _ _ Eid) Hnp) as (_&_&d&sg&sg'&Hd&Hsg&Hsg'&(Hbt&_&Hok&_&_)&_&_).
    rewrite Hd. destruct (decision_parent id bs d Eid Hl Hd) as [Hlp Hbelow].
    assert (∃ v, state_of n B (bd_parentID d) = Some v ∧ shows v (sg_view sg)) as (v&Hv&Hs).
    { destruct (bk_blkIDToState B !! bd_parentID d) as [pbs|] eqn:Ep.
      - assert (¬ is_proposal (bs_statelessBlock pbs)) as Hnpp by (intros Hp; destruct (en_proposal _ _ _ _ (iv_entries _ _ _ _ Hinv _ _ Ep) Hp) as (Hn'&_); congruence).
        specialize (Hbelow pbs eq_refl). destruct (IH _ pbs Ep Hlp Hnpp ltac:(lia)) as (v&sg0&Hv&Hsg0&Hs&_). rewrite Hsg in Hsg0. injection Hsg0 as <-. eauto.
      - inversion Hlp as [E|id' bs' Hid' _]; subst; [|congruence]. destruct (iv_base _ _ _ _ Hinv) as (sg0&Hsg0&Hs&_&_). rewrite <-E, Hsg0 in Hsg. injection Hsg as <-.
        exists (existT 0%nat (s_chain (bk_state B))). split; [|exact Hs]. apply state_of_base. }
    exists (version_over (bd_diff d) (Some v)), sg'. rewrite Hv. split; [done|]. split; [done|]. split; [|done].
    destruct v as [k c]. unfold shows in *. cbn [version_over projT1 projT2] in *. exact (attach_sees _ _ _ _ Hs Hbt).
  - inversion Hl as [E|id' bs' Hid' _]; subst; [|congruence]. destruct (iv_base _ _ _ _ Hinv) as (sg&Hsg&Hs&_&Hok).
    exists (existT 0%nat (s_chain (bk_state B))), sg. split; [apply state_of_base|done].
Qed.

Lemma known_no_proposal id sg : W !! id = Some sg → ∀ bs, bk_blkIDToState B !! id = Some bs → ¬ is_proposal (bs_statelessBlock bs).
Proof. intros Hw bs Hid Hp. destruct (en_proposal _ _ _ _ (iv_entries _ _ _ _ Hinv _ _ Hid) Hp) as (Hn&_). congruence. Qed.

Lemma proposal_no_state id bs : bk_blkIDToState B !! id = Some bs → is_proposal (bs_statelessBlock bs) → backend_GetState B id = None.
Proof.
  intros Hid Hp. destruct (en_proposal _ _ _ _ (iv_entries _ _ _ _ Hinv _ _ Hid) Hp) as (_&_&Hn&_).
  unfold backend_GetState, height_fuel. rewrite Hid. cbn [state_of]. by rewrite Hid, Hn.
Qed.

(** What is known of the state that a child of the block is decided over: of a
    proposal, that is the state of its parent. *)
Inductive under (id : ID) (sg : sight) : Prop :=
  | under_decision : W !! id = Some sg → under id sg
  | under_proposal bs : bk_blkIDToState B !! id = Some bs → is_proposal (bs_statelessBlock bs) → W !! parent bs = Some sg → under id sg.

Lemma under_known id sg sg' : under id sg → W !! id = Some sg' → sg' = sg.
Proof.
  intros [Hw|bs Hid Hp _] Hw'; [congruence|]. by destruct (known_no_proposal id sg' Hw' bs Hid).
Qed.

(** What the memory shows. *)
Definition in_memory (m : gmap ID UTXO) : Prop := ∃ sg, W !! s_lastAccepted (bk_state B) = Some sg ∧ m = sg_memory sg ∧ sm_shows (bk_memory B) m origin.

Lemma some_memory : ∃ m, in_memory m.
Proof. destruct (iv_base _ _ _ _ Hinv) as (sg&Hsg&_&Hm&_). exists (sg_memory sg), sg. done. Qed.

(** A block has taken from the memory what its ancestors import, and conflicts with
    them unless it imports something else. *)
Lemma taken m id : in_memory m → live B id →
  ∃ sg T, under id sg ∧ imported B id T ∧ sg_memory sg = rest m T ∧ ∀ fuel inputs, conflicts fuel B id inputs = Some (Ok tt) → T ## inputs.
Proof.
  intros (sg0&Hsg0&->&_). induction 1 as [|id bs Hid Hl IH].
  { exists sg0, ∅. split; [by left|]. split; [constructor|]. rewrite rest_empty. split; [done|]. intros. set_solver. }
  destruct IH as (sgp&T&Hun&Him&HT&Hcf). pose proof (iv_entries _ _ _ _ Hinv _ _ Hid) as Hen.
  assert (∀ fuel inputs, conflicts fuel B id inputs = Some (Ok tt) → bs_inputs bs ## inputs ∧ T ## inputs) as Hstep.
  { intros fuel inputs Hc. destruct fuel as [|fuel]; cbn [conflicts] in Hc; rewrite Hid in Hc; case_decide as Hd; try done.
    split; [done|by eapply Hcf]. }
  destruct (is_proposal_dec (bs_statelessBlock bs)) as [Hp|Hp].
  - destruct (en_proposal _ _ _ _ Hen Hp) as (_&_&_&sg&Hsg&_). pose proof (under_known _ _ _ Hun Hsg) as ->.
    exists sgp, T. split; [by eapply under_proposal|]. split; [|split; [done|]].
    { pose proof (imported_child B id bs T Hid Him) as Hi. rewrite <-(en_inputs _ _ _ _ Hen) in Hi. destruct (en_proposal _ _ _ _ Hen Hp) as (_&Hin&_).
      by rewrite Hin, (right_id_L ∅ (∪)) in Hi. } intros fuel inputs Hc. by apply (Hstep fuel).
  - destruct (en_decision _ _ _ _ Hen Hp) as (_&_&d&sg&sg'&Hd&Hsg&Hsg'&(_&Hm&_)&Hdir&Hopt).
    assert (sg = sgp) as ->.
    { destruct (is_option_dec (bs_statelessBlock bs)) as [Ho|Ho].
      - destruct (Hopt Ho) as [_ Hpar]. destruct (bk_blkIDToState B !! parent bs) as [pbs|] eqn:Ep.
        + destruct Hpar as [Hpp Heq]. rewrite Heq in Hsg. destruct Hun as [Hw|pbs' Ep' _ Hw]; [by destruct (known_no_proposal _ _ Hw _ Ep)|congruence].
        + inversion Hl as [E|id' bs' Hid' _]; subst; congruence.
      - rewrite (Hdir Ho) in Hsg. by eapply under_known. }
    exists sg', (T ∪ bs_inputs bs). split; [by left|]. split; [rewrite (en_inputs _ _ _ _ Hen); by eapply imported_child|]. split; [by rewrite Hm, HT, rest_union|].
    intros fuel inputs Hc. destruct (Hstep fuel inputs Hc). set_solver.
Qed.
End facts.
End invariant.

(** ** Changes of the manager *)

Lemma option_parent W m s id bs :
  entry_ok W m s id bs → is_option (bs_statelessBlock bs) → m !! parent bs = None → parent bs ≠ s_lastAccepted s.
Proof.
  intros Hen Ho Hm. assert (¬ is_proposal (bs_statelessBlock bs)) as Hnp by (by apply option_not_proposal).
  destruct (en_decision _ _ _ _ _ Hen Hnp) as (_&_&d&sg&sg'&_&_&_&_&_&Hopt). destruct (Hopt Ho) as [_ Hpar]. by rewrite Hm in Hpar.
Qed.

(** An entry that stays, while others come and go. *)
Lemma entry_stays W W' m m' s s' id bs :
  entry_ok W m s id bs → (∀ j sg, W !! j = Some sg → W' !! j = Some sg) → (W !! id = None → W' !! id = None) →
  s_blocks s' !! id = None → is_Some (m' !! parent bs) ∨ is_Some (s_blocks s' !! parent bs) →
  (∀ pbs, m' !! parent bs = Some pbs → m !! parent bs = Some pbs) →
  (is_option (bs_statelessBlock bs) → m' !! parent bs = None → parent bs ≠ s_lastAccepted s') →
  entry_ok W' m' s' id bs.
Proof.
  intros [Hid Hh Hu Hp Hb Hr Hpr Hde Hinp] HW HWn Hu' Hp' Hm Hopt'. split; try done.
  - intros pbs Hpb. by apply Hb, Hm.
  - intros Hi. destruct (Hpr Hi) as (Hn&Hin&Hac&sg&Hsg&Hd). split_and!; [auto|done|done|]. exists sg. split; [by apply HW|done].
  - intros Hi. destruct (Hde Hi) as (Hc&Ha&d&sg&sg'&Hd&Hsg&Hsg'&Hre&Hdir&Hopt). split_and!; [done|done|]. exists d, sg, sg'.
    split_and!; [done|by apply HW|by apply HW|done|done|]. intros Ho. destruct (Hopt Ho) as [Hin Hpar]. split; [done|].
    destruct (m' !! parent bs) as [pbs|] eqn:E; [|by apply Hopt']. by rewrite (Hm pbs eq_refl) in Hpar.
Qed.

(** A block is verified: its entry is new. *)
Lemma put_inv W W' B b bs :
  inv W B → s_blocks (bk_state B) !! blk_id b = None → bk_blkIDToState B !! blk_id b = None →
  W' = W ∨ (∃ sg, W' = <[blk_id b := sg]> W) →
  entry_ok W' (<[blk_id b := bs]> (bk_blkIDToState B)) (bk_state B) (blk_id b) bs →
  inv W' (put_block (blk_id b) bs B).
Proof.
  intros Hinv Hu Hm HW Hen. pose proof Hinv as [(sg&Hsg&Hbase) Hdec Hlast Hkn Hent].
  assert (W !! blk_id b = None) as Hfresh by (apply eq_None_not_Some; intros [[x Hx]|[x Hx]]%Hkn; congruence).
  assert (∀ j sg, W !! j = Some sg → W' !! j = Some sg) as Hsub.
  { intros j sg' Hj. destruct HW as [->|[sg0 ->]]; [done|]. rewrite lookup_insert_ne; [done|]. intros <-. congruence. }
  split; cbn [put_block bk_blkIDToState bk_state bk_lastAccepted bk_memory].
  - exists sg. split; [by apply Hsub|done].
  - done.
  - destruct Hlast as [?|(lbs&Hl&Hlp)]; [by left|right]. exists lbs. split; [|done]. rewrite lookup_insert_ne; [done|]. intros E. rewrite E in Hm. congruence.
  - intros id Hid. rewrite lookup_insert. case_decide as E; [by left; eexists|]. apply Hkn. destruct HW as [->|[sg0 ->]]; [done|]. by rewrite lookup_insert_ne in Hid.
  - intros id bs'. rewrite lookup_insert. case_decide as E; [intros [= <-]; by subst id|]. intros Hid. pose proof (Hent id bs' Hid) as He.
    assert (parent bs' ≠ blk_id b) as Hne.
    { intros Hpb. destruct (en_parent _ _ _ _ _ He) as [[x Hx]|[x Hx]]; rewrite Hpb in Hx; congruence. }
    assert (∀ x, <[blk_id b := x]> (bk_blkIDToState B) !! parent bs' = bk_blkIDToState B !! parent bs') as Hsame by (intros x; by rewrite lookup_insert_ne).
    eapply entry_stays; [exact He|exact Hsub| |by eapply en_undecided|rewrite Hsame; by eapply en_parent|by rewrite Hsame|rewrite Hsame; intros Ho Hnone; by eapply option_parent].
    intros Hn. destruct HW as [->|[sg0 ->]]; [done|]. by rewrite lookup_insert_ne.
Qed.

(** ** Verifying *)

(** Where a block goes that is verified for the first time. *)
Record place B b : Prop := mkPlace {
  pl_new : bk_blkIDToState B !! blk_id b = None;
  pl_other : blk_PrntID b ≠ blk_id b;
  pl_parent : is_Some (bk_blkIDToState B !! blk_PrntID b) ∨ is_Some (s_blocks (bk_state B) !! blk_PrntID b);
  pl_below pbs : bk_blkIDToState B !! blk_PrntID b = Some pbs → height pbs < blk_Hght b;
}.

Lemma live_somewhere W B id : inv W B → live B id → is_Some (bk_blkIDToState B !! id) ∨ is_Some (s_blocks (bk_state B) !! id).
Proof. intros Hinv [|id' bs Hid _]; [right; apply (iv_decided _ _ _ _ _ Hinv)|left; by eexists]. Qed.

Lemma unless_verified_cases W e B b v B' r :
  inv W B → issued e B b → unless_verified B b v = Some (B', r) →
  B' = B ∨ place B b ∧ v = Some (B', r).
Proof.
  intros Hinv [Hnew Hpar Hh _ _ _ _] Hv. unfold unless_verified in Hv. destruct (bk_blkIDToState B !! blk_id b) eqn:Em; [left; by injection Hv as <- _|].
  destruct (backend_GetBlock B (blk_PrntID b)) as [p|] eqn:Ep; [|left; by injection Hv as <- _].
  case_decide as Hw; [left; by injection Hv as <- _|]. right. split; [|done].
  pose proof (live_somewhere _ _ _ Hinv Hpar) as Hsome. split; [done| |done|].
  - intros E. rewrite E in Hsome. destruct Hsome as [[x Hx]|[x Hx]]; congruence.
  - intros pbs Hpbs. unfold backend_GetBlock in Ep. rewrite Hpbs in Ep. injection Ep as <-.
    pose proof (en_height _ _ _ _ _ (iv_entries _ _ _ _ _ Hinv _ _ Hpbs)) as Hph. unfold wrap in Hw.
    destruct (decide (height pbs + 1 < 2 ^ 64)) as [Hlt|Hge]; [rewrite Z.mod_small in Hw by lia; lia|].
    assert (height pbs + 1 = 2 ^ 64) as Heq by lia. rewrite Heq in Hw. rewrite Z_mod_same_full in Hw. lia.
Qed.

Section verifying.
Context (W : gmap ID sight) (e : Backend) B b (Hinv : inv W B) (His : issued e B b) (Hpl : place B b).

Lemma place_lookup bs : <[blk_id b := bs]> (bk_blkIDToState B) !! blk_PrntID b = bk_blkIDToState B !! blk_PrntID b.
Proof. rewrite lookup_insert_ne; [done|]. apply not_eq_sym, Hpl. Qed.

Lemma place_fresh : W !! blk_id b = None.
Proof.
  apply eq_None_not_Some. intros Hx. destruct (iv_known _ _ _ _ _ Hinv _ Hx) as [[x Hx']|[x Hx']]; [by rewrite (pl_new _ _ Hpl) in Hx'|].
  by rewrite (is_new _ _ _ His) in Hx'.
Qed.

Lemma kept_sight sg j sg0 : W !! j = Some sg0 → <[blk_id b := sg]> W !! j = Some sg0.
Proof. intros Hj. rewrite lookup_insert_ne; [done|]. intros <-. by rewrite place_fresh in Hj. Qed.

Lemma decision_inv bs d sg sg' :
  bs_statelessBlock bs = b → ¬ is_proposal b →
  bs_onAcceptState bs = Some d → bs_onCommitState bs = None → bs_onAbortState bs = None →
  W !! bd_parentID d = Some sg → reaches sg (bd_diff d) (bs_inputs bs) sg' →
  (∀ c k, removed c k (bs_atomicRequests bs) ↔ keys_of origin (bs_inputs bs) c k) → bs_inputs bs = block_imports b →
  (¬ is_option b → bd_parentID d = blk_PrntID b) →
  (is_option b → bs_inputs bs = ∅ ∧ ∃ pbs, bk_blkIDToState B !! blk_PrntID b = Some pbs ∧ is_proposal (bs_statelessBlock pbs) ∧ bd_parentID d = parent pbs) →
  inv (<[blk_id b := sg']> W) (put_block (blk_id b) bs B).
Proof.
  intros Hb Hnp Hd Hc Ha Hsg Hre Hrq Hinp Hdir Hopt. apply (put_inv W); [done|apply His|apply Hpl|right; by eexists|].
  split; rewrite ?Hb, ?place_lookup.
  - done.
  - apply His.
  - apply His.
  - apply Hpl.
  - apply Hpl.
  - done.
  - done.
  - intros _. split; [done|]. split; [done|]. exists d, sg, sg'. split; [done|]. split; [by apply kept_sight|]. split; [apply lookup_insert_eq|].
    split; [done|]. split; [done|]. intros Ho. destruct (Hopt Ho) as (Hin&pbs&Hp&Hpp&Hpe). split; [done|]. by rewrite Hp.
  - done.
Qed.

Lemma proposal_inv bs sg :
  bs_statelessBlock bs = b → is_proposal b → bs_inputs bs = ∅ → bs_onAcceptState bs = None → bs_atomicRequests bs = ∅ →
  W !! blk_PrntID b = Some sg →
  (∀ d, bs_onCommitState bs = Some d ∨ bs_onAbortState bs = Some d → bd_parentID d = blk_PrntID b ∧ ∃ sg', reaches sg (bd_diff d) ∅ sg') →
  inv W (put_block (blk_id b) bs B).
Proof.
  intros Hb Hp Hin Hac Hrq Hsg Hd. apply (put_inv W); [done|apply His|apply Hpl|by left|].
  split; rewrite ?Hb, ?place_lookup.
  - done.
  - apply His.
  - apply His.
  - apply Hpl.
  - apply Hpl.
  - intros c k. rewrite Hrq, Hin. unfold keys_of. split; [|set_solver]. intros (r&Hcr&_). by rewrite lookup_empty in Hcr.
  - intros _. split; [apply place_fresh|]. split; [done|]. split; [done|]. by exists sg.
  - done.
  - rewrite Hin. unfold is_proposal, block_imports in *. by destruct (blk_kind b).
Qed.
End verifying.

(** ** The executors, over what is known of the parent *)

Lemma parent_cases W B id : inv W B → live B id →
  (∃ v sg, backend_GetState B id = Some v ∧ W !! id = Some sg ∧ shows v (sg_view sg) ∧ sound sg) ∨
  backend_GetState B id = None ∧ ∃ bs, bk_blkIDToState B !! id = Some bs ∧ is_proposal (bs_statelessBlock bs).
Proof.
  intros Hinv Hl. destruct (bk_blkIDToState B !! id) as [bs|] eqn:Eid.
  - destruct (is_proposal_dec (bs_statelessBlock bs)) as [Hp|Hp]; [right; split; [by eapply proposal_no_state|by exists bs]|left].
    eapply state_of_shows; [done|done|]. intros bs' Hbs'. rewrite Eid in Hbs'. by injection Hbs' as <-.
  - left. eapply state_of_shows; [done|done|]. intros bs' Hbs'. congruence.
Qed.

Lemma memory_nonneg (m : gmap ID UTXO) a : (∀ i u, m !! i = Some u → amount_ok (utxo_Out u)) → 0 ≤ map_supply m a.
Proof. intros Hm. apply sumZ_nonneg, Forall_fmap, Forall_forall. intros [i u] Hu%elem_of_map_to_list. eapply worth_nonneg, Hm, Hu. Qed.

Lemma rest_amounts (m : gmap ID UTXO) I : (∀ i u, m !! i = Some u → amount_ok (utxo_Out u)) → ∀ i u, rest m I !! i = Some u → amount_ok (utxo_Out u).
Proof. intros Hm i u. rewrite rest_lookup. case_decide; [done|apply Hm]. Qed.

(** The outcomes of an executor that keeps the books are reached. *)
Lemma grown_reaches (n : nat) (ps : chain_at U X n) sg I elsewhere d :
  sees ps (sg_view sg) → sound sg → sg_elsewhere sg ≤ elsewhere → (∀ i, i ∈ I → is_Some (sg_memory sg !! i)) →
  grown_books cfg ctx (elsewhere + map_supply (rest (sg_memory sg) I) AVAX) ps (vw_current (sg_view sg)) (vw_pending (sg_view sg)) d →
  ∃ sg', reaches sg (detach d) I sg'.
Proof.
  intros Hs [_ Hm He] Hle Hth Hg. destruct (grown_between _ _ _ _ _ _ Hs Hg) as (V'&Hbt&Hbk&_).
  exists (mkSight V' (rest (sg_memory sg) I) elsewhere). split; [done|]. split; [done|]. split; [|done]. split; [done|by apply rest_amounts|simpl; lia].
Qed.

(** Takes one step off, which may have failed. *)
Ltac peel_done H := let x := fresh "x" in let Hx := fresh "Hx" in peel H x Hx; try done.

Lemma proposal_needs_state e tx n pr :
  ProposalTxExecutor Implements registered (C := stakers_at n) (P := stakers_at n) (U := utxos_at n) (X := ledger_at n) e None tx ≠ Some (Ok pr).
Proof.
  intros Hex. unfold ProposalTxExecutor in Hex. destruct (tx_Unsigned tx) as [t|t|t|t|t|t|t|t|t]; try done.
  - unfold exec_AddValidatorTx, GetState in Hex. repeat peel_done Hex.
  - unfold exec_AddSubnetValidatorTx, GetState in Hex. repeat peel_done Hex.
  - unfold exec_AddDelegatorTx, GetState in Hex. repeat peel_done Hex.
  - unfold exec_AdvanceTimeTx, GetState in Hex. repeat peel_done Hex.
  - unfold exec_RewardValidatorTx, GetState in Hex. repeat peel_done Hex.
Qed.

(** ** Each kind of block *)

Section kinds.
Context (W : gmap ID sight) (e : Backend) B b (Hinv : inv W B) (His : issued e B b).

Abbreviation kept B' := (∃ W', inv W' B' ∧ W ⊆ W').

Lemma kept_same : kept B.
Proof. by exists W. Qed.

Lemma kept_mempool f : kept (on_mempool f B).
Proof. by exists W. Qed.

Lemma kept_put bs sg f (Hpl : place B b) :
  inv (<[blk_id b := sg]> W) (put_block (blk_id b) bs B) → kept (on_mempool f (put_block (blk_id b) bs B)).
Proof. intros Hi. exists (<[blk_id b := sg]> W). split; [exact Hi|]. apply insert_subseteq. by eapply place_fresh. Qed.

(** The state of the parent, with its books. *)
Lemma parent_books v :
  backend_GetState B (blk_PrntID b) = Some v → ∃ sg, W !! blk_PrntID b = Some sg ∧ shows v (sg_view sg) ∧ sound sg ∧
    books cfg (be_Ctx e) (sg_elsewhere sg + map_supply (sg_memory sg) AVAX) (projT2 v : chain_at U X (projT1 v)) (vw_current (sg_view sg)) (vw_pending (sg_view sg)).
Proof.
  intros Hv. destruct (parent_cases W B _ Hinv (is_parent _ _ _ His)) as [(v'&sg&Hv'&Hsg&Hs&Hok)|[Hn _]]; [|congruence].
  rewrite Hv in Hv'. injection Hv' as <-. exists sg. split_and!; [done..|]. rewrite (is_ctx _ _ _ His). apply (sees_books _ _ _ _ _ Hs), Hok.
Qed.

Lemma verify_proposal_kept tx B' r :
  blk_kind b = ProposalBlock tx → verify_ProposalBlock Implements registered e b tx B = Some (B', r) → kept B'.
Proof.
  intros Hk Hv. apply (unless_verified_cases W e) in Hv as [->|[Hpl Hv]]; [apply kept_same| |done|done].
  unfold parent_state in Hv. destruct (backend_GetState B (blk_PrntID b)) as [[n ps]|] eqn:Eps.
  2:{ destruct (ProposalTxExecutor _ _ _ _ _) as [[pr|err]|] eqn:Ex; [by apply proposal_needs_state in Ex|injection Hv as <- _; apply kept_mempool|done]. }
  destruct (ProposalTxExecutor _ _ _ _ _) as [[pr|err]|] eqn:Ex; [|injection Hv as <- _; apply kept_mempool|done].
  injection Hv as <- _. destruct (parent_books _ Eps) as (sg&Hsg&Hs&Hok&Hbk). pose proof (is_txs _ _ _ His _ Eps) as Hfit. unfold txs_fit in Hfit. rewrite Hk in Hfit.
  cbn [projT1 projT2] in *. destruct Hfit as (Hh&Hf&Hnew). rewrite <-(is_ctx _ _ _ His) in Hh.
  destruct (proposal_grown Implements registered e cfg (sg_elsewhere sg + map_supply (sg_memory sg) AVAX) ps (vw_current (sg_view sg)) (vw_pending (sg_view sg)) tx pr) as [Hc Ha];
    [apply His|apply Z.add_nonneg_nonneg; [etrans; [exact HE0|apply Hok]|apply memory_nonneg, Hok]|exact Hbk|done..|].
  rewrite (is_ctx _ _ _ His) in Hc, Ha. rewrite <-(rest_empty (sg_memory sg)) in Hc, Ha.
  apply (grown_reaches n ps sg ∅ (sg_elsewhere sg)) in Hc as (sgc&Hrc); [|done|done|done|set_solver]. apply (grown_reaches n ps sg ∅ (sg_elsewhere sg)) in Ha as (sga&Hra); [|done|done|done|set_solver].
  exists W. split; [|done]. eapply (proposal_inv W e B b Hinv His Hpl _ sg); try done; [unfold is_proposal; by rewrite Hk|].
  intros d [[= <-]|[= <-]]; (split; [done|]); eauto.
Qed.

(** What the ancestors have imported is not imported again. *)
Lemma unique_inputs m sg inputs :
  in_memory W B m → W !! blk_PrntID b = Some sg → verifyUniqueInputs B b inputs = Some (Ok tt) →
  ∃ T, sg_memory sg = rest m T ∧ T ## inputs.
Proof.
  intros Hm Hsg Hv. destruct (taken W B Hinv m _ Hm (is_parent _ _ _ His)) as (sg'&T&Hun&_&HT&Hcf).
  pose proof (under_known W B Hinv _ _ _ Hun Hsg) as ->. exists T. split; [done|].
  unfold verifyUniqueInputs in Hv. case_decide as Hin; [subst; set_solver|]. by eapply Hcf.
Qed.

Lemma there_rest (m m' : gmap ID UTXO) T I : m' = rest m T → T ## I → (∀ i, i ∈ I → is_Some (m !! i)) → ∀ i, i ∈ I → is_Some (m' !! i).
Proof. intros -> Hdis Hth i Hi. rewrite rest_lookup, decide_False by set_solver. by apply Hth. Qed.

Lemma verify_standard_kept txs B' r :
  blk_kind b = StandardBlock txs → verify_StandardBlock Implements registered SNLookup_SubnetID e b txs B = Some (B', r) → kept B'.
Proof.
  intros Hk Hv. apply (unless_verified_cases W e) in Hv as [->|[Hpl Hv]]; [apply kept_same| |done|done].
  unfold parent_state in Hv. destruct (backend_GetState B (blk_PrntID b)) as [[n ps]|] eqn:Eps; [|injection Hv as <- _; apply kept_same].
  destruct (execute_block _ _ _ _ _ _ _) as [[bt|err]|] eqn:Ex; [|injection Hv as <- _; destruct err; [apply kept_same|apply kept_mempool|apply kept_same]|done].
  destruct (verifyUniqueInputs B b (bt_Inputs bt)) as [[[]|err]|] eqn:Eu; [|injection Hv as <- _; apply kept_same|done]. injection Hv as <- _.
  destruct (parent_books _ Eps) as (sg&Hsg&Hs&Hok&Hbk). pose proof (is_txs _ _ _ His _ Eps) as Hfit. unfold txs_fit in Hfit. rewrite Hk in Hfit.
  cbn [projT1 projT2] in *. destruct Hfit as (Hnc&Hfit). destruct (some_memory W B Hinv) as [m Hm]. destruct (unique_inputs _ _ _ Hm Hsg Eu) as (T&HT&Hdis). pose proof Hm as (_&_&_&Hshow).
  destruct (standard_grown Implements registered (sm_Get (bk_memory B)) SNLookup_SubnetID e cfg m origin ps (sg_elsewhere sg) T
    (vw_current (sg_view sg)) (vw_pending (sg_view sg)) txs bt) as (Hg&_&Hrm&Hth);
    [apply His|apply His|apply His|by apply sm_Get_spec|done|done|rewrite <-HT, (is_ctx _ _ _ His) in *; exact Hbk|done|done|].
  rewrite (is_ctx _ _ _ His), rest_union, <-HT in Hg.
  apply (grown_reaches n ps sg (bt_Inputs bt) (sg_elsewhere sg + sent e txs)) in Hg as (sg'&Hre); [|done|done|pose proof (sent_nonneg e txs Hfit); lia|by eapply there_rest].
  assert (bt_Inputs bt = block_imports b) as Hinp by (unfold block_imports; rewrite Hk; by eapply block_inputs).
  apply (kept_put _ sg'); [done|]. eapply (decision_inv W e B b Hinv His Hpl _ _ sg sg'); try done; try exact Hrm; try exact Hinp; unfold is_proposal, is_option; rewrite Hk; tauto.
Qed.

Lemma verify_atomic_kept tx B' r :
  blk_kind b = AtomicBlock tx → verify_AtomicBlock Implements registered SNLookup_SubnetID e b tx B = Some (B', r) → kept B'.
Proof.
  intros Hk Hv. apply (unless_verified_cases W e) in Hv as [->|[Hpl Hv]]; [apply kept_same| |done|done].
  destruct (backend_GetState B (blk_PrntID b)) as [[n ps]|] eqn:Eps; [|injection Hv as <- _; apply kept_same].
  case_decide; [injection Hv as <- _; apply kept_same|].
  destruct (AtomicTxExecutor _ _ _ _ _ _ _) as [[x|err]|] eqn:Ex; [|injection Hv as <- _; apply kept_mempool|done].
  destruct (verifyUniqueInputs B b (ex_Inputs x)) as [[[]|err]|] eqn:Eu; [|injection Hv as <- _; apply kept_same|done]. injection Hv as <- _.
  destruct (parent_books _ Eps) as (sg&Hsg&Hs&Hok&Hbk). pose proof (is_txs _ _ _ His _ Eps) as Hfit. unfold txs_fit in Hfit. rewrite Hk in Hfit.
  cbn [projT1 projT2] in *. destruct Hfit as (Hrec&Hfit). destruct (some_memory W B Hinv) as [m Hm]. destruct (unique_inputs _ _ _ Hm Hsg Eu) as (T&HT&Hdis). pose proof Hm as (_&_&_&Hshow).
  destruct (atomic_grown Implements registered (sm_Get (bk_memory B)) SNLookup_SubnetID e cfg m origin ps (sg_elsewhere sg) T
    (vw_current (sg_view sg)) (vw_pending (sg_view sg)) tx x) as (Hg&Hrm&Hth);
    [apply His|apply His|apply His|by apply sm_Get_spec|done|done|rewrite <-HT, (is_ctx _ _ _ His) in *; exact Hbk|done|done|].
  rewrite (is_ctx _ _ _ His), rest_union, <-HT in Hg.
  apply (grown_reaches n ps sg (ex_Inputs x) (sg_elsewhere sg + exported AVAX (tx_Unsigned tx))) in Hg as (sg'&Hre);
    [|done|done|pose proof (exported_nonneg AVAX _ Hfit); lia|by eapply there_rest].
  assert (ex_Inputs x = block_imports b) as Hinp by (unfold block_imports; rewrite Hk; by eapply atomic_inputs).
  apply (kept_put _ sg'); [done|]. eapply (decision_inv W e B b Hinv His Hpl _ _ sg sg'); try done; try exact Hrm; try exact Hinp; unfold is_proposal, is_option; rewrite Hk; tauto.
Qed.

(** A commit or an abort takes over what its proposal has for it. *)
Lemma verify_option_kept (chosen : blockState → option block_diff) B' r :
  is_option b → (∀ bs d, chosen bs = Some d → bs_onCommitState bs = Some d ∨ bs_onAbortState bs = Some d) →
  verify_option chosen b B = Some (B', r) → kept B'.
Proof.
  intros Ho Hch Hv. apply (unless_verified_cases W e) in Hv as [->|[Hpl Hv]]; [apply kept_same| |done|done].
  destruct (bk_blkIDToState B !! blk_PrntID b) as [pbs|] eqn:Ep; [|injection Hv as <- _; apply kept_same].
  destruct (chosen pbs) as [d|] eqn:Ed; [|done]. injection Hv as <- _. apply Hch in Ed.
  pose proof (iv_entries _ _ _ _ _ Hinv _ _ Ep) as Hen. destruct (is_proposal_dec (bs_statelessBlock pbs)) as [Hp|Hp].
  - destruct (en_proposal _ _ _ _ _ Hen Hp) as (_&_&_&sg&Hsg&Hd). destruct (Hd d Ed) as (Hpar&sg'&Hre).
    apply (kept_put _ sg' (λ m, m)); [done|]. eapply (decision_inv W e B b Hinv His Hpl _ d sg sg'); try done.
    + by apply option_not_proposal.
    + by rewrite Hpar.
    + intros c k. simpl. unfold keys_of. split; [|set_solver]. intros (rq&Hc&_). by rewrite lookup_empty in Hc.
    + unfold is_option, block_imports in *. by destruct (blk_kind b).
    + intros _. split; [done|]. by exists pbs.
  - destruct (en_decision _ _ _ _ _ Hen Hp) as (Hc&Ha&_). rewrite Hc, Ha in Ed. by destruct Ed.
Qed.

Lemma Verify_kept B' r : Verify Implements registered SNLookup_SubnetID e b B = Some (B', r) → kept B'.
Proof.
  unfold Verify. intros Hv. destruct (blk_kind b) as [tx|tx|txs| |] eqn:Hk.
  - by eapply verify_proposal_kept.
  - by eapply verify_atomic_kept.
  - by eapply verify_standard_kept.
  - eapply verify_option_kept; [|intros bs d Hd; by left|exact Hv]. unfold is_option. by rewrite Hk.
  - eapply verify_option_kept; [|intros bs d Hd; by right|exact Hv]. unfold is_option. by rewrite Hk.
Qed.
End kinds.

(** ** Deciding *)

(** Some blocks are decided and leave. *)
Lemma settle_inv W B m' s' last' memory' :
  inv W B →
  (∀ j bs, m' !! j = Some bs → bk_blkIDToState B !! j = Some bs ∧ s_blocks s' !! j = None) →
  (∀ j, is_Some (bk_blkIDToState B !! j) → is_Some (m' !! j) ∨ is_Some (s_blocks s' !! j)) →
  (∀ j, is_Some (s_blocks (bk_state B) !! j) → is_Some (s_blocks s' !! j)) →
  (∀ j bs, m' !! j = Some bs → is_option (bs_statelessBlock bs) → m' !! parent bs = None → parent bs ≠ s_lastAccepted s') →
  (∃ sg, W !! s_lastAccepted s' = Some sg ∧ sees (s_chain s') (sg_view sg) ∧ sm_shows memory' (sg_memory sg) origin ∧ sound sg) →
  is_Some (s_blocks s' !! s_lastAccepted s') →
  (last' = s_lastAccepted s' ∨ ∃ bs, m' !! last' = Some bs ∧ is_proposal (bs_statelessBlock bs) ∧ parent bs = s_lastAccepted s') →
  inv_of W m' s' last' memory'.
Proof.
  intros [_ _ _ Hkn Hent] Hsub Hcov Hmono Hopt Hbase Hdec Hlast.
  assert (∀ j, is_Some (bk_blkIDToState B !! j) ∨ is_Some (s_blocks (bk_state B) !! j) → is_Some (m' !! j) ∨ is_Some (s_blocks s' !! j)) as Hsome.
  { intros j [Hj|Hj]; [by apply Hcov|right; by apply Hmono]. }
  split; [done..| |].
  - intros j Hj. by apply Hsome, Hkn.
  - intros j bs Hj. destruct (Hsub j bs Hj) as [Hj' Hn]. pose proof (Hent j bs Hj') as Hen.
    eapply entry_stays; [exact Hen|done|done|done|apply Hsome; by eapply en_parent| |intros Ho; by eapply Hopt].
    intros pbs Hp. by apply Hsub in Hp as [? _].
Qed.

(** What remains, and what is on disk. *)
Definition settled B b B' : Prop :=
  (∀ j bs, bk_blkIDToState B' !! j = Some bs → bk_blkIDToState B !! j = Some bs) ∧
  (s_lastAccepted (bk_state B') = s_lastAccepted (bk_state B) ∨ s_lastAccepted (bk_state B') = blk_id b).

Section deciding.
Context (W : gmap ID sight) B b bs (Hinv : inv W B) (Hbs : bk_blkIDToState B !! blk_id b = Some bs) (Hb : bs_statelessBlock bs = b).

Lemma decided_sees d sg sg' :
  W !! s_lastAccepted (bk_state B) = Some sg → bd_parentID d = s_lastAccepted (bk_state B) → reaches sg (bd_diff d) (bs_inputs bs) sg' →
  ∃ c, diff_Apply (s_chain (bk_state B)) (attach (bd_diff d) None) = Some c ∧ sees c (sg_view sg') ∧ sm_shows (bk_memory B) (sg_memory sg) origin.
Proof.
  intros Hsg _ (Hbt&_). destruct (iv_base _ _ _ _ _ Hinv) as (sg0&Hsg0&Hs&Hm&_). rewrite Hsg in Hsg0. injection Hsg0 as <-.
  destruct (apply_sees _ _ _ _ Hs Hbt) as (c&Hc&Hs'). eauto.
Qed.

(** The last accepted block, when its state is known, is the one on disk. *)
Lemma last_on_disk sg : W !! bk_lastAccepted B = Some sg → bk_lastAccepted B = s_lastAccepted (bk_state B).
Proof.
  intros Hsg. destruct (iv_last _ _ _ _ _ Hinv) as [?|(lbs&Hl&Hp&_)]; [done|]. by destruct (known_no_proposal W B Hinv _ _ Hsg _ Hl).
Qed.

Lemma block_not_last : blk_id b ≠ s_lastAccepted (bk_state B).
Proof. intros E. rewrite E, (base_not_in_memory W B Hinv) in Hbs. done. Qed.

(** A block is accepted unless the shared memory refuses its requests. *)
Definition refused (o : outcome) : Prop := sm_Apply (bs_atomicRequests bs) (bk_memory B) = None ∧ ∃ B', o = Some (B', Err errSharedMemoryApply).
Definition accepted (o : outcome) : Prop := ∃ B', o = Some (B', Ok tt) ∧ inv W B' ∧ settled B b B'.

Lemma accept_decision_kept :
  blk_PrntID b = bk_lastAccepted B → ¬ is_proposal b → ¬ is_option b → accepted (accept_decision b B) ∨ refused (accept_decision b B).
Proof.
  intros Hpar Hnp Hno. pose proof (iv_entries _ _ _ _ _ Hinv _ _ Hbs) as Hen. pose proof Hen as [_ _ _ _ _ Hrq _ Hde].
  rewrite Hb in Hde. destruct (Hde Hnp) as (_&_&d&sg&sg'&Hd&Hsg&Hsg'&Hre&Hdir&_). rewrite (Hdir Hno), Hpar in Hsg.
  pose proof (last_on_disk sg Hsg) as Hlast. rewrite Hlast in Hsg.
  destruct (decided_sees d sg sg' Hsg) as (c&Hc&Hs&Hm); [by rewrite (Hdir Hno), Hpar|done|].
  unfold accept_decision. change (bk_blkIDToState (commonAccept b B)) with (bk_blkIDToState B). rewrite Hbs. unfold apply_accepted. rewrite Hd.
  cbn [mbind option_bind]. change (s_chain (bk_state (commonAccept b B))) with (s_chain (bk_state B)). rewrite Hc. cbn [mbind option_bind].
  change (bk_memory (on_state (with_chain c) (commonAccept b B))) with (bk_memory B).
  destruct (sm_Apply (bs_atomicRequests bs) (bk_memory B)) as [memory'|] eqn:Hmem; [left|right; split; [done|by eexists]].
  destruct Hre as (_&Hrest&Hok&_&Hth). eexists. split; [reflexivity|]. split; [|split; [by cbn; intros j jbs [_ Hj]%lookup_delete_Some|by right]].
  pose proof block_not_last as Hnl. apply (settle_inv W B); cbn.
  - done.
  - intros j jbs [Hne Hj]%lookup_delete_Some. split; [done|]. rewrite lookup_insert_ne by done. by eapply en_undecided, (iv_entries _ _ _ _ _ Hinv).
  - intros j Hj. destruct (decide (blk_id b = j)) as [<-|Hne]; [right; rewrite lookup_insert_eq; by eexists|left; by rewrite lookup_delete_ne].
  - intros j Hj. rewrite lookup_insert. case_decide; [by eexists|done].
  - intros j jbs [Hne Hj]%lookup_delete_Some Ho Hn E. pose proof (iv_entries _ _ _ _ _ Hinv _ _ Hj) as Hj'.
    destruct (en_decision _ _ _ _ _ Hj' (option_not_proposal _ Ho)) as (_&_&d'&s1&s2&_&_&_&_&_&Hopt). destruct (Hopt Ho) as [_ Hp].
    rewrite E, Hbs, Hb in Hp. by destruct Hp.
  - exists sg'. split; [done|]. split; [done|]. split; [|done]. rewrite Hrest. by eapply sm_Apply_spec.
  - rewrite lookup_insert_eq. by eexists.
  - by left.
Qed.

(** The proposal of an option that is accepted was accepted last. *)
Lemma option_proposal d :
  blk_PrntID b = bk_lastAccepted B → is_option b → bs_onAcceptState bs = Some d →
  ∃ pbs, bk_blkIDToState B !! blk_PrntID b = Some pbs ∧ is_proposal (bs_statelessBlock pbs) ∧ blk_id (bs_statelessBlock pbs) = blk_PrntID b ∧
    parent pbs = s_lastAccepted (bk_state B) ∧ bd_parentID d = s_lastAccepted (bk_state B) ∧ blk_PrntID b ≠ blk_id b.
Proof.
  intros Hpar Ho Hd. pose proof (iv_entries _ _ _ _ _ Hinv _ _ Hbs) as Hen. pose proof Hen as [_ _ _ _ Hbelow _ _ Hde]. rewrite Hb in Hde, Hbelow.
  destruct (Hde (option_not_proposal _ Ho)) as (_&_&d'&sg&sg'&Hd'&_&_&_&_&Hopt). rewrite Hd in Hd'. injection Hd' as <-. destruct (Hopt Ho) as [_ Hp].
  destruct (bk_blkIDToState B !! blk_PrntID b) as [pbs|] eqn:Ep.
  - destruct Hp as [Hpp Hpe]. destruct (iv_last _ _ _ _ _ Hinv) as [E|(lbs&Hl&_&Hlp)].
    { rewrite Hpar, E, (base_not_in_memory W B Hinv) in Ep. done. }
    rewrite <-Hpar, Ep in Hl. injection Hl as <-. exists pbs. split_and!; try done; [by eapply en_id, (iv_entries _ _ _ _ _ Hinv)|by rewrite Hpe|].
    intros E. specialize (Hbelow pbs eq_refl). rewrite E, Hbs in Ep. injection Ep as <-. rewrite Hb in Hbelow. lia.
  - exfalso. destruct (iv_last _ _ _ _ _ Hinv) as [E|(lbs&Hl&_&_)]; [by rewrite Hpar in Hp|]. by rewrite Hpar, Hl in Ep.
Qed.

Lemma accept_option_kept :
  blk_PrntID b = bk_lastAccepted B → is_option b → accepted (accept_option b B).
Proof.
  intros Hpar Ho. pose proof (iv_entries _ _ _ _ _ Hinv _ _ Hbs) as Hen. pose proof Hen as [_ _ _ _ _ _ _ Hde]. rewrite Hb in Hde.
  destruct (Hde (option_not_proposal _ Ho)) as (_&_&d&sg&sg'&Hd&Hsg&Hsg'&Hre&_&Hopt). destruct (Hopt Ho) as [Hin _].
  destruct (option_proposal d Hpar Ho Hd) as (pbs&Hp&Hpp&Hpid&Hppar&Hdp&Hne). rewrite Hdp in Hsg.
  destruct (decided_sees d sg sg' Hsg Hdp Hre) as (c&Hc&Hs&Hm).
  unfold accept_option. rewrite Hp. set (B1 := commonAccept b _). change (bk_blkIDToState B1) with (bk_blkIDToState B). rewrite Hbs. unfold apply_accepted. rewrite Hd.
  cbn [mbind option_bind]. change (s_chain (bk_state B1)) with (s_chain (bk_state B)). rewrite Hc. cbn [mbind option_bind]. eexists. split; [reflexivity|].
  split; [|split; [by cbn; intros j jbs [_ [_ Hj]%lookup_delete_Some]%lookup_delete_Some|by right]].
  pose proof block_not_last as Hnl. unfold inv. subst B1. cbn. rewrite Hpid. apply (settle_inv W B); cbn.
  - done.
  - intros j jbs [Hn1 [Hn2 Hj]%lookup_delete_Some]%lookup_delete_Some. split; [done|]. rewrite !lookup_insert_ne by done. by eapply en_undecided, (iv_entries _ _ _ _ _ Hinv).
  - intros j Hj. rewrite lookup_delete, lookup_insert. case_decide; [right; by eexists|]. rewrite lookup_delete, lookup_insert. case_decide; [right; by eexists|by left].
  - intros j Hj. rewrite !lookup_insert. case_decide; [by eexists|]. case_decide; [by eexists|done].
  - intros j jbs [Hn1 [Hn2 Hj]%lookup_delete_Some]%lookup_delete_Some Hjo Hn E. pose proof (iv_entries _ _ _ _ _ Hinv _ _ Hj) as Hj'.
    destruct (en_decision _ _ _ _ _ Hj' (option_not_proposal _ Hjo)) as (_&_&d'&s1&s2&_&_&_&_&_&Hopt'). destruct (Hopt' Hjo) as [_ Hjp].
    rewrite E, Hbs, Hb in Hjp. destruct Hjp as [Hjp _]. by apply (option_not_proposal b Ho).
  - exists sg'. split; [done|]. split; [done|]. destruct Hre as (_&Hrest&Hok&_). split; [|done]. by rewrite Hrest, Hin, rest_empty.
  - rewrite lookup_insert_eq. by eexists.
  - by left.
Qed.

Lemma accept_proposal_kept : blk_PrntID b = bk_lastAccepted B → is_proposal b → inv W (set_lastAccepted (blk_id b) B).
Proof.
  intros Hpar Hp. pose proof (iv_entries _ _ _ _ _ Hinv _ _ Hbs) as Hen. pose proof Hen as [_ _ _ _ _ _ Hpr _]. rewrite Hb in Hpr.
  destruct (Hpr Hp) as (_&_&_&sg&Hsg&_). rewrite Hpar in Hsg. pose proof (last_on_disk sg Hsg) as Hlast.
  pose proof Hinv as [Hbase Hdec _ Hkn Hent]. split; try done. right. exists bs. rewrite Hb. split; [done|]. split; [done|]. cbn. congruence.
Qed.

Lemma Accept_kept : blk_PrntID b = bk_lastAccepted B → accepted (Accept b B) ∨ refused (Accept b B).
Proof.
  intros Hpar. unfold Accept. destruct (blk_kind b) as [tx|tx|txs| |] eqn:Hk.
  - left. eexists. split; [reflexivity|]. split; [|split; [done|by left]]. apply accept_proposal_kept; [done|]. unfold is_proposal. by rewrite Hk.
  - apply accept_decision_kept; [done|unfold is_proposal; rewrite Hk; tauto|unfold is_option; rewrite Hk; tauto].
  - apply accept_decision_kept; [done|unfold is_proposal; rewrite Hk; tauto|unfold is_option; rewrite Hk; tauto].
  - left. apply accept_option_kept; [done|]. unfold is_option. by rewrite Hk.
  - left. apply accept_option_kept; [done|]. unfold is_option. by rewrite Hk.
Qed.

Lemma Reject_kept : blk_id b ≠ bk_lastAccepted B → inv W (Reject b B).
Proof.
  intros Hne. pose proof block_not_last as Hnl. unfold inv, Reject. cbn. pose proof Hinv as [Hbase Hdec Hlast _ _]. apply (settle_inv W B); cbn.
  - done.
  - intros j jbs [Hn Hj]%lookup_delete_Some. split; [done|]. rewrite lookup_insert_ne by done. by eapply en_undecided, (iv_entries _ _ _ _ _ Hinv).
  - intros j Hj. rewrite lookup_delete, lookup_insert. case_decide; [right; by eexists|by left].
  - intros j Hj. rewrite lookup_insert. case_decide; [by eexists|done].
  - intros j jbs [Hn Hj]%lookup_delete_Some Ho Hno. rewrite lookup_delete in Hno. case_decide as Hd; [rewrite <-Hd; exact Hnl|].
    eapply option_parent; [by eapply (iv_entries _ _ _ _ _ Hinv)|done|done].
  - done.
  - rewrite lookup_insert_ne by done. done.
  - destruct Hlast as [?|(lbs&Hl&Hlp)]; [by left|right]. exists lbs. by rewrite lookup_delete_ne.
Qed.
End deciding.

Lemma live_last W B : inv W B → live B (bk_lastAccepted B).
Proof.
  intros Hinv. destruct (iv_last _ _ _ _ _ Hinv) as [->|(bs&Hbs&_&Hp)]; [constructor|]. eapply live_child; [exact Hbs|]. rewrite Hp. constructor.
Qed.

(** Blocks that are live afterwards were live before. *)
Lemma settled_live W B b bs B' id :
  inv W B → bk_blkIDToState B !! blk_id b = Some bs → bs_statelessBlock bs = b → blk_PrntID b = bk_lastAccepted B →
  settled B b B' → live B' id → live B id.
Proof.
  intros Hinv Hbs Hb Hpar [Hsub Hlast]. induction 1 as [|id bs' Hid _ IH].
  - destruct Hlast as [->| ->]; [constructor|]. eapply live_child; [exact Hbs|]. rewrite Hb, Hpar. by eapply live_last.
  - eapply live_child; [by apply Hsub|done].
Qed.

(** ** From the start *)

(** A manager that has just been made, over a state on disk whose books are in order. *)
Record start B : Prop := mkStart {
  sa_empty : bk_blkIDToState B = ∅;
  sa_last : bk_lastAccepted B = s_lastAccepted (bk_state B);
  sa_decided : is_Some (s_blocks (bk_state B) !! s_lastAccepted (bk_state B));
  sa_balanced : ∃ m, sm_shows (bk_memory B) m origin ∧ balanced cfg ctx (E0 + map_supply m AVAX) (s_chain (bk_state B));
}.

Lemma balanced_sees {C P U' X'} `{!StakerSet C, !StakerSetLaws C, !StakerSet P, !StakerSetLaws P, !UTXOSet U', !UTXOSetLaws U', !Ledger X', !LedgerLaws X'} el (c : chain C P U' X') :
  balanced cfg ctx el c → ∃ V, sees c V ∧ view_books cfg ctx el V.
Proof.
  intros (spc&spp&[Hc Hp Hu Hl Hac]).
  exists (mkView (ch_timestamp c) (ch_currentSupply c) spc spp (utxo_view (ch_utxos c)) (txs_of (ch_ledger c))). by split.
Qed.

Lemma start_inv B : start B → ∃ W, inv W B.
Proof.
  intros [He Hl Hd (m&Hm&Hb)]. apply balanced_sees in Hb as (V&Hs&Hbk).
  set (sg := mkSight V m E0). exists {[s_lastAccepted (bk_state B) := sg]}. unfold inv. rewrite He, Hl. split.
  - exists sg. split; [by rewrite lookup_singleton_eq|]. split; [done|]. split; [done|]. split; [done| |done]. intros i u. eapply mh_amounts. by apply sm_Get_spec.
  - done.
  - by left.
  - intros id [x Hx]. apply lookup_singleton_Some in Hx as [<- _]. by right.
  - intros id bs Hid. by rewrite lookup_empty in Hid.
Qed.

Lemma steps_inv B0 B : start B0 → rtc block_step B0 B → ∃ W, inv W B.
Proof.
  intros [W HW]%start_inv. intros Hsteps. revert W HW. induction Hsteps as [B|B B1 B' Hs _ IH]; intros W HW; [by exists W|].
  destruct Hs as [e b B1 r His Hv|b bs B1 Hbs Hb Hpar Hne Ha|b bs Hbs Hb Hne].
  - destruct (Verify_kept W e B b HW His _ _ Hv) as (W'&HW'&_). by eapply IH.
  - destruct (Accept_kept W B b bs HW Hbs Hb Hpar) as [(B2&Ha'&HW'&_)|[_ [B2 Ha']]]; rewrite Ha in Ha'; [|done]. injection Ha' as ->. by eapply IH.
  - eapply IH. by eapply Reject_kept.
Qed.

(** C39: In every state the manager can reach, each live block either is a proposal that
    waits for its commit or abort, or has a state, which [GetState] finds through all
    the differences it is made of; and the books of that state are in order, with
    what the memory shows less what the block and the blocks it descends from import
    ([imported]): AVAX in outputs, staked, promised, in the rest of the memory and
    elsewhere is at most the supply. *)
Theorem block_states_balanced B0 B id :
  start B0 → rtc block_step B0 B → live B id →
  (∃ bs, bk_blkIDToState B !! id = Some bs ∧ is_proposal (bs_statelessBlock bs) ∧ backend_GetState B id = None) ∨
  ∃ v m elsewhere T, backend_GetState B id = Some v ∧ sm_shows (bk_memory B) m origin ∧ imported B id T ∧ E0 ≤ elsewhere ∧
    balanced cfg ctx (elsewhere + map_supply (rest m T) AVAX) (projT2 v : chain_at U X (projT1 v)).
Proof.
  intros Hstart Hsteps Hl. destruct (steps_inv B0 B Hstart Hsteps) as [W Hinv].
  destruct (parent_cases W B id Hinv Hl) as [(v&sg&Hv&Hsg&Hs&Hok)|[Hn (bs&Hbs&Hp)]]; [right|left; by exists bs].
  destruct (some_memory W B Hinv) as [m Hm]. destruct (taken W B Hinv m id Hm Hl) as (sg'&T&Hun&Him&HT&_). pose proof (under_known W B Hinv _ _ _ Hun Hsg) as ->.
  exists v, m, (sg_elsewhere sg'), T. split; [done|]. split; [by destruct Hm as (_&_&_&?)|]. split; [done|]. split; [apply Hok|]. rewrite <-HT.
  eexists _, _. apply (sees_books _ _ _ _ _ Hs), Hok.
Qed.

(** C40: Accepting a block does not panic, and fails only when the shared memory refuses
    what the block asks of it.  Otherwise nobody else notices: the difference is
    applied to the state on disk, and each block that is live afterwards, whose state
    is now found through one difference less, shows the same stakers, outputs,
    transactions, time and supply as before. *)
Theorem accept_keeps_views B0 B b bs :
  start B0 → rtc block_step B0 B →
  bk_blkIDToState B !! blk_id b = Some bs → bs_statelessBlock bs = b → blk_PrntID b = bk_lastAccepted B →
  refused B bs (Accept b B) ∨ ∃ B', Accept b B = Some (B', Ok tt) ∧ ∀ id, live B' id →
    match backend_GetState B id, backend_GetState B' id with
    | Some v, Some v' => ∃ V, shows v V ∧ shows v' V
    | None, None => True
    | _, _ => False
    end.
Proof.
  intros Hstart Hsteps Hbs Hb Hpar. destruct (steps_inv B0 B Hstart Hsteps) as [W Hinv].
  destruct (Accept_kept W B b bs Hinv Hbs Hb Hpar) as [(B'&Ha&Hinv'&Hset)|?]; [right|by left].
  exists B'. split; [done|]. intros id Hl'.
  pose proof (settled_live W B b bs B' id Hinv Hbs Hb Hpar Hset Hl') as Hl.
  destruct (parent_cases W B' id Hinv' Hl') as [(v'&sg&Hv'&Hsg&Hs'&_)|[Hn (pbs&Hp&Hpp)]].
  - destruct (state_of_shows W B Hinv id Hl (known_no_proposal W B Hinv id sg Hsg)) as (v&sg0&Hv&Hsg0&Hs&_).
    rewrite Hsg in Hsg0. injection Hsg0 as <-. rewrite Hv, Hv'. eauto.
  - rewrite Hn, (proposal_no_state W B Hinv id pbs); [done|by apply Hset|done].
Qed.

(** A commit or an abort whose parent is no proposal: the verifier looks for the time
    of a state that is nil. *)
Lemma option_over_decision_panics B0 B e b pbs :
  start B0 → rtc block_step B0 B → is_option b →
  bk_blkIDToState B !! blk_id b = None → bk_blkIDToState B !! blk_PrntID b = Some pbs → ¬ is_proposal (bs_statelessBlock pbs) →
  wrap64 (height pbs + 1) = blk_Hght b → Verify Implements registered SNLookup_SubnetID e b B = None.
Proof.
  intros Hstart Hsteps Ho Hm Hp Hnp Hh. destruct (steps_inv B0 B Hstart Hsteps) as [W Hinv].
  destruct (en_decision _ _ _ _ _ (iv_entries _ _ _ _ _ Hinv _ _ Hp) Hnp) as (Hc&Ha&_).
  unfold Verify. unfold is_option in Ho. destruct (blk_kind b); try done; unfold verify_option, unless_verified, backend_GetBlock; rewrite Hm, Hp; simpl;
    rewrite decide_False by (intros Hne; by apply Hne); by rewrite ?Hc, ?Ha.
Qed.
End blocks.

(** ** A proposal that pays a validator, its commit, and a block over it that imports *)

Section example.
#[local] Existing Instances toy_crypto list_BTree list_BTreeLaws go_range_std go_sort_std go_append_tight.
Abbreviation implements := (λ (_ : gotype) (_ : positive), true).

(** A memory with one output, until that is removed. *)
Definition key_removed (c : ID) (k : bytes) (requests : gmap ID Requests) : bool :=
  match requests !! c with Some r => bool_decide (k ∈ RemoveRequests r) | None => false end.

Lemma key_removed_spec c k requests : key_removed c k requests = true ↔ removed c k requests.
Proof. unfold key_removed, removed. destruct (requests !! c); rewrite ?bool_decide_eq_true; naive_solver. Qed.

#[local] Instance ex_Memory : SharedMemory bool := {|
  sm_Get (there : bool) (source : ID) (keys : list bytes) := if there then ex_get source keys else mapM (λ _ : bytes, @None bytes) keys;
  sm_Apply (requests : gmap ID Requests) (there : bool) := Some (there && negb (key_removed (id1 x0c) (id_bytes (utxo_InputID ex_foreign)) requests));
|}.

#[local] Instance ex_MemoryLaws : SharedMemoryLaws implements ex_registered bool.
Proof.
  refine {| sm_shows (there : bool) m origin := m = (if there then ex_memory else ∅) ∧ origin (utxo_InputID ex_foreign) = id1 x0c |}.
  - intros [|] m origin [-> Ho].
    + destruct ex_memory_holds as [Ha Hg]. split; [done|]. intros source keys bs us Hget Hun. eapply Forall2_impl; [by eapply Hg|].
      intros k u (i&Hk&Hi&Hs). exists i. split; [done|]. split; [done|]. unfold ex_memory in Hi. apply lookup_singleton_Some in Hi as [<- _]. by rewrite Ho.
    + split; [intros i u; by rewrite lookup_empty|]. intros source [|k keys] bs us Hget Hun; [|done]. injection Hget as <-. injection Hun as <-. constructor.
  - intros requests there s' m origin I [-> Ho] [= <-] Hrm Hth. split; [|done]. apply map_eq. intros i. rewrite rest_lookup. destruct there; simpl.
    2:{ rewrite lookup_empty. by case_decide. }
    destruct (decide (i = utxo_InputID ex_foreign)) as [->|Hne].
    + assert (key_removed (id1 x0c) (id_bytes (utxo_InputID ex_foreign)) requests = true ↔ utxo_InputID ex_foreign ∈ I) as Hiff.
      { rewrite key_removed_spec, Hrm. unfold keys_of. split; [intros (j&Hj&E%ID_eq&_); congruence|eauto]. }
      destruct (key_removed _ _ _) eqn:Ek; case_decide as Hi; simpl; try done; exfalso; naive_solver.
    + assert (ex_memory !! i = None) as Hn by (apply lookup_singleton_ne; congruence). destruct (negb _); rewrite ?Hn, ?lookup_empty; by case_decide.
Defined.

#[local] Instance ex_Mempool : Mempool unit := {|
  mempool_Add _ m := m; RemoveProposalTx _ m := m; RemoveDecisionTxs _ m := m; MarkDropped _ m := m |}.

Abbreviation ex_manager := (backend (gmap ID UTXO) map_ledger unit bool).
Abbreviation ex_chain_at := (chain_at (gmap ID UTXO) map_ledger).
Definition ex_disk (x : Staker) : baseStakers := default newBaseStakers (apply_stakers (diff_run [PutValidatorOp x]) newBaseStakers).
Definition ex_root : ID := id1 x20.
Definition ex_B0 : ex_manager :=
  mkBackend tt ex_root ∅ (mkState (mkChain (100 * Second) 28 (ex_disk ex_active) (ex_disk ex_waiting) ∅ ex_ledger) ex_root 0
    {[ ex_root := (mkBlock ex_root Empty 0 CommitBlock, Topological.Accepted) ]}) true [].
Definition ex_import_later : Tx := mkTx (tx_Unsigned ex_import) (tx_Creds ex_import) (id1 x06).
Definition ex_proposal : block := mkBlock (id1 x21) ex_root 1 (ProposalBlock ex_pay_tx).
Definition ex_commit : block := mkBlock (id1 x22) (id1 x21) 2 CommitBlock.
Definition ex_standard : block := mkBlock (id1 x23) (id1 x22) 3 (StandardBlock [ex_import_later]).

Definition ex_verify (b : block) (B : ex_manager) :=
  Verify implements ex_registered (λ _, Some PrimaryNetworkID) (ex_backend (100 * Second)) b B.
Definition ex_after (b : block) (B : ex_manager) : ex_manager :=
  match ex_verify b B with Some (B', _) => B' | None => B end.
Definition ex_passes (b : block) (B : ex_manager) : bool :=
  match ex_verify b B with Some (_, Ok _) => true | _ => false end.
Definition ex_B1 := ex_after ex_proposal ex_B0.
Definition ex_B2 := ex_after ex_commit ex_B1.
Definition ex_B3 := ex_after ex_standard ex_B2.

Lemma ex_passes_verify b (B : ex_manager) : ex_passes b B = true → ∃ r, ex_verify b B = Some (ex_after b B, r).
Proof. unfold ex_passes, ex_after. destruct (ex_verify b B) as [[B' r]|]; [by eexists|done]. Qed.

(** What must be seen of the states: where blocks are, and which transactions are. *)
Definition ex_parent (B : ex_manager) (id : ID) : option ID :=
  (λ bs, blk_PrntID (bs_statelessBlock bs)) <$> bk_blkIDToState B !! id.
Definition ex_fresh (B : ex_manager) (b : block) (tx : Tx) : bool :=
  match backend_GetState B (blk_PrntID b) with
  | Some v => match txs_of (ch_ledger (projT2 v : ex_chain_at (projT1 v))) (tx_id tx) with None => true | Some _ => false end
  | None => true
  end.

Lemma ex_fresh_records (B : ex_manager) b tx v : ex_fresh B b tx = true → backend_GetState B (blk_PrntID b) = Some v →
  records tx (txs_of (ch_ledger (projT2 v : ex_chain_at (projT1 v)))).
Proof. unfold ex_fresh. intros Hf Hv. rewrite Hv in Hf. intros t st Ht. by rewrite Ht in Hf. Qed.

Lemma ex_live_child (B : ex_manager) id p : ex_parent B id = Some p → live B p → live B id.
Proof. unfold ex_parent. intros (bs&Hbs&->)%fmap_Some Hl. by eapply live_child. Qed.

Lemma ex_live_root (B : ex_manager) : s_lastAccepted (bk_state B) = ex_root → live B ex_root.
Proof. intros <-. constructor. Qed.

Lemma ex_disk_represents x : represents (ex_disk x) (one_validator x).
Proof.
  destruct (apply_run newBaseStakers (mkStakersSpec ∅ ∅ ∅) [PutValidatorOp x] (one_validator x)) as (v&Hv&Hr); [apply represents_new| | |].
  - cbn [spec_run spec_step sp_used sp_validators]. rewrite decide_True by (split; [set_solver|apply lookup_empty]). cbn [mbind option_bind sp_delegators].
    unfold one_validator. by rewrite (right_id_L ∅ (∪)).
  - apply Forall_singleton. cbn. by try (apply lookup_empty).
  - unfold ex_disk. by rewrite Hv.
Qed.

Lemma ex_start : start implements ex_registered ex_rewards ex_ctx (λ _, id1 x0c) 1 ex_B0.
Proof.
  split; [done|done|by eexists|]. exists ex_memory. split; [by split|].
  assert (map_supply ex_memory (ctx_AVAXAssetID ex_ctx) = 4) as -> by (unfold map_supply, ex_memory; rewrite map_to_list_singleton; reflexivity).
  exists (one_validator ex_active), (one_validator ex_waiting). destruct (ex_books (100 * Second)) as [_ _ Hu Hl Ha].
  split; [apply ex_disk_represents|apply ex_disk_represents|exact Hu|exact Hl|exact Ha].
Qed.

Lemma ex_issued b (B : ex_manager) :
  s_blocks (bk_state B) !! blk_id b = None → live B (blk_PrntID b) → 0 < blk_Hght b < 2 ^ 64 →
  (∀ v, backend_GetState B (blk_PrntID b) = Some v →
    txs_fit implements ex_registered ex_ctx (txs_of (ch_ledger (projT2 v : ex_chain_at (projT1 v)))) b) →
  issued implements ex_registered ex_rewards ex_ctx (ex_backend (100 * Second)) B b.
Proof.
  intros Hn Hl Hh Ht. split; [done..| | |done|done].
  - split; [apply ex_rewards_ok|done|vm_compute; done|done|unfold is_uint; simpl; lia|unfold is_uint; simpl; lia|done].
  - split; unfold is_uint; simpl; lia.
Qed.

Lemma ex_steps : rtc (block_step implements ex_registered (λ _, Some PrimaryNetworkID) ex_rewards ex_ctx) ex_B0 ex_B3.
Proof.
  assert (ex_passes ex_proposal ex_B0 && ex_passes ex_commit ex_B1 && ex_passes ex_standard ex_B2 = true) as [[Hp Hc]%andb_prop Hs]%andb_prop by (vm_compute; reflexivity).
  apply ex_passes_verify in Hp as [rp Hp]. apply ex_passes_verify in Hc as [rc Hc]. apply ex_passes_verify in Hs as [rs Hs].
  assert (ex_parent ex_B1 (id1 x21) = Some ex_root) as P1 by (vm_compute; reflexivity).
  assert (ex_parent ex_B2 (id1 x21) = Some ex_root) as P2 by (vm_compute; reflexivity).
  assert (ex_parent ex_B2 (id1 x22) = Some (id1 x21)) as P3 by (vm_compute; reflexivity).
  assert (ex_fresh ex_B0 ex_proposal ex_pay_tx = true) as F1 by (vm_compute; reflexivity).
  assert (ex_fresh ex_B2 ex_standard ex_import_later = true) as F2 by (vm_compute; reflexivity).
  assert (s_lastAccepted (bk_state ex_B1) = ex_root) as L1 by (vm_compute; reflexivity).
  assert (s_lastAccepted (bk_state ex_B2) = ex_root) as L2 by (vm_compute; reflexivity).
  assert (s_blocks (bk_state ex_B1) !! blk_id ex_commit = None) as N1 by (vm_compute; reflexivity).
  assert (s_blocks (bk_state ex_B2) !! blk_id ex_standard = None) as N2 by (vm_compute; reflexivity).
  eapply rtc_l; [eapply (step_verify _ _ _ _ _ ex_B0); [|exact Hp]|eapply rtc_l; [eapply (step_verify _ _ _ _ _ ex_B1); [|exact Hc]|
    eapply rtc_once, (step_verify _ _ _ _ _ ex_B2); [|exact Hs]]].
  - apply ex_issued; [done|by apply ex_live_root|simpl; lia|]. intros v Hv. split; [done|]. split; [done|]. by eapply ex_fresh_records.
  - apply ex_issued; [exact N1| |simpl; lia|done]. eapply ex_live_child; [exact P1|by apply ex_live_root].
  - apply ex_issued; [exact N2| |simpl; lia|].
    + eapply ex_live_child; [exact P3|]. eapply ex_live_child; [exact P2|by apply ex_live_root].
    + intros v Hv. split; [split|].
      * intros t ->%list_elem_of_singleton. by eapply ex_fresh_records.
      * intros t t' ->%list_elem_of_singleton ->%list_elem_of_singleton. done.
      * apply Forall_singleton, ex_import_fits.
Qed.

Lemma block_states_balanced_witness :
  live ex_B3 (id1 x23) ∧ ∃ v m elsewhere T, backend_GetState ex_B3 (id1 x23) = Some v ∧
    sm_shows (SharedMemoryLaws := ex_MemoryLaws) (bk_memory ex_B3) m (λ _, id1 x0c) ∧ imported ex_B3 (id1 x23) T ∧ 1 ≤ elsewhere ∧
    balanced ex_rewards ex_ctx (elsewhere + map_supply (rest m T) (ctx_AVAXAssetID ex_ctx)) (projT2 v : ex_chain_at (projT1 v)).
Proof.
  assert (live ex_B3 (id1 x23)) as Hl.
  { eapply ex_live_child; [vm_compute; reflexivity|]. eapply ex_live_child; [vm_compute; reflexivity|]. eapply ex_live_child; [vm_compute; reflexivity|].
    apply ex_live_root. vm_compute. reflexivity. }
  split; [done|].
  destruct (block_states_balanced implements ex_registered (λ _, Some PrimaryNetworkID) ex_rewards ex_ctx (λ _, id1 x0c) 1 ltac:(lia) ex_B0 ex_B3 (id1 x23) ex_start ex_steps Hl)
    as [(bs&_&_&Hn)|Hb]; [|exact Hb].
  exfalso. assert (match backend_GetState ex_B3 (id1 x23) with Some _ => true | None => false end = true) as Hs by (vm_compute; reflexivity).
  by rewrite Hn in Hs.
Defined.

Definition ex_B4 : ex_manager := set_lastAccepted (blk_id ex_proposal) ex_B3.

Lemma accept_keeps_views_witness :
  ∃ B', Accept ex_commit ex_B4 = Some (B', Ok tt) ∧ ∀ id, live B' id →
    match backend_GetState ex_B4 id, backend_GetState B' id with
    | Some v, Some v' => ∃ V, shows v V ∧ shows v' V
    | None, None => True
    | _, _ => False
    end.
Proof.
  assert (bs_statelessBlock <$> bk_blkIDToState ex_B3 !! blk_id ex_proposal = Some ex_proposal) as (bsp&Hp&Ep)%fmap_Some by (vm_compute; reflexivity).
  assert (bs_statelessBlock <$> bk_blkIDToState ex_B4 !! blk_id ex_commit = Some ex_commit) as (bsc&Hc&Ec)%fmap_Some by (vm_compute; reflexivity).
  assert (bk_lastAccepted ex_B3 = ex_root) as L3 by (vm_compute; reflexivity).
  destruct (accept_keeps_views implements ex_registered (λ _, Some PrimaryNetworkID) ex_rewards ex_ctx (λ _, id1 x0c) 1 ltac:(lia) ex_B0 ex_B4 ex_commit bsc ex_start) as [[_ [B' Hr]]|Hok].
  - eapply rtc_r; [exact ex_steps|]. eapply (step_accept _ _ _ _ _ ex_B3 ex_proposal bsp); [exact Hp|done|by rewrite L3|by rewrite L3|reflexivity].
  - exact Hc.
  - done.
  - done.
  - exfalso. assert (match Accept ex_commit ex_B4 with Some (_, Ok _) => true | _ => false end = true) as Ha by (vm_compute; reflexivity).
    by rewrite Hr in Ha.
  - exact Hok.
Defined.
End example.
